(* ===== verification/_CoqProject ===== *)
-Q . S2P
Prelude.v
Dates.v
StErr.v
Hex.v
Str.v
Op.v
Node.v
Policy.v
Frontier.v
Storage.v
Lww.v
FracIdx.v
ListCrdt.v
Conflicts.v
Caches.v
CacheFacts.v
TextState.v
Graph.v
GraphFacts.v
GraphOps.v
GraphBatch.v
Replica.v
Fenwick.v
Text.v
Utf8.v
Toy.v
GraphThms.v
Replay.v
Compaction.v
Token.v
Profile.v
Glob.v
Crypto.v
TextRange.v
Ibf.v
Mst.v
Gc.v
GcFacts.v
DirStore.v
GcStore.v
GcStoreFacts.v
DirFacts.v
Persist.v
PersistFacts.v
Rga.v
TextChunks.v
TextDoc.v
TextThms.v
TopoStore.v
HostTypes.v
TreeWalk.v
HostState.v
Host.v
HostFacts.v
HostText.v
HostImport.v
HostThms.v
Room.v
Membership.v
Admission.v
Query.v
Registry.v
Studio.v
StudioThms.v
Wire.v
Topology.v
Promotion.v
Archive.v
Session.v
BlobHttp.v
RegistryFacts.v
SessionThms.v
RegistryThms.v
TopoThms.v
HostExamples.v
TextLive.v
DirExamples.v
RoomExamples.v
SessionExamples.v
