(* ===== verification/Prelude.v ===== *)
(** * NodalMerge: a verification development

    NodalMerge keeps a shared document as a graph of signed operations.  Peers exchange
    nodes of that graph; maps, lists, texts and blobs are read from it, and the result
    depends on the set of nodes alone.  The repository has four parts, all modelled from
    their Rust sources under src/:

    - the core crate (core/crdt): operations, signed nodes, the graph, its caches, the
      text projection, replay and compaction, sets of ids to reconcile, encryption;
    - the garbage collector of blobs (core/gc), over interfaces the server implements;
    - the host engine (engine/host-core): a command interpreter over many rooms, used by
      the bindings;
    - the server (server/server, server/capability-profile): rooms with durable stores,
      eviction and hydration, blob sweeps, families of rooms with promotions, projections,
      archives, the live set of the studio's trees, and the WebSocket sessions through
      which clients use all of it.

    ** How the model is built

    A pure function is a function; a method is a function from the old state to the new
    one and its result.  An error that leaves changes behind returns the changed state
    (StErr.v is the monad for that, with triples).  A loop without an obvious measure has
    fuel, and a theorem says how much is enough.  What runs concurrently is split at its
    locks and awaits into steps, and a step relation interleaves them.  A machine integer
    is a [Z]; where the source wraps or saturates, the model does.  A hash map that is
    iterated in no fixed order is a list argument, or the theorem quantifies over orders;
    two orders are fixed in the model: a local node lists its parents, and a pack its
    nodes, in the order of [elements] and [map_to_list], where the source has the order
    of a hash table.
    I/O that may fail consumes a schedule of outcomes that is part of the state.  Wall
    clocks are arguments.

    Code outside the repository is a class without an implementation: [Blake3],
    [Blake3Keyed], [Postcard] (the binary codec), [Ed25519], [Hkdf], [Aead], [Zstd],
    [Json], [JsonRead], [Serde], [EnvelopeJson], [ManifestJson], [ResponseJson] and
    [CapsFromValue] (printing, parsing and derived codecs of JSON), [BlobUrls],
    [RateLimiting] (the limiter of a session), and [SqlOrder] (the order of rows of a
    query without ORDER BY).  What the code relies on is a class of laws beside it
    ([PostcardLaws], [PackLaws], [Ed25519Laws], [Ed25519BatchLaws], [AeadLaws],
    [SerdeLaws], [EnvelopeJsonLaws], [TextJsonLaws], [ManifestJsonLaws], ...): codecs round trip,
    a signature verifies under its key, a batch verifies when every member does.  No
    theorem assumes that the hash has no collisions; where it matters, the hypothesis
    speaks of the nodes at hand.  Toy.v and the files of examples implement all of them,
    so every hypothesis is met at a concrete input.

    Interfaces inside the repository are classes as well, and their clients are proved
    against them: [NodeStore] (Storage.v), [TextProjectionOps] (TextState.v, implemented
    by Text.v), the five backends of the collector (Gc.v, implemented by GcStore.v), and
    [NodePersistence], [BlobPersistence] with [PersistContract] (Persist.v, implemented
    by the directory store in PersistFacts.v).  [UrlPersistence] (Session.v) is the part
    of the blob trait that only sessions use.

    ** Files

    Basis.  Prelude.v: integers, bytes, orders, lists, tactics, the hint database.
    StErr.v: the monad.  Str.v, Utf8.v, Hex.v (hex and base64): texts.  Dates.v
    (server date_util.rs): days and civil dates.

    The core crate.  Op.v (op.rs, hash.rs), Node.v (node.rs, error.rs), Policy.v
    (policy.rs), Frontier.v (frontier.rs), Storage.v (storage.rs): the data.  Lww.v: the
    theory of last writer wins.  FracIdx.v, ListCrdt.v (list.rs), Conflicts.v
    (conflicts.rs), Caches.v (graph.rs, [StateCaches]): views.  TextState.v and Graph.v
    (graph.rs, [StateGraph]): the graph, with its text bookkeeping.  Fenwick.v and Text.v
    (text.rs): the text projection; TextRange.v (text_range.rs).  Replay.v (replay.rs),
    Compaction.v (compaction.rs), Token.v (token.rs, capabilities.rs), Crypto.v
    (crypto.rs), Ibf.v (ibf.rs), Mst.v (mst.rs).

    Its proofs.  CacheFacts.v: caches equal replays.  GraphFacts.v, GraphOps.v,
    GraphBatch.v, Replica.v, GraphThms.v: the invariant, admission,
    batches, convergence.  Rga.v,
    TextChunks.v, TextDoc.v, TextThms.v, TextLive.v: the text.  Toy.v: stand-ins.

    The collector.  Gc.v (core/gc: coordinator.rs, contracts.rs, types.rs), GcFacts.v;
    GcStore.v (server gc_store.rs, gc_pin_store.rs, gc_blob_objects.rs, gc_service.rs,
    gc_adapter.rs), GcStoreFacts.v.

    The stores of the server.  DirStore.v (store.rs, [DirPersistence]), DirFacts.v,
    DirExamples.v; Persist.v and PersistFacts.v (store.rs, the traits); TopoStore.v
    (core room_lineage.rs and topology_contracts.rs, lineage_store.rs, promotion_store.rs).

    The host engine.  HostTypes.v (api.rs, errors.rs), HostState.v and Host.v (engine.rs,
    traits.rs): one definition per command, composed by [host_apply]; HostFacts.v,
    HostText.v, HostImport.v, HostThms.v, HostExamples.v.

    The server.  Room.v (room.rs, [Room], [import_nodes], the snapshot sweeper),
    Membership.v (joining and leaving), Registry.v (room.rs, [Rooms]), Admission.v
    (query_control.rs and promotion.rs, the queues), Query.v (query_control.rs),
    Topology.v (lineage.rs), Promotion.v (promotion.rs), TreeWalk.v (tree_walk.rs),
    Studio.v (studio_live_hashes.rs); RegistryFacts.v, RegistryThms.v, TopoThms.v,
    StudioThms.v, RoomExamples.v.

    Sessions.  Profile.v (server/capability-profile): the expansion of inherited
    capabilities.  Glob.v (ws_handler.rs, [Subscription], against compileGlob of
    clients/web/sdk.js).  Wire.v (engine/host-core protocol.rs and the planners of
    engine.rs, server adapter_context.rs): envelopes, negotiation, the fields of messages,
    the commands.  Archive.v (archive_export.rs, archive_adapter.rs, core
    archive_contracts.rs): manifests, export, validation and import.  Session.v
    (ws_handler.rs, graph_query.rs, topology_adapter.rs): a handshake on its own
    ([run_handshake]), one definition per command ([handle_command]), and the server
    ([Sys]) with the tasks of its connections cut at their awaits ([connect], [on_hello],
    [handshake_step], [session_event]); SessionThms.v, where [handshake_run] shows that a
    handshake nothing interrupts is a run of those steps, and SessionExamples.v.  BlobHttp.v (blob_http.rs): the HTTP origin of blobs.

    ** What the theorems show

    Convergence.  Two replicas that hold the same nodes agree on every map, list, heads,
    Merkle root and text, whatever the order of arrival ([replicas_converge],
    [text_converges]); two host engines that exchange packs agree
    ([host_exchange_converges]); the live caches and the live text equal a replay of the
    log ([resolve_agrees_with_replay], [resolve_list_agrees_with_replay],
    [live_text_matches_replay]), and replay computes the last-writer-wins map
    ([replay_computes_lww]).

    Refinement.  The chunked text projection with its Fenwick trees implements the forest
    of inserted characters ([text_document]); the position index implements prefix sums;
    dates are those of a calendar that counts days ([civil_calendar]).  What a message of
    a client can do to the server is bounded by a relation that lists, per capability,
    what may change ([messages_within_authority]).

    Admission.  A node is accepted exactly when its checks hold
    ([apply_remote_accepts_iff]), a batch accepts only checked nodes
    ([batch_accepted_checked]), a pack settles whatever its order ([import_settles]).

    Invariants over every sequence of operations: of the graph ([graph_invariant]), the
    host engine ([host_invariant]), the members of a room ([membership_settles]), the
    sessions of the server ([sessions_counted]), the records of promotions under every
    interleaving of their handlers and any failures of their store
    ([promotions_justified]), and the admission of work ([admission_bounds]).  The
    invariant of the registry is in RegistryFacts.v: resident nodes are stored, stored
    nodes are in every hydrated room, cached scans are exact.

    Blobs.  The store is content addressed under any failures
    ([blob_store_content_addressed]); what the HTTP origin acknowledges it serves, to
    exactly the bearers of its token, and the times it writes can be read back
    ([put_then_get], [bearer_exact], [expiry_text_roundtrip]); the collector keeps what is live, pinned or recent
    and collects the rest ([gc_keeps_live], [gc_collects], [gc_service_safe]); the global
    live set is exactly what the stored and resident nodes refer to, and a sweep spares it
    ([blob_live_set_exact], [blob_sweep_spares_live]); the studio's set is complete or
    there is none ([studio_collection_complete], [tree_walk_exact],
    [repository_head_retained]).

    Rooms.  An evicted room comes back as it was ([evicted_room_comes_back]); creating a
    child is all or nothing ([create_child_outcome]), and the walk to the ancestors of a
    room ends ([lineage_walk_complete]); a promotion merges the proposed
    checkpoint ([promotion_merges_proposed_checkpoint]); a projection serves exactly the
    resolved rows ([projection_build_outcome]).

    Sessions.  A message keeps what the capabilities of its session do not cover
    ([control_plane_guarded]); those are exactly what the assigned ones inherit in the
    profile ([flatten_grants_closure]).  A handshake sends the client what it lacks and
    subscribes to ([handshake_catches_up]), a relayed pack reaches a subscriber as the
    nodes its patterns accept ([push_delivers_subscription]), and the patterns mean on the
    server what they mean in the SDK ([subscription_agrees_with_sdk]).  An exported
    archive is accepted exactly by rooms with the policy timeline of the exporting one
    ([exported_archive_validates]).

    Where the code falls short, a theorem says how: [range_delete_diverges],
    [rejoin_drops_live_peer], [far_clock_lost_on_restart], [writes_after_promotion_lost],
    [evicted_child_reparented], [compact_room_resets], [archive_checks_late], and, beside the properties, [seed_depends_on_order],
    [projection_digest_conflates], [failed_scan_is_cached] and others.

    ** Conditions

    A theorem's comment names its conditions; these recur.  No author signs two
    transactions with one lamport ([no_equivocation]), for what depends on the order of
    writes.  A log of text updates gives every identity one character and one anchor,
    which is smaller, and has fewer than 2^30 updates ([log_ok] and a bound), as the
    updates of honest peers do.  The theorems on the registry (the live set of the blob
    sweep, eviction and hydration) speak of a server whose node store never fails, whose
    nodes are correctly signed with lamports of at most 2^20 and agree with the stored
    ones, and on which no promotion is applied and no room compacted
    ([server_reachable]); the findings [far_clock_lost_on_restart],
    [writes_after_promotion_lost], [compact_room_resets] and [failed_scan_is_cached] show
    what happens outside of these bounds.  Creating a child is shown all or nothing while
    its store does not fail ([lineage_store_ok]).

    ** Fuel and bounds

    Every loop with fuel is started with enough of it, and a lemma shows that:
    [pass_loop] and [replay] run at most once per pending node and once more, since a pass
    that inserts nothing ends the loop; [import_loop] and [room_import_loop] likewise;
    [scan_loop], [drain_loop] and [norm_loop] of the text are bounded by its length and
    its chunks; the Fenwick loops by the bits of the index; [chunks_of] by the list;
    [decode_loop] of the Bloom filter by its cells, since every peel empties one;
    [evict_loop] and [dirty_loop] by the resident keys; [rga_walk] of the host's texts by
    the characters; [decimal] by the digits of a 64-bit number; [hydrate] is the five
    stages of a hydration; [ancestors_from] takes the number of rooms plus two, as every
    parent but the last is resident and none comes twice; [walk_loop] needs one step per
    entry of a readable tree object, and [tree_walk_exact] states it; [pages] needs one
    page per row; [dfs_expand] takes the depth limit plus one ([walk_fuel]), as deeper
    calls are refused, and [flatten_grants_closure] shows that the fuel refuses nothing
    else.

    ** What is not modelled

    The command line and process setup, metrics and logging, and the
    bindings to other languages: I/O around the operations modelled here.  The S3 backend,
    whose logic is requests to its client library.  Timing counters, statistics, and the
    compaction of cold text storage are left out of the components they belong to.  What
    is cut into steps that interleave: joining and leaving a room, the task of a
    connection, the handlers of promotions, hydration, admission, the collection and the
    physical part of a blob sweep.  Any other handler of the server runs as one step, also
    where it awaits several locks: a message of a client (SessionThms.v), the creation of
    a child. *)

From stdpp Require Export base tactics decidable option list list_numbers numbers gmap sorting strings.
From Stdlib Require Export ZArith Lia.

#[global] Open Scope Z_scope.

(** ** Machine integers

    Unsigned integers are [Z]; the operations that saturate or wrap say so. *)

Definition u64_max : Z := 2 ^ 64 - 1.
Definition u32_max : Z := 2 ^ 32 - 1.
Definition usize_max : Z := u64_max.
Definition i32_min : Z := - 2 ^ 31.

(** [u64::saturating_add]. *)
Definition sat_add64 (a b : Z) : Z := Z.min (a + b) u64_max.
(** [a + b] on [u64] in a release build (two's complement wrap-around). *)
Definition wrap_add64 (a b : Z) : Z := (a + b) mod 2 ^ 64.
(** [saturating_sub] on an unsigned type. *)
Definition sat_sub (a b : Z) : Z := Z.max 0 (a - b).

Definition is_u64 (z : Z) : Prop := 0 <= z <= u64_max.
Definition is_u8 (z : Z) : Prop := 0 <= z < 256.

#[global] Instance is_u64_dec z : Decision (is_u64 z).
Proof. unfold is_u64. apply _. Defined.
#[global] Instance is_u8_dec z : Decision (is_u8 z).
Proof. unfold is_u8. apply _. Defined.

Lemma sat_add64_exact a b : a + b <= u64_max → sat_add64 a b = a + b.
Proof. unfold sat_add64. lia. Qed.

Lemma sat_add64_ge_l a b : 0 <= b → a <= u64_max → a <= sat_add64 a b.
Proof. unfold sat_add64. lia. Qed.

Lemma wrap_add64_exact a b : 0 <= a + b <= u64_max → wrap_add64 a b = a + b.
Proof. unfold wrap_add64, u64_max. intros ?. apply Z.mod_small. lia. Qed.

(** ** Bytes

    [Vec<u8>], [&[u8]], [[u8; N]] and the UTF-8 bytes of a [String] are lists
    of [Z]; [byte_array n] is the type invariant of [[u8; n]]. *)

Abbreviation bytes := (list Z).

Definition byte_array (n : nat) (b : bytes) : Prop := length b = n ∧ Forall is_u8 b.
#[global] Instance byte_array_dec n b : Decision (byte_array n b).
Proof. unfold byte_array. apply _. Defined.

(** The bytes of a string literal of the source. *)
Definition bs (s : string) : bytes :=
  (λ a : Ascii.ascii, Z.of_N (Ascii.N_of_ascii a)) <$> String.list_ascii_of_string s.

(** [to_le_bytes] and [from_le_bytes] of an [n]-byte unsigned integer. *)
Fixpoint le_bytes (n : nat) (z : Z) : bytes :=
  match n with O => [] | S n => z mod 256 :: le_bytes n (z / 256) end.
Definition of_le_bytes (b : bytes) : Z := foldr (λ x acc, x + 256 * acc) 0 b.

Lemma le_bytes_length n z : length (le_bytes n z) = n.
Proof. revert z. induction n as [|n IH]; intros z; simpl; [done|]. by rewrite IH. Qed.

Lemma le_bytes_array n z : byte_array n (le_bytes n z).
Proof.
  split; [apply le_bytes_length|]. revert z. induction n as [|n IH]; intros z; simpl; constructor; auto.
  unfold is_u8. apply Z.mod_pos_bound. lia.
Qed.

Lemma of_le_bytes_le n z : 0 <= z < 256 ^ Z.of_nat n → of_le_bytes (le_bytes n z) = z.
Proof.
  revert z. induction n as [|n IH]; intros z Hz; simpl.
  - simpl in Hz. lia.
  - rewrite IH; [pose proof (Z.div_mod z 256); lia|].
    rewrite Nat2Z.inj_succ, Z.pow_succ_r in Hz by lia.
    split; [apply Z.div_pos; lia|]. apply Z.div_lt_upper_bound; lia.
Qed.

(** [[0u8; n]]. *)
Definition zeros (n : nat) : bytes := replicate n 0.

(** ** The [Ord] trait

    Rust's [Ord]: a three-way comparison.  Slices, arrays and strings compare
    lexicographically, tuples component by component. *)

Class Ord (A : Type) := cmp : A → A → comparison.

Class OrdLaws (A : Type) `{Ord A} := {
  cmp_eq_iff : ∀ x y : A, cmp x y = Eq ↔ x = y;
  cmp_opp : ∀ x y : A, cmp y x = CompOpp (cmp x y);
  cmp_lt_trans : ∀ x y z : A, cmp x y = Lt → cmp y z = Lt → cmp x z = Lt;
}.

(** [a > b], [a < b] and [a <= b]. *)
Definition gtb {A} `{Ord A} (x y : A) : bool :=
  match cmp x y with Gt => true | _ => false end.
Definition ord_lt {A} `{Ord A} (x y : A) : Prop := cmp x y = Lt.
Definition ord_le {A} `{Ord A} (x y : A) : Prop := cmp x y ≠ Gt.

#[global] Instance comparison_eq_dec : EqDecision comparison.
Proof. solve_decision. Defined.
#[global] Instance ord_lt_dec {A} `{Ord A} (x y : A) : Decision (ord_lt x y).
Proof. unfold ord_lt. apply _. Defined.
#[global] Instance ord_le_dec {A} `{Ord A} (x y : A) : Decision (ord_le x y).
Proof. unfold ord_le. apply _. Defined.

#[global] Instance Ord_Z : Ord Z := Z.compare.

Fixpoint list_cmp {A} `{Ord A} (l k : list A) : comparison :=
  match l, k with
  | [], [] => Eq
  | [], _ :: _ => Lt
  | _ :: _, [] => Gt
  | x :: l', y :: k' => match cmp x y with Eq => list_cmp l' k' | c => c end
  end.
#[global] Instance Ord_list {A} `{Ord A} : Ord (list A) := list_cmp.

Definition pair_cmp {A B} `{Ord A, Ord B} (p q : A * B) : comparison :=
  match cmp p.1 q.1 with Eq => cmp p.2 q.2 | c => c end.
#[global] Instance Ord_pair {A B} `{Ord A, Ord B} : Ord (A * B) := pair_cmp.

Create HintDb nm discriminated.

(** Equality of closed terms, decided by the virtual machine. *)
Ltac vm_refl := match goal with |- _ = ?y => vm_cast_no_check (eq_refl y) end.

#[global] Instance OrdLaws_Z : OrdLaws Z.
Proof.
  split.
  - intros x y. apply Z.compare_eq_iff.
  - intros x y. apply Z.compare_antisym.
  - intros x y z. unfold cmp, Ord_Z. rewrite !Z.compare_lt_iff. lia.
Qed.

Section ord_facts.
Context {A : Type} `{OrdLaws A}.
Implicit Types x y z : A.

Lemma cmp_refl x : cmp x x = Eq.
Proof. by apply cmp_eq_iff. Qed.

Lemma ord_lt_irrefl x : ¬ ord_lt x x.
Proof. unfold ord_lt. by rewrite cmp_refl. Qed.

Lemma ord_lt_gt x y : ord_lt x y ↔ cmp y x = Gt.
Proof. unfold ord_lt. rewrite (cmp_opp x y). by destruct (cmp x y). Qed.

Lemma gtb_true x y : gtb x y = true ↔ ord_lt y x.
Proof. rewrite ord_lt_gt. unfold gtb. by destruct (cmp x y). Qed.

Lemma gtb_false x y : gtb x y = false ↔ ord_le x y.
Proof. unfold gtb, ord_le. destruct (cmp x y); naive_solver. Qed.

Lemma gtb_irrefl x : gtb x x = false.
Proof. unfold gtb. by rewrite cmp_refl. Qed.

Lemma ord_le_lt_or_eq x y : ord_le x y ↔ ord_lt x y ∨ x = y.
Proof.
  unfold ord_le, ord_lt. rewrite <-(cmp_eq_iff x y).
  destruct (cmp x y); naive_solver.
Qed.

Lemma ord_trichotomy x y : ord_lt x y ∨ x = y ∨ ord_lt y x.
Proof.
  rewrite (ord_lt_gt y x), <-(cmp_eq_iff x y). unfold ord_lt.
  destruct (cmp x y); naive_solver.
Qed.

Lemma ord_lt_asym x y : ord_lt x y → ¬ ord_lt y x.
Proof. intros ? ?. eapply ord_lt_irrefl, cmp_lt_trans; eauto. Qed.

#[global] Instance ord_le_trans : Transitive (ord_le (A:=A)).
Proof.
  intros x y z. rewrite !ord_le_lt_or_eq.
  intros [Hxy| ->] [Hyz| ->]; auto. left. by eapply cmp_lt_trans.
Qed.
#[global] Instance ord_le_antisymm : AntiSymm (=) (ord_le (A:=A)).
Proof.
  intros x y. rewrite !ord_le_lt_or_eq.
  intros [Hxy| ->] [Hyx|Hyx]; auto. by destruct (ord_lt_asym x y).
Qed.
#[global] Instance ord_le_total : Total (ord_le (A:=A)).
Proof.
  intros x y. rewrite !ord_le_lt_or_eq. destruct (ord_trichotomy x y) as [?|[?|?]]; auto.
Qed.
#[global] Instance ord_le_refl : Reflexive (ord_le (A:=A)).
Proof. intros x. rewrite ord_le_lt_or_eq. by right. Qed.

Lemma ord_lt_le_trans x y z : ord_lt x y → ord_le y z → ord_lt x z.
Proof. rewrite ord_le_lt_or_eq. intros ? [?| ->]; [by eapply cmp_lt_trans|done]. Qed.
Lemma ord_le_lt_trans x y z : ord_le x y → ord_lt y z → ord_lt x z.
Proof. rewrite ord_le_lt_or_eq. intros [?| ->] ?; [by eapply cmp_lt_trans|done]. Qed.

Lemma ord_le_not_lt x y : ord_le x y ↔ ¬ ord_lt y x.
Proof. unfold ord_le. by rewrite ord_lt_gt. Qed.
End ord_facts.

#[global] Instance OrdLaws_list {A} `{OrdLaws A} : OrdLaws (list A).
Proof.
  split.
  - intros l. induction l as [|x l IH]; intros [|y k]; [by split..|].
    change (cmp (x :: l) (y :: k)) with (match cmp x y with Eq => cmp l k | c => c end).
    destruct (cmp x y) eqn:E; [rewrite (cmp_eq_iff x y) in E; subst| |].
    + rewrite IH. naive_solver.
    + split; [done|]. intros [= -> ->]. by rewrite cmp_refl in E.
    + split; [done|]. intros [= -> ->]. by rewrite cmp_refl in E.
  - intros l. induction l as [|x l IH]; intros [|y k]; [done..|].
    unfold cmp, Ord_list; simpl. rewrite (cmp_opp x y).
    destruct (cmp x y) eqn:E; [apply IH|done|done].
  - intros l. induction l as [|x l IH]; intros [|y k] [|z m]; [done..|].
    unfold cmp, Ord_list; simpl. intros H1 H2.
    destruct (cmp x y) eqn:E1; [|clear H1|done].
    + apply cmp_eq_iff in E1 as ->. destruct (cmp y z) eqn:E2; [|done|done].
      by eapply IH.
    + destruct (cmp y z) eqn:E2; [|clear H2|done].
      * apply cmp_eq_iff in E2 as ->. by rewrite E1.
      * by rewrite (cmp_lt_trans _ _ _ E1 E2).
Qed.

#[global] Instance OrdLaws_pair {A B} `{OrdLaws A, OrdLaws B} : OrdLaws (A * B).
Proof.
  split.
  - intros [a b] [c d]. unfold cmp, Ord_pair, pair_cmp; simpl.
    destruct (cmp a c) eqn:E; [apply cmp_eq_iff in E as ->| |].
    + rewrite cmp_eq_iff. naive_solver.
    + split; [done|]. intros [= -> ->]. by rewrite cmp_refl in E.
    + split; [done|]. intros [= -> ->]. by rewrite cmp_refl in E.
  - intros [a b] [c d]. unfold cmp, Ord_pair, pair_cmp; simpl.
    rewrite (cmp_opp a c). destruct (cmp a c); [apply cmp_opp|done|done].
  - intros [a b] [c d] [e f]. unfold cmp, Ord_pair, pair_cmp; simpl. intros H3 H4.
    destruct (cmp a c) eqn:E1; [|clear H3|done].
    + apply cmp_eq_iff in E1 as ->. destruct (cmp c e) eqn:E2; [|done|done].
      by eapply cmp_lt_trans.
    + destruct (cmp c e) eqn:E2; [|clear H4|done].
      * apply cmp_eq_iff in E2 as ->. by rewrite E1.
      * by rewrite (cmp_lt_trans _ _ _ E1 E2).
Qed.

(** ** Sorting

    [sort_unstable] and [sort] on a type with a lawful [Ord]: the two agree
    because equal keys are equal elements. *)

Definition sort {A} `{Ord A} (l : list A) : list A := merge_sort ord_le l.

(** [sort_by_key] (stable): the key decides, ties keep their order. *)
Definition sort_by_key {A K} `{Ord K} (key : A → K) (l : list A) : list A :=
  merge_sort (λ x y, ord_le (key x) (key y)) l.

(** [Vec::dedup]: drop an element equal to its predecessor. *)
Fixpoint dedup {A} `{EqDecision A} (l : list A) : list A :=
  match l with
  | x :: ((y :: _) as l') => if decide (x = y) then dedup l' else x :: dedup l'
  | _ => l
  end.

Section sort_facts.
Context {A : Type} `{OrdLaws A}.
Implicit Types l k : list A.

Lemma sort_perm l : sort l ≡ₚ l.
Proof. apply merge_sort_Permutation. Qed.

Lemma sort_sorted l : StronglySorted ord_le (sort l).
Proof. apply StronglySorted_merge_sort; apply _. Qed.

Lemma sorted_unique l k :
  StronglySorted ord_le l → StronglySorted ord_le k → l ≡ₚ k → l = k.
Proof. apply StronglySorted_unique. apply _. Qed.

Lemma sort_id l : StronglySorted ord_le l → sort l = l.
Proof. intros ?. apply sorted_unique; [apply sort_sorted|done|apply sort_perm]. Qed.

(** Sorting forgets the input order. *)
#[global] Instance sort_proper : Proper ((≡ₚ) ==> (=)) (sort (A:=A)).
Proof.
  intros l k Hlk. apply sorted_unique; [apply sort_sorted..|].
  by rewrite !sort_perm.
Qed.

Lemma elem_of_sort x l : x ∈ sort l ↔ x ∈ l.
Proof. by rewrite sort_perm. Qed.

Lemma dedup_cons2 `{EqDecision A} x y l :
  dedup (x :: y :: l) = if decide (x = y) then dedup (y :: l) else x :: dedup (y :: l).
Proof. done. Qed.

Lemma elem_of_dedup `{EqDecision A} x l : x ∈ dedup l ↔ x ∈ l.
Proof.
  induction l as [|y l IH]; [done|]. destruct l as [|z l]; [done|].
  rewrite dedup_cons2. case_decide; subst; [set_solver|].
  rewrite !elem_of_cons, IH. set_solver.
Qed.

Lemma sorted_dedup `{EqDecision A} l :
  StronglySorted ord_le l → StronglySorted ord_lt (dedup l).
Proof.
  induction l as [|y l IH]; [constructor|]. intros [Hs Hy]%StronglySorted_inv.
  destruct l as [|z l]; [repeat constructor|].
  rewrite dedup_cons2. case_decide as Hyz; [by apply IH|].
  constructor; [by apply IH|]. apply Forall_forall. intros x Hx. rewrite elem_of_dedup in Hx.
  apply StronglySorted_inv in Hs as [_ Hz]. apply Forall_cons in Hy as [Hyz' _].
  apply ord_le_lt_or_eq in Hyz' as [Hlt|]; [|done].
  apply elem_of_cons in Hx as [->|Hx]; [done|].
  eapply ord_lt_le_trans; [done|]. rewrite Forall_forall in Hz. by apply Hz.
Qed.

Lemma sorted_lt_NoDup l : StronglySorted ord_lt l → NoDup l.
Proof.
  induction 1 as [|x l _ IH Hx]; constructor; [|done].
  intros Hin. rewrite Forall_forall in Hx. by apply (ord_lt_irrefl x), Hx.
Qed.

Lemma sorted_lt_le l : StronglySorted ord_lt l → StronglySorted ord_le l.
Proof.
  induction 1 as [|x l _ IH Hx]; constructor; [done|].
  eapply Forall_impl; [done|]. intros y ?. apply ord_le_lt_or_eq. by left.
Qed.

(** A strictly sorted list is determined by its elements. *)
Lemma sorted_lt_ext l k :
  StronglySorted ord_lt l → StronglySorted ord_lt k → (∀ x, x ∈ l ↔ x ∈ k) → l = k.
Proof.
  intros Hl Hk Hext. apply sorted_unique; [by apply sorted_lt_le..|].
  apply NoDup_Permutation; [by apply sorted_lt_NoDup..|done].
Qed.

Lemma sort_lt_NoDup l : NoDup l → StronglySorted ord_lt (sort l).
Proof.
  intros Hnd. assert (NoDup (sort l)) as Hnd' by by rewrite sort_perm.
  pose proof (sort_sorted l) as Hs. revert Hnd' Hs. generalize (sort l) as k.
  intros k. induction k as [|x k IH]; [constructor|].
  intros [Hx Hk]%NoDup_cons [Hs Hle]%StronglySorted_inv. constructor; [by apply IH|].
  rewrite Forall_forall in Hle |- *. intros y Hy.
  destruct (proj1 (ord_le_lt_or_eq x y) (Hle y Hy)) as [?| ->]; done.
Qed.
End sort_facts.

(** ** Results

    [Result<T, E>] with the [?] operator. *)

Inductive result (E A : Type) : Type :=
| Ok (a : A)
| Err (e : E).
Arguments Ok {E A} _.
Arguments Err {E A} _.

Declare Scope result_scope.
Delimit Scope result_scope with result.
Notation "'let?' x := c 'in' k" :=
  (match c with Ok x => k | Err e => Err e end)
  (at level 10, x pattern, c at level 200, k at level 200) : result_scope.
#[global] Open Scope result_scope.

Definition is_ok {E A} (r : result E A) : bool := match r with Ok _ => true | Err _ => false end.

(** [Option::ok_or]. *)
Definition ok_or {E A} (o : option A) (e : E) : result E A :=
  match o with Some a => Ok a | None => Err e end.

(** A loop over a list whose body may return early with an error. *)
Fixpoint foldl_res {E A S} (f : S → A → result E S) (s : S) (l : list A) : result E S :=
  match l with
  | [] => Ok s
  | x :: l => match f s x with Ok s' => foldl_res f s' l | Err e => Err e end
  end.

(** [iter().position(p)] and slicing. *)
Definition position {A} (p : A → bool) (l : list A) : option nat :=
  fst <$> list_find (λ x, p x = true) l.

Lemma elem_of_concat {A} (x : A) ls : x ∈ concat ls ↔ ∃ l, x ∈ l ∧ l ∈ ls.
Proof. rewrite list_elem_of_In, in_concat. setoid_rewrite <-list_elem_of_In. naive_solver. Qed.

(** ** Folds that do not depend on the order *)

Lemma foldl_perm_comm {A B} (f : B → A → B) (l k : list A) :
  l ≡ₚ k →
  (∀ b x y, x ∈ l → y ∈ l → f (f b x) y = f (f b y) x) →
  ∀ b, foldl f b l = foldl f b k.
Proof.
  induction 1 as [|x l k Hlk IH|x y l|l1 l2 l3 H12 IH12 H23 IH23]; intros Hc b; simpl.
  - done.
  - apply IH. intros. apply Hc; set_solver.
  - f_equal. symmetry. apply Hc; set_solver.
  - rewrite IH12 by done. apply IH23. intros b' x y Hx Hy.
    apply Hc; by rewrite H12.
Qed.

(** Two blocks whose elements commute pairwise may be swapped. *)
Lemma foldl_swap {A B} (f : B → A → B) (l k : list A) b :
  (∀ b x y, x ∈ l → y ∈ k → f (f b x) y = f (f b y) x) →
  foldl f (foldl f b l) k = foldl f (foldl f b k) l.
Proof.
  revert b. induction l as [|x l IH]; intros b Hc; simpl; [done|].
  rewrite IH by (intros; apply Hc; set_solver). f_equal. clear IH.
  revert b. induction k as [|y k IH]; intros b; simpl; [done|].
  rewrite Hc by set_solver. apply IH. intros. apply Hc; set_solver.
Qed.

Lemma foldl_cong {A B} (f g : B → A → B) l b :
  (∀ b x, x ∈ l → f b x = g b x) → foldl f b l = foldl g b l.
Proof.
  revert b. induction l as [|x l IH]; intros b Hfg; simpl; [done|].
  rewrite Hfg by set_solver. apply IH. intros. apply Hfg. set_solver.
Qed.

(** An invariant of a left fold. *)
Lemma foldl_inv {A B} (P : B → Prop) (f : B → A → B) l b :
  P b → (∀ b x, x ∈ l → P b → P (f b x)) → P (foldl f b l).
Proof.
  revert b. induction l as [|x l IH]; intros b Hb Hf; simpl; [done|].
  apply IH; [apply Hf; [set_solver|done]|]. intros. apply Hf; [set_solver|done].
Qed.

(** A loop that updates one slot of a map per event: [entry(k)] and a write. *)
Section keyed_fold.
Context {K V Ev : Type} `{Countable K}.
Context (kf : Ev → option K) (g : Ev → option V → V).

Definition keyed_step (m : gmap K V) (e : Ev) : gmap K V :=
  match kf e with Some k => <[k := g e (m !! k)]> m | None => m end.

(** Each slot sees only the events of its key, in order. *)
Lemma keyed_fold_lookup l m k :
  foldl keyed_step m l !! k =
  foldl (λ o e, Some (g e o)) (m !! k) (filter (λ e, kf e = Some k) l).
Proof.
  revert m. induction l as [|e l IH]; intros m; simpl; [done|].
  rewrite IH. unfold keyed_step. rewrite filter_cons.
  destruct (kf e) as [j|] eqn:E; [|by rewrite decide_False by congruence].
  destruct (decide (j = k)) as [->|Hjk].
  - rewrite decide_True by done. simpl. by rewrite lookup_insert_eq.
  - rewrite decide_False by congruence. by rewrite lookup_insert_ne.
Qed.

Lemma keyed_step_comm m e1 e2 :
  (∀ o k, kf e1 = Some k → kf e2 = Some k →
     g e2 (Some (g e1 o)) = g e1 (Some (g e2 o))) →
  keyed_step (keyed_step m e1) e2 = keyed_step (keyed_step m e2) e1.
Proof.
  intros Hg. unfold keyed_step. destruct (kf e1) as [k1|] eqn:E1, (kf e2) as [k2|] eqn:E2; try done.
  destruct (decide (k1 = k2)) as [->|Hne].
  - rewrite !lookup_insert_eq, !insert_insert_eq. f_equal. by apply Hg with k2.
  - rewrite !lookup_insert_ne by done. by rewrite insert_insert_ne.
Qed.

Lemma keyed_fold_perm l l' m :
  l ≡ₚ l' →
  (∀ o e1 e2 k, e1 ∈ l → e2 ∈ l → kf e1 = Some k → kf e2 = Some k →
     g e2 (Some (g e1 o)) = g e1 (Some (g e2 o))) →
  foldl keyed_step m l = foldl keyed_step m l'.
Proof.
  intros Hl Hg. apply map_eq. intros k. rewrite !keyed_fold_lookup.
  apply foldl_perm_comm; [by rewrite Hl|].
  intros o e1 e2 [??]%list_elem_of_filter [??]%list_elem_of_filter. f_equal. by eapply Hg.
Qed.
End keyed_fold.

(** ** Tactics *)

(** Split the hypothesis of a successful [let?] chain. *)
Ltac inv_ok :=
  repeat match goal with
  | H : Ok _ = Ok _ |- _ => injection H as H; try subst
  | H : Err _ = Err _ |- _ => injection H as H; try subst
  | H : Ok _ = Err _ |- _ => discriminate H
  | H : Err _ = Ok _ |- _ => discriminate H
  | H : context [match ?c with Ok _ => _ | Err _ => _ end] |- _ =>
      let E := fresh "E" in destruct c eqn:E; simpl in H
  end.

(** Case analysis on the boolean tests of a goal. *)
Ltac case_tests :=
  repeat match goal with
  | |- context [if ?b then _ else _] => let E := fresh "E" in destruct b eqn:E
  end.

#[export] Hint Resolve sort_perm sort_sorted : nm.
Create Rewrite HintDb nm.
#[export] Hint Rewrite @gtb_true @gtb_false @bool_decide_eq_true @bool_decide_eq_false
  @negb_true_iff @negb_false_iff @andb_true_iff @orb_true_iff
  @orb_false_iff using typeclasses eauto : nm.
