(* ===== verification/Dates.v ===== *)
(** Dates (server/date_util.rs): days since 1970-01-01 and the proleptic Gregorian
    calendar.  Division of [i64] truncates; the dates the callers have are far from
    the ends of [i64], so the arithmetic is that of the integers. *)

From S2P Require Import Prelude.

(** [civil_from_days]: year, month, day. *)
Definition civil_from_days (z : Z) : Z * Z * Z :=
  let z := z + 719468 in
  let era := Z.quot (if 0 <=? z then z else z - 146096) 146097 in
  let doe := z - era * 146097 in
  let yoe := Z.quot (doe - Z.quot doe 1460 + Z.quot doe 36524 - Z.quot doe 146096) 365 in
  let y := yoe + era * 400 in
  let doy := doe - (365 * yoe + Z.quot yoe 4 - Z.quot yoe 100) in
  let mp := Z.quot (5 * doy + 2) 153 in
  let d := doy - Z.quot (153 * mp + 2) 5 + 1 in
  let m := if mp <? 10 then mp + 3 else mp - 9 in
  (if m <=? 2 then y + 1 else y, m, d).

(** [days_from_civil]. *)
Definition days_from_civil (y m d : Z) : Z :=
  let y := if m <=? 2 then y - 1 else y in
  let era := Z.quot (if 0 <=? y then y else y - 399) 400 in
  let yoe := y - era * 400 in
  let doy := Z.quot (153 * (if 2 <? m then m - 3 else m + 9) + 2) 5 + d - 1 in
  let doe := yoe * 365 + Z.quot yoe 4 - Z.quot yoe 100 + doy in
  era * 146097 + doe - 719468.

(** ** The calendar *)

Definition leap (y : Z) : bool := (y mod 4 =? 0) && (negb (y mod 100 =? 0) || (y mod 400 =? 0)).
Definition days_in_month (y m : Z) : Z :=
  if m =? 2 then if leap y then 29 else 28
  else if (m =? 4) || (m =? 6) || (m =? 9) || (m =? 11) then 30 else 31.
Definition next_date (date : Z * Z * Z) : Z * Z * Z :=
  let '(y, m, d) := date in
  if d <? days_in_month y m then (y, m, d + 1) else if m <? 12 then (y, m + 1, 1) else (y + 1, 1, 1).
Definition valid_date (date : Z * Z * Z) : bool :=
  let '(y, m, d) := date in (1 <=? m) && (m <=? 12) && (1 <=? d) && (d <=? days_in_month y m).

(** ** Eras

    An era is 400 years from a first of March on; all of them are alike. *)

Definition era_day (doe : Z) : Z * Z * Z := civil_from_days (doe - 719468).
Lemma quot_floor z k : 0 < k → Z.quot (if 0 <=? z then z else z - (k - 1)) k = z / k.
Proof.
  intros Hk. destruct (Z.leb_spec 0 z) as [Hz|Hz]; [by rewrite Z.quot_div_nonneg by lia|].
  replace (z - (k - 1)) with (- (k - 1 - z)) by lia. rewrite Z.quot_opp_l, Z.quot_div_nonneg by lia.
  pose proof (Z.div_mod z k ltac:(lia)) as E. pose proof (Z.mod_pos_bound z k Hk).
  replace (k - 1 - z) with ((k - 1 - z mod k) + (- (z / k)) * k) by lia. rewrite Z.div_add by lia. rewrite (Z.div_small (k - 1 - z mod k)) by lia. lia.
Qed.
Definition shift_year (k : Z) (date : Z * Z * Z) : Z * Z * Z := let '(y, m, d) := date in (y + k, m, d).
Lemma civil_era z : civil_from_days z = shift_year ((z + 719468) / 146097 * 400) (era_day ((z + 719468) mod 146097)).
Proof.
  pose proof (Z.mod_pos_bound (z + 719468) 146097 eq_refl) as Hm. pose proof (Z.div_mod (z + 719468) 146097 ltac:(lia)) as Ez.
  unfold era_day, civil_from_days. rewrite !(quot_floor _ 146097) by lia.
  replace ((z + 719468) mod 146097 - 719468 + 719468) with ((z + 719468) mod 146097) by lia. rewrite (Z.div_small (_ mod _)) by lia.
  replace (z + 719468 - (z + 719468) / 146097 * 146097) with ((z + 719468) mod 146097) by lia.
  rewrite Z.mul_0_l, Z.sub_0_r. set (doe := (z + 719468) mod 146097). cbv zeta. unfold shift_year.
  set (mp := Z.quot (5 * _ + 2) 153). destruct ((if mp <? 10 then mp + 3 else mp - 9) <=? 2); f_equal; f_equal; lia.
Qed.
Lemma days_era k date : let '(y, m, d) := date in days_from_civil (y + 400 * k) m d = days_from_civil y m d + 146097 * k.
Proof.
  destruct date as [[y m] d]. unfold days_from_civil. rewrite !(quot_floor _ 400) by lia.
  assert (∀ y0, (y0 + 400 * k) / 400 = y0 / 400 + k) as E by (intros; replace (400 * k) with (k * 400) by lia; apply Z.div_add; lia).
  destruct (m <=? 2).
  - replace (y + 400 * k - 1) with (y - 1 + 400 * k) by lia. rewrite E. replace (y - 1 + 400 * k - ((y - 1) / 400 + k) * 400) with (y - 1 - (y - 1) / 400 * 400) by lia. lia.
  - rewrite E. replace (y + 400 * k - (y / 400 + k) * 400) with (y - y / 400 * 400) by lia. lia.
Qed.
Lemma leap_era y k : leap (y + 400 * k) = leap y.
Proof.
  unfold leap. replace (400 * k) with (4 * (100 * k)) at 1 by lia.
  assert (∀ a n j, n ≠ 0 → (a + n * j) mod n = a mod n) as E by (intros a n j Hn; rewrite (Z.mul_comm n j); by apply Z.mod_add).
  rewrite E by lia. replace (400 * k) with (100 * (4 * k)) at 1 by lia. rewrite E by lia. by rewrite E by lia.
Qed.

(** *** The year of a day *)

(** The first day of the year [y] of an era, and what the code divides by 365. *)
Definition start (y : Z) : Z := 365 * y + y / 4 - y / 100 + y / 400.
Definition stretched (doe : Z) : Z := doe - doe / 1460 + doe / 36524 - doe / 146096.

Lemma div_step a k : 0 < k → a / k <= (a + 1) / k <= a / k + 1.
Proof.
  intros Hk. split; [apply Z.div_le_mono; lia|]. replace (a / k + 1) with ((a + 1 * k) / k) by (apply Z.div_add; lia). apply Z.div_le_mono; lia.
Qed.
Lemma stretched_step a : 0 <= a < 146096 → stretched a <= stretched (a + 1).
Proof.
  intros Ha. unfold stretched. pose proof (div_step a 1460 eq_refl). pose proof (div_step a 36524 eq_refl).
  destruct (decide (a = 146095)) as [->|Hne]; [by vm_compute|]. rewrite !(Z.div_small _ 146096) by lia. lia.
Qed.
Lemma stretched_mono a b : 0 <= a <= b → b <= 146096 → stretched a <= stretched b.
Proof.
  intros [Ha Hab]. pattern b. apply Z.le_ind with (n := a); [by intros ? ? ->|lia| |done].
  intros x Hx IH Hb. etrans; [apply IH; lia|]. rewrite <-Z.add_1_r. apply stretched_step. lia.
Qed.

(** A property of the numbers below [n], by evaluation. *)
Definition all_below (f : Z → bool) (n : nat) : bool := forallb (λ i, f (Z.of_nat i)) (seq 0 n).
Lemma all_below_spec f n z : all_below f n = true → 0 <= z < Z.of_nat n → f z = true.
Proof.
  intros Ha Hz. unfold all_below in Ha. rewrite forallb_forall in Ha. rewrite <-(Z2Nat.id z) by lia. apply Ha, in_seq. lia.
Qed.
Definition year_ok (y : Z) : bool :=
  (365 * y <=? stretched (start y)) && (stretched (start (y + 1) - 1) <? 365 * (y + 1)) &&
  (start (y + 1) - start y =? if leap (y + 1) then 366 else 365).
Lemma years_checked : all_below year_ok 400 = true.
Proof. vm_compute. reflexivity. Qed.

Lemma year_exists doe : 0 <= doe < 146097 → ∃ y, 0 <= y < 400 ∧ start y <= doe < start (y + 1).
Proof.
  intros Hd. assert (∀ n : nat, (n <= 400)%nat → doe < start (Z.of_nat n) → ∃ y, 0 <= y < Z.of_nat n ∧ start y <= doe < start (y + 1)) as Hn.
  { induction n as [|n IH]; intros Hle Hlt; [change (start (Z.of_nat 0)) with 0 in Hlt; lia|].
    destruct (Z.lt_ge_cases doe (start (Z.of_nat n))) as [Hx|Hx].
    - destruct IH as (y&?&?); [lia|done|]. exists y. split; [lia|done].
    - exists (Z.of_nat n). split; [lia|]. by replace (Z.of_nat n + 1) with (Z.of_nat (S n)) by lia. }
  apply (Hn 400%nat); [done|]. change (start (Z.of_nat 400)) with 146097. lia.
Qed.
Lemma year_unique doe y : 0 <= y < 400 → start y <= doe < start (y + 1) → stretched doe / 365 = y.
Proof.
  intros Hy Hd. pose proof (all_below_spec _ _ y years_checked Hy) as Hc. unfold year_ok in Hc.
  apply andb_true_iff in Hc as [[Ha%Z.leb_le Hb%Z.ltb_lt]%andb_true_iff _].
  assert (0 <= start y ∧ start (y + 1) <= 146097) as [H0' H1'].
  { unfold start. assert (0 <= y / 4 ∧ 0 <= y / 400 ∧ 0 <= y / 100 ∧ y / 100 <= y / 4 ∧ (y + 1) / 4 <= 100 ∧ (y + 1) / 400 <= 1) as Hx.
    { split; [apply Z.div_pos; lia|]. split; [apply Z.div_pos; lia|]. split; [apply Z.div_pos; lia|]. split; [apply Z.div_le_compat_l; lia|].
      split; apply Z.div_le_upper_bound; lia. }
    split; [lia|]. destruct (decide (y = 399)) as [->|]; [by vm_compute|]. rewrite (Z.div_small (y + 1) 400) by lia.
    assert (0 <= (y + 1) / 100) by (apply Z.div_pos; lia). lia. }
  pose proof (stretched_mono (start y) doe ltac:(lia) ltac:(lia)). pose proof (stretched_mono doe (start (y + 1) - 1) ltac:(lia) ltac:(lia)).
  symmetry. apply (Z.div_unique_pos _ _ _ (stretched doe - 365 * y)); lia.
Qed.

(** *** The day of a year *)

Definition month_day (doy : Z) : Z * Z :=
  let mp := (5 * doy + 2) / 153 in
  (if mp <? 10 then mp + 3 else mp - 9, doy - (153 * mp + 2) / 5 + 1).
(** The date of a day of the year [y] of an era; the years of the calendar begin in January. *)
Definition day_date (y doy : Z) : Z * Z * Z := let '(m, d) := month_day doy in (if m <=? 2 then y + 1 else y, m, d).

Lemma era_day_date y doy : 0 <= y < 400 → 0 <= doy < start (y + 1) - start y → era_day (start y + doy) = day_date y doy.
Proof.
  intros Hy Hd. pose proof (year_unique (start y + doy) y Hy ltac:(lia)) as Eu.
  assert (0 <= start y) as Hs.
  { unfold start. assert (y / 100 <= y / 4) by (apply Z.div_le_compat_l; lia). assert (0 <= y / 400) by (apply Z.div_pos; lia). lia. }
  assert (start y + doy < 146097) as Hb.
  { destruct (Z.lt_ge_cases (start y + doy) 146097) as [|Hx]; [done|]. exfalso.
    assert (start (y + 1) <= 146097); [|lia]. pose proof (year_exists 146096 ltac:(lia)) as (y'&Hy'&Hd').
    assert (∀ a b, 0 <= a <= b → start a <= start b) as Hmono.
    { intros a b Hab. unfold start. pose proof (Z.div_mod a 100 ltac:(lia)). pose proof (Z.mod_pos_bound a 100 eq_refl).
      pose proof (Z.div_mod b 100 ltac:(lia)). pose proof (Z.mod_pos_bound b 100 eq_refl).
      assert (a / 4 <= b / 4) by (apply Z.div_le_mono; lia). assert (a / 400 <= b / 400) by (apply Z.div_le_mono; lia). lia. }
    transitivity (start 400); [apply Hmono; lia|done]. }
  unfold era_day, civil_from_days. rewrite (quot_floor _ 146097) by lia.
  replace (start y + doy - 719468 + 719468) with (start y + doy) by lia. rewrite (Z.div_small (start y + doy)) by lia.
  rewrite Z.mul_0_l, Z.sub_0_r. rewrite !(Z.quot_div_nonneg (start y + doy)) by lia. fold (stretched (start y + doy)).
  assert (0 <= stretched (start y + doy)) as Hp by (apply (stretched_mono 0); lia).
  rewrite (Z.quot_div_nonneg (stretched _)) by lia. rewrite Eu. rewrite !(Z.quot_div_nonneg y) by lia.
  replace (start y + doy - (365 * y + y / 4 - y / 100)) with doy by (unfold start; rewrite (Z.div_small y 400) by lia; lia).
  unfold day_date, month_day. rewrite (Z.quot_div_nonneg (5 * doy + 2)) by lia. assert (0 <= (5 * doy + 2) / 153) by (apply Z.div_pos; lia).
  rewrite Z.quot_div_nonneg by lia. by rewrite Z.add_0_r.
Qed.

Definition md_ok (doy : Z) : bool :=
  let '(m, d) := month_day doy in
  (1 <=? m) && (m <=? 12) && (1 <=? d) && ((153 * (if 2 <? m then m - 3 else m + 9) + 2) / 5 + d - 1 =? doy) &&
  (if doy <=? 364
   then (d <=? days_in_month 1 m) &&
     (if doy =? 364 then (m =? 2) && (d =? 28)
      else if d <? days_in_month 1 m then bool_decide (month_day (doy + 1) = (m, d + 1))
      else bool_decide (month_day (doy + 1) = (if m <? 12 then m + 1 else 1, 1)) && ((m =? 12) || negb (m =? 2)))
   else (m =? 2) && (d =? 29)).
Lemma days_checked : all_below md_ok 366 = true.
Proof. vm_compute. reflexivity. Qed.

Definition year_length (y : Z) : Z := if leap (y + 1) then 366 else 365.
Lemma start_length y : 0 <= y < 400 → start (y + 1) - start y = year_length y.
Proof.
  intros Hy. pose proof (all_below_spec _ _ y years_checked Hy) as Hc. unfold year_ok in Hc. apply andb_true_iff in Hc as [_ Hc]. by apply Z.eqb_eq in Hc.
Qed.
Lemma days_in_other_month y m : m ≠ 2 → days_in_month y m = days_in_month 1 m.
Proof. intros Hm. unfold days_in_month. by rewrite (proj2 (Z.eqb_neq m 2)). Qed.
Lemma days_in_february y : days_in_month y 2 = if leap y then 29 else 28.
Proof. done. Qed.
(** The facts [md_ok] checks, for a day that the year has. *)
Record md_spec (doy m d : Z) : Prop := {
  md_month : 1 <= m <= 12;
  md_first : 1 <= d;
  md_back : (153 * (if 2 <? m then m - 3 else m + 9) + 2) / 5 + d - 1 = doy;
  md_inner : doy < 364 → d <= days_in_month 1 m ∧
    (d < days_in_month 1 m → month_day (doy + 1) = (m, d + 1)) ∧
    (days_in_month 1 m <= d → month_day (doy + 1) = (if m <? 12 then m + 1 else 1, 1) ∧ m ≠ 2);
  md_last : doy = 364 → m = 2 ∧ d = 28;
  md_extra : doy = 365 → m = 2 ∧ d = 29;
}.
Lemma md_spec_of doy : 0 <= doy < 366 → let '(m, d) := month_day doy in md_spec doy m d.
Proof.
  intros Hd. pose proof (all_below_spec _ _ doy days_checked Hd) as Hc. unfold md_ok in Hc. destruct (month_day doy) as [m d].
  rewrite !andb_true_iff in Hc. destruct Hc as [[[[Hm1 Hm2] Hd1] Hb] Hr]. rewrite !Z.leb_le, Z.eqb_eq in *.
  destruct (Z.leb_spec doy 364) as [Hle|Hgt]; cycle 1.
  { apply andb_true_iff in Hr as [Hr1%Z.eqb_eq Hr2%Z.eqb_eq]. split; done || lia. }
  apply andb_true_iff in Hr as [Hle1%Z.leb_le Hr]. destruct (Z.eqb_spec doy 364) as [->|Hne].
  { apply andb_true_iff in Hr as [Hr1%Z.eqb_eq Hr2%Z.eqb_eq]. split; done || lia. }
  split; try done; try lia. intros _. split; [done|]. destruct (Z.ltb_spec d (days_in_month 1 m)).
  - apply bool_decide_eq_true in Hr. split; [done|lia].
  - apply andb_true_iff in Hr as [Hr1%bool_decide_eq_true Hr2]. split; [lia|]. intros _. split; [done|].
    apply orb_true_iff in Hr2 as [->%Z.eqb_eq|Hr2]; [done|]. by apply negb_true_iff, Z.eqb_neq in Hr2.
Qed.

Lemma day_date_valid y doy : 0 <= y < 400 → 0 <= doy < year_length y →
  valid_date (day_date y doy) = true ∧ (let '(yy, m, d) := day_date y doy in days_from_civil yy m d = start y + doy - 719468).
Proof.
  intros Hy Hd. assert (year_length y <= 366) as Hl by (unfold year_length; destruct (leap _); lia).
  pose proof (md_spec_of doy ltac:(lia)) as Hs. unfold day_date. destruct (month_day doy) as [m d]. destruct Hs as [Hm H1' Hb Hin Hla Hex]. split.
  - unfold valid_date. rewrite !andb_true_iff, !Z.leb_le. split; [lia|]. destruct (Z.lt_ge_cases doy 364) as [Hx|Hx].
    + destruct (Hin Hx) as [Hle _]. destruct (decide (m = 2)) as [->|]; [|by rewrite days_in_other_month].
      change (days_in_month 1 2) with 28 in Hle. rewrite days_in_february. destruct (leap (if 2 <=? 2 then y + 1 else y)); lia.
    + destruct (decide (doy = 364)) as [E|]; [destruct (Hla E) as [-> ->]|destruct (Hex ltac:(lia)) as [-> ->]];
        change (2 <=? 2) with true; cbv iota; rewrite days_in_february; unfold year_length in Hd; destruct (leap (y + 1)); lia.
  - unfold days_from_civil. assert ((if m <=? 2 then (if m <=? 2 then y + 1 else y) - 1 else (if m <=? 2 then y + 1 else y)) = y) as -> by (destruct (m <=? 2); lia).
    rewrite (quot_floor _ 400), (Z.div_small y 400) by lia. rewrite Z.mul_0_l, Z.sub_0_r, !(Z.quot_div_nonneg y) by lia.
    rewrite Z.quot_div_nonneg by (destruct (Z.ltb_spec 2 m); lia). unfold start. rewrite (Z.div_small y 400) by lia. lia.
Qed.
Lemma next_day_date y doy : 0 <= y < 400 → 0 <= doy < year_length y →
  next_date (day_date y doy) = if doy + 1 <? year_length y then day_date y (doy + 1) else day_date (y + 1) 0.
Proof.
  intros Hy Hd. assert (year_length y <= 366) as Hl by (unfold year_length; destruct (leap _); lia).
  assert (day_date (y + 1) 0 = (y + 1, 3, 1)) as E0 by done.
  pose proof (md_spec_of doy ltac:(lia)) as Hs. unfold day_date at 1. destruct (month_day doy) as [m d] eqn:Emd. destruct Hs as [Hm H1' Hb Hin Hla Hex].
  destruct (Z.lt_ge_cases doy 364) as [Hx|Hx].
  - rewrite (proj2 (Z.ltb_lt (doy + 1) _)) by (unfold year_length; destruct (leap _); lia).
    destruct (Hin Hx) as (Hle&Hsame&Hnext). unfold next_date, day_date. set (yy := if m <=? 2 then y + 1 else y).
    destruct (Z.lt_ge_cases d (days_in_month 1 m)) as [Hlt|Hge].
    + rewrite (Hsame Hlt). rewrite (proj2 (Z.ltb_lt d _)); [done|]. destruct (decide (m = 2)) as [->|]; [|by rewrite days_in_other_month].
      change (days_in_month 1 2) with 28 in Hlt. rewrite days_in_february. destruct (leap yy); lia.
    + destruct (Hnext Hge) as [-> Hne]. rewrite days_in_other_month by done. rewrite (proj2 (Z.ltb_ge d _)) by done. unfold yy.
      destruct (Z.ltb_spec m 12), (Z.leb_spec m 2), (Z.leb_spec (m + 1) 2); try lia; done || (replace m with 12 by lia; done).
  - unfold next_date, year_length. destruct (decide (doy = 364)) as [E|].
    + destruct (Hla E) as [-> ->]. subst doy. change (2 <=? 2) with true. cbv iota. rewrite days_in_february. by destruct (leap (y + 1)).
    + destruct (Hex ltac:(lia)) as [-> ->]. assert (doy = 365) as -> by lia. unfold year_length in Hd. change (2 <=? 2) with true. cbv iota.
      rewrite days_in_february. destruct (leap (y + 1)); [done|lia].
Qed.

Lemma shift_next k date : next_date (shift_year (k * 400) date) = shift_year (k * 400) (next_date date).
Proof.
  destruct date as [[y m] d]. unfold next_date, shift_year, days_in_month. replace (k * 400) with (400 * k) by lia. rewrite leap_era.
  destruct (d <? _); [done|]. destruct (m <? 12); [done|]. f_equal. f_equal. lia.
Qed.
Lemma shift_valid k date : valid_date (shift_year (k * 400) date) = valid_date date.
Proof. destruct date as [[y m] d]. unfold valid_date, shift_year, days_in_month. replace (k * 400) with (400 * k) by lia. by rewrite leap_era. Qed.

(** A day as a day of a year of an era. *)
Lemma civil_split z : ∃ e y doy, 0 <= y < 400 ∧ 0 <= doy < year_length y ∧ z = e * 146097 + start y + doy - 719468.
Proof.
  pose proof (Z.div_mod (z + 719468) 146097 ltac:(lia)) as Ez. pose proof (Z.mod_pos_bound (z + 719468) 146097 eq_refl) as Hm.
  destruct (year_exists _ Hm) as (y&Hy&Hd). exists ((z + 719468) / 146097), y, ((z + 719468) mod 146097 - start y).
  rewrite <-start_length by done. split; [done|]. split; lia.
Qed.
Lemma start_range y doy : 0 <= y < 400 → 0 <= doy < year_length y → 0 <= start y + doy < 146097.
Proof.
  intros Hy Hd. rewrite <-start_length in Hd by done. destruct (Z.lt_ge_cases (start y + doy) 146097) as [Hlt|Hge].
  - split; [|done]. unfold start. assert (y / 100 <= y / 4) by (apply Z.div_le_compat_l; lia). assert (0 <= y / 400) by (apply Z.div_pos; lia). lia.
  - exfalso. assert (∀ n : nat, (n <= 399)%nat → start (399 - Z.of_nat n + 1) <= 146097) as Hb.
    { induction n as [|n IH]; intros Hn; [by vm_compute|]. assert (0 <= 399 - Z.of_nat (S n) + 1 < 400) as Hr by lia.
      pose proof (start_length (399 - Z.of_nat (S n) + 1) Hr) as El. replace (399 - Z.of_nat (S n) + 1 + 1) with (399 - Z.of_nat n + 1) in El by lia.
      assert (0 <= year_length (399 - Z.of_nat (S n) + 1)) by (unfold year_length; destruct (leap _); lia). specialize (IH ltac:(lia)). lia. }
    specialize (Hb (Z.to_nat (399 - y)) ltac:(lia)). replace (399 - Z.of_nat (Z.to_nat (399 - y)) + 1) with (y + 1) in Hb by lia. lia.
Qed.
Lemma civil_of e y doy : 0 <= y < 400 → 0 <= doy < year_length y →
  civil_from_days (e * 146097 + start y + doy - 719468) = shift_year (e * 400) (day_date y doy).
Proof.
  intros Hy Hd. pose proof (start_range y doy Hy Hd) as Hr. rewrite civil_era.
  replace (e * 146097 + start y + doy - 719468 + 719468) with (start y + doy + e * 146097) by lia.
  rewrite Z.div_add, Z.mod_add, (Z.div_small (start y + doy)), (Z.mod_small (start y + doy)) by lia.
  rewrite era_day_date; [done|done|by rewrite start_length].
Qed.

(** The dates are those of the proleptic Gregorian calendar.  Day zero is 1970-01-01,
    the day after any day is the next date by the rules for months and leap years, so every
    day has its date and every date is valid; and [days_from_civil] takes the date of any
    day back to it, for all days before and after the epoch. *)
Theorem civil_calendar z :
  civil_from_days 0 = (1970, 1, 1) ∧ civil_from_days (z + 1) = next_date (civil_from_days z) ∧
  valid_date (civil_from_days z) = true ∧
  let '(y, m, d) := civil_from_days z in days_from_civil y m d = z.
Proof.
  destruct (civil_split z) as (e&y&doy&Hy&Hd&->). split; [done|]. rewrite civil_of by done. rewrite shift_next, shift_valid.
  destruct (day_date_valid y doy Hy Hd) as [Hv Hb]. split; [|split; [done|]].
  - rewrite next_day_date by done. destruct (Z.ltb_spec (doy + 1) (year_length y)) as [Hlt|Hge].
    + rewrite <-civil_of by lia. f_equal. lia.
    + assert (doy + 1 = year_length y) as E by lia. rewrite <-start_length in E by done. destruct (decide (y = 399)) as [->|Hne].
      * replace (e * 146097 + start 399 + doy - 719468 + 1) with ((e + 1) * 146097 + start 0 + 0 - 719468).
        { rewrite civil_of by done. change (day_date 0 0) with (0, 3, 1). change (day_date (399 + 1) 0) with (400, 3, 1). unfold shift_year. do 2 f_equal. lia. }
        change (start (399 + 1)) with 146097 in E. change (start 0) with 0. lia.
      * rewrite <-civil_of; [f_equal; lia|lia|]. unfold year_length. destruct (leap _); lia.
  - destruct (day_date y doy) as [[yy m] d]. cbn. replace (yy + e * 400) with (yy + 400 * e) by lia.
    pose proof (days_era e (yy, m, d)) as Ed. cbn in Ed. rewrite Ed. lia.
Qed.
