(* ===== verification/StErr.v ===== *)
(** Stateful code that can fail: a state and error monad whose state survives
    an error, as an object behind a shared reference does, and its triples. *)

From S2P Require Import Prelude.

Definition SE (W E A : Type) : Type := W → W * result E A.

#[global] Instance se_ret {W E} : MRet (SE W E) := λ A a w, (w, Ok a).
#[global] Instance se_bind {W E} : MBind (SE W E) := λ A B k m w,
  match m w with
  | (w, Ok a) => k a w
  | (w, Err e) => (w, Err e)
  end.

Definition throw {W E A} (e : E) : SE W E A := λ w, (w, Err e).
Definition read {W E A} (f : W → A) : SE W E A := λ w, (w, Ok (f w)).
Definition modify {W E} (f : W → W) : SE W E unit := λ w, (f w, Ok tt).

(** [for x in l { .. }] with an accumulator and the question mark operator. *)
Fixpoint for_each {W E A B} (l : list A) (f : B → A → SE W E B) (b : B) : SE W E B :=
  match l with
  | [] => mret b
  | x :: l => f b x ≫= for_each l f
  end.

(** Running a bind whose first part is known. *)
Lemma se_bind_ok {W E A B} (m : SE W E A) (k : A → SE W E B) w w' a :
  m w = (w', Ok a) → (m ≫= k) w = k a w'.
Proof. intros Hm. unfold mbind, se_bind. by rewrite Hm. Qed.
Lemma se_bind_err {W E A B} (m : SE W E A) (k : A → SE W E B) w w' e :
  m w = (w', Err e) → (m ≫= k) w = (w', Err e).
Proof. intros Hm. unfold mbind, se_bind. by rewrite Hm. Qed.

(** ** Triples

    [triple P m Q R]: from a state with [P], [m] ends with [Q] on success and
    with [R] on error. *)
Definition triple {W E A} (P : W → Prop) (m : SE W E A) (Q : A → W → Prop) (R : W → Prop) : Prop :=
  ∀ w, P w → match m w with (w', Ok a) => Q a w' | (w', Err _) => R w' end.

Section triples.
Context {W E : Type}.
Implicit Types (P R : W → Prop).

Lemma triple_ret {A} (a : A) P (Q : A → W → Prop) R : (∀ w, P w → Q a w) → triple P (mret a : SE W E A) Q R.
Proof. intros HQ w Hw. by apply HQ. Qed.

Lemma triple_bind {A B} (m : SE W E A) (k : A → SE W E B) P M (Q : B → W → Prop) R :
  triple P m M R → (∀ a, triple (M a) (k a) Q R) → triple P (m ≫= k) Q R.
Proof.
  intros Hm Hk w Hw. specialize (Hm w Hw). unfold mbind, se_bind.
  destruct (m w) as [w' [a|e]]; [by apply Hk|done].
Qed.

Lemma triple_conseq {A} (m : SE W E A) P P' (Q Q' : A → W → Prop) R R' :
  triple P' m Q' R' → (∀ w, P w → P' w) → (∀ a w, Q' a w → Q a w) → (∀ w, R' w → R w) → triple P m Q R.
Proof.
  intros Hm HP HQ HR w Hw. specialize (Hm w (HP w Hw)). destruct (m w) as [w' [a|e]]; auto.
Qed.

Lemma triple_read {A} (f : W → A) P (Q : A → W → Prop) R : (∀ w, P w → Q (f w) w) → triple P (read f : SE W E A) Q R.
Proof. intros HQ w Hw. by apply HQ. Qed.

Lemma triple_throw {A} (e : E) P (Q : A → W → Prop) R : (∀ w, P w → R w) → triple P (throw e) Q R.
Proof. intros HR w Hw. by apply HR. Qed.

(** A loop keeps an invariant that may mention the elements still to come. *)
Lemma triple_for {A B} (l : list A) (f : B → A → SE W E B) (I : list A → B → W → Prop) R b :
  (∀ x rest b, triple (I (x :: rest) b) (f b x) (I rest) R) →
  triple (I l b) (for_each l f b) (I []) R.
Proof.
  intros Hf. revert b. induction l as [|x l IH]; intros b; [by apply triple_ret|].
  cbn [for_each]. eapply triple_bind; [apply Hf|]. intros b'. apply IH.
Qed.

(** The common case: the invariant speaks of the state alone. *)
Lemma triple_for_inv {A B} (l : list A) (f : B → A → SE W E B) (J : W → Prop) b :
  (∀ x b, x ∈ l → triple J (f b x) (λ _, J) J) → triple J (for_each l f b) (λ _, J) J.
Proof.
  revert b. induction l as [|x l IH]; intros b Hf; [by apply triple_ret|]. cbn [for_each].
  eapply triple_bind; [apply Hf; by left|]. intros b'. apply IH. intros y c Hy. apply Hf. by right.
Qed.

Lemma triple_run {A} (m : SE W E A) P Q R w w' r :
  triple P m Q R → P w → m w = (w', r) → match r with Ok a => Q a w' | Err _ => R w' end.
Proof. intros Hm Hw E'. specialize (Hm w Hw). by rewrite E' in Hm. Qed.
End triples.

(** ** Frames

    [framed R m]: whatever its outcome, [m] relates the state it starts from to the
    state it leaves by [R]. *)
Definition framed_at {W E A} (R : relation W) (m : SE W E A) (w : W) : Prop := R w (m w).1.
Definition framed {W E A} (R : relation W) (m : SE W E A) : Prop := ∀ w, framed_at R m w.

Section frames.
Context {W E : Type} (R : relation W) `{!PreOrder R}.

Lemma framed_ret {A} (a : A) : framed R (mret a : SE W E A).
Proof. intros w. by unfold framed_at. Qed.
Lemma framed_throw {A} (e : E) : framed R (throw e : SE W E A).
Proof. intros w. by unfold framed_at. Qed.
Lemma framed_read {A} (f : W → A) : framed R (read f : SE W E A).
Proof. intros w. by unfold framed_at. Qed.
Lemma framed_bind_at {A B} (m : SE W E A) (k : A → SE W E B) w :
  framed_at R m w → (∀ a, framed R (k a)) → framed_at R (m ≫= k) w.
Proof.
  unfold framed_at, mbind, se_bind. intros Hm Hk. destruct (m w) as [w' [a|e]]; [|done].
  etrans; [exact Hm|apply Hk].
Qed.
Lemma framed_bind {A B} (m : SE W E A) (k : A → SE W E B) : framed R m → (∀ a, framed R (k a)) → framed R (m ≫= k).
Proof. intros Hm Hk w. by apply framed_bind_at. Qed.
Lemma framed_for {A B} (l : list A) (f : B → A → SE W E B) (b : B) : (∀ b x, framed R (f b x)) → framed R (for_each l f b).
Proof. intros Hf. revert b. induction l as [|x l IH]; intros b; [apply framed_ret|]. by apply framed_bind. Qed.
(** A part that reads the state and goes on with what it read. *)
Lemma framed_read_at {A B} (f : W → A) (k : A → SE W E B) w : framed_at R (k (f w)) w → framed_at R (read f ≫= k) w.
Proof. done. Qed.
End frames.

Lemma framed_mono {W E A} (R R' : relation W) (m : SE W E A) : (∀ w w', R w w' → R' w w') → framed R m → framed R' m.
Proof. intros HR Hm w. by apply HR, Hm. Qed.
