(* ===== verification/Hex.v ===== *)
(** Hexadecimal text as the core crate writes and reads it: [Hash::to_hex]
    (hash.rs), [ItemId::to_hex] and [ItemId::from_hex] (op.rs), the hex form
    of a signature (node.rs) and the two private copies of [hex_nibble] and
    of the fixed-size decoder (frontier.rs, token.rs); and the base64 codec of the host
    core (engine.rs): the alphabet with padding, a decoder that stops at the first group
    that starts with padding. *)

From S2P Require Import Prelude.


Definition ch_pad : Z := 61.

(** [CHARS] and [TABLE]. *)
Definition b64_char (v : Z) : Z :=
  if v <? 26 then 65 + v else if v <? 52 then 97 + (v - 26) else if v <? 62 then 48 + (v - 52)
  else if v =? 62 then 43 else 47.
Definition b64_value (b : Z) : option Z :=
  if (65 <=? b) && (b <=? 90) then Some (b - 65)
  else if (97 <=? b) && (b <=? 122) then Some (b - 97 + 26)
  else if (48 <=? b) && (b <=? 57) then Some (b - 48 + 52)
  else if b =? 43 then Some 62
  else if b =? 47 then Some 63
  else None.

(** The two leading characters of a group, and the two that may be padding. *)
Definition b64_c0 (b0 : Z) : Z := b64_char (Z.shiftr b0 2).
Definition b64_c1 (b0 b1 : Z) : Z := b64_char (Z.lor (Z.shiftl (Z.land b0 3) 4) (Z.shiftr b1 4)).
Definition b64_c2 (b1 b2 : Z) : Z := b64_char (Z.lor (Z.shiftl (Z.land b1 15) 2) (Z.shiftr b2 6)).
Definition b64_c3 (b2 : Z) : Z := b64_char (Z.land b2 63).

Fixpoint base64_encode (data : bytes) : bytes :=
  match data with
  | [] => []
  | [b0] => [b64_c0 b0; b64_c1 b0 0; ch_pad; ch_pad]
  | [b0; b1] => [b64_c0 b0; b64_c1 b0 b1; b64_c2 b1 0; ch_pad]
  | b0 :: b1 :: b2 :: rest => b64_c0 b0 :: b64_c1 b0 b1 :: b64_c2 b1 b2 :: b64_c3 b2 :: base64_encode rest
  end.

(** The bytes of one group; a missing third or fourth character counts as padding. *)
Definition decode_group (b0 b1 b2 b3 : Z) : option bytes :=
  v0 ← b64_value b0; v1 ← b64_value b1;
  let o0 := Z.lor (Z.shiftl v0 2) (Z.shiftr v1 4) mod 256 in
  if b2 =? ch_pad then Some [o0]
  else
    v2 ← b64_value b2;
    let o1 := Z.lor (Z.shiftl (Z.land v1 15) 4) (Z.shiftr v2 2) mod 256 in
    if b3 =? ch_pad then Some [o0; o1]
    else
      v3 ← b64_value b3;
      Some [o0; o1; Z.lor (Z.shiftl (Z.land v2 3) 6) v3 mod 256].
Fixpoint base64_decode (s : bytes) : option bytes :=
  match s with
  | [] => Some []
  | [_] => None
  | b0 :: b1 :: rest =>
      if b0 =? ch_pad then Some []
      else
        match rest with
        | [] => decode_group b0 b1 ch_pad ch_pad
        | [b2] => decode_group b0 b1 b2 ch_pad
        | b2 :: b3 :: rest' => out ← decode_group b0 b1 b2 b3; more ← base64_decode rest'; Some (out ++ more)
        end
  end.

(** ** Round trip *)

Lemma lor_shiftl a b n : 0 <= n → 0 <= b < 2 ^ n → Z.lor (Z.shiftl a n) b = a * 2 ^ n + b.
Proof.
  intros Hn Hb. rewrite Z.shiftl_mul_pow2 by done.
  assert (Z.land (a * 2 ^ n) b = 0) as Hl.
  { apply Z.bits_inj'. intros i Hi. rewrite Z.land_spec, Z.bits_0. destruct (Z.lt_ge_cases i n).
    - by rewrite Z.mul_pow2_bits_low.
    - rewrite <-(Z.mod_small b (2 ^ n)), Z.mod_pow2_bits_high by lia. apply andb_false_r. }
  by rewrite <-Z.lxor_lor, <-Z.add_nocarry_lxor by done.
Qed.

Lemma b64_value_char v : 0 <= v < 64 → b64_value (b64_char v) = Some v ∧ b64_char v ≠ ch_pad.
Proof.
  intros Hv. unfold b64_value, b64_char, ch_pad.
  destruct (Z.ltb_spec v 26); [|destruct (Z.ltb_spec v 52); [|destruct (Z.ltb_spec v 62); [|destruct (Z.eqb_spec v 62)]]];
    (split; [|lia]);
    repeat match goal with |- context [?x <=? ?y] => destruct (Z.leb_spec x y); try lia; cbn [andb] end;
    repeat match goal with |- context [?x =? ?y] => destruct (Z.eqb_spec x y); try lia end; f_equal; lia.
Qed.

(** The sextets of a group as quotients and remainders. *)
Lemma land_ones_mod b n : 0 <= n → Z.land b (2 ^ n - 1) = b mod 2 ^ n.
Proof. intros Hn. rewrite <-Z.land_ones, Z.ones_equiv by done. done. Qed.

Lemma sextets b0 b1 b2 :
  is_u8 b0 → is_u8 b1 → is_u8 b2 →
  b64_c0 b0 = b64_char (b0 / 4) ∧ b64_c1 b0 b1 = b64_char (b0 mod 4 * 16 + b1 / 16) ∧
  b64_c2 b1 b2 = b64_char (b1 mod 16 * 4 + b2 / 64) ∧ b64_c3 b2 = b64_char (b2 mod 64).
Proof.
  unfold is_u8. intros H0 H1 H2. unfold b64_c0, b64_c1, b64_c2, b64_c3.
  rewrite (land_ones_mod b0 2 ltac:(done) : Z.land b0 3 = b0 mod 4), (land_ones_mod b1 4 ltac:(done) : Z.land b1 15 = b1 mod 16),
    (land_ones_mod b2 6 ltac:(done) : Z.land b2 63 = b2 mod 64), !Z.shiftr_div_pow2 by lia.
  rewrite !lor_shiftl by (split; [apply Z.div_pos; lia|apply Z.div_lt_upper_bound; lia] || lia). done.
Qed.

Lemma group_value v0 v1 v2 v3 b0 b1 b2 :
  is_u8 b0 → is_u8 b1 → is_u8 b2 →
  v0 = b0 / 4 → v1 = b0 mod 4 * 16 + b1 / 16 → v2 = b1 mod 16 * 4 + b2 / 64 → v3 = b2 mod 64 →
  Z.lor (Z.shiftl v0 2) (Z.shiftr v1 4) mod 256 = b0 ∧
  Z.lor (Z.shiftl (Z.land v1 15) 4) (Z.shiftr v2 2) mod 256 = b1 ∧
  Z.lor (Z.shiftl (Z.land v2 3) 6) v3 mod 256 = b2.
Proof.
  unfold is_u8. intros H0 H1 H2 -> -> -> ->.
  rewrite (land_ones_mod (b0 mod 4 * 16 + b1 / 16) 4 ltac:(done) : Z.land _ 15 = _ mod 16),
    (land_ones_mod (b1 mod 16 * 4 + b2 / 64) 2 ltac:(done) : Z.land _ 3 = _ mod 4), !Z.shiftr_div_pow2 by lia.
  rewrite !lor_shiftl; [|lia|Z.to_euclidean_division_equations; lia..]. 
  repeat split; Z.to_euclidean_division_equations; lia.
Qed.

Lemma decode_full b0 b1 b2 :
  is_u8 b0 → is_u8 b1 → is_u8 b2 →
  decode_group (b64_c0 b0) (b64_c1 b0 b1) (b64_c2 b1 b2) (b64_c3 b2) = Some [b0; b1; b2] ∧
  decode_group (b64_c0 b0) (b64_c1 b0 b1) (b64_c2 b1 0) ch_pad = Some [b0; b1] ∧
  decode_group (b64_c0 b0) (b64_c1 b0 0) ch_pad ch_pad = Some [b0] ∧ b64_c0 b0 ≠ ch_pad.
Proof.
  intros H0 H1 H2. assert (is_u8 0) as Hz by (unfold is_u8; lia).
  destruct (sextets b0 b1 b2 H0 H1 H2) as (E0&E1&E2&E3). destruct (sextets b0 0 0 H0 Hz Hz) as (_&E1'&_&_).
  destruct (sextets b0 b1 0 H0 H1 Hz) as (_&_&E2'&_).
  assert (∀ b1 b2, is_u8 b1 → is_u8 b2 → 0 <= b0 / 4 < 64 ∧ 0 <= b0 mod 4 * 16 + b1 / 16 < 64 ∧
    0 <= b1 mod 16 * 4 + b2 / 64 < 64 ∧ 0 <= b2 mod 64 < 64) as Hr.
  { unfold is_u8 in *. intros. Z.to_euclidean_division_equations; lia. }
  unfold decode_group. rewrite E0, E1, E2, E3, E1', E2'.
  destruct (Hr b1 b2 H1 H2) as (R0&R1&R2&R3). destruct (Hr b1 0 H1 Hz) as (_&_&R2'&_). destruct (Hr 0 0 Hz Hz) as (_&R1'&_&_).
  destruct (b64_value_char _ R0) as [V0 N0], (b64_value_char _ R1) as [V1 _], (b64_value_char _ R2) as [V2 N2],
    (b64_value_char _ R3) as [V3 N3], (b64_value_char _ R2') as [V2' N2'], (b64_value_char _ R1') as [V1' _].
  rewrite V0, V1, V2, V3, V2', V1'. cbn [mbind option_bind].
  rewrite (proj2 (Z.eqb_neq _ _) N2), (proj2 (Z.eqb_neq _ _) N3), (proj2 (Z.eqb_neq _ _) N2').
  destruct (group_value _ _ _ _ b0 b1 b2 H0 H1 H2 eq_refl eq_refl eq_refl eq_refl) as (G0&G1&G2).
  destruct (group_value _ _ _ _ b0 b1 0 H0 H1 Hz eq_refl eq_refl eq_refl eq_refl) as (G0'&G1'&_).
  destruct (group_value _ _ _ _ b0 0 0 H0 Hz Hz eq_refl eq_refl eq_refl eq_refl) as (G0''&_&_).
  rewrite G0, G1, G2, G1', G0''. done.
Qed.

Lemma base64_decode_encode b : Forall is_u8 b → base64_decode (base64_encode b) = Some b.
Proof.
  remember (length b) as n eqn:Hn. revert b Hn. induction n as [n IH] using lt_wf_ind. intros b Hn Hb.
  destruct b as [|b0 [|b1 [|b2 rest]]]; [done|..].
  - apply Forall_cons in Hb as [H0 _]. destruct (decode_full b0 0 0) as (_&_&E&N); [done|unfold is_u8; lia..|].
    cbn [base64_encode base64_decode]. rewrite (proj2 (Z.eqb_neq _ _) N), E. done.
  - apply Forall_cons in Hb as [H0 [H1 _]%Forall_cons].
    destruct (decode_full b0 b1 0) as (_&E&_&N); [done|done|unfold is_u8; lia|].
    cbn [base64_encode base64_decode]. rewrite (proj2 (Z.eqb_neq _ _) N), E. done.
  - apply Forall_cons in Hb as [H0 [H1 [H2 Hr]%Forall_cons]%Forall_cons].
    destruct (decode_full b0 b1 b2 H0 H1 H2) as (E&_&_&N).
    cbn [base64_encode base64_decode]. rewrite (proj2 (Z.eqb_neq _ _) N), E. cbn [mbind option_bind].
    rewrite (IH (length rest)); [done|subst n; simpl; lia|done|done].
Qed.


(** ** Encoding *)

(** One lowercase hexadecimal digit, as an ASCII byte. *)
Definition hex_char (n : Z) : Z := if n <? 10 then 48 + n else 87 + n.

(** [format!("{:02x}", b)]. *)
Definition hex_byte (b : Z) : bytes := [hex_char (b / 16); hex_char (b mod 16)].

(** The concatenation of [{:02x}] over a byte array. *)
Definition to_hex (b : bytes) : bytes := b ≫= hex_byte.

(** ** Decoding *)

Definition hex_nibble (b : Z) : option Z :=
  if (48 <=? b) && (b <=? 57) then Some (b - 48)
  else if (97 <=? b) && (b <=? 102) then Some (b - 97 + 10)
  else if (65 <=? b) && (b <=? 70) then Some (b - 65 + 10)
  else None.

(** [chunks(2)] with two nibbles per byte; callers have checked that the
    length is even. *)
Fixpoint hex_pairs (s : bytes) : option bytes :=
  match s with
  | hi :: lo :: s' =>
      h ← hex_nibble hi; l ← hex_nibble lo;
      rest ← hex_pairs s';
      Some (Z.lor (Z.shiftl h 4) l :: rest)
  | [] => Some []
  | _ => None
  end.

(** [hex_to_array::<N>] (token.rs), [parse_hex_hash] (frontier.rs, [N] = 32)
    and [Signature::deserialize] (node.rs, [N] = 64). *)
Definition hex_to_array (n : nat) (s : bytes) : option bytes :=
  if decide (length s = n * 2)%nat then hex_pairs s else None.

(** [u8::from_str_radix(s, 16)] on two bytes: an optional leading [+], then at
    least one digit. *)
Definition from_str_radix16 (a b : Z) : option Z :=
  if decide (a = 43) then hex_nibble b
  else h ← hex_nibble a; l ← hex_nibble b; Some (h * 16 + l).

(** A UTF-8 continuation byte: a slice may not start or end before one. *)
Definition is_continuation (b : Z) : bool := (128 <=? b) && (b <=? 191).

(** The loop of [ItemId::from_hex] over the remaining string, [None] for the
    panic of slicing inside a character. *)
Fixpoint item_id_pairs (s : bytes) : option (option bytes) :=
  match s with
  | a :: b :: s' =>
      if is_continuation a || match s' with c :: _ => is_continuation c | [] => false end
      then None
      else
        match from_str_radix16 a b with
        | None => Some None
        | Some v =>
            match item_id_pairs s' with
            | Some (Some rest) => Some (Some (v :: rest))
            | r => r
            end
        end
  | _ => Some (Some [])
  end.

(** [ItemId::from_hex]: [None] is a panic, [Some None] the [None] it returns. *)
Definition item_id_from_hex (s : bytes) : option (option bytes) :=
  if decide (length s = 32)%nat then item_id_pairs s else Some None.

(** ** Facts *)

Lemma hex_nibble_char n : 0 <= n < 16 → hex_nibble (hex_char n) = Some n.
Proof.
  intros ?. unfold hex_char, hex_nibble.
  destruct (Z.ltb_spec n 10).
  - rewrite (proj2 (Z.leb_le 48 (48 + n))), (proj2 (Z.leb_le (48 + n) 57)) by lia.
    simpl. f_equal. lia.
  - rewrite (proj2 (Z.leb_le 48 (87 + n))), (proj2 (Z.leb_gt (87 + n) 57)) by lia. simpl.
    rewrite (proj2 (Z.leb_le 97 (87 + n))), (proj2 (Z.leb_le (87 + n) 102)) by lia.
    simpl. f_equal. lia.
Qed.

Lemma byte_split b : is_u8 b → 0 <= b / 16 < 16 ∧ 0 <= b mod 16 < 16.
Proof.
  intros [? ?]. pose proof (Z.mod_pos_bound b 16). split; [|lia].
  split; [apply Z.div_pos; lia|apply Z.div_lt_upper_bound; lia].
Qed.

Lemma byte_join b : is_u8 b → Z.lor (Z.shiftl (b / 16) 4) (b mod 16) = b.
Proof.
  intros Hb. change 16 with (2 ^ 4). rewrite <-Z.shiftr_div_pow2, <-Z.land_ones by lia.
  apply Z.bits_inj'. intros n Hn. rewrite Z.lor_spec, Z.land_spec.
  rewrite Z.shiftl_spec by lia. destruct (Z.ltb_spec n 4).
  - rewrite Z.testbit_neg_r, Z.ones_spec_low by lia. by rewrite andb_true_r.
  - rewrite Z.shiftr_spec, Z.ones_spec_high by lia.
    rewrite andb_false_r, orb_false_r. f_equal. lia.
Qed.

Lemma hex_pairs_to_hex b : Forall is_u8 b → hex_pairs (to_hex b) = Some b.
Proof.
  induction 1 as [|x b Hx _ IH]; [done|].
  cbn [to_hex mbind list_bind hex_byte app hex_pairs].
  destruct (byte_split x Hx). rewrite !hex_nibble_char by done. simpl.
  fold (to_hex b). rewrite IH. simpl. by rewrite byte_join.
Qed.

Lemma length_to_hex b : length (to_hex b) = (length b * 2)%nat.
Proof. induction b as [|x b IH]; [done|]. simpl. fold (to_hex b). lia. Qed.

Lemma hex_to_array_to_hex n b : byte_array n b → hex_to_array n (to_hex b) = Some b.
Proof.
  intros [Hn Hb]. unfold hex_to_array. rewrite length_to_hex, Hn, decide_True by done.
  by apply hex_pairs_to_hex.
Qed.

Lemma hex_char_ascii n : 0 <= n < 16 → is_continuation (hex_char n) = false ∧ hex_char n ≠ 43.
Proof.
  intros ?. unfold hex_char, is_continuation.
  destruct (Z.ltb_spec n 10); (split; [apply andb_false_intro1, Z.leb_gt; lia|lia]).
Qed.

Lemma item_id_pairs_to_hex b :
  Forall is_u8 b → item_id_pairs (to_hex b) = Some (Some b).
Proof.
  induction 1 as [|x b Hx Hb IH]; [done|].
  cbn [to_hex mbind list_bind hex_byte app item_id_pairs]. fold (to_hex b).
  destruct (byte_split x Hx) as [H1 H2].
  destruct (hex_char_ascii _ H1) as [-> Hplus].
  assert (match to_hex b with c :: _ => is_continuation c | [] => false end = false) as Hh.
  { destruct Hb as [|y b' Hy _]; [done|]. simpl. apply hex_char_ascii, byte_split, Hy. }
  rewrite Hh. simpl. unfold from_str_radix16. rewrite decide_False by done.
  rewrite !hex_nibble_char by done. simpl. rewrite IH. do 3 f_equal.
  rewrite (Z.div_mod x 16) at 3 by lia. lia.
Qed.
