(* ===== verification/Str.v ===== *)
(** The string functions of the standard library the program uses, on the UTF-8
    bytes of a string.  Case folding and white space are those of ASCII, which is
    all the inputs of the callers have. *)

From S2P Require Import Prelude Hex.

(** ** Signed integers

    [as i64] and the other casts to a signed type wrap around. *)
Definition wrap_i64 (z : Z) : Z := (z + 2 ^ 63) mod 2 ^ 64 - 2 ^ 63.

Lemma wrap_i64_id z : - 2 ^ 63 <= z < 2 ^ 63 → wrap_i64 z = z.
Proof. intros Hz. unfold wrap_i64. rewrite Z.mod_small; lia. Qed.

(** ** Numbers *)

(** Decimal and lower-case hexadecimal; a number below [base ^ fuel] fits. *)
Fixpoint digits (fuel : nat) (base n : Z) : bytes :=
  match fuel with
  | O => []
  | S fuel => (if n <? base then [] else digits fuel base (n / base)) ++ [hex_char (n mod base)]
  end.
Definition decimal (n : Z) : bytes := digits (S (Z.to_nat (Z.log2 n))) 10 n.

(** [parse::<u64>] and [parse::<usize>]: an optional plus sign and digits, below [2 ^ 64]. *)
Fixpoint parse_digits (acc : Z) (s : bytes) : option Z :=
  match s with
  | [] => Some acc
  | b :: s' =>
      if (48 <=? b) && (b <=? 57) then
        let acc := acc * 10 + (b - 48) in if acc <=? u64_max then parse_digits acc s' else None
      else None
  end.
Definition parse_u64 (s : bytes) : option Z :=
  match s with
  | [] => None
  | b :: s' => if b =? 43 then (match s' with [] => None | _ => parse_digits 0 s' end) else parse_digits 0 s
  end.

(** ** Case, white space and pieces *)

Definition lower (b : Z) : Z := if (65 <=? b) && (b <=? 90) then b + 32 else b.
Definition to_lowercase (s : bytes) : bytes := lower <$> s.
Definition is_space (b : Z) : bool := (b =? 32) || ((9 <=? b) && (b <=? 13)).
Fixpoint trim_start (s : bytes) : bytes :=
  match s with b :: s' => if is_space b then trim_start s' else s | [] => [] end.
Definition trim (s : bytes) : bytes := reverse (trim_start (reverse (trim_start s))).
(** [s.split(sep)]: at least one piece. *)
Fixpoint split_on (sep : Z) (s : bytes) : list bytes :=
  match s with
  | [] => [[]]
  | b :: s' =>
      match split_on sep s' with
      | piece :: rest => if b =? sep then [] :: piece :: rest else (b :: piece) :: rest
      | [] => [[]]
      end
  end.
Definition strip_prefix (pre s : bytes) : option bytes :=
  if decide (pre `prefix_of` s) then Some (drop (length pre) s) else None.
Definition eq_ignore_ascii_case (s t : bytes) : bool := bool_decide (to_lowercase s = to_lowercase t).
Definition starts_with (pre s : bytes) : bool := bool_decide (pre `prefix_of` s).
(** [s.contains(sub)]. *)
Fixpoint contains (sub s : bytes) : bool :=
  starts_with sub s || match s with [] => false | _ :: s' => contains sub s' end.
(** [pieces.join(sep)]. *)
Fixpoint join (sep : bytes) (pieces : list bytes) : bytes :=
  match pieces with
  | [] => []
  | [p] => p
  | p :: rest => p ++ sep ++ join sep rest
  end.

Lemma strip_prefix_app pre s : strip_prefix pre (pre ++ s) = Some s.
Proof. unfold strip_prefix. rewrite decide_True by (by exists s). by rewrite drop_app_length. Qed.
Lemma strip_prefix_inv pre s t : strip_prefix pre s = Some t → s = pre ++ t.
Proof.
  unfold strip_prefix. case_decide as Hp; [|done]. destruct Hp as [k ->]. rewrite drop_app_length. by intros [= ->].
Qed.

(** *** Decimal numbers can be read back *)

Definition of_digits (acc : Z) (s : bytes) : Z := foldl (λ a c, a * 10 + (c - 48)) acc s.
Definition is_digit (c : Z) : Prop := 48 <= c <= 57.

Lemma digits_spec fuel n :
  0 <= n < 10 ^ Z.of_nat fuel → (0 < fuel)%nat →
  of_digits 0 (digits fuel 10 n) = n ∧ Forall is_digit (digits fuel 10 n) ∧ digits fuel 10 n ≠ [].
Proof.
  revert n. induction fuel as [|fuel IH]; intros n Hn Hf; [lia|]. cbn [digits].
  assert (0 <= n mod 10 < 10) as Hm by (apply Z.mod_pos_bound; lia).
  assert (hex_char (n mod 10) = 48 + n mod 10) as -> by (unfold hex_char; by rewrite (proj2 (Z.ltb_lt _ _)) by lia).
  destruct (Z.ltb_spec n 10) as [Hlt|Hge].
  - rewrite (Z.mod_small n 10) by lia. cbn. split; [lia|]. split; [|done]. constructor; [unfold is_digit; lia|done].
  - rewrite Nat2Z.inj_succ, Z.pow_succ_r in Hn by lia.
    assert (0 <= n / 10 < 10 ^ Z.of_nat fuel) as Hd.
    { split; [apply Z.div_pos; lia|]. apply Z.div_lt_upper_bound; lia. }
    assert (0 < fuel)%nat as Hf'.
    { destruct fuel; [|lia]. change (10 ^ Z.of_nat 0) with 1 in Hd.
      assert (1 <= n / 10) by (apply Z.div_le_lower_bound; lia). lia. }
    destruct (IH _ Hd Hf') as (E&Hall&_). split; [|split].
    + unfold of_digits in *. rewrite foldl_app, E. cbn. pose proof (Z.div_mod n 10). lia.
    + apply Forall_app. split; [done|]. constructor; [unfold is_digit; lia|done].
    + by destruct (digits fuel 10 (n / 10)).
Qed.
Lemma decimal_spec n : 0 <= n → of_digits 0 (decimal n) = n ∧ Forall is_digit (decimal n) ∧ decimal n ≠ [].
Proof.
  intros Hn. apply digits_spec; [|lia]. split; [done|].
  assert (n < 2 ^ Z.of_nat (S (Z.to_nat (Z.log2 n)))) as Hlt.
  { rewrite Nat2Z.inj_succ, Z2Nat.id by apply Z.log2_nonneg. destruct (Z.eq_dec n 0) as [->|]; [done|]. apply Z.log2_spec. lia. }
  eapply Z.lt_le_trans; [exact Hlt|]. apply Z.pow_le_mono_l. lia.
Qed.
Lemma decimal_inj n m : 0 <= n → 0 <= m → decimal n = decimal m → n = m.
Proof. intros Hn Hm E. rewrite <-(proj1 (decimal_spec n Hn)), E. apply decimal_spec; done. Qed.

Lemma parse_digits_spec acc s :
  Forall is_digit s → 0 <= acc → of_digits acc s <= u64_max → parse_digits acc s = Some (of_digits acc s).
Proof.
  intros Hs. revert acc. induction Hs as [|c s Hc Hs IH]; intros acc Ha Hb; [done|]. cbn in *. unfold is_digit in Hc.
  rewrite (proj2 (Z.leb_le 48 c)), (proj2 (Z.leb_le c 57)) by lia. cbn.
  assert (∀ a, 0 <= a → a <= of_digits a s) as Hmono.
  { clear -Hs. induction Hs as [|d s Hd Hs IH]; intros a Ha; cbn; [lia|]. unfold is_digit in Hd.
    etrans; [|apply IH; lia]. lia. }
  assert (acc * 10 + (c - 48) <= u64_max) as Hle by (etrans; [apply Hmono; lia|exact Hb]).
  rewrite (proj2 (Z.leb_le _ _) Hle). apply IH; [lia|done].
Qed.
Lemma parse_decimal n : 0 <= n <= u64_max → parse_u64 (decimal n) = Some n.
Proof.
  intros Hn. destruct (decimal_spec n) as (E&Hd&Hne); [lia|]. destruct (decimal n) as [|c s] eqn:Es; [done|].
  unfold parse_u64. apply Forall_cons in Hd as [Hc Hs]. unfold is_digit in Hc.
  rewrite (proj2 (Z.eqb_neq c 43)) by lia. rewrite parse_digits_spec; [by rewrite E|by constructor|lia|rewrite E; lia].
Qed.
