(* ===== verification/Op.v ===== *)
(** The operation vocabulary (op.rs, hash.rs, text_range.rs types): operation
    identities, map, list and text operations, and transactions with their
    content hash.  Blake3 and the postcard serialiser are parameters. *)

From S2P Require Import Prelude Hex.

(** ** Code the repository only calls *)

(** [blake3::hash(data).as_bytes()]; feeding a [Hasher] piecewise hashes the
    concatenation of the pieces. *)
Class Blake3 := blake3_hash : bytes → bytes.

(** [blake3::keyed_hash] and [Hasher::new_keyed]. *)
Class Blake3Keyed := blake3_keyed : bytes → bytes → bytes.

(** [postcard::to_allocvec] and [postcard::from_bytes] at one type.  Encoding
    owned data into a growable vector does not fail; decoding may, with the
    message of [postcard::Error]. *)
Class Postcard (A : Type) := {
  pc_to : A → bytes;
  pc_from : bytes → result bytes A;
}.

(** What the code relies on: decoding inverts encoding. *)
Class PostcardLaws (A : Type) `{Postcard A} :=
  pc_roundtrip : ∀ a : A, pc_from (pc_to a) = Ok a.

(** ** Identities *)

(** A Blake3 digest, [[u8; 32]]. *)
Abbreviation Hash := bytes.
(** [NodeId = Hash]. *)
Abbreviation NodeId := bytes.
(** An Ed25519 verifying key, [[u8; 32]]. *)
Abbreviation PublicKey := bytes.
(** A UUID, [[u8; 16]]. *)
Abbreviation ItemId := bytes.
(** A base-62 position string (list.rs). *)
Abbreviation FracIdx := bytes.

(** [Hash::of]. *)
Definition hash_of `{Blake3} (data : bytes) : Hash := blake3_hash data.
Definition hash_zero : Hash := zeros 32.

(** The [(lamport, author)] pair every last-writer-wins decision compares. *)
Abbreviation prio := (Z * bytes)%type.

Record OpId := mkOpId { oid_lamport : Z; oid_author : PublicKey }.

#[global] Instance OpId_eq_dec : EqDecision OpId.
Proof. solve_decision. Defined.
#[global] Program Instance OpId_countable : Countable OpId :=
  inj_countable' (λ o, (oid_lamport o, oid_author o)) (λ p, mkOpId p.1 p.2) _.
Next Obligation. by intros []. Qed.

Definition OpId_cmp (a b : OpId) : comparison :=
  cmp (oid_lamport a, oid_author a) (oid_lamport b, oid_author b).
#[global] Instance Ord_OpId : Ord OpId := OpId_cmp.
#[global] Instance OrdLaws_OpId : OrdLaws OpId.
Proof.
  split.
  - intros [l a] [m b]. unfold cmp, Ord_OpId, OpId_cmp. rewrite cmp_eq_iff. naive_solver.
  - intros [l a] [m b]. unfold cmp, Ord_OpId, OpId_cmp. apply cmp_opp.
  - intros [l a] [m b] [n c]. unfold cmp, Ord_OpId, OpId_cmp. apply cmp_lt_trans.
Qed.

(** ** Operations *)

Inductive MapOp :=
| MapSet (key : bytes) (value : bytes)
| MapDelete (key : bytes)
| MapSetBlob (key : bytes) (blob_hash : Hash).

Inductive ListOp :=
| ListInsert (list_key : bytes) (item_id : ItemId) (position : FracIdx)
| ListDelete (list_key : bytes) (item_id : ItemId)
| ListMove (list_key : bytes) (item_id : ItemId) (position : FracIdx).

(** [TextRangeAnchor] (text_range.rs); the offset is a [usize]. *)
Inductive TextRangeAnchor :=
| AnchorStart
| AnchorEnd
| AnchorAfter (id : OpId)
| AnchorOffset (i : Z).

(** A character is its Unicode scalar value, a text its list of characters. *)
Inductive TextOp :=
| TextInsert (key : bytes) (after : option OpId) (ch : Z)
| TextDelete (key : bytes) (target : OpId)
| TextInsertRange (key : bytes) (anchor : TextRangeAnchor) (text : list Z)
| TextDeleteRange (key : bytes) (anchor : TextRangeAnchor) (len_chars : Z).

Inductive Op :=
| OpMap (m : MapOp)
| OpList (l : ListOp)
| OpText (t : TextOp).

#[global] Instance MapOp_eq_dec : EqDecision MapOp.
Proof. solve_decision. Defined.
#[global] Instance ListOp_eq_dec : EqDecision ListOp.
Proof. solve_decision. Defined.
#[global] Instance TextRangeAnchor_eq_dec : EqDecision TextRangeAnchor.
Proof. solve_decision. Defined.
#[global] Instance TextOp_eq_dec : EqDecision TextOp.
Proof. solve_decision. Defined.
#[global] Instance Op_eq_dec : EqDecision Op.
Proof. solve_decision. Defined.

Definition map_op_key (m : MapOp) : bytes :=
  match m with MapSet k _ | MapDelete k | MapSetBlob k _ => k end.
Definition list_op_key (l : ListOp) : bytes :=
  match l with ListInsert k _ _ | ListDelete k _ | ListMove k _ _ => k end.
Definition text_op_key (t : TextOp) : bytes :=
  match t with
  | TextInsert k _ _ | TextDelete k _ | TextInsertRange k _ _ | TextDeleteRange k _ _ => k
  end.
(** [Op::key]. *)
Definition op_key (o : Op) : option bytes :=
  match o with
  | OpMap m => Some (map_op_key m)
  | OpText t => Some (text_op_key t)
  | OpList l => Some (list_op_key l)
  end.

(** ** Transactions *)

Record Transaction := mkTx {
  tx_author : PublicKey;
  tx_lamport : Z;
  tx_wall_ms : Z;
  tx_ops : list Op;
  tx_parents : list Hash;
}.

#[global] Instance Transaction_eq_dec : EqDecision Transaction.
Proof. solve_decision. Defined.

Definition tx_prio (tx : Transaction) : prio := (tx_lamport tx, tx_author tx).

(** [Transaction::hash]: Blake3 over the postcard encoding. *)
Definition tx_hash `{Blake3, Postcard Transaction} (tx : Transaction) : Hash :=
  hash_of (pc_to tx).
