(* ===== verification/Node.v ===== *)
(** Sync nodes (node.rs), the error type (error.rs), Ed25519 as a parameter,
    and the wire form of a pack of nodes. *)

From S2P Require Import Prelude Hex Op.

(** ** Errors *)

Inductive SyncError :=
| HashMismatch (expected actual : Hash)
| MissingParent (h : Hash)
| DuplicateNode (h : Hash)
| Serialization (msg : bytes)
| BlobNotFound (h : Hash)
| InvalidSignature (h : Hash)
| PolicyViolation (author : PublicKey) (key : bytes)
| EncryptionFailed
| DecryptionFailed
| LamportCeiling (id : Hash) (lamport ceiling : Z)
| WallClockSkew (id : Hash) (wall_ms now_ms : Z).

#[global] Instance SyncError_eq_dec : EqDecision SyncError.
Proof. solve_decision. Defined.

(** ** Ed25519, the crate [ed25519_dalek] *)

Class Ed25519 := {
  SigningKey : Type;
  (** [signing_key.verifying_key().to_bytes()] *)
  ed_verifying_key : SigningKey → PublicKey;
  ed_sign : SigningKey → bytes → bytes;
  (** [VerifyingKey::from_bytes(b).is_ok()] *)
  ed_vk_ok : PublicKey → bool;
  (** [vk.verify(msg, sig).is_ok()] *)
  ed_verify : PublicKey → bytes → bytes → bool;
  (** [verify_batch(messages, sigs, keys).is_ok()] *)
  ed_verify_batch : list (bytes * bytes * PublicKey) → bool;
}.

(** What the code relies on: a signature verifies under its key, a
    signature is 64 bytes and a key 32. *)
Class Ed25519Laws `{Ed25519} := {
  ed_vk_ok_own : ∀ sk, ed_vk_ok (ed_verifying_key sk) = true;
  ed_verify_own : ∀ sk m, ed_verify (ed_verifying_key sk) m (ed_sign sk m) = true;
  ed_sign_length : ∀ sk m, byte_array 64 (ed_sign sk m);
  ed_vk_length : ∀ sk, byte_array 32 (ed_verifying_key sk);
}.

(** [verify_batch] accepts only when every signature verifies on its own; it
    may refuse, and the code then falls back to single verification. *)
Class Ed25519BatchLaws `{Ed25519} :=
  ed_verify_batch_sound : ∀ l m s k, ed_verify_batch l = true → (m, s, k) ∈ l →
    ed_verify k m s = true.

(** ** Nodes *)

Definition sig_zero : bytes := zeros 64.
(** [Signature::is_zero]. *)
Definition sig_is_zero (s : bytes) : bool := bool_decide (s = sig_zero).
(** The serde form of a signature. *)
Definition sig_serialize (s : bytes) : bytes := to_hex s.
Definition sig_deserialize (s : bytes) : option bytes := hex_to_array 64 s.

Record SyncNode := mkNode {
  node_id : NodeId;
  node_tx : Transaction;
  node_sig : bytes;
}.

#[global] Instance SyncNode_eq_dec : EqDecision SyncNode.
Proof. solve_decision. Defined.

Definition node_parents (n : SyncNode) : list Hash := tx_parents (node_tx n).
Definition node_lamport (n : SyncNode) : Z := tx_lamport (node_tx n).
Definition node_ops (n : SyncNode) : list Op := tx_ops (node_tx n).
Definition node_prio (n : SyncNode) : prio := tx_prio (node_tx n).

(** The operations of a list of nodes with their priorities, in loop order. *)
Definition node_events (n : SyncNode) : list (prio * Op) := (λ o, (node_prio n, o)) <$> node_ops n.
Definition events (ns : list SyncNode) : list (prio * Op) := ns ≫= node_events.

(** A doubly nested loop over nodes and their operations. *)
Definition fold_ops {S} (f : S → prio → Op → S) (s : S) (ns : list SyncNode) : S :=
  foldl (λ s n, foldl (λ s o, f s (node_prio n) o) s (node_ops n)) s ns.

Lemma fold_ops_events {S} (f : S → prio → Op → S) s ns :
  fold_ops f s ns = foldl (λ s e, f s e.1 e.2) s (events ns).
Proof.
  unfold fold_ops, events. revert s. induction ns as [|n ns IH]; intros s; [done|].
  simpl. rewrite foldl_app, <-IH. f_equal. unfold node_events.
  generalize (node_ops n). intros l. revert s. induction l; intros s; simpl; auto.
Qed.

#[global] Instance events_proper : Proper ((≡ₚ) ==> (≡ₚ)) events.
Proof. intros l k H. unfold events. by rewrite H. Qed.

Lemma elem_of_events e ns :
  e ∈ events ns ↔ ∃ n, n ∈ ns ∧ e.1 = node_prio n ∧ e.2 ∈ node_ops n.
Proof.
  unfold events. rewrite list_elem_of_bind. unfold node_events.
  setoid_rewrite list_elem_of_fmap. destruct e as [p o]; simpl. naive_solver.
Qed.

(** No author signs two different transactions with one lamport. *)
Definition no_equivocation (ns : list SyncNode) : Prop :=
  ∀ n m, n ∈ ns → m ∈ ns → node_prio n = node_prio m → node_ops n = node_ops m.

#[global] Instance no_equivocation_proper : Proper ((≡ₚ) ==> iff) no_equivocation.
Proof.
  intros l k H. unfold no_equivocation.
  split; intros Hc n m; [rewrite <-H|rewrite H]; apply Hc.
Qed.

(** A loop whose body commutes on operations of different priority does not
    depend on the order of the nodes. *)
Lemma foldl_events_perm {S} (f : S → prio * Op → S) s ns ns' :
  ns ≡ₚ ns' → no_equivocation ns →
  (∀ s e1 e2, e1.1 ≠ e2.1 → f (f s e1) e2 = f (f s e2) e1) →
  foldl f s (events ns) = foldl f s (events ns').
Proof.
  intros Hp Hne Hf.
  assert (∀ s ns, foldl f s (events ns) = foldl (λ s n, foldl f s (node_events n)) s ns) as E.
  { intros s0 l. revert s0. induction l as [|n l IH]; intros s0; [done|].
    unfold events. cbn [mbind list_bind foldl]. rewrite foldl_app. apply IH. }
  rewrite !E. apply foldl_perm_comm; [done|]. intros b n m Hn Hm.
  destruct (decide (node_prio n = node_prio m)) as [Heq|Heq].
  - assert (node_events n = node_events m) as ->; [|done].
    unfold node_events. by rewrite Heq, (Hne n m).
  - apply foldl_swap. unfold node_events.
    intros b' x y (o1&->&_)%list_elem_of_fmap (o2&->&_)%list_elem_of_fmap. by apply Hf.
Qed.

Section node.
Context `{Blake3, Postcard Transaction, Ed25519}.

(** [SyncNode::new]. *)
Definition node_new (tx : Transaction) : SyncNode := mkNode (tx_hash tx) tx sig_zero.

(** [SyncNode::new_signed]. *)
Definition node_new_signed (tx : Transaction) (sk : SigningKey) : SyncNode :=
  mkNode (tx_hash tx) tx (ed_sign sk (tx_hash tx)).

(** [SyncNode::verify_signature]. *)
Definition verify_signature (n : SyncNode) : result SyncError unit :=
  if sig_is_zero (node_sig n) then Ok tt
  else if ed_vk_ok (tx_author (node_tx n)) then
    if ed_verify (tx_author (node_tx n)) (node_id n) (node_sig n) then Ok tt
    else Err (InvalidSignature (node_id n))
  else Err (InvalidSignature (node_id n)).

Lemma verify_signature_own tx sk `{!Ed25519Laws} :
  tx_author tx = ed_verifying_key sk → verify_signature (node_new_signed tx sk) = Ok tt.
Proof.
  intros E. unfold verify_signature, node_new_signed; simpl. rewrite E.
  rewrite ed_vk_ok_own, ed_verify_own. by case_tests.
Qed.
End node.

(** ** Wire form *)

Record WireTx := mkWireTx {
  wtx_author : PublicKey; wtx_lamport : Z; wtx_wall_ms : Z;
  wtx_ops : list Op; wtx_parents : list Hash }.
Record WireNode := mkWireNode {
  wn_id : bytes; wn_tx : WireTx; wn_sig_lo : bytes; wn_sig_hi : bytes }.

(** [From<&SyncNode> for WireNode]. *)
Definition wire_of_node (n : SyncNode) : WireNode :=
  mkWireNode (node_id n)
    (mkWireTx (tx_author (node_tx n)) (tx_lamport (node_tx n)) (tx_wall_ms (node_tx n))
              (tx_ops (node_tx n)) (tx_parents (node_tx n)))
    (take 32 (node_sig n)) (drop 32 (node_sig n)).

(** [From<WireNode> for SyncNode]. *)
Definition node_of_wire (w : WireNode) : SyncNode :=
  mkNode (wn_id w)
    (mkTx (wtx_author (wn_tx w)) (wtx_lamport (wn_tx w)) (wtx_wall_ms (wn_tx w))
          (wtx_ops (wn_tx w)) (wtx_parents (wn_tx w)))
    (wn_sig_lo w ++ wn_sig_hi w).

Section wire.
Context `{Postcard WireNode, Postcard (list WireNode)}.

(** [SyncNode::to_postcard] and [from_postcard]. *)
Definition node_to_postcard (n : SyncNode) : bytes := pc_to (wire_of_node n).
Definition node_from_postcard (b : bytes) : result SyncError SyncNode :=
  match pc_from b with
  | Ok w => Ok (node_of_wire w)
  | Err m => Err (Serialization m)
  end.

(** [pack_nodes] and [unpack_nodes]. *)
Definition pack_nodes (ns : list SyncNode) : bytes := pc_to (wire_of_node <$> ns).
Definition unpack_nodes (b : bytes) : result SyncError (list SyncNode) :=
  match pc_from b with
  | Ok ws => Ok (node_of_wire <$> ws)
  | Err m => Err (Serialization m)
  end.

Lemma node_of_wire_of_node n : node_of_wire (wire_of_node n) = n.
Proof.
  destruct n as [i [a l w o p] s]. unfold node_of_wire; simpl.
  by rewrite take_drop.
Qed.
End wire.
