(* ===== verification/Policy.v ===== *)
(** Write policies (policy.rs): the glob matcher and the first-match rule
    evaluation behind [Policy::can_write]. *)

From S2P Require Import Prelude Op.

Inductive PolicyDefault := AllowAll | DenyAll.

Record PolicyRule := mkRule {
  path_glob : bytes;
  rule_can_write : list PublicKey;
  rule_can_read : list PublicKey;
  rule_can_derive : list PublicKey;
}.

Record Policy := mkPolicy {
  policy_rules : list PolicyRule;
  policy_fallback : PolicyDefault;
}.

(** [Policy::default]. *)
Definition policy_default : Policy := mkPolicy [] AllowAll.

#[global] Instance PolicyDefault_eq_dec : EqDecision PolicyDefault.
Proof. solve_decision. Defined.

(** ** The glob matcher *)

Definition ch_star : Z := 42.
Definition ch_slash : Z := 47.

(** The inner loop of the [**] arm: try every suffix of the text. *)
Fixpoint try_every_suffix (m : bytes → bool) (txt : bytes) : bool :=
  if m txt then true
  else match txt with [] => false | _ :: t => try_every_suffix m t end.

(** The inner loop of the [*] arm: stop at a separator. *)
Fixpoint try_segment_suffix (m : bytes → bool) (txt : bytes) : bool :=
  if m txt then true
  else match txt with
       | [] => false
       | c :: t => if c =? ch_slash then false else try_segment_suffix m t
       end.

(** [glob_matches_inner]; the recursion is on the pattern. *)
Fixpoint glob_matches_inner (pat : bytes) (txt : bytes) {struct pat} : bool :=
  match pat with
  | [] => match txt with [] => true | _ => false end
  | pc :: p1 =>
      if pc =? ch_star then
        match p1 with
        | pc2 :: p2 =>
            if pc2 =? ch_star then
              match p2 with
              | pc3 :: p3 =>
                  if pc3 =? ch_slash
                  then try_every_suffix (λ t, glob_matches_inner p3 t) txt
                  else try_every_suffix (λ t, glob_matches_inner p2 t) txt
              | [] => try_every_suffix (λ t, glob_matches_inner p2 t) txt
              end
            else try_segment_suffix (λ t, glob_matches_inner p1 t) txt
        | [] => try_segment_suffix (λ t, glob_matches_inner p1 t) txt
        end
      else
        match txt with
        | tc :: t => if tc =? pc then glob_matches_inner p1 t else false
        | [] => false
        end
  end.

Definition glob_matches (pattern text : bytes) : bool := glob_matches_inner pattern text.

(** [Policy::can_write]: the loop over the rules with its early return. *)
Fixpoint can_write_rules (rules : list PolicyRule) (d : PolicyDefault)
    (key : bytes) (author : PublicKey) : bool :=
  match rules with
  | [] => bool_decide (d = AllowAll)
  | r :: rs =>
      if glob_matches (path_glob r) key then bool_decide (author ∈ rule_can_write r)
      else can_write_rules rs d key author
  end.

Definition can_write (p : Policy) (key : bytes) (author : PublicKey) : bool :=
  can_write_rules (policy_rules p) (policy_fallback p) key author.

(** ** The language of a pattern *)

(** A separator right after [**] is dropped. *)
Definition strip_slash (p : bytes) : bytes :=
  match p with c :: p' => if c =? ch_slash then p' else p | [] => p end.

Inductive glob_lang : bytes → bytes → Prop :=
| glob_end : glob_lang [] []
| glob_any p t1 t2 :
    glob_lang (strip_slash p) t2 → glob_lang (ch_star :: ch_star :: p) (t1 ++ t2)
| glob_segment p t1 t2 :
    head p ≠ Some ch_star → (ch_slash ∉ t1) →
    glob_lang p t2 → glob_lang (ch_star :: p) (t1 ++ t2)
| glob_literal c p t :
    c ≠ ch_star → glob_lang p t → glob_lang (c :: p) (c :: t).

Lemma try_every_suffix_spec m txt :
  try_every_suffix m txt = true ↔ ∃ t1 t2, txt = t1 ++ t2 ∧ m t2 = true.
Proof.
  induction txt as [|c t IH]; simpl; destruct (m _) eqn:E.
  - split; [|done]. intros _. by exists [], [].
  - split; [done|]. intros ([|]&[|]&[=]&?); congruence.
  - split; [|done]. intros _. by exists [], (c :: t).
  - rewrite IH. split.
    + intros (t1&t2&->&?). by exists (c :: t1), t2.
    + intros ([|c' t1]&t2&Heq&Hm); simplify_eq/=; [congruence|eauto].
Qed.

Lemma try_segment_suffix_spec m txt :
  try_segment_suffix m txt = true ↔
  ∃ t1 t2, txt = t1 ++ t2 ∧ (ch_slash ∉ t1) ∧ m t2 = true.
Proof.
  induction txt as [|c t IH]; simpl; destruct (m _) eqn:E.
  - split; [|done]. intros _. exists [], []. set_solver.
  - split; [done|]. intros ([|]&[|]&[=]&?&?); congruence.
  - split; [|done]. intros _. exists [], (c :: t). set_solver.
  - destruct (Z.eqb_spec c ch_slash) as [->|Hc].
    + split; [done|]. intros ([|c' t1]&t2&Heq&Hn&Hm); simplify_eq/=; [congruence|set_solver].
    + rewrite IH. split.
      * intros (t1&t2&->&?&?). exists (c :: t1), t2. set_solver.
      * intros ([|c' t1]&t2&Heq&Hn&Hm); simplify_eq/=; [congruence|].
        exists t1, t2. set_solver.
Qed.

(** The two loops of the matcher, one equation per arm. *)
Lemma glob_inner_any p txt :
  glob_matches_inner (ch_star :: ch_star :: p) txt =
  try_every_suffix (λ t, glob_matches_inner (strip_slash p) t) txt.
Proof. destruct p as [|c p]; [done|]. simpl. by destruct (c =? ch_slash). Qed.

Lemma glob_inner_segment p txt :
  head p ≠ Some ch_star →
  glob_matches_inner (ch_star :: p) txt =
  try_segment_suffix (λ t, glob_matches_inner p t) txt.
Proof.
  intros Hp. destruct p as [|c p]; [done|]. simpl.
  destruct (Z.eqb_spec c ch_star); [simplify_eq/=; done|done].
Qed.

Lemma glob_inner_literal c p txt :
  c ≠ ch_star →
  glob_matches_inner (c :: p) txt =
  match txt with tc :: t => if tc =? c then glob_matches_inner p t else false | [] => false end.
Proof. intros Hc. simpl. by rewrite (proj2 (Z.eqb_neq c ch_star)). Qed.

Lemma length_strip_slash p : (length (strip_slash p) <= length p)%nat.
Proof. destruct p as [|c p]; simpl; [done|]. destruct (_ =? _); simpl; lia. Qed.

(** The matcher accepts exactly the language of the pattern. *)
Lemma glob_matches_lang pat txt : glob_matches pat txt = true ↔ glob_lang pat txt.
Proof.
  unfold glob_matches. remember (length pat) as n eqn:Hn.
  revert pat txt Hn. induction (lt_wf n) as [n _ IH]. intros pat txt ->.
  destruct pat as [|c p].
  - destruct txt; simpl; (split; [try constructor; try done|by inversion 1]).
  - destruct (decide (c = ch_star)) as [->|Hc];
      [destruct (decide (head p = Some ch_star)) as [Hh|Hh]|].
    + destruct p as [|c p]; [done|]. injection Hh as ->. rewrite glob_inner_any, try_every_suffix_spec.
      pose proof (length_strip_slash p). split.
      * intros (t1&t2&->&Hm). constructor. eapply IH; [|done|done]. simpl. lia.
      * inversion 1 as [|p' t1 t2 Hl|p' t1 t2 Hh|]; simplify_eq.
        exists t1, t2. split; [done|]. eapply IH; [|done|done]. simpl. lia.
    + rewrite glob_inner_segment, try_segment_suffix_spec by done. split.
      * intros (t1&t2&->&?&Hm). constructor; [done..|]. eapply IH; [|done|done]. simpl. lia.
      * inversion 1 as [|p' t1 t2 Hl|p' t1 t2 Hh'|]; simplify_eq/=.
        exists t1, t2. do 2 (split; [done|]). eapply IH; [|done|done]. simpl. lia.
    + rewrite glob_inner_literal by done. destruct txt as [|tc t].
      * split; [done|by inversion 1].
      * destruct (Z.eqb_spec tc c) as [->|Htc].
        -- rewrite (IH (length p)) by (simpl; lia || done). split; [by constructor|].
           by inversion 1; simplify_eq.
        -- split; [done|]. by inversion 1; simplify_eq.
Qed.

(** First match wins. *)
Definition first_match (rules : list PolicyRule) (key : bytes) (r : PolicyRule) : Prop :=
  ∃ pre post, rules = pre ++ r :: post ∧ glob_lang (path_glob r) key ∧
    ∀ r', r' ∈ pre → ¬ glob_lang (path_glob r') key.

Lemma can_write_rules_spec rules d key author :
  can_write_rules rules d key author = true ↔
  (∃ r, first_match rules key r ∧ author ∈ rule_can_write r) ∨
  ((∀ r, r ∈ rules → ¬ glob_lang (path_glob r) key) ∧ d = AllowAll).
Proof.
  induction rules as [|r rs IH]; simpl.
  - rewrite bool_decide_eq_true. split; [right; set_solver|].
    intros [(r&(pre&post&Heq&_)&_)|[_ ?]]; [by destruct pre|done].
  - destruct (glob_matches (path_glob r) key) eqn:E.
    + rewrite bool_decide_eq_true. apply glob_matches_lang in E. split.
      * intros ?. left. exists r. split; [|done]. exists [], rs. set_solver.
      * intros [(r'&(pre&post&Heq&Hr'&Hpre)&Ha)|[Hno _]]; [|by destruct (Hno r); [set_solver|]].
        destruct pre as [|r0 pre]; simplify_eq/=; [done|]. destruct (Hpre r0); set_solver.
    + rewrite IH. assert (¬ glob_lang (path_glob r) key) as Hr.
      { rewrite <-glob_matches_lang. congruence. }
      split; (intros [(r'&(pre&post&Heq&Hr'&Hpre)&Ha)|[Hno ?]]; [left|right]).
      * exists r'. split; [|done]. exists (r :: pre), post. rewrite Heq. set_solver.
      * set_solver.
      * destruct pre as [|r0 pre]; injection Heq as -> ->; [done|]. exists r'. split; [|done].
        exists pre, post. set_solver.
      * set_solver.
Qed.

(** A policy lets an author write a key iff the first rule whose pattern
    denotes the key lists the author or, when no rule's pattern denotes the key,
    the policy allows by default. *)
Theorem can_write_spec (p : Policy) (key : bytes) (author : PublicKey) :
  can_write p key author = true ↔
  (∃ r, first_match (policy_rules p) key r ∧ author ∈ rule_can_write r) ∨
  ((∀ r, r ∈ policy_rules p → ¬ glob_lang (path_glob r) key) ∧ policy_fallback p = AllowAll).
Proof. apply can_write_rules_spec. Qed.
