(* ===== verification/Frontier.v ===== *)
(** DAG frontiers (frontier.rs): the sorted vector of heads exchanged in the
    handshake, its incremental update and its two encodings. *)

From S2P Require Import Prelude Hex Op Node.

Record Frontier := mkFrontier { heads : list NodeId }.

(** [Frontier::default]. *)
Definition frontier_empty : Frontier := mkFrontier [].

(** [Frontier::from_heads]: sort, then drop duplicates. *)
Definition from_heads (hs : list NodeId) : Frontier := mkFrontier (dedup (sort hs)).

(** [Frontier::contains]. *)
Definition frontier_contains (f : Frontier) (id : NodeId) : bool := bool_decide (id ∈ heads f).

(** [Frontier::advance]: drop the parents, add the node once, sort. *)
Definition advance (f : Frontier) (n : SyncNode) : Frontier :=
  let hs := foldl (λ hs p, filter (λ h, h ≠ p) hs) (heads f) (node_parents n) in
  let hs := if decide (node_id n ∈ hs) then hs else hs ++ [node_id n] in
  mkFrontier (sort hs).

Definition frontier_len (f : Frontier) : nat := length (heads f).
Definition frontier_is_empty (f : Frontier) : bool := bool_decide (heads f = []).

(** [Frontier::encode] and [Frontier::decode]. *)
Definition frontier_encode `{Postcard Frontier} (f : Frontier) : bytes := pc_to f.
Definition frontier_decode `{Postcard Frontier} (b : bytes) : result bytes Frontier := pc_from b.

(** [parse_hex_hash]. *)
Definition parse_hex_hash (hex : bytes) : option NodeId := hex_to_array 32 hex.

(** [Frontier::to_hex_vec] and [Frontier::from_hex_vec] (malformed entries are
    skipped). *)
Definition to_hex_vec (f : Frontier) : list bytes := to_hex <$> heads f.
Definition from_hex_vec (hexes : list bytes) : Frontier := from_heads (omap parse_hex_hash hexes).

(** ** The invariant: heads are strictly sorted *)

Definition frontier_wf (f : Frontier) : Prop := StronglySorted ord_lt (heads f).

Lemma frontier_wf_NoDup f : frontier_wf f → NoDup (heads f).
Proof. apply sorted_lt_NoDup. Qed.

Lemma from_heads_wf hs : frontier_wf (from_heads hs).
Proof. apply sorted_dedup, sort_sorted. Qed.

Lemma elem_of_from_heads x hs : x ∈ heads (from_heads hs) ↔ x ∈ hs.
Proof. unfold from_heads; simpl. by rewrite elem_of_dedup, elem_of_sort. Qed.

Lemma from_heads_id f : frontier_wf f → from_heads (heads f) = f.
Proof.
  intros Hf. destruct f as [hs]. unfold from_heads; simpl in *. f_equal.
  apply sorted_lt_ext; [apply sorted_dedup, sort_sorted|done|].
  intros x. by rewrite elem_of_dedup, elem_of_sort.
Qed.

Lemma elem_of_filter_parents x (ps hs : list NodeId) :
  x ∈ foldl (λ hs p, filter (λ h, h ≠ p) hs) hs ps ↔ x ∈ hs ∧ x ∉ ps.
Proof.
  revert hs. induction ps as [|p ps IH]; intros hs; simpl; [set_solver|].
  rewrite IH, list_elem_of_filter. set_solver.
Qed.

Lemma NoDup_filter_parents (ps hs : list NodeId) :
  NoDup hs → NoDup (foldl (λ hs p, filter (λ h, h ≠ p) hs) hs ps).
Proof.
  revert hs. induction ps as [|p ps IH]; intros hs Hhs; simpl; [done|].
  apply IH. by apply NoDup_filter.
Qed.

Lemma elem_of_advance f n x :
  x ∈ heads (advance f n) ↔ x = node_id n ∨ (x ∈ heads f ∧ x ∉ node_parents n).
Proof.
  unfold advance; simpl. rewrite elem_of_sort. case_decide as Hn.
  - rewrite elem_of_filter_parents in Hn |- *. naive_solver.
  - rewrite elem_of_app, elem_of_filter_parents. set_solver.
Qed.

Lemma advance_wf f n : frontier_wf f → frontier_wf (advance f n).
Proof.
  intros Hf. unfold frontier_wf, advance; simpl. apply sort_lt_NoDup.
  assert (NoDup (foldl (λ hs p, filter (λ h, h ≠ p) hs) (heads f) (node_parents n))) as Hnd
    by by apply NoDup_filter_parents, frontier_wf_NoDup.
  case_decide; [done|]. apply NoDup_app. split; [done|]. split; [set_solver|apply NoDup_singleton].
Qed.

(** Two well-formed frontiers with the same heads are equal. *)
Lemma frontier_ext f g :
  frontier_wf f → frontier_wf g → (∀ x, x ∈ heads f ↔ x ∈ heads g) → f = g.
Proof.
  destruct f as [l], g as [k]. unfold frontier_wf; simpl. intros. f_equal.
  by apply sorted_lt_ext.
Qed.

Lemma omap_parse_to_hex hs :
  Forall (byte_array 32) hs → omap parse_hex_hash (to_hex <$> hs) = hs.
Proof.
  induction 1 as [|h hs Hh _ IH]; [done|]. cbn [fmap list_fmap omap list_omap].
  unfold parse_hex_hash at 1. rewrite hex_to_array_to_hex by done. by f_equal.
Qed.

#[export] Hint Resolve from_heads_wf advance_wf : nm.
