(* ===== verification/Storage.v ===== *)
(** Storage backends (storage.rs): the [NodeStore] trait as a class with the
    laws the graph relies on, and the in-memory node and blob stores. *)

From S2P Require Import Prelude Op Node.

(** ** [trait NodeStore] *)

Class NodeStore (S : Type) := {
  ns_put : S → SyncNode → S * result SyncError unit;
  ns_get : S → NodeId → option SyncNode;
  ns_all_ids : S → list NodeId;
  ns_contains : S → NodeId → bool;
  ns_len : S → Z;
}.

(** The trait's documented contract.  A failed [put] promises nothing. *)
Class NodeStoreLaws (S : Type) `{NodeStore S} := {
  ns_get_put : ∀ s s' n i, ns_put s n = (s', Ok tt) →
    ns_get s' i = if decide (i = node_id n) then Some n else ns_get s i;
  ns_contains_get : ∀ s i, ns_contains s i = bool_decide (is_Some (ns_get s i));
  ns_all_ids_get : ∀ s i, i ∈ ns_all_ids s ↔ is_Some (ns_get s i);
  ns_all_ids_NoDup : ∀ s, NoDup (ns_all_ids s);
  ns_len_ids : ∀ s, ns_len s = Z.of_nat (length (ns_all_ids s));
}.

(** A store whose writes do not fail, such as one in memory. *)
Class NodeStoreInfallible (S : Type) `{NodeStore S} :=
  ns_put_ok : ∀ s n, ∃ s', ns_put s n = (s', Ok tt).

(** ** [MemoryNodeStore] *)

Abbreviation MemoryNodeStore := (gmap NodeId SyncNode).

Definition mem_put (s : MemoryNodeStore) (n : SyncNode) : MemoryNodeStore * result SyncError unit :=
  (<[node_id n := n]> s, Ok tt).
Definition mem_get (s : MemoryNodeStore) (i : NodeId) : option SyncNode := s !! i.
Definition mem_all_ids (s : MemoryNodeStore) : list NodeId := (map_to_list s).*1.
Definition mem_contains (s : MemoryNodeStore) (i : NodeId) : bool :=
  match s !! i with Some _ => true | None => false end.
Definition mem_len (s : MemoryNodeStore) : Z := Z.of_nat (size s).

#[global] Instance NodeStore_mem : NodeStore MemoryNodeStore := {|
  ns_put := mem_put; ns_get := mem_get; ns_all_ids := mem_all_ids;
  ns_contains := mem_contains; ns_len := mem_len |}.

#[global] Instance NodeStoreLaws_mem : NodeStoreLaws MemoryNodeStore.
Proof.
  split; simpl.
  - unfold mem_put, mem_get. intros s s' n i [= <-]. rewrite lookup_insert.
    repeat case_decide; congruence.
  - unfold mem_contains, mem_get. intros s i. symmetry. destruct (s !! i).
    + by apply bool_decide_eq_true_2.
    + apply bool_decide_eq_false_2. by intros [? ?].
  - unfold mem_all_ids, mem_get. intros s i. rewrite list_elem_of_fmap. split.
    + intros ([j n]&->&Hin). apply elem_of_map_to_list in Hin. simpl. eauto.
    + intros [n Hn]. exists (i, n). split; [done|]. by apply elem_of_map_to_list.
  - intros s. apply NoDup_fst_map_to_list.
  - intros s. unfold mem_len, mem_all_ids. rewrite length_fmap.
    by rewrite length_map_to_list.
Qed.

#[global] Instance NodeStoreInfallible_mem : NodeStoreInfallible MemoryNodeStore.
Proof. intros s n. by eexists. Qed.

(** ** [MemoryBlobStore] *)

Abbreviation MemoryBlobStore := (gmap Hash bytes).

Section blobs.
Context `{Blake3}.
Implicit Types s : MemoryBlobStore.

(** [put]: content-addressed, an existing blob is kept. *)
Definition blob_put s (data : bytes) : MemoryBlobStore * Hash :=
  let h := hash_of data in
  (match s !! h with Some _ => s | None => <[h := data]> s end, h).
Definition blob_get s (h : Hash) : option bytes := s !! h.
Definition blob_contains s (h : Hash) : bool :=
  match s !! h with Some _ => true | None => false end.
Definition blob_size s (h : Hash) : option Z := (λ v, Z.of_nat (length v)) <$> s !! h.

(** [get_range]; [None] is the panic of slicing with start past end. *)
Definition blob_get_range s (h : Hash) (range_start range_end : Z) : option (option bytes) :=
  match s !! h with
  | None => Some None
  | Some data =>
      let start := range_start in
      let stop := Z.min range_end (Z.of_nat (length data)) in
      if Z.of_nat (length data) <=? start then Some None
      else if stop <? start then None
      else Some (Some (take (Z.to_nat (stop - start)) (drop (Z.to_nat start) data)))
  end.

(** [MemoryBlobStore::missing_from]. *)
Definition blob_missing_from s (remote : list Hash) : list Hash :=
  filter (λ h, blob_contains s h = false) remote.

(** Every blob is stored under its own hash. *)
Definition blobs_wf s : Prop := map_Forall (λ h d, hash_of d = h) s.

Lemma blobs_wf_put s d : blobs_wf s → blobs_wf (blob_put s d).1.
Proof.
  intros Hs. unfold blob_put; simpl. destruct (s !! _) eqn:E; [done|].
  apply map_Forall_insert_2; [done|done].
Qed.

Lemma blob_get_put s d :
  blobs_wf s →
  ∃ d', blob_get (blob_put s d).1 (hash_of d) = Some d' ∧ hash_of d' = hash_of d.
Proof.
  intros Hs. unfold blob_get, blob_put; simpl. destruct (s !! hash_of d) as [d'|] eqn:E.
  - exists d'. split; [done|]. by apply (Hs _ _ E).
  - exists d. by rewrite lookup_insert_eq.
Qed.
End blobs.
