(* ===== verification/Lww.v ===== *)
(** Last-writer-wins registers.  Every resolver of the crate keeps, per key,
    the candidate with the greatest [(lamport, author)] and replaces it only
    by a strictly greater one.  This file is the shared theory: the merge, the
    order-independence of folding it, and its specification as a maximum. *)

From S2P Require Import Prelude.

Section lww.
Context {V P : Type} `{OrdLaws P} (pr : V → P).
Implicit Types (v w c : V) (l k : list V).

(** Replace the current winner by a strictly greater candidate. *)
Definition lww_merge c v : V := if gtb (pr v) (pr c) then v else c.

(** The same on a slot that may be empty. *)
Definition lww_slot (o : option V) v : option V :=
  match o with Some c => Some (lww_merge c v) | None => Some v end.

(** Candidates with the same priority are the same candidate. *)
Definition lww_agree v w : Prop := pr v = pr w → v = w.
Definition lww_consistent l : Prop := ∀ v w, v ∈ l → w ∈ l → lww_agree v w.

Lemma lww_merge_comm c v w :
  lww_agree v w → lww_merge (lww_merge c v) w = lww_merge (lww_merge c w) v.
Proof.
  intros Hvw. unfold lww_merge.
  destruct (gtb (pr v) (pr c)) eqn:Evc, (gtb (pr w) (pr c)) eqn:Ewc;
    rewrite ?Evc, ?Ewc; [| | |done].
  - destruct (gtb (pr w) (pr v)) eqn:Ewv, (gtb (pr v) (pr w)) eqn:Evw; [|done|done|].
    + rewrite gtb_true in Ewv, Evw. by destruct (ord_lt_asym _ _ Ewv).
    + rewrite gtb_false in Ewv, Evw. apply Hvw. by apply (anti_symm ord_le).
  - destruct (gtb (pr w) (pr v)) eqn:Ewv; [|done].
    rewrite gtb_true in Evc, Ewv. rewrite gtb_false in Ewc.
    destruct (ord_lt_irrefl (pr v)).
    eapply ord_lt_le_trans; [exact Ewv|]. transitivity (pr c); [done|].
    apply ord_le_lt_or_eq. by left.
  - destruct (gtb (pr v) (pr w)) eqn:Evw; [|done].
    rewrite gtb_true in Ewc, Evw. rewrite gtb_false in Evc.
    destruct (ord_lt_irrefl (pr v)).
    eapply ord_le_lt_trans; [exact Evc|]. exact (cmp_lt_trans _ _ _ Ewc Evw).
Qed.

Lemma lww_slot_comm o v w :
  lww_agree v w → lww_slot (lww_slot o v) w = lww_slot (lww_slot o w) v.
Proof.
  intros Hvw. destruct o as [c|]; simpl; f_equal; [by apply lww_merge_comm|].
  unfold lww_merge. destruct (gtb (pr w) (pr v)) eqn:E1, (gtb (pr v) (pr w)) eqn:E2; [|done|done|].
  - rewrite gtb_true in E1, E2. by destruct (ord_lt_asym _ _ E1).
  - rewrite gtb_false in E1, E2. apply Hvw. by apply (anti_symm ord_le).
Qed.

(** The winner of a list of candidates. *)
Definition lww_winner l : option V := foldl lww_slot None l.

Lemma lww_winner_perm l k : l ≡ₚ k → lww_consistent l → lww_winner l = lww_winner k.
Proof.
  intros Hlk Hl. apply foldl_perm_comm; [done|].
  intros o v w Hv Hw. apply lww_slot_comm. by apply Hl.
Qed.

Lemma lww_merge_ge c v : ord_le (pr c) (pr (lww_merge c v)) ∧ ord_le (pr v) (pr (lww_merge c v)).
Proof.
  unfold lww_merge. destruct (gtb (pr v) (pr c)) eqn:E.
  - split; [|done]. apply gtb_true in E. apply ord_le_lt_or_eq. by left.
  - split; [done|]. by apply gtb_false.
Qed.

Lemma lww_merge_cases c v : lww_merge c v = c ∨ lww_merge c v = v.
Proof. unfold lww_merge. case_tests; auto. Qed.

Lemma foldl_slot_Some l c :
  ∃ w, foldl lww_slot (Some c) l = Some w ∧ (w = c ∨ w ∈ l) ∧
       ord_le (pr c) (pr w) ∧ ∀ v, v ∈ l → ord_le (pr v) (pr w).
Proof.
  revert c. induction l as [|v l IH]; intros c; simpl.
  - exists c. split; [done|]. split; [auto|]. split; [done|]. set_solver.
  - destruct (IH (lww_merge c v)) as (w&Hw&Hin&Hc&Hl). exists w. split; [done|].
    destruct (lww_merge_ge c v) as [H1 H2]. split; [|split].
    + destruct Hin as [->|?]; [|set_solver]. destruct (lww_merge_cases c v) as [->| ->]; set_solver.
    + by transitivity (pr (lww_merge c v)).
    + intros u [->|Hu]%elem_of_cons; [by transitivity (pr (lww_merge c v))|by apply Hl].
Qed.

Lemma foldl_merge_max l c :
  let w := foldl lww_merge c l in
  (w = c ∨ (w ∈ l ∧ ord_lt (pr c) (pr w))) ∧ ∀ v, v ∈ l → ord_le (pr v) (pr w).
Proof.
  assert (∀ c, foldl lww_slot (Some c) l = Some (foldl lww_merge c l)) as E.
  { induction l; intros c'; simpl; auto. }
  simpl. split.
  - clear E. revert c. induction l as [|v l IH]; intros c; simpl; [by left|].
    destruct (IH (lww_merge c v)) as [->|[Hin Hlt]].
    + unfold lww_merge. case_tests; [|by left]. right. apply gtb_true in E. set_solver.
    + right. split; [set_solver|]. eapply ord_le_lt_trans; [|done]. apply lww_merge_ge.
  - destruct (foldl_slot_Some l c) as (w&Hw&?&?&?). rewrite E in Hw. by simplify_eq.
Qed.

(** The winner is a candidate of the list that no other candidate exceeds. *)
Lemma lww_winner_max l w :
  lww_winner l = Some w → w ∈ l ∧ ∀ v, v ∈ l → ord_le (pr v) (pr w).
Proof.
  destruct l as [|c l]; [done|]. unfold lww_winner; simpl. intros Hw.
  destruct (foldl_slot_Some l c) as (w'&Hw'&Hin&Hc&Hl). simplify_eq.
  split; [set_solver|]. intros v [->|Hv]%elem_of_cons; auto.
Qed.

Lemma lww_winner_None l : lww_winner l = None ↔ l = [].
Proof.
  destruct l as [|c l]; [done|]. unfold lww_winner; simpl.
  destruct (foldl_slot_Some l c) as (w&->&_). done.
Qed.

Lemma lww_winner_iff l w :
  lww_consistent l →
  lww_winner l = Some w ↔ w ∈ l ∧ ∀ v, v ∈ l → ord_le (pr v) (pr w).
Proof.
  intros Hl. split; [apply lww_winner_max|]. intros [Hw Hmax].
  destruct (lww_winner l) as [w'|] eqn:E; [|apply lww_winner_None in E as ->; set_solver].
  apply lww_winner_max in E as [Hw' Hmax']. f_equal. apply Hl; [done..|].
  apply (anti_symm ord_le); auto.
Qed.
End lww.

#[export] Hint Resolve lww_slot_comm lww_merge_comm : nm.
