(* ===== verification/FracIdx.v ===== *)
(** Fractional indices (list.rs, first half): base-62 position strings and
    [between], which invents a position strictly between two neighbours.  A
    panic of the source is [None]. *)

From S2P Require Import Prelude Op.

Definition ALPHABET : bytes := bs "0123456789ABCDEFGHIJKLMNOPQRSTUVWXYZabcdefghijklmnopqrstuvwxyz".
Definition RADIX : Z := 62.
Definition REBALANCE_THRESHOLD : Z := 128.

(** [val]: the digit of a byte, a panic outside the alphabet. *)
Definition val (c : Z) : option Z :=
  if (48 <=? c) && (c <=? 57) then Some (c - 48)
  else if (65 <=? c) && (c <=? 90) then Some (c - 65 + 10)
  else if (97 <=? c) && (c <=? 122) then Some (c - 97 + 36)
  else None.

(** [ch]: the byte of a digit. *)
Definition ch (v : Z) : Z := default 0 (ALPHABET !! Z.to_nat v).

(** [first]. *)
Definition first_position : FracIdx := bs "V".

(** [between_unbounded_above]. *)
Fixpoint between_unbounded_above (left : bytes) : option bytes :=
  match left with
  | [] => Some [ch (RADIX / 2)]
  | b :: rest =>
      d ← val b;
      if d <? RADIX - 1 then Some [ch ((d + RADIX) / 2)]
      else out ← between_unbounded_above rest; Some (b :: out)
  end.

(** [between_bounded]; the subtraction is on [u32]. *)
Fixpoint between_bounded (left right : bytes) {struct right} : option bytes :=
  match left, right with
  | a :: left', b :: right' =>
      la ← val a; rb ← val b;
      if la =? rb then out ← between_bounded left' right'; Some (ch la :: out)
      else if 2 <=? (rb - la) mod 2 ^ 32 then Some [ch ((la + rb) / 2)]
      else tail ← between_unbounded_above left'; Some (ch la :: tail)
  | [], b :: right' =>
      rb ← val b;
      if 2 <=? rb then Some [ch (rb / 2)]
      else if rb =? 0 then out ← between_bounded [] right'; Some (ch 0 :: out)
      else Some [ch 0; ch (RADIX / 2)]
  | _, [] => None
  end.

Definition between_raw (left : bytes) (right : option bytes) : option bytes :=
  match right with
  | None => between_unbounded_above left
  | Some r => between_bounded left r
  end.

(** [between]: the assertion, then the raw computation. *)
Definition between (left right : option FracIdx) : option FracIdx :=
  match left, right with
  | Some l, Some r => if decide (ord_lt l r) then between_raw l (Some r) else None
  | _, _ => between_raw (default [] left) right
  end.

(** [before] and [after]. *)
Definition before (right : FracIdx) : option FracIdx := between None (Some right).
Definition after (left : FracIdx) : option FracIdx := between (Some left) None.

(** ** Positions *)

Definition digit_zero : Z := 48.
Definition base62 (p : bytes) : Prop := Forall (λ c, is_Some (val c)) p.
(** The positions the crate produces: not empty, over the alphabet, and not
    ending in the smallest digit. *)
Definition pos_ok (p : FracIdx) : Prop := p ≠ [] ∧ base62 p ∧ last p ≠ Some digit_zero.

#[global] Instance base62_dec p : Decision (base62 p).
Proof. unfold base62. apply _. Defined.
#[global] Instance pos_ok_dec p : Decision (pos_ok p).
Proof. unfold pos_ok. apply _. Defined.

(** ** Digits *)

Lemma val_bounds c v : val c = Some v → 0 <= v < 62.
Proof.
  unfold val. intros Hv.
  repeat match type of Hv with context [if ?b then _ else _] => destruct b eqn:? end;
    simplify_eq; lia.
Qed.

Lemma val_ch v : 0 <= v < 62 → val (ch v) = Some v.
Proof.
  intros Hv. assert (∃ n : nat, v = Z.of_nat n ∧ (n < 62)%nat) as (n&->&Hn)
    by (exists (Z.to_nat v); lia).
  do 62 (destruct n as [|n]; [by vm_compute|]). lia.
Qed.

Lemma val_lt a b x y : val a = Some x → val b = Some y → (a < b ↔ x < y).
Proof.
  unfold val. intros Hx Hy.
  repeat match type of Hx with context [if ?b then _ else _] => destruct b eqn:? end;
    simplify_eq;
    repeat match type of Hy with context [if ?b then _ else _] => destruct b eqn:? end;
    simplify_eq; lia.
Qed.

Lemma val_inj a b v : val a = Some v → val b = Some v → a = b.
Proof. intros Ha Hb. pose proof (val_lt _ _ _ _ Ha Hb). pose proof (val_lt _ _ _ _ Hb Ha). lia. Qed.

Lemma ch_val c v : val c = Some v → ch v = c.
Proof. intros Hc. eapply val_inj; [|done]. apply val_ch. by eapply val_bounds. Qed.

Lemma ch_lt_iff v c x : 0 <= v < 62 → val c = Some x → (ch v < c ↔ v < x) ∧ (c < ch v ↔ x < v).
Proof. intros Hv Hc. pose proof (val_ch v Hv). split; by apply val_lt. Qed.

Lemma val_zero c : val c = Some 0 → c = digit_zero.
Proof. intros Hc. by eapply val_inj. Qed.

Lemma ch_zero_iff v : 0 <= v < 62 → (ch v = digit_zero ↔ v = 0).
Proof.
  intros Hv. split; [|by intros ->]. intros E. pose proof (val_ch v Hv) as Hc.
  rewrite E in Hc. change (val digit_zero) with (Some 0) in Hc. congruence.
Qed.

(** ** Lexicographic order *)

Lemma lex_nil x (l : bytes) : ord_lt [] (x :: l).
Proof. done. Qed.
Lemma lex_not_nil (l : bytes) : ¬ ord_lt l [].
Proof. by destruct l. Qed.
Lemma lex_cons (x y : Z) (l k : bytes) :
  ord_lt (x :: l) (y :: k) ↔ x < y ∨ (x = y ∧ ord_lt l k).
Proof.
  unfold ord_lt. change (cmp (x :: l) (y :: k)) with
    (match Z.compare x y with Eq => cmp l k | c => c end).
  destruct (Z.compare_spec x y); naive_solver lia.
Qed.

#[local] Hint Resolve lex_nil : core.

Lemma last_cons_ne (x : Z) l z : l ≠ [] → last l ≠ Some z → last (x :: l) ≠ Some z.
Proof. by destruct l. Qed.

(** What a computed position looks like. *)
Record new_pos (m : bytes) : Prop := {
  np_nonempty : m ≠ [];
  np_base62 : base62 m;
  np_last : last m ≠ Some digit_zero;
}.

Lemma new_pos_single v : 0 < v < 62 → new_pos [ch v].
Proof.
  intros Hv. split; [done| |].
  - repeat constructor. rewrite val_ch by lia. eauto.
  - simpl. intros [= E]. apply ch_zero_iff in E; lia.
Qed.

Lemma new_pos_cons c m : is_Some (val c) → new_pos m → new_pos (c :: m).
Proof. intros Hc [? ? ?]. split; [done|by constructor|by apply last_cons_ne]. Qed.

Lemma unbounded_above_spec l :
  base62 l → ∃ m, between_unbounded_above l = Some m ∧ new_pos m ∧ ord_lt l m.
Proof.
  induction 1 as [|c l [v Hc] Hl (m&Hm&Hn&Hlt)]; simpl.
  - eexists. split; [done|]. split; [by apply new_pos_single|done].
  - rewrite Hc. simpl. pose proof (val_bounds _ _ Hc). case_tests.
    + apply Z.ltb_lt in E. eexists. split; [done|]. unfold RADIX in *.
      assert (v < (v + 62) / 2 < 62).
      { split; [apply Z.lt_le_trans with (v + 1); [lia|]; apply Z.div_le_lower_bound; lia
               |apply Z.div_lt_upper_bound; lia]. }
      split; [apply new_pos_single; lia|]. apply lex_cons. left.
      apply (ch_lt_iff _ _ v); [lia|done|lia].
    + rewrite Hm. simpl. eexists. split; [done|].
      split; [apply new_pos_cons; [by rewrite Hc|done]|]. apply lex_cons. by right.
Qed.

(** The right end extends the left one by zero digits only. *)
Definition only_zeros_between (l r : bytes) : Prop :=
  ∃ k : nat, r = l ++ replicate k digit_zero.

#[global] Instance only_zeros_dec l r : Decision (only_zeros_between l r).
Proof.
  refine (cast_if (decide (r = l ++ replicate (length r - length l) digit_zero))).
  - by eexists.
  - intros [k Hk]. apply n. rewrite Hk at 2. rewrite length_app, length_replicate, Nat.add_comm,
      Nat.add_sub. done.
Defined.

Lemma only_zeros_cons x l r : only_zeros_between (x :: l) (x :: r) ↔ only_zeros_between l r.
Proof. unfold only_zeros_between. simpl. naive_solver. Qed.

Lemma bounded_nil_digit b r rb :
  val b = Some rb → 0 < rb →
  ∃ m, between_bounded [] (b :: r) = Some m ∧ new_pos m ∧ ord_lt m (b :: r).
Proof.
  intros Hb Hpos. pose proof (val_bounds _ _ Hb). simpl. rewrite Hb. simpl. case_tests.
  - apply Z.leb_le in E. eexists. split; [done|].
    assert (0 < rb / 2 < rb).
    { split; [apply Z.div_str_pos; lia|apply Z.div_lt; lia]. }
    split; [apply new_pos_single; lia|]. apply lex_cons. left.
    apply (ch_lt_iff _ _ rb); [lia|done|lia].
  - apply Z.eqb_eq in E0. lia.
  - eexists. split; [done|]. split.
    + apply new_pos_cons; [by vm_compute; eauto|by apply new_pos_single].
    + apply lex_cons. left. apply (ch_lt_iff 0 b rb); [lia|done|lia].
Qed.

Lemma bounded_digit_lt a b l r la rb :
  val a = Some la → val b = Some rb → la < rb → base62 l →
  ∃ m, between_bounded (a :: l) (b :: r) = Some m ∧ new_pos m ∧
       ord_lt (a :: l) m ∧ ord_lt m (b :: r).
Proof.
  intros Ha Hb Hlt Hl. pose proof (val_bounds _ _ Ha). pose proof (val_bounds _ _ Hb).
  simpl. rewrite Ha, Hb. simpl. rewrite (proj2 (Z.eqb_neq la rb)), Z.mod_small by lia.
  case_tests.
  - apply Z.leb_le in E. eexists. split; [done|].
    assert (la < (la + rb) / 2 < rb).
    { split; [apply Z.lt_le_trans with (la + 1); [lia|]; apply Z.div_le_lower_bound; lia
             |apply Z.div_lt_upper_bound; lia]. }
    split; [apply new_pos_single; lia|].
    split; apply lex_cons; left; [apply (ch_lt_iff _ _ la)|apply (ch_lt_iff _ _ rb)]; done || lia.
  - destruct (unbounded_above_spec l Hl) as (m&Hm&Hn&Hlm). rewrite Hm. simpl.
    rewrite (ch_val _ _ Ha). eexists. split; [done|].
    split; [apply new_pos_cons; [by rewrite Ha|done]|].
    split; apply lex_cons; [by right|]. left. by apply (val_lt _ _ _ _ Ha Hb).
Qed.

Lemma bounded_spec r l :
  base62 l → base62 r → l = [] ∨ ord_lt l r → ¬ only_zeros_between l r →
  ∃ m, between_bounded l r = Some m ∧ new_pos m ∧ ord_lt l m ∧ ord_lt m r.
Proof.
  revert l. induction r as [|b r IH]; intros l Hl Hr Hlr Hz.
  { destruct Hlr as [->|Hlr]; [|by destruct (lex_not_nil l)].
    destruct Hz. by exists 0%nat. }
  apply Forall_cons in Hr as [[rb Hb] Hr]. destruct l as [|a l].
  - destruct (decide (0 < rb)) as [Hpos|Hpos].
    { destruct (bounded_nil_digit b r rb Hb Hpos) as (m&Hm&Hn&Hlt).
      exists m. destruct m; [by destruct Hn|]. auto. }
    assert (rb = 0) as -> by (pose proof (val_bounds _ _ Hb); lia).
    apply val_zero in Hb as ->.
    destruct (IH [] Hl Hr (or_introl eq_refl)) as (m&Hm&Hn&_&Hlt).
    { intros [k ->]. destruct Hz. by exists (S k). }
    simpl. rewrite Hm. simpl. eexists. split; [done|].
    split; [apply new_pos_cons; [by vm_compute; eauto|done]|].
    split; [done|]. apply lex_cons. by right.
  - apply Forall_cons in Hl as [[la Ha] Hl]. destruct Hlr as [[=]|Hlr].
    apply lex_cons in Hlr as [Hab|[-> Hlr]].
    { apply (bounded_digit_lt _ _ _ _ la rb); [done..| |done]. by apply (val_lt _ _ _ _ Ha Hb). }
    rewrite only_zeros_cons in Hz. destruct (IH l Hl Hr (or_intror Hlr) Hz) as (m&Hm&Hn&H1&H2).
    simpl. rewrite Ha. simpl. rewrite Z.eqb_refl, Hm. simpl. rewrite (ch_val _ _ Ha).
    eexists. split; [done|]. split; [apply new_pos_cons; [by rewrite Ha|done]|].
    split; apply lex_cons; by right.
Qed.

(** ... and then the source panics. *)
Lemma bounded_only_zeros l k :
  base62 l → between_bounded l (l ++ replicate k digit_zero) = None.
Proof.
  intros Hl. induction Hl as [|c l [v Hc] Hl IH].
  - induction k as [|k IHk]; [done|]. simpl in *. by rewrite IHk.
  - simpl. rewrite Hc. simpl. rewrite Z.eqb_refl, IH. done.
Qed.

Lemma only_zeros_last l r :
  r ≠ l → last r ≠ Some digit_zero → ¬ only_zeros_between l r.
Proof.
  intros Hne Hlast [k ->]. destruct k as [|k]; [by rewrite app_nil_r in Hne|].
  apply Hlast. rewrite replicate_S_end, app_assoc.
  by rewrite last_snoc.
Qed.

Lemma pos_ok_new_pos m : new_pos m ↔ pos_ok m.
Proof. split; [by intros []|by intros (?&?&?)]. Qed.

(** ** Properties *)

(** [between] never panics on positions of the crate, returns another one,
    strictly between its neighbours. *)
Theorem between_total (l r : option FracIdx) :
  from_option pos_ok True l → from_option pos_ok True r →
  (∀ a b, l = Some a → r = Some b → ord_lt a b) →
  ∃ m, between l r = Some m ∧ pos_ok m ∧
       from_option (λ a, ord_lt a m) True l ∧ from_option (λ b, ord_lt m b) True r.
Proof.
  intros Hl Hr Hlr. destruct r as [r|]; simpl in Hr.
  - destruct Hr as (Hne&Hr&Hlast).
    assert (∃ m, between_bounded (default [] l) r = Some m ∧ new_pos m ∧
                 ord_lt (default [] l) m ∧ ord_lt m r) as (m&Hm&Hn&H1&H2).
    { destruct l as [l|]; simpl in *.
      - destruct Hl as (_&Hl&_). apply bounded_spec; [done|done|right; by apply Hlr|].
        apply only_zeros_last; [|done]. intros ->. by apply (ord_lt_irrefl l), Hlr.
      - apply bounded_spec; [constructor|done|by left|by apply only_zeros_last]. }
    exists m. destruct l as [l|]; simpl in *.
    + rewrite decide_True by by apply Hlr. rewrite <-pos_ok_new_pos. auto.
    + rewrite <-pos_ok_new_pos. auto.
  - assert (base62 (default [] l)) as Hb by (destruct l; [apply Hl|constructor]).
    destruct (unbounded_above_spec _ Hb) as (m&Hm&Hn&H1). exists m.
    rewrite <-pos_ok_new_pos. destruct l; simpl in *; auto.
Qed.

(** On arbitrary base-62 neighbours [between] panics exactly when the right
    one extends the left one by zero digits. *)
Theorem between_panics_iff (l r : FracIdx) :
  base62 l → base62 r → ord_lt l r →
  between (Some l) (Some r) = None ↔ only_zeros_between l r.
Proof.
  intros Hl Hr Hlr. simpl. rewrite decide_True by done. split.
  - intros Hnone. apply dec_stable. intros Hz.
    destruct (bounded_spec r l Hl Hr (or_intror Hlr) Hz) as (m&Hm&_). congruence.
  - intros [k ->]. by apply bounded_only_zeros.
Qed.

Lemma between_total_witness :
  ∃ m, between (Some (bs "V")) (Some (bs "W")) = Some m ∧ pos_ok m ∧
       ord_lt (bs "V") m ∧ ord_lt m (bs "W").
Proof.
  apply (between_total (Some (bs "V")) (Some (bs "W"))).
  - by apply (bool_decide_unpack _).
  - by apply (bool_decide_unpack _).
  - intros a b [= <-] [= <-]. by apply (bool_decide_unpack _).
Defined.

Lemma between_panics_iff_witness :
  between (Some (bs "V")) (Some (bs "V0")) = None ↔ only_zeros_between (bs "V") (bs "V0").
Proof. apply (between_panics_iff (bs "V") (bs "V0")); by apply (bool_decide_unpack _). Defined.
