(* ===== verification/ListCrdt.v ===== *)
(** List resolution (list.rs, second half): the full-replay resolver
    [resolve_list_seq] and its specification per item. *)

From S2P Require Import Prelude Op Node Lww.

(** ** Item state *)

(** [ItemState] of list.rs; [ListItemCache] of graph.rs has the same fields. *)
Record ItemState := mkItem {
  position : option FracIdx;
  pos_priority : prio;
  saw_insert : bool;
  item_deleted : bool;
}.

Definition prio_zero : prio := (0, zeros 32).
Definition item_default : ItemState := mkItem None prio_zero false false.

(** The shared body of [Insert] and [Move]: a strictly greater priority sets
    the position. *)
Definition set_position (p : prio) (pos : FracIdx) (st : ItemState) : ItemState :=
  if gtb p (pos_priority st)
  then mkItem (Some pos) p (saw_insert st) (item_deleted st)
  else st.

(** One operation on the entry of its item. *)
Definition item_step (p : prio) (lop : ListOp) (st : ItemState) : ItemState :=
  match lop with
  | ListInsert _ _ pos =>
      set_position p pos (mkItem (position st) (pos_priority st) true (item_deleted st))
  | ListMove _ _ pos => set_position p pos st
  | ListDelete _ _ => mkItem (position st) (pos_priority st) (saw_insert st) true
  end.

Definition list_op_item (lop : ListOp) : ItemId :=
  match lop with ListInsert _ i _ | ListMove _ i _ | ListDelete _ i => i end.

(** The visibility filter of the final pass. *)
Definition visible_position (st : ItemState) : option FracIdx :=
  if negb (saw_insert st) || item_deleted st then None else position st.

(** The loop body over one operation. *)
Definition list_seq_step (list_key : bytes) (items : gmap ItemId ItemState)
    (p : prio) (o : Op) : gmap ItemId ItemState :=
  match o with
  | OpList lop =>
      if decide (list_op_key lop = list_key) then
        let i := list_op_item lop in
        <[i := item_step p lop (default item_default (items !! i))]> items
      else items
  | _ => items
  end.

Definition list_seq_items (nodes : list SyncNode) (list_key : bytes) : gmap ItemId ItemState :=
  fold_ops (list_seq_step list_key) ∅ nodes.

(** Visible entries of an item map, in [(position, item id)] order. *)
Definition visible_entries (items : gmap ItemId ItemState) : list (FracIdx * ItemId) :=
  sort (omap (λ '(i, st), (λ p, (p, i)) <$> visible_position st) (map_to_list items)).

(** [resolve_list_seq]. *)
Definition resolve_list_seq (nodes : list SyncNode) (list_key : bytes) : list (ItemId * FracIdx) :=
  (λ e, (e.2, e.1)) <$> visible_entries (list_seq_items nodes list_key).

(** ** Per-item theory *)

Definition item_event (list_key : bytes) (e : prio * Op) : option ItemId :=
  match e.2 with
  | OpList lop => if decide (list_op_key lop = list_key) then Some (list_op_item lop) else None
  | _ => None
  end.

Definition item_apply (e : prio * Op) (o : option ItemState) : ItemState :=
  match e.2 with
  | OpList lop => item_step e.1 lop (default item_default o)
  | _ => default item_default o
  end.

Lemma list_seq_items_keyed nodes k :
  list_seq_items nodes k = foldl (keyed_step (item_event k) item_apply) ∅ (events nodes).
Proof.
  unfold list_seq_items. rewrite fold_ops_events. apply foldl_cong.
  intros m [p o] _. unfold keyed_step, item_event, item_apply; simpl.
  destruct o as [|lop|]; simpl; [done| |done]. by case_decide.
Qed.

(** The position an operation writes. *)
Definition op_position (lop : ListOp) : option FracIdx :=
  match lop with ListInsert _ _ pos | ListMove _ _ pos => Some pos | ListDelete _ _ => None end.
Definition is_list_insert (lop : ListOp) : bool :=
  match lop with ListInsert _ _ _ => true | _ => false end.
Definition is_list_delete (lop : ListOp) : bool :=
  match lop with ListDelete _ _ => true | _ => false end.

(** A position register, as a last-writer-wins pair. *)
Abbreviation pos_reg := (option FracIdx * prio)%type.
Definition item_reg (st : ItemState) : pos_reg := (position st, pos_priority st).

Lemma item_step_reg p lop st :
  item_reg (item_step p lop st) =
  match op_position lop with
  | Some pos => lww_merge snd (item_reg st) (Some pos, p)
  | None => item_reg st
  end.
Proof.
  destruct lop; simpl; [|done|]; unfold set_position, lww_merge; simpl; by case_tests.
Qed.

Lemma item_step_flags p lop st :
  saw_insert (item_step p lop st) = is_list_insert lop || saw_insert st ∧
  item_deleted (item_step p lop st) = is_list_delete lop || item_deleted st.
Proof.
  destruct lop; simpl; [|done|]; unfold set_position; case_tests; done.
Qed.

Lemma item_ext st st' :
  item_reg st = item_reg st' → saw_insert st = saw_insert st' →
  item_deleted st = item_deleted st' → st = st'.
Proof. destruct st, st'. unfold item_reg. simpl. naive_solver. Qed.

(** Two operations of one item commute unless they write different positions
    with the same priority. *)
Definition list_ops_agree (e1 e2 : prio * ListOp) : Prop :=
  e1.1 = e2.1 → ∀ p1 p2, op_position e1.2 = Some p1 → op_position e2.2 = Some p2 → p1 = p2.

Lemma item_step_comm p1 l1 p2 l2 st :
  list_ops_agree (p1, l1) (p2, l2) →
  item_step p2 l2 (item_step p1 l1 st) = item_step p1 l1 (item_step p2 l2 st).
Proof.
  intros Hag. unfold list_ops_agree in Hag; simpl in Hag.
  apply item_ext.
  - rewrite !item_step_reg.
    destruct (op_position l1) as [q1|] eqn:E1, (op_position l2) as [q2|] eqn:E2; try done.
    apply lww_merge_comm. intros Hp. simpl in Hp. subst. do 2 f_equal. by apply Hag.
  - rewrite !(proj1 (item_step_flags _ _ _)).
    by destruct (is_list_insert l1), (is_list_insert l2).
  - rewrite !(proj2 (item_step_flags _ _ _)).
    by destruct (is_list_delete l1), (is_list_delete l2).
Qed.

(** The operations of one item, in loop order. *)
Definition item_select (k : bytes) (i : ItemId) (e : prio * Op) : option (prio * ListOp) :=
  match e.2 with
  | OpList lop =>
      if decide (list_op_key lop = k ∧ list_op_item lop = i) then Some (e.1, lop) else None
  | _ => None
  end.
Definition item_log (k : bytes) (i : ItemId) (nodes : list SyncNode) : list (prio * ListOp) :=
  omap (item_select k i) (events nodes).

Definition log_consistent (log : list (prio * ListOp)) : Prop :=
  ∀ e1 e2, e1 ∈ log → e2 ∈ log → list_ops_agree e1 e2.

Definition item_run (log : list (prio * ListOp)) : ItemState :=
  foldl (λ st e, item_step e.1 e.2 st) item_default log.

Lemma item_select_event k i e q lop :
  item_select k i e = Some (q, lop) →
  item_event k e = Some i ∧ ∀ o, item_apply e o = item_step q lop (default item_default o).
Proof.
  destruct e as [p op]. unfold item_select, item_event, item_apply; simpl.
  destruct op as [|l|]; [done| |done]. case_decide as Hd; [|done]. intros [= <- <-].
  destruct Hd as [Hk Hi]. by rewrite decide_True, Hi.
Qed.

Lemma item_select_None k i e : item_select k i e = None → item_event k e ≠ Some i.
Proof.
  destruct e as [p op]. unfold item_select, item_event; simpl.
  destruct op as [|l|]; [done| |done]. repeat case_decide; naive_solver.
Qed.

Lemma item_filter_select k i es o :
  foldl (λ o e, Some (item_apply e o)) o (filter (λ e, item_event k e = Some i) es) =
  foldl (λ o e, Some (item_step e.1 e.2 (default item_default o))) o (omap (item_select k i) es).
Proof.
  revert o. induction es as [|e es IH]; intros o; [done|]. rewrite filter_cons.
  cbn [omap list_omap]. destruct (item_select k i e) as [[q lop]|] eqn:Es.
  - apply item_select_event in Es as [He Ha]. rewrite decide_True by done. simpl.
    rewrite Ha. apply IH.
  - rewrite decide_False by by apply item_select_None. apply IH.
Qed.

Lemma item_slot_run log st :
  foldl (λ o e, Some (item_step e.1 e.2 (default item_default o))) (Some st) log =
  Some (foldl (λ st e, item_step e.1 e.2 st) st log).
Proof. revert st. induction log as [|e log IH]; intros st; simpl; auto. Qed.

Lemma list_seq_items_lookup nodes k i :
  list_seq_items nodes k !! i =
  match item_log k i nodes with [] => None | log => Some (item_run log) end.
Proof.
  rewrite list_seq_items_keyed, keyed_fold_lookup, lookup_empty, item_filter_select.
  fold (item_log k i nodes). destruct (item_log k i nodes); [done|]. apply item_slot_run.
Qed.

(** *** What a run of operations leaves *)

Lemma item_run_flags log st :
  let st' := foldl (λ st e, item_step e.1 e.2 st) st log in
  saw_insert st' = existsb (λ e, is_list_insert e.2) log || saw_insert st ∧
  item_deleted st' = existsb (λ e, is_list_delete e.2) log || item_deleted st.
Proof.
  revert st. induction log as [|[p lop] log IH]; intros st; [done|]. simpl.
  destruct (IH (item_step p lop st)) as [-> ->].
  destruct (item_step_flags p lop st) as [-> ->].
  by destruct (existsb _ _), (is_list_insert lop), (existsb _ _), (is_list_delete lop).
Qed.

(** Candidates for the position. *)
Definition pos_candidates (log : list (prio * ListOp)) : list pos_reg :=
  omap (λ e : prio * ListOp, (λ pos, (Some pos, e.1)) <$> op_position e.2) log.

Lemma item_run_reg log st :
  item_reg (foldl (λ st e, item_step e.1 e.2 st) st log) =
  foldl (lww_merge snd) (item_reg st) (pos_candidates log).
Proof.
  revert st. induction log as [|[p lop] log IH]; intros st; [done|].
  cbn [foldl]. rewrite IH, item_step_reg. unfold pos_candidates. cbn [omap list_omap]; simpl.
  by destruct (op_position lop).
Qed.

Lemma elem_of_candidates log c :
  c ∈ pos_candidates log ↔
  ∃ q lop pos, (q, lop) ∈ log ∧ op_position lop = Some pos ∧ c = (Some pos, q).
Proof.
  unfold pos_candidates. rewrite list_elem_of_omap. split.
  - intros ([q lop]&Hin&Hc). simpl in Hc. destruct (op_position lop) eqn:E; simplify_eq/=. eauto 10.
  - intros (q&lop&pos&Hin&E&->). exists (q, lop). simpl. by rewrite E.
Qed.

(** [pos] is the position written with the greatest priority, above the
    initial one. *)
Definition winning_position (log : list (prio * ListOp)) (pos : FracIdx) : Prop :=
  ∃ q lop, (q, lop) ∈ log ∧ op_position lop = Some pos ∧ ord_lt prio_zero q ∧
    ∀ q' lop', (q', lop') ∈ log → is_Some (op_position lop') → ord_le q' q.

Lemma item_run_position log pos :
  log_consistent log →
  position (item_run log) = Some pos ↔ winning_position log pos.
Proof.
  intros Hc. pose proof (item_run_reg log item_default) as Hreg.
  pose proof (foldl_merge_max snd (pos_candidates log) (None, prio_zero)) as [Hin Hmax].
  change (item_reg item_default) with (None : option FracIdx, prio_zero) in Hreg.
  fold (item_run log) in Hreg. rewrite <-Hreg in Hin, Hmax. clear Hreg.
  unfold item_reg in Hin, Hmax; simpl in *.
  assert (∀ q' lop', (q', lop') ∈ log → is_Some (op_position lop') →
            ord_le q' (pos_priority (item_run log))) as Hall.
  { intros q' lop' Hl [pos' E]. apply (Hmax (Some pos', q')), elem_of_candidates. eauto 10. }
  split.
  - intros E. rewrite E in Hin. destruct Hin as [[=]|[Hin Hlt]].
    apply elem_of_candidates in Hin as (q&lop&pos'&Hl&Hp&[= -> Hq]).
    exists q, lop. split; [done|]. split; [done|]. rewrite <-Hq. split; [exact Hlt|exact Hall].
  - intros (q&lop&Hl&Hp&Hgt&Hbest).
    destruct Hin as [[= _ Hz]|[(q'&lop'&pos'&Hl'&Hp'&[= Hpos' Hq'])%elem_of_candidates _]].
    + destruct (ord_lt_irrefl prio_zero). eapply ord_lt_le_trans; [exact Hgt|].
      rewrite <-Hz. eapply Hall; eauto.
    + rewrite Hpos'. f_equal. eapply (Hc (q', lop') (q, lop)); [done..| |done|done].
      apply (anti_symm ord_le); [eauto|]. rewrite <-Hq'. eauto.
Qed.

Lemma elem_of_visible_entries items pos i :
  (pos, i) ∈ visible_entries items ↔
  ∃ st, items !! i = Some st ∧ visible_position st = Some pos.
Proof.
  unfold visible_entries. rewrite elem_of_sort, list_elem_of_omap. split.
  - intros ([j st]&Hin%elem_of_map_to_list&Hv). destruct (visible_position st) eqn:E; simplify_eq/=.
    eauto.
  - intros (st&Hi&Hv). exists (i, st). rewrite elem_of_map_to_list. by rewrite Hv.
Qed.

Lemma visible_entries_sorted items : StronglySorted ord_lt (visible_entries items).
Proof.
  unfold visible_entries. apply sort_lt_NoDup.
  pose proof (NoDup_fst_map_to_list items) as Hnd. revert Hnd.
  generalize (map_to_list items) as l. intros l. induction l as [|[i st] l IH]; [constructor|].
  cbn [fmap list_fmap fst]. intros [Hi Hl]%NoDup_cons. cbn [omap list_omap].
  destruct (visible_position st) as [pos|]; simpl; [|by apply IH].
  apply NoDup_cons. split; [|by apply IH].
  intros ([j st']&Hj&E)%list_elem_of_omap. apply Hi, list_elem_of_fmap.
  destruct (visible_position st'); simplify_eq/=. by exists (i, st').
Qed.

(** ** Specification *)

(** An item is listed at a position iff it was inserted, never deleted, and
    the position is the one written with the greatest priority. *)
Theorem resolve_list_seq_spec nodes k i pos :
  log_consistent (item_log k i nodes) →
  (i, pos) ∈ resolve_list_seq nodes k ↔
  (∃ e, e ∈ item_log k i nodes ∧ is_list_insert e.2 = true) ∧
  (∀ e, e ∈ item_log k i nodes → is_list_delete e.2 = false) ∧
  winning_position (item_log k i nodes) pos.
Proof.
  intros Hc. unfold resolve_list_seq. rewrite list_elem_of_fmap.
  transitivity ((pos, i) ∈ visible_entries (list_seq_items nodes k)).
  { split; [by intros ([??]&[= -> ->]&?)|]. intros ?. by exists (pos, i). }
  rewrite elem_of_visible_entries, list_seq_items_lookup.
  rewrite <-item_run_position by done.
  pose proof (item_run_flags (item_log k i nodes) item_default) as [Hins Hdel].
  fold (item_run (item_log k i nodes)) in Hins, Hdel. simpl in Hins, Hdel.
  rewrite orb_false_r in Hins, Hdel.
  set (log := item_log k i nodes) in *.
  transitivity (visible_position (item_run log) = Some pos ∧ log ≠ []).
  { destruct log as [|e log]; [split; [by intros (?&[=]&_)|by intros []]|].
    split; [by intros (st&[= <-]&?)|]. intros [? _]. eauto. }
  unfold visible_position. rewrite Hins, Hdel.
  destruct (existsb (λ e, is_list_insert e.2) log) eqn:Ei; simpl.
  - apply existsb_exists in Ei as (e&He%list_elem_of_In&Hi).
    assert (log ≠ []) by (intros Hnil; rewrite Hnil in He; by apply not_elem_of_nil in He).
    destruct (existsb (λ e, is_list_delete e.2) log) eqn:Ed.
    + apply existsb_exists in Ed as (e'&He'%list_elem_of_In&Hd).
      split; [by intros [[=] _]|]. intros (_&Hno&_). by rewrite (Hno e' He') in Hd.
    + split; [|by intros (_&_&?)]. intros [? _]. split; [eauto|]. split; [|done].
      intros e' He'. destruct (is_list_delete e'.2) eqn:E'; [|done]. rewrite <-Ed. symmetry.
      apply existsb_exists. exists e'. by rewrite <-list_elem_of_In.
  - split; [by intros [[=] _]|]. intros ((e&He&Hi)&_). exfalso.
    rewrite (proj2 (existsb_exists _ _)) in Ei; [done|]. exists e. by rewrite <-list_elem_of_In.
Qed.

(** The result does not depend on the order in which the nodes are visited. *)
Theorem resolve_list_seq_perm nodes nodes' k :
  nodes ≡ₚ nodes' →
  (∀ i, log_consistent (item_log k i nodes)) →
  resolve_list_seq nodes k = resolve_list_seq nodes' k.
Proof.
  intros Hp Hc. unfold resolve_list_seq. do 2 f_equal. rewrite !list_seq_items_keyed.
  apply keyed_fold_perm; [by rewrite Hp|].
  intros o e1 e2 i He1 He2 Hk1 Hk2.
  destruct (item_select k i e1) as [[q1 l1]|] eqn:E1; [|by destruct (item_select_None _ _ _ E1)].
  destruct (item_select k i e2) as [[q2 l2]|] eqn:E2; [|by destruct (item_select_None _ _ _ E2)].
  assert (list_ops_agree (q1, l1) (q2, l2)) as Hag.
  { apply (Hc i); apply list_elem_of_omap; eauto. }
  apply item_select_event in E1 as [_ Ha1], E2 as [_ Ha2]. rewrite !Ha1, !Ha2. simpl.
  by apply item_step_comm.
Qed.

(** Two authors move one item concurrently: the greater priority wins. *)
Definition sample_moves : list SyncNode :=
  [mkNode (zeros 32) (mkTx (zeros 32) 1 0 [OpList (ListInsert (bs "l") (zeros 32) (bs "V"))] []) [];
   mkNode (zeros 32) (mkTx (zeros 32) 2 0 [OpList (ListMove (bs "l") (zeros 32) (bs "X"))] []) []].

Lemma resolve_list_seq_spec_witness :
  (zeros 32, bs "X") ∈ resolve_list_seq sample_moves (bs "l") ↔
  (∃ e, e ∈ item_log (bs "l") (zeros 32) sample_moves ∧ is_list_insert e.2 = true) ∧
  (∀ e, e ∈ item_log (bs "l") (zeros 32) sample_moves → is_list_delete e.2 = false) ∧
  winning_position (item_log (bs "l") (zeros 32) sample_moves) (bs "X").
Proof.
  apply (resolve_list_seq_spec sample_moves (bs "l") (zeros 32) (bs "X")).
  intros e1 e2 H1 H2 Hp p1 p2. vm_compute in H1, H2.
  repeat (apply elem_of_cons in H1 as [->|H1]); try by apply not_elem_of_nil in H1.
  all: repeat (apply elem_of_cons in H2 as [->|H2]); try by apply not_elem_of_nil in H2.
  all: simpl in *; congruence.
Defined.
