(* ===== verification/Conflicts.v ===== *)
(** Conflict surfacing (conflicts.rs): the pure re-derivation of who lost a
    last-writer-wins race against whom.  The iteration order of the item table
    is an argument where the source iterates a [HashMap]. *)

From S2P Require Import Prelude Hex Op Node Lww ListCrdt.

Inductive ConflictKind := MapOverwrite | ListMoveLost | ListDeleteWon.

Inductive ConflictOp :=
| CSet (value : bytes)
| CDelete
| CSetBlob (blob_hash : bytes)
| CListMove (item_id : bytes)
| CListInsert (item_id : bytes)
| CListDelete (item_id : bytes).

Record ConflictEvent := mkConflict {
  c_kind : ConflictKind;
  c_key : bytes;
  c_winner_author : PublicKey;
  c_winner_lamport : Z;
  c_winner_op : ConflictOp;
  c_loser_author : PublicKey;
  c_loser_lamport : Z;
  c_loser_op : ConflictOp;
}.

#[global] Instance ConflictKind_eq_dec : EqDecision ConflictKind.
Proof. solve_decision. Defined.
#[global] Instance ConflictOp_eq_dec : EqDecision ConflictOp.
Proof. solve_decision. Defined.
#[global] Instance ConflictEvent_eq_dec : EqDecision ConflictEvent.
Proof. solve_decision. Defined.

(** [ConflictEvent::fingerprint]. *)
Definition fingerprint (e : ConflictEvent) : ConflictKind * bytes * Z * PublicKey * Z * PublicKey :=
  (c_kind e, c_key e, c_winner_lamport e, c_winner_author e, c_loser_lamport e, c_loser_author e).

(** The key the result is sorted by. *)
Definition conflict_sort_key (e : ConflictEvent) : Z * (PublicKey * (Z * PublicKey)) :=
  (c_winner_lamport e, (c_winner_author e, (c_loser_lamport e, c_loser_author e))).

(** ** Map conflicts *)

Record MapEntry := mkMapEntry { me_lamport : Z; me_author : PublicKey; me_op : ConflictOp }.
Definition me_prio (m : MapEntry) : prio := (me_lamport m, me_author m).
Definition map_entry_default : MapEntry := mkMapEntry 0 (zeros 32) CDelete.

Definition map_op_to_conflict (m : MapOp) : ConflictOp :=
  match m with
  | MapSet _ v => CSet v
  | MapDelete _ => CDelete
  | MapSetBlob _ h => CSetBlob h
  end.

(** Pass 1: the winner of every key. *)
Definition map_winner_step (ws : gmap bytes MapEntry) (p : prio) (o : Op) : gmap bytes MapEntry :=
  match o with
  | OpMap m =>
      let k := map_op_key m in
      let entry := default map_entry_default (ws !! k) in
      <[k := if gtb p (me_prio entry) then mkMapEntry p.1 p.2 (map_op_to_conflict m) else entry]> ws
  | _ => ws
  end.
Definition map_winners (nodes : list SyncNode) : gmap bytes MapEntry :=
  fold_ops map_winner_step ∅ nodes.

(** Pass 2: one operation against the winner of its key. *)
Definition map_loser_event (ws : gmap bytes MapEntry) (p : prio) (o : Op) : option ConflictEvent :=
  match o with
  | OpMap m =>
      let k := map_op_key m in
      match ws !! k with
      | None => None
      | Some w =>
          if decide (me_lamport w = p.1 ∧ me_author w = p.2) then None
          else if decide (me_author w = p.2) then None
          else Some (mkConflict MapOverwrite k (me_author w) (me_lamport w) (me_op w)
                                p.2 p.1 (map_op_to_conflict m))
      end
  | _ => None
  end.

Definition detect_map_conflicts (nodes : list SyncNode) (out : list ConflictEvent) : list ConflictEvent :=
  let ws := map_winners nodes in
  out ++ omap (λ e, map_loser_event ws e.1 e.2) (events nodes).

(** ** List conflicts *)

(** [ListItemState] of conflicts.rs; [ListConflictState] of graph.rs has the
    same fields. *)
Record ListRace := mkRace {
  pos_winner : option (prio * ConflictOp);
  delete_winner : option prio;
  pos_ops : list (prio * ConflictOp);
}.
Definition race_default : ListRace := mkRace None None [].

Definition list_cop (lop : ListOp) : ConflictOp :=
  match lop with
  | ListInsert _ i _ => CListInsert i
  | ListMove _ i _ => CListMove i
  | ListDelete _ i => CListDelete i
  end.

Definition better (p : prio) (o : option prio) : bool :=
  match o with Some q => gtb p q | None => true end.

Definition race_step (p : prio) (lop : ListOp) (st : ListRace) : ListRace :=
  match lop with
  | ListDelete _ _ =>
      if better p (delete_winner st) then mkRace (pos_winner st) (Some p) (pos_ops st) else st
  | _ =>
      mkRace (if better p (fst <$> pos_winner st) then Some (p, list_cop lop) else pos_winner st)
             (delete_winner st) (pos_ops st ++ [(p, list_cop lop)])
  end.

Definition race_table_step (m : gmap (bytes * ItemId) ListRace) (p : prio) (o : Op)
    : gmap (bytes * ItemId) ListRace :=
  match o with
  | OpList lop =>
      let k := (list_op_key lop, list_op_item lop) in
      <[k := race_step p lop (default race_default (m !! k))]> m
  | _ => m
  end.
Definition race_table (nodes : list SyncNode) : gmap (bytes * ItemId) ListRace :=
  fold_ops race_table_step ∅ nodes.

(** [format!("{}#{}", list_key, item_id.to_hex())]. *)
Definition list_conflict_key (list_key : bytes) (i : ItemId) : bytes :=
  list_key ++ bs "#" ++ to_hex i.

(** The events of one entry of the table. *)
Definition race_events (e : (bytes * ItemId) * ListRace) : list ConflictEvent :=
  let '((list_key, i), st) := e in
  let key := list_conflict_key list_key i in
  match pos_winner st, delete_winner st with
  | Some _, Some d =>
      omap (λ '(p, cop), if decide (p.2 = d.2) then None else
              Some (mkConflict ListDeleteWon key d.2 d.1 (CListDelete i) p.2 p.1 cop)) (pos_ops st)
  | Some (w, wop), None =>
      omap (λ '(p, cop), if decide (p.1 = w.1 ∧ p.2 = w.2) then None
              else if decide (p.2 = w.2) then None else
              Some (mkConflict ListMoveLost key w.2 w.1 wop p.2 p.1 cop)) (pos_ops st)
  | _, _ => []
  end.

(** [order] is the sequence in which the table's iterator yields its entries. *)
Definition detect_list_conflicts (order : list ((bytes * ItemId) * ListRace))
    (out : list ConflictEvent) : list ConflictEvent :=
  out ++ (order ≫= race_events).

(** [detect_conflicts], for one iteration order of the table. *)
Definition detect_conflicts (order : list ((bytes * ItemId) * ListRace))
    (nodes : list SyncNode) : list ConflictEvent :=
  sort_by_key conflict_sort_key (detect_list_conflicts order (detect_map_conflicts nodes [])).

(** The orders the iterator may take. *)
Definition race_order (nodes : list SyncNode) (order : list ((bytes * ItemId) * ListRace)) : Prop :=
  order ≡ₚ map_to_list (race_table nodes).

(** ** Map winners *)

Definition map_event_key (e : prio * Op) : option bytes :=
  match e.2 with OpMap m => Some (map_op_key m) | _ => None end.

(** The candidates of one key, in loop order. *)
Definition map_candidate (k : bytes) (e : prio * Op) : option MapEntry :=
  match e.2 with
  | OpMap m => if decide (map_op_key m = k)
               then Some (mkMapEntry e.1.1 e.1.2 (map_op_to_conflict m)) else None
  | _ => None
  end.

Lemma map_winners_lookup nodes k :
  map_winners nodes !! k =
  match omap (map_candidate k) (events nodes) with
  | [] => None
  | cs => Some (foldl (lww_merge me_prio) map_entry_default cs)
  end.
Proof.
  unfold map_winners. rewrite fold_ops_events. generalize (events nodes) as es. intros es.
  assert (∀ m, foldl (λ s e, map_winner_step s e.1 e.2) m es !! k =
    match omap (map_candidate k) es with
    | [] => m !! k
    | cs => Some (foldl (lww_merge me_prio) (default map_entry_default (m !! k)) cs)
    end) as ->; [|by rewrite lookup_empty].
  induction es as [|[[l a] o] es IH]; intros m; [done|].
  cbn [foldl]. rewrite IH. cbn [omap list_omap]. unfold map_candidate at 2 4; simpl.
  destruct o as [mop| |]; simpl; [|done|done].
  destruct (decide (map_op_key mop = k)) as [<-|Hk].
  - rewrite lookup_insert_eq. simpl. by destruct (omap _ es).
  - by rewrite lookup_insert_ne.
Qed.

(** Every reported map conflict is a write by another author than the
    current winner of its key, and every such write is reported. *)
Theorem detect_map_conflicts_spec nodes ev :
  ev ∈ detect_map_conflicts nodes [] ↔
  ∃ p m w, (p, OpMap m) ∈ events nodes ∧ map_winners nodes !! map_op_key m = Some w ∧
    me_author w ≠ p.2 ∧
    ev = mkConflict MapOverwrite (map_op_key m) (me_author w) (me_lamport w) (me_op w)
                    p.2 p.1 (map_op_to_conflict m).
Proof.
  unfold detect_map_conflicts. simpl. rewrite list_elem_of_omap. split.
  - intros ([p o]&Hin&Hev). simpl in Hev. destruct o as [m| |]; simpl in Hev; [|done|done].
    destruct (map_winners nodes !! map_op_key m) as [w|] eqn:Hw; [|done].
    repeat case_decide; simplify_eq. exists p, m, w. auto.
  - intros (p&m&w&Hin&Hw&Ha&->). exists (p, OpMap m). split; [done|]. simpl. rewrite Hw.
    rewrite !decide_False by naive_solver. done.
Qed.

(** The winner of a key is a write of that key whose priority no other write
    of the key exceeds. *)
Lemma map_winners_max nodes k w :
  map_winners nodes !! k = Some w →
  w = map_entry_default ∨
  (∃ p m, (p, OpMap m) ∈ events nodes ∧ map_op_key m = k ∧ me_prio w = p ∧
     me_op w = map_op_to_conflict m) ∧
  ∀ p m, (p, OpMap m) ∈ events nodes → map_op_key m = k → ord_le p (me_prio w).
Proof.
  rewrite map_winners_lookup. intros Hw.
  assert (∃ cs, omap (map_candidate k) (events nodes) = cs ∧
            w = foldl (lww_merge me_prio) map_entry_default cs) as (cs&Hcs&->).
  { destruct (omap _ _) eqn:E; simplify_eq. eauto. }
  destruct (foldl_merge_max me_prio cs map_entry_default) as [[->|[Hin _]] Hmax]; [by left|right].
  split.
  - rewrite <-Hcs in Hin. apply list_elem_of_omap in Hin as ([p o]&Hin&Hc).
    rewrite Hcs in Hc. unfold map_candidate in Hc; simpl in Hc. destruct o as [m| |]; [|done|done].
    case_decide as Hk; [|done]. injection Hc as Hc. exists p, m. rewrite <-Hc.
    unfold me_prio; simpl. by destruct p.
  - intros p m Hin' Hk. apply (Hmax (mkMapEntry p.1 p.2 (map_op_to_conflict m))).
    rewrite <-Hcs. apply list_elem_of_omap. exists (p, OpMap m). split; [done|].
    unfold map_candidate; simpl. by rewrite decide_True.
Qed.
