(* ===== verification/Caches.v ===== *)
(** Incrementally maintained views (graph.rs, [StateCaches]): map winners for
    the speculative and the canonical view, list projections, referenced blobs
    and the incremental conflict stream.  The theorems relate the caches to
    the full-replay resolvers. *)

From S2P Require Import Prelude Hex Op Node Lww ListCrdt Conflicts.

(** ** State *)

Record MapWinner := mkWinner {
  mw_lamport : Z;
  mw_author : PublicKey;
  mw_value : option bytes;
  mw_is_blob : bool;
}.
Definition mw_prio (w : MapWinner) : prio := (mw_lamport w, mw_author w).

(** [MapWinner::conflict_op]. *)
Definition mw_conflict_op (w : MapWinner) : ConflictOp :=
  match mw_value w, mw_is_blob w with
  | None, _ => CDelete
  | Some v, true => CSetBlob (if decide (length v = 32%nat) then v else zeros 32)
  | Some v, false => CSet v
  end.

(** [ListCacheState]: the [BTreeSet] of visible items is a finite set; its
    iteration order is the sorted one. *)
Record ListCacheState := mkListCache {
  lc_items : gmap ItemId ItemState;
  lc_visible : gset (FracIdx * ItemId);
}.
Definition list_cache_default : ListCacheState := mkListCache ∅ ∅.

Record StateCaches := mkCaches {
  map_all : gmap bytes MapWinner;
  map_canonical : gmap bytes MapWinner;
  lists : gmap bytes ListCacheState;
  blob_hashes : gset Hash;
  conflict_stream_enabled : bool;
  pending_conflicts : list ConflictEvent;
  list_conflict_state : gmap (bytes * ItemId) ListRace;
}.
Definition caches_default : StateCaches := mkCaches ∅ ∅ ∅ ∅ false [] ∅.

Definition LIST_CONFLICT_POS_OPS_CAP : Z := 64.
Definition PENDING_CONFLICTS_CAP : Z := 16384.

(** ** Operations *)

(** [lww_update]. *)
Definition lww_update (cache : gmap bytes MapWinner) (key : bytes) (candidate : MapWinner)
    : gmap bytes MapWinner :=
  match cache !! key with
  | Some current =>
      if gtb (mw_prio candidate) (mw_prio current) then <[key := candidate]> cache else cache
  | None => <[key := candidate]> cache
  end.

(** [push_pending_conflict]: drop the oldest events past the cap. *)
Definition push_pending_conflict (pending : list ConflictEvent) (ev : ConflictEvent)
    : list ConflictEvent :=
  let len := Z.of_nat (length pending) in
  (if PENDING_CONFLICTS_CAP <=? len
   then drop (Z.to_nat (len + 1 - PENDING_CONFLICTS_CAP)) pending
   else pending) ++ [ev].

(** [ListItemCache::is_visible]. *)
Definition is_visible (st : ItemState) : bool :=
  saw_insert st && negb (item_deleted st) && bool_decide (is_Some (position st)).
Definition cached_position (st : ItemState) : option FracIdx :=
  if is_visible st then position st else None.

(** [update_list_cache] on the cache of the operation's list. *)
Definition list_cache_step (p : prio) (lop : ListOp) (c : ListCacheState) : ListCacheState :=
  let i := list_op_item lop in
  let entry := default item_default (lc_items c !! i) in
  let was := cached_position entry in
  let entry' := item_step p lop entry in
  let now := cached_position entry' in
  let visible :=
    if decide (was = now) then lc_visible c
    else
      let v := match was with Some q => lc_visible c ∖ {[(q, i)]} | None => lc_visible c end in
      match now with Some q => {[(q, i)]} ∪ v | None => v end in
  mkListCache (<[i := entry']> (lc_items c)) visible.

Definition update_list_cache (ls : gmap bytes ListCacheState) (lop : ListOp) (p : prio)
    : gmap bytes ListCacheState :=
  let k := list_op_key lop in
  <[k := list_cache_step p lop (default list_cache_default (ls !! k))]> ls.

(** One position operation against the current race: the event and the state. *)
Definition race_position (k : bytes) (i : ItemId) (p : prio) (cop : ConflictOp) (st : ListRace)
    : ListRace * list ConflictEvent :=
  let key := list_conflict_key k i in
  let event :=
    match delete_winner st with
    | Some d =>
        if decide (d.2 = p.2) then []
        else [mkConflict ListDeleteWon key d.2 d.1 (CListDelete i) p.2 p.1 cop]
    | None =>
        match pos_winner st with
        | Some (w, wop) =>
            if decide (w.2 = p.2) then []
            else if gtb p w
            then [mkConflict ListMoveLost key p.2 p.1 cop w.2 w.1 wop]
            else [mkConflict ListMoveLost key w.2 w.1 wop p.2 p.1 cop]
        | None => []
        end
    end in
  let ops := if Z.of_nat (length (pos_ops st)) <? LIST_CONFLICT_POS_OPS_CAP
             then pos_ops st ++ [(p, cop)] else pos_ops st in
  let winner := if better p (fst <$> pos_winner st) then Some (p, cop) else pos_winner st in
  (mkRace winner (delete_winner st) ops, event).

(** A delete against the current race. *)
Definition race_delete (k : bytes) (i : ItemId) (p : prio) (st : ListRace)
    : ListRace * list ConflictEvent :=
  let key := list_conflict_key k i in
  let evs :=
    match delete_winner st with
    | None => omap (λ '(q, cop), if decide (q.2 = p.2) then None else
                Some (mkConflict ListDeleteWon key p.2 p.1 (CListDelete i) q.2 q.1 cop)) (pos_ops st)
    | Some _ => []
    end in
  let winner := if better p (delete_winner st) then Some p else delete_winner st in
  (mkRace (pos_winner st) winner (pos_ops st), evs).

(** [update_list_conflict_state]. *)
Definition update_list_conflict_state (c : StateCaches) (lop : ListOp) (p : prio) : StateCaches :=
  if negb (conflict_stream_enabled c) then c
  else
    let k := list_op_key lop in let i := list_op_item lop in
    let st := default race_default (list_conflict_state c !! (k, i)) in
    let '(st', evs) :=
      match lop with
      | ListDelete _ _ => race_delete k i p st
      | _ => race_position k i p (list_cop lop) st
      end in
    mkCaches (map_all c) (map_canonical c) (lists c) (blob_hashes c) (conflict_stream_enabled c)
      (foldl push_pending_conflict (pending_conflicts c) evs)
      (<[(k, i) := st']> (list_conflict_state c)).

(** The candidate a map operation puts forward. *)
Definition map_winner_of (p : prio) (m : MapOp) : MapWinner :=
  match m with
  | MapSet _ v => mkWinner p.1 p.2 (Some v) false
  | MapDelete _ => mkWinner p.1 p.2 None false
  | MapSetBlob _ h => mkWinner p.1 p.2 (Some h) true
  end.

(** The conflict event of a map operation against the cached winner. *)
Definition map_conflict_event (key : bytes) (p : prio) (candidate current : MapWinner)
    : option ConflictEvent :=
  if decide (mw_author current = p.2) then None
  else if gtb p (mw_prio current)
  then Some (mkConflict MapOverwrite key p.2 p.1 (mw_conflict_op candidate)
               (mw_author current) (mw_lamport current) (mw_conflict_op current))
  else Some (mkConflict MapOverwrite key (mw_author current) (mw_lamport current)
               (mw_conflict_op current) p.2 p.1 (mw_conflict_op candidate)).

(** The [Op::Map] arm of [update_state_caches]. *)
Definition cache_map_op (c : StateCaches) (p : prio) (m : MapOp) (canonical : bool) : StateCaches :=
  let key := map_op_key m in
  let candidate := map_winner_of p m in
  let blobs := match m with MapSetBlob _ h => {[h]} ∪ blob_hashes c | _ => blob_hashes c end in
  let pending :=
    if conflict_stream_enabled c then
      match map_all c !! key with
      | Some current =>
          match map_conflict_event key p candidate current with
          | Some ev => push_pending_conflict (pending_conflicts c) ev
          | None => pending_conflicts c
          end
      | None => pending_conflicts c
      end
    else pending_conflicts c in
  mkCaches (lww_update (map_all c) key candidate)
    (if canonical then lww_update (map_canonical c) key candidate else map_canonical c)
    (lists c) blobs (conflict_stream_enabled c) pending (list_conflict_state c).

(** The [Op::List] arm. *)
Definition cache_list_op (c : StateCaches) (p : prio) (l : ListOp) : StateCaches :=
  let c := update_list_conflict_state c l p in
  mkCaches (map_all c) (map_canonical c) (update_list_cache (lists c) l p) (blob_hashes c)
    (conflict_stream_enabled c) (pending_conflicts c) (list_conflict_state c).

Definition cache_op (canonical : bool) (c : StateCaches) (p : prio) (o : Op) : StateCaches :=
  match o with
  | OpMap m => cache_map_op c p m canonical
  | OpList l => cache_list_op c p l
  | OpText _ => c
  end.

(** [update_state_caches]. *)
Definition update_state_caches (c : StateCaches) (n : SyncNode) (canonical : bool) : StateCaches :=
  if decide (node_prio n = prio_zero) then c
  else foldl (λ c o, cache_op canonical c (node_prio n) o) c (node_ops n).

(** [set_conflict_stream_enabled] and [drain_pending_conflicts]. *)
Definition caches_set_stream (c : StateCaches) (enabled : bool) : StateCaches :=
  mkCaches (map_all c) (map_canonical c) (lists c) (blob_hashes c) enabled
    (pending_conflicts c) (list_conflict_state c).
Definition caches_drain (c : StateCaches) : StateCaches * list ConflictEvent :=
  (mkCaches (map_all c) (map_canonical c) (lists c) (blob_hashes c) (conflict_stream_enabled c)
     [] (list_conflict_state c), pending_conflicts c).

(** ** Reads *)

(** [resolve] and [resolve_canonical]. *)
Definition winners_map (ws : gmap bytes MapWinner) : gmap bytes bytes := omap mw_value ws.
Definition caches_resolve (c : StateCaches) : gmap bytes bytes := winners_map (map_all c).
Definition caches_resolve_canonical (c : StateCaches) : gmap bytes bytes :=
  winners_map (map_canonical c).

(** [read_speculative] and [read_canonical]. *)
Definition caches_read (c : StateCaches) (key : bytes) : option bytes :=
  map_all c !! key ≫= mw_value.
Definition caches_read_canonical (c : StateCaches) (key : bytes) : option bytes :=
  map_canonical c !! key ≫= mw_value.

(** [resolve_with_meta]. *)
Definition caches_resolve_with_meta (c : StateCaches) : gmap bytes (Z * PublicKey * bytes * bool) :=
  omap (λ w, (λ v, (mw_lamport w, mw_author w, v, mw_is_blob w)) <$> mw_value w) (map_all c).

(** [resolve_list]. *)
Definition caches_resolve_list (c : StateCaches) (list_key : bytes) : list (ItemId * FracIdx) :=
  match lists c !! list_key with
  | Some lc => (λ e, (e.2, e.1)) <$> sort (elements (lc_visible lc))
  | None => []
  end.

(** [resolve_replay], the full scan kept as the parity oracle: the nodes it
    visits, in its iteration order. *)
Definition replay_entry (m : MapOp) (p : prio) (e : prio * option bytes) : prio * option bytes :=
  if gtb p e.1
  then (p, match m with MapSet _ v => Some v | MapDelete _ => None | MapSetBlob _ h => Some h end)
  else e.
Definition replay_step (s : gmap bytes (prio * option bytes)) (p : prio) (o : Op)
    : gmap bytes (prio * option bytes) :=
  match o with
  | OpMap m =>
      let k := map_op_key m in
      <[k := replay_entry m p (default (prio_zero, None) (s !! k))]> s
  | _ => s
  end.
Definition resolve_replay (nodes : list SyncNode) : gmap bytes bytes :=
  omap snd (fold_ops replay_step ∅ nodes).
