(* ===== verification/CacheFacts.v ===== *)
(** The caches are exact: after any sequence of admitted nodes they hold what
    the full-replay resolvers compute, whatever the order of arrival. *)

From S2P Require Import Prelude Hex Op Node Lww ListCrdt Conflicts Caches.

(** Admitted nodes in arrival order, each with its [canonical] flag. *)
Abbreviation arrival := (list (SyncNode * bool)).
Definition caches_run (c : StateCaches) (arr : arrival) : StateCaches :=
  foldl (λ c nb, update_state_caches c nb.1 nb.2) c arr.

(** The nodes the canonical view counts. *)
Definition canonical_nodes (arr : arrival) : list SyncNode := (filter (λ nb, nb.2 = true) arr).*1.

(** Events of nodes above the initial priority. *)
Definition live_events (ns : list SyncNode) : list (prio * Op) :=
  filter (λ e, e.1 ≠ prio_zero) (events ns).

(** The type invariant of a node's priority fields. *)
Definition prio_typed (n : SyncNode) : Prop :=
  is_u64 (node_lamport n) ∧ byte_array 32 (tx_author (node_tx n)).

(** ** The map caches as a keyed fold *)

Definition winner_apply (e : prio * Op) (o : option MapWinner) : MapWinner :=
  match e.2 with
  | OpMap m =>
      match o with
      | Some c => lww_merge mw_prio c (map_winner_of e.1 m)
      | None => map_winner_of e.1 m
      end
  | _ => default (mkWinner 0 [] None false) o
  end.
Definition winners_of (m : gmap bytes MapWinner) (es : list (prio * Op)) : gmap bytes MapWinner :=
  foldl (keyed_step map_event_key winner_apply) m es.

Lemma lww_update_insert m k w :
  lww_update m k w =
  <[k := match m !! k with Some c => lww_merge mw_prio c w | None => w end]> m.
Proof.
  unfold lww_update, lww_merge. destruct (m !! k) as [c|] eqn:E; [|done].
  case_tests; [done|]. by rewrite insert_id.
Qed.

Lemma cache_op_maps b c p o :
  map_all (cache_op b c p o) = keyed_step map_event_key winner_apply (map_all c) (p, o) ∧
  map_canonical (cache_op b c p o) =
    if b then keyed_step map_event_key winner_apply (map_canonical c) (p, o) else map_canonical c.
Proof.
  unfold keyed_step, map_event_key. destruct o as [m|l|t]; simpl.
  - by rewrite !lww_update_insert.
  - unfold update_list_conflict_state. destruct (conflict_stream_enabled c); simpl.
    + destruct l; simpl; by destruct b.
    + by destruct b.
  - by destruct b.
Qed.

Lemma cache_ops_maps b p os c :
  let c' := foldl (λ c o, cache_op b c p o) c os in
  map_all c' = winners_of (map_all c) ((λ o, (p, o)) <$> os) ∧
  map_canonical c' =
    if b then winners_of (map_canonical c) ((λ o, (p, o)) <$> os) else map_canonical c.
Proof.
  revert c. induction os as [|o os IH]; intros c; simpl; [by destruct b|].
  destruct (IH (cache_op b c p o)) as [-> ->].
  destruct (cache_op_maps b c p o) as [-> ->]. by destruct b.
Qed.

Lemma live_events_cons n ns :
  live_events (n :: ns) =
  (if decide (node_prio n = prio_zero) then [] else node_events n) ++ live_events ns.
Proof.
  unfold live_events, events. cbn [mbind list_bind]. rewrite filter_app. f_equal.
  unfold node_events. case_decide as Hp.
  - induction (node_ops n) as [|o os IH]; [done|]. cbn [fmap list_fmap]. rewrite filter_cons_False; [done|].
    simpl. auto.
  - induction (node_ops n) as [|o os IH]; [done|]. cbn [fmap list_fmap].
    rewrite filter_cons_True by done. by f_equal.
Qed.

Lemma caches_run_maps c arr :
  map_all (caches_run c arr) = winners_of (map_all c) (live_events arr.*1) ∧
  map_canonical (caches_run c arr) =
    winners_of (map_canonical c) (live_events (canonical_nodes arr)).
Proof.
  revert c. induction arr as [|[n b] arr IH]; intros c; [done|].
  change (caches_run c ((n, b) :: arr)) with (caches_run (update_state_caches c n b) arr).
  cbn [fmap list_fmap fst]. destruct (IH (update_state_caches c n b)) as [-> ->].
  rewrite live_events_cons. unfold winners_of at 2. rewrite foldl_app.
  unfold update_state_caches. unfold canonical_nodes. rewrite filter_cons.
  destruct (cache_ops_maps b (node_prio n) (node_ops n) c) as [E1 E2].
  case_decide as Hp; [split; [done|]|rewrite E1, E2; split; [done|]].
  - destruct b; [|done]. cbn [fmap list_fmap]. rewrite decide_True by done. cbn [fmap list_fmap fst].
    rewrite live_events_cons. by rewrite decide_True.
  - destruct b; [|done]. rewrite decide_True by done. cbn [fmap list_fmap fst].
    rewrite live_events_cons, decide_False by done. unfold winners_of at 3. by rewrite foldl_app.
Qed.

(** The nodes the caches count. *)
Definition live_nodes (ns : list SyncNode) : list SyncNode :=
  filter (λ n, node_prio n ≠ prio_zero) ns.

Lemma live_events_live_nodes ns : live_events ns = events (live_nodes ns).
Proof.
  induction ns as [|n ns IH]; [done|]. rewrite live_events_cons, IH. unfold live_nodes.
  rewrite filter_cons. destruct (decide (node_prio n = prio_zero)) as [E|E].
  - by rewrite decide_False by auto.
  - by rewrite decide_True.
Qed.

(** ** Independence of the order *)

Lemma map_winner_of_prio p m : mw_prio (map_winner_of p m) = p.
Proof. by destruct p, m. Qed.

Lemma map_winner_of_value p m :
  mw_value (map_winner_of p m) =
  match m with MapSet _ v => Some v | MapDelete _ => None | MapSetBlob _ h => Some h end.
Proof. by destruct m. Qed.

Lemma winner_step_comm m e1 e2 :
  e1.1 ≠ e2.1 →
  keyed_step map_event_key winner_apply (keyed_step map_event_key winner_apply m e1) e2 =
  keyed_step map_event_key winner_apply (keyed_step map_event_key winner_apply m e2) e1.
Proof.
  intros Hp. apply keyed_step_comm. intros o k. destruct e1 as [p1 o1], e2 as [p2 o2].
  unfold map_event_key, winner_apply; simpl in *.
  destruct o1 as [m1| |], o2 as [m2| |]; try done. intros _ _.
  assert (lww_agree mw_prio (map_winner_of p1 m1) (map_winner_of p2 m2)) as Hag.
  { intros E. rewrite !map_winner_of_prio in E. by destruct Hp. }
  pose proof (lww_slot_comm mw_prio o _ _ Hag) as Hs. destruct o as [c|]; simpl in Hs; congruence.
Qed.

Lemma live_nodes_no_equivocation ns : no_equivocation ns → no_equivocation (live_nodes ns).
Proof. intros Hc n m [_ Hn]%list_elem_of_filter [_ Hm]%list_elem_of_filter. by apply Hc. Qed.

Lemma winners_of_perm m ns ns' :
  ns ≡ₚ ns' → no_equivocation ns →
  winners_of m (live_events ns) = winners_of m (live_events ns').
Proof.
  intros Hp Hc. rewrite !live_events_live_nodes. apply foldl_events_perm.
  - unfold live_nodes. by rewrite Hp.
  - by apply live_nodes_no_equivocation.
  - apply winner_step_comm.
Qed.

(** ** Agreement with the replay oracle *)

Lemma zeros_least (a : bytes) : Forall is_u8 a → ord_le (zeros (length a)) a.
Proof.
  induction 1 as [|x a Hx _ IH]; [done|].
  unfold ord_le, is_u8 in *. change (zeros (length (x :: a))) with (0 :: zeros (length a)).
  change (cmp (0 :: zeros (length a)) (x :: a)) with
    (match Z.compare 0 x with Eq => cmp (zeros (length a)) a | c => c end).
  destruct (Z.compare_spec 0 x); [exact IH|done|lia].
Qed.

Lemma prio_typed_ge n : prio_typed n → ord_le prio_zero (node_prio n).
Proof.
  intros [[Hl _] [Ha1 Ha2]]. unfold ord_le, prio_zero, node_prio, tx_prio.
  unfold cmp, Ord_pair, pair_cmp; simpl.
  pose proof (zeros_least _ Ha2) as Hz. rewrite Ha1 in Hz. unfold node_lamport in Hl.
  unfold cmp at 1, Ord_Z. destruct (Z.compare_spec 0 (tx_lamport (node_tx n))); [exact Hz|done|lia].
Qed.

Definition replay_apply (e : prio * Op) (o : option (prio * option bytes)) : prio * option bytes :=
  match e.2 with
  | OpMap m => replay_entry m e.1 (default (prio_zero, None) o)
  | _ => default (prio_zero, None) o
  end.

Lemma resolve_replay_keyed ns :
  resolve_replay ns = omap snd (foldl (keyed_step map_event_key replay_apply) ∅ (events ns)).
Proof.
  unfold resolve_replay. rewrite fold_ops_events. f_equal. apply foldl_cong.
  intros m [p o] _. unfold keyed_step, map_event_key, replay_apply; simpl. by destruct o.
Qed.

(** A cache slot and a replay slot that stand for the same winner. *)
Definition slots_agree (o : option MapWinner) (r : option (prio * option bytes)) : Prop :=
  match o with
  | Some w => r = Some (mw_prio w, mw_value w) ∧ ord_lt prio_zero (mw_prio w)
  | None => r = None ∨ r = Some (prio_zero, None)
  end.

Lemma slots_agree_live o r p m :
  slots_agree o r → ord_lt prio_zero p →
  slots_agree (Some (winner_apply (p, OpMap m) o)) (Some (replay_apply (p, OpMap m) r)).
Proof.
  intros Hor Hp. unfold winner_apply, replay_apply, replay_entry; simpl.
  rewrite <-map_winner_of_value with (p := p). destruct o as [w|]; simpl in Hor.
  - destruct Hor as [-> Hw]. simpl. unfold lww_merge. rewrite map_winner_of_prio.
    case_tests; [|done]. by rewrite map_winner_of_prio.
  - assert (gtb p prio_zero = true) as Hg by by apply gtb_true.
    destruct Hor as [->| ->]; simpl; rewrite Hg, map_winner_of_prio; done.
Qed.

Lemma slots_agree_zero o r m :
  slots_agree o r → slots_agree o (Some (replay_apply (prio_zero, OpMap m) r)).
Proof.
  unfold replay_apply, replay_entry; simpl. destruct o as [w|]; simpl.
  - intros [-> Hw]. simpl. rewrite (proj2 (gtb_false prio_zero (mw_prio w))); [done|].
    apply ord_le_lt_or_eq. by left.
  - intros [->| ->]; by right.
Qed.

Lemma slots_agree_fold k es o r :
  (∀ e, e ∈ es → ord_le prio_zero e.1) → slots_agree o r →
  slots_agree
    (foldl (λ o e, Some (winner_apply e o)) o
       (filter (λ e, map_event_key e = Some k) (filter (λ e, e.1 ≠ prio_zero) es)))
    (foldl (λ o e, Some (replay_apply e o)) r (filter (λ e, map_event_key e = Some k) es)).
Proof.
  revert o r. induction es as [|[p op] es IH]; intros o r Hge Hor; [done|].
  assert (∀ e, e ∈ es → ord_le prio_zero e.1) as Hge' by (intros; apply Hge; set_solver).
  assert (ord_le prio_zero p) as Hp by (apply (Hge (p, op)); set_solver).
  rewrite (filter_cons (λ e, e.1 ≠ prio_zero)). simpl.
  destruct (decide (p = prio_zero)) as [->|Hpz].
  - rewrite decide_False by auto. rewrite (filter_cons (λ e, map_event_key e = Some k) _ es).
    case_decide as Hk; [|by apply IH]. apply IH; [done|].
    unfold map_event_key in Hk; simpl in Hk. destruct op; [|done|done]. by apply slots_agree_zero.
  - rewrite decide_True by auto. rewrite !(filter_cons (λ e, map_event_key e = Some k)).
    case_decide as Hk; [|by apply IH]. apply IH; [done|].
    unfold map_event_key in Hk; simpl in Hk. destruct op; [|done|done].
    apply slots_agree_live; [done|]. apply ord_le_lt_or_eq in Hp as [?|]; [done|congruence].
Qed.

Lemma winners_map_replay ns :
  Forall prio_typed ns → winners_map (winners_of ∅ (live_events ns)) = resolve_replay ns.
Proof.
  intros Hty. apply map_eq. intros k. rewrite resolve_replay_keyed. unfold winners_map.
  rewrite !lookup_omap. unfold winners_of. rewrite !keyed_fold_lookup, !lookup_empty.
  unfold live_events. pose proof (slots_agree_fold k (events ns) None None) as Hs.
  set (w := foldl _ _ _) in *. set (r := foldl _ _ (filter _ (events ns))) in *.
  assert (slots_agree w r) as Hwr.
  { apply Hs; [|by left]. intros e (n&Hn&->&_)%elem_of_events.
    apply prio_typed_ge. rewrite Forall_forall in Hty. by apply Hty. }
  destruct w as [w|]; simpl in Hwr; [by destruct Hwr as [-> _]|].
  by destruct Hwr as [->| ->].
Qed.

(** ** The list caches *)

Definition list_event_key (e : prio * Op) : option bytes :=
  match e.2 with OpList l => Some (list_op_key l) | _ => None end.
Definition list_apply (e : prio * Op) (o : option ListCacheState) : ListCacheState :=
  match e.2 with
  | OpList l => list_cache_step e.1 l (default list_cache_default o)
  | _ => default list_cache_default o
  end.

(** ** The blobs *)

(** The blob an operation refers to. *)
Definition op_blob (o : Op) : option Hash := match o with OpMap (MapSetBlob _ h) => Some h | _ => None end.
Definition event_blobs (es : list (prio * Op)) : gset Hash := list_to_set (omap (λ e, op_blob e.2) es).

Lemma elem_of_event_blobs h es : h ∈ event_blobs es ↔ ∃ e, e ∈ es ∧ op_blob e.2 = Some h.
Proof. unfold event_blobs. by rewrite elem_of_list_to_set, list_elem_of_omap. Qed.
Lemma event_blobs_app es fs : event_blobs (es ++ fs) = event_blobs es ∪ event_blobs fs.
Proof. unfold event_blobs. by rewrite omap_app, list_to_set_app_L. Qed.
Lemma cache_op_blobs b c p o : blob_hashes (cache_op b c p o) = blob_hashes c ∪ event_blobs [(p, o)].
Proof.
  unfold event_blobs. destruct o as [m|l|t]; cbn; [by destruct m; cbn; set_solver| |set_solver].
  unfold update_list_conflict_state. destruct (conflict_stream_enabled c), l; cbn; set_solver.
Qed.
Lemma caches_run_blobs c arr : blob_hashes (caches_run c arr) = blob_hashes c ∪ event_blobs (live_events arr.*1).
Proof.
  revert c. induction arr as [|[n b] arr IH]; intros c; [cbn; set_solver|].
  cbn [fmap list_fmap fst]. change (caches_run c ((n, b) :: arr)) with (caches_run (update_state_caches c n b) arr).
  rewrite IH, live_events_cons, event_blobs_app, (assoc_L (∪)). f_equal. unfold update_state_caches. case_decide; [cbn; set_solver|].
  unfold node_events. generalize (node_prio n). clear. intros p. revert c. induction (node_ops n) as [|o os IH]; intros c; [cbn; set_solver|].
  cbn [foldl]. rewrite IH, cache_op_blobs. cbn [fmap list_fmap].
  change ((p, o) :: ((λ o, (p, o)) <$> os)) with ([(p, o)] ++ ((λ o, (p, o)) <$> os)). rewrite event_blobs_app. set_solver.
Qed.

Lemma cache_op_lists b c p o :
  lists (cache_op b c p o) = keyed_step list_event_key list_apply (lists c) (p, o).
Proof.
  unfold keyed_step, list_event_key, list_apply. destruct o as [m|l|t]; simpl; [done| |done].
  unfold update_list_cache, update_list_conflict_state.
  destruct (conflict_stream_enabled c); simpl; [|done]. by destruct l.
Qed.

Lemma caches_run_lists c arr :
  lists (caches_run c arr) =
  foldl (keyed_step list_event_key list_apply) (lists c) (live_events arr.*1).
Proof.
  revert c. induction arr as [|[n b] arr IH]; intros c; [done|].
  change (caches_run c ((n, b) :: arr)) with (caches_run (update_state_caches c n b) arr).
  cbn [fmap list_fmap fst]. rewrite IH, live_events_cons, foldl_app. f_equal.
  unfold update_state_caches. case_decide; [done|]. unfold node_events.
  generalize (node_ops n) as os. intros os. revert c IH. induction os as [|o os IHos]; intros c IH; [done|].
  cbn [foldl fmap list_fmap]. rewrite <-cache_op_lists with (b := b). by apply IHos.
Qed.

Lemma cached_visible st : cached_position st = visible_position st.
Proof.
  unfold cached_position, visible_position, is_visible.
  destruct (saw_insert st), (item_deleted st), (position st); done.
Qed.

(** The ordered set holds exactly the visible items at their positions. *)
Definition list_cache_ok (c : ListCacheState) : Prop :=
  ∀ pos i, (pos, i) ∈ lc_visible c ↔
    ∃ st, lc_items c !! i = Some st ∧ visible_position st = Some pos.

Lemma list_cache_default_ok : list_cache_ok list_cache_default.
Proof.
  intros pos i. simpl. rewrite lookup_empty. split; [set_solver|naive_solver].
Qed.

Lemma visible_position_default : visible_position item_default = None.
Proof. done. Qed.

Lemma list_cache_step_ok p lop c : list_cache_ok c → list_cache_ok (list_cache_step p lop c).
Proof.
  intros Hok pos j. unfold list_cache_step. rewrite !cached_visible.
  set (i := list_op_item lop). set (st := default item_default (lc_items c !! i)).
  set (st' := item_step p lop st). simpl.
  assert (∀ q, (q, i) ∈ lc_visible c ↔ visible_position st = Some q) as Hi.
  { intros q. rewrite (Hok q i). unfold st. destruct (lc_items c !! i) as [s|] eqn:E; simpl.
    - naive_solver.
    - rewrite visible_position_default. naive_solver. }
  destruct (decide (j = i)) as [->|Hj].
  - rewrite lookup_insert_eq. transitivity (visible_position st' = Some pos); [|naive_solver].
    case_decide as Heq; [rewrite (Hi pos), Heq; done|].
    destruct (visible_position st) as [q|] eqn:Eq, (visible_position st') as [q'|] eqn:Eq';
      rewrite ?elem_of_union, ?elem_of_difference, ?elem_of_singleton, ?Hi, ?Eq; naive_solver.
  - rewrite lookup_insert_ne by done. transitivity ((pos, j) ∈ lc_visible c); [|apply Hok].
    case_decide as Heq; [done|].
    destruct (visible_position st) as [q|] eqn:Eq, (visible_position st') as [q'|] eqn:Eq';
      rewrite ?elem_of_union, ?elem_of_difference, ?elem_of_singleton; naive_solver.
Qed.

Lemma list_cache_step_items p lop c :
  lc_items (list_cache_step p lop c) = list_seq_step (list_op_key lop) (lc_items c) p (OpList lop).
Proof. simpl. by rewrite decide_True. Qed.

Definition slot_items (o : option ListCacheState) : gmap ItemId ItemState :=
  default ∅ (lc_items <$> o).

Lemma list_slot_fold k es o :
  from_option list_cache_ok True o →
  let o' := foldl (λ o e, Some (list_apply e o)) o (filter (λ e, list_event_key e = Some k) es) in
  from_option list_cache_ok True o' ∧
  slot_items o' = foldl (λ s e, list_seq_step k s e.1 e.2) (slot_items o) es.
Proof.
  revert o. induction es as [|[p op] es IH]; intros o Ho; [done|]. rewrite filter_cons.
  destruct (decide (list_event_key (p, op) = Some k)) as [Hk|Hk].
  - destruct op as [m|l|t]; [done| |done]. injection Hk as <-.
    cbn [foldl fst snd].
    destruct (IH (Some (list_apply (p, OpList l) o))) as [H1 H2].
    { simpl. apply list_cache_step_ok. destruct o; [done|apply list_cache_default_ok]. }
    split; [exact H1|]. etransitivity; [exact H2|]. f_equal. unfold slot_items.
    cbn [fmap option_fmap option_map default]. unfold list_apply. cbn [snd fst].
    rewrite list_cache_step_items. by destruct o.
  - cbn [foldl fst snd]. destruct (IH o Ho) as [H1 H2]. split; [exact H1|].
    etransitivity; [exact H2|]. f_equal. destruct op as [m|l|t]; [done| |done].
    unfold list_event_key in Hk; simpl in Hk. simpl. by rewrite decide_False by congruence.
Qed.

Lemma visible_entries_elements c :
  list_cache_ok c → sort (elements (lc_visible c)) = visible_entries (lc_items c).
Proof.
  intros Hok. apply sorted_lt_ext.
  - apply sort_lt_NoDup, NoDup_elements.
  - apply visible_entries_sorted.
  - intros [pos i]. rewrite elem_of_sort, elem_of_elements, elem_of_visible_entries. apply Hok.
Qed.

Lemma lists_resolve c ns k :
  lists c = foldl (keyed_step list_event_key list_apply) ∅ (live_events ns) →
  caches_resolve_list c k = resolve_list_seq (live_nodes ns) k.
Proof.
  intros Hc. unfold caches_resolve_list, resolve_list_seq, list_seq_items.
  rewrite Hc, keyed_fold_lookup, fold_ops_events, <-live_events_live_nodes. simpl.
  rewrite lookup_empty.
  destruct (list_slot_fold k (live_events ns) None I) as [Hok Hit].
  cbv zeta in Hit. change (slot_items None) with (∅ : gmap ItemId ItemState) in Hit.
  rewrite <-Hit. destruct (foldl _ None _) as [l|]; simpl in *; [|done].
  by rewrite visible_entries_elements.
Qed.

(** Lists converge too when no author equivocates. *)
Lemma resolve_list_seq_converges ns ns' k :
  ns ≡ₚ ns' → no_equivocation ns → resolve_list_seq ns k = resolve_list_seq ns' k.
Proof.
  intros Hp Hc. unfold resolve_list_seq. do 2 f_equal. rewrite !list_seq_items_keyed.
  apply foldl_events_perm; [done..|]. intros m [p1 o1] [p2 o2] Hne. apply keyed_step_comm.
  intros o i. unfold item_event, item_apply; simpl in *.
  destruct o1 as [|l1|], o2 as [|l2|]; try done. intros _ _.
  apply item_step_comm. unfold list_ops_agree; simpl. congruence.
Qed.
