(* ===== verification/TextState.v ===== *)
(** The text-projection bookkeeping of the graph (graph.rs): resident
    projections per key, parity checking, temperature and eviction.  The
    projection itself is an interface, [TextProjectionOps]; Text.v implements
    it.  Wall-clock nanosecond counters are left out. *)

From S2P Require Import Prelude Op Node.

Inductive TextProjectionMode := TextDisabled | TextEnabled | TextParityCheck.
#[global] Instance TextProjectionMode_eq_dec : EqDecision TextProjectionMode.
Proof. solve_decision. Defined.

(** [ProjectionUpdateOp] (text.rs). *)
Inductive ProjectionUpdateOp :=
| UpdInsert (id : OpId) (after : option OpId) (ch : Z)
| UpdDelete (target : OpId).

(** What the graph asks of a projection (the methods of [TextProjection] it
    calls).  Reads return the projection too: they count calls. *)
Class TextProjectionOps (T : Type) := {
  tp_default : T;
  tp_mark_rebuilt : T → T;
  tp_apply_node : T → SyncNode → bytes → T;
  tp_apply_updates : T → list ProjectionUpdateOp → T;
  tp_resolve_seq : T → T * list (OpId * Z);
  tp_resolve_string : T → T * bytes;
  tp_visible_char_len : T → Z;
  tp_id_at_visible_offset : T → Z → option OpId;
  tp_offset_for_anchor : T → TextRangeAnchor → Z;
  tp_anchor_for_offset : T → Z → TextRangeAnchor;
  (** accumulated read and write calls of [debug_stats], each sum saturating *)
  tp_read_calls : T → Z;
  tp_write_calls : T → Z;
}.

Record TextParityMismatch := mkMismatch {
  mm_key : bytes;
  mm_trigger_node : option NodeId;
  mm_projected_len : Z;
  mm_legacy_len : Z;
  mm_first_projected : option OpId;
  mm_first_legacy : option OpId;
}.

Record TextThresholds := mkThresholds { hot_read_calls : Z; hot_write_calls : Z }.

Record TextState (T : Type) := mkText {
  text_projections : gmap bytes T;
  text_mode : TextProjectionMode;
  text_mismatches : list TextParityMismatch;
  text_self_heals : Z;
  text_sample_every : Z;
  text_update_count : Z;
  text_selected_keys : gset bytes;
  text_check_runs : Z;
  text_hits : Z;
  text_fallbacks : Z;
  text_apply_calls : Z;
  text_thresholds : TextThresholds;
  text_max_resident : Z;
  text_last_touch : gmap bytes Z;
  text_touch_clock : Z;
}.
Arguments mkText {T}.
Arguments text_projections {T}. Arguments text_mode {T}. Arguments text_mismatches {T}.
Arguments text_self_heals {T}. Arguments text_sample_every {T}. Arguments text_update_count {T}.
Arguments text_selected_keys {T}. Arguments text_check_runs {T}. Arguments text_hits {T}.
Arguments text_fallbacks {T}. Arguments text_apply_calls {T}. Arguments text_thresholds {T}.
Arguments text_max_resident {T}. Arguments text_last_touch {T}. Arguments text_touch_clock {T}.

(** The fields [StateGraph::default] gives. *)
Definition text_default {T} : TextState T :=
  mkText ∅ TextEnabled [] 0 16 0 ∅ 0 0 0 0 (mkThresholds 64 2048) usize_max ∅ 0.

(** The key of a text operation. *)
Definition op_text_key (o : Op) : option bytes :=
  match o with OpText t => Some (text_op_key t) | _ => None end.

(** The order replay visits nodes in: lamport, author, id. *)
Definition text_node_key (n : SyncNode) : prio * NodeId := (node_prio n, node_id n).
Definition nodes_for_text (ns : list SyncNode) : list SyncNode := sort_by_key text_node_key ns.

Section text_state.
Context {T : Type} `{TextProjectionOps T}.
Implicit Types (st : TextState T) (ns : list SyncNode).

(** ** Field updates *)

Definition with_projections st (m : gmap bytes T) : TextState T :=
  mkText m (text_mode st) (text_mismatches st) (text_self_heals st) (text_sample_every st)
    (text_update_count st) (text_selected_keys st) (text_check_runs st) (text_hits st)
    (text_fallbacks st) (text_apply_calls st) (text_thresholds st) (text_max_resident st)
    (text_last_touch st) (text_touch_clock st).
Definition with_residency st (m : gmap bytes T) (lt : gmap bytes Z) (clock : Z) : TextState T :=
  mkText m (text_mode st) (text_mismatches st) (text_self_heals st) (text_sample_every st)
    (text_update_count st) (text_selected_keys st) (text_check_runs st) (text_hits st)
    (text_fallbacks st) (text_apply_calls st) (text_thresholds st) (text_max_resident st) lt clock.
Definition with_parity st (mm : list TextParityMismatch) (heals count runs : Z) : TextState T :=
  mkText (text_projections st) (text_mode st) mm heals (text_sample_every st) count
    (text_selected_keys st) runs (text_hits st) (text_fallbacks st) (text_apply_calls st)
    (text_thresholds st) (text_max_resident st) (text_last_touch st) (text_touch_clock st).
Definition with_counters st (hits fallbacks calls : Z) : TextState T :=
  mkText (text_projections st) (text_mode st) (text_mismatches st) (text_self_heals st)
    (text_sample_every st) (text_update_count st) (text_selected_keys st) (text_check_runs st)
    hits fallbacks calls (text_thresholds st) (text_max_resident st) (text_last_touch st)
    (text_touch_clock st).
Definition with_config st (mode : TextProjectionMode) (every count : Z) (sel : gset bytes)
    (th : TextThresholds) (max_resident : Z) : TextState T :=
  mkText (text_projections st) mode (text_mismatches st) (text_self_heals st) every count sel
    (text_check_runs st) (text_hits st) (text_fallbacks st) (text_apply_calls st) th max_resident
    (text_last_touch st) (text_touch_clock st).

(** ** Rebuilding *)

(** [TextProjection::from_nodes]. *)
Definition projection_from_nodes ns (key : bytes) : T :=
  foldl (λ p n, tp_apply_node p n key) (tp_mark_rebuilt tp_default) ns.

(** [crate::text::resolve_text_seq]: replay in (lamport, author, id) order. *)
Definition resolve_text_seq_replay ns (key : bytes) : list (OpId * Z) :=
  (tp_resolve_seq (foldl (λ p n, tp_apply_node p n key) tp_default (nodes_for_text ns))).2.

(** [resolve_text_seq_upto_lamport]. *)
Definition resolve_text_seq_upto_lamport ns (key : bytes) (max_lamport : Z) : list (OpId * Z) :=
  resolve_text_seq_replay (filter (λ n, node_lamport n <= max_lamport) ns) key.

(** [rebuild_text_projection_for_key]. *)
Definition rebuild_text_projection_for_key ns st (key : bytes) : TextState T :=
  with_projections st
    (<[key := projection_from_nodes (nodes_for_text ns) key]> (text_projections st)).

(** [touch_text_projection_key]. *)
Definition touch_text_projection_key st (key : bytes) : TextState T :=
  let clock := sat_add64 (text_touch_clock st) 1 in
  with_residency st (text_projections st) (<[key := clock]> (text_last_touch st)) clock.

(** ** Temperature and eviction *)

(** [projection_is_hot_with_stats]. *)
Definition projection_is_hot st (p : T) : bool :=
  (hot_read_calls (text_thresholds st) <=? tp_read_calls p)
  || (hot_write_calls (text_thresholds st) <=? tp_write_calls p).

(** The candidate slot of the eviction scan: replace on an older touch. *)
Definition update_candidate (key : bytes) (touched : Z) (slot : option (bytes * Z))
    : option (bytes * Z) :=
  match slot with
  | Some (_, t) => if touched <? t then Some (key, touched) else slot
  | None => Some (key, touched)
  end.

(** One scan over the resident keys: the warm and the fallback candidate. *)
Definition eviction_scan st : option (bytes * Z) * option (bytes * Z) :=
  foldl (λ '(warm, fallback) '(key, p),
           let touched := default 0 (text_last_touch st !! key) in
           (if projection_is_hot st p then warm else update_candidate key touched warm,
            update_candidate key touched fallback))
        (None, None) (map_to_list (text_projections st)).

Definition eviction_victim st : option bytes :=
  let '(warm, fallback) := eviction_scan st in
  match warm with
  | Some (k, _) => Some k
  | None => fst <$> fallback
  end.

(** The loop of [enforce_text_projection_residency_policy]; every round
    removes one resident key, so the number of keys bounds it. *)
Fixpoint evict_loop (fuel : nat) st : TextState T :=
  match fuel with
  | O => st
  | S f =>
      if text_max_resident st <? Z.of_nat (size (text_projections st)) then
        match eviction_victim st with
        | None => st
        | Some k =>
            evict_loop f (with_residency st (delete k (text_projections st))
                            (delete k (text_last_touch st)) (text_touch_clock st))
        end
      else st
  end.
Definition enforce_text_projection_residency_policy st : TextState T :=
  evict_loop (size (text_projections st)) st.

(** ** Parity *)

(** One key of [run_text_projection_parity_for_keys]. *)
Definition parity_check_key ns (trigger : option NodeId) st (key : bytes) : TextState T :=
  let '(m', projected) :=
    match text_projections st !! key with
    | Some p => let '(p', s) := tp_resolve_seq p in (<[key := p']> (text_projections st), s)
    | None => (text_projections st, [])
    end in
  let st := with_projections st m' in
  let legacy := resolve_text_seq_replay ns key in
  if decide (projected = legacy) then st
  else
    let mm := mkMismatch key trigger (Z.of_nat (length projected)) (Z.of_nat (length legacy))
                (fst <$> head projected) (fst <$> head legacy) in
    let st := with_parity st (text_mismatches st ++ [mm]) (text_self_heals st)
                (text_update_count st) (text_check_runs st) in
    let st := rebuild_text_projection_for_key ns st key in
    with_parity st (text_mismatches st) (sat_add64 (text_self_heals st) 1)
      (text_update_count st) (text_check_runs st).

Definition run_text_projection_parity_for_keys ns (keys : gset bytes) (trigger : option NodeId) st
    : TextState T :=
  foldl (parity_check_key ns trigger) st (elements keys).

(** The sampling step shared by the single and the batch update. *)
Definition parity_sample ns (touched : gset bytes) (trigger : option NodeId) st : TextState T :=
  let count := sat_add64 (text_update_count st) 1 in
  let st := with_parity st (text_mismatches st) (text_self_heals st) count (text_check_runs st) in
  if decide (count mod Z.max (text_sample_every st) 1 = 0) then
    let keys := if decide (text_selected_keys st = ∅) then touched
                else filter (λ k, k ∈ text_selected_keys st) touched in
    if decide (keys = ∅) then st
    else
      let st := with_parity st (text_mismatches st) (text_self_heals st) count
                  (sat_add64 (text_check_runs st) 1) in
      run_text_projection_parity_for_keys ns keys trigger st
  else st.

(** ** Updates from nodes *)

(** [update_text_projection_from_node]: [apply_node] once per text
    operation of the node.  [ns] are the nodes of the store. *)
Definition update_text_projection_from_node ns st (n : SyncNode) : TextState T :=
  let '(st, touched) :=
    foldl (λ '(st, touched) o,
             match op_text_key o with
             | Some key =>
                 let p := default tp_default (text_projections st !! key) in
                 (with_projections st (<[key := tp_apply_node p n key]> (text_projections st)),
                  {[key]} ∪ touched)
             | None => (st, touched)
             end) (st, ∅ : gset bytes) (node_ops n) in
  let st := if decide (text_mode st = TextParityCheck ∧ touched ≠ ∅)
            then parity_sample ns touched (Some (node_id n)) st else st in
  let st := foldl touch_text_projection_key st (elements touched) in
  let st := enforce_text_projection_residency_policy st in
  with_counters st (text_hits st) (text_fallbacks st) (wrap_add64 (text_apply_calls st) 1).

(** The scan of a batch: coalesced updates per key, keys with range
    operations, touched keys. *)
Definition batch_op (n : SyncNode)
    (s : gmap bytes (list ProjectionUpdateOp) * gset bytes * gset bytes) (o : Op)
    : gmap bytes (list ProjectionUpdateOp) * gset bytes * gset bytes :=
  let '(upd, ranges, touched) := s in
  let push key u := <[key := default [] (upd !! key) ++ [u]]> upd in
  match o with
  | OpText (TextInsert key after ch) =>
      (push key (UpdInsert (mkOpId (node_lamport n) (tx_author (node_tx n))) after ch),
       ranges, {[key]} ∪ touched)
  | OpText (TextDelete key target) => (push key (UpdDelete target), ranges, {[key]} ∪ touched)
  | OpText (TextInsertRange key _ _) | OpText (TextDeleteRange key _ _) =>
      (upd, {[key]} ∪ ranges, {[key]} ∪ touched)
  | _ => s
  end.
Definition batch_scan (batch : list SyncNode)
    : gmap bytes (list ProjectionUpdateOp) * gset bytes * gset bytes :=
  foldl (λ s n, foldl (batch_op n) s (node_ops n)) (∅, ∅, ∅) batch.
Definition node_touches_text (n : SyncNode) : bool :=
  existsb (λ o, match op_text_key o with Some _ => true | None => false end) (node_ops n).

(** [update_text_projection_from_nodes_batch]. *)
Definition update_text_projection_from_nodes_batch ns st (batch : list SyncNode) : TextState T :=
  if decide (batch = []) then st
  else
    let '(upd, ranges, touched) := batch_scan batch in
    let count := length (filter (λ n, node_touches_text n = true) batch) in
    let st :=
      foldl (λ st key,
               let p := default tp_default (text_projections st !! key) in
               let p' := if decide (key ∈ ranges)
                         then foldl (λ p n, tp_apply_node p n key) p batch
                         else tp_apply_updates p (default [] (upd !! key)) in
               with_projections st (<[key := p']> (text_projections st)))
            st (elements touched) in
    let st := if decide (text_mode st = TextParityCheck ∧ touched ≠ ∅)
              then Nat.iter count (parity_sample ns touched None) st else st in
    let st := foldl touch_text_projection_key st (elements touched) in
    let st := enforce_text_projection_residency_policy st in
    with_counters st (text_hits st) (text_fallbacks st)
      (wrap_add64 (text_apply_calls st) (Z.of_nat count)).

(** ** Residency commands *)

(** [collect_text_keys]. *)
Definition collect_text_keys ns : gset bytes :=
  list_to_set (ns ≫= λ n, omap op_text_key (node_ops n)).

(** [rebuild_all_text_projections]. *)
Definition rebuild_all_text_projections ns st : TextState T :=
  enforce_text_projection_residency_policy
    (foldl (λ st key, touch_text_projection_key (rebuild_text_projection_for_key ns st key) key)
       st (elements (collect_text_keys ns))).

(** [set_text_projection_mode]. *)
Definition set_text_projection_mode ns st (mode : TextProjectionMode) : TextState T :=
  let st := with_config st mode (text_sample_every st) 0 (text_selected_keys st)
              (text_thresholds st) (text_max_resident st) in
  if decide (mode = TextDisabled) then st else rebuild_all_text_projections ns st.

(** [set_text_projection_residency_policy]. *)
Definition set_text_projection_residency_policy st (max_resident : Z) : TextState T :=
  enforce_text_projection_residency_policy
    (with_config st (text_mode st) (text_sample_every st) (text_update_count st)
       (text_selected_keys st) (text_thresholds st) max_resident).

(** [demote_text_projection_key]. *)
Definition demote_text_projection_key st (key : bytes) : TextState T * bool :=
  (with_residency st (delete key (text_projections st)) (delete key (text_last_touch st))
     (text_touch_clock st),
   bool_decide (is_Some (text_projections st !! key))).

(** [ensure_text_projection_resident]. *)
Definition ensure_text_projection_resident ns st (key : bytes) : TextState T * bool :=
  if decide (text_mode st = TextDisabled) then (st, false)
  else if decide (is_Some (text_projections st !! key)) then (touch_text_projection_key st key, false)
  else
    (enforce_text_projection_residency_policy
       (touch_text_projection_key (rebuild_text_projection_for_key ns st key) key), true).

(** ** Reads *)

(** [resolve_text_seq]: the resident projection, or a transient rebuild. *)
Definition text_resolve_seq ns st (key : bytes) : TextState T * list (OpId * Z) :=
  if decide (text_mode st = TextDisabled) then
    (with_counters st (text_hits st) (wrap_add64 (text_fallbacks st) 1) (text_apply_calls st),
     resolve_text_seq_replay ns key)
  else
    let st := with_counters st (wrap_add64 (text_hits st) 1) (text_fallbacks st) (text_apply_calls st) in
    match text_projections st !! key with
    | Some p =>
        let '(p', s) := tp_resolve_seq p in
        (with_projections st (<[key := p']> (text_projections st)), s)
    | None => (st, (tp_resolve_seq (projection_from_nodes (nodes_for_text ns) key)).2)
    end.
End text_state.
