(* ===== verification/Graph.v ===== *)
(** The sync graph (graph.rs, [StateGraph]): admission of local and remote
    nodes, batched ingestion, and the reads served from the caches.  Methods
    that fail after changing a field return the changed graph with the error,
    as the source leaves it. *)

From S2P Require Import Prelude Op Node Policy Frontier Storage ListCrdt Conflicts Caches TextState.

Definition LAMPORT_SLACK : Z := 2 ^ 20.
Definition WALL_SKEW_MAX_MS : Z := 24 * 60 * 60 * 1000.
Definition BATCH_VERIFY_CHUNK : nat := 256.

(** ** Snapshot recognition (compaction.rs) *)

Definition ch_nul : Z := 0.
Definition SNAP_HASH_KEY : bytes := ch_nul :: bs "snap:hash".

(** [is_snapshot_node]. *)
Definition is_snapshot_node (n : SyncNode) : bool :=
  existsb (λ o, match o with OpMap (MapSet k _) => bool_decide (k = SNAP_HASH_KEY) | _ => false end)
    (node_ops n).

(** ** Pre-crypto checks *)

Definition check_lamport_ceiling (local_lamport : Z) (n : SyncNode) : result SyncError unit :=
  let ceiling := sat_add64 local_lamport LAMPORT_SLACK in
  if ceiling <? node_lamport n
  then Err (LamportCeiling (node_id n) (node_lamport n) ceiling) else Ok tt.

Definition check_wall_skew (now_ms : Z) (n : SyncNode) : result SyncError unit :=
  let w := tx_wall_ms (node_tx n) in
  if w =? 0 then Ok tt
  else if sat_add64 now_ms WALL_SKEW_MAX_MS <? w
  then Err (WallClockSkew (node_id n) w now_ms) else Ok tt.

(** The key the policy check of [apply_remote_verified_no_projection] reads. *)
Definition policy_key (o : Op) : bytes :=
  match o with
  | OpMap m => map_op_key m
  | OpText t => text_op_key t
  | OpList l => list_op_key l
  end.

Fixpoint check_policy_ops (p : Policy) (author : PublicKey) (os : list Op) : result SyncError unit :=
  match os with
  | [] => Ok tt
  | o :: os =>
      if can_write p (policy_key o) author then check_policy_ops p author os
      else Err (PolicyViolation author (policy_key o))
  end.

Definition check_policy (p : Policy) (n : SyncNode) : result SyncError unit :=
  if is_snapshot_node n then Ok tt else check_policy_ops p (tx_author (node_tx n)) (node_ops n).

(** Range inserts reserve one identity per extra character. *)
Definition extra_insert_ids (os : list Op) : Z :=
  foldr Z.add 0 ((λ o, match o with
    | OpText (TextInsertRange _ _ text) => sat_sub (Z.of_nat (length text)) 1
    | _ => 0
    end) <$> os).

(** [slice::chunks]. *)
Fixpoint chunks_of {A} (fuel k : nat) (l : list A) : list (list A) :=
  match fuel with
  | O => []
  | S f => match l with [] => [] | _ => take k l :: chunks_of f k (drop k l) end
  end.

Record BatchResult := mkBatch {
  batch_accepted : list NodeId;
  batch_rejected : list (NodeId * SyncError);
}.

Record StateGraph (N T : Type) := mkGraph {
  g_nodes : N;
  g_leaves : gset NodeId;
  g_lamport : Z;
  g_policy : Policy;
  g_frontier : Frontier;
  g_local_ids : gset NodeId;
  g_verified : gset NodeId;
  g_local_signing : bool;
  g_text : TextState T;
  g_caches : StateCaches;
}.
Arguments mkGraph {N T}.
Arguments g_nodes {N T}. Arguments g_leaves {N T}. Arguments g_lamport {N T}.
Arguments g_policy {N T}. Arguments g_frontier {N T}. Arguments g_local_ids {N T}.
Arguments g_verified {N T}. Arguments g_local_signing {N T}. Arguments g_text {N T}.
Arguments g_caches {N T}.

Section graph.
Context `{Blake3, Postcard Transaction, Ed25519}.
Context {N : Type} `{NodeStore N} {T : Type} `{TextProjectionOps T}.
Implicit Types g : StateGraph N T.

(** [with_store]; [default] is the same with an empty memory store. *)
Definition graph_with_store (nodes : N) : StateGraph N T :=
  mkGraph nodes ∅ 0 policy_default frontier_empty ∅ ∅ true text_default caches_default.

Definition with_caches g (c : StateCaches) : StateGraph N T :=
  mkGraph (g_nodes g) (g_leaves g) (g_lamport g) (g_policy g) (g_frontier g) (g_local_ids g)
    (g_verified g) (g_local_signing g) (g_text g) c.
Definition with_text g (t : TextState T) : StateGraph N T :=
  mkGraph (g_nodes g) (g_leaves g) (g_lamport g) (g_policy g) (g_frontier g) (g_local_ids g)
    (g_verified g) (g_local_signing g) t (g_caches g).
Definition with_lamport g (l : Z) : StateGraph N T :=
  mkGraph (g_nodes g) (g_leaves g) l (g_policy g) (g_frontier g) (g_local_ids g)
    (g_verified g) (g_local_signing g) (g_text g) (g_caches g).
Definition with_ids g (local verified : gset NodeId) : StateGraph N T :=
  mkGraph (g_nodes g) (g_leaves g) (g_lamport g) (g_policy g) (g_frontier g) local
    verified (g_local_signing g) (g_text g) (g_caches g).
Definition mark_verified g (id : NodeId) : StateGraph N T :=
  with_ids g (g_local_ids g) ({[id]} ∪ g_verified g).

(** [set_policy] and [set_local_signing]. *)
Definition set_policy g (p : Policy) : StateGraph N T :=
  mkGraph (g_nodes g) (g_leaves g) (g_lamport g) p (g_frontier g) (g_local_ids g)
    (g_verified g) (g_local_signing g) (g_text g) (g_caches g).
Definition set_local_signing g (b : bool) : StateGraph N T :=
  mkGraph (g_nodes g) (g_leaves g) (g_lamport g) (g_policy g) (g_frontier g) (g_local_ids g)
    (g_verified g) b (g_text g) (g_caches g).
(** [set_conflict_stream_enabled] and [drain_pending_conflicts]. *)
Definition set_conflict_stream_enabled g (b : bool) : StateGraph N T :=
  with_caches g (caches_set_stream (g_caches g) b).
Definition drain_pending_conflicts g : StateGraph N T * list ConflictEvent :=
  (with_caches g (caches_drain (g_caches g)).1, (caches_drain (g_caches g)).2).

(** [all_nodes] and [all_nodes_snapshot], in the store's iteration order. *)
Definition all_nodes g : list SyncNode :=
  omap (ns_get (g_nodes g)) (ns_all_ids (g_nodes g)).

(** ** Insertion *)

(** [insert_node]: leaves, frontier and clock move before the store is
    written. *)
Definition insert_node g (n : SyncNode) : StateGraph N T * result SyncError unit :=
  if ns_contains (g_nodes g) (node_id n) then (g, Err (DuplicateNode (node_id n)))
  else
    let leaves := {[node_id n]} ∪ (g_leaves g ∖ list_to_set (node_parents n)) in
    let lamport := if g_lamport g <? node_lamport n then node_lamport n else g_lamport g in
    let '(nodes, r) := ns_put (g_nodes g) n in
    (mkGraph nodes leaves lamport (g_policy g) (advance (g_frontier g) n) (g_local_ids g)
       (g_verified g) (g_local_signing g) (g_text g) (g_caches g), r).

(** The parent check. *)
Fixpoint check_parents (s : N) (ps : list Hash) : result SyncError unit :=
  match ps with
  | [] => Ok tt
  | p :: ps => if ns_contains s p then check_parents s ps else Err (MissingParent p)
  end.

(** [apply_remote_verified_no_projection]. *)
Definition apply_remote_verified_no_projection g (n : SyncNode)
    : StateGraph N T * result SyncError unit :=
  match check_parents (g_nodes g) (node_parents n) with
  | Err e => (g, Err e)
  | Ok _ =>
      match check_policy (g_policy g) n with
      | Err e => (g, Err e)
      | Ok _ =>
          let '(g, r) := insert_node g n in
          match r with
          | Err e => (g, Err e)
          | Ok _ => (with_caches g (update_state_caches (g_caches g) n true), Ok tt)
          end
      end
  end.

(** The projection hook on the graph. *)
Definition graph_update_text g (n : SyncNode) : StateGraph N T :=
  with_text g (update_text_projection_from_node (all_nodes g) (g_text g) n).

(** [apply_remote_verified]. *)
Definition apply_remote_verified g (n : SyncNode) : StateGraph N T * result SyncError unit :=
  let '(g, r) := apply_remote_verified_no_projection g n in
  match r with
  | Err e => (g, Err e)
  | Ok _ => (graph_update_text g n, Ok tt)
  end.

(** [apply_remote_checked] and [apply_remote]. *)
Definition apply_remote_checked g (n : SyncNode) (now_ms : option Z)
    : StateGraph N T * result SyncError unit :=
  let expected := tx_hash (node_tx n) in
  if decide (expected ≠ node_id n) then (g, Err (HashMismatch expected (node_id n)))
  else
    match check_lamport_ceiling (g_lamport g) n with
    | Err e => (g, Err e)
    | Ok _ =>
        match from_option (λ now, check_wall_skew now n) (Ok tt) now_ms with
        | Err e => (g, Err e)
        | Ok _ =>
            if decide (node_id n ∈ g_verified g) then apply_remote_verified g n
            else
              match verify_signature n with
              | Err e => (g, Err e)
              | Ok _ => apply_remote_verified (mark_verified g (node_id n)) n
              end
        end
    end.
Definition apply_remote g (n : SyncNode) : StateGraph N T * result SyncError unit :=
  apply_remote_checked g n None.

(** [apply_local]; the clock keeps its new value when insertion fails. *)
Definition apply_local g (sk : SigningKey) (wall_ms : Z) (os : list Op)
    : StateGraph N T * result SyncError NodeId :=
  let tx_lamport := wrap_add64 (g_lamport g) 1 in
  let g := with_lamport g (sat_add64 tx_lamport (extra_insert_ids os)) in
  let tx := mkTx (ed_verifying_key sk) tx_lamport wall_ms os (elements (g_leaves g)) in
  let n := if g_local_signing g then node_new_signed tx sk else node_new tx in
  let '(g, r) := insert_node g n in
  match r with
  | Err e => (g, Err e)
  | Ok _ =>
      let g := with_caches g (update_state_caches (g_caches g) n false) in
      let g := graph_update_text g n in
      (with_ids g ({[node_id n]} ∪ g_local_ids g) ({[node_id n]} ∪ g_verified g), Ok (node_id n))
  end.

(** ** Batches *)

(** Author keys that do not decode are bad; the rest go to [verify_batch],
    with a per-node fallback when it fails. *)
Definition verify_chunk (ns : list SyncNode) (indices : list nat) : list (nat * bool) :=
  let sel := omap (λ i, (λ n, (i, n)) <$> ns !! i) indices in
  let good := filter (λ i_n, ed_vk_ok (tx_author (node_tx i_n.2)) = true) sel in
  let bad := filter (λ i_n, ed_vk_ok (tx_author (node_tx i_n.2)) = false) sel in
  let out := (λ i_n, (i_n.1, false)) <$> bad in
  if decide (good = []) then out
  else if ed_verify_batch
            ((λ i_n, (node_id i_n.2, node_sig i_n.2, tx_author (node_tx i_n.2))) <$> good)
  then out ++ ((λ i_n, (i_n.1, true)) <$> good)
  else out ++ ((λ i_n, (i_n.1, is_ok (verify_signature i_n.2))) <$> good).

(** [verify_nodes_batched]. *)
Definition needs_verify g (n : SyncNode) : bool :=
  negb (sig_is_zero (node_sig n)) && bool_decide (node_id n ∉ g_verified g).
Definition verify_nodes_batched g (ns : list SyncNode) : list bool :=
  let need := omap (λ i_n, if needs_verify g i_n.2 then Some i_n.1 else None) (imap pair ns) in
  let outputs := verify_chunk ns <$> chunks_of (length need) BATCH_VERIFY_CHUNK need in
  foldl (λ res i_ok, <[i_ok.1 := i_ok.2]> res) (replicate (length ns) true) (concat outputs).

(** Steps 1 and 2 on one node: what survives, what is rejected, what has
    been seen. *)
Definition batch_admit g (now_ms : option Z)
    (s : list SyncNode * list (NodeId * SyncError) * gset NodeId) (n : SyncNode)
    : list SyncNode * list (NodeId * SyncError) * gset NodeId :=
  let '(to_verify, rejected, seen) := s in
  if decide (node_id n ∈ seen) then s
  else
    let seen := {[node_id n]} ∪ seen in
    if ns_contains (g_nodes g) (node_id n) then (to_verify, rejected, seen)
    else
      let expected := tx_hash (node_tx n) in
      if decide (expected ≠ node_id n)
      then (to_verify, rejected ++ [(node_id n, HashMismatch expected (node_id n))], seen)
      else
        match check_lamport_ceiling (g_lamport g) n with
        | Err e => (to_verify, rejected ++ [(node_id n, e)], seen)
        | Ok _ =>
            match from_option (λ now, check_wall_skew now n) (Ok tt) now_ms with
            | Err e => (to_verify, rejected ++ [(node_id n, e)], seen)
            | Ok _ => (to_verify ++ [n], rejected, seen)
            end
        end.

(** Step 4 on one node. *)
Definition batch_apply (s : StateGraph N T * BatchResult * list SyncNode) (n_ok : SyncNode * bool)
    : StateGraph N T * BatchResult * list SyncNode :=
  let '(g, res, accepted_nodes) := s in
  let '(n, ok) := n_ok in
  let id := node_id n in
  if negb ok then
    (g, mkBatch (batch_accepted res) (batch_rejected res ++ [(id, InvalidSignature id)]), accepted_nodes)
  else
    let '(g, r) := apply_remote_verified_no_projection (mark_verified g id) n in
    match r with
    | Ok _ => (g, mkBatch (batch_accepted res ++ [id]) (batch_rejected res), accepted_nodes ++ [n])
    | Err e => (g, mkBatch (batch_accepted res) (batch_rejected res ++ [(id, e)]), accepted_nodes)
    end.

(** [apply_remote_batch_checked] and [apply_remote_batch]. *)
Definition apply_remote_batch_checked g (ns : list SyncNode) (now_ms : option Z)
    : StateGraph N T * BatchResult :=
  let '(to_verify, rejected, _) := foldl (batch_admit g now_ms) ([], [], ∅) ns in
  let verify_ok := verify_nodes_batched g to_verify in
  let '(g, res, accepted_nodes) :=
    foldl batch_apply (g, mkBatch [] rejected, []) (zip to_verify verify_ok) in
  (with_text g (update_text_projection_from_nodes_batch (all_nodes g) (g_text g) accepted_nodes), res).
Definition apply_remote_batch g (ns : list SyncNode) : StateGraph N T * BatchResult :=
  apply_remote_batch_checked g ns None.

(** ** Range operations *)

(** [canonicalize_range_anchor]. *)
Definition canonicalize_range_anchor (seq : list (OpId * Z)) (a : TextRangeAnchor) : TextRangeAnchor :=
  match a with
  | AnchorOffset i =>
      let len := Z.of_nat (length seq) in
      let idx := Z.min i len in
      if idx =? 0 then AnchorStart
      else if len <=? idx then AnchorEnd
      else match seq !! Z.to_nat (idx - 1) with Some e => AnchorAfter e.1 | None => AnchorEnd end
  | other => other
  end.

(** [canonicalize_offset_anchor_fast]. *)
Definition canonicalize_offset_anchor_fast g (key : bytes) (offset : Z) : option TextRangeAnchor :=
  if decide (text_mode (g_text g) = TextDisabled) then None
  else
    match text_projections (g_text g) !! key with
    | None => None
    | Some p =>
        let len := tp_visible_char_len p in
        let idx := Z.min offset len in
        if idx =? 0 then Some AnchorStart
        else if len <=? idx then Some AnchorEnd
        else AnchorAfter <$> tp_id_at_visible_offset p (idx - 1)
    end.

(** [apply_local_text_range_op] for an insert ([TextRangeOp::Insert]) or a
    delete ([TextRangeOp::Delete]) at an anchor. *)
Definition canonical_anchor g (key : bytes) (a : TextRangeAnchor) : StateGraph N T * TextRangeAnchor :=
  match a with
  | AnchorOffset i =>
      match canonicalize_offset_anchor_fast g key i with
      | Some a' => (g, a')
      | None =>
          let '(t, seq) := text_resolve_seq (all_nodes g) (g_text g) key in
          (with_text g t, canonicalize_range_anchor seq a)
      end
  | _ => (g, a)
  end.
Definition apply_local_range g (sk : SigningKey) (wall_ms : Z) (key : bytes) (a : TextRangeAnchor)
    (mk : TextRangeAnchor → TextOp) : StateGraph N T * result SyncError (list NodeId) :=
  let '(g, a) := canonical_anchor g key a in
  let '(g, r) := apply_local g sk wall_ms [OpText (mk a)] in
  (g, match r with Ok id => Ok [id] | Err e => Err e end).
Definition apply_local_text_range_insert g sk wall_ms key a (text : list Z) :=
  apply_local_range g sk wall_ms key a (λ a, TextInsertRange key a text).
Definition apply_local_text_range_delete g sk wall_ms key a (len_chars : Z) :=
  apply_local_range g sk wall_ms key a (λ a, TextDeleteRange key a len_chars).

(** ** Reads *)

Definition resolve g : gmap bytes bytes := caches_resolve (g_caches g).
Definition resolve_canonical g : gmap bytes bytes := caches_resolve_canonical (g_caches g).
Definition read_speculative g (key : bytes) : option bytes := caches_read (g_caches g) key.
Definition read_canonical g (key : bytes) : option bytes := caches_read_canonical (g_caches g) key.
Definition resolve_list g (list_key : bytes) : list (ItemId * FracIdx) :=
  caches_resolve_list (g_caches g) list_key.
Definition referenced_blob_hashes g : gset Hash := blob_hashes (g_caches g).

(** [resolve_replay(skip_local)] on the nodes of the store. *)
Definition graph_resolve_replay g (skip_local : bool) : gmap bytes bytes :=
  resolve_replay (if skip_local
                  then filter (λ n, node_id n ∉ g_local_ids g) (all_nodes g)
                  else all_nodes g).
(** [resolve_list_replay]. *)
Definition graph_resolve_list_replay g (list_key : bytes) : list (ItemId * FracIdx) :=
  resolve_list_seq (all_nodes g) list_key.

(** [merkle_root]: Blake3 over the sorted leaf ids. *)
Definition merkle_root g : Hash := blake3_hash (concat (sort (elements (g_leaves g)))).

(** [missing_hashes] and [get_nodes]. *)
Definition missing_hashes g (remote_known : gset NodeId) : list NodeId :=
  filter (λ i, i ∉ remote_known) (ns_all_ids (g_nodes g)).
Definition get_nodes g (ids : list NodeId) : list SyncNode := omap (ns_get (g_nodes g)) ids.

(** [resolve_text_seq] and [resolve_text_seq_at_lamport]. *)
Definition resolve_text_seq g (key : bytes) : StateGraph N T * list (OpId * Z) :=
  let '(t, s) := text_resolve_seq (all_nodes g) (g_text g) key in (with_text g t, s).
Definition resolve_text_seq_at_lamport g (key : bytes) (max_lamport : Z) : list (OpId * Z) :=
  resolve_text_seq_upto_lamport (all_nodes g) key max_lamport.
End graph.
