(* ===== verification/GraphFacts.v ===== *)
(** Invariants of the sync graph: what every sequence of operations keeps
    true of the store, the leaves, the frontier, the clock and the caches. *)

From S2P Require Import Prelude Op Node Policy Frontier Storage Lww ListCrdt Conflicts Caches.
From S2P Require Import CacheFacts TextState Graph.

Section facts.
Context `{Blake3, Postcard Transaction, Ed25519}.
Context {N : Type} `{NodeStoreLaws N} {T : Type} `{TextProjectionOps T}.
Implicit Types (g : StateGraph N T) (arr : arrival).

Abbreviation get g := (ns_get (g_nodes g)).

(** ** The nodes of the store *)

Lemma elem_of_all_nodes g n : n ∈ all_nodes g ↔ ∃ i, get g i = Some n.
Proof.
  unfold all_nodes. rewrite list_elem_of_omap. split; [naive_solver|].
  intros [i Hi]. exists i. rewrite ns_all_ids_get. eauto.
Qed.

(** Every node sits under its own id. *)
Definition store_keyed g : Prop := ∀ i n, get g i = Some n → node_id n = i.

Lemma all_nodes_ids g : store_keyed g → node_id <$> all_nodes g = ns_all_ids (g_nodes g).
Proof.
  intros Hk. unfold all_nodes.
  assert (∀ i, i ∈ ns_all_ids (g_nodes g) → is_Some (get g i)) as Hs
    by (intros i; apply ns_all_ids_get).
  induction (ns_all_ids (g_nodes g)) as [|i ids IH]; [done|].
  cbn [omap list_omap]. destruct (Hs i) as [n Hn]; [set_solver|]. rewrite Hn.
  cbn [fmap list_fmap]. rewrite (Hk _ _ Hn). f_equal. apply IH. set_solver.
Qed.

Lemma all_nodes_NoDup g : store_keyed g → NoDup (all_nodes g).
Proof.
  intros Hk. apply (NoDup_fmap_1 node_id). rewrite all_nodes_ids by done. apply ns_all_ids_NoDup.
Qed.

(** ** The invariant *)

(** [p] is a parent of the stored node [i]. *)
Definition parent_of g (i p : NodeId) : Prop := ∃ n, get g i = Some n ∧ p ∈ node_parents n.

(** A sequence of nodes in which every parent stands before its children. *)
Inductive causal : list SyncNode → Prop :=
| causal_nil : causal []
| causal_snoc ns n : causal ns → (∀ p, p ∈ node_parents n → p ∈ node_id <$> ns) → causal (ns ++ [n]).

Record graph_ok g arr : Prop := {
  ok_arrival : arr.*1 ≡ₚ all_nodes g;
  ok_causal : causal arr.*1;
  ok_keyed : store_keyed g;
  ok_hash : ∀ i n, get g i = Some n → tx_hash (node_tx n) = i;
  ok_parents : ∀ i n p, get g i = Some n → p ∈ node_parents n → is_Some (get g p);
  ok_leaves : ∀ i, i ∈ g_leaves g ↔
    is_Some (get g i) ∧ ∀ j m, get g j = Some m → i ∉ node_parents m;
  ok_covered : ∀ i, is_Some (get g i) → ∃ l, l ∈ g_leaves g ∧ rtc (parent_of g) l i;
  ok_frontier_wf : frontier_wf (g_frontier g);
  ok_frontier : ∀ i, i ∈ heads (g_frontier g) ↔ i ∈ g_leaves g;
  ok_lamport : ∀ i n, get g i = Some n → node_lamport n <= g_lamport g;
  ok_clock : is_u64 (g_lamport g);
  ok_typed : Forall prio_typed arr.*1;
  ok_flags : ∀ nb, nb ∈ arr → nb.2 = bool_decide (node_id nb.1 ∉ g_local_ids g);
  ok_local : ∀ i, i ∈ g_local_ids g → is_Some (get g i);
  ok_map : map_all (g_caches g) = winners_of ∅ (live_events arr.*1);
  ok_canonical : map_canonical (g_caches g) = winners_of ∅ (live_events (canonical_nodes arr));
  ok_lists : lists (g_caches g) =
    foldl (keyed_step list_event_key list_apply) ∅ (live_events arr.*1);
  ok_blobs : blob_hashes (g_caches g) = event_blobs (live_events arr.*1);
}.

(** Fields the invariant does not read may change freely. *)
Record same_core g g' : Prop := {
  sc_nodes : g_nodes g' = g_nodes g;
  sc_leaves : g_leaves g' = g_leaves g;
  sc_frontier : g_frontier g' = g_frontier g;
  sc_lamport : g_lamport g <= g_lamport g' ∧ (is_u64 (g_lamport g) → is_u64 (g_lamport g'));
  sc_local : g_local_ids g' = g_local_ids g;
  sc_map : map_all (g_caches g') = map_all (g_caches g);
  sc_canonical : map_canonical (g_caches g') = map_canonical (g_caches g);
  sc_lists : lists (g_caches g') = lists (g_caches g);
  sc_blobs : blob_hashes (g_caches g') = blob_hashes (g_caches g);
}.

Lemma graph_ok_core g g' arr : same_core g g' → graph_ok g arr → graph_ok g' arr.
Proof.
  intros [En El Ef [Hl1 Hl2] Elo Em Ec Eli Ebl] Hok. destruct Hok.
  split; unfold store_keyed, all_nodes, parent_of in *; rewrite ?En, ?El, ?Ef, ?Elo, ?Em, ?Ec, ?Eli, ?Ebl; auto.
  - intros i n Hi. specialize (ok_lamport0 i n Hi). lia.
Qed.

Lemma graph_ok_empty s : (∀ i, ns_get s i = None) → graph_ok (graph_with_store s) [].
Proof.
  intros Hs. split; simpl.
  - assert (all_nodes (graph_with_store s : StateGraph N T) = []) as ->; [|done].
    apply elem_of_nil_inv. intros n [i Hi]%elem_of_all_nodes. simpl in Hi. congruence.
  - constructor.
  - intros i n Hi. simpl in Hi. congruence.
  - intros i n Hi. congruence.
  - intros i n p Hi. congruence.
  - intros i. rewrite Hs. split; [set_solver|]. intros [[? [=]] _].
  - intros i. rewrite Hs. intros [? [=]].
  - constructor.
  - set_solver.
  - intros i n Hi. congruence.
  - by vm_compute.
  - constructor.
  - set_solver.
  - set_solver.
  - done.
  - done.
  - done.
  - done.
Qed.

(** ** Admitting one node *)

Lemma ns_contains_false (s : N) i : ns_contains s i = false ↔ ns_get s i = None.
Proof. rewrite ns_contains_get, bool_decide_eq_false, <-eq_None_not_Some. done. Qed.
Lemma ns_contains_true (s : N) i : ns_contains s i = true ↔ is_Some (ns_get s i).
Proof. by rewrite ns_contains_get, bool_decide_eq_true. Qed.

Lemma insert_node_ok g n g' :
  insert_node g n = (g', Ok tt) →
  get g (node_id n) = None ∧
  (∀ i, get g' i = if decide (i = node_id n) then Some n else get g i) ∧
  g' = mkGraph (g_nodes g') ({[node_id n]} ∪ (g_leaves g ∖ list_to_set (node_parents n)))
         (Z.max (g_lamport g) (node_lamport n)) (g_policy g) (advance (g_frontier g) n)
         (g_local_ids g) (g_verified g) (g_local_signing g) (g_text g) (g_caches g).
Proof.
  unfold insert_node. destruct (ns_contains (g_nodes g) (node_id n)) eqn:E; [done|].
  apply ns_contains_false in E. destruct (ns_put (g_nodes g) n) as [s r] eqn:Ep.
  intros [= <- ->]. split; [done|]. split; [intros i; by apply ns_get_put|]. simpl. f_equal.
  destruct (Z.ltb_spec (g_lamport g) (node_lamport n)); lia.
Qed.

Lemma live_events_app ns ms : live_events (ns ++ ms) = live_events ns ++ live_events ms.
Proof. unfold live_events, events. by rewrite bind_app, filter_app. Qed.

(** The admitted graph, up to the fields the invariant ignores. *)
Definition admitted g n (b : bool) g' : Prop :=
  same_core
    (mkGraph (g_nodes g') ({[node_id n]} ∪ (g_leaves g ∖ list_to_set (node_parents n)))
       (Z.max (g_lamport g) (node_lamport n)) (g_policy g) (advance (g_frontier g) n)
       (if b then g_local_ids g else {[node_id n]} ∪ g_local_ids g) (g_verified g)
       (g_local_signing g) (g_text g) (update_state_caches (g_caches g) n b)) g' ∧
  get g (node_id n) = None ∧
  ∀ i, get g' i = if decide (i = node_id n) then Some n else get g i.

Lemma all_nodes_admit g g' n :
  store_keyed g → get g (node_id n) = None →
  (∀ i, get g' i = if decide (i = node_id n) then Some n else get g i) →
  all_nodes g' ≡ₚ n :: all_nodes g.
Proof.
  intros Hk Hnew Hget.
  assert (store_keyed g') as Hk'.
  { intros i m. rewrite Hget. case_decide; [naive_solver|apply Hk]. }
  apply NoDup_Permutation.
  - by apply all_nodes_NoDup.
  - constructor; [|by apply all_nodes_NoDup].
    intros [i Hi]%elem_of_all_nodes. pose proof (Hk _ _ Hi). subst. congruence.
  - intros m. rewrite elem_of_cons, !elem_of_all_nodes. setoid_rewrite Hget. split.
    + intros [i Hi]. case_decide; [left; congruence|eauto].
    + intros [->|[i Hi]].
      * exists (node_id n). by rewrite decide_True.
      * exists i. rewrite decide_False; [done|]. intros ->. congruence.
Qed.

(** The parts of the invariant one admission has to re-establish. *)
Section admission.
Context g arr n g' (Hok : graph_ok g arr) (Hnew : get g (node_id n) = None).
Context (Hget : ∀ i, get g' i = if decide (i = node_id n) then Some n else get g i).
Context (Hpar : ∀ p, p ∈ node_parents n → is_Some (get g p)).

Lemma admit_leaves i :
  i ∈ {[node_id n]} ∪ (g_leaves g ∖ list_to_set (node_parents n)) ↔
  is_Some (get g' i) ∧ ∀ j m, get g' j = Some m → i ∉ node_parents m.
Proof.
  rewrite elem_of_union, elem_of_difference, elem_of_singleton.
  rewrite elem_of_list_to_set, Hget, (ok_leaves _ _ Hok). setoid_rewrite Hget. case_decide as Ei; subst.
  - split; [|by left]. intros _. split; [eauto|]. intros j m. case_decide; subst.
    + intros [= <-] Hin%Hpar. rewrite Hnew in Hin. by destruct Hin.
    + intros Hj Hin%(ok_parents _ _ Hok _ _ _ Hj). rewrite Hnew in Hin. by destruct Hin.
  - split.
    + intros [?|[[Hi Hch] Hnp]]; [done|]. split; [done|]. intros j m. case_decide; naive_solver.
    + intros [Hi Hch]. right. split; [split; [done|]|].
      * intros j m Hj. apply (Hch j). rewrite decide_False; [done|]. intros ->. congruence.
      * apply (Hch (node_id n)). by rewrite decide_True.
Qed.

Lemma admit_covered i :
  is_Some (get g' i) →
  ∃ l, l ∈ ({[node_id n]} ∪ (g_leaves g ∖ list_to_set (node_parents n)) : gset NodeId) ∧ rtc (parent_of g') l i.
Proof.
  rewrite Hget. case_decide as Ei.
  - intros _. exists i. split; [set_solver|constructor].
  - intros (l&Hl&Hr)%(ok_covered _ _ Hok).
    assert (rtc (parent_of g') l i) as Hr'.
    { eapply (rtc_congruence id); [|exact Hr]. intros x y (m&Hm&Hy). exists m. split; [|done].
      simpl. rewrite Hget. rewrite decide_False; [done|]. intros ->. congruence. }
    destruct (decide (l ∈ node_parents n)) as [Hp|Hp].
    + exists (node_id n). split; [set_solver|]. eapply rtc_l; [|exact Hr'].
      exists n. split; [|done]. simpl. by rewrite Hget, decide_True.
    + exists l. split; [set_solver|done].
Qed.

Lemma admit_flags b nb :
  nb ∈ arr ++ [(n, b)] →
  nb.2 = bool_decide (node_id nb.1 ∉ if b then g_local_ids g else {[node_id n]} ∪ g_local_ids g).
Proof.
  assert (node_id n ∉ g_local_ids g) as Hnl.
  { intros Hin%(ok_local _ _ Hok). rewrite Hnew in Hin. by destruct Hin. }
  destruct nb as [m c]. intros [Hin|Hin]%elem_of_app; simpl.
  - pose proof (ok_flags _ _ Hok _ Hin) as Hc. simpl in Hc. rewrite Hc. destruct b; [done|].
    apply bool_decide_ext. assert (node_id m ≠ node_id n); [|set_solver].
    intros E. assert (m ∈ all_nodes g) as [i Hi]%elem_of_all_nodes.
    { rewrite <-(ok_arrival _ _ Hok). apply list_elem_of_fmap. by exists (m, c). }
    pose proof (ok_keyed _ _ Hok _ _ Hi). congruence.
  - apply list_elem_of_singleton in Hin as [= -> ->]. destruct b.
    + by rewrite bool_decide_eq_true_2.
    + rewrite bool_decide_eq_false_2; [done|]. set_solver.
Qed.

Lemma admit_caches b :
  let c := update_state_caches (g_caches g) n b in
  let arr' := arr ++ [(n, b)] in
  map_all c = winners_of ∅ (live_events arr'.*1) ∧
  map_canonical c = winners_of ∅ (live_events (canonical_nodes arr')) ∧
  lists c = foldl (keyed_step list_event_key list_apply) ∅ (live_events arr'.*1) ∧
  blob_hashes c = event_blobs (live_events arr'.*1).
Proof.
  intros c arr'. change c with (caches_run (g_caches g) [(n, b)]). unfold arr'.
  destruct (caches_run_maps (g_caches g) [(n, b)]) as [Ha Hc].
  rewrite Ha, Hc, (caches_run_lists (g_caches g)), (caches_run_blobs (g_caches g)).
  rewrite (ok_map _ _ Hok), (ok_canonical _ _ Hok), (ok_lists _ _ Hok), (ok_blobs _ _ Hok).
  unfold canonical_nodes, winners_of. by rewrite filter_app, !fmap_app, !live_events_app, !foldl_app, event_blobs_app.
Qed.
End admission.

Lemma admit_ok g arr n b g' :
  graph_ok g arr → admitted g n b g' → tx_hash (node_tx n) = node_id n →
  (∀ p, p ∈ node_parents n → is_Some (get g p)) → prio_typed n →
  graph_ok g' (arr ++ [(n, b)]).
Proof.
  intros Hok (Hcore&Hnew&Hget) Hhash Hpar Hty.
  eapply graph_ok_core; [done|]. set (g1 := mkGraph _ _ _ _ _ _ _ _ _ _) in *.
  assert (all_nodes g1 ≡ₚ n :: all_nodes g) as Hperm by (apply all_nodes_admit; [apply Hok|done..]).
  assert (∀ i, get g1 i = if decide (i = node_id n) then Some n else get g i) as Hget1 by done.
  destruct (admit_caches g arr n Hok b) as (Hca&Hcc&Hcl&Hcb).
  split; unfold store_keyed; try done.
  - by rewrite fmap_app, Hperm, <-(ok_arrival _ _ Hok), Permutation_app_comm.
  - rewrite fmap_app. constructor; [apply Hok|]. intros p [m Hm]%Hpar. rewrite <-(ok_keyed _ _ Hok p m Hm).
    apply list_elem_of_fmap_2. rewrite (ok_arrival _ _ Hok). apply elem_of_all_nodes. eauto.
  - intros i m. rewrite Hget1. case_decide; [naive_solver|by apply Hok].
  - intros i m. rewrite Hget1. case_decide; [naive_solver|by apply Hok].
  - intros i m p. rewrite !Hget1. intros Hm Hp. destruct (decide (p = node_id n)); [eauto|].
    destruct (decide (i = node_id n)); simplify_eq; [by apply Hpar|by eapply ok_parents].
  - intros i. by eapply (admit_leaves g arr n g1).
  - intros i. by eapply (admit_covered g arr n g1).
  - apply advance_wf, Hok.
  - intros i. unfold g1; cbn [g_frontier g_leaves]. rewrite elem_of_advance, (ok_frontier _ _ Hok). set_solver.
  - intros i m. rewrite Hget1. unfold g1; simpl. case_decide.
    + intros [= <-]. lia.
    + intros Hi%(ok_lamport _ _ Hok). lia.
  - pose proof (ok_clock _ _ Hok) as Hck. unfold g1; simpl. destruct Hty as [Hty _]. unfold is_u64 in *. lia.
  - rewrite fmap_app, Forall_app. split; [apply Hok|]. by apply Forall_singleton.
  - intros nb Hnb. by eapply (admit_flags g arr n).
  - intros i. rewrite Hget1. unfold g1; simpl. pose proof (ok_local _ _ Hok i) as Hl. destruct b; intros Hi.
    + case_decide; [eauto|auto].
    + apply elem_of_union in Hi as [->%elem_of_singleton|Hi];
        [rewrite decide_True by done; eauto|case_decide; [eauto|auto]].
Qed.
End facts.
