(* ===== verification/GraphOps.v ===== *)
(** Admission: when an operation of the graph accepts a node, what a refusal
    leaves behind, and that every reachable graph keeps the invariant. *)

From S2P Require Import Prelude Op Node Policy Frontier Storage Lww ListCrdt Conflicts Caches.
From S2P Require Import CacheFacts TextState Graph GraphFacts.

(** ** The checks as propositions *)

(** Every operation is permitted, or the node carries the snapshot marker. *)
Definition policy_permits (p : Policy) (n : SyncNode) : Prop :=
  is_snapshot_node n = true ∨
  ∀ o, o ∈ node_ops n → can_write p (policy_key o) (tx_author (node_tx n)) = true.

Definition lamport_ok (clock : Z) (n : SyncNode) : Prop :=
  node_lamport n <= Z.min (clock + LAMPORT_SLACK) u64_max.

Definition wall_ok (now : option Z) (n : SyncNode) : Prop :=
  match now with
  | None => True
  | Some now => tx_wall_ms (node_tx n) = 0 ∨
                tx_wall_ms (node_tx n) <= Z.min (now + WALL_SKEW_MAX_MS) u64_max
  end.

Lemma check_policy_ops_ok p a os :
  check_policy_ops p a os = Ok tt ↔ ∀ o, o ∈ os → can_write p (policy_key o) a = true.
Proof.
  induction os as [|o os IH]; simpl; [split; [set_solver|done]|].
  destruct (can_write p (policy_key o) a) eqn:E.
  - rewrite IH. set_solver.
  - split; [done|]. intros Ho. rewrite Ho in E; [done|set_solver].
Qed.

Lemma check_policy_ok p n : check_policy p n = Ok tt ↔ policy_permits p n.
Proof.
  unfold check_policy, policy_permits. destruct (is_snapshot_node n); [split; auto|].
  rewrite check_policy_ops_ok. naive_solver.
Qed.

Lemma check_lamport_ceiling_ok c n : check_lamport_ceiling c n = Ok tt ↔ lamport_ok c n.
Proof.
  unfold check_lamport_ceiling, lamport_ok, sat_add64.
  destruct (Z.ltb_spec (Z.min (c + LAMPORT_SLACK) u64_max) (node_lamport n)).
  - split; [done|]. intros. exfalso. lia.
  - split; [intros _; lia|done].
Qed.

Lemma check_wall_ok now n :
  from_option (λ now, check_wall_skew now n) (Ok tt) now = Ok tt ↔ wall_ok now n.
Proof.
  destruct now as [now|]; [|done]. simpl. unfold check_wall_skew, sat_add64.
  destruct (Z.eqb_spec (tx_wall_ms (node_tx n)) 0); [naive_solver|].
  destruct (Z.ltb_spec (Z.min (now + WALL_SKEW_MAX_MS) u64_max) (tx_wall_ms (node_tx n))).
  - split; [done|]. intros. exfalso. lia.
  - split; [|done]. by right.
Qed.

Section ops.
Context `{Blake3, Postcard Transaction, Ed25519}.
Context {N : Type} `{NodeStoreLaws N} {T : Type} `{TextProjectionOps T}.
Implicit Types (g : StateGraph N T) (arr : arrival).

Abbreviation get g := (ns_get (g_nodes g)).

(** What the tail of the admission path requires. *)
Definition admissible g (n : SyncNode) : Prop :=
  (∀ p, p ∈ node_parents n → is_Some (get g p)) ∧ policy_permits (g_policy g) n ∧
  get g (node_id n) = None.

(** What a remote node must satisfy. *)
Definition remote_ok g (n : SyncNode) (now : option Z) : Prop :=
  tx_hash (node_tx n) = node_id n ∧ lamport_ok (g_lamport g) n ∧ wall_ok now n ∧
  (node_id n ∈ g_verified g ∨ verify_signature n = Ok tt) ∧ admissible g n.

Lemma check_parents_ok (s : N) ps :
  check_parents s ps = Ok tt ↔ ∀ p, p ∈ ps → is_Some (ns_get s p).
Proof.
  induction ps as [|p ps IH]; simpl; [split; [set_solver|done]|].
  destruct (ns_contains s p) eqn:E.
  - apply ns_contains_true in E. rewrite IH. set_solver.
  - apply ns_contains_false in E. split; [done|]. intros Hp.
    destruct (Hp p) as [? ?]; [set_solver|congruence].
Qed.

(** Refusals change nothing but the set of verified ids. *)
Definition unchanged g g' (id : NodeId) : Prop :=
  g' = g ∨ g' = mark_verified g id.

Context `{!NodeStoreInfallible N}.

Lemma insert_node_new g n :
  get g (node_id n) = None → ∃ s, insert_node g n =
    (mkGraph s ({[node_id n]} ∪ (g_leaves g ∖ list_to_set (node_parents n)))
       (Z.max (g_lamport g) (node_lamport n)) (g_policy g) (advance (g_frontier g) n)
       (g_local_ids g) (g_verified g) (g_local_signing g) (g_text g) (g_caches g), Ok tt) ∧
    ∀ i, ns_get s i = if decide (i = node_id n) then Some n else get g i.
Proof.
  intros Hn. unfold insert_node. rewrite (proj2 (ns_contains_false _ _) Hn).
  destruct (ns_put_ok (g_nodes g) n) as [s Hs]. rewrite Hs. exists s.
  split; [|intros i; by apply ns_get_put]. do 2 f_equal.
  destruct (Z.ltb_spec (g_lamport g) (node_lamport n)); lia.
Qed.

Lemma insert_node_dup g n :
  is_Some (get g (node_id n)) → insert_node g n = (g, Err (DuplicateNode (node_id n))).
Proof. intros Hn. unfold insert_node. by rewrite (proj2 (ns_contains_true _ _) Hn). Qed.

(** The shared tail: accepted exactly when admissible. *)
Lemma verified_no_projection_spec g n :
  let '(g', r) := apply_remote_verified_no_projection g n in
  match r with
  | Ok _ => admissible g n ∧ admitted g n true g' ∧ g_policy g' = g_policy g
  | Err _ => ¬ admissible g n ∧ g' = g
  end.
Proof.
  unfold apply_remote_verified_no_projection, admissible.
  pose proof (check_parents_ok (g_nodes g) (node_parents n)) as Hp.
  destruct (check_parents _ _) as [[]|e]; [|split; [|done]; intros [Hq%Hp _]; done].
  pose proof (check_policy_ok (g_policy g) n) as Hq.
  destruct (check_policy _ _) as [[]|e]; [|split; [|done]; intros (_&Hr%Hq&_); done].
  destruct (get g (node_id n)) as [m|] eqn:E.
  - rewrite insert_node_dup by eauto. split; [|done]. by intros (_&_&?).
  - destruct (insert_node_new g n E) as (s&->&Hs). simpl. split; [naive_solver|].
    split; [|done]. split; [|split; [done|exact Hs]].
    by split.
Qed.

Lemma admitted_text g n b g' t : admitted g n b g' → admitted g n b (with_text g' t).
Proof. intros [[] [Hn Hg]]. by split; [split|]. Qed.

Lemma admitted_marked g n b g' i : admitted (mark_verified g i) n b g' → admitted g n b g'.
Proof. intros [[] [Hn Hg]]. by split; [split|]. Qed.

Lemma verified_spec g n :
  let '(g', r) := apply_remote_verified g n in
  match r with
  | Ok _ => admissible g n ∧ admitted g n true g' ∧ g_policy g' = g_policy g
  | Err _ => ¬ admissible g n ∧ g' = g
  end.
Proof.
  unfold apply_remote_verified. pose proof (verified_no_projection_spec g n) as Hs.
  destruct (apply_remote_verified_no_projection g n) as [g' [[]|e]]; [|done].
  destruct Hs as (Ha&Hb&Hc). split; [done|]. split; [by apply admitted_text|done].
Qed.

(** A remote node is accepted exactly when it passes every check; a refusal
    changes at most the set of verified ids. *)
Lemma apply_remote_checked_spec g n now :
  let '(g', r) := apply_remote_checked g n now in
  match r with
  | Ok _ => remote_ok g n now ∧ admitted g n true g' ∧ g_policy g' = g_policy g
  | Err _ => ¬ remote_ok g n now ∧ unchanged g g' (node_id n)
  end.
Proof.
  unfold apply_remote_checked, remote_ok, unchanged.
  case_decide as Hh; [split; [naive_solver|by left]|].
  pose proof (check_lamport_ceiling_ok (g_lamport g) n) as Hl.
  destruct (check_lamport_ceiling _ _) as [[]|e]; [|split; [|by left]; intros (_&?%Hl&_); done].
  pose proof (check_wall_ok now n) as Hw.
  destruct (from_option _ _ now) as [[]|e]; [|split; [|by left]; intros (_&_&?%Hw&_); done].
  assert (lamport_ok (g_lamport g) n) by by apply Hl. assert (wall_ok now n) by by apply Hw.
  case_decide as Hv.
  - pose proof (verified_spec g n) as Hs. destruct (apply_remote_verified g n) as [g' [[]|e]].
    + destruct Hs as (?&?&?). split; [|done]. split_and!; auto.
    + destruct Hs as [Hn ->]. split; [|by left]. naive_solver.
  - destruct (verify_signature n) as [[]|e] eqn:Ev; [|split; [naive_solver|by left]].
    pose proof (verified_spec (mark_verified g (node_id n)) n) as Hs.
    destruct (apply_remote_verified _ n) as [g' [[]|e]].
    + destruct Hs as (?&?&?). split; [split_and!; auto|]. split; [by eapply admitted_marked|done].
    + destruct Hs as [Hn ->]. split; [|by right]. intros (_&_&_&_&Ha). by apply Hn.
Qed.

(** A node that passes every check of its own fails only for a missing
    parent or as a duplicate. *)
Lemma check_parents_err (s : N) ps e :
  check_parents s ps = Err e → ∃ p, e = MissingParent p ∧ p ∈ ps ∧ ns_get s p = None.
Proof.
  induction ps as [|p ps IH]; simpl; [done|]. destruct (ns_contains s p) eqn:E.
  - intros (q&->&Hq&Hn)%IH. exists q. set_solver.
  - intros [= <-]. exists p. apply ns_contains_false in E. set_solver.
Qed.

Lemma apply_remote_valid g n now :
  tx_hash (node_tx n) = node_id n → lamport_ok (g_lamport g) n → wall_ok now n →
  verify_signature n = Ok tt → policy_permits (g_policy g) n →
  (apply_remote_checked g n now).2 =
    match check_parents (g_nodes g) (node_parents n) with
    | Err e => Err e
    | Ok _ => if decide (is_Some (get g (node_id n))) then Err (DuplicateNode (node_id n)) else Ok tt
    end.
Proof.
  intros Hh Hl%check_lamport_ceiling_ok Hw%check_wall_ok Hv Hp%check_policy_ok.
  unfold apply_remote_checked. rewrite decide_False by auto. rewrite Hl, Hw, Hv.
  assert (∀ g', g_nodes g' = g_nodes g → g_policy g' = g_policy g →
    (apply_remote_verified g' n).2 =
      match check_parents (g_nodes g) (node_parents n) with
      | Err e => Err e
      | Ok _ => if decide (is_Some (get g (node_id n))) then Err (DuplicateNode (node_id n)) else Ok tt
      end) as Hall; [|destruct (decide (node_id n ∈ g_verified g)); by apply Hall].
  intros g' En Ep. unfold apply_remote_verified, apply_remote_verified_no_projection.
  rewrite En, Ep, Hp. destruct (check_parents _ _); [|done]. destruct (get g (node_id n)) eqn:E.
  - rewrite insert_node_dup by (rewrite En, E; eauto). by rewrite decide_True by eauto.
  - destruct (insert_node_new g' n) as (s&->&_); [by rewrite En|].
    rewrite decide_False; [done|]. by intros [? ?].
Qed.

(** ** Preservation *)

Definition ok g : Prop := ∃ arr, graph_ok g arr.

Lemma ok_same_core g g' : same_core g g' → ok g → ok g'.
Proof. intros Hs [arr Ha]. exists arr. by eapply graph_ok_core. Qed.

Lemma ok_admit g n b g' :
  ok g → admitted g n b g' → tx_hash (node_tx n) = node_id n →
  (∀ p, p ∈ node_parents n → is_Some (get g p)) → prio_typed n → ok g'.
Proof. intros [arr Ha] Had Hh Hp Ht. exists (arr ++ [(n, b)]). by apply admit_ok with g. Qed.

Ltac core Hok := eapply ok_same_core; [|exact Hok]; by split.

Lemma ok_text g t : ok g → ok (with_text g t).
Proof. intros Hok. core Hok. Qed.
Lemma ok_mark g i : ok g → ok (mark_verified g i).
Proof. intros Hok. core Hok. Qed.
Lemma ok_policy g p : ok g → ok (set_policy g p).
Proof. intros Hok. core Hok. Qed.
Lemma ok_signing g b : ok g → ok (set_local_signing g b).
Proof. intros Hok. core Hok. Qed.
Lemma ok_stream g b : ok g → ok (set_conflict_stream_enabled g b).
Proof.
  intros Hok. unfold set_conflict_stream_enabled, caches_set_stream. case_tests; core Hok.
Qed.
Lemma ok_drain g : ok g → ok (drain_pending_conflicts g).1.
Proof. intros Hok. core Hok. Qed.

Lemma ok_remote g n now : ok g → prio_typed n → ok (apply_remote_checked g n now).1.
Proof.
  intros Hok Ht. pose proof (apply_remote_checked_spec g n now) as Hs.
  destruct (apply_remote_checked g n now) as [g' [[]|e]]; simpl.
  - destruct Hs as ((Hh&_&_&_&Hp&_)&Ha&_). by eapply ok_admit.
  - destruct Hs as [_ [->| ->]]; [done|by apply ok_mark].
Qed.

(** The node a local write makes. *)
Definition local_node g (sk : SigningKey) (wall : Z) (os : list Op) : SyncNode :=
  let tx := mkTx (ed_verifying_key sk) (wrap_add64 (g_lamport g) 1) wall os (elements (g_leaves g)) in
  if g_local_signing g then node_new_signed tx sk else node_new tx.

Lemma local_node_tx g sk wall os :
  node_tx (local_node g sk wall os) =
    mkTx (ed_verifying_key sk) (wrap_add64 (g_lamport g) 1) wall os (elements (g_leaves g)).
Proof. unfold local_node. by case_tests. Qed.
Lemma local_node_hash g sk wall os :
  tx_hash (node_tx (local_node g sk wall os)) = node_id (local_node g sk wall os).
Proof. unfold local_node. by case_tests. Qed.

Lemma wrap_succ l : is_u64 l → l < u64_max → wrap_add64 l 1 = l + 1.
Proof. unfold is_u64, wrap_add64, u64_max. intros. rewrite Z.mod_small; lia. Qed.

Lemma local_node_parents g sk wall os p :
  ok g → p ∈ node_parents (local_node g sk wall os) → is_Some (get g p).
Proof.
  intros [arr []]. unfold node_parents. rewrite local_node_tx. simpl.
  rewrite elem_of_elements. by intros [? _]%ok_leaves.
Qed.

Lemma extra_insert_ids_nonneg os : 0 <= extra_insert_ids os.
Proof.
  unfold extra_insert_ids. induction os as [|o os IH]; simpl; [lia|].
  apply Z.add_nonneg_nonneg; [|exact IH]. destruct o as [| |[]]; unfold sat_sub; lia.
Qed.

Lemma apply_local_spec g sk wall os :
  ok g → g_lamport g < u64_max →
  let n := local_node g sk wall os in
  let '(g', r) := apply_local g sk wall os in
  match r with
  | Ok id => id = node_id n ∧ admitted g n false g'
  | Err e => e = DuplicateNode (node_id n) ∧ is_Some (get g (node_id n)) ∧
             ∃ l, g' = with_lamport g l ∧ g_lamport g <= l <= u64_max
  end.
Proof.
  intros Hok Hlt n. pose proof (extra_insert_ids_nonneg os) as He.
  assert (is_u64 (g_lamport g)) as Hu by (by destruct Hok as [? []]).
  pose proof (wrap_succ _ Hu Hlt) as Hw.
  unfold apply_local. set (g0 := with_lamport g _).
  change (if g_local_signing g0 then _ else _) with n. unfold is_u64 in Hu.
  destruct (get g (node_id n)) as [m|] eqn:E.
  - rewrite insert_node_dup by (simpl; eauto). split; [done|]. split; [eauto|].
    exists (g_lamport g0). split; [done|]. simpl. rewrite Hw. unfold sat_add64. lia.
  - destruct (insert_node_new g0 n E) as (s&->&Hs). simpl. split; [done|].
    split; [|split; [done|exact Hs]].
    assert (node_lamport n = g_lamport g + 1) as Hln.
    { unfold node_lamport, n. rewrite local_node_tx. done. }
    rewrite Hw, Hln. split; simpl; try done. unfold sat_add64, is_u64, u64_max in *. lia.
Qed.

Lemma ok_local g sk wall os `{!Ed25519Laws} :
  ok g → g_lamport g < u64_max → ok (apply_local g sk wall os).1.
Proof.
  intros Hok Hlt. pose proof (apply_local_spec g sk wall os Hok Hlt) as Hs. cbv zeta in Hs.
  assert (is_u64 (g_lamport g)) as Hu by (by destruct Hok as [? []]).
  destruct (apply_local g sk wall os) as [g' [id|e]]; simpl.
  - destruct Hs as [_ Ha]. eapply ok_admit; [done|done|apply local_node_hash| |].
    + intros p. by apply local_node_parents.
    + unfold prio_typed, node_lamport. rewrite local_node_tx; simpl.
      rewrite wrap_succ by done. split; [unfold is_u64, u64_max in *; lia|apply ed_vk_length].
  - destruct Hs as (_&_&l&->&Hl). eapply ok_same_core; [|done]. split; try done. simpl. unfold is_u64, u64_max in *. lia.
Qed.
End ops.
