(* ===== verification/GraphBatch.v ===== *)
(** Batched ingestion: chunked signature verification agrees with verifying
    each node alone, and a batch sorts every unseen id into exactly one
    outcome while keeping the invariant of the graph. *)

From S2P Require Import Prelude Op Node Policy Frontier Storage Lww FracIdx ListCrdt Conflicts Caches CacheFacts TextState Graph.
From S2P Require Import GraphFacts GraphOps.


(** ** Chunks and scattered writes *)

Lemma concat_chunks_of {A} (k : nat) (l : list A) fuel :
  (0 < k)%nat → (length l <= fuel)%nat → concat (chunks_of fuel k l) = l.
Proof.
  intros Hk. revert l. induction fuel as [|f IH]; intros l Hl; simpl.
  - by destruct l; simpl in *; [|lia].
  - destruct l as [|x l]; [done|]. cbn [concat]. rewrite IH; [apply take_drop|].
    rewrite length_drop. simpl in *. lia.
Qed.

(** Writing agreeing values at scattered indices. *)
Lemma foldl_insert_lookup {A} (ws : list (nat * A)) (v : nat → A) (l : list A) i :
  (∀ j x, (j, x) ∈ ws → x = v j) →
  foldl (λ r w, <[w.1 := w.2]> r) l ws !! i =
    if decide (i ∈ ws.*1) then const (v i) <$> l !! i else l !! i.
Proof.
  revert l. induction ws as [|[j x] ws IH]; intros l Hv; [done|].
  cbn [foldl fst snd]. rewrite IH by (intros; apply Hv; set_solver).
  assert (x = v j) as -> by (apply Hv; set_solver).
  destruct (decide (i = j)) as [->|Hij].
  - rewrite (decide_True (P := j ∈ ((j, v j) :: ws).*1)) by set_solver.
    assert (<[j := v j]> l !! j = const (v j) <$> l !! j) as ->.
    { destruct (l !! j) eqn:E; simpl; [|by rewrite list_lookup_insert_None].
      apply list_lookup_insert_eq. by eapply lookup_lt_Some. }
    case_decide; [|done]. by destruct (l !! j).
  - rewrite list_lookup_insert_ne by done.
    destruct (decide (i ∈ ws.*1)); [rewrite decide_True by set_solver; done|].
    rewrite decide_False by set_solver. done.
Qed.

Lemma elem_of_imap_pair {A} (l : list A) i x : (i, x) ∈ imap pair l ↔ l !! i = Some x.
Proof.
  rewrite list_elem_of_lookup. setoid_rewrite list_lookup_imap. split.
  - intros [j Hj]. destruct (l !! j) eqn:E; simpl in Hj; by simplify_eq.
  - intros E. exists i. by rewrite E.
Qed.

Section batch.
Context `{Blake3, Postcard Transaction, Ed25519}.
Context {N : Type} `{NodeStoreLaws N} {T : Type} `{TextProjectionOps T}.
Implicit Types (g : StateGraph N T) (arr : arrival).

Abbreviation get g := (ns_get (g_nodes g)).

(** ** Verification *)

Lemma verify_signature_nonzero n :
  sig_is_zero (node_sig n) = false →
  is_ok (verify_signature n) =
    ed_vk_ok (tx_author (node_tx n)) && ed_verify (tx_author (node_tx n)) (node_id n) (node_sig n).
Proof. intros Hz. unfold verify_signature. rewrite Hz. by repeat case_match. Qed.

Lemma elem_of_verify_chunk `{!Ed25519BatchLaws} ns idx j b :
  (∀ i n, i ∈ idx → ns !! i = Some n → sig_is_zero (node_sig n) = false) →
  (j, b) ∈ verify_chunk ns idx ↔
  j ∈ idx ∧ ∃ n, ns !! j = Some n ∧ b = is_ok (verify_signature n).
Proof.
  intros Hnz. unfold verify_chunk.
  set (sel := omap _ idx). set (good := filter _ sel). set (bad := filter _ sel).
  assert (∀ i n, (i, n) ∈ sel ↔ i ∈ idx ∧ ns !! i = Some n) as Hsel.
  { intros i n. unfold sel. rewrite list_elem_of_omap. split.
    - intros (x&Hx&E). destruct (ns !! x) eqn:Ex; simpl in E; by simplify_eq.
    - intros [Hi E]. exists i. by rewrite E. }
  assert (∀ i n, (i, n) ∈ bad → is_ok (verify_signature n) = false) as Hbad.
  { intros i n [Hk Hin]%list_elem_of_filter. simpl in Hk. apply Hsel in Hin as [Hi Hn].
    by rewrite verify_signature_nonzero, Hk by by eapply Hnz. }
  assert (∀ i n, (i, n) ∈ sel ↔ (i, n) ∈ bad ∨ (i, n) ∈ good) as Hsplit.
  { intros i n. unfold bad, good. rewrite !list_elem_of_filter. simpl.
    destruct (ed_vk_ok _); naive_solver. }
  transitivity (∃ n, (j, n) ∈ sel ∧ b = is_ok (verify_signature n));
    [|setoid_rewrite Hsel; naive_solver].
  setoid_rewrite Hsplit.
  assert ((j, b) ∈ ((λ i_n : nat * SyncNode, (i_n.1, false)) <$> bad) ↔
          ∃ n, (j, n) ∈ bad ∧ b = is_ok (verify_signature n)) as Hb.
  { rewrite list_elem_of_fmap. split.
    - intros ([i n]&[= -> ->]&Hin). exists n. by rewrite (Hbad _ _ Hin).
    - intros (n&Hin&->). exists (j, n). by rewrite (Hbad _ _ Hin). }
  case_decide as Hg; [rewrite Hg, Hb; set_solver|].
  destruct (ed_verify_batch _) eqn:Ev; rewrite elem_of_app, Hb, list_elem_of_fmap; clear Hb.
  - assert (∀ i n, (i, n) ∈ good → is_ok (verify_signature n) = true) as Hgood.
    { intros i n Hin. pose proof Hin as [Hk Hs]%list_elem_of_filter. simpl in Hk.
      apply Hsel in Hs as [Hi Hn]. rewrite verify_signature_nonzero, Hk by by eapply Hnz.
      eapply ed_verify_batch_sound; [exact Ev|]. apply list_elem_of_fmap. by exists (i, n). }
    split; [intros [?|([i n]&[= -> ->]&Hin)]|intros (n&[?|Hin]&->)].
    + naive_solver.
    + exists n. rewrite (Hgood _ _ Hin). auto.
    + naive_solver.
    + right. exists (j, n). by rewrite (Hgood _ _ Hin).
  - split; [intros [?|([i n]&[= -> ->]&Hin)]|intros (n&[?|Hin]&->)]; [naive_solver..|].
    right. by exists (j, n).
Qed.

Lemma verify_nodes_batched_lookup `{!Ed25519BatchLaws} g ns i n :
  ns !! i = Some n →
  verify_nodes_batched g ns !! i =
    Some (bool_decide (node_id n ∈ g_verified g) || is_ok (verify_signature n)).
Proof.
  intros Hn. unfold verify_nodes_batched. set (need := omap _ _).
  assert (∀ j, j ∈ need ↔ ∃ m, ns !! j = Some m ∧ needs_verify g m = true) as Hneed.
  { intros j. unfold need. rewrite list_elem_of_omap. split.
    - intros ([k m]&Hk&E). simpl in E. destruct (needs_verify g m) eqn:Em; simplify_eq.
      apply elem_of_imap_pair in Hk. eauto.
    - intros (m&Hm&E). exists (j, m). rewrite elem_of_imap_pair. simpl. by rewrite E. }
  set (chunks := chunks_of _ _ need).
  assert (concat chunks = need) as Hcc by (apply concat_chunks_of; unfold BATCH_VERIFY_CHUNK; lia).
  assert (∀ j b, (j, b) ∈ concat (verify_chunk ns <$> chunks) ↔
            j ∈ need ∧ ∃ m, ns !! j = Some m ∧ b = is_ok (verify_signature m)) as Hws.
  { intros j b. rewrite elem_of_concat. setoid_rewrite list_elem_of_fmap.
    assert (∀ c, c ∈ chunks → ∀ i n, i ∈ c → ns !! i = Some n →
              sig_is_zero (node_sig n) = false) as Hnz.
    { intros c Hc k m Hk Hm. assert (k ∈ need) as (m'&Hm'&Hv)%Hneed.
      { rewrite <-Hcc, elem_of_concat. eauto. }
      simplify_eq. unfold needs_verify in Hv. by destruct (sig_is_zero _). }
    split.
    - intros (l&Hjb&c&->&Hc). apply elem_of_verify_chunk in Hjb as [Hj Hm]; [|by apply Hnz].
      split; [|done]. rewrite <-Hcc, elem_of_concat. eauto.
    - intros [Hj Hm]. rewrite <-Hcc, elem_of_concat in Hj. destruct Hj as (c&Hj&Hc).
      exists (verify_chunk ns c). split; [|eauto]. by apply elem_of_verify_chunk; [apply Hnz|]. }
  rewrite (foldl_insert_lookup _ (λ j, from_option (λ m, is_ok (verify_signature m)) true (ns !! j)));
    [|by intros j x (_&m&->&->)%Hws].
  rewrite lookup_replicate_2 by by eapply lookup_lt_Some. rewrite Hn. simpl.
  assert (i ∈ (concat (verify_chunk ns <$> chunks)).*1 ↔ i ∈ need) as Hin.
  { rewrite list_elem_of_fmap. split; [by intros ([j b]&->&[??]%Hws)|].
    intros Hi. exists (i, is_ok (verify_signature n)). split; [done|]. apply Hws. eauto. }
  assert (needs_verify g n = true ↔ i ∈ need) as Hnv by (rewrite Hneed; naive_solver).
  unfold needs_verify in Hnv. unfold verify_signature.
  destruct (sig_is_zero (node_sig n)) eqn:Ez; simpl in *.
  - rewrite orb_true_r. by case_decide.
  - destruct (decide (i ∈ (concat (verify_chunk ns <$> chunks)).*1)) as [Hd|Hd].
    + apply Hin, Hnv, bool_decide_eq_true in Hd. by rewrite bool_decide_eq_false_2 by auto.
    + rewrite bool_decide_eq_true_2; [done|]. apply dec_stable. intros Hv.
      apply Hd, Hin, Hnv. by apply bool_decide_eq_true.
Qed.

Lemma verify_nodes_batched_length g ns : length (verify_nodes_batched g ns) = length ns.
Proof.
  unfold verify_nodes_batched. generalize (replicate (length ns) true) (length_replicate (length ns) true).
  generalize (concat (verify_chunk ns <$> chunks_of
    (length (omap (λ i_n, if needs_verify g i_n.2 then Some i_n.1 else None) (imap pair ns)))
    BATCH_VERIFY_CHUNK (omap (λ i_n, if needs_verify g i_n.2 then Some i_n.1 else None) (imap pair ns)))).
  intros ws. induction ws as [|w ws IH]; intros l Hl; simpl; [done|].
  apply IH. by rewrite length_insert.
Qed.

(** ** Admission of a batch *)

(** What steps 1 and 2 establish after a prefix of the batch. *)
Record admit_inv g (now : option Z) (ns : list SyncNode)
    (s : list SyncNode * list (NodeId * SyncError) * gset NodeId) : Prop := {
  ai_seen : ∀ i, i ∈ s.2 ↔ i ∈ node_id <$> ns;
  ai_NoDup : NoDup (s.1.2.*1 ++ (node_id <$> s.1.1));
  ai_sorted : ∀ i, i ∈ s.1.2.*1 ++ (node_id <$> s.1.1) ↔ i ∈ s.2 ∧ get g i = None;
  ai_checked : ∀ n, n ∈ s.1.1 → n ∈ ns ∧
    tx_hash (node_tx n) = node_id n ∧ lamport_ok (g_lamport g) n ∧ wall_ok now n;
}.

Lemma admit_inv_nil g now : admit_inv g now [] ([], [], ∅).
Proof. split; simpl; [set_solver|constructor|set_solver|set_solver]. Qed.

Lemma admit_inv_skip g now ns n tv rej seen :
  admit_inv g now ns (tv, rej, seen) → node_id n ∈ seen ∨ is_Some (get g (node_id n)) →
  admit_inv g now (ns ++ [n]) (tv, rej, {[node_id n]} ∪ seen).
Proof.
  intros [Hs Hn Hp Hc] Hor. simpl in *. split; simpl.
  - intros i. rewrite fmap_app, elem_of_app, <-Hs. set_solver.
  - done.
  - intros i. rewrite Hp, elem_of_union, elem_of_singleton. split; [naive_solver|].
    intros [[->|?] Hg]; [|done]. split; [|done]. destruct Hor as [?|[? E]]; [done|congruence].
  - intros m Hm. destruct (Hc m Hm). split; [set_solver|done].
Qed.

Lemma admit_inv_reject g now ns n tv rej seen e :
  admit_inv g now ns (tv, rej, seen) → node_id n ∉ seen → get g (node_id n) = None →
  admit_inv g now (ns ++ [n]) (tv, rej ++ [(node_id n, e)], {[node_id n]} ∪ seen).
Proof.
  intros [Hs Hn Hp Hc] Hnew Hg. simpl in *.
  assert ((rej ++ [(node_id n, e)]).*1 ++ (node_id <$> tv) ≡ₚ
          node_id n :: rej.*1 ++ (node_id <$> tv)) as E.
  { rewrite fmap_app, <-app_assoc. simpl. by rewrite Permutation_middle. }
  split; simpl.
  - intros i. rewrite fmap_app, elem_of_app, <-Hs. set_solver.
  - rewrite E. constructor; [|done]. rewrite Hp. naive_solver.
  - intros i. rewrite E, elem_of_cons, Hp. set_solver.
  - intros m Hm. destruct (Hc m Hm). split; [set_solver|done].
Qed.

Lemma admit_inv_keep g now ns n tv rej seen :
  admit_inv g now ns (tv, rej, seen) → node_id n ∉ seen → get g (node_id n) = None →
  tx_hash (node_tx n) = node_id n → lamport_ok (g_lamport g) n → wall_ok now n →
  admit_inv g now (ns ++ [n]) (tv ++ [n], rej, {[node_id n]} ∪ seen).
Proof.
  intros [Hs Hn Hp Hc] Hnew Hg Hh Hl Hw. simpl in *.
  assert (rej.*1 ++ (node_id <$> (tv ++ [n])) ≡ₚ node_id n :: rej.*1 ++ (node_id <$> tv)) as E.
  { rewrite fmap_app. simpl. by rewrite !app_assoc, <-Permutation_cons_append. }
  split; simpl.
  - intros i. rewrite fmap_app, elem_of_app, <-Hs. set_solver.
  - rewrite E. constructor; [|done]. rewrite Hp. naive_solver.
  - intros i. rewrite E, elem_of_cons, Hp. set_solver.
  - intros m [Hm|Hm]%elem_of_app; [destruct (Hc m Hm); split; [set_solver|done]|].
    apply list_elem_of_singleton in Hm as ->. split; [set_solver|done].
Qed.

Lemma admit_inv_step g now ns n s :
  admit_inv g now ns s → admit_inv g now (ns ++ [n]) (batch_admit g now s n).
Proof.
  destruct s as [[tv rej] seen]. intros Hi. unfold batch_admit. case_decide as Hd.
  { replace seen with ({[node_id n]} ∪ seen) by set_solver. by apply admit_inv_skip; [|left]. }
  destruct (ns_contains _ _) eqn:Ec.
  { apply admit_inv_skip; [done|]. right. by apply ns_contains_true. }
  apply ns_contains_false in Ec. case_decide as Hh; [by apply admit_inv_reject|].
  destruct (check_lamport_ceiling _ _) as [[]|] eqn:El; [|by apply admit_inv_reject].
  destruct (from_option _ _ now) as [[]|] eqn:Ew; [|by apply admit_inv_reject].
  apply admit_inv_keep; try done; [by apply check_lamport_ceiling_ok|by apply check_wall_ok].
Qed.

Lemma admit_inv_all g now ns : admit_inv g now ns (foldl (batch_admit g now) ([], [], ∅) ns).
Proof.
  induction ns as [|n ns IH] using rev_ind; [apply admit_inv_nil|].
  rewrite foldl_app. by apply admit_inv_step.
Qed.

Context `{!NodeStoreInfallible N}.

(** What step 4 establishes after a prefix of the verified nodes. *)
Record apply_inv g (rej : list NodeId) (vs : list (SyncNode * bool))
    (s : StateGraph N T * BatchResult * list SyncNode) : Prop := {
  pi_policy : g_policy s.1.1 = g_policy g;
  pi_perm : batch_accepted s.1.2 ++ (batch_rejected s.1.2).*1 ≡ₚ rej ++ (node_id <$> vs.*1);
  pi_stored : ∀ i, is_Some (get s.1.1 i) ↔ is_Some (get g i) ∨ i ∈ batch_accepted s.1.2;
  pi_accepted : ∀ i, i ∈ batch_accepted s.1.2 → ∃ n, (n, true) ∈ vs ∧ node_id n = i ∧
    get s.1.1 i = Some n ∧ policy_permits (g_policy g) n ∧
    ∀ p, p ∈ node_parents n → is_Some (get s.1.1 p);
}.

Lemma apply_inv_reject g rej vs n b g' acc rs an e v :
  apply_inv g rej vs (g', mkBatch acc rs, an) →
  apply_inv g rej (vs ++ [(n, b)])
    (with_ids g' (g_local_ids g') v, mkBatch acc (rs ++ [(node_id n, e)]), an).
Proof.
  intros [Hpo Hp Hs Ha]. simpl in *. split; simpl; [done| |done|].
  - rewrite !fmap_app, !app_assoc, Hp. simpl. by rewrite <-app_assoc.
  - intros i Hi. destruct (Ha i Hi) as (m&?&?). exists m. split; [set_solver|done].
Qed.

Lemma apply_inv_step g rej vs n b s :
  apply_inv g rej vs s → apply_inv g rej (vs ++ [(n, b)]) (batch_apply s (n, b)).
Proof.
  destruct s as [[g' [acc rs]] an]. intros Hi. unfold batch_apply.
  destruct b; simpl; [|].
  2:{ pose proof (apply_inv_reject _ _ _ n false _ _ _ _ (InvalidSignature (node_id n))
                    (g_verified g') Hi) as Hr. by destruct g'. }
  pose proof (verified_no_projection_spec (mark_verified g' (node_id n)) n) as Hs.
  destruct (apply_remote_verified_no_projection _ n) as [g2 [[]|e]].
  2:{ destruct Hs as [_ ->]. by apply apply_inv_reject. }
  destruct Hs as ((Hpar&Hpol&Hnew)&(_&_&Hget)&Hp2). simpl in *.
  destruct Hi as [Hpo Hp Hst Ha]. simpl in *. rewrite Hpo in *.
  assert (∀ i, is_Some (get g' i) → is_Some (get g2 i)) as Hmono.
  { intros i Hx. rewrite Hget. case_decide; [eauto|done]. }
  split; simpl; [done| | |].
  - rewrite !fmap_app. cbn [fmap list_fmap fst]. rewrite (app_assoc rej), <-Hp, <-!app_assoc.
    apply Permutation_app_head, Permutation_app_comm.
  - intros i. rewrite Hget, elem_of_app, list_elem_of_singleton. case_decide; [naive_solver|].
    rewrite Hst. naive_solver.
  - intros i [Hin|Hin]%elem_of_app; [|apply list_elem_of_singleton in Hin as ->].
    + destruct (Ha i Hin) as (m&Hm&Hid&Hg&Hpm&Hps). exists m. rewrite Hget.
      rewrite decide_False by congruence. split; [set_solver|]. split_and!; eauto.
    + exists n. rewrite Hget, decide_True by done. split; [set_solver|]. split_and!; eauto.
Qed.

Lemma apply_inv_all g rs vs :
  apply_inv g rs.*1 vs (foldl batch_apply (g, mkBatch [] rs, []) vs).
Proof.
  induction vs as [|[n b] vs IH] using rev_ind.
  - split; simpl; [done|by rewrite app_nil_r|set_solver|set_solver].
  - rewrite foldl_app. by apply apply_inv_step.
Qed.

(** Every id of a batch that is not stored yet is either accepted or rejected, once. *)
Lemma batch_sorts g ns now :
  let '(g', res) := apply_remote_batch_checked g ns now in
  NoDup (batch_accepted res ++ (batch_rejected res).*1) ∧
  (∀ i, i ∈ batch_accepted res ++ (batch_rejected res).*1 ↔
        i ∈ node_id <$> ns ∧ get g i = None) ∧
  (∀ i, is_Some (get g' i) ↔ is_Some (get g i) ∨ i ∈ batch_accepted res).
Proof.
  unfold apply_remote_batch_checked. pose proof (admit_inv_all g now ns) as [Hs Hn Hp _].
  destruct (foldl (batch_admit g now) _ ns) as [[tv rej] seen]. simpl in *.
  pose proof (apply_inv_all g rej (zip tv (verify_nodes_batched g tv))) as [_ Hperm Hst _].
  destruct (foldl batch_apply _ _) as [[g' res] an]. simpl in *.
  rewrite fst_zip in Hperm by (rewrite verify_nodes_batched_length; lia).
  rewrite Hperm. split; [done|]. split; [|done]. intros i. by rewrite Hperm, Hp, Hs.
Qed.

(** ** Preservation *)

Lemma ok_batch_apply (s : StateGraph N T * BatchResult * list SyncNode) n b :
  ok s.1.1 → prio_typed n → tx_hash (node_tx n) = node_id n → ok (batch_apply s (n, b)).1.1.
Proof.
  destruct s as [[g res] an]. intros Hok Ht Hh. unfold batch_apply. destruct b; simpl; [|done].
  pose proof (verified_no_projection_spec (mark_verified g (node_id n)) n) as Hs.
  destruct (apply_remote_verified_no_projection _ n) as [g2 [[]|e]]; simpl.
  - destruct Hs as ((Hpar&_)&Ha&_). by eapply ok_admit; [apply ok_mark|..].
  - destruct Hs as [_ ->]. by apply ok_mark.
Qed.

Lemma ok_batch g ns now :
  ok g → Forall prio_typed ns → ok (apply_remote_batch_checked g ns now).1.
Proof.
  intros Hok Hty. unfold apply_remote_batch_checked.
  pose proof (admit_inv_all g now ns) as [_ _ _ Hc].
  destruct (foldl (batch_admit g now) _ ns) as [[tv rej] seen]. simpl in Hc.
  set (vs := zip tv _).
  assert (∀ n b, (n, b) ∈ vs → n ∈ tv) as Hvs.
  { intros n b Hin. unfold vs in Hin. by apply elem_of_zip_l in Hin. }
  assert (ok (foldl batch_apply (g, mkBatch [] rej, []) vs).1.1) as Hk.
  { apply (foldl_inv (λ s : StateGraph N T * BatchResult * list SyncNode, ok s.1.1)); [done|]. intros s [n b] Hin Hs.
    apply Hvs, Hc in Hin as (Hin&Hh&_). apply ok_batch_apply; [done| |done].
    rewrite Forall_forall in Hty. by apply Hty. }
  destruct (foldl batch_apply _ vs) as [[g' res] an]. by apply ok_text.
Qed.
End batch.


Section reject.
Context `{Blake3, Postcard Transaction, Ed25519}.
Context {N : Type} `{NodeStoreLaws N} `{!NodeStoreInfallible N} {T : Type} `{TextProjectionOps T}.
Implicit Types (g : StateGraph N T) (n : SyncNode) (now : option Z).

Abbreviation get g := (ns_get (g_nodes g)).

(** The checks that do not look at the stored nodes. *)
Record clean now (clock : Z) (p : Policy) n : Prop := {
  cl_hash : tx_hash (node_tx n) = node_id n;
  cl_lamport : lamport_ok clock n;
  cl_wall : wall_ok now n;
  cl_sig : verify_signature n = Ok tt;
  cl_policy : policy_permits p n;
}.
Definition unclean now g n : Prop := ¬ clean now (g_lamport g) (g_policy g) n.

(** The reason for a rejection, seen from the graph before the batch. *)
Definition due now g n (e : SyncError) : Prop :=
  match e with
  | MissingParent p => p ∈ node_parents n ∧ get g p = None
  | _ => unclean now g n
  end.
Definition due_in now g (ns : list SyncNode) (r : NodeId * SyncError) : Prop :=
  ∃ n, n ∈ ns ∧ node_id n = r.1 ∧ due now g n r.2.

Lemma due_weaken now g ns ns' r : ns ⊆ ns' → due_in now g ns r → due_in now g ns' r.
Proof. intros Hsub (n&Hn&?). exists n. split; [by apply Hsub|done]. Qed.

Lemma clean_later now clock clock' p n : clock <= clock' → clean now clock p n → clean now clock' p n.
Proof. intros Hle [? Hl ? ? ?]. split; [done| |done..]. unfold lamport_ok in *. lia. Qed.

Lemma lamport_error clock n e : check_lamport_ceiling clock n = Err e → ¬ lamport_ok clock n ∧ ∀ p, e ≠ MissingParent p.
Proof.
  intros E. split; [intros Hl%check_lamport_ceiling_ok; congruence|]. unfold check_lamport_ceiling in E. case_match; by simplify_eq.
Qed.
Lemma wall_error now n e :
  from_option (λ t, check_wall_skew t n) (Ok tt) now = Err e → ¬ wall_ok now n ∧ ∀ p, e ≠ MissingParent p.
Proof.
  intros E. split; [intros Hl%check_wall_ok; congruence|]. destruct now as [t|]; [|done]. cbn in E. unfold check_wall_skew in E.
  repeat case_match; by simplify_eq.
Qed.
Lemma policy_error p n e : check_policy p n = Err e → ¬ policy_permits p n ∧ ∀ q, e ≠ MissingParent q.
Proof.
  intros E. split; [intros Hl%check_policy_ok; congruence|]. unfold check_policy in E. case_match; [done|].
  induction (node_ops n) as [|o os IH]; cbn in E; [done|]. case_match; [by apply IH|by simplify_eq].
Qed.
Lemma parents_error (s : N) ps e : check_parents s ps = Err e → ∃ p, e = MissingParent p ∧ p ∈ ps ∧ ns_get s p = None.
Proof.
  induction ps as [|p ps IH]; cbn; [done|]. destruct (ns_contains s p) eqn:Ec.
  - intros (q&?&?&?)%IH. exists q. split; [done|]. split; [by right|done].
  - intros [= <-]. exists p. split; [done|]. split; [by left|by apply ns_contains_false].
Qed.
Lemma due_unclean now g n e : (∀ p, e ≠ MissingParent p) → unclean now g n → due now g n e.
Proof. intros Hne Hu. by destruct e; [done|destruct (Hne h)|..]. Qed.

(** Steps 1 and 2. *)
Lemma admit_due now g ns :
  ∀ r, r ∈ (foldl (batch_admit g now) ([], [], ∅) ns).1.2 → due_in now g ns r.
Proof.
  induction ns as [|n ns IH] using rev_ind; [by intros r ?%not_elem_of_nil|]. rewrite foldl_app. cbn [foldl].
  destruct (foldl (batch_admit g now) _ ns) as [[tv rej] seen]. cbn in IH.
  assert (∀ e, unclean now g n → (∀ p, e ≠ MissingParent p) → ∀ r, r ∈ rej ++ [(node_id n, e)] → due_in now g (ns ++ [n]) r) as Hnew.
  { intros e Hu Hne r [Hr|Hr%list_elem_of_singleton]%elem_of_app; [eapply due_weaken; [|by apply IH]; set_solver|].
    subst r. exists n. split; [set_solver|]. split; [done|]. by apply due_unclean. }
  assert (∀ r, r ∈ rej → due_in now g (ns ++ [n]) r) as Hold.
  { intros r Hr. eapply due_weaken; [|by apply IH]. set_solver. }
  unfold batch_admit. case_decide; [exact Hold|]. destruct (ns_contains _ _); [exact Hold|].
  case_decide as Hh; [apply Hnew; [|done]; by intros []|].
  destruct (check_lamport_ceiling _ _) as [[]|e] eqn:El; cycle 1.
  { apply lamport_error in El as [Hl Hne]. apply Hnew; [|done]. by intros []. }
  destruct (from_option _ _ now) as [[]|e] eqn:Ew; [exact Hold|].
  apply wall_error in Ew as [Hw Hne]. apply Hnew; [|done]. by intros [].
Qed.

(** Step 4 on a graph that has grown out of [g]. *)
Record grown g g' : Prop := {
  gr_policy : g_policy g' = g_policy g;
  gr_local : g_local_ids g' = g_local_ids g;
  gr_lamport : g_lamport g <= g_lamport g';
  gr_get : ∀ i, is_Some (get g i) → is_Some (get g' i);
}.
#[global] Instance grown_preorder : PreOrder grown.
Proof.
  split; [intros g; by split|]. intros g1 g2 g3 [E1 I1 L1 G1] [E2 I2 L2 G2]. split; [congruence|congruence|lia|eauto].
Qed.

Lemma verified_error now g g' n e :
  grown g g' → get g' (node_id n) = None →
  (apply_remote_verified_no_projection g' n).2 = Err e → due now g n e.
Proof.
  intros [Ep _ El Eg] Hnew. unfold apply_remote_verified_no_projection.
  destruct (check_parents _ _) as [[]|e'] eqn:Hp; cycle 1.
  { intros [= <-]. apply parents_error in Hp as (p&->&Hp&Hn). split; [done|]. destruct (get g p) eqn:E; [|done].
    destruct (Eg p) as [x Hx]; [eauto|congruence]. }
  destruct (check_policy _ _) as [[]|e'] eqn:Hq; cycle 1.
  { intros [= <-]. apply policy_error in Hq as [Hq Hne]. apply due_unclean; [done|]. intros []. apply Hq. by rewrite Ep. }
  destruct (insert_node_new g' n Hnew) as (s&->&_). done.
Qed.

Lemma batch_apply_grown g s n b : grown g s.1.1 → grown g (batch_apply s (n, b)).1.1.
Proof.
  destruct s as [[g' res] an]. intros Hg. unfold batch_apply. destruct b; [|done]. cbn.
  pose proof (verified_no_projection_spec (mark_verified g' (node_id n)) n) as Hs.
  destruct (apply_remote_verified_no_projection _ n) as [g2 [[]|e]]; cbn.
  - destruct Hs as (_&([_ _ _ [Hl _] Hloc _ _ _]&_&Hget)&Hp2). cbn in *. etrans; [exact Hg|]. split; [done|done|lia|].
    intros i Hi. rewrite Hget. case_decide; [eauto|done].
  - destruct Hs as [_ ->]. etrans; [exact Hg|]. by split.
Qed.

Lemma apply_due `{!Ed25519BatchLaws} now g vs rs :
  NoDup (node_id <$> vs.*1) → (∀ n, n ∈ vs.*1 → get g (node_id n) = None) →
  (∀ n, (n, false) ∈ vs → unclean now g n) →
  let s := foldl batch_apply (g, mkBatch [] rs, []) vs in
  grown g s.1.1 ∧ ∀ r, r ∈ batch_rejected s.1.2 → r ∈ rs ∨ due_in now g vs.*1 r.
Proof.
  induction vs as [|[n b] vs IH] using rev_ind; intros Hnd Hnew Hbad; cbn zeta.
  { split; [by cbn|]. by left. }
  rewrite foldl_app. cbn [foldl]. rewrite !fmap_app in Hnd. apply NoDup_app in Hnd as (Hnd&Hdis&_).
  destruct IH as [Hg Hr]; [done|intros m Hm; apply Hnew; set_solver|intros m Hm; apply Hbad; set_solver|].
  pose proof (apply_inv_all g rs vs) as [_ _ Hst Hacc].
  set (s := foldl batch_apply _ vs) in *. split; [by apply batch_apply_grown|].
  assert (∀ r, r ∈ batch_rejected s.1.2 → r ∈ rs ∨ due_in now g (vs ++ [(n, b)]).*1 r) as Hold.
  { intros r [?|Hd]%Hr; [by left|right]. eapply due_weaken; [|exact Hd]. set_solver. }
  assert (∀ e, due now g n e → ∀ r, r ∈ batch_rejected s.1.2 ++ [(node_id n, e)] → r ∈ rs ∨ due_in now g (vs ++ [(n, b)]).*1 r) as Happ.
  { intros e He r [Hin|Hin%list_elem_of_singleton]%elem_of_app; [by apply Hold|]. subst r. right. exists n.
    split; [set_solver|done]. }
  assert (get s.1.1 (node_id n) = None) as Hfree.
  { apply eq_None_not_Some. intros [[x Hx]|Hin]%Hst; [rewrite Hnew in Hx; [done|set_solver]|].
    destruct (Hacc _ Hin) as (m&Hm&Hid&_). apply (Hdis (node_id m)); [|rewrite Hid; by left].
    apply list_elem_of_fmap_2. by apply (list_elem_of_fmap_2 fst) in Hm. }
  destruct s as [[g' [acc rej]] an]. cbn in *. unfold batch_apply. destruct b; cycle 1.
  { cbn. apply Happ. apply due_unclean; [done|]. apply Hbad. set_solver. }
  cbn. pose proof (verified_error now g (mark_verified g' (node_id n)) n) as He.
  destruct (apply_remote_verified_no_projection _ n) as [g2 [[]|e]]; [exact Hold|].
  cbn in *. apply Happ, He; [|done|done]. etrans; [exact Hg|by split].
Qed.

(** Every rejection of a batch is due. *)
Lemma batch_due `{!Ed25519BatchLaws} now g ns r :
  r ∈ batch_rejected (apply_remote_batch_checked g ns now).2 → due_in now g ns r.
Proof.
  unfold apply_remote_batch_checked. pose proof (admit_inv_all g now ns) as [_ Hnd Hst Hc]. pose proof (admit_due now g ns) as Had.
  destruct (foldl (batch_admit g now) _ ns) as [[tv rej] seen]. cbn in Hnd, Hst, Hc, Had.
  assert ((zip tv (verify_nodes_batched g tv)).*1 = tv) as Ez by (apply fst_zip; rewrite verify_nodes_batched_length; lia).
  destruct (apply_due now g (zip tv (verify_nodes_batched g tv)) rej) as [_ Hdue].
  - rewrite Ez. by apply NoDup_app in Hnd as (_&_&?).
  - rewrite Ez. intros n Hn. apply Hst. apply elem_of_app. right. by apply list_elem_of_fmap_2.
  - intros n Hz [_ _ _ Hs _]. apply elem_of_lookup_zip_with in Hz as (k&x&b&E&Hx&Hb). injection E as -> <-.
    rewrite (verify_nodes_batched_lookup _ _ _ _ Hx), Hs in Hb. cbn in Hb. rewrite orb_true_r in Hb. done.
  - rewrite Ez in Hdue. destruct (foldl batch_apply _ _) as [[g' res] an]. cbn in *. intros [Hr|Hr]%Hdue; [by apply Had|].
    eapply due_weaken; [|exact Hr]. intros n Hn. by apply Hc.
Qed.
Lemma batch_grown `{!Ed25519BatchLaws} g ns now : grown g (apply_remote_batch_checked g ns now).1.
Proof.
  unfold apply_remote_batch_checked. destruct (foldl (batch_admit g now) _ ns) as [[tv rej] seen].
  assert (∀ vs, grown g (foldl batch_apply (g, mkBatch [] rej, []) vs).1.1) as Hg.
  { intros vs. induction vs as [|[n b] vs IH] using rev_ind; [by cbn|]. rewrite foldl_app. by apply batch_apply_grown. }
  specialize (Hg (zip tv (verify_nodes_batched g tv))). destruct (foldl batch_apply _ _) as [[g' res] an]. cbn in *. by destruct Hg; split.
Qed.
End reject.
