(* ===== verification/Replica.v ===== *)
(** Replicas: the step relation of a sync graph, its invariant, and what two
    replicas that hold the same nodes agree on. *)

From S2P Require Import Prelude Op Node Policy Frontier Storage Lww ListCrdt Conflicts Caches.
From S2P Require Import CacheFacts TextState Graph GraphFacts GraphOps GraphBatch.

(** Blake3 digests have 32 bytes. *)
Class Blake3Laws `{Blake3} := blake3_length : ∀ b, byte_array 32 (blake3_hash b).

(** ** Nodes up to their signature *)

Definition strip (n : SyncNode) : SyncNode := mkNode (node_id n) (node_tx n) [].

Lemma events_strip ns : events (strip <$> ns) = events ns.
Proof. unfold events. induction ns as [|n ns IH]; [done|]. cbn. f_equal. exact IH. Qed.

Lemma live_events_strip ns : live_events (strip <$> ns) = live_events ns.
Proof. unfold live_events. by rewrite events_strip. Qed.

Lemma no_equivocation_strip ns : no_equivocation ns → no_equivocation (strip <$> ns).
Proof.
  intros Hc n m (n'&->&Hn)%list_elem_of_fmap (m'&->&Hm)%list_elem_of_fmap.
  by apply (Hc n' m').
Qed.

Lemma resolve_list_seq_events ns ns' k :
  events ns = events ns' → resolve_list_seq ns k = resolve_list_seq ns' k.
Proof.
  intros E. unfold resolve_list_seq, list_seq_items. by rewrite !fold_ops_events, E.
Qed.

Lemma resolve_replay_events ns ns' : events ns = events ns' → resolve_replay ns = resolve_replay ns'.
Proof. intros E. by rewrite !resolve_replay_keyed, E. Qed.

Section replica.
Context `{Blake3, Postcard Transaction, Ed25519, !Ed25519Laws}.
Context {N : Type} `{NodeStoreLaws N, !NodeStoreInfallible N} {T : Type} `{TextProjectionOps T}.
Implicit Types (g : StateGraph N T) (arr : arrival).

Abbreviation get g := (ns_get (g_nodes g)).

(** ** Steps *)

(** One operation on a graph.  The local clock must not be exhausted, nodes
    from the network have the types of the wire format, and reads or mode
    changes of the text projections move only the text state. *)
Inductive graph_step : StateGraph N T → StateGraph N T → Prop :=
| step_local g sk wall os : g_lamport g < u64_max → graph_step g (apply_local g sk wall os).1
| step_range_insert g sk wall key a text : g_lamport g < u64_max →
    graph_step g (apply_local_text_range_insert g sk wall key a text).1
| step_range_delete g sk wall key a len : g_lamport g < u64_max →
    graph_step g (apply_local_text_range_delete g sk wall key a len).1
| step_remote g n now : prio_typed n → graph_step g (apply_remote_checked g n now).1
| step_batch g ns now : Forall prio_typed ns → graph_step g (apply_remote_batch_checked g ns now).1
| step_policy g p : graph_step g (set_policy g p)
| step_signing g b : graph_step g (set_local_signing g b)
| step_stream g b : graph_step g (set_conflict_stream_enabled g b)
| step_drain g : graph_step g (drain_pending_conflicts g).1
| step_text g t : graph_step g (with_text g t).

Definition reachable g : Prop :=
  ∃ s, (∀ i, ns_get s i = None) ∧ rtc graph_step (graph_with_store s) g.

Lemma ok_range g sk wall key a mk :
  ok g → g_lamport g < u64_max → ok (apply_local_range g sk wall key a mk).1.
Proof.
  intros Hok Hlt. unfold apply_local_range.
  assert (∃ t a', canonical_anchor g key a = (with_text g t, a')) as (t&a'&E).
  { unfold canonical_anchor.
    assert (g = with_text g (g_text g)) as Eg by by destruct g.
    destruct a as [| |i|]; try (do 2 eexists; by rewrite <-Eg).
    destruct (canonicalize_offset_anchor_fast g key i); [do 2 eexists; by rewrite <-Eg|].
    destruct (text_resolve_seq _ _ _). eauto. }
  rewrite E. pose proof (ok_local (with_text g t) sk wall [OpText (mk a')]) as Hl.
  destruct (apply_local _ sk wall _) as [g' r]. apply Hl; [by apply ok_text|done].
Qed.

Lemma ok_step g g' : graph_step g g' → ok g → ok g'.
Proof.
  destruct 1; intros Hok.
  - by apply ok_local.
  - by apply ok_range.
  - by apply ok_range.
  - by apply ok_remote.
  - by apply ok_batch.
  - by apply ok_policy.
  - by apply ok_signing.
  - by apply ok_stream.
  - by apply ok_drain.
  - by apply ok_text.
Qed.

Lemma reachable_ok g : reachable g → ok g.
Proof.
  intros (s&Hs&Hr). assert (ok (graph_with_store s : StateGraph N T)) as Hok.
  { exists []. by apply graph_ok_empty. }
  induction Hr as [|g1 g2 g3 H12 _ IH]; [done|]. apply IH. by eapply ok_step.
Qed.

(** ** Nodes shared by two replicas *)

(** The hash does not collide on the transactions the two graphs store. *)
Definition collision_free g1 g2 : Prop :=
  ∀ n1 n2, n1 ∈ all_nodes g1 → n2 ∈ all_nodes g2 →
    tx_hash (node_tx n1) = tx_hash (node_tx n2) → node_tx n1 = node_tx n2.

Definition same_ids g1 g2 : Prop := ∀ i, is_Some (get g1 i) ↔ is_Some (get g2 i).

Lemma same_node_tx g1 g2 i n1 n2 :
  ok g1 → ok g2 → collision_free g1 g2 →
  get g1 i = Some n1 → get g2 i = Some n2 → node_tx n1 = node_tx n2.
Proof.
  intros [? []] [? []] Hc Hn1 Hn2. apply Hc; [apply elem_of_all_nodes; eauto..|].
  by rewrite (ok_hash _ _ Hn1), (ok_hash0 _ _ Hn2).
Qed.

Lemma strip_eq n m : node_id n = node_id m → node_tx n = node_tx m → strip n = strip m.
Proof. unfold strip. congruence. Qed.

Lemma elem_of_strip_nodes g1 g2 x :
  ok g1 → ok g2 → collision_free g1 g2 → same_ids g1 g2 →
  x ∈ strip <$> all_nodes g1 → x ∈ strip <$> all_nodes g2.
Proof.
  intros Hok1 Hok2 Hc Hids (n&->&Hn)%list_elem_of_fmap. apply elem_of_all_nodes in Hn as [i Hi].
  destruct (proj1 (Hids i)) as [m Hm]; [eauto|]. apply list_elem_of_fmap. exists m. split.
  - pose proof (same_node_tx _ _ _ _ _ Hok1 Hok2 Hc Hi Hm). destruct Hok1 as [? []], Hok2 as [? []].
    apply strip_eq; [|done]. by rewrite (ok_keyed _ _ Hi), (ok_keyed0 _ _ Hm).
  - apply elem_of_all_nodes. eauto.
Qed.

Lemma collision_free_sym g1 g2 : collision_free g1 g2 → collision_free g2 g1.
Proof. intros Hc n1 n2 Hn1 Hn2 E. symmetry. by apply Hc. Qed.

Lemma NoDup_strip g : ok g → NoDup (strip <$> all_nodes g).
Proof.
  intros [arr []]. apply (NoDup_fmap_1 node_id). rewrite <-list_fmap_compose.
  change (node_id ∘ strip) with node_id. rewrite all_nodes_ids by done. apply ns_all_ids_NoDup.
Qed.

Lemma same_nodes_perm g1 g2 :
  ok g1 → ok g2 → collision_free g1 g2 → same_ids g1 g2 →
  strip <$> all_nodes g1 ≡ₚ strip <$> all_nodes g2.
Proof.
  intros Hok1 Hok2 Hc Hids. apply NoDup_Permutation; [by apply NoDup_strip..|].
  intros x. split; apply elem_of_strip_nodes; try done; [by apply collision_free_sym|].
  intros i. by rewrite (Hids i).
Qed.

(** ** Reads *)

Lemma ok_winners g :
  ok g → no_equivocation (all_nodes g) →
  map_all (g_caches g) = winners_of ∅ (live_events (strip <$> all_nodes g)).
Proof.
  intros [arr []] Hne. rewrite ok_map, live_events_strip. apply winners_of_perm; [done|].
  by rewrite ok_arrival.
Qed.

Lemma resolve_eq g : resolve g = winners_map (map_all (g_caches g)).
Proof. done. Qed.

Lemma ok_typed_nodes g : ok g → Forall prio_typed (all_nodes g).
Proof. intros [arr []]. by rewrite <-ok_arrival. Qed.

Lemma ok_resolve_replay g :
  ok g → no_equivocation (all_nodes g) → resolve g = graph_resolve_replay g false.
Proof.
  intros Hok Hne. rewrite resolve_eq, ok_winners, live_events_strip by done.
  rewrite winners_map_replay by by apply ok_typed_nodes. done.
Qed.

Lemma ok_canonical_nodes g arr :
  graph_ok g arr → canonical_nodes arr ≡ₚ filter (λ n, node_id n ∉ g_local_ids g) (all_nodes g).
Proof.
  intros []. rewrite <-ok_arrival. unfold canonical_nodes.
  clear -ok_flags. induction arr as [|[n b] arr IH]; [done|].
  assert (canonical_nodes arr ≡ₚ filter (λ n, node_id n ∉ g_local_ids g) arr.*1) as E.
  { apply IH. intros nb Hnb. apply ok_flags. set_solver. }
  pose proof (ok_flags (n, b)) as Hb. simpl in Hb. specialize (Hb ltac:(set_solver)).
  cbn [fmap list_fmap fst]. rewrite !filter_cons. simpl. unfold canonical_nodes in E.
  destruct (decide (node_id n ∉ g_local_ids g)) as [Hn|Hn].
  - rewrite decide_True by by rewrite Hb, bool_decide_eq_true. simpl. by f_equiv.
  - rewrite decide_False; [done|]. rewrite Hb, bool_decide_eq_true. done.
Qed.

Lemma ok_resolve_canonical g :
  ok g → no_equivocation (all_nodes g) → resolve_canonical g = graph_resolve_replay g true.
Proof.
  intros [arr Hok] Hne. unfold resolve_canonical, caches_resolve_canonical.
  rewrite (ok_canonical _ _ Hok). unfold graph_resolve_replay.
  assert (∀ n, n ∈ canonical_nodes arr → n ∈ all_nodes g) as Hsub.
  { intros n. rewrite (ok_canonical_nodes _ _ Hok). by intros [_ ?]%list_elem_of_filter. }
  rewrite (winners_of_perm _ _ _ (ok_canonical_nodes _ _ Hok)).
  - apply winners_map_replay. apply Forall_forall. intros n [_ Hn]%list_elem_of_filter.
    pose proof (ok_typed_nodes g) as Ht. rewrite Forall_forall in Ht. apply Ht; [by exists arr|done].
  - intros n m Hn Hm. apply Hne; by apply Hsub.
Qed.

Lemma ok_resolve_list g k :
  ok g → no_equivocation (all_nodes g) →
  resolve_list g k = resolve_list_seq (live_nodes (strip <$> all_nodes g)) k.
Proof.
  intros [arr []] Hne. unfold resolve_list. rewrite (lists_resolve _ _ k ok_lists).
  transitivity (resolve_list_seq (live_nodes (all_nodes g)) k).
  - apply resolve_list_seq_converges.
    + unfold live_nodes. by rewrite ok_arrival.
    + apply live_nodes_no_equivocation. by rewrite ok_arrival.
  - apply resolve_list_seq_events. by rewrite <-!live_events_live_nodes, live_events_strip.
Qed.

(** ** Leaves, frontier and Merkle root *)

Lemma same_leaves g1 g2 :
  ok g1 → ok g2 → collision_free g1 g2 → same_ids g1 g2 → g_leaves g1 = g_leaves g2.
Proof.
  intros Hok1 Hok2 Hc Hids. pose proof Hok1 as [? []]. pose proof Hok2 as [? []].
  assert (∀ ga gb i, ok ga → ok gb → collision_free ga gb → same_ids ga gb →
    (is_Some (get ga i) ∧ ∀ j m, get ga j = Some m → i ∉ node_parents m) →
    is_Some (get gb i) ∧ ∀ j m, get gb j = Some m → i ∉ node_parents m) as Himp.
  { intros ga gb i Ha Hb Hab Hi [Hs Hch]. split; [by apply Hi|]. intros j m Hm.
    destruct (proj2 (Hi j)) as [m' Hm']; [eauto|].
    pose proof (same_node_tx _ _ _ _ _ Ha Hb Hab Hm' Hm) as E.
    unfold node_parents. rewrite <-E. by apply (Hch j). }
  apply set_eq. intros i. rewrite ok_leaves, ok_leaves0. split; apply Himp; try done.
  - by apply collision_free_sym.
  - intros j. by rewrite (Hids j).
Qed.

Lemma same_frontier g1 g2 :
  ok g1 → ok g2 → g_leaves g1 = g_leaves g2 → g_frontier g1 = g_frontier g2.
Proof.
  intros [? []] [? []] E. apply frontier_ext; [done..|]. intros i. by rewrite ok_frontier, ok_frontier0, E.
Qed.

(** Graphs with the same nodes read the same. *)
Lemma ok_converge g1 g2 :
  ok g1 → ok g2 → same_ids g1 g2 → collision_free g1 g2 →
  no_equivocation (all_nodes g1) → no_equivocation (all_nodes g2) →
  resolve g1 = resolve g2 ∧ (∀ k, resolve_list g1 k = resolve_list g2 k) ∧
  g_frontier g1 = g_frontier g2 ∧ merkle_root g1 = merkle_root g2.
Proof.
  intros Hr1 Hr2 Hids Hc Hne1 Hne2.
  pose proof (same_nodes_perm g1 g2 Hr1 Hr2 Hc Hids) as Hp.
  pose proof (same_leaves g1 g2 Hr1 Hr2 Hc Hids) as Hl.
  pose proof (no_equivocation_strip _ Hne1) as Hns. split_and!.
  - rewrite !resolve_eq, !ok_winners by done. f_equal. by apply winners_of_perm.
  - intros k. rewrite !ok_resolve_list by done. apply resolve_list_seq_converges.
    + unfold live_nodes. by rewrite Hp.
    + by apply live_nodes_no_equivocation.
  - by apply same_frontier.
  - unfold merkle_root. by rewrite Hl.
Qed.

(** Equal leaves pin down the whole graph below them. *)
Lemma same_leaves_ids g1 g2 :
  ok g1 → ok g2 → collision_free g1 g2 → g_leaves g1 = g_leaves g2 →
  ∀ i, is_Some (get g1 i) → is_Some (get g2 i).
Proof.
  intros Hok1 Hok2 Hc El i Hi. pose proof Hok1 as [? []]. pose proof Hok2 as [? []].
  destruct (ok_covered i Hi) as (l&Hl&Hr).
  assert (is_Some (get g2 l)) as Hl2 by (apply ok_leaves0; by rewrite <-El).
  clear Hl Hi. induction Hr as [|l p i (n&Hn&Hp) _ IH]; [done|]. apply IH.
  destruct Hl2 as [m Hm]. eapply (ok_parents0 l m); [done|]. unfold node_parents.
  by rewrite <-(same_node_tx _ _ _ _ _ Hok1 Hok2 Hc Hn Hm).
Qed.

Lemma concat_blocks_inj (l k : list bytes) :
  Forall (λ b, length b = 32%nat) l → Forall (λ b, length b = 32%nat) k →
  concat l = concat k → l = k.
Proof.
  intros Hl. revert k. induction Hl as [|x l Hx _ IH]; intros k Hk E.
  - destruct Hk as [|y k Hy _]; [done|]. simpl in E. by destruct y.
  - destruct Hk as [|y k Hy Hk]; simpl in E; [by destruct x|].
    apply app_inj_1 in E as [-> E]; [|lia]. f_equal. by apply IH.
Qed.

Lemma ok_leaf_length g `{!Blake3Laws} :
  ok g → Forall (λ b, length b = 32%nat) (sort (elements (g_leaves g))).
Proof.
  intros [arr []]. apply Forall_forall. intros i. rewrite elem_of_sort, elem_of_elements.
  rewrite ok_leaves. intros [[n Hn] _]. rewrite <-(ok_hash _ _ Hn). apply blake3_length.
Qed.

Lemma merkle_root_leaves g1 g2 `{!Blake3Laws} :
  ok g1 → ok g2 →
  (concat (sort (elements (g_leaves g1))) ≠ concat (sort (elements (g_leaves g2))) →
   merkle_root g1 ≠ merkle_root g2) →
  merkle_root g1 = merkle_root g2 → g_leaves g1 = g_leaves g2.
Proof.
  intros Hok1 Hok2 Hc E.
  assert (sort (elements (g_leaves g1)) = sort (elements (g_leaves g2))) as Es.
  { apply concat_blocks_inj; [by apply ok_leaf_length..|]. apply dec_stable. naive_solver. }
  apply set_eq. intros i. transitivity (i ∈ sort (elements (g_leaves g1))).
  - by rewrite elem_of_sort, elem_of_elements.
  - by rewrite Es, elem_of_sort, elem_of_elements.
Qed.
End replica.
