(* ===== verification/Fenwick.v ===== *)
(** The counted position index of the text projection (text.rs,
    [CountedPositionIndex]): per-chunk weights under a Fenwick tree, and the
    proof that its prefix sums and its search are those of the weights. *)

From S2P Require Import Prelude.

(** [u32] saturation. *)
Definition to_u32 (v : Z) : Z := Z.min v u32_max.
Definition sat_add32 (a b : Z) : Z := Z.min (a + b) u32_max.

(** Tree indices are [usize]; [idx1 & idx1.wrapping_neg()] is the lowest set
    bit, [idx1 & (idx1 - 1)] clears it. *)
Definition low (i : Z) : Z := Z.land i (- i).
Definition clear_low (i : Z) : Z := Z.land i (i - 1).

Record CountedPositionIndex := mkIndex { weights : list Z; fenwick : list Z }.
Definition index_default : CountedPositionIndex := mkIndex [] [].

Definition fen (f : list Z) (i : Z) : Z := default 0 (f !! Z.to_nat i).
Definition fen_len (f : list Z) : Z := Z.of_nat (length f).

(** The [while] loops of [add_u32] and [sub_u32]: the index grows by at least
    one, so the length of the tree bounds them. *)
Fixpoint add_loop (fuel : nat) (op : Z → Z → Z) (f : list Z) (idx1 delta : Z) : list Z :=
  match fuel with
  | O => f
  | S k =>
      if idx1 <? fen_len f then
        add_loop k op (<[Z.to_nat idx1 := op (fen f idx1) delta]> f) (idx1 + low idx1) delta
      else f
  end.
Definition add_u32 (f : list Z) (idx1 delta : Z) : list Z :=
  add_loop (length f) sat_add32 f idx1 delta.
Definition sub_u32 (f : list Z) (idx1 delta : Z) : list Z :=
  add_loop (length f) sat_sub f idx1 delta.

(** [prefix_sum]: the index shrinks to zero. *)
Fixpoint prefix_loop (fuel : nat) (f : list Z) (idx1 acc : Z) : Z :=
  match fuel with
  | O => acc
  | S k =>
      if 0 <? idx1 then prefix_loop k f (clear_low idx1) (sat_add64 acc (fen f idx1)) else acc
  end.
Definition prefix_sum (x : CountedPositionIndex) (idx1 : Z) : Z :=
  let i := Z.min idx1 (sat_sub (fen_len (fenwick x)) 1) in
  prefix_loop (length (fenwick x)) (fenwick x) i 0.

Definition total_len (x : CountedPositionIndex) : Z := prefix_sum x (fen_len (weights x)).

(** [rebuild_fenwick] and [rebuild_from_weights]. *)
Definition rebuild_fenwick (ws : list Z) : list Z :=
  foldl (λ f i_w, add_u32 f (Z.of_nat i_w.1 + 1) i_w.2) (replicate (S (length ws)) 0) (imap pair ws).
Definition rebuild_from_weights (ws : list Z) : CountedPositionIndex :=
  mkIndex (to_u32 <$> ws) (rebuild_fenwick (to_u32 <$> ws)).

(** [update_weight]. *)
Definition update_weight (x : CountedPositionIndex) (idx : nat) (new_weight : Z) : CountedPositionIndex :=
  match weights x !! idx with
  | None => x
  | Some old =>
      let new := to_u32 new_weight in
      if old =? new then x
      else
        let ws := <[idx := new]> (weights x) in
        if old <? new
        then mkIndex ws (add_u32 (fenwick x) (Z.of_nat idx + 1) (new - old))
        else mkIndex ws (sub_u32 (fenwick x) (Z.of_nat idx + 1) (old - new))
  end.

(** [lower_bound]: double [bit] past the tree, then descend. *)
Fixpoint double_loop (fuel : nat) (len bit : Z) : Z :=
  match fuel with
  | O => bit
  | S k => if bit <? len then double_loop k len (Z.shiftl bit 1) else bit
  end.
Fixpoint descend (fuel : nat) (f : list Z) (target idx bit running : Z) : Z :=
  match fuel with
  | O => idx
  | S k =>
      if 0 <? bit then
        let next := idx + bit in
        let cand := sat_add64 running (fen f next) in
        if (next <? fen_len f) && (cand <? target)
        then descend k f target next (Z.shiftr bit 1) cand
        else descend k f target idx (Z.shiftr bit 1) running
      else idx
  end.
Definition lower_bound (x : CountedPositionIndex) (target : Z) : option Z :=
  if (target =? 0) || bool_decide (weights x = []) then None
  else if prefix_sum x (fen_len (weights x)) <? target then None
  else
    let bit := double_loop (length (fenwick x)) (fen_len (fenwick x)) 1 in
    Some (descend (S (S (length (fenwick x)))) (fenwick x) target 0 bit 0).

(** [select_offset]. *)
Definition select_offset (x : CountedPositionIndex) (offset : Z) : option (Z * Z) :=
  if total_len x <=? offset then None
  else
    match lower_bound x (offset + 1) with
    | None => None
    | Some e => Some (e, sat_sub offset (prefix_sum x e))
    end.

(** ** Bits *)

(** Every positive index is an odd multiple of its lowest set bit. *)
Lemma low_odd (k q : Z) : 0 <= k → 0 <= q →
  low (2 ^ k * (2 * q + 1)) = 2 ^ k ∧ clear_low (2 ^ k * (2 * q + 1)) = 2 ^ k * (2 * q).
Proof.
  intros Hk Hq. unfold low, clear_low.
  assert (Z.land (2 * q + 1) (- (2 * q + 1)) = 1) as H1.
  { apply Z.bits_inj'. intros n Hn. rewrite Z.land_spec.
    replace (- (2 * q + 1)) with (2 * (- q - 1) + 1) by lia.
    destruct (Z.eq_dec n 0) as [->|Hn0]; [by rewrite !Z.testbit_odd_0|].
    replace n with (Z.succ (n - 1)) by lia.
    rewrite !Z.testbit_odd_succ by lia. replace (- q - 1) with (Z.lnot q) by (unfold Z.lnot; lia).
    rewrite Z.lnot_spec by lia. rewrite andb_negb_r.
    replace 1 with (2 * 0 + 1) by lia. rewrite Z.testbit_odd_succ by lia. by rewrite Z.bits_0. }
  assert (Z.land (2 * q + 1) (2 * q) = 2 * q) as H2.
  { apply Z.bits_inj'. intros n Hn. rewrite Z.land_spec.
    destruct (Z.eq_dec n 0) as [->|Hn0]; [by rewrite Z.testbit_odd_0, Z.testbit_even_0|].
    replace n with (Z.succ (n - 1)) by lia.
    rewrite Z.testbit_odd_succ, Z.testbit_even_succ by lia. by rewrite andb_diag. }
  rewrite <-!(Z.mul_comm (2 * q + 1)), <-(Z.mul_comm (2 * q)), <-!Z.shiftl_mul_pow2 by lia.
  split.
  - replace (- Z.shiftl (2 * q + 1) k) with (Z.shiftl (- (2 * q + 1)) k).
    + rewrite <-Z.shiftl_land, H1. rewrite Z.shiftl_1_l. done.
    + rewrite !Z.shiftl_mul_pow2 by lia. lia.
  - apply Z.bits_inj'. intros n Hn. rewrite Z.land_spec.
    assert (Z.shiftl (2 * q + 1) k - 1 = Z.shiftl (2 * q) k + Z.ones k) as ->.
    { rewrite !Z.shiftl_mul_pow2, Z.ones_equiv by lia. lia. }
    rewrite <-(Z.add_lor_land (Z.shiftl (2 * q) k)).
    assert (Z.land (Z.shiftl (2 * q) k) (Z.ones k) = 0) as E0.
    { rewrite Z.land_ones, Z.shiftl_mul_pow2 by lia. apply Z.mod_mul. lia. }
    rewrite E0, Z.add_0_r, Z.lor_spec.
    destruct (Z.ltb_spec n k).
    + rewrite !Z.shiftl_spec_low by lia. done.
    + rewrite Z.ones_spec_high by lia. rewrite orb_false_r, <-Z.land_spec, <-Z.shiftl_land, H2. done.
Qed.

Lemma odd_decomp i : 0 < i → ∃ k q, 0 <= k ∧ 0 <= q ∧ i = 2 ^ k * (2 * q + 1).
Proof.
  intros Hi. assert (0 <= i) as Hnn by lia. revert i Hnn Hi.
  apply (Z_lt_induction (λ i, 0 < i → ∃ k q, 0 <= k ∧ 0 <= q ∧ i = 2 ^ k * (2 * q + 1))).
  intros i IH Hi. destruct (Z.Even_or_Odd i) as [[j ->]|[j ->]].
  - destruct (IH j) as (k&q&Hk&Hq&->); [lia..|]. exists (Z.succ k), q.
    rewrite Z.pow_succ_r by lia. lia.
  - exists 0, j. lia.
Qed.

Lemma low_pos i : 0 < i → 0 < low i <= i ∧ clear_low i = i - low i.
Proof.
  intros (k&q&Hk&Hq&->)%odd_decomp. destruct (low_odd k q Hk Hq) as [-> ->].
  assert (0 < 2 ^ k) by (apply Z.pow_pos_nonneg; lia). nia.
Qed.

(** Node [j] of the tree sums the weights in [(j - low j, j]]. *)
Definition covers (j i : Z) : Prop := j - low j < i <= j.
#[global] Instance covers_dec j i : Decision (covers j i).
Proof. unfold covers. apply _. Defined.

Lemma pow2_split k m : 0 <= k < m → ∃ t, 0 < t ∧ 2 ^ m = 2 ^ k * (2 * t).
Proof.
  intros Hk. exists (2 ^ (m - k - 1)). split; [apply Z.pow_pos_nonneg; lia|].
  replace m with (k + (1 + (m - k - 1))) at 1 by lia.
  rewrite Z.pow_add_r, (Z.pow_add_r 2 1) by lia. lia.
Qed.

Lemma scale_covers c a b i i' x y z z' :
  0 < c → x = c * a → y = c * b → z = c * i → z' = c * i' →
  (a < i <= b ↔ a < i' <= b) → (x < z <= y ↔ x < z' <= y).
Proof.
  intros Hc -> -> -> -> E.
  by rewrite <-!Z.mul_lt_mono_pos_l, <-!Z.mul_le_mono_pos_l by done.
Qed.

(** The climb of [add_u32] visits exactly the nodes that cover its index. *)
Lemma covers_next i j : 0 < i → 0 < j → j ≠ i → covers j i ↔ covers j (i + low i).
Proof.
  intros (k&q&Hk&Hq&->)%odd_decomp (m&r&Hm&Hr&->)%odd_decomp Hne. unfold covers.
  destruct (low_odd k q Hk Hq) as [-> _], (low_odd m r Hm Hr) as [-> _].
  assert (0 < 2 ^ k) as Pk by (apply Z.pow_pos_nonneg; lia).
  assert (0 < 2 ^ m) as Pm by (apply Z.pow_pos_nonneg; lia).
  destruct (Z.lt_trichotomy k m) as [Hlt|[->|Hlt]].
  - destruct (pow2_split k m) as (t&Ht&->); [lia|].
    apply (scale_covers (2 ^ k) (2 * (2 * t * r)) (2 * (t * (2 * r + 1)))
             (2 * q + 1) (2 * q + 2)); [done|lia..].
  - assert (r ≠ q) by congruence.
    apply (scale_covers (2 ^ m) (2 * r) (2 * r + 1) (2 * q + 1) (2 * q + 2)); [done|lia..].
  - destruct (pow2_split m k) as (t&Ht&->); [lia|].
    apply (scale_covers (2 ^ m) (2 * r) (2 * r + 1)
             (2 * (t * (2 * q + 1))) (2 * (t * (2 * q + 2)))); [done|lia..].
Qed.

Lemma fen_insert f i j v : 0 <= i < fen_len f → 0 <= j →
  fen (<[Z.to_nat i := v]> f) j = if decide (j = i) then v else fen f j.
Proof.
  unfold fen, fen_len. intros Hi Hj. case_decide as E.
  - subst. rewrite list_lookup_insert_eq by lia. done.
  - rewrite list_lookup_insert_ne by lia. done.
Qed.

Lemma fen_len_insert f i v : fen_len (<[i := v]> f) = fen_len f.
Proof. unfold fen_len. by rewrite length_insert. Qed.

Lemma add_loop_fen fuel op f i d j :
  0 < i → fen_len f - i < Z.of_nat fuel → 0 < j < fen_len f →
  fen (add_loop fuel op f i d) j = if decide (covers j i) then op (fen f j) d else fen f j.
Proof.
  revert f i. induction fuel as [|fuel IH]; intros f i Hi Hf Hj.
  { simpl. rewrite decide_False; [done|]. unfold covers. lia. }
  simpl. destruct (Z.ltb_spec i (fen_len f)) as [Hlt|Hge].
  2:{ rewrite decide_False; [done|]. unfold covers. lia. }
  pose proof (low_pos i Hi). rewrite IH; rewrite ?fen_len_insert; [|lia..].
  rewrite fen_insert by lia. destruct (decide (j = i)) as [->|Hne].
  - rewrite decide_False by (unfold covers; lia). by rewrite decide_True by (unfold covers; lia).
  - destruct (decide (covers j i)) as [Hc|Hc].
    + rewrite decide_True; [done|]. by rewrite <-covers_next by lia.
    + rewrite decide_False; [done|]. by rewrite <-covers_next by lia.
Qed.

Lemma add_loop_length fuel op f i d : length (add_loop fuel op f i d) = length f.
Proof.
  revert f i. induction fuel as [|fuel IH]; intros f i; simpl; [done|].
  case_tests; [|done]. by rewrite IH, length_insert.
Qed.

(** ** Prefix sums *)

(** A tree that stands for the prefix-sum function [W]. *)
Definition fen_fn (W : Z → Z) (f : list Z) : Prop :=
  W 0 = 0 ∧ ∀ j, 0 < j < fen_len f → fen f j = W j - W (j - low j).

(** Prefix sums of a list of weights. *)
Definition wsum (ws : list Z) (i : Z) : Z := foldr Z.add 0 (take (Z.to_nat i) ws).

Lemma prefix_loop_fn W fuel f i acc :
  fen_fn W f → 0 <= i < fen_len f → i < Z.of_nat fuel → 0 <= acc →
  (∀ a b, 0 <= a <= b → b < fen_len f → W a <= W b) → acc + W i <= u64_max →
  prefix_loop fuel f i acc = acc + W i.
Proof.
  intros Hf. revert i acc. induction fuel as [|fuel IH]; intros i acc Hi Hfu Hacc Hmono Hmax; [lia|].
  simpl. destruct (Z.ltb_spec 0 i) as [Hpos|].
  2:{ replace i with 0 by lia. rewrite (proj1 Hf). lia. }
  destruct (low_pos i Hpos) as [Hlow ->].
  pose proof (Hmono 0 (i - low i)) as Hm0. pose proof (Hmono (i - low i) i) as Hm1.
  rewrite (proj1 Hf) in Hm0. rewrite (proj2 Hf) by lia.
  rewrite sat_add64_exact by lia. rewrite IH; [lia|lia..|done|lia].
Qed.

Lemma wsum_0 ws : wsum ws 0 = 0.
Proof. done. Qed.

Lemma wsum_mono ws a b : Forall (λ w, 0 <= w) ws → 0 <= a <= b → wsum ws a <= wsum ws b.
Proof.
  intros Hw Hab. unfold wsum. assert (Z.to_nat a <= Z.to_nat b)%nat as Hn by lia. clear Hab.
  revert Hn. generalize (Z.to_nat a) (Z.to_nat b). intros n m Hn. revert n m Hn.
  induction Hw as [|w ws Hw0 _ IH]; intros n m Hn; [by rewrite !take_nil|].
  destruct n as [|n], m as [|m]; simpl; [done| |lia|].
  - specialize (IH 0%nat m). rewrite take_0 in IH. simpl in IH. lia.
  - specialize (IH n m). lia.
Qed.

Lemma wsum_insert ws idx old new j :
  ws !! idx = Some old → 0 <= j →
  wsum (<[idx := new]> ws) j = wsum ws j + (if decide (Z.of_nat idx + 1 <= j) then new - old else 0).
Proof.
  intros Hi Hj. unfold wsum.
  assert (Z.of_nat idx + 1 <= j ↔ (idx < Z.to_nat j)%nat) as E by lia.
  rewrite (decide_ext _ _ _ _ E). clear E Hj. generalize (Z.to_nat j). intros n.
  revert ws n Hi. induction idx as [|idx IH]; intros [|w ws] n Hi; simplify_eq/=.
  - destruct n; [by rewrite decide_False by lia|]. rewrite decide_True by lia. simpl. lia.
  - destruct n; [by rewrite decide_False by lia|]. cbn [take foldr insert list_insert]. rewrite IH by done.
    destruct (decide (idx < n)%nat); [rewrite decide_True by lia|rewrite decide_False by lia]; lia.
Qed.

Lemma wsum_full ws j : Z.of_nat (length ws) <= j → wsum ws j = foldr Z.add 0 ws.
Proof. intros Hj. unfold wsum. by rewrite take_ge by lia. Qed.

(** ** The invariant *)

(** The tree is the tree of the weights, and no sum leaves [u32]. *)
Record index_ok (x : CountedPositionIndex) : Prop := {
  ix_nonneg : Forall (λ w, 0 <= w) (weights x);
  ix_total : foldr Z.add 0 (weights x) <= u32_max;
  ix_length : length (fenwick x) = S (length (weights x));
  ix_tree : fen_fn (wsum (weights x)) (fenwick x);
}.

Lemma wsum_bounds ws j :
  Forall (λ w, 0 <= w) ws → 0 <= j → 0 <= wsum ws j <= foldr Z.add 0 ws.
Proof.
  intros Hw Hj. split; [rewrite <-(wsum_0 ws); apply wsum_mono; [done|lia]|].
  rewrite <-(wsum_full ws (Z.max j (Z.of_nat (length ws)))) by lia. apply wsum_mono; [done|lia].
Qed.

Lemma u32_le_u64 z : z <= u32_max → z <= u64_max.
Proof. unfold u32_max, u64_max. lia. Qed.

Lemma prefix_sum_ok x i :
  index_ok x → 0 <= i → prefix_sum x i = wsum (weights x) i.
Proof.
  intros [Hw Ht Hl Hf] Hi. unfold prefix_sum, sat_sub, fen_len. rewrite Hl.
  set (k := Z.min i _). assert (wsum (weights x) k = wsum (weights x) i) as <-.
  { destruct (decide (i <= Z.of_nat (length (weights x)))).
    - f_equal. lia.
    - rewrite !wsum_full by lia. done. }
  pose proof (wsum_bounds (weights x) k Hw). pose proof (u32_le_u64 _ Ht).
  assert (0 <= k <= Z.of_nat (length (weights x))) as Hk by lia.
  rewrite (prefix_loop_fn (wsum (weights x))); [lia|done| | |lia| |lia].
  - unfold fen_len. lia.
  - lia.
  - intros a b Hab _. by apply wsum_mono.
Qed.

(** A climb adds [d] to every prefix sum from its index on. *)
Lemma climb_fn W f op i d :
  fen_fn W f → 0 < i →
  (∀ j, 0 < j < fen_len f → covers j i → op (fen f j) (Z.abs d) = fen f j + d) →
  fen_fn (λ j, W j + if decide (i <= j) then d else 0) (add_loop (length f) op f i (Z.abs d)).
Proof.
  intros [H0 Hf] Hi Hop. split; [rewrite decide_False; lia|]. intros j. unfold fen_len at 1.
  rewrite add_loop_length. intros Hj. rewrite add_loop_fen by (unfold fen_len; lia).
  destruct (low_pos j) as [Hlow _]; [lia|]. unfold covers. case_decide as Hc.
  - rewrite Hop by done. rewrite Hf by done.
    rewrite decide_True by lia. rewrite decide_False by lia. lia.
  - rewrite Hf by done. destruct (decide (i <= j)), (decide (i <= j - low j)); lia.
Qed.

Lemma fen_fn_ext W W' f : (∀ j, 0 <= j → W j = W' j) → fen_fn W f → fen_fn W' f.
Proof.
  intros E [H0 Hf]. split; [rewrite <-E; [done|lia]|]. intros j Hj.
  destruct (low_pos j) as [Hlow _]; [lia|]. rewrite Hf, !E by lia. done.
Qed.

(** Changing one weight from [old] to [new]: the two climbs share their
    bounds. *)
Section change_weight.
Context (ws f : list Z) (idx : nat) (old new : Z).
Hypothesis Hok : index_ok (mkIndex ws f).
Hypothesis Hi : ws !! idx = Some old.
Hypothesis Hn : 0 <= new.
Hypothesis Ht : foldr Z.add 0 (<[idx := new]> ws) <= u32_max.

Lemma change_bounds j :
  0 < j < fen_len f → covers j (Z.of_nat idx + 1) → 0 <= fen f j + (new - old) <= u32_max.
Proof.
  destruct Hok as [Hw _ Hl Hf]; simpl in *. intros Hj Hc. unfold covers in Hc.
  assert (Forall (λ w, 0 <= w) (<[idx := new]> ws)) as Hw' by by apply Forall_insert.
  destruct (low_pos j) as [Hlow _]; [lia|]. rewrite (proj2 Hf) by done.
  pose proof (wsum_insert ws idx old new j Hi) as E1.
  pose proof (wsum_insert ws idx old new (j - low j) Hi) as E2.
  rewrite decide_True in E1 by lia. rewrite decide_False in E2 by lia.
  pose proof (wsum_bounds _ j Hw'). pose proof (wsum_bounds _ (j - low j) Hw').
  pose proof (wsum_mono _ (j - low j) j Hw'). lia.
Qed.

Lemma change_ok op :
  (∀ j, 0 < j < fen_len f → covers j (Z.of_nat idx + 1) →
     op (fen f j) (Z.abs (new - old)) = fen f j + (new - old)) →
  index_ok (mkIndex (<[idx := new]> ws)
              (add_loop (length f) op f (Z.of_nat idx + 1) (Z.abs (new - old)))).
Proof.
  intros Hop. destruct Hok as [Hw _ Hl Hf]; simpl in *. split; simpl; [by apply Forall_insert|done| |].
  - by rewrite length_insert, add_loop_length.
  - eapply fen_fn_ext; [intros j Hj; symmetry; by apply (wsum_insert ws idx old new j Hi)|].
    apply climb_fn; [done|lia|done].
Qed.

Lemma change_add_ok : old <= new →
  index_ok (mkIndex (<[idx := new]> ws) (add_u32 f (Z.of_nat idx + 1) (new - old))).
Proof.
  intros Hle. pose proof (change_ok sat_add32) as Hc. rewrite Z.abs_eq in Hc by lia. apply Hc.
  intros j Hj Hcv. pose proof (change_bounds j Hj Hcv). unfold sat_add32. lia.
Qed.

Lemma change_sub_ok : new <= old →
  index_ok (mkIndex (<[idx := new]> ws) (sub_u32 f (Z.of_nat idx + 1) (old - new))).
Proof.
  intros Hle. pose proof (change_ok sat_sub) as Hc.
  replace (Z.abs (new - old)) with (old - new) in Hc by lia. apply Hc.
  intros j Hj Hcv. pose proof (change_bounds j Hj Hcv). unfold sat_sub. lia.
Qed.
End change_weight.

Lemma to_u32_exact w : w <= u32_max → to_u32 w = w.
Proof. unfold to_u32. lia. Qed.

Lemma sum_ge_elem ws i w :
  Forall (λ w, 0 <= w) ws → ws !! i = Some w → w <= foldr Z.add 0 ws.
Proof.
  intros Hw. revert i. induction Hw as [|x ws Hx Hw IH]; intros [|i] Hi; simplify_eq/=.
  - pose proof (wsum_bounds ws 0 Hw). lia.
  - specialize (IH _ Hi). lia.
Qed.

Lemma update_weight_ok x idx w :
  index_ok x → (idx < length (weights x))%nat → 0 <= w →
  foldr Z.add 0 (<[idx := w]> (weights x)) <= u32_max →
  index_ok (update_weight x idx w) ∧ weights (update_weight x idx w) = <[idx := w]> (weights x).
Proof.
  intros Hok [old Hi]%lookup_lt_is_Some Hw Ht. unfold update_weight. rewrite Hi.
  assert (w <= u32_max) as Hwm.
  { etrans; [|exact Ht]. eapply (sum_ge_elem _ idx).
    - apply Forall_insert; [apply Hok|done].
    - apply list_lookup_insert_eq. by eapply lookup_lt_Some. }
  rewrite to_u32_exact by done. destruct x as [ws f]; simpl in *.
  destruct (Z.eqb_spec old w) as [->|Hne].
  - split; [done|]. by rewrite list_insert_id.
  - destruct (Z.ltb_spec old w); (split; [|done]);
      [apply change_add_ok|apply change_sub_ok]; done || lia.
Qed.

Lemma sum_app l k : foldr Z.add 0 (l ++ k) = foldr Z.add 0 l + foldr Z.add 0 k.
Proof. induction l; simpl; lia. Qed.

Lemma sum_zeros n : foldr Z.add 0 (replicate n 0) = 0.
Proof. induction n; simpl; lia. Qed.

Lemma wsum_zeros n j : wsum (replicate n 0) j = 0.
Proof. unfold wsum. rewrite take_replicate. apply sum_zeros. Qed.

Lemma rebuild_loop ws done f :
  index_ok (mkIndex (done ++ replicate (length ws) 0) f) → Forall (λ w, 0 <= w) ws →
  foldr Z.add 0 (done ++ ws) <= u32_max →
  index_ok (mkIndex (done ++ ws)
    (foldl (λ f i_w, add_u32 f (Z.of_nat i_w.1 + 1) i_w.2) f
       (imap (λ i w, ((length done + i)%nat, w)) ws))).
Proof.
  revert done f. induction ws as [|w ws IH]; intros dn f Hok Hw Ht; [done|].
  inversion Hw as [|? ? Hw0 Hws]; subst. cbn [imap foldl]. cbn [fst snd]. rewrite Nat.add_0_r.
  specialize (IH (dn ++ [w])). rewrite <-!app_assoc, length_app in IH. cbn [app length] in IH.
  assert (imap (λ i w0, ((length dn + 1 + i)%nat, w0)) ws =
          imap ((λ i w0, ((length dn + i)%nat, w0)) ∘ S) ws) as E.
  { apply imap_ext. intros i x _. simpl. f_equal. lia. }
  rewrite E in IH. apply IH; [|done|done]. clear IH E.
  assert (<[length dn := w]> (dn ++ 0 :: replicate (length ws) 0) = dn ++ w :: replicate (length ws) 0)
    as Ei.
  { rewrite insert_app_r_alt by lia. by rewrite Nat.sub_diag. }
  rewrite <-Ei. rewrite <-(Z.sub_0_r w) at 2. cbn [length replicate] in Hok.
  apply change_add_ok; [done| |done| |done].
  - rewrite lookup_app_r by lia. by rewrite Nat.sub_diag.
  - rewrite Ei, sum_app in *. simpl in *. rewrite sum_zeros. pose proof (wsum_bounds ws 0 Hws). lia.
Qed.

Lemma rebuild_ok ws :
  Forall (λ w, 0 <= w) ws → foldr Z.add 0 ws <= u32_max →
  index_ok (rebuild_from_weights ws) ∧ weights (rebuild_from_weights ws) = ws.
Proof.
  intros Hw Ht. assert (to_u32 <$> ws = ws) as E.
  { rewrite <-(list_fmap_id ws) at 2. apply list_fmap_ext. intros i w Hi. apply to_u32_exact.
    etrans; [exact (sum_ge_elem _ _ _ Hw Hi)|exact Ht]. }
  unfold rebuild_from_weights. rewrite E. split; [|done].
  apply (rebuild_loop ws []); [|done|done]. simpl. split; simpl.
  - apply Forall_replicate. lia.
  - rewrite sum_zeros. unfold u32_max. lia.
  - by rewrite !length_replicate.
  - split; [done|]. intros j Hj. rewrite !wsum_zeros. unfold fen.
    destruct ((0 :: replicate (length ws) 0) !! Z.to_nat j) as [z|] eqn:Ez; [|done].
    change (0 :: replicate (length ws) 0) with (replicate (S (length ws)) 0) in Ez.
    by apply lookup_replicate in Ez as [-> _].
Qed.

(** ** Search *)

Lemma double_loop_spec fuel len k :
  0 <= k → len <= 2 ^ (k + Z.of_nat fuel) →
  ∃ b, k <= b <= k + Z.of_nat fuel ∧ double_loop fuel len (2 ^ k) = 2 ^ b ∧ len <= 2 ^ b.
Proof.
  revert k. induction fuel as [|fuel IH]; intros k Hk Hl; simpl.
  - exists k. rewrite Z.add_0_r in Hl. split; [lia|done].
  - destruct (Z.ltb_spec (2 ^ k) len); [|exists k; split; [lia|done]].
    replace (Z.shiftl (2 ^ k) 1) with (2 ^ (k + 1)).
    + destruct (IH (k + 1)) as (b&Hb&E); [lia| |exists b; split; [lia|done]].
      etrans; [exact Hl|]. apply Z.pow_le_mono_r; lia.
    + rewrite Z.shiftl_mul_pow2, Z.pow_add_r by lia. done.
Qed.

Lemma shiftr_pow2 b : 0 <= b → Z.shiftr (2 ^ b) 1 = if decide (b = 0) then 0 else 2 ^ (b - 1).
Proof.
  intros Hb. rewrite Z.shiftr_div_pow2 by lia. case_decide as E; [by subst|].
  replace b with (b - 1 + 1) at 1 by lia. rewrite Z.pow_add_r by lia. by rewrite Z.div_mul.
Qed.

(** The descent keeps the greatest index found so far whose prefix sum is
    below the target; the answer lies in the next [2 * bit] indices. *)
Lemma descend_spec x target fuel b idx :
  index_ok x → 0 < target → 0 <= b → 0 <= idx < fen_len (fenwick x) → b + 1 < Z.of_nat fuel →
  (2 ^ (b + 1) | idx) → wsum (weights x) idx < target →
  (fen_len (fenwick x) <= idx + 2 ^ (b + 1) ∨ target <= wsum (weights x) (idx + 2 ^ (b + 1))) →
  let r := descend fuel (fenwick x) target idx (2 ^ b) (wsum (weights x) idx) in
  0 <= r < fen_len (fenwick x) ∧ wsum (weights x) r < target ∧
  (fen_len (fenwick x) <= r + 1 ∨ target <= wsum (weights x) (r + 1)).
Proof.
  intros Hok Ht. pose proof Hok as [Hw Htot Hl Hf]. revert b idx.
  induction fuel as [|fuel IH]; intros b idx Hb Hi Hfu [q Hq] Hlt Hup; [lia|].
  assert (0 < 2 ^ b) as Hpb by (apply Z.pow_pos_nonneg; lia).
  rewrite Z.pow_add_r in Hq, Hup by lia. cbn [descend].
  rewrite (proj2 (Z.ltb_lt 0 (2 ^ b))) by done.
  assert (∀ i, 0 <= i < fen_len (fenwick x) → wsum (weights x) i < target →
    (2 ^ b | i) → (fen_len (fenwick x) <= i + 2 ^ b ∨ target <= wsum (weights x) (i + 2 ^ b)) →
    let r := descend fuel (fenwick x) target i (Z.shiftr (2 ^ b) 1) (wsum (weights x) i) in
    0 <= r < fen_len (fenwick x) ∧ wsum (weights x) r < target ∧
    (fen_len (fenwick x) <= r + 1 ∨ target <= wsum (weights x) (r + 1))) as Hnext.
  { intros i Hir Hiw Hid Hiu. rewrite shiftr_pow2 by lia. case_decide as E.
    - subst. destruct fuel; simpl; [done|]. split; [lia|]. split; [done|]. exact Hiu.
    - apply IH; [lia|done|lia| |done|]; replace (b - 1 + 1) with b by lia; done. }
  destruct (Z.ltb_spec (idx + 2 ^ b) (fen_len (fenwick x))) as [Hin|Hout]; simpl.
  - assert (low (idx + 2 ^ b) = 2 ^ b) as Elow.
    { replace (idx + 2 ^ b) with (2 ^ b * (2 * q + 1)) by (subst; ring).
      apply low_odd; [lia|]. nia. }
    assert (sat_add64 (wsum (weights x) idx) (fen (fenwick x) (idx + 2 ^ b)) =
            wsum (weights x) (idx + 2 ^ b)) as ->.
    { rewrite (proj2 Hf) by lia. rewrite Elow.
      replace (idx + 2 ^ b - 2 ^ b) with idx by lia.
      pose proof (wsum_bounds (weights x) (idx + 2 ^ b) Hw). pose proof (u32_le_u64 _ Htot).
      rewrite sat_add64_exact; lia. }
    destruct (Z.ltb_spec (wsum (weights x) (idx + 2 ^ b)) target) as [Hc|Hc].
    + apply Hnext; [lia|done| |].
      * exists (2 * q + 1). subst. ring.
      * replace (idx + 2 ^ b + 2 ^ b) with (idx + 2 ^ b * 2 ^ 1) by ring. done.
    + apply Hnext; [lia|done| |by right]. exists (2 * q). subst. ring.
  - apply Hnext; [lia|done| |by left]. exists (2 * q). subst. ring.
Qed.

(** The search returns the entry that holds the [target]-th unit. *)
Lemma lower_bound_ok x target :
  index_ok x → 0 < target <= foldr Z.add 0 (weights x) →
  ∃ r, lower_bound x target = Some r ∧ 0 <= r < fen_len (weights x) ∧
       wsum (weights x) r < target <= wsum (weights x) (r + 1).
Proof.
  intros Hok Ht. pose proof Hok as [Hw Htot Hl Hf]. unfold lower_bound.
  rewrite (proj2 (Z.eqb_neq target 0)) by lia.
  rewrite bool_decide_eq_false_2 by (intros E; rewrite E in Ht; simpl in Ht; lia). cbn [orb].
  rewrite prefix_sum_ok by (done || unfold fen_len; lia).
  rewrite (proj2 (Z.ltb_ge _ _)) by (rewrite wsum_full by (unfold fen_len; lia); lia).
  eexists. split; [done|].
  assert (∃ b, 0 <= b <= Z.of_nat (length (fenwick x)) ∧
    double_loop (length (fenwick x)) (fen_len (fenwick x)) 1 = 2 ^ b ∧
    fen_len (fenwick x) <= 2 ^ b) as (b&Hb&->&Hlen).
  { apply (double_loop_spec _ _ 0); [lia|]. unfold fen_len.
    rewrite Z.add_0_l. apply Z.lt_le_incl, Z.pow_gt_lin_r; lia. }
  assert (0 < 2 ^ b) as Hpb by (apply Z.pow_pos_nonneg; lia).
  assert (fen_len (fenwick x) = fen_len (weights x) + 1) as Efl by (unfold fen_len; lia).
  pose proof (descend_spec x target (S (S (length (fenwick x)))) b 0 Hok) as Hd.
  cbv zeta in Hd. rewrite wsum_0 in Hd.
  destruct Hd as (Hr&Hlt&Hup); [lia|lia|unfold fen_len in *; lia|lia|apply Z.divide_0_r|lia| |].
  { left. rewrite Z.pow_add_r by lia. lia. }
  set (r := descend _ _ _ _ _ _) in *.
  assert (r < fen_len (weights x)) as Hrl.
  { destruct (Z.lt_ge_cases r (fen_len (weights x))); [done|].
    rewrite (wsum_full _ r) in Hlt by (unfold fen_len in *; lia). lia. }
  split; [lia|]. split; [done|]. destruct Hup; [lia|done].
Qed.

Lemma select_offset_ok x offset :
  index_ok x → 0 <= offset < foldr Z.add 0 (weights x) →
  ∃ e k, select_offset x offset = Some (e, k) ∧ 0 <= e < fen_len (weights x) ∧
    offset = wsum (weights x) e + k ∧ 0 <= k < wsum (weights x) (e + 1) - wsum (weights x) e.
Proof.
  intros Hok Ho. unfold select_offset, total_len.
  assert (prefix_sum x (fen_len (weights x)) = foldr Z.add 0 (weights x)) as ->.
  { rewrite prefix_sum_ok by (done || unfold fen_len; lia). apply wsum_full. unfold fen_len. lia. }
  rewrite (proj2 (Z.leb_gt _ _)) by lia.
  destruct (lower_bound_ok x (offset + 1)) as (r&->&Hr&Hs); [done|lia|].
  exists r, (offset - wsum (weights x) r). rewrite prefix_sum_ok by (done || lia).
  unfold sat_sub. split; [|lia]. do 2 f_equal. lia.
Qed.

Lemma select_offset_none x offset :
  index_ok x → foldr Z.add 0 (weights x) <= offset → select_offset x offset = None.
Proof.
  intros Hok Ho. unfold select_offset, total_len.
  rewrite prefix_sum_ok, wsum_full by (done || unfold fen_len; lia).
  by rewrite (proj2 (Z.leb_le _ _)) by lia.
Qed.

(** ** Contract *)

(** A rebuild followed by any number of weight changes. *)
Definition run_index (ws : list Z) (ups : list (nat * Z)) : CountedPositionIndex :=
  foldl (λ x '(i, w), update_weight x i w) (rebuild_from_weights ws) ups.
Definition run_weights (ws : list Z) (ups : list (nat * Z)) : list Z :=
  foldl (λ ws '(i, w), <[i := w]> ws) ws ups.
(** Every list of weights on the way has counters that fit 32 bits. *)
Definition fits (ws : list Z) : Prop := Forall (λ w, 0 <= w) ws ∧ foldr Z.add 0 ws <= u32_max.

Lemma run_index_ok ws ups :
  Forall (λ u, u.1 < length ws)%nat ups → (∀ k, fits (run_weights ws (take k ups))) →
  index_ok (run_index ws ups) ∧ weights (run_index ws ups) = run_weights ws ups ∧
  length (run_weights ws ups) = length ws.
Proof.
  intros Hix. induction ups as [|[i w] ups IH] using rev_ind; intros Hfit.
  - destruct (Hfit 0%nat) as [Hw Ht]. destruct (rebuild_ok ws Hw Ht) as [Hok E]. done.
  - apply Forall_app in Hix as [Hix Hi]. rewrite Forall_singleton in Hi. simpl in Hi.
    destruct IH as (Hok&Ew&El); [done| |].
    { intros k. destruct (decide (k <= length ups)%nat) as [Hk|Hk].
      - specialize (Hfit k). by rewrite take_app_le in Hfit.
      - rewrite take_ge by lia. specialize (Hfit (length ups)). by rewrite take_app_length in Hfit. }
    specialize (Hfit (S (length ups))). rewrite take_ge in Hfit by (rewrite length_app; simpl; lia).
    unfold run_index, run_weights in *. rewrite !foldl_app in *. cbn [foldl] in *. destruct Hfit as [Hw Ht].
    destruct (update_weight_ok _ i w Hok) as [Hok' E].
    + rewrite Ew. by rewrite El.
    + rewrite Forall_forall in Hw. apply Hw. eapply list_elem_of_lookup_2, list_lookup_insert_eq. by rewrite El.
    + by rewrite Ew.
    + rewrite E, Ew, length_insert. done.
Qed.

(** The Fenwick tree is the prefix sums of the weights.  After a rebuild
    and any sequence of weight changes whose totals fit 32 bits, every prefix
    sum is the sum of the first weights, and the search for an offset returns
    the one entry that contains it with the remainder inside the entry, or
    nothing from the total on. *)
Theorem position_index_contract (ws : list Z) (ups : list (nat * Z)) (i : Z) :
  Forall (λ u, u.1 < length ws)%nat ups → (∀ k, fits (run_weights ws (take k ups))) → 0 <= i →
  let x := run_index ws ups in
  let cur := run_weights ws ups in
  prefix_sum x i = wsum cur i ∧ total_len x = foldr Z.add 0 cur ∧
  match select_offset x i with
  | Some (e, k) => ∃ w, cur !! Z.to_nat e = Some w ∧ 0 <= k < w ∧ i = wsum cur e + k
  | None => foldr Z.add 0 cur <= i
  end.
Proof.
  intros Hix Hfit Hi x cur. destruct (run_index_ok ws ups Hix Hfit) as (Hok&Ew&_). fold x cur in Hok, Ew.
  split; [by rewrite prefix_sum_ok, Ew|]. split.
  { unfold total_len, fen_len. rewrite prefix_sum_ok, wsum_full, Ew by (done || lia). done. }
  destruct (decide (i < foldr Z.add 0 cur)) as [Hlt|Hge].
  - destruct (select_offset_ok x i Hok) as (e&k&->&He&E&Hk); [by rewrite Ew|]. rewrite Ew in He, E, Hk.
    destruct (lookup_lt_is_Some_2 cur (Z.to_nat e)) as [w Hw]; [unfold fen_len in He; lia|].
    exists w. split; [done|]. split; [|done].
    assert (wsum cur (e + 1) = wsum cur e + w) as Es; [|lia].
    unfold wsum. replace (Z.to_nat (e + 1)) with (S (Z.to_nat e)) by lia.
    rewrite (take_S_r _ _ w), sum_app by done. simpl. lia.
  - rewrite select_offset_none; [lia|done|rewrite Ew; lia].
Qed.

Definition wit_ws : list Z := [3; 0; 5].
Definition wit_ups : list (nat * Z) := [(1%nat, 4); (0%nat, 2)].

Lemma position_index_witness :
  select_offset (run_index wit_ws wit_ups) 7 = Some (2, 1) ∧ run_weights wit_ws wit_ups = [2; 4; 5] ∧
  prefix_sum (run_index wit_ws wit_ups) 2 = wsum (run_weights wit_ws wit_ups) 2.
Proof.
  assert (∀ l, Forall (Z.le 0) l → (foldr Z.add 0 l <=? u32_max) = true → fits l) as Hl.
  { intros l Hl Hs. split; [done|]. by apply Z.leb_le. }
  split; [vm_compute; reflexivity|]. split; [reflexivity|].
  refine (proj1 (position_index_contract wit_ws wit_ups 2 _ _ _)); [repeat constructor| |lia].
  intros [|[|[|k]]]; (apply Hl; [repeat constructor; discriminate|vm_compute; reflexivity]).
Defined.
