(* ===== verification/Text.v ===== *)
(** The materialised text of one key (text.rs, [TextProjection]): a chunked
    list of all characters, tombstones included, with Fenwick indexes over
    visible characters and bytes.  Indexing that would panic in the source
    reads a default here; the invariant of TextChunks.v and TextDoc.v excludes it.  Wall-clock
    nanosecond counters are left out. *)

From S2P Require Import Prelude Op Node Fenwick TextState.

(** ** UTF-8 *)

(** [char::len_utf8] and [char::encode_utf8]. *)
Definition len_utf8 (ch : Z) : Z :=
  if ch <? 0x80 then 1 else if ch <? 0x800 then 2 else if ch <? 0x10000 then 3 else 4.
Definition encode_utf8 (ch : Z) : bytes :=
  let cont n := Z.lor 0x80 (Z.land (Z.shiftr ch n) 0x3F) in
  if ch <? 0x80 then [ch]
  else if ch <? 0x800 then [Z.lor 0xC0 (Z.shiftr ch 6); cont 0]
  else if ch <? 0x10000 then [Z.lor 0xE0 (Z.shiftr ch 12); cont 6; cont 0]
  else [Z.lor 0xF0 (Z.shiftr ch 18); cont 12; cont 6; cont 0].

(** ** Compact identities *)

Record CompactId := mkCid { actor_idx : Z; cid_lamport : Z }.
#[global] Instance CompactId_eq_dec : EqDecision CompactId.
Proof. solve_decision. Defined.
#[global] Program Instance CompactId_countable : Countable CompactId :=
  inj_countable' (λ c, (actor_idx c, cid_lamport c)) (λ p, mkCid p.1 p.2) _.
Next Obligation. by intros []. Qed.

Record ActorTable := mkActors { authors : list PublicKey; author_to_idx : gmap PublicKey Z }.
Definition actors_default : ActorTable := mkActors [] ∅.

(** [get_or_insert]; [len as u32] truncates. *)
Definition get_or_insert (t : ActorTable) (author : PublicKey) : ActorTable * Z :=
  match author_to_idx t !! author with
  | Some i => (t, i)
  | None =>
      let i := Z.of_nat (length (authors t)) mod 2 ^ 32 in
      (mkActors (authors t ++ [author]) (<[author := i]> (author_to_idx t)), i)
  end.
Definition author_for_idx (t : ActorTable) (i : Z) : option PublicKey := authors t !! Z.to_nat i.

Definition cid_of_op_id (id : OpId) (t : ActorTable) : ActorTable * CompactId :=
  let '(t, i) := get_or_insert t (oid_author id) in (t, mkCid i (oid_lamport id)).
Definition cid_of_op_id_existing (id : OpId) (t : ActorTable) : option CompactId :=
  (λ i, mkCid i (oid_lamport id)) <$> author_to_idx t !! oid_author id.
Definition cid_to_op_id (c : CompactId) (t : ActorTable) : option OpId :=
  (λ a, mkOpId (cid_lamport c) a) <$> author_for_idx t (actor_idx c).

Definition compact_id_cmp (t : ActorTable) (l r : CompactId) : comparison :=
  match cmp (cid_lamport l) (cid_lamport r) with
  | Eq => cmp (default (zeros 32) (author_for_idx t (actor_idx l)))
              (default (zeros 32) (author_for_idx t (actor_idx r)))
  | c => c
  end.

(** ** Chunks *)

Record Item := mkItem { item_id : CompactId; item_ch : Z; item_tomb : bool }.
Record Chunk := mkChunk { ck_items : list Item; ck_chars : Z; ck_bytes : Z; ck_pos : nat }.
Definition chunk_default : Chunk := mkChunk [] 0 0 0.

Definition CHUNK_SPLIT : nat := 128.

(** Visible characters and bytes of a run of items. *)
Definition count_chars (its : list Item) : Z := foldr (λ i n, (if item_tomb i then 0 else 1) + n) 0 its.
Definition count_bytes (its : list Item) : Z :=
  foldr (λ i n, (if item_tomb i then 0 else len_utf8 (item_ch i)) + n) 0 its.

(** [Chunk::recount]. *)
Definition recount (c : Chunk) : Chunk :=
  mkChunk (ck_items c) (count_chars (ck_items c)) (count_bytes (ck_items c)) (ck_pos c).

Record Loc := mkLoc { loc_pos : nat; loc_item : nat }.

(** Telemetry read through [debug_stats]. *)
Record Counters := mkCounters {
  full_rebuilds : Z; insert_ops : Z; delete_ops : Z; range_insert_ops : Z; range_delete_ops : Z;
  seq_calls : Z; string_calls : Z; range_calls : Z;
}.
Definition counters_default : Counters := mkCounters 0 0 0 0 0 0 0 0.

Record Dirty := mkDirty {
  last_dirty : option (Z * Z); dirty_ranges : list (Z * Z); dirty_merges : Z }.
Definition dirty_default : Dirty := mkDirty None [] 0.

Record TextProjection := mkProj {
  actors : ActorTable;
  chunks : list Chunk;
  free_slots : list nat;
  order : list nat;
  char_index : CountedPositionIndex;
  byte_index : CountedPositionIndex;
  id_to_chunk : gmap CompactId nat;
  pending_deletes : gset CompactId;
  orphans : gmap CompactId (list (CompactId * Z));
  orphan_ids : gset CompactId;
  visible_string : bytes;
  visible_total : Z;
  total_items : Z;
  tombstones : Z;
  dirty : Dirty;
  counters : Counters;
}.
Definition proj_default : TextProjection :=
  mkProj actors_default [] [] [] index_default index_default ∅ ∅ ∅ ∅ [] 0 0 0
    dirty_default counters_default.

Implicit Types p : TextProjection.

(** Field groups the methods write together. *)
Definition with_actors p t : TextProjection :=
  mkProj t (chunks p) (free_slots p) (order p) (char_index p) (byte_index p) (id_to_chunk p)
    (pending_deletes p) (orphans p) (orphan_ids p) (visible_string p) (visible_total p)
    (total_items p) (tombstones p) (dirty p) (counters p).
Definition with_chunks p cs free ord ids : TextProjection :=
  mkProj (actors p) cs free ord (char_index p) (byte_index p) ids (pending_deletes p) (orphans p)
    (orphan_ids p) (visible_string p) (visible_total p) (total_items p) (tombstones p) (dirty p)
    (counters p).
Definition with_indexes p ci bi : TextProjection :=
  mkProj (actors p) (chunks p) (free_slots p) (order p) ci bi (id_to_chunk p) (pending_deletes p)
    (orphans p) (orphan_ids p) (visible_string p) (visible_total p) (total_items p) (tombstones p)
    (dirty p) (counters p).
Definition with_pending p pd : TextProjection :=
  mkProj (actors p) (chunks p) (free_slots p) (order p) (char_index p) (byte_index p)
    (id_to_chunk p) pd (orphans p) (orphan_ids p) (visible_string p) (visible_total p)
    (total_items p) (tombstones p) (dirty p) (counters p).
Definition with_orphans p o oi : TextProjection :=
  mkProj (actors p) (chunks p) (free_slots p) (order p) (char_index p) (byte_index p)
    (id_to_chunk p) (pending_deletes p) o oi (visible_string p) (visible_total p) (total_items p)
    (tombstones p) (dirty p) (counters p).
Definition with_visible p s n total tombs : TextProjection :=
  mkProj (actors p) (chunks p) (free_slots p) (order p) (char_index p) (byte_index p)
    (id_to_chunk p) (pending_deletes p) (orphans p) (orphan_ids p) s n total tombs (dirty p)
    (counters p).
Definition with_dirty p d : TextProjection :=
  mkProj (actors p) (chunks p) (free_slots p) (order p) (char_index p) (byte_index p)
    (id_to_chunk p) (pending_deletes p) (orphans p) (orphan_ids p) (visible_string p)
    (visible_total p) (total_items p) (tombstones p) d (counters p).
Definition with_count p c : TextProjection :=
  mkProj (actors p) (chunks p) (free_slots p) (order p) (char_index p) (byte_index p)
    (id_to_chunk p) (pending_deletes p) (orphans p) (orphan_ids p) (visible_string p)
    (visible_total p) (total_items p) (tombstones p) (dirty p) c.

(** ** Dirty ranges *)

(** The merge loop of [record_dirty_range] over [dirty_ranges] from index
    [i]; every round advances or removes an entry. *)
Fixpoint dirty_loop (fuel i : nat) (rs : list (Z * Z)) (s e merges : Z) : list (Z * Z) * Z :=
  match fuel with
  | O => (take i rs ++ (s, e) :: drop i rs, merges)
  | S f =>
      match rs !! i with
      | None => (take i rs ++ (s, e) :: drop i rs, merges)
      | Some (s1, e1) =>
          if sat_add64 e1 1 <? s then dirty_loop f (S i) rs s e merges
          else if sat_add64 e 1 <? s1 then (take i rs ++ (s, e) :: drop i rs, merges)
          else dirty_loop f i (take i rs ++ drop (S i) rs) (Z.min s s1) (Z.max e e1) (sat_add64 merges 1)
      end
  end.
Definition record_dirty_range (d : Dirty) (start end_ : Z) : Dirty :=
  let s := Z.min start end_ in
  let e := Z.max start end_ in
  match last (dirty_ranges d) with
  | None => mkDirty (Some (s, e)) [(s, e)] (dirty_merges d)
  | Some (ts, te) =>
      let front := take (length (dirty_ranges d) - 1) (dirty_ranges d) in
      if s <=? sat_add64 te 1
      then mkDirty (Some (s, e)) (front ++ [(Z.min s ts, Z.max e te)]) (sat_add64 (dirty_merges d) 1)
      else if te <=? s then mkDirty (Some (s, e)) (dirty_ranges d ++ [(s, e)]) (dirty_merges d)
      else
        let '(rs, m) := dirty_loop (length (dirty_ranges d)) 0 (dirty_ranges d) s e (dirty_merges d) in
        mkDirty (Some (s, e)) rs m
  end.

(** ** Navigation *)

Definition chunk_at p (slot : nat) : Chunk := default chunk_default (chunks p !! slot).

(** [loc_of_id]. *)
Definition loc_of_id p (c : CompactId) : option Loc :=
  match id_to_chunk p !! c with
  | None => None
  | Some slot =>
      mkLoc (ck_pos (chunk_at p slot)) <$> position (λ it, bool_decide (item_id it = c)) (ck_items (chunk_at p slot))
  end.

(** [norm_item_loc]: skip to the next chunk that has an item there. *)
Fixpoint norm_loop (fuel : nat) p (l : Loc) : option Loc :=
  match fuel with
  | O => None
  | S f =>
      match order p !! loc_pos l with
      | None => None
      | Some slot =>
          if (loc_item l <? length (ck_items (chunk_at p slot)))%nat then Some l
          else norm_loop f p (mkLoc (S (loc_pos l)) 0)
      end
  end.
Definition norm_item_loc p (l : Loc) : option Loc := norm_loop (S (length (order p))) p l.

Definition item_default : Item := mkItem (mkCid 0 0) 0 false.
(** [item_at]. *)
Definition item_at p (l : Loc) : Item :=
  default item_default (ck_items (chunk_at p (default 0%nat (order p !! loc_pos l))) !! loc_item l).

(** [end_loc]. *)
Definition end_loc p : Loc :=
  mkLoc (length (order p) - 1)
    (from_option (λ slot, length (ck_items (chunk_at p slot))) 0%nat (last (order p))).

(** [visible_prefix_at] and [byte_prefix_at]. *)
Definition visible_prefix_at p (l : Loc) : Z :=
  let base := prefix_sum (char_index p) (Z.of_nat (loc_pos l)) in
  match order p !! loc_pos l with
  | None => base
  | Some slot => base + count_chars (take (loc_item l) (ck_items (chunk_at p slot)))
  end.
Definition byte_prefix_at p (l : Loc) : Z :=
  let base := prefix_sum (byte_index p) (Z.of_nat (loc_pos l)) in
  match order p !! loc_pos l with
  | None => base
  | Some slot => base + count_bytes (take (loc_item l) (ck_items (chunk_at p slot)))
  end.

(** The scan of one chunk in [loc_of_visible_offset]. *)
Fixpoint nth_visible (its : list Item) (k : Z) (idx : nat) : option nat :=
  match its with
  | [] => None
  | i :: its =>
      if item_tomb i then nth_visible its k (S idx)
      else if k =? 0 then Some idx else nth_visible its (k - 1) (S idx)
  end.
Definition loc_of_visible_offset p (offset : Z) : option Loc :=
  match select_offset (char_index p) offset with
  | None => None
  | Some (pos, k) =>
      match order p !! Z.to_nat pos with
      | None => None
      | Some slot => mkLoc (Z.to_nat pos) <$> nth_visible (ck_items (chunk_at p slot)) k 0
      end
  end.

(** [id_at_visible_offset], [visible_offset_of_id], [byte_offset_of_visible]. *)
Definition id_at_visible_offset p (offset : Z) : option OpId :=
  match loc_of_visible_offset p offset with
  | None => None
  | Some l => cid_to_op_id (item_id (item_at p l)) (actors p)
  end.
Definition visible_offset_of_id p (c : CompactId) : option Z :=
  match loc_of_id p c with
  | None => None
  | Some l => if item_tomb (item_at p l) then None else Some (visible_prefix_at p l)
  end.
Definition byte_offset_of_visible p (offset : Z) : Z :=
  match loc_of_visible_offset p offset with
  | Some l => byte_prefix_at p l
  | None => Z.of_nat (length (visible_string p))
  end.

(** ** Mutation *)

(** [rebuild_indexes]. *)
Definition rebuild_indexes p : TextProjection :=
  with_indexes p
    (rebuild_from_weights ((λ slot, ck_chars (chunk_at p slot)) <$> order p))
    (rebuild_from_weights ((λ slot, ck_bytes (chunk_at p slot)) <$> order p)).

(** [alloc_chunk]. *)
Definition alloc_chunk p : TextProjection * nat :=
  match last (free_slots p) with
  | Some slot =>
      (with_chunks p (<[slot := chunk_default]> (chunks p))
         (take (length (free_slots p) - 1) (free_slots p)) (order p) (id_to_chunk p), slot)
  | None =>
      (with_chunks p (chunks p ++ [chunk_default]) (free_slots p) (order p) (id_to_chunk p),
       length (chunks p))
  end.

Definition set_items (c : Chunk) (its : list Item) : Chunk :=
  mkChunk its (ck_chars c) (ck_bytes c) (ck_pos c).
Definition set_pos (c : Chunk) (i : nat) : Chunk := mkChunk (ck_items c) (ck_chars c) (ck_bytes c) i.

(** The renumbering loop of [split_chunk]. *)
Definition renumber (cs : list Chunk) (ord : list nat) (from : nat) : list Chunk :=
  foldl (λ cs i, match ord !! i with Some s => alter (λ c, set_pos c i) s cs | None => cs end)
    cs (seq from (length ord - from)).

(** [split_chunk]. *)
Definition split_chunk p (pos : nat) : TextProjection :=
  let slot := default 0%nat (order p !! pos) in
  let its := ck_items (chunk_at p slot) in
  let mid := (length its / 2)%nat in
  let moved := drop mid its in
  let p := with_chunks p (alter (λ c, set_items c (take mid its)) slot (chunks p))
             (free_slots p) (order p) (id_to_chunk p) in
  let '(p, new_slot) := alloc_chunk p in
  let ids := foldl (λ m it, <[item_id it := new_slot]> m) (id_to_chunk p) moved in
  let cs := alter (λ c, set_items c moved) new_slot (chunks p) in
  let cs := alter recount new_slot (alter recount slot cs) in
  let ord := take (S pos) (order p) ++ new_slot :: drop (S pos) (order p) in
  rebuild_indexes (with_chunks p (renumber cs ord (S pos)) (free_slots p) ord ids).

(** The scan of [integrate]: skip items of greater identity. *)
Fixpoint scan_loop (fuel : nat) p (c : CompactId) (l : Loc) : Loc :=
  match fuel with
  | O => l
  | S f =>
      match norm_item_loc p l with
      | None => end_loc p
      | Some nl =>
          match compact_id_cmp (actors p) (item_id (item_at p nl)) c with
          | Gt => scan_loop f p c (mkLoc (loc_pos nl) (S (loc_item nl)))
          | _ => nl
          end
      end
  end.

(** All items in document order, tombstones included. *)
Definition flat p : list Item := order p ≫= λ slot, ck_items (chunk_at p slot).

(** The first chunk of an empty projection. *)
Definition ensure_chunk p : TextProjection :=
  match order p with
  | [] =>
      let '(p, slot) := alloc_chunk p in
      rebuild_indexes (with_chunks p (alter (λ c, set_pos c 0%nat) slot (chunks p)) (free_slots p)
                         (order p ++ [slot]) (id_to_chunk p))
  | _ => p
  end.

Definition integrate_start p (parent : option CompactId) : Loc :=
  match parent with
  | None => mkLoc 0 0
  | Some c =>
      let l := default (end_loc p) (loc_of_id p c) in mkLoc (loc_pos l) (S (loc_item l))
  end.

(** Writing a visible character into the chunk, the indexes and the string. *)
Definition show_char p (l : Loc) (slot : nat) (ch vis_idx byte_off : Z) : TextProjection :=
  let cs := alter (λ c, mkChunk (ck_items c) (ck_chars c + 1) (ck_bytes c + len_utf8 ch) (ck_pos c))
              slot (chunks p) in
  let p := with_chunks p cs (free_slots p) (order p) (id_to_chunk p) in
  let p := with_indexes p
             (update_weight (char_index p) (loc_pos l) (ck_chars (chunk_at p slot)))
             (update_weight (byte_index p) (loc_pos l) (ck_bytes (chunk_at p slot))) in
  let s := if byte_off =? Z.of_nat (length (visible_string p))
           then visible_string p ++ encode_utf8 ch
           else take (Z.to_nat byte_off) (visible_string p) ++ encode_utf8 ch
                ++ drop (Z.to_nat byte_off) (visible_string p) in
  let p := with_visible p s (visible_total p + 1) (total_items p) (tombstones p) in
  with_dirty p (record_dirty_range (dirty p) vis_idx (vis_idx + 1)).

(** The second half of [integrate]: insert at the location the scan found,
    clamped into its chunk, and split a chunk that grew too long. *)
Definition insert_item p (l : Loc) (c : CompactId) (ch : Z) : TextProjection :=
  let slot := default 0%nat (order p !! loc_pos l) in
  let l := mkLoc (loc_pos l) (Nat.min (loc_item l) (length (ck_items (chunk_at p slot)))) in
  let deleted := bool_decide (c ∈ pending_deletes p) in
  let p := with_pending p (pending_deletes p ∖ {[c]}) in
  let vis_idx := if deleted then 0 else visible_prefix_at p l in
  let byte_off := if deleted then 0 else byte_prefix_at p l in
  let its := ck_items (chunk_at p slot) in
  let cs := alter (λ k, set_items k (take (loc_item l) its ++ mkItem c ch deleted :: drop (loc_item l) its))
              slot (chunks p) in
  let p := with_chunks p cs (free_slots p) (order p) (<[c := slot]> (id_to_chunk p)) in
  let p := with_visible p (visible_string p) (visible_total p) (total_items p + 1)
             (tombstones p + if deleted then 1 else 0) in
  let p := if deleted then p else show_char p l slot ch vis_idx byte_off in
  if (CHUNK_SPLIT <? length (ck_items (chunk_at p slot)))%nat then split_chunk p (loc_pos l) else p.

(** [integrate].  The scan passes each item once, so their number bounds it. *)
Definition integrate p (c : CompactId) (parent : option CompactId) (ch : Z) : TextProjection :=
  let p := ensure_chunk p in
  insert_item p (scan_loop (S (S (length (flat p)))) p c (integrate_start p parent)) c ch.

(** [drain_orphans_of]: a stack of parents; every child leaves the buffer
    when it is pushed, so the buffered children bound the loop. *)
Fixpoint drain_loop (fuel : nat) p (stack : list CompactId) : TextProjection :=
  match fuel, stack with
  | O, _ | _, [] => p
  | S f, parent :: stack =>
      match orphans p !! parent with
      | None => drain_loop f p stack
      | Some children =>
          let p := with_orphans p (delete parent (orphans p)) (orphan_ids p) in
          let p := foldl (λ p '(child, ch),
                     integrate (with_orphans p (orphans p) (orphan_ids p ∖ {[child]})) child (Some parent) ch)
                     p children in
          drain_loop f p (reverse children.*1 ++ stack)
      end
  end.
Definition orphan_count p : nat := foldr (λ kv n, (length kv.2 + n)%nat) 0%nat (map_to_list (orphans p)).
Definition drain_orphans_of p (parent : CompactId) : TextProjection :=
  if decide (orphans p = ∅) then p else drain_loop (S (orphan_count p)) p [parent].

(** [delete_known]. *)
Definition delete_known p (c : CompactId) : TextProjection :=
  match loc_of_id p c with
  | None => with_pending p ({[c]} ∪ pending_deletes p)
  | Some l =>
      if item_tomb (item_at p l) then p
      else
        let k := counters p in
        let vis_idx := visible_prefix_at p l in
        let byte_off := byte_prefix_at p l in
        let slot := default 0%nat (order p !! loc_pos l) in
        let n := len_utf8 (item_ch (item_at p l)) in
        let cs := alter (λ c, mkChunk (alter (λ i, mkItem (item_id i) (item_ch i) true) (loc_item l) (ck_items c))
                                (ck_chars c - 1) (ck_bytes c - n) (ck_pos c)) slot (chunks p) in
        let p := with_count p (mkCounters (full_rebuilds k) (insert_ops k) (sat_add64 (delete_ops k) 1)
                   (range_insert_ops k) (range_delete_ops k) (seq_calls k) (string_calls k) (range_calls k)) in
        let p := with_chunks p cs (free_slots p) (order p) (id_to_chunk p) in
        let p := with_indexes p
                   (update_weight (char_index p) (loc_pos l) (ck_chars (chunk_at p slot)))
                   (update_weight (byte_index p) (loc_pos l) (ck_bytes (chunk_at p slot))) in
        let p := with_visible p
                   (take (Z.to_nat byte_off) (visible_string p)
                    ++ drop (Z.to_nat (byte_off + n)) (visible_string p))
                   (visible_total p - 1) (total_items p) (tombstones p + 1) in
        with_dirty p (record_dirty_range (dirty p) vis_idx vis_idx)
  end.

(** ** The apply API *)

(** [apply_insert]. *)
Definition count_insert p : TextProjection :=
  let k := counters p in
  with_count p (mkCounters (full_rebuilds k) (sat_add64 (insert_ops k) 1) (delete_ops k)
    (range_insert_ops k) (range_delete_ops k) (seq_calls k) (string_calls k) (range_calls k)).
Definition proj_apply_insert p (id : OpId) (after : option OpId) (ch : Z) : TextProjection :=
  let '(t, c) := cid_of_op_id id (actors p) in
  let p := with_actors p t in
  if bool_decide (is_Some (id_to_chunk p !! c)) || bool_decide (c ∈ orphan_ids p) then p
  else
    let p := count_insert p in
    match after with
    | Some a =>
        let '(t, pc) := cid_of_op_id a (actors p) in
        let p := with_actors p t in
        if decide (is_Some (id_to_chunk p !! pc))
        then drain_orphans_of (integrate p c (Some pc) ch) c
        else with_orphans p (<[pc := default [] (orphans p !! pc) ++ [(c, ch)]]> (orphans p))
               ({[c]} ∪ orphan_ids p)
    | None => drain_orphans_of (integrate p c None ch) c
    end.

(** [apply_delete]. *)
Definition proj_apply_delete p (target : OpId) : TextProjection :=
  match cid_of_op_id_existing target (actors p) with
  | None =>
      let '(t, c) := cid_of_op_id target (actors p) in
      let p := with_actors p t in with_pending p ({[c]} ∪ pending_deletes p)
  | Some c =>
      if decide (is_Some (id_to_chunk p !! c)) then delete_known p c
      else with_pending p ({[c]} ∪ pending_deletes p)
  end.

(** [resolve_anchor_index] and [resolve_anchor_after_visible]. *)
Definition resolve_anchor_index p (a : TextRangeAnchor) : Z :=
  match a with
  | AnchorStart => 0
  | AnchorEnd => visible_total p
  | AnchorOffset i => Z.min i (visible_total p)
  | AnchorAfter id =>
      match cid_of_op_id_existing id (actors p) with
      | None => visible_total p
      | Some c =>
          match visible_offset_of_id p c with Some o => o + 1 | None => visible_total p end
      end
  end.
Definition resolve_anchor_after_visible p (a : TextRangeAnchor) : option OpId :=
  let idx := resolve_anchor_index p a in
  if idx =? 0 then None else id_at_visible_offset p (idx - 1).

(** [apply_range_insert]. *)
Definition proj_apply_range_insert p (base_lamport : Z) (author : PublicKey) (a : TextRangeAnchor)
    (text : list Z) : TextProjection :=
  match text with
  | [] => p
  | _ =>
      let k := counters p in
      let p := with_count p (mkCounters (full_rebuilds k) (insert_ops k) (delete_ops k)
                 (sat_add64 (range_insert_ops k) 1) (range_delete_ops k) (seq_calls k)
                 (string_calls k) (range_calls k)) in
      (foldl (λ '(p, after) '(i, ch),
         let id := mkOpId (sat_add64 base_lamport (Z.of_nat i)) author in
         (proj_apply_insert p id after ch, Some id))
        (p, resolve_anchor_after_visible p a) (imap pair text)).1
  end.

(** [apply_range_delete]. *)
Fixpoint range_delete_loop (count : nat) p (start : Z) : TextProjection :=
  match count with
  | O => p
  | S n =>
      match loc_of_visible_offset p start with
      | None => p
      | Some l => range_delete_loop n (delete_known p (item_id (item_at p l))) start
      end
  end.
Definition proj_apply_range_delete p (a : TextRangeAnchor) (len_chars : Z) : TextProjection :=
  if len_chars =? 0 then p
  else
    let k := counters p in
    let p := with_count p (mkCounters (full_rebuilds k) (insert_ops k) (delete_ops k)
               (range_insert_ops k) (sat_add64 (range_delete_ops k) 1) (seq_calls k)
               (string_calls k) (range_calls k)) in
    let start := resolve_anchor_index p a in
    let count := Z.min len_chars (sat_sub (visible_total p) start) in
    range_delete_loop (Z.to_nat count) p start.

(** [apply_node]. *)
Definition proj_apply_op (n : SyncNode) (key : bytes) p (o : Op) : TextProjection :=
  match o with
  | OpText (TextInsert k after ch) =>
      if decide (k = key)
      then proj_apply_insert p (mkOpId (node_lamport n) (tx_author (node_tx n))) after ch else p
  | OpText (TextDelete k target) => if decide (k = key) then proj_apply_delete p target else p
  | OpText (TextInsertRange k a text) =>
      if decide (k = key)
      then proj_apply_range_insert p (node_lamport n) (tx_author (node_tx n)) a text else p
  | OpText (TextDeleteRange k a len) =>
      if decide (k = key) then proj_apply_range_delete p a len else p
  | _ => p
  end.
Definition proj_apply_node p (n : SyncNode) (key : bytes) : TextProjection :=
  foldl (proj_apply_op n key) p (node_ops n).

(** [apply_updates_coalesced]. *)
Definition proj_apply_update p (u : ProjectionUpdateOp) : TextProjection :=
  match u with
  | UpdInsert id after ch => proj_apply_insert p id after ch
  | UpdDelete target => proj_apply_delete p target
  end.
Definition proj_apply_updates p (us : list ProjectionUpdateOp) : TextProjection :=
  foldl proj_apply_update p us.

(** ** Reads *)

(** [build_visible_seq_pairs]. *)
Definition build_visible_seq_pairs p : list (OpId * Z) :=
  omap (λ i, if item_tomb i then None
             else (λ id, (id, item_ch i)) <$> cid_to_op_id (item_id i) (actors p)) (flat p).

Definition count_reads p (s t r : Z) : TextProjection :=
  let k := counters p in
  with_count p (mkCounters (full_rebuilds k) (insert_ops k) (delete_ops k) (range_insert_ops k)
    (range_delete_ops k) (sat_add64 (seq_calls k) s) (sat_add64 (string_calls k) t)
    (sat_add64 (range_calls k) r)).

(** [resolve_seq], [resolve_string], [resolve_string_range]. *)
Definition proj_resolve_seq p : TextProjection * list (OpId * Z) :=
  (count_reads p 1 0 0, build_visible_seq_pairs p).
Definition proj_resolve_string p : TextProjection * bytes := (count_reads p 0 1 0, visible_string p).
Definition proj_resolve_string_range p (start len : Z) : TextProjection * bytes :=
  let p := count_reads p 0 0 1 in
  if (len =? 0) || (visible_total p <=? start) then (p, [])
  else
    let b := byte_offset_of_visible p start in
    let e := byte_offset_of_visible p (sat_add64 start len) in
    (p, take (Z.to_nat (e - b)) (drop (Z.to_nat b) (visible_string p))).

(** [anchor_for_offset]. *)
Definition proj_anchor_for_offset p (offset : Z) : TextRangeAnchor :=
  if offset =? 0 then AnchorStart
  else if visible_total p <=? offset then AnchorEnd
  else match id_at_visible_offset p (sat_sub offset 1) with
       | Some id => AnchorAfter id
       | None => AnchorStart
       end.

(** The sums graph.rs takes over [debug_stats]. *)
Definition proj_read_calls p : Z :=
  let k := counters p in sat_add64 (sat_add64 (seq_calls k) (string_calls k)) (range_calls k).
Definition proj_write_calls p : Z :=
  let k := counters p in
  sat_add64 (sat_add64 (sat_add64 (insert_ops k) (delete_ops k)) (range_insert_ops k))
    (range_delete_ops k).
Definition proj_mark_rebuilt p : TextProjection :=
  let k := counters p in
  with_count p (mkCounters 1 (insert_ops k) (delete_ops k) (range_insert_ops k) (range_delete_ops k)
    (seq_calls k) (string_calls k) (range_calls k)).

(** The projection implements the interface the graph is written against. *)
#[global] Instance TextProjectionOps_proj : TextProjectionOps TextProjection := {|
  tp_default := proj_default;
  tp_mark_rebuilt := proj_mark_rebuilt;
  tp_apply_node := proj_apply_node;
  tp_apply_updates := proj_apply_updates;
  tp_resolve_seq := proj_resolve_seq;
  tp_resolve_string := proj_resolve_string;
  tp_visible_char_len := visible_total;
  tp_id_at_visible_offset := id_at_visible_offset;
  tp_offset_for_anchor := resolve_anchor_index;
  tp_anchor_for_offset := proj_anchor_for_offset;
  tp_read_calls := proj_read_calls;
  tp_write_calls := proj_write_calls;
|}.
