(* ===== verification/Utf8.v ===== *)
(** UTF-8 in the standard library: [String::from_utf8_lossy] and [str::from_utf8].
    An ill-formed sequence is replaced, as far as it could still have become a
    character, by one U+FFFD. *)

From S2P Require Import Prelude Hex Fenwick Text.

Definition between (lo hi b : Z) : bool := (lo <=? b) && (b <=? hi).
Definition is_cont (b : Z) : bool := between 128 191 b.
(** The second byte of a character of three and of four bytes. *)
Definition second_of_3 (b c : Z) : bool :=
  if b =? 224 then between 160 191 c else if b =? 237 then between 128 159 c else is_cont c.
Definition second_of_4 (b c : Z) : bool :=
  if b =? 240 then between 144 191 c else if b =? 244 then between 128 143 c else is_cont c.
Definition REPLACEMENT : bytes := [239; 191; 189].

Fixpoint from_utf8_lossy (s : bytes) : bytes :=
  match s with
  | [] => []
  | b :: s1 =>
      if b <? 128 then b :: from_utf8_lossy s1
      else if between 194 223 b then
        match s1 with
        | c1 :: s2 => if is_cont c1 then b :: c1 :: from_utf8_lossy s2 else REPLACEMENT ++ from_utf8_lossy s1
        | [] => REPLACEMENT
        end
      else if between 224 239 b then
        match s1 with
        | c1 :: s2 =>
            if second_of_3 b c1 then
              match s2 with
              | c2 :: s3 => if is_cont c2 then b :: c1 :: c2 :: from_utf8_lossy s3 else REPLACEMENT ++ from_utf8_lossy s2
              | [] => REPLACEMENT
              end
            else REPLACEMENT ++ from_utf8_lossy s1
        | [] => REPLACEMENT
        end
      else if between 240 244 b then
        match s1 with
        | c1 :: s2 =>
            if second_of_4 b c1 then
              match s2 with
              | c2 :: s3 =>
                  if is_cont c2 then
                    match s3 with
                    | c3 :: s4 => if is_cont c3 then b :: c1 :: c2 :: c3 :: from_utf8_lossy s4 else REPLACEMENT ++ from_utf8_lossy s3
                    | [] => REPLACEMENT
                    end
                  else REPLACEMENT ++ from_utf8_lossy s2
              | [] => REPLACEMENT
              end
            else REPLACEMENT ++ from_utf8_lossy s1
        | [] => REPLACEMENT
        end
      else REPLACEMENT ++ from_utf8_lossy s1
  end.

(** Unicode scalar values; their encoding is left as it is. *)
Definition is_scalar (c : Z) : Prop := 0 <= c < 55296 ∨ 57344 <= c < 1114112.
Definition utf8_of (cs : list Z) : bytes := cs ≫= encode_utf8.

Lemma cont_of z : is_cont (128 + z mod 64) = true.
Proof.
  pose proof (Z.mod_pos_bound z 64 eq_refl). unfold is_cont, between.
  destruct (Z.leb_spec 128 (128 + z mod 64)), (Z.leb_spec (128 + z mod 64) 191); done || lia.
Qed.
Lemma between_true lo hi b : lo <= b <= hi → between lo hi b = true.
Proof. intros ?. unfold between. destruct (Z.leb_spec lo b), (Z.leb_spec b hi); done || lia. Qed.
Lemma between_false lo hi b : ¬ lo <= b <= hi → between lo hi b = false.
Proof. intros ?. unfold between. destruct (Z.leb_spec lo b), (Z.leb_spec b hi); done || lia. Qed.

Lemma lor_add k m x : 0 <= m → 0 <= x < 2 ^ m → Z.lor (k * 2 ^ m) x = k * 2 ^ m + x.
Proof. intros Hm Hx. by rewrite <-lor_shiftl, Z.shiftl_mul_pow2. Qed.
Lemma cont_byte z : Z.lor 0x80 (Z.land z 0x3F) = 128 + z mod 64.
Proof.
  change 0x3F with (Z.ones 6). rewrite Z.land_ones by done. change 0x80 with (2 * 2 ^ 6) at 1.
  rewrite lor_add; [done|done|]. apply Z.mod_pos_bound. lia.
Qed.
Lemma encode_utf8_arith c : 0 <= c < 1114112 → encode_utf8 c =
  if c <? 0x80 then [c]
  else if c <? 0x800 then [192 + c / 64; 128 + c mod 64]
  else if c <? 0x10000 then [224 + c / 4096; 128 + (c / 64) mod 64; 128 + c mod 64]
  else [240 + c / 262144; 128 + (c / 4096) mod 64; 128 + (c / 64) mod 64; 128 + c mod 64].
Proof.
  intros Hc. unfold encode_utf8. rewrite !cont_byte, !Z.shiftr_div_pow2 by done. change (2 ^ 0) with 1. rewrite Z.div_1_r.
  change (2 ^ 6) with 64. change (2 ^ 12) with 4096. change (2 ^ 18) with 262144.
  destruct (Z.ltb_spec c 0x80); [done|]. destruct (Z.ltb_spec c 0x800).
  { change 0xC0 with (6 * 2 ^ 5). rewrite lor_add; [done|done|]. split; [apply Z.div_pos; lia|apply Z.div_lt_upper_bound; lia]. }
  destruct (Z.ltb_spec c 0x10000).
  { change 0xE0 with (14 * 2 ^ 4). rewrite lor_add; [done|done|]. split; [apply Z.div_pos; lia|apply Z.div_lt_upper_bound; lia]. }
  change 0xF0 with (30 * 2 ^ 3). rewrite lor_add; [done|done|]. split; [apply Z.div_pos; lia|apply Z.div_lt_upper_bound; lia].
Qed.

(** A scalar value comes through. *)
Lemma lossy_scalar c s : is_scalar c → from_utf8_lossy (encode_utf8 c ++ s) = encode_utf8 c ++ from_utf8_lossy s.
Proof.
  intros Hc. rewrite encode_utf8_arith by (unfold is_scalar in Hc; lia).
  pose proof (Z.div_mod c 64 ltac:(lia)). pose proof (Z.mod_pos_bound c 64 eq_refl).
  pose proof (Z.div_mod c 4096 ltac:(lia)). pose proof (Z.mod_pos_bound c 4096 eq_refl).
  pose proof (Z.div_mod c 262144 ltac:(lia)). pose proof (Z.mod_pos_bound c 262144 eq_refl).
  pose proof (Z.mod_pos_bound (c / 64) 64 eq_refl). pose proof (Z.mod_pos_bound (c / 4096) 64 eq_refl).
  assert (c / 64 / 64 = c / 4096 ∧ c / 4096 / 64 = c / 262144) as [E1 E2] by (rewrite !Z.div_div by lia; done).
  pose proof (Z.div_mod (c / 64) 64 ltac:(lia)). pose proof (Z.div_mod (c / 4096) 64 ltac:(lia)). rewrite E1, E2 in *. clear E1 E2.
  destruct (Z.ltb_spec c 0x80) as [L1|L1].
  { cbn [app from_utf8_lossy]. by rewrite (proj2 (Z.ltb_lt c 128)) by lia. }
  unfold is_scalar in Hc. destruct (Z.ltb_spec c 0x800) as [L2|L2].
  { cbn [app from_utf8_lossy]. rewrite (proj2 (Z.ltb_ge _ 128)) by lia. by rewrite between_true, cont_of by lia. }
  destruct (Z.ltb_spec c 0x10000) as [L3|L3]; cbn [app from_utf8_lossy]; rewrite (proj2 (Z.ltb_ge _ 128)) by lia;
    rewrite (between_false 194 223) by lia.
  - rewrite between_true by lia. assert (second_of_3 (224 + c / 4096) (128 + (c / 64) mod 64) = true) as ->; [|by rewrite cont_of].
    unfold second_of_3. destruct (Z.eqb_spec (224 + c / 4096) 224); [apply between_true; lia|].
    destruct (Z.eqb_spec (224 + c / 4096) 237); [apply between_true; lia|apply cont_of].
  - rewrite (between_false 224 239), between_true by lia.
    assert (second_of_4 (240 + c / 262144) (128 + (c / 4096) mod 64) = true) as ->; [|by rewrite !cont_of].
    unfold second_of_4. destruct (Z.eqb_spec (240 + c / 262144) 240); [apply between_true; lia|].
    destruct (Z.eqb_spec (240 + c / 262144) 244); [apply between_true; lia|apply cont_of].
Qed.
Lemma lossy_valid cs : Forall is_scalar cs → from_utf8_lossy (utf8_of cs) = utf8_of cs.
Proof.
  induction 1 as [|c cs Hc _ IH]; [done|]. unfold utf8_of. cbn [mbind list_bind]. rewrite lossy_scalar by done. by f_equal.
Qed.
