(* ===== verification/Toy.v ===== *)
(** Concrete stand-ins for the code the repository only calls, used by the
    examples that instantiate the theorems: a hash that pads or truncates to
    32 bytes, a serialiser for transactions, and signatures that repeat the
    byte of their key. *)

From S2P Require Import Prelude Op Node Policy Frontier Storage CacheFacts Fenwick TextState Text.
From S2P Require Import Graph GraphFacts GraphOps GraphBatch Replica.

Definition toy_byte (z : Z) : Z := z mod 256.
Definition toy_digest (b : bytes) : bytes := take 32 ((toy_byte <$> b) ++ zeros 32).
#[global] Instance Toy_Blake3 : Blake3 := toy_digest.

#[global] Instance Toy_Blake3Laws : Blake3Laws.
Proof.
  intros b. unfold blake3_hash, Toy_Blake3, toy_digest, byte_array. split.
  - rewrite length_take, length_app. unfold zeros. rewrite length_replicate. lia.
  - apply Forall_take, Forall_app. split.
    + apply Forall_fmap, Forall_forall. intros x _. unfold toy_byte, is_u8; simpl.
      pose proof (Z.mod_pos_bound x 256). lia.
    + apply Forall_replicate. unfold is_u8. lia.
Qed.

(** The lamport, the first byte of the author and the first bytes of the
    parents; decoding is not used. *)
Definition toy_tx (t : Transaction) : bytes :=
  tx_lamport t :: default 0 (head (tx_author t)) :: omap head (tx_parents t).
#[global] Instance Toy_Postcard_tx : Postcard Transaction :=
  {| pc_to := toy_tx; pc_from := λ b, Err b |}.

Definition toy_key (k : Z) : PublicKey := replicate 32 (toy_byte k).
Definition toy_sign (k : Z) (m : bytes) : bytes := replicate 64 (toy_byte k).
Definition toy_verify (pk : PublicKey) (m s : bytes) : bool :=
  bool_decide (s = replicate 64 (default 0 (head pk))).
#[global] Instance Toy_Ed25519 : Ed25519 := {|
  SigningKey := Z;
  ed_verifying_key := toy_key;
  ed_sign := toy_sign;
  ed_vk_ok := λ pk, bool_decide (length pk = 32%nat);
  ed_verify := toy_verify;
  ed_verify_batch := forallb (λ '(m, s, k), toy_verify k m s);
|}.

#[global] Instance Toy_Ed25519Laws : Ed25519Laws.
Proof.
  assert (∀ k n, byte_array n (replicate n (toy_byte k))) as Hb.
  { intros k n. split; [apply length_replicate|]. apply Forall_replicate.
    unfold is_u8, toy_byte. pose proof (Z.mod_pos_bound k 256). lia. }
  split; simpl.
  - done.
  - intros k m. by apply bool_decide_eq_true_2.
  - intros k m. apply Hb.
  - intros k. apply Hb.
Qed.

#[global] Instance Toy_Ed25519BatchLaws : Ed25519BatchLaws.
Proof.
  intros l m s k Hl Hin. simpl in Hl. rewrite forallb_forall in Hl.
  apply list_elem_of_In in Hin. exact (Hl _ Hin).
Qed.

#[global] Instance NodeStoreInfallible_mem : NodeStoreInfallible MemoryNodeStore.
Proof. intros s n. by eexists. Qed.

Definition toy_sk : @SigningKey Toy_Ed25519 := 5.

(** A graph over the memory store and the chunked projection. *)
Abbreviation ToyGraph := (StateGraph MemoryNodeStore TextProjection).
Definition toy_graph : ToyGraph := graph_with_store ∅.

(** Two independent writes by two authors. *)
Definition toy_node (k lamport : Z) (os : list Op) (ps : list Hash) : SyncNode :=
  node_new_signed (mkTx (toy_key k) lamport 0 os ps) k.
Definition toy_n1 : SyncNode :=
  toy_node 7 1 [OpMap (MapSet (bs "title") (bs "a")); OpList (ListInsert (bs "l") (bs "i") (bs "V"))] [].
Definition toy_n2 : SyncNode := toy_node 9 1 [OpMap (MapSet (bs "title") (bs "b"))] [].

Definition toy_g1 : ToyGraph := (apply_remote (apply_remote toy_graph toy_n1).1 toy_n2).1.
Definition toy_g2 : ToyGraph := (apply_remote (apply_remote toy_graph toy_n2).1 toy_n1).1.

(** The two replicas are reachable, hold the same nodes and are honest. *)
Lemma toy_reachable (n m : SyncNode) :
  prio_typed n → prio_typed m → reachable ((apply_remote (apply_remote toy_graph n).1 m).1 : ToyGraph).
Proof.
  intros Hn Hm. exists ∅. split; [done|].
  eapply rtc_l; [by apply (step_remote _ n None)|]. eapply rtc_l; [by apply (step_remote _ m None)|].
  constructor.
Qed.
Lemma toy_typed_1 : prio_typed toy_n1.
Proof. split; [by vm_compute|]. apply (bool_decide_unpack _). by vm_compute. Qed.
Lemma toy_typed_2 : prio_typed toy_n2.
Proof. split; [by vm_compute|]. apply (bool_decide_unpack _). by vm_compute. Qed.
Lemma toy_reachable_1 : reachable toy_g1.
Proof. apply toy_reachable; [apply toy_typed_1|apply toy_typed_2]. Qed.
Lemma toy_reachable_2 : reachable toy_g2.
Proof. apply toy_reachable; [apply toy_typed_2|apply toy_typed_1]. Qed.

Lemma toy_nodes_1 : all_nodes toy_g1 = [toy_n1; toy_n2].
Proof. by vm_compute. Qed.
Lemma toy_nodes_2 : all_nodes toy_g2 = [toy_n1; toy_n2].
Proof. by vm_compute. Qed.

Lemma toy_prios : node_prio toy_n1 ≠ node_prio toy_n2.
Proof. apply (bool_decide_unpack _). by vm_compute. Qed.
Lemma toy_honest : no_equivocation [toy_n1; toy_n2].
Proof.
  pose proof toy_prios as Hp. intros n m Hn Hm.
  rewrite !elem_of_cons, elem_of_nil in Hn, Hm. naive_solver.
Qed.
Lemma toy_collision_free : collision_free toy_g1 toy_g2.
Proof.
  intros n m. rewrite toy_nodes_1, toy_nodes_2. intros Hn Hm.
  assert (tx_hash (node_tx toy_n1) ≠ tx_hash (node_tx toy_n2)) as Hh
    by (apply (bool_decide_unpack _); by vm_compute).
  rewrite !elem_of_cons, elem_of_nil in Hn, Hm. naive_solver.
Qed.
Lemma toy_same_ids : same_ids toy_g1 toy_g2.
Proof.
  intros i. assert (g_nodes toy_g1 = g_nodes toy_g2) as ->; [|done].
  apply (bool_decide_unpack _). by vm_compute.
Qed.

(** ** Serialisers with the round-trip law *)

(** Any countable type has one: a single number. *)
Definition count_to `{Countable A} (a : A) : bytes := [Z.pos (encode a)].
Definition count_from `{Countable A} (b : bytes) : result bytes A :=
  match b with
  | [Z.pos p] => match decode p with Some a => Ok a | None => Err b end
  | _ => Err b
  end.
Definition count_postcard (A : Type) `{Countable A} : Postcard A :=
  {| pc_to := count_to; pc_from := count_from |}.
Lemma count_postcard_laws (A : Type) `{Countable A} : @PostcardLaws A (count_postcard A).
Proof. intros a. simpl. by rewrite decode_encode. Qed.

#[global] Program Instance MapOp_countable : Countable MapOp :=
  inj_countable'
    (λ o, match o with
          | MapSet k v => inl (inl (k, v))
          | MapDelete k => inr k
          | MapSetBlob k h => inl (inr (k, h))
          end)
    (λ s, match s with
          | inl (inl (k, v)) => MapSet k v
          | inr k => MapDelete k
          | inl (inr (k, h)) => MapSetBlob k h
          end) _.
Next Obligation. by intros []. Qed.
#[global] Program Instance ListOp_countable : Countable ListOp :=
  inj_countable'
    (λ o, match o with
          | ListInsert k i p => inl (inl (k, i, p))
          | ListDelete k i => inr (k, i)
          | ListMove k i p => inl (inr (k, i, p))
          end)
    (λ s, match s with
          | inl (inl (k, i, p)) => ListInsert k i p
          | inr (k, i) => ListDelete k i
          | inl (inr (k, i, p)) => ListMove k i p
          end) _.
Next Obligation. by intros []. Qed.
#[global] Program Instance TextRangeAnchor_countable : Countable TextRangeAnchor :=
  inj_countable'
    (λ a, match a with
          | AnchorStart => inl (inl ())
          | AnchorEnd => inl (inr ())
          | AnchorAfter i => inr (inl i)
          | AnchorOffset i => inr (inr i)
          end)
    (λ s, match s with
          | inl (inl _) => AnchorStart
          | inl (inr _) => AnchorEnd
          | inr (inl i) => AnchorAfter i
          | inr (inr i) => AnchorOffset i
          end) _.
Next Obligation. by intros []. Qed.
#[global] Program Instance TextOp_countable : Countable TextOp :=
  inj_countable'
    (λ o, match o with
          | TextInsert k a c => inl (inl (k, a, c))
          | TextDelete k t => inl (inr (k, t))
          | TextInsertRange k a t => inr (inl (k, a, t))
          | TextDeleteRange k a n => inr (inr (k, a, n))
          end)
    (λ s, match s with
          | inl (inl (k, a, c)) => TextInsert k a c
          | inl (inr (k, t)) => TextDelete k t
          | inr (inl (k, a, t)) => TextInsertRange k a t
          | inr (inr (k, a, n)) => TextDeleteRange k a n
          end) _.
Next Obligation. by intros []. Qed.
#[global] Program Instance Op_countable : Countable Op :=
  inj_countable'
    (λ o, match o with OpMap m => inl (inl m) | OpList l => inl (inr l) | OpText t => inr t end)
    (λ s, match s with inl (inl m) => OpMap m | inl (inr l) => OpList l | inr t => OpText t end) _.
Next Obligation. by intros []. Qed.
#[global] Instance WireTx_eq_dec : EqDecision WireTx.
Proof. solve_decision. Defined.
#[global] Program Instance WireTx_countable : Countable WireTx :=
  inj_countable'
    (λ t, (wtx_author t, wtx_lamport t, wtx_wall_ms t, wtx_ops t, wtx_parents t))
    (λ '(a, l, w, o, p), mkWireTx a l w o p) _.
Next Obligation. by intros []. Qed.
#[global] Instance WireNode_eq_dec : EqDecision WireNode.
Proof. solve_decision. Defined.
#[global] Program Instance WireNode_countable : Countable WireNode :=
  inj_countable'
    (λ n, (wn_id n, wn_tx n, wn_sig_lo n, wn_sig_hi n))
    (λ '(i, t, l, h), mkWireNode i t l h) _.
Next Obligation. by intros []. Qed.

#[global] Instance Toy_Postcard_ids : Postcard (list bytes) := count_postcard (list bytes).
#[global] Instance Toy_Postcard_ids_laws : PostcardLaws (list bytes).
Proof. apply count_postcard_laws. Qed.
#[global] Instance Toy_Postcard_wire : Postcard (list WireNode) := count_postcard (list WireNode).
#[global] Instance Toy_Postcard_wire_laws : PostcardLaws (list WireNode).
Proof. apply count_postcard_laws. Qed.
