(* ===== verification/GraphThms.v ===== *)
(** The properties of the sync graph: its invariant, admission, agreement of
    the caches with full replay, convergence, and batches. *)

From S2P Require Import Prelude Op Node Policy Frontier Storage Lww ListCrdt Conflicts Caches.
From S2P Require Import CacheFacts Fenwick TextState Text Graph GraphFacts GraphOps GraphBatch.
From S2P Require Import Replica Toy.

Section theorems.
Context `{Blake3, Postcard Transaction, Ed25519, !Ed25519Laws}.
Context {N : Type} `{NodeStoreLaws N, !NodeStoreInfallible N} {T : Type} `{TextProjectionOps T}.
Implicit Types g : StateGraph N T.

Abbreviation get g := (ns_get (g_nodes g)).

(** C19: in every graph a sequence of operations can reach, each stored node
    sits under the hash of its transaction, its parents are stored and its
    lamport is at most the clock; the leaves are exactly the stored ids that
    no stored node names as a parent; the frontier is the sorted,
    duplicate-free list of the leaves; every stored node is an ancestor of a
    leaf. *)
Theorem graph_invariant g :
  reachable g →
  (∀ i n, get g i = Some n →
     node_id n = i ∧ tx_hash (node_tx n) = i ∧ node_lamport n <= g_lamport g ∧
     ∀ p, p ∈ node_parents n → is_Some (get g p)) ∧
  (∀ i, i ∈ g_leaves g ↔ is_Some (get g i) ∧ ∀ j m, get g j = Some m → i ∉ node_parents m) ∧
  heads (g_frontier g) = sort (elements (g_leaves g)) ∧
  (∀ i, is_Some (get g i) → ∃ l, l ∈ g_leaves g ∧ rtc (parent_of g) l i).
Proof.
  intros [arr []]%reachable_ok. split_and!.
  - intros i n Hn. split_and!; eauto.
  - done.
  - apply sorted_lt_ext; [done|apply sort_lt_NoDup, NoDup_elements|].
    intros i. by rewrite ok_frontier, elem_of_sort, elem_of_elements.
  - done.
Qed.

(** C20: the incremental map caches return what a full replay of the stored nodes
    computes, for the speculative view over all nodes and for the canonical view
    without the local ones, in every graph the operations reach in which no author has
    signed two transactions with one lamport. *)
Theorem resolve_agrees_with_replay g :
  reachable g → no_equivocation (all_nodes g) →
  resolve g = graph_resolve_replay g false ∧ resolve_canonical g = graph_resolve_replay g true.
Proof.
  intros Hok%reachable_ok Hne. split; [by apply ok_resolve_replay|by apply ok_resolve_canonical].
Qed.

(** C21: the incremental list cache returns what the list resolver computes from the
    stored nodes above the initial priority, in every graph the operations reach in
    which no author has signed two transactions with one lamport. *)
Theorem resolve_list_agrees_with_replay g k :
  reachable g → no_equivocation (all_nodes g) →
  resolve_list g k = resolve_list_seq (live_nodes (all_nodes g)) k.
Proof.
  intros Hok%reachable_ok Hne. rewrite ok_resolve_list by done.
  apply resolve_list_seq_events. by rewrite <-!live_events_live_nodes, live_events_strip.
Qed.

(** C1: strong eventual consistency.  Two replicas that hold the same node
    ids, in whatever order the nodes arrived and whichever of them were made
    locally, return the same map, the same lists, the same frontier and the
    same Merkle root, if no two of their transactions collide under Blake3
    and no author signed two transactions with one lamport. *)
Theorem replicas_converge g1 g2 :
  reachable g1 → reachable g2 → same_ids g1 g2 → collision_free g1 g2 →
  no_equivocation (all_nodes g1) → no_equivocation (all_nodes g2) →
  resolve g1 = resolve g2 ∧ (∀ k, resolve_list g1 k = resolve_list g2 k) ∧
  g_frontier g1 = g_frontier g2 ∧ merkle_root g1 = merkle_root g2.
Proof.
  intros Hr1%reachable_ok Hr2%reachable_ok. by apply ok_converge.
Qed.

(** The Merkle root identifies the whole graph.  Two reachable graphs
    with the same root hold the same node ids, unless the hash collides on
    two stored transactions or on the two leaf lists. *)
Theorem merkle_root_identifies `{!Blake3Laws} g1 g2 :
  reachable g1 → reachable g2 → collision_free g1 g2 →
  (concat (sort (elements (g_leaves g1))) ≠ concat (sort (elements (g_leaves g2))) →
   merkle_root g1 ≠ merkle_root g2) →
  merkle_root g1 = merkle_root g2 → same_ids g1 g2.
Proof.
  intros Hr1%reachable_ok Hr2%reachable_ok Hc Hcl Hroot.
  pose proof (merkle_root_leaves g1 g2 Hr1 Hr2 Hcl Hroot) as Hl.
  intros i. split; [by apply same_leaves_ids|].
  apply same_leaves_ids; [done..|by apply collision_free_sym|done].
Qed.

(** C33: a remote node is accepted exactly when its id is the hash of its
    transaction, its lamport is within the slack of the local clock, its
    wall clock is not too far ahead, its signature verifies or its id was
    verified before, all parents are stored, the policy permits every
    operation (or it carries the snapshot marker) and it is not stored yet;
    acceptance stores it and nothing else. *)
Theorem apply_remote_accepts_iff g n now :
  (is_ok (apply_remote_checked g n now).2 = true ↔ remote_ok g n now) ∧
  (remote_ok g n now →
   ∀ i, get (apply_remote_checked g n now).1 i = if decide (i = node_id n) then Some n else get g i).
Proof.
  pose proof (apply_remote_checked_spec g n now) as Hs.
  destruct (apply_remote_checked g n now) as [g' [[]|e]]; simpl.
  - destruct Hs as (Hok&(_&_&Hg)&_). split; [done|]. by intros _.
  - destruct Hs as (Hn&_). split; done.
Qed.

(** A refused remote node changes nothing but the set of verified ids:
    store, leaves, frontier, clock, policy, caches and text stay. *)
Theorem apply_remote_refusal_inert g n now :
  is_ok (apply_remote_checked g n now).2 = false →
  let g' := (apply_remote_checked g n now).1 in
  g' = with_ids g (g_local_ids g) (g_verified g') ∧
  (g_verified g' = g_verified g ∨ g_verified g' = {[node_id n]} ∪ g_verified g).
Proof.
  pose proof (apply_remote_checked_spec g n now) as Hs.
  destruct (apply_remote_checked g n now) as [g' [[]|e]]; simpl; [done|]. intros _.
  destruct Hs as (_&[->| ->]); split; auto; by destruct g.
Qed.

(** A local write on a reachable graph succeeds with a node that names
    exactly the current leaves as parents and a lamport above every stored
    one; it can only fail when a different stored transaction has the hash
    of the new one. *)
Theorem apply_local_total g sk wall os :
  reachable g → g_lamport g < u64_max →
  let n := local_node g sk wall os in
  match (apply_local g sk wall os).2 with
  | Ok id => id = node_id n ∧ get (apply_local g sk wall os).1 id = Some n ∧
             node_lamport n = g_lamport g + 1 ∧ node_parents n = elements (g_leaves g)
  | Err _ => ∃ m, get g (node_id n) = Some m ∧ node_tx m ≠ node_tx n ∧
             tx_hash (node_tx m) = tx_hash (node_tx n)
  end.
Proof.
  intros Hok%reachable_ok Hlt n. pose proof (apply_local_spec g sk wall os Hok Hlt) as Hs.
  cbv zeta in Hs. fold n in Hs. pose proof Hok as [arr [? ? ? Hhash ? ? ? ? ? Hlam Hu]].
  assert (node_lamport n = g_lamport g + 1) as Hl.
  { unfold node_lamport, n. rewrite local_node_tx. simpl. by apply wrap_succ. }
  destruct (apply_local g sk wall os) as [g' [id|e]]; simpl.
  - destruct Hs as (->&_&_&Hg). rewrite Hg, decide_True by done. split_and!; try done.
    unfold node_parents, n. by rewrite local_node_tx.
  - destruct Hs as (_&[m Hm]&_). exists m. split; [done|]. split.
    + intros E. pose proof (Hlam _ _ Hm). unfold node_lamport in *. rewrite E in *. lia.
    + rewrite (Hhash _ _ Hm). symmetry. apply local_node_hash.
Qed.

(** A node made by a local write is accepted by every peer that has its
    parents, does not have it yet, is close enough in lamport and wall time
    and whose policy permits its operations: its hash and its signature
    always check. *)
Theorem local_node_accepted g g' sk wall os now :
  let n := local_node g sk wall os in
  (∀ p, p ∈ node_parents n → is_Some (get g' p)) → get g' (node_id n) = None →
  policy_permits (g_policy g') n → lamport_ok (g_lamport g') n → wall_ok now n →
  is_ok (apply_remote_checked g' n now).2 = true.
Proof.
  intros n Hp Hnew Hpol Hl Hw. pose proof (apply_remote_checked_spec g' n now) as Hs.
  assert (remote_ok g' n now) as Hr.
  { split_and!; try done; [apply local_node_hash|]. right. unfold n, local_node.
    destruct (g_local_signing g); [by apply verify_signature_own|].
    unfold verify_signature, sig_is_zero. by rewrite bool_decide_eq_true_2. }
  destruct (apply_remote_checked g' n now) as [? [[]|e]]; [done|]. by destruct Hs.
Qed.

(** Batched signature verification gives each node the verdict single
    verification would: verified before, or valid under its author's key. *)
Theorem verify_nodes_batched_correct `{!Ed25519BatchLaws} g ns :
  verify_nodes_batched g ns =
  (λ n, bool_decide (node_id n ∈ g_verified g) || is_ok (verify_signature n)) <$> ns.
Proof.
  apply list_eq. intros i. rewrite list_lookup_fmap. destruct (ns !! i) as [n|] eqn:E; simpl.
  - by apply verify_nodes_batched_lookup.
  - apply lookup_ge_None. rewrite verify_nodes_batched_length. by apply lookup_ge_None.
Qed.

(** A batch sorts every id it names that is not stored yet into exactly
    one of accepted and rejected, each once; the accepted ones are the ids it
    adds to the store. *)
Theorem batch_partition g ns now :
  let '(g', res) := apply_remote_batch_checked g ns now in
  NoDup (batch_accepted res ++ (batch_rejected res).*1) ∧
  (∀ i, i ∈ batch_accepted res ++ (batch_rejected res).*1 ↔
        i ∈ node_id <$> ns ∧ get g i = None) ∧
  (∀ i, is_Some (get g' i) ↔ is_Some (get g i) ∨ i ∈ batch_accepted res).
Proof. exact (batch_sorts g ns now). Qed.

(** What a batch accepts went through the same checks as a single node:
    the stored node comes from the batch, hashes to its id, is within the
    clock limits, verified (or was verified before), is permitted by the
    policy and has its parents stored. *)
Theorem batch_accepted_checked `{!Ed25519BatchLaws} g ns now i :
  let '(g', res) := apply_remote_batch_checked g ns now in
  i ∈ batch_accepted res →
  ∃ n, n ∈ ns ∧ get g' i = Some n ∧ node_id n = i ∧ tx_hash (node_tx n) = i ∧
    lamport_ok (g_lamport g) n ∧ wall_ok now n ∧
    (i ∈ g_verified g ∨ verify_signature n = Ok tt) ∧ policy_permits (g_policy g) n ∧
    ∀ p, p ∈ node_parents n → is_Some (get g' p).
Proof.
  unfold apply_remote_batch_checked. pose proof (admit_inv_all g now ns) as [_ _ _ Hc].
  destruct (foldl (batch_admit g now) _ ns) as [[tv rej] seen]. simpl in Hc.
  pose proof (apply_inv_all g rej (zip tv (verify_nodes_batched g tv))) as [_ _ _ Ha].
  destruct (foldl batch_apply _ _) as [[g' res] an]. simpl in *.
  intros (n&Hz&Hid&Hg&Hpol&Hpar)%Ha. exists n.
  apply elem_of_lookup_zip_with in Hz as (k&x&b&Hxb&Hx&Hb). simplify_eq.
  rewrite (verify_nodes_batched_lookup _ _ _ _ Hx) in Hb. injection Hb as Hb.
  assert (x ∈ tv) as (Hin&Hh&Hl&Hw)%Hc by by apply list_elem_of_lookup_2 with k.
  split_and!; try done. apply orb_true_iff in Hb as [Hb|Hb].
  - left. by apply bool_decide_eq_true in Hb.
  - right. by destruct (verify_signature x) as [[]|].
Qed.

(** The snapshot marker switches the write policy off: a node with one
    operation that sets the snapshot hash key gets the same verdict under
    every policy, whatever keys its other operations write. *)
Theorem snapshot_marker_ignores_policy g n now p :
  is_snapshot_node n = true →
  (apply_remote_checked (set_policy g p) n now).2 = Ok tt ↔
  (apply_remote_checked g n now).2 = Ok tt.
Proof.
  intros Hsn. pose proof (apply_remote_checked_spec g n now) as Hs.
  pose proof (apply_remote_checked_spec (set_policy g p) n now) as Hs'.
  assert (remote_ok (set_policy g p) n now ↔ remote_ok g n now) as E.
  { unfold remote_ok, admissible, policy_permits. simpl. naive_solver. }
  destruct (apply_remote_checked g n now) as [? [[]|]],
    (apply_remote_checked (set_policy g p) n now) as [? [[]|]]; simpl in *; naive_solver.
Qed.
End theorems.

(** ** Instances *)

Lemma graph_invariant_witness :
  reachable toy_g1 ∧ heads (g_frontier toy_g1) = sort (elements (g_leaves toy_g1)).
Proof. split; [exact toy_reachable_1|]. apply (graph_invariant toy_g1 toy_reachable_1). Defined.

Lemma resolve_agrees_witness :
  no_equivocation (all_nodes toy_g1) ∧ resolve toy_g1 = graph_resolve_replay toy_g1 false.
Proof.
  assert (no_equivocation (all_nodes toy_g1)) as Hne by (rewrite toy_nodes_1; apply toy_honest).
  split; [exact Hne|]. apply (resolve_agrees_with_replay toy_g1 toy_reachable_1 Hne).
Defined.

Lemma resolve_list_agrees_witness :
  no_equivocation (all_nodes toy_g1) ∧
  resolve_list toy_g1 (bs "l") = resolve_list_seq (live_nodes (all_nodes toy_g1)) (bs "l").
Proof.
  assert (no_equivocation (all_nodes toy_g1)) as Hne by (rewrite toy_nodes_1; apply toy_honest).
  split; [exact Hne|]. apply (resolve_list_agrees_with_replay toy_g1 (bs "l") toy_reachable_1 Hne).
Defined.

Lemma replicas_converge_witness :
  g_local_ids toy_g1 = ∅ ∧ resolve toy_g1 = resolve toy_g2.
Proof.
  split; [reflexivity|].
  apply (replicas_converge toy_g1 toy_g2 toy_reachable_1 toy_reachable_2 toy_same_ids toy_collision_free).
  - rewrite toy_nodes_1. apply toy_honest.
  - rewrite toy_nodes_2. apply toy_honest.
Defined.

Lemma merkle_root_identifies_witness :
  merkle_root toy_g1 = merkle_root toy_g2 ∧ same_ids toy_g1 toy_g2.
Proof.
  assert (merkle_root toy_g1 = merkle_root toy_g2) as Hr by (vm_compute; reflexivity).
  split; [exact Hr|].
  apply (merkle_root_identifies toy_g1 toy_g2 toy_reachable_1 toy_reachable_2 toy_collision_free);
    [|exact Hr].
  intros Hne. exfalso. apply Hne. vm_compute. reflexivity.
Defined.

(** A node with a forged signature is refused. *)
Definition toy_forged : SyncNode := mkNode (node_id toy_n1) (node_tx toy_n1) (replicate 64 1).
Lemma apply_remote_refusal_witness :
  is_ok (apply_remote_checked toy_graph toy_forged None).2 = false ∧
  (apply_remote_checked toy_graph toy_forged None).1 =
    with_ids toy_graph ∅ (g_verified (apply_remote_checked toy_graph toy_forged None).1).
Proof.
  assert (is_ok (apply_remote_checked toy_graph toy_forged None).2 = false) as E
    by (vm_compute; reflexivity).
  split; [exact E|]. apply (apply_remote_refusal_inert toy_graph toy_forged None E).
Defined.

Lemma apply_local_total_witness :
  (apply_local toy_g1 toy_sk 0 [OpMap (MapSet (bs "k") (bs "v"))]).2 =
    Ok (node_id (local_node toy_g1 toy_sk 0 [OpMap (MapSet (bs "k") (bs "v"))])) ∧
  node_lamport (local_node toy_g1 toy_sk 0 [OpMap (MapSet (bs "k") (bs "v"))]) = g_lamport toy_g1 + 1.
Proof.
  assert (g_lamport toy_g1 < u64_max) as Hl by (vm_compute; reflexivity).
  pose proof (apply_local_total toy_g1 toy_sk 0 [OpMap (MapSet (bs "k") (bs "v"))] toy_reachable_1 Hl) as Ht.
  cbv zeta in Ht.
  assert ((apply_local toy_g1 toy_sk 0 [OpMap (MapSet (bs "k") (bs "v"))]).2 =
    Ok (node_id (local_node toy_g1 toy_sk 0 [OpMap (MapSet (bs "k") (bs "v"))]))) as E
    by (vm_compute; reflexivity).
  rewrite E in Ht. split; [exact E|]. apply Ht.
Defined.

Lemma local_node_accepted_witness :
  is_ok (apply_remote_checked toy_graph (local_node toy_graph toy_sk 0 [OpMap (MapSet (bs "k") (bs "v"))]) None).2
  = true.
Proof.
  apply (local_node_accepted toy_graph toy_graph toy_sk 0 [OpMap (MapSet (bs "k") (bs "v"))] None).
  - intros p Hp. apply elem_of_nil in Hp as [].
  - reflexivity.
  - right. intros o Ho. apply list_elem_of_singleton in Ho as ->. reflexivity.
  - vm_compute. discriminate.
  - exact I.
Defined.

Definition toy_batch : ToyGraph * BatchResult :=
  apply_remote_batch_checked toy_graph [toy_n1; toy_forged; toy_n2] None.
Lemma batch_accepted_checked_witness :
  node_id toy_n2 ∈ batch_accepted toy_batch.2 ∧
  ∃ n, n ∈ [toy_n1; toy_forged; toy_n2] ∧ ns_get (g_nodes toy_batch.1) (node_id toy_n2) = Some n ∧
    (node_id toy_n2 ∈ g_verified toy_graph ∨ verify_signature n = Ok tt).
Proof.
  assert (node_id toy_n2 ∈ batch_accepted toy_batch.2) as Hin
    by (apply (bool_decide_unpack _); vm_compute; exact I).
  split; [exact Hin|].
  pose proof (batch_accepted_checked toy_graph [toy_n1; toy_forged; toy_n2] None (node_id toy_n2)) as Hb.
  change (apply_remote_batch_checked toy_graph [toy_n1; toy_forged; toy_n2] None) with toy_batch in Hb.
  destruct toy_batch as [g res]. simpl in Hin. destruct (Hb Hin) as (n&?&?&_&_&_&_&?&_). by exists n.
Defined.

(** A node that carries the marker and overwrites another key. *)
Definition toy_marked : SyncNode :=
  toy_node 3 1 [OpMap (MapSet SNAP_HASH_KEY (bs "x")); OpMap (MapSet (bs "title") (bs "owned"))] [].
Definition toy_deny : Policy := mkPolicy [] DenyAll.
Lemma snapshot_marker_witness :
  is_snapshot_node toy_marked = true ∧ can_write toy_deny (bs "title") (toy_key 3) = false ∧
  (apply_remote_checked (set_policy toy_graph toy_deny) toy_marked None).2 = Ok tt.
Proof.
  split; [reflexivity|]. split; [reflexivity|].
  apply (snapshot_marker_ignores_policy toy_graph toy_marked None toy_deny); [reflexivity|].
  vm_compute. reflexivity.
Defined.

Lemma apply_remote_accepts_witness :
  is_ok (apply_remote_checked toy_graph toy_n1 None).2 = true ∧ remote_ok toy_graph toy_n1 None ∧
  ¬ remote_ok toy_graph toy_forged None.
Proof.
  assert (is_ok (apply_remote_checked toy_graph toy_n1 None).2 = true) as E by (vm_compute; reflexivity).
  split; [exact E|]. split.
  - apply (proj1 (apply_remote_accepts_iff toy_graph toy_n1 None)). exact E.
  - intros Hok. apply (proj1 (apply_remote_accepts_iff toy_graph toy_forged None)) in Hok.
    vm_compute in Hok. discriminate Hok.
Defined.

Lemma verify_nodes_batched_witness :
  verify_nodes_batched toy_graph [toy_n1; toy_forged; toy_n2] = [true; false; true].
Proof.
  rewrite (verify_nodes_batched_correct toy_graph [toy_n1; toy_forged; toy_n2]).
  vm_compute. reflexivity.
Defined.

Lemma batch_partition_witness :
  batch_accepted toy_batch.2 = [node_id toy_n1; node_id toy_n2] ∧
  ∀ i, is_Some (ns_get (g_nodes toy_batch.1) i) ↔
       is_Some (ns_get (g_nodes toy_graph) i) ∨ i ∈ batch_accepted toy_batch.2.
Proof.
  split; [vm_compute; reflexivity|].
  pose proof (batch_partition toy_graph [toy_n1; toy_forged; toy_n2] None) as Hb.
  change (apply_remote_batch_checked toy_graph [toy_n1; toy_forged; toy_n2] None) with toy_batch in Hb.
  destruct toy_batch as [g res]. apply Hb.
Defined.
