(* ===== verification/Replay.v ===== *)
(** Deterministic replay (replay.rs): multi-pass insertion of a pack of nodes
    under a lamport-versioned policy timeline, and the canonical hash of the
    resolved map. *)

From S2P Require Import Prelude Op Node Policy Storage Lww ListCrdt Caches CacheFacts TextState Graph GraphFacts GraphOps GraphBatch.
From S2P Require Import Replica Fenwick Text Toy.


(** [E2EE_KEY] (crypto.rs). *)
Definition E2EE_KEY : bytes := 0 :: bs "e2ee".

Record PolicyTimelineEntry := mkEntry { effective_lamport : Z; entry_policy : Policy }.

Record ResolvedState := mkResolved { rs_map : gmap bytes bytes; rs_hash : Hash }.

(** [policy_for_lamport] on a sorted timeline. *)
Fixpoint policy_for_lamport_from (selected : Policy) (lamport : Z) (tl : list PolicyTimelineEntry) : Policy :=
  match tl with
  | [] => selected
  | e :: tl =>
      if effective_lamport e <=? lamport
      then policy_for_lamport_from (entry_policy e) lamport tl else selected
  end.
Definition policy_for_lamport (lamport : Z) (tl : list PolicyTimelineEntry) (dflt : Policy) : Policy :=
  policy_for_lamport_from dflt lamport tl.

Definition sort_timeline (tl : list PolicyTimelineEntry) : list PolicyTimelineEntry :=
  sort_by_key effective_lamport tl.

(** [policy_timeline_cutover_lamport]. *)
Definition policy_timeline_cutover_lamport (tl : list PolicyTimelineEntry) : option Z :=
  match tl with
  | [] => None
  | e :: tl => Some (foldl Z.max (effective_lamport e) (effective_lamport <$> tl))
  end.

(** The bytes [canonical_hash] feeds to the hasher; [len as u32] truncates. *)
Definition canonical_entry (kv : bytes * bytes) : bytes :=
  le_bytes 4 (Z.of_nat (length kv.1)) ++ kv.1 ++ le_bytes 4 (Z.of_nat (length kv.2)) ++ kv.2.
Definition canonical_bytes (m : gmap bytes bytes) : bytes :=
  concat (canonical_entry <$> sort (map_to_list m)).

Section replay.
Context `{Blake3, Postcard Transaction, Postcard (list PolicyTimelineEntry), Ed25519}.
Context {T : Type} `{TextProjectionOps T}.
Abbreviation graph := (StateGraph MemoryNodeStore T).

(** [canonical_hash] and [policy_timeline_hash]. *)
Definition canonical_hash (m : gmap bytes bytes) : Hash := blake3_hash (canonical_bytes m).
Definition policy_timeline_hash (tl : list PolicyTimelineEntry) : Hash := hash_of (pc_to (sort_timeline tl)).

(** One node of a pass: applied, skipped as a duplicate, kept for the next
    pass, or a fatal error. *)
Definition pass_node (choose : SyncNode → option Policy) (s : graph * list SyncNode) (n : SyncNode)
    : result SyncError (graph * list SyncNode) :=
  let g := match choose n with Some p => set_policy s.1 p | None => s.1 end in
  let '(g, r) := apply_remote g n in
  match r with
  | Ok _ => Ok (g, s.2)
  | Err (DuplicateNode _) => Ok (g, s.2)
  | Err (MissingParent _) => Ok (g, s.2 ++ [n])
  | Err e => Err e
  end.
Definition pass (choose : SyncNode → option Policy) (g : graph) (pending : list SyncNode)
    : result SyncError (graph * list SyncNode) :=
  foldl_res (pass_node choose) (g, []) pending.

(** The pass loop; [stuck] is what the caller does without progress.  Each
    round leaves strictly fewer nodes, so their number bounds it. *)
Fixpoint pass_loop (fuel : nat) (choose : SyncNode → option Policy)
    (stuck : graph → list SyncNode → result SyncError graph) (g : graph) (pending : list SyncNode)
    : result SyncError graph :=
  match pending, fuel with
  | [], _ | _, O => Ok g
  | _, S f =>
      match pass choose g pending with
      | Err e => Err e
      | Ok (g', still) =>
          if decide (length still = length pending) then stuck g' still
          else pass_loop f choose stuck g' still
      end
  end.

Definition replay_stuck (g : graph) (pending : list SyncNode) : result SyncError graph :=
  match pending with
  | n :: _ => Err (MissingParent (default (node_id n) (head (node_parents n))))
  | [] => Ok g
  end.

(** The map a replay returns: without the encryption sentinel. *)
Definition replay_map (g : graph) : gmap bytes bytes := delete E2EE_KEY (resolve g).

Definition replay_graph (nodes : list SyncNode) (tl : list PolicyTimelineEntry)
    : result SyncError graph :=
  pass_loop (length nodes)
    (λ n, Some (policy_for_lamport (node_lamport n) (sort_timeline tl) policy_default))
    replay_stuck (graph_with_store ∅) nodes.

(** [replay_with_policy_timeline] and [replay]. *)
Definition replay_with_policy_timeline (nodes : list SyncNode) (tl : list PolicyTimelineEntry)
    : result SyncError ResolvedState :=
  match replay_graph nodes tl with
  | Err e => Err e
  | Ok g => Ok (mkResolved (replay_map g) (canonical_hash (replay_map g)))
  end.
Definition replay (nodes : list SyncNode) (policy : option Policy) : result SyncError ResolvedState :=
  replay_with_policy_timeline nodes (from_option (λ p, [mkEntry 0 p]) [] policy).
End replay.

(** ** The canonical bytes determine the map *)

Lemma le_bytes_inj n a b :
  0 <= a < 256 ^ Z.of_nat n → 0 <= b < 256 ^ Z.of_nat n → le_bytes n a = le_bytes n b → a = b.
Proof. intros Ha Hb E. by rewrite <-(of_le_bytes_le n a), <-(of_le_bytes_le n b), E. Qed.

(** A length-prefixed field can be split off in only one way. *)
Lemma length_prefix_inj (x y s t : bytes) :
  Z.of_nat (length x) < 2 ^ 32 → Z.of_nat (length y) < 2 ^ 32 →
  le_bytes 4 (Z.of_nat (length x)) ++ x ++ s = le_bytes 4 (Z.of_nat (length y)) ++ y ++ t →
  x = y ∧ s = t.
Proof.
  intros Hx Hy E. apply app_inj_1 in E as [El E]; [|by rewrite !le_bytes_length].
  apply le_bytes_inj in El; [|simpl; lia..]. apply app_inj_1 in E; [done|lia].
Qed.

Definition entry_small (kv : bytes * bytes) : Prop :=
  Z.of_nat (length kv.1) < 2 ^ 32 ∧ Z.of_nat (length kv.2) < 2 ^ 32.

Lemma canonical_entries_inj l k :
  Forall entry_small l → Forall entry_small k →
  concat (canonical_entry <$> l) = concat (canonical_entry <$> k) → l = k.
Proof.
  intros Hl. revert k. induction Hl as [|[a b] l [Ha Hb] _ IH]; intros k Hk E.
  - destruct Hk as [|[c d] k _ _]; [done|]. by destruct (Z.of_nat (length c)).
  - destruct Hk as [|[c d] k [Hc Hd] Hk].
    { by destruct (Z.of_nat (length a)). }
    cbn [fmap list_fmap concat] in E. unfold canonical_entry at 1 3 in E. cbn [fst snd] in *.
    rewrite <-!app_assoc in E. apply length_prefix_inj in E as [-> E]; [|done..].
    apply length_prefix_inj in E as [-> E]; [|done..]. f_equal. by apply IH.
Qed.

Lemma canonical_bytes_inj m1 m2 :
  map_Forall (λ k v, entry_small (k, v)) m1 → map_Forall (λ k v, entry_small (k, v)) m2 →
  canonical_bytes m1 = canonical_bytes m2 → m1 = m2.
Proof.
  intros H1 H2 E. assert (∀ m, map_Forall (λ k v, entry_small (k, v)) m →
    Forall entry_small (sort (map_to_list m))) as Hs.
  { intros m Hm. apply Forall_forall. intros [k v]. rewrite elem_of_sort, elem_of_map_to_list. apply Hm. }
  apply canonical_entries_inj in E; [|by apply Hs..].
  apply map_to_list_inj. rewrite <-(sort_perm (map_to_list m1)), <-(sort_perm (map_to_list m2)). by rewrite E.
Qed.



Section facts.
Context `{Blake3, Postcard Transaction, Ed25519, !Ed25519Laws}.
Context {T : Type} `{TextProjectionOps T}.
Abbreviation graph := (StateGraph MemoryNodeStore T).
Implicit Types (g : graph) (choose : SyncNode → option Policy).

Abbreviation get g := (ns_get (g_nodes g)).

(** What a pass over [dn] from [g0] has done when it stands at [(g, still)]. *)
Record pass_inv g0 (dn : list SyncNode) g (still : list SyncNode) : Prop := {
  ps_mono : ∀ i m, get g0 i = Some m → get g i = Some m;
  ps_from : ∀ i m, get g i = Some m → get g0 i = Some m ∨ m ∈ dn;
  ps_done : ∀ n, n ∈ dn → is_Some (get g (node_id n)) ∨ n ∈ still;
  ps_sub : still `sublist_of` dn;
  ps_local : g_local_ids g = g_local_ids g0;
}.

Lemma set_policy_get g p : get (set_policy g p) = get g.
Proof. done. Qed.

Definition chosen choose g (n : SyncNode) : graph := match choose n with Some p => set_policy g p | None => g end.
Lemma chosen_get choose g n : get (chosen choose g n) = get g.
Proof. unfold chosen. by destruct (choose n). Qed.
Lemma chosen_local choose g n : g_local_ids (chosen choose g n) = g_local_ids g.
Proof. unfold chosen. by destruct (choose n). Qed.
Lemma chosen_ok choose g n : ok g → ok (chosen choose g n).
Proof. unfold chosen. destruct (choose n); [apply ok_policy|done]. Qed.

(** Only a stored node is refused as a duplicate. *)
Lemma no_projection_duplicate g n i :
  (apply_remote_verified_no_projection g n).2 = Err (DuplicateNode i) → is_Some (get g (node_id n)).
Proof.
  unfold apply_remote_verified_no_projection.
  destruct (check_parents _ _) as [|e] eqn:Ec.
  2:{ apply check_parents_err in Ec as (p&->&_). done. }
  destruct (check_policy _ _) as [|e] eqn:Eq.
  2:{ unfold check_policy in Eq. destruct (is_snapshot_node n); [done|]. revert Eq.
      induction (node_ops n) as [|o os IH]; simpl; [done|]. case_match; [done|]. by intros [= <-]. }
  destruct (get g (node_id n)) eqn:E; [eauto|].
  destruct (insert_node_new g n E) as (s&->&_). done.
Qed.

Lemma duplicate_stored g n i :
  (apply_remote g n).2 = Err (DuplicateNode i) → is_Some (get g (node_id n)).
Proof.
  unfold apply_remote, apply_remote_checked, check_lamport_ceiling, apply_remote_verified.
  case_decide; [done|]. destruct (_ <? node_lamport n); [done|]. cbn [from_option].
  pose proof (no_projection_duplicate g n i) as Ha.
  pose proof (no_projection_duplicate (mark_verified g (node_id n)) n i) as Hb.
  case_decide.
  - destruct (apply_remote_verified_no_projection g n) as [? []]; [done|apply Ha].
  - destruct (verify_signature n) as [|e] eqn:Ev.
    + destruct (apply_remote_verified_no_projection (mark_verified _ _) n) as [? []]; [done|apply Hb].
    + unfold verify_signature in Ev. repeat case_match; by simplify_eq.
Qed.

(** ** One pass *)

Lemma pass_inv_nil g0 : pass_inv g0 [] g0 [].
Proof. split; try done; set_solver. Qed.

Lemma pass_inv_step choose g0 dn g still n g' still' :
  pass_inv g0 dn g still → store_keyed g → pass_node choose (g, still) n = Ok (g', still') →
  pass_inv g0 (dn ++ [n]) g' still'.
Proof.
  intros [Hm Hf Hd Hs Hl] Hk. unfold pass_node. cbn [fst snd]. fold (chosen choose g n).
  pose proof (apply_remote_checked_spec (chosen choose g n) n None) as Hspec.
  pose proof (duplicate_stored (chosen choose g n) n) as Hdup.
  unfold apply_remote in *. rewrite chosen_get in Hdup.
  assert (∀ g2, unchanged (chosen choose g n) g2 (node_id n) →
    get g2 = get g ∧ g_local_ids g2 = g_local_ids g) as Hun.
  { intros g2 [->| ->]; by rewrite <-(chosen_get choose g n), <-(chosen_local choose g n). }
  destruct (apply_remote_checked _ n None) as [g2 r]. simpl in Hdup.
  assert (∀ P : Prop, (is_Some (get g (node_id n)) → P) → (get g (node_id n) = None → P) → P) as Hcase.
  { intros P H1' H2'. destruct (get g (node_id n)); eauto. }
  destruct r as [[]|e].
  - intros [= <- <-]. destruct Hspec as (_&([]&Hnew&Hget)&_). rewrite chosen_get in Hnew, Hget.
    rewrite chosen_local in sc_local. split.
    + intros i m Hi. rewrite Hget. rewrite decide_False; [by apply Hm|].
      intros ->. apply Hm in Hi. congruence.
    + intros i m. rewrite Hget. case_decide; [intros [= ->]; right; set_solver|].
      intros [?|?]%Hf; [by left|right; set_solver].
    + intros x [Hx|Hx]%elem_of_app.
      * destruct (Hd x Hx) as [?|?]; [|by right]. left. rewrite Hget. case_decide; eauto.
      * apply list_elem_of_singleton in Hx as ->. left. rewrite Hget, decide_True; eauto.
    + by apply sublist_inserts_r.
    + simpl in sc_local. congruence.
  - destruct Hspec as (_&Hu). destruct (Hun _ Hu) as [Eg El].
    destruct e; try done; intros [= <- <-]; split; rewrite ?Eg, ?El; try done.
    + intros i m [?|?]%Hf; [by left|right; set_solver].
    + intros x [Hx|Hx]%elem_of_app.
      * destruct (Hd x Hx) as [?|?]; [by left|]. right. set_solver.
      * apply list_elem_of_singleton in Hx as ->. right. set_solver.
    + by apply sublist_app.
    + intros i m [?|?]%Hf; [by left|right; set_solver].
    + intros x [Hx|Hx]%elem_of_app; [by apply Hd|].
      apply list_elem_of_singleton in Hx as ->. left. by eapply Hdup.
    + by apply sublist_inserts_r.
Qed.

Lemma pass_node_ok choose g still n g' still' :
  ok g → prio_typed n → pass_node choose (g, still) n = Ok (g', still') → ok g'.
Proof.
  intros Hok Ht. unfold pass_node. cbn [fst snd]. fold (chosen choose g n).
  pose proof (ok_remote (chosen choose g n) n None (chosen_ok choose g n Hok) Ht) as Hr.
  unfold apply_remote. destruct (apply_remote_checked _ n None) as [g2 r]. simpl in Hr.
  destruct r as [|[]]; intros E; by simplify_eq.
Qed.

Lemma ok_store_keyed g : ok g → store_keyed g.
Proof. by intros [? []]. Qed.

Lemma foldl_res_app {E A S} (f : S → A → result E S) s l k :
  foldl_res f s (l ++ k) = match foldl_res f s l with Ok s' => foldl_res f s' k | Err e => Err e end.
Proof. revert s. induction l as [|x l IH]; intros s; simpl; [done|]. by destruct (f s x). Qed.

Lemma pass_spec choose g0 pending g still :
  ok g0 → Forall prio_typed pending → pass choose g0 pending = Ok (g, still) →
  ok g ∧ pass_inv g0 pending g still.
Proof.
  intros Hok Ht. unfold pass. revert g still.
  induction pending as [|n pending IH] using rev_ind; intros g still.
  - intros [= <- <-]. split; [done|apply pass_inv_nil].
  - apply Forall_app in Ht as [Ht Hn]. rewrite Forall_singleton in Hn. rewrite foldl_res_app.
    destruct (foldl_res _ _ pending) as [[g1 st1]|] eqn:E; [|done]. cbn [foldl_res].
    destruct (pass_node choose (g1, st1) n) as [[g2 st2]|] eqn:En; [|done]. intros [= <- <-].
    destruct (IH Ht _ _ eq_refl) as [Hok1 Hi1]. split; [by eapply pass_node_ok|].
    eapply pass_inv_step; [done| |done]. by apply ok_store_keyed.
Qed.

(** ** The loop *)

(** What the loop from [g0] has inserted of [pending]. *)
Record loop_done g0 (pending : list SyncNode) g : Prop := {
  ld_ok : ok g;
  ld_mono : ∀ i m, get g0 i = Some m → get g i = Some m;
  ld_from : ∀ i m, get g i = Some m → get g0 i = Some m ∨ m ∈ pending;
  ld_local : g_local_ids g = g_local_ids g0;
}.

Lemma pass_loop_spec fuel choose stuck g0 pending g :
  ok g0 → Forall prio_typed pending → (length pending <= fuel)%nat →
  (∀ g1 st g2, stuck g1 st = Ok g2 → g2 = g1) →
  pass_loop fuel choose stuck g0 pending = Ok g → loop_done g0 pending g.
Proof.
  intros Hok Ht Hf Hst. revert g0 pending Hok Ht Hf. induction fuel as [|fuel IH]; intros g0 pending Hok Ht Hf.
  { destruct pending; simpl in *; [|lia]. intros [= <-]. split; naive_solver. }
  destruct pending as [|n pending]; [intros [= <-]; split; naive_solver|].
  cbn [pass_loop]. destruct (pass choose g0 (n :: pending)) as [[g1 still]|] eqn:E; [|done].
  destruct (pass_spec _ _ _ _ _ Hok Ht E) as [Hok1 [Hm Hfr Hd Hs Hl]].
  pose proof (sublist_length _ _ Hs) as Hlen. case_decide as Hsame.
  - intros Hg%Hst. subst g1. by split.
  - intros Hloop. apply IH in Hloop as [Hok2 Hm2 Hf2 Hl2]; [|done| |simpl in *; lia].
    + split; [done| | |congruence].
      * intros i m Hi. by apply Hm2, Hm.
      * intros i m [Hi|Hi]%Hf2; [by apply Hfr|]. right. by eapply elem_of_sublist.
    + apply Forall_forall. intros x Hx. rewrite Forall_forall in Ht. apply Ht.
      by eapply elem_of_sublist.
Qed.

(** Without a way to stop early, everything has been inserted. *)
Lemma pass_loop_complete fuel choose stuck g0 pending g n :
  ok g0 → Forall prio_typed pending → (length pending <= fuel)%nat →
  (∀ g1 st g2, stuck g1 st = Ok g2 → g2 = g1 ∧ st = []) →
  pass_loop fuel choose stuck g0 pending = Ok g → n ∈ pending → is_Some (get g (node_id n)).
Proof.
  intros Hok Ht Hf Hst. revert g0 pending Hok Ht Hf. induction fuel as [|fuel IH]; intros g0 pending Hok Ht Hf.
  { destruct pending; simpl in *; [set_solver|lia]. }
  destruct pending as [|m pending]; [set_solver|].
  cbn [pass_loop]. destruct (pass choose g0 (m :: pending)) as [[g1 still]|] eqn:E; [|done].
  destruct (pass_spec _ _ _ _ _ Hok Ht E) as [Hok1 [Hm Hfr Hd Hs Hl]].
  pose proof (sublist_length _ _ Hs) as Hlen. case_decide as Hsame.
  - intros [_ ->]%Hst. done.
  - intros Hloop Hn. assert (Forall prio_typed still) as Hts.
    { apply Forall_forall. intros x Hx. rewrite Forall_forall in Ht. apply Ht.
      by eapply elem_of_sublist. }
    destruct (Hd n Hn) as [[x Hx]|Hstill]; [|apply (IH g1 still); try done; simpl in *; lia].
    exists x. eapply (ld_mono g1 still); [|done]. apply (pass_loop_spec fuel choose stuck); try done.
    + simpl in *; lia.
    + intros ? ? ? ?. by eapply Hst.
Qed.

(** ** A valid pack is inserted *)

(** The checks a node passes or fails by itself. *)
Definition node_valid choose (n : SyncNode) : Prop :=
  tx_hash (node_tx n) = node_id n ∧ verify_signature n = Ok tt ∧
  0 <= node_lamport n <= LAMPORT_SLACK ∧
  ∃ p, choose n = Some p ∧ policy_permits p n.

Lemma pass_node_valid choose g still n :
  ok g → node_valid choose n →
  ∃ g' still', pass_node choose (g, still) n = Ok (g', still') ∧
    (still' = still ∨
     still' = still ++ [n] ∧ ∃ p, p ∈ node_parents n ∧ get g p = None).
Proof.
  intros Hok (Hh&Hv&Hl&p&Hc&Hp). unfold pass_node. cbn [fst snd]. rewrite Hc.
  assert (0 <= g_lamport g) as Hg by (destruct Hok as [? []]; unfold is_u64 in *; lia).
  pose proof (apply_remote_valid (set_policy g p) n None) as Hr. unfold apply_remote.
  destruct (apply_remote_checked (set_policy g p) n None) as [g' r]. simpl in Hr.
  rewrite Hr; [|done| |done|done|done].
  - destruct (check_parents (g_nodes g) (node_parents n)) as [[]|e] eqn:E.
    + case_decide; do 2 eexists; split; try done; by left.
    + apply check_parents_err in E as (q&->&Hq&Hn). do 2 eexists. split; [done|]. right. eauto.
  - unfold lamport_ok. simpl. unfold LAMPORT_SLACK, u64_max in *. lia.
Qed.

(** A valid pass cannot fail, and leaves only nodes that lacked a parent at
    its start. *)
Lemma pass_valid choose g0 pending :
  ok g0 → Forall prio_typed pending → Forall (node_valid choose) pending →
  ∃ g still, pass choose g0 pending = Ok (g, still) ∧
    ∀ n, n ∈ still → ∃ p, p ∈ node_parents n ∧ get g0 p = None.
Proof.
  intros Hok Ht Hv. unfold pass.
  induction pending as [|n pending IH] using rev_ind; [exists g0, []; set_solver|].
  apply Forall_app in Ht as [Ht Hn], Hv as [Hv Hvn]. rewrite Forall_singleton in Hvn, Hn.
  destruct (IH Ht Hv) as (g&still&E&Hstill). rewrite foldl_res_app, E. cbn [foldl_res].
  destruct (pass_spec _ _ _ _ _ Hok Ht E) as [Hokg [Hm _ _ _ _]].
  destruct (pass_node_valid choose g still n Hokg Hvn) as (g'&still'&->&Hor). exists g', still'.
  split; [done|]. destruct Hor as [->|[-> (p&Hp&Hg)]]; [done|].
  intros x [Hx|Hx]%elem_of_app; [by apply Hstill|]. apply list_elem_of_singleton in Hx as ->.
  exists p. split; [done|]. destruct (get g0 p) eqn:E0; [|done]. apply Hm in E0. congruence.
Qed.

(** Every parent of a listed node is listed before it. *)
Definition topological (topo : list SyncNode) : Prop :=
  ∀ l n k p, topo = l ++ n :: k → p ∈ node_parents n → ∃ m, m ∈ l ∧ node_id m = p.

(** The first listed node that is still pending has its parents stored. *)
Lemma topo_progress topo g0 pending :
  topological topo → (∀ n, n ∈ pending → n ∈ topo) → pending ≠ [] →
  (∀ n, n ∈ topo → n ∈ pending ∨ is_Some (get g0 (node_id n))) →
  ∃ n, n ∈ pending ∧ ∀ p, p ∈ node_parents n → is_Some (get g0 p).
Proof.
  intros Htop Hsub Hne Hall.
  assert (∃ n, n ∈ topo ∧ n ∈ pending) as (x&Hx&Hxp).
  { destruct pending as [|x pending]; [done|]. exists x. split; [apply Hsub|]; set_solver. }
  destruct (list_find_elem_of (λ n, n ∈ pending) topo x Hx Hxp) as [[i n] Hf].
  apply list_find_Some in Hf as (Hi&Hn&Hfirst). exists n. split; [done|]. intros p Hp.
  destruct (Htop (take i topo) n (drop (S i) topo) p) as (m&Hm&<-).
  - by rewrite take_drop_middle.
  - done.
  - apply list_elem_of_lookup in Hm as [k Hk]. apply lookup_take_Some in Hk as [Hk Hlt].
    destruct (Hall m) as [Hmp|]; [by eapply list_elem_of_lookup_2| |done].
    by destruct (Hfirst k m Hk Hlt).
Qed.

Lemma pass_loop_succeeds fuel choose g0 pending topo :
  ok g0 → Forall prio_typed pending → Forall (node_valid choose) pending →
  (length pending <= fuel)%nat → topological topo → (∀ n, n ∈ pending → n ∈ topo) →
  (∀ n, n ∈ topo → n ∈ pending ∨ is_Some (get g0 (node_id n))) →
  is_ok (pass_loop fuel choose replay_stuck g0 pending) = true.
Proof.
  revert g0 pending. induction fuel as [|fuel IH]; intros g0 pending Hok Ht Hv Hf Htop Hsub Hall.
  { by destruct pending. }
  destruct pending as [|n0 pending]; [done|]. cbn [pass_loop].
  destruct (pass_valid choose g0 (n0 :: pending) Hok Ht Hv) as (g&still&E&Hstill). rewrite E.
  destruct (pass_spec _ _ _ _ _ Hok Ht E) as [Hokg [Hm _ Hd Hs _]].
  destruct (topo_progress topo g0 (n0 :: pending) Htop Hsub) as (n&Hn&Hpar); [done|done|].
  assert (∀ x, x ∈ still → x ∈ n0 :: pending) as Hin by (intros; by eapply elem_of_sublist).
  case_decide as Hsame.
  - exfalso. assert (still ≡ₚ n0 :: pending) as Hperm.
    { apply submseteq_length_Permutation; [by apply sublist_submseteq|lia]. }
    destruct (Hstill n) as (p&Hp&Hg); [by rewrite Hperm|]. destruct (Hpar p Hp) as [? ?]. congruence.
  - pose proof (sublist_length _ _ Hs). apply IH; try done.
    + apply Forall_forall. intros x Hx. rewrite Forall_forall in Ht. auto.
    + apply Forall_forall. intros x Hx. rewrite Forall_forall in Hv. auto.
    + simpl in *. lia.
    + auto.
    + intros x Hx. destruct (Hall x Hx) as [Hxp|[y Hy]].
      * destruct (Hd x Hxp); auto.
      * right. exists y. by apply Hm.
Qed.
End facts.


Lemma resolve_replay_perm ns ns' :
  ns ≡ₚ ns' → no_equivocation ns → Forall prio_typed ns → resolve_replay ns = resolve_replay ns'.
Proof.
  intros Hp Hne Ht. rewrite <-!winners_map_replay by (done || by rewrite <-Hp).
  f_equal. by apply winners_of_perm.
Qed.

Section theorems.
Context `{Blake3, Postcard Transaction, Postcard (list PolicyTimelineEntry), Ed25519, !Ed25519Laws}.
Context {T : Type} `{TextProjectionOps T}.
Abbreviation graph := (StateGraph MemoryNodeStore T).
Implicit Types (tl : list PolicyTimelineEntry) (ns topo : list SyncNode).

Lemma replay_graph_nodes ns tl (g : graph) :
  Forall prio_typed ns → NoDup (node_id <$> ns) → replay_graph ns tl = Ok g →
  ok g ∧ all_nodes g ≡ₚ ns.
Proof.
  intros Ht Hnd Hr. assert (ok (graph_with_store ∅ : graph)) as Hok0.
  { exists []. by apply graph_ok_empty. }
  assert (∀ (g1 : graph) st g2, replay_stuck g1 st = Ok g2 → g2 = g1 ∧ st = []) as Hst.
  { intros g1 [|n st] g2; simpl; [by intros [= ->]|done]. }
  assert (loop_done (graph_with_store ∅) ns g) as [Hok _ Hfrom _].
  { eapply pass_loop_spec; [done..| |exact Hr]. intros ? ? ? ?. by eapply Hst. }
  assert (∀ n, n ∈ ns → is_Some (ns_get (g_nodes g) (node_id n))) as Hall.
  { intros n Hn. by eapply (pass_loop_complete _ _ _ _ ns); [| | |exact Hst|exact Hr|]. }
  split; [done|]. pose proof (ok_store_keyed g Hok) as Hk.
  apply NoDup_Permutation; [by apply all_nodes_NoDup|by eapply NoDup_fmap_1|].
  intros n. rewrite elem_of_all_nodes. split.
  - intros [i Hi]. destruct (Hfrom _ _ Hi); [|done]. done.
  - intros Hn. exists (node_id n). destruct (Hall n Hn) as [m Hm]. rewrite Hm. f_equal.
    destruct (Hfrom _ _ Hm) as [|Hmn]; [done|].
    apply list_elem_of_lookup in Hn as [i Hi], Hmn as [j Hj].
    assert (j = i) as ->; [|congruence].
    eapply (NoDup_lookup _ _ _ (node_id n) Hnd).
    + rewrite list_lookup_fmap, Hj. simpl. f_equal. by apply Hk.
    + by rewrite list_lookup_fmap, Hi.
Qed.

(** C34: a replay that succeeds computes the last writer wins. For a pack of nodes with
    distinct ids, 64-bit lamports and 32-byte authors in which no author has signed two
    transactions with one lamport, it returns the last-writer-wins map of exactly the
    nodes of the pack, without the encryption sentinel, and the canonical hash of that
    map. *)
Theorem replay_computes_lww ns tl r :
  Forall prio_typed ns → NoDup (node_id <$> ns) → no_equivocation ns →
  replay_with_policy_timeline (T := T) ns tl = Ok r →
  rs_map r = delete E2EE_KEY (resolve_replay ns) ∧ rs_hash r = canonical_hash (rs_map r).
Proof.
  intros Ht Hnd Hne. unfold replay_with_policy_timeline.
  destruct (replay_graph ns tl) as [g|] eqn:E; [|done]. intros [= <-]. split; [|done]. simpl.
  destruct (replay_graph_nodes ns tl g Ht Hnd E) as [Hok Hp]. unfold replay_map.
  rewrite ok_resolve_replay; [|done|by rewrite Hp]. f_equal. unfold graph_resolve_replay.
  by apply resolve_replay_perm; rewrite ?Hp.
Qed.

(** Replay is deterministic in the set of nodes: two packs that are
    permutations of each other give the same map and hash whenever both
    replays succeed. *)
Theorem replay_order_independent ns ns' tl r r' :
  Forall prio_typed ns → NoDup (node_id <$> ns) → no_equivocation ns → ns ≡ₚ ns' →
  replay_with_policy_timeline (T := T) ns tl = Ok r →
  replay_with_policy_timeline (T := T) ns' tl = Ok r' → r = r'.
Proof.
  intros Ht Hnd Hne Hp. unfold replay_with_policy_timeline.
  destruct (replay_graph ns tl) as [g|] eqn:E; [|done].
  destruct (replay_graph ns' tl) as [g'|] eqn:E'; [|done]. intros [= <-] [= <-].
  destruct (replay_graph_nodes ns tl g Ht Hnd E) as [Hok Hq].
  destruct (replay_graph_nodes ns' tl g') as [Hok' Hq']; [by rewrite <-Hp..|done|].
  assert (resolve g = resolve g') as Er; [|unfold replay_map; by rewrite Er].
  rewrite !ok_resolve_replay; [|done|by rewrite Hq', <-Hp|done|by rewrite Hq].
  unfold graph_resolve_replay. apply resolve_replay_perm; rewrite ?Hq, ?Hq'; done.
Qed.

(** Replay succeeds on every valid pack, in any order: when each node
    hashes to its id, is signed, is permitted by the policy in force at its
    lamport and has a lamport within the slack of a fresh clock, and the pack
    has a topological order. *)
Theorem replay_succeeds ns tl topo :
  Forall prio_typed ns →
  (∀ n, n ∈ ns → tx_hash (node_tx n) = node_id n ∧ verify_signature n = Ok tt ∧
     node_lamport n <= LAMPORT_SLACK ∧
     policy_permits (policy_for_lamport (node_lamport n) (sort_timeline tl) policy_default) n) →
  topo ≡ₚ ns → topological topo →
  is_ok (replay_with_policy_timeline (T := T) ns tl) = true.
Proof.
  intros Ht Hv Hp Htop. unfold replay_with_policy_timeline, replay_graph.
  set (choose := λ n, Some _).
  assert (is_ok (pass_loop (length ns) choose replay_stuck (graph_with_store ∅ : graph) ns) = true) as Hok.
  { eapply (pass_loop_succeeds _ _ _ _ topo); try done.
    - exists []. by apply graph_ok_empty.
    - apply Forall_forall. intros n Hn. destruct (Hv n Hn) as (?&?&?&?).
      rewrite Forall_forall in Ht. destruct (Ht n Hn) as [[? _] _].
      split_and!; try done. by eexists.
    - intros n. by rewrite Hp.
    - intros n Hn. left. by rewrite <-Hp. }
  by destruct (pass_loop _ choose _ _ ns).
Qed.

(** The canonical hash identifies the resolved map.  Two maps whose keys
    and values are shorter than 4 GiB and that have the same hash are equal,
    or their serialisations are a Blake3 collision. *)
Theorem canonical_hash_identifies m1 m2 :
  map_Forall (λ k v, entry_small (k, v)) m1 → map_Forall (λ k v, entry_small (k, v)) m2 →
  canonical_hash m1 = canonical_hash m2 →
  m1 = m2 ∨ (canonical_bytes m1 ≠ canonical_bytes m2 ∧
             blake3_hash (canonical_bytes m1) = blake3_hash (canonical_bytes m2)).
Proof.
  intros Hs1 Hs2 Eh. destruct (decide (canonical_bytes m1 = canonical_bytes m2)) as [E|E].
  - left. by apply canonical_bytes_inj.
  - by right.
Qed.
End theorems.

(** ** The policy timeline *)

(** On a sorted timeline the policy in force at a lamport is that of the
    last entry whose effective lamport is not above it, or the default when
    there is none. *)
Theorem policy_for_lamport_last tl dflt l :
  StronglySorted (λ a b, effective_lamport a <= effective_lamport b) tl →
  policy_for_lamport l tl dflt =
  from_option entry_policy dflt (last (filter (λ e, effective_lamport e <= l) tl)).
Proof.
  unfold policy_for_lamport. intros Hs. revert dflt. induction Hs as [|e tl Hs IH Hall]; intros dflt; [done|].
  rewrite filter_cons. simpl. destruct (Z.leb_spec (effective_lamport e) l).
  - rewrite decide_True by done. rewrite IH. rewrite last_cons. by destruct (last _).
  - rewrite decide_False by lia.
    assert (filter (λ e0, effective_lamport e0 <= l) tl = []) as ->; [|done].
    apply elem_of_nil_inv. intros x [Hle Hx]%list_elem_of_filter.
    rewrite Forall_forall in Hall. specialize (Hall x Hx). simpl in *. lia.
Qed.

(** ** Instances *)

Definition toy_pack : list SyncNode := [toy_n1; toy_n2].
Definition toy_replay (ns : list SyncNode) : result SyncError ResolvedState :=
  replay_with_policy_timeline (T := TextProjection) ns [].

Lemma toy_pack_typed : Forall prio_typed toy_pack.
Proof. repeat constructor; first [apply toy_typed_1|apply toy_typed_2]. Qed.
Lemma toy_pack_NoDup : NoDup (node_id <$> toy_pack).
Proof. apply (bool_decide_unpack _). by vm_compute. Qed.

Lemma replay_computes_lww_witness :
  ∃ r, toy_replay toy_pack = Ok r ∧ rs_map r = delete E2EE_KEY (resolve_replay toy_pack).
Proof.
  destruct (toy_replay toy_pack) as [r|e] eqn:E.
  - exists r. split; [reflexivity|].
    apply (replay_computes_lww toy_pack [] r toy_pack_typed toy_pack_NoDup toy_honest E).
  - vm_compute in E. discriminate E.
Defined.

Lemma replay_order_independent_witness :
  ∃ r r', toy_replay [toy_n1; toy_n2] = Ok r ∧ toy_replay [toy_n2; toy_n1] = Ok r' ∧ r = r'.
Proof.
  destruct (toy_replay [toy_n1; toy_n2]) as [r|e] eqn:E; [|vm_compute in E; discriminate E].
  destruct (toy_replay [toy_n2; toy_n1]) as [r'|e] eqn:E'; [|vm_compute in E'; discriminate E'].
  exists r, r'. split; [reflexivity|]. split; [reflexivity|].
  refine (replay_order_independent toy_pack [toy_n2; toy_n1] [] r r' toy_pack_typed toy_pack_NoDup
            toy_honest _ E E').
  apply perm_swap.
Defined.

(** A child listed before its parent. *)
Definition toy_child : SyncNode := toy_node 7 2 [OpMap (MapDelete (bs "title"))] [node_id toy_n1].
Lemma replay_succeeds_witness : is_ok (toy_replay [toy_child; toy_n1]) = true.
Proof.
  refine (replay_succeeds [toy_child; toy_n1] [] [toy_n1; toy_child] _ _ _ _).
  - repeat constructor; try (apply (bool_decide_unpack _); vm_compute; exact I);
      vm_compute; intuition discriminate.
  - intros n Hn. rewrite !elem_of_cons, elem_of_nil in Hn.
    destruct Hn as [->|[->|[]]]; (split; [vm_compute; reflexivity|]);
      (split; [vm_compute; reflexivity|]); (split; [vm_compute; discriminate|]); right;
      intros o Ho; reflexivity.
  - apply perm_swap.
  - intros l n k p E Hp. destruct l as [|a [|b l]]; simplify_eq/=.
    + apply elem_of_nil in Hp as [].
    + apply list_elem_of_singleton in Hp as ->. exists toy_n1. split; [set_solver|reflexivity].
    + by destruct l.
Defined.

Lemma canonical_hash_identifies_witness :
  canonical_hash (resolve toy_g1) = canonical_hash (resolve toy_g2) ∧
  (resolve toy_g1 = resolve toy_g2 ∨
   canonical_bytes (resolve toy_g1) ≠ canonical_bytes (resolve toy_g2) ∧
   blake3_hash (canonical_bytes (resolve toy_g1)) = blake3_hash (canonical_bytes (resolve toy_g2))).
Proof.
  assert (canonical_hash (resolve toy_g1) = canonical_hash (resolve toy_g2)) as E
    by (vm_compute; reflexivity).
  split; [exact E|].
  apply (canonical_hash_identifies (resolve toy_g1) (resolve toy_g2)); [| |exact E];
    intros k v Hkv; apply elem_of_map_to_list in Hkv; vm_compute in Hkv;
    apply list_elem_of_singleton in Hkv; injection Hkv as -> ->; split; vm_compute; reflexivity.
Defined.

Definition toy_timeline : list PolicyTimelineEntry :=
  [mkEntry 0 policy_default; mkEntry 5 (mkPolicy [] DenyAll)].
Lemma policy_for_lamport_witness :
  policy_for_lamport 7 toy_timeline policy_default = mkPolicy [] DenyAll.
Proof.
  rewrite (policy_for_lamport_last toy_timeline policy_default 7); [reflexivity|].
  repeat constructor; vm_compute; discriminate.
Defined.
