(* ===== verification/Compaction.v ===== *)
(** Compaction (compaction.rs): snapshot nodes, their verification, and
    rebuilding a graph from a snapshot and a delta. *)

From S2P Require Import Prelude Hex Op Node Policy Frontier Storage Lww ListCrdt Conflicts Caches CacheFacts TextState Graph.
From S2P Require Import GraphFacts GraphOps GraphBatch Replica Fenwick Text Toy Replay.


Definition SNAP_FRONT_KEY : bytes := 0 :: bs "snap:front".
Definition SNAP_BASE_KEY : bytes := 0 :: bs "snap:base".
Definition SNAP_POLICY_TIMELINE_HASH_KEY : bytes := 0 :: bs "snap:policy:hash".
Definition SNAP_POLICY_CUTOVER_LAMPORT_KEY : bytes := 0 :: bs "snap:policy:cutover".

Record SnapshotMeta := mkMeta {
  snapshot_hash : Hash;
  snap_frontier : list NodeId;
  snap_author : PublicKey;
  snap_base_id : option NodeId;
  snap_policy_timeline_hash : option Hash;
  snap_policy_cutover_lamport : option Z;
}.

(** The error every malformed field reports. *)
Definition malformed : SyncError := HashMismatch hash_zero hash_zero.

(** [<[u8; n]>::try_from(slice)]. *)
Definition try_array (n : nat) (b : bytes) : option bytes :=
  if decide (length b = n) then Some b else None.

(** A key in the system namespace. *)
Definition is_system_key (k : bytes) : bool := match k with 0 :: _ => true | _ => false end.

Definition set_bytes (k v : bytes) : Op := OpMap (MapSet k v).

Section compaction.
Context `{Blake3, Postcard Transaction, Postcard (list PolicyTimelineEntry), Postcard (list bytes),
          Postcard (list WireNode), Ed25519}.
Context {T : Type} `{TextProjectionOps T}.
Abbreviation graph := (StateGraph MemoryNodeStore T).
Implicit Types (g : graph) (tl : list PolicyTimelineEntry).

(** [policy_timeline_ops]. *)
Definition policy_timeline_ops tl : list Op :=
  match tl with
  | [] => []
  | _ =>
      set_bytes SNAP_POLICY_TIMELINE_HASH_KEY (policy_timeline_hash tl) ::
      match policy_timeline_cutover_lamport tl with
      | Some c => [set_bytes SNAP_POLICY_CUTOVER_LAMPORT_KEY (le_bytes 8 c)]
      | None => []
      end
  end.

(** The state a snapshot fingerprints: everything but system keys. *)
Definition compact_map g : gmap bytes bytes :=
  filter (λ kv, is_system_key kv.1 = false) (resolve g).

(** The body shared by the full and the incremental snapshot. *)
Definition snapshot_node g (sk : SigningKey) (base : option NodeId) tl : SyncNode :=
  let front := sort (heads (g_frontier g)) in
  let ops := [set_bytes SNAP_HASH_KEY (canonical_hash (compact_map g));
              set_bytes SNAP_FRONT_KEY (pc_to front)]
             ++ from_option (λ b, [set_bytes SNAP_BASE_KEY b]) [] base
             ++ policy_timeline_ops tl in
  node_new_signed (mkTx (ed_verifying_key sk) (wrap_add64 (g_lamport g) 1) 0 ops []) sk.

(** [compact_with_policy_timeline], [compact], [compact_incremental] and
    [compact_incremental_with_policy_timeline]; serialising the frontier
    does not fail. *)
Definition compact_with_policy_timeline g sk tl : result SyncError SyncNode :=
  Ok (snapshot_node g sk None tl).
Definition compact g sk : result SyncError SyncNode := compact_with_policy_timeline g sk [].
Definition compact_incremental_with_policy_timeline g sk (base : NodeId) tl : result SyncError SyncNode :=
  Ok (snapshot_node g sk (Some base) tl).
Definition compact_incremental g sk (base : NodeId) : result SyncError SyncNode :=
  compact_incremental_with_policy_timeline g sk base [].

(** The fields collected by the scan of [verify_snapshot]. *)
Record SnapScan := mkScan {
  sn_hash : option bytes; sn_front : option (list NodeId); sn_base : option NodeId;
  sn_phash : option Hash; sn_cutover : option Z }.

Definition or_keep {A} (new old : option A) : option A :=
  match new with Some _ => new | None => old end.

Definition scan_op (s : SnapScan) (o : Op) : result SyncError SnapScan :=
  match o with
  | OpMap (MapSet key value) =>
      if decide (key = SNAP_HASH_KEY) then
        match try_array 32 value with
        | Some h => Ok (mkScan (Some h) (sn_front s) (sn_base s) (sn_phash s) (sn_cutover s))
        | None => Err malformed
        end
      else if decide (key = SNAP_FRONT_KEY) then
        match pc_from value with
        | Ok ids => Ok (mkScan (sn_hash s) (Some ids) (sn_base s) (sn_phash s) (sn_cutover s))
        | Err _ => Err malformed
        end
      else if decide (key = SNAP_BASE_KEY) then
        Ok (mkScan (sn_hash s) (sn_front s) (or_keep (try_array 32 value) (sn_base s)) (sn_phash s)
              (sn_cutover s))
      else if decide (key = SNAP_POLICY_TIMELINE_HASH_KEY) then
        Ok (mkScan (sn_hash s) (sn_front s) (sn_base s) (or_keep (try_array 32 value) (sn_phash s))
              (sn_cutover s))
      else if decide (key = SNAP_POLICY_CUTOVER_LAMPORT_KEY) then
        Ok (mkScan (sn_hash s) (sn_front s) (sn_base s) (sn_phash s)
              (or_keep (of_le_bytes <$> try_array 8 value) (sn_cutover s)))
      else Ok s
  | _ => Ok s
  end.

(** [verify_snapshot]. *)
Definition verify_snapshot (n : SyncNode) : result SyncError SnapshotMeta :=
  match verify_signature n with
  | Err e => Err e
  | Ok _ =>
      match foldl_res scan_op (mkScan None None None None None) (node_ops n) with
      | Err e => Err e
      | Ok s =>
          match sn_hash s, sn_front s with
          | Some h, Some f =>
              Ok (mkMeta h f (tx_author (node_tx n)) (sn_base s) (sn_phash s) (sn_cutover s))
          | _, _ => Err malformed
          end
      end
  end.

(** [snapshot_policy_timeline_compatible]. *)
Definition snapshot_policy_timeline_compatible (m : SnapshotMeta) tl : bool :=
  match snap_policy_timeline_hash m, snap_policy_cutover_lamport m with
  | None, None => true
  | h, c => bool_decide (h = Some (policy_timeline_hash tl))
            && bool_decide (c = policy_timeline_cutover_lamport tl)
  end.

(** [rebuild_from_snapshot]: delta nodes that stay orphaned are dropped. *)
Definition rebuild_from_snapshot (snapshot : SyncNode) (delta : list SyncNode) : result SyncError graph :=
  match verify_snapshot snapshot with
  | Err e => Err e
  | Ok _ =>
      let '(g, r) := apply_remote (graph_with_store ∅) snapshot in
      match r with
      | Err e => Err e
      | Ok _ => pass_loop (length delta) (λ _, None) (λ g _, Ok g) g delta
      end
  end.

(** [pack_snapshot_pack] and [unpack_snapshot_pack]. *)
Definition pack_snapshot_pack (snapshot : SyncNode) (delta : list SyncNode) : bytes :=
  pack_nodes (snapshot :: delta).
Definition unpack_snapshot_pack (b : bytes) : result SyncError (SyncNode * list SyncNode) :=
  match unpack_nodes b with
  | Err e => Err e
  | Ok [] => Err (MissingParent hash_zero)
  | Ok (s :: delta) => if is_snapshot_node s then Ok (s, delta) else Err (HashMismatch hash_zero (node_id s))
  end.

(** ** Facts *)

Lemma try_array_ok n b : length b = n → try_array n b = Some b.
Proof. intros E. unfold try_array. by rewrite decide_True. Qed.

(** The scan reads each sentinel key into its own field. *)
Lemma scan_hash s h : length h = 32%nat →
  scan_op s (set_bytes SNAP_HASH_KEY h) =
  Ok (mkScan (Some h) (sn_front s) (sn_base s) (sn_phash s) (sn_cutover s)).
Proof. intros Hl. unfold scan_op, set_bytes. rewrite decide_True by done. by rewrite try_array_ok. Qed.
Lemma scan_front s ids `{!PostcardLaws (list bytes)} :
  scan_op s (set_bytes SNAP_FRONT_KEY (pc_to ids)) =
  Ok (mkScan (sn_hash s) (Some ids) (sn_base s) (sn_phash s) (sn_cutover s)).
Proof. unfold scan_op, set_bytes. by rewrite decide_False, decide_True, pc_roundtrip by done. Qed.
Lemma scan_base s b : length b = 32%nat →
  scan_op s (set_bytes SNAP_BASE_KEY b) =
  Ok (mkScan (sn_hash s) (sn_front s) (Some b) (sn_phash s) (sn_cutover s)).
Proof.
  intros Hl. unfold scan_op, set_bytes. rewrite 2!decide_False, decide_True by done.
  by rewrite try_array_ok.
Qed.
Lemma scan_phash s h : length h = 32%nat →
  scan_op s (set_bytes SNAP_POLICY_TIMELINE_HASH_KEY h) =
  Ok (mkScan (sn_hash s) (sn_front s) (sn_base s) (Some h) (sn_cutover s)).
Proof.
  intros Hl. unfold scan_op, set_bytes. rewrite 3!decide_False, decide_True by done.
  by rewrite try_array_ok.
Qed.
Lemma scan_cutover s c : is_u64 c →
  scan_op s (set_bytes SNAP_POLICY_CUTOVER_LAMPORT_KEY (le_bytes 8 c)) =
  Ok (mkScan (sn_hash s) (sn_front s) (sn_base s) (sn_phash s) (Some c)).
Proof.
  intros Hc. unfold scan_op, set_bytes. rewrite 4!decide_False, decide_True by done.
  rewrite try_array_ok by apply le_bytes_length. cbn [fmap option_fmap option_map or_keep].
  rewrite of_le_bytes_le; [done|]. unfold is_u64, u64_max in Hc. simpl. lia.
Qed.

Lemma foldl_max_u64 l z : is_u64 z → Forall is_u64 l → is_u64 (foldl Z.max z l).
Proof.
  intros Hz Hl. revert z Hz. induction Hl as [|x l Hx _ IH]; intros z Hz; [done|].
  simpl. apply IH. unfold is_u64 in *. lia.
Qed.

Lemma cutover_u64 tl c :
  Forall (λ e, is_u64 (effective_lamport e)) tl → policy_timeline_cutover_lamport tl = Some c → is_u64 c.
Proof.
  intros Hu. destruct Hu as [|e tl He Hu]; simpl; [done|]. intros [= <-].
  apply foldl_max_u64; [done|]. by apply Forall_fmap.
Qed.

Lemma scan_policy_ops s tl `{!Blake3Laws} :
  Forall (λ e, is_u64 (effective_lamport e)) tl →
  foldl_res scan_op s (policy_timeline_ops tl) =
  Ok (mkScan (sn_hash s) (sn_front s) (sn_base s)
        (if decide (tl = []) then sn_phash s else Some (policy_timeline_hash tl))
        (or_keep (policy_timeline_cutover_lamport tl) (sn_cutover s))).
Proof.
  intros Hu. destruct (policy_timeline_cutover_lamport tl) as [c|] eqn:Ec; [|by destruct tl, s].
  pose proof (cutover_u64 _ _ Hu Ec) as Hc. rewrite decide_False by (by intros ->).
  unfold policy_timeline_ops. rewrite Ec. destruct tl; [done|].
  cbn [foldl_res]. rewrite scan_phash by apply blake3_length. by rewrite scan_cutover.
Qed.

(** What verification reads back from a snapshot. *)
Lemma verify_snapshot_node g sk base tl
    `{!Ed25519Laws, !Blake3Laws, !PostcardLaws (list bytes)} :
  Forall (λ e, is_u64 (effective_lamport e)) tl → from_option (λ b, length b = 32%nat) True base →
  verify_snapshot (snapshot_node g sk base tl) =
  Ok (mkMeta (canonical_hash (compact_map g)) (sort (heads (g_frontier g))) (ed_verifying_key sk) base
        (if decide (tl = []) then None else Some (policy_timeline_hash tl))
        (policy_timeline_cutover_lamport tl)).
Proof.
  intros Hu Hb. unfold verify_snapshot, snapshot_node. rewrite verify_signature_own by done.
  unfold node_ops. cbn [node_tx tx_ops node_new_signed app foldl_res].
  rewrite scan_hash by apply blake3_length. rewrite scan_front by apply _.
  destruct base as [b|]; cbn [from_option app foldl_res].
  - rewrite scan_base, scan_policy_ops by done. cbn [sn_hash sn_front sn_base sn_phash sn_cutover tx_author].
    by destruct (policy_timeline_cutover_lamport tl).
  - rewrite scan_policy_ops by done. cbn [sn_hash sn_front sn_base sn_phash sn_cutover tx_author].
    by destruct (policy_timeline_cutover_lamport tl).
Qed.

Lemma snapshot_node_marked g sk base tl : is_snapshot_node (snapshot_node g sk base tl) = true.
Proof. unfold is_snapshot_node, snapshot_node, node_ops. simpl. done. Qed.

Lemma snapshot_node_parents g sk base tl : node_parents (snapshot_node g sk base tl) = [].
Proof. done. Qed.

Lemma snapshot_map_ops g sk base tl o :
  o ∈ node_ops (snapshot_node g sk base tl) →
  ∃ k v, o = set_bytes k v ∧ is_system_key k = true.
Proof.
  unfold node_ops, snapshot_node. cbn [node_tx tx_ops node_new_signed].
  rewrite !elem_of_app, !elem_of_cons, elem_of_nil.
  intros [[->|[->|[]]]|[Ho|Ho]]; [by do 2 eexists..| |].
  - destruct base; simpl in Ho; [|set_solver]. apply list_elem_of_singleton in Ho as ->. by do 2 eexists.
  - unfold policy_timeline_ops in Ho. destruct tl; [set_solver|].
    apply elem_of_cons in Ho as [->|Ho]; [by do 2 eexists|].
    destruct (policy_timeline_cutover_lamport _); [|set_solver].
    apply list_elem_of_singleton in Ho as ->. by do 2 eexists.
Qed.
End compaction.


(** Keys of the resolved map are keys of map operations. *)
Lemma resolve_replay_key ns k v :
  resolve_replay ns !! k = Some v → ∃ n m, n ∈ ns ∧ OpMap m ∈ node_ops n ∧ map_op_key m = k.
Proof.
  rewrite resolve_replay_keyed, lookup_omap, keyed_fold_lookup, lookup_empty.
  destruct (filter (λ e, map_event_key e = Some k) (events ns)) as [|[p o] es] eqn:E; [done|]. intros _.
  assert ((p, o) ∈ filter (λ e, map_event_key e = Some k) (events ns)) as Hin by (rewrite E; set_solver).
  apply list_elem_of_filter in Hin as [Hk (n&Hn&_&Ho)%elem_of_events]. simpl in *.
  unfold map_event_key in Hk. simpl in Hk. destruct o as [m| |]; simplify_eq. by exists n, m.
Qed.

Section theorems.
Context `{Blake3, Postcard Transaction, Postcard (list PolicyTimelineEntry), Postcard (list bytes),
          Postcard (list WireNode), Ed25519, !Ed25519Laws, !Blake3Laws}.
Context {T : Type} `{TextProjectionOps T}.
Abbreviation graph := (StateGraph MemoryNodeStore T).
Implicit Types (g : graph) (tl : list PolicyTimelineEntry).

Abbreviation get g := (ns_get (g_nodes g)).

(** C35: a snapshot verifies, and verification reads back what the compactor
    wrote: the hash of the user-visible state, the frontier, the author, the
    chain pointer and the policy metadata, which is compatible with the
    timeline the snapshot was made under. *)
Theorem snapshot_roundtrip `{!PostcardLaws (list bytes)} g sk base tl :
  Forall (λ e, is_u64 (effective_lamport e)) tl → from_option (λ b, length b = 32%nat) True base →
  ∃ meta, verify_snapshot (snapshot_node g sk base tl) = Ok meta ∧
    snapshot_hash meta = canonical_hash (compact_map g) ∧
    snap_frontier meta = sort (heads (g_frontier g)) ∧
    snap_author meta = ed_verifying_key sk ∧ snap_base_id meta = base ∧
    snapshot_policy_timeline_compatible meta tl = true.
Proof.
  intros Hu Hb. eexists. split; [by apply verify_snapshot_node|]. simpl. split_and!; try done.
  unfold snapshot_policy_timeline_compatible. cbn [snap_policy_timeline_hash snap_policy_cutover_lamport].
  destruct tl as [|e tl]; [done|]. rewrite decide_False by done.
  by rewrite !bool_decide_eq_true_2.
Qed.

(** A snapshot pack decodes to the snapshot and the delta it was made
    of. *)
Theorem snapshot_pack_roundtrip `{!PostcardLaws (list WireNode)} snapshot delta :
  is_snapshot_node snapshot = true →
  unpack_snapshot_pack (pack_snapshot_pack snapshot delta) = Ok (snapshot, delta).
Proof.
  intros Hs. unfold unpack_snapshot_pack, pack_snapshot_pack, unpack_nodes, pack_nodes.
  rewrite pc_roundtrip. rewrite <-list_fmap_compose.
  rewrite (list_fmap_ext _ id) by (intros; apply node_of_wire_of_node). rewrite list_fmap_id.
  by rewrite Hs.
Qed.

(** A snapshot is accepted by every peer that does not hold it yet and
    whose clock is within the slack, whatever its history and its write
    policy: it has no parents and carries the snapshot marker. *)
Theorem snapshot_accepted g g' sk base tl :
  get g' (node_id (snapshot_node g sk base tl)) = None →
  lamport_ok (g_lamport g') (snapshot_node g sk base tl) →
  (apply_remote g' (snapshot_node g sk base tl)).2 = Ok tt.
Proof.
  intros Hn Hl. set (n := snapshot_node g sk base tl) in *.
  pose proof (apply_remote_checked_spec g' n None) as Hs. unfold apply_remote.
  assert (remote_ok g' n None) as Hr.
  { split_and!; [done|done|done|right; by apply verify_signature_own|].
    split_and!; [|left; apply snapshot_node_marked|done]. intros p Hp. apply elem_of_nil in Hp as []. }
  destruct (apply_remote_checked g' n None) as [? [[]|e]]; [done|]. by destruct Hs.
Qed.

(** Independent verification of a snapshot.  Replaying the log of the
    compacted graph gives the hash the snapshot carries, as long as the
    only system key the log wrote is the encryption sentinel. *)
Theorem snapshot_hash_matches_replay g tl r :
  reachable g → no_equivocation (all_nodes g) →
  (∀ k v, resolve g !! k = Some v → is_system_key k = true → k = E2EE_KEY) →
  replay_with_policy_timeline (T := T) (all_nodes g) tl = Ok r →
  rs_hash r = canonical_hash (compact_map g).
Proof.
  intros Hok%reachable_ok Hne Hsys. unfold replay_with_policy_timeline.
  destruct (replay_graph (all_nodes g) tl) as [g'|] eqn:E; [|done]. intros [= <-]. simpl.
  destruct (replay_graph_nodes (all_nodes g) tl g') as [Hok' Hp].
  { by apply ok_typed_nodes. }
  { rewrite all_nodes_ids by by apply ok_store_keyed. apply ns_all_ids_NoDup. }
  { done. }
  f_equal. unfold replay_map, compact_map.
  assert (resolve g' = resolve g) as ->.
  { rewrite !ok_resolve_replay; try done; [|by rewrite Hp]. unfold graph_resolve_replay.
    apply resolve_replay_perm; [done|by rewrite Hp|rewrite Hp; by apply ok_typed_nodes]. }
  apply map_eq. intros k. apply option_eq. intros v.
  rewrite map_lookup_filter_Some, lookup_delete_Some. simpl.
  assert (is_system_key E2EE_KEY = true) as Hsk by done. split.
  - intros [Hne' Hv]. split; [done|]. destruct (is_system_key k) eqn:Es; [|done].
    destruct Hne'. symmetry. by eapply Hsys.
  - intros [Hv Hk]. split; [|done]. intros <-. congruence.
Qed.

(** A graph rebuilt from a snapshot alone holds no user state: every key
    it resolves is a system key.  The snapshot carries a hash of the state,
    not the state. *)
Theorem rebuild_drops_state g sk base tl g' :
  reachable g → g_lamport g < u64_max →
  rebuild_from_snapshot (snapshot_node g sk base tl) [] = Ok g' →
  compact_map g' = ∅.
Proof.
  intros Hr Hlt. pose proof (reachable_ok g Hr) as Hok. unfold rebuild_from_snapshot.
  destruct (verify_snapshot _) as [meta|]; [|done]. set (n := snapshot_node g sk base tl) in *.
  assert (ok (graph_with_store ∅ : graph)) as Hok0 by (exists []; by apply graph_ok_empty).
  assert (prio_typed n) as Ht.
  { split; [|apply ed_vk_length]. unfold n, node_lamport, snapshot_node. simpl.
    destruct Hok as [? []]. rewrite wrap_succ by done. unfold is_u64 in *. lia. }
  pose proof (ok_remote _ n None Hok0 Ht) as Hok1.
  pose proof (apply_remote_checked_spec (graph_with_store ∅ : graph) n None) as Hs.
  unfold apply_remote. destruct (apply_remote_checked _ n None) as [g1 [[]|e]]; [|done].
  simpl. intros [= <-]. simpl in Hok1. destruct Hs as (_&(_&_&Hget)&_).
  assert (∀ x, x ∈ all_nodes g1 → x = n) as Hall.
  { intros x [i Hi]%elem_of_all_nodes. rewrite Hget in Hi. simpl in Hi.
    case_decide; by simplify_eq. }
  apply map_empty. intros k. unfold compact_map. apply map_lookup_filter_None. right.
  intros v Hv. rewrite ok_resolve_replay in Hv; [|done|].
  - apply resolve_replay_key in Hv as (x&m&Hx&Hm&<-). apply Hall in Hx as ->.
    apply snapshot_map_ops in Hm as (k&w&Hkw&Hsys). injection Hkw as ->. simpl. congruence.
  - intros x y Hx%Hall Hy%Hall. by subst.
Qed.

(** Rebuilding from the snapshot of a graph succeeds exactly when the
    snapshot's lamport is within the slack of a fresh clock: a room whose
    clock passed [LAMPORT_SLACK] can no longer be rebuilt from its own
    snapshot. *)
Theorem rebuild_needs_small_clock `{!PostcardLaws (list bytes)} g sk base tl :
  reachable g → g_lamport g < u64_max →
  Forall (λ e, is_u64 (effective_lamport e)) tl → from_option (λ b, length b = 32%nat) True base →
  is_ok (rebuild_from_snapshot (T := T) (snapshot_node g sk base tl) []) = true ↔
  g_lamport g + 1 <= LAMPORT_SLACK.
Proof.
  intros Hr Hlt Hu Hb. pose proof (reachable_ok g Hr) as [? []]. unfold rebuild_from_snapshot.
  rewrite verify_snapshot_node by done. set (n := snapshot_node g sk base tl) in *.
  assert (node_lamport n = g_lamport g + 1) as Hl by by apply wrap_succ.
  pose proof (apply_remote_checked_spec (graph_with_store ∅ : graph) n None) as Hs.
  assert (remote_ok (graph_with_store ∅ : graph) n None ↔ g_lamport g + 1 <= LAMPORT_SLACK) as Hiff.
  { unfold remote_ok, lamport_ok. rewrite Hl. simpl. split.
    - intros (_&?&_). lia.
    - intros Hle. unfold LAMPORT_SLACK, u64_max in *. 
      split_and!; [done|lia|done|right; by apply verify_signature_own|].
      split_and!; [|left; apply snapshot_node_marked|done]. intros p Hp. apply elem_of_nil in Hp as []. }
  unfold apply_remote. destruct (apply_remote_checked _ n None) as [g1 [[]|e]]; simpl.
  - rewrite <-Hiff. tauto.
  - rewrite <-Hiff. split; [done|tauto].
Qed.
End theorems.

(** ** Instances *)

#[global] Instance Toy_Postcard_timeline : Postcard (list PolicyTimelineEntry) :=
  {| pc_to := λ tl, effective_lamport <$> tl; pc_from := λ b, Err b |}.

Definition toy_snapshot : SyncNode := snapshot_node toy_g1 toy_sk (Some (node_id toy_n1)) toy_timeline.

Lemma toy_timeline_u64 : Forall (λ e, is_u64 (effective_lamport e)) toy_timeline.
Proof. repeat constructor; vm_compute; discriminate. Qed.

Lemma snapshot_roundtrip_witness :
  ∃ meta, verify_snapshot toy_snapshot = Ok meta ∧ snap_base_id meta = Some (node_id toy_n1) ∧
    snapshot_policy_timeline_compatible meta toy_timeline = true.
Proof.
  destruct (snapshot_roundtrip toy_g1 toy_sk (Some (node_id toy_n1)) toy_timeline toy_timeline_u64 eq_refl)
    as (meta&Hm&_&_&_&Hb&Hc).
  exists meta. split; [exact Hm|]. split; [exact Hb|exact Hc].
Defined.

Lemma snapshot_pack_roundtrip_witness :
  unpack_snapshot_pack (pack_snapshot_pack toy_snapshot [toy_n2]) = Ok (toy_snapshot, [toy_n2]).
Proof. apply (snapshot_pack_roundtrip toy_snapshot [toy_n2]). vm_compute. reflexivity. Defined.

Definition toy_strict : ToyGraph := set_policy toy_graph (mkPolicy [] DenyAll).
Lemma snapshot_accepted_witness : (apply_remote toy_strict toy_snapshot).2 = Ok tt.
Proof.
  apply (snapshot_accepted toy_g1 toy_strict toy_sk (Some (node_id toy_n1)) toy_timeline).
  - vm_compute. reflexivity.
  - vm_compute. discriminate.
Defined.

Lemma snapshot_hash_matches_replay_witness :
  ∃ r, replay_with_policy_timeline (T := TextProjection) (all_nodes toy_g1) [] = Ok r ∧
    rs_hash r = canonical_hash (compact_map toy_g1).
Proof.
  destruct (replay_with_policy_timeline (T := TextProjection) (all_nodes toy_g1) []) as [r|e] eqn:E.
  - exists r. split; [reflexivity|].
    refine (snapshot_hash_matches_replay toy_g1 [] r toy_reachable_1 _ _ E).
    + rewrite toy_nodes_1. apply toy_honest.
    + intros k v Hkv Hs. apply elem_of_map_to_list in Hkv. vm_compute in Hkv.
      apply list_elem_of_singleton in Hkv. injection Hkv as -> ->. discriminate Hs.
  - vm_compute in E. discriminate E.
Defined.

Lemma rebuild_drops_state_witness :
  compact_map toy_g1 ≠ ∅ ∧
  ∃ g', rebuild_from_snapshot (T := TextProjection) toy_snapshot [] = Ok g' ∧ compact_map g' = ∅.
Proof.
  split; [vm_compute; discriminate|].
  destruct (rebuild_from_snapshot (T := TextProjection) toy_snapshot []) as [g'|e] eqn:E.
  - exists g'. split; [reflexivity|].
    refine (rebuild_drops_state toy_g1 toy_sk (Some (node_id toy_n1)) toy_timeline g' toy_reachable_1 _ E).
    vm_compute. reflexivity.
  - vm_compute in E. discriminate E.
Defined.

Lemma rebuild_needs_small_clock_witness :
  is_ok (rebuild_from_snapshot (T := TextProjection) toy_snapshot []) = true.
Proof.
  apply (rebuild_needs_small_clock toy_g1 toy_sk (Some (node_id toy_n1)) toy_timeline toy_reachable_1).
  - vm_compute. reflexivity.
  - apply toy_timeline_u64.
  - reflexivity.
  - vm_compute. discriminate.
Defined.
