(* ===== verification/Token.v ===== *)
(** Room tokens (token.rs): the signed message of a capability token, signing
    and verification; and the capability negotiation of the handshake
    (capabilities.rs). *)

From S2P Require Import Prelude Hex Op Node Policy Storage CacheFacts TextState Graph GraphFacts GraphOps GraphBatch Replica Fenwick.
From S2P Require Import Text Toy.


Definition DOMAIN : bytes := bs "nodalmerge-room-token-v1".

Inductive TokenError := Expired | BadSignature | PeerMismatch | Malformed (field : bytes).

Record RoomToken := mkToken {
  tok_peer : PublicKey;
  tok_expiry : Z;
  tok_caps : list bytes;
  tok_sig : bytes;
}.

(** [slice::join("\n")]. *)
Fixpoint join_nl (caps : list bytes) : bytes :=
  match caps with
  | [] => []
  | [c] => c
  | c :: caps => c ++ 10 :: join_nl caps
  end.

(** [token_message]. *)
Definition token_message (room_id : bytes) (peer : PublicKey) (expiry : Z) (caps : list bytes) : bytes :=
  DOMAIN ++ [0] ++ room_id ++ [0] ++ peer ++ le_bytes 8 expiry ++ [0] ++ join_nl caps.

(** [RoomToken::from_wire]. *)
Definition token_from_wire (peer_hex : bytes) (expiry : Z) (caps : list bytes) (sig_hex : bytes)
    : result TokenError RoomToken :=
  match hex_to_array 32 peer_hex with
  | None => Err (Malformed (bs "peer_pubkey"))
  | Some peer =>
      match hex_to_array 64 sig_hex with
      | None => Err (Malformed (bs "sig"))
      | Some s => Ok (mkToken peer expiry caps s)
      end
  end.

(** [sig_hex] and [peer_pubkey_hex]. *)
Definition token_sig_hex (t : RoomToken) : bytes := to_hex (tok_sig t).
Definition token_peer_hex (t : RoomToken) : bytes := to_hex (tok_peer t).

Section token.
Context `{Ed25519}.

(** [RoomToken::sign]. *)
Definition token_sign (room_id : bytes) (peer : PublicKey) (expiry : Z) (caps : list bytes)
    (sk : SigningKey) : RoomToken :=
  let sorted := sort caps in
  mkToken peer expiry sorted (ed_sign sk (token_message room_id peer expiry sorted)).

(** [RoomToken::verify]; the room key has been decoded by the caller. *)
Definition token_verify (t : RoomToken) (room_id : bytes) (room_key connecting : PublicKey) (now : Z)
    : result TokenError unit :=
  if decide (tok_peer t ≠ connecting) then Err PeerMismatch
  else if tok_expiry t <=? now then Err Expired
  else if ed_verify room_key (token_message room_id (tok_peer t) (tok_expiry t) (sort (tok_caps t))) (tok_sig t)
  then Ok tt else Err BadSignature.
End token.

(** ** The message determines what was granted *)

(** Splitting at the first separator. *)
Lemma split_sep_inj (c : Z) (x y s t : bytes) :
  c ∉ x → c ∉ y → x ++ c :: s = y ++ c :: t → x = y ∧ s = t.
Proof.
  revert y. induction x as [|a x IH]; intros [|b y] Hx Hy E; simpl in E.
  - injection E as ->. done.
  - injection E as -> _. set_solver.
  - injection E as -> _. set_solver.
  - injection E as -> E. apply IH in E as [-> ->]; [done|set_solver..].
Qed.

Definition no_newline (caps : list bytes) : Prop := Forall (λ c, (10 ∉ c)) caps.

Lemma join_nl_cons c d caps : join_nl (c :: d :: caps) = c ++ 10 :: join_nl (d :: caps).
Proof. done. Qed.

Lemma join_nl_no_sep (c d : bytes) caps : 10 ∉ c → c = d ++ 10 :: caps → False.
Proof. intros Hc ->. apply Hc. set_solver. Qed.

(** Joining is injective on non-empty lists of strings without newlines. *)
Lemma join_nl_inj l k :
  no_newline l → no_newline k → l ≠ [] → k ≠ [] → join_nl l = join_nl k → l = k.
Proof.
  intros Hl. revert k. induction Hl as [|c l Hc Hl IH]; intros k Hk Hne1 Hne2 E; [done|].
  destruct Hk as [|d k Hd Hk]; [done|]. destruct l as [|c' l], k as [|d' k].
  - simpl in E. by subst.
  - rewrite join_nl_cons in E. by destruct (join_nl_no_sep _ _ _ Hc E).
  - rewrite join_nl_cons in E. by destruct (join_nl_no_sep _ _ _ Hd (eq_sym E)).
  - rewrite !join_nl_cons in E. apply split_sep_inj in E as [-> E]; [|done..].
    f_equal. by apply IH.
Qed.

Lemma join_nl_nil l : no_newline l → join_nl l = [] → l = [] ∨ l = [[]].
Proof.
  intros _. destruct l as [|c [|d l]]; simpl; [by left| |by destruct c]. intros ->. by right.
Qed.

(** A signed message commits to the room, the peer, the expiry and the
    capabilities: for room ids without a NUL byte and capability strings
    without newlines, equal messages come from equal grants, up to the one
    confusion of no capability at all with a single empty capability. *)
Theorem token_message_commits room1 room2 peer1 peer2 exp1 exp2 caps1 caps2 :
  0 ∉ room1 → 0 ∉ room2 → length peer1 = 32%nat → length peer2 = 32%nat →
  is_u64 exp1 → is_u64 exp2 → no_newline caps1 → no_newline caps2 →
  token_message room1 peer1 exp1 caps1 = token_message room2 peer2 exp2 caps2 →
  room1 = room2 ∧ peer1 = peer2 ∧ exp1 = exp2 ∧
  (caps1 = caps2 ∨ (caps1 = [] ∧ caps2 = [[]]) ∨ (caps1 = [[]] ∧ caps2 = [])).
Proof.
  intros Hr1 Hr2 Hp1 Hp2 He1 He2 Hc1 Hc2 E. unfold token_message in E.
  apply app_inv_head, (app_inv_head [0]) in E.
  apply split_sep_inj in E as [-> E]; [|done..].
  apply app_inj_1 in E as [-> E]; [|lia].
  apply app_inj_1 in E as [Ee E]; [|by rewrite !le_bytes_length].
  apply (app_inv_head [0]) in E.
  assert (exp1 = exp2) as ->.
  { rewrite <-(of_le_bytes_le 8 exp1), <-(of_le_bytes_le 8 exp2), Ee; [done|..];
      unfold is_u64, u64_max in *; simpl; lia. }
  split_and!; try done. destruct caps1 as [|c1 l1], caps2 as [|c2 l2].
  - by left.
  - symmetry in E. apply join_nl_nil in E as [|E]; [done| |done]. rewrite E. auto.
  - apply join_nl_nil in E as [|E]; [done| |done]. rewrite E. auto.
  - left. by apply join_nl_inj.
Qed.

Section theorems.
Context `{Ed25519}.

(** A token verifies exactly when it is presented by the peer it names,
    before its expiry, with a signature of the room key over its fields. *)
Theorem token_verify_iff t room key peer now :
  token_verify t room key peer now = Ok tt ↔
  tok_peer t = peer ∧ now < tok_expiry t ∧
  ed_verify key (token_message room (tok_peer t) (tok_expiry t) (sort (tok_caps t))) (tok_sig t) = true.
Proof.
  unfold token_verify. case_decide as Hp; [split; [done|naive_solver]|].
  destruct (Z.leb_spec (tok_expiry t) now); [split; [done|lia]|].
  destruct (ed_verify _ _ _); naive_solver.
Qed.

(** A freshly signed token verifies for its peer until it expires,
    whatever order the capabilities were given in, also after the trip over
    the wire in hex. *)
Theorem token_sign_verify `{!Ed25519Laws} room peer expiry caps sk now :
  byte_array 32 peer → now < expiry →
  let t := token_sign room peer expiry caps sk in
  token_from_wire (token_peer_hex t) (tok_expiry t) (tok_caps t) (token_sig_hex t) = Ok t ∧
  token_verify t room (ed_verifying_key sk) peer now = Ok tt.
Proof.
  intros Hp Hn t. unfold token_from_wire, token_peer_hex, token_sig_hex.
  rewrite !hex_to_array_to_hex by (done || apply ed_sign_length). split; [by destruct t|].
  unfold token_verify. simpl. rewrite decide_False by auto. rewrite (proj2 (Z.leb_gt _ _)) by done.
  assert (sort (sort caps) = sort caps) as ->; [|by rewrite ed_verify_own].
  apply sort_proper, sort_perm.
Qed.
End theorems.

(** An empty capability list, which grants full access, and a list that
    holds one empty capability are signed by the same message, so either token
    can be presented as the other. *)
Theorem token_empty_cap_confusion room peer expiry :
  token_message room peer expiry [] = token_message room peer expiry [[]].
Proof. done. Qed.

(** ** Instances *)

Lemma token_message_commits_witness :
  token_message (bs "room") (toy_key 1) 9 [bs "read:a"; bs "write:b"] =
    token_message (bs "room") (toy_key 1) 9 [bs "read:a"; bs "write:b"] ∧
  bs "room" = bs "room".
Proof.
  split; [reflexivity|].
  apply (token_message_commits (bs "room") (bs "room") (toy_key 1) (toy_key 1) 9 9
           [bs "read:a"; bs "write:b"] [bs "read:a"; bs "write:b"]);
    try (vm_compute; reflexivity); try (vm_compute; intuition discriminate);
    try (apply (bool_decide_unpack _); vm_compute; exact I).
Defined.

Lemma token_sign_verify_witness :
  token_verify (token_sign (bs "room") (toy_key 1) 9 [bs "b"; bs "a"] toy_sk) (bs "room")
    (ed_verifying_key toy_sk) (toy_key 1) 3 = Ok tt.
Proof.
  apply (token_sign_verify (bs "room") (toy_key 1) 9 [bs "b"; bs "a"] toy_sk 3).
  - apply (bool_decide_unpack _). vm_compute. exact I.
  - reflexivity.
Defined.


Record SyncCapabilities := mkCaps {
  supports_ibf : bool;
  supports_mst : bool;
  supports_postcard : bool;
  supports_encryption : bool;
  supports_webrtc : bool;
  max_tick_interval_ms : option Z;
  supports_list_crdt : bool;
  supports_direct_blob_io : bool;
}.

(** [SyncCapabilities::default]. *)
Definition caps_default : SyncCapabilities := mkCaps true true true true false None true true.

Definition meet_tick (a b : option Z) : option Z :=
  match a, b with Some x, Some y => Some (Z.max x y) | _, _ => None end.

(** [SyncCapabilities::intersect]. *)
Definition intersect (a b : SyncCapabilities) : SyncCapabilities :=
  mkCaps (supports_ibf a && supports_ibf b) (supports_mst a && supports_mst b)
    (supports_postcard a && supports_postcard b) (supports_encryption a && supports_encryption b)
    (supports_webrtc a && supports_webrtc b)
    (meet_tick (max_tick_interval_ms a) (max_tick_interval_ms b))
    (supports_list_crdt a && supports_list_crdt b)
    (supports_direct_blob_io a && supports_direct_blob_io b).

(** Every flag of [a] is also set in [b]. *)
Definition flags_le (a b : SyncCapabilities) : Prop :=
  (supports_ibf a → supports_ibf b) ∧ (supports_mst a → supports_mst b) ∧
  (supports_postcard a → supports_postcard b) ∧ (supports_encryption a → supports_encryption b) ∧
  (supports_webrtc a → supports_webrtc b) ∧ (supports_list_crdt a → supports_list_crdt b) ∧
  (supports_direct_blob_io a → supports_direct_blob_io b) ∧
  (is_Some (max_tick_interval_ms a) → is_Some (max_tick_interval_ms b)).

(** Negotiation is symmetric, idempotent and associative, so every peer
    of a session computes the same set, and it activates only features both
    sides offered: the result is the greatest set below both. *)
Theorem intersect_is_meet a b c :
  intersect a b = intersect b a ∧ intersect a a = a ∧
  intersect a (intersect b c) = intersect (intersect a b) c ∧
  flags_le (intersect a b) a ∧ flags_le (intersect a b) b ∧
  (flags_le c a → flags_le c b → flags_le c (intersect a b)).
Proof.
  destruct a as [a1 a2 a3 a4 a5 at_ a6 a7], b as [b1 b2 b3 b4 b5 bt b6 b7],
    c as [c1 c2 c3 c4 c5 ct c6 c7].
  unfold intersect, flags_le, meet_tick; simpl. split_and!.
  - f_equal; try apply andb_comm. destruct at_, bt; try done. f_equal. lia.
  - f_equal; try apply andb_diag. destruct at_; [|done]. f_equal. lia.
  - f_equal; try apply andb_assoc. destruct at_, bt, ct; try done. f_equal. lia.
  - by destruct a1.
  - by destruct a2.
  - by destruct a3.
  - by destruct a4.
  - by destruct a5.
  - by destruct a6.
  - by destruct a7.
  - destruct at_, bt; naive_solver.
  - by destruct a1.
  - by destruct a2.
  - by destruct a3.
  - by destruct a4.
  - by destruct a5.
  - by destruct a6.
  - by destruct a7.
  - destruct at_, bt; naive_solver.
  - intros (?&?&?&?&?&?&?&Ht1) (?&?&?&?&?&?&?&Ht2). rewrite !andb_True. split_and!; auto.
    intros Hc. destruct (Ht1 Hc) as [? ->], (Ht2 Hc) as [? ->]. eauto.
Qed.

(** The negotiated tick interval is at least as large as what each peer
    declared as the maximum it will accept; it exceeds one side's maximum
    whenever the two differ. *)
Theorem tick_interval_exceeds_minimum a b x y :
  max_tick_interval_ms a = Some x → max_tick_interval_ms b = Some y → x < y →
  ∃ z, max_tick_interval_ms (intersect a b) = Some z ∧ x < z.
Proof. intros Ha Hb Hlt. simpl. rewrite Ha, Hb. simpl. eexists. split; [done|]. lia. Qed.

Definition caps_tick (t : Z) : SyncCapabilities := mkCaps true true true true false (Some t) true true.
Lemma tick_interval_witness :
  ∃ z, max_tick_interval_ms (intersect (caps_tick 50) (caps_tick 100)) = Some z ∧ 50 < z.
Proof.
  apply (tick_interval_exceeds_minimum (caps_tick 50) (caps_tick 100) 50 100); reflexivity.
Defined.
