(* ===== verification/Profile.v ===== *)
(** Capability profiles (server/capability-profile/src/lib.rs): the inheritance
    graph over capability tokens and its expansion into the set a token grants. *)

From S2P Require Import Prelude Hex Str.

(** ** Data *)

Definition DEFAULT_MAX_CAPABILITY_COUNT : Z := 128.
Definition DEFAULT_MAX_CAPABILITY_LENGTH : Z := 128.
Definition DEFAULT_MAX_FLATTENED_PAYLOAD_BYTES : Z := 8 * 1024.
Definition DEFAULT_MAX_DAG_DEPTH : Z := 16.
Definition DEFAULT_MAX_EDGES_PER_NODE : Z := 64.

Record CapabilityNode := mkCapNode { cn_capability : bytes; cn_inherits : list bytes }.

Record CapabilityProfileLimits := mkCapLimits {
  max_capability_count : Z;
  max_capability_length : Z;
  max_flattened_payload_bytes : Z;
  max_dag_depth : Z;
  max_edges_per_node : Z;
}.

Record CapabilityProfile := mkCapProfile {
  profile_version : bytes;
  supported_profile_versions : list bytes;
  profile_nodes : list CapabilityNode;
  profile_limits : option CapabilityProfileLimits;
}.

Definition limits_default : CapabilityProfileLimits :=
  mkCapLimits DEFAULT_MAX_CAPABILITY_COUNT DEFAULT_MAX_CAPABILITY_LENGTH DEFAULT_MAX_FLATTENED_PAYLOAD_BYTES
    DEFAULT_MAX_DAG_DEPTH DEFAULT_MAX_EDGES_PER_NODE.

Inductive CapabilityProfileError :=
| CpIo (msg : bytes)
| CpParse (msg : bytes)
| InvalidProfileVersion
| MissingProfileVersion
| ProfileVersionMismatch
| DuplicateCapability (cap : bytes)
| UnknownCapability (cap : bytes)
| InvalidCapabilityToken (cap : bytes)
| TooManyEdges (capability : bytes) (max : Z)
| CycleDetected (cap : bytes)
| CpDepthExceeded (max : Z)
| CountExceeded (max : Z)
| PayloadExceeded (max : Z).

(** The classes two runtimes must agree on. *)
Definition error_class (e : CapabilityProfileError) : bytes :=
  match e with
  | CpIo _ | CpParse _ | InvalidProfileVersion => bs "invalid_profile"
  | MissingProfileVersion => bs "missing_profile_version"
  | ProfileVersionMismatch => bs "profile_version_mismatch"
  | DuplicateCapability _ => bs "duplicate_capability"
  | UnknownCapability _ => bs "unknown_capability"
  | InvalidCapabilityToken _ => bs "invalid_token"
  | TooManyEdges _ _ => bs "too_many_edges"
  | CycleDetected _ => bs "cycle"
  | CpDepthExceeded _ => bs "depth_exceeded"
  | CountExceeded _ => bs "count_exceeded"
  | PayloadExceeded _ => bs "payload_exceeded"
  end.

(** The message of an error, as a client of the handshake sees it. *)
Definition error_text (e : CapabilityProfileError) : bytes :=
  match e with
  | CpIo msg => bs "io error: " ++ msg
  | CpParse msg => bs "parse error: " ++ msg
  | InvalidProfileVersion => bs "invalid profile version"
  | MissingProfileVersion => bs "missing capability_profile_version while composition is enabled"
  | ProfileVersionMismatch => bs "capability profile version mismatch"
  | DuplicateCapability cap => bs "duplicate capability in profile: " ++ cap
  | UnknownCapability cap => bs "unknown capability in profile expansion input: " ++ cap
  | InvalidCapabilityToken cap => bs "invalid capability token: " ++ cap
  | TooManyEdges cap max => bs "capability '" ++ cap ++ bs "' exceeds max edges per node: " ++ decimal max
  | CycleDetected cap => bs "cycle detected at capability: " ++ cap
  | CpDepthExceeded max => bs "capability graph depth exceeded max: " ++ decimal max
  | CountExceeded max => bs "flattened capability count exceeded max: " ++ decimal max
  | PayloadExceeded max => bs "flattened capability payload bytes exceeded max: " ++ decimal max
  end.

Definition clamp_to_ceiling (value ceiling : Z) : Z := if ceiling <? value then ceiling else value.

Definition resolved_limits (profile : CapabilityProfile) : CapabilityProfileLimits :=
  let limits := default limits_default (profile_limits profile) in
  mkCapLimits
    (clamp_to_ceiling (max_capability_count limits) DEFAULT_MAX_CAPABILITY_COUNT)
    (clamp_to_ceiling (max_capability_length limits) DEFAULT_MAX_CAPABILITY_LENGTH)
    (clamp_to_ceiling (max_flattened_payload_bytes limits) DEFAULT_MAX_FLATTENED_PAYLOAD_BYTES)
    (clamp_to_ceiling (max_dag_depth limits) DEFAULT_MAX_DAG_DEPTH)
    (clamp_to_ceiling (max_edges_per_node limits) DEFAULT_MAX_EDGES_PER_NODE).

(** ** Tokens

    [str::trim] takes away Unicode white space at both ends: the UTF-8 codes of
    the characters with the White_Space property. *)

Definition white_space : list bytes :=
  [[9]; [10]; [11]; [12]; [13]; [32]; [194; 133]; [194; 160]; [225; 154; 128];
   [226; 128; 128]; [226; 128; 129]; [226; 128; 130]; [226; 128; 131]; [226; 128; 132]; [226; 128; 133];
   [226; 128; 134]; [226; 128; 135]; [226; 128; 136]; [226; 128; 137]; [226; 128; 138];
   [226; 128; 168]; [226; 128; 169]; [226; 128; 175]; [226; 129; 159]; [227; 128; 128]].

Definition strip_any (codes : list bytes) (s : bytes) : option bytes :=
  head (omap (λ c, strip_prefix c s) codes).
Fixpoint strip_all (fuel : nat) (codes : list bytes) (s : bytes) : bytes :=
  match fuel with
  | O => s
  | S fuel => match strip_any codes s with Some s' => strip_all fuel codes s' | None => s end
  end.
Definition utrim (s : bytes) : bytes :=
  let s := strip_all (length s) white_space s in
  reverse (strip_all (length s) (reverse <$> white_space) (reverse s)).

Definition is_lower_or_digit (c : Z) : bool := ((97 <=? c) && (c <=? 122)) || ((48 <=? c) && (c <=? 57)).

Definition is_valid_capability_token (token : bytes) : bool :=
  match token with
  | [] => false
  | first :: chars =>
      is_lower_or_digit first &&
      forallb (λ c, is_lower_or_digit c || (c =? 46) || (c =? 95) || (c =? 45)) chars
  end.

Definition canonicalize_capability (raw : bytes) (max_len : Z) : result CapabilityProfileError bytes :=
  let token := to_lowercase (utrim raw) in
  if bool_decide (token = []) || (max_len <? Z.of_nat (length token)) then Err (InvalidCapabilityToken raw)
  else if is_valid_capability_token token then Ok token
  else Err (InvalidCapabilityToken raw).

Fixpoint canonicalize_all (raws : list bytes) (max_len : Z) : result CapabilityProfileError (list bytes) :=
  match raws with
  | [] => Ok []
  | raw :: raws =>
      let? cap := canonicalize_capability raw max_len in
      let? caps := canonicalize_all raws max_len in Ok (cap :: caps)
  end.

(** ** Validation *)

(** One node of [validate_profile_shape]; [seen] is the set of earlier nodes. *)
Definition validate_node (limits : CapabilityProfileLimits) (seen : gset bytes) (node : CapabilityNode) :
    result CapabilityProfileError (gset bytes) :=
  let? capability := canonicalize_capability (cn_capability node) (max_capability_length limits) in
  if bool_decide (capability ∈ seen) then Err (DuplicateCapability capability)
  else if max_edges_per_node limits <? Z.of_nat (length (cn_inherits node)) then
    Err (TooManyEdges capability (max_edges_per_node limits))
  else
    let? _ := canonicalize_all (cn_inherits node) (max_capability_length limits) in
    Ok ({[ capability ]} ∪ seen).

Definition validate_profile_shape (profile : CapabilityProfile) : result CapabilityProfileError unit :=
  if bool_decide (utrim (profile_version profile) = []) then Err InvalidProfileVersion
  else
    let? _ := foldl_res (validate_node (resolved_limits profile)) ∅ (profile_nodes profile) in
    if existsb (λ v, bool_decide (utrim v = [])) (supported_profile_versions profile) then Err InvalidProfileVersion
    else Ok tt.

(** Loading: the JSON parser is a parameter, as its error texts are. *)
Definition load_capability_profile {J : Type} (parse : J → result bytes CapabilityProfile) (raw : J) :
    result CapabilityProfileError CapabilityProfile :=
  match parse raw with
  | Err e => Err (CpParse e)
  | Ok profile => let? _ := validate_profile_shape profile in Ok profile
  end.

(** ** Expansion *)

Abbreviation CapGraph := (gmap bytes (list bytes)).

Definition graph_node (limits : CapabilityProfileLimits) (graph : CapGraph) (node : CapabilityNode) :
    result CapabilityProfileError CapGraph :=
  let? cap := canonicalize_capability (cn_capability node) (max_capability_length limits) in
  let? inherits := canonicalize_all (cn_inherits node) (max_capability_length limits) in
  if max_edges_per_node limits <? Z.of_nat (length inherits) then
    Err (TooManyEdges cap (max_edges_per_node limits))
  else if bool_decide (is_Some (graph !! cap)) then Err (DuplicateCapability cap)
  else Ok (<[cap := inherits]> graph).

Definition build_graph (profile : CapabilityProfile) : result CapabilityProfileError CapGraph :=
  foldl_res (graph_node (resolved_limits profile)) ∅ (profile_nodes profile).

(** The sets the walk threads: the current path, and what is expanded. *)
Abbreviation Walk := (gset bytes * gset bytes)%type.

Fixpoint dfs_expand (fuel : nat) (graph : CapGraph) (limits : CapabilityProfileLimits) (depth : Z)
    (w : Walk) (cap : bytes) : result CapabilityProfileError Walk :=
  match fuel with
  | O => Err (CpDepthExceeded (max_dag_depth limits))
  | S fuel =>
      if max_dag_depth limits <? depth then Err (CpDepthExceeded (max_dag_depth limits))
      else if bool_decide (cap ∈ w.1) then Err (CycleDetected cap)
      else if bool_decide (cap ∈ w.2) then Ok w
      else
        let? (visiting, expanded) :=
          foldl_res (dfs_expand fuel graph limits (depth + 1)) ({[ cap ]} ∪ w.1, w.2) (default [] (graph !! cap)) in
        Ok (visiting ∖ {[ cap ]}, {[ cap ]} ∪ expanded)
  end.

(** The depths that pass the check are [0 .. max_dag_depth]. *)
Definition walk_fuel (limits : CapabilityProfileLimits) : nat := S (Z.to_nat (max_dag_depth limits)).

Definition expand_assigned (graph : CapGraph) (limits : CapabilityProfileLimits) (w : Walk) (raw : bytes) :
    result CapabilityProfileError Walk :=
  let? cap := canonicalize_capability raw (max_capability_length limits) in
  if bool_decide (graph !! cap = None) then Err (UnknownCapability cap)
  else dfs_expand (walk_fuel limits) graph limits 0 w cap.

(** The bytes of the tokens joined with commas. *)
Definition payload_bytes (caps : list bytes) : Z := foldr Z.add 0 (imap (λ i s, Z.of_nat (length s) + (if (0 <? i)%nat then 1 else 0)) caps).

(** [entries] is the order in which the hash map of nodes is iterated: it decides
    which of several dangling references is reported. *)
Section flatten.
Context (entries : CapGraph → list (bytes * list bytes)).

Definition dangling (graph : CapGraph) : option (bytes * bytes) :=
  head ('(cap, parents) ← entries graph;
        (λ parent, (parent, cap)) <$> filter (λ parent, graph !! parent = None) parents).

Definition flatten_capabilities (profile : CapabilityProfile) (assigned_capabilities : list bytes) :
    result CapabilityProfileError (list bytes) :=
  let limits := resolved_limits profile in
  let? graph := build_graph profile in
  match dangling graph with
  | Some (parent, cap) => Err (UnknownCapability (parent ++ bs " (referenced by " ++ cap ++ bs ")"))
  | None =>
      let? (_, expanded) := foldl_res (expand_assigned graph limits) (∅, ∅) assigned_capabilities in
      if max_capability_count limits <? Z.of_nat (size expanded) then Err (CountExceeded (max_capability_count limits))
      else
        let caps := sort (elements expanded) in
        if max_flattened_payload_bytes limits <? payload_bytes caps then
          Err (PayloadExceeded (max_flattened_payload_bytes limits))
        else Ok caps
  end.

Definition profile_supports_version (profile : CapabilityProfile) (requested : bytes) : bool :=
  let requested_trimmed := utrim requested in
  if bool_decide (requested_trimmed = []) then false
  else if bool_decide (requested_trimmed = profile_version profile) then true
  else existsb (λ v, bool_decide (utrim v = requested_trimmed)) (supported_profile_versions profile).

Definition expand_with_version_gate (profile : CapabilityProfile) (assigned_capabilities : list bytes)
    (claimed_profile_version : option bytes) : result CapabilityProfileError (list bytes) :=
  let? claimed := ok_or (s ← utrim <$> claimed_profile_version; if bool_decide (s = []) then None else Some s)
                    MissingProfileVersion in
  if profile_supports_version profile claimed then flatten_capabilities profile assigned_capabilities
  else Err ProfileVersionMismatch.
End flatten.

(** ** What an expansion is *)

Section expansion.
Implicit Types (g : CapGraph) (V X : gset bytes).

Definition inherits_from g (c p : bytes) : Prop := ∃ ps, g !! c = Some ps ∧ p ∈ ps.
(** What the capabilities [caps] grant: themselves and all they inherit. *)
Definition granted g (caps : list bytes) (x : bytes) : Prop := ∃ c, c ∈ caps ∧ rtc (inherits_from g) c x.
(** No chain of inheritance from [c] has more than [n] edges. *)
Fixpoint within g (n : nat) (c : bytes) : Prop :=
  match n with
  | O => ∀ p, ¬ inherits_from g c p
  | S n => ∀ p, inherits_from g c p → within g n p
  end.
(** Every chain of inheritance from [c] ends. *)
Definition grounded g (c : bytes) : Prop := Acc (flip (inherits_from g)) c.

Lemma inherits_from_default g c p : inherits_from g c p ↔ p ∈ default [] (g !! c).
Proof.
  unfold inherits_from. destruct (g !! c) as [ps|]; cbn.
  - split; [by intros (?&[= <-]&?)|]. intros ?. by exists ps.
  - split; [by intros (?&?&?)|]. by intros ?%elem_of_nil.
Qed.

Lemma grounded_acyclic g c : grounded g c → ¬ tc (inherits_from g) c c.
Proof.
  induction 1 as [c _ IH]. intros Hc. assert (∃ p, inherits_from g c p ∧ rtc (inherits_from g) p c) as (p&Hp&Hr).
  { inversion Hc; subst; [by exists c|]. eexists; split; [done|]. by apply tc_rtc. }
  apply (IH p Hp). eapply tc_rtc_l; [done|]. by apply tc_once.
Qed.

Lemma within_grounded g n c : within g n c → grounded g c.
Proof.
  revert c. induction n as [|n IH]; intros c Hc; constructor; intros p Hp; [by destruct (Hc p)|].
  by apply IH, Hc.
Qed.

(** *** One walk

    The path comes back as it was; the expanded set grows by what the start grants
    and stays closed under inheritance and free of cycles. *)

Definition closed_set g X : Prop := ∀ x p, x ∈ X → inherits_from g x p → p ∈ X.
Definition grounded_set g X : Prop := ∀ x, x ∈ X → grounded g x.

Record walked g (caps : list bytes) (w w' : Walk) : Prop := {
  wk_path : w'.1 = w.1;
  wk_grows : w.2 ⊆ w'.2;
  wk_start : ∀ c, c ∈ caps → c ∈ w'.2;
  wk_only : ∀ x, x ∈ w'.2 → x ∈ w.2 ∨ granted g caps x;
  wk_closed : closed_set g w.2 → closed_set g w'.2;
  wk_grounded : grounded_set g w.2 → grounded_set g w'.2;
}.

Lemma walked_fold g (f : Walk → bytes → result CapabilityProfileError Walk) caps w w' :
  (∀ w c w', f w c = Ok w' → walked g [c] w w') → foldl_res f w caps = Ok w' → walked g caps w w'.
Proof.
  intros Hf. revert w. induction caps as [|c caps IH]; intros w; cbn.
  - intros [= <-]. split; try done; set_solver.
  - destruct (f w c) as [w1|] eqn:E; [|done]. intros H2. apply IH in H2. apply Hf in E.
    destruct E as [p1 g1 s1 o1 c1 k1], H2 as [p2 g2 s2 o2 c2 k2]. split.
    + congruence.
    + set_solver.
    + intros x [->|Hx]%elem_of_cons; [apply g2, s1; set_solver|by apply s2].
    + intros x [Hx|(y&Hy&Hr)]%o2; [destruct (o1 x Hx) as [?|(y&Hy&Hr)]; [by left|]|]; right; exists y;
        (split; [set_solver|done]).
    + auto.
    + auto.
Qed.

Lemma dfs_walked g limits fuel d w c w' :
  dfs_expand fuel g limits d w c = Ok w' → walked g [c] w w'.
Proof.
  revert d w c w'. induction fuel as [|fuel IH]; intros d w c w'; cbn [dfs_expand]; [done|].
  destruct (_ <? _); [done|]. case_bool_decide as Hv; [done|]. case_bool_decide as Hx.
  { intros [= <-]. split; try done; set_solver. }
  destruct (foldl_res _ _ _) as [[V X]|] eqn:E; [|done]. intros [= <-].
  eapply walked_fold in E; [|intros ? ? ?; apply IH]. destruct E as [p1 g1 s1 o1 c1 k1]. cbn in *. split; cbn.
  - rewrite p1. apply leibniz_equiv. set_solver.
  - set_solver.
  - set_solver.
  - intros x [->%elem_of_singleton|Hin]%elem_of_union; [right; exists c; set_solver|].
    destruct (o1 x Hin) as [?|(y&Hy&Hr)]; [by left|]. right. exists c. split; [set_solver|].
    eapply rtc_l; [|done]. by apply inherits_from_default.
  - intros Hc x p [->%elem_of_singleton|Hin]%elem_of_union Hp; apply elem_of_union_r.
    + by apply s1, inherits_from_default.
    + by eapply c1.
  - intros Hg x [->%elem_of_singleton|Hin]%elem_of_union; [|by apply k1].
    constructor. intros p Hp. by apply (k1 Hg), s1, inherits_from_default.
Qed.

(** A walk within the depth succeeds, on every path that leads here. *)
Lemma dfs_succeeds g limits fuel n d w c :
  within g n c → d + Z.of_nat n <= max_dag_depth limits → (n < fuel)%nat →
  (∀ v, v ∈ w.1 → tc (inherits_from g) v c) →
  ∃ w', dfs_expand fuel g limits d w c = Ok w'.
Proof.
  revert fuel d w c. induction n as [|n IH]; intros fuel d w c Hn Hd Hf Hpath;
    (destruct fuel as [|fuel]; [lia|]); cbn [dfs_expand]; rewrite (proj2 (Z.ltb_ge _ _)) by lia;
    (rewrite bool_decide_eq_false_2 by (intros Hv; by eapply grounded_acyclic, Hpath, Hv; eapply within_grounded));
    (case_bool_decide; [by eexists|]).
  - destruct (default [] (g !! c)) as [|p ps] eqn:E; [cbn; by eexists|]. exfalso.
    apply (Hn p), inherits_from_default. rewrite E. set_solver.
  - cut (∀ ps X, (∀ p, p ∈ ps → inherits_from g c p) →
        ∃ w', foldl_res (dfs_expand fuel g limits (d + 1)) ({[c]} ∪ w.1, X) ps = Ok w').
    { intros Hl. destruct (Hl (default [] (g !! c)) w.2) as [[V X] E]; [intros p; apply inherits_from_default|].
      rewrite E. by eexists. }
    intros ps. induction ps as [|p ps IHp]; intros X Hps; cbn [foldl_res]; [by eexists|].
    destruct (IH fuel (d + 1) ({[c]} ∪ w.1, X) p) as [[V' X'] E]; [apply Hn, Hps; set_solver|lia|lia| |].
    { cbn. intros v [->%elem_of_singleton|Hv]%elem_of_union; [apply tc_once, Hps; set_solver|].
      eapply tc_r; [by apply Hpath|]. apply Hps. set_solver. }
    rewrite E. apply dfs_walked in E as [Hp' _ _ _ _ _]. cbn in Hp'. subst V'. apply IHp. set_solver.
Qed.

(** The fuel is never what ends a walk. *)
Lemma dfs_fuel_enough g limits fuel d w c :
  max_dag_depth limits - d < Z.of_nat fuel → 0 <= d →
  dfs_expand fuel g limits d w c = dfs_expand (S fuel) g limits d w c.
Proof.
  revert d w c. induction fuel as [|fuel IH]; intros d w c Hf Hd.
  - cbn. by rewrite (proj2 (Z.ltb_lt _ _)) by lia.
  - remember (S fuel) as f eqn:Ef. rewrite Ef at 1. cbn [dfs_expand].
    destruct (Z.ltb_spec (max_dag_depth limits) d); [done|].
    case_bool_decide; [done|]. case_bool_decide; [done|].
    assert (∀ w ps, foldl_res (dfs_expand fuel g limits (d + 1)) w ps = foldl_res (dfs_expand f g limits (d + 1)) w ps) as ->;
      [|done].
    intros w1 ps. revert w1. induction ps as [|p ps IHp]; intros w1; [done|]. cbn [foldl_res].
    rewrite IH by lia. subst f. destruct (dfs_expand (S fuel) g limits (d + 1) w1 p); [apply IHp|done].
Qed.

(** *** The loop over the assigned capabilities *)

Lemma expand_assigned_ok g limits raws w w' :
  foldl_res (expand_assigned g limits) w raws = Ok w' ↔
  ∃ caps, canonicalize_all raws (max_capability_length limits) = Ok caps ∧
    (∀ c, c ∈ caps → is_Some (g !! c)) ∧
    foldl_res (dfs_expand (walk_fuel limits) g limits 0) w caps = Ok w'.
Proof.
  revert w. induction raws as [|raw raws IH]; intros w; cbn [foldl_res canonicalize_all].
  - split; [intros E; exists []; split; [done|]; split; [set_solver|done]|]. by intros (?&[= <-]&_&?).
  - unfold expand_assigned at 1. destruct (canonicalize_capability raw _) as [cap|e]; [|split; [done|by intros (?&?&_)]].
    case_bool_decide as Hg.
    { split; [done|]. intros (caps&E&Hin&_). destruct (canonicalize_all raws _); [|done]. injection E as <-.
      destruct (Hin cap) as [? ?]; [set_solver|congruence]. }
    destruct (dfs_expand _ _ _ _ w cap) as [w1|e] eqn:E1; [rewrite IH|]; split.
    + intros (caps&->&Hin&Hf). exists (cap :: caps). split; [done|]. split; [|cbn [foldl_res]; by rewrite E1].
      intros c [->|Hc]%elem_of_cons; [|by apply Hin]. by apply not_eq_None_Some.
    + intros (caps&E&Hin&Hf). destruct (canonicalize_all raws _) as [caps'|]; [|done]. injection E as <-.
      cbn [foldl_res] in Hf. rewrite E1 in Hf. exists caps'. split; [done|]. split; [set_solver|done].
    + done.
    + intros (caps&E&_&Hf). destruct (canonicalize_all raws _) as [caps'|]; [|done]. injection E as <-.
      cbn [foldl_res] in Hf. by rewrite E1 in Hf.
Qed.

Lemma walk_all_succeeds g limits caps w :
  (∀ c, c ∈ caps → within g (Z.to_nat (max_dag_depth limits)) c) → 0 <= max_dag_depth limits → w.1 = ∅ →
  ∃ w', foldl_res (dfs_expand (walk_fuel limits) g limits 0) w caps = Ok w'.
Proof.
  intros Hc Hm. revert w. induction caps as [|c caps IH]; intros w Hw; cbn [foldl_res]; [by eexists|].
  destruct (dfs_succeeds g limits (walk_fuel limits) (Z.to_nat (max_dag_depth limits)) 0 w c) as [w' E];
    [apply Hc; set_solver|lia|unfold walk_fuel; lia|rewrite Hw; set_solver|].
  rewrite E. apply dfs_walked in E as [Hp _ _ _ _ _]. apply IH; [set_solver|congruence].
Qed.
End expansion.

(** ** Tokens of a built graph *)

(** [canonicalize_capability] returns valid tokens within the length. *)
Definition canonical (max_len : Z) (token : bytes) : Prop :=
  is_valid_capability_token token = true ∧ Z.of_nat (length token) <= max_len.

Lemma canonicalize_canonical raw max_len token :
  canonicalize_capability raw max_len = Ok token → canonical max_len token.
Proof.
  unfold canonicalize_capability. destruct (_ || _) eqn:E; [done|].
  destruct (is_valid_capability_token _) eqn:Hv; [|done]. intros [= <-]. split; [done|].
  apply orb_false_iff in E as [_ ?%Z.ltb_ge]. done.
Qed.

Lemma canonicalize_all_canonical raws max_len tokens :
  canonicalize_all raws max_len = Ok tokens → Forall (canonical max_len) tokens.
Proof.
  revert tokens. induction raws as [|raw raws IH]; intros tokens; cbn; [intros [= <-]; constructor|].
  destruct (canonicalize_capability raw max_len) as [cap|] eqn:E; [|done].
  destruct (canonicalize_all raws max_len) as [caps|]; [|done]. intros [= <-].
  constructor; [by eapply canonicalize_canonical|by apply IH].
Qed.
Lemma canonicalize_all_length raws max_len tokens :
  canonicalize_all raws max_len = Ok tokens → length tokens = length raws.
Proof.
  revert tokens. induction raws as [|raw raws IH]; intros tokens; cbn; [by intros [= <-]|].
  destruct (canonicalize_capability raw max_len); [|done].
  destruct (canonicalize_all raws max_len) as [caps|]; [|done]. intros [= <-]. cbn. f_equal. by apply IH.
Qed.

Definition canonical_graph (max_len : Z) (g : CapGraph) : Prop :=
  map_Forall (λ c ps, canonical max_len c ∧ Forall (canonical max_len) ps) g.

(** A loop keeps what each of its steps keeps. *)
Lemma foldl_res_inv {E A S} (f : S → A → result E S) (P : S → Prop) l s s' :
  (∀ s x s', P s → f s x = Ok s' → P s') → P s → foldl_res f s l = Ok s' → P s'.
Proof.
  intros Hf. revert s. induction l as [|x l IH]; intros s Hs; cbn; [by intros [= <-]|].
  destruct (f s x) as [s1|] eqn:Ef; [|done]. apply IH. by eapply Hf.
Qed.

Lemma build_graph_canonical profile g :
  build_graph profile = Ok g → canonical_graph (max_capability_length (resolved_limits profile)) g.
Proof.
  apply foldl_res_inv; [|done]. clear g. intros g node g' Hg. unfold graph_node.
  destruct (canonicalize_capability _ _) as [cap|] eqn:Ec; [|done].
  destruct (canonicalize_all _ _) as [ps|] eqn:Ep; [|done].
  destruct (_ <? _); [done|]. case_bool_decide; [done|]. intros [= <-]. apply map_Forall_insert_2; [|done].
  split; [by eapply canonicalize_canonical|by eapply canonicalize_all_canonical].
Qed.

Lemma granted_canonical max_len g caps x :
  canonical_graph max_len g → Forall (canonical max_len) caps → granted g caps x → canonical max_len x.
Proof.
  intros Hg Hc (c&Hin&Hr). rewrite Forall_forall in Hc. specialize (Hc c Hin). clear Hin.
  induction Hr as [|x y z (ps&E&Hy) _ IH]; [done|]. apply IH.
  destruct (Hg x ps E) as [_ Hps]. rewrite Forall_forall in Hps. by apply Hps.
Qed.

(** A profile that loads has a graph: the checks of the loader are those of the
    expansion. *)
Lemma validated_profile_builds profile : validate_profile_shape profile = Ok tt → ∃ g, build_graph profile = Ok g.
Proof.
  unfold validate_profile_shape, build_graph. case_bool_decide; [done|].
  destruct (foldl_res (validate_node _) ∅ _) as [seen|] eqn:E; [|done]. intros _. revert E.
  generalize (resolved_limits profile) as limits. intros limits.
  assert (dom (∅ : CapGraph) = ∅) as Hd by done. revert Hd. generalize (∅ : CapGraph) as g. generalize (∅ : gset bytes) as s0.
  induction (profile_nodes profile) as [|node nodes IH]; intros s0 g Hd; cbn [foldl_res]; [by exists g|].
  unfold validate_node at 1, graph_node at 1. destruct (canonicalize_capability _ _) as [cap|]; [|done].
  case_bool_decide as Hs; [done|]. destruct (Z.ltb_spec (max_edges_per_node limits) (Z.of_nat (length (cn_inherits node)))); [done|].
  destruct (canonicalize_all _ _) as [ps|] eqn:Ep; [|done].
  rewrite (canonicalize_all_length _ _ _ Ep), (proj2 (Z.ltb_ge _ _)) by done.
  rewrite bool_decide_eq_false_2 by (rewrite <-elem_of_dom, Hd; done).
  apply IH. by rewrite dom_insert_L, Hd.
Qed.

(** ** Limits *)

Lemma payload_bytes_join caps : payload_bytes caps = Z.of_nat (length (join [44] caps)).
Proof.
  unfold payload_bytes. assert (∀ l f, (∀ i, f (S i) = (1 : Z)) →
    foldr Z.add 0 (imap (λ i (s : bytes), Z.of_nat (length s) + f i) l) =
    match l with [] => 0 | _ => f O - 1 + Z.of_nat (length l) + foldr Z.add 0 ((λ s, Z.of_nat (length s)) <$> l) end) as Haux.
  { intros l. induction l as [|s l IH]; intros f Hf; [done|]. rewrite imap_cons. cbn [foldr].
    change (imap _ l) with (imap (λ i (s : bytes), Z.of_nat (length s) + f (S i)) l).
    rewrite (IH (λ i, f (S i))) by (intros i; apply Hf). destruct l as [|s' l']; cbn -[Z.of_nat]; [lia|]. rewrite !Hf. lia. }
  rewrite (Haux caps (λ i, if (0 <? i)%nat then 1 else 0)) by done. clear Haux.
  destruct caps as [|s caps]; [done|]. revert s. induction caps as [|s' caps IH]; intros s; cbn -[Z.of_nat length] in *.
  - cbn [length]. lia.
  - rewrite !length_app. specialize (IH s'). cbn [length] in *. lia.
Qed.

(** A profile lowers a limit and never raises one. *)
Lemma resolved_limits_capped profile :
  let limits := resolved_limits profile in
  max_capability_count limits <= 128 ∧ max_capability_length limits <= 128 ∧
  max_flattened_payload_bytes limits <= 8192 ∧ max_dag_depth limits <= 16 ∧ max_edges_per_node limits <= 64.
Proof.
  unfold resolved_limits, clamp_to_ceiling. cbn. repeat split;
    match goal with |- (if ?c <? ?v then _ else _) <= _ => destruct (Z.ltb_spec c v); unfold c in *; lia end.
Qed.

(** ** The expansion computes the granted capabilities *)

(** The type invariant of the limits: they are unsigned. *)
Definition limits_unsigned (profile : CapabilityProfile) : Prop :=
  from_option (λ l, 0 <= max_dag_depth l) True (profile_limits profile).

Lemma resolved_depth profile : limits_unsigned profile → 0 <= max_dag_depth (resolved_limits profile).
Proof.
  unfold limits_unsigned, resolved_limits, clamp_to_ceiling. cbn.
  destruct (profile_limits profile) as [l|]; cbn; [|done]. intros ?. destruct (_ <? _); [done|lia].
Qed.

Lemma dangling_none entries g :
  (∀ m, entries m ≡ₚ map_to_list m) →
  dangling entries g = None ↔ ∀ c p, inherits_from g c p → is_Some (g !! p).
Proof.
  intros He. unfold dangling. rewrite head_None. split.
  - intros E c p (ps&Hc&Hp). destruct (g !! p) eqn:Eg; [by eexists|]. exfalso.
    assert ((p, c) ∈ @nil (bytes * bytes)) as []%elem_of_nil. rewrite <-E. apply list_elem_of_bind. exists (c, ps). split.
    + apply list_elem_of_fmap. exists p. split; [done|]. by apply list_elem_of_filter.
    + by rewrite He, elem_of_map_to_list.
  - intros Hp. apply list_elem_of_nil_inv || apply elem_of_nil_inv. intros [p c] ([c' ps]&Hin&He')%list_elem_of_bind.
    rewrite He, elem_of_map_to_list in He'. apply list_elem_of_fmap in Hin as (q&[= -> ->]&[Hq Hin]%list_elem_of_filter).
    destruct (Hp c' q) as [? ?]; [by exists ps|congruence].
Qed.

Lemma granted_elements g caps w' x :
  walked g caps (∅, ∅) w' → x ∈ w'.2 ↔ granted g caps x.
Proof.
  intros [_ _ Hs Ho Hc _]. split.
  - intros [?|?]%Ho; [set_solver|done].
  - intros (c&Hin&Hr). specialize (Hc ltac:(intros ?; set_solver)). apply Hs in Hin.
    induction Hr; [done|]. eauto.
Qed.

(** C14: [flatten_capabilities] grants exactly what the assigned capabilities inherit.
    An expansion that succeeds is the strictly sorted list of the capabilities
    reachable from the assigned ones in the profile's graph, all of them canonical
    tokens of at most 128 bytes, at most 128 in number and at most 8192 bytes when
    joined with commas; the graph has no dangling reference and what is granted is on
    no cycle.  Conversely, when the graph builds without dangling references, the
    assigned capabilities are its nodes, no chain of inheritance from them is longer
    than the depth limit and the result is within the limits, the expansion succeeds
    with that list: cycles, depth, size and unknown names are the only refusals. *)
Theorem flatten_grants_closure (entries : CapGraph → list (bytes * list bytes)) (profile : CapabilityProfile)
    (assigned : list bytes) :
  (∀ m, entries m ≡ₚ map_to_list m) → limits_unsigned profile →
  let limits := resolved_limits profile in
  (∀ l, flatten_capabilities entries profile assigned = Ok l →
     ∃ g caps, build_graph profile = Ok g ∧ (∀ c p, inherits_from g c p → is_Some (g !! p)) ∧
       canonicalize_all assigned (max_capability_length limits) = Ok caps ∧ (∀ c, c ∈ caps → is_Some (g !! c)) ∧
       StronglySorted ord_lt l ∧ (∀ x, x ∈ l ↔ granted g caps x) ∧ (∀ x, x ∈ l → ¬ tc (inherits_from g) x x) ∧
       Forall (canonical 128) l ∧ Z.of_nat (length l) <= 128 ∧ Z.of_nat (length (join [44] l)) <= 8192) ∧
  (∀ g caps l, build_graph profile = Ok g → (∀ c p, inherits_from g c p → is_Some (g !! p)) →
     canonicalize_all assigned (max_capability_length limits) = Ok caps → (∀ c, c ∈ caps → is_Some (g !! c)) →
     (∀ c, c ∈ caps → within g (Z.to_nat (max_dag_depth limits)) c) →
     StronglySorted ord_lt l → (∀ x, x ∈ l ↔ granted g caps x) →
     Z.of_nat (length l) <= max_capability_count limits →
     Z.of_nat (length (join [44] l)) <= max_flattened_payload_bytes limits →
     flatten_capabilities entries profile assigned = Ok l).
Proof.
  intros He Hu limits. unfold flatten_capabilities. fold limits.
  pose proof (resolved_limits_capped profile) as (Hl1&Hl2&Hl3&_). fold limits in Hl1, Hl2, Hl3. split.
  - intros l. destruct (build_graph profile) as [g|] eqn:Eg; [|done].
    destruct (dangling entries g) as [[]|] eqn:Ed; [done|].
    destruct (foldl_res _ _ _) as [[V X]|] eqn:Ef; [|done].
    apply expand_assigned_ok in Ef as (caps&Ec&Hin&Ef).
    apply (walked_fold g) in Ef; [|intros ? ? ?; apply dfs_walked].
    destruct (Z.ltb_spec (max_capability_count limits) (Z.of_nat (size X))) as [|Hcount]; [done|].
    rewrite payload_bytes_join. destruct (Z.ltb_spec (max_flattened_payload_bytes limits)
      (Z.of_nat (length (join [44] (sort (elements X)))))) as [|Hpay]; [done|]. intros [= <-].
    assert (∀ x, x ∈ sort (elements X) ↔ granted g caps x) as Hx
      by (intros x; rewrite elem_of_sort, elem_of_elements; apply (granted_elements g caps (V, X)); done).
    exists g, caps. split_and!; try done.
    + by apply (dangling_none entries).
    + apply sort_lt_NoDup, NoDup_elements.
    + intros x. rewrite elem_of_sort, elem_of_elements. intros Hin'. apply grounded_acyclic.
      by apply (wk_grounded _ _ _ _ Ef).
    + apply Forall_forall. intros x Hg%Hx. eapply (granted_canonical (max_capability_length limits)) in Hg as [? ?];
        [split; [done|]; by etrans|by apply build_graph_canonical|by eapply canonicalize_all_canonical].
    + rewrite sort_perm. change (length (elements X)) with (size X). lia.
    + lia.
  - intros g caps l -> Hd Hc Hin Hw Hs Hl Hn Hp. rewrite (proj2 (dangling_none entries g He) Hd).
    destruct (walk_all_succeeds g limits caps (∅, ∅) Hw (resolved_depth profile Hu) eq_refl) as [[V X] Ef].
    rewrite (proj2 (expand_assigned_ok g limits assigned (∅, ∅) (V, X))) by eauto.
    apply (walked_fold g) in Ef; [|intros ? ? ?; apply dfs_walked].
    assert (sort (elements X) = l) as Hsort.
    { apply sorted_lt_ext; [apply sort_lt_NoDup, NoDup_elements|done|]. intros x.
      rewrite elem_of_sort, elem_of_elements, Hl. apply (granted_elements g caps (V, X)); done. }
    rewrite Hsort, payload_bytes_join.
    assert (size X = length l) as -> by (rewrite <-Hsort, sort_perm; done).
    by rewrite !(proj2 (Z.ltb_ge _ _)) by lia.
Qed.

(** ** At concrete inputs *)

Definition cap_node (c : string) (ps : list string) : CapabilityNode := mkCapNode (bs c) (bs <$> ps).
Definition ex_profile : CapabilityProfile :=
  mkCapProfile (bs "v1") [] [cap_node "Root" ["a"; "b"]; cap_node "a" ["shared"]; cap_node "b" ["shared"]; cap_node "shared" []] None.

(** The chain [a0 -> a1 -> a2 -> a3] with a depth limit of two. *)
Definition chain_profile : CapabilityProfile :=
  mkCapProfile (bs "v1") [] [cap_node "a0" ["a1"]; cap_node "a1" ["a2"]; cap_node "a2" ["a3"]; cap_node "a3" []]
    (Some (mkCapLimits 128 128 8192 2 64)).

(** The limit on depth counts the edges of the walk, not of the graph: whether a set
    of capabilities is refused depends on the order it is assigned in. *)
Example depth_depends_on_order :
  flatten_capabilities map_to_list chain_profile [bs "a0"; bs "a2"] = Err (CpDepthExceeded 2) ∧
  flatten_capabilities map_to_list chain_profile [bs "a2"; bs "a0"] = Ok (bs <$> ["a0"; "a1"; "a2"; "a3"]%string).
Proof. split; vm_refl. Qed.

(** A profile whose version carries white space loads and supports no version: it is
    compared untrimmed with a trimmed request. *)
Example untrimmed_version_unsupported :
  let profile := mkCapProfile (bs " v1") [] [] None in
  validate_profile_shape profile = Ok tt ∧
  profile_supports_version profile <$> [bs "v1"; bs " v1"; bs " v1 "] = [false; false; false].
Proof. split; vm_refl. Qed.

Lemma flatten_grants_closure_witness :
  flatten_capabilities map_to_list ex_profile [bs " ROOT "] = Ok (bs <$> ["a"; "b"; "root"; "shared"]%string) ∧
  ∃ g caps, build_graph ex_profile = Ok g ∧ canonicalize_all [bs " ROOT "] 128 = Ok caps ∧
    ∀ x, x ∈ (bs <$> ["a"; "b"; "root"; "shared"]%string) ↔ granted g caps x.
Proof.
  assert (flatten_capabilities map_to_list ex_profile [bs " ROOT "] = Ok (bs <$> ["a"; "b"; "root"; "shared"]%string)) as E
    by vm_refl.
  split; [exact E|].
  destruct (proj1 (flatten_grants_closure map_to_list ex_profile [bs " ROOT "] (λ m, reflexivity _) I) _ E)
    as (g&caps&Hg&_&Hc&_&_&Hx&_).
  exists g, caps. split; [exact Hg|]. split; [exact Hc|exact Hx].
Defined.
