(* ===== verification/Glob.v ===== *)
(** Subscriptions of a peer (server ws_handler.rs, [Subscription], [GlobMatcher]):
    path patterns, which nodes they let through, and the patterns of the SDK
    (clients/web/sdk.js) they are meant to agree with. *)

From S2P Require Import Prelude Hex Str Op Node.

(** ** The matcher

    Every branch of the loop of [glob_match] goes on with a rest of the pattern, so
    the recursion is on the pattern.  The candidates for the rest of the path: *)

(** [path[i..]] for [i] in [0..=path.len()]. *)
Fixpoint suffixes (path : bytes) : list bytes :=
  path :: match path with [] => [] | _ :: path' => suffixes path' end.
(** The same, up to the first slash. *)
Fixpoint segment_suffixes (path : bytes) : list bytes :=
  path :: match path with [] => [] | c :: path' => if c =? 47 then [] else segment_suffixes path' end.
(** What follows each slash. *)
Fixpoint after_slashes (path : bytes) : list bytes :=
  match path with
  | [] => []
  | c :: path' => if c =? 47 then path' :: after_slashes path' else after_slashes path'
  end.

Fixpoint glob_match (pattern path : bytes) {struct pattern} : bool :=
  match pattern with
  | 47 :: 42 :: 42 :: [] => match path with [] => true | c :: _ => c =? 47 end
  | 47 :: 42 :: 42 :: 47 :: rest =>
      match path with
      | c :: path' => (c =? 47) && existsb (glob_match rest) (path' :: after_slashes path')
      | [] => false
      end
  | 42 :: 42 :: [] => true
  | 42 :: 42 :: ((47 :: rest) as slash_rest) =>
      glob_match rest path || existsb (glob_match slash_rest) (suffixes path)
  | 42 :: 42 :: rest => existsb (glob_match rest) (suffixes path)
  | 42 :: rest => existsb (glob_match rest) (segment_suffixes path)
  | [] => bool_decide (path = [])
  | p :: rest => match path with [] => false | c :: path' => (p =? c) && glob_match rest path' end
  end.

Record GlobMatcher := mkGlob { glob_pattern : bytes }.
Definition glob_compile (pattern : bytes) : GlobMatcher := mkGlob pattern.
Definition is_match (m : GlobMatcher) (s : bytes) : bool :=
  if bool_decide (glob_pattern m = bs "**") then true else glob_match (glob_pattern m) s.

(** ** Subscriptions *)

Record Subscription := mkSubscription { sub_matchers : list GlobMatcher; sub_patterns : list bytes }.
Definition everything : Subscription := mkSubscription [] [bs "**"].
Definition from_patterns (patterns : list bytes) : Subscription :=
  if bool_decide (patterns = []) || existsb (λ p, bool_decide (p = bs "**")) patterns then everything
  else mkSubscription (glob_compile <$> patterns) patterns.
Definition matches_everything (sub : Subscription) : bool := bool_decide (length (sub_matchers sub) = 0%nat).
Definition matches_path (sub : Subscription) (path : bytes) : bool :=
  if matches_everything sub then true else existsb (λ m, is_match m path) (sub_matchers sub).

(** The loop over the operations of a node: the first sentinel or matching key ends it. *)
Definition accepts_op (sub : Subscription) (o : Op) : bool :=
  match op_key o with
  | None => false
  | Some k => bool_decide (head k = Some 0) || matches_path sub k
  end.
Definition accepts_node (sub : Subscription) (node : SyncNode) : bool :=
  if matches_everything sub then true
  else match node_ops node with [] => true | ops => existsb (accepts_op sub) ops end.

(** ** The patterns of the SDK

    [compileGlob] builds a regular expression, one piece per token of the pattern;
    a path matches when it splits into pieces that match.  This models it on ASCII
    texts, where a code unit is a byte and the line terminators, which the dot of a
    regular expression does not match, are the line feed and the carriage return. *)

Definition ascii (text : bytes) : Prop := Forall (λ c, 0 <= c < 128) text.
#[global] Instance ascii_dec text : Decision (ascii text).
Proof. unfold ascii. apply _. Defined.
Definition dot (c : Z) : Prop := c ≠ 10 ∧ c ≠ 13.
Fixpoint sdk_match (pattern path : bytes) {struct pattern} : Prop :=
  match pattern with
  | 47 :: 42 :: 42 :: rest =>
      ∃ pre s, path = pre ++ s ∧ (pre = [] ∨ ∃ x, pre = 47 :: x ∧ Forall dot x) ∧ sdk_match rest s
  | 42 :: 42 :: rest => ∃ pre s, path = pre ++ s ∧ Forall dot pre ∧ sdk_match rest s
  | 42 :: rest => ∃ pre s, path = pre ++ s ∧ (47 ∉ pre) ∧ sdk_match rest s
  | [] => path = []
  | p :: rest => ∃ s, path = p :: s ∧ sdk_match rest s
  end.
Definition compileGlob (pattern path : bytes) : Prop :=
  if bool_decide (pattern = bs "**") then True else sdk_match pattern path.

(** The patterns on which the two agree: a run of two stars after a slash is at the
    end or before another slash and a name, and no other such run is before a slash. *)
Fixpoint common_pattern (pattern : bytes) : bool :=
  match pattern with
  | 47 :: 42 :: 42 :: [] => true
  | 47 :: 42 :: 42 :: ((47 :: name) as rest) => negb (starts_with (bs "**") name) && common_pattern rest
  | 47 :: 42 :: 42 :: _ => false
  | 42 :: 42 :: ((c :: _) as rest) => negb (c =? 47) && common_pattern rest
  | _ :: rest => common_pattern rest
  | [] => true
  end.

(** ** Equations of the three recursions *)

(** Two bytes of a pattern are looked at: the slash and the star. *)
Ltac byte_cases c := destruct c as [|c|c]; [|do 6 (try (destruct c as [c|c|]))|].

(** A plain byte: no star, and no slash before a run of two stars. *)
Definition plain (p : Z) (rest : bytes) : Prop := p ≠ 42 ∧ (p = 47 → ∀ r, rest ≠ 42 :: 42 :: r).

Section equations.
Implicit Types (rest path : bytes).

Lemma gm_plain p rest path : plain p rest →
  glob_match (p :: rest) path = match path with [] => false | c :: path' => (p =? c) && glob_match rest path' end.
Proof.
  intros [Hs Hp]. destruct (Z.eq_dec p 47) as [->|]; [|byte_cases p; congruence || done].
  specialize (Hp eq_refl). destruct rest as [|c [|d r]]; [done|byte_cases c; done|].
  destruct (Z.eq_dec c 42) as [->|]; [|byte_cases c; congruence || done].
  destruct (Z.eq_dec d 42) as [->|]; [by destruct (Hp r)|byte_cases d; congruence || done].
Qed.
Lemma gm_star rest path : head rest ≠ Some 42 → glob_match (42 :: rest) path = existsb (glob_match rest) (segment_suffixes path).
Proof. intros Hr. destruct rest as [|c r]; [done|]. cbn in Hr. byte_cases c; congruence || done. Qed.
Lemma gm_stars c rest path : c ≠ 47 →
  glob_match (42 :: 42 :: c :: rest) path = existsb (glob_match (c :: rest)) (suffixes path).
Proof. intros Hc. byte_cases c; congruence || done. Qed.

Lemma sdk_plain p rest path : plain p rest → sdk_match (p :: rest) path ↔ ∃ s, path = p :: s ∧ sdk_match rest s.
Proof.
  intros [Hs Hp]. destruct (Z.eq_dec p 47) as [->|]; [|byte_cases p; congruence || done].
  specialize (Hp eq_refl). destruct rest as [|c [|d r]]; [done|byte_cases c; done|].
  destruct (Z.eq_dec c 42) as [->|]; [|byte_cases c; congruence || done].
  destruct (Z.eq_dec d 42) as [->|]; [by destruct (Hp r)|byte_cases d; congruence || done].
Qed.
Lemma sdk_star rest path : head rest ≠ Some 42 →
  sdk_match (42 :: rest) path ↔ ∃ pre s, path = pre ++ s ∧ (47 ∉ pre) ∧ sdk_match rest s.
Proof. intros Hr. destruct rest as [|c r]; [done|]. cbn in Hr. byte_cases c; congruence || done. Qed.

Lemma common_plain p rest : plain p rest → common_pattern (p :: rest) = common_pattern rest.
Proof.
  intros [Hs Hp]. destruct (Z.eq_dec p 47) as [->|]; [|byte_cases p; congruence || done].
  specialize (Hp eq_refl). destruct rest as [|c [|d r]]; [done|byte_cases c; done|].
  destruct (Z.eq_dec c 42) as [->|]; [|byte_cases c; congruence || done].
  destruct (Z.eq_dec d 42) as [->|]; [by destruct (Hp r)|byte_cases d; congruence || done].
Qed.
Lemma common_star rest : head rest ≠ Some 42 → common_pattern (42 :: rest) = common_pattern rest.
Proof. intros Hr. destruct rest as [|c r]; [done|]. cbn in Hr. byte_cases c; congruence || done. Qed.
Lemma common_subtree c rest : common_pattern (47 :: 42 :: 42 :: c :: rest) = true →
  c = 47 ∧ starts_with (bs "**") rest = false ∧ common_pattern (47 :: rest) = true.
Proof.
  destruct (Z.eq_dec c 47) as [->|]; [|byte_cases c; congruence || done].
  change (common_pattern (47 :: 42 :: 42 :: 47 :: rest)) with (negb (starts_with (bs "**") rest) && common_pattern (47 :: rest)).
  intros [?%negb_true_iff ?]%andb_true_iff. done.
Qed.

Lemma elem_of_suffixes path s : s ∈ suffixes path ↔ ∃ pre, path = pre ++ s.
Proof.
  induction path as [|c path IH]; cbn.
  - rewrite list_elem_of_singleton. split; [intros ->; by exists []|]. by intros ([|??]&E).
  - rewrite elem_of_cons, IH. split.
    + intros [->|(pre&->)]; [by exists []|by exists (c :: pre)].
    + intros ([|d pre]&E); [by left|]. injection E as -> ->. right. by exists pre.
Qed.
Lemma elem_of_segment_suffixes path s : s ∈ segment_suffixes path ↔ ∃ pre, path = pre ++ s ∧ 47 ∉ pre.
Proof.
  induction path as [|c path IH]; cbn.
  - rewrite list_elem_of_singleton. split; [intros ->; exists []; split; [done|apply not_elem_of_nil]|]. by intros ([|??]&E&_).
  - rewrite elem_of_cons. destruct (Z.eqb_spec c 47) as [->|Hc]; [|rewrite IH]; split.
    + intros [->|Hin]; [|by apply elem_of_nil in Hin]. exists []. split; [done|apply not_elem_of_nil].
    + intros ([|d pre]&E&Hn); [by left|]. injection E as E1 E2. subst d. by apply not_elem_of_cons in Hn as [[] _].
    + intros [->|(pre&->&Hn)]; [exists []|exists (c :: pre)]; (split; [done|]); [apply not_elem_of_nil|].
      by apply not_elem_of_cons.
    + intros ([|d pre]&E&Hn); [by left|]. injection E as E1 E2. right. exists pre. split; [done|].
      by apply not_elem_of_cons in Hn as [_ ?].
Qed.
Lemma elem_of_after_slashes path s : s ∈ after_slashes path ↔ ∃ pre, path = pre ++ 47 :: s.
Proof.
  induction path as [|c path IH]; cbn.
  - split; [by intros []%elem_of_nil|]. by intros ([|??]&E).
  - destruct (Z.eqb_spec c 47) as [->|Hc]; [rewrite elem_of_cons|]; rewrite IH; split.
    + intros [->|(pre&->)]; [by exists []|by exists (47 :: pre)].
    + intros ([|d pre]&E); [injection E as ->; by left|]. injection E as E1 E2. right. by exists pre.
    + intros (pre&->). by exists (c :: pre).
    + intros ([|d pre]&E); injection E as E1 E2; [congruence|]. by exists pre.
Qed.
End equations.

(** *** The two matchers agree *)

Lemma existsb_match (f : bytes → bool) (F : bytes → Prop) l :
  (∀ s, s ∈ l → f s = true ↔ F s) → existsb f l = true ↔ ∃ s, s ∈ l ∧ F s.
Proof.
  intros Hf. rewrite existsb_exists. setoid_rewrite <-list_elem_of_In. split; intros (s&Hin&Hs); exists s; by apply Hf in Hs || (split; [done|by apply Hf]).
Qed.

(** The three forms of a pattern. *)
Lemma plain_dec p rest : plain p rest ∨ (p = 42 ∨ p = 47 ∧ ∃ r, rest = 42 :: 42 :: r).
Proof.
  unfold plain. destruct (Z.eq_dec p 42) as [->|]; [by right; left|]. destruct (Z.eq_dec p 47) as [->|]; [|by left].
  destruct (decide (take 2 rest = [42; 42])) as [E|E].
  - right. right. split; [done|]. exists (drop 2 rest). by rewrite <-(take_drop 2 rest) at 1; rewrite E.
  - left. split; [done|]. intros _ r ->. done.
Qed.

Lemma starts_stars rest : starts_with (bs "**") rest = false → ∀ r, rest ≠ 42 :: 42 :: r.
Proof.
  intros Hs r ->. unfold starts_with in Hs. apply bool_decide_eq_false in Hs. apply Hs. by exists r.
Qed.

Lemma glob_agrees pattern path :
  common_pattern pattern = true → Forall dot path → glob_match pattern path = true ↔ sdk_match pattern path.
Proof.
  remember (length pattern) as n eqn:Hn. revert pattern path Hn.
  induction (lt_wf n) as [n _ IH]. intros pattern path -> Hc Hd.
  assert (∀ rest s pre, (length rest < length pattern)%nat → common_pattern rest = true → path = pre ++ s →
            glob_match rest s = true ↔ sdk_match rest s) as Hrest.
  { intros rest s pre Hl Hr ->. apply Forall_app in Hd as [_ Hd]. by eapply IH. }
  clear IH. destruct pattern as [|p rest]; [exact (bool_decide_eq_true (path = []))|].
  destruct (plain_dec p rest) as [Hp|[->|[-> (r&->)]]].
  { rewrite gm_plain, sdk_plain, common_plain in * by done. destruct path as [|c path]; [split; [done|by intros (?&?&?)]|].
    rewrite andb_true_iff, Z.eqb_eq, (Hrest rest path [c]) by (done || cbn; lia).
    split; [intros [-> ?]; by exists path|by intros (s&[= -> ->]&?)]. }
  - destruct (decide (head rest = Some 42)) as [E|E].
    + destruct rest as [|c [|d rest]]; [done| |]; injection E as ->.
      * split; [intros _|done]. exists path, []. by rewrite app_nil_r.
      * assert (d ≠ 47 ∧ common_pattern (d :: rest) = true) as [Hd' Hc'].
        { change (negb (d =? 47) && common_pattern (d :: rest) = true) in Hc.
          apply andb_true_iff in Hc as [H1%negb_true_iff%Z.eqb_neq H2]. done. }
        rewrite gm_stars by done. rewrite (existsb_match _ (sdk_match (d :: rest))).
        2:{ intros s (pre&E)%elem_of_suffixes. apply (Hrest _ s pre); [cbn; lia|done|done]. }
        setoid_rewrite elem_of_suffixes. split.
        -- intros (s&(pre&->)&Hs). exists pre, s. by apply Forall_app in Hd as [? _].
        -- intros (pre&s&->&_&Hs). eauto.
    + rewrite common_star in Hc by done. rewrite gm_star, sdk_star by done. rewrite (existsb_match _ (sdk_match rest)).
      2:{ intros s (pre&Ep&_)%elem_of_segment_suffixes. apply (Hrest _ s pre); [cbn; lia|done|done]. }
      setoid_rewrite elem_of_segment_suffixes. naive_solver.
  - destruct r as [|c r].
    + split.
      * destruct path as [|c path]; [exists [], []; by split; [|split; [left|]]|]. intros ->%Z.eqb_eq.
        exists (47 :: path), []. rewrite app_nil_r. split; [done|]. split; [|done]. right. exists path.
        by apply Forall_cons in Hd as [_ ?].
      * intros (pre&s&->&[->|(x&->&_)]&E); [by rewrite E|done].
    + apply common_subtree in Hc as (->&Hs&Hc). pose proof (starts_stars r Hs) as Hr.
      assert (plain 47 r) as Hpl by (split; [done|by intros _]). rewrite common_plain in Hc by done.
      change (glob_match (47 :: 42 :: 42 :: 47 :: r) path) with
        (match path with c :: path' => (c =? 47) && existsb (glob_match r) (path' :: after_slashes path') | [] => false end).
      change (sdk_match (47 :: 42 :: 42 :: 47 :: r) path) with
        (∃ pre s, path = pre ++ s ∧ (pre = [] ∨ ∃ x, pre = 47 :: x ∧ Forall dot x) ∧ sdk_match (47 :: r) s).
      destruct path as [|c path].
      { split; [done|]. intros (pre&s&E&_&Hs'). apply sdk_plain in Hs' as (s'&->&_); [|done]. by destruct pre. }
      rewrite andb_true_iff, Z.eqb_eq, (existsb_match _ (sdk_match r)).
      2:{ intros s Hin. apply elem_of_cons in Hin as [->|(pre&->)%elem_of_after_slashes].
          - apply (Hrest _ _ [c]); [cbn; lia|done|done].
          - apply (Hrest _ _ (c :: pre ++ [47])); [cbn; lia|done|]. cbn. by rewrite <-app_assoc. }
      split.
      * intros (->&s&Hin&Hs'). apply elem_of_cons in Hin as [->|(x&->)%elem_of_after_slashes].
        -- exists [], (47 :: path). split; [done|]. split; [by left|]. apply sdk_plain; eauto.
        -- exists (47 :: x), (47 :: s). split; [done|]. split; [|apply sdk_plain; eauto].
           right. exists x. split; [done|]. apply Forall_cons in Hd as [_ [? _]%Forall_app]. done.
      * intros (pre&s&E&Hpre&Hs'). apply sdk_plain in Hs' as (s'&->&Hs'); [|done].
        destruct Hpre as [->|(x&->&_)]; cbn in E; injection E as -> ->; (split; [done|]); exists s'; (split; [|done]).
        -- by left.
        -- right. apply elem_of_after_slashes. by exists x.
Qed.

(** [compileSubscription]: no patterns subscribe to everything. *)
Definition compileSubscription (patterns : list bytes) (path : bytes) : Prop :=
  patterns = [] ∨ ∃ p, p ∈ patterns ∧ compileGlob p path.



(** Elsewhere they differ: a leading double star may match nothing on the server, in
    the middle of a name too, and a double star that only begins a segment may swallow
    the slash before it in the SDK. *)
Lemma sdk_stars rest path : sdk_match (42 :: 42 :: rest) path ↔ ∃ pre s, path = pre ++ s ∧ Forall dot pre ∧ sdk_match rest s.
Proof. done. Qed.
Lemma sdk_subtree rest path :
  sdk_match (47 :: 42 :: 42 :: rest) path ↔
  ∃ pre s, path = pre ++ s ∧ (pre = [] ∨ ∃ x, pre = 47 :: x ∧ Forall dot x) ∧ sdk_match rest s.
Proof. done. Qed.
Lemma sdk_needs_slash rest path : (∀ r, rest ≠ 42 :: 42 :: r) → (47 ∉ path) → ¬ sdk_match (47 :: rest) path.
Proof.
  intros Hr Hp Hs. apply sdk_plain in Hs as (s&->&_); [set_solver|]. by split; [|intros _].
Qed.

Definition msg_bytes : bytes := [109; 115; 103].
Example globs_diverge :
  (glob_match (42 :: 42 :: 47 :: msg_bytes) msg_bytes = true ∧ ¬ sdk_match (42 :: 42 :: 47 :: msg_bytes) msg_bytes) ∧
  (glob_match (97 :: 42 :: 42 :: 47 :: msg_bytes) (97 :: msg_bytes) = true ∧
   ¬ sdk_match (97 :: 42 :: 42 :: 47 :: msg_bytes) (97 :: msg_bytes)) ∧
  (glob_match [97; 47; 42; 42; 98] [97; 98] = false ∧ sdk_match [97; 47; 42; 42; 98] [97; 98]).
Proof.
  assert (∀ pre s, msg_bytes = pre ++ s → ¬ sdk_match (47 :: msg_bytes) s) as Hno.
  { intros pre s E. apply sdk_needs_slash; [done|]. intros Hin. assert (47 ∈ msg_bytes) as Hm by (rewrite E; set_solver).
    by repeat (apply elem_of_cons in Hm as [?|Hm]; [done|]); apply elem_of_nil in Hm. }
  split_and!; [reflexivity| |reflexivity| |reflexivity|].
  - rewrite sdk_stars. intros (pre&s&E&_&Hs). by eapply Hno.
  - rewrite sdk_plain by (split; [done|by intros ?]). intros (s0&E0&Hs). injection E0 as <-.
    rewrite sdk_stars in Hs. destruct Hs as (pre&s&E&_&Hs). by eapply Hno.
  - rewrite sdk_plain by (split; [done|by intros ?]). exists [98]. split; [done|].
    rewrite sdk_subtree. exists [], [98]. split; [done|]. split; [by left|].
    rewrite sdk_plain by (split; [done|by intros ?]). by exists [].
Qed.
