(* ===== verification/Crypto.v ===== *)
(** End-to-end encryption of operations (crypto.rs).  AES-256-GCM and
    HKDF-SHA256 are parameters. *)

From S2P Require Import Prelude Op Node Toy Replay.

Class Hkdf := hkdf_sha256 : bytes → bytes → nat → bytes.
Class Aead := {
  aead_encrypt : bytes → bytes → bytes → option bytes;
  aead_decrypt : bytes → bytes → bytes → option bytes;
}.

(** What the code relies on: HKDF returns the requested length, and
    decryption with the key and nonce of an encryption inverts it. *)
Class HkdfLaws `{Hkdf} := hkdf_length : ∀ k i n, length (hkdf_sha256 k i n) = n.
Class AeadLaws `{Aead} :=
  aead_inverse : ∀ k n m c, aead_encrypt k n m = Some c → aead_decrypt k n c = Some m.

Section crypto.
Context `{Hkdf, Aead, Postcard (list Op)}.

(** [derive_room_key]. *)
Definition derive_room_key (seed : bytes) : bytes := hkdf_sha256 seed (bs "nodalmerge-e2ee-v1") 32.

(** The HKDF info string of [derive_nonce], and the nonce. *)
Definition nonce_info (author : PublicKey) (lamport : Z) : bytes :=
  bs "nodalmerge-nonce-v1" ++ author ++ le_bytes 8 lamport.
Definition derive_nonce (key : bytes) (author : PublicKey) (lamport : Z) : bytes :=
  hkdf_sha256 key (nonce_info author lamport) 12.

(** [encrypt_ops] and [decrypt_ops]. *)
Definition encrypt_ops (key : bytes) (author : PublicKey) (lamport : Z) (ops : list Op)
    : result SyncError bytes :=
  let nonce := derive_nonce key author lamport in
  match aead_encrypt key nonce (pc_to ops) with
  | Some c => Ok (nonce ++ c)
  | None => Err EncryptionFailed
  end.
Definition decrypt_ops (key payload : bytes) : result SyncError (list Op) :=
  if (length payload <? 12)%nat then Err DecryptionFailed
  else
    match aead_decrypt key (take 12 payload) (drop 12 payload) with
    | None => Err DecryptionFailed
    | Some m => match pc_from m with Ok ops => Ok ops | Err e => Err (Serialization e) end
    end.

(** [is_encrypted_node], [extract_encrypted_payload], [wrap_encrypted_ops]. *)
Definition is_encrypted_node (ops : list Op) : bool :=
  match ops with [OpMap (MapSet k _)] => bool_decide (k = E2EE_KEY) | _ => false end.
Definition extract_encrypted_payload (ops : list Op) : option bytes :=
  match ops with
  | [OpMap (MapSet k v)] => if decide (k = E2EE_KEY) then Some v else None
  | _ => None
  end.
Definition wrap_encrypted_ops (key : bytes) (author : PublicKey) (lamport : Z) (ops : list Op)
    : result SyncError (list Op) :=
  match encrypt_ops key author lamport ops with
  | Ok payload => Ok [OpMap (MapSet E2EE_KEY payload)]
  | Err e => Err e
  end.

(** Whatever is wrapped for a node can be recognised, extracted and
    decrypted with the room key to the operations it was made of. *)
Theorem encrypt_roundtrip `{!HkdfLaws, !AeadLaws, !PostcardLaws (list Op)} key author lamport ops wrapped :
  wrap_encrypted_ops key author lamport ops = Ok wrapped →
  is_encrypted_node wrapped = true ∧
  ∃ payload, extract_encrypted_payload wrapped = Some payload ∧ decrypt_ops key payload = Ok ops.
Proof.
  unfold wrap_encrypted_ops, encrypt_ops.
  destruct (aead_encrypt _ _ _) as [c|] eqn:E; [|done]. intros [= <-]. simpl. split; [done|].
  exists (derive_nonce key author lamport ++ c). split; [done|]. unfold decrypt_ops.
  assert (length (derive_nonce key author lamport) = 12%nat) as Hn by apply hkdf_length.
  rewrite length_app, Hn. rewrite (proj2 (Nat.ltb_ge _ _)) by lia.
  rewrite take_app_length', drop_app_length' by done.
  rewrite (aead_inverse _ _ _ _ E). by rewrite pc_roundtrip.
Qed.

(** The nonce derivation never feeds HKDF the same input twice for one
    key unless author and lamport are the same. *)
Theorem nonce_info_injective a1 a2 l1 l2 :
  length a1 = 32%nat → length a2 = 32%nat → is_u64 l1 → is_u64 l2 →
  nonce_info a1 l1 = nonce_info a2 l2 → a1 = a2 ∧ l1 = l2.
Proof.
  intros Ha1 Ha2 Hl1 Hl2 E. unfold nonce_info in E. apply app_inv_head in E.
  apply app_inj_1 in E as [-> E]; [|lia]. split; [done|].
  apply (le_bytes_inj 8); [..|done]; unfold is_u64, u64_max in *; simpl; lia.
Qed.
End crypto.

(** ** Instances *)

(** A cipher that shifts bytes by a key byte and an HKDF that repeats one. *)
#[global] Instance Toy_Hkdf : Hkdf := λ k i n, replicate n (default 0 (last i)).
#[global] Instance Toy_HkdfLaws : HkdfLaws.
Proof. intros k i n. apply length_replicate. Qed.
#[global] Instance Toy_Aead : Aead := {|
  aead_encrypt := λ k n m, Some (Z.add (default 0 (head k)) <$> m);
  aead_decrypt := λ k n c, Some (Z.add (- default 0 (head k)) <$> c) |}.
#[global] Instance Toy_AeadLaws : AeadLaws.
Proof.
  intros k n m c [= <-]. simpl. f_equal. rewrite <-list_fmap_compose.
  rewrite <-(list_fmap_id m) at 2. apply list_fmap_ext. intros i x _. simpl. lia.
Qed.
#[global] Instance Toy_Postcard_ops : Postcard (list Op) := count_postcard (list Op).
#[global] Instance Toy_Postcard_ops_laws : PostcardLaws (list Op).
Proof. apply count_postcard_laws. Qed.

Definition toy_ops : list Op := [OpMap (MapSet (bs "k") (bs "v"))].
Lemma encrypt_roundtrip_witness :
  ∃ wrapped payload, wrap_encrypted_ops (toy_key 3) (toy_key 7) 5 toy_ops = Ok wrapped ∧
    extract_encrypted_payload wrapped = Some payload ∧ decrypt_ops (toy_key 3) payload = Ok toy_ops.
Proof.
  destruct (wrap_encrypted_ops (toy_key 3) (toy_key 7) 5 toy_ops) as [w|e] eqn:E.
  - destruct (encrypt_roundtrip (toy_key 3) (toy_key 7) 5 toy_ops w E) as (_&p&Hp&Hd).
    exists w, p. split; [reflexivity|]. split; [exact Hp|exact Hd].
  - vm_compute in E. discriminate E.
Defined.

Lemma nonce_info_injective_witness :
  nonce_info (toy_key 1) 5 = nonce_info (toy_key 1) 5 ∧ 5 = 5.
Proof.
  split; [reflexivity|].
  apply (nonce_info_injective (toy_key 1) (toy_key 1) 5 5); try reflexivity; split; vm_compute; discriminate.
Defined.
