(* ===== verification/TextRange.v ===== *)
(** Lowering range edits to character edits (text_range.rs). *)

From S2P Require Import Prelude Op.

Record TextCharId := mkCharId { base : OpId; char_offset : Z }.
Definition derive_text_char_id (b : OpId) (offset : Z) : TextCharId := mkCharId b offset.

Inductive TextRangeOp :=
| RangeInsert (key : bytes) (anchor : TextRangeAnchor) (text : list Z)
| RangeDelete (key : bytes) (anchor : TextRangeAnchor) (len_chars : Z).

Inductive LoweredTextEdit :=
| InsertFirst (key : bytes) (after_existing : option OpId) (ch : Z)
| InsertNext (key : bytes) (ch : Z)
| LowerDelete (key : bytes) (target : OpId).

(** [resolve_anchor_index]. *)
Definition anchor_index (seq : list (OpId * Z)) (a : TextRangeAnchor) : Z :=
  let len := Z.of_nat (length seq) in
  match a with
  | AnchorStart => 0
  | AnchorEnd => len
  | AnchorOffset i => Z.min i len
  | AnchorAfter id =>
      from_option (λ i, Z.of_nat i + 1) len (position (λ e, bool_decide (e.1 = id)) seq)
  end.

(** [lower_insert]; the index read is in range. *)
Definition lower_insert (seq : list (OpId * Z)) (key : bytes) (a : TextRangeAnchor) (text : list Z)
    : list LoweredTextEdit :=
  match text with
  | [] => []
  | first :: rest =>
      let i := anchor_index seq a in
      let after := if i =? 0 then None else fst <$> seq !! Z.to_nat (i - 1) in
      InsertFirst key after first :: (InsertNext key <$> rest)
  end.

(** [lower_delete]. *)
Definition lower_delete (seq : list (OpId * Z)) (key : bytes) (a : TextRangeAnchor) (len : Z)
    : list LoweredTextEdit :=
  if len =? 0 then []
  else
    let start := anchor_index seq a in
    let end_ := Z.min (Z.min (start + len) usize_max) (Z.of_nat (length seq)) in
    (λ e, LowerDelete key e.1) <$> take (Z.to_nat (end_ - start)) (drop (Z.to_nat start) seq).

(** [lower_text_range_op]. *)
Definition lower_text_range_op (seq : list (OpId * Z)) (o : TextRangeOp) : list LoweredTextEdit :=
  match o with
  | RangeInsert key a text => lower_insert seq key a text
  | RangeDelete key a len => lower_delete seq key a len
  end.

(** [materialize_lowered_edits]. *)
Definition materialize_step (author : PublicKey) (s : list TextOp * option OpId * Z) (e : LoweredTextEdit)
    : list TextOp * option OpId * Z :=
  let '(out, prev, next) := s in
  match e with
  | InsertFirst key after ch =>
      (out ++ [TextInsert key after ch], Some (mkOpId next author), sat_add64 next 1)
  | InsertNext key ch =>
      (out ++ [TextInsert key prev ch], Some (mkOpId next author), sat_add64 next 1)
  | LowerDelete key target => (out ++ [TextDelete key target], prev, next)
  end.
Definition materialize_lowered_edits (es : list LoweredTextEdit) (author : PublicKey) (next : Z) : list TextOp :=
  (foldl (materialize_step author) ([], None, next) es).1.1.

(** ** Facts *)

(** The chain an insert becomes: every character after the first is anchored
    at the identity of its predecessor. *)
Fixpoint insert_chain (key : bytes) (author : PublicKey) (after : option OpId) (next : Z) (text : list Z)
    : list TextOp :=
  match text with
  | [] => []
  | ch :: text => TextInsert key after ch :: insert_chain key author (Some (mkOpId next author)) (next + 1) text
  end.

Lemma materialize_nexts key author text out prev next :
  0 <= next → next + Z.of_nat (length text) <= u64_max →
  (foldl (materialize_step author) (out, prev, next) (InsertNext key <$> text)).1.1 =
  out ++ insert_chain key author prev next text.
Proof.
  revert out prev next. induction text as [|ch text IH]; intros out prev next Hn Hm; simpl.
  - by rewrite app_nil_r.
  - simpl in Hm. rewrite sat_add64_exact by lia. rewrite IH by lia. by rewrite <-app_assoc.
Qed.

Lemma position_lt {A} (p : A → bool) l i : position p l = Some i → (i < length l)%nat.
Proof.
  unfold position. destruct (list_find _ l) as [[j x]|] eqn:E; simpl; [|done]. intros [= <-].
  apply list_find_Some in E as (Hj&_). by eapply lookup_lt_Some.
Qed.

Lemma anchor_index_bounds seq a :
  (∀ i, a = AnchorOffset i → 0 <= i) → 0 <= anchor_index seq a <= Z.of_nat (length seq).
Proof.
  intros Ha. destruct a as [| |id|i]; simpl; [lia|lia| |specialize (Ha i eq_refl); lia].
  destruct (position _ seq) as [i|] eqn:E; simpl; [apply position_lt in E|]; lia.
Qed.

(** Materialising a lowered insert gives one insert per character of the
    text, the first anchored at the character the anchor points after and each
    next one at its predecessor's fresh identity. *)
Theorem lower_insert_chain seq key a text author next :
  (∀ i, a = AnchorOffset i → 0 <= i) → 0 <= next → next + Z.of_nat (length text) <= u64_max →
  materialize_lowered_edits (lower_insert seq key a text) author next =
  insert_chain key author
    (if anchor_index seq a =? 0 then None else fst <$> seq !! Z.to_nat (anchor_index seq a - 1)) next text ∧
  (anchor_index seq a ≠ 0 → is_Some (seq !! Z.to_nat (anchor_index seq a - 1))).
Proof.
  intros Ha Hn Hm. pose proof (anchor_index_bounds seq a Ha) as Hb. split.
  - destruct text as [|ch text]; [done|]. unfold materialize_lowered_edits, lower_insert.
    cbn [foldl materialize_step app]. simpl in Hm. rewrite sat_add64_exact by lia.
    by rewrite materialize_nexts by lia.
  - intros Hne. apply lookup_lt_is_Some. lia.
Qed.

(** A lowered delete names exactly the visible characters of its window,
    clamped to the end of the sequence, in order. *)
Theorem lower_delete_window seq key a len author next :
  (∀ i, a = AnchorOffset i → 0 <= i) → 0 <= len → Z.of_nat (length seq) <= usize_max →
  materialize_lowered_edits (lower_delete seq key a len) author next =
  (λ e, TextDelete key e.1) <$> take (Z.to_nat len) (drop (Z.to_nat (anchor_index seq a)) seq).
Proof.
  intros Ha Hl Hs. pose proof (anchor_index_bounds seq a Ha) as Hb. unfold lower_delete.
  destruct (Z.eqb_spec len 0) as [->|Hne]; [by rewrite take_0|].
  set (start := anchor_index seq a) in *.
  assert (take (Z.to_nat (Z.min (Z.min (start + len) usize_max) (Z.of_nat (length seq)) - start))
            (drop (Z.to_nat start) seq) = take (Z.to_nat len) (drop (Z.to_nat start) seq)) as ->.
  { destruct (Z.le_ge_cases (start + len) (Z.of_nat (length seq))).
    - f_equal. lia.
    - rewrite !take_ge; [done|rewrite length_drop; lia..]. }
  generalize (take (Z.to_nat len) (drop (Z.to_nat start) seq)). intros l.
  unfold materialize_lowered_edits.
  assert (∀ out prev, (foldl (materialize_step author) (out, prev, next)
    ((λ e : OpId * Z, LowerDelete key e.1) <$> l)).1.1 = out ++ ((λ e, TextDelete key e.1) <$> l)) as E;
    [|by rewrite E].
  induction l as [|e l IH]; intros out prev; simpl; [by rewrite app_nil_r|].
  rewrite IH. by rewrite <-app_assoc.
Qed.

(** ** Instances *)

Definition sample_seq : list (OpId * Z) :=
  [(mkOpId 1 [7], 104); (mkOpId 2 [7], 101); (mkOpId 3 [7], 121)].
Lemma lower_insert_chain_witness :
  materialize_lowered_edits (lower_insert sample_seq (bs "k") (AnchorOffset 2) [97; 98]) [9] 10 =
  [TextInsert (bs "k") (Some (mkOpId 2 [7])) 97; TextInsert (bs "k") (Some (mkOpId 10 [9])) 98].
Proof.
  apply (lower_insert_chain sample_seq (bs "k") (AnchorOffset 2) [97; 98] [9] 10);
    [intros i [= <-]|..]; vm_compute; discriminate.
Defined.

Lemma lower_delete_window_witness :
  materialize_lowered_edits (lower_delete sample_seq (bs "k") (AnchorAfter (mkOpId 1 [7])) 9) [9] 10 =
  [TextDelete (bs "k") (mkOpId 2 [7]); TextDelete (bs "k") (mkOpId 3 [7])].
Proof.
  refine (lower_delete_window sample_seq (bs "k") (AnchorAfter (mkOpId 1 [7])) 9 [9] 10 _ _ _);
    [intros i [=]|..]; vm_compute; discriminate.
Defined.
