(* ===== verification/Ibf.v ===== *)
(** Invertible Bloom filters (ibf.rs): insertion, subtraction and peeling of
    the symmetric difference of two id sets. *)

From S2P Require Import Prelude Op Node Policy Storage CacheFacts Fenwick TextState Text Graph.
From S2P Require Import GraphFacts GraphOps GraphBatch Replica Toy.

Definition IBF_CELLS : nat := 80.
#[global] Arguments IBF_CELLS : simpl never.
Definition IBF_KEY0 : bytes := bs "nodalmerge-ibf-h0-00000000000000".
Definition IBF_KEY1 : bytes := bs "nodalmerge-ibf-h1-00000000000000".
Definition IBF_KEY2 : bytes := bs "nodalmerge-ibf-h2-00000000000000".

(** [i32] arithmetic in a release build. *)
Definition wrap_i32 (z : Z) : Z := (z + 2 ^ 31) mod 2 ^ 32 - 2 ^ 31.
Definition is_i32 (z : Z) : Prop := - 2 ^ 31 <= z < 2 ^ 31.

Record IbfCell := mkCell { cell_count : Z; id_sum : bytes; hash_sum : bytes }.
#[global] Instance IbfCell_eq_dec : EqDecision IbfCell.
Proof. solve_decision. Defined.
Definition cell_default : IbfCell := mkCell 0 (zeros 32) (zeros 4).

Abbreviation Ibf := (list IbfCell).
Definition ibf_new : Ibf := replicate IBF_CELLS cell_default.

(** [xor_assign] and [xor_assign4] on arrays of one length. *)
Definition xor_bytes (a b : bytes) : bytes := zip_with Z.lxor a b.

Section ibf.
Context `{Blake3, Blake3Keyed}.

(** [id_checksum] and [cell_indices]. *)
Definition id_checksum (id : NodeId) : bytes := take 4 (blake3_hash id).
Definition cell_index (key : bytes) (id : NodeId) : nat :=
  Z.to_nat (of_le_bytes (take 8 (blake3_keyed key id)) mod Z.of_nat IBF_CELLS).
Definition cell_indices (id : NodeId) : list nat :=
  [cell_index IBF_KEY0 id; cell_index IBF_KEY1 id; cell_index IBF_KEY2 id].

(** Adding an id with a sign to one cell, and to its cells. *)
Definition cell_add (sign : Z) (id : NodeId) (c : IbfCell) : IbfCell :=
  mkCell (wrap_i32 (cell_count c + sign)) (xor_bytes (id_sum c) id)
    (xor_bytes (hash_sum c) (id_checksum id)).
Definition ibf_add (sign : Z) (id : NodeId) (cs : Ibf) : Ibf :=
  foldl (λ cs i, alter (cell_add sign id) i cs) cs (cell_indices id).

(** [insert], [from_ids], [subtract]. *)
Definition ibf_insert (cs : Ibf) (id : NodeId) : Ibf := ibf_add 1 id cs.
Definition ibf_from_ids (ids : list NodeId) : Ibf := foldl ibf_insert ibf_new ids.
Definition cell_sub (a b : IbfCell) : IbfCell :=
  mkCell (wrap_i32 (cell_count a - cell_count b)) (xor_bytes (id_sum a) (id_sum b))
    (xor_bytes (hash_sum a) (hash_sum b)).
Definition ibf_subtract (a b : Ibf) : Ibf := zip_with cell_sub a b ++ drop (length b) a.

(** The scan of [decode] for a pure cell, and the peeling loop.  The source
    gives up after [IBF_CELLS * 4] rounds. *)
Definition pure_cell (c : IbfCell) : bool :=
  ((cell_count c =? 1) || (cell_count c =? -1)) &&
  bool_decide (id_checksum (id_sum c) = hash_sum c).
Fixpoint decode_loop (fuel : nat) (cs : Ibf) (mine theirs : list NodeId) : option (list NodeId * list NodeId) :=
  match fuel with
  | O => None
  | S f =>
      match list_find (λ c, pure_cell c = true) (take IBF_CELLS cs) with
      | Some (_, c) =>
          let id := id_sum c in
          if 0 <? cell_count c
          then decode_loop f (ibf_add (-1) id cs) (mine ++ [id]) theirs
          else decode_loop f (ibf_add 1 id cs) mine (theirs ++ [id])
      | None => if forallb (λ c, bool_decide (c = cell_default)) cs then Some (mine, theirs) else None
      end
  end.
Definition ibf_decode (cs : Ibf) : option (list NodeId * list NodeId) :=
  decode_loop (IBF_CELLS * 4) cs [] [].

(** ** Cells form a group *)

Definition cell_ok (c : IbfCell) : Prop :=
  is_i32 (cell_count c) ∧ length (id_sum c) = 32%nat ∧ length (hash_sum c) = 4%nat.

Lemma wrap_i32_ok z : is_i32 (wrap_i32 z).
Proof. unfold is_i32, wrap_i32. pose proof (Z.mod_pos_bound (z + 2 ^ 31) (2 ^ 32)). lia. Qed.
Lemma wrap_i32_id z : is_i32 z → wrap_i32 z = z.
Proof. unfold is_i32, wrap_i32. intros Hz. rewrite Z.mod_small; lia. Qed.
Lemma wrap_i32_add_l a b : wrap_i32 (wrap_i32 a + b) = wrap_i32 (a + b).
Proof.
  unfold wrap_i32. f_equal.
  replace ((a + 2 ^ 31) mod 2 ^ 32 - 2 ^ 31 + b + 2 ^ 31) with ((a + 2 ^ 31) mod 2 ^ 32 + b) by lia.
  rewrite Z.add_mod_idemp_l by lia. f_equal. lia.
Qed.
Lemma wrap_i32_sub_r a b : wrap_i32 (a - wrap_i32 b) = wrap_i32 (a - b).
Proof.
  unfold wrap_i32. f_equal.
  replace (a - ((b + 2 ^ 31) mod 2 ^ 32 - 2 ^ 31) + 2 ^ 31)
    with (a + 2 ^ 31 + 2 ^ 31 - (b + 2 ^ 31) mod 2 ^ 32) by lia.
  rewrite Zminus_mod_idemp_r. f_equal. lia.
Qed.

Lemma xor_bytes_comm3 a b c : xor_bytes (xor_bytes a b) c = xor_bytes (xor_bytes a c) b.
Proof.
  unfold xor_bytes. revert b c. induction a as [|x a IH]; intros [|y b] [|z c]; simpl; try done.
  f_equal; [|apply IH]. by rewrite !Z.lxor_assoc, (Z.lxor_comm y).
Qed.
Lemma xor_bytes_cancel a b : length a = length b → xor_bytes (xor_bytes a b) b = a.
Proof.
  unfold xor_bytes. revert b. induction a as [|x a IH]; intros [|y b] E; simplify_eq/=; [done|].
  rewrite Z.lxor_assoc, Z.lxor_nilpotent, Z.lxor_0_r. f_equal. by apply IH.
Qed.
Lemma xor_bytes_assoc a b c : xor_bytes a (xor_bytes b c) = xor_bytes (xor_bytes a b) c.
Proof.
  unfold xor_bytes. revert b c. induction a as [|x a IH]; intros [|y b] [|z c]; simpl; try done.
  f_equal; [|apply IH]. by rewrite Z.lxor_assoc.
Qed.
Lemma xor_bytes_length a b : length a = length b → length (xor_bytes a b) = length a.
Proof. intros E. unfold xor_bytes. by rewrite length_zip_with, E, Nat.min_id. Qed.
Lemma xor_bytes_self a n : length a = n → xor_bytes a a = zeros n.
Proof.
  intros <-. unfold xor_bytes. induction a as [|x a IH]; [done|].
  simpl. rewrite Z.lxor_nilpotent. unfold zeros. simpl. by f_equal.
Qed.
Lemma xor_bytes_zeros_l a n : length a = n → xor_bytes (zeros n) a = a.
Proof.
  intros <-. unfold xor_bytes, zeros. induction a as [|x a IH]; [done|]. simpl. f_equal. apply IH.
Qed.

Context `{!Blake3Laws}.

Lemma id_checksum_length id : length (id_checksum id) = 4%nat.
Proof. unfold id_checksum. rewrite length_take. destruct (blake3_length id) as [-> _]. done. Qed.

Lemma cell_add_ok s id c : length id = 32%nat → cell_ok c → cell_ok (cell_add s id c).
Proof.
  intros Hid (_&Hi&Hh). split; [apply wrap_i32_ok|]. simpl.
  rewrite !xor_bytes_length; rewrite ?id_checksum_length; lia.
Qed.
Lemma cell_add_comm s id s' id' c : cell_add s id (cell_add s' id' c) = cell_add s' id' (cell_add s id c).
Proof.
  unfold cell_add; simpl. f_equal; [|apply xor_bytes_comm3..].
  rewrite !wrap_i32_add_l. f_equal. lia.
Qed.
Lemma cell_add_inv s id c : length id = 32%nat → cell_ok c → cell_add s id (cell_add (- s) id c) = c.
Proof.
  intros Hid (Hc&Hi&Hh). destruct c as [n i h]; simpl in *. unfold cell_add; simpl.
  rewrite wrap_i32_add_l, !xor_bytes_cancel by (rewrite ?id_checksum_length; lia).
  f_equal. rewrite wrap_i32_id; [lia|]. by replace (n + - s + s) with n by lia.
Qed.
Lemma cell_sub_add id a b :
  cell_sub a (cell_add 1 id b) = cell_add (-1) id (cell_sub a b).
Proof.
  unfold cell_sub, cell_add; simpl. rewrite wrap_i32_sub_r, wrap_i32_add_l.
  rewrite !xor_bytes_assoc. f_equal. f_equal. lia.
Qed.

(** ** Filters, cell by cell *)

(** How often an id falls into cell [j]. *)
Definition hits (id : NodeId) (j : nat) : nat :=
  length (filter (λ i, i = j) (cell_indices id)).

Lemma lookup_alters (f : IbfCell → IbfCell) idxs (cs : Ibf) j :
  foldl (λ cs i, alter f i cs) cs idxs !! j =
  Nat.iter (length (filter (λ i, i = j) idxs)) f <$> cs !! j.
Proof.
  revert cs. induction idxs as [|i idxs IH]; intros cs; simpl.
  - by destruct (cs !! j).
  - rewrite IH, filter_cons. case_decide as E.
    + subst. rewrite list_lookup_alter, decide_True by done. cbn [length].
      destruct (cs !! j); simpl; [|done]. by rewrite Nat.iter_swap.
    + by rewrite list_lookup_alter_ne.
Qed.

Lemma lookup_ibf_add s id cs j : ibf_add s id cs !! j = Nat.iter (hits id j) (cell_add s id) <$> cs !! j.
Proof. apply lookup_alters. Qed.

Lemma ibf_add_length s id cs : length (ibf_add s id cs) = length cs.
Proof. unfold ibf_add, cell_indices. simpl. by rewrite !length_alter. Qed.

Lemma iter_comm {A} (f g : A → A) n m x :
  (∀ x, f (g x) = g (f x)) → Nat.iter n f (Nat.iter m g x) = Nat.iter m g (Nat.iter n f x).
Proof.
  intros Hfg. assert (∀ x, f (Nat.iter m g x) = Nat.iter m g (f x)) as Hm.
  { induction m as [|m IH]; intros y; simpl; [done|]. by rewrite Hfg, IH. }
  induction n as [|n IH]; simpl; [done|]. by rewrite IH, Hm.
Qed.

Lemma ibf_add_comm s id s' id' cs : ibf_add s id (ibf_add s' id' cs) = ibf_add s' id' (ibf_add s id cs).
Proof.
  apply list_eq. intros j. rewrite !lookup_ibf_add, <-!option_fmap_compose.
  destruct (cs !! j); simpl; [|done]. f_equal. apply iter_comm. intros x. apply cell_add_comm.
Qed.

Definition ibf_ok (cs : Ibf) : Prop := length cs = IBF_CELLS ∧ Forall cell_ok cs.

Lemma cell_default_ok : cell_ok cell_default.
Proof. unfold cell_ok, is_i32. simpl. lia. Qed.
Lemma ibf_new_ok : ibf_ok ibf_new.
Proof. split; [apply length_replicate|]. apply Forall_replicate, cell_default_ok. Qed.

Lemma ibf_add_ok s id cs : length id = 32%nat → ibf_ok cs → ibf_ok (ibf_add s id cs).
Proof.
  intros Hid [Hl Hc]. split; [by rewrite ibf_add_length|]. apply Forall_lookup. intros j c.
  rewrite lookup_ibf_add. intros (c0&Hj&->)%fmap_Some. rewrite Forall_lookup in Hc.
  specialize (Hc _ _ Hj). induction (hits id j) as [|n IH]; [done|]. simpl. by apply cell_add_ok.
Qed.

Lemma ibf_add_inv s id cs : length id = 32%nat → ibf_ok cs → ibf_add s id (ibf_add (- s) id cs) = cs.
Proof.
  intros Hid [Hl Hc]. apply list_eq. intros j. rewrite !lookup_ibf_add, <-option_fmap_compose.
  destruct (cs !! j) as [c|] eqn:Ej; simpl; [|done]. f_equal. rewrite Forall_lookup in Hc.
  specialize (Hc _ _ Ej). generalize (hits id j). intros n.
  assert (cell_ok (Nat.iter n (cell_add (- s) id) c)) as Hn.
  { induction n; [done|]. simpl. by apply cell_add_ok. }
  induction n as [|n IH]; [done|]. simpl. rewrite <-Nat.iter_swap.
  assert (cell_ok (Nat.iter n (cell_add (- s) id) c)) as Hn'.
  { clear IH Hn. induction n; [done|]. simpl. by apply cell_add_ok. }
  rewrite cell_add_inv by done. by apply IH.
Qed.

Lemma ibf_add_cancel id cs : length id = 32%nat → ibf_ok cs → ibf_add (-1) id (ibf_add 1 id cs) = cs.
Proof. apply (ibf_add_inv (-1)). Qed.

(** Subtracting a filter built from ids takes each of them away. *)
Lemma ibf_subtract_add a b id :
  length a = length b → ibf_subtract a (ibf_add 1 id b) = ibf_add (-1) id (ibf_subtract a b).
Proof.
  intros Hl. unfold ibf_subtract. rewrite ibf_add_length, !drop_ge, !app_nil_r by lia.
  apply list_eq. intros j. rewrite lookup_ibf_add, !lookup_zip_with, lookup_ibf_add.
  destruct (a !! j), (b !! j); simpl; try done. f_equal.
  induction (hits id j) as [|n IH]; [done|]. simpl. by rewrite cell_sub_add, IH.
Qed.

Definition ids_ok (ids : list NodeId) : Prop := Forall (λ i, length i = 32%nat) ids.

Lemma ibf_adds_ok s ids cs : ids_ok ids → ibf_ok cs → ibf_ok (foldl (λ cs id, ibf_add s id cs) cs ids).
Proof.
  intros Hi. revert cs. induction Hi as [|i ids Hi _ IH]; intros cs Hcs; [done|].
  simpl. apply IH. by apply ibf_add_ok.
Qed.

Lemma ibf_from_ids_adds ids : ibf_from_ids ids = foldl (λ cs id, ibf_add 1 id cs) ibf_new ids.
Proof. done. Qed.

Lemma ibf_subtract_new a : ibf_ok a → ibf_subtract a ibf_new = a.
Proof.
  intros [Hl Hc]. unfold ibf_subtract, ibf_new. rewrite length_replicate, drop_ge, app_nil_r by lia.
  apply list_eq. intros j. rewrite lookup_zip_with. destruct (a !! j) as [c|] eqn:E; [|done].
  rewrite (lookup_replicate_2 IBF_CELLS) by (apply lookup_lt_Some in E; lia).
  cbn [mbind option_bind]. f_equal.
  rewrite Forall_lookup in Hc. destruct (Hc _ _ E) as (Hi&H1'&H2'). destruct c as [n x h]; simpl in *.
  unfold cell_sub; simpl. rewrite Z.sub_0_r, wrap_i32_id by done.
  assert (∀ y k, length y = k → xor_bytes y (zeros k) = y) as Hx0.
  { intros y k <-. unfold xor_bytes, zeros. induction y as [|z y IHy]; [done|].
    simpl. rewrite Z.lxor_0_r. by f_equal. }
  by rewrite !Hx0.
Qed.

Lemma ibf_subtract_ids a ids :
  ibf_ok a → ids_ok ids → ibf_subtract a (ibf_from_ids ids) = foldl (λ cs id, ibf_add (-1) id cs) a ids.
Proof.
  intros Ha Hi. rewrite ibf_from_ids_adds. induction ids as [|i ids IH] using rev_ind.
  { by apply ibf_subtract_new. }
  apply Forall_app in Hi as [Hi _]. rewrite !foldl_app. simpl. rewrite <-IH by done.
  apply ibf_subtract_add. destruct Ha as [-> _].
  pose proof (ibf_adds_ok 1 ids ibf_new Hi ibf_new_ok) as [-> _]. done.
Qed.

Lemma ibf_adds_perm s ids ids' cs :
  ids ≡ₚ ids' → foldl (λ cs id, ibf_add s id cs) cs ids = foldl (λ cs id, ibf_add s id cs) cs ids'.
Proof. intros Hp. apply foldl_perm_comm; [done|]. intros b x y _ _. apply ibf_add_comm. Qed.

Lemma ibf_adds_swap s ids s' id cs :
  foldl (λ cs id, ibf_add s id cs) (ibf_add s' id cs) ids =
  ibf_add s' id (foldl (λ cs id, ibf_add s id cs) cs ids).
Proof.
  revert cs. induction ids as [|i ids IH]; intros cs; simpl; [done|]. by rewrite ibf_add_comm, IH.
Qed.

(** The difference filter of two lists of ids. *)
Definition ibf_diff (a b : list NodeId) : Ibf :=
  foldl (λ cs id, ibf_add (-1) id cs) (foldl (λ cs id, ibf_add 1 id cs) ibf_new a) b.

Lemma ibf_diff_eq a b : ids_ok a → ids_ok b → ibf_subtract (ibf_from_ids a) (ibf_from_ids b) = ibf_diff a b.
Proof. intros Ha Hb. apply ibf_subtract_ids; [apply ibf_adds_ok; [done|apply ibf_new_ok]|done]. Qed.

Lemma ibf_diff_ok a b : ids_ok a → ids_ok b → ibf_ok (ibf_diff a b).
Proof. intros Ha Hb. apply ibf_adds_ok; [done|]. apply ibf_adds_ok; [done|apply ibf_new_ok]. Qed.

Lemma ibf_diff_common a b c :
  ids_ok a → ids_ok b → ids_ok c → ibf_diff (a ++ c) (b ++ c) = ibf_diff a b.
Proof.
  intros Ha Hb Hc. induction Hc as [|i c Hi Hc IH]; [by rewrite !app_nil_r|].
  rewrite <-IH. unfold ibf_diff.
  assert (∀ x, x ++ i :: c ≡ₚ i :: x ++ c) as Hm by (intros; by rewrite Permutation_middle).
  rewrite (ibf_adds_perm 1 _ _ _ (Hm a)), (ibf_adds_perm (-1) _ _ _ (Hm b)). simpl.
  rewrite (ibf_adds_swap 1 (a ++ c) 1 i). rewrite ibf_add_cancel; [done|done|].
  apply ibf_adds_ok; [by apply Forall_app|apply ibf_new_ok].
Qed.

(** ** Decoding *)

(** Putting peeled ids back gives the filter they were peeled from. *)
Lemma decode_loop_sound fuel cs mine theirs m t :
  ibf_ok cs → ids_ok mine → ids_ok theirs → decode_loop fuel cs mine theirs = Some (m, t) →
  ids_ok m ∧ ids_ok t ∧ ∃ m' t', m = mine ++ m' ∧ t = theirs ++ t' ∧ cs = ibf_diff m' t'.
Proof.
  revert cs mine theirs. induction fuel as [|fuel IH]; intros cs mine theirs Hok Hm Ht; [done|].
  cbn [decode_loop]. destruct (list_find _ _) as [[i c]|] eqn:Ef.
  - apply list_find_Some in Ef as (Hi&_&_). apply lookup_take_Some in Hi as [Hi _].
    assert (length (id_sum c) = 32%nat) as Hid.
    { destruct Hok as [_ Hc]. rewrite Forall_lookup in Hc. by destruct (Hc _ _ Hi) as (_&?&_). }
    assert (∀ s, ibf_add s (id_sum c) (ibf_add (- s) (id_sum c) cs) = cs) as Hinv
      by (intros; by apply ibf_add_inv).
    destruct (0 <? cell_count c); intros Hd; apply IH in Hd as (Hm'&Ht'&m'&t'&->&->&E);
      try (by apply ibf_add_ok); try done; try (apply Forall_app; split; [done|by apply Forall_singleton]).
    + split; [done|]. split; [done|]. exists (id_sum c :: m'), t'. split; [by rewrite <-app_assoc|].
      split; [done|]. etransitivity; [symmetry; apply (Hinv 1)|]. change (- (1)) with (-1). rewrite E.
      unfold ibf_diff. simpl. by rewrite <-!ibf_adds_swap.
    + split; [done|]. split; [done|]. exists m', (id_sum c :: t'). split; [done|].
      split; [by rewrite <-app_assoc|]. etransitivity; [symmetry; apply (Hinv (-1))|].
      change (- (-1)) with 1. rewrite E.
      unfold ibf_diff. simpl. by rewrite ibf_adds_swap.
  - destruct (forallb _ cs) eqn:Ez; [|done]. intros [= <- <-]. split; [done|]. split; [done|].
    exists [], []. rewrite !app_nil_r. split; [done|]. split; [done|]. destruct Hok as [Hl _].
    change (cs = replicate IBF_CELLS cell_default).
    apply list_eq_same_length with IBF_CELLS; [by rewrite length_replicate|done|].
    intros j x y _ Hx Hy. apply lookup_replicate in Hy as [-> _].
    rewrite forallb_forall in Ez. apply list_elem_of_lookup_2, list_elem_of_In, Ez in Hx.
    by apply bool_decide_eq_true in Hx.
Qed.

(** The ids a successful peeling reports encode to the difference. *)
Lemma decode_sound a b m t :
  ids_ok a → ids_ok b →
  ibf_decode (ibf_subtract (ibf_from_ids a) (ibf_from_ids b)) = Some (m, t) →
  ibf_subtract (ibf_from_ids m) (ibf_from_ids t) = ibf_subtract (ibf_from_ids a) (ibf_from_ids b).
Proof.
  intros Ha Hb Hd. rewrite ibf_diff_eq in * by done.
  apply decode_loop_sound in Hd as (Hm&Ht&m'&t'&->&->&E); [|by apply ibf_diff_ok|constructor..].
  cbn [app] in *. by rewrite !ibf_diff_eq by done.
Qed.

(** Ids both peers hold cancel, in any order. *)
Lemma common_cancels a b c a' b' :
  ids_ok a → ids_ok b → ids_ok c → a' ≡ₚ a ++ c → b' ≡ₚ b ++ c →
  ibf_subtract (ibf_from_ids a') (ibf_from_ids b') = ibf_subtract (ibf_from_ids a) (ibf_from_ids b).
Proof.
  intros Ha Hb Hc Ea Eb.
  assert (ids_ok a') as Ha' by (unfold ids_ok; rewrite Ea; by apply Forall_app).
  assert (ids_ok b') as Hb' by (unfold ids_ok; rewrite Eb; by apply Forall_app).
  rewrite !ibf_diff_eq by done. rewrite <-(ibf_diff_common a b c) by done. unfold ibf_diff.
  by rewrite (ibf_adds_perm 1 _ _ _ Ea), (ibf_adds_perm (-1) _ _ _ Eb).
Qed.

(** Equal sets, in any order, decode to an empty difference. *)
Lemma equal_sets a b :
  ids_ok a → a ≡ₚ b →
  ibf_decode (ibf_subtract (ibf_from_ids a) (ibf_from_ids b)) = Some ([], []).
Proof.
  intros Ha Hp. assert (ids_ok b) as Hb by (unfold ids_ok; by rewrite <-Hp).
  rewrite ibf_diff_eq by done. pose proof (ibf_diff_common [] [] a) as Hc. cbn [app] in Hc.
  unfold ibf_diff at 1 in Hc. rewrite (ibf_adds_perm (-1) a b) in Hc by done.
  fold (ibf_diff a b) in Hc. rewrite Hc; [|constructor|constructor|done]. clear.
  change (ibf_diff [] []) with ibf_new.
  assert (∀ n, list_find (λ c, pure_cell c = true) (replicate n cell_default) = None) as Hf.
  { intros n. apply list_find_None, Forall_replicate. done. }
  assert (∀ n, forallb (λ c, bool_decide (c = cell_default)) (replicate n cell_default) = true) as Hz.
  { induction n as [|n IH]; [done|]. cbn [replicate forallb]. by rewrite IH, bool_decide_eq_true_2. }
  assert (∀ n, decode_loop (S n) ibf_new [] [] = Some ([], [])) as Hd; [|exact (Hd 319%nat)].
  intros n. cbn [decode_loop]. unfold ibf_new. by rewrite take_replicate, Hf, Hz.
Qed.

(** C40: reconciliation by filters.  The difference of two filters depends only
    on the ids the peers do not share, in whatever order they were inserted;
    when peeling it succeeds, the ids it reports encode to exactly that
    difference; and peers that hold the same ids always decode the empty
    difference. *)
Theorem ibf_reconciles a b c a' b' :
  ids_ok a → ids_ok b → ids_ok c → a' ≡ₚ a ++ c → b' ≡ₚ b ++ c →
  let d := ibf_subtract (ibf_from_ids a') (ibf_from_ids b') in
  d = ibf_subtract (ibf_from_ids a) (ibf_from_ids b) ∧
  (∀ m t, ibf_decode d = Some (m, t) → ibf_subtract (ibf_from_ids m) (ibf_from_ids t) = d) ∧
  (a = [] → b = [] → ibf_decode d = Some ([], [])).
Proof.
  intros Ha Hb Hc Ea Eb d. pose proof (common_cancels a b c a' b' Ha Hb Hc Ea Eb) as Hd. fold d in Hd.
  split; [done|]. split.
  - rewrite Hd. intros m t. by apply decode_sound.
  - intros -> ->. apply equal_sets; [|by rewrite Ea, Eb]. unfold ids_ok. by rewrite Ea.
Qed.
End ibf.

(** ** Instances *)

#[global] Instance Toy_Blake3Keyed : Blake3Keyed := λ k b, toy_digest (default 0 (k !! 16%nat) :: b).
Definition toy_id (z : Z) : NodeId := replicate 32 z.

(** Two peers that share [toy_id 2]: each learns what it lacks. *)
Lemma ibf_reconciles_witness :
  let d := ibf_subtract (ibf_from_ids [toy_id 1; toy_id 2]) (ibf_from_ids [toy_id 2; toy_id 3]) in
  d = ibf_subtract (ibf_from_ids [toy_id 1]) (ibf_from_ids [toy_id 3]) ∧
  ∃ m t, ibf_decode d = Some (m, t) ∧ ibf_subtract (ibf_from_ids m) (ibf_from_ids t) = d.
Proof.
  intros d.
  destruct (ibf_reconciles [toy_id 1] [toy_id 3] [toy_id 2] [toy_id 1; toy_id 2] [toy_id 2; toy_id 3])
    as (Hd&Hs&_); try (repeat constructor; reflexivity).
  split; [exact Hd|]. destruct (ibf_decode d) as [[m t]|] eqn:E.
  - exists m, t. split; [done|]. by apply Hs.
  - vm_compute in E. discriminate E.
Defined.
