(* ===== verification/Mst.v ===== *)
(** The Merkle search tree (mst.rs): a nibble prefix trie over node ids whose
    root hash identifies the set. *)

From S2P Require Import Prelude Hex Op Node Policy Storage CacheFacts Fenwick TextState Text Graph.
From S2P Require Import GraphFacts GraphOps GraphBatch Replica Toy Ibf.

Definition MST_LEAF_KEY : bytes := bs "nodalmerge-mst-leaf-000000000000".
Definition MST_INTERNAL_KEY : bytes := bs "nodalmerge-mst-internal-00000000".

Record MstNode := mkMst {
  mst_hash : bytes;
  mst_children : list (option bytes);
  mst_keys : list NodeId;
}.

Record MstNodeWire := mkMstNodeWire {
  mw_path : bytes;
  mw_hash : bytes;
  mw_children : gmap bytes bytes;
  mw_keys : list bytes;
}.

(** [nibble_at]. *)
Definition nibble_at (id : NodeId) (depth : nat) : Z :=
  let byte := default 0 (id !! (depth / 2)%nat) in
  if Nat.even depth then Z.land (Z.shiftr byte 4) 15 else Z.land byte 15.

(** The group of ids below child [n]. *)
Definition nibble_group (depth : nat) (ids : list NodeId) (n : nat) : list NodeId :=
  filter (λ id, nibble_at id depth = Z.of_nat n) ids.

(** A nibble path, from the root. *)
Abbreviation MstTree := (gmap (list nat) MstNode).

Section mst.
Context `{Blake3Keyed}.

(** [leaf_hash] and [internal_hash], with the inputs they feed to Blake3. *)
Definition leaf_input (ids : list NodeId) : bytes * bytes := (MST_LEAF_KEY, concat ids).
Definition internal_input (children : list (option bytes)) : bytes * bytes :=
  (MST_INTERNAL_KEY, concat (default (zeros 32) <$> children)).
Definition hash_input (kd : bytes * bytes) : bytes := blake3_keyed kd.1 kd.2.
Definition leaf_hash (ids : list NodeId) : bytes := hash_input (leaf_input ids).
Definition internal_hash (children : list (option bytes)) : bytes := hash_input (internal_input children).

(** [build_recursive] at depth [64 - rem]: the subtree is added to the tree
    and its hash returned. *)
Fixpoint build_recursive (rem : nat) (path : list nat) (ids : list NodeId) (t : MstTree) : MstTree * bytes :=
  match rem with
  | O => (<[path := mkMst (leaf_hash ids) (replicate 16 None) ids]> t, leaf_hash ids)
  | S r =>
      if decide (length ids = 1%nat)
      then (<[path := mkMst (leaf_hash ids) (replicate 16 None) ids]> t, leaf_hash ids)
      else
        let '(t, children) :=
          foldl (λ '(t, children) n,
                   let g := nibble_group (length path) ids n in
                   if decide (g = []) then (t, children ++ [None])
                   else let '(t, h) := build_recursive r (path ++ [n]) g t in (t, children ++ [Some h]))
                (t, []) (seq 0 16) in
        (<[path := mkMst (internal_hash children) children []]> t, internal_hash children)
  end.

(** [from_ids], [root_hash] and [all_keys_set]. *)
Definition mst_from_ids (ids : list NodeId) : MstTree :=
  match ids with [] => ∅ | _ => (build_recursive 64 [] (sort ids) ∅).1 end.
Definition root_hash (t : MstTree) : bytes :=
  match t !! [] with Some n => mst_hash n | None => zeros 32 end.
Definition root_hash_hex (t : MstTree) : bytes := to_hex (root_hash t).
Definition all_keys_set (t : MstTree) : gset NodeId :=
  list_to_set (concat ((λ pn, mst_keys pn.2) <$> map_to_list t)).

(** [nibble_to_char] and [hex_to_nibble_path] ([to_digit 16] accepts either case). *)
Definition nibble_to_char (n : nat) : Z := hex_char (Z.of_nat n).
Definition to_digit16 (c : Z) : option nat :=
  if (48 <=? c) && (c <=? 57) then Some (Z.to_nat (c - 48))
  else if (97 <=? c) && (c <=? 102) then Some (Z.to_nat (c - 87))
  else if (65 <=? c) && (c <=? 70) then Some (Z.to_nat (c - 55))
  else None.
Definition hex_to_nibble_path (s : bytes) : option (list nat) := mapM to_digit16 s.

(** [get_node_wire]. *)
Definition get_node_wire (t : MstTree) (path_hex : bytes) : option MstNodeWire :=
  path ← hex_to_nibble_path path_hex;
  node ← t !! path;
  let children := list_to_map (omap (λ ih, h ← ih.2; Some ([nibble_to_char ih.1], to_hex h))
                                    (imap pair (mst_children node))) in
  Some (mkMstNodeWire path_hex (to_hex (mst_hash node)) children (to_hex <$> mst_keys node)).

(** The difference [simulate_sync] reports; its round-trip and byte
    estimates are left out. *)
Definition simulate_diff (mine theirs : MstTree) : gset NodeId * gset NodeId :=
  if decide (root_hash mine = root_hash theirs) then (∅, ∅)
  else (all_keys_set mine ∖ all_keys_set theirs, all_keys_set theirs ∖ all_keys_set mine).

(** ** The hash without the tree *)

Fixpoint subtree_hash (rem : nat) (depth : nat) (ids : list NodeId) : bytes :=
  match rem with
  | O => leaf_hash ids
  | S r =>
      if decide (length ids = 1%nat) then leaf_hash ids
      else internal_hash ((λ n, let g := nibble_group depth ids n in
             if decide (g = []) then None else Some (subtree_hash r (S depth) g)) <$> seq 0 16)
  end.

(** Every input a subtree feeds to the hash. *)
Fixpoint subtree_inputs (rem : nat) (depth : nat) (ids : list NodeId) : list (bytes * bytes) :=
  match rem with
  | O => [leaf_input ids]
  | S r =>
      if decide (length ids = 1%nat) then [leaf_input ids]
      else internal_input ((λ n, let g := nibble_group depth ids n in
             if decide (g = []) then None else Some (subtree_hash r (S depth) g)) <$> seq 0 16)
           :: concat ((λ n, let g := nibble_group depth ids n in
                if decide (g = []) then [] else subtree_inputs r (S depth) g) <$> seq 0 16)
  end.

(** ** What building adds *)

Lemma all_keys_elem (t : MstTree) k : k ∈ all_keys_set t ↔ ∃ p n, t !! p = Some n ∧ k ∈ mst_keys n.
Proof.
  unfold all_keys_set. rewrite elem_of_list_to_set, elem_of_concat.
  setoid_rewrite list_elem_of_fmap. split.
  - intros (l&Hk&[p n]&->&Hin). apply elem_of_map_to_list in Hin. eauto.
  - intros (p&n&Hp&Hk). exists (mst_keys n). split; [done|]. exists (p, n).
    by rewrite elem_of_map_to_list.
Qed.

Lemma all_keys_union (s t : MstTree) : s ##ₘ t → all_keys_set (s ∪ t) = all_keys_set s ∪ all_keys_set t.
Proof.
  intros Hd. apply set_eq. intros k. rewrite elem_of_union, !all_keys_elem.
  setoid_rewrite lookup_union_Some; [|done]. naive_solver.
Qed.

(** [t'] is [t] with new nodes below [path] that hold the keys [ks]. *)
Definition extends (below : list nat → Prop) (ks : NodeId → Prop) (t t' : MstTree) : Prop :=
  ∃ s : MstTree, t' = s ∪ t ∧ (∀ p, is_Some (s !! p) → below p) ∧ ∀ k, k ∈ all_keys_set s ↔ ks k.

Definition clear_below (path : list nat) (t : MstTree) : Prop := ∀ p, path `prefix_of` p → t !! p = None.

Lemma all_keys_insert (path : list nat) (n : MstNode) (t : MstTree) (k : NodeId) :
  t !! path = None → k ∈ all_keys_set (<[path := n]> t) ↔ k ∈ mst_keys n ∨ k ∈ all_keys_set t.
Proof.
  intros Hn. rewrite !all_keys_elem. split.
  - intros (p&m&Hp&Hk). apply lookup_insert_Some in Hp as [[<- <-]|[Hne Hp]]; [by left|right; eauto].
  - intros [Hk|(p&m&Hp&Hk)].
    + exists path, n. by rewrite lookup_insert_eq.
    + exists p, m. rewrite lookup_insert_ne; [done|]. intros ->. congruence.
Qed.

Section build_step.
Context (r : nat).
(** The specification of building, for the recursive calls. *)
Definition build_spec (r : nat) : Prop :=
  ∀ path ids t, clear_below path t →
    (build_recursive r path ids t).2 = subtree_hash r (length path) ids ∧
    extends (λ p, path `prefix_of` p) (λ k, k ∈ ids) t (build_recursive r path ids t).1 ∧
    ∃ n, (build_recursive r path ids t).1 !! path = Some n ∧
         mst_hash n = (build_recursive r path ids t).2.
Hypothesis IH : build_spec r.

Definition build_child (path : list nat) (ids : list NodeId)
    : MstTree * list (option bytes) → nat → MstTree * list (option bytes) := λ '(t, children) n,
  let g := nibble_group (length path) ids n in
  if decide (g = []) then (t, children ++ [None])
  else let '(t, h) := build_recursive r (path ++ [n]) g t in (t, children ++ [Some h]).

Lemma prefix_snoc_inj (path p : list nat) n m :
  path ++ [n] `prefix_of` p → path ++ [m] `prefix_of` p → n = m.
Proof. intros [k ->] [j E]. rewrite <-!app_assoc in E. apply app_inv_head in E. by simplify_eq/=. Qed.

Lemma build_children path ids t ks :
  clear_below path t → NoDup ks →
  let s := foldl (build_child path ids) (t, []) ks in
  s.2 = ((λ n, let g := nibble_group (length path) ids n in
           if decide (g = []) then None else Some (subtree_hash r (S (length path)) g)) <$> ks) ∧
  extends (λ p, ∃ n, n ∈ ks ∧ path ++ [n] `prefix_of` p)
    (λ k, ∃ n, n ∈ ks ∧ k ∈ nibble_group (length path) ids n) t s.1.
Proof.
  intros Hclr. induction ks as [|n ks IHks] using rev_ind; intros Hnd.
  { simpl. split; [done|]. exists ∅. rewrite (left_id_L ∅ (∪)). split; [done|]. split.
    - intros p [? Hp]. by rewrite lookup_empty in Hp.
    - intros k. rewrite all_keys_elem. setoid_rewrite lookup_empty. set_solver. }
  apply NoDup_app in Hnd as (Hnd&Hdis&_). rewrite foldl_app, fmap_app. cbn [foldl].
  destruct (IHks Hnd) as [Hch (s&Ht&Hs&Hk)].
  destruct (foldl (build_child path ids) (t, []) ks) as [t1 ch1]. simpl in Hch, Ht. subst t1 ch1.
  unfold build_child. cbn [fmap list_fmap]. case_decide as Hg; simpl.
  - split; [done|]. exists s. split; [done|]. split.
    + intros p (m&Hm&Hp)%Hs. exists m. split; [set_solver|done].
    + intros k. rewrite Hk. split; [intros (m&?&?); exists m; set_solver|].
      intros (m&[Hm|Hm]%elem_of_app&Hin); [eauto|]. apply list_elem_of_singleton in Hm as ->.
      rewrite Hg in Hin. set_solver.
  - destruct (IH (path ++ [n]) (nibble_group (length path) ids n) (s ∪ t)) as (Hh&(s2&Ht2&Hs2&Hk2)&_).
    { intros p Hp. apply lookup_union_None. split.
      - destruct (s !! p) as [x|] eqn:Ep; [|done]. destruct (Hs p) as (m&Hm&Hpm); [eauto|].
        assert (n = m) as -> by (by eapply prefix_snoc_inj). destruct (Hdis m Hm). set_solver.
      - apply Hclr. by eapply prefix_app_l. }
    destruct (build_recursive r (path ++ [n]) _ (s ∪ t)) as [t2 h]. simpl in *. subst t2 h.
    rewrite length_app. cbn [length]. rewrite Nat.add_1_r. split; [done|]. exists (s2 ∪ s). rewrite (assoc_L (∪)). split; [done|].
    assert (s2 ##ₘ s) as Hdisj.
    { apply map_disjoint_alt. intros p. destruct (s2 !! p) as [x|] eqn:E2; [|by left]. right.
      destruct (s !! p) as [y|] eqn:E1; [|done]. exfalso.
      destruct (Hs p) as (m&Hm&Hpm); [eauto|]. destruct (Hs2 p) as [j Ej]; [eauto|].
      assert (n = m) as -> by (eapply prefix_snoc_inj; [by exists j|done]).
      destruct (Hdis m Hm). set_solver. }
    split.
    + intros p [x Hx]. apply lookup_union_Some in Hx as [Hx|Hx]; [| |done].
      * exists n. split; [set_solver|]. apply Hs2. eauto.
      * destruct (Hs p) as (m&Hm&Hp); [eauto|]. exists m. split; [set_solver|done].
    + intros k. rewrite all_keys_union, elem_of_union, Hk, Hk2 by done. split.
      * intros [?|(m&?&?)]; [exists n; set_solver|exists m; set_solver].
      * intros (m&[Hm|Hm]%elem_of_app&Hin); [right; eauto|].
        apply list_elem_of_singleton in Hm as ->. by left.
Qed.
End build_step.

Lemma nibble_at_bounds id d : 0 <= nibble_at id d < 16.
Proof.
  unfold nibble_at. change 15 with (Z.ones 4).
  destruct (Nat.even d); rewrite Z.land_ones by lia; apply Z.mod_pos_bound; lia.
Qed.

Lemma nibble_groups_cover depth ids k :
  (∃ n, n ∈ seq 0 16 ∧ k ∈ nibble_group depth ids n) ↔ k ∈ ids.
Proof.
  unfold nibble_group. setoid_rewrite list_elem_of_filter. split; [naive_solver|].
  intros Hk. pose proof (nibble_at_bounds k depth). exists (Z.to_nat (nibble_at k depth)).
  rewrite elem_of_seq. split; [lia|]. split; [|done]. lia.
Qed.

Lemma extends_leaf path ids t h :
  extends (λ p, path `prefix_of` p) (λ k, k ∈ ids) t (<[path := mkMst h (replicate 16 None) ids]> t).
Proof.
  exists {[path := mkMst h (replicate 16 None) ids]}. rewrite <-insert_union_singleton_l.
  split; [done|]. split.
  - intros p [x Hx]. apply lookup_singleton_Some in Hx as [<- _]. done.
  - intros k. rewrite all_keys_elem. setoid_rewrite lookup_singleton_Some. naive_solver.
Qed.

Lemma build_recursive_S r path ids t :
  build_recursive (S r) path ids t =
  if decide (length ids = 1%nat)
  then (<[path := mkMst (leaf_hash ids) (replicate 16 None) ids]> t, leaf_hash ids)
  else let '(t, children) := foldl (build_child r path ids) (t, []) (seq 0 16) in
       (<[path := mkMst (internal_hash children) children []]> t, internal_hash children).
Proof. reflexivity. Qed.

Lemma build_ok r : build_spec r.
Proof.
  induction r as [|r IH]; intros path ids t Hclr.
  { simpl. split; [done|]. split; [apply extends_leaf|]. eexists. by rewrite lookup_insert_eq. }
  rewrite build_recursive_S. cbn [subtree_hash]. destruct (decide (length ids = 1%nat)) as [E1|E1].
  { simpl. split; [done|]. split; [apply extends_leaf|]. eexists. by rewrite lookup_insert_eq. }
  pose proof (build_children r IH path ids t (seq 0 16) Hclr (NoDup_seq 0 16)) as [Hch (s&Ht&Hs&Hk)].
  destruct (foldl _ (t, []) (seq 0 16)) as [t1 ch1].
  cbn [fst snd] in *. subst t1. rewrite <-Hch. split; [done|].
  assert (s !! path = None) as Hsp.
  { destruct (s !! path) as [x|] eqn:Ep; [|done]. destruct (Hs path) as (n&_&[j Ej]); [eauto|].
    apply (f_equal length) in Ej. rewrite !length_app in Ej. simpl in Ej. lia. }
  split; [|eexists; by rewrite lookup_insert_eq].
  exists (<[path := mkMst (internal_hash ch1) ch1 []]> s). rewrite insert_union_l. split; [done|]. split.
  - intros p [x Hx]. apply lookup_insert_Some in Hx as [[<- _]|[_ Hx]]; [done|].
    destruct (Hs p) as (n&_&Hp); [eauto|]. by eapply prefix_app_l.
  - intros k. rewrite all_keys_insert, Hk, nibble_groups_cover by done. simpl. set_solver.
Qed.

Lemma mst_root ids : ids ≠ [] → root_hash (mst_from_ids ids) = subtree_hash 64 0 (sort ids).
Proof.
  intros Hne. unfold mst_from_ids. destruct ids as [|i ids]; [done|]. clear Hne.
  destruct (build_ok 64 [] (sort (i :: ids)) ∅) as (Hh&_&n&Hn&Hnh); [by intros p _|].
  unfold root_hash. by rewrite Hn, Hnh, Hh.
Qed.

Lemma mst_keys_ok ids : all_keys_set (mst_from_ids ids) = list_to_set ids.
Proof.
  unfold mst_from_ids. destruct ids as [|i ids]; [by vm_compute|].
  destruct (build_ok 64 [] (sort (i :: ids)) ∅) as (_&(s&Hs&_&Hk)&_); [by intros p _|].
  rewrite Hs, (right_id_L ∅ (∪)). apply set_eq. intros k.
  by rewrite Hk, elem_of_sort, elem_of_list_to_set.
Qed.

(** ** The root identifies the set *)

(** No two different inputs among those listed have one digest, and none
    has the digest that stands for an empty child. *)
Definition inputs_distinct (l : list (bytes * bytes)) : Prop :=
  (∀ x y, x ∈ l → y ∈ l → hash_input x = hash_input y → x = y) ∧
  ∀ x, x ∈ l → hash_input x ≠ zeros 32.

#[global] Instance inputs_distinct_dec l : Decision (inputs_distinct l).
Proof.
  refine (cast_if (decide (Forall (λ x, Forall (λ y, hash_input x = hash_input y → x = y) l ∧
                                      hash_input x ≠ zeros 32) l))).
  all: unfold inputs_distinct; setoid_rewrite Forall_forall in f || setoid_rewrite Forall_forall in n.
  - setoid_rewrite Forall_forall in f. naive_solver.
  - intros [H1 H2]. apply n. intros x Hx. rewrite Forall_forall. naive_solver.
Defined.

Definition ids32 (ids : list NodeId) : Prop := Forall (λ i, length i = 32%nat) ids.

(** A concatenation of 32-byte blocks determines the blocks. *)
Lemma blocks_inj {A} (f g : A → bytes) (l : list A) :
  (∀ x, length (f x) = 32%nat) → (∀ x, length (g x) = 32%nat) →
  concat (f <$> l) = concat (g <$> l) → ∀ x, x ∈ l → f x = g x.
Proof.
  intros Hf Hg. induction l as [|y l IH]; simpl; intros E x Hx; [by apply not_elem_of_nil in Hx|].
  apply app_inj_1 in E as [E1 E2]; [|by rewrite Hf, Hg].
  apply elem_of_cons in Hx as [->|Hx]; auto.
Qed.

Lemma groups_perm depth a b :
  (∀ n, n ∈ seq 0 16 → nibble_group depth a n ≡ₚ nibble_group depth b n) → a ≡ₚ b.
Proof.
  intros Hg. assert (∀ l, l ≡ₚ concat (nibble_group depth l <$> seq 0 16)) as Hc.
  { intros l. induction l as [|x l IH]; [by vm_compute|].
    pose proof (nibble_at_bounds x depth) as Hb.
    assert (seq 0 16 = seq 0 (Z.to_nat (nibble_at x depth)) ++
              Z.to_nat (nibble_at x depth) :: seq (S (Z.to_nat (nibble_at x depth)))
                (15 - Z.to_nat (nibble_at x depth))) as Es.
    { change (Z.to_nat (nibble_at x depth) :: seq (S (Z.to_nat (nibble_at x depth)))
                (15 - Z.to_nat (nibble_at x depth)))
        with (seq (Z.to_nat (nibble_at x depth)) (S (15 - Z.to_nat (nibble_at x depth)))).
      rewrite <-seq_app. f_equal. lia. }
    assert (∀ ns : list nat, (∀ n, n ∈ ns → Z.of_nat n ≠ nibble_at x depth) →
      nibble_group depth (x :: l) <$> ns = nibble_group depth l <$> ns) as Hsame.
    { intros ns Hns. apply list_fmap_ext. intros j n Hn. unfold nibble_group.
      rewrite filter_cons_False; [done|]. intros E. eapply Hns; [by eapply list_elem_of_lookup_2|done]. }
    rewrite Es in IH |- *. rewrite !fmap_app, !concat_app in *. cbn [fmap list_fmap concat] in *.
    rewrite !Hsame by (intros n Hn%elem_of_seq; lia).
    unfold nibble_group at 2. rewrite filter_cons_True by lia. fold (nibble_group depth l (Z.to_nat (nibble_at x depth))).
    rewrite <-app_comm_cons, <-Permutation_middle. by rewrite <-IH. }
  rewrite (Hc a), (Hc b). revert Hg. generalize (seq 0 16). intros ns Hg.
  induction ns as [|n ns IH]; [done|]. cbn [fmap list_fmap concat].
  rewrite (Hg n) by set_solver. rewrite IH; [done|]. intros. apply Hg. set_solver.
Qed.

Lemma leaf_inj a b : ids32 a → ids32 b → concat a = concat b → a = b.
Proof.
  intros Ha. revert b. induction Ha as [|x a Hx Ha IH]; intros b Hb E.
  - destruct Hb as [|y b Hy Hb]; [done|]. apply (f_equal length) in E. simpl in E.
    rewrite length_app in E. lia.
  - destruct Hb as [|y b Hy Hb].
    + apply (f_equal length) in E. simpl in E. rewrite length_app in E. lia.
    + simpl in E. apply app_inj_1 in E as [-> E]; [|lia]. f_equal. by apply IH.
Qed.

Lemma ids32_group depth ids n : ids32 ids → ids32 (nibble_group depth ids n).
Proof. intros Hi. apply Forall_forall. intros x [_ Hx]%list_elem_of_filter. by eapply Forall_forall in Hi. Qed.

(** The input at the top of a subtree is the first of its inputs. *)
Lemma subtree_head r depth ids :
  ∃ x, x ∈ subtree_inputs r depth ids ∧ subtree_hash r depth ids = hash_input x.
Proof.
  destruct r as [|r]; cbn [subtree_inputs subtree_hash]; [|destruct (decide _)];
    eexists; (split; [apply list_elem_of_here|done]).
Qed.

Lemma inputs_distinct_subseteq l k : l ⊆ k → inputs_distinct k → inputs_distinct l.
Proof. intros Hlk [H1 H2]. split; naive_solver. Qed.

Section identify.
(** Blake3 digests have 32 bytes. *)
Hypothesis digest32 : ∀ k b, length (blake3_keyed k b) = 32%nat.

Lemma keys_differ x y : leaf_input x ≠ internal_input y.
Proof. intros E. by apply (f_equal fst) in E. Qed.

Lemma child_length r depth ids n :
  length (default (zeros 32) (let g := nibble_group depth ids n in
    if decide (g = []) then None else Some (subtree_hash r (S depth) g))) = 32%nat.
Proof.
  simpl. destruct (decide _); [done|]. simpl.
  destruct (subtree_head r (S depth) (nibble_group depth ids n)) as (x&_&->). apply digest32.
Qed.

(** Equal child digests at nibble [n] give equal groups there. *)
Definition identifies (r : nat) : Prop := ∀ depth a b,
  ids32 a → ids32 b → a ≠ [] → b ≠ [] →
  inputs_distinct (subtree_inputs r depth a ++ subtree_inputs r depth b) →
  subtree_hash r depth a = subtree_hash r depth b → a ≡ₚ b.

Lemma child_identifies r depth a b n (IH : identifies r) :
  ids32 a → ids32 b →
  let ga := nibble_group depth a n in let gb := nibble_group depth b n in
  inputs_distinct ((if decide (ga = []) then [] else subtree_inputs r (S depth) ga) ++
                   (if decide (gb = []) then [] else subtree_inputs r (S depth) gb)) →
  default (zeros 32) (if decide (ga = []) then None else Some (subtree_hash r (S depth) ga)) =
  default (zeros 32) (if decide (gb = []) then None else Some (subtree_hash r (S depth) gb)) →
  ga ≡ₚ gb.
Proof.
  intros Ha Hb ga gb. destruct (decide (ga = [])) as [->|Hga], (decide (gb = [])) as [->|Hgb];
    simpl; [done|..]; intros Hd E.
  - destruct (subtree_head r (S depth) gb) as (x&Hx&Eq). rewrite Eq in E. by destruct (proj2 Hd x Hx).
  - destruct (subtree_head r (S depth) ga) as (x&Hx&Eq). rewrite Eq in E.
    destruct (proj2 Hd x); [by apply elem_of_app; left|done].
  - apply (IH (S depth)); [by apply ids32_group..|done|done|done|done].
Qed.

Lemma subtree_identifies r : identifies r.
Proof.
  induction r as [|r IH]; intros depth a b Ha Hb Hna Hnb.
  { cbn. intros [Hd _] E. apply Hd in E; [|set_solver..]. simplify_eq. by apply leaf_inj in E as ->. }
  cbn [subtree_hash subtree_inputs].
  destruct (decide (length a = 1%nat)), (decide (length b = 1%nat)); intros Hd E.
  - apply (proj1 Hd) in E; [|set_solver..]. simplify_eq. by apply leaf_inj in E as ->.
  - apply (proj1 Hd) in E; [|set_solver..]. by apply keys_differ in E.
  - apply (proj1 Hd) in E; [|set_solver..]. by eapply eq_sym, keys_differ in E.
  - apply (proj1 Hd) in E; [|set_solver..]. unfold internal_input in E. apply (f_equal snd) in E. cbn [snd] in E.
    rewrite <-!list_fmap_compose in E.
    apply (groups_perm depth). intros m Hm. apply (child_identifies r depth a b m IH Ha Hb).
    + eapply inputs_distinct_subseteq; [|exact Hd]. intros x. rewrite !elem_of_app, !elem_of_cons.
      rewrite !elem_of_concat. intros [Hx|Hx]; [left|right]; right;
        eexists; (split; [exact Hx|]); apply list_elem_of_fmap; eauto.
    + eapply (blocks_inj _ _ (seq 0 16)) in E; [exact E|..]; [apply child_length..|done].
Qed.
End identify.

(** Everything two trees feed to the hash. *)
Definition mst_inputs (ids : list NodeId) : list (bytes * bytes) :=
  match ids with [] => [] | _ => subtree_inputs 64 0 (sort ids) end.

Lemma equal_roots_equal_ids (a b : list NodeId) :
  (∀ k d, length (blake3_keyed k d) = 32%nat) → ids32 a → ids32 b →
  inputs_distinct (mst_inputs a ++ mst_inputs b) →
  root_hash (mst_from_ids a) = root_hash (mst_from_ids b) → a ≡ₚ b.
Proof.
  intros H32 Ha Hb Hd E. destruct a as [|x a], b as [|y b]; [done|..].
  - rewrite (mst_root (y :: b)) in E by done.
    destruct (subtree_head 64 0%nat (sort (y :: b))) as (i&Hi&Eq). rewrite Eq in E. by destruct (proj2 Hd i Hi).
  - rewrite (mst_root (x :: a)) in E by done.
    destruct (subtree_head 64 0%nat (sort (x :: a))) as (i&Hi&Eq). rewrite Eq in E.
    destruct (proj2 Hd i); [by apply elem_of_app; left|done].
  - rewrite !mst_root in E by done. rewrite <-(sort_perm (x :: a)), <-(sort_perm (y :: b)).
    revert E. apply (subtree_identifies H32 64 0%nat); [..|exact Hd].
    1,2: unfold ids32; by rewrite sort_perm.
    all: intros E; apply (f_equal length) in E; by rewrite sort_perm in E.
Qed.

(** Two replicas that hold the same ids, in whatever order they list
    them, build the same tree and so advertise the same root hash. *)
Theorem mst_order_independent (a b : list NodeId) :
  a ≡ₚ b → mst_from_ids a = mst_from_ids b ∧ root_hash_hex (mst_from_ids a) = root_hash_hex (mst_from_ids b).
Proof.
  intros Hab. assert (mst_from_ids a = mst_from_ids b) as ->; [|done]. unfold mst_from_ids.
  destruct a, b; [done|by apply Permutation_nil_l in Hab|by apply Permutation_nil_r in Hab|].
  by rewrite Hab.
Qed.

(** Equal root hashes mean equal id sets: when no two of the inputs the
    two trees feed to Blake3 collide, trees with one root were built from the
    same ids. *)
Theorem mst_root_identifies (a b : list NodeId) :
  (∀ k d, length (blake3_keyed k d) = 32%nat) → ids32 a → ids32 b →
  inputs_distinct (mst_inputs a ++ mst_inputs b) →
  root_hash (mst_from_ids a) = root_hash (mst_from_ids b) → a ≡ₚ b.
Proof. apply equal_roots_equal_ids. Qed.

(** The difference two trees report is exact on both branches of the
    root comparison: each side's part holds precisely the ids the other side
    lacks. *)
Theorem simulate_diff_exact (a b : list NodeId) :
  (∀ k d, length (blake3_keyed k d) = 32%nat) → ids32 a → ids32 b →
  inputs_distinct (mst_inputs a ++ mst_inputs b) →
  simulate_diff (mst_from_ids a) (mst_from_ids b) =
    (list_to_set a ∖ list_to_set b, list_to_set b ∖ list_to_set a).
Proof.
  intros H32 Ha Hb Hd. unfold simulate_diff. destruct (decide _) as [E|E].
  - apply equal_roots_equal_ids in E; [|done..]. 
    assert (list_to_set a = (list_to_set b : gset NodeId)) as -> by (by rewrite E).
    by rewrite difference_diag_L.
  - by rewrite !mst_keys_ok.
Qed.
End mst.

(** ** Witnesses *)

Lemma mst_order_independent_witness :
  mst_from_ids [toy_id 1; toy_id 2] = mst_from_ids [toy_id 2; toy_id 1] ∧
  root_hash_hex (mst_from_ids [toy_id 1; toy_id 2]) = root_hash_hex (mst_from_ids [toy_id 2; toy_id 1]).
Proof. refine (mst_order_independent [toy_id 1; toy_id 2] [toy_id 2; toy_id 1] _). apply perm_swap. Defined.

Lemma toy_keyed_length k d : length (blake3_keyed k d) = 32%nat.
Proof. apply (proj1 (Toy_Blake3Laws _)). Qed.

Lemma mst_root_identifies_witness : [toy_id 1; toy_id 2] ≡ₚ [toy_id 2; toy_id 1].
Proof.
  apply (mst_root_identifies [toy_id 1; toy_id 2] [toy_id 2; toy_id 1]).
  - apply toy_keyed_length.
  - repeat constructor.
  - repeat constructor.
  - apply (bool_decide_unpack _). vm_compute. exact I.
  - vm_compute. reflexivity.
Defined.

Lemma simulate_diff_exact_witness :
  simulate_diff (mst_from_ids [toy_id 1; toy_id 2]) (mst_from_ids [toy_id 2]) =
    (list_to_set [toy_id 1; toy_id 2] ∖ list_to_set [toy_id 2],
     list_to_set [toy_id 2] ∖ list_to_set [toy_id 1; toy_id 2]).
Proof.
  apply (simulate_diff_exact [toy_id 1; toy_id 2] [toy_id 2]).
  - apply toy_keyed_length.
  - repeat constructor.
  - repeat constructor.
  - apply (bool_decide_unpack _). vm_compute. exact I.
Defined.
