(* ===== verification/Gc.v ===== *)
(** The garbage-collection coordinator (core/gc): mark, soft sweep, hard sweep
    over five injected backends, and what it promises for every backend that
    keeps the documented contracts.

    The backends of the source are five traits behind shared references; here
    they are five classes over one world [W], and every call may fail. *)

From S2P Require Import Prelude StErr.

(** ** Time

    [SystemTime] is nanoseconds since the Unix epoch; on Unix its seconds are an
    [i64], which bounds [checked_sub]. *)

Abbreviation SystemTime := Z.
Abbreviation Duration := Z.
Definition systime_min : Z := - 2 ^ 63 * 10 ^ 9.
Definition checked_sub (t : SystemTime) (d : Duration) : option SystemTime :=
  if systime_min <=? t - d then Some (t - d) else None.

(** ** Records (types.rs, errors.rs) *)

Inductive AssetState :=
| Uploading | Active | Grace | SweepCandidate | Pinned | PendingDelete | Deleted | Quarantined.
#[global] Instance AssetState_eq : EqDecision AssetState.
Proof. solve_decision. Defined.

Record AssetRecord := mkAsset {
  ar_hash : bytes;
  ar_object_key : bytes;
  ar_bucket : bytes;
  ar_namespace : bytes;
  ar_first_seen_at : SystemTime;
  ar_last_seen_at : SystemTime;
  ar_state : AssetState;
  ar_pending_delete_at : option SystemTime;
  ar_deleted_at : option SystemTime;
  ar_last_marked_run_id : option bytes;
  ar_mark_count : Z;
  ar_size_bytes : option Z;
  ar_content_type : option bytes;
  ar_is_admin_pinned : bool;
  ar_pin_reason : option bytes;
  ar_updated_at : SystemTime;
}.
#[global] Instance AssetRecord_eq : EqDecision AssetRecord.
Proof. solve_decision. Defined.

Definition asset_key (r : AssetRecord) : bytes * bytes := (ar_bucket r, ar_object_key r).

Inductive GcRunMode := DryRun | MarkOnly | SweepSoft | SweepHard.
Inductive GcRunStatus := RunRunning | RunSucceeded | RunFailed.
Record GcRunStart := mkRunStart { rs_mode : GcRunMode; rs_started_at : SystemTime }.
Record GcRunDelta := mkDelta {
  marked_count : Z;
  newly_pending_count : Z;
  hard_deleted_count : Z;
  skipped_pinned_count : Z;
  error_count : Z;
}.
Definition delta_default : GcRunDelta := mkDelta 0 0 0 0 0.
Record GcRunFinish := mkRunFinish {
  rf_status : GcRunStatus;
  rf_finished_at : SystemTime;
  rf_notes : option bytes;
}.

Inductive GcError := Backend (m : bytes) | InvalidState (m : bytes) | Invariant (m : bytes).

(** ** Contracts (contracts.rs) *)

Abbreviation GcM W := (SE W GcError).

Class LiveHashSource (W : Type) := collect_live_hashes : GcM W (list bytes).

Class AssetInventoryStore (W : Type) := {
  upsert_active_seen : bytes → bytes → SystemTime → GcM W unit;
  upsert_active_seen_batch : bytes → list bytes → SystemTime → GcM W unit;
  iter_unmarked_candidates : bytes → GcM W (list AssetRecord);
  iter_pending_older_than : SystemTime → GcM W (list AssetRecord);
  set_pending_delete : bytes → SystemTime → GcM W unit;
  set_deleted : bytes → SystemTime → GcM W unit;
  clear_pending_delete : bytes → GcM W unit;
}.

(** The default of [upsert_active_seen_batch]. *)
Definition upsert_loop {W} (upsert : bytes → bytes → SystemTime → GcM W unit)
    (run_id : bytes) (hashes : list bytes) (now : SystemTime) : GcM W unit :=
  for_each hashes (λ _ h, upsert run_id h now) tt.

Class GcRunStore (W : Type) := {
  start_run : GcRunStart → GcM W bytes;
  apply_delta : bytes → GcRunDelta → GcM W unit;
  finish_run : bytes → GcRunFinish → GcM W unit;
}.
Class AdminPinStore (W : Type) := is_pinned : bytes → GcM W bool.
Class BlobObjectStore (W : Type) := {
  obj_head : bytes → bytes → GcM W bool;
  obj_delete : bytes → bytes → GcM W unit;
}.

(** ** The coordinator (coordinator.rs) *)

Record GcCoordinatorConfig := mkGcConfig {
  grace_window : Duration;
  max_deletes_per_run : Z;
  require_head_before_delete : bool;
}.
Definition gc_config_default : GcCoordinatorConfig := mkGcConfig (24 * 60 * 60 * 10 ^ 9) 100 true.

Definition bump_marked (d : GcRunDelta) (n : Z) : GcRunDelta :=
  mkDelta (wrap_add64 (marked_count d) n) (newly_pending_count d) (hard_deleted_count d)
    (skipped_pinned_count d) (error_count d).
Definition bump_pending (d : GcRunDelta) : GcRunDelta :=
  mkDelta (marked_count d) (wrap_add64 (newly_pending_count d) 1) (hard_deleted_count d)
    (skipped_pinned_count d) (error_count d).
Definition bump_deleted (d : GcRunDelta) : GcRunDelta :=
  mkDelta (marked_count d) (newly_pending_count d) (wrap_add64 (hard_deleted_count d) 1)
    (skipped_pinned_count d) (error_count d).
Definition bump_skipped (d : GcRunDelta) : GcRunDelta :=
  mkDelta (marked_count d) (newly_pending_count d) (hard_deleted_count d)
    (wrap_add64 (skipped_pinned_count d) 1) (error_count d).

Section coordinator.
Context {W : Type} `{LiveHashSource W, AssetInventoryStore W, GcRunStore W, AdminPinStore W, BlobObjectStore W}.
Context (cfg : GcCoordinatorConfig).

(** [rec.is_admin_pinned || self.pins.is_pinned(&rec.hash)?]. *)
Definition protected_rec (r : AssetRecord) : GcM W bool :=
  if ar_is_admin_pinned r then mret true else is_pinned (ar_hash r).

Definition already_pending (r : AssetRecord) : bool :=
  bool_decide (is_Some (ar_pending_delete_at r)) || bool_decide (ar_state r = PendingDelete).

(** One round of [sweep_soft]. *)
Definition soft_step (now : SystemTime) (d : GcRunDelta) (r : AssetRecord) : GcM W GcRunDelta :=
  if already_pending r then mret d
  else
    pinned ← protected_rec r;
    if (pinned : bool) then mret (bump_skipped d)
    else _ ← set_pending_delete (ar_hash r) now; mret (bump_pending d).
Definition sweep_soft (run_id : bytes) (now : SystemTime) (d : GcRunDelta) : GcM W GcRunDelta :=
  candidates ← iter_unmarked_candidates run_id;
  for_each candidates (soft_step now) d.

(** One round of [sweep_hard]; a round after [remaining] reached zero is the
    [break] of the source. *)
Definition hard_delete (now : SystemTime) (r : AssetRecord) (d : GcRunDelta) (remaining : Z)
    : GcM W (GcRunDelta * Z) :=
  _ ← obj_delete (ar_bucket r) (ar_object_key r);
  _ ← set_deleted (ar_hash r) now;
  mret (bump_deleted d, remaining - 1).
Definition hard_step (now : SystemTime) (s : GcRunDelta * Z) (r : AssetRecord) : GcM W (GcRunDelta * Z) :=
  let '(d, remaining) := s in
  if remaining =? 0 then mret s
  else
    pinned ← protected_rec r;
    if (pinned : bool) then mret (bump_skipped d, remaining)
    else if require_head_before_delete cfg then
      found ← obj_head (ar_bucket r) (ar_object_key r);
      if (found : bool) then hard_delete now r d remaining
      else _ ← set_deleted (ar_hash r) now; mret s
    else hard_delete now r d remaining.
Definition sweep_hard (now : SystemTime) (d : GcRunDelta) : GcM W GcRunDelta :=
  match checked_sub now (grace_window cfg) with
  | None => throw (Invariant (bs "failed to compute grace cutoff"))
  | Some cutoff =>
      candidates ← iter_pending_older_than cutoff;
      s ← for_each candidates (hard_step now) (d, Z.min (max_deletes_per_run cfg) u64_max);
      mret s.1
  end.

(** [run_inner]. *)
Definition run_inner (run_id : bytes) (mode : GcRunMode) (now : SystemTime) : GcM W GcRunDelta :=
  live ← collect_live_hashes;
  _ ← upsert_active_seen_batch run_id live now;
  let d := bump_marked delta_default (Z.of_nat (length live)) in
  match mode with
  | DryRun | MarkOnly => _ ← apply_delta run_id d; mret d
  | SweepSoft =>
      d ← sweep_soft run_id now d;
      _ ← apply_delta run_id d; mret d
  | SweepHard =>
      d ← sweep_soft run_id now d;
      d ← sweep_hard now d;
      _ ← apply_delta run_id d; mret d
  end.

(** [run_once]: the result of [finish_run] is dropped. *)
Definition run_once (mode : GcRunMode) (now : SystemTime) : GcM W GcRunDelta := λ w,
  match start_run (mkRunStart mode now) w with
  | (w, Err e) => (w, Err e)
  | (w, Ok run_id) =>
      let '(w, r) := run_inner run_id mode now w in
      let status := match r with Ok _ => RunSucceeded | Err _ => RunFailed end in
      ((finish_run run_id (mkRunFinish status now None) w).1, r)
  end.
End coordinator.
