(* ===== verification/GcFacts.v ===== *)
(** What the coordinator promises over any backend that keeps the contracts:
    live, pinned and recently live blobs keep their object. *)

From S2P Require Import Prelude StErr Gc.

(** ** The contracts

    What one backend shows to the coordinator: the inventory rows, the stored
    objects and the pins. *)
Record gc_view := mkView {
  v_inv : gmap bytes AssetRecord;
  v_objs : gset (bytes * bytes);
  v_pins : bytes → bool;
}.
Definition with_inv (v : gc_view) (m : gmap bytes AssetRecord) : gc_view := mkView m (v_objs v) (v_pins v).
Definition with_objs (v : gc_view) (o : gset (bytes * bytes)) : gc_view := mkView (v_inv v) o (v_pins v).

(** The updates of one row. *)
Definition pend (t : SystemTime) (r : AssetRecord) : AssetRecord :=
  mkAsset (ar_hash r) (ar_object_key r) (ar_bucket r) (ar_namespace r) (ar_first_seen_at r)
    (ar_last_seen_at r) PendingDelete (Some t) (ar_deleted_at r) (ar_last_marked_run_id r)
    (ar_mark_count r) (ar_size_bytes r) (ar_content_type r) (ar_is_admin_pinned r) (ar_pin_reason r) t.
Definition drop_row (t : SystemTime) (r : AssetRecord) : AssetRecord :=
  mkAsset (ar_hash r) (ar_object_key r) (ar_bucket r) (ar_namespace r) (ar_first_seen_at r)
    (ar_last_seen_at r) Deleted (ar_pending_delete_at r) (Some t) (ar_last_marked_run_id r)
    (ar_mark_count r) (ar_size_bytes r) (ar_content_type r) (ar_is_admin_pinned r) (ar_pin_reason r) t.

Section marks.
Context (key_scheme : bytes → bytes * bytes).

(** A row after a mark: active, not pending, signed by the run. *)
Record marked_row (run h : bytes) (old : option AssetRecord) (r : AssetRecord) : Prop := {
  mr_hash : ar_hash r = h;
  mr_key : asset_key r = default (key_scheme h) (asset_key <$> old);
  mr_state : ar_state r = Active;
  mr_pending : ar_pending_delete_at r = None;
  mr_run : ar_last_marked_run_id r = Some run;
  mr_pin : ar_is_admin_pinned r = default false (ar_is_admin_pinned <$> old);
}.

Definition marked (run : bytes) (hs : list bytes) (v v' : gc_view) : Prop :=
  v_objs v' = v_objs v ∧ v_pins v' = v_pins v ∧
  ∀ h, if decide (h ∈ hs)
       then ∃ r, v_inv v' !! h = Some r ∧ marked_row run h (v_inv v !! h) r
       else v_inv v' !! h = v_inv v !! h.
End marks.

(** Clocks between the epoch and the range of an [i64] of milliseconds. *)
Definition time_ok (t : SystemTime) : Prop := 0 <= t < 2 ^ 63 * 10 ^ 6.

Class GcLaws (W : Type) `{LiveHashSource W, AssetInventoryStore W, GcRunStore W, AdminPinStore W, BlobObjectStore W} := {
  view : W → gc_view;
  next_live : W → result GcError (list bytes);
  key_scheme : bytes → bytes * bytes;
  rnd : SystemTime → SystemTime;
  key_scheme_inj :: Inj (=) (=) key_scheme;
  rnd_mono : ∀ t t', time_ok t → time_ok t' → t <= t' → rnd t <= rnd t';
  view_hash : ∀ w h r, v_inv (view w) !! h = Some r → ar_hash r = h;
  collect_law : ∀ w, view (collect_live_hashes w).1 = view w ∧ (collect_live_hashes w).2 = next_live w;
  upsert_law : ∀ run h now v, triple (λ w, view w = v) (upsert_active_seen run h now)
    (λ _ w, marked key_scheme run [h] v (view w)) (λ w, view w = v);
  batch_law : ∀ run hs now v, triple (λ w, view w = v) (upsert_active_seen_batch run hs now)
    (λ _ w, marked key_scheme run hs v (view w))
    (λ w, ∃ hs', hs' ⊆ hs ∧ marked key_scheme run hs' v (view w));
  unmarked_law : ∀ run v, triple (λ w, view w = v) (iter_unmarked_candidates run)
    (λ l w, view w = v ∧ NoDup (ar_hash <$> l) ∧ ∀ r, r ∈ l →
       v_inv v !! ar_hash r = Some r ∧ ar_state r ≠ Deleted ∧ ar_last_marked_run_id r ≠ Some run)
    (λ w, view w = v);
  pending_law : ∀ cutoff v, triple (λ w, view w = v) (iter_pending_older_than cutoff)
    (λ l w, view w = v ∧ NoDup (ar_hash <$> l) ∧ ∀ r, r ∈ l →
       v_inv v !! ar_hash r = Some r ∧ ar_state r = PendingDelete ∧
       ∃ p, ar_pending_delete_at r = Some p ∧ p <= rnd cutoff)
    (λ w, view w = v);
  set_pending_law : ∀ h t v, triple (λ w, view w = v) (set_pending_delete h t)
    (λ _ w, view w = with_inv v (alter (pend (rnd t)) h (v_inv v))) (λ w, view w = v);
  set_deleted_law : ∀ h t v, triple (λ w, view w = v) (set_deleted h t)
    (λ _ w, view w = with_inv v (alter (drop_row (rnd t)) h (v_inv v))) (λ w, view w = v);
  pinned_law : ∀ h v, triple (λ w, view w = v) (is_pinned h)
    (λ b w, view w = v ∧ b = v_pins v h) (λ w, view w = v);
  head_law : ∀ h v, triple (λ w, view w = v) (obj_head (key_scheme h).1 (key_scheme h).2)
    (λ x w, view w = v ∧ x = bool_decide (key_scheme h ∈ v_objs v)) (λ w, view w = v);
  delete_law : ∀ h v, triple (λ w, view w = v) (obj_delete (key_scheme h).1 (key_scheme h).2)
    (λ _ w, view w = with_objs v (v_objs v ∖ {[key_scheme h]}))
    (λ w, view w = v ∨ view w = with_objs v (v_objs v ∖ {[key_scheme h]}));
  start_law : ∀ s w, view (start_run s w).1 = view w ∧ next_live (start_run s w).1 = next_live w;
  delta_law : ∀ i d w, view (apply_delta i d w).1 = view w;
  finish_law : ∀ i f w, view (finish_run i f w).1 = view w;
}.

(** A call that cannot fail in a steady state. *)
Definition sure {W E A} (steady : W → Prop) (m : SE W E A) : Prop :=
  ∀ w, steady w → steady (m w).1 ∧ is_ok (m w).2 = true.

(** What the progress of a run needs beyond safety: states in which no backend
    call fails, hashes the object store accepts, and complete queries. *)
Class GcProgress (W : Type) `{GcLaws W} := {
  steady : W → Prop;
  addressable : bytes → Prop;
  steady_collect : ∀ w, steady w → steady (collect_live_hashes w).1;
  steady_batch : ∀ run hs now, sure steady (upsert_active_seen_batch run hs now);
  steady_unmarked : ∀ run, sure steady (iter_unmarked_candidates run);
  steady_pending : ∀ cutoff, sure steady (iter_pending_older_than cutoff);
  steady_set_pending : ∀ h t, sure steady (set_pending_delete h t);
  steady_set_deleted : ∀ h t, sure steady (set_deleted h t);
  steady_pinned : ∀ h, sure steady (is_pinned h);
  steady_head : ∀ h, addressable h → sure steady (obj_head (key_scheme h).1 (key_scheme h).2);
  steady_delete : ∀ h, addressable h → sure steady (obj_delete (key_scheme h).1 (key_scheme h).2);
  steady_delta : ∀ i d, sure steady (apply_delta i d);
  pending_complete : ∀ cutoff w l r p, steady w → (iter_pending_older_than cutoff w).2 = Ok l →
    v_inv (view w) !! ar_hash r = Some r → ar_state r = PendingDelete →
    ar_pending_delete_at r = Some p → p <= rnd cutoff → r ∈ l;
}.

Section gc.
Context {W : Type} `{GcLaws W}.
Implicit Types (w : W) (v : gc_view) (hist : list (SystemTime * list bytes)).

(** Successful runs so far, with the live set each of them marked. *)
Record hist_ok hist v : Prop := {
  ho_hash : ∀ h r, v_inv v !! h = Some r → ar_hash r = h;
  ho_key : ∀ h r, v_inv v !! h = Some r → asset_key r = key_scheme h;
  ho_pending : ∀ h r p, v_inv v !! h = Some r → ar_state r = PendingDelete →
    ar_pending_delete_at r = Some p → ∀ t live, (t, live) ∈ hist → h ∈ live → rnd t <= p;
}.

Lemma hist_ok_inv hist v v' : v_inv v' = v_inv v → hist_ok hist v → hist_ok hist v'.
Proof. intros E [Hha Hke Hpe]. split; rewrite E; done. Qed.

(** Marking keeps the history, and the new live set joins it. *)
Lemma marked_hist run hs v v' hist :
  marked key_scheme run hs v v' → hist_ok hist v →
  hist_ok hist v' ∧ ∀ t, hist_ok (hist ++ [(t, hs)]) v'.
Proof.
  intros (_&_&Hm) [Hha Hke Hpe].
  assert (∀ hist', (∀ t live, (t, live) ∈ hist' → (t, live) ∈ hist ∨ live = hs) → hist_ok hist' v') as Hh.
  { intros hist' Hin. split.
    - intros h r. specialize (Hm h). destruct (decide (h ∈ hs)) as [_|_]; [|rewrite Hm; apply Hha].
      destruct Hm as (r'&->&[]). naive_solver.
    - intros h r. specialize (Hm h). destruct (decide (h ∈ hs)) as [_|_]; [|rewrite Hm; apply Hke].
      destruct Hm as (r'&->&[_ Hk _ _ _ _]). intros [= <-]. rewrite Hk.
      destruct (v_inv v !! h) as [r|] eqn:E; [by apply Hke|done].
    - intros h r p. specialize (Hm h). destruct (decide (h ∈ hs)) as [_|Hn].
      + destruct Hm as (r'&->&[]). naive_solver.
      + rewrite Hm. intros Hr Hs Hp t live [Ht| ->]%Hin Hl; [by eapply Hpe|done]. }
  split; [apply Hh; by left|]. intros t. apply Hh. intros t' live [?|[= -> ->]%list_elem_of_singleton]%elem_of_app; auto.
Qed.

Section run.
Context (cfg : GcCoordinatorConfig) (hist : list (SystemTime * list bytes)) (live : list bytes).
Context (now : SystemTime) (v0 : gc_view) (run : bytes).
Context (Hpast : ∀ t l, (t, l) ∈ hist ++ [(now, live)] → rnd t <= rnd now).

(** The hashes the run must keep. *)
Definition kept (h : bytes) : Prop :=
  v_pins v0 h = true ∨ h ∈ live ∨
  ∃ t l cutoff, (t, l) ∈ hist ∧ h ∈ l ∧ checked_sub now (grace_window cfg) = Some cutoff ∧ rnd cutoff < rnd t.

Lemma keyed_parts (r : AssetRecord) : asset_key r = key_scheme (ar_hash r) →
  ar_bucket r = (key_scheme (ar_hash r)).1 ∧ ar_object_key r = (key_scheme (ar_hash r)).2.
Proof. by intros <-. Qed.

(** The invariant of both sweeps. *)
Record sweeping v : Prop := {
  sw_hist : hist_ok (hist ++ [(now, live)]) v;
  sw_pins : v_pins v = v_pins v0;
  sw_live : ∀ h, h ∈ live → ∃ r, v_inv v !! h = Some r ∧ ar_last_marked_run_id r = Some run ∧ ar_state r ≠ PendingDelete;
  sw_objs : v_objs v ⊆ v_objs v0;
  sw_kept : ∀ h, kept h → key_scheme h ∈ v_objs v0 → key_scheme h ∈ v_objs v;
}.

(** A row of a hash that is not live may go to a state the history allows. *)
Lemma sweeping_alter v h f :
  sweeping v → h ∉ live →
  (∀ r, ar_hash (f r) = ar_hash r) → (∀ r, asset_key (f r) = asset_key r) →
  (∀ r, ar_state (f r) = PendingDelete → ar_pending_delete_at (f r) = Some (rnd now)) →
  sweeping (with_inv v (alter f h (v_inv v))).
Proof.
  intros [[Hha Hke Hpe] Hp Hl Ho Hk] Hh Hf1 Hf2 Hf3.
  split; [split|done| |done|done]; simpl.
  - intros h' r. rewrite lookup_alter_Some. intros [(<-&r0&Hr&->)|[_ Hr]]; [rewrite Hf1|]; by apply Hha.
  - intros h' r. rewrite lookup_alter_Some. intros [(<-&r0&Hr&->)|[_ Hr]]; [rewrite Hf2|]; by apply Hke.
  - intros h' r p. rewrite lookup_alter_Some. intros [(<-&r0&Hr&->)|[_ Hr]] Hs Hpd t l Ht Hin.
    + rewrite (Hf3 _ Hs) in Hpd. simplify_eq. by eapply Hpast.
    + by eapply Hpe.
  - intros h' Hin. rewrite lookup_alter_ne by (intros ->; done). by apply Hl.
Qed.

(** The soft sweep moves no object. *)
Definition soft_inv w : Prop := sweeping (view w) ∧ v_objs (view w) = v_objs v0.

Lemma soft_step_ok d r :
  ar_hash r ∉ live → triple soft_inv (soft_step now d r) (λ _, soft_inv) soft_inv.
Proof.
  unfold soft_inv. intros Hr w Hw. unfold soft_step. destruct (already_pending r); [done|].
  apply (triple_bind _ _ (λ w', view w' = view w) (λ _ w', view w' = view w)); [| |done].
  - unfold protected_rec. destruct (ar_is_admin_pinned r); [by apply triple_ret|].
    eapply triple_conseq; [apply (pinned_law _ (view w))|done|naive_solver|]. by intros w' ->.
  - intros b. destruct b; [apply triple_ret; by intros w' ->|].
    eapply triple_bind; [eapply triple_conseq; [apply (set_pending_law _ _ (view w))|done|..]|].
    + intros u w' E. exact E.
    + by intros w' ->.
    + intros u. apply triple_ret. intros w' ->. split; [apply sweeping_alter; [apply Hw|done..]|apply Hw].
Qed.

Lemma sweep_soft_ok d : triple soft_inv (sweep_soft run now d) (λ _, soft_inv) soft_inv.
Proof.
  intros w Hw. unfold sweep_soft.
  apply (triple_bind _ _ (λ w', view w' = view w)
    (λ l w', view w' = view w ∧ ∀ r, r ∈ l → ar_hash r ∉ live)); [| |done].
  - eapply triple_conseq; [apply (unmarked_law _ (view w))|done| |].
    2:{ intros w' E. unfold soft_inv in *. by rewrite E. }
    intros l w' (->&_&Hl). split; [done|]. intros r (Hr&_&Hrun)%Hl Hin.
    destruct (sw_live _ (proj1 Hw) _ Hin) as (r'&Hr'&E&_). congruence.
  - intros l w' [E Hl]. apply (triple_for_inv l); [|unfold soft_inv in *; by rewrite E].
    intros r b Hr. by apply soft_step_ok, Hl.
Qed.

(** What makes a row eligible for the hard sweep. *)
Record doomed (cutoff : SystemTime) (r : AssetRecord) : Prop := {
  dm_live : ar_hash r ∉ live;
  dm_key : asset_key r = key_scheme (ar_hash r);
  dm_old : ∀ t l, (t, l) ∈ hist → ar_hash r ∈ l → rnd t <= rnd cutoff;
}.

(** At most [max_deletes_per_run] objects go. *)
Definition removed v : Z := Z.of_nat (size (v_objs v0 ∖ v_objs v)).
Definition hard_inv (s : GcRunDelta * Z) w : Prop :=
  sweeping (view w) ∧ 0 <= s.2 ∧ removed (view w) + s.2 <= max_deletes_per_run cfg.
Definition hard_end w : Prop := sweeping (view w) ∧ removed (view w) <= max_deletes_per_run cfg.

Lemma hard_inv_end s w : hard_inv s w → hard_end w.
Proof. intros (?&?&?). split; [done|lia]. Qed.

Lemma sweeping_delete v r cutoff :
  sweeping v → doomed cutoff r → checked_sub now (grace_window cfg) = Some cutoff →
  v_pins v (ar_hash r) = false →
  sweeping (with_objs v (v_objs v ∖ {[asset_key r]})) ∧
  removed (with_objs v (v_objs v ∖ {[asset_key r]})) <= removed v + 1.
Proof.
  intros [Hh Hp Hl Ho Hk] [Dl Dk Do] Hc Hpin. split.
  - split; [by apply (hist_ok_inv _ v)|done|done|simpl; set_solver|]. intros h Hkept Hin. simpl.
    apply elem_of_difference. split; [by apply Hk|]. rewrite elem_of_singleton, Dk. intros ->%(inj _).
    destruct Hkept as [Hpin'|[?|(t&l&c&Hin'&Hlive&Hc'&Hlt)]]; [congruence|done|].
    specialize (Do t l Hin' Hlive). rewrite Hc in Hc'. simplify_eq. lia.
  - unfold removed; simpl.
    assert (v_objs v0 ∖ (v_objs v ∖ {[asset_key r]}) ⊆ (v_objs v0 ∖ v_objs v) ∪ {[asset_key r]}) as Hsub.
    { intros k. rewrite !elem_of_union, !elem_of_difference, elem_of_singleton. destruct (decide (k = asset_key r)); [by right|]. tauto. }
    apply subseteq_size in Hsub. pose proof (size_union_alt (v_objs v0 ∖ v_objs v) {[asset_key r]}) as Hs.
    assert (size ({[asset_key r]} ∖ (v_objs v0 ∖ v_objs v)) <= 1)%nat.
    { rewrite <-(size_singleton (C:=gset (bytes * bytes)) (asset_key r)). apply subseteq_size. set_solver. }
    lia.
Qed.

Lemma hard_delete_ok cutoff r d rem w0 :
  doomed cutoff r → checked_sub now (grace_window cfg) = Some cutoff → v_pins v0 (ar_hash r) = false → rem ≠ 0 →
  hard_inv (d, rem) w0 →
  triple (λ w, view w = view w0) (hard_delete now r d rem) hard_inv hard_end.
Proof.
  intros Hd Hc Hpin Hrem (Hs&Hr0&Hr). simpl in Hr0, Hr.
  destruct (sweeping_delete (view w0) r cutoff Hs Hd Hc) as [Hs' Hr']; [by rewrite (sw_pins _ Hs)|].
  unfold hard_delete, hard_inv, hard_end. destruct (keyed_parts r (dm_key _ _ Hd)) as [-> ->].
  rewrite (dm_key _ _ Hd) in Hs', Hr'.
  eapply triple_bind; [eapply triple_conseq; [apply (delete_law (ar_hash r) (view w0))|done|intros u w E; exact E|]|].
  { intros w [->| ->]; (split; [done|lia]). }
  intros u.
  eapply triple_bind; [eapply triple_conseq; [apply set_deleted_law|intros w E; exact E|intros u' w E; exact E|]|].
  { intros w ->. split; [done|lia]. }
  intros u'. apply triple_ret. intros w ->. split; simpl.
  - apply (sweeping_alter _ _ _ Hs'); try done. apply Hd.
  - split; [lia|]. change (removed (with_inv ?v _)) with (removed v). lia.
Qed.

Lemma hard_step_ok cutoff s r :
  doomed cutoff r → checked_sub now (grace_window cfg) = Some cutoff →
  triple (hard_inv s) (hard_step cfg now s r) hard_inv hard_end.
Proof.
  intros Hd Hc w Hw. destruct s as [d rem]. unfold hard_step.
  destruct (Z.eqb_spec rem 0) as [_|Hrem]; [done|].
  assert (∀ w', view w' = view w → hard_inv (d, rem) w') as Hsame.
  { intros w' E. unfold hard_inv in *. by rewrite E. }
  assert (∀ w', view w' = view w → hard_end w') as Hend by eauto using hard_inv_end.
  apply (triple_bind _ _ (λ w', view w' = view w)
    (λ b w', view w' = view w ∧ (b = false → v_pins v0 (ar_hash r) = false))); [| |done].
  - unfold protected_rec. destruct (ar_is_admin_pinned r); [by apply triple_ret|].
    eapply triple_conseq; [apply (pinned_law _ (view w))|done| |done].
    intros b w' [E ->]. split; [done|]. by rewrite <-(sw_pins _ (proj1 Hw)).
  - intros b w1 [E1 Hb]. destruct b; [by apply (Hsame w1 E1)|]. specialize (Hb eq_refl).
    pose proof (hard_delete_ok cutoff r d rem w Hd Hc Hb Hrem Hw) as Hdel.
    destruct (require_head_before_delete cfg); [|by apply Hdel].
    destruct (keyed_parts r (dm_key _ _ Hd)) as [-> ->].
    eapply (triple_bind _ _ (λ w', view w' = view w)); [| |exact E1].
    + eapply triple_conseq; [apply (head_law (ar_hash r) (view w))|done|intros x w' Hx; exact Hx|done].
    + intros x w2 [E2 _]. destruct x; [by apply Hdel|].
      eapply (triple_bind _ _ (λ w', view w' = view w)); [| |exact E2].
      * eapply triple_conseq; [apply (set_deleted_law _ _ (view w))|done|intros u w' Hx; exact Hx|done].
      * intros u. apply triple_ret. intros w3 E3. destruct Hw as (Hs&Hr0&Hr). unfold hard_inv. rewrite E3.
        split; [apply (sweeping_alter _ _ _ Hs); try done; apply Hd|]. split; [done|].
        by change (removed (with_inv ?v _)) with (removed v).
Qed.

Lemma sweep_hard_ok d :
  0 <= max_deletes_per_run cfg →
  triple soft_inv (sweep_hard cfg now d) (λ _, hard_end) hard_end.
Proof.
  intros Hmax w Hw.
  assert (∀ w', view w' = view w → hard_inv (d, Z.min (max_deletes_per_run cfg) u64_max) w') as Hstart.
  { intros w' E. destruct Hw as [Hs Ho]. unfold hard_inv, removed. rewrite E, Ho. simpl.
    rewrite difference_diag_L, size_empty. split; [done|]. unfold u64_max. lia. }
  assert (∀ w', view w' = view w → hard_end w') as Hend by eauto using hard_inv_end.
  unfold sweep_hard. destruct (checked_sub now (grace_window cfg)) as [cutoff|] eqn:Hc; [|by apply (Hend w)].
  apply (triple_bind _ _ (λ w', view w' = view w)
    (λ l w', view w' = view w ∧ ∀ r, r ∈ l → doomed cutoff r)); [| |done].
  - eapply triple_conseq; [apply (pending_law _ (view w))|done| |done].
    intros l w' (E&_&Hl). split; [done|]. destruct Hw as [[[Hha Hke Hpe] Hp Hlv Ho Hk] _].
    intros r (Hr&Hst&p&Hpd&Hle)%Hl. split.
    + intros Hin. destruct (Hlv _ Hin) as (r'&Hr'&_&Hst'). congruence.
    + by apply Hke.
    + intros t l' Hin Hh. etrans; [|exact Hle]. eapply Hpe; [done|done|done|apply elem_of_app; by left|done].
  - intros l w1 [E1 Hl]. specialize (Hstart w1 E1). revert w1 E1 Hstart.
    assert (triple (hard_inv (d, Z.min (max_deletes_per_run cfg) u64_max))
      (s ← for_each l (hard_step cfg now) (d, Z.min (max_deletes_per_run cfg) u64_max); mret s.1 : GcM W GcRunDelta)
      (λ _, hard_end) hard_end) as Ht; [|intros w1 _; exact (Ht w1)].
    eapply triple_bind; [|intros s; apply triple_ret; intros w'; exact (hard_inv_end s w')].
    eapply triple_conseq; [apply (triple_for l _ (λ l s w, (∀ r, r ∈ l → doomed cutoff r) ∧ hard_inv s w) hard_end)|..].
    + intros r rest s w' [Hrest Hs]. specialize (hard_step_ok cutoff s r (Hrest r (list_elem_of_here _ _)) Hc w' Hs).
      destruct (hard_step cfg now s r w') as [w'' [s'|e]]; [|done]. intros Hs'. split; [|done].
      intros r' Hr'. apply Hrest. by right.
    + done.
    + by intros s w' [_ Hs].
    + done.
Qed.

(** The world after a run, whatever its result. *)
Record run_end w : Prop := {
  re_hist : hist_ok hist (view w);
  re_kept : ∀ h, kept h → key_scheme h ∈ v_objs v0 → key_scheme h ∈ v_objs (view w);
  re_objs : v_objs (view w) ⊆ v_objs v0;
  re_bound : removed (view w) <= max_deletes_per_run cfg;
}.
Definition run_done w : Prop := run_end w ∧ hist_ok (hist ++ [(now, live)]) (view w).

Lemma hist_ok_prefix h1 h2 v : hist_ok (h1 ++ h2) v → hist_ok h1 v.
Proof.
  intros [Hha Hke Hpe]. split; [done|done|]. intros h r p Hr Hs Hp t l Hin. eapply Hpe; [done..|].
  apply elem_of_app. by left.
Qed.

Lemma hard_end_done w : hard_end w → run_done w.
Proof.
  intros [[Hh Hp Hl Ho Hk] Hb]. split; [split|]; try done. by eapply hist_ok_prefix.
Qed.

Lemma soft_inv_end w : 0 <= max_deletes_per_run cfg → soft_inv w → hard_end w.
Proof.
  intros Hmax [Hs Ho]. split; [done|]. unfold removed. by rewrite Ho, difference_diag_L, size_empty.
Qed.

Lemma marked_sweeping v :
  hist_ok hist v0 → marked key_scheme run live v0 v → sweeping v ∧ v_objs v = v_objs v0.
Proof.
  intros Hh Hm. pose proof (marked_hist _ _ _ _ _ Hm Hh) as [_ Hh']. destruct Hm as (Ho&Hp&Hm).
  split; [|done]. split; [done|done| |by rewrite Ho|by rewrite Ho].
  intros h Hin. specialize (Hm h). rewrite decide_True in Hm by done. destruct Hm as (r&Hr&[]).
  exists r. split; [done|]. split; [done|congruence].
Qed.

Lemma apply_delta_done i d :
  triple run_done (_ ← apply_delta i d; mret d : GcM W GcRunDelta) (λ _, run_done) run_done.
Proof.
  intros w [[Hh Hk Ho Hb] Hd]. unfold mbind, se_bind. pose proof (delta_law i d w) as E.
  destruct (apply_delta i d w) as [w' [u|e]]; simpl in E; (split; [split|]; by rewrite ?E).
Qed.

Lemma triple_err_weaken {A} (m : GcM W A) P Q (R R' : W → Prop) :
  triple P m Q R → (∀ w, R w → R' w) → triple P m Q R'.
Proof. intros Hm HR. by eapply triple_conseq. Qed.

Lemma run_inner_ok mode w :
  0 <= max_deletes_per_run cfg → view w = v0 → hist_ok hist v0 → next_live w = Ok live →
  match run_inner cfg run mode now w with (w', Ok _) => run_done w' | (w', Err _) => run_end w' end.
Proof.
  intros Hmax Ev Hh Hlive. unfold run_inner, mbind at 1, se_bind at 1.
  destruct (collect_law w) as [Ev1 Er1]. destruct (collect_live_hashes w) as [w1 r1]. simpl in Ev1, Er1.
  rewrite Er1, Hlive. rewrite Ev in Ev1. clear w Ev r1 Er1 Hlive. revert w1 Ev1.
  apply (triple_bind _ _ _ (λ _, soft_inv)).
  - eapply triple_conseq; [apply (batch_law run live now v0)|done| |].
    + intros u w Hm. by apply marked_sweeping.
    + intros w (hs&_&Hm). pose proof (marked_hist _ _ _ _ _ Hm Hh) as [Hh' _]. destruct Hm as (Ho&_&_).
      split; [done|by rewrite Ho|by rewrite Ho|]. unfold removed. by rewrite Ho, difference_diag_L, size_empty.
  - intros u. set (d := bump_marked _ _). clearbody d.
    assert (∀ w, run_done w → run_end w) as Hde by (by intros w' [? _]).
    assert (∀ w, soft_inv w → run_done w) as Hsd by eauto using hard_end_done, soft_inv_end.
    assert (∀ w, hard_end w → run_end w) as Hhe by eauto using hard_end_done.
    assert (∀ d, triple run_done (_ ← apply_delta run d; mret d : GcM W GcRunDelta) (λ _, run_done) run_end) as Hfin.
    { intros d'. by eapply triple_err_weaken; [apply apply_delta_done|]. }
    assert (∀ d, triple soft_inv (_ ← apply_delta run d; mret d : GcM W GcRunDelta) (λ _, run_done) run_end) as Hsoft.
    { intros d'. by eapply triple_conseq; [apply Hfin|..]. }
    assert (triple soft_inv (sweep_soft run now d) (λ _, soft_inv) run_end) as Hss.
    { eapply triple_err_weaken; [apply sweep_soft_ok|]. auto. }
    destruct mode; [apply Hsoft|apply Hsoft|by eapply triple_bind|].
    eapply triple_bind; [exact Hss|]. intros d1.
    eapply (triple_bind _ _ _ (λ _, run_done)); [|intros d2; apply Hfin].
    eapply triple_conseq; [apply (sweep_hard_ok d1 Hmax)|done| |done]. intros d2 w'. apply hard_end_done.
Qed.
End run.

(** ** A server's life

    Runs with any configuration, uploads that mark their blob, and an
    environment that stores objects, changes pins and moves references. *)
Inductive gc_trace : list (SystemTime * list bytes) → W → Prop :=
| trace_init w : v_inv (view w) = ∅ → gc_trace [] w
| trace_run hist w cfg mode now live w' d : gc_trace hist w → time_ok now →
    (∀ t l, (t, l) ∈ hist → t <= now) → 0 <= max_deletes_per_run cfg → next_live w = Ok live →
    run_once cfg mode now w = (w', Ok d) → gc_trace (hist ++ [(now, live)]) w'
| trace_failed hist w cfg mode now w' e : gc_trace hist w → time_ok now →
    (∀ t l, (t, l) ∈ hist → t <= now) → 0 <= max_deletes_per_run cfg →
    run_once cfg mode now w = (w', Err e) → gc_trace hist w'
| trace_upload hist w run h now : gc_trace hist w → gc_trace hist (upsert_active_seen run h now w).1
| trace_env hist w w' : gc_trace hist w → v_inv (view w') = v_inv (view w) → gc_trace hist w'.

(** One run from a world with a known history. *)
Lemma run_once_ok cfg mode now hist w :
  hist_ok hist (view w) → (∀ t l, (t, l) ∈ hist → rnd t <= rnd now) → 0 <= max_deletes_per_run cfg →
  match next_live w with
  | Ok live =>
      let '(w', r) := run_once cfg mode now w in
      run_end cfg hist live now (view w) w' ∧ (is_ok r = true → hist_ok (hist ++ [(now, live)]) (view w'))
  | Err _ => view (run_once cfg mode now w).1 = view w ∧ is_ok (run_once cfg mode now w).2 = false
  end.
Proof.
  intros Hh Hpast Hmax. unfold run_once. destruct (start_law (mkRunStart mode now) w) as [Ev El].
  destruct (start_run (mkRunStart mode now) w) as [w1 [run|e]]; simpl in Ev, El.
  2:{ destruct (next_live w) as [live|e']; [|done]. split; [|done].
      split; rewrite Ev; try done. unfold removed. by rewrite difference_diag_L, size_empty. }
  destruct (next_live w) as [live|e] eqn:Hlive.
  - pose proof (run_inner_ok cfg hist live now (view w) run) as Hin. specialize (Hin ltac:(
      intros t l [Ht|[= -> ->]%list_elem_of_singleton]%elem_of_app; [by eapply Hpast|done]) mode w1 Hmax Ev Hh El).
    destruct (run_inner cfg run mode now w1) as [w2 r].
    pose proof (finish_law run (mkRunFinish match r with Ok _ => RunSucceeded | Err _ => RunFailed end now None) w2) as Ef.
    assert (run_end cfg hist live now (view w) w2) as [Rh Rk Ro Rb] by (destruct r; [by destruct Hin|done]).
    split; [split; by rewrite Ef|]. rewrite Ef. by destruct r; [intros _; apply Hin|].
  - destruct (collect_law w1) as [Ev1 Er1]. destruct (collect_live_hashes w1) as [w2 r2] eqn:Ec.
    simpl in Ev1, Er1. rewrite El in Er1. subst r2.
    assert (run_inner cfg run mode now w1 = (w2, Err e)) as ->.
    { unfold run_inner, mbind at 1, se_bind at 1. by rewrite Ec. }
    split; [|done]. cbn [fst]. rewrite finish_law. congruence.
Qed.

Lemma trace_hist hist w : gc_trace hist w → hist_ok hist (view w) ∧ ∀ t l, (t, l) ∈ hist → time_ok t.
Proof.
  induction 1 as [w E|hist w cfg mode now live w' d _ [Hh Ht] Hnow Hle Hmax Hlive E
    |hist w cfg mode now w' e _ [Hh Ht] Hnow Hle Hmax E|hist w run h now _ [Hh Ht]|hist w w' _ [Hh Ht] E].
  - split; [|set_solver]. split; rewrite E; set_solver.
  - pose proof (run_once_ok cfg mode now hist w Hh) as Hr. rewrite Hlive, E in Hr. split.
    + apply Hr; [|done|done]. intros t l Hin. apply rnd_mono; eauto.
    + intros t l [Hin|[= -> ->]%list_elem_of_singleton]%elem_of_app; eauto.
  - split; [|done]. pose proof (run_once_ok cfg mode now hist w Hh) as Hr.
    assert (∀ t l, (t, l) ∈ hist → rnd t <= rnd now) as Hp by (intros t l Hin; apply rnd_mono; eauto).
    specialize (Hr Hp Hmax). rewrite E in Hr. destruct (next_live w) as [live|e'].
    + apply Hr.
    + destruct Hr as [E' _]. simpl in E'. by rewrite E'.
  - split; [|done]. pose proof (upsert_law run h now (view w) w eq_refl) as Hu.
    destruct (upsert_active_seen run h now w) as [w' [u|e]]; simpl; [|by rewrite Hu].
    by apply (marked_hist _ _ _ _ _ Hu).
  - split; [|done]. by apply (hist_ok_inv _ (view w)).
Qed.

(** ** Progress *)

Lemma list_to_set_size_le (l : list bytes) : (size (list_to_set l : gset bytes) <= length l)%nat.
Proof.
  induction l as [|x l IH]; [done|]. cbn [list_to_set length]. rewrite size_union_alt, size_singleton.
  assert (size (list_to_set l ∖ {[x]} : gset bytes) <= size (list_to_set l : gset bytes))%nat; [|lia].
  apply subseteq_size. set_solver.
Qed.

(** What protects a hash from a run at [now]: a pin, a reference the run sees, or
    a reference some successful run saw less than the grace window ago, measured
    with the resolution of the store. *)
Definition gc_protected (cfg : GcCoordinatorConfig) (now : SystemTime) hist w (h : bytes) : Prop :=
  v_pins (view w) h = true ∨ (∃ live, next_live w = Ok live ∧ h ∈ live) ∨
  ∃ t l cutoff, (t, l) ∈ hist ∧ h ∈ l ∧ checked_sub now (grace_window cfg) = Some cutoff ∧ rnd cutoff < rnd t.

(** C16: garbage collection never deletes what is referenced. After any sequence of
    runs, failed runs, uploads and changes of references, a run of any mode, at a time
    no earlier than the runs before it, leaves the object of every hash alone that is
    pinned, that the run found live, or that a successful run found live within the
    grace window, even when a backend call fails half way. *)
Theorem gc_keeps_live cfg mode now hist w (h : bytes) :
  gc_trace hist w → time_ok now → (∀ t l, (t, l) ∈ hist → t <= now) → 0 <= max_deletes_per_run cfg →
  gc_protected cfg now hist w h →
  key_scheme h ∈ v_objs (view w) → key_scheme h ∈ v_objs (view (run_once cfg mode now w).1).
Proof.
  intros [Hh Ht]%trace_hist Hnow Hle Hmax Hp Hin.
  pose proof (run_once_ok cfg mode now hist w Hh) as Hr.
  specialize (Hr ltac:(intros t l Htl; apply rnd_mono; eauto) Hmax).
  destruct (next_live w) as [live|e] eqn:Hlive; [|destruct Hr as [-> _]; done].
  destruct (run_once cfg mode now w) as [w' r]. destruct Hr as [[_ Hk _ _] _]. simpl. apply Hk; [|done].
  destruct Hp as [?|[(live'&E&?)|?]]; [by left|right; left; congruence|by right; right].
Qed.

(** A run fails closed and stays within its quota.  It only removes objects,
    at most [max_deletes_per_run] of them, none unless it is a hard sweep; and
    when the live set cannot be computed it reports an error and leaves
    inventory, objects and pins as they were. *)
Theorem gc_run_bounded cfg mode now hist w :
  gc_trace hist w → time_ok now → (∀ t l, (t, l) ∈ hist → t <= now) → 0 <= max_deletes_per_run cfg →
  let w' := (run_once cfg mode now w).1 in
  v_objs (view w') ⊆ v_objs (view w) ∧
  Z.of_nat (size (v_objs (view w) ∖ v_objs (view w'))) <= max_deletes_per_run cfg ∧
  (mode ≠ SweepHard → v_objs (view w') = v_objs (view w)) ∧
  ((∃ e, next_live w = Err e) → view w' = view w ∧ is_ok (run_once cfg mode now w).2 = false).
Proof.
  intros [Hh Ht]%trace_hist Hnow Hle Hmax w'.
  assert (∀ t l, (t, l) ∈ hist → rnd t <= rnd now) as Hpast by (intros t l Htl; apply rnd_mono; eauto).
  pose proof (run_once_ok cfg mode now hist w Hh Hpast Hmax) as Hr.
  destruct (next_live w) as [live|e] eqn:Hlive.
  2:{ unfold w'. destruct Hr as [-> ->]. rewrite difference_diag_L, size_empty. naive_solver. }
  assert (run_end cfg hist live now (view w) w') as [_ _ Ho Hb].
  { unfold w'. destruct (run_once cfg mode now w). apply Hr. }
  split; [done|]. split; [done|]. split; [|naive_solver]. intros Hmode.
  pose proof (run_once_ok (mkGcConfig 0 0 false) mode now hist w Hh Hpast) as Hr0. rewrite Hlive in Hr0.
  assert (run_once (mkGcConfig 0 0 false) mode now w = run_once cfg mode now w) as E.
  { unfold run_once, run_inner. by destruct mode. }
  rewrite E in Hr0. assert (run_end (mkGcConfig 0 0 false) hist live now (view w) w') as [_ _ _ Hb0].
  { unfold w'. destruct (run_once cfg mode now w). apply Hr0. simpl. lia. }
  unfold removed in Hb0. cbn [max_deletes_per_run] in Hb0. assert (size (v_objs (view w) ∖ v_objs (view w')) = 0%nat) as Hs by lia.
  apply size_empty_inv in Hs. apply set_eq. intros k. specialize (Hs k). specialize (Ho k).
  rewrite elem_of_difference in Hs. destruct (decide (k ∈ v_objs (view w'))); naive_solver.
Qed.

End gc.

Section progress.
Context {W : Type} `{GcProgress W}.
Context (cfg : GcCoordinatorConfig) (now : SystemTime) (r : AssetRecord) (bound : Z).
Context (Hpend : already_pending r = true).
Implicit Types (w : W) (v : gc_view).

(** In a steady state a triple has no error case. *)
Lemma triple_sure {A} (m : GcM W A) P (Q : A → W → Prop) R :
  triple P m Q R → sure steady m →
  triple (λ w, P w ∧ steady w) m (λ a w, Q a w ∧ steady w) (λ _, False).
Proof.
  intros Hm Hs w [Hw Hst]. specialize (Hm w Hw). destruct (Hs w Hst) as [Hst' Hok].
  by destruct (m w) as [w' [a|e]].
Qed.

Lemma steady_protected x : sure steady (protected_rec x : GcM W bool).
Proof. intros w Hw. unfold protected_rec. destruct (ar_is_admin_pinned x); [done|by apply steady_pinned]. Qed.
Lemma protected_ok x v :
  triple (λ w, view w = v ∧ steady w) (protected_rec x)
    (λ b w, (view w = v ∧ b = ar_is_admin_pinned x || v_pins v (ar_hash x)) ∧ steady w) (λ _, False).
Proof.
  apply (triple_sure _ _ _ (λ w, view w = v)), steady_protected. unfold protected_rec.
  destruct (ar_is_admin_pinned x); [by apply triple_ret|apply pinned_law].
Qed.

(** The row waits among at most [bound] rows whose objects the store can find. *)
Definition sound_rows v : Prop :=
  ∀ h x, v_inv v !! h = Some x → ar_hash x = h ∧ asset_key x = key_scheme h ∧ addressable h.
Definition waiting w : Prop :=
  v_inv (view w) !! ar_hash r = Some r ∧ Z.of_nat (size (v_inv (view w))) <= bound ∧
  v_pins (view w) (ar_hash r) = false ∧ sound_rows (view w).

Lemma waiting_view w w' : view w' = view w → waiting w → waiting w'.
Proof. intros E. unfold waiting. by rewrite E. Qed.

Lemma soft_step_waiting d x w :
  waiting w → steady w → (ar_hash x = ar_hash r → x = r) →
  match soft_step now d x w with (w', Ok _) => waiting w' ∧ steady w' | (_, Err _) => False end.
Proof.
  intros Hw Hst Hx. unfold soft_step. destruct (already_pending x) eqn:Ep; [done|].
  assert (ar_hash x ≠ ar_hash r) as Hne by (intros ->%Hx; congruence).
  apply (triple_bind _ _ _ _ _ _ (protected_ok x (view w))); [|done]. intros b.
  destruct b; [apply triple_ret; intros w' [[E _] ?]; split; [by apply (waiting_view w)|done]|].
  eapply (triple_bind _ _ _ (λ _ w', view w' = with_inv (view w) (alter (pend (rnd now)) (ar_hash x) (v_inv (view w))) ∧ steady w')).
  - eapply triple_conseq; [apply (triple_sure _ _ _ _ (set_pending_law (ar_hash x) now (view w)) (steady_set_pending _ _))|..];
      [by intros w' [[? _] ?]|done|done].
  - intros u. apply triple_ret. intros w' [E ?]. split; [|done]. destruct Hw as (Hr&Hs&Hp&Hso).
    unfold waiting. rewrite E; simpl. rewrite lookup_alter_ne by done. split; [done|].
    split; [by rewrite <-size_dom, dom_alter_L, size_dom|]. split; [done|].
    intros h y. simpl. rewrite lookup_alter_Some. intros [(<-&y0&Hy&->)|[_ Hy]]; by apply Hso in Hy.
Qed.

Lemma soft_waiting run d :
  triple (λ w, waiting w ∧ steady w) (sweep_soft run now d) (λ _ w, waiting w ∧ steady w) (λ _, False).
Proof.
  intros w [Hw Hst]. unfold sweep_soft.
  apply (triple_bind _ _ (λ w', view w' = view w ∧ steady w')
    (λ l w', (waiting w' ∧ steady w') ∧ ∀ x, x ∈ l → ar_hash x = ar_hash r → x = r)); [| |done].
  - eapply triple_conseq; [apply (triple_sure _ _ _ _ (unmarked_law run (view w)) (steady_unmarked run))|done| |done].
    intros l w' [(E&_&Hl) ?]. split; [split; [by apply (waiting_view w)|done]|].
    intros x (Hx&_)%Hl Eh. destruct Hw as [Hr _]. congruence.
  - intros l. eapply triple_conseq; [apply (triple_for l _ (λ l _ w, (waiting w ∧ steady w) ∧
      ∀ x, x ∈ l → ar_hash x = ar_hash r → x = r) (λ _, False))|done|by intros ? ? [? _]|done].
    intros x rest b w1 [[Hw1 Hst1] Hx].
    pose proof (soft_step_waiting b x w1 Hw1 Hst1 (Hx x (list_elem_of_here _ _))) as Hs.
    destruct (soft_step now b x w1) as [w2 [d'|e]]; [|done]. split; [done|]. intros y Hy. apply Hx. by right.
Qed.

(** One round with quota left disposes of an unprotected candidate. *)
Definition disposed v (x : AssetRecord) (rem : Z) (s : GcRunDelta * Z) w : Prop :=
  v_pins (view w) = v_pins v ∧ rem - 1 <= s.2 ∧ v_objs (view w) ⊆ v_objs v ∧
  (ar_is_admin_pinned x = false → v_pins v (ar_hash x) = false → asset_key x ∉ v_objs (view w)).

Section dispose.
Context (x : AssetRecord) (Hkey : asset_key x = key_scheme (ar_hash x)) (Hadr : addressable (ar_hash x)).

Lemma hard_delete_disposes v d rem :
  triple (λ w, view w = v ∧ steady w) (hard_delete now x d rem)
    (λ s w, disposed v x rem s w ∧ steady w) (λ _, False).
Proof.
  unfold hard_delete. destruct (keyed_parts x Hkey) as [-> ->].
  eapply triple_bind; [apply (triple_sure _ _ _ _ (delete_law _ v) (steady_delete _ Hadr))|]. intros u.
  eapply triple_bind; [apply (triple_sure _ _ _ _ (set_deleted_law _ now _) (steady_set_deleted _ _))|]. intros u'.
  apply triple_ret. intros w' [E ?]. split; [|done]. unfold disposed. rewrite E; simpl.
  split; [done|]. split; [lia|]. split; [set_solver|]. intros _ _. rewrite Hkey. set_solver.
Qed.

Lemma hard_step_disposes v d rem :
  rem ≠ 0 →
  triple (λ w, view w = v ∧ steady w) (hard_step cfg now (d, rem) x)
    (λ s w, disposed v x rem s w ∧ steady w) (λ _, False).
Proof.
  intros Hrem. unfold hard_step. rewrite (proj2 (Z.eqb_neq rem 0)) by done.
  eapply triple_bind; [apply (protected_ok x v)|]. intros b. destruct b.
  { apply triple_ret. intros w [[E Eb] ?]. split; [|done]. unfold disposed; simpl. rewrite E.
    split; [done|]. split; [lia|]. split; [done|]. intros Ha Hp. by rewrite Ha, Hp in Eb. }
  assert (∀ b, triple (λ w, (view w = v ∧ b) ∧ steady w) (hard_delete now x d rem)
    (λ s w, disposed v x rem s w ∧ steady w) (λ _, False)) as Hdel.
  { intros b. eapply triple_conseq; [apply (hard_delete_disposes v d rem)| |done|done]. by intros w [[? _] ?]. }
  destruct (require_head_before_delete cfg); [|apply Hdel]. destruct (keyed_parts x Hkey) as [-> ->].
  eapply (triple_bind _ _ _ (λ y w, (view w = v ∧ y = bool_decide (key_scheme (ar_hash x) ∈ v_objs v)) ∧ steady w)).
  { eapply triple_conseq; [apply (triple_sure _ _ _ _ (head_law _ v) (steady_head _ Hadr))| |done|done].
    by intros w [[? _] ?]. }
  intros y. destruct y; [apply Hdel|].
  eapply (triple_bind _ _ _ (λ _ w, (v_objs (view w) = v_objs v ∧ v_pins (view w) = v_pins v ∧
    key_scheme (ar_hash x) ∉ v_objs v) ∧ steady w)).
  - intros w [[E Ey] Hst]. symmetry in Ey. apply bool_decide_eq_false in Ey.
    pose proof (triple_sure _ _ _ _ (set_deleted_law (ar_hash x) now v) (steady_set_deleted _ _) w (conj E Hst)) as Hd.
    destruct (set_deleted (ar_hash x) now w) as [w' [u|e]]; [|done]. destruct Hd as [-> ?]. done.
  - intros u. apply triple_ret. intros w [(Eo&Ep&Hno) ?]. split; [|done]. unfold disposed. rewrite Eo, Ep, Hkey.
    split; [done|]. split; [simpl; lia|done].
Qed.
End dispose.

(** The hard sweep reaches every candidate when the quota allows. *)
Definition draining (l : list AssetRecord) (s : GcRunDelta * Z) w : Prop :=
  steady w ∧ v_pins (view w) (ar_hash r) = false ∧ Z.of_nat (length l) <= s.2 ∧
  (∀ x, x ∈ l → asset_key x = key_scheme (ar_hash x) ∧ addressable (ar_hash x)) ∧
  (r ∈ l ∨ asset_key r ∉ v_objs (view w)).

Lemma drain_step x rest s :
  ar_is_admin_pinned r = false →
  triple (draining (x :: rest) s) (hard_step cfg now s x) (draining rest) (λ _, False).
Proof.
  intros Ha w (Hst&Hpin&Hrem&Hl&Hor). destruct s as [d rem]. cbn [length fst snd] in Hrem.
  destruct (Hl x (list_elem_of_here _ _)) as [Hk Had].
  pose proof (hard_step_disposes x Hk Had (view w) d rem ltac:(lia) w (conj eq_refl Hst)) as Hx.
  destruct (hard_step cfg now (d, rem) x w) as [w2 [s|e]]; [|done].
  destruct Hx as [(Epin&Hs&Hsub&Hgone) Hst2]. split; [done|]. rewrite Epin. split; [done|]. split; [lia|].
  split; [intros y Hy; apply Hl; by right|].
  destruct Hor as [[->|Hin]%elem_of_cons|Hno]; [right; auto|by left|right; set_solver].
Qed.

Lemma hard_waiting d cutoff p :
  ar_state r = PendingDelete → ar_pending_delete_at r = Some p → ar_is_admin_pinned r = false →
  checked_sub now (grace_window cfg) = Some cutoff → p <= rnd cutoff →
  bound <= max_deletes_per_run cfg → bound <= u64_max →
  triple (λ w, waiting w ∧ steady w) (sweep_hard cfg now d)
    (λ _ w, asset_key r ∉ v_objs (view w) ∧ steady w) (λ _, False).
Proof.
  intros Hst Hp Ha Hc Hle Hmax Hu w [Hw Hsw]. unfold sweep_hard. rewrite Hc. set (s0 := (d, Z.min _ _)).
  apply (triple_bind _ _ (λ w', w' = w) (λ l, draining l s0)); [| |done].
  - intros w' ->. pose proof (triple_sure _ _ _ _ (pending_law cutoff (view w)) (steady_pending cutoff) w (conj eq_refl Hsw)) as Hq.
    pose proof (λ l, pending_complete cutoff w l r p Hsw) as Hc'.
    destruct (iter_pending_older_than cutoff w) as [w' [l|e]]; [|done]. destruct Hq as [(E&Hnd&Hl) Hsw'].
    destruct Hw as (Hr&Hs&Hpin&Hso). specialize (Hc' l eq_refl Hr Hst Hp Hle).
    unfold draining. rewrite E. split; [done|]. split; [done|]. split; [|split; [|by left]].
    + assert (length (ar_hash <$> l) <= size (dom (v_inv (view w))))%nat as Hlen.
      { rewrite <-(size_list_to_set (C:=gset bytes)) by done. apply subseteq_size. intros h.
        rewrite elem_of_list_to_set, list_elem_of_fmap. intros (x&->&(Hx&_)%Hl). apply elem_of_dom. eauto. }
      rewrite length_fmap, size_dom in Hlen. unfold s0. simpl. lia.
    + intros x (Hx&_)%Hl. by apply Hso in Hx as (_&?&?).
  - intros l. eapply (triple_bind _ _ _ (λ s, draining [] s)).
    + apply (triple_for l _ (λ l s, draining l s) (λ _, False)). intros x rest s. by apply drain_step.
    + intros s. apply triple_ret. intros w' (?&_&_&_&[Hin|?]); [by apply not_elem_of_nil in Hin|done].
Qed.
(** Marking the live set leaves the row waiting. *)
Lemma marked_waiting run live v w :
  marked key_scheme run live v (view w) → hist_ok [] v →
  (∀ h, h ∈ live ∨ is_Some (v_inv v !! h) → addressable h) → ar_hash r ∉ live →
  v_inv v !! ar_hash r = Some r → v_pins v (ar_hash r) = false →
  Z.of_nat (size (v_inv v) + length live) <= bound → waiting w.
Proof.
  intros Hm Hh Hadr Hnl Hr Hpin Hb. pose proof (marked_hist _ _ _ _ _ Hm Hh) as [[Hha Hke _] _].
  destruct Hm as (_&Hpins&Hm). split; [|split; [|split]].
  - specialize (Hm (ar_hash r)). rewrite decide_False in Hm by done. by rewrite Hm.
  - etrans; [|exact Hb]. rewrite <-!size_dom. apply Nat2Z.inj_le.
    assert (dom (v_inv (view w)) ⊆ dom (v_inv v) ∪ list_to_set live) as Hsub.
    { intros h. rewrite elem_of_union, elem_of_list_to_set, !elem_of_dom. specialize (Hm h).
      destruct (decide (h ∈ live)); [by right|]. rewrite Hm. by left. }
    apply subseteq_size in Hsub. rewrite size_union_alt in Hsub. pose proof (list_to_set_size_le live).
    assert (size (list_to_set live ∖ dom (v_inv v) : gset bytes) <= size (list_to_set live : gset bytes))%nat
      by (apply subseteq_size; set_solver). lia.
  - by rewrite Hpins.
  - intros h x Hx. split; [by apply Hha in Hx|]. split; [by apply Hke|]. apply Hadr.
    specialize (Hm h). destruct (decide (h ∈ live)); [by left|right]. rewrite <-Hm. eauto.
Qed.
End progress.

(** C25: garbage is collected.  When no backend call fails, a hard sweep succeeds
    and removes the object of every row that has been pending for the grace
    window and is neither pinned nor live, if the quota covers the rows of the
    inventory and the object store accepts their keys. *)
Theorem gc_collects {W} `{GcProgress W} cfg now hist (w w1 : W) run live (r : AssetRecord) cutoff p :
  gc_trace hist w → next_live w = Ok live → ar_hash r ∉ live →
  start_run (mkRunStart SweepHard now) w = (w1, Ok run) → steady w1 →
  (∀ h, h ∈ live ∨ is_Some (v_inv (view w) !! h) → addressable h) →
  v_inv (view w) !! ar_hash r = Some r → ar_state r = PendingDelete → ar_pending_delete_at r = Some p →
  ar_is_admin_pinned r = false → v_pins (view w) (ar_hash r) = false →
  checked_sub now (grace_window cfg) = Some cutoff → p <= rnd cutoff →
  Z.of_nat (size (v_inv (view w)) + length live) <= Z.min (max_deletes_per_run cfg) u64_max →
  ∃ w' d, run_once cfg SweepHard now w = (w', Ok d) ∧ asset_key r ∉ v_objs (view w').
Proof.
  intros [Hh _]%trace_hist Hlive Hnl Hstart Hst1 Hadr Hr Hst Hp Ha Hpin Hc Hle Hmax. unfold run_once. rewrite Hstart.
  destruct (start_law (mkRunStart SweepHard now) w) as [Ev El]. rewrite Hstart in Ev, El. simpl in Ev, El.
  rewrite Hlive in El. set (bound := Z.of_nat (size (v_inv (view w)) + length live)) in *.
  assert (already_pending r = true) as Hpend by (unfold already_pending; by rewrite Hp).
  assert (match run_inner cfg run SweepHard now w1 with
    | (w', Ok _) => asset_key r ∉ v_objs (view w') ∧ steady w' | (_, Err _) => False end) as Ht.
  { unfold run_inner. apply (triple_bind _ _ (λ w', w' = w1) (λ l w', (view w' = view w ∧ l = live) ∧ steady w')); [| |done].
    { intros w2 ->. destruct (collect_law w1) as [E3 E4]. pose proof (steady_collect w1 Hst1).
      destruct (collect_live_hashes w1) as [w3 [l|e]]; simpl in *; [|congruence]. split; [split|]; congruence. }
    intros l. eapply (triple_bind _ _ _ (λ _ w, waiting r bound w ∧ steady w)).
    { intros w2 [[E2 ->] Hst2].
      pose proof (triple_sure _ _ _ _ (batch_law run live now (view w)) (steady_batch _ _ _) w2 (conj E2 Hst2)) as Hb.
      destruct (upsert_active_seen_batch run live now w2) as [w3 [u|e]]; [|done]. destruct Hb as [Hm ?].
      split; [|done]. apply (marked_waiting r bound Hpend run live (view w)); try done. by apply (hist_ok_prefix [] hist). }
    intros u. eapply triple_bind; [by apply soft_waiting|]. intros d1.
    eapply triple_bind; [apply (hard_waiting cfg now r bound) with (cutoff := cutoff) (p := p); try done; lia|].
    intros d2 w2 [Hw2 Hst2]. unfold mbind, se_bind. pose proof (delta_law run d2 w2) as Ed.
    destruct (steady_delta run d2 w2 Hst2) as [Hst3 Hok3].
    destruct (apply_delta run d2 w2) as [w3 [u'|e]]; [|done]. simpl in Ed, Hst3 |- *. by rewrite Ed. }
  destruct (run_inner cfg run SweepHard now w1) as [w2 [d|e]]; [|done]. eexists _, d. split; [done|].
  cbn [fst]. rewrite finish_law. apply Ht.
Qed.
