(* ===== verification/DirStore.v ===== *)
(** The server's durable store (server/store.rs, [DirPersistence]): one SQLite
    table of nodes, and a content-addressed directory of blobs with tombstones.

    The file system and SQLite are a state plus a schedule of the outcomes of
    the coming calls, so that every call may fail; existence tests do not
    consume the schedule.  The zstd codec is a parameter. *)

From S2P Require Import Prelude Hex Op Node Gc.

(** ** Names *)

Definition hex_digit (b : Z) : option Z :=
  if (48 <=? b) && (b <=? 57) then Some (b - 48)
  else if (97 <=? b) && (b <=? 102) then Some (b - 97 + 10)
  else None.
Definition is_canonical_blob_name (name : bytes) : bool :=
  (Z.of_nat (length name) =? 64) && forallb (λ b, bool_decide (is_Some (hex_digit b))) name.
Fixpoint hex_digit_pairs (s : bytes) : option bytes :=
  match s with
  | hi :: lo :: s' =>
      h ← hex_digit hi; l ← hex_digit lo; rest ← hex_digit_pairs s';
      Some (Z.lor (Z.shiftl h 4) l :: rest)
  | _ => Some []
  end.
Definition hash_from_hex (s : bytes) : option Hash :=
  if is_canonical_blob_name s then hex_digit_pairs s else None.

Definition ZST : bytes := bs ".zst".
Definition TMP : bytes := bs ".tmp".
Definition strip_suffix (suf s : bytes) : option bytes :=
  if decide (suf `suffix_of` s) then Some (take (length s - length suf) s) else None.

(** The file names of a hash inside [blobs/blake3] and [.tombstones/blake3]. *)
Definition blob_name (h : Hash) : bytes := to_hex h.
Definition blob_encoded_name (h : Hash) : bytes := to_hex h ++ ZST.
Definition tombstone_name (h : Hash) : bytes := to_hex h.

Inductive BlobEncoding := Identity | ZstdEncoding.
Definition parse_blob_entry_name (name : bytes) : option (Hash * BlobEncoding) :=
  match strip_suffix ZST name with
  | Some stem => (λ h, (h, ZstdEncoding)) <$> hash_from_hex stem
  | None => (λ h, (h, Identity)) <$> hash_from_hex name
  end.
Definition is_canonical_blob_name_v3 (name : bytes) : bool := bool_decide (is_Some (parse_blob_entry_name name)).

(** ** State *)

Record NodeRow := mkRow { row_room : bytes; row_node_id : NodeId; row_bytes : bytes; row_seq : Z }.

Record DirState := mkDir {
  dir_nodes : list NodeRow;
  dir_last_seq : Z;
  dir_blobs : gmap bytes bytes;
  dir_tombs : gmap bytes SystemTime;
  dir_io : list (option nat);
}.
Definition dir_empty : DirState := mkDir [] 0 ∅ ∅ [].

Definition with_nodes (s : DirState) (ns : list NodeRow) (q : Z) : DirState :=
  mkDir ns q (dir_blobs s) (dir_tombs s) (dir_io s).
Definition with_blobs (s : DirState) (m : gmap bytes bytes) : DirState :=
  mkDir (dir_nodes s) (dir_last_seq s) m (dir_tombs s) (dir_io s).
Definition with_tombs (s : DirState) (m : gmap bytes SystemTime) : DirState :=
  mkDir (dir_nodes s) (dir_last_seq s) (dir_blobs s) m (dir_io s).

(** The outcome of the next call: [None] is success, [Some n] an error after
    [n] bytes of a write.  An empty schedule means that nothing fails any more. *)
Definition io (s : DirState) : option nat * DirState :=
  match dir_io s with
  | [] => (None, s)
  | o :: rest => (o, mkDir (dir_nodes s) (dir_last_seq s) (dir_blobs s) (dir_tombs s) rest)
  end.

(** [fs::write], [fs::rename] and [fs::remove_file] in the blob directory. *)
Definition fs_write (name b : bytes) (s : DirState) : bool * DirState :=
  match io s with
  | (None, s) => (true, with_blobs s (<[name := b]> (dir_blobs s)))
  | (Some n, s) => (false, with_blobs s (<[name := take n b]> (dir_blobs s)))
  end.
Definition fs_rename (src dst : bytes) (s : DirState) : bool * DirState :=
  match io s with
  | (Some _, s) => (false, s)
  | (None, s) =>
      match dir_blobs s !! src with
      | None => (false, s)
      | Some b => (true, with_blobs s (<[dst := b]> (delete src (dir_blobs s))))
      end
  end.
Definition fs_remove (name : bytes) (s : DirState) : bool * DirState :=
  match io s with
  | (Some _, s) => (false, s)
  | (None, s) =>
      match dir_blobs s !! name with
      | None => (false, s)
      | Some _ => (true, with_blobs s (delete name (dir_blobs s)))
      end
  end.
Definition fs_remove_tomb (name : bytes) (s : DirState) : DirState :=
  match io s with
  | (Some _, s) => s
  | (None, s) => with_tombs s (delete name (dir_tombs s))
  end.
Definition fs_read (name : bytes) (s : DirState) : option bytes * DirState :=
  match io s with
  | (Some _, s) => (None, s)
  | (None, s) => (dir_blobs s !! name, s)
  end.

(** ** Blobs *)

(** [zstd::stream::encode_all] and [decode_all]. *)
Class Zstd := {
  zstd_encode : Z → bytes → option bytes;
  zstd_decode : bytes → option bytes;
}.
Class ZstdLaws `{Zstd} := zstd_roundtrip : ∀ l b c, zstd_encode l b = Some c → zstd_decode c = Some b.

Record BlobCompressionConfig := mkCompression { comp_enabled : bool; comp_level : Z; comp_min_bytes : Z }.
Definition compression_default : BlobCompressionConfig := mkCompression false 3 4096.

Inductive PersistBlobError := PersistBackend (m : bytes) | PersistUnavailable (m : bytes).

Section blobs.
Context `{Blake3, Zstd}.
Implicit Types (s : DirState) (h : Hash).

Definition has_blob s h : bool :=
  bool_decide (is_Some (dir_blobs s !! blob_name h)) || bool_decide (is_Some (dir_blobs s !! blob_encoded_name h)).

(** [get_blob]: both forms are verified against the hash. *)
Definition get_blob s h : option bytes * DirState :=
  match fs_read (blob_name h) s with
  | (Some b, s) => (if decide (blake3_hash b = h) then Some b else None, s)
  | (None, s) =>
      match fs_read (blob_encoded_name h) s with
      | (None, s) => (None, s)
      | (Some c, s) =>
          (match zstd_decode c with
           | None => None
           | Some b => if decide (blake3_hash b = h) then Some b else None
           end, s)
      end
  end.
Definition get_blob_encoded s h : option (bytes * bytes) * DirState :=
  let '(r, s) := fs_read (blob_encoded_name h) s in ((λ b, (b, bs "zstd")) <$> r, s).

(** [should_compress_blob]; the lengths are small enough for the comparison of
    the quotient with 0.98 to be exact. *)
Definition should_compress_blob (b : bytes) (cfg : BlobCompressionConfig) : bool :=
  if Z.of_nat (length b) <? comp_min_bytes cfg then false
  else
    let sample := take (64 * 1024) b in
    match zstd_encode (comp_level cfg) sample with
    | Some c => (0 <? Z.of_nat (length sample)) && (50 * Z.of_nat (length c) <=? 49 * Z.of_nat (length sample))
    | None => false
    end.

(** The identity write of [persist_blob]: a temporary file, then a rename. *)
Definition persist_identity s h (b : bytes) : DirState * result PersistBlobError unit :=
  let tmp := to_hex h ++ TMP in
  let '(wrote, s) := fs_write tmp b s in
  if negb wrote then (s, Err (PersistBackend (bs "write tmp")))
  else
    let '(renamed, s) := fs_rename tmp (blob_name h) s in
    if renamed then (s, Ok tt)
    else ((fs_remove tmp s).2, Err (PersistBackend (bs "rename into place"))).

(** [persist_blob]. *)
Definition persist_blob (cfg : BlobCompressionConfig) s h (b : bytes) : DirState * result PersistBlobError unit :=
  let '(made, s) := io s in
  match made with
  | Some _ => (s, Err (PersistBackend (bs "create_dir_all")))
  | None =>
      if has_blob s h then (s, Ok tt)
      else if comp_enabled cfg && should_compress_blob b cfg then
        match zstd_encode (comp_level cfg) b with
        | None => persist_identity s h b
        | Some c =>
            let tmp := to_hex h ++ ZST ++ TMP in
            let '(wrote, s) := fs_write tmp c s in
            if wrote then
              let '(renamed, s) := fs_rename tmp (blob_encoded_name h) s in
              if renamed then (s, Ok tt) else persist_identity (fs_remove tmp s).2 h b
            else persist_identity (fs_remove tmp s).2 h b
        end
      else persist_identity s h b
  end.

(** ** The sweep

    [blob_gc_sweep] over the entries [names] of the blob directory, in the order
    the directory lists them. *)

(** The age of a tombstone; [None] when its time lies in the future. *)
Definition aged (now : SystemTime) (grace : Duration) (m : SystemTime) : bool :=
  (m <=? now) && (grace <=? now - m).

Definition sweep_delete (name tomb : bytes) s (deleted : Z) : DirState * Z :=
  let '(removed, s) := fs_remove name s in
  if negb removed then (s, deleted) else (fs_remove_tomb tomb s, deleted + 1).

Definition sweep_entry (live : gset Hash) (now : SystemTime) (grace : Duration)
    (sd : DirState * Z) (name : bytes) : DirState * Z :=
  let '(s, deleted) := sd in
  if decide (TMP `suffix_of` name) then (s, deleted)
  else
    match parse_blob_entry_name name with
    | None => (s, deleted)
    | Some (h, _) =>
        let tomb := tombstone_name h in
        if decide (h ∈ live) then
          (if decide (is_Some (dir_tombs s !! tomb)) then fs_remove_tomb tomb s else s, deleted)
        else
          let '(meta, s) := io s in
          match meta, dir_tombs s !! tomb with
          | None, Some m => if aged now grace m then sweep_delete name tomb s deleted else (s, deleted)
          | _, _ =>
              let '(made, s) := io s in
              match made with
              | Some _ => (s, deleted)
              | None =>
                  let '(created, s) := io s in
                  match created with
                  | Some _ => (s, deleted)
                  | None =>
                      let s := with_tombs s (<[tomb := now]> (dir_tombs s)) in
                      if grace =? 0 then sweep_delete name tomb s deleted else (s, deleted)
                  end
              end
          end
    end.
Definition blob_gc_sweep (live : gset Hash) (now : SystemTime) (grace : Duration) (names : list bytes)
    s : DirState * Z :=
  let '(opened, s) := io s in
  match opened with
  | Some _ => (s, 0)
  | None => foldl (sweep_entry live now grace) (s, 0) names
  end.
End blobs.

(** ** Nodes *)

Section nodes.
Context `{Postcard (list WireNode)}.
Implicit Types (s : DirState).

(** [INSERT OR IGNORE]: a row with the same room and node id stays. *)
Definition insert_or_ignore (rows : list NodeRow) (q : Z) (room : bytes) (id : NodeId) (b : bytes) : list NodeRow * Z :=
  if decide (Exists (λ r, row_room r = room ∧ row_node_id r = id) rows) then (rows, q)
  else (rows ++ [mkRow room id b (q + 1)], q + 1).
Definition insert_row s (room : bytes) (id : NodeId) (b : bytes) : DirState :=
  let '(rows, q) := insert_or_ignore (dir_nodes s) (dir_last_seq s) room id b in with_nodes s rows q.
(** One statement outside a transaction. *)
Definition insert_autocommit s (room : bytes) (id : NodeId) (b : bytes) : DirState :=
  match io s with (Some _, s) => s | (None, s) => insert_row s room id b end.

Definition persist_node s (room : bytes) (n : SyncNode) : DirState :=
  insert_autocommit s room (node_id n) (pack_nodes [n]).

(** [persist_nodes]: one transaction; a failed statement is skipped, a failed
    commit rolls back, and a failed begin falls back to single statements. *)
Definition persist_nodes s (room : bytes) (ns : list SyncNode) : DirState :=
  match ns with
  | [] => s
  | _ =>
      let '(began, s) := io s in
      match began with
      | Some _ => foldl (λ s n, insert_autocommit s room (node_id n) (pack_nodes [n])) s ns
      | None =>
          let '(prepared, s) := io s in
          match prepared with
          | Some _ => s
          | None =>
              let t := foldl (λ s n, insert_autocommit s room (node_id n) (pack_nodes [n])) s ns in
              match io t with
              | (None, t) => t
              | (Some _, t) => mkDir (dir_nodes s) (dir_last_seq s) (dir_blobs s) (dir_tombs s) (dir_io t)
              end
          end
      end
  end.

(** Rows in [seq] order; the table only grows at its end. *)
Definition load_rows s (room : bytes) : list NodeRow := filter (λ r, row_room r = room) (dir_nodes s).
Definition row_node (r : NodeRow) : option SyncNode :=
  match unpack_nodes (row_bytes r) with Ok [n] => Some n | _ => None end.
Definition load_room_nodes s (room : bytes) : list SyncNode * DirState :=
  match io s with
  | (Some _, s) => ([], s)
  | (None, s) => (omap row_node (load_rows s room), s)
  end.
Definition known_room_ids s : list bytes * DirState :=
  match io s with
  | (Some _, s) => ([], s)
  | (None, s) => (remove_dups (row_room <$> dir_nodes s), s)
  end.
Definition room_nodes_version s (room : bytes) : option Z * DirState :=
  match io s with
  | (Some _, s) => (None, s)
  | (None, s) =>
      (match load_rows s room with
       | [] => None
       | r :: rs => Some (Z.max 0 (foldr Z.max (row_seq r) (row_seq <$> rs)))
       end, s)
  end.
End nodes.

(** ** Facts on names *)

Lemma hex_digit_char n : 0 <= n < 16 → hex_digit (hex_char n) = Some n.
Proof.
  intros Hn. unfold hex_digit, hex_char. destruct (Z.ltb_spec n 10).
  - rewrite (proj2 (Z.leb_le 48 (48 + n))), (proj2 (Z.leb_le (48 + n) 57)) by lia. simpl. f_equal. lia.
  - rewrite (proj2 (Z.leb_gt (87 + n) 57)), andb_false_r by lia.
    rewrite (proj2 (Z.leb_le 97 (87 + n))), (proj2 (Z.leb_le (87 + n) 102)) by lia. simpl. f_equal. lia.
Qed.
Lemma hex_digit_inv b n : hex_digit b = Some n → 0 <= n < 16 ∧ b = hex_char n.
Proof.
  unfold hex_digit, hex_char. destruct (Z.leb_spec 48 b), (Z.leb_spec b 57); simpl; intros E; simplify_eq;
    [rewrite (proj2 (Z.ltb_lt _ _)) by lia; lia|..];
    destruct (Z.leb_spec 97 b), (Z.leb_spec b 102); simpl in E; simplify_eq;
    (rewrite (proj2 (Z.ltb_ge _ _)) by lia); lia.
Qed.

Lemma hex_digit_pairs_to_hex b : Forall is_u8 b → hex_digit_pairs (to_hex b) = Some b.
Proof.
  induction 1 as [|x b Hx _ IH]; [done|]. cbn [to_hex mbind list_bind hex_byte app hex_digit_pairs].
  destruct (byte_split x Hx). rewrite !hex_digit_char by done. simpl. fold (to_hex b).
  rewrite IH. simpl. by rewrite byte_join.
Qed.

Lemma nibbles_join h l : 0 <= h < 16 → 0 <= l < 16 →
  is_u8 (Z.lor (Z.shiftl h 4) l) ∧ Z.lor (Z.shiftl h 4) l / 16 = h ∧ Z.lor (Z.shiftl h 4) l mod 16 = l.
Proof.
  intros Hh Hl. assert (is_u8 (h * 16 + l)) as Hu by (unfold is_u8; lia).
  assert ((h * 16 + l) / 16 = h) as Ed by (rewrite Z.div_add_l, Z.div_small by lia; lia).
  assert ((h * 16 + l) mod 16 = l) as Em by (rewrite Z.add_comm, Z.mod_add, Z.mod_small by lia; done).
  assert (Z.lor (Z.shiftl h 4) l = h * 16 + l) as ->; [|done].
  pose proof (byte_join _ Hu) as Hj. by rewrite Ed, Em in Hj.
Qed.

Lemma hex_digit_pairs_inv n s h :
  length s = (n * 2)%nat → hex_digit_pairs s = Some h → s = to_hex h ∧ Forall is_u8 h.
Proof.
  revert s h. induction n as [|n IH]; intros [|x [|y s]] h Hl; simplify_eq/=; [by intros [= <-]|].
  destruct (hex_digit x) as [a|] eqn:Ea; [|done]. destruct (hex_digit y) as [c|] eqn:Ec; [|done]. simpl.
  destruct (hex_digit_pairs s) as [rest|] eqn:Er; [|done]. simpl. intros [= <-].
  apply hex_digit_inv in Ea as [Ha ->], Ec as [Hc ->]. destruct (IH s rest) as [-> Hr]; [lia|done|].
  destruct (nibbles_join a c Ha Hc) as (Hu&Hd&Hm). split; [|by constructor].
  unfold to_hex. cbn [mbind list_bind]. unfold hex_byte. rewrite Hd, Hm. done.
Qed.

Lemma to_hex_canonical h : byte_array 32 h → is_canonical_blob_name (to_hex h) = true.
Proof.
  intros [Hl Hb]. unfold is_canonical_blob_name. rewrite length_to_hex, Hl. simpl.
  apply forallb_forall. intros x Hx%list_elem_of_In. apply bool_decide_eq_true.
  unfold to_hex in Hx. apply list_elem_of_bind in Hx as (y&Hx&Hy). rewrite Forall_forall in Hb.
  destruct (byte_split y (Hb y Hy)). unfold hex_byte in Hx. rewrite !elem_of_cons, elem_of_nil in Hx.
  destruct Hx as [->|[->|[]]]; rewrite hex_digit_char by done; eauto.
Qed.

Lemma hash_from_hex_to_hex h : byte_array 32 h → hash_from_hex (to_hex h) = Some h.
Proof.
  intros Hh. unfold hash_from_hex. rewrite to_hex_canonical by done. by apply hex_digit_pairs_to_hex, Hh.
Qed.
Lemma hash_from_hex_inv s h : hash_from_hex s = Some h → s = to_hex h ∧ byte_array 32 h.
Proof.
  unfold hash_from_hex, is_canonical_blob_name. destruct (Z.eqb_spec (Z.of_nat (length s)) 64) as [Hl|]; [|done].
  destruct (forallb _ s); [|done]. simpl. intros E. assert (length s = 64%nat) as Hl' by lia.
  apply (hex_digit_pairs_inv 32) in E as [-> Hb]; [|done].
  split; [done|]. split; [|done]. rewrite length_to_hex in Hl'. lia.
Qed.
Lemma hash_from_hex_length s h : hash_from_hex s = Some h → length s = 64%nat.
Proof. intros [-> [Hl _]]%hash_from_hex_inv. rewrite length_to_hex. lia. Qed.

Lemma suffix_chars (suf s : bytes) (x : Z) : suf `suffix_of` s → x ∈ suf → x ∈ s.
Proof. intros [k ->] Hx. apply elem_of_app. by right. Qed.
Lemma to_hex_no_dot h : Forall is_u8 h → 46 ∉ to_hex h.
Proof.
  intros Hb Hin. unfold to_hex in Hin. apply list_elem_of_bind in Hin as (y&Hx&Hy). rewrite Forall_forall in Hb.
  destruct (byte_split y (Hb y Hy)). unfold hex_byte, hex_char in Hx. rewrite !elem_of_cons, elem_of_nil in Hx.
  destruct Hx as [E|[E|[]]]; [destruct (y / 16 <? 10)|destruct (y mod 16 <? 10)]; lia.
Qed.

Lemma strip_suffix_app suf s : strip_suffix suf (s ++ suf) = Some s.
Proof.
  unfold strip_suffix. rewrite decide_True by (by exists s).
  rewrite length_app, Nat.add_sub. by rewrite take_app_length.
Qed.
Lemma strip_suffix_inv suf s k : strip_suffix suf s = Some k → s = k ++ suf.
Proof.
  unfold strip_suffix. case_decide as Hs; [|done]. destruct Hs as [k' ->]. intros [= <-].
  by rewrite length_app, Nat.add_sub, take_app_length.
Qed.

Lemma parse_identity h : byte_array 32 h → parse_blob_entry_name (blob_name h) = Some (h, Identity).
Proof.
  intros Hh. unfold parse_blob_entry_name, blob_name. destruct (strip_suffix ZST (to_hex h)) as [k|] eqn:E.
  - apply strip_suffix_inv in E. destruct (to_hex_no_dot h); [apply Hh|]. rewrite E. apply elem_of_app. right. by left.
  - by rewrite hash_from_hex_to_hex.
Qed.
Lemma parse_encoded h : byte_array 32 h → parse_blob_entry_name (blob_encoded_name h) = Some (h, ZstdEncoding).
Proof.
  intros Hh. unfold parse_blob_entry_name, blob_encoded_name. rewrite strip_suffix_app.
  by rewrite hash_from_hex_to_hex.
Qed.
Lemma parse_name_inv name h e :
  parse_blob_entry_name name = Some (h, e) →
  byte_array 32 h ∧ name = match e with Identity => blob_name h | ZstdEncoding => blob_encoded_name h end.
Proof.
  unfold parse_blob_entry_name. destruct (strip_suffix ZST name) as [k|] eqn:E.
  - apply strip_suffix_inv in E as ->. destruct (hash_from_hex k) as [h'|] eqn:Eh; [|done].
    intros [= -> <-]. by apply hash_from_hex_inv in Eh as [-> ?].
  - destruct (hash_from_hex name) as [h'|] eqn:Eh; [|done]. intros [= -> <-]. by apply hash_from_hex_inv in Eh as [-> ?].
Qed.
Lemma tmp_foreign name : TMP `suffix_of` name → parse_blob_entry_name name = None.
Proof.
  intros [k ->]. destruct (parse_blob_entry_name _) as [[h e]|] eqn:E; [|done].
  apply parse_name_inv in E as [Hh E]. exfalso.
  assert (last (k ++ TMP) = Some 112) as Hl by (rewrite last_app; done). rewrite E in Hl. destruct e.
  - apply last_Some in Hl as [l' El]. destruct (hex_digit 112) eqn:Ed; [done|].
    assert (112 ∈ to_hex h) as Hin by (unfold blob_name in El; rewrite El; apply elem_of_app; right; by left).
    pose proof (to_hex_canonical h Hh) as Hc. unfold is_canonical_blob_name in Hc.
    apply andb_true_iff in Hc as [_ Hc]. rewrite forallb_forall in Hc.
    apply list_elem_of_In, Hc, bool_decide_eq_true in Hin as [? Hin]. congruence.
  - unfold blob_encoded_name in Hl. rewrite last_app in Hl. done.
Qed.
