(* ===== verification/GcStore.v ===== *)
(** The server's backends of the garbage collector: the SQLite ledger
    (gc_store.rs), the static pins (gc_pin_store.rs), the local object store
    (gc_blob_objects.rs), the precomputed live set and the union of live-set
    sources (gc_service.rs), and the no-op backends of the preflight
    (gc_adapter.rs).

    One world holds them all.  The blob directory of [DirStore] is shared with the
    durable store, and its schedule of outcomes also decides whether a SQLite call
    fails.  The order in which SQLite returns rows is a parameter. *)

From S2P Require Import Prelude Str StErr Hex Op Node Gc DirStore.

(** ** Times

    [to_unix_millis] truncates the [u128] of milliseconds to an [i64]. *)

Definition to_unix_millis (t : SystemTime) : Z :=
  if 0 <=? t then wrap_i64 (t / 10 ^ 6) else wrap_i64 (- wrap_i64 (- t / 10 ^ 6)).
Definition from_unix_millis (ms : Z) : SystemTime := ms * 10 ^ 6.

(** ** Tables *)

Definition state_from_str (s : bytes) : AssetState :=
  if decide (s = bs "Uploading") then Uploading
  else if decide (s = bs "Grace") then Grace
  else if decide (s = bs "SweepCandidate") then SweepCandidate
  else if decide (s = bs "Pinned") then Pinned
  else if decide (s = bs "PendingDelete") then PendingDelete
  else if decide (s = bs "Deleted") then Deleted
  else if decide (s = bs "Quarantined") then Quarantined
  else Active.
Definition mode_to_str (m : GcRunMode) : bytes :=
  match m with
  | DryRun => bs "DryRun" | MarkOnly => bs "MarkOnly" | SweepSoft => bs "SweepSoft" | SweepHard => bs "SweepHard"
  end.
Definition status_to_str (s : GcRunStatus) : bytes :=
  match s with RunRunning => bs "Running" | RunSucceeded => bs "Succeeded" | RunFailed => bs "Failed" end.

(** A row of [gc_assets] without its primary key. *)
Record AssetRow := mkAssetRow {
  rw_object_key : bytes;
  rw_bucket : bytes;
  rw_namespace : bytes;
  rw_first_seen_at : Z;
  rw_last_seen_at : Z;
  rw_state : bytes;
  rw_pending_delete_at : option Z;
  rw_deleted_at : option Z;
  rw_last_marked_run_id : option bytes;
  rw_mark_count : Z;
  rw_size_bytes : option Z;
  rw_content_type : option bytes;
  rw_is_admin_pinned : Z;
  rw_pin_reason : option bytes;
  rw_updated_at : Z;
}.
Definition row_to_record (h : bytes) (r : AssetRow) : AssetRecord :=
  mkAsset h (rw_object_key r) (rw_bucket r) (rw_namespace r)
    (from_unix_millis (rw_first_seen_at r)) (from_unix_millis (rw_last_seen_at r))
    (state_from_str (rw_state r)) (from_unix_millis <$> rw_pending_delete_at r)
    (from_unix_millis <$> rw_deleted_at r) (rw_last_marked_run_id r) (Z.max 0 (rw_mark_count r))
    (Z.max 0 <$> rw_size_bytes r) (rw_content_type r) (negb (rw_is_admin_pinned r =? 0))
    (rw_pin_reason r) (from_unix_millis (rw_updated_at r)).

(** A row of [gc_runs] without its primary key. *)
Record RunRow := mkRunRow {
  rr_mode : bytes;
  rr_started_at : Z;
  rr_finished_at : option Z;
  rr_status : option bytes;
  rr_marked : Z;
  rr_newly_pending : Z;
  rr_hard_deleted : Z;
  rr_skipped_pinned : Z;
  rr_error : Z;
  rr_notes : option bytes;
}.

(** ** The world *)

Record GcWorld := mkGcWorld {
  gw_assets : gmap bytes AssetRow;
  gw_runs : gmap bytes RunRow;
  gw_counter : Z;                                    (* RUN_ID_COUNTER *)
  gw_clock : SystemTime;                             (* SystemTime::now *)
  gw_pins : gset bytes;                              (* StaticPinStore *)
  gw_live : option (result GcError (list bytes));    (* PrecomputedLiveHashSource *)
  gw_dir : DirState;                                 (* the store root *)
}.
Definition set_assets (w : GcWorld) (m : gmap bytes AssetRow) : GcWorld :=
  mkGcWorld m (gw_runs w) (gw_counter w) (gw_clock w) (gw_pins w) (gw_live w) (gw_dir w).
Definition set_runs (w : GcWorld) (m : gmap bytes RunRow) : GcWorld :=
  mkGcWorld (gw_assets w) m (gw_counter w) (gw_clock w) (gw_pins w) (gw_live w) (gw_dir w).
Definition set_dir (w : GcWorld) (d : DirState) : GcWorld :=
  mkGcWorld (gw_assets w) (gw_runs w) (gw_counter w) (gw_clock w) (gw_pins w) (gw_live w) d.
Definition set_live (w : GcWorld) (l : option (result GcError (list bytes))) : GcWorld :=
  mkGcWorld (gw_assets w) (gw_runs w) (gw_counter w) (gw_clock w) (gw_pins w) l (gw_dir w).

(** The outcome of one SQLite call. *)
Definition sqlite : GcM GcWorld unit := λ w,
  match io (gw_dir w) with
  | (None, d) => (set_dir w d, Ok tt)
  | (Some _, d) => (set_dir w d, Err (Backend (bs "sqlite")))
  end.
(** How many rows of a result the cursor yields before an error, which
    [flatten] drops together with the rows after it. *)
Definition cursor {A} (l : list A) : GcM GcWorld (list A) := λ w,
  match io (gw_dir w) with
  | (None, d) => (set_dir w d, Ok l)
  | (Some n, d) => (set_dir w d, Ok (take n l))
  end.

(** The order in which SQLite returns rows. *)
Class SqlOrder := sql_order : list (bytes * AssetRow) → list (bytes * AssetRow).
Class SqlOrderLaws `{SqlOrder} := sql_order_perm : ∀ l, sql_order l ≡ₚ l.

(** ** SqliteGcStore *)

Abbreviation KeyScheme := (bytes → bytes * bytes).
Definition local_key_scheme : KeyScheme := λ h, (bs "local", h).

Section sqlite.
Context `{SqlOrder} (key_scheme : KeyScheme).

(** [UPSERT_ACTIVE_SEEN_SQL]: a conflict keeps the key, the pin and the deletion time. *)
Definition upsert_sql (h run_id : bytes) (now_ms : Z) (m : gmap bytes AssetRow) : gmap bytes AssetRow :=
  let '(bucket, object_key) := key_scheme h in
  <[h := match m !! h with
         | None => mkAssetRow object_key bucket (bs "blobs") now_ms now_ms (bs "Active") None None
                     (Some run_id) 1 None None 0 None now_ms
         | Some r => mkAssetRow (rw_object_key r) (rw_bucket r) (rw_namespace r) (rw_first_seen_at r) now_ms
                       (bs "Active") None (rw_deleted_at r) (Some run_id) (rw_mark_count r + 1)
                       (rw_size_bytes r) (rw_content_type r) (rw_is_admin_pinned r) (rw_pin_reason r) now_ms
         end]> m.

Definition sql_upsert (run_id h : bytes) (now : SystemTime) : GcM GcWorld unit :=
  _ ← sqlite; modify (λ w, set_assets w (upsert_sql h run_id (to_unix_millis now) (gw_assets w))).

(** A transaction that is dropped before its commit rolls back. *)
Definition rollback_on_error {A} (m : GcM GcWorld A) : GcM GcWorld A := λ w,
  match m w with
  | (w', Ok a) => (w', Ok a)
  | (w', Err e) => (set_assets w' (gw_assets w), Err e)
  end.
Definition sql_upsert_batch (run_id : bytes) (hashes : list bytes) (now : SystemTime) : GcM GcWorld unit :=
  match hashes with
  | [] => mret tt
  | _ =>
      _ ← sqlite;
      rollback_on_error (
        _ ← sqlite;
        _ ← for_each hashes (λ _ h, sql_upsert run_id h now) tt;
        sqlite)
  end.

Definition select (p : AssetRow → bool) (w : GcWorld) : list (bytes * AssetRow) :=
  sql_order (filter (λ hr, p hr.2 = true) (map_to_list (gw_assets w))).
Definition records (l : list (bytes * AssetRow)) : list AssetRecord := (λ hr, row_to_record hr.1 hr.2) <$> l.

Definition sql_unmarked (run_id : bytes) : GcM GcWorld (list AssetRecord) :=
  _ ← sqlite;
  l ← read (select (λ r, negb (bool_decide (rw_state r = bs "Deleted")) &&
         negb (bool_decide (rw_last_marked_run_id r = Some run_id))));
  l ← cursor l; mret (records l).
Definition sql_pending (cutoff : SystemTime) : GcM GcWorld (list AssetRecord) :=
  let cutoff_ms := to_unix_millis cutoff in
  _ ← sqlite;
  l ← read (select (λ r, bool_decide (rw_state r = bs "PendingDelete") &&
         match rw_pending_delete_at r with Some p => p <=? cutoff_ms | None => false end));
  l ← cursor l; mret (records l).

Definition pending_row (at_ms : Z) (r : AssetRow) : AssetRow :=
  mkAssetRow (rw_object_key r) (rw_bucket r) (rw_namespace r) (rw_first_seen_at r) (rw_last_seen_at r)
    (bs "PendingDelete") (Some at_ms) (rw_deleted_at r) (rw_last_marked_run_id r) (rw_mark_count r)
    (rw_size_bytes r) (rw_content_type r) (rw_is_admin_pinned r) (rw_pin_reason r) at_ms.
Definition deleted_row (at_ms : Z) (r : AssetRow) : AssetRow :=
  mkAssetRow (rw_object_key r) (rw_bucket r) (rw_namespace r) (rw_first_seen_at r) (rw_last_seen_at r)
    (bs "Deleted") (rw_pending_delete_at r) (Some at_ms) (rw_last_marked_run_id r) (rw_mark_count r)
    (rw_size_bytes r) (rw_content_type r) (rw_is_admin_pinned r) (rw_pin_reason r) at_ms.
Definition cleared_row (r : AssetRow) : AssetRow :=
  mkAssetRow (rw_object_key r) (rw_bucket r) (rw_namespace r) (rw_first_seen_at r) (rw_last_seen_at r)
    (bs "Active") None (rw_deleted_at r) (rw_last_marked_run_id r) (rw_mark_count r)
    (rw_size_bytes r) (rw_content_type r) (rw_is_admin_pinned r) (rw_pin_reason r) (rw_updated_at r).
(** [UPDATE gc_assets SET .. WHERE hash = ?]. *)
Definition sql_update (h : bytes) (f : AssetRow → AssetRow) : GcM GcWorld unit :=
  _ ← sqlite; modify (λ w, set_assets w (alter f h (gw_assets w))).
Definition sql_set_pending (h : bytes) (t : SystemTime) : GcM GcWorld unit :=
  sql_update h (pending_row (to_unix_millis t)).
Definition sql_set_deleted (h : bytes) (t : SystemTime) : GcM GcWorld unit :=
  sql_update h (deleted_row (to_unix_millis t)).
Definition sql_clear_pending (h : bytes) : GcM GcWorld unit := sql_update h cleared_row.

(** *** Runs *)

Definition generate_run_id (w : GcWorld) : bytes :=
  bs "gc-" ++ digits 128 10 (Z.max 0 (gw_clock w) / 10 ^ 6) ++ bs "-" ++ digits 64 16 (gw_counter w).
Definition bump_counter (w : GcWorld) : GcWorld :=
  mkGcWorld (gw_assets w) (gw_runs w) (wrap_add64 (gw_counter w) 1) (gw_clock w) (gw_pins w) (gw_live w) (gw_dir w).

(** [start_run]: a second row with the same id breaks the primary key. *)
Definition sql_start_run (start : GcRunStart) : GcM GcWorld bytes :=
  run_id ← read generate_run_id;
  _ ← modify bump_counter;
  _ ← sqlite;
  runs ← read gw_runs;
  if decide (is_Some (runs !! run_id)) then throw (Backend (bs "UNIQUE constraint failed: gc_runs.run_id"))
  else
    _ ← modify (λ w, set_runs w (<[run_id :=
          mkRunRow (mode_to_str (rs_mode start)) (to_unix_millis (rs_started_at start)) None None 0 0 0 0 0 None]> (gw_runs w)));
    mret run_id.
Definition sql_apply_delta (run_id : bytes) (d : GcRunDelta) : GcM GcWorld unit :=
  _ ← sqlite;
  modify (λ w, set_runs w (alter (λ r,
    mkRunRow (rr_mode r) (rr_started_at r) (rr_finished_at r) (rr_status r)
      (rr_marked r + wrap_i64 (marked_count d)) (rr_newly_pending r + wrap_i64 (newly_pending_count d))
      (rr_hard_deleted r + wrap_i64 (hard_deleted_count d)) (rr_skipped_pinned r + wrap_i64 (skipped_pinned_count d))
      (rr_error r + wrap_i64 (error_count d)) (rr_notes r)) run_id (gw_runs w))).
Definition sql_finish_run (run_id : bytes) (f : GcRunFinish) : GcM GcWorld unit :=
  _ ← sqlite;
  modify (λ w, set_runs w (alter (λ r,
    mkRunRow (rr_mode r) (rr_started_at r) (Some (to_unix_millis (rf_finished_at f)))
      (Some (status_to_str (rf_status f))) (rr_marked r) (rr_newly_pending r) (rr_hard_deleted r)
      (rr_skipped_pinned r) (rr_error r) (rf_notes f)) run_id (gw_runs w))).

(** [run_status] and [asset_state]. *)
Definition run_status (run_id : bytes) (w : GcWorld) : option bytes := gw_runs w !! run_id ≫= rr_status.
Definition asset_state (h : bytes) (w : GcWorld) : option AssetState := state_from_str ∘ rw_state <$> gw_assets w !! h.
End sqlite.

(** ** Pins *)

Definition pins_new (l : list bytes) : gset bytes := list_to_set (to_lowercase <$> l).
Definition pins_of_env (env : option bytes) : gset bytes :=
  match env with
  | None => ∅
  | Some e => pins_new (filter (λ t, t ≠ []) (trim <$> split_on 44 e))
  end.
(** The loop over [args[1..]]: it steps by one, so the value of a flag is looked at again. *)
Fixpoint pins_of_args (args : list bytes) : gset bytes :=
  match args with
  | [] => ∅
  | a :: rest =>
      (if decide (a = bs "--gc-admin-pin") then
         match rest with v :: _ => {[to_lowercase v]} | [] => ∅ end
       else match strip_prefix (bs "--gc-admin-pin=") a with
            | Some v => {[to_lowercase v]} | None => ∅
            end) ∪ pins_of_args rest
  end.
Definition from_env_and_args (env : option bytes) (args : list bytes) : gset bytes :=
  pins_of_env env ∪ pins_of_args (drop 1 args).
Definition static_is_pinned (pinned : gset bytes) (h : bytes) : bool := bool_decide (to_lowercase h ∈ pinned).

(** ** LocalBlobObjectStore *)

Definition paths_for (key : bytes) : GcM GcWorld (bytes * bytes) :=
  match hash_from_hex key with
  | None => throw (Backend (bs "object key is not a canonical 64-lowercase-hex hash"))
  | Some h => mret (blob_name h, blob_encoded_name h)
  end.
Definition is_file (name : bytes) (w : GcWorld) : bool := bool_decide (is_Some (dir_blobs (gw_dir w) !! name)).
Definition remove_file (name : bytes) : GcM GcWorld unit := λ w,
  match fs_remove name (gw_dir w) with
  | (true, d) => (set_dir w d, Ok tt)
  | (false, d) => (set_dir w d, Err (Backend (bs "remove_file")))
  end.
Definition remove_if_present (name : bytes) : GcM GcWorld unit :=
  found ← read (is_file name);
  if (found : bool) then remove_file name else mret tt.
Definition local_head (bucket key : bytes) : GcM GcWorld bool :=
  p ← paths_for key;
  read (λ w, is_file p.1 w || is_file p.2 w).
Definition local_delete (bucket key : bytes) : GcM GcWorld unit :=
  p ← paths_for key;
  _ ← remove_if_present p.1;
  remove_if_present p.2.

(** ** The live set *)

(** [PrecomputedLiveHashSource]: the result is taken once. *)
Definition precomputed : GcM GcWorld (list bytes) := λ w,
  (set_live w None, default (Err (Backend (bs "live hash set already consumed"))) (gw_live w)).

(** [UnionLiveHashCollector] over any world of sources. *)
Definition union_step {W : Type} (acc : gset bytes) (src : GcM W (gset bytes)) : GcM W (gset bytes) := λ w,
  match src w with
  | (w, Ok s) => (w, Ok (acc ∪ s))
  | (w, Err _) => (w, Err (Backend (bs "live-hash source")))
  end.
Definition union_collect {W : Type} (sources : list (GcM W (gset bytes))) : GcM W (gset bytes) :=
  match sources with
  | [] => throw (Invariant (bs "union of zero live-hash sources"))
  | _ => for_each sources union_step ∅
  end.

(** ** The service *)

Inductive GcMode := GcOff | GcLegacy | GcNew (m : GcRunMode).
Definition gc_mode_parse (s : bytes) : option GcMode :=
  if decide (s = bs "off") then Some GcOff
  else if decide (s = bs "legacy") then Some GcLegacy
  else if decide (s = bs "dryrun") then Some (GcNew DryRun)
  else if decide (s = bs "markonly") then Some (GcNew MarkOnly)
  else if decide (s = bs "sweepsoft") then Some (GcNew SweepSoft)
  else if decide (s = bs "sweephard") then Some (GcNew SweepHard)
  else None.
Record GcServiceConfig := mkGcService {
  gsc_mode : GcMode;
  gsc_grace : Duration;
  gsc_max_deletes : Z;
  gsc_require_head : bool;
}.
Definition gc_service_default : GcServiceConfig := mkGcService GcLegacy (24 * 60 * 60 * 10 ^ 9) 100 true.

Section service.
Context `{SqlOrder}.

#[export] Instance world_live : LiveHashSource GcWorld := precomputed.
#[export] Instance world_inventory : AssetInventoryStore GcWorld := {|
  upsert_active_seen := sql_upsert local_key_scheme;
  upsert_active_seen_batch := sql_upsert_batch local_key_scheme;
  iter_unmarked_candidates := sql_unmarked;
  iter_pending_older_than := sql_pending;
  set_pending_delete := sql_set_pending;
  set_deleted := sql_set_deleted;
  clear_pending_delete := sql_clear_pending;
|}.
#[export] Instance world_runs : GcRunStore GcWorld := {|
  start_run := sql_start_run; apply_delta := sql_apply_delta; finish_run := sql_finish_run;
|}.
#[export] Instance world_pins : AdminPinStore GcWorld := λ h, read (λ w, static_is_pinned (gw_pins w) h).
#[export] Instance world_objects : BlobObjectStore GcWorld := {|
  obj_head := local_head; obj_delete := local_delete;
|}.

(** [run_new_coordinator_once]: the collector runs first, the run reads the clock. *)
Definition run_new_coordinator_once (live : GcM GcWorld (gset bytes)) (mode : GcRunMode) (cfg : GcServiceConfig)
    : GcM GcWorld GcRunDelta := λ w,
  let '(w, r) := live w in
  let r := match r with Ok s => Ok (elements s) | Err e => Err e end in
  let w := set_live w (Some r) in
  run_once (mkGcConfig (gsc_grace cfg) (gsc_max_deletes cfg) (gsc_require_head cfg)) mode (gw_clock w) w.
(** [run_gc_tick]; [sweep_blobs] is the legacy sweep of the rooms. *)
Definition run_gc_tick (sweep_blobs : Duration → GcWorld → GcWorld) (live : GcM GcWorld (gset bytes))
    (cfg : GcServiceConfig) (w : GcWorld) : GcWorld :=
  match gsc_mode cfg with
  | GcOff => w
  | GcLegacy => sweep_blobs (gsc_grace cfg) w
  | GcNew mode => (run_new_coordinator_once live mode cfg w).1
  end.
End service.

(** ** The preflight (gc_adapter.rs)

    Backends that accept everything and hold nothing. *)
Record NoopWorld := mkNoop { nw_room : bytes; nw_hashes : list bytes }.
#[export] Instance noop_live : LiveHashSource NoopWorld := read nw_hashes.
#[export] Instance noop_inventory : AssetInventoryStore NoopWorld := {|
  upsert_active_seen := λ _ _ _, mret tt;
  upsert_active_seen_batch := upsert_loop (λ _ _ _, mret tt);
  iter_unmarked_candidates := λ _, mret [];
  iter_pending_older_than := λ _, mret [];
  set_pending_delete := λ _ _, mret tt;
  set_deleted := λ _ _, mret tt;
  clear_pending_delete := λ _, mret tt;
|}.
#[export] Instance noop_runs : GcRunStore NoopWorld := {|
  start_run := λ _, read (λ w, bs "server-markonly-" ++ nw_room w);
  apply_delta := λ _ _, mret tt;
  finish_run := λ _ _, mret tt;
|}.
#[export] Instance noop_pins : AdminPinStore NoopWorld := λ _, mret false.
#[export] Instance noop_objects : BlobObjectStore NoopWorld := {|
  obj_head := λ _ _, mret false; obj_delete := λ _ _, mret tt;
|}.
Definition run_mark_only_preflight (room_id : bytes) (live : gset Hash) (now : SystemTime) : result GcError GcRunDelta :=
  (run_once gc_config_default MarkOnly now (mkNoop room_id (to_hex <$> elements live))).2.
