(* ===== verification/GcStoreFacts.v ===== *)
(** The server's backends keep the contracts of the coordinator. *)

From S2P Require Import Prelude Str StErr Hex Op Node Gc GcFacts DirStore GcStore.

(** ** Times *)

Lemma to_unix_millis_ok t : time_ok t → to_unix_millis t = t / 10 ^ 6.
Proof.
  intros [Hl Hu]. unfold to_unix_millis. rewrite (proj2 (Z.leb_le 0 t)) by done. apply wrap_i64_id.
  split; [pose proof (Z.div_pos t (10 ^ 6) Hl); lia|]. apply Z.div_lt_upper_bound; lia.
Qed.

Lemma state_from_str_deleted s : state_from_str s = Deleted ↔ s = bs "Deleted".
Proof.
  unfold state_from_str. split; [|intros ->; by vm_compute].
  by repeat match goal with |- context [decide (s = ?x)] => destruct (decide (s = x)) end.
Qed.
Lemma state_from_str_pending s : state_from_str s = PendingDelete ↔ s = bs "PendingDelete".
Proof.
  unfold state_from_str. split; [|intros ->; by vm_compute].
  by repeat match goal with |- context [decide (s = ?x)] => destruct (decide (s = x)) end.
Qed.

(** ** The view of the world *)

Definition world_objs (blobs : gmap bytes bytes) : gset (bytes * bytes) :=
  list_to_set (omap (λ n, (λ '(h, _), (bs "local", to_hex h)) <$> parse_blob_entry_name n) (elements (dom blobs))).
Definition world_view (w : GcWorld) : gc_view :=
  mkView (map_imap (λ h r, Some (row_to_record h r)) (gw_assets w)) (world_objs (dir_blobs (gw_dir w)))
    (static_is_pinned (gw_pins w)).

Lemma world_inv_lookup w h : v_inv (world_view w) !! h = row_to_record h <$> gw_assets w !! h.
Proof. simpl. rewrite map_lookup_imap. by destruct (gw_assets w !! h). Qed.

Lemma world_objs_spec blobs b k :
  (b, k) ∈ world_objs blobs ↔ b = bs "local" ∧ ∃ h, hash_from_hex k = Some h ∧
    (is_Some (blobs !! blob_name h) ∨ is_Some (blobs !! blob_encoded_name h)).
Proof.
  unfold world_objs. rewrite elem_of_list_to_set, list_elem_of_omap. split.
  - intros (n&Hn&E). rewrite elem_of_elements, elem_of_dom in Hn.
    destruct (parse_blob_entry_name n) as [[h e]|] eqn:Ep; [|done]. injection E as <- <-.
    apply parse_name_inv in Ep as [Hh ->]. split; [done|]. exists h. rewrite hash_from_hex_to_hex by done.
    split; [done|]. destruct e; [by left|by right].
  - intros (->&h&[-> Hh]%hash_from_hex_inv&Hb). destruct Hb as [Hb|Hb].
    + exists (blob_name h). rewrite elem_of_elements, elem_of_dom, parse_identity by done. done.
    + exists (blob_encoded_name h). rewrite elem_of_elements, elem_of_dom, parse_encoded by done. done.
Qed.

(** ** SQL *)

Lemma io_keeps d : dir_blobs (io d).2 = dir_blobs d ∧ dir_io (io d).2 = drop 1 (dir_io d) ∧
  ((io d).1 = None ∨ dir_io d ≠ []).
Proof. unfold io. destruct (dir_io d) as [|[n|] l] eqn:E; simpl; rewrite ?E; auto. Qed.

Lemma world_view_dir w d : dir_blobs d = dir_blobs (gw_dir w) → world_view (set_dir w d) = world_view w.
Proof. intros E. unfold world_view. simpl. by rewrite E. Qed.
Lemma world_view_io w : world_view (set_dir w (io (gw_dir w)).2) = world_view w.
Proof. apply world_view_dir, io_keeps. Qed.

(** A SQLite call shows nothing and keeps the tables. *)
Lemma sqlite_ok w w' r :
  sqlite w = (w', r) →
  world_view w' = world_view w ∧ gw_assets w' = gw_assets w ∧ gw_runs w' = gw_runs w ∧
  gw_live w' = gw_live w ∧ gw_pins w' = gw_pins w ∧ dir_blobs (gw_dir w') = dir_blobs (gw_dir w).
Proof.
  unfold sqlite. pose proof (world_view_io w) as Hv. pose proof (io_keeps (gw_dir w)) as [Hb _].
  destruct (io (gw_dir w)) as [[n|] d]; intros [= <- <-]; done.
Qed.

(** The world without its schedule. *)
Definition same (w w' : GcWorld) : Prop :=
  gw_assets w' = gw_assets w ∧ gw_pins w' = gw_pins w ∧ dir_blobs (gw_dir w') = dir_blobs (gw_dir w).
Lemma same_view w w' : same w w' → world_view w' = world_view w.
Proof. intros (Ha&Hp&Hb). unfold world_view. by rewrite Ha, Hp, Hb. Qed.

Lemma sqlite_then {A} (m : GcM GcWorld A) (P : GcWorld → Prop) (Q : A → GcWorld → Prop) (R : GcWorld → Prop) :
  (∀ w w', P w → same w w' → P w') → (∀ w, P w → R w) →
  triple P m Q R → triple P (_ ← sqlite; m) Q R.
Proof.
  intros HP HR Hm. eapply triple_bind; [|intros u; exact Hm]. intros w Hw.
  destruct (sqlite w) as [w' r] eqn:E. apply sqlite_ok in E as (_&?&_&_&?&?).
  assert (P w') by (by eapply HP). destruct r; [done|auto].
Qed.

Lemma view_same v : ∀ w w', world_view w = v → same w w' → world_view w' = v.
Proof. intros w w' <-. apply same_view. Qed.

Lemma sql_update_law h f (g : AssetRecord → AssetRecord) v :
  (∀ h r, row_to_record h (f r) = g (row_to_record h r)) →
  triple (λ w, world_view w = v) (sql_update h f)
    (λ _ w, world_view w = with_inv v (alter g h (v_inv v))) (λ w, world_view w = v).
Proof.
  intros Hf. apply sqlite_then; [apply view_same|done|]. intros w <-. cbn. unfold world_view, with_inv; simpl. f_equal.
  apply map_eq. intros k. destruct (decide (h = k)) as [->|Hne].
  - rewrite lookup_alter_eq, !map_lookup_imap, lookup_alter_eq. destruct (gw_assets w !! k) as [r|]; [|done]. simpl. by rewrite Hf.
  - by rewrite lookup_alter_ne, !map_lookup_imap, lookup_alter_ne by done.
Qed.

(** *** Marks *)

Lemma marked_refl ks run v : marked ks run [] v v.
Proof. split; [done|]. split; [done|]. intros h. rewrite decide_False; [done|]. apply not_elem_of_nil. Qed.

Lemma marked_trans ks run h hs v v1 v2 :
  marked ks run [h] v v1 → marked ks run hs v1 v2 → marked ks run (h :: hs) v v2.
Proof.
  intros (Ho1&Hp1&H1) (Ho2&Hp2&H2). split; [congruence|]. split; [congruence|]. intros k.
  specialize (H1 k). specialize (H2 k). destruct (decide (k ∈ hs)) as [Hin|Hin].
  - rewrite decide_True by (by right). destruct H2 as (r2&Hr2&[Mh Mk Ms Mp Mr Mpin]). exists r2. split; [done|].
    destruct (decide (k ∈ [h])) as [_|_]; [|by rewrite H1 in *].
    destruct H1 as (r1&Hr1&[Nh Nk Ns Np Nr Npin]). rewrite Hr1 in Mk, Mpin. simpl in Mk, Mpin.
    split; [done| |done|done|done|]; congruence.
  - destruct (decide (k ∈ [h])) as [Hk|Hk].
    + apply list_elem_of_singleton in Hk as ->. rewrite decide_True by (by left). by rewrite H2.
    + rewrite decide_False by (intros [->|?]%elem_of_cons; [destruct Hk; by apply list_elem_of_singleton|done]).
      congruence.
Qed.

Lemma upsert_sql_marked run h ms w :
  marked local_key_scheme run [h] (world_view w)
    (world_view (set_assets w (upsert_sql local_key_scheme h run ms (gw_assets w)))).
Proof.
  split; [done|]. split; [done|]. intros k. rewrite !world_inv_lookup. cbn [gw_assets set_assets upsert_sql local_key_scheme].
  destruct (decide (k ∈ [h])) as [->%list_elem_of_singleton|Hk].
  - rewrite lookup_insert_eq. cbn [fmap option_fmap option_map]. eexists. split; [done|].
    destruct (gw_assets w !! h) as [r|]; split; done.
  - rewrite lookup_insert_ne; [done|]. intros ->. destruct Hk. by left.
Qed.

Lemma sql_upsert_ok run h now v :
  triple (λ w, world_view w = v) (sql_upsert local_key_scheme run h now)
    (λ _ w, marked local_key_scheme run [h] v (world_view w)) (λ w, world_view w = v).
Proof. apply sqlite_then; [apply view_same|done|]. intros w <-. apply upsert_sql_marked. Qed.

Lemma upserts_ok run now hs v u :
  triple (λ w, world_view w = v) (for_each hs (λ _ h, sql_upsert local_key_scheme run h now) u)
    (λ _ w, marked local_key_scheme run hs v (world_view w)) (λ w, v_objs (world_view w) = v_objs v ∧ v_pins (world_view w) = v_pins v).
Proof.
  revert v u. induction hs as [|h hs IH]; intros v u; cbn [for_each].
  - apply triple_ret. intros w ->. apply marked_refl.
  - eapply triple_bind; [eapply triple_conseq; [apply (sql_upsert_ok run h now v)|done|intros u' w Hm; exact Hm|by intros w ->]|].
    intros u' w Hm. specialize (IH _ u' w eq_refl).
    destruct (for_each hs _ u' w) as [w' [u''|e]].
    + by eapply marked_trans.
    + destruct IH as [-> ->]. by destruct Hm as (->&->&_).
Qed.

Lemma rollback_ok {A} (m : GcM GcWorld A) v (Q : A → GcWorld → Prop) :
  triple (λ w, world_view w = v) m Q (λ w, v_objs (world_view w) = v_objs v ∧ v_pins (world_view w) = v_pins v) →
  triple (λ w, world_view w = v) (rollback_on_error m) Q (λ w, world_view w = v).
Proof.
  intros Hm w Hw. specialize (Hm w Hw). unfold rollback_on_error. destruct (m w) as [w' [a|e]]; [done|].
  subst v. destruct Hm as [Ho Hp]. unfold world_view in *. simpl in *. by rewrite Ho, Hp.
Qed.

Lemma sql_upsert_batch_ok run hs now v :
  triple (λ w, world_view w = v) (sql_upsert_batch local_key_scheme run hs now)
    (λ _ w, marked local_key_scheme run hs v (world_view w)) (λ w, world_view w = v).
Proof.
  unfold sql_upsert_batch. destruct hs as [|h hs]; [apply triple_ret; intros w ->; apply marked_refl|].
  apply sqlite_then; [apply view_same|done|]. apply rollback_ok.
  apply sqlite_then; [apply view_same|by intros w' ->|].
  eapply triple_bind; [apply upserts_ok|]. intros u w' Hm. destruct (sqlite w') as [w2 r] eqn:E.
  apply sqlite_ok in E as [Ev _]. destruct r; rewrite Ev; [done|]. by destruct Hm as (?&?&_).
Qed.

(** *** Queries *)

Section queries.
Context `{SqlOrderLaws}.

Lemma select_spec p w h r : (h, r) ∈ select p w ↔ gw_assets w !! h = Some r ∧ p r = true.
Proof.
  unfold select. rewrite sql_order_perm, list_elem_of_filter, elem_of_map_to_list. simpl. tauto.
Qed.
Lemma select_nodup p w : NoDup (select p w).*1.
Proof.
  unfold select. rewrite sql_order_perm. apply (sublist_NoDup _ (map_to_list (gw_assets w)).*1); [apply NoDup_fst_map_to_list|].
  apply fmap_sublist, sublist_filter.
Qed.

Lemma records_hashes l : ar_hash <$> records l = l.*1.
Proof. unfold records. rewrite <-list_fmap_compose. done. Qed.

Lemma query_ok p v :
  triple (λ w, world_view w = v) (_ ← sqlite; l ← read (select p); l ← cursor l; mret (records l))
    (λ l w, world_view w = v ∧ NoDup (ar_hash <$> l) ∧
       ∀ x, x ∈ l → ∃ w0 h r, world_view w0 = v ∧ x = row_to_record h r ∧ gw_assets w0 !! h = Some r ∧ p r = true)
    (λ w, world_view w = v).
Proof.
  apply sqlite_then; [apply view_same|done|]. intros w <-. cbn.
  assert (∀ w' l, l `sublist_of` select p w → world_view w' = world_view w →
    world_view w' = world_view w ∧ NoDup (ar_hash <$> records l) ∧ ∀ x, x ∈ records l → ∃ w0 h r,
      world_view w0 = world_view w ∧ x = row_to_record h r ∧ gw_assets w0 !! h = Some r ∧ p r = true) as Hl.
  { intros w' l Hl E. split; [done|]. split.
    - rewrite records_hashes. eapply sublist_NoDup; [apply (select_nodup p w)|by apply fmap_sublist].
    - intros x ([h r]&->&Hx)%list_elem_of_fmap. exists w, h, r. split; [done|]. split; [done|]. apply select_spec.
      by eapply elem_of_submseteq; [|apply sublist_submseteq]. }
  unfold mbind, se_bind, cursor, read. cbn beta iota. pose proof (world_view_io w) as Hv.
  destruct (io (gw_dir w)) as [[n|] d]; apply Hl; try done. apply sublist_take.
Qed.

(** Nothing is lost when nothing fails. *)
Lemma query_complete p w l h r :
  dir_io (gw_dir w) = [] →
  ((_ ← sqlite; l ← read (select p); l ← cursor l; mret (records l)) w).2 = Ok l →
  gw_assets w !! h = Some r → p r = true → row_to_record h r ∈ l.
Proof.
  intros Hio. unfold mbind, se_bind, sqlite, cursor, io, read. rewrite Hio. cbn. rewrite Hio. cbn.
  intros [= <-] Hr Hp. apply list_elem_of_fmap. exists (h, r). split; [done|]. by apply select_spec.
Qed.
End queries.

(** ** Objects *)

Lemma remove_if_present_ok name w :
  match remove_if_present name w with
  | (w', Ok _) => gw_assets w' = gw_assets w ∧ gw_pins w' = gw_pins w ∧
                  dir_blobs (gw_dir w') = delete name (dir_blobs (gw_dir w))
  | (w', Err _) => same w w'
  end.
Proof.
  unfold remove_if_present, mbind, se_bind, read, is_file.
  case_bool_decide as Hb; [|split; [done|]; split; [done|]; symmetry; apply delete_id; by apply eq_None_not_Some].
  unfold remove_file, fs_remove. pose proof (io_keeps (gw_dir w)) as [Ek _].
  destruct (io (gw_dir w)) as [[n|] d]; simpl in Ek; [done|]. rewrite Ek. by destruct Hb as [b ->].
Qed.

Lemma hex_names_ne h h' : byte_array 32 h → byte_array 32 h' → blob_name h ≠ blob_encoded_name h'.
Proof. intros Hh Hh' E. pose proof (parse_identity h Hh) as P. rewrite E, parse_encoded in P by done. done. Qed.

Lemma world_objs_delete blobs h :
  byte_array 32 h →
  world_objs (delete (blob_encoded_name h) (delete (blob_name h) blobs)) = world_objs blobs ∖ {[(bs "local", to_hex h)]}.
Proof.
  intros Hh. apply set_eq. intros [b k].
  rewrite elem_of_difference, elem_of_singleton, !world_objs_spec. split.
  - intros (->&h'&Ek&Hb). pose proof (hash_from_hex_inv _ _ Ek) as [-> Hh'].
    assert (h' ≠ h) as Hne.
    { intros ->. rewrite lookup_delete_ne, lookup_delete_eq, lookup_delete_eq in Hb by (symmetry; by apply hex_names_ne).
      destruct Hb as [[? ?]|[? ?]]; done. }
    split; [|intros [= E]; destruct Hne; rewrite E, hash_from_hex_to_hex in Ek by done; congruence].
    split; [done|]. exists h'. split; [done|].
    destruct Hb as [[x Hx]|[x Hx]]; apply lookup_delete_Some in Hx as [_ [_ Hx]%lookup_delete_Some]; [left|right]; eauto.
  - intros [(->&h'&Ek&Hb) Hne]. split; [done|]. exists h'. split; [done|].
    pose proof (hash_from_hex_inv _ _ Ek) as [-> Hh']. assert (h ≠ h') as Hd by congruence.
    assert (blob_name h ≠ blob_name h' ∧ blob_encoded_name h ≠ blob_encoded_name h') as [N1 N2].
    { split; intros E; destruct Hd.
      - pose proof (parse_identity h Hh) as P. rewrite E, parse_identity in P by done. congruence.
      - pose proof (parse_encoded h Hh) as P. rewrite E, parse_encoded in P by done. congruence. }
    pose proof (hex_names_ne h' h Hh' Hh). pose proof (hex_names_ne h h' Hh Hh').
    by rewrite !lookup_delete_ne by congruence.
Qed.

Lemma world_objs_half blobs h :
  byte_array 32 h → is_Some (blobs !! blob_encoded_name h) → world_objs (delete (blob_name h) blobs) = world_objs blobs.
Proof.
  intros Hh Henc. apply set_eq. intros [b k]. rewrite !world_objs_spec.
  split; intros (->&h'&Ek&Hb); (split; [done|]; exists h'; split; [done|]); pose proof (hash_from_hex_inv _ _ Ek) as [-> Hh'].
  - destruct Hb as [[x Hx]|[x Hx]]; apply lookup_delete_Some in Hx as [_ Hx]; eauto.
  - pose proof (hex_names_ne h h' Hh Hh'). destruct (decide (h = h')) as [->|Hd].
    { right. by rewrite lookup_delete_ne. }
    assert (blob_name h ≠ blob_name h').
    { intros E. destruct Hd. pose proof (parse_identity h Hh) as P. rewrite E, parse_identity in P by done. congruence. }
    by rewrite !lookup_delete_ne.
Qed.

Lemma remove_if_present_err name w w' e :
  remove_if_present name w = (w', Err e) → is_Some (dir_blobs (gw_dir w) !! name).
Proof.
  unfold remove_if_present, mbind, se_bind, read, is_file. by case_bool_decide as Hb.
Qed.

Lemma local_head_ok h v :
  triple (λ w, world_view w = v) (local_head (local_key_scheme h).1 (local_key_scheme h).2)
    (λ x w, world_view w = v ∧ x = bool_decide (local_key_scheme h ∈ v_objs v)) (λ w, world_view w = v).
Proof.
  intros w <-. unfold local_head, paths_for, mbind, se_bind. simpl. destruct (hash_from_hex h) as [k|] eqn:E; [|done].
  simpl. split; [done|]. unfold is_file. rewrite <-bool_decide_or. apply bool_decide_ext.
  unfold local_key_scheme. rewrite world_objs_spec, E. naive_solver.
Qed.

Lemma local_delete_ok h v :
  triple (λ w, world_view w = v) (local_delete (local_key_scheme h).1 (local_key_scheme h).2)
    (λ _ w, world_view w = with_objs v (v_objs v ∖ {[local_key_scheme h]})) (λ w, world_view w = v).
Proof.
  intros w <-. unfold local_delete, paths_for, mbind, se_bind. simpl. destruct (hash_from_hex h) as [k|] eqn:E; [|done].
  apply hash_from_hex_inv in E as [-> Hk]. cbn [mret se_ret fst snd].
  pose proof (remove_if_present_ok (blob_name k) w) as H1.
  destruct (remove_if_present (blob_name k) w) as [w1 [u|e]]; [|by apply same_view].
  pose proof (remove_if_present_ok (blob_encoded_name k) w1) as H2.
  pose proof (remove_if_present_err (blob_encoded_name k) w1) as H3.
  destruct (remove_if_present (blob_encoded_name k) w1) as [w2 [u'|e]]; destruct H1 as (A1&P1&B1).
  - destruct H2 as (A2&P2&B2). unfold world_view, with_objs. simpl.
    rewrite A2, P2, B2, A1, P1, B1. f_equal. by apply world_objs_delete.
  - specialize (H3 _ _ eq_refl). rewrite (same_view _ _ H2). unfold world_view. rewrite A1, P1, B1. f_equal.
    apply world_objs_half; [done|]. rewrite B1, lookup_delete_ne in H3; [done|by apply hex_names_ne].
Qed.

(** ** The contracts *)

Definition world_next_live (w : GcWorld) : result GcError (list bytes) :=
  default (Err (Backend (bs "live hash set already consumed"))) (gw_live w).
Definition millis (t : SystemTime) : SystemTime := from_unix_millis (to_unix_millis t).

Section laws.
Context `{SqlOrderLaws}.

Lemma sql_unmarked_ok run v : triple (λ w, world_view w = v) (sql_unmarked run)
  (λ l w, world_view w = v ∧ NoDup (ar_hash <$> l) ∧ ∀ r, r ∈ l →
     v_inv v !! ar_hash r = Some r ∧ ar_state r ≠ Deleted ∧ ar_last_marked_run_id r ≠ Some run)
  (λ w, world_view w = v).
Proof.
  eapply triple_conseq; [apply (query_ok _ v)|done| |done]. intros l w (?&?&Hl). split; [done|]. split; [done|].
  intros x (w0&h&r&<-&->&Hr&[Hs%negb_true_iff%bool_decide_eq_false Hm%negb_true_iff%bool_decide_eq_false]%andb_true_iff)%Hl.
  rewrite world_inv_lookup. simpl. rewrite Hr, state_from_str_deleted. done.
Qed.
Lemma sql_pending_ok cutoff v : triple (λ w, world_view w = v) (sql_pending cutoff)
  (λ l w, world_view w = v ∧ NoDup (ar_hash <$> l) ∧ ∀ r, r ∈ l →
     v_inv v !! ar_hash r = Some r ∧ ar_state r = PendingDelete ∧
     ∃ p, ar_pending_delete_at r = Some p ∧ p <= millis cutoff)
  (λ w, world_view w = v).
Proof.
  eapply triple_conseq; [apply (query_ok _ v)|done| |done]. intros l w (?&?&Hl). split; [done|]. split; [done|].
  intros x (w0&h&r&<-&->&Hr&[Hs%bool_decide_eq_true Hp]%andb_true_iff)%Hl.
  rewrite world_inv_lookup. simpl. rewrite Hr, state_from_str_pending. split; [done|]. split; [done|].
  destruct (rw_pending_delete_at r) as [p|]; [|done]. apply Z.leb_le in Hp. eexists. split; [done|].
  unfold millis, from_unix_millis. lia.
Qed.

Lemma millis_mono t t' : time_ok t → time_ok t' → t <= t' → millis t <= millis t'.
Proof.
  intros Ht Ht' Hle. unfold millis, from_unix_millis. rewrite !to_unix_millis_ok by done.
  pose proof (Z.div_le_mono t t' (10 ^ 6)). lia.
Qed.

Lemma sql_runs_keep {A} (m : GcM GcWorld A) :
  (∀ w, same w (m w).1 ∧ gw_live (m w).1 = gw_live w) →
  ∀ w, world_view (m w).1 = world_view w ∧ world_next_live (m w).1 = world_next_live w.
Proof. intros Hm w. destruct (Hm w) as [Hs El]. unfold world_next_live. rewrite El. split; [by apply same_view|done]. Qed.

Lemma sqlite_modify_runs (f : GcWorld → gmap bytes RunRow) w :
  same w ((_ ← sqlite; modify (λ w, set_runs w (f w)) : GcM GcWorld unit) w).1.
Proof.
  unfold mbind, se_bind. destruct (sqlite w) as [w' r] eqn:E. apply sqlite_ok in E as (_&?&_&_&?&?). by destruct r.
Qed.

Lemma sql_start_run_keep s w : same w (sql_start_run s w).1 ∧ gw_live (sql_start_run s w).1 = gw_live w.
Proof.
  unfold sql_start_run, mbind, se_bind, read, modify. cbn beta iota.
  destruct (sqlite (bump_counter w)) as [w' r] eqn:E. apply sqlite_ok in E as (_&?&_&?&?&?).
  destruct r; [|done]. cbn beta iota. by destruct (decide _).
Qed.

#[global] Instance world_laws : GcLaws GcWorld.
Proof.
  refine {| view := world_view; next_live := world_next_live; key_scheme := local_key_scheme; rnd := millis |}.
  - apply millis_mono.
  - intros w h r. rewrite world_inv_lookup. destruct (gw_assets w !! h); [|done]. by intros [= <-].
  - done.
  - apply sql_upsert_ok.
  - intros run hs now v. eapply triple_conseq; [apply (sql_upsert_batch_ok _ _ _ v)|done|done|].
    intros w ->. exists []. split; [apply list_subseteq_nil|apply marked_refl].
  - apply sql_unmarked_ok.
  - apply sql_pending_ok.
  - intros h t v. by apply sql_update_law.
  - intros h t v. by apply sql_update_law.
  - intros h v w <-. done.
  - apply local_head_ok.
  - intros h v. eapply triple_conseq; [apply (local_delete_ok _ v)|done|done|by left].
  - intros s w. by apply (sql_runs_keep (sql_start_run s)); intros w'; apply sql_start_run_keep.
  - intros i d w. apply same_view, sqlite_modify_runs.
  - intros i f w. apply same_view, sqlite_modify_runs.
Defined.

(** *** Progress: nothing fails once the schedule is empty. *)

Definition world_steady (w : GcWorld) : Prop := dir_io (gw_dir w) = [].

Lemma sure_sqlite : sure world_steady sqlite.
Proof. intros w Hw. unfold sqlite, io. rewrite Hw. done. Qed.
Lemma sure_bind {A B} (m : GcM GcWorld A) (k : A → GcM GcWorld B) :
  sure world_steady m → (∀ a, sure world_steady (k a)) → sure world_steady (m ≫= k).
Proof.
  intros Hm Hk w Hw. destruct (Hm w Hw) as [Hs Ho]. unfold mbind, se_bind.
  destruct (m w) as [w' [a|e]]; [by apply Hk|done].
Qed.
Lemma sure_modify (f : GcWorld → GcWorld) :
  (∀ w, gw_dir (f w) = gw_dir w) → sure world_steady (modify f : GcM GcWorld unit).
Proof. intros Hf w Hw. simpl. unfold world_steady. by rewrite Hf. Qed.
Lemma sure_ret {A} (a : A) : sure world_steady (mret a : GcM GcWorld A).
Proof. done. Qed.
Lemma sure_read {A} (f : GcWorld → A) : sure world_steady (read f : GcM GcWorld A).
Proof. done. Qed.
Lemma sure_cursor {A} (l : list A) : sure world_steady (cursor l).
Proof. intros w Hw. unfold cursor, io. rewrite Hw. done. Qed.
Lemma sure_for {A B} (l : list A) (f : B → A → GcM GcWorld B) b :
  (∀ b x, sure world_steady (f b x)) → sure world_steady (for_each l f b).
Proof. intros Hf. revert b. induction l as [|x l IH]; intros b; [apply sure_ret|by apply sure_bind]. Qed.
Lemma sure_rollback {A} (m : GcM GcWorld A) : sure world_steady m → sure world_steady (rollback_on_error m).
Proof.
  intros Hm w Hw. destruct (Hm w Hw) as [Hs Ho]. unfold rollback_on_error. by destruct (m w) as [w' [a|e]].
Qed.
#[local] Hint Resolve sure_sqlite sure_bind sure_modify sure_ret sure_read sure_cursor sure_for sure_rollback : core.

Lemma sure_remove name : sure world_steady (remove_if_present name).
Proof.
  intros w Hw. unfold remove_if_present, mbind, se_bind, read, is_file. case_bool_decide as Hb; [|done].
  unfold remove_file, fs_remove, io. rewrite Hw. destruct Hb as [b ->]. done.
Qed.

Lemma sure_upsert ks run h now : sure world_steady (sql_upsert ks run h now).
Proof. unfold sql_upsert. auto. Qed.
Lemma sure_batch ks run hs now : sure world_steady (sql_upsert_batch ks run hs now).
Proof. unfold sql_upsert_batch. destruct hs; auto 10 using sure_upsert. Qed.

#[global] Instance world_progress : GcProgress GcWorld.
Proof.
  refine {| steady := world_steady; addressable := λ h, is_Some (hash_from_hex h) |}.
  - done.
  - intros run hs now. apply sure_batch.
  - intros run. cbn. unfold sql_unmarked. auto 10.
  - intros cutoff. cbn. unfold sql_pending. auto 10.
  - intros h t. cbn. unfold sql_set_pending, sql_update. auto.
  - intros h t. cbn. unfold sql_set_deleted, sql_update. auto.
  - intros h. apply sure_read.
  - intros h [k Hk]. cbn. unfold local_head, paths_for. rewrite Hk. auto.
  - intros h [k Hk]. cbn. unfold local_delete, paths_for. rewrite Hk. auto using sure_remove.
  - intros i d. cbn. unfold sql_apply_delta. auto.
  - intros cutoff w l r p Hw Hl Hr Hs Hp Hle. change (view w) with (world_view w) in Hr. rewrite world_inv_lookup in Hr.
    destruct (gw_assets w !! ar_hash r) as [row|] eqn:E; [|done]. injection Hr as Er. rewrite <-Er.
    refine (query_complete _ w l _ row Hw Hl E _). rewrite <-Er in Hs, Hp. simpl in Hs, Hp.
    apply state_from_str_pending in Hs. rewrite bool_decide_true by done.
    destruct (rw_pending_delete_at row) as [q|]; [|done]. injection Hp as <-. simpl.
    apply Z.leb_le. change (rnd cutoff) with (millis cutoff) in Hle. unfold millis, from_unix_millis in Hle. lia.
Defined.
End laws.

(** ** The service *)

Section service.
Context `{SqlOrderLaws}.

Lemma assets_same m : ∀ w w', gw_assets w = m → same w w' → gw_assets w' = m.
Proof. by intros w w' <- [? _]. Qed.

Lemma rollback_assets {A} (m : GcM GcWorld A) a (Q : A → GcWorld → Prop) :
  triple (λ w, gw_assets w = a) m Q (λ _, True) →
  triple (λ w, gw_assets w = a) (rollback_on_error m) Q (λ w, gw_assets w = a).
Proof.
  intros Hm w Hw. specialize (Hm w Hw). unfold rollback_on_error. by destruct (m w) as [w' [x|e]].
Qed.

(** A union that answers holds every member's answer. *)
Definition fixed_source (o : result GcError (gset bytes)) : GcM GcWorld (gset bytes) := λ w, (w, o).
Lemma union_fixed outs acc w :
  match for_each (fixed_source <$> outs) union_step acc w with
  | (w', Ok s) => w' = w ∧ acc ⊆ s ∧ ∀ o, o ∈ outs → ∃ x, o = Ok x ∧ x ⊆ s
  | (w', Err _) => w' = w ∧ ∃ e, Err e ∈ outs
  end.
Proof.
  revert acc. induction outs as [|o outs IH]; intros acc.
  { split; [done|]. split; [done|]. intros o []%not_elem_of_nil. }
  cbn [fmap list_fmap for_each]. unfold mbind, se_bind, union_step at 1, fixed_source at 1.
  destruct o as [s|e]; [|split; [done|]; exists e; by left].
  specialize (IH (acc ∪ s)). destruct (for_each _ _ _ w) as [w' [t|e]].
  - destruct IH as (->&Hsub&Ho). split; [done|]. split; [set_solver|]. intros o [->|Hin]%elem_of_cons; [|auto].
    exists s. split; [done|]. set_solver.
  - destruct IH as (->&e'&Hin). split; [done|]. exists e'. by right.
Qed.
Lemma union_fixed_err outs acc w e : Err e ∈ outs → is_ok (for_each (fixed_source <$> outs) union_step acc w).2 = false.
Proof.
  intros Hin. pose proof (union_fixed outs acc w) as Hu. destruct (for_each _ _ _ w) as [w' [s|e']]; [|done].
  destruct Hu as (_&_&Ho). by destruct (Ho _ Hin) as (x&?&_).
Qed.

Lemma local_key_has_blob w h k :
  hash_from_hex h = Some k → (local_key_scheme h ∈ v_objs (world_view w) ↔ has_blob (gw_dir w) k = true).
Proof.
  intros Hk. unfold local_key_scheme. simpl. rewrite world_objs_spec, Hk.
  unfold has_blob. rewrite orb_true_iff, !bool_decide_eq_true. naive_solver.
Qed.

(** C32: the scheduled collector fails closed over the server's own stores, if its
    clock is in the range of the tables and not before that of an earlier run. With the
    union of any live-hash sources, no source at all or one failing source means an
    error, and the asset inventory, the set of stored blobs and the pins are as they
    were (the ledger of runs, which records the run, is not part of this); and
    otherwise no file of a hash that some source reports is removed, in any mode and
    with any grace window. *)
Theorem gc_service_safe hist w outs mode cfg :
  gc_trace hist w → time_ok (gw_clock w) → (∀ t l, (t, l) ∈ hist → t <= gw_clock w) → 0 <= gsc_max_deletes cfg →
  let '(w', r) := run_new_coordinator_once (union_collect (fixed_source <$> outs)) mode cfg w in
  ((outs = [] ∨ ∃ e, Err e ∈ outs) → is_ok r = false ∧ world_view w' = world_view w) ∧
  ∀ s h k, Ok s ∈ outs → h ∈ s → hash_from_hex h = Some k → has_blob (gw_dir w) k = true → has_blob (gw_dir w') k = true.
Proof.
  intros [Hh Ht]%trace_hist Hnow Hle Hmax. unfold run_new_coordinator_once.
  assert (∃ r, union_collect (fixed_source <$> outs) w = (w, r) ∧
    (outs = [] ∨ (∃ e, Err e ∈ outs) → is_ok r = false) ∧ ∀ x s, r = Ok x → Ok s ∈ outs → s ⊆ x) as (r&->&Hbad&Hgood).
  { destruct outs as [|o outs]; [eexists; split; [done|]; split; [done|]; intros ? ? ? []%not_elem_of_nil|].
    unfold union_collect. cbn [fmap list_fmap]. change (fixed_source o :: _) with (fixed_source <$> (o :: outs)).
    pose proof (union_fixed (o :: outs) ∅ w) as Hu. pose proof (union_fixed_err (o :: outs) ∅ w) as He.
    destruct (for_each _ _ _ w) as [w' [x|e]]; destruct Hu as [-> Hu]; eexists; (split; [done|]); (split; [naive_solver|]).
    - intros ? s [= <-] Hs. destruct Hu as [_ Hu]. destruct (Hu _ Hs) as (y&[= <-]&?). done.
    - done. }
  cbn beta iota. set (w1 := set_live w _). set (c := mkGcConfig _ _ _).
  pose proof (run_once_ok c mode (gw_clock w1) hist w1 Hh) as Hr.
  specialize (Hr ltac:(intros t l Hin; apply rnd_mono; eauto) Hmax).
  change (next_live w1) with (match r with Ok s => Ok (elements s) | Err e => Err e end) in Hr.
  destruct r as [x|e].
  - destruct (run_once c mode (gw_clock w1) w1) as [w' r']. destruct Hr as [[_ Hk _ _] _].
    split; [intros Hb; by specialize (Hbad Hb)|]. intros s h k Hs Hin Hkey Hb.
    apply (local_key_has_blob _ _ _ Hkey). apply (Hk h); [|by apply (local_key_has_blob _ _ _ Hkey)].
    right. left. apply elem_of_elements. by eapply Hgood.
  - destruct (run_once c mode (gw_clock w1) w1) as [w' r']. destruct Hr as [Ev Eo].
    change (world_view w' = world_view w) in Ev. split; [done|]. intros s h k Hs Hin Hkey Hb.
    apply (local_key_has_blob _ _ _ Hkey). rewrite Ev.
    by apply (local_key_has_blob _ _ _ Hkey).
Qed.

(** The batched mark is the loop of single marks.  When no call fails, one
    transaction over all the live hashes leaves the tables exactly as marking them one
    by one does, and when any call fails it leaves the tables untouched. *)
Theorem gc_batch_equals_loop run hs now w :
  let '(wb, rb) := sql_upsert_batch local_key_scheme run hs now w in
  match rb with
  | Ok _ => gw_assets wb = foldl (λ m h, upsert_sql local_key_scheme h run (to_unix_millis now) m) (gw_assets w) hs
  | Err _ => gw_assets wb = gw_assets w
  end ∧ (world_steady w → is_ok rb = true ∧
    gw_assets wb = gw_assets (upsert_loop (sql_upsert local_key_scheme) run hs now w).1).
Proof.
  set (F := λ m h, upsert_sql local_key_scheme h run (to_unix_millis now) m).
  assert (∀ u, triple (λ w', gw_assets w' = gw_assets w) (for_each hs (λ _ h, sql_upsert local_key_scheme run h now) u)
    (λ _ w', gw_assets w' = foldl F (gw_assets w) hs) (λ _, True)) as Hloop.
  { generalize (gw_assets w) as m. induction hs as [|h l IH]; intros m u; [by apply triple_ret|].
    cbn [for_each foldl]. eapply triple_bind; [|intros u'; apply (IH (F m h))].
    apply sqlite_then; [apply assets_same|done|]. by intros w' <-. }
  assert (world_steady w → is_ok (sql_upsert_batch local_key_scheme run hs now w).2 = true) as Hsure.
  { apply (sure_batch _ run hs now w). }
  assert (world_steady w → gw_assets (upsert_loop (sql_upsert local_key_scheme) run hs now w).1 = foldl F (gw_assets w) hs) as Hl.
  { intros Hst. unfold upsert_loop. specialize (Hloop tt w eq_refl).
    assert (sure world_steady (for_each hs (λ _ h, sql_upsert local_key_scheme run h now) tt)) as Hs.
    { apply sure_for. intros _ x. apply sure_upsert. }
    destruct (Hs w Hst) as [_ Hok]. by destruct (for_each _ _ _ w) as [w' [u|e]]. }
  assert (match sql_upsert_batch local_key_scheme run hs now w with
    | (wb, Ok _) => gw_assets wb = foldl F (gw_assets w) hs | (wb, Err _) => gw_assets wb = gw_assets w end) as Hb.
  { unfold sql_upsert_batch. destruct hs as [|h l]; [done|].
    apply (sqlite_then _ (λ w', gw_assets w' = gw_assets w)); [apply assets_same|done| |done].
    apply rollback_assets, sqlite_then; [apply assets_same|done|]. eapply triple_bind; [apply Hloop|]. intros u w2 E2.
    destruct (sqlite w2) as [w3 [u'|e]] eqn:E3; [|done]. apply sqlite_ok in E3 as (_&->&_). done. }
  destruct (sql_upsert_batch local_key_scheme run hs now w) as [wb [u|e]]; (split; [done|]).
  - intros Hst. split; [done|]. by rewrite (Hl Hst).
  - intros Hst. by specialize (Hsure Hst).
Qed.
End service.
