(* ===== verification/DirFacts.v ===== *)
(** What the durable store promises: content addressing under any schedule of
    I/O errors, the grace window of the sweep, and versions that tell when a
    room has changed. *)

From S2P Require Import Prelude Hex Op Node Gc DirStore.

(** ** Blobs *)

Section blob_facts.
Context `{Blake3, Zstd, !ZstdLaws}.
Implicit Types (s : DirState) (h : Hash).

(** A file under a canonical name holds what the name says. *)
Definition valid_file (name b : bytes) : Prop :=
  match parse_blob_entry_name name with
  | Some (h, Identity) => blake3_hash b = h
  | Some (h, ZstdEncoding) => ∃ d, zstd_decode b = Some d ∧ blake3_hash d = h
  | None => True
  end.
Definition valid s : Prop := map_Forall valid_file (dir_blobs s).

(** Two directories with the same canonical files. *)
Definition same_visible s s' : Prop :=
  ∀ name, is_Some (parse_blob_entry_name name) → dir_blobs s' !! name = dir_blobs s !! name.

#[local] Instance same_visible_pre : PreOrder same_visible.
Proof. split; [by intros s name|]. intros s1 s2 s3 Ha Hb name Hn. by rewrite Hb, Ha. Qed.

Lemma io_blobs s o s' : io s = (o, s') → dir_blobs s' = dir_blobs s ∧ dir_tombs s' = dir_tombs s.
Proof. unfold io. destruct (dir_io s); by intros [= <- <-]. Qed.
Lemma io_same s o s' : io s = (o, s') → same_visible s s'.
Proof. intros [E _]%io_blobs name _. by rewrite E. Qed.

Lemma valid_same s s' : same_visible s s' → valid s → valid s'.
Proof.
  intros Hs Hv name b Hb. unfold valid_file. destruct (parse_blob_entry_name name) as [he|] eqn:E; [|done].
  rewrite Hs in Hb by eauto. specialize (Hv name b Hb). unfold valid_file in Hv. by rewrite E in Hv.
Qed.

Lemma has_blob_same s s' h : same_visible s s' → byte_array 32 h → has_blob s' h = has_blob s h.
Proof.
  intros Hs Hh. unfold has_blob. rewrite !Hs; [done|rewrite parse_encoded by done; eauto|rewrite parse_identity by done; eauto].
Qed.

Lemma tmp_ne tmp name : TMP `suffix_of` tmp → is_Some (parse_blob_entry_name name) → tmp ≠ name.
Proof. intros Ht [he E] ->. by rewrite tmp_foreign in E. Qed.

Lemma write_tmp tmp b s ok s' :
  TMP `suffix_of` tmp → fs_write tmp b s = (ok, s') →
  same_visible s s' ∧ (ok = true → dir_blobs s' !! tmp = Some b).
Proof.
  intros Ht. unfold fs_write. destruct (io s) as [[n|] s1] eqn:E; pose proof (io_same _ _ _ E) as Hs;
    intros [= <- <-]; (split; [|try done; intros _; apply lookup_insert_eq]); (etrans; [exact Hs|]);
    intros name Hn; simpl; by rewrite lookup_insert_ne by (by apply tmp_ne).
Qed.

Lemma remove_tmp tmp s : TMP `suffix_of` tmp → same_visible s (fs_remove tmp s).2.
Proof.
  intros Ht. unfold fs_remove. destruct (io s) as [[n|] s1] eqn:E; pose proof (io_same _ _ _ E) as Hs; [done|].
  destruct (dir_blobs s1 !! tmp); [|done]. etrans; [exact Hs|]. intros name Hn. simpl.
  by rewrite lookup_delete_ne by (by apply tmp_ne).
Qed.

(** A file that appeared, everything else canonical unchanged. *)
Definition appeared s s' (name c : bytes) : Prop :=
  dir_blobs s' !! name = Some c ∧
  ∀ n, is_Some (parse_blob_entry_name n) → n ≠ name → dir_blobs s' !! n = dir_blobs s !! n.

Lemma appeared_pre s s0 s' name c : same_visible s s0 → appeared s0 s' name c → appeared s s' name c.
Proof. intros Hs [Hn Ho]. split; [done|]. intros n Hp Hne. rewrite Ho, Hs by done. done. Qed.

Lemma rename_tmp tmp dst b s ok s' :
  TMP `suffix_of` tmp → dir_blobs s !! tmp = Some b → fs_rename tmp dst s = (ok, s') →
  if ok then appeared s s' dst b else same_visible s s'.
Proof.
  intros Ht Hb. unfold fs_rename. destruct (io s) as [[n|] s1] eqn:E; pose proof (io_same _ _ _ E) as Hs;
    [by intros [= <- <-]|]. destruct (io_blobs _ _ _ E) as [Eb _]. rewrite Eb, Hb. intros [= <- <-].
  apply (appeared_pre _ s1); [done|]. split; simpl; [by rewrite lookup_insert_eq|].
  intros n Hn Hne. rewrite lookup_insert_ne, Eb by done. by rewrite lookup_delete_ne by (by apply tmp_ne).
Qed.

(** What [persist_blob] leaves behind. *)
Definition stored s s' h b : Prop :=
  appeared s s' (blob_name h) b ∨ ∃ c, zstd_decode c = Some b ∧ appeared s s' (blob_encoded_name h) c.

Lemma persist_identity_ok s h b :
  match persist_identity s h b with
  | (s', Ok _) => stored s s' h b
  | (s', Err _) => same_visible s s'
  end.
Proof.
  unfold persist_identity. assert (TMP `suffix_of` to_hex h ++ TMP) as Ht by (by exists (to_hex h)).
  destruct (fs_write (to_hex h ++ TMP) b s) as [ok s1] eqn:E1. apply write_tmp in E1 as [Hs1 Hb]; [|done].
  destruct ok; [|done]. simpl. destruct (fs_rename _ _ s1) as [ok s2] eqn:E2.
  apply (rename_tmp _ _ b) in E2; [|done|by apply Hb]. destruct ok.
  - left. by apply (appeared_pre _ s1).
  - etrans; [exact Hs1|]. etrans; [exact E2|]. by apply remove_tmp.
Qed.

Lemma persist_blob_ok cfg s h b :
  byte_array 32 h →
  match persist_blob cfg s h b with
  | (s', Ok _) => if has_blob s h then same_visible s s' else stored s s' h b
  | (s', Err _) => same_visible s s'
  end.
Proof.
  intros Hh. unfold persist_blob. destruct (io s) as [[n|] s1] eqn:E; pose proof (io_same _ _ _ E) as Hs; [done|].
  rewrite <-(has_blob_same _ _ h Hs) by done. destruct (has_blob s1 h) eqn:Eh; [done|].
  assert (∀ s2, same_visible s1 s2 → match persist_identity s2 h b with
    | (s', Ok _) => stored s s' h b | (s', Err _) => same_visible s s' end) as Hid.
  { intros s2 Hs2. pose proof (persist_identity_ok s2 h b) as Hp. assert (same_visible s s2) by (by etrans).
    destruct (persist_identity s2 h b) as [s' [u|e]].
    - destruct Hp as [Ha|(c&Hc&Ha)]; [left|right; exists c; split; [done|]]; by apply (appeared_pre _ s2).
    - by etrans. }
  destruct (comp_enabled cfg && should_compress_blob b cfg); [|by apply Hid].
  destruct (zstd_encode (comp_level cfg) b) as [c|] eqn:Ec; [|by apply Hid].
  assert (TMP `suffix_of` to_hex h ++ ZST ++ TMP) as Ht by (exists (to_hex h ++ ZST); by rewrite <-app_assoc).
  destruct (fs_write _ c s1) as [ok s2] eqn:E1. apply write_tmp in E1 as [Hs1 Hb]; [|done]. destruct ok.
  - destruct (fs_rename _ _ s2) as [ok s3] eqn:E2. apply (rename_tmp _ _ c) in E2; [|done|by apply Hb].
    destruct ok.
    + right. exists c. split; [by eapply zstd_roundtrip|]. apply (appeared_pre _ s2); [by etrans|done].
    + apply Hid. etrans; [exact Hs1|]. etrans; [exact E2|]. by apply remove_tmp.
  - apply Hid. etrans; [exact Hs1|]. by apply remove_tmp.
Qed.

Lemma stored_valid s s' h b : blake3_hash b = h → byte_array 32 h → valid s → stored s s' h b → valid s'.
Proof.
  intros Eb Hh Hv Hst name x Hx. unfold valid_file.
  destruct (parse_blob_entry_name name) as [[h' e]|] eqn:E; [|done].
  assert (∀ n, dir_blobs s' !! n = dir_blobs s !! n → n = name →
    match e with Identity => blake3_hash x = h' | ZstdEncoding => ∃ d, zstd_decode x = Some d ∧ blake3_hash d = h' end) as Hold.
  { intros n En ->. rewrite En in Hx. specialize (Hv name x Hx). unfold valid_file in Hv. by rewrite E in Hv. }
  destruct Hst as [[Ha Ho]|(c&Hc&Ha&Ho)].
  - destruct (decide (name = blob_name h)) as [->|Hne]; [|apply (Hold name); [by apply Ho; eauto|done]].
    rewrite parse_identity in E by done. by simplify_eq.
  - destruct (decide (name = blob_encoded_name h)) as [->|Hne]; [|apply (Hold name); [by apply Ho; eauto|done]].
    rewrite parse_encoded in E by done. simplify_eq. eauto.
Qed.

(** Reading with no error ahead. *)
Lemma get_blob_quiet s h :
  dir_io s = [] →
  (get_blob s h).1 =
  match dir_blobs s !! blob_name h with
  | Some b => if decide (blake3_hash b = h) then Some b else None
  | None =>
      match dir_blobs s !! blob_encoded_name h with
      | Some c => d ← zstd_decode c; if decide (blake3_hash d = h) then Some d else None
      | None => None
      end
  end.
Proof.
  intros E. unfold get_blob, fs_read, io. rewrite E. destruct (dir_blobs s !! blob_name h); [done|].
  rewrite E. destruct (dir_blobs s !! blob_encoded_name h) as [c|]; [|done]. simpl. by destruct (zstd_decode c).
Qed.

Lemma get_blob_has s h :
  dir_io s = [] → valid s → byte_array 32 h → has_blob s h = true → ∃ b, (get_blob s h).1 = Some b ∧ blake3_hash b = h.
Proof.
  intros Eio Hv Hh Hhas. rewrite get_blob_quiet by done. unfold has_blob in Hhas.
  destruct (dir_blobs s !! blob_name h) as [b|] eqn:Eb.
  - specialize (Hv _ _ Eb). unfold valid_file in Hv. rewrite parse_identity in Hv by done. exists b. by rewrite decide_True.
  - destruct (dir_blobs s !! blob_encoded_name h) as [c|] eqn:Ec; [|done].
    specialize (Hv _ _ Ec). unfold valid_file in Hv. rewrite parse_encoded in Hv by done. destruct Hv as (d&Hd&Hh').
    exists d. simpl. by rewrite Hd; simpl; rewrite decide_True.
Qed.

(** The blob directory is content-addressed under any schedule of I/O
    errors.  Storing the bytes of a hash keeps every canonical file valid; when
    it reports success the blob can be read back, as the bytes stored unless a
    blob of that hash was there already; when it reports an error no canonical
    file has appeared or changed; and a read never returns bytes of another
    hash. *)
Theorem blob_store_content_addressed cfg s (b : bytes) :
  byte_array 32 (blake3_hash b) → valid s →
  let h := blake3_hash b in
  let '(s', r) := persist_blob cfg s h b in
  valid s' ∧
  (∀ h' b', (get_blob s' h').1 = Some b' → blake3_hash b' = h') ∧
  match r with
  | Ok _ => dir_io s' = [] → ∃ b', (get_blob s' h).1 = Some b' ∧ blake3_hash b' = h ∧ (has_blob s h = false → b' = b)
  | Err _ => same_visible s s'
  end.
Proof.
  intros Hh Hv h. pose proof (persist_blob_ok cfg s h b Hh) as Hp.
  destruct (persist_blob cfg s h b) as [s' r].
  assert (valid s') as Hv'.
  { destruct r; [destruct (has_blob s h)|]; [by eapply valid_same|by eapply stored_valid|by eapply valid_same]. }
  split; [done|]. split.
  { intros h' b'. unfold get_blob. destruct (fs_read (blob_name h') s') as [[x|] s1]; cbn [fst].
    { case_decide; intros; by simplify_eq. }
    destruct (fs_read _ s1) as [[c|] s2]; [|done]. cbn [fst]. destruct (zstd_decode c); [|done]. case_decide; intros; by simplify_eq. }
  destruct r as [[]|e]; [|done]. intros Eio. destruct (has_blob s h) eqn:Ehas.
  - destruct (get_blob_has s' h Eio Hv' Hh) as (b'&?&?); [by rewrite (has_blob_same s)|]. by exists b'.
  - exists b. split; [|done]. rewrite get_blob_quiet by done.
    unfold has_blob in Ehas. apply orb_false_iff in Ehas as [Hn1 Hn2].
    apply bool_decide_eq_false in Hn1, Hn2. apply eq_None_not_Some in Hn1, Hn2.
    destruct Hp as [[-> _]|(c&Hc&Ha&Ho)]; [by rewrite decide_True|].
    rewrite Ho; [|rewrite parse_identity by done; eauto|].
    + rewrite Hn1, Ha. simpl. rewrite Hc. simpl. by rewrite decide_True.
    + intros E. apply (f_equal length) in E. unfold blob_name, blob_encoded_name in E. rewrite length_app in E. simpl in E. lia.
Qed.
End blob_facts.

(** ** The sweep *)

Section sweep_facts.
Context `{Blake3, Zstd, !ZstdLaws}.
Implicit Types (s : DirState) (h : Hash) (hist : list (SystemTime * gset Hash)).

(** Past sweeps, with the live set each of them was given; nothing fails. *)
Record tombs_ok hist s : Prop := {
  to_quiet : dir_io s = [];
  to_file : ∀ h m, byte_array 32 h → dir_tombs s !! tombstone_name h = Some m → has_blob s h = true;
  to_young : ∀ h m t l, byte_array 32 h → dir_tombs s !! tombstone_name h = Some m →
    (t, l) ∈ hist → h ∈ l → t <= m;
}.

Lemma io_quiet s : dir_io s = [] → io s = (None, s).
Proof. intros E. unfold io. by rewrite E. Qed.

Lemma tomb_name_inj h1 h2 :
  byte_array 32 h1 → byte_array 32 h2 → tombstone_name h1 = tombstone_name h2 → h1 = h2.
Proof.
  intros Ha Hb E. unfold tombstone_name in E. apply (f_equal hash_from_hex) in E.
  rewrite !hash_from_hex_to_hex in E by done. by simplify_eq.
Qed.

Section one_sweep.
Context (hist : list (SystemTime * gset Hash)) (live : gset Hash) (now : SystemTime) (grace : Duration).
Context (Hpast : ∀ t l, (t, l) ∈ hist → t <= now) (Hgrace : 0 <= grace) (s0 : DirState).

Definition spared h : Prop := h ∈ live ∨ ∃ t l, (t, l) ∈ hist ∧ h ∈ l ∧ now - grace < t.

(** The invariant of the loop over the entries still to visit. *)
Record sweep_inv (rest : list bytes) s : Prop := {
  si_quiet : dir_io s = [];
  si_file : ∀ h m, byte_array 32 h → dir_tombs s !! tombstone_name h = Some m → has_blob s h = true;
  si_young : ∀ h m t l, byte_array 32 h → dir_tombs s !! tombstone_name h = Some m →
    (t, l) ∈ hist → h ∈ l → t <= m;
  si_live : ∀ h, byte_array 32 h → h ∈ live → is_Some (dir_tombs s !! tombstone_name h) →
    ∃ name e, name ∈ rest ∧ parse_blob_entry_name name = Some (h, e);
  si_spared : ∀ name h e, parse_blob_entry_name name = Some (h, e) → spared h →
    dir_blobs s !! name = dir_blobs s0 !! name;
  si_rest : NoDup rest ∧ ∀ name, name ∈ rest → is_Some (dir_blobs s !! name);
}.

Lemma sweep_inv_skip rest s name :
  sweep_inv (name :: rest) s →
  (∀ h e, parse_blob_entry_name name = Some (h, e) → h ∈ live → dir_tombs s !! tombstone_name h = None) →
  sweep_inv rest s.
Proof.
  intros [Hq Hf Hy Hl Hs [Hnd Hr]] Hn. split; try done.
  - intros h Hh Hlv Hx. destruct (Hl h Hh Hlv Hx) as (n&e&[->|Hin]%elem_of_cons&Hp); [|eauto].
    specialize (Hn h e Hp Hlv). rewrite Hn in Hx. by destruct Hx.
  - apply NoDup_cons in Hnd as [_ Hnd]. split; [done|]. intros n Hin. apply Hr. by right.
Qed.

Lemma has_blob_delete s h h' name e :
  parse_blob_entry_name name = Some (h, e) → byte_array 32 h' → h' ≠ h →
  has_blob (with_blobs s (delete name (dir_blobs s))) h' = has_blob s h'.
Proof.
  intros Hp Hh' Hne. unfold has_blob; simpl. rewrite !lookup_delete_ne; [done|intros ->..].
  - rewrite parse_encoded in Hp by done. by simplify_eq.
  - rewrite parse_identity in Hp by done. by simplify_eq.
Qed.

(** Removing an entry of a hash that is not spared, with its tombstone. *)
Lemma sweep_delete_inv rest s d name h e :
  sweep_inv rest s → name ∉ rest → parse_blob_entry_name name = Some (h, e) → ¬ spared h →
  sweep_inv rest (sweep_delete name (tombstone_name h) s d).1.
Proof.
  intros [Hq Hf Hy Hl Hs [Hnd Hr]] Hni Hp Hns. pose proof (parse_name_inv _ _ _ Hp) as [Hh _].
  unfold sweep_delete, fs_remove. rewrite io_quiet by done.
  destruct (dir_blobs s !! name) as [b|]; [|done]. simpl.
  unfold fs_remove_tomb. rewrite io_quiet by done. split; simpl.
  - done.
  - intros h' m Hh' Hm. apply lookup_delete_Some in Hm as [Hne Hm]. rewrite <-(Hf h' m Hh' Hm).
    apply (has_blob_delete _ h _ _ e); [done|done|]. by intros ->.
  - intros h' m t l Hh' Hm. apply lookup_delete_Some in Hm as [_ Hm]. by eapply Hy.
  - intros h' Hh' Hlv [m Hm]. apply lookup_delete_Some in Hm as [_ Hm]. eauto.
  - intros n h' e' Hn Hsp. rewrite lookup_delete_ne by (intros ->; congruence). by eapply Hs.
  - split; [done|]. intros n Hin. rewrite lookup_delete_ne by (intros ->; done). by apply Hr.
Qed.

Lemma sweep_entry_inv rest s d name :
  sweep_inv (name :: rest) s → sweep_inv rest (sweep_entry live now grace (s, d) name).1.
Proof.
  intros Hi. pose proof Hi as [Hq Hf Hy Hl Hs [Hnd Hr]]. pose proof (sweep_inv_skip _ _ _ Hi) as Hskip.
  apply NoDup_cons in Hnd as [Hni Hnd]. unfold sweep_entry.
  destruct (decide (TMP `suffix_of` name)) as [Ht|_]; [apply Hskip; intros h e; by rewrite tmp_foreign|].
  destruct (parse_blob_entry_name name) as [[h e]|] eqn:Hp; [|by apply Hskip].
  pose proof (parse_name_inv _ _ _ Hp) as [Hh _].
  destruct (decide (h ∈ live)) as [Hlv|Hnl].
  - cbn [fst]. destruct (decide (is_Some (dir_tombs s !! tombstone_name h))) as [Ht|Hnt].
    + unfold fs_remove_tomb. rewrite io_quiet by done. apply (sweep_inv_skip _ _ name).
      * split; simpl; try done.
        -- intros h' m Hh' Hm. apply lookup_delete_Some in Hm as [_ Hm]. by eapply Hf.
        -- intros h' m t l Hh' Hm. apply lookup_delete_Some in Hm as [_ Hm]. by eapply Hy.
        -- intros h' Hh' Hlv' [m Hm]. apply lookup_delete_Some in Hm as [Hne Hm]. eauto.
        -- split; [by constructor|done].
      * intros h' e' [= <- <-]%(eq_trans (eq_sym Hp)) _. by apply lookup_delete_eq.
    + apply Hskip. intros h' e' [= <- <-] _. by apply eq_None_not_Some.
  - assert (sweep_inv rest s) as Hi' by (apply Hskip; by intros h' e' [= <- <-]).
    rewrite io_quiet by done.
    destruct (dir_tombs s !! tombstone_name h) as [m|] eqn:Hm.
    + unfold aged. destruct (Z.leb_spec m now), (Z.leb_spec grace (now - m)); simpl; try done.
      apply (sweep_delete_inv _ _ _ _ _ e); [done..|]. intros [?|(t&l&Hin&Hhl&Hlt)]; [done|].
      specialize (Hy h m t l Hh Hm Hin Hhl). lia.
    + rewrite !io_quiet by done. cbv beta iota zeta.
      assert (sweep_inv rest (with_tombs s (<[tombstone_name h := now]> (dir_tombs s)))) as Hi1.
      { destruct Hi' as [_ Hf' Hy' Hl' Hs' Hr']. split; simpl; try done.
        - intros h' m Hh' [[E _]|[_ Hm']]%lookup_insert_Some; [|by eapply Hf'].
          apply tomb_name_inj in E; [|done..]. subst h'. change (has_blob (with_tombs s ?x) h) with (has_blob s h).
          destruct (Hr name (list_elem_of_here _ _)) as [b Hb]. pose proof (parse_name_inv _ _ _ Hp) as [_ En].
          unfold has_blob. apply orb_true_iff. destruct e; [left|right]; apply bool_decide_eq_true; rewrite <-En; eauto.
        - intros h' m t l Hh' [[_ <-]|[_ Hm']]%lookup_insert_Some Hin Hhl; [by eapply Hpast|by eapply Hy'].
        - intros h' Hh' Hlv' [m [[E _]|[_ Hm']]%lookup_insert_Some]; [|eauto].
          apply tomb_name_inj in E; [|done..]. by subst. }
      destruct (Z.eqb_spec grace 0) as [->|_]; [|done].
      apply (sweep_delete_inv _ _ _ _ _ e); [done..|]. intros [?|(t&l&Hin&Hhl&Hlt)]; [done|].
      specialize (Hpast t l Hin). lia.
Qed.

Lemma sweep_loop_inv names s d :
  sweep_inv names s → sweep_inv [] (foldl (sweep_entry live now grace) (s, d) names).1.
Proof.
  revert s d. induction names as [|name names IH]; intros s d Hi; [done|]. cbn [foldl].
  pose proof (sweep_entry_inv names s d name Hi) as Hi'.
  destruct (sweep_entry live now grace (s, d) name) as [s' d']. by apply IH.
Qed.
End one_sweep.

Lemma has_blob_listed s h (names : list bytes) :
  byte_array 32 h → has_blob s h = true → (∀ n, n ∈ names ↔ is_Some (dir_blobs s !! n)) →
  ∃ n e, n ∈ names ∧ parse_blob_entry_name n = Some (h, e).
Proof.
  intros Hh [Hb|Hb]%orb_true_iff Hn; apply bool_decide_eq_true, Hn in Hb; eauto using parse_identity, parse_encoded.
Qed.

Lemma sweep_ok hist live now grace (names : list bytes) s :
  tombs_ok hist s → (∀ t l, (t, l) ∈ hist → t <= now) → 0 <= grace →
  NoDup names → (∀ n, n ∈ names ↔ is_Some (dir_blobs s !! n)) →
  let s' := (blob_gc_sweep live now grace names s).1 in
  tombs_ok (hist ++ [(now, live)]) s' ∧
  ∀ name h e, parse_blob_entry_name name = Some (h, e) → spared hist live now grace h →
    dir_blobs s' !! name = dir_blobs s !! name.
Proof.
  intros [Hq Hf Hy] Hpast Hg Hnd Hn s'. unfold s', blob_gc_sweep. rewrite io_quiet by done.
  destruct (sweep_loop_inv hist live now grace Hpast Hg s names s 0) as [Hq' Hf' Hy' Hl' Hs' _].
  { split; try done.
    - intros h Hh _ [m Hm]. eapply has_blob_listed; [done|by eapply Hf|done].
    - split; [done|]. intros n. apply Hn. }
  split; [|done]. split; try done.
  intros h m t l Hh Hm [Hin|[= -> ->]%list_elem_of_singleton]%elem_of_app Hhl; [by eapply Hy'|].
  destruct (Hl' h Hh Hhl) as (n&e&Hin&_); [eauto|]. by apply not_elem_of_nil in Hin.
Qed.

(** Sweeps over full directory listings and uploads, none of which fails. *)
Inductive dir_trace : list (SystemTime * gset Hash) → DirState → Prop :=
| dt_init : dir_trace [] dir_empty
| dt_persist hist s cfg h b : dir_trace hist s → byte_array 32 h → dir_trace hist (persist_blob cfg s h b).1
| dt_sweep hist s live now grace names : dir_trace hist s →
    (∀ t l, (t, l) ∈ hist → t <= now) → 0 <= grace →
    NoDup names → (∀ n, n ∈ names ↔ is_Some (dir_blobs s !! n)) →
    dir_trace (hist ++ [(now, live)]) (blob_gc_sweep live now grace names s).1.

Lemma fs_quiet s :
  dir_io s = [] →
  (∀ n b, dir_io (fs_write n b s).2 = [] ∧ dir_tombs (fs_write n b s).2 = dir_tombs s) ∧
  (∀ n m, dir_io (fs_rename n m s).2 = [] ∧ dir_tombs (fs_rename n m s).2 = dir_tombs s) ∧
  (∀ n, dir_io (fs_remove n s).2 = [] ∧ dir_tombs (fs_remove n s).2 = dir_tombs s).
Proof.
  intros E. unfold fs_write, fs_rename, fs_remove. rewrite io_quiet by done.
  split; [done|]. split; intros n *; by destruct (dir_blobs s !! n).
Qed.

Lemma persist_identity_quiet s h b :
  dir_io s = [] → dir_io (persist_identity s h b).1 = [] ∧ dir_tombs (persist_identity s h b).1 = dir_tombs s.
Proof.
  intros E. unfold persist_identity. destruct (fs_quiet s E) as (Hw&_&_). specialize (Hw (to_hex h ++ TMP) b).
  destruct (fs_write _ b s) as [ok s1]. simpl in Hw. destruct Hw as [E1 T1]. destruct ok; [|done]. simpl.
  destruct (fs_quiet s1 E1) as (_&Hr&_). specialize (Hr (to_hex h ++ TMP) (blob_name h)).
  destruct (fs_rename _ _ s1) as [ok s2]. simpl in Hr. destruct Hr as [E2 T2].
  destruct ok; simpl; [by rewrite T2|]. destruct (fs_quiet s2 E2) as (_&_&Hd). rewrite !(proj1 (Hd _)), !(proj2 (Hd _)). by rewrite T2.
Qed.

Lemma persist_blob_quiet cfg s h b :
  dir_io s = [] → dir_io (persist_blob cfg s h b).1 = [] ∧ dir_tombs (persist_blob cfg s h b).1 = dir_tombs s.
Proof.
  intros E. unfold persist_blob. rewrite io_quiet by done. destruct (has_blob s h); [done|].
  assert (∀ s2, dir_io s2 = [] ∧ dir_tombs s2 = dir_tombs s →
    dir_io (persist_identity s2 h b).1 = [] ∧ dir_tombs (persist_identity s2 h b).1 = dir_tombs s) as Hid.
  { intros s2 [E2 T2]. destruct (persist_identity_quiet s2 h b E2) as [-> ->]. done. }
  destruct (comp_enabled cfg && should_compress_blob b cfg); [|by apply Hid].
  destruct (zstd_encode (comp_level cfg) b) as [c|]; [|by apply Hid].
  destruct (fs_quiet s E) as (Hw&_&_). specialize (Hw (to_hex h ++ ZST ++ TMP) c).
  destruct (fs_write _ c s) as [ok s1]. simpl in Hw. destruct Hw as [E1 T1].
  destruct (fs_quiet s1 E1) as (_&Hr&Hd). specialize (Hr (to_hex h ++ ZST ++ TMP) (blob_encoded_name h)).
  assert (∀ s2 n, dir_io s2 = [] ∧ dir_tombs s2 = dir_tombs s →
    dir_io (fs_remove n s2).2 = [] ∧ dir_tombs (fs_remove n s2).2 = dir_tombs s) as Hrm.
  { intros s2 n [E2 T2]. destruct (fs_quiet s2 E2) as (_&_&Hd'). destruct (Hd' n) as [-> ->]. done. }
  destruct ok; [|by apply Hid, Hrm]. destruct (fs_rename _ _ s1) as [ok s2]. simpl in Hr. destruct Hr as [E2 T2].
  destruct ok; [simpl; by rewrite T2|]. apply Hid, Hrm. by rewrite T2.
Qed.

Lemma dir_trace_ok hist s : dir_trace hist s → tombs_ok hist s.
Proof.
  induction 1 as [|hist s cfg h b _ [Hq Hf Hy] Hh|hist s live now grace names _ IH Hp Hg Hnd Hn].
  - split; [done|..]; intros h m; set_solver.
  - destruct (persist_blob_quiet cfg s h b Hq) as [Eq Et]. pose proof (persist_blob_ok cfg s h b Hh) as Hp.
    destruct (persist_blob cfg s h b) as [s' r]. simpl in Eq, Et |- *. split; [done|..]; rewrite Et; [|done].
    intros h' m Hh' Hm. specialize (Hf h' m Hh' Hm).
    assert (same_visible s s' ∨ stored s s' h b) as [Hs|Hs] by (destruct r, (has_blob s h); auto).
    { by rewrite (has_blob_same s). }
    assert (∀ n c, appeared s s' n c → has_blob s' h' = true) as Hap.
    { intros n c [Ha Ho]. unfold has_blob in *.
      assert (∀ n', is_Some (parse_blob_entry_name n') → is_Some (dir_blobs s !! n') → is_Some (dir_blobs s' !! n')) as Hk.
      { intros n' Hn' Hs'. destruct (decide (n' = n)) as [->|]; [eauto|]. by rewrite Ho. }
      apply orb_true_iff in Hf. apply orb_true_iff. rewrite !bool_decide_eq_true in *.
      destruct Hf as [Hf|Hf]; [left|right]; (apply Hk; [|done]); eauto using parse_identity, parse_encoded. }
    destruct Hs as [?|(c&_&?)]; eauto.
  - by apply sweep_ok.
Qed.

(** The tombstone sweep keeps the grace window.  After any sequence of
    uploads and sweeps, a sweep leaves every file of a hash alone that it was
    told is live, or that some sweep was told is live less than the grace window
    ago, whatever the order of the directory listing. *)
Theorem sweep_keeps_live hist s live now grace (names : list bytes) (h : Hash) (name : bytes) e :
  dir_trace hist s → (∀ t l, (t, l) ∈ hist → t <= now) → 0 <= grace →
  NoDup names → (∀ n, n ∈ names ↔ is_Some (dir_blobs s !! n)) →
  parse_blob_entry_name name = Some (h, e) →
  (h ∈ live ∨ ∃ t l, (t, l) ∈ hist ∧ h ∈ l ∧ now - grace < t) →
  dir_blobs (blob_gc_sweep live now grace names s).1 !! name = dir_blobs s !! name.
Proof.
  intros Ht%dir_trace_ok Hp Hg Hnd Hn Hname Hsp.
  destruct (sweep_ok hist live now grace names s Ht Hp Hg Hnd Hn) as [_ Hk]. by eapply Hk.
Qed.
End sweep_facts.

(** ** The node table *)

Section node_facts.
Context `{Postcard (list WireNode), !PostcardLaws (list WireNode)}.
Implicit Types (s : DirState) (room : bytes).

(** Writes of nodes under any schedule of errors, between other calls that
    leave the table alone. *)
Inductive node_step : DirState → DirState → Prop :=
| ns_node s room n : node_step s (persist_node s room n)
| ns_nodes s room l : node_step s (persist_nodes s room l)
| ns_other s s' : dir_nodes s' = dir_nodes s → dir_last_seq s' = dir_last_seq s → node_step s s'.

(** The table grows at its end, with larger sequence numbers. *)
Definition extends s s' : Prop :=
  dir_last_seq s <= dir_last_seq s' ∧
  ∃ extra, dir_nodes s' = dir_nodes s ++ extra ∧
    Forall (λ r, dir_last_seq s < row_seq r <= dir_last_seq s') extra.

#[export] Instance extends_pre : PreOrder extends.
Proof.
  split.
  - intros s. split; [done|]. exists []. by rewrite app_nil_r.
  - intros s1 s2 s3 [L1 (e1&E1&F1)] [L2 (e2&E2&F2)]. split; [lia|]. exists (e1 ++ e2).
    rewrite E2, E1, app_assoc. split; [done|]. apply Forall_app.
    split; eapply Forall_impl; [exact F1|simpl; lia|exact F2|simpl; lia].
Qed.

Lemma extends_same s s' : dir_nodes s' = dir_nodes s → dir_last_seq s' = dir_last_seq s → extends s s'.
Proof. intros E1 E2. split; [lia|]. exists []. rewrite E1, app_nil_r. done. Qed.

Lemma io_extends s o s' : io s = (o, s') → extends s s'.
Proof. unfold io. destruct (dir_io s); intros [= <- <-]; by apply extends_same. Qed.

Lemma insert_row_extends s room id b : extends s (insert_row s room id b).
Proof.
  unfold insert_row, insert_or_ignore. case_decide; [by apply extends_same|]. split; simpl; [lia|].
  exists [mkRow room id b (dir_last_seq s + 1)]. split; [done|]. constructor; [simpl; lia|done].
Qed.

Lemma autocommit_extends s room id b : extends s (insert_autocommit s room id b).
Proof.
  unfold insert_autocommit. destruct (io s) as [[n|] s1] eqn:E; apply io_extends in E; [done|].
  etrans; [exact E|apply insert_row_extends].
Qed.

Lemma autocommits_extend room l s :
  extends s (foldl (λ s n, insert_autocommit s room (node_id n) (pack_nodes [n])) s l).
Proof.
  revert s. induction l as [|n l IH]; intros s; [done|]. cbn [foldl].
  etrans; [apply autocommit_extends|apply IH].
Qed.

Lemma persist_nodes_extends s room l : extends s (persist_nodes s room l).
Proof.
  unfold persist_nodes. destruct l as [|n l]; [done|]. set (l' := n :: l). clearbody l'.
  destruct (io s) as [[x|] s1] eqn:E1; apply io_extends in E1; [etrans; [exact E1|apply autocommits_extend]|].
  destruct (io s1) as [[x|] s2] eqn:E2; apply io_extends in E2; [by etrans|]. etrans; [exact E1|]. etrans; [exact E2|].
  pose proof (autocommits_extend room l' s2) as Hf. destruct (io _) as [[x|] s3] eqn:E3; apply io_extends in E3.
  - by apply extends_same.
  - by etrans.
Qed.

Lemma node_step_extends s s' : node_step s s' → extends s s'.
Proof.
  destruct 1; [apply autocommit_extends|apply persist_nodes_extends|by apply extends_same].
Qed.

Definition seqs_ok s : Prop := Forall (λ r, 0 < row_seq r <= dir_last_seq s) (dir_nodes s).

Lemma extends_seqs s s' : 0 <= dir_last_seq s → extends s s' → seqs_ok s → seqs_ok s'.
Proof.
  intros Hp [Hl (extra&E&Hf)] Hs. unfold seqs_ok. rewrite E. apply Forall_app.
  split; eapply Forall_impl; [exact Hs|simpl; lia|exact Hf|simpl; lia].
Qed.

Lemma max_seq_bound (z : Z) (l : list Z) x : x ∈ z :: l → x <= foldr Z.max z l.
Proof.
  induction l as [|y l IH]; simpl.
  - intros ->%list_elem_of_singleton. lia.
  - intros [->|[->|Hin]%elem_of_cons]%elem_of_cons; [|lia|].
    + assert (z <= foldr Z.max z l) by (apply IH; by left). lia.
    + assert (x <= foldr Z.max z l) by (apply IH; by right). lia.
Qed.
Lemma max_seq_in (z : Z) (l : list Z) : foldr Z.max z l ∈ z :: l.
Proof.
  induction l as [|y l IH]; simpl; [by left|].
  destruct (Z.max_spec y (foldr Z.max z l)) as [[_ ->]|[_ ->]]; [|right; by left].
  apply elem_of_cons in IH as [->|IH]; [by left|right; by right].
Qed.

(** The version of a room when the query succeeds. *)
Lemma version_spec s room v :
  seqs_ok s → (room_nodes_version s room).1 = Some v →
  (∃ r, r ∈ load_rows s room ∧ row_seq r = v) ∧ ∀ r, r ∈ load_rows s room → row_seq r <= v.
Proof.
  intros Hs. unfold room_nodes_version. destruct (io s) as [[x|] s1] eqn:E; [done|].
  assert (load_rows s1 room = load_rows s room) as ->.
  { unfold load_rows. unfold io in E. destruct (dir_io s); by simplify_eq/=. }
  destruct (load_rows s room) as [|r rs] eqn:Er; [done|]. intros [= <-].
  pose proof (max_seq_in (row_seq r) (row_seq <$> rs)) as Hin. rewrite <-fmap_cons in Hin.
  apply list_elem_of_fmap in Hin as (r'&Er'&Hr').
  assert (0 < row_seq r') as Hpos.
  { unfold seqs_ok in Hs. rewrite Forall_forall in Hs. apply Hs.
    rewrite <-Er in Hr'. unfold load_rows in Hr'. by apply list_elem_of_filter in Hr' as [_ ?]. }
  rewrite Z.max_r by lia. split; [exists r'; auto|].
  intros r0 Hr0. apply max_seq_bound. rewrite <-fmap_cons. by apply list_elem_of_fmap_2.
Qed.

(** Equal versions, equal histories. *)
Lemma version_exact room s1 s2 v :
  seqs_ok s1 → 0 <= dir_last_seq s1 → extends s1 s2 →
  (room_nodes_version s1 room).1 = Some v → (room_nodes_version s2 room).1 = Some v →
  load_rows s2 room = load_rows s1 room.
Proof.
  intros Hs1 Hl Hx. assert (seqs_ok s2) as Hs2 by (by eapply extends_seqs).
  intros [(r&Hr&Ev) _]%version_spec [_ Hmax]%version_spec; [|done..].
  destruct Hx as [_ (extra&E&Hf)]. unfold load_rows in *. rewrite E, filter_app in *.
  assert (filter (λ r, row_room r = room) extra = []) as ->; [|by rewrite app_nil_r].
  apply elem_of_nil_inv. intros x Hx. pose proof Hx as [_ Hx']%list_elem_of_filter.
  rewrite Forall_forall in Hf. specialize (Hf x Hx').
  assert (row_seq x <= v) by (apply Hmax, elem_of_app; by right).
  apply list_elem_of_filter in Hr as [_ Hr]. unfold seqs_ok in Hs1. rewrite Forall_forall in Hs1. specialize (Hs1 r Hr). lia.
Qed.

(** The version of a room tells when it changed.  Between two moments of a
    store, whatever writes happened and whichever of them failed, a room whose
    version is the same number has the same rows in the same order, so that a
    cached scan of it is still exact. *)
Theorem room_version_detects_change s1 s2 (room : bytes) v :
  rtc node_step dir_empty s1 → rtc node_step s1 s2 →
  (room_nodes_version s1 room).1 = Some v → (room_nodes_version s2 room).1 = Some v →
  load_rows s2 room = load_rows s1 room.
Proof.
  intros H1 H2.
  assert (∀ s s', rtc node_step s s' → extends s s') as Hext.
  { intros s s'. induction 1 as [|s s2' s3 Hs _ IH]; [done|]. etrans; [by apply node_step_extends|exact IH]. }
  destruct (Hext _ _ H1) as [Hl _]. apply version_exact; [|exact Hl|by apply Hext].
  eapply extends_seqs; [|by apply Hext|constructor]. done.
Qed.
End node_facts.
