(* ===== verification/Persist.v ===== *)
(** The persistence traits of the server (server/store.rs): nodes, blobs, and
    their combination, with the in-memory, directory and composite backends, and
    the contract the rooms rely on.

    A call may change the state of its backend (a failed call consumes the
    schedule of [DirState]), so every operation passes the state on. *)

From S2P Require Import Prelude Hex Op Node Gc DirStore DirFacts.

Section traits.
Variable P : Type.

(** [NodePersistence]. *)
Class NodePersistence := {
  np_load_room_nodes : bytes → P → list SyncNode * P;
  np_persist_node : bytes → SyncNode → P → P;
  np_persist_nodes : bytes → list SyncNode → P → P;
  np_durable : P → bool;
  np_known_room_ids : P → list bytes * P;
  np_can_enumerate_rooms : P → bool;
  np_room_nodes_version : bytes → P → option Z * P;
}.

(** [BlobPersistence], without the presigned URLs.  The clock of a sweep and the
    listing of the store it walks are arguments. *)
Class BlobPersistence := {
  bp_get_blob : Hash → P → option bytes * P;
  bp_persist_blob : Hash → bytes → P → P * result PersistBlobError unit;
  bp_has_blob : Hash → P → bool;
  bp_get_blob_hydrates : P → bool;
  bp_blob_gc_sweep : gset Hash → SystemTime → Duration → list bytes → P → P * Z;
  bp_durable : P → bool;
}.
End traits.

(** The defaults of the traits. *)
Definition default_persist_nodes {P} (persist : bytes → SyncNode → P → P) (room : bytes) (ns : list SyncNode) (p : P) : P :=
  foldl (λ p n, persist room n p) p ns.

Inductive HydrateError := HydrateMissing | Unhydratable (backend detail : bytes) | HydrateBackend (m : bytes).
(** [hydrate_blob] of the trait; the name of the backend is its [Debug] text. *)
Definition hydrate_blob {P} `{BlobPersistence P} (name : bytes) (h : Hash) (p : P) : result HydrateError bytes * P :=
  if negb (bp_get_blob_hydrates P p)
  then (Err (Unhydratable name (bs "backend declares get_blob_hydrates() = false and does not override hydrate_blob(), so it has no way to read bytes into this process")), p)
  else
    let '(r, p) := bp_get_blob P h p in
    (match r with Some b => Ok b | None => Err HydrateMissing end, p).

(** [ServerPersistence::is_durable]. *)
Definition is_durable {P} `{NodePersistence P, BlobPersistence P} (p : P) : bool := np_durable P p && bp_durable P p.

(** ** Backends *)

Inductive NoPersistence := no_persistence.
#[export] Instance no_nodes : NodePersistence NoPersistence := {|
  np_load_room_nodes := λ _ p, ([], p);
  np_persist_node := λ _ _ p, p;
  np_persist_nodes := default_persist_nodes (λ _ _ p, p);
  np_durable := λ _, false;
  np_known_room_ids := λ p, ([], p);
  np_can_enumerate_rooms := λ _, false;
  np_room_nodes_version := λ _ p, (None, p);
|}.
#[export] Instance no_blobs : BlobPersistence NoPersistence := {|
  bp_get_blob := λ _ p, (None, p);
  bp_persist_blob := λ _ _ p, (p, Ok tt);
  bp_has_blob := λ _ _, false;
  bp_get_blob_hydrates := λ _, true;
  bp_blob_gc_sweep := λ _ _ _ _ p, (p, 0);
  bp_durable := λ _, false;
|}.

Section dir.
Context `{Blake3, Zstd, Postcard (list WireNode)}.

#[export] Instance dir_node_persistence : NodePersistence DirState := {|
  np_load_room_nodes := λ room s, load_room_nodes s room;
  np_persist_node := λ room n s, persist_node s room n;
  np_persist_nodes := λ room ns s, persist_nodes s room ns;
  np_durable := λ _, true;
  np_known_room_ids := known_room_ids;
  np_can_enumerate_rooms := λ _, true;
  np_room_nodes_version := λ room s, room_nodes_version s room;
|}.
#[export] Instance dir_blob_persistence (cfg : BlobCompressionConfig) : BlobPersistence DirState := {|
  bp_get_blob := λ h s, get_blob s h;
  bp_persist_blob := λ h b s, persist_blob cfg s h b;
  bp_has_blob := λ h s, has_blob s h;
  bp_get_blob_hydrates := λ _, true;
  bp_blob_gc_sweep := λ live now grace names s, blob_gc_sweep live now grace names s;
  bp_durable := λ _, true;
|}.
End dir.

(** [Composite<N, B>] forwards every call to one half. *)
Record Composite (N B : Type) := mkComposite { co_nodes : N; co_blobs : B }.
Arguments mkComposite {N B}. Arguments co_nodes {N B}. Arguments co_blobs {N B}.
Section composite.
Context {N B : Type} `{NodePersistence N, BlobPersistence B}.
Definition on_nodes {A} (r : A * N) (b : B) : A * Composite N B := (r.1, mkComposite r.2 b).
#[export] Instance composite_nodes : NodePersistence (Composite N B) := {|
  np_load_room_nodes := λ room c, on_nodes (np_load_room_nodes N room (co_nodes c)) (co_blobs c);
  np_persist_node := λ room n c, mkComposite (np_persist_node N room n (co_nodes c)) (co_blobs c);
  np_persist_nodes := λ room ns c, mkComposite (np_persist_nodes N room ns (co_nodes c)) (co_blobs c);
  np_durable := λ c, np_durable N (co_nodes c);
  np_known_room_ids := λ c, on_nodes (np_known_room_ids N (co_nodes c)) (co_blobs c);
  np_can_enumerate_rooms := λ c, np_can_enumerate_rooms N (co_nodes c);
  np_room_nodes_version := λ room c, on_nodes (np_room_nodes_version N room (co_nodes c)) (co_blobs c);
|}.
#[export] Instance composite_blobs : BlobPersistence (Composite N B) := {|
  bp_get_blob := λ h c, let '(r, b) := bp_get_blob B h (co_blobs c) in (r, mkComposite (co_nodes c) b);
  bp_persist_blob := λ h x c, let '(b, r) := bp_persist_blob B h x (co_blobs c) in (mkComposite (co_nodes c) b, r);
  bp_has_blob := λ h c, bp_has_blob B h (co_blobs c);
  bp_get_blob_hydrates := λ c, bp_get_blob_hydrates B (co_blobs c);
  bp_blob_gc_sweep := λ live now grace names c,
    let '(b, n) := bp_blob_gc_sweep B live now grace names (co_blobs c) in (mkComposite (co_nodes c) b, n);
  bp_durable := λ c, bp_durable B (co_blobs c);
|}.
End composite.

(** ** The contract

    What the rooms rely on in a durable backend: a room's nodes are append-only and come back in the
    order they were written, a version number stands for one history, and a sweep
    leaves live blobs and all nodes alone.  [pc_quiet] says that no call to come
    fails, [pc_later] that the second state comes after the first. *)

Definition append_new (l : list SyncNode) (n : SyncNode) : list SyncNode :=
  if decide (node_id n ∈ node_id <$> l) then l else l ++ [n].

Class PersistContract (P : Type) `{NodePersistence P, BlobPersistence P} := {
  pc_ok : P → Prop;
  pc_quiet : P → Prop;
  pc_later : relation P;
  pc_nodes : bytes → P → list SyncNode;
  #[global] pc_later_pre :: PreOrder pc_later;
  pc_durable p : is_durable p = true;
  pc_enumerates p : np_can_enumerate_rooms P p = true;
  pc_load room p : pc_quiet p → np_load_room_nodes P room p = (pc_nodes room p, p);
  pc_known p : pc_quiet p → ∃ ids, np_known_room_ids P p = (ids, p) ∧ ∀ room, pc_nodes room p ≠ [] → room ∈ ids;
  pc_version_quiet room p : pc_quiet p → (np_room_nodes_version P room p).2 = p;
  pc_version_exact room p1 p2 v : pc_ok p1 → pc_later p1 p2 →
    (np_room_nodes_version P room p1).1 = Some v → (np_room_nodes_version P room p2).1 = Some v →
    pc_nodes room p2 = pc_nodes room p1;
  pc_persist_nodes room ns p : pc_ok p →
    let p' := np_persist_nodes P room ns p in
    pc_ok p' ∧ pc_later p p' ∧
    (pc_quiet p → pc_quiet p' ∧ pc_nodes room p' = foldl append_new (pc_nodes room p) ns ∧
       ∀ room', room' ≠ room → pc_nodes room' p' = pc_nodes room' p);
  pc_persist_node room n p : pc_ok p →
    let p' := np_persist_node P room n p in
    pc_ok p' ∧ pc_later p p' ∧
    (pc_quiet p → pc_quiet p' ∧ pc_nodes room p' = append_new (pc_nodes room p) n ∧
       ∀ room', room' ≠ room → pc_nodes room' p' = pc_nodes room' p);
  pc_get_blob h p : pc_ok p → pc_quiet p → (bp_get_blob P h p).2 = p;
  pc_sweep live now grace names p : pc_ok p →
    let p' := (bp_blob_gc_sweep P live now grace names p).1 in
    pc_ok p' ∧ pc_later p p' ∧ (pc_quiet p → pc_quiet p') ∧ (∀ room, pc_nodes room p' = pc_nodes room p) ∧
    ∀ h, h ∈ live → byte_array 32 h → bp_has_blob P h p' = bp_has_blob P h p;
}.
