(* ===== verification/PersistFacts.v ===== *)
(** The directory backend and its composition with another blob backend meet the
    contract of the rooms. *)

From S2P Require Import Prelude Hex Op Node Gc DirStore DirFacts Persist.

Section dir_contract.
Context `{Blake3, Zstd, Postcard (list WireNode), !PostcardLaws (list WireNode)}.
Implicit Types (s : DirState) (room : bytes).

(** Every row decodes to the node it is filed under. *)
Definition row_ok (r : NodeRow) : Prop := ∃ n, row_node r = Some n ∧ node_id n = row_node_id r.
Record dir_ok s : Prop := {
  do_seqs : seqs_ok s;
  do_last : 0 <= dir_last_seq s;
  do_rows : Forall row_ok (dir_nodes s);
}.
Definition dir_room_nodes room s : list SyncNode := omap row_node (load_rows s room).

Lemma row_node_pack room (n : SyncNode) q : row_node (mkRow room (node_id n) (pack_nodes [n]) q) = Some n.
Proof.
  unfold row_node, unpack_nodes, pack_nodes. cbn [row_bytes]. rewrite pc_roundtrip. cbn. by rewrite node_of_wire_of_node.
Qed.
Lemma dir_ids_of rows room : Forall row_ok rows →
  node_id <$> omap row_node (filter (λ r, row_room r = room) rows) =
  row_node_id <$> filter (λ r, row_room r = room) rows.
Proof.
  induction 1 as [|r rows (n&Hn&Hid) _ IH]; [done|]. rewrite filter_cons. case_decide; [|done].
  cbn. rewrite Hn. cbn. by rewrite Hid, IH.
Qed.

Lemma insert_row_ok s room n : dir_ok s →
  let s' := insert_row s room (node_id n) (pack_nodes [n]) in
  dir_ok s' ∧ extends s s' ∧ dir_io s' = dir_io s ∧ dir_room_nodes room s' = append_new (dir_room_nodes room s) n ∧
  ∀ room', room' ≠ room → dir_room_nodes room' s' = dir_room_nodes room' s.
Proof.
  intros [Hs Hl Hr]. cbn zeta. pose proof (insert_row_extends s room (node_id n) (pack_nodes [n])) as He.
  pose proof (dir_ids_of (dir_nodes s) room Hr) as Hids. change (node_id <$> dir_room_nodes room s = row_node_id <$> load_rows s room) in Hids.
  assert (Exists (λ r, row_room r = room ∧ row_node_id r = node_id n) (dir_nodes s) ↔
    node_id n ∈ node_id <$> dir_room_nodes room s) as Hex.
  { rewrite Hids, Exists_exists, list_elem_of_fmap. unfold load_rows. split.
    - intros (r&?&?&?). exists r. by rewrite list_elem_of_filter.
    - intros (r&?&[? ?]%list_elem_of_filter). eauto. }
  unfold append_new. revert He. unfold insert_row, insert_or_ignore. case_decide as Hd.
  - intros He. rewrite decide_True by (by apply Hex). split; [by split|]. split; [done|]. done.
  - intros He. rewrite decide_False by (by rewrite <-Hex). split.
    { split; cbn.
      - eapply extends_seqs; [exact Hl|exact He|done].
      - lia.
      - apply Forall_app. split; [done|]. constructor; [|done]. exists n. split; [apply row_node_pack|done]. }
    split; [done|]. split; [done|]. unfold dir_room_nodes, load_rows. cbn. split; [|intros room' Hne]; rewrite filter_app, filter_cons.
    + rewrite decide_True by done. rewrite omap_app. cbn. rewrite row_node_pack. done.
    + rewrite decide_False by (cbn; congruence). by rewrite app_nil_r.
Qed.

(** What a write leaves behind, whether or not it fails. *)
Definition dir_wrote room (f : list SyncNode → list SyncNode) s s' : Prop :=
  dir_ok s' ∧ extends s s' ∧
  (dir_io s = [] → dir_io s' = [] ∧ dir_room_nodes room s' = f (dir_room_nodes room s) ∧
    ∀ room', room' ≠ room → dir_room_nodes room' s' = dir_room_nodes room' s).

Lemma io_dir_ok s o s' : io s = (o, s') → dir_ok s → dir_ok s'.
Proof. unfold io. destruct (dir_io s); intros [= <- <-]; [done|]. by intros []. Qed.

Lemma autocommit_wrote s room n : dir_ok s →
  dir_wrote room (λ l, append_new l n) s (insert_autocommit s room (node_id n) (pack_nodes [n])).
Proof.
  intros Hok. unfold insert_autocommit. destruct (io s) as [[e|] s1] eqn:E.
  - split; [by eapply io_dir_ok|]. split; [by eapply io_extends|]. intros Eq. rewrite io_quiet in E by done. simplify_eq.
  - pose proof (io_dir_ok _ _ _ E Hok) as Hok1. destruct (insert_row_ok s1 room n Hok1) as (?&He&Eio&Hn&Ho). split; [done|].
    split; [etrans; [by eapply io_extends|done]|]. intros Eq. rewrite io_quiet in E by done. simplify_eq. rewrite Eio. done.
Qed.
Lemma autocommits_wrote room (ns : list SyncNode) s : dir_ok s →
  dir_wrote room (λ l, foldl append_new l ns) s
    (foldl (λ s n, insert_autocommit s room (node_id n) (pack_nodes [n])) s ns).
Proof.
  revert s. induction ns as [|n ns IH]; intros s Hok; [done|]. cbn [foldl].
  destruct (autocommit_wrote s room n Hok) as (Hok1&He1&Hq1). destruct (IH _ Hok1) as (Hok2&He2&Hq2).
  split; [done|]. split; [by etrans|]. intros Eq. destruct (Hq1 Eq) as (Eq1&Hn1&Ho1). destruct (Hq2 Eq1) as (Eq2&Hn2&Ho2).
  split; [done|]. rewrite Hn2, Hn1. split; [done|]. intros room' Hne. by rewrite Ho2, Ho1.
Qed.

Lemma dir_persist_nodes_ok room ns s : dir_ok s → dir_wrote room (λ l, foldl append_new l ns) s (persist_nodes s room ns).
Proof.
  intros Hok. pose proof (persist_nodes_extends s room ns) as Hext. revert Hext. unfold persist_nodes.
  destruct ns as [|n ns]; [done|]. set (l := n :: ns). clearbody l. intros Hext.
  destruct (io s) as [o1 s1] eqn:E1. pose proof (io_dir_ok _ _ _ E1 Hok) as Hok1.
  assert (dir_io s = [] → o1 = None ∧ s1 = s) as Hq1 by (intros Eq; rewrite io_quiet in E1 by done; by simplify_eq).
  destruct o1 as [x|].
  { destruct (autocommits_wrote room l s1 Hok1) as (Hok2&_&_). split; [done|]. split; [done|]. by intros [? _]%Hq1. }
  destruct (io s1) as [o2 s2] eqn:E2. pose proof (io_dir_ok _ _ _ E2 Hok1) as Hok2.
  assert (dir_io s = [] → o2 = None ∧ s2 = s) as Hq2.
  { intros Eq. destruct (Hq1 Eq) as [_ ->]. rewrite io_quiet in E2 by done. by simplify_eq. }
  destruct o2 as [x|]; [split; [done|]; split; [done|]; by intros [? _]%Hq2|].
  destruct (autocommits_wrote room l s2 Hok2) as (Hok3&_&Hq3). set (t := foldl _ s2 l) in *.
  destruct (io t) as [o4 s4] eqn:E4. pose proof (io_dir_ok _ _ _ E4 Hok3) as Hok4.
  destruct o4 as [x|]; split.
  - destruct Hok2. by split.
  - split; [done|]. intros Eq. destruct (Hq2 Eq) as [_ ->]. destruct (Hq3 Eq) as [Eqt _]. rewrite io_quiet in E4 by done. done.
  - done.
  - split; [done|]. intros Eq. destruct (Hq2 Eq) as [_ ->]. destruct (Hq3 Eq) as [Eqt Hr]. rewrite io_quiet in E4 by done.
    injection E4 as <-. done.
Qed.

(** ** Sweeps *)

(** A blob operation: the node table stays, and no failure is invented. *)
Definition nodes_kept s s' : Prop :=
  dir_nodes s' = dir_nodes s ∧ dir_last_seq s' = dir_last_seq s ∧ (dir_io s = [] → dir_io s' = []).
#[local] Instance nodes_kept_pre : PreOrder nodes_kept.
Proof. split; [by intros s; split|]. intros s1 s2 s3 (A1&B1&C1) (A2&B2&C2). unfold nodes_kept. rewrite A2, B2. auto. Qed.
Lemma io_kept s o s' : io s = (o, s') → nodes_kept s s'.
Proof. unfold io, nodes_kept. destruct (dir_io s) eqn:Eq; intros [= <- <-]; repeat split; [by rewrite Eq|done]. Qed.
Lemma fs_remove_kept name s : nodes_kept s (fs_remove name s).2.
Proof.
  unfold fs_remove. destruct (io s) as [[x|] s1] eqn:E; apply io_kept in E; [done|].
  by destruct (dir_blobs s1 !! name).
Qed.
Lemma fs_remove_tomb_kept name s : nodes_kept s (fs_remove_tomb name s).
Proof. unfold fs_remove_tomb. by destruct (io s) as [[x|] s1] eqn:E; apply io_kept in E. Qed.
Lemma fs_read_kept name s : nodes_kept s (fs_read name s).2 ∧ (dir_io s = [] → (fs_read name s).2 = s).
Proof.
  unfold fs_read. split; [by destruct (io s) as [[x|] s1] eqn:E; apply io_kept in E|]. intros Eq. by rewrite io_quiet.
Qed.
Lemma sweep_delete_kept name tomb s d : nodes_kept s (sweep_delete name tomb s d).1.
Proof.
  unfold sweep_delete. pose proof (fs_remove_kept name s) as Hk. destruct (fs_remove name s) as [[] s1]; cbn in *; [|done].
  etrans; [done|apply fs_remove_tomb_kept].
Qed.

(** The files of a hash after one step of a sweep. *)
Definition files_kept h s s' : Prop := ∀ name e, parse_blob_entry_name name = Some (h, e) → dir_blobs s' !! name = dir_blobs s !! name.
#[local] Instance files_kept_pre h : PreOrder (files_kept h).
Proof. split; [done|]. intros s1 s2 s3 Ha Hb name e He. by rewrite (Hb name e), (Ha name e). Qed.
Lemma io_files h s o s' : io s = (o, s') → files_kept h s s'.
Proof. intros [E _]%io_blobs name e _. by rewrite E. Qed.
Lemma fs_remove_tomb_files h name s : files_kept h s (fs_remove_tomb name s).
Proof. unfold fs_remove_tomb. by destruct (io s) as [[x|] s1] eqn:E; apply (io_files h) in E. Qed.
Lemma sweep_delete_files h h' name e tomb s d :
  parse_blob_entry_name name = Some (h', e) → h' ≠ h → files_kept h s (sweep_delete name tomb s d).1.
Proof.
  intros Hp Hne. unfold sweep_delete, fs_remove. destruct (io s) as [[x|] s1] eqn:E; apply (io_files h) in E; [done|].
  destruct (dir_blobs s1 !! name); [|done]. cbn. etrans; [exact E|]. etrans; [|apply fs_remove_tomb_files].
  intros n e' Hn. cbn. rewrite lookup_delete_ne; [done|]. congruence.
Qed.
Lemma files_has h s s' : byte_array 32 h → files_kept h s s' → has_blob s' h = has_blob s h.
Proof. intros Hh Hk. unfold has_blob. by rewrite (Hk _ _ (parse_identity h Hh)), (Hk _ _ (parse_encoded h Hh)). Qed.

(** One entry: the table stays, and the files of another or of a live hash. *)
Lemma sweep_entry_keeps live now grace s d name :
  let s' := (sweep_entry live now grace (s, d) name).1 in
  nodes_kept s s' ∧ ∀ h, h ∈ live ∨ (∀ e, parse_blob_entry_name name ≠ Some (h, e)) → files_kept h s s'.
Proof.
  cbn zeta. unfold sweep_entry. destruct (decide _); [done|]. destruct (parse_blob_entry_name name) as [[h' e]|] eqn:Hp; [|done].
  destruct (decide (h' ∈ live)) as [Hl|Hl].
  { cbn [fst]. case_decide; [|done]. split; [apply fs_remove_tomb_kept|]. intros h _. apply fs_remove_tomb_files. }
  assert (∀ h, h ∈ live ∨ (∀ e0, Some (h', e) ≠ Some (h, e0)) → h' ≠ h) as Hne.
  { intros h [Hh|Hh] <-; [done|]. by destruct (Hh e). }
  destruct (io s) as [o1 s1] eqn:E1. pose proof (io_kept _ _ _ E1) as K1. pose proof (λ h, io_files h _ _ _ E1) as F1.
  assert (∀ s2, nodes_kept s s2 → (∀ h, files_kept h s s2) →
    let s' := (sweep_delete name (tombstone_name h') s2 d).1 in
    nodes_kept s s' ∧ ∀ h, h ∈ live ∨ (∀ e0, Some (h', e) ≠ Some (h, e0)) → files_kept h s s') as Hdel.
  { intros s2 K2 F2. split; [etrans; [exact K2|apply sweep_delete_kept]|]. intros h Hh. etrans; [apply F2|].
    eapply sweep_delete_files; [exact Hp|by apply Hne]. }
  assert (let '(made, s2) := io s1 in nodes_kept s s2 ∧ ∀ h, files_kept h s s2) as H2.
  { destruct (io s1) as [o2 s2] eqn:E2. split; [etrans; [exact K1|by eapply io_kept]|]. intros h. etrans; [apply F1|by eapply io_files]. }
  assert (∀ x : DirState * Z, x = match io s1 with
      | (Some _, s2) => (s2, d)
      | (None, s2) => match io s2 with
          | (Some _, s3) => (s3, d)
          | (None, s3) => let s4 := with_tombs s3 (<[tombstone_name h' := now]> (dir_tombs s3)) in
              if grace =? 0 then sweep_delete name (tombstone_name h') s4 d else (s4, d)
          end end →
    nodes_kept s x.1 ∧ ∀ h, h ∈ live ∨ (∀ e0, Some (h', e) ≠ Some (h, e0)) → files_kept h s x.1) as Hnew.
  { intros x ->. destruct (io s1) as [[y|] s2]; [destruct H2; auto|]. destruct H2 as [K2 F2].
    destruct (io s2) as [o3 s3] eqn:E3.
    assert (nodes_kept s s3) as K3 by (etrans; [exact K2|by eapply io_kept]).
    assert (∀ h, files_kept h s s3) as F3 by (intros h; etrans; [apply F2|by eapply io_files]).
    destruct o3; [auto|]. cbn zeta. destruct (grace =? 0); [by apply Hdel|]. cbn [fst]. split; [done|]. intros h _. apply F3. }
  destruct o1 as [x|]; [by apply Hnew|]. destruct (dir_tombs s1 !! _) as [m|]; [|by apply Hnew].
  destruct (aged now grace m); [by apply Hdel|]. cbn [fst]. auto.
Qed.
Lemma sweep_keeps live now grace names s :
  let s' := (blob_gc_sweep live now grace names s).1 in
  nodes_kept s s' ∧ ∀ h, h ∈ live → files_kept h s s'.
Proof.
  cbn zeta. unfold blob_gc_sweep. destruct (io s) as [o s1] eqn:E. pose proof (io_kept _ _ _ E) as K.
  pose proof (λ h, io_files h _ _ _ E) as F. destruct o as [x|]; [auto|].
  assert (∀ d, let s' := (foldl (sweep_entry live now grace) (s1, d) names).1 in
    nodes_kept s1 s' ∧ ∀ h, h ∈ live → files_kept h s1 s') as Hloop.
  { clear. revert s1. induction names as [|name names IH]; intros s1 d; [done|]. cbn [foldl].
    destruct (sweep_entry_keeps live now grace s1 d name) as [K F]. destruct (sweep_entry live now grace (s1, d) name) as [s2 d2].
    cbn in K, F. destruct (IH s2 d2) as [K' F']. split; [by etrans|]. intros h Hh. etrans; [apply F; by left|by apply F']. }
  destruct (Hloop 0) as [K' F']. split; [by etrans|]. intros h Hh. etrans; [apply F|by apply F'].
Qed.

(** A hash without a tombstone gets at most a fresh one, and keeps its files. *)
Definition unmarked (now : SystemTime) h s : Prop :=
  dir_tombs s !! tombstone_name h = None ∨ dir_tombs s !! tombstone_name h = Some now.
Lemma io_tombs s o s' : io s = (o, s') → dir_tombs s' = dir_tombs s.
Proof. by intros [_ ?]%io_blobs. Qed.
Lemma remove_tomb_unmarked now h tomb s : unmarked now h s → unmarked now h (fs_remove_tomb tomb s).
Proof.
  unfold unmarked, fs_remove_tomb. intros Hu. destruct (io s) as [[x|] s1] eqn:E; apply io_tombs in E; cbn; rewrite E; [done|].
  destruct (decide (tomb = tombstone_name h)) as [->|Hne]; [left; by rewrite lookup_delete_eq|by rewrite lookup_delete_ne].
Qed.
Lemma sweep_delete_unmarked now h name tomb s d : unmarked now h s → unmarked now h (sweep_delete name tomb s d).1.
Proof.
  intros Hu. unfold sweep_delete, fs_remove. destruct (io s) as [[x|] s1] eqn:E; apply io_tombs in E; cbn; [unfold unmarked; by rewrite E|].
  destruct (dir_blobs s1 !! name); cbn; [apply remove_tomb_unmarked|]; unfold unmarked; cbn; by rewrite E.
Qed.
Lemma sweep_entry_unmarked live now grace s d name h :
  byte_array 32 h → 0 < grace → unmarked now h s →
  let s' := (sweep_entry live now grace (s, d) name).1 in unmarked now h s' ∧ files_kept h s s'.
Proof.
  intros Hh Hg Hu. cbn zeta. destruct (sweep_entry_keeps live now grace s d name) as [_ Hother]. revert Hother. unfold sweep_entry.
  destruct (decide _); [done|]. destruct (parse_blob_entry_name name) as [[h' e]|] eqn:Hp; [|done]. intros Hother.
  pose proof (parse_name_inv _ _ _ Hp) as [Hh' _].
  destruct (decide (h' ∈ live)) as [Hl|Hl].
  { cbn [fst] in *. case_decide; [|done]. split; [by apply remove_tomb_unmarked|]. apply fs_remove_tomb_files. }
  assert (h' ≠ h → files_kept h s _) as Hne by (intros Hne; apply Hother; right; congruence). clear Hother. revert Hne.
  destruct (io s) as [o1 s1] eqn:E1. pose proof (io_tombs _ _ _ E1) as T1. pose proof (io_files h _ _ _ E1) as F1.
  set (fresh := match io s1 with (Some _, s2) => _ | (None, s2) => _ end).
  assert (unmarked now h s1) as Hu1 by (unfold unmarked; by rewrite T1).
  assert (unmarked now h fresh.1 ∧ (h' = h → files_kept h s fresh.1)) as [Hfu Hff].
  { unfold fresh. destruct (io s1) as [o2 s2] eqn:E2. pose proof (io_tombs _ _ _ E2) as T2. pose proof (io_files h _ _ _ E2) as F2.
    destruct o2 as [x|]; cbn [fst]; [split; [unfold unmarked; by rewrite T2|intros _; by etrans]|].
    destruct (io s2) as [o3 s3] eqn:E3. pose proof (io_tombs _ _ _ E3) as T3. pose proof (io_files h _ _ _ E3) as F3.
    destruct o3 as [x|]; cbn [fst]; [split; [unfold unmarked; by rewrite T3, T2|intros _; etrans; [exact F1|]; by etrans]|].
    rewrite (proj2 (Z.eqb_neq grace 0)) by lia. cbn [fst]. split.
    - unfold unmarked. cbn. destruct (decide (h' = h)) as [->|Hn]; [right; apply lookup_insert_eq|].
      rewrite lookup_insert_ne by (intros E; apply tomb_name_inj in E; done). by rewrite T3, T2.
    - intros _. etrans; [exact F1|]. etrans; [exact F2|]. intros nm e' Hnm. cbn. by apply (F3 nm e'). }
  assert (∀ x : DirState * Z, (h' ≠ h → files_kept h s x.1) → unmarked now h x.1 ∧ (h' = h → files_kept h s x.1) →
    unmarked now h x.1 ∧ files_kept h s x.1) as Hboth.
  { intros x Ha [Hb Hc]. split; [done|]. destruct (decide (h' = h)); auto. }
  destruct o1 as [x|]; [intros Hne; by apply (Hboth fresh)|].
  destruct (dir_tombs s1 !! tombstone_name h') as [m|] eqn:Em; [|intros Hne; by apply (Hboth fresh)].
  destruct (aged now grace m) eqn:Ea; intros Hne; [|by split].
  apply Hboth; [done|]. split; [by apply sweep_delete_unmarked|]. intros ->. exfalso.
  destruct Hu1 as [Hu1|Hu1]; rewrite Em in Hu1; [done|]. injection Hu1 as ->. unfold aged in Ea.
  apply andb_true_iff in Ea as [_ Ea%Z.leb_le]. lia.
Qed.
Lemma sweep_first_sight live now grace names s h :
  byte_array 32 h → dir_tombs s !! tombstone_name h = None → 0 < grace →
  files_kept h s (blob_gc_sweep live now grace names s).1.
Proof.
  intros Hh Ht Hg. unfold blob_gc_sweep. destruct (io s) as [o s1] eqn:E. pose proof (io_tombs _ _ _ E) as T. pose proof (io_files h _ _ _ E) as F.
  destruct o as [x|]; [done|]. etrans; [exact F|]. assert (unmarked now h s1) as Hu by (left; by rewrite T). clear E T F Ht s.
  generalize 0. revert s1 Hu. induction names as [|name names IH]; intros s1 Hu d; [done|]. cbn [foldl].
  destruct (sweep_entry_unmarked live now grace s1 d name h Hh Hg Hu) as [Hu' F']. destruct (sweep_entry live now grace (s1, d) name) as [s2 d2].
  cbn in Hu', F'. etrans; [exact F'|]. by apply IH.
Qed.

Lemma kept_ok s s' : nodes_kept s s' → dir_ok s → dir_ok s' ∧ extends s s' ∧ ∀ room, dir_room_nodes room s' = dir_room_nodes room s.
Proof.
  intros (En&El&_) [Hs Hl Hr]. unfold dir_room_nodes, load_rows. rewrite En. split; [|split; [by apply extends_same|done]].
  split; [unfold seqs_ok; by rewrite En, El|by rewrite El|by rewrite En].
Qed.
Lemma get_blob_kept h s : dir_io s = [] → (get_blob s h).2 = s.
Proof.
  intros Eq. unfold get_blob. pose proof (proj2 (fs_read_kept (blob_name h) s) Eq) as E1.
  destruct (fs_read (blob_name h) s) as [[b|] s1]; cbn in E1; subst s1; [done|].
  pose proof (proj2 (fs_read_kept (blob_encoded_name h) s) Eq) as E2.
  by destruct (fs_read (blob_encoded_name h) s) as [[c|] s1].
Qed.

#[export] Instance dir_contract (cfg : BlobCompressionConfig) :
  @PersistContract DirState dir_node_persistence (dir_blob_persistence cfg).
Proof.
  refine {| pc_ok := dir_ok; pc_quiet := λ s, dir_io s = []; pc_later := extends; pc_nodes := dir_room_nodes |}; [done|done|..].
  - intros room p Hq. cbn. unfold load_room_nodes. by rewrite io_quiet.
  - intros p Hq. cbn. unfold known_room_ids. rewrite io_quiet by done. eexists. split; [done|].
    intros room Hne. apply elem_of_remove_dups, list_elem_of_fmap. unfold dir_room_nodes, load_rows in Hne.
    destruct (filter (λ r, row_room r = room) (dir_nodes p)) as [|r rs] eqn:E; [done|].
    assert (r ∈ filter (λ r, row_room r = room) (dir_nodes p)) as [? ?]%list_elem_of_filter by (rewrite E; by left). eauto.
  - intros room p Hq. cbn. unfold room_nodes_version. by rewrite io_quiet.
  - intros room p1 p2 v [Hs Hl _] He Hv1 Hv2. unfold dir_room_nodes. by rewrite (version_exact room p1 p2 v).
  - intros room ns p. apply dir_persist_nodes_ok.
  - intros room n p. apply autocommit_wrote.
  - intros h p _. apply get_blob_kept.
  - intros live now grace names p Hok. cbn. destruct (sweep_keeps live now grace names p) as [K F].
    destruct (kept_ok _ _ K Hok) as (?&?&?). split; [done|]. split; [done|]. split; [apply K|]. split; [done|].
    intros h Hl Hh. by apply files_has, F.
Defined.
End dir_contract.
