(* ===== verification/Rga.v ===== *)
(** The replicated growable array the text projection implements: the insertion
    rule "after the parent, skip greater identities", and the order it computes.
    The order depends on the set of characters alone: it is the depth-first order
    of the insertion tree, siblings by descending identity. *)

From S2P Require Import Prelude.

(** ** Descending order *)

Record desc (K : Type) := Desc { undesc : K }.
Arguments Desc {K}.
Arguments undesc {K}.

#[global] Instance Ord_desc {K} `{Ord K} : Ord (desc K) := λ a b, cmp (undesc b) (undesc a).
#[global] Instance OrdLaws_desc {K} `{OrdLaws K} : OrdLaws (desc K).
Proof.
  split.
  - intros [a] [b]. unfold cmp, Ord_desc; simpl. rewrite cmp_eq_iff. naive_solver.
  - intros [a] [b]. unfold cmp, Ord_desc; simpl. apply cmp_opp.
  - intros [a] [b] [c] Hab Hbc. unfold cmp, Ord_desc in *; simpl in *. by eapply cmp_lt_trans.
Qed.

#[global] Instance Desc_inj {K} : Inj (=) (=) (@Desc K).
Proof. by intros ?? [=]. Qed.

Section lex.
Context {A : Type} `{OrdLaws A}.
Implicit Types l k : list A.

Lemma cmp_cons (x y : A) l k : cmp (x :: l) (y :: k) = match cmp x y with Eq => cmp l k | c => c end.
Proof. done. Qed.

Lemma lex_app_r l x k : ord_lt l (l ++ x :: k).
Proof.
  induction l as [|y l IH]; [done|]. rewrite <-app_comm_cons. unfold ord_lt. by rewrite cmp_cons, cmp_refl.
Qed.

Lemma lex_diverge u a b l k : ord_lt a b → ord_lt (u ++ a :: l) (u ++ b :: k).
Proof.
  intros Hab. induction u as [|y u IH]; rewrite ?app_nil_l, <-?app_comm_cons; unfold ord_lt.
  - by rewrite cmp_cons, Hab.
  - by rewrite cmp_cons, cmp_refl.
Qed.

(** One list precedes another as a prefix or by the first difference. *)
Lemma lex_inv l k :
  ord_lt l k →
  (∃ x k', k = l ++ x :: k') ∨ (∃ u a b l' k', l = u ++ a :: l' ∧ k = u ++ b :: k' ∧ ord_lt a b).
Proof.
  revert k. induction l as [|x l IH]; intros [|y k] Hlt; [done|left; by exists y, k|done|].
  unfold ord_lt in Hlt. rewrite cmp_cons in Hlt. destruct (cmp x y) eqn:E; [| |done].
  - apply cmp_eq_iff in E as ->. destruct (IH k Hlt) as [(z&k'&->)|(u&a&b&l'&k'&->&->&Hab)].
    + left. by exists z, k'.
    + right. by exists (y :: u), a, b, l', k'.
  - right. by exists [], x, y, l, k.
Qed.
End lex.

(** ** The insertion rule *)

Section rga.
Context {K : Type} `{OrdLaws K, EqDecision K} {A : Type} (kid : A → K).
Implicit Types (x y : A) (l : list A) (p : K).

(** Skip the elements of greater identity, then insert. *)
Fixpoint place x l : list A :=
  match l with
  | [] => [x]
  | y :: l' => if gtb (kid y) (kid x) then y :: place x l' else x :: y :: l'
  end.

Fixpoint rga_after p x l : list A :=
  match l with
  | [] => []
  | y :: l' => if decide (kid y = p) then y :: place x l' else y :: rga_after p x l'
  end.

Definition rga_insert (parent : option K) x l : list A :=
  match parent with None => place x l | Some p => rga_after p x l end.

Lemma place_split x l :
  ∃ g r, l = g ++ r ∧ place x l = g ++ x :: r ∧ (∀ y, y ∈ g → ord_lt (kid x) (kid y)) ∧
         (∀ y, head r = Some y → ord_le (kid y) (kid x)).
Proof.
  induction l as [|y l (g&r&->&Hp&Hg&Hr)]; [exists [], []; simpl; set_solver|]. simpl.
  destruct (gtb (kid y) (kid x)) eqn:E.
  - exists (y :: g), r. rewrite Hp. split; [done|]. split; [done|]. split; [|done].
    apply gtb_true in E. set_solver.
  - exists [], (y :: g ++ r). split; [done|]. split; [done|]. split; [set_solver|].
    intros ? [= <-]. by apply gtb_false.
Qed.

Lemma place_app x g r :
  (∀ y, y ∈ g → ord_lt (kid x) (kid y)) → (∀ y, head r = Some y → ord_le (kid y) (kid x)) →
  place x (g ++ r) = g ++ x :: r.
Proof.
  intros Hg Hr. induction g as [|y g IH]; simpl.
  - destruct r as [|y r]; [done|]. simpl. by rewrite (proj2 (gtb_false _ _)) by (by apply Hr).
  - rewrite (proj2 (gtb_true _ _)) by set_solver. rewrite IH by set_solver. done.
Qed.

Lemma rga_after_app p x l1 y l2 :
  kid y = p → p ∉ kid <$> l1 → rga_after p x (l1 ++ y :: l2) = l1 ++ y :: place x l2.
Proof.
  intros Hy. induction l1 as [|z l1 IH]; simpl; intros Hn; [by rewrite decide_True|].
  rewrite decide_False by set_solver. rewrite IH by set_solver. done.
Qed.

Lemma rga_insert_perm parent x l :
  (∀ p, parent = Some p → p ∈ kid <$> l) → rga_insert parent x l ≡ₚ x :: l.
Proof.
  assert (∀ l, place x l ≡ₚ x :: l) as Hpl.
  { intros k. destruct (place_split x k) as (g&r&->&->&_). by rewrite Permutation_middle. }
  intros Hin. destruct parent as [p|]; [|apply Hpl]. simpl. specialize (Hin p eq_refl).
  induction l as [|y l IH]; [by apply not_elem_of_nil in Hin|]. simpl. case_decide as E.
  - rewrite Hpl. apply perm_swap.
  - rewrite IH; [apply perm_swap|]. apply elem_of_cons in Hin as [->|Hin]; [by destruct E|done].
Qed.
End rga.

Lemma fmap_place {K A} `{Ord K} (kid : A → K) (x : A) (l : list A) :
  kid <$> place kid x l = place (λ k, k) (kid x) (kid <$> l).
Proof. induction l as [|y l IH]; simpl; [done|]. destruct (gtb _ _); [|done]. by rewrite fmap_cons, IH. Qed.

(** ** The order of the insertion tree *)

Section tree.
Context {K : Type} `{OrdLaws K, EqDecision K} (par : K → option K).
Implicit Types (x y p : K) (l : list K).

(** The way from a root to an identity. *)
Inductive Path : K → list K → Prop :=
| path_root x : par x = None → Path x [x]
| path_child x p π : par x = Some p → Path p π → Path x (π ++ [x]).

Lemma Path_fun x π ρ : Path x π → Path x ρ → π = ρ.
Proof.
  intros Hx. revert ρ. induction Hx as [x Hx|x p π Hx Hp IH]; intros ρ; inversion 1; simplify_eq; [done|].
  f_equal. by apply IH.
Qed.

Lemma Path_last x π : Path x π → last π = Some x.
Proof. destruct 1; [done|]. apply last_snoc. Qed.

Lemma Path_self x π : Path x π → x ∈ π.
Proof. destruct 1; set_solver. Qed.

(** Prefixes of a path are the paths of its elements. *)
Lemma Path_prefix x u b τ : Path x (u ++ b :: τ) → Path b (u ++ [b]).
Proof.
  remember (u ++ b :: τ) as π eqn:E. intros Hx. revert u b τ E.
  induction Hx as [x Hx|x p π Hx Hp IH]; intros u b τ E.
  - destruct u as [|? [|??]]; simplify_eq/=. by constructor.
  - destruct τ as [|c τ _] using rev_ind.
    + apply app_inj_tail in E as [-> ->]. by eapply path_child.
    + rewrite app_comm_cons, app_assoc in E. apply app_inj_tail in E as [-> _]. by eapply IH.
Qed.

(** Depth first, siblings by descending identity. *)
Definition path_key (π : list K) : list (desc K) := Desc <$> π.
Definition doc_before x y : Prop :=
  ∃ π ρ, Path x π ∧ Path y ρ ∧ ord_lt (path_key π) (path_key ρ).

Lemma before_irrefl x : ¬ doc_before x x.
Proof. intros (π&ρ&Hx&Hy&Hlt). rewrite (Path_fun _ _ _ Hx Hy) in Hlt. by apply ord_lt_irrefl in Hlt. Qed.
Lemma before_trans x y z : doc_before x y → doc_before y z → doc_before x z.
Proof.
  intros (π&ρ&Hx&Hy&Hlt) (ρ'&σ&Hy'&Hz&Hlt'). rewrite (Path_fun _ _ _ Hy' Hy) in Hlt'.
  exists π, σ. split; [done|]. split; [done|]. by eapply cmp_lt_trans.
Qed.
Lemma before_asym x y : doc_before x y → ¬ doc_before y x.
Proof. intros Hxy Hyx. by apply (before_irrefl x), (before_trans x y x). Qed.

Lemma key_app_r π x τ : ord_lt (path_key π) (path_key (π ++ x :: τ)).
Proof. unfold path_key. rewrite fmap_app. apply lex_app_r. Qed.
Lemma key_diverge u a b π ρ : ord_lt b a → ord_lt (path_key (u ++ a :: π)) (path_key (u ++ b :: ρ)).
Proof. intros Hab. unfold path_key. rewrite !fmap_app. by apply lex_diverge. Qed.
Lemma fmap_app_cons_inv π (u : list (desc K)) a τ :
  path_key π = u ++ a :: τ →
  ∃ v ρ, π = v ++ undesc a :: ρ ∧ u = path_key v ∧ τ = path_key ρ.
Proof.
  intros E. apply fmap_app_inv in E as (v&k&->&Hk&->).
  destruct k as [|b ρ]; [done|]. simpl in Hk. simplify_eq. by exists v, ρ.
Qed.
Lemma key_inv π ρ :
  ord_lt (path_key π) (path_key ρ) →
  (∃ x τ, ρ = π ++ x :: τ) ∨ (∃ u a b π' ρ', π = u ++ a :: π' ∧ ρ = u ++ b :: ρ' ∧ ord_lt b a).
Proof.
  intros [(x&k&E)|(u&a&b&l&k&E1&E2&Hab)]%lex_inv.
  - apply fmap_app_cons_inv in E as (v&σ&->&Hv&_). left.
    assert (π = v) as -> by (by apply (inj (fmap Desc)) in Hv). eauto.
  - apply fmap_app_cons_inv in E1 as (v&σ&->&->&->), E2 as (w&τ&->&Hw&->).
    assert (v = w) as -> by (by apply (inj (fmap Desc)) in Hw). right. by exists w, (undesc a), (undesc b), σ, τ.
Qed.

(** ** Insertion keeps the order *)

(** A list of identities in tree order that holds every ancestor of its
    elements. *)
Record rga_ok (l : list K) : Prop := {
  rga_sorted : StronglySorted doc_before l;
  rga_rooted : ∀ x, x ∈ l → ∃ π, Path x π ∧ π ⊆ l;
}.

Lemma sorted_insert l1 x l2 :
  StronglySorted doc_before (l1 ++ l2) → (∀ y, y ∈ l1 → doc_before y x) → (∀ y, y ∈ l2 → doc_before x y) →
  StronglySorted doc_before (l1 ++ x :: l2).
Proof.
  rewrite !StronglySorted_app. intros (Hc&Hs1&Hs2) H1 H2. split; [|split; [done|]].
  - intros y z Hy [->|Hz]%elem_of_cons; auto.
  - constructor; [done|]. by apply Forall_forall.
Qed.

Lemma rga_NoDup l : rga_ok l → NoDup l.
Proof.
  intros [Hs _]. induction Hs as [|x m _ IH Hx]; constructor; [|done].
  intros Hin. rewrite Forall_forall in Hx. by apply (before_irrefl x), Hx.
Qed.

(** Two lists in tree order with the same elements are equal. *)
Lemma rga_unique l k : rga_ok l → rga_ok k → (∀ x, x ∈ l ↔ x ∈ k) → l = k.
Proof.
  intros Hl Hk Hext. eapply (StronglySorted_unique_strong doc_before); [|apply Hl|apply Hk|].
  - intros x y _ _ Hxy Hyx. by destruct (before_asym x y).
  - apply NoDup_Permutation; [by apply rga_NoDup..|done].
Qed.

Section insert.
(** A character is inserted after one that exists, so with a greater
    identity. *)
Hypothesis par_lt : ∀ x p, par x = Some p → ord_lt p x.

Lemma Path_le x π y : Path x π → y ∈ π → ord_le y x.
Proof.
  induction 1 as [x Hx|x p π Hx Hp IH]; intros Hy.
  - apply list_elem_of_singleton in Hy as ->. reflexivity.
  - apply elem_of_app in Hy as [Hy|Hy%list_elem_of_singleton]; [|subst; reflexivity].
    transitivity p; [by apply IH|]. apply ord_le_lt_or_eq. left. by apply par_lt.
Qed.

(** The part of the list the new character comes after for sure, and the path
    above it. *)
Record anchored (x : K) (l l1 l2 π0 : list K) : Prop := {
  an_split : l = l1 ++ l2;
  an_path : Path x (π0 ++ [x]);
  an_front : ∀ e, e ∈ l1 → doc_before e x;
  an_back : ∀ e π, e ∈ l2 → Path e π → ord_lt (path_key π0) (path_key π);
  an_front_not : ∀ e π, e ∈ l1 → Path e π → ¬ ord_lt (path_key π0) (path_key π);
  an_above : ∀ a, a ∈ π0 → ord_lt a x;
  an_in : π0 ⊆ l;
}.

Lemma anchor_exists x l :
  rga_ok l → (∀ p, par x = Some p → p ∈ l) →
  ∃ l1 l2 π0, anchored x l l1 l2 π0 ∧ rga_insert (λ k, k) (par x) x l = l1 ++ place (λ k, k) x l2.
Proof.
  intros [Hs Hr] Hp. destruct (par x) as [p|] eqn:Ep.
  - specialize (Hp p eq_refl). destruct (Hr p Hp) as (π0&Hpath&Hin).
    apply list_elem_of_split in Hp as (l1&l2&->). exists (l1 ++ [p]), l2, π0.
    apply StronglySorted_app in Hs as (Hc&_&Hs2). apply StronglySorted_cons in Hs2 as [Hpl2 _].
    rewrite Forall_forall in Hpl2.
    assert (doc_before p x) as Hpx by (exists π0, (π0 ++ [x]); split; [done|]; split; [by eapply path_child|apply key_app_r]).
    split; [split|].
    + by rewrite <-app_assoc.
    + by eapply path_child.
    + intros e [He|He%list_elem_of_singleton]%elem_of_app; [|by subst].
      eapply before_trans; [|done]. apply Hc; set_solver.
    + intros e π He Hpe. destruct (Hpl2 e He) as (π'&ρ&H1&H2&Hlt).
      by rewrite (Path_fun _ _ _ Hpath H1), (Path_fun _ _ _ Hpe H2).
    + intros e π He Hpe Hlt. assert (doc_before p e) as Hpe' by (by exists π0, π).
      apply elem_of_app in He as [He|He%list_elem_of_singleton].
      * by apply (before_asym p e); [|apply Hc; set_solver].
      * subst. by apply before_irrefl in Hpe'.
    + intros a Ha. eapply ord_le_lt_trans; [by eapply Path_le|]. by apply par_lt.
    + done.
    + rewrite <-app_assoc. simpl. rewrite rga_after_app; [done|done|].
      rewrite list_fmap_id. intros Hpl1. apply (before_irrefl p), Hc; set_solver.
  - exists [], l, []. split; [split|done]; try done.
    + by apply (path_root x).
    + set_solver.
    + intros e π _ Hpe. destruct π as [|b π]; [|done]. apply Path_last in Hpe. done.
    + set_solver.
    + set_solver.
    + set_solver.
Qed.

(** Where a later element stands, decided by the component [d] of its path
    that leaves the path of the parent: below the parent or past its subtree. *)
Lemma diverging x l l1 l2 π0 e π :
  anchored x l l1 l2 π0 → rga_ok l → e ∈ l2 → Path e π → π ⊆ l →
  ∃ d, d ∈ l2 ∧ (d = e ∨ doc_before d e) ∧ ord_le d e ∧
    (ord_lt d x → doc_before x e) ∧ (ord_lt x d → doc_before e x).
Proof.
  intros Han Hok He Hpe Hin. pose proof (an_back _ _ _ _ _ Han e π He Hpe) as Hlt.
  assert (∀ u d τ, π = u ++ d :: τ → ord_lt (path_key π0) (path_key (u ++ [d])) →
    d ∈ l2 ∧ (d = e ∨ doc_before d e) ∧ ord_le d e) as Hd.
  { intros u d τ -> Hu. pose proof (Path_prefix _ _ _ _ Hpe) as Hpd. split; [|split].
    - assert (d ∈ l) as Hdl by (apply Hin; set_solver). rewrite (an_split _ _ _ _ _ Han) in Hdl.
      apply elem_of_app in Hdl as [Hd1|]; [|done].
      by destruct (an_front_not _ _ _ _ _ Han d _ Hd1 Hpd).
    - destruct τ as [|t τ].
      + left. apply Path_last in Hpe. rewrite last_snoc in Hpe. by simplify_eq.
      + right. exists (u ++ [d]), (u ++ d :: t :: τ). split; [done|]. split; [done|].
        change (d :: t :: τ) with ([d] ++ t :: τ). rewrite app_assoc. apply key_app_r.
    - eapply Path_le; [done|set_solver]. }
  pose proof (an_path _ _ _ _ _ Han) as Hpx.
  destruct (key_inv _ _ Hlt) as [(d&τ&->)|(u&a&b&σ&τ&->&->&Hba)].
  - exists d. destruct (Hd π0 d τ eq_refl) as (?&?&?); [apply key_app_r|].
    split; [done|]. split; [done|]. split; [done|]. split; intros Hdx.
    + exists (π0 ++ [x]), (π0 ++ d :: τ). split; [done|]. split; [done|]. by apply key_diverge.
    + exists (π0 ++ d :: τ), (π0 ++ [x]). split; [done|]. split; [done|]. by apply key_diverge.
  - exists b. destruct (Hd u b τ eq_refl) as (?&?&?); [by apply key_diverge|].
    split; [done|]. split; [done|]. split; [done|].
    assert (ord_lt b x) as Hbx.
    { eapply cmp_lt_trans; [exact Hba|]. apply (an_above _ _ _ _ _ Han). set_solver. }
    split; [|intros Hxb; by destruct (ord_lt_asym b x)].
    intros _. exists ((u ++ a :: σ) ++ [x]), (u ++ b :: τ). split; [done|]. split; [done|].
    rewrite <-app_assoc, <-app_comm_cons. by apply key_diverge.
Qed.

Lemma rga_insert_ok x l :
  rga_ok l → x ∉ l → (∀ p, par x = Some p → p ∈ l) → rga_ok (rga_insert (λ k, k) (par x) x l).
Proof.
  intros Hok Hx Hp. destruct (anchor_exists x l Hok Hp) as (l1&l2&π0&Han&->).
  pose proof (an_split _ _ _ _ _ Han) as El.
  destruct (place_split (λ k, k) x l2) as (g&r&El2&->&Hg&Hr).
  pose proof Hok as [Hs Hroot]. rewrite El, El2, app_assoc in Hs. rewrite app_assoc.
  assert (∀ e, e ∈ l2 → ∃ d, d ∈ l2 ∧ (d = e ∨ doc_before d e) ∧ ord_le d e ∧
    (ord_lt d x → doc_before x e) ∧ (ord_lt x d → doc_before e x)) as Hdiv.
  { intros e He. destruct (Hroot e) as (π&Hpe&Hin); [rewrite El; set_solver|]. by eapply diverging. }
  split; [apply sorted_insert; [done|..]|].
  - intros y [Hy|Hy]%elem_of_app; [by eapply an_front|].
    destruct (Hdiv y) as (d&Hd&Hdy&_&_&Hbef); [set_solver|]. apply Hbef, Hg.
    destruct Hdy as [->|Hdy]; [done|]. rewrite El2 in Hd. apply elem_of_app in Hd as [|Hd]; [done|].
    apply StronglySorted_app in Hs as (Hc&_). destruct (before_asym d y Hdy). apply Hc; set_solver.
  - destruct r as [|f r]; [set_solver|]. assert (doc_before x f) as Hxf.
    { destruct (Hdiv f) as (d&Hd&_&Hle&Hbef&_); [set_solver|]. apply Hbef.
      eapply ord_le_lt_trans; [exact Hle|]. specialize (Hr f eq_refl).
      apply ord_le_lt_or_eq in Hr as [Hlt| ->]; [done|]. destruct Hx. rewrite El, El2. set_solver. }
    intros y [->|Hy]%elem_of_cons; [done|]. eapply before_trans; [exact Hxf|].
    apply StronglySorted_app in Hs as (_&_&Hs). apply StronglySorted_cons in Hs as [Hf _].
    rewrite Forall_forall in Hf. by apply Hf.
  - assert (∀ y, y ∈ (l1 ++ g) ++ x :: r ↔ y = x ∨ y ∈ l) as Hel by (intros y; rewrite El, El2; set_solver).
    intros y [->|Hy]%Hel.
    + exists (π0 ++ [x]). split; [apply Han|]. intros z [Hz|Hz]%elem_of_app; apply Hel.
      * right. by apply Han.
      * left. by apply list_elem_of_singleton.
    + destruct (Hroot y Hy) as (π&Hpy&Hin). exists π. split; [done|]. intros z Hz. apply Hel. right. by apply Hin.
Qed.
End insert.
End tree.
