(* ===== verification/TextChunks.v ===== *)
(** The chunked character sequence of the text projection behaves like one
    flat list: the invariant that ties chunks, identity map, Fenwick indexes and
    the cached string to that list, and what each mutation does to it. *)

From S2P Require Import Prelude Op Node Fenwick TextState Text Rga.

(** ** Runs of items *)

(** The visible text of a run. *)
Definition utf8 (its : list Item) : bytes :=
  its ≫= λ i, if item_tomb i then [] else encode_utf8 (item_ch i).

Lemma length_encode_utf8 ch : Z.of_nat (length (encode_utf8 ch)) = len_utf8 ch.
Proof. unfold encode_utf8, len_utf8. repeat (destruct (_ <? _); [done|]). done. Qed.
Lemma len_utf8_bounds ch : 1 <= len_utf8 ch <= 4.
Proof. unfold len_utf8. repeat (destruct (_ <? _); [lia|]). lia. Qed.

Lemma count_chars_app l k : count_chars (l ++ k) = count_chars l + count_chars k.
Proof. induction l as [|i l IH]; simpl; [done|]. rewrite IH. lia. Qed.
Lemma count_bytes_app l k : count_bytes (l ++ k) = count_bytes l + count_bytes k.
Proof. induction l as [|i l IH]; simpl; [done|]. rewrite IH. lia. Qed.
Lemma utf8_app l k : utf8 (l ++ k) = utf8 l ++ utf8 k.
Proof. apply bind_app. Qed.
Lemma length_utf8 l : Z.of_nat (length (utf8 l)) = count_bytes l.
Proof.
  induction l as [|i l IH]; [done|]. cbn [utf8 mbind list_bind count_bytes foldr].
  rewrite length_app, Nat2Z.inj_add. fold (utf8 l). rewrite IH. unfold count_bytes.
  destruct (item_tomb i); [done|]. by rewrite length_encode_utf8.
Qed.
Lemma count_chars_bounds l : 0 <= count_chars l <= count_bytes l.
Proof.
  induction l as [|i l IH]; simpl; [lia|]. pose proof (len_utf8_bounds (item_ch i)).
  destruct (item_tomb i); lia.
Qed.
Lemma count_chars_length l : count_chars l <= Z.of_nat (length l).
Proof. induction l as [|i l IH]; simpl; [lia|]. destruct (item_tomb i); lia. Qed.

Lemma count_chars_concat ss : count_chars (concat ss) = foldr Z.add 0 (count_chars <$> ss).
Proof. induction ss as [|s ss IH]; simpl; [done|]. by rewrite count_chars_app, IH. Qed.
Lemma count_bytes_concat ss : count_bytes (concat ss) = foldr Z.add 0 (count_bytes <$> ss).
Proof. induction ss as [|s ss IH]; simpl; [done|]. by rewrite count_bytes_app, IH. Qed.

(** ** Locations in a list of runs *)

Section locs.
Implicit Types (ss : list (list Item)) (l : Loc).

Definition front ss l : list Item :=
  concat (take (loc_pos l) ss) ++ take (loc_item l) (default [] (ss !! loc_pos l)).
Definition rest ss l : list Item :=
  drop (loc_item l) (default [] (ss !! loc_pos l)) ++ concat (drop (S (loc_pos l)) ss).
Definition loc_ok ss l : Prop :=
  ∃ its, ss !! loc_pos l = Some its ∧ (loc_item l <= length its)%nat.

Lemma concat_split ss i its :
  ss !! i = Some its → concat ss = concat (take i ss) ++ its ++ concat (drop (S i) ss).
Proof. intros Hi. rewrite <-(take_drop_middle ss i its) at 1 by done. by rewrite concat_app. Qed.

Lemma front_rest ss l : loc_ok ss l → front ss l ++ rest ss l = concat ss.
Proof.
  intros (its&Hi&_). unfold front, rest. rewrite Hi. simpl.
  rewrite (concat_split ss _ its Hi), <-app_assoc. f_equal. by rewrite app_assoc, take_drop.
Qed.

(** Editing one run at a location. *)
Lemma concat_insert_at ss l its x :
  ss !! loc_pos l = Some its → (loc_item l <= length its)%nat →
  concat (<[loc_pos l := take (loc_item l) its ++ x :: drop (loc_item l) its]> ss) =
  front ss l ++ x :: rest ss l.
Proof.
  intros Hi Hle. pose proof (lookup_lt_Some _ _ _ Hi).
  rewrite (concat_split _ (loc_pos l) (take (loc_item l) its ++ x :: drop (loc_item l) its))
    by (by apply list_lookup_insert_eq).
  rewrite take_insert_ge by lia. rewrite drop_insert_lt by lia. unfold front, rest. rewrite Hi. simpl.
  by rewrite <-!app_assoc.
Qed.

(** The next run starts where this one ends. *)
Lemma front_next ss l its :
  ss !! loc_pos l = Some its → loc_item l = length its →
  front ss (mkLoc (S (loc_pos l)) 0) = front ss l ∧ rest ss (mkLoc (S (loc_pos l)) 0) = rest ss l.
Proof.
  intros Hi Hl. unfold front, rest; simpl. rewrite Hi, Hl. simpl. rewrite (take_ge its), (drop_ge its) by lia.
  split.
  - rewrite (take_S_r _ _ its), concat_app by done. simpl. rewrite app_nil_r.
    by destruct (ss !! S (loc_pos l)); rewrite ?take_0, ?app_nil_r.
  - simpl. destruct (ss !! S (loc_pos l)) as [its'|] eqn:E; simpl.
    + by rewrite (drop_S _ its' (S (loc_pos l))) by done.
    + apply lookup_ge_None in E. by rewrite !drop_ge by lia.
Qed.

Lemma step_loc ss l its it :
  ss !! loc_pos l = Some its → its !! loc_item l = Some it →
  let l' := mkLoc (loc_pos l) (S (loc_item l)) in
  loc_ok ss l' ∧ front ss l' = front ss l ++ [it] ∧ rest ss l = it :: rest ss l'.
Proof.
  intros Hi Hit. simpl. pose proof (lookup_lt_Some _ _ _ Hit). split; [by exists its|].
  unfold front, rest; simpl. rewrite Hi. simpl. split.
  - by rewrite (take_S_r _ _ it), app_assoc by done.
  - by rewrite (drop_S _ it) by done.
Qed.
End locs.

(** ** Navigation *)

Definition segs p : list (list Item) := (λ slot, ck_items (chunk_at p slot)) <$> order p.

Lemma flat_segs p : flat p = concat (segs p).
Proof.
  unfold flat, segs. generalize (order p). intros o. induction o as [|s o IH]; [done|].
  rewrite bind_cons, fmap_cons. simpl. by rewrite IH.
Qed.
Lemma length_segs p : length (segs p) = length (order p).
Proof. apply length_fmap. Qed.
Lemma segs_lookup p i slot :
  order p !! i = Some slot → segs p !! i = Some (ck_items (chunk_at p slot)).
Proof. intros Hi. unfold segs. by rewrite list_lookup_fmap, Hi. Qed.
Lemma segs_lookup_inv p i its :
  segs p !! i = Some its → ∃ slot, order p !! i = Some slot ∧ its = ck_items (chunk_at p slot).
Proof. unfold segs. rewrite list_lookup_fmap. destruct (order p !! i); naive_solver. Qed.

Lemma item_at_segs p l its it :
  segs p !! loc_pos l = Some its → its !! loc_item l = Some it → item_at p l = it.
Proof. intros (slot&Ho&->)%segs_lookup_inv Hit. unfold item_at. rewrite Ho. simpl. by rewrite Hit. Qed.

(** A location that names an item. *)
Definition at_item p (l : Loc) (it : Item) : Prop :=
  ∃ its, segs p !! loc_pos l = Some its ∧ its !! loc_item l = Some it.

Lemma at_item_ok p l it : at_item p l it → loc_ok (segs p) l.
Proof. intros (its&Hi&Hit). exists its. split; [done|]. apply lookup_lt_Some in Hit. lia. Qed.

(** Normalising finds the next item without moving past one. *)
Lemma norm_loop_ok p fuel l :
  (length (order p) < fuel + loc_pos l)%nat →
  (∀ its, segs p !! loc_pos l = Some its → (loc_item l <= length its)%nat) →
  match norm_loop fuel p l with
  | None => rest (segs p) l = []
  | Some nl => (∃ it, at_item p nl it ∧ item_at p nl = it) ∧
               front (segs p) nl = front (segs p) l ∧ rest (segs p) nl = rest (segs p) l
  end.
Proof.
  revert l. induction fuel as [|fuel IH]; intros l Hf Hle; simpl.
  - unfold rest. rewrite lookup_ge_None_2 by (rewrite length_segs; lia).
    simpl. rewrite drop_nil, drop_ge by (rewrite length_segs; lia). done.
  - destruct (order p !! loc_pos l) as [slot|] eqn:Eo.
    2:{ apply lookup_ge_None in Eo. unfold rest. rewrite lookup_ge_None_2 by (rewrite length_segs; lia).
        simpl. rewrite drop_nil, drop_ge by (rewrite length_segs; lia). done. }
    pose proof (segs_lookup _ _ _ Eo) as Es. specialize (Hle _ Es).
    destruct (Nat.ltb_spec (loc_item l) (length (ck_items (chunk_at p slot)))) as [Hlt|Hge].
    + destruct (lookup_lt_is_Some_2 _ _ Hlt) as [it Hit]. split; [|done].
      exists it. split; [by exists (ck_items (chunk_at p slot))|]. by eapply item_at_segs.
    + destruct (front_next _ _ _ Es) as [Hfr Hre]; [lia|]. rewrite <-Hfr, <-Hre.
      apply IH; simpl; [lia|]. intros. lia.
Qed.

Lemma norm_ok p l :
  loc_ok (segs p) l →
  match norm_item_loc p l with
  | None => rest (segs p) l = []
  | Some nl => (∃ it, at_item p nl it ∧ item_at p nl = it) ∧
               front (segs p) nl = front (segs p) l ∧ rest (segs p) nl = rest (segs p) l
  end.
Proof.
  intros (its&Hi&Hle). apply norm_loop_ok; [lia|]. intros its' Hi'. by simplify_eq.
Qed.

Lemma end_loc_ok p :
  order p ≠ [] → loc_ok (segs p) (end_loc p) ∧ front (segs p) (end_loc p) = flat p ∧
  rest (segs p) (end_loc p) = [].
Proof.
  intros Hne. destruct (last (order p)) as [slot|] eqn:El; [|by apply last_None in El].
  pose proof El as El'. rewrite last_lookup in El'. replace (pred _) with (length (order p) - 1)%nat in El' by lia.
  pose proof (segs_lookup _ _ _ El') as Es.
  assert (loc_ok (segs p) (end_loc p)) as Hok.
  { eexists. split; [exact Es|]. unfold end_loc; simpl. by rewrite El. }
  split; [done|]. assert (rest (segs p) (end_loc p) = []) as Hr.
  { unfold rest, end_loc; simpl. rewrite Es, El. simpl. rewrite drop_all, drop_ge; [done|].
    rewrite length_segs. destruct (order p); simpl; lia. }
  split; [|done]. rewrite flat_segs, <-(front_rest _ _ Hok), Hr. by rewrite app_nil_r.
Qed.

(** ** The scan *)

(** The identity a compact identity stands for. *)
Definition oid (t : ActorTable) (c : CompactId) : OpId :=
  mkOpId (cid_lamport c) (default (zeros 32) (author_for_idx t (actor_idx c))).
Definition item_oid (t : ActorTable) (it : Item) : OpId := oid t (item_id it).

Lemma compact_id_cmp_oid t a b : compact_id_cmp t a b = cmp (oid t a) (oid t b).
Proof. unfold compact_id_cmp, cmp at 3, Ord_OpId, OpId_cmp. simpl. done. Qed.

Lemma scan_ok p c fuel l :
  order p ≠ [] → loc_ok (segs p) l → (length (rest (segs p) l) < fuel)%nat →
  let l' := scan_loop fuel p c l in
  loc_ok (segs p) l' ∧
  ∃ g, rest (segs p) l = g ++ rest (segs p) l' ∧ front (segs p) l' = front (segs p) l ++ g ∧
    (∀ y, y ∈ g → ord_lt (oid (actors p) c) (item_oid (actors p) y)) ∧
    (∀ y, head (rest (segs p) l') = Some y → ord_le (item_oid (actors p) y) (oid (actors p) c)).
Proof.
  intros Hne. revert l. induction fuel as [|fuel IH]; intros l Hok Hf; [lia|]. cbn [scan_loop].
  pose proof (norm_ok p l Hok) as Hn. destruct (norm_item_loc p l) as [nl|].
  - destruct Hn as ((it&Hat&->)&Hfr&Hre). rewrite <-Hfr, <-Hre in *.
    pose proof Hat as (its&Hi&Hit). destruct (step_loc _ _ _ _ Hi Hit) as (Hok'&Hfr'&Hre').
    destruct (compact_id_cmp (actors p) (item_id it) c) eqn:Ec; rewrite compact_id_cmp_oid in Ec.
    + split; [by eapply at_item_ok|]. exists []. rewrite app_nil_r. split; [done|]. split; [done|].
      split; [set_solver|]. rewrite Hre'. intros ? [= <-]. unfold ord_le, item_oid. by rewrite Ec.
    + split; [by eapply at_item_ok|]. exists []. rewrite app_nil_r. split; [done|]. split; [done|].
      split; [set_solver|]. rewrite Hre'. intros ? [= <-]. unfold ord_le, item_oid. by rewrite Ec.
    + rewrite Hre' in Hf. simpl in Hf. destruct (IH _ Hok') as (Hok2&g&Hg1&Hg2&Hg3&Hg4); [lia|].
      split; [done|]. exists (it :: g). rewrite Hre', Hg1, Hg2, Hfr', <-app_assoc. split; [done|]. split; [done|].
      split; [|done]. intros y [->|Hy]%elem_of_cons; [|by apply Hg3]. by apply ord_lt_gt.
  - destruct (end_loc_ok p Hne) as (Hoke&Hfre&Hree). split; [done|]. exists [].
    rewrite Hn, Hree, Hfre, app_nil_r. split; [done|]. split; [|split; [set_solver|done]].
    rewrite flat_segs, <-(front_rest _ _ Hok), Hn. by rewrite app_nil_r.
Qed.

(** ** The invariant *)

(** An index over the given weights; an empty projection has not built its
    index yet. *)
Definition index_fits (x : CountedPositionIndex) (ws : list Z) : Prop :=
  weights x = ws ∧ (index_ok x ∨ x = index_default).

Lemma index_fits_prefix x ws i : index_fits x ws → prefix_sum x (Z.of_nat i) = wsum ws (Z.of_nat i).
Proof.
  intros [<- [Hok| ->]]; [apply prefix_sum_ok; [done|lia]|].
  unfold wsum. simpl. by rewrite take_nil.
Qed.

Record chunk_fits (ck : Chunk) (pos : nat) : Prop := {
  cf_pos : ck_pos ck = pos;
  cf_chars : ck_chars ck = count_chars (ck_items ck);
  cf_bytes : ck_bytes ck = count_bytes (ck_items ck);
}.

Record proj_ok p : Prop := {
  po_order : NoDup (order p);
  po_chunks : ∀ i slot, order p !! i = Some slot →
    ∃ ck, chunks p !! slot = Some ck ∧ chunk_fits ck i;
  po_free : NoDup (free_slots p) ∧
    ∀ s, s ∈ free_slots p → (s < length (chunks p))%nat ∧ (s ∉ order p);
  po_ids : ∀ c slot, id_to_chunk p !! c = Some slot ↔
    slot ∈ order p ∧ c ∈ item_id <$> ck_items (chunk_at p slot);
  po_uniq : NoDup (item_id <$> flat p);
  po_chars : index_fits (char_index p) (count_chars <$> segs p);
  po_bytes : index_fits (byte_index p) (count_bytes <$> segs p);
  po_string : visible_string p = utf8 (flat p);
  po_visible : visible_total p = count_chars (flat p);
  po_total : total_items p = Z.of_nat (length (flat p));
  po_tombs : tombstones p = Z.of_nat (length (flat p)) - count_chars (flat p);
}.

Lemma proj_ok_default : proj_ok proj_default.
Proof.
  split; simpl; try done.
  - constructor.
  - split; [constructor|set_solver].
  - intros c slot. rewrite lookup_empty. set_solver.
  - constructor.
  - split; [done|]. by right.
  - split; [done|]. by right.
Qed.

Lemma chunk_at_ok p i slot :
  proj_ok p → order p !! i = Some slot →
  chunks p !! slot = Some (chunk_at p slot) ∧ chunk_fits (chunk_at p slot) i.
Proof.
  intros Hok Ho. destruct (po_chunks p Hok _ _ Ho) as (ck&Hck&Hf). unfold chunk_at. by rewrite Hck.
Qed.

(** Offsets come from the indexes. *)
Lemma visible_prefix_ok p l :
  proj_ok p → loc_ok (segs p) l → visible_prefix_at p l = count_chars (front (segs p) l).
Proof.
  intros Hok (its&Hi&Hle). pose proof (segs_lookup_inv _ _ _ Hi) as (slot&Ho&->).
  unfold visible_prefix_at. rewrite Ho, (index_fits_prefix _ _ _ (po_chars p Hok)).
  unfold front, wsum. rewrite Hi, count_chars_app, count_chars_concat, Nat2Z.id. simpl.
  by rewrite fmap_take.
Qed.
Lemma byte_prefix_ok p l :
  proj_ok p → loc_ok (segs p) l → byte_prefix_at p l = Z.of_nat (length (utf8 (front (segs p) l))).
Proof.
  intros Hok (its&Hi&Hle). pose proof (segs_lookup_inv _ _ _ Hi) as (slot&Ho&->).
  unfold byte_prefix_at. rewrite Ho, (index_fits_prefix _ _ _ (po_bytes p Hok)), length_utf8.
  unfold front, wsum. rewrite Hi, count_bytes_app, count_bytes_concat, Nat2Z.id. simpl.
  by rewrite fmap_take.
Qed.

Lemma in_flat p it : it ∈ flat p ↔ ∃ i slot, order p !! i = Some slot ∧ it ∈ ck_items (chunk_at p slot).
Proof.
  unfold flat. rewrite list_elem_of_bind. split.
  - intros (slot&Hit&(i&Hi)%list_elem_of_lookup_1). eauto.
  - intros (i&slot&Hi&Hit). exists slot. split; [done|]. by eapply list_elem_of_lookup_2.
Qed.

Lemma id_known p c :
  proj_ok p → is_Some (id_to_chunk p !! c) ↔ c ∈ item_id <$> flat p.
Proof.
  intros Hok. split.
  - intros [slot [Hs Hc]%(po_ids p Hok)]. apply list_elem_of_fmap in Hc as (it&->&Hit).
    apply list_elem_of_fmap_2. apply in_flat. apply list_elem_of_lookup_1 in Hs as [i Hi]. eauto.
  - intros (it&->&(i&slot&Hi&Hit)%in_flat)%list_elem_of_fmap. exists slot. apply (po_ids p Hok).
    split; [by eapply list_elem_of_lookup_2|by apply list_elem_of_fmap_2].
Qed.

Lemma position_Some {A} (q : A → bool) (l : list A) i :
  position q l = Some i → ∃ x, l !! i = Some x ∧ q x = true.
Proof.
  unfold position. intros Hp. destruct (list_find _ l) as [[j x]|] eqn:E; simplify_eq/=.
  apply list_find_Some in E as (?&?&_). eauto.
Qed.
Lemma position_exists {A} (q : A → bool) (l : list A) x :
  x ∈ l → q x = true → is_Some (position q l).
Proof.
  intros Hx Hq. unfold position. destruct (list_find_elem_of (λ x, q x = true) l x Hx Hq) as [[i y] ->]. eauto.
Qed.

(** [loc_of_id] finds exactly the known items. *)
Lemma loc_of_id_Some p c l :
  proj_ok p → loc_of_id p c = Some l → ∃ it, at_item p l it ∧ item_id it = c.
Proof.
  intros Hok. unfold loc_of_id. destruct (id_to_chunk p !! c) as [slot|] eqn:E; [|done].
  apply (po_ids p Hok) in E as [Hs _]. apply list_elem_of_lookup_1 in Hs as [i Hi].
  destruct (chunk_at_ok p i slot Hok Hi) as [_ [Hpos _ _]]. rewrite Hpos. intros Hp.
  destruct (position _ _) as [j|] eqn:Ej; simplify_eq/=.
  apply position_Some in Ej as (it&Hit&Hid%bool_decide_eq_true). exists it. split; [|done].
  exists (ck_items (chunk_at p slot)). simpl. split; [by apply segs_lookup|done].
Qed.
Lemma loc_of_id_known p c :
  proj_ok p → c ∈ item_id <$> flat p → is_Some (loc_of_id p c).
Proof.
  intros Hok Hc. apply (id_known p c Hok) in Hc as [slot Hs]. unfold loc_of_id. rewrite Hs.
  apply (po_ids p Hok) in Hs as [_ (it&->&Hit)%list_elem_of_fmap]. apply fmap_is_Some.
  eapply position_exists; [done|]. by apply bool_decide_eq_true.
Qed.
Lemma loc_of_id_None p c :
  proj_ok p → (c ∉ item_id <$> flat p) → loc_of_id p c = None.
Proof.
  intros Hok Hc. unfold loc_of_id. destruct (id_to_chunk p !! c) eqn:E; [|done].
  destruct Hc. apply id_known; eauto.
Qed.

(** ** Editing one chunk *)

Lemma index_fits_update x ws i w :
  index_fits x ws → (i < length ws)%nat → 0 <= w → foldr Z.add 0 (<[i := w]> ws) <= u32_max →
  index_fits (update_weight x i w) (<[i := w]> ws).
Proof.
  intros [<- [Hok| ->]] Hi Hw Hs; [|simpl in Hi; lia].
  destruct (update_weight_ok x i w Hok Hi Hw Hs) as [Hok' E]. split; [done|]. by left.
Qed.
Lemma index_fits_rebuild ws :
  Forall (λ w, 0 <= w) ws → foldr Z.add 0 ws <= u32_max → index_fits (rebuild_from_weights ws) ws.
Proof. intros Hw Hs. destruct (rebuild_ok ws Hw Hs) as [Hok E]. split; [done|]. by left. Qed.

(** The rest of the state a chunk edit leaves alone. *)
Definition same_meta p p' : Prop :=
  actors p' = actors p ∧ orphans p' = orphans p ∧ orphan_ids p' = orphan_ids p.

Lemma segs_update p i slot ck' :
  NoDup (order p) → order p !! i = Some slot → (slot < length (chunks p))%nat →
  (λ s, ck_items (default chunk_default (<[slot := ck']> (chunks p) !! s))) <$> order p =
  <[i := ck_items ck']> (segs p).
Proof.
  intros Hnd Hi Hlt. apply list_eq. intros j. rewrite list_lookup_fmap.
  destruct (decide (j = i)) as [->|Hne].
  - rewrite Hi, list_lookup_insert_eq by (rewrite length_segs; by eapply lookup_lt_Some).
    simpl. by rewrite list_lookup_insert_eq by done.
  - rewrite list_lookup_insert_ne by done. unfold segs. rewrite list_lookup_fmap.
    destruct (order p !! j) as [s|] eqn:Ej; [|done]. simpl. do 2 f_equal. unfold chunk_at.
    rewrite list_lookup_insert_ne; [done|]. intros ->. destruct Hne. by eapply NoDup_lookup.
Qed.

Lemma proj_ok_edit p p' i slot ck' (fl := concat (<[i := ck_items ck']> (segs p))) :
  proj_ok p → order p !! i = Some slot →
  chunks p' = <[slot := ck']> (chunks p) → order p' = order p → free_slots p' = free_slots p →
  chunk_fits ck' i →
  (∀ c s, id_to_chunk p' !! c = Some s ↔
     if decide (s = slot) then c ∈ item_id <$> ck_items ck' else id_to_chunk p !! c = Some s) →
  NoDup (item_id <$> fl) →
  index_fits (char_index p') (<[i := count_chars (ck_items ck')]> (count_chars <$> segs p)) →
  index_fits (byte_index p') (<[i := count_bytes (ck_items ck')]> (count_bytes <$> segs p)) →
  visible_string p' = utf8 fl → visible_total p' = count_chars fl →
  total_items p' = Z.of_nat (length fl) → tombstones p' = Z.of_nat (length fl) - count_chars fl →
  proj_ok p' ∧ flat p' = fl.
Proof.
  intros Hok Hi Hc Ho Hf Hfit Hids Hu Hci Hbi Hs Hv Ht Htb.
  destruct (chunk_at_ok p i slot Hok Hi) as [Hck _]. pose proof (lookup_lt_Some _ _ _ Hck) as Hlt.
  assert (segs p' = <[i := ck_items ck']> (segs p)) as Hsegs.
  { unfold segs at 1, chunk_at. rewrite Hc, Ho. apply segs_update; [apply Hok|done|done]. }
  assert (flat p' = fl) as Hfl by (by rewrite flat_segs, Hsegs). split; [|done].
  assert (∀ s, s ≠ slot → chunk_at p' s = chunk_at p s) as Hother.
  { intros s Hs'. unfold chunk_at. by rewrite Hc, list_lookup_insert_ne. }
  assert (chunk_at p' slot = ck') as Hslot.
  { unfold chunk_at. by rewrite Hc, list_lookup_insert_eq. }
  split; rewrite ?Hfl, ?Hsegs; try done.
  - rewrite Ho. apply Hok.
  - rewrite Ho, Hc. intros j s Hj. destruct (decide (s = slot)) as [->|Hne].
    + exists ck'. rewrite list_lookup_insert_eq by done. split; [done|].
      assert (j = i) as -> by (eapply NoDup_lookup; [apply Hok|done|done]). done.
    + rewrite list_lookup_insert_ne by done. by apply (po_chunks p Hok).
  - rewrite Hf, Hc, Ho, length_insert. apply Hok.
  - intros c s. rewrite Hids, Ho. case_decide as Es; [subst s; rewrite Hslot|rewrite Hother by done; apply (po_ids p Hok)].
    split; [|by intros []]. intros ?. split; [by eapply list_elem_of_lookup_2|done].
  - by rewrite list_fmap_insert.
  - by rewrite list_fmap_insert.
Qed.

(** ** Allocation and the first chunk *)

Lemma alloc_ok p :
  (NoDup (free_slots p) ∧ ∀ s, s ∈ free_slots p → (s < length (chunks p))%nat ∧ (s ∉ order p)) →
  (∀ s, s ∈ order p → (s < length (chunks p))%nat) →
  ∃ cs fr s, alloc_chunk p = (with_chunks p cs fr (order p) (id_to_chunk p), s) ∧
    (s ∉ order p) ∧ cs !! s = Some chunk_default ∧
    (∀ s', s' ∈ order p → cs !! s' = chunks p !! s') ∧
    NoDup fr ∧ (∀ x, x ∈ fr → (x < length cs)%nat ∧ (x ∉ order p) ∧ x ≠ s).
Proof.
  intros [Hnd Hfree] Hord. unfold alloc_chunk. destruct (last (free_slots p)) as [s|] eqn:El.
  - apply last_Some in El as (fr&Efr). rewrite Efr in *.
    destruct (Hfree s) as [Hs Hso]; [set_solver|]. exists (<[s := chunk_default]> (chunks p)), fr, s.
    rewrite length_app. simpl. replace (length fr + 1 - 1)%nat with (length fr) by lia.
    rewrite take_app_length. split; [done|]. split; [done|].
    split; [by apply list_lookup_insert_eq|]. split.
    { intros s' Hs'. rewrite list_lookup_insert_ne; [done|]. intros ->. done. }
    apply NoDup_app in Hnd as (Hnd&Hdis&_). split; [done|]. intros x Hx. rewrite length_insert.
    destruct (Hfree x) as [Hx1 Hx2]; [set_solver|]. split; [done|]. split; [done|].
    intros ->. apply (Hdis s Hx). set_solver.
  - apply last_None in El. rewrite El. exists (chunks p ++ [chunk_default]), [], (length (chunks p)).
    split; [done|]. split; [intros Hin; specialize (Hord _ Hin); lia|].
    split; [by rewrite lookup_app_r, Nat.sub_diag by lia|]. split.
    { intros s' Hs'. apply lookup_app_l. by apply Hord. }
    split; [constructor|set_solver].
Qed.

Lemma order_in_range p s : proj_ok p → s ∈ order p → (s < length (chunks p))%nat.
Proof.
  intros Hok [i Hi]%list_elem_of_lookup_1. destruct (po_chunks p Hok _ _ Hi) as (ck&Hck&_).
  by eapply lookup_lt_Some.
Qed.

Lemma ensure_chunk_ok p :
  proj_ok p → proj_ok (ensure_chunk p) ∧ order (ensure_chunk p) ≠ [] ∧ flat (ensure_chunk p) = flat p ∧
  same_meta p (ensure_chunk p) ∧ pending_deletes (ensure_chunk p) = pending_deletes p.
Proof.
  intros Hok. unfold ensure_chunk. destruct (order p) as [|s0 o] eqn:Eo.
  2:{ rewrite Eo. split; [done|]. by split. }
  destruct (alloc_ok p (po_free p Hok)) as (cs&fr&s&->&Hso&Hcs&_&Hfr&Hfrr); [rewrite Eo; set_solver|].
  assert (flat p = []) as Hfl by (unfold flat; by rewrite Eo).
  pose proof (lookup_lt_Some _ _ _ Hcs) as Hlt. rewrite Eo in *.
  cbn [chunks with_chunks order free_slots id_to_chunk app].
  set (cs' := alter _ s cs).
  change (with_chunks (with_chunks p cs fr [] (id_to_chunk p)) cs' fr [s] (id_to_chunk p))
    with (with_chunks p cs' fr [s] (id_to_chunk p)).
  assert (cs' !! s = Some chunk_default) as Hcs' by (unfold cs'; by rewrite list_lookup_alter_eq, Hcs).
  assert (chunk_at (rebuild_indexes (with_chunks p cs' fr [s] (id_to_chunk p))) s = chunk_default) as Hck
    by (unfold chunk_at; simpl; by rewrite Hcs').
  assert (segs (rebuild_indexes (with_chunks p cs' fr [s] (id_to_chunk p))) = [[]]) as Hsegs.
  { unfold segs. simpl. by rewrite Hck. }
  assert (flat (rebuild_indexes (with_chunks p cs' fr [s] (id_to_chunk p))) = []) as Hfl'
    by (rewrite flat_segs, Hsegs; done).
  rewrite Hfl, Hfl'. split; [|by split].
  split; rewrite ?Hfl', ?Hsegs; try done.
  - apply NoDup_singleton.
  - intros i sl Hi. simpl in Hi. destruct i as [|i]; simplify_eq/=. by exists chunk_default.
  - simpl. split; [done|]. intros x Hx. unfold cs'. rewrite length_alter. destruct (Hfrr x Hx) as (?&?&?).
    split; [done|]. set_solver.
  - intros c sl. simpl. split.
    + intros E. apply (po_ids p Hok) in E as [E _]. rewrite Eo in E. set_solver.
    + intros [->%list_elem_of_singleton E]. rewrite Hck in E. set_solver.
  - constructor.
  - simpl. unfold chunk_at; simpl. rewrite Hcs'. apply index_fits_rebuild; [by repeat constructor|]. unfold u32_max. simpl. lia.
  - simpl. unfold chunk_at; simpl. rewrite Hcs'. apply index_fits_rebuild; [by repeat constructor|]. unfold u32_max. simpl. lia.
  - simpl. rewrite (po_string p Hok), Hfl. done.
  - simpl. rewrite (po_visible p Hok), Hfl. done.
  - simpl. rewrite (po_total p Hok), Hfl. done.
  - simpl. rewrite (po_tombs p Hok), Hfl. done.
Qed.

(** ** Splitting *)

Lemma renumber_fold (ord js : list nat) (cs : list Chunk) i s :
  NoDup ord → ord !! i = Some s →
  foldl (λ cs i, match ord !! i with Some s => alter (λ c, set_pos c i) s cs | None => cs end) cs js !! s =
  if decide (i ∈ js) then (λ c, set_pos c i) <$> cs !! s else cs !! s.
Proof.
  intros Hnd Hi. revert cs. induction js as [|j js IH]; intros cs; cbn [foldl];
    [by rewrite decide_False by set_solver|].
  rewrite IH. destruct (ord !! j) as [s'|] eqn:Ej.
  - destruct (decide (s' = s)) as [->|Hne].
    + assert (j = i) as -> by (by eapply NoDup_lookup). rewrite list_lookup_alter_eq.
      destruct (decide (i ∈ i :: js)) as [_|Hn]; [|set_solver].
      destruct (decide (i ∈ js)); [|done]. by destruct (cs !! s).
    + rewrite list_lookup_alter_ne by done. apply decide_ext. rewrite elem_of_cons.
      split; [by right|]. intros [->|]; [by simplify_eq|done].
  - apply decide_ext. rewrite elem_of_cons. split; [by right|]. intros [->|]; [by simplify_eq|done].
Qed.

Lemma renumber_length cs ord from : length (renumber cs ord from) = length cs.
Proof.
  unfold renumber. generalize (seq from (length ord - from)). intros js. revert cs.
  induction js as [|j js IH]; intros cs; simpl; [done|]. rewrite IH. destruct (ord !! j); [|done].
  apply length_alter.
Qed.
Lemma renumber_lookup cs ord from i s :
  NoDup ord → ord !! i = Some s →
  renumber cs ord from !! s = if decide (from <= i)%nat then (λ c, set_pos c i) <$> cs !! s else cs !! s.
Proof.
  intros Hnd Hi. unfold renumber. rewrite (renumber_fold _ _ _ i) by done. apply decide_ext.
  rewrite elem_of_seq. apply lookup_lt_Some in Hi. lia.
Qed.

Lemma foldl_ids (moved : list Item) (m : gmap CompactId nat) ns c :
  foldl (λ m it, <[item_id it := ns]> m) m moved !! c =
  if decide (c ∈ item_id <$> moved) then Some ns else m !! c.
Proof.
  revert m. induction moved as [|it moved IH]; intros m; [done|]. cbn [foldl]. rewrite IH, fmap_cons.
  destruct (decide (c = item_id it)) as [->|Hne].
  - rewrite lookup_insert_eq. repeat case_decide; set_solver.
  - rewrite lookup_insert_ne by done. apply decide_ext. set_solver.
Qed.

(** What the split leaves behind: the chunk table, the order and the identity
    map, in terms of the old ones. *)
Record split_result p (pos slot ns : nat) (cs : list Chunk) (fr : list nat) : Prop := {
  sr_new : (ns ∉ order p);
  sr_free : NoDup fr ∧ ∀ x, x ∈ fr → (x < length cs)%nat ∧ (x ∉ order p) ∧ x ≠ ns;
  sr_left : cs !! slot = Some (recount (set_items (chunk_at p slot)
              (take (length (ck_items (chunk_at p slot)) / 2) (ck_items (chunk_at p slot)))));
  sr_right : cs !! ns = Some (recount (set_items chunk_default
              (drop (length (ck_items (chunk_at p slot)) / 2) (ck_items (chunk_at p slot)))));
  sr_other : ∀ s, s ∈ order p → s ≠ slot → cs !! s = chunks p !! s;
}.

Lemma split_chunk_eq p pos slot :
  proj_ok p → order p !! pos = Some slot →
  ∃ ns cs fr, split_result p pos slot ns cs fr ∧
    let ord := take (S pos) (order p) ++ ns :: drop (S pos) (order p) in
    split_chunk p pos = rebuild_indexes (with_chunks p (renumber cs ord (S pos)) fr ord
      (foldl (λ m it, <[item_id it := ns]> m) (id_to_chunk p)
        (drop (length (ck_items (chunk_at p slot)) / 2) (ck_items (chunk_at p slot))))).
Proof.
  intros Hok Hi. destruct (chunk_at_ok p pos slot Hok Hi) as [Hck _]. unfold split_chunk. rewrite Hi.
  change (default 0%nat (Some slot)) with slot. set (its := ck_items (chunk_at p slot)). set (mid := (length its / 2)%nat).
  set (p1 := with_chunks p _ _ _ _).
  destruct (alloc_ok p1) as (cs&fr&ns&->&Hns&Hcs&Hoth&Hfr&Hfrr).
  { split; [apply Hok|]. intros s Hs. cbn [p1 with_chunks chunks]. rewrite length_alter. by apply (po_free p Hok). }
  { intros s Hs. cbn [p1 with_chunks chunks]. rewrite length_alter. by apply (order_in_range p s Hok). }
  cbn [p1 with_chunks order free_slots id_to_chunk chunks] in *.
  assert (slot ∈ order p) as Hslot by (by eapply list_elem_of_lookup_2).
  assert (slot ≠ ns) as Hne by (intros ->; done).
  exists ns, (alter recount ns (alter recount slot (alter (λ c, set_items c (drop mid its)) ns cs))), fr.
  split; [split|done].
  - done.
  - rewrite !length_alter. done.
  - rewrite list_lookup_alter_ne, list_lookup_alter_eq, list_lookup_alter_ne, Hoth by done.
    rewrite list_lookup_alter_eq, Hck. done.
  - rewrite list_lookup_alter_eq, list_lookup_alter_ne, list_lookup_alter_eq, Hcs by done. done.
  - intros s Hs Hss. assert (s ≠ ns) by (intros ->; done).
    rewrite !list_lookup_alter_ne, Hoth, list_lookup_alter_ne by done. done.
Qed.

Section split.
Context (p : TextProjection) (pos slot ns : nat) (cs : list Chunk) (fr : list nat).
Context (Hok : proj_ok p) (Hi : order p !! pos = Some slot) (Hsr : split_result p pos slot ns cs fr).
Let its := ck_items (chunk_at p slot).
Let mid := (length its / 2)%nat.
Let ord := take (S pos) (order p) ++ ns :: drop (S pos) (order p).
Let ids := foldl (λ m it, <[item_id it := ns]> m) (id_to_chunk p) (drop mid its).
Let pf := rebuild_indexes (with_chunks p (renumber cs ord (S pos)) fr ord ids).

Lemma split_slot_in : slot ∈ order p.
Proof. by eapply list_elem_of_lookup_2. Qed.
Lemma split_slot_ne : slot ≠ ns.
Proof. intros E. apply (sr_new _ _ _ _ _ _ Hsr). rewrite <-E. apply split_slot_in. Qed.

Lemma split_ord_perm : ord ≡ₚ ns :: order p.
Proof. unfold ord. rewrite <-Permutation_middle. by rewrite take_drop. Qed.
Lemma split_ord_NoDup : NoDup ord.
Proof. rewrite split_ord_perm. constructor; [apply Hsr|apply Hok]. Qed.
Lemma split_ord_elem s : s ∈ ord ↔ s = ns ∨ s ∈ order p.
Proof. rewrite split_ord_perm. apply elem_of_cons. Qed.

(** The chunk at each place of the new order, before renumbering. *)
Lemma split_cs s i :
  ord !! i = Some s →
  ∃ ck, cs !! s = Some ck ∧ chunk_at pf s = (if decide (S pos <= i)%nat then set_pos ck i else ck) ∧
    renumber cs ord (S pos) !! s = Some (chunk_at pf s) ∧
    ((i <= pos)%nat → ck_pos ck = i) ∧
    ck_chars ck = count_chars (ck_items ck) ∧ ck_bytes ck = count_bytes (ck_items ck) ∧
    ck_items ck = (if decide (s = ns) then drop mid its
                   else if decide (s = slot) then take mid its else ck_items (chunk_at p s)).
Proof.
  intros Hs. assert (s ∈ ord) as Hin by (by eapply list_elem_of_lookup_2).
  assert (∃ ck, cs !! s = Some ck ∧ ((i <= pos)%nat → ck_pos ck = i) ∧
    ck_chars ck = count_chars (ck_items ck) ∧ ck_bytes ck = count_bytes (ck_items ck) ∧
    ck_items ck = (if decide (s = ns) then drop mid its
                   else if decide (s = slot) then take mid its else ck_items (chunk_at p s))) as (ck&Hck&Hpos&H1&H2&H3).
  { assert ((i <= pos)%nat → order p !! i = Some s) as Hlow.
    { intros Hle. unfold ord in Hs. pose proof (lookup_lt_Some _ _ _ Hi).
      rewrite lookup_app_l, lookup_take_lt in Hs by (rewrite ?length_take; lia). done. }
    destruct (decide (s = ns)) as [->|Hn].
    - eexists. split; [apply Hsr|]. split; [|done]. intros Hle. exfalso.
      apply (sr_new _ _ _ _ _ _ Hsr). eapply list_elem_of_lookup_2. by apply Hlow.
    - apply split_ord_elem in Hin as [|Hin]; [done|]. destruct (decide (s = slot)) as [->|Hne].
      + eexists. split; [apply Hsr|]. split; [|done]. intros Hle. simpl.
        destruct (chunk_at_ok p i slot Hok (Hlow Hle)) as [_ []]. done.
      + apply list_elem_of_lookup_1 in Hin as [j Hj]. destruct (chunk_at_ok p j s Hok Hj) as [Hck [Hp Hc Hb]].
        exists (chunk_at p s). rewrite (sr_other _ _ _ _ _ _ Hsr) by (done || by eapply list_elem_of_lookup_2).
        split; [done|]. split; [|done]. intros Hle. rewrite Hp.
        eapply NoDup_lookup; [apply Hok|done|by apply Hlow]. }
  exists ck. split; [done|].
  assert (renumber cs ord (S pos) !! s = Some (if decide (S pos <= i)%nat then set_pos ck i else ck)) as Hren.
  { rewrite (renumber_lookup _ _ _ i) by (apply split_ord_NoDup || done). rewrite Hck. by destruct (decide (S pos <= i)%nat). }
  unfold chunk_at at 1 2. cbn [pf rebuild_indexes with_indexes with_chunks chunks]. rewrite Hren. done.
Qed.

Lemma split_items s :
  s ∈ ord → ck_items (chunk_at pf s) =
    (if decide (s = ns) then drop mid its else if decide (s = slot) then take mid its else ck_items (chunk_at p s)).
Proof.
  intros [i Hs]%list_elem_of_lookup_1. destruct (split_cs s i Hs) as (ck&_&->&_&_&_&_&<-). by case_decide.
Qed.

Lemma split_segs :
  segs pf = take pos (segs p) ++ take mid its :: drop mid its :: drop (S pos) (segs p).
Proof.
  unfold segs at 1. change (order pf) with ord. unfold ord.
  rewrite (take_S_r _ _ slot), fmap_app, fmap_app, fmap_cons, <-app_assoc by done. simpl.
  assert (∀ l, l ⊆ order p → (slot ∉ l) →
    (λ s, ck_items (chunk_at pf s)) <$> l = (λ s, ck_items (chunk_at p s)) <$> l) as Hsame.
  { intros l Hl Hsl. apply list_fmap_ext. intros i s Hs. apply list_elem_of_lookup_2 in Hs.
    rewrite split_items by (apply split_ord_elem; auto). rewrite !decide_False; [done|by intros ->|].
    intros ->. by apply (sr_new _ _ _ _ _ _ Hsr), Hl. }
  pose proof (po_order p Hok) as Hnd. rewrite <-(take_drop_middle _ _ _ Hi) in Hnd.
  apply NoDup_app in Hnd as (_&Hd1&Hnd2). apply NoDup_cons in Hnd2 as [Hd2 _].
  rewrite !Hsame; [|apply subseteq_drop|done|apply subseteq_take|intros Hin; apply (Hd1 slot Hin); set_solver].
  rewrite !split_items by (apply split_ord_elem; auto using split_slot_in).
  rewrite (decide_True (P := ns = ns)) by done. rewrite decide_False by apply split_slot_ne.
  rewrite decide_True by done. unfold segs. by rewrite fmap_take, fmap_drop.
Qed.

Lemma split_flat : flat pf = flat p.
Proof.
  rewrite !flat_segs, split_segs, (concat_split (segs p) pos its) by (by apply segs_lookup).
  rewrite concat_app. simpl. by rewrite (app_assoc (take mid its)), take_drop.
Qed.

Lemma split_ids c s :
  ids !! c = Some s ↔ s ∈ ord ∧ c ∈ item_id <$> ck_items (chunk_at pf s).
Proof.
  assert (NoDup (item_id <$> its)) as Hnd.
  { pose proof (po_uniq p Hok) as Hu. rewrite flat_segs in Hu.
    rewrite (concat_split (segs p) pos its), !fmap_app in Hu by (by apply segs_lookup).
    apply NoDup_app in Hu as (_&_&Hu). by apply NoDup_app in Hu as (Hu&_). }
  rewrite <-(take_drop mid its), fmap_app in Hnd. apply NoDup_app in Hnd as (_&Hdis&_).
  assert (∀ x, x ∈ item_id <$> drop mid its → id_to_chunk p !! x = Some slot) as Hmoved.
  { intros x (it&->&Hit)%list_elem_of_fmap. apply (po_ids p Hok). split; [apply split_slot_in|].
    apply list_elem_of_fmap_2. fold its. rewrite <-(take_drop mid its). set_solver. }
  unfold ids. rewrite foldl_ids. destruct (decide (c ∈ item_id <$> drop mid its)) as [Hc|Hc].
  - split.
    + intros [= <-]. assert (ns ∈ ord) as Hin by (apply split_ord_elem; by left).
      split; [done|]. rewrite split_items, decide_True by done. done.
    + intros [Hs Hcs]. rewrite split_items in Hcs by done. destruct (decide (s = ns)) as [->|Hn]; [done|].
      apply split_ord_elem in Hs as [|Hs]; [done|]. destruct (decide (s = slot)) as [->|Hne].
      * by destruct (Hdis c Hcs).
      * assert (id_to_chunk p !! c = Some s) as E by (by apply (po_ids p Hok)).
        rewrite (Hmoved c Hc) in E. by simplify_eq.
  - rewrite (po_ids p Hok). split; intros [Hs Hcs].
    + assert (s ∈ ord) as Hin by (apply split_ord_elem; by right). split; [done|]. rewrite split_items by done.
      rewrite decide_False by (intros ->; by apply (sr_new _ _ _ _ _ _ Hsr)).
      destruct (decide (s = slot)) as [->|]; [|done]. fold its in Hcs.
      rewrite <-(take_drop mid its), fmap_app, elem_of_app in Hcs. by destruct Hcs.
    + rewrite split_items in Hcs by done. destruct (decide (s = ns)) as [->|Hn]; [done|].
      apply split_ord_elem in Hs as [|Hs]; [done|]. split; [done|].
      destruct (decide (s = slot)) as [->|]; [|done]. fold its.
      rewrite <-(take_drop mid its), fmap_app. set_solver.
Qed.

Lemma split_weights :
  (λ s, ck_chars (chunk_at pf s)) <$> ord = count_chars <$> segs pf ∧
  (λ s, ck_bytes (chunk_at pf s)) <$> ord = count_bytes <$> segs pf.
Proof.
  unfold segs. change (order pf) with ord. rewrite <-!list_fmap_compose.
  split; apply list_fmap_ext; intros i s Hs; cbn; destruct (split_cs s i Hs) as (ck&_&->&_&_&Hc&Hb&_);
    by destruct (decide (S pos <= i)%nat).
Qed.

Lemma split_ok : count_bytes (flat p) <= u32_max → proj_ok pf.
Proof.
  intros Hmax. pose proof split_weights as [Hwc Hwb]. pose proof split_flat as Hfl.
  pose proof (count_chars_bounds (flat p)) as Hcc.
  split; rewrite ?Hfl.
  - apply split_ord_NoDup.
  - intros i s Hs. destruct (split_cs s i Hs) as (ck&_&Hat&Hren&Hp&Hc&Hb&_).
    exists (chunk_at pf s). split; [done|]. rewrite Hat. split; destruct (decide (S pos <= i)%nat); simpl; auto.
    apply Hp. lia.
  - destruct (sr_free _ _ _ _ _ _ Hsr) as [Hnd Hfr]. split; [done|]. intros x Hx.
    cbn [pf rebuild_indexes with_indexes with_chunks chunks order]. rewrite renumber_length.
    destruct (Hfr x Hx) as (H1&H2&H3). split; [done|]. rewrite split_ord_elem. naive_solver.
  - apply split_ids.
  - apply Hok.
  - change (char_index pf) with (rebuild_from_weights ((λ s, ck_chars (chunk_at pf s)) <$> ord)).
    rewrite Hwc. apply index_fits_rebuild.
    + apply Forall_fmap, Forall_forall. intros x _. simpl. pose proof (count_chars_bounds x). lia.
    + rewrite <-count_chars_concat, <-flat_segs, Hfl. lia.
  - change (byte_index pf) with (rebuild_from_weights ((λ s, ck_bytes (chunk_at pf s)) <$> ord)).
    rewrite Hwb. apply index_fits_rebuild.
    + apply Forall_fmap, Forall_forall. intros x _. simpl. pose proof (count_chars_bounds x). lia.
    + rewrite <-count_bytes_concat, <-flat_segs, Hfl. lia.
  - apply Hok.
  - apply Hok.
  - apply Hok.
  - apply Hok.
Qed.
End split.

Lemma split_chunk_ok p pos slot :
  proj_ok p → order p !! pos = Some slot → count_bytes (flat p) <= u32_max →
  proj_ok (split_chunk p pos) ∧ flat (split_chunk p pos) = flat p ∧ same_meta p (split_chunk p pos) ∧
  pending_deletes (split_chunk p pos) = pending_deletes p.
Proof.
  intros Hok Hi Hmax. destruct (split_chunk_eq p pos slot Hok Hi) as (ns&cs&fr&Hsr&->).
  split; [by apply split_ok|]. split; [by apply split_flat|]. done.
Qed.

(** ** Integration *)

Lemma alter_insert {A} (f : A → A) i (l : list A) x : l !! i = Some x → alter f i l = <[i := f x]> l.
Proof.
  intros Hi. apply list_eq. intros j. destruct (decide (i = j)) as [<-|Hne].
  - rewrite list_lookup_alter_eq, Hi, list_lookup_insert_eq; [done|by eapply lookup_lt_Some].
  - by rewrite list_lookup_alter_ne, list_lookup_insert_ne.
Qed.

Lemma integrate_start_ok p parent :
  proj_ok p → order p ≠ [] → (∀ q, parent = Some q → q ∈ item_id <$> flat p) →
  loc_ok (segs p) (integrate_start p parent) ∧
  match parent with
  | None => front (segs p) (integrate_start p parent) = []
  | Some q => ∃ l y, front (segs p) (integrate_start p parent) = l ++ [y] ∧ item_id y = q
  end.
Proof.
  intros Hok Hne Hp. destruct parent as [q|]; simpl.
  - destruct (loc_of_id_known p q Hok (Hp q eq_refl)) as [l Hl]. rewrite Hl. simpl.
    destruct (loc_of_id_Some p q l Hok Hl) as (it&(its&Hi&Hit)&Hid).
    destruct (step_loc _ _ _ _ Hi Hit) as (Hok'&Hfr&_). split; [done|]. eauto.
  - destruct (order p) as [|s o] eqn:Eo; [done|]. split; [|done].
    exists (ck_items (chunk_at p s)). split; [|simpl; lia]. apply segs_lookup. by rewrite Eo.
Qed.

(** The state after an item has been inserted and before a split. *)
Section insert.
Context (p : TextProjection) (l : Loc) (c : CompactId) (ch : Z) (slot : nat).
Context (Hok : proj_ok p) (Hl : loc_ok (segs p) l) (Ho : order p !! loc_pos l = Some slot).
Context (Hc : (c ∉ item_id <$> flat p)).
Let its := ck_items (chunk_at p slot).
Let fl (it : Item) := front (segs p) l ++ it :: rest (segs p) l.
Let its' (it : Item) := take (loc_item l) its ++ it :: drop (loc_item l) its.

Lemma insert_concat it : concat (<[loc_pos l := its' it]> (segs p)) = fl it.
Proof.
  destruct Hl as (ks&Hi&Hle). pose proof (segs_lookup _ _ _ Ho) as Hi'. assert (ks = its) as -> by (unfold its; congruence).
  by apply concat_insert_at.
Qed.

Lemma insert_ids it c' s :
  item_id it = c →
  <[c := slot]> (id_to_chunk p) !! c' = Some s ↔
  if decide (s = slot) then c' ∈ item_id <$> its' it else id_to_chunk p !! c' = Some s.
Proof.
  intros Hit. assert (id_to_chunk p !! c = None) as Hnone.
  { apply eq_None_not_Some. intros Hs. by apply (id_known p c Hok) in Hs. }
  assert (∀ x, x ∈ item_id <$> its' it ↔ x = c ∨ x ∈ item_id <$> its) as Hel.
  { intros x. unfold its'. rewrite <-(take_drop (loc_item l) its) at 3.
    rewrite !fmap_app, fmap_cons, Hit. set_solver. }
  assert (slot ∈ order p) as Hso by (by eapply list_elem_of_lookup_2).
  destruct (decide (s = slot)) as [->|Hs]; rewrite ?Hel; (destruct (decide (c' = c)) as [->|Hne];
    [rewrite lookup_insert_eq|rewrite lookup_insert_ne by done]).
  - naive_solver.
  - rewrite (po_ids p Hok). fold its. naive_solver.
  - rewrite Hnone. naive_solver.
  - done.
Qed.

Lemma insert_uniq it : item_id it = c → NoDup (item_id <$> fl it).
Proof.
  intros Hit. unfold fl. rewrite <-Permutation_middle, front_rest, <-flat_segs, fmap_cons, Hit by done.
  constructor; [done|apply Hok].
Qed.

Lemma insert_length it : Z.of_nat (length (fl it)) = Z.of_nat (length (flat p)) + 1.
Proof.
  unfold fl. rewrite length_app. simpl. rewrite flat_segs, <-(front_rest (segs p) l), length_app by done. lia.
Qed.
Lemma insert_chars it :
  count_chars (fl it) = count_chars (flat p) + (if item_tomb it then 0 else 1).
Proof.
  unfold fl. rewrite flat_segs, <-(front_rest (segs p) l), !count_chars_app by done. simpl. lia.
Qed.
Lemma insert_item_counts it :
  count_chars (its' it) = count_chars its + (if item_tomb it then 0 else 1) ∧
  count_bytes (its' it) = count_bytes its + (if item_tomb it then 0 else len_utf8 (item_ch it)).
Proof.
  unfold its'. rewrite <-(take_drop (loc_item l) its) at 3 6. rewrite !count_chars_app, !count_bytes_app. simpl. lia.
Qed.
End insert.

(** Inserting text at a byte offset of a string. *)
Lemma splice_string (a b s : bytes) :
  (if Z.of_nat (length a) =? Z.of_nat (length (a ++ b)) then (a ++ b) ++ s
   else take (Z.to_nat (Z.of_nat (length a))) (a ++ b) ++ s ++ drop (Z.to_nat (Z.of_nat (length a))) (a ++ b))
  = a ++ s ++ b.
Proof.
  rewrite Nat2Z.id, take_app_length, drop_app_length. destruct (Z.eqb_spec (Z.of_nat (length a)) (Z.of_nat (length (a ++ b)))) as [E|]; [|done].
  rewrite length_app in E. destruct b; [by rewrite !app_nil_r|simpl in E; lia].
Qed.

Lemma sum_insert ws i w v :
  ws !! i = Some v → foldr Z.add 0 (<[i := w]> ws) = foldr Z.add 0 ws - v + w.
Proof.
  revert i. induction ws as [|x ws IH]; intros [|i] Hi; simplify_eq/=; [lia|]. rewrite (IH i Hi). lia.
Qed.

(** Both indexes after the items of one chunk have changed. *)
Lemma edit_indexes p i its its' :
  proj_ok p → segs p !! i = Some its →
  count_chars (flat p) - count_chars its + count_chars its' <= u32_max →
  count_bytes (flat p) - count_bytes its + count_bytes its' <= u32_max →
  index_fits (update_weight (char_index p) i (count_chars its'))
    (<[i := count_chars its']> (count_chars <$> segs p)) ∧
  index_fits (update_weight (byte_index p) i (count_bytes its'))
    (<[i := count_bytes its']> (count_bytes <$> segs p)).
Proof.
  intros Hok Hi Hc Hb. pose proof (lookup_lt_Some _ _ _ Hi) as Hlt.
  split; (apply index_fits_update; [apply Hok|by rewrite length_fmap| |]).
  - apply count_chars_bounds.
  - rewrite (sum_insert _ _ _ (count_chars its)) by (by rewrite list_lookup_fmap, Hi).
    by rewrite <-count_chars_concat, <-flat_segs.
  - etrans; apply count_chars_bounds.
  - rewrite (sum_insert _ _ _ (count_bytes its)) by (by rewrite list_lookup_fmap, Hi).
    by rewrite <-count_bytes_concat, <-flat_segs.
Qed.

Section insert_step.
Context (p : TextProjection) (l : Loc) (c : CompactId) (ch : Z) (slot : nat).
Context (Hok : proj_ok p) (Hl : loc_ok (segs p) l) (Ho : order p !! loc_pos l = Some slot).
Context (Hc : (c ∉ item_id <$> flat p)) (Hmax : count_bytes (flat p) + 4 <= u32_max).
Let its := ck_items (chunk_at p slot).
Let edited (it : Item) : TextProjection :=
  let p := with_pending p (pending_deletes p ∖ {[c]}) in
  let p := with_chunks p (alter (λ k, set_items k (take (loc_item l) its ++ it :: drop (loc_item l) its)) slot (chunks p))
             (free_slots p) (order p) (<[c := slot]> (id_to_chunk p)) in
  with_visible p (visible_string p) (visible_total p) (total_items p + 1)
    (tombstones p + if item_tomb it then 1 else 0).

Lemma insert_tomb_ok it :
  item_id it = c → item_tomb it = true →
  proj_ok (edited it) ∧ flat (edited it) = front (segs p) l ++ it :: rest (segs p) l.
Proof.
  intros Hit Ht. destruct (chunk_at_ok p _ slot Hok Ho) as [Hck [Hpos Hchars Hbytes]].
  pose proof (insert_item_counts p l slot it) as [Hcc Hcb]. rewrite Ht in Hcc, Hcb.
  pose proof (segs_lookup _ _ _ Ho) as Hseg. fold its in Hcc, Hcb, Hchars, Hbytes, Hseg.
  assert (concat (<[loc_pos l := take (loc_item l) its ++ it :: drop (loc_item l) its]> (segs p)) =
    front (segs p) l ++ it :: rest (segs p) l) as Hcat by exact (insert_concat p l slot Hl Ho it).
  rewrite <-Hcat.
  apply (proj_ok_edit p (edited it) (loc_pos l) slot
    (set_items (chunk_at p slot) (take (loc_item l) its ++ it :: drop (loc_item l) its))); try done;
    cbn [edited with_visible with_chunks with_pending set_items ck_items chunks char_index byte_index
         visible_string visible_total total_items tombstones id_to_chunk];
    rewrite ?Hcat, ?Ht.
  - by rewrite (alter_insert _ _ _ (chunk_at p slot)).
  - split; [done|..]; cbn [set_items ck_chars ck_bytes ck_items]; lia.
  - intros c' s. by apply insert_ids.
  - by apply (insert_uniq p l c).
  - rewrite Hcc, Z.add_0_r, list_insert_id; [apply Hok|]. by rewrite list_lookup_fmap, Hseg.
  - rewrite Hcb, Z.add_0_r, list_insert_id; [apply Hok|]. by rewrite list_lookup_fmap, Hseg.
  - rewrite (po_string p Hok), flat_segs, <-(front_rest (segs p) l), !utf8_app by done. f_equal.
    unfold utf8. simpl. by rewrite Ht.
  - rewrite (po_visible p Hok), insert_chars, Ht by done. lia.
  - rewrite (po_total p Hok), insert_length by done. lia.
  - rewrite (po_tombs p Hok), insert_length, insert_chars, Ht by done. lia.
Qed.

Lemma insert_visible_ok it :
  item_id it = c → item_tomb it = false →
  let p' := show_char (edited it) l slot (item_ch it) (visible_prefix_at p l) (byte_prefix_at p l) in
  proj_ok p' ∧ flat p' = front (segs p) l ++ it :: rest (segs p) l.
Proof.
  intros Hit Ht p'. destruct (chunk_at_ok p _ slot Hok Ho) as [Hck [Hpos Hchars Hbytes]].
  pose proof (insert_item_counts p l slot it) as [Hcc Hcb]. rewrite Ht in Hcc, Hcb.
  pose proof (segs_lookup _ _ _ Ho) as Hseg. fold its in Hcc, Hcb, Hchars, Hbytes, Hseg. pose proof (lookup_lt_Some _ _ _ Hseg) as Hlt.
  pose proof (len_utf8_bounds (item_ch it)) as Hlen. pose proof (lookup_lt_Some _ _ _ Hck) as Hltc.
  pose proof (count_chars_bounds (flat p)) as Hfc.
  set (ck' := mkChunk (take (loc_item l) its ++ it :: drop (loc_item l) its) (ck_chars (chunk_at p slot) + 1)
                (ck_bytes (chunk_at p slot) + len_utf8 (item_ch it)) (ck_pos (chunk_at p slot))).
  assert (chunks p' = <[slot := ck']> (chunks p)) as Hcs.
  { cbn [p' show_char with_dirty with_visible with_indexes with_chunks edited with_pending chunks].
    rewrite (alter_insert _ _ _ (set_items (chunk_at p slot) (take (loc_item l) its ++ it :: drop (loc_item l) its))).
    - rewrite (alter_insert _ slot (chunks p) (chunk_at p slot)) by done. by rewrite list_insert_insert_eq.
    - by rewrite list_lookup_alter_eq, Hck. }
  assert (chunk_at p' slot = ck') as Hat by (unfold chunk_at; by rewrite Hcs, list_lookup_insert_eq).
  assert (concat (<[loc_pos l := take (loc_item l) its ++ it :: drop (loc_item l) its]> (segs p)) =
    front (segs p) l ++ it :: rest (segs p) l) as Hcat by exact (insert_concat p l slot Hl Ho it).
  rewrite <-Hcat.
  apply (proj_ok_edit p p' (loc_pos l) slot ck'); try done; cbn [ck' ck_items]; rewrite ?Hcat.
  - split; [done|..]; cbn [ck' ck_chars ck_bytes ck_items]; lia.
  - intros c' s. change (id_to_chunk p') with (<[c := slot]> (id_to_chunk p)). by apply insert_ids.
  - by apply (insert_uniq p l c).
  - change (char_index p') with (update_weight (char_index p) (loc_pos l) (ck_chars (chunk_at p' slot))).
    rewrite Hat. replace (ck_chars ck') with (count_chars (ck_items ck')) by (cbn [ck' ck_chars ck_items]; lia).
    apply (edit_indexes p _ its); [done|done|cbn [ck' ck_items]; lia..].
  - change (byte_index p') with (update_weight (byte_index p) (loc_pos l) (ck_bytes (chunk_at p' slot))).
    rewrite Hat. replace (ck_bytes ck') with (count_bytes (ck_items ck')) by (cbn [ck' ck_bytes ck_items]; lia).
    apply (edit_indexes p _ its); [done|done|cbn [ck' ck_items]; lia..].
  - cbn [p' show_char with_dirty with_visible with_indexes with_chunks edited with_pending visible_string].
    rewrite byte_prefix_ok, (po_string p Hok), flat_segs, <-(front_rest (segs p) l), !utf8_app by done.
    rewrite splice_string. f_equal. unfold utf8. simpl. by rewrite Ht.
  - cbn [p' show_char with_dirty with_visible with_indexes with_chunks edited with_pending visible_total].
    rewrite (po_visible p Hok), insert_chars, Ht by done. lia.
  - cbn [p' show_char with_dirty with_visible with_indexes with_chunks edited with_pending total_items].
    rewrite (po_total p Hok), insert_length by done. lia.
  - cbn [p' show_char with_dirty with_visible with_indexes with_chunks edited with_pending tombstones].
    rewrite (po_tombs p Hok), insert_length, insert_chars, Ht by done. lia.
Qed.
End insert_step.

Lemma insert_item_ok p l c ch :
  proj_ok p → loc_ok (segs p) l → (c ∉ item_id <$> flat p) → count_bytes (flat p) + 4 <= u32_max →
  let it := mkItem c ch (bool_decide (c ∈ pending_deletes p)) in
  let p' := insert_item p l c ch in
  proj_ok p' ∧ flat p' = front (segs p) l ++ it :: rest (segs p) l ∧ same_meta p p' ∧
  pending_deletes p' = pending_deletes p ∖ {[c]}.
Proof.
  intros Hok Hl Hc Hmax it p'. pose proof Hl as (its&Hi&Hle).
  pose proof (segs_lookup_inv _ _ _ Hi) as (slot&Ho&->).
  assert (∃ p1, proj_ok p1 ∧ flat p1 = front (segs p) l ++ it :: rest (segs p) l ∧ order p1 = order p ∧
    same_meta p p1 ∧ pending_deletes p1 = pending_deletes p ∖ {[c]} ∧
    p' = if (CHUNK_SPLIT <? length (ck_items (chunk_at p1 slot)))%nat then split_chunk p1 (loc_pos l) else p1)
    as (p1&Hok1&Hfl1&Ho1&Hm1&Hp1&->).
  { unfold p', insert_item. rewrite Ho. change (default 0%nat (Some slot)) with slot.
    rewrite Nat.min_l by lia. destruct l as [lp li]. cbn [loc_pos loc_item] in *. unfold it.
    destruct (bool_decide (c ∈ pending_deletes p)) eqn:Ed; rewrite ?Ed.
    - eexists. split; [|split; [|split; [|split; [|split; [|reflexivity]]]]]; [| |done..].
      + apply (insert_tomb_ok p (mkLoc lp li) c slot Hok Hl Ho Hc (mkItem c ch true)); done.
      + apply (insert_tomb_ok p (mkLoc lp li) c slot Hok Hl Ho Hc (mkItem c ch true)); done.
    - eexists. split; [|split; [|split; [|split; [|split; [|reflexivity]]]]]; [| |done..].
      + apply (insert_visible_ok p (mkLoc lp li) c slot Hok Hl Ho Hc Hmax (mkItem c ch false)); done.
      + apply (insert_visible_ok p (mkLoc lp li) c slot Hok Hl Ho Hc Hmax (mkItem c ch false)); done. }
  destruct (_ <? _)%nat; [|done].
  assert (count_bytes (flat p1) <= u32_max) as Hmax1.
  { rewrite Hfl1. rewrite flat_segs, <-(front_rest (segs p) l), count_bytes_app in Hmax by done.
    rewrite count_bytes_app. simpl. pose proof (len_utf8_bounds ch). destruct (bool_decide _); simpl; lia. }
  destruct (split_chunk_ok p1 (loc_pos l) slot) as (H1&H2&H3&H4); [done|by rewrite Ho1|done|].
  split; [done|]. split; [by rewrite H2|]. split; [|by rewrite H4].
  unfold same_meta in *. intuition congruence.
Qed.

(** [integrate] is the insertion rule of the growable array on the flat list. *)
Lemma integrate_ok p c parent ch :
  proj_ok p → (c ∉ item_id <$> flat p) → (∀ q, parent = Some q → q ∈ item_id <$> flat p) →
  count_bytes (flat p) + 4 <= u32_max →
  let it := mkItem c ch (bool_decide (c ∈ pending_deletes p)) in
  let p' := integrate p c parent ch in
  proj_ok p' ∧ same_meta p p' ∧ pending_deletes p' = pending_deletes p ∖ {[c]} ∧
  ∃ l1 l2, flat p = l1 ++ l2 ∧ flat p' = l1 ++ place (item_oid (actors p)) it l2 ∧
    match parent with None => l1 = [] | Some q => ∃ l y, l1 = l ++ [y] ∧ item_id y = q end.
Proof.
  intros Hok Hc Hpar Hmax it p'. unfold p', integrate.
  destruct (ensure_chunk_ok p Hok) as (Hok0&Hne&Hfl0&(Ha0&Hr0&Hri0)&Hp0). set (p0 := ensure_chunk p) in *.
  rewrite <-Hfl0 in Hc, Hpar, Hmax.
  destruct (integrate_start_ok p0 parent Hok0 Hne Hpar) as [Hl0 Hfr0].
  set (l0 := integrate_start p0 parent) in *.
  destruct (scan_ok p0 c (S (S (length (flat p0)))) l0 Hne Hl0) as (Hl&g&Hre&Hfr&Hg&Hh).
  { rewrite flat_segs, <-(front_rest _ _ Hl0), length_app. lia. }
  set (l := scan_loop _ p0 c l0) in *.
  destruct (insert_item_ok p0 l c ch Hok0 Hl Hc Hmax) as (H1&H2&(Ha1&Hr1&Hri1)&H3).
  split; [done|]. split; [by split; [|split]; congruence|]. split; [by rewrite H3, Hp0|].
  exists (front (segs p0) l0), (rest (segs p0) l0). rewrite H2, <-Hfl0, flat_segs. split; [|split; [|done]].
  - by rewrite front_rest.
  - rewrite Hre, place_app; [|by rewrite <-Ha0|by rewrite <-Ha0]. rewrite Hfr, Hp0. by rewrite <-app_assoc.
Qed.

(** ** Deletion *)

Definition bury (it : Item) : Item := mkItem (item_id it) (item_ch it) true.
Definition bury_id (c : CompactId) (it : Item) : Item := if decide (item_id it = c) then bury it else it.

Lemma bury_id_id c it : item_id (bury_id c it) = item_id it.
Proof. unfold bury_id. by case_decide. Qed.
Lemma bury_ids c (l : list Item) : item_id <$> (bury_id c <$> l) = item_id <$> l.
Proof. rewrite <-list_fmap_compose. apply list_fmap_ext. intros. apply bury_id_id. Qed.

(** Burying by identity changes one item of a list without duplicates. *)
Lemma bury_unique l1 it l2 :
  NoDup (item_id <$> l1 ++ it :: l2) →
  bury_id (item_id it) <$> (l1 ++ it :: l2) = l1 ++ bury it :: l2.
Proof.
  rewrite fmap_app, fmap_cons. intros (_&Hd1&Hnd)%NoDup_app. apply NoDup_cons in Hnd as [Hd2 _].
  assert (∀ l : list Item, (item_id it ∉ item_id <$> l) → bury_id (item_id it) <$> l = l) as Hid.
  { intros l Hl. rewrite <-(list_fmap_id l) at 2. apply list_fmap_ext. intros i x Hx. unfold bury_id.
    rewrite decide_False; [done|]. intros E. apply Hl. rewrite <-E. apply list_elem_of_fmap_2.
    by eapply list_elem_of_lookup_2. }
  rewrite fmap_app, fmap_cons, !Hid; [|done|intros Hin; apply (Hd1 _ Hin); set_solver].
  unfold bury_id. by rewrite decide_True.
Qed.

Lemma cut_string (a b s : bytes) :
  take (Z.to_nat (Z.of_nat (length a))) (a ++ s ++ b) ++
  drop (Z.to_nat (Z.of_nat (length a) + Z.of_nat (length s))) (a ++ s ++ b) = a ++ b.
Proof.
  rewrite <-Nat2Z.inj_add, !Nat2Z.id, take_app_length. f_equal.
  rewrite app_assoc, <-length_app. apply drop_app_length.
Qed.

Lemma concat_alter_at ss l its it f :
  ss !! loc_pos l = Some its → its !! loc_item l = Some it →
  concat ss = front ss l ++ it :: rest ss (mkLoc (loc_pos l) (S (loc_item l))) ∧
  concat (<[loc_pos l := alter f (loc_item l) its]> ss) =
    front ss l ++ f it :: rest ss (mkLoc (loc_pos l) (S (loc_item l))).
Proof.
  intros Hi Hit. destruct (step_loc ss l its it Hi Hit) as (_&_&Hre). split.
  - rewrite <-(front_rest ss l), Hre; [done|]. exists its. split; [done|]. apply lookup_lt_Some in Hit. lia.
  - rewrite (alter_insert f _ _ it) by done. pose proof (lookup_lt_Some _ _ _ Hi). pose proof (lookup_lt_Some _ _ _ Hit).
    rewrite (concat_split _ (loc_pos l) (<[loc_item l := f it]> its)) by (by apply list_lookup_insert_eq).
    rewrite take_insert_ge, drop_insert_lt by lia. unfold front, rest; simpl. rewrite Hi. simpl.
    rewrite insert_take_drop by done. by rewrite <-!app_assoc.
Qed.

Lemma bury_counts l1 it l2 :
  item_tomb it = false →
  count_chars (l1 ++ bury it :: l2) = count_chars (l1 ++ it :: l2) - 1 ∧
  count_bytes (l1 ++ bury it :: l2) = count_bytes (l1 ++ it :: l2) - len_utf8 (item_ch it).
Proof. intros Ht. rewrite !count_chars_app, !count_bytes_app. simpl. rewrite Ht. lia. Qed.

Lemma bury_chunk its i it :
  its !! i = Some it → item_tomb it = false →
  count_chars (alter bury i its) = count_chars its - 1 ∧
  count_bytes (alter bury i its) = count_bytes its - len_utf8 (item_ch it) ∧
  item_id <$> alter bury i its = item_id <$> its.
Proof.
  intros Hit Ht.
  assert (alter bury i its = take i its ++ bury it :: drop (S i) its) as ->.
  { rewrite (alter_insert bury _ _ it) by done. apply insert_take_drop. by eapply lookup_lt_Some. }
  destruct (bury_counts (take i its) it (drop (S i) its) Ht) as [-> ->]. rewrite fmap_app, fmap_cons.
  change (item_id (bury it)) with (item_id it). by rewrite <-fmap_cons, <-fmap_app, take_drop_middle.
Qed.

(** The string without the bytes of a buried character. *)
Lemma bury_string p l its it :
  proj_ok p → segs p !! loc_pos l = Some its → its !! loc_item l = Some it → item_tomb it = false →
  take (Z.to_nat (byte_prefix_at p l)) (visible_string p) ++
  drop (Z.to_nat (byte_prefix_at p l + len_utf8 (item_ch it))) (visible_string p) =
  utf8 (concat (<[loc_pos l := alter bury (loc_item l) its]> (segs p))).
Proof.
  intros Hok Hi Hit Ht. destruct (concat_alter_at _ _ _ _ bury Hi Hit) as [Hc0 Hc1]. rewrite <-flat_segs in Hc0.
  rewrite byte_prefix_ok by (done || by eapply at_item_ok; exists its).
  rewrite (po_string p Hok), Hc0, Hc1, !utf8_app, <-length_encode_utf8.
  change (it :: ?r) with ([it] ++ r). change (bury it :: ?r) with ([bury it] ++ r). rewrite !utf8_app.
  assert (utf8 [it] = encode_utf8 (item_ch it)) as -> by (unfold utf8; simpl; by rewrite Ht, app_nil_r).
  apply cut_string.
Qed.

Lemma delete_known_ok p c :
  proj_ok p → count_bytes (flat p) <= u32_max → c ∈ item_id <$> flat p →
  let p' := delete_known p c in
  proj_ok p' ∧ same_meta p p' ∧ pending_deletes p' = pending_deletes p ∧ flat p' = bury_id c <$> flat p.
Proof.
  intros Hok Hmax Hin p'. unfold p', delete_known. destruct (loc_of_id_known p c Hok Hin) as [l Hl].
  rewrite Hl. destruct (loc_of_id_Some p c l Hok Hl) as (it&(its&Hi&Hit)&Hid).
  rewrite (item_at_segs _ _ _ _ Hi Hit). pose proof (segs_lookup_inv _ _ _ Hi) as (slot&Ho&Eits).
  destruct (concat_alter_at _ _ _ _ bury Hi Hit) as [Hc0 Hc1]. rewrite <-flat_segs in Hc0.
  assert (bury_id c <$> flat p = front (segs p) l ++ bury it :: rest (segs p) (mkLoc (loc_pos l) (S (loc_item l)))) as Hb.
  { rewrite Hc0, <-Hid. apply bury_unique. rewrite <-Hc0. apply Hok. }
  destruct (item_tomb it) eqn:Ht.
  { split; [done|]. split; [done|]. split; [done|]. rewrite Hb, Hc0. do 2 f_equal.
    destruct it; simpl in *; by subst. }
  rewrite Ho. change (default 0%nat (Some slot)) with slot. rewrite <-Hc1 in Hb. rewrite Hb. clear Hb.
  destruct (chunk_at_ok p _ slot Hok Ho) as [Hck [Hpos Hchars Hbytes]]. rewrite <-Eits in Hchars, Hbytes.
  set (ck' := mkChunk (alter bury (loc_item l) its) (ck_chars (chunk_at p slot) - 1)
                (ck_bytes (chunk_at p slot) - len_utf8 (item_ch it)) (ck_pos (chunk_at p slot))).
  set (p1 := with_dirty _ _). destruct (bury_chunk its (loc_item l) it Hit Ht) as (Hcc&Hcb&Eids).
  destruct (bury_counts (front (segs p) l) it (rest (segs p) (mkLoc (loc_pos l) (S (loc_item l)))) Ht) as [Hfc _].
  rewrite <-Hc1, <-Hc0 in Hfc. pose proof (len_utf8_bounds (item_ch it)). pose proof (count_chars_bounds (flat p)).
  assert (chunks p1 = <[slot := ck']> (chunks p)) as Hcs.
  { cbn [p1 with_dirty with_visible with_indexes with_chunks with_count chunks].
    rewrite (alter_insert _ slot (chunks p) (chunk_at p slot)) by done. unfold ck'. by rewrite Eits. }
  pose proof (lookup_lt_Some _ _ _ Hck) as Hltc.
  assert (chunk_at p1 slot = ck') as Hat by (unfold chunk_at; by rewrite Hcs, list_lookup_insert_eq).
  assert (proj_ok p1 ∧ flat p1 = concat (<[loc_pos l := alter bury (loc_item l) its]> (segs p))) as [? ?]; [|done].
  apply (proj_ok_edit p p1 (loc_pos l) slot ck'); try done; cbn [ck' ck_items].
  - split; [done|..]; cbn [ck' ck_chars ck_bytes ck_items]; lia.
  - intros c' s. change (id_to_chunk p1) with (id_to_chunk p). rewrite (po_ids p Hok).
    assert (slot ∈ order p) by (by eapply list_elem_of_lookup_2).
    destruct (decide (s = slot)) as [->|]; rewrite ?Eids, <-?Eits; [naive_solver|]. by rewrite (po_ids p Hok).
  - rewrite Hc1, fmap_app, fmap_cons. change (item_id (bury it)) with (item_id it).
    rewrite <-fmap_cons, <-fmap_app, <-Hc0. apply Hok.
  - change (char_index p1) with (update_weight (char_index p) (loc_pos l) (ck_chars (chunk_at p1 slot))).
    rewrite Hat. replace (ck_chars ck') with (count_chars (alter bury (loc_item l) its)) by (cbn [ck' ck_chars]; lia).
    apply (edit_indexes p _ its); [done|done|lia..].
  - change (byte_index p1) with (update_weight (byte_index p) (loc_pos l) (ck_bytes (chunk_at p1 slot))).
    rewrite Hat. replace (ck_bytes ck') with (count_bytes (alter bury (loc_item l) its)) by (cbn [ck' ck_bytes]; lia).
    apply (edit_indexes p _ its); [done|done|lia..].
  - exact (bury_string p l its it Hok Hi Hit Ht).
  - change (visible_total p1) with (visible_total p - 1). rewrite (po_visible p Hok). lia.
  - change (total_items p1) with (total_items p). rewrite (po_total p Hok), Hc1, Hc0, !length_app. done.
  - change (tombstones p1) with (tombstones p + 1).
    rewrite (po_tombs p Hok), Hfc. rewrite Hc1, !Hc0, !length_app. simpl. lia.
Qed.
