(* ===== verification/TextDoc.v ===== *)
(** What the text projection materialises: after any sequence of inserts and
    deletes, in any order of arrival, the sequence holds the characters whose
    ancestors have all arrived, in the order of the insertion tree, and hides
    the deleted ones. *)

From S2P Require Import Prelude Op Node Fenwick TextState Text Rga TextChunks.

#[global] Instance ProjectionUpdateOp_eq_dec : EqDecision ProjectionUpdateOp.
Proof. solve_decision. Defined.

(** ** The actor table *)

Record actors_ok (t : ActorTable) : Prop := {
  ao_uniq : NoDup (authors t);
  ao_size : Z.of_nat (length (authors t)) < 2 ^ 32;
  ao_index : ∀ a i, author_to_idx t !! a = Some i ↔ 0 <= i ∧ authors t !! Z.to_nat i = Some a;
}.

Definition cid_valid (t : ActorTable) (c : CompactId) : Prop :=
  0 <= actor_idx c ∧ is_Some (author_for_idx t (actor_idx c)).

(** A table only grows at the end. *)
Definition actors_le (t t' : ActorTable) : Prop := authors t `prefix_of` authors t'.

Lemma actors_le_valid t t' c :
  actors_le t t' → cid_valid t c → cid_valid t' c ∧ oid t' c = oid t c.
Proof.
  intros Hle [Hi [a Ha]]. unfold cid_valid, oid, author_for_idx in *.
  pose proof (prefix_lookup_Some _ _ _ _ Ha Hle) as Ha'. rewrite Ha, Ha'. eauto.
Qed.

Lemma oid_inj t c d :
  actors_ok t → cid_valid t c → cid_valid t d → oid t c = oid t d → c = d.
Proof.
  intros Hok [Hc [a Ha]] [Hd [b Hb]]. unfold oid. rewrite Ha, Hb. simpl. intros [= Hl ->].
  unfold author_for_idx in *. pose proof (NoDup_lookup _ _ _ _ (ao_uniq t Hok) Ha Hb) as E.
  destruct c, d; simpl in *. f_equal; [lia|done].
Qed.

Lemma cid_to_op_id_valid t c : cid_valid t c → cid_to_op_id c t = Some (oid t c).
Proof. intros [_ [a Ha]]. unfold cid_to_op_id, oid. by rewrite Ha. Qed.

Lemma actors_ok_default : actors_ok actors_default.
Proof.
  split; simpl; [constructor|lia|]. intros a i. rewrite lookup_empty. split; [done|by intros []].
Qed.

(** Interning an author. *)
Lemma cid_of_op_id_ok t x :
  actors_ok t → Z.of_nat (length (authors t)) + 1 < 2 ^ 32 →
  ∃ t' c, cid_of_op_id x t = (t', c) ∧ actors_ok t' ∧ actors_le t t' ∧
    (length (authors t') <= S (length (authors t)))%nat ∧ cid_valid t' c ∧ oid t' c = x.
Proof.
  intros Hok Hsz. unfold cid_of_op_id, get_or_insert.
  destruct (author_to_idx t !! oid_author x) as [i|] eqn:E.
  - apply (ao_index t Hok) in E as [Hi Ha]. exists t, (mkCid i (oid_lamport x)). split; [done|]. split; [done|].
    split; [by unfold actors_le|]. split; [lia|]. unfold cid_valid, oid, author_for_idx; simpl. rewrite Ha.
    split; [eauto|]. by destruct x.
  - set (n := length (authors t)). rewrite Z.mod_small by lia.
    exists (mkActors (authors t ++ [oid_author x]) (<[oid_author x := Z.of_nat n]> (author_to_idx t))),
      (mkCid (Z.of_nat n) (oid_lamport x)).
    assert (oid_author x ∉ authors t) as Hnew.
    { intros [j Hj]%list_elem_of_lookup_1. assert (author_to_idx t !! oid_author x = Some (Z.of_nat j)) as E'.
      { apply (ao_index t Hok). rewrite Nat2Z.id. split; [lia|done]. } congruence. }
    split; [done|]. split; [split; simpl|].
    + apply NoDup_app. split; [apply Hok|]. split; [set_solver|apply NoDup_singleton].
    + rewrite length_app. simpl. lia.
    + intros a i. destruct (decide (a = oid_author x)) as [->|Hne].
      * rewrite lookup_insert_eq. split.
        { intros [= <-]. split; [lia|]. rewrite Nat2Z.id, lookup_app_r, Nat.sub_diag by lia. done. }
        intros [Hi Hl]. apply lookup_app_Some in Hl as [Hl|[Hge Hl]].
        { destruct Hnew. by eapply list_elem_of_lookup_2. }
        apply lookup_lt_Some in Hl. simpl in Hl. f_equal. lia.
      * rewrite lookup_insert_ne by done. rewrite (ao_index t Hok). split; intros [Hi Hl]; (split; [done|]).
        { by apply lookup_app_l_Some. }
        apply lookup_app_Some in Hl as [Hl|[Hge Hl]]; [done|]. apply list_lookup_singleton_Some in Hl as [_ Hl]. done.
    + split; [by exists [oid_author x]|]. split; [simpl; rewrite length_app; simpl; lia|].
      unfold cid_valid, oid, author_for_idx; simpl. rewrite Nat2Z.id, lookup_app_r, Nat.sub_diag by lia. simpl.
      split; [split; [lia|done]|by destruct x].
Qed.

Lemma cid_existing_ok t x c :
  actors_ok t → cid_of_op_id_existing x t = Some c → cid_valid t c ∧ oid t c = x.
Proof.
  intros Hok. unfold cid_of_op_id_existing. intros (i&Hi&->)%fmap_Some.
  apply (ao_index t Hok) in Hi as [Hi Ha]. unfold cid_valid, oid, author_for_idx; simpl. rewrite Ha.
  split; [eauto|]. by destruct x.
Qed.
Lemma cid_existing_None t x c :
  actors_ok t → cid_of_op_id_existing x t = None → cid_valid t c → oid t c ≠ x.
Proof.
  intros Hok. unfold cid_of_op_id_existing. intros Hn%fmap_None [Hc [a Ha]] <-. revert Hn. unfold oid. rewrite Ha. simpl.
  assert (author_to_idx t !! a = Some (actor_idx c)) as ->; [|done]. by apply (ao_index t Hok).
Qed.

(** ** The invariant of a document *)

(** Identities inserted by a log of updates. *)
Definition ins (done : list ProjectionUpdateOp) (x : OpId) : Prop := ∃ a ch, UpdInsert x a ch ∈ done.
Definition ins_id (u : ProjectionUpdateOp) : option OpId :=
  match u with UpdInsert x _ _ => Some x | UpdDelete _ => None end.

Lemma ins_elem done x : ins done x ↔ x ∈ omap ins_id done.
Proof.
  unfold ins. rewrite list_elem_of_omap. split.
  - intros (a&ch&Hin). by exists (UpdInsert x a ch).
  - intros ([y a ch|y]&Hin&E); simplify_eq/=. eauto.
Qed.

Lemma ins_length done l : NoDup l → (∀ x, x ∈ l → ins done x) → (length l <= length done)%nat.
Proof.
  intros Hnd Hl. transitivity (length (omap ins_id done)).
  - apply submseteq_length, NoDup_submseteq; [done|]. intros x Hx. by apply ins_elem, Hl.
  - clear. induction done as [|u done IH]; [done|]. csimpl. destruct (ins_id u); simpl; lia.
Qed.

Lemma count_bytes_le l : count_bytes l <= 4 * Z.of_nat (length l).
Proof.
  induction l as [|i l IH]; simpl; [lia|]. pose proof (len_utf8_bounds (item_ch i)).
  destruct (item_tomb i); lia.
Qed.

Section doc.
(** The insertion tree and the characters, as the whole log gives them. *)
Context (par : OpId → option OpId) (chr : OpId → Z).
Hypothesis par_lt : ∀ x p, par x = Some p → ord_lt p x.
Implicit Types (done : list ProjectionUpdateOp) (stack : list CompactId) (miss : list OpId).
Implicit Types (buf : CompactId → list (CompactId * Z)).

Abbreviation ids p := (item_id <$> flat p).
Abbreviation keys p := (item_oid (actors p) <$> flat p).

(** [stack] holds the parents whose buffered children are being integrated,
    [buf] the buffered children, [miss] what is neither placed nor buffered. *)
Record doc_inv done stack buf miss p : Prop := {
  di_ok : proj_ok p;
  di_actors : actors_ok (actors p);
  di_dels : ∀ x, UpdDelete x ∈ done → ∃ c, cid_valid (actors p) c ∧ oid (actors p) c = x;
  di_valid : ∀ it, it ∈ flat p → cid_valid (actors p) (item_id it);
  di_rga : rga_ok par (keys p);
  di_items : ∀ it, it ∈ flat p → item_ch it = chr (item_oid (actors p) it) ∧
    item_tomb it = bool_decide (UpdDelete (item_oid (actors p) it) ∈ done) ∧
    ins done (item_oid (actors p) it);
  di_buf : ∀ pc c ch, (c, ch) ∈ buf pc → cid_valid (actors p) pc ∧ cid_valid (actors p) c ∧
    par (oid (actors p) c) = Some (oid (actors p) pc) ∧ chr (oid (actors p) c) = ch ∧
    ins done (oid (actors p) c) ∧ (c ∉ ids p) ∧ (pc ∈ ids p → pc ∈ stack);
  di_buf_NoDup : ∀ pc, NoDup (buf pc).*1;
  di_orphans : ∀ c, c ∈ orphan_ids p ↔ ∃ pc ch, (c, ch) ∈ buf pc;
  di_ins : ∀ x, ins done x → x ∈ keys p ∨ (∃ c, c ∈ orphan_ids p ∧ oid (actors p) c = x) ∨ x ∈ miss;
  di_pending : ∀ c, c ∈ pending_deletes p ↔
    cid_valid (actors p) c ∧ UpdDelete (oid (actors p) c) ∈ done ∧ (c ∉ ids p);
}.

Lemma keys_elem p x : x ∈ keys p ↔ ∃ c, c ∈ ids p ∧ x = oid (actors p) c.
Proof.
  split.
  - intros (it&->&Hit)%list_elem_of_fmap. exists (item_id it). split; [by apply list_elem_of_fmap_2|done].
  - intros (c&(it&->&Hit)%list_elem_of_fmap&->). by apply (list_elem_of_fmap_2 (item_oid (actors p))).
Qed.
Lemma ids_valid done stack buf miss p c :
  doc_inv done stack buf miss p → c ∈ ids p → cid_valid (actors p) c.
Proof. intros Hd (it&->&Hit)%list_elem_of_fmap. by eapply di_valid. Qed.
Lemma oid_in_keys done stack buf miss p c :
  doc_inv done stack buf miss p → cid_valid (actors p) c → oid (actors p) c ∈ keys p ↔ c ∈ ids p.
Proof.
  intros Hd Hv. rewrite keys_elem. split; [|by eauto]. intros (d&Hdi&E).
  assert (c = d) as ->; [|done]. eapply oid_inj; [by eapply di_actors|done| |done]. by eapply ids_valid.
Qed.

(** Placing a character. *)
(** Room for one more character in the counters. *)
Lemma doc_room done stack buf p c :
  doc_inv done stack buf [oid (actors p) c] p → oid (actors p) c ∉ keys p → ins done (oid (actors p) c) →
  4 * Z.of_nat (length done) <= u32_max → count_bytes (flat p) + 4 <= u32_max.
Proof.
  intros Hd Hk Hins Hsize. pose proof (count_bytes_le (flat p)).
  assert (length (oid (actors p) c :: keys p) <= length done)%nat as Hlen.
  { apply ins_length.
    - constructor; [done|]. by eapply rga_NoDup, di_rga.
    - intros x [->|(it&->&Hit)%list_elem_of_fmap]%elem_of_cons; [done|]. by eapply di_items. }
  simpl in Hlen. rewrite length_fmap in Hlen. lia.
Qed.

Lemma doc_integrate done stack buf p c parent ch :
  doc_inv done stack buf [oid (actors p) c] p → cid_valid (actors p) c →
  (c ∉ ids p) → (c ∉ orphan_ids p) → ins done (oid (actors p) c) → chr (oid (actors p) c) = ch →
  (∀ q, parent = Some q → q ∈ ids p) → par (oid (actors p) c) = oid (actors p) <$> parent →
  4 * Z.of_nat (length done) <= u32_max →
  doc_inv done (c :: stack) buf [] (integrate p c parent ch) ∧
  orphans (integrate p c parent ch) = orphans p ∧ actors (integrate p c parent ch) = actors p ∧
  ∀ d, d ∈ ids (integrate p c parent ch) ↔ d = c ∨ d ∈ ids p.
Proof.
  intros Hd Hv Hc Hco Hins Hch Hpar Hp Hsize.
  assert (oid (actors p) c ∉ keys p) as Hk by (by rewrite oid_in_keys).
  assert (count_bytes (flat p) + 4 <= u32_max) as Hmax by (by eapply doc_room).
  destruct (integrate_ok p c parent ch (di_ok _ _ _ _ _ Hd) Hc Hpar Hmax)
    as (Hok'&(Ha&Hor&Hoi)&Hpd&l1&l2&Hfl&Hfl'&Hl1).
  set (p' := integrate p c parent ch) in *. set (it := mkItem c ch _) in *.
  assert (∀ i, i ∈ flat p' ↔ i = it ∨ i ∈ flat p) as Hel.
  { intros i. rewrite Hfl', Hfl. destruct (place_split (item_oid (actors p)) it l2) as (g&r&->&->&_).
    rewrite !elem_of_app, elem_of_cons. tauto. }
  assert (∀ d, d ∈ ids p' ↔ d = c ∨ d ∈ ids p) as Hids.
  { intros d. rewrite !list_elem_of_fmap. setoid_rewrite Hel. unfold it. naive_solver. }
  assert (keys p' = rga_insert (λ k, k) (par (oid (actors p) c)) (oid (actors p) c) (keys p)) as Hkeys.
  { rewrite Ha, Hfl', Hfl, !fmap_app, fmap_place, Hp. change (item_oid (actors p) it) with (oid (actors p) c).
    destruct parent as [q|]; simpl; [|by rewrite Hl1]. destruct Hl1 as (l&y&->&<-).
    rewrite fmap_app, <-!app_assoc. simpl. rewrite rga_after_app; [done|done|]. rewrite list_fmap_id.
    pose proof (rga_NoDup _ _ (di_rga _ _ _ _ _ Hd)) as Hnd. rewrite Hfl, fmap_app, fmap_app in Hnd.
    rewrite <-app_assoc in Hnd. apply NoDup_app in Hnd as (_&Hnd&_). intros Hin. apply (Hnd _ Hin).
    apply elem_of_app. left. by apply list_elem_of_singleton. }
  split; [|done]. split; rewrite ?Ha.
  - done.
  - by eapply di_actors.
  - by eapply di_dels.
  - intros i [->|Hi]%Hel; [done|]. by eapply di_valid.
  - rewrite <-Ha, Hkeys. apply rga_insert_ok; [done|by eapply di_rga|done|].
    intros q Hq. rewrite Hp in Hq. apply fmap_Some in Hq as (qc&->&->). apply keys_elem. eauto.
  - intros i [->|Hi]%Hel; [|by eapply di_items]. cbn. split; [done|]. split; [|done].
    apply bool_decide_ext. rewrite (di_pending _ _ _ _ _ Hd). naive_solver.
  - intros pc d ch' Hin. destruct (di_buf _ _ _ _ _ Hd _ _ _ Hin) as (H1&H2&H3&H4&H5&H6&H7).
    split; [done|]. split; [done|]. split; [done|]. split; [done|]. split; [done|]. rewrite !Hids. split.
    + intros [->|]; [|done]. apply Hco. apply (di_orphans _ _ _ _ _ Hd). eauto.
    + intros [->|Hpc]; [by left|]. right. by apply H7.
  - by eapply di_buf_NoDup.
  - rewrite Hoi. by eapply di_orphans.
  - intros x Hx. rewrite <-Ha at 1. rewrite keys_elem, Ha. setoid_rewrite Hids. rewrite Hoi.
    destruct (di_ins _ _ _ _ _ Hd x Hx) as [(d&?&->)%keys_elem|[?|Hm]]; [by eauto|by auto|].
    apply list_elem_of_singleton in Hm as ->. left. eauto.
  - intros d. rewrite Hpd, elem_of_difference, elem_of_singleton, (di_pending _ _ _ _ _ Hd), Hids. naive_solver.
Qed.

(** Fields the sequence does not depend on. *)
Lemma proj_ok_orphans p o oi : proj_ok p → proj_ok (with_orphans p o oi).
Proof. by intros []; split. Qed.
Lemma proj_ok_actors p t : proj_ok p → proj_ok (with_actors p t).
Proof. by intros []; split. Qed.
Lemma proj_ok_pending p pd : proj_ok p → proj_ok (with_pending p pd).
Proof. by intros []; split. Qed.
Lemma proj_ok_count p k : proj_ok p → proj_ok (with_count p k).
Proof. by intros []; split. Qed.

(** Only parents with buffered children matter on the stack. *)
Lemma doc_weaken done stack stack' buf buf' miss p :
  doc_inv done stack buf miss p → (∀ pc, buf' pc = buf pc) →
  (∀ pc, pc ∈ stack → buf pc ≠ [] → pc ∈ stack') → doc_inv done stack' buf' miss p.
Proof.
  intros Hd Hb Hs. destruct Hd; split; try done.
  - intros pc c ch. rewrite Hb. intros Hin. destruct (di_buf0 _ _ _ Hin) as (?&?&?&?&?&?&Hst).
    split; [done|]. split; [done|]. split; [done|]. split; [done|]. split; [done|]. split; [done|].
    intros Hpc. apply Hs; [by apply Hst|]. intros E. rewrite E in Hin. by apply not_elem_of_nil in Hin.
  - intros pc. by rewrite Hb.
  - intros c. rewrite di_orphans0. by setoid_rewrite Hb.
Qed.

(** The buffer loses a child; until it is placed it is missing. *)
Definition set_buf buf q rem : CompactId → list (CompactId * Z) := λ pc, if decide (pc = q) then rem else buf pc.

Lemma doc_unbuffer done stack buf p q c ch rem :
  doc_inv done stack buf [] p → buf q = (c, ch) :: rem →
  doc_inv done stack (set_buf buf q rem) [oid (actors p) c]
    (with_orphans p (orphans p) (orphan_ids p ∖ {[c]})).
Proof.
  intros Hd Hq.
  assert (∀ pc d ch', (d, ch') ∈ set_buf buf q rem pc ↔ (d, ch') ∈ buf pc ∧ d ≠ c) as Hel.
  { intros pc d ch'. unfold set_buf. destruct (decide (pc = q)) as [->|Hne].
    - pose proof (di_buf_NoDup _ _ _ _ _ Hd q) as Hnd. rewrite Hq in Hnd |- *. simpl in Hnd.
      apply NoDup_cons in Hnd as [Hnd _]. split.
      + intros Hin. split; [by right|]. intros ->. apply Hnd. by apply (list_elem_of_fmap_2 fst _ (c, ch')).
      + intros [[E|Hin]%elem_of_cons Hdc]; [by simplify_eq|done].
    - split; [|by intros []]. intros Hin. split; [done|]. intros ->.
      destruct (di_buf _ _ _ _ _ Hd _ _ _ Hin) as (Hv1&_&Hp1&_).
      destruct (di_buf _ _ _ _ _ Hd q c ch) as (Hv2&_&Hp2&_); [rewrite Hq; by left|].
      apply Hne. eapply oid_inj; [by eapply di_actors|done|done|congruence]. }
  destruct Hd; split; try done.
  - by apply proj_ok_orphans.
  - intros pc d ch' [Hin _]%Hel. by apply (di_buf0 pc).
  - intros pc. unfold set_buf. destruct (decide (pc = q)) as [->|]; [|done].
    specialize (di_buf_NoDup0 q). rewrite Hq in di_buf_NoDup0. by apply NoDup_cons in di_buf_NoDup0 as [_ ?].
  - intros d. simpl. rewrite elem_of_difference, elem_of_singleton, di_orphans0. setoid_rewrite Hel. naive_solver.
  - intros x Hx. simpl. destruct (di_ins0 x Hx) as [?|[(d&Hdo&<-)|Hm]]; [by left| |by apply not_elem_of_nil in Hm].
    right. destruct (decide (d = c)) as [->|Hne]; [right; by apply list_elem_of_singleton|]. left.
    exists d. set_solver.
Qed.

Lemma doc_child done stack buf p q c ch rem :
  doc_inv done stack buf [] p → buf q = (c, ch) :: rem → q ∈ ids p → 4 * Z.of_nat (length done) <= u32_max →
  let p' := integrate (with_orphans p (orphans p) (orphan_ids p ∖ {[c]})) c (Some q) ch in
  doc_inv done (c :: stack) (set_buf buf q rem) [] p' ∧ orphans p' = orphans p ∧ actors p' = actors p ∧
  ∀ d, d ∈ ids p' ↔ d = c ∨ d ∈ ids p.
Proof.
  intros Hd Hq Hqi Hsize p'. pose proof (doc_unbuffer _ _ _ _ _ _ _ _ Hd Hq) as Hd1.
  destruct (di_buf _ _ _ _ _ Hd q c ch) as (Hv1&Hv2&Hpar&Hchr&Hins&Hni&_); [rewrite Hq; by left|].
  apply (doc_integrate done stack _ (with_orphans p (orphans p) (orphan_ids p ∖ {[c]})) c (Some q) ch Hd1);
    try done.
  - simpl. rewrite elem_of_difference, elem_of_singleton. by intros [_ []].
  - by intros ? [= <-].
Qed.

Definition place_child (q : CompactId) : TextProjection → CompactId * Z → TextProjection :=
  λ p '(child, ch), integrate (with_orphans p (orphans p) (orphan_ids p ∖ {[child]})) child (Some q) ch.

Lemma doc_children done stack buf p q children :
  doc_inv done stack buf [] p → buf q = children → q ∈ ids p → 4 * Z.of_nat (length done) <= u32_max →
  let p' := foldl (place_child q) p children in
  doc_inv done (reverse children.*1 ++ stack) (set_buf buf q []) [] p' ∧ orphans p' = orphans p ∧
  actors p' = actors p ∧ ∀ d, d ∈ ids p' ↔ d ∈ children.*1 ∨ d ∈ ids p.
Proof.
  intros Hd Hq Hqi Hsize. revert stack buf p Hd Hq Hqi.
  induction children as [|[c ch] rem IH]; intros stack buf p Hd Hq Hqi;
    rewrite ?fmap_cons; cbn [foldl fst].
  - split; [|split; [done|split; [done|set_solver]]]. eapply doc_weaken; [done| |done].
    intros pc. unfold set_buf. by case_decide; subst.
  - destruct (doc_child _ _ _ _ _ _ _ _ Hd Hq Hqi Hsize) as (Hd1&Ho1&Ha1&Hi1).
    change (integrate _ c (Some q) ch) with (place_child q p (c, ch)) in Hd1, Ho1, Ha1, Hi1.
    destruct (IH (c :: stack) (set_buf buf q rem) (place_child q p (c, ch))) as (Hd2&Ho2&Ha2&Hi2);
      [done|unfold set_buf; by rewrite decide_True|apply Hi1; by right|].
    split; [|split; [congruence|split; [congruence|]]].
    + rewrite reverse_cons, <-app_assoc. eapply doc_weaken; [exact Hd2| |done].
      intros pc. unfold set_buf. by case_decide.
    + intros d. rewrite Hi2, Hi1, elem_of_cons. tauto.
Qed.

(** ** Draining *)

Definition bufof (m : gmap CompactId (list (CompactId * Z))) : CompactId → list (CompactId * Z) :=
  λ pc, default [] (m !! pc).

Lemma orphan_count_delete p q children :
  orphans p !! q = Some children →
  orphan_count p = (length children + orphan_count (with_orphans p (delete q (orphans p)) (orphan_ids p)))%nat.
Proof.
  intros Hq. unfold orphan_count. simpl.
  assert (map_to_list (orphans p) ≡ₚ (q, children) :: map_to_list (delete q (orphans p))) as Hp.
  { rewrite <-(insert_delete_id (orphans p) q children) at 1 by done. apply map_to_list_insert, lookup_delete_eq. }
  assert (∀ l k : list (CompactId * list (CompactId * Z)), l ≡ₚ k →
    foldr (λ kv n, (length kv.2 + n)%nat) 0%nat l = foldr (λ kv n, (length kv.2 + n)%nat) 0%nat k) as Hperm
    by (induction 1; simpl; lia).
  by rewrite (Hperm _ _ Hp).
Qed.

Lemma orphan_count_eq p p' : orphans p = orphans p' → orphan_count p = orphan_count p'.
Proof. unfold orphan_count. by intros ->. Qed.

Lemma doc_drain_loop done fuel stack p :
  doc_inv done stack (bufof (orphans p)) [] p → (length stack + orphan_count p <= fuel)%nat →
  (∀ s, s ∈ stack → s ∈ ids p) → 4 * Z.of_nat (length done) <= u32_max →
  let p' := drain_loop fuel p stack in
  doc_inv done [] (bufof (orphans p')) [] p' ∧ actors p' = actors p.
Proof.
  revert stack p. induction fuel as [|fuel IH]; intros stack p Hd Hf Hs Hsize; destruct stack as [|q stack];
    [done|simpl in Hf; lia|done|]. cbn [drain_loop].
  destruct (orphans p !! q) as [children|] eqn:Eq.
  - set (p1 := with_orphans p (delete q (orphans p)) (orphan_ids p)).
    assert (doc_inv done (q :: stack) (bufof (orphans p)) [] p1) as Hd1
      by (destruct Hd; split; try done; by apply proj_ok_orphans).
    destruct (doc_children done (q :: stack) _ p1 q children Hd1) as (Hd2&Ho2&Ha2&Hi2);
      [unfold bufof; by rewrite Eq|apply (Hs q); by left|done|].
    change (foldl _ p1 children) with (foldl (place_child q) p1 children).
    set (p2 := foldl (place_child q) p1 children) in *. destruct (IH (reverse children.*1 ++ stack) p2) as [Hd3 Ha3].
    + rewrite Ho2. eapply doc_weaken; [exact Hd2| |].
      * intros pc. unfold set_buf, bufof. simpl. destruct (decide (pc = q)) as [->|Hne].
        -- by rewrite lookup_delete_eq.
        -- by rewrite lookup_delete_ne.
      * intros pc [Hpc|[->|Hpc]%elem_of_cons]%elem_of_app Hne; [set_solver| |set_solver].
        destruct Hne. unfold set_buf. by rewrite decide_True.
    + rewrite length_app, length_reverse, length_fmap, (orphan_count_eq p2 p1) by done.
      rewrite (orphan_count_delete p q children Eq) in Hf. fold p1 in Hf. simpl in Hf. lia.
    + intros s [Hc|Hst]%elem_of_app; apply (proj2 (Hi2 s)); [left; by apply elem_of_reverse|right].
      apply (Hs s). by right.
    + done.
    + split; [done|]. by rewrite Ha3, Ha2.
  - apply IH; [|simpl in Hf; lia|intros s Hst; apply Hs; by right|done].
    eapply doc_weaken; [done|done|]. intros pc [->|Hpc]%elem_of_cons Hne; [|done].
    destruct Hne. unfold bufof. by rewrite Eq.
Qed.

Lemma doc_drain done p c :
  doc_inv done [c] (bufof (orphans p)) [] p → c ∈ ids p → 4 * Z.of_nat (length done) <= u32_max →
  let p' := drain_orphans_of p c in
  doc_inv done [] (bufof (orphans p')) [] p' ∧ actors p' = actors p.
Proof.
  intros Hd Hc Hsize. unfold drain_orphans_of. destruct (decide (orphans p = ∅)) as [E|E]; cbv zeta.
  - split; [|done]. eapply doc_weaken; [done|done|]. intros pc _ []. unfold bufof. by rewrite E, lookup_empty.
  - apply doc_drain_loop; [done|simpl; lia| |done]. intros s ->%list_elem_of_singleton. done.
Qed.

(** ** One update *)

Definition dinv done p : Prop := doc_inv done [] (bufof (orphans p)) [] p.

Lemma doc_actors done stack buf miss p t :
  doc_inv done stack buf miss p → actors_ok t → actors_le (actors p) t →
  doc_inv done stack buf miss (with_actors p t).
Proof.
  intros Hd Hok Hle.
  assert (∀ c, cid_valid (actors p) c → cid_valid t c ∧ oid t c = oid (actors p) c) as Hv
    by (intros; by apply actors_le_valid).
  assert (∀ it, it ∈ flat p → item_oid t it = item_oid (actors p) it) as Hit
    by (intros it Hin; apply Hv; by eapply di_valid).
  assert (item_oid t <$> flat p = keys p) as Hk.
  { apply list_fmap_ext. intros i it Hi. apply Hit. by eapply list_elem_of_lookup_2. }
  destruct Hd as [H1 H2 H3 H4 H5 H6 H7 H8 H9 H10 H11]. split; simpl; change (flat (with_actors p t)) with (flat p).
  - by apply proj_ok_actors.
  - done.
  - intros x (c&Hc&<-)%H3. exists c. by apply Hv.
  - intros it Hin. by apply Hv, H4.
  - by rewrite Hk.
  - intros it Hin. rewrite Hit by done. by apply H6.
  - intros pc c ch Hin. destruct (H7 _ _ _ Hin) as (Hp&Hc&?). destruct (Hv pc Hp) as [? ->], (Hv c Hc) as [? ->]. done.
  - done.
  - done.
  - intros x Hx. rewrite Hk. destruct (H10 x Hx) as [?|[(c&Hc&E)|?]]; [by left| |by auto]. right. left.
    exists c. split; [done|]. apply H9 in Hc as (pc&ch&Hin). destruct (H7 _ _ _ Hin) as (_&Hvc&_).
    destruct (Hv c Hvc) as [_ ->]. done.
  - intros c. rewrite H11. split.
    + intros (Hc&Hdel&?). destruct (Hv c Hc) as [? ->]. done.
    + intros (Hc&Hdel&Hni). destruct (H3 _ Hdel) as (d&Hvd&Ed). destruct (Hv d Hvd) as [Hvd' Ed'].
      assert (d = c) as -> by (eapply oid_inj; [exact Hok|done|done|congruence]). rewrite Ed' in Hdel. done.
Qed.

(** The log grows by an insert the document does not show yet. *)
Lemma doc_push_insert done stack buf p x a ch :
  doc_inv done stack buf [] p → doc_inv (done ++ [UpdInsert x a ch]) stack buf [x] p.
Proof.
  assert (∀ y, UpdDelete y ∈ done ++ [UpdInsert x a ch] ↔ UpdDelete y ∈ done) as Hdel.
  { intros y. rewrite elem_of_app, list_elem_of_singleton. naive_solver. }
  assert (∀ y, ins (done ++ [UpdInsert x a ch]) y ↔ ins done y ∨ y = x) as Hins.
  { intros y. unfold ins. setoid_rewrite elem_of_app. setoid_rewrite list_elem_of_singleton. naive_solver. }
  intros [H1 H2 H3 H4 H5 H6 H7 H8 H9 H10 H11]. split; try done.
  - intros y Hy%Hdel. by apply H3.
  - intros it Hin. destruct (H6 it Hin) as (?&->&?). split; [done|]. rewrite Hins. split; [|by left].
    apply bool_decide_ext. by rewrite Hdel.
  - intros pc c ch' Hin. destruct (H7 _ _ _ Hin) as (?&?&?&?&?&?&?). rewrite Hins.
    split_and!; auto.
  - intros y [Hy| ->]%Hins; [|right; right; by apply list_elem_of_singleton].
    destruct (H10 y Hy) as [?|[?|Hm]]; [by auto..|by apply not_elem_of_nil in Hm].
  - intros c. by rewrite H11, Hdel.
Qed.

(** A repeated insert is found. *)
Lemma doc_found done buf p x : doc_inv done [] buf [x] p →
  x ∈ keys p ∨ (∃ c, c ∈ orphan_ids p ∧ oid (actors p) c = x) → doc_inv done [] buf [] p.
Proof.
  intros [H1 H2 H3 H4 H5 H6 H7 H8 H9 H10 H11] Hx. split; try done.
  intros y Hy. destruct (H10 y Hy) as [?|[?| ->%list_elem_of_singleton]]; [by auto..|]. destruct Hx; auto.
Qed.

(** Buffering an insert whose parent is unknown. *)
Lemma doc_buffer done p c pc ch :
  doc_inv done [] (bufof (orphans p)) [oid (actors p) c] p →
  cid_valid (actors p) c → cid_valid (actors p) pc → (c ∉ ids p) → (c ∉ orphan_ids p) → (pc ∉ ids p) →
  ins done (oid (actors p) c) → chr (oid (actors p) c) = ch →
  par (oid (actors p) c) = Some (oid (actors p) pc) →
  dinv done (with_orphans p (<[pc := default [] (orphans p !! pc) ++ [(c, ch)]]> (orphans p)) ({[c]} ∪ orphan_ids p)).
Proof.
  intros Hd Hvc Hvp Hc Hco Hpc Hins Hchr Hpar. set (o := <[pc := _]> (orphans p)).
  assert (∀ q d ch', (d, ch') ∈ bufof o q ↔ (d, ch') ∈ bufof (orphans p) q ∨ (q = pc ∧ d = c ∧ ch' = ch)) as Hel.
  { intros q d ch'. unfold bufof, o. destruct (decide (q = pc)) as [->|Hne].
    - rewrite lookup_insert_eq. cbn [default from_option id]. rewrite elem_of_app, list_elem_of_singleton. naive_solver.
    - rewrite lookup_insert_ne by done. naive_solver. }
  destruct Hd as [H1 H2 H3 H4 H5 H6 H7 H8 H9 H10 H11]. unfold dinv. split; try done; cbn [with_orphans orphans orphan_ids].
  - by apply proj_ok_orphans.
  - intros q d ch' [Hin|(->&->&->)]%Hel; [by apply (H7 q)|]. split_and!; auto. by intros ?%Hpc.
  - intros q. unfold bufof, o. destruct (decide (q = pc)) as [->|Hne].
    + rewrite lookup_insert_eq. cbn [default from_option id]. rewrite fmap_app. apply NoDup_app.
      split; [apply (H8 pc)|]. split; [|apply NoDup_singleton]. intros d ([d' ch']&->&Hin)%list_elem_of_fmap Hd%list_elem_of_singleton.
      simpl in Hd. subst d'. apply Hco, H9. by exists pc, ch'.
    + rewrite lookup_insert_ne by done. apply H8.
  - intros d. rewrite elem_of_union, elem_of_singleton, H9. setoid_rewrite Hel. naive_solver.
  - intros x Hx. destruct (H10 x Hx) as [?|[(d&?&?)|Hm%list_elem_of_singleton]]; [by left| |]; right; left.
    + exists d. split; [apply elem_of_union; by right|done].
    + exists c. split; [apply elem_of_union; left; by apply elem_of_singleton|done].
Qed.

Lemma doc_count done stack buf miss p k : doc_inv done stack buf miss p → doc_inv done stack buf miss (with_count p k).
Proof. intros []; split; try done. by apply proj_ok_count. Qed.

Lemma doc_apply_insert done p x a ch :
  dinv done p → par x = a → chr x = ch → Z.of_nat (length (authors (actors p))) + 2 < 2 ^ 32 →
  4 * Z.of_nat (S (length done)) <= u32_max →
  let p' := proj_apply_insert p x a ch in
  dinv (done ++ [UpdInsert x a ch]) p' ∧ (length (authors (actors p')) <= length (authors (actors p)) + 2)%nat.
Proof.
  intros Hd Hpar Hchr Hau Hsize p'. unfold p', proj_apply_insert. set (done' := done ++ [UpdInsert x a ch]).
  assert (4 * Z.of_nat (length done') <= u32_max) as Hsize' by (unfold done'; rewrite length_app; simpl; lia).
  assert (ins done' x) as Hins by (exists a, ch; unfold done'; set_solver).
  destruct (cid_of_op_id_ok (actors p) x) as (t&c&->&Hok&Hle&Hlen&Hv&Hx); [by eapply di_actors|lia|].
  assert (doc_inv done' [] (bufof (orphans p)) [x] (with_actors p t)) as Hd1
    by (apply doc_actors; [by apply doc_push_insert|done|done]).
  set (p1 := with_actors p t) in *. pose proof (di_ok _ _ _ _ _ Hd1) as Hok1.
  destruct (bool_decide (is_Some (id_to_chunk p1 !! c))) eqn:Ek.
  { simpl. split; [|lia]. apply bool_decide_eq_true, (id_known p1 c Hok1) in Ek. eapply doc_found; [exact Hd1|].
    left. apply keys_elem. by exists c. }
  destruct (bool_decide (c ∈ orphan_ids p1)) eqn:Eo.
  { simpl. split; [|lia]. apply bool_decide_eq_true in Eo. eapply doc_found; [exact Hd1|]. right. by exists c. }
  cbn [orb]. apply bool_decide_eq_false in Ek, Eo. rewrite (id_known p1 c Hok1) in Ek.
  apply (doc_count _ _ _ _ _ (counters (count_insert p1))) in Hd1.
  change (with_count p1 _) with (count_insert p1) in Hd1. destruct a as [a|].
  - destruct (cid_of_op_id_ok (actors (count_insert p1)) a) as (t2&pc&->&Hok2&Hle2&Hlen2&Hv2&Ha); [done|simpl; lia|].
    assert (doc_inv done' [] (bufof (orphans p)) [x] (with_actors (count_insert p1) t2)) as Hd2
      by (by apply doc_actors). set (p2 := with_actors (count_insert p1) t2) in *.
    destruct (actors_le_valid t t2 c Hle2 Hv) as [Hvc Hxc]. rewrite Hx in Hxc.
    assert (actors p2 = t2) as Ht2 by done. pose proof (di_ok _ _ _ _ _ Hd2) as Hok2'.
    assert (length (authors t2) <= length (authors (actors p)) + 2)%nat as Hl2 by (simpl in Hlen2; lia).
    destruct (decide (is_Some (id_to_chunk p2 !! pc))) as [Hpc|Hpc]; rewrite (id_known p2 pc Hok2') in Hpc.
    + destruct (doc_integrate done' [] (bufof (orphans p)) p2 c (Some pc) ch) as (Hd3&Ho3&Ha3&Hi3);
        rewrite ?Ht2, ?Hxc; try done.
      * by intros ? [= <-].
      * simpl. by rewrite Ha.
      * destruct (doc_drain done' (integrate p2 c (Some pc) ch) c) as [Hd4 Ha4];
          [by rewrite Ho3|apply Hi3; by left|done|]. split; [exact Hd4|]. by rewrite Ha4, Ha3.
    + split; [|done]. apply doc_buffer; rewrite ?Ht2, ?Hxc, ?Ha; done.
  - destruct (doc_integrate done' [] (bufof (orphans p)) (count_insert p1) c None ch) as (Hd3&Ho3&Ha3&Hi3);
      change (actors (count_insert p1)) with t in *; rewrite ?Hx; try done.
    destruct (doc_drain done' (integrate (count_insert p1) c None ch) c) as [Hd4 Ha4];
      [by rewrite Ho3|apply Hi3; by left|done|]. split; [exact Hd4|]. rewrite Ha4, Ha3. simpl. lia.
Qed.

Lemma del_snoc done x y : UpdDelete y ∈ done ++ [UpdDelete x] ↔ UpdDelete y ∈ done ∨ y = x.
Proof. rewrite elem_of_app, list_elem_of_singleton. naive_solver. Qed.
Lemma ins_snoc_delete done x y : ins (done ++ [UpdDelete x]) y ↔ ins done y.
Proof. unfold ins. setoid_rewrite elem_of_app. setoid_rewrite list_elem_of_singleton. naive_solver. Qed.

(** A delete of something not placed yet waits for it. *)
Lemma doc_delete_pending done buf p c :
  doc_inv done [] buf [] p → cid_valid (actors p) c → (c ∉ ids p) →
  doc_inv (done ++ [UpdDelete (oid (actors p) c)]) [] buf [] (with_pending p ({[c]} ∪ pending_deletes p)).
Proof.
  intros Hd Hv Hc. pose proof (oid_in_keys _ _ _ _ _ c Hd Hv) as Hkc.
  destruct Hd as [H1 H2 H3 H4 H5 H6 H7 H8 H9 H10 H11]. split; try done.
  - by apply proj_ok_pending.
  - intros y [Hy| ->]%del_snoc; [by apply H3|by exists c].
  - intros it Hin. destruct (H6 it Hin) as (?&->&?). rewrite ins_snoc_delete. split; [done|]. split; [|done].
    apply bool_decide_ext. rewrite del_snoc. split; [by left|]. intros [|E]; [done|]. destruct Hc. apply Hkc.
    change (actors (with_pending p ({[c]} ∪ pending_deletes p))) with (actors p) in E. rewrite <-E.
    by apply list_elem_of_fmap_2.
  - intros pc d ch Hin. destruct (H7 _ _ _ Hin) as (?&?&?&?&?&?&?). rewrite ins_snoc_delete. by split_and!.
  - intros y. rewrite ins_snoc_delete. apply H10.
  - intros d. simpl. rewrite elem_of_union, elem_of_singleton, H11, del_snoc. split; [naive_solver|].
    intros (Hvd&[Hdel|E]&Hni); [by right|left]. by eapply oid_inj.
Qed.

(** A delete of a placed character buries it. *)
Lemma doc_delete_known done buf p c :
  doc_inv done [] buf [] p → c ∈ ids p → 4 * Z.of_nat (length done) <= u32_max →
  doc_inv (done ++ [UpdDelete (oid (actors p) c)]) [] buf [] (delete_known p c) ∧
  actors (delete_known p c) = actors p ∧ orphans (delete_known p c) = orphans p.
Proof.
  intros Hd Hc Hsize. pose proof (ids_valid _ _ _ _ _ c Hd Hc) as Hv.
  assert (count_bytes (flat p) <= u32_max) as Hmax.
  { pose proof (count_bytes_le (flat p)). assert (length (keys p) <= length done)%nat as Hlen.
    { apply ins_length; [by eapply rga_NoDup, di_rga|].
      intros y (it&->&Hit)%list_elem_of_fmap. by eapply di_items. }
    rewrite length_fmap in Hlen. lia. }
  destruct (delete_known_ok p c (di_ok _ _ _ _ _ Hd) Hmax Hc) as (Hok'&(Ha&Ho&Hoi)&Hpd&Hfl).
  set (p' := delete_known p c) in *. split; [|done].
  assert (ids p' = ids p) as Hids by (by rewrite Hfl, bury_ids).
  assert (∀ it, it ∈ flat p' ↔ ∃ i, it = bury_id c i ∧ i ∈ flat p) as Hel
    by (intros; by rewrite Hfl, list_elem_of_fmap).
  assert (∀ i, item_oid (actors p) (bury_id c i) = item_oid (actors p) i) as Hoid
    by (intros; unfold item_oid; by rewrite bury_id_id).
  assert (keys p' = keys p) as Hkeys.
  { rewrite Ha, Hfl, <-list_fmap_compose. apply list_fmap_ext. intros. apply Hoid. }
  destruct Hd as [H1 H2 H3 H4 H5 H6 H7 H8 H9 H10 H11]. split; rewrite ?Hids, ?Ha in *; try done.
  - intros y [Hy| ->]%del_snoc; [by apply H3|by exists c].
  - intros it (i&->&Hi)%Hel. rewrite bury_id_id. by apply H4.
  - by rewrite Hkeys.
  - intros it (i&->&Hi)%Hel. rewrite Hoid. destruct (H6 i Hi) as (Hch&Ht&Hin). rewrite ins_snoc_delete.
    unfold bury_id. destruct (decide (item_id i = c)) as [Hic|Hic]; simpl.
    + split; [done|]. split; [|done]. symmetry. apply bool_decide_eq_true, del_snoc. right. unfold item_oid. by rewrite Hic.
    + split; [done|]. split; [|done]. rewrite Ht. apply bool_decide_ext. rewrite del_snoc. split; [by left|].
      intros [|E]; [done|]. destruct Hic. eapply oid_inj; [done|by apply H4|done|done].
  - intros pc d ch Hin. destruct (H7 _ _ _ Hin) as (?&?&?&?&?&?&?). rewrite ins_snoc_delete. by split_and!.
  - intros d. by rewrite Hoi, H9.
  - intros y. rewrite ins_snoc_delete, Hkeys, Hoi. apply H10.
  - intros d. rewrite Hpd, H11, del_snoc. split; [naive_solver|]. intros (Hvd&[Hdel|E]&Hni); [done|].
    destruct Hni. assert (d = c) as -> by (by eapply oid_inj). done.
Qed.

Lemma doc_apply_delete done p x :
  dinv done p → Z.of_nat (length (authors (actors p))) + 2 < 2 ^ 32 →
  4 * Z.of_nat (S (length done)) <= u32_max →
  let p' := proj_apply_delete p x in
  dinv (done ++ [UpdDelete x]) p' ∧ (length (authors (actors p')) <= length (authors (actors p)) + 2)%nat.
Proof.
  intros Hd Hau Hsize p'. unfold p', proj_apply_delete.
  destruct (cid_of_op_id_existing x (actors p)) as [c|] eqn:Ee.
  - destruct (cid_existing_ok _ _ _ (di_actors _ _ _ _ _ Hd) Ee) as [Hv <-].
    destruct (decide (is_Some (id_to_chunk p !! c))) as [Hk|Hk];
      rewrite (id_known p c (di_ok _ _ _ _ _ Hd)) in Hk.
    + destruct (doc_delete_known _ _ _ c Hd Hk) as (Hd'&Ha&Ho); [lia|]. unfold dinv. rewrite Ho, Ha.
      split; [done|lia].
    + split; [by apply doc_delete_pending|simpl; lia].
  - destruct (cid_of_op_id_ok (actors p) x) as (t&c&->&Hok&Hle&Hlen&Hv&Hx); [by eapply di_actors|lia|].
    assert (doc_inv done [] (bufof (orphans p)) [] (with_actors p t)) as Hd1 by (by apply doc_actors).
    split; [|simpl; lia]. rewrite <-Hx.
    apply (doc_delete_pending done (bufof (orphans p)) (with_actors p t) c Hd1 Hv). intros Hc.
    pose proof (ids_valid _ _ _ _ _ c Hd Hc) as Hvc. destruct (actors_le_valid _ _ _ Hle Hvc) as [_ E].
    apply (cid_existing_None _ _ _ (di_actors _ _ _ _ _ Hd) Ee Hvc). by rewrite <-E.
Qed.

(** ** A log of updates *)

Definition update_ok (u : ProjectionUpdateOp) : Prop :=
  match u with UpdInsert x a ch => par x = a ∧ chr x = ch | UpdDelete _ => True end.

Lemma doc_empty : dinv [] proj_default.
Proof.
  split; simpl.
  - apply proj_ok_default.
  - apply actors_ok_default.
  - intros x Hx. by apply not_elem_of_nil in Hx.
  - intros it Hit. by apply not_elem_of_nil in Hit.
  - split; [constructor|]. intros x Hx. by apply not_elem_of_nil in Hx.
  - intros it Hit. by apply not_elem_of_nil in Hit.
  - intros pc c ch Hin. by apply not_elem_of_nil in Hin.
  - constructor.
  - intros c. split; [by intros ?%not_elem_of_empty|]. by intros (?&?&?%not_elem_of_nil).
  - intros x (a&ch&?%not_elem_of_nil). done.
  - intros c. split; [by intros ?%not_elem_of_empty|]. by intros (_&?%not_elem_of_nil&_).
Qed.

Lemma doc_updates us :
  Forall update_ok us → 4 * Z.of_nat (length us) <= u32_max →
  dinv us (proj_apply_updates proj_default us) ∧
  (length (authors (actors (proj_apply_updates proj_default us))) <= 2 * length us)%nat.
Proof.
  induction us as [|u us IH] using rev_ind; intros Hok Hsize; [split; [apply doc_empty|done]|].
  apply Forall_app in Hok as [Hok Hu]. rewrite Forall_singleton in Hu. rewrite length_app in *. simpl in Hsize.
  destruct (IH Hok) as [Hd Hl]; [lia|]. unfold proj_apply_updates in *. rewrite foldl_app.
  set (p := foldl proj_apply_update proj_default us) in *. cbn [foldl length].
  assert (Z.of_nat (length (authors (actors p))) + 2 < 2 ^ 32) as Hau by (unfold u32_max in Hsize; lia).
  destruct u as [x a ch|x]; cbn [proj_apply_update].
  - destruct Hu as [Hp Hc]. destruct (doc_apply_insert us p x a ch Hd Hp Hc Hau) as [Hd' Hl']; [lia|].
    split; [done|]. lia.
  - destruct (doc_apply_delete us p x Hd Hau) as [Hd' Hl']; [lia|]. split; [done|]. lia.
Qed.

(** All ancestors have arrived. *)
Definition rooted done (x : OpId) : Prop := ∃ π, Path par x π ∧ ∀ y, y ∈ π → ins done y.

Lemma doc_rooted done p x : dinv done p → x ∈ keys p ↔ rooted done x.
Proof.
  intros Hd. split.
  - intros Hx. destruct (rga_rooted _ _ (di_rga _ _ _ _ _ Hd) x Hx) as (π&Hp&Hin). exists π. split; [done|].
    intros y (it&->&Hit)%Hin%list_elem_of_fmap. by eapply di_items.
  - intros (π&Hp&Hin). induction Hp as [x Hx|x q π Hx Hp IH].
    + destruct (di_ins _ _ _ _ _ Hd x) as [|[(c&Hc&<-)|Hm]]; [apply Hin; by left|done| |by apply not_elem_of_nil in Hm].
      apply (di_orphans _ _ _ _ _ Hd) in Hc as (pc&ch&Hb). destruct (di_buf _ _ _ _ _ Hd _ _ _ Hb) as (_&_&E&_). congruence.
    + assert (q ∈ keys p) as Hq by (apply IH; intros y Hy; apply Hin; apply elem_of_app; by left).
      destruct (di_ins _ _ _ _ _ Hd x) as [|[(c&Hc&<-)|Hm]];
        [apply Hin, elem_of_app; right; by left|done| |by apply not_elem_of_nil in Hm].
      apply (di_orphans _ _ _ _ _ Hd) in Hc as (pc&ch&Hb).
      destruct (di_buf _ _ _ _ _ Hd _ _ _ Hb) as (Hvp&_&E&_&_&_&Hst). rewrite Hx in E. simplify_eq.
      apply (oid_in_keys _ _ _ _ _ _ Hd Hvp), Hst in Hq. by apply not_elem_of_nil in Hq.
Qed.

Lemma doc_pairs done p :
  dinv done p →
  build_visible_seq_pairs p =
  omap (λ x, if bool_decide (UpdDelete x ∈ done) then None else Some (x, chr x)) (keys p).
Proof.
  intros Hd. pose proof (di_items _ _ _ _ _ Hd) as Hit. pose proof (di_valid _ _ _ _ _ Hd) as Hv.
  unfold build_visible_seq_pairs. revert Hit Hv. generalize (flat p). intros l.
  induction l as [|it l IH]; intros Hit Hv; [done|]. csimpl.
  destruct (Hit it) as (Hch&Ht&_); [by left|]. rewrite Ht.
  rewrite IH by (intros i Hi; (apply Hit || apply Hv); by right).
  destruct (bool_decide _); [done|]. rewrite cid_to_op_id_valid by (apply Hv; by left). simpl. by rewrite Hch.
Qed.
End doc.

(** The visible characters are the visible pairs. *)
Lemma utf8_pairs p :
  (∀ it, it ∈ flat p → cid_valid (actors p) (item_id it)) →
  utf8 (flat p) = build_visible_seq_pairs p ≫= λ xc, encode_utf8 xc.2.
Proof.
  unfold build_visible_seq_pairs, utf8. generalize (flat p). intros l.
  induction l as [|it l IH]; intros Hv; [done|]. csimpl.
  rewrite IH by (intros i Hi; apply Hv; by right). destruct (item_tomb it); [done|].
  by rewrite cid_to_op_id_valid by (apply Hv; by left).
Qed.

(** ** The tree of a log *)

Definition ins_of (us : list ProjectionUpdateOp) (x : OpId) : option (option OpId * Z) :=
  head (omap (λ u, match u with
                   | UpdInsert y a ch => if decide (y = x) then Some (a, ch) else None
                   | UpdDelete _ => None
                   end) us).
Definition par_of us (x : OpId) : option OpId := from_option fst None (ins_of us x).
Definition chr_of us (x : OpId) : Z := from_option snd 0 (ins_of us x).

(** One character per identity, inserted after one of smaller identity. *)
Definition log_ok (us : list ProjectionUpdateOp) : Prop :=
  (∀ x a ch a' ch', UpdInsert x a ch ∈ us → UpdInsert x a' ch' ∈ us → a = a' ∧ ch = ch') ∧
  (∀ x q ch, UpdInsert x (Some q) ch ∈ us → ord_lt q x).

Lemma ins_of_Some us x a ch : ins_of us x = Some (a, ch) → UpdInsert x a ch ∈ us.
Proof.
  unfold ins_of. intros Hh%head_Some_elem_of%list_elem_of_omap.
  destruct Hh as ([y b ch'|y]&Hin&E); [|done]. case_decide; by simplify_eq.
Qed.
Lemma ins_of_elem us x a ch : log_ok us → UpdInsert x a ch ∈ us → ins_of us x = Some (a, ch).
Proof.
  intros [Hf _] Hin. destruct (ins_of us x) as [[b ch']|] eqn:E.
  - apply ins_of_Some in E. destruct (Hf _ _ _ _ _ Hin E) as [-> ->]. done.
  - unfold ins_of in E. apply head_None in E.
    assert ((a, ch) ∈ omap (λ u, match u with
                   | UpdInsert y a ch => if decide (y = x) then Some (a, ch) else None
                   | UpdDelete _ => None end) us) as Hel.
    { apply list_elem_of_omap. exists (UpdInsert x a ch). split; [done|]. by rewrite decide_True. }
    rewrite E in Hel. by apply not_elem_of_nil in Hel.
Qed.
Lemma par_of_lt us x q : log_ok us → par_of us x = Some q → ord_lt q x.
Proof.
  intros [_ Hc]. unfold par_of. destruct (ins_of us x) as [[a ch]|] eqn:E; [|done]. simpl. intros ->.
  apply ins_of_Some in E. by eapply Hc.
Qed.
Lemma log_update_ok us vs :
  log_ok us → (∀ u, u ∈ vs → u ∈ us) → Forall (update_ok (par_of us) (chr_of us)) vs.
Proof.
  intros Hok Hin. apply Forall_forall. intros [x a ch|x] Hu; [|done]. simpl. unfold par_of, chr_of.
  by rewrite (ins_of_elem us x a ch Hok (Hin _ Hu)).
Qed.
