(* ===== verification/TextThms.v ===== *)
(** What readers and writers of a text rely on: convergence under any order of
    arrival, the document of a log, and the offset arithmetic of the chunked
    projection. *)

From S2P Require Import Prelude Op Node Fenwick TextState Text Rga TextChunks TextDoc.

(** The projection a log of updates builds. *)
Definition projection us : TextProjection := proj_apply_updates proj_default us.

(** ** Offsets *)

(** What the offset arithmetic needs; every log of updates gives it. *)
Record readable p : Prop := {
  rd_ok : proj_ok p;
  rd_actors : actors_ok (actors p);
  rd_valid : ∀ it, it ∈ flat p → cid_valid (actors p) (item_id it);
  rd_small : count_bytes (flat p) <= u32_max;
}.

Lemma dinv_readable par chr us p :
  dinv par chr us p → 4 * Z.of_nat (length us) <= u32_max → readable p.
Proof.
  intros Hd Hsize. split; [by eapply di_ok|by eapply di_actors|by eapply di_valid|].
  pose proof (count_bytes_le (flat p)).
  assert (length (item_oid (actors p) <$> flat p) <= length us)%nat as Hl.
  { apply ins_length; [by eapply rga_NoDup, di_rga|]. intros x (it&->&Hit)%list_elem_of_fmap. by eapply di_items. }
  rewrite length_fmap in Hl. lia.
Qed.

Lemma projection_dinv us vs :
  log_ok us → (∀ u, u ∈ vs → u ∈ us) → 4 * Z.of_nat (length vs) <= u32_max →
  dinv (par_of us) (chr_of us) vs (projection vs).
Proof.
  intros Hok Hin Hsize. apply doc_updates; [|by apply log_update_ok|done]. intros x q. by apply par_of_lt.
Qed.

Lemma projection_readable us :
  log_ok us → 4 * Z.of_nat (length us) <= u32_max → readable (projection us).
Proof. intros Hok Hsize. eapply dinv_readable; [by eapply projection_dinv|done]. Qed.

(** The visible pairs of a run of items. *)
Definition run_pairs (t : ActorTable) (its : list Item) : list (OpId * Z) :=
  omap (λ i, if item_tomb i then None else (λ id, (id, item_ch i)) <$> cid_to_op_id (item_id i) t) its.

Lemma run_pairs_app t l k : run_pairs t (l ++ k) = run_pairs t l ++ run_pairs t k.
Proof. apply omap_app. Qed.

Section reads.
Context (p : TextProjection) (Hr : readable p).

Lemma run_pairs_length its :
  (∀ it, it ∈ its → it ∈ flat p) → Z.of_nat (length (run_pairs (actors p) its)) = count_chars its.
Proof.
  induction its as [|it its IH]; intros Hin; [done|]. unfold run_pairs. csimpl. fold (run_pairs (actors p) its).
  rewrite <-IH by (intros i Hi; apply Hin; by right). destruct (item_tomb it); [done|].
  rewrite cid_to_op_id_valid by (apply (rd_valid p Hr), Hin; by left). simpl. lia.
Qed.

Lemma pairs_length : Z.of_nat (length (build_visible_seq_pairs p)) = visible_total p.
Proof. rewrite (po_visible p (rd_ok p Hr)). by apply run_pairs_length. Qed.

Lemma front_in_flat l it : loc_ok (segs p) l → it ∈ front (segs p) l → it ∈ flat p.
Proof. intros Hl Hit. rewrite flat_segs, <-(front_rest _ _ Hl). apply elem_of_app. by left. Qed.

(** The pair a location shows. *)
Lemma pairs_at l it :
  at_item p l it → item_tomb it = false →
  build_visible_seq_pairs p !! Z.to_nat (count_chars (front (segs p) l)) =
    Some (oid (actors p) (item_id it), item_ch it).
Proof.
  intros Hat Ht. pose proof (at_item_ok _ _ _ Hat) as Hl. pose proof Hat as (its&Hi&Hit).
  destruct (step_loc _ _ _ _ Hi Hit) as (_&_&Hre).
  change (build_visible_seq_pairs p) with (run_pairs (actors p) (flat p)).
  rewrite flat_segs, <-(front_rest _ _ Hl), Hre, run_pairs_app.
  rewrite <-run_pairs_length by (intros; by eapply front_in_flat). rewrite Nat2Z.id, lookup_app_r, Nat.sub_diag by lia.
  unfold run_pairs. csimpl. rewrite Ht, cid_to_op_id_valid; [done|]. apply (rd_valid p Hr).
  rewrite flat_segs, <-(front_rest _ _ Hl), Hre. apply elem_of_app. right. by left.
Qed.

Lemma nth_visible_ok its k i :
  0 <= k < count_chars its →
  ∃ j it, nth_visible its k i = Some (i + j)%nat ∧ its !! j = Some it ∧ item_tomb it = false ∧
    count_chars (take j its) = k.
Proof.
  revert k i. induction its as [|it its IH]; intros k i Hk; simpl in Hk; [lia|]. simpl.
  destruct (item_tomb it) eqn:Ht; [|destruct (Z.eqb_spec k 0) as [->|Hne]].
  - destruct (IH k (S i)) as (j&it'&->&Hj&Ht'&Hc); [lia|]. exists (S j), it'.
    split; [f_equal; lia|]. simpl. rewrite Ht. split; [done|]. split; [done|lia].
  - exists 0%nat, it. by rewrite Nat.add_0_r.
  - destruct (IH (k - 1) (S i)) as (j&it'&->&Hj&Ht'&Hc); [lia|]. exists (S j), it'.
    split; [f_equal; lia|]. simpl. rewrite Ht. split; [done|]. split; [done|lia].
Qed.

Lemma loc_of_visible_ok k :
  0 <= k < visible_total p →
  ∃ l it, loc_of_visible_offset p k = Some l ∧ at_item p l it ∧ item_tomb it = false ∧
    count_chars (front (segs p) l) = k.
Proof.
  destruct Hr as [Hok _ _ _]. rewrite (po_visible p Hok), flat_segs, count_chars_concat. intros Hk.
  destruct (po_chars p Hok) as [Hw [Hix|Hix]].
  2:{ rewrite Hix in Hw. simpl in Hw. rewrite <-Hw in Hk. simpl in Hk. lia. }
  rewrite <-Hw in Hk. destruct (select_offset_ok _ _ Hix Hk) as (e&k'&Hsel&He&Ek&Hk'). rewrite Hw in He, Ek, Hk'.
  unfold fen_len in He. rewrite length_fmap in He.
  destruct (lookup_lt_is_Some_2 (segs p) (Z.to_nat e)) as [its Hits]; [lia|].
  assert (∀ i, wsum (count_chars <$> segs p) i = count_chars (concat (take (Z.to_nat i) (segs p)))) as Hws.
  { intros i. unfold wsum. by rewrite <-fmap_take, count_chars_concat. }
  rewrite !Hws in *. replace (Z.to_nat (e + 1)) with (S (Z.to_nat e)) in Hk' by lia.
  rewrite (take_S_r _ _ its), concat_app, count_chars_app in Hk' by done. simpl in Hk'. rewrite app_nil_r in Hk'.
  destruct (nth_visible_ok its k' 0) as (j&it&Hj&Hit&Ht&Hc); [lia|].
  pose proof (segs_lookup_inv _ _ _ Hits) as (slot&Ho&Eits).
  exists (mkLoc (Z.to_nat e) j), it. split; [|split; [|split; [done|]]].
  - unfold loc_of_visible_offset. rewrite Hsel, Ho, <-Eits, Hj. done.
  - by exists its.
  - unfold front. simpl. rewrite Hits. simpl. rewrite count_chars_app. lia.
Qed.

Lemma loc_of_visible_none k : visible_total p <= k → loc_of_visible_offset p k = None.
Proof.
  destruct Hr as [Hok _ _ _]. rewrite (po_visible p Hok), flat_segs, count_chars_concat. intros Hk.
  unfold loc_of_visible_offset. destruct (po_chars p Hok) as [Hw [Hix|Hix]].
  - rewrite select_offset_none; [done|done|]. by rewrite Hw.
  - rewrite Hix in Hw |- *. simpl in Hw. rewrite <-Hw in Hk. simpl in Hk. unfold select_offset, total_len.
    change (prefix_sum index_default (fen_len (weights index_default))) with 0. by rewrite (proj2 (Z.leb_le 0 k)).
Qed.

(** The text of some pairs. *)
Definition text_of (xs : list (OpId * Z)) : bytes := xs ≫= λ xc, encode_utf8 xc.2.
Lemma text_of_app xs ys : text_of (xs ++ ys) = text_of xs ++ text_of ys.
Proof. apply bind_app. Qed.

Lemma utf8_run its : (∀ it, it ∈ its → it ∈ flat p) → utf8 its = text_of (run_pairs (actors p) its).
Proof.
  unfold utf8, text_of, run_pairs. induction its as [|it its IH]; intros Hin; [done|]. csimpl.
  rewrite IH by (intros i Hi; apply Hin; by right). destruct (item_tomb it); [done|].
  by rewrite cid_to_op_id_valid by (apply (rd_valid p Hr), Hin; by left).
Qed.

Lemma string_pairs : visible_string p = text_of (build_visible_seq_pairs p).
Proof. rewrite (po_string p (rd_ok p Hr)). by apply utf8_run. Qed.

(** Byte offsets of visible offsets. *)
Lemma byte_offset_ok k :
  0 <= k → byte_offset_of_visible p k =
    Z.of_nat (length (text_of (take (Z.to_nat k) (build_visible_seq_pairs p)))).
Proof.
  intros Hk. unfold byte_offset_of_visible. pose proof pairs_length as Hpl.
  destruct (decide (k < visible_total p)) as [Hlt|Hge].
  - destruct (loc_of_visible_ok k) as (l&it&->&Hat&_&Hc); [lia|]. pose proof (at_item_ok _ _ _ Hat) as Hl.
    rewrite (byte_prefix_ok p l (rd_ok p Hr) Hl). do 3 f_equal.
    rewrite utf8_run by (intros; by eapply front_in_flat). f_equal.
    change (build_visible_seq_pairs p) with (run_pairs (actors p) (flat p)).
    rewrite flat_segs, <-(front_rest _ _ Hl), run_pairs_app.
    rewrite take_app_length'; [done|]. rewrite <-Hc, <-run_pairs_length by (intros; by eapply front_in_flat). lia.
  - rewrite loc_of_visible_none by lia. rewrite take_ge by lia. by rewrite string_pairs.
Qed.

Lemma id_at_ok k :
  0 <= k → id_at_visible_offset p k = fst <$> build_visible_seq_pairs p !! Z.to_nat k.
Proof.
  intros Hk. unfold id_at_visible_offset. pose proof pairs_length as Hpl.
  destruct (decide (k < visible_total p)) as [Hlt|Hge].
  - destruct (loc_of_visible_ok k) as (l&it&->&Hat&Ht&Hc); [lia|].
    pose proof (pairs_at l it Hat Ht) as Hp. rewrite Hc in Hp. rewrite Hp. simpl.
    pose proof Hat as (its&Hi&Hit). rewrite (item_at_segs _ _ _ _ Hi Hit). apply cid_to_op_id_valid.
    apply (rd_valid p Hr). rewrite flat_segs. apply elem_of_concat. exists its.
    split; by eapply list_elem_of_lookup_2.
  - rewrite loc_of_visible_none by lia. by rewrite lookup_ge_None_2 by lia.
Qed.

(** The offset of a visible character. *)
Lemma visible_offset_ok l it :
  at_item p l it → item_tomb it = false →
  visible_offset_of_id p (item_id it) = Some (count_chars (front (segs p) l)).
Proof.
  intros Hat Ht. unfold visible_offset_of_id. pose proof (rd_ok p Hr) as Hok. pose proof Hat as (its&Hi&Hit).
  assert (it ∈ flat p) as Hin.
  { rewrite flat_segs. apply elem_of_concat. exists its. split; by eapply list_elem_of_lookup_2. }
  destruct (loc_of_id_known p (item_id it) Hok) as [l' Hl']; [by apply list_elem_of_fmap_2|]. rewrite Hl'.
  destruct (loc_of_id_Some p _ l' Hok Hl') as (it'&Hat'&Hid). pose proof Hat' as (its'&Hi'&Hit').
  rewrite (item_at_segs _ _ _ _ Hi' Hit').
  destruct (step_loc _ _ _ _ Hi Hit) as (_&_&Hre), (step_loc _ _ _ _ Hi' Hit') as (_&_&Hre').
  pose proof (po_uniq p Hok) as Hnd.
  pose proof (front_rest _ _ (at_item_ok _ _ _ Hat)) as E. pose proof (front_rest _ _ (at_item_ok _ _ _ Hat')) as E'.
  rewrite <-flat_segs, Hre in E. rewrite <-flat_segs, Hre' in E'.
  assert (length (front (segs p) l) = length (front (segs p) l')) as Hlen.
  { eapply (NoDup_lookup (item_id <$> flat p) _ _ (item_id it)); [done|..].
    - rewrite <-E, fmap_app, lookup_app_r, length_fmap, Nat.sub_diag by (rewrite length_fmap; lia). done.
    - rewrite <-E', fmap_app, lookup_app_r, length_fmap, Nat.sub_diag by (rewrite length_fmap; lia). by rewrite <-Hid. }
  rewrite <-E' in E. apply app_inj_1 in E as [Efr Eit]; [|done]. simplify_eq. rewrite Ht.
  rewrite visible_prefix_ok by (done || by eapply at_item_ok). by rewrite Efr.
Qed.
End reads.

(** ** Deleting a window *)

Lemma readable_count p k : readable p → readable (with_count p k).
Proof. intros [H1 H2 H3 H4]. split; try done. by apply proj_ok_count. Qed.

Lemma delete_visible p k :
  readable p → 0 <= k < visible_total p →
  ∃ l, loc_of_visible_offset p k = Some l ∧
    let p' := delete_known p (item_id (item_at p l)) in
    readable p' ∧ build_visible_seq_pairs p' =
      take (Z.to_nat k) (build_visible_seq_pairs p) ++ drop (S (Z.to_nat k)) (build_visible_seq_pairs p).
Proof.
  intros Hr Hk. destruct (loc_of_visible_ok p Hr k Hk) as (l&it&Hl&Hat&Ht&Hc). exists l. split; [done|].
  pose proof Hat as (its&Hi&Hit). rewrite (item_at_segs _ _ _ _ Hi Hit). intros p'.
  pose proof (at_item_ok _ _ _ Hat) as Hlo. destruct (step_loc _ _ _ _ Hi Hit) as (_&_&Hre).
  pose proof (front_rest _ _ Hlo) as Efl. rewrite Hre, <-flat_segs in Efl.
  assert (it ∈ flat p) as Hin by (rewrite <-Efl; apply elem_of_app; right; by left).
  destruct (delete_known_ok p (item_id it)) as (Hok'&(Ha&_)&_&Hfl);
    [apply Hr|apply Hr|by apply list_elem_of_fmap_2|]. fold p' in Hok', Ha, Hfl.
  rewrite <-Efl, bury_unique in Hfl by (rewrite Efl; apply (rd_ok p Hr)).
  destruct (bury_counts (front (segs p) l) it (rest (segs p) (mkLoc (loc_pos l) (S (loc_item l)))) Ht) as [_ Hb].
  rewrite Efl, <-Hfl in Hb. pose proof (len_utf8_bounds (item_ch it)) as Hlen. split.
  - split; [done|rewrite Ha; apply Hr| |].
    + intros i. rewrite Hfl, Ha. intros Hii. apply elem_of_app in Hii as [Hii|[->|Hii]%elem_of_cons]; simpl;
        apply (rd_valid p Hr); try done; rewrite <-Efl; apply elem_of_app; [by left|right; by right].
    + pose proof (rd_small p Hr). lia.
  - assert (∀ i, i ∈ front (segs p) l → i ∈ flat p) as Hfr by (intros; by eapply front_in_flat).
    pose proof (run_pairs_length p Hr _ Hfr) as Hlf. rewrite Hc in Hlf.
    change (run_pairs (actors p') (flat p') = take (Z.to_nat k) (run_pairs (actors p) (flat p)) ++
      drop (S (Z.to_nat k)) (run_pairs (actors p) (flat p))).
    rewrite Ha, Hfl, <-Efl, !run_pairs_app.
    rewrite take_app_length' by lia. f_equal. rewrite drop_app_ge by lia.
    replace (S (Z.to_nat k) - length (run_pairs (actors p) (front (segs p) l)))%nat with 1%nat by lia.
    unfold run_pairs. csimpl. rewrite Ht, cid_to_op_id_valid by (by apply (rd_valid p Hr)). done.
Qed.

Lemma delete_window n p start :
  readable p → 0 <= start → start + Z.of_nat n <= visible_total p →
  let p' := range_delete_loop n p start in
  readable p' ∧ build_visible_seq_pairs p' =
    take (Z.to_nat start) (build_visible_seq_pairs p) ++
    drop (Z.to_nat start + n) (build_visible_seq_pairs p).
Proof.
  revert p. induction n as [|n IH]; intros p Hr Hs Hn; cbn [range_delete_loop].
  - split; [done|]. by rewrite Nat.add_0_r, take_drop.
  - destruct (delete_visible p start Hr) as (l&->&Hr'&E); [lia|].
    pose proof (pairs_length p Hr) as Hpl. pose proof (pairs_length _ Hr') as Hpl'.
    assert (length (take (Z.to_nat start) (build_visible_seq_pairs p)) = Z.to_nat start) as Hlt
      by (rewrite length_take; lia).
    destruct (IH _ Hr' Hs) as [Hr2 E2].
    { rewrite <-Hpl', E, length_app, length_drop. lia. }
    split; [done|]. rewrite E2, E. rewrite take_app_length' by done. f_equal.
    rewrite drop_app_ge by lia. rewrite Hlt, drop_drop. f_equal. lia.
Qed.

Lemma omap_cong {A B} (f g : A → option B) (l : list A) : (∀ x, f x = g x) → omap f l = omap g l.
Proof. intros Hfg. induction l as [|x l IH]; [done|]. csimpl. by rewrite Hfg, IH. Qed.

(** Two logs with the same updates show the same pairs. *)
Lemma pairs_converge us vs :
  log_ok us → (∀ u, u ∈ us ↔ u ∈ vs) →
  4 * Z.of_nat (length us) <= u32_max → 4 * Z.of_nat (length vs) <= u32_max →
  build_visible_seq_pairs (projection us) = build_visible_seq_pairs (projection vs).
Proof.
  intros Hok Hel Hu Hv.
  pose proof (projection_dinv us us Hok (λ u H, H) Hu) as Hdu.
  pose proof (projection_dinv us vs Hok (λ u, proj2 (Hel u)) Hv) as Hdv.
  rewrite (doc_pairs _ _ _ _ Hdu), (doc_pairs _ _ _ _ Hdv).
  assert (∀ x, ins us x ↔ ins vs x) as Hins by (intros x; unfold ins; by setoid_rewrite Hel).
  assert (item_oid (actors (projection us)) <$> flat (projection us) =
          item_oid (actors (projection vs)) <$> flat (projection vs)) as ->.
  { apply (rga_unique (par_of us)); [by eapply di_rga|by eapply di_rga|]. intros x.
    rewrite (doc_rooted _ _ _ _ x Hdu), (doc_rooted _ _ _ _ x Hdv). unfold rooted. by setoid_rewrite Hins. }
  apply omap_cong. intros x. by rewrite (bool_decide_ext _ _ (Hel (UpdDelete x))).
Qed.

(** ** Properties *)

(** C2: strong eventual consistency of text. Two replicas that received the
    same inserts and deletes, each in its own order and with any repetitions,
    show the same characters with the same identities and the same string:
    inserts that overtook their anchor and deletes that overtook their target
    included. The log may hold one character per identity, anchored at a
    smaller identity, and fewer than 2^30 updates. *)
Theorem text_converges (us vs : list ProjectionUpdateOp) :
  log_ok us → (∀ u, u ∈ us ↔ u ∈ vs) →
  4 * Z.of_nat (length us) <= u32_max → 4 * Z.of_nat (length vs) <= u32_max →
  (proj_resolve_seq (projection us)).2 = (proj_resolve_seq (projection vs)).2 ∧
  (proj_resolve_string (projection us)).2 = (proj_resolve_string (projection vs)).2.
Proof.
  intros Hok Hel Hu Hv. cbn [proj_resolve_seq proj_resolve_string snd].
  pose proof (pairs_converge us vs Hok Hel Hu Hv) as E. split; [done|].
  rewrite (string_pairs (projection us)), (string_pairs (projection vs)), E; [done|..].
  - eapply dinv_readable; [|done]. apply (projection_dinv us vs Hok); [|done]. intros u. apply Hel.
  - by apply projection_readable.
Qed.

(** C3: the projection materialises the documented forest. For a log in which every
    identity is inserted with one character and one anchor, an anchor is a smaller
    identity than the character it carries, and there are fewer than 2^30 updates, and
    whatever the order of arrival, it shows the characters whose ancestors have all
    been inserted and that have not been deleted, in depth-first order with siblings by
    descending identity, and the cached string is their UTF-8 encoding. *)
Theorem text_document (us : list ProjectionUpdateOp) :
  log_ok us → 4 * Z.of_nat (length us) <= u32_max →
  ∃ doc, StronglySorted (doc_before (par_of us)) doc ∧ (∀ x, x ∈ doc ↔ rooted (par_of us) us x) ∧
    (proj_resolve_seq (projection us)).2 =
      omap (λ x, if bool_decide (UpdDelete x ∈ us) then None else Some (x, chr_of us x)) doc ∧
    (proj_resolve_string (projection us)).2 = text_of (proj_resolve_seq (projection us)).2.
Proof.
  intros Hok Hsize. pose proof (projection_dinv us us Hok (λ u H, H) Hsize) as Hd.
  exists (item_oid (actors (projection us)) <$> flat (projection us)).
  split; [apply (di_rga _ _ _ _ _ _ _ Hd)|]. split; [intros x; by apply doc_rooted with (chr := chr_of us)|].
  split; [by apply doc_pairs with (par := par_of us)|]. by apply string_pairs, projection_readable.
Qed.

(** Offsets are positions. The identity at a visible offset, found through
    the Fenwick index and one chunk, is that of the character at that position
    of the sequence, and none past its end; the length the projection reports is
    the length of the sequence. *)
Theorem text_offset_lookup (us : list ProjectionUpdateOp) (k : Z) :
  log_ok us → 4 * Z.of_nat (length us) <= u32_max → 0 <= k →
  id_at_visible_offset (projection us) k = fst <$> (proj_resolve_seq (projection us)).2 !! Z.to_nat k ∧
  visible_total (projection us) = Z.of_nat (length (proj_resolve_seq (projection us)).2).
Proof.
  intros Hok Hsize Hk. pose proof (projection_readable us Hok Hsize) as Hr.
  split; [by apply id_at_ok|]. symmetry. by apply pairs_length.
Qed.

(** A range read returns the text of the characters in the window, cut at
    character boundaries of the UTF-8 string. *)
Theorem text_range_read (us : list ProjectionUpdateOp) (start len : Z) :
  log_ok us → 4 * Z.of_nat (length us) <= u32_max → 0 <= start → 0 <= len → start + len <= u64_max →
  (proj_resolve_string_range (projection us) start len).2 =
  text_of (take (Z.to_nat len) (drop (Z.to_nat start) (proj_resolve_seq (projection us)).2)).
Proof.
  intros Hok Hsize Hs Hl Hmax. pose proof (projection_readable us Hok Hsize) as Hr0.
  unfold proj_resolve_string_range. set (p := count_reads (projection us) 0 0 1).
  assert (readable p) as Hr by (by apply readable_count).
  change ((proj_resolve_seq (projection us)).2) with (build_visible_seq_pairs p).
  pose proof (pairs_length p Hr) as Hpl. destruct (Z.eqb_spec len 0) as [->|Hl0]; [done|]. cbn [orb].
  destruct (Z.leb_spec (visible_total p) start) as [Hge|Hlt]; cbn [snd].
  { by rewrite drop_ge, take_nil by lia. }
  assert (sat_add64 start len = start + len) as -> by (unfold sat_add64; lia).
  rewrite !(byte_offset_ok p Hr), (string_pairs p Hr) by lia.
  set (xs := build_visible_seq_pairs p) in *. replace (Z.to_nat (start + len)) with (Z.to_nat start + Z.to_nat len)%nat by lia.
  rewrite <-(take_drop (Z.to_nat start) xs) at 4.
  assert (take (Z.to_nat start + Z.to_nat len) xs = take (Z.to_nat start) xs ++ take (Z.to_nat len) (drop (Z.to_nat start) xs)) as ->.
  { rewrite <-(take_drop (Z.to_nat start) xs) at 1. rewrite take_app_ge by (rewrite length_take; lia).
    f_equal. f_equal. rewrite length_take. lia. }
  rewrite !text_of_app, Nat2Z.id, drop_app_length, length_app.
  replace (Z.to_nat _) with (length (text_of (take (Z.to_nat len) (drop (Z.to_nat start) xs)))) by lia.
  rewrite <-(take_drop (Z.to_nat len) (drop (Z.to_nat start) xs)) at 2. rewrite text_of_app. apply take_app_length.
Qed.

(** Cursor anchors survive the round trip. Turning an offset into a stable
    anchor and resolving the anchor on the same text gives the offset back, cut
    at the end of the text. *)
Theorem text_anchor_roundtrip (us : list ProjectionUpdateOp) (k : Z) :
  log_ok us → 4 * Z.of_nat (length us) <= u32_max → 0 <= k →
  let p := projection us in
  resolve_anchor_index p (proj_anchor_for_offset p k) = Z.min k (visible_total p).
Proof.
  intros Hok Hsize Hk p. pose proof (projection_readable us Hok Hsize) as Hr. fold p in Hr.
  pose proof (pairs_length p Hr) as Hpl. unfold proj_anchor_for_offset.
  destruct (Z.eqb_spec k 0) as [->|Hk0]; [simpl; lia|].
  destruct (Z.leb_spec (visible_total p) k) as [Hge|Hlt]; [simpl; lia|].
  assert (sat_sub k 1 = k - 1) as -> by (unfold sat_sub; lia). unfold id_at_visible_offset.
  destruct (loc_of_visible_ok p Hr (k - 1)) as (l&it&->&Hat&Ht&Hc); [lia|].
  pose proof Hat as (its&Hi&Hit). rewrite (item_at_segs _ _ _ _ Hi Hit).
  assert (cid_valid (actors p) (item_id it)) as Hv.
  { apply (rd_valid p Hr). rewrite flat_segs. apply elem_of_concat. exists its. split; by eapply list_elem_of_lookup_2. }
  rewrite cid_to_op_id_valid by done. cbn [resolve_anchor_index].
  destruct (cid_of_op_id_existing (oid (actors p) (item_id it)) (actors p)) as [c|] eqn:Ee.
  - destruct (cid_existing_ok _ _ _ (rd_actors p Hr) Ee) as [Hvc E].
    assert (c = item_id it) as -> by (eapply oid_inj; [apply Hr|done|done|done]).
    rewrite (visible_offset_ok p Hr l it Hat Ht). lia.
  - by destruct (cid_existing_None _ _ _ (rd_actors p Hr) Ee Hv).
Qed.

(** A range delete removes exactly the visible characters of its window,
    cut at the end of the text, and nothing else. *)
Theorem text_range_delete_window (us : list ProjectionUpdateOp) (a : TextRangeAnchor) (len : Z) :
  log_ok us → 4 * Z.of_nat (length us) <= u32_max → 0 <= len → (∀ i, a = AnchorOffset i → 0 <= i) →
  let p := projection us in
  let start := Z.to_nat (resolve_anchor_index p a) in
  (proj_resolve_seq (proj_apply_range_delete p a len)).2 =
  take start (proj_resolve_seq p).2 ++ drop (start + Z.to_nat len) (proj_resolve_seq p).2.
Proof.
  intros Hok Hsize Hlen Ha p start. pose proof (projection_readable us Hok Hsize) as Hr. fold p in Hr.
  cbn [proj_resolve_seq snd]. pose proof (pairs_length p Hr) as Hpl.
  assert (0 <= resolve_anchor_index p a <= visible_total p) as Hb.
  { destruct a as [| |x|i]; simpl; [lia|lia| |specialize (Ha i eq_refl); lia].
    destruct (cid_of_op_id_existing x (actors p)) as [c|]; [|lia]. unfold visible_offset_of_id.
    destruct (loc_of_id p c) as [l|] eqn:El; [|lia]. destruct (item_tomb (item_at p l)) eqn:Et; [lia|].
    destruct (loc_of_id_Some p c l (rd_ok p Hr) El) as (it&Hat&_). pose proof Hat as (its&Hi&Hit).
    rewrite (item_at_segs _ _ _ _ Hi Hit) in Et. pose proof (at_item_ok _ _ _ Hat) as Hl.
    rewrite (visible_prefix_ok p l (rd_ok p Hr) Hl). pose proof (pairs_at p Hr l it Hat Et) as Hp.
    apply lookup_lt_Some in Hp. pose proof (count_chars_bounds (front (segs p) l)). lia. }
  unfold proj_apply_range_delete. destruct (Z.eqb_spec len 0) as [->|Hl0].
  { by rewrite Nat.add_0_r, take_drop. }
  set (k := mkCounters _ _ _ _ _ _ _ _). pose proof (readable_count p k Hr) as Hrk.
  change (resolve_anchor_index (with_count p k) a) with (resolve_anchor_index p a).
  change (visible_total (with_count p k)) with (visible_total p).
  set (n := Z.to_nat (Z.min len (sat_sub (visible_total p) (resolve_anchor_index p a)))).
  destruct (delete_window n (with_count p k) (resolve_anchor_index p a) Hrk) as [_ ->]; [lia| |].
  { change (visible_total (with_count p k)) with (visible_total p). unfold n, sat_sub. lia. }
  change (build_visible_seq_pairs (with_count p k)) with (build_visible_seq_pairs p).
  fold start. f_equal. unfold n, sat_sub, start. destruct (decide (len <= visible_total p - resolve_anchor_index p a)).
  - f_equal. lia.
  - rewrite !drop_ge by lia. done.
Qed.

(** ** Witnesses *)

Definition wit_a : OpId := mkOpId 1 [1].
Definition wit_b : OpId := mkOpId 2 [1].
Definition wit_c : OpId := mkOpId 2 [2].

(** "ho" with a deleted character between, and the same updates out of order
    and with a repetition: children and deletes arrive before their anchors. *)
Definition wit_log : list ProjectionUpdateOp :=
  [UpdInsert wit_a None 104; UpdInsert wit_b (Some wit_a) 111; UpdInsert wit_c (Some wit_a) 105; UpdDelete wit_c].
Definition wit_log' : list ProjectionUpdateOp :=
  [UpdDelete wit_c; UpdInsert wit_c (Some wit_a) 105; UpdInsert wit_b (Some wit_a) 111;
   UpdInsert wit_a None 104; UpdInsert wit_b (Some wit_a) 111].

Lemma wit_log_ok : log_ok wit_log.
Proof.
  split.
  - intros x a ch a' ch'. unfold wit_log. rewrite !elem_of_cons, !elem_of_nil.
    intros H1 H2. repeat destruct H1 as [H1|H1]; try done; repeat destruct H2 as [H2|H2]; try done;
      injection H1; injection H2; intros; subst; simplify_eq; done.
  - intros x q ch. unfold wit_log. rewrite !elem_of_cons, !elem_of_nil.
    intros H1. repeat destruct H1 as [H1|H1]; try done; injection H1; intros; subst; reflexivity.
Qed.

Lemma text_converges_witness :
  (proj_resolve_string (projection wit_log')).2 = [104; 111] ∧
  (proj_resolve_seq (projection wit_log)).2 = (proj_resolve_seq (projection wit_log')).2.
Proof.
  split; [vm_compute; reflexivity|].
  apply (text_converges wit_log wit_log' wit_log_ok); [|vm_compute; discriminate..].
  intros u. unfold wit_log, wit_log'. rewrite !elem_of_cons, !elem_of_nil. tauto.
Defined.

Lemma text_document_witness :
  ∃ doc, StronglySorted (doc_before (par_of wit_log)) doc ∧
    (∀ x, x ∈ doc ↔ rooted (par_of wit_log) wit_log x) ∧
    (proj_resolve_seq (projection wit_log)).2 =
      omap (λ x, if bool_decide (UpdDelete x ∈ wit_log) then None else Some (x, chr_of wit_log x)) doc.
Proof.
  destruct (text_document wit_log wit_log_ok) as (doc&H1&H2&H3&_); [vm_compute; discriminate|]. eauto.
Defined.

Lemma text_offset_lookup_witness : id_at_visible_offset (projection wit_log) 1 = Some wit_b.
Proof.
  rewrite (proj1 (text_offset_lookup wit_log 1 wit_log_ok ltac:(vm_compute; discriminate) ltac:(lia))).
  vm_compute. reflexivity.
Defined.

Lemma text_range_read_witness : (proj_resolve_string_range (projection wit_log) 1 5).2 = [111].
Proof.
  rewrite (text_range_read wit_log 1 5 wit_log_ok ltac:(vm_compute; discriminate) ltac:(lia) ltac:(lia)
    ltac:(vm_compute; discriminate)).
  vm_compute. reflexivity.
Defined.

Lemma text_anchor_roundtrip_witness :
  resolve_anchor_index (projection wit_log) (proj_anchor_for_offset (projection wit_log) 1) = 1.
Proof.
  rewrite (text_anchor_roundtrip wit_log 1 wit_log_ok ltac:(vm_compute; discriminate) ltac:(lia)).
  vm_compute. reflexivity.
Defined.

Lemma text_range_delete_window_witness :
  (proj_resolve_seq (proj_apply_range_delete (projection wit_log) (AnchorAfter wit_a) 4)).2 = [(wit_a, 104)].
Proof.
  rewrite (text_range_delete_window wit_log (AnchorAfter wit_a) 4 wit_log_ok ltac:(vm_compute; discriminate)
    ltac:(lia) ltac:(intros; discriminate)).
  vm_compute. reflexivity.
Defined.
