(* ===== verification/TopoStore.v ===== *)
(** Room families and promotions as data: the contracts of the core crate (crdt
    room_lineage.rs and topology_contracts.rs), and the stores of the server for them
    (server/lineage_store.rs and promotion_store.rs): a map in memory, or a SQLite table
    of JSON texts whose calls may fail.  The schedule tells the outcome of the coming
    calls; when it is empty nothing fails any more.  The serde codec is a parameter. *)

From S2P Require Import Prelude.


Inductive LineageReasonClass :=
| ParentCheckpointMismatch | PolicyUnknown | ParentNotFound | ChildAlreadyExists | LineageRoomNotFound | InvalidCheckpoint.
Definition lineage_reason_str (c : LineageReasonClass) : bytes :=
  match c with
  | ParentCheckpointMismatch => bs "reject.lineage_parent_checkpoint_mismatch"
  | PolicyUnknown => bs "reject.lineage_policy_unknown"
  | ParentNotFound => bs "reject.lineage_parent_not_found"
  | ChildAlreadyExists => bs "reject.lineage_child_already_exists"
  | LineageRoomNotFound => bs "reject.room_not_found"
  | InvalidCheckpoint => bs "reject.lineage_invalid_checkpoint"
  end.

Record ParentCheckpoint := mkCheckpoint {
  pcp_frontier : list bytes;
  pcp_canonical_hash : bytes;
  pcp_policy_timeline_hash : option bytes;
}.
Record RoomLineage := mkLineage {
  ln_parent_room_id : bytes;
  ln_parent_checkpoint : ParentCheckpoint;
  ln_child_purpose : bytes;
  ln_created_by : bytes;
  ln_created_at_hlc : Z;
  ln_promotion_policy_id : bytes;
}.
Record LineageRejected := mkLineageRejected { lr_class : LineageReasonClass; lr_message : bytes }.
Record ChildRoomCreated := mkChildCreated { cc_child_room_id : bytes; cc_lineage : RoomLineage }.
Record RoomLineageDescribed := mkDescribed {
  ld_room_id : bytes; ld_lineage : option RoomLineage; ld_ancestors : list RoomLineage;
}.
Record ChildRoomSummary := mkChildSummary {
  cs_child_room_id : bytes; cs_child_purpose : bytes; cs_promotion_policy_id : bytes; cs_created_by : bytes;
}.
Record ChildrenListed := mkListed { cl_parent_room_id : bytes; cl_children : list ChildRoomSummary }.

Inductive PromotionReasonClass :=
| ChildCheckpointMismatch | PolicyDenied | InvalidLineage | StaleParent | ApplyConflict | PromotionNotFound | NotValidated.
Definition promotion_reason_str (c : PromotionReasonClass) : bytes :=
  match c with
  | ChildCheckpointMismatch => bs "reject.promotion_child_checkpoint_mismatch"
  | PolicyDenied => bs "reject.promotion_policy_denied"
  | InvalidLineage => bs "reject.promotion_invalid_lineage"
  | StaleParent => bs "reject.promotion_stale_parent"
  | ApplyConflict => bs "reject.promotion_apply_conflict"
  | PromotionNotFound => bs "reject.promotion_not_found"
  | NotValidated => bs "reject.promotion_not_validated"
  end.
Record PromotionRejected := mkPromotionRejected { prj_class : PromotionReasonClass; prj_message : bytes }.
Inductive PromotionLifecycle := Proposed | Validated | Applied.
#[export] Instance lifecycle_eq : EqDecision PromotionLifecycle.
Proof. solve_decision. Defined.

Record PromotionProposed := mkProposed {
  pp_proposal_id : bytes; pp_parent_room_id : bytes; pp_child_room_id : bytes;
  pp_child_checkpoint_hash : bytes; pp_payload_ref : bytes; pp_proposal_digest : bytes;
}.
Record PromotionValidated := mkValidated { pv_proposal_id : bytes; pv_validation_digest : bytes }.
Record PromotionApplied := mkApplied {
  pa_proposal_id : bytes; pa_parent_room_id : bytes; pa_parent_new_canonical_hash : bytes; pa_audit_key : bytes;
}.

Inductive TopologyWsResponse :=
| CreateChildCompleted (r : ChildRoomCreated)
| DescribeLineageResult (r : RoomLineageDescribed)
| ListChildrenResult (r : ChildrenListed)
| ProposePromotionCompleted (r : PromotionProposed)
| ValidatePromotionCompleted (r : PromotionValidated)
| ApplyPromotionCompleted (r : PromotionApplied).
Definition wire_type (r : TopologyWsResponse) : bytes :=
  match r with
  | CreateChildCompleted _ => bs "topology.create-child.completed"
  | DescribeLineageResult _ => bs "topology.describe-lineage.result"
  | ListChildrenResult _ => bs "topology.list-children.result"
  | ProposePromotionCompleted _ => bs "topology.propose-promotion.completed"
  | ValidatePromotionCompleted _ => bs "topology.validate-promotion.completed"
  | ApplyPromotionCompleted _ => bs "topology.apply-promotion.completed"
  end.

(** Distinct classes are distinct on the wire, across both planes. *)
#[export] Instance lineage_reason_inj : Inj (=) (=) lineage_reason_str.
Proof. by intros [] []. Qed.
#[export] Instance promotion_reason_inj : Inj (=) (=) promotion_reason_str.
Proof. by intros [] []. Qed.


Class Serde (A : Type) := { to_json : A → bytes; from_json : bytes → option A }.
Class SerdeLaws (A : Type) `{Serde A} := from_to_json : ∀ a : A, from_json (to_json a) = Some a.

Definition sql_next (io : list bool) : bool * list bool := match io with [] => (true, []) | ok :: rest => (ok, rest) end.

(** ** Lineage *)

Inductive LineageStoreInner :=
| LineageVolatile (m : gmap bytes RoomLineage)
| LineageDurable (rows : gmap bytes (bytes * bytes)) (io : list bool).
(** [open]: a store root makes it durable. *)
Definition lineage_open (root : option (gmap bytes (bytes * bytes))) : LineageStoreInner :=
  match root with Some rows => LineageDurable rows [] | None => LineageVolatile ∅ end.
Definition lineage_is_durable (s : LineageStoreInner) : bool := match s with LineageDurable _ _ => true | _ => false end.

Section lineage.
Context `{Serde RoomLineage}.
Implicit Types (s : LineageStoreInner) (room : bytes).

Definition get_lineage s room : option RoomLineage * LineageStoreInner :=
  match s with
  | LineageVolatile m => (m !! room, s)
  | LineageDurable rows io =>
      let '(ok, io) := sql_next io in
      (if ok then rows !! room ≫= λ r, from_json r.2 else None, LineageDurable rows io)
  end.
Definition lineage_list_children s (parent : bytes) : list bytes * LineageStoreInner :=
  match s with
  | LineageVolatile m => (sort (filter (λ kl, ln_parent_room_id kl.2 = parent) (map_to_list m)).*1, s)
  | LineageDurable rows io =>
      let '(ok, io) := sql_next io in
      (if ok then sort (filter (λ kr, kr.2.1 = parent) (map_to_list rows)).*1 else [], LineageDurable rows io)
  end.
Definition upsert_lineage s room (l : RoomLineage) : LineageStoreInner :=
  match s with
  | LineageVolatile m => LineageVolatile (<[room := l]> m)
  | LineageDurable rows io =>
      let '(ok, io) := sql_next io in
      LineageDurable (if ok then <[room := (ln_parent_room_id l, to_json l)]> rows else rows) io
  end.

(** The lineages a store holds; both forms are this map. *)
Definition lineages s : gmap bytes RoomLineage :=
  match s with LineageVolatile m => m | LineageDurable rows _ => omap (λ r, from_json r.2) rows end.
(** Nothing to come fails, and the parent column repeats the text. *)
Definition lineage_store_ok s : Prop :=
  match s with
  | LineageVolatile _ => True
  | LineageDurable rows io =>
      io = [] ∧ map_Forall (λ _ r, ∃ l, from_json r.2 = Some l ∧ ln_parent_room_id l = r.1) rows
  end.

Context `{!SerdeLaws RoomLineage}.
Lemma get_lineage_ok s room : lineage_store_ok s → get_lineage s room = (lineages s !! room, s).
Proof. destruct s as [m|rows io]; [done|]. intros [-> _]. cbn. by rewrite lookup_omap. Qed.
Lemma upsert_lineage_ok s room l :
  lineage_store_ok s → lineage_store_ok (upsert_lineage s room l) ∧ lineages (upsert_lineage s room l) = <[room := l]> (lineages s).
Proof.
  destruct s as [m|rows io]; [done|]. intros [-> Hr]. cbn. split.
  - split; [done|]. apply map_Forall_insert_2; [|done]. exists l. cbn. by rewrite from_to_json.
  - apply map_eq. intros i. rewrite lookup_omap. destruct (decide (i = room)) as [->|Hne].
    + rewrite !lookup_insert_eq. cbn. by rewrite from_to_json.
    + by rewrite !lookup_insert_ne, lookup_omap by done.
Qed.
Lemma list_children_ok s parent : lineage_store_ok s →
  (lineage_list_children s parent).2 = s ∧
  ∀ c, c ∈ (lineage_list_children s parent).1 ↔ ∃ l, lineages s !! c = Some l ∧ ln_parent_room_id l = parent.
Proof.
  destruct s as [m|rows io].
  - intros _. split; [done|]. intros c. cbn. rewrite sort_perm. rewrite list_elem_of_fmap. split.
    + intros ([k l]&->&[? ?%elem_of_map_to_list]%list_elem_of_filter). eauto.
    + intros (l&?&?). exists (c, l). rewrite list_elem_of_filter, elem_of_map_to_list. done.
  - intros [-> Hr]. split; [done|]. intros c. cbn. rewrite sort_perm, list_elem_of_fmap. setoid_rewrite lookup_omap. split.
    + intros ([k r]&->&[Hp Hk%elem_of_map_to_list]%list_elem_of_filter). cbn in *. destruct (Hr _ _ Hk) as (l&Hl&Hlp).
      exists l. rewrite Hk. cbn. split; [done|congruence].
    + intros (l&Hl&Hp). destruct (rows !! c) as [r|] eqn:Hk; [|done]. cbn in Hl. destruct (Hr _ _ Hk) as (l'&Hl'&Hlp).
      exists (c, r). rewrite list_elem_of_filter, elem_of_map_to_list. cbn. split; [done|]. split; [congruence|done].
Qed.
End lineage.

(** ** Promotions *)

Record PromotionRecord := mkPromotionRecord {
  prd_parent_room_id : bytes;
  prd_child_room_id : bytes;
  prd_child_checkpoint_hash : bytes;
  prd_payload_ref : bytes;
  prd_parent_canonical_hash_at_propose : bytes;
  prd_parent_canonical_hash_at_validate : option bytes;
  prd_lifecycle : PromotionLifecycle;
  prd_proposal_digest : bytes;
  prd_validation_digest : option bytes;
  prd_parent_new_canonical_hash : option bytes;
  prd_audit_key : option bytes;
}.

Inductive PromotionStoreInner :=
| PromotionVolatile (m : gmap bytes PromotionRecord)
| PromotionDurable (rows : gmap bytes bytes) (io : list bool).
Definition promotion_open (root : option (gmap bytes bytes)) : PromotionStoreInner :=
  match root with Some rows => PromotionDurable rows [] | None => PromotionVolatile ∅ end.
Definition promotion_is_durable (s : PromotionStoreInner) : bool := match s with PromotionDurable _ _ => true | _ => false end.

Section promotion.
Context `{Serde PromotionRecord}.
Implicit Types (s : PromotionStoreInner) (id : bytes).

Definition promotion_get s id : option PromotionRecord * PromotionStoreInner :=
  match s with
  | PromotionVolatile m => (m !! id, s)
  | PromotionDurable rows io =>
      let '(ok, io) := sql_next io in (if ok then rows !! id ≫= from_json else None, PromotionDurable rows io)
  end.
Definition promotion_insert s id (x : PromotionRecord) : PromotionStoreInner :=
  match s with
  | PromotionVolatile m => PromotionVolatile (<[id := x]> m)
  | PromotionDurable rows io =>
      let '(ok, io) := sql_next io in PromotionDurable (if ok then <[id := to_json x]> rows else rows) io
  end.
Definition promotion_update s id (x : PromotionRecord) : PromotionStoreInner := promotion_insert s id x.

Definition promotions s : gmap bytes PromotionRecord :=
  match s with PromotionVolatile m => m | PromotionDurable rows _ => omap from_json rows end.
End promotion.
