(* ===== verification/HostTypes.v ===== *)
(** The commands, events and errors of the host core (host-core api.rs and
    errors.rs), and the JSON values they carry. *)

From S2P Require Import Prelude Str Conflicts.

(** ** JSON

    [serde_json::Value]: an object keeps its keys sorted.  Integers are numbers,
    any other number is its text.  Printing is a parameter. *)
Inductive Value :=
| JNull
| JBool (b : bool)
| JNumber (n : Z)
| JFloat (text : bytes)
| JString (s : bytes)
| JArray (l : list Value)
| JObject (m : list (bytes * Value)).

Class Json := json_print : Value → bytes.

Fixpoint assoc_insert (k : bytes) (v : Value) (m : list (bytes * Value)) : list (bytes * Value) :=
  match m with
  | [] => [(k, v)]
  | (k', v') :: rest =>
      match cmp k k' with
      | Lt => (k, v) :: m
      | Eq => (k, v) :: rest
      | Gt => (k', v') :: assoc_insert k v rest
      end
  end.
Fixpoint assoc_get (k : bytes) (m : list (bytes * Value)) : option Value :=
  match m with
  | [] => None
  | (k', v) :: rest => if decide (k = k') then Some v else assoc_get k rest
  end.
(** The [json!] macro on an object. *)
Definition jobj (fields : list (bytes * Value)) : Value :=
  JObject (foldl (λ m kv, assoc_insert kv.1 kv.2 m) [] fields).
Definition jopt (v : option bytes) : Value := match v with Some s => JString s | None => JNull end.
(** [v.get(key)], which also backs [v[key]], and the accessors. *)
Definition jget (k : bytes) (v : Value) : option Value :=
  match v with JObject m => assoc_get k m | _ => None end.
Definition as_str (v : Value) : option bytes := match v with JString s => Some s | _ => None end.
Definition as_u64 (v : Value) : option Z :=
  match v with JNumber n => if (0 <=? n) && (n <=? u64_max) then Some n else None | _ => None end.
Definition as_array (v : Value) : option (list Value) := match v with JArray l => Some l | _ => None end.
Definition get_str (k : bytes) (v : Value) : option bytes := jget k v ≫= as_str.

(** ** The API *)

Record CapabilitySet := mkCaps { supports_ibf : bool; supports_mst : bool }.
Definition caps_default : CapabilitySet := mkCaps true true.
Record HelloTokenPayload := mkHelloToken { ht_peer_pubkey : bytes; ht_expiry : Z; ht_caps : list bytes; ht_sig : bytes }.
Record ClientHelloPayload := mkHello { ch_peer_pubkey_hex : bytes; ch_client_frontier : list bytes; ch_capabilities : CapabilitySet; ch_token : option HelloTokenPayload }.
Record PolicyRulePayload := mkRulePayload { prp_path_glob : bytes; prp_can_write : list bytes }.

Inductive HostCommand :=
| CmdEnsureRoom
| CmdOpenSession (session_id : Z) (peer_pubkey_hex : bytes)
| CmdCloseSession (session_id : Z)
| CmdClientHello (session_id : Z) (hello : ClientHelloPayload)
| CmdMapSet (namespace : bytes) (key : bytes) (value : Value)
| CmdMapDelete (namespace : bytes) (key : bytes)
| CmdMapGet (namespace : bytes) (key : bytes)
| CmdMapAll (namespace : bytes)
| CmdTextInsert (namespace : bytes) (key : bytes) (after_id : option bytes) (ch : list Z)
| CmdTextDelete (namespace : bytes) (key : bytes) (target_id : bytes)
| CmdTextGet (namespace : bytes) (key : bytes)
| CmdTextGetCanonical (namespace : bytes) (key : bytes)
| CmdListPush (namespace : bytes) (key : bytes) (value : Value)
| CmdListInsert (namespace : bytes) (key : bytes) (index : Z) (value : Value)
| CmdListDelete (namespace : bytes) (key : bytes) (index : Z)
| CmdListMove (namespace : bytes) (key : bytes) (from_index : Z) (to_index : Z)
| CmdListUpdate (namespace : bytes) (key : bytes) (index : Z) (value : Value)
| CmdListGet (namespace : bytes) (key : bytes)
| CmdBlobSet (namespace : bytes) (hash : bytes) (data_b64 : bytes)
| CmdBlobGet (namespace : bytes) (hash : bytes)
| CmdBlobGetMany (namespace : bytes) (hashes : list bytes)
| CmdRequestUpload (namespace : bytes) (hash : bytes) (size_bytes : Z) (content_type : option bytes)
| CmdBlobRequest (namespace : bytes) (hashes : list bytes)
| CmdPresenceSet (session_id : Z) (data : Value) (ttl_ms : option Z) (now_unix_ms : option Z)
| CmdPresenceGetAll
| CmdPresenceSweep (now_unix_ms : Z)
| CmdSubscribe (session_id : Z) (patterns : list bytes)
| CmdSetRoomKey (pubkey_hex : bytes)
| CmdSetPolicy (default : bytes) (rules : list PolicyRulePayload)
| CmdImportPack (nodes_b64 : bytes)
| CmdRequestServerPack (known_ids : list bytes)
| CmdMstRequest (paths : list bytes)
| CmdMstDone (ids : list bytes)
| CmdGetRecentConflicts (since_unix_ms : option Z)
| CmdRelayPeerSignal (session_id : Z) (msg_type : bytes) (to_peer_pubkey : bytes) (payload : Value)
| CmdCreateTopologyChild (parent_room_id : bytes) (child_room_id : bytes) (child_purpose : bytes) (created_by : bytes) (promotion_policy_id : bytes) (parent_checkpoint : Value)
| CmdDescribeRoomLineage (room_id : bytes)
| CmdListTopologyChildren (parent_room_id : bytes)
| CmdProposeTopologyPromotion (parent_room_id : bytes) (child_room_id : bytes) (child_checkpoint_hash : bytes) (payload_ref : bytes) (idempotency_key : option bytes)
| CmdValidateTopologyPromotion (proposal_id : bytes)
| CmdApplyTopologyPromotion (proposal_id : bytes)
| CmdRegisterQuerySpec (query_spec_id : bytes) (version : bytes) (descriptor : Value)
| CmdBuildProjection (projection_id : bytes) (query_spec_id : bytes) (target_checkpoint : option Value)
| CmdReadProjection (projection_id : bytes) (limit : Z) (page_token : option bytes)
| CmdInvalidateProjection (projection_id : bytes) (reason : bytes)
| CmdListProjections (query_spec_id : option bytes) (state_filter : option bytes)
| CmdDescribeArchive (archive_ref : bytes)
| CmdValidateArchive (archive_ref : bytes) (mode : bytes)
| CmdImportArchive (archive_ref : bytes) (import_mode : bytes) (expected_checkpoint : option Value)
| CmdPromoteCheckpointToGraph (selector : option Value)
| CmdReplayReadRange (key_prefix : bytes) (from_lamport : Z) (limit : option Z) (cursor : option bytes)
| CmdGetFrontier
| CmdGetCausalParents (node_id_hex : bytes)
| CmdGetCanonicalResolution
| CmdComputeSyncDiff (peer_node_ids_hex : list bytes)
| CmdInspectPack (nodes_b64 : bytes)
| CmdNoop.

Record HostMapEntry := mkHostMapEntry { hme_key : bytes; hme_value : Value }.
Record TextEntry := mkTextEntry { te_id : bytes; te_ch : list Z }.
Record ListEntry := mkListEntry { le_id : bytes; le_value : Value }.
Record BlobEntry := mkBlobEntry { be_hash : bytes; be_data_b64 : bytes }.
Record BlobRedirectEntry := mkRedirect { br_hash : bytes; br_url : bytes; br_expires_at_unix : Z }.
Record PresenceEntry := mkPresenceEntry { pe_session_id : Z; pe_from_peer_pubkey : bytes; pe_data : Value; pe_expires_at_unix_ms : option Z }.
Record ConflictEntry := mkConflictEntry { ce_at_unix_ms : Z; ce_event : ConflictEvent }.
Record CanonicalMapEntry := mkCanonicalEntry { cm_key : bytes; cm_value_bytes_b64 : bytes }.

Inductive HostEvent :=
| EvRoomEnsured (room_id : bytes)
| EvSessionOpened (room_id : bytes) (session_id : Z)
| EvSessionClosed (room_id : bytes) (session_id : Z)
| EvWelcomePrepared (room_id : bytes) (session_id : Z) (negotiated : CapabilitySet) (missing_from_server_count : Z)
| EvMapValueUpserted (room_id : bytes) (namespace : bytes) (key : bytes) (value : Value)
| EvMapValueDeleted (room_id : bytes) (namespace : bytes) (key : bytes) (found : bool)
| EvMapValueRead (room_id : bytes) (namespace : bytes) (key : bytes) (value : option Value)
| EvMapEntriesListed (room_id : bytes) (namespace : bytes) (entries : list HostMapEntry)
| EvTextValueInserted (room_id : bytes) (namespace : bytes) (key : bytes) (id : bytes) (ch : list Z)
| EvTextValueDeleted (room_id : bytes) (namespace : bytes) (key : bytes) (target_id : bytes) (found : bool)
| EvTextValueRead (room_id : bytes) (namespace : bytes) (key : bytes) (value : list Z) (entries : list TextEntry)
| EvListValuePushed (room_id : bytes) (namespace : bytes) (key : bytes) (id : bytes) (index : Z) (value : Value)
| EvListValueInserted (room_id : bytes) (namespace : bytes) (key : bytes) (id : bytes) (index : Z) (value : Value)
| EvListValueDeleted (room_id : bytes) (namespace : bytes) (key : bytes) (index : Z) (found : bool) (removed : option Value)
| EvListValueMoved (room_id : bytes) (namespace : bytes) (key : bytes) (from_index : Z) (to_index : Z) (found : bool) (id : option bytes)
| EvListValueUpdated (room_id : bytes) (namespace : bytes) (key : bytes) (index : Z) (found : bool) (id : option bytes) (value : option Value)
| EvListValueRead (room_id : bytes) (namespace : bytes) (key : bytes) (entries : list ListEntry)
| EvBlobValueStored (room_id : bytes) (namespace : bytes) (hash : bytes) (stored : bool)
| EvBlobValueRead (room_id : bytes) (namespace : bytes) (hash : bytes) (found : bool) (data_b64 : option bytes)
| EvBlobValuesRead (room_id : bytes) (namespace : bytes) (entries : list BlobEntry) (missing : list bytes)
| EvUploadGranted (room_id : bytes) (namespace : bytes) (hash : bytes) (url : bytes) (expires_at_unix : Z)
| EvUploadDenied (room_id : bytes) (namespace : bytes) (hash : bytes) (reason : bytes)
| EvBlobRedirectPrepared (room_id : bytes) (namespace : bytes) (redirects : list BlobRedirectEntry)
| EvBlobPackPrepared (room_id : bytes) (namespace : bytes) (blobs : list BlobEntry) (requested : list bytes)
| EvPresenceValueSet (room_id : bytes) (session_id : Z) (from_peer_pubkey : bytes) (data : Value) (joined : bool)
| EvPresenceValueRemoved (room_id : bytes) (session_id : Z) (from_peer_pubkey : bytes) (reason : bytes)
| EvPresenceValuesListed (room_id : bytes) (entries : list PresenceEntry)
| EvSubscriptionUpdated (room_id : bytes) (session_id : Z) (patterns : list bytes)
| EvRoomLocked (room_id : bytes) (pubkey_hex : bytes)
| EvSetRoomKeyRejected (room_id : bytes) (msg : bytes)
| EvPolicySet (room_id : bytes)
| EvSetPolicyRejected (room_id : bytes) (msg : bytes)
| EvPackImported (room_id : bytes) (incoming_count : Z) (accepted_count : Z) (rejected_count : Z)
| EvServerPackPrepared (room_id : bytes) (nodes_b64 : bytes) (root_hex : bytes)
| EvMstResponsePrepared (room_id : bytes) (nodes : list Value)
| EvConflictsObserved (room_id : bytes) (entries : list ConflictEntry)
| EvRecentConflictsListed (room_id : bytes) (entries : list ConflictEntry)
| EvCheckpointPromoted (room_id : bytes) (seq : Z) (node_id_hex : bytes) (frontier_heads_hex : list bytes)
| EvFrontierQueried (room_id : bytes) (frontier_heads_hex : list bytes)
| EvCausalParentsQueried (room_id : bytes) (node_id_hex : bytes) (parent_ids_hex : list bytes) (node_found : bool)
| EvCanonicalResolutionQueried (room_id : bytes) (entries : list CanonicalMapEntry) (entry_count : Z)
| EvSyncDiffComputed (room_id : bytes) (only_in_server : list bytes) (only_in_peer : list bytes)
| EvPackInspected (node_count : Z) (external_parent_ids_hex : list bytes) (tip_node_ids_hex : list bytes)
| EvPeerSignalRelayed (room_id : bytes) (from_peer_pubkey : bytes) (msg_type : bytes) (to_peer_pubkey : bytes) (payload : Value)
| EvChildRoomCreated (child_room_id : bytes) (lineage : Value)
| EvRoomLineageDescribed (room_id : bytes) (lineage : option Value) (ancestors : list Value)
| EvChildrenListed (parent_room_id : bytes) (children : list Value)
| EvPromotionProposed (proposal_id : bytes) (parent_room_id : bytes) (child_room_id : bytes) (child_checkpoint_hash : bytes) (payload_ref : bytes) (proposal_digest : bytes)
| EvPromotionValidated (proposal_id : bytes) (validation_digest : bytes)
| EvPromotionValidationRejected (proposal_id : bytes) (reason_class : bytes) (reason_message : bytes)
| EvReplayRangeRead (room_id : bytes) (key_prefix : bytes) (from_lamport : Z) (items : list Value) (next_cursor : option bytes)
| EvReplayRangeRejected (room_id : bytes) (reason_class : bytes) (reason_message : bytes)
| EvPromotionApplied (proposal_id : bytes) (parent_room_id : bytes) (parent_new_canonical_hash : bytes) (audit_key : bytes)
| EvQuerySpecRegistered (room_id : bytes) (query_spec_id : bytes) (version : bytes) (canonical_hash : Value) (accepted : bool)
| EvQuerySpecRejected (room_id : bytes) (query_spec_id : bytes) (version : bytes) (reason_class : bytes) (reason_message : bytes)
| EvProjectionBuildCompleted (room_id : bytes) (projection_id : bytes) (checkpoint : Value) (digest : Value)
| EvProjectionBuildRejected (room_id : bytes) (projection_id : bytes) (reason_class : bytes) (reason_message : bytes)
| EvProjectionReadResult (room_id : bytes) (projection_id : bytes) (checkpoint : Value) (rows : list Value) (digest : option Value) (next_page_token : option Value)
| EvProjectionInvalidated (room_id : bytes) (projection_id : bytes) (reason : bytes) (invalidated_at_hlc : Value)
| EvProjectionListResult (room_id : bytes) (query_spec_id : option bytes) (items : list Value) (cursor : option Value)
| EvArchiveDescribed (room_id : bytes) (archive_ref : bytes) (manifest_id : bytes) (format_version : bytes) (archive_kind : bytes) (checkpoint : Value) (payload_digest_set : Value) (compatibility_window : Value) (provenance : Value)
| EvArchiveValidated (room_id : bytes) (archive_ref : bytes) (accepted : bool) (mode : bytes) (checks : list bytes) (compatibility_window : Value)
| EvArchiveValidationRejected (room_id : bytes) (archive_ref : bytes) (reason_class : bytes) (reason_message : bytes)
| EvArchiveImported (room_id : bytes) (archive_ref : bytes) (canonical_hash : bytes) (checkpoint : Value) (imported_nodes : Z) (imported_blobs : Z)
| EvArchiveImportRejected (room_id : bytes) (archive_ref : bytes) (reason_class : bytes) (reason_message : bytes)
| EvNoopAck.

Record CommandEnvelope := mkEnvelope { env_room : bytes; env_command : HostCommand }.

(** [HostCoreError]; a panic of the engine is kept apart from its errors. *)
Inductive HostCoreError :=
| InvalidCommand | RoomNotFound | SessionNotFound | SessionAlreadyOpen
| ProtocolViolation | AuthViolation | PolicyViolation | InternalInvariant.
Inductive HostFault := Failed (e : HostCoreError) | Panicked.
