(* ===== verification/TreeWalk.v ===== *)
(** The walk over tree objects (server/tree_walk.rs): from a root hash, every
    reachable tree object and file blob.

    A walk reads each object at most once, so what the blob store answers is one
    result per hash, [fetch].  The parser of JSON is a parameter; the texts of
    errors are their data. *)

From S2P Require Import Prelude Str Hex Op Gc DirStore Persist HostTypes.

Class JsonRead := json_parse : bytes → option Value.

Definition MAX_TREE_DEPTH : Z := 4096.

Inductive Malformation :=
| NotJson | NoVersion | BadShape | BadEntryHash (hex : bytes) | UnknownKind (k : bytes) | UnsupportedVersion (v : Z).
Inductive TreeWalkError :=
| MissingBlob (h : Hash)
| Malformed (h : Hash) (why : Malformation)
| TooDeep (h : Hash) (depth : Z)
| Unresolvable (h : Hash) (backend detail : bytes)
| ResolveFailed (h : Hash) (detail : bytes).

(** ** Tree objects *)

(** An entry of a version 2 object; serde also takes a struct from an array. *)
Record TreeV2Entry := mkTreeEntry { te_n : bytes; te_k : bytes; te_h : bytes }.
Definition tree_entry (v : Value) : option TreeV2Entry :=
  match v with
  | JObject _ => n ← get_str (bs "n") v; k ← get_str (bs "k") v; h ← get_str (bs "h") v; Some (mkTreeEntry n k h)
  | JArray [JString n; JString k; JString h] => Some (mkTreeEntry n k h)
  | _ => None
  end.
(** What an object adds: terminal hashes and directories to visit, in order. *)
Definition entry_hash (h : Hash) (hex : bytes) : result TreeWalkError Hash :=
  match hash_from_hex hex with Some x => Ok x | None => Err (Malformed h (BadEntryHash hex)) end.
Definition v1_entry (h : Hash) (files : list Hash) (hex : bytes) : result TreeWalkError (list Hash) :=
  match entry_hash h hex with Ok x => Ok (files ++ [x]) | Err e => Err e end.
Definition v2_entry (h : Hash) (acc : list Hash * list Hash) (e : TreeV2Entry) : result TreeWalkError (list Hash * list Hash) :=
  match entry_hash h (te_h e) with
  | Err e => Err e
  | Ok x =>
      if decide (te_k e = bs "f") then Ok (acc.1 ++ [x], acc.2)
      else if decide (te_k e = bs "d") then Ok (acc.1, acc.2 ++ [x])
      else Err (Malformed h (UnknownKind (te_k e)))
  end.
Definition string_map (v : Value) : option (list (bytes * bytes)) :=
  match v with JObject m => mapM (λ kv, (λ s, (kv.1, s)) <$> as_str kv.2) m | _ => None end.

Section walk.
Context `{JsonRead}.
Variable fetch : Hash → result HydrateError bytes.

Definition tree_object (h : Hash) (b : bytes) : result TreeWalkError (list Hash * list Hash) :=
  match json_parse b with
  | None => Err (Malformed h NotJson)
  | Some v =>
      match jget (bs "version") v ≫= as_u64 with
      | None => Err (Malformed h NoVersion)
      | Some 1 =>
          match jget (bs "entries") v ≫= string_map with
          | None => Err (Malformed h BadShape)
          | Some m => match foldl_res (v1_entry h) [] m.*2 with Ok files => Ok (files, []) | Err e => Err e end
          end
      | Some 2 =>
          match jget (bs "entries") v ≫= λ es, as_array es ≫= mapM tree_entry with
          | None => Err (Malformed h BadShape)
          | Some es => foldl_res (v2_entry h) ([], []) es
          end
      | Some n => Err (Malformed h (UnsupportedVersion n))
      end
  end.
Definition read_tree (h : Hash) : result TreeWalkError (list Hash * list Hash) :=
  match fetch h with
  | Ok b => tree_object h b
  | Err HydrateMissing => Err (MissingBlob h)
  | Err (Unhydratable backend detail) => Err (Unresolvable h backend detail)
  | Err (HydrateBackend detail) => Err (ResolveFailed h detail)
  end.

(** The work stack, its top first; [None] when the fuel is out. *)
Fixpoint walk_loop (fuel : nat) (live expanded : gset Hash) (stack : list (Hash * Z))
    : option (result TreeWalkError (gset Hash * gset Hash)) :=
  match stack with
  | [] => Some (Ok (live, expanded))
  | (h, depth) :: stack =>
      match fuel with
      | O => None
      | S fuel =>
          if decide (h ∈ expanded) then walk_loop fuel live expanded stack
          else if MAX_TREE_DEPTH <? depth then Some (Err (TooDeep h depth))
          else
            match read_tree h with
            | Err e => Some (Err e)
            | Ok (files, dirs) =>
                walk_loop fuel ({[h]} ∪ list_to_set files ∪ live) ({[h]} ∪ expanded)
                  (reverse ((λ d, (d, depth + 1)) <$> dirs) ++ stack)
            end
      end
  end.
Definition walk_tree_into (fuel : nat) (root : Hash) (live expanded : gset Hash) : option (result TreeWalkError (gset Hash * gset Hash)) :=
  walk_loop fuel live expanded [(root, 0)].
Definition walk_tree (fuel : nat) (root : Hash) : option (result TreeWalkError (gset Hash)) :=
  match walk_tree_into fuel root ∅ ∅ with
  | Some (Ok (live, _)) => Some (Ok live)
  | Some (Err e) => Some (Err e)
  | None => None
  end.

(** ** Reachability *)

Definition dir_in (h d : Hash) : Prop := ∃ files dirs, read_tree h = Ok (files, dirs) ∧ d ∈ dirs.
Definition file_in (h f : Hash) : Prop := ∃ files dirs, read_tree h = Ok (files, dirs) ∧ f ∈ files.
Definition reachable (root h : Hash) : Prop := rtc dir_in root h ∨ ∃ d, rtc dir_in root d ∧ file_in d h.
(** What has been expanded is there with all it leads to. *)
Record closed (live expanded : gset Hash) : Prop := {
  cl_live : ∀ h, h ∈ expanded → h ∈ live;
  cl_read : ∀ h, h ∈ expanded → ∃ files dirs, read_tree h = Ok (files, dirs);
  cl_files : ∀ h f, h ∈ expanded → file_in h f → f ∈ live;
  cl_dirs : ∀ h d, h ∈ expanded → dir_in h d → d ∈ expanded;
}.
Lemma closed_empty : closed ∅ ∅.
Proof. split; set_solver. Qed.
Lemma closed_reach live expanded h x : closed live expanded → h ∈ expanded → rtc dir_in h x → x ∈ expanded.
Proof. intros Hc Hh Hr. revert Hh. induction Hr as [|a b c Hab _ IH]; intros Hh; [done|]. apply IH. by eapply cl_dirs. Qed.

(** ** The walk is exact *)

(** On the way, the directories of expanded objects may still wait on the stack. *)
Record walking (root : Hash) (live0 live expanded : gset Hash) (stack : list (Hash * Z)) : Prop := {
  wk_live : ∀ h, h ∈ expanded → h ∈ live;
  wk_read : ∀ h, h ∈ expanded → ∃ files dirs, read_tree h = Ok (files, dirs);
  wk_files : ∀ h f, h ∈ expanded → file_in h f → f ∈ live;
  wk_dirs : ∀ h d, h ∈ expanded → dir_in h d → d ∈ expanded ∨ d ∈ stack.*1;
  wk_keep : live0 ⊆ live;
  wk_from : ∀ h, h ∈ live → h ∈ live0 ∨ reachable root h;
  wk_stack : ∀ h, h ∈ stack.*1 → rtc dir_in root h;
  wk_root : root ∈ expanded ∨ root ∈ stack.*1;
}.
Lemma walking_pop root live0 live expanded h depth stack :
  h ∈ expanded → walking root live0 live expanded ((h, depth) :: stack) → walking root live0 live expanded stack.
Proof.
  intros Hh [Hl Hr Hf Hd Hk Hfr Hs Hro]. split; try done; cbn in *.
  - intros x d Hx Hxd. destruct (Hd x d Hx Hxd) as [?|[->|?]%elem_of_cons]; auto.
  - intros x Hx. apply Hs. by right.
  - destruct Hro as [?|[->|?]%elem_of_cons]; auto.
Qed.
Lemma walking_expand root live0 live expanded h depth stack files dirs :
  read_tree h = Ok (files, dirs) → walking root live0 live expanded ((h, depth) :: stack) →
  walking root live0 ({[h]} ∪ list_to_set files ∪ live) ({[h]} ∪ expanded) (reverse ((λ d, (d, depth + 1)) <$> dirs) ++ stack).
Proof.
  intros E [Hl Hr Hf Hd Hk Hfr Hs Hro]. cbn in *.
  assert (rtc dir_in root h) as Hrh by (apply Hs; by left).
  assert ((reverse ((λ d, (d, depth + 1)) <$> dirs) ++ stack).*1 ≡ₚ dirs ++ stack.*1) as Ep.
  { rewrite fmap_app. apply Permutation_app_tail. rewrite reverse_Permutation, <-list_fmap_compose. cbn. by rewrite list_fmap_id. }
  assert (∀ f, file_in h f ↔ f ∈ files) as Hfile by (intros f; unfold file_in; rewrite E; naive_solver).
  assert (∀ d, dir_in h d ↔ d ∈ dirs) as Hdir by (intros d; unfold dir_in; rewrite E; naive_solver).
  split; try setoid_rewrite Ep.
  - set_solver.
  - intros x [->%elem_of_singleton|?]%elem_of_union; [by eexists _, _|by apply Hr].
  - intros x f [->%elem_of_singleton|Hx]%elem_of_union Hxf; [apply Hfile in Hxf; set_solver|]. specialize (Hf x f Hx Hxf). set_solver.
  - intros x d [->%elem_of_singleton|Hx]%elem_of_union Hxd; [apply Hdir in Hxd; set_solver|].
    destruct (Hd x d Hx Hxd) as [?|[->|?]%elem_of_cons]; set_solver.
  - set_solver.
  - intros x Hx. rewrite !elem_of_union, elem_of_singleton, elem_of_list_to_set in Hx. destruct Hx as [[->|Hx]|Hx]; [right; by left| |by apply Hfr].
    right. right. exists h. split; [done|]. by apply Hfile.
  - intros x [Hx|Hx]%elem_of_app; [|apply Hs; by right]. eapply rtc_r; [exact Hrh|]. by apply Hdir.
  - destruct Hro as [?|[->|?]%elem_of_cons]; set_solver.
Qed.
Lemma walk_loop_ok root live0 fuel live expanded stack live' expanded' :
  walking root live0 live expanded stack → walk_loop fuel live expanded stack = Some (Ok (live', expanded')) →
  walking root live0 live' expanded' [] ∧ expanded ⊆ expanded'.
Proof.
  revert live expanded stack. induction fuel as [|fuel IH]; intros live expanded [|[h depth] stack] Hw; cbn [walk_loop].
  - by intros [= <- <-].
  - done.
  - by intros [= <- <-].
  - case_decide as Hh; [by apply IH, (walking_pop _ _ _ _ h depth)|]. destruct (MAX_TREE_DEPTH <? depth); [done|].
    destruct (read_tree h) as [[files dirs]|e] eqn:E; [|done]. intros Hr. destruct (IH _ _ _ (walking_expand _ _ _ _ _ _ _ _ _ E Hw) Hr). split; [done|set_solver].
Qed.
(** An error is that of a reachable directory. *)
Lemma walk_loop_err root live0 fuel live expanded stack e :
  walking root live0 live expanded stack → walk_loop fuel live expanded stack = Some (Err e) →
  ∃ h, rtc dir_in root h ∧ ((∃ depth, e = TooDeep h depth ∧ MAX_TREE_DEPTH < depth) ∨ read_tree h = Err e).
Proof.
  revert live expanded stack. induction fuel as [|fuel IH]; intros live expanded [|[h depth] stack] Hw; cbn [walk_loop]; try done.
  case_decide as Hh; [by apply IH, (walking_pop _ _ _ _ h depth)|]. assert (rtc dir_in root h) as Hrh by (apply Hw; by left).
  destruct (Z.ltb_spec MAX_TREE_DEPTH depth); [intros [= <-]; exists h; split; [done|]; left; by eexists|].
  destruct (read_tree h) as [[files dirs]|e'] eqn:E; [|intros [= <-]; exists h; auto]. by apply IH, walking_expand.
Qed.

Lemma walk_started root live expanded : closed live expanded → walking root live live expanded [(root, 0)].
Proof.
  intros [Hl Hr Hf Hd]. split; try done; cbn; auto.
  - intros h d Hh Hd'. left. by eapply Hd.
  - intros h [->|?%elem_of_nil]%elem_of_cons; done.
  - right. by left.
Qed.
Lemma walk_into_exact root fuel live expanded live' expanded' :
  closed live expanded → walk_tree_into fuel root live expanded = Some (Ok (live', expanded')) →
  closed live' expanded' ∧ (∀ h, h ∈ live' ↔ h ∈ live ∨ reachable root h).
Proof.
  intros Hc Hw. destruct (walk_loop_ok root live fuel live expanded _ live' expanded' (walk_started root live expanded Hc) Hw) as [[Hl Hr Hf Hd Hk Hfr _ Hro] Hsub].
  assert (closed live' expanded') as Hc'.
  { split; try done. intros h d Hh Hhd. by destruct (Hd h d Hh Hhd) as [?|?%elem_of_nil]. }
  split; [done|]. intros h. split; [apply Hfr|]. intros [?|[Hre|(d&Hre&Hfi)]]; [by apply Hk|..].
  - apply Hl. eapply closed_reach; [done| |exact Hre]. by destruct Hro as [?|?%elem_of_nil].
  - eapply Hf; [|exact Hfi]. eapply closed_reach; [done| |exact Hre]. by destruct Hro as [?|?%elem_of_nil].
Qed.

(** *** Termination *)

(** Enough fuel for a walk when only the hashes in [F] can be read: every step pops
    an entry or reads a new object. *)
Lemma walk_loop_total (F : gset Hash) (B : nat) live expanded stack :
  (∀ h files dirs, read_tree h = Ok (files, dirs) → h ∈ F ∧ (length dirs <= B)%nat) →
  ∀ fuel, (length stack + size (F ∖ expanded) * S B <= fuel)%nat → is_Some (walk_loop fuel live expanded stack).
Proof.
  intros HF fuel. revert live expanded stack. induction fuel as [|fuel IH]; intros live expanded [|[h depth] stack] Hf; cbn [walk_loop length] in *; try by eexists.
  { lia. }
  case_decide as Hh; [apply IH; lia|]. destruct (MAX_TREE_DEPTH <? depth); [by eexists|].
  destruct (read_tree h) as [[files dirs]|e] eqn:E; [|by eexists]. destruct (HF _ _ _ E) as [Hin Hlen]. apply IH.
  rewrite length_app, length_reverse, length_fmap. assert (size (F ∖ expanded) = S (size (F ∖ ({[h]} ∪ expanded)))) as Es; [|rewrite Es in Hf; lia].
  assert (F ∖ expanded = {[h]} ∪ F ∖ ({[h]} ∪ expanded)) as ->.
  { apply set_eq. intros x. destruct (decide (x = h)) as [->|]; set_solver. }
  rewrite size_union by set_solver. by rewrite size_singleton.
Qed.
End walk.
