(* ===== verification/HostState.v ===== *)
(** The state of the host engine (host-core engine.rs, [HostEngine]) and the pure
    helpers of its commands. *)

From S2P Require Import Prelude Str StErr Hex Op Node Policy Frontier Storage Conflicts Fenwick.
From S2P Require Import TextState Text Graph Replay Mst HostTypes.

(** ** State *)

Record SessionState := mkSession { ss_room_id : bytes; ss_peer_pubkey_hex : bytes }.
Record TextCharState := mkTextChar {
  tc_id : bytes;
  tc_after_id : option bytes;
  tc_ch : Z;
  tc_tombstoned : bool;
}.
Record ListItemState := mkListItem { li_id : bytes; li_value : Value }.
Record PresenceState := mkPresence {
  ps_from_peer_pubkey : bytes;
  ps_data : Value;
  ps_expires_at_unix_ms : option Z;
}.
Record PromotionState := mkPromotion {
  pr_parent_room_id : bytes;
  pr_child_room_id : bytes;
  pr_child_checkpoint_hash : bytes;
  pr_payload_ref : bytes;
  pr_proposal_digest : bytes;
  pr_validated : bool;
  pr_applied : bool;
}.
Record QuerySpecState := mkQuerySpec { qs_version : bytes; qs_descriptor : Value }.
Record ProjectionState := mkProjection {
  pj_query_spec_id : bytes;
  pj_checkpoint : Value;
  pj_rows : list Value;
  pj_digest : bytes;
  pj_invalidated : bool;
  pj_invalidation_reason : option bytes;
}.
Record CanonicalSnapshotState := mkCanonicalSnapshot {
  sn_sequence : Z;
  sn_rows : gmap bytes Value;
  sn_canonical_hash : bytes;
  sn_frontier : list bytes;
}.

Definition CONFLICT_HISTORY_LIMIT : nat := 256.
Abbreviation HostGraph := (StateGraph MemoryNodeStore TextProjection).
Abbreviation Fingerprint := (ConflictKind * bytes * Z * PublicKey * Z * PublicKey)%type.

(** [HostEngine].  The last field is the reading of the system clock; the URL
    resolver is a parameter of the commands that ask it. *)
Record HostEngine := mkHost {
  rooms : gset bytes;
  sessions : gmap Z SessionState;
  room_maps : gmap bytes (gmap bytes Value);
  room_texts : gmap bytes (gmap bytes (list TextCharState));
  room_text_next_id : gmap bytes Z;
  room_lists : gmap bytes (gmap bytes (list ListItemState));
  room_list_next_id : gmap bytes Z;
  room_blobs : gmap bytes (gmap bytes bytes);
  room_presence : gmap bytes (gmap Z PresenceState);
  room_subscriptions : gmap bytes (gmap Z (list bytes));
  room_auth_keys : gmap bytes bytes;
  room_policies : gmap bytes Policy;
  room_sync_graphs : gmap bytes HostGraph;
  room_conflict_fingerprints : gmap bytes (list Fingerprint);
  room_conflict_history : gmap bytes (list ConflictEntry);
  topology_promotions : gmap bytes PromotionState;
  room_query_specs : gmap bytes (gmap bytes QuerySpecState);
  room_projections : gmap bytes (gmap bytes ProjectionState);
  room_canonical_rows : gmap bytes (gmap bytes Value);
  room_canonical_seq : gmap bytes Z;
  room_canonical_snapshots : gmap bytes (gmap Z CanonicalSnapshotState);
  room_canonical_hash_index : gmap bytes (gmap bytes Z);
  server_caps : CapabilitySet;
  clock_ms : Z;
}.
Definition host_default : HostEngine :=
  mkHost ∅ ∅ ∅ ∅ ∅ ∅ ∅ ∅ ∅ ∅ ∅ ∅ ∅ ∅ ∅ ∅ ∅ ∅ ∅ ∅ ∅ ∅ caps_default 0.

Definition set_rooms (s : HostEngine) (x : gset bytes) : HostEngine :=
  mkHost x (sessions s) (room_maps s) (room_texts s) (room_text_next_id s) (room_lists s) (room_list_next_id s)
    (room_blobs s) (room_presence s) (room_subscriptions s) (room_auth_keys s) (room_policies s)
    (room_sync_graphs s) (room_conflict_fingerprints s) (room_conflict_history s) (topology_promotions s)
    (room_query_specs s) (room_projections s) (room_canonical_rows s) (room_canonical_seq s)
    (room_canonical_snapshots s) (room_canonical_hash_index s) (server_caps s) (clock_ms s).
Definition set_sessions (s : HostEngine) (x : gmap Z SessionState) : HostEngine :=
  mkHost (rooms s) x (room_maps s) (room_texts s) (room_text_next_id s) (room_lists s) (room_list_next_id s)
    (room_blobs s) (room_presence s) (room_subscriptions s) (room_auth_keys s) (room_policies s)
    (room_sync_graphs s) (room_conflict_fingerprints s) (room_conflict_history s) (topology_promotions s)
    (room_query_specs s) (room_projections s) (room_canonical_rows s) (room_canonical_seq s)
    (room_canonical_snapshots s) (room_canonical_hash_index s) (server_caps s) (clock_ms s).
Definition set_room_maps (s : HostEngine) (x : gmap bytes (gmap bytes Value)) : HostEngine :=
  mkHost (rooms s) (sessions s) x (room_texts s) (room_text_next_id s) (room_lists s) (room_list_next_id s)
    (room_blobs s) (room_presence s) (room_subscriptions s) (room_auth_keys s) (room_policies s)
    (room_sync_graphs s) (room_conflict_fingerprints s) (room_conflict_history s) (topology_promotions s)
    (room_query_specs s) (room_projections s) (room_canonical_rows s) (room_canonical_seq s)
    (room_canonical_snapshots s) (room_canonical_hash_index s) (server_caps s) (clock_ms s).
Definition set_room_texts (s : HostEngine) (x : gmap bytes (gmap bytes (list TextCharState))) : HostEngine :=
  mkHost (rooms s) (sessions s) (room_maps s) x (room_text_next_id s) (room_lists s) (room_list_next_id s)
    (room_blobs s) (room_presence s) (room_subscriptions s) (room_auth_keys s) (room_policies s)
    (room_sync_graphs s) (room_conflict_fingerprints s) (room_conflict_history s) (topology_promotions s)
    (room_query_specs s) (room_projections s) (room_canonical_rows s) (room_canonical_seq s)
    (room_canonical_snapshots s) (room_canonical_hash_index s) (server_caps s) (clock_ms s).
Definition set_room_text_next_id (s : HostEngine) (x : gmap bytes Z) : HostEngine :=
  mkHost (rooms s) (sessions s) (room_maps s) (room_texts s) x (room_lists s) (room_list_next_id s) (room_blobs s)
    (room_presence s) (room_subscriptions s) (room_auth_keys s) (room_policies s) (room_sync_graphs s)
    (room_conflict_fingerprints s) (room_conflict_history s) (topology_promotions s) (room_query_specs s)
    (room_projections s) (room_canonical_rows s) (room_canonical_seq s) (room_canonical_snapshots s)
    (room_canonical_hash_index s) (server_caps s) (clock_ms s).
Definition set_room_lists (s : HostEngine) (x : gmap bytes (gmap bytes (list ListItemState))) : HostEngine :=
  mkHost (rooms s) (sessions s) (room_maps s) (room_texts s) (room_text_next_id s) x (room_list_next_id s)
    (room_blobs s) (room_presence s) (room_subscriptions s) (room_auth_keys s) (room_policies s)
    (room_sync_graphs s) (room_conflict_fingerprints s) (room_conflict_history s) (topology_promotions s)
    (room_query_specs s) (room_projections s) (room_canonical_rows s) (room_canonical_seq s)
    (room_canonical_snapshots s) (room_canonical_hash_index s) (server_caps s) (clock_ms s).
Definition set_room_list_next_id (s : HostEngine) (x : gmap bytes Z) : HostEngine :=
  mkHost (rooms s) (sessions s) (room_maps s) (room_texts s) (room_text_next_id s) (room_lists s) x (room_blobs s)
    (room_presence s) (room_subscriptions s) (room_auth_keys s) (room_policies s) (room_sync_graphs s)
    (room_conflict_fingerprints s) (room_conflict_history s) (topology_promotions s) (room_query_specs s)
    (room_projections s) (room_canonical_rows s) (room_canonical_seq s) (room_canonical_snapshots s)
    (room_canonical_hash_index s) (server_caps s) (clock_ms s).
Definition set_room_blobs (s : HostEngine) (x : gmap bytes (gmap bytes bytes)) : HostEngine :=
  mkHost (rooms s) (sessions s) (room_maps s) (room_texts s) (room_text_next_id s) (room_lists s)
    (room_list_next_id s) x (room_presence s) (room_subscriptions s) (room_auth_keys s) (room_policies s)
    (room_sync_graphs s) (room_conflict_fingerprints s) (room_conflict_history s) (topology_promotions s)
    (room_query_specs s) (room_projections s) (room_canonical_rows s) (room_canonical_seq s)
    (room_canonical_snapshots s) (room_canonical_hash_index s) (server_caps s) (clock_ms s).
Definition set_room_presence (s : HostEngine) (x : gmap bytes (gmap Z PresenceState)) : HostEngine :=
  mkHost (rooms s) (sessions s) (room_maps s) (room_texts s) (room_text_next_id s) (room_lists s)
    (room_list_next_id s) (room_blobs s) x (room_subscriptions s) (room_auth_keys s) (room_policies s)
    (room_sync_graphs s) (room_conflict_fingerprints s) (room_conflict_history s) (topology_promotions s)
    (room_query_specs s) (room_projections s) (room_canonical_rows s) (room_canonical_seq s)
    (room_canonical_snapshots s) (room_canonical_hash_index s) (server_caps s) (clock_ms s).
Definition set_room_subscriptions (s : HostEngine) (x : gmap bytes (gmap Z (list bytes))) : HostEngine :=
  mkHost (rooms s) (sessions s) (room_maps s) (room_texts s) (room_text_next_id s) (room_lists s)
    (room_list_next_id s) (room_blobs s) (room_presence s) x (room_auth_keys s) (room_policies s)
    (room_sync_graphs s) (room_conflict_fingerprints s) (room_conflict_history s) (topology_promotions s)
    (room_query_specs s) (room_projections s) (room_canonical_rows s) (room_canonical_seq s)
    (room_canonical_snapshots s) (room_canonical_hash_index s) (server_caps s) (clock_ms s).
Definition set_room_auth_keys (s : HostEngine) (x : gmap bytes bytes) : HostEngine :=
  mkHost (rooms s) (sessions s) (room_maps s) (room_texts s) (room_text_next_id s) (room_lists s)
    (room_list_next_id s) (room_blobs s) (room_presence s) (room_subscriptions s) x (room_policies s)
    (room_sync_graphs s) (room_conflict_fingerprints s) (room_conflict_history s) (topology_promotions s)
    (room_query_specs s) (room_projections s) (room_canonical_rows s) (room_canonical_seq s)
    (room_canonical_snapshots s) (room_canonical_hash_index s) (server_caps s) (clock_ms s).
Definition set_room_policies (s : HostEngine) (x : gmap bytes Policy) : HostEngine :=
  mkHost (rooms s) (sessions s) (room_maps s) (room_texts s) (room_text_next_id s) (room_lists s)
    (room_list_next_id s) (room_blobs s) (room_presence s) (room_subscriptions s) (room_auth_keys s) x
    (room_sync_graphs s) (room_conflict_fingerprints s) (room_conflict_history s) (topology_promotions s)
    (room_query_specs s) (room_projections s) (room_canonical_rows s) (room_canonical_seq s)
    (room_canonical_snapshots s) (room_canonical_hash_index s) (server_caps s) (clock_ms s).
Definition set_room_sync_graphs (s : HostEngine) (x : gmap bytes HostGraph) : HostEngine :=
  mkHost (rooms s) (sessions s) (room_maps s) (room_texts s) (room_text_next_id s) (room_lists s)
    (room_list_next_id s) (room_blobs s) (room_presence s) (room_subscriptions s) (room_auth_keys s)
    (room_policies s) x (room_conflict_fingerprints s) (room_conflict_history s) (topology_promotions s)
    (room_query_specs s) (room_projections s) (room_canonical_rows s) (room_canonical_seq s)
    (room_canonical_snapshots s) (room_canonical_hash_index s) (server_caps s) (clock_ms s).
Definition set_room_conflict_fingerprints (s : HostEngine) (x : gmap bytes (list Fingerprint)) : HostEngine :=
  mkHost (rooms s) (sessions s) (room_maps s) (room_texts s) (room_text_next_id s) (room_lists s)
    (room_list_next_id s) (room_blobs s) (room_presence s) (room_subscriptions s) (room_auth_keys s)
    (room_policies s) (room_sync_graphs s) x (room_conflict_history s) (topology_promotions s) (room_query_specs s)
    (room_projections s) (room_canonical_rows s) (room_canonical_seq s) (room_canonical_snapshots s)
    (room_canonical_hash_index s) (server_caps s) (clock_ms s).
Definition set_room_conflict_history (s : HostEngine) (x : gmap bytes (list ConflictEntry)) : HostEngine :=
  mkHost (rooms s) (sessions s) (room_maps s) (room_texts s) (room_text_next_id s) (room_lists s)
    (room_list_next_id s) (room_blobs s) (room_presence s) (room_subscriptions s) (room_auth_keys s)
    (room_policies s) (room_sync_graphs s) (room_conflict_fingerprints s) x (topology_promotions s)
    (room_query_specs s) (room_projections s) (room_canonical_rows s) (room_canonical_seq s)
    (room_canonical_snapshots s) (room_canonical_hash_index s) (server_caps s) (clock_ms s).
Definition set_topology_promotions (s : HostEngine) (x : gmap bytes PromotionState) : HostEngine :=
  mkHost (rooms s) (sessions s) (room_maps s) (room_texts s) (room_text_next_id s) (room_lists s)
    (room_list_next_id s) (room_blobs s) (room_presence s) (room_subscriptions s) (room_auth_keys s)
    (room_policies s) (room_sync_graphs s) (room_conflict_fingerprints s) (room_conflict_history s) x
    (room_query_specs s) (room_projections s) (room_canonical_rows s) (room_canonical_seq s)
    (room_canonical_snapshots s) (room_canonical_hash_index s) (server_caps s) (clock_ms s).
Definition set_room_query_specs (s : HostEngine) (x : gmap bytes (gmap bytes QuerySpecState)) : HostEngine :=
  mkHost (rooms s) (sessions s) (room_maps s) (room_texts s) (room_text_next_id s) (room_lists s)
    (room_list_next_id s) (room_blobs s) (room_presence s) (room_subscriptions s) (room_auth_keys s)
    (room_policies s) (room_sync_graphs s) (room_conflict_fingerprints s) (room_conflict_history s)
    (topology_promotions s) x (room_projections s) (room_canonical_rows s) (room_canonical_seq s)
    (room_canonical_snapshots s) (room_canonical_hash_index s) (server_caps s) (clock_ms s).
Definition set_room_projections (s : HostEngine) (x : gmap bytes (gmap bytes ProjectionState)) : HostEngine :=
  mkHost (rooms s) (sessions s) (room_maps s) (room_texts s) (room_text_next_id s) (room_lists s)
    (room_list_next_id s) (room_blobs s) (room_presence s) (room_subscriptions s) (room_auth_keys s)
    (room_policies s) (room_sync_graphs s) (room_conflict_fingerprints s) (room_conflict_history s)
    (topology_promotions s) (room_query_specs s) x (room_canonical_rows s) (room_canonical_seq s)
    (room_canonical_snapshots s) (room_canonical_hash_index s) (server_caps s) (clock_ms s).
Definition set_room_canonical_rows (s : HostEngine) (x : gmap bytes (gmap bytes Value)) : HostEngine :=
  mkHost (rooms s) (sessions s) (room_maps s) (room_texts s) (room_text_next_id s) (room_lists s)
    (room_list_next_id s) (room_blobs s) (room_presence s) (room_subscriptions s) (room_auth_keys s)
    (room_policies s) (room_sync_graphs s) (room_conflict_fingerprints s) (room_conflict_history s)
    (topology_promotions s) (room_query_specs s) (room_projections s) x (room_canonical_seq s)
    (room_canonical_snapshots s) (room_canonical_hash_index s) (server_caps s) (clock_ms s).
Definition set_room_canonical_seq (s : HostEngine) (x : gmap bytes Z) : HostEngine :=
  mkHost (rooms s) (sessions s) (room_maps s) (room_texts s) (room_text_next_id s) (room_lists s)
    (room_list_next_id s) (room_blobs s) (room_presence s) (room_subscriptions s) (room_auth_keys s)
    (room_policies s) (room_sync_graphs s) (room_conflict_fingerprints s) (room_conflict_history s)
    (topology_promotions s) (room_query_specs s) (room_projections s) (room_canonical_rows s) x
    (room_canonical_snapshots s) (room_canonical_hash_index s) (server_caps s) (clock_ms s).
Definition set_room_canonical_snapshots (s : HostEngine) (x : gmap bytes (gmap Z CanonicalSnapshotState)) : HostEngine :=
  mkHost (rooms s) (sessions s) (room_maps s) (room_texts s) (room_text_next_id s) (room_lists s)
    (room_list_next_id s) (room_blobs s) (room_presence s) (room_subscriptions s) (room_auth_keys s)
    (room_policies s) (room_sync_graphs s) (room_conflict_fingerprints s) (room_conflict_history s)
    (topology_promotions s) (room_query_specs s) (room_projections s) (room_canonical_rows s) (room_canonical_seq s)
    x (room_canonical_hash_index s) (server_caps s) (clock_ms s).
Definition set_room_canonical_hash_index (s : HostEngine) (x : gmap bytes (gmap bytes Z)) : HostEngine :=
  mkHost (rooms s) (sessions s) (room_maps s) (room_texts s) (room_text_next_id s) (room_lists s)
    (room_list_next_id s) (room_blobs s) (room_presence s) (room_subscriptions s) (room_auth_keys s)
    (room_policies s) (room_sync_graphs s) (room_conflict_fingerprints s) (room_conflict_history s)
    (topology_promotions s) (room_query_specs s) (room_projections s) (room_canonical_rows s) (room_canonical_seq s)
    (room_canonical_snapshots s) x (server_caps s) (clock_ms s).

Definition set_clock_ms (s : HostEngine) (x : Z) : HostEngine :=
  mkHost (rooms s) (sessions s) (room_maps s) (room_texts s) (room_text_next_id s) (room_lists s) (room_list_next_id s)
    (room_blobs s) (room_presence s) (room_subscriptions s) (room_auth_keys s) (room_policies s)
    (room_sync_graphs s) (room_conflict_fingerprints s) (room_conflict_history s) (topology_promotions s)
    (room_query_specs s) (room_projections s) (room_canonical_rows s) (room_canonical_seq s)
    (room_canonical_snapshots s) (room_canonical_hash_index s) (server_caps s) x.

(** [map.entry(k).or_default()], and the same followed by an update in place. *)
Definition touch {V} (d : V) (k : bytes) (m : gmap bytes V) : gmap bytes V := <[k := default d (m !! k)]> m.
Definition entry {V} (d : V) (k : bytes) (f : V → V) (m : gmap bytes V) : gmap bytes V :=
  <[k := f (default d (m !! k))]> m.

(** ** Subscriptions *)

Definition normalize_subscription_patterns (patterns : list bytes) : list bytes :=
  let cleaned := filter (λ p, p ≠ []) (trim <$> patterns) in
  if decide (cleaned = [] ∨ bs "**" ∈ cleaned) then [bs "**"] else cleaned.

(** The positions behind every slash of a path. *)
Fixpoint seek_slash (f : bytes → bool) (path : bytes) : bool :=
  match path with
  | [] => false
  | c :: t => if c =? ch_slash then f t || seek_slash f t else seek_slash f t
  end.
(** [glob_match]; the recursion is on the pattern. *)
Fixpoint glob_match (pattern path : bytes) {struct pattern} : bool :=
  match pattern with
  | [] => match path with [] => true | _ => false end
  | c :: p1 =>
      let literal := match path with [] => false | x :: t => if x =? c then glob_match p1 t else false end in
      if c =? ch_slash then
        match p1 with
        | a :: b :: p3 =>
            if (a =? ch_star) && (b =? ch_star) then
              match p3 with
              | [] => match path with [] => true | x :: _ => x =? ch_slash end
              | d :: p4 =>
                  if d =? ch_slash then
                    match path with
                    | [] => false
                    | x :: t => if x =? ch_slash then glob_match p4 t || seek_slash (λ u, glob_match p4 u) t else false
                    end
                  else literal
              end
            else literal
        | _ => literal
        end
      else if c =? ch_star then
        match p1 with
        | b :: p2 =>
            if b =? ch_star then
              match p2 with
              | [] => true
              | d :: p3 =>
                  (if d =? ch_slash then glob_match p3 path else false)
                  || try_every_suffix (λ u, glob_match p2 u) path
              end
            else try_segment_suffix (λ u, glob_match p1 u) path
        | [] => try_segment_suffix (λ u, glob_match p1 u) path
        end
      else literal
  end.
Definition subscription_matches_path (patterns : list bytes) (path : bytes) : bool :=
  bool_decide (bs "**" ∈ patterns) || existsb (λ p, glob_match p path) patterns.
Definition subscription_accepts_node (n : SyncNode) (patterns : list bytes) : bool :=
  let ops := tx_ops (node_tx n) in
  bool_decide (bs "**" ∈ patterns) || bool_decide (ops = [])
  || existsb (λ o, match op_key o with
                   | None => false
                   | Some k => bool_decide (head k = Some 0) || subscription_matches_path patterns k
                   end) ops.

(** ** Keys and ids *)

Definition scoped_map_key (namespace key : bytes) : bytes :=
  match namespace with [] => key | _ => namespace ++ bs "/" ++ key end.
Definition strip_namespace_from_scoped_key (namespace scoped_key : bytes) : option bytes :=
  match namespace with [] => Some scoped_key | _ => strip_prefix (namespace ++ bs "/") scoped_key end.

(** The counters of [next_text_id] and [next_list_id]; 2^64 insertions into one
    room do not happen. *)
Definition next_id (prefix : bytes) (room_id : bytes) (m : gmap bytes Z) : bytes * gmap bytes Z :=
  let next := default 0 (m !! room_id) + 1 in (prefix ++ decimal next, <[room_id := next]> m).

(** ** Text

    [text_entries_in_rga_order]: the children of every anchor in descending order of
    their ids, walked depth first with a stack; every step takes one id off the
    stack, so the number of characters bounds the steps. *)
Definition text_children (chars : list TextCharState) (anchor : option bytes) : list bytes :=
  reverse (sort (tc_id <$> filter (λ st, tc_after_id st = anchor) chars)).
(** [id_to_state]: a later entry replaces an earlier one. *)
Definition text_state (chars : list TextCharState) (id : bytes) : option TextCharState :=
  last (filter (λ st, tc_id st = id) chars).
Fixpoint rga_walk (fuel : nat) (chars : list TextCharState) (stack : list bytes) : list TextEntry :=
  match fuel, stack with
  | S fuel, id :: stack =>
      (match text_state chars id with
       | Some st => if tc_tombstoned st then [] else [mkTextEntry (tc_id st) [tc_ch st]]
       | None => []
       end) ++ rga_walk fuel chars (text_children chars (Some id) ++ stack)
  | _, _ => []
  end.
Definition text_entries_in_rga_order (chars : list TextCharState) : list TextEntry :=
  rga_walk (length chars) chars (text_children chars None).
Definition text_string_from_entries (entries : list TextEntry) : list Z := entries ≫= λ e, take 1 (te_ch e).

(** ** Canonical checkpoints *)

(** [offset:<n>] tokens. *)
Definition parse_offset (token : option bytes) : Z :=
  default 0 (token ≫= λ t, (strip_prefix (bs "offset:") t) ≫= parse_u64).
Definition is_hex64 (s : bytes) : bool :=
  (Z.of_nat (length s) =? 64) && forallb (λ b, bool_decide (is_Some (hex_nibble b))) s.

(** [room_latest_snapshot]. *)
Definition latest_of (snaps : gmap Z CanonicalSnapshotState) (seq : Z) : option CanonicalSnapshotState :=
  match snaps !! seq with Some s => Some s | None => snaps !! 0 end.
Definition room_latest_snapshot (room_id : bytes) (s : HostEngine) : option CanonicalSnapshotState :=
  snaps ← room_canonical_snapshots s !! room_id; latest_of snaps (default 0 (room_canonical_seq s !! room_id)).

Inductive CheckpointResolution :=
| CrResolved (seq : Z) (snapshot : CanonicalSnapshotState)
| CrSelectorInvalid
| CrNotFound.
Definition frontier_valid (t : option Value) : bool :=
  match (t ≫= jget (bs "frontier")) ≫= as_array with
  | None | Some [] => false
  | Some tokens =>
      forallb (λ v, bool_decide (is_Some (as_str v ≫= λ x, (strip_prefix (bs "seq:") x) ≫= parse_u64))) tokens
  end.
Definition resolve_canonical_checkpoint (room_id : bytes) (target : option Value) (s : HostEngine) : CheckpointResolution :=
  let snapshots := room_canonical_snapshots s !! room_id in
  let selector := default (bs "latest") (target ≫= get_str (bs "selector")) in
  let finish := λ selected : option CanonicalSnapshotState,
    match selected with Some x => CrResolved (sn_sequence x) x | None => CrNotFound end in
  if eq_ignore_ascii_case selector (bs "seq") then
    match (target ≫= jget (bs "canonical_seq")) ≫= as_u64 with
    | None => CrSelectorInvalid
    | Some seq => finish (snapshots ≫= λ m, m !! seq)
    end
  else if eq_ignore_ascii_case selector (bs "hash") then
    match target ≫= get_str (bs "canonical_hash") with
    | None => CrSelectorInvalid
    | Some h =>
        if negb (is_hex64 h) then CrSelectorInvalid
        else finish (seq ← (room_canonical_hash_index s !! room_id ≫= λ m, m !! h); snapshots ≫= λ m, m !! seq)
    end
  else if eq_ignore_ascii_case selector (bs "frontier") then
    if frontier_valid target then finish (room_latest_snapshot room_id s) else CrSelectorInvalid
  else if eq_ignore_ascii_case selector (bs "latest") then finish (room_latest_snapshot room_id s)
  else CrSelectorInvalid.
