(* ===== verification/Host.v ===== *)
(** The commands of the host engine (host-core engine.rs, [HostEngine::apply]): one
    definition per arm, composed by [apply] at the end.

    A command may change the state and still report an error, as the entries
    that [or_default] creates do, so the state survives an error. *)

From S2P Require Import Prelude Str StErr Hex Op Node Policy Frontier Storage Conflicts Fenwick.
From S2P Require Import TextState Text Graph Replay Token Mst HostTypes HostState.

(** The injected resolver of presigned URLs. *)
Record PresignedBlobUrl := mkUrl { pu_url : bytes; pu_expires_at_unix : Z }.
Record HostBlobUrlResolver := mkResolver {
  resolve_put_url : bytes → bytes → bytes → Z → option bytes → option PresignedBlobUrl;
  resolve_get_url : bytes → bytes → bytes → option PresignedBlobUrl;
}.
Class BlobUrls := blob_url_resolver : option HostBlobUrlResolver.

Section host.
Context `{Blake3, Postcard Transaction, Postcard (list WireNode), Ed25519, Json, BlobUrls}.
Implicit Types (s : HostEngine) (room namespace key : bytes).

Abbreviation HM := (SE HostEngine HostFault).
Abbreviation Events := (list HostEvent).
Definition fail {A : Type} (e : HostCoreError) : HM A := throw (Failed e).
Definition require (b : bool) (e : HostCoreError) : HM unit := if b then mret tt else fail e.
Definition require_room room : HM unit :=
  known ← read rooms; require (bool_decide (room ∈ known)) RoomNotFound.
Definition nonempty (b : bytes) : bool := negb (bool_decide (b = [])).

(** ** Rooms and sessions *)

(** The bytes of a row: strings raw, anything else printed. *)
Definition value_bytes (v : Value) : bytes := match v with JString x => x | _ => json_print v end.
Definition content_canonical_hash (rows : gmap bytes Value) : bytes := to_hex (canonical_hash (value_bytes <$> rows)).
Definition deterministic_hex64 (input : bytes) : bytes := to_hex (hash_of input).
Definition seq_token (n : Z) : bytes := bs "seq:" ++ decimal n.

Definition empty_graph : HostGraph := graph_with_store ∅.

(** The containers [EnsureRoom] and [CreateTopologyChild] have in common. *)
Definition init_room room s : HostEngine :=
  let s := set_rooms s ({[room]} ∪ rooms s) in
  let s := set_room_maps s (touch ∅ room (room_maps s)) in
  let s := set_room_texts s (touch ∅ room (room_texts s)) in
  let s := set_room_lists s (touch ∅ room (room_lists s)) in
  let s := set_room_blobs s (touch ∅ room (room_blobs s)) in
  let s := set_room_presence s (touch ∅ room (room_presence s)) in
  let s := set_room_subscriptions s (touch ∅ room (room_subscriptions s)) in
  let s := set_room_policies s (touch policy_default room (room_policies s)) in
  let s := set_room_sync_graphs s (entry empty_graph room (λ g, set_conflict_stream_enabled g true) (room_sync_graphs s)) in
  let s := set_room_conflict_fingerprints s (touch [] room (room_conflict_fingerprints s)) in
  set_room_conflict_history s (touch [] room (room_conflict_history s)).
Definition init_canonical room s : HostEngine :=
  let s := set_room_query_specs s (touch ∅ room (room_query_specs s)) in
  let s := set_room_projections s (touch ∅ room (room_projections s)) in
  let s := set_room_canonical_rows s (touch ∅ room (room_canonical_rows s)) in
  let s := set_room_canonical_seq s (touch 0 room (room_canonical_seq s)) in
  let initial_hash := content_canonical_hash ∅ in
  let s := set_room_canonical_snapshots s (entry ∅ room (λ m,
    <[0 := default (mkCanonicalSnapshot 0 ∅ initial_hash [seq_token 0]) (m !! 0)]> m) (room_canonical_snapshots s)) in
  set_room_canonical_hash_index s (entry ∅ room (touch 0 initial_hash) (room_canonical_hash_index s)).

Definition ensure_room room : HM Events :=
  _ ← modify (λ s, init_canonical room (init_room room s)); mret [EvRoomEnsured room].
Definition open_session room (session_id : Z) (peer : bytes) : HM Events :=
  _ ← require_room room;
  ss ← read sessions;
  _ ← require (bool_decide (ss !! session_id = None)) SessionAlreadyOpen;
  _ ← modify (λ s, set_sessions s (<[session_id := mkSession room peer]> (sessions s)));
  mret [EvSessionOpened room session_id].
(** The room is that of the session, not that of the envelope. *)
Definition close_session (session_id : Z) : HM Events :=
  ss ← read sessions;
  match ss !! session_id with
  | None => fail SessionNotFound
  | Some st =>
      let room := ss_room_id st in
      _ ← modify (λ s, set_sessions s (delete session_id (sessions s)));
      pres ← read room_presence;
      let removed := pres !! room ≫= λ m, m !! session_id in
      _ ← modify (λ s, set_room_presence s (alter (delete session_id) room (room_presence s)));
      _ ← modify (λ s, set_room_subscriptions s (alter (delete session_id) room (room_subscriptions s)));
      mret (EvSessionClosed room session_id ::
        match removed with
        | Some p => [EvPresenceValueRemoved room session_id (ps_from_peer_pubkey p) (bs "leave")]
        | None => []
        end)
  end.
(** The session of a command, which must belong to the room of the envelope. *)
Definition session_of room (session_id : Z) : HM SessionState :=
  ss ← read sessions;
  match ss !! session_id with
  | None => fail SessionNotFound
  | Some st => _ ← require (bool_decide (ss_room_id st = room)) ProtocolViolation; mret st
  end.

Definition parse_hex_32 (s : bytes) : option bytes := hex_to_array 32 s.

(** The token check of a locked room. *)
Definition check_hello_token room (room_key : bytes) (hello : ClientHelloPayload) : HM unit :=
  match ch_token hello with
  | None => fail AuthViolation
  | Some token =>
      match parse_hex_32 (ch_peer_pubkey_hex hello) with
      | None => fail AuthViolation
      | Some peer =>
          _ ← require (ed_vk_ok room_key) InternalInvariant;
          match token_from_wire (ht_peer_pubkey token) (ht_expiry token) (ht_caps token) (ht_sig token) with
          | Err _ => fail AuthViolation
          | Ok t =>
              now ← read clock_ms;
              match token_verify t room room_key peer (now / 1000) with
              | Err _ => fail AuthViolation
              | Ok _ => mret tt
              end
          end
      end
  end.
Definition client_hello room (session_id : Z) (hello : ClientHelloPayload) : HM Events :=
  st ← session_of room session_id;
  _ ← require (bool_decide (ss_peer_pubkey_hex st = ch_peer_pubkey_hex hello)) ProtocolViolation;
  keys ← read room_auth_keys;
  _ ← match keys !! room with None => mret tt | Some k => check_hello_token room k hello end;
  caps ← read server_caps;
  let client := ch_capabilities hello in
  mret [EvWelcomePrepared room session_id
    (mkCaps (supports_ibf caps && supports_ibf client) (supports_mst caps && supports_mst client)) 0].

(** ** Maps

    The rows of the canonical checkpoint are keyed by the bare key, the map by the
    key with its namespace. *)

(** A new checkpoint of the rows: the next sequence number, a snapshot and an entry
    of the hash index. *)
Definition commit_rows room (rows : gmap bytes Value) : HM bytes :=
  _ ← modify (λ s, set_room_canonical_rows s (<[room := rows]> (room_canonical_rows s)));
  _ ← modify (λ s, set_room_canonical_seq s (entry 0 room (λ n, n + 1) (room_canonical_seq s)));
  seqs ← read room_canonical_seq;
  let next_seq := default 0 (seqs !! room) in
  let h := content_canonical_hash rows in
  _ ← modify (λ s, set_room_canonical_snapshots s
        (entry ∅ room <[next_seq := mkCanonicalSnapshot next_seq rows h [seq_token next_seq]]> (room_canonical_snapshots s)));
  _ ← modify (λ s, set_room_canonical_hash_index s (entry ∅ room <[h := next_seq]> (room_canonical_hash_index s)));
  mret h.
Definition canonical_rows_of room s : gmap bytes Value := default ∅ (room_canonical_rows s !! room).
Definition is_internal (key : bytes) : bool := starts_with (bs "_") key.

Definition map_set room namespace key (value : Value) : HM Events :=
  _ ← require_room room;
  _ ← require (nonempty key) InvalidCommand;
  _ ← modify (λ s, set_room_maps s (entry ∅ room <[scoped_map_key namespace key := value]> (room_maps s)));
  _ ← (if is_internal key then mret tt
       else rows ← read (canonical_rows_of room); _ ← commit_rows room (<[key := value]> rows); mret tt);
  mret [EvMapValueUpserted room namespace key value].
Definition map_delete room namespace key : HM Events :=
  _ ← require_room room;
  _ ← require (nonempty key) InvalidCommand;
  maps ← read room_maps;
  let scoped := scoped_map_key namespace key in
  let found := bool_decide (is_Some (default ∅ (maps !! room) !! scoped)) in
  _ ← modify (λ s, set_room_maps s (entry ∅ room (delete scoped) (room_maps s)));
  _ ← (if found && negb (is_internal key)
       then rows ← read (canonical_rows_of room); _ ← commit_rows room (delete key rows); mret tt
       else mret tt);
  mret [EvMapValueDeleted room namespace key found].
Definition map_get room namespace key : HM Events :=
  _ ← require_room room;
  _ ← require (nonempty key) InvalidCommand;
  _ ← modify (λ s, set_room_maps s (touch ∅ room (room_maps s)));
  maps ← read room_maps;
  mret [EvMapValueRead room namespace key (default ∅ (maps !! room) !! scoped_map_key namespace key)].
(** [BTreeMap::iter]. *)
Definition btree {V} (m : gmap bytes V) : list (bytes * V) := sort_by_key fst (map_to_list m).
Definition map_all room namespace : HM Events :=
  _ ← require_room room;
  _ ← modify (λ s, set_room_maps s (touch ∅ room (room_maps s)));
  maps ← read room_maps;
  mret [EvMapEntriesListed room namespace
    (omap (λ kv, (λ k, mkHostMapEntry k kv.2) <$> strip_namespace_from_scoped_key namespace kv.1)
       (btree (default ∅ (maps !! room))))].

(** ** Text *)

Definition text_doc room (scoped : bytes) s : list TextCharState :=
  default [] (default ∅ (room_texts s !! room) !! scoped).
Definition set_text_doc room (scoped : bytes) (doc : list TextCharState) : HM unit :=
  modify (λ s, set_room_texts s (entry ∅ room <[scoped := doc]> (room_texts s))).

(** [ch] must be one character; a missing anchor leaves an empty document behind. *)
Definition text_insert room namespace key (after_id : option bytes) (ch : list Z) : HM Events :=
  _ ← require_room room;
  _ ← require (nonempty key) InvalidCommand;
  match ch with
  | [c] =>
      let scoped := scoped_map_key namespace key in
      doc ← read (text_doc room scoped);
      _ ← set_text_doc room scoped doc;
      _ ← require (match after_id with None => true | Some a => bool_decide (a ∈ tc_id <$> doc) end) InvalidCommand;
      ids ← read room_text_next_id;
      let '(new_id, ids) := next_id (bs "text-") room ids in
      _ ← modify (λ s, set_room_text_next_id s ids);
      _ ← set_text_doc room scoped (doc ++ [mkTextChar new_id after_id c false]);
      mret [EvTextValueInserted room namespace key new_id [c]]
  | _ => fail InvalidCommand
  end.
(** The first character with the id becomes a tombstone. *)
Fixpoint tombstone_first (id : bytes) (doc : list TextCharState) : list TextCharState * bool :=
  match doc with
  | [] => ([], false)
  | st :: rest =>
      if decide (tc_id st = id) then (mkTextChar (tc_id st) (tc_after_id st) (tc_ch st) true :: rest, true)
      else let '(rest, found) := tombstone_first id rest in (st :: rest, found)
  end.
Definition text_delete room namespace key (target_id : bytes) : HM Events :=
  _ ← require_room room;
  _ ← require (nonempty key && nonempty target_id) InvalidCommand;
  let scoped := scoped_map_key namespace key in
  doc ← read (text_doc room scoped);
  let '(doc, found) := tombstone_first target_id doc in
  _ ← set_text_doc room scoped doc;
  mret [EvTextValueDeleted room namespace key target_id found].
(** [TextGet] and [TextGetCanonical] are the same. *)
Definition text_get room namespace key : HM Events :=
  _ ← require_room room;
  _ ← require (nonempty key) InvalidCommand;
  let scoped := scoped_map_key namespace key in
  doc ← read (text_doc room scoped);
  _ ← set_text_doc room scoped doc;
  let entries := text_entries_in_rga_order doc in
  mret [EvTextValueRead room namespace key (text_string_from_entries entries) entries].

(** ** Lists *)

Definition list_doc room (scoped : bytes) s : list ListItemState :=
  default [] (default ∅ (room_lists s !! room) !! scoped).
Definition set_list_doc room (scoped : bytes) (l : list ListItemState) : HM unit :=
  modify (λ s, set_room_lists s (entry ∅ room <[scoped := l]> (room_lists s))).
(** The list a command works on, created when it is missing. *)
Definition with_list {A} room namespace key (k : bytes → list ListItemState → HM A) : HM A :=
  _ ← require_room room;
  _ ← require (nonempty key) InvalidCommand;
  let scoped := scoped_map_key namespace key in
  l ← read (list_doc room scoped);
  _ ← set_list_doc room scoped l;
  k scoped l.
Definition fresh_list_id room : HM bytes :=
  ids ← read room_list_next_id;
  let '(new_id, ids) := next_id (bs "list-") room ids in
  _ ← modify (λ s, set_room_list_next_id s ids);
  mret new_id.
(** [Vec::insert], [Vec::remove] at an index in range. *)
Definition vec_insert {A} (i : nat) (x : A) (l : list A) : list A := take i l ++ x :: drop i l.
Definition vec_remove {A} (i : nat) (l : list A) : list A := take i l ++ drop (S i) l.

Definition list_push room namespace key (value : Value) : HM Events :=
  with_list room namespace key (λ scoped l,
    new_id ← fresh_list_id room;
    _ ← set_list_doc room scoped (l ++ [mkListItem new_id value]);
    mret [EvListValuePushed room namespace key new_id (Z.of_nat (length l)) value]).
Definition list_insert room namespace key (index : Z) (value : Value) : HM Events :=
  with_list room namespace key (λ scoped l,
    _ ← require (index <=? Z.of_nat (length l)) InvalidCommand;
    new_id ← fresh_list_id room;
    _ ← set_list_doc room scoped (vec_insert (Z.to_nat index) (mkListItem new_id value) l);
    mret [EvListValueInserted room namespace key new_id index value]).
Definition list_delete room namespace key (index : Z) : HM Events :=
  with_list room namespace key (λ scoped l,
    match l !! Z.to_nat index with
    | Some item =>
        _ ← set_list_doc room scoped (vec_remove (Z.to_nat index) l);
        mret [EvListValueDeleted room namespace key index true (Some (li_value item))]
    | None => mret [EvListValueDeleted room namespace key index false None]
    end).
Definition list_move room namespace key (from_index to_index : Z) : HM Events :=
  with_list room namespace key (λ scoped l,
    match l !! Z.to_nat from_index with
    | Some item =>
        if to_index <? Z.of_nat (length l) then
          _ ← (if from_index =? to_index then mret tt
               else set_list_doc room scoped (vec_insert (Z.to_nat to_index) item (vec_remove (Z.to_nat from_index) l)));
          mret [EvListValueMoved room namespace key from_index to_index true (Some (li_id item))]
        else mret [EvListValueMoved room namespace key from_index to_index false None]
    | None => mret [EvListValueMoved room namespace key from_index to_index false None]
    end).
Definition list_update room namespace key (index : Z) (value : Value) : HM Events :=
  with_list room namespace key (λ scoped l,
    match l !! Z.to_nat index with
    | Some item =>
        _ ← set_list_doc room scoped (<[Z.to_nat index := mkListItem (li_id item) value]> l);
        mret [EvListValueUpdated room namespace key index true (Some (li_id item)) (Some value)]
    | None => mret [EvListValueUpdated room namespace key index false None None]
    end).
Definition list_get room namespace key : HM Events :=
  with_list room namespace key (λ scoped l,
    mret [EvListValueRead room namespace key ((λ i, mkListEntry (li_id i) (li_value i)) <$> l)]).

(** ** Blobs *)

Definition blobs_of room s : gmap bytes bytes := default ∅ (room_blobs s !! room).
Definition touch_blobs room : HM (gmap bytes bytes) :=
  _ ← modify (λ s, set_room_blobs s (touch ∅ room (room_blobs s))); read (blobs_of room).

Definition blob_set room namespace (hash data_b64 : bytes) : HM Events :=
  _ ← require_room room;
  _ ← require (nonempty hash && nonempty data_b64) InvalidCommand;
  blobs ← read (blobs_of room);
  let scoped := scoped_map_key namespace hash in
  _ ← modify (λ s, set_room_blobs s (entry ∅ room <[scoped := data_b64]> (room_blobs s)));
  mret [EvBlobValueStored room namespace hash (bool_decide (blobs !! scoped = None))].
Definition blob_get room namespace (hash : bytes) : HM Events :=
  _ ← require_room room;
  _ ← require (nonempty hash) InvalidCommand;
  blobs ← touch_blobs room;
  let data := blobs !! scoped_map_key namespace hash in
  mret [EvBlobValueRead room namespace hash (bool_decide (is_Some data)) data].
Definition blob_get_many room namespace (hashes : list bytes) : HM Events :=
  _ ← require_room room;
  blobs ← touch_blobs room;
  let wanted := filter (λ h, h ≠ []) hashes in
  mret [EvBlobValuesRead room namespace
    (omap (λ h, mkBlobEntry h <$> blobs !! scoped_map_key namespace h) wanted)
    (filter (λ h, blobs !! scoped_map_key namespace h = None) wanted)].
Definition request_upload room namespace (hash : bytes) (size_bytes : Z) (content_type : option bytes) : HM Events :=
  _ ← require_room room;
  _ ← require (nonempty hash && negb (size_bytes =? 0)) InvalidCommand;
  mret [match (r ← blob_url_resolver; resolve_put_url r room namespace hash size_bytes content_type) with
        | Some u => EvUploadGranted room namespace hash (pu_url u) (pu_expires_at_unix u)
        | None => EvUploadDenied room namespace hash (bs "use-ws")
        end].
Definition blob_request room namespace (hashes : list bytes) : HM Events :=
  _ ← require_room room;
  let requested := filter (λ h, h ≠ []) hashes in
  _ ← require (negb (bool_decide (requested = []))) InvalidCommand;
  blobs ← touch_blobs room;
  let redirects := match blob_url_resolver with
    | None => []
    | Some r => omap (λ h, _ ← blobs !! scoped_map_key namespace h; u ← resolve_get_url r room namespace h;
                           Some (mkRedirect h (pu_url u) (pu_expires_at_unix u))) requested
    end in
  mret [match redirects with
        | [] => EvBlobPackPrepared room namespace
                  (omap (λ h, mkBlobEntry h <$> blobs !! scoped_map_key namespace h) requested) requested
        | _ => EvBlobRedirectPrepared room namespace redirects
        end].

(** ** Presence and subscriptions *)

Definition presence_set room (session_id : Z) (data : Value) (ttl_ms now_unix_ms : option Z) : HM Events :=
  st ← session_of room session_id;
  let expires := match ttl_ms, now_unix_ms with Some ttl, Some now => Some (sat_add64 now ttl) | _, _ => None end in
  pres ← read room_presence;
  let joined := bool_decide (default ∅ (pres !! room) !! session_id = None) in
  let from := ss_peer_pubkey_hex st in
  _ ← modify (λ s, set_room_presence s (entry ∅ room <[session_id := mkPresence from data expires]> (room_presence s)));
  mret [EvPresenceValueSet room session_id from data joined].
(** The order of a hash map is not specified; this is one. *)
Definition presence_get_all room : HM Events :=
  _ ← modify (λ s, set_room_presence s (touch ∅ room (room_presence s)));
  pres ← read room_presence;
  mret [EvPresenceValuesListed room
    ((λ ip, mkPresenceEntry ip.1 (ps_from_peer_pubkey ip.2) (ps_data ip.2) (ps_expires_at_unix_ms ip.2)) <$>
      map_to_list (default ∅ (pres !! room)))].
Definition stale (now : Z) (p : PresenceState) : bool :=
  match ps_expires_at_unix_ms p with Some e => e <=? now | None => false end.
Definition presence_sweep room (now : Z) : HM Events :=
  pres ← read room_presence;
  let old := filter (λ ip, stale now ip.2 = true) (map_to_list (default ∅ (pres !! room))) in
  _ ← modify (λ s, set_room_presence s (alter (λ m, foldl (λ m ip, delete ip.1 m) m old) room (room_presence s)));
  mret ((λ ip, EvPresenceValueRemoved room ip.1 (ps_from_peer_pubkey ip.2) (bs "stale")) <$> old).
Definition subscribe room (session_id : Z) (patterns : list bytes) : HM Events :=
  _ ← session_of room session_id;
  let ps := normalize_subscription_patterns patterns in
  _ ← modify (λ s, set_room_subscriptions s (entry ∅ room <[session_id := ps]> (room_subscriptions s)));
  mret [EvSubscriptionUpdated room session_id ps].
Definition relay_peer_signal room (session_id : Z) (msg_type to_peer : bytes) (payload : Value) : HM Events :=
  _ ← require_room room;
  st ← session_of room session_id;
  _ ← require (nonempty to_peer && nonempty msg_type) InvalidCommand;
  mret [EvPeerSignalRelayed room (ss_peer_pubkey_hex st) msg_type to_peer payload].

(** ** Locks and policies *)

Definition set_room_key room (pubkey_hex : bytes) : HM Events :=
  _ ← require_room room;
  match parse_hex_32 pubkey_hex with
  | None => mret [EvSetRoomKeyRejected room (bs "set-room-key: invalid pubkey hex")]
  | Some k =>
      keys ← read room_auth_keys;
      if decide (is_Some (keys !! room)) then mret [EvSetRoomKeyRejected room (bs "room already locked")]
      else
        _ ← modify (λ s, set_room_auth_keys s (<[room := k]> (room_auth_keys s)));
        mret [EvRoomLocked room pubkey_hex]
  end.
(** The rules of a policy, or the text of the first complaint. *)
Fixpoint parse_writers (l : list bytes) : result bytes (list PublicKey) :=
  match l with
  | [] => Ok []
  | x :: l' =>
      match parse_hex_32 x with
      | None => Err (bs "set-policy: invalid pubkey hex '" ++ x ++ bs "'")
      | Some k => match parse_writers l' with Ok ks => Ok (k :: ks) | Err e => Err e end
      end
  end.
Fixpoint parse_rules (l : list PolicyRulePayload) : result bytes (list PolicyRule) :=
  match l with
  | [] => Ok []
  | r :: l' =>
      if decide (prp_path_glob r = []) then Err (bs "set-policy: each rule must have a 'path_glob' string")
      else
        match parse_writers (prp_can_write r) with
        | Err e => Err e
        | Ok ks =>
            match parse_rules l' with
            | Ok rs => Ok (mkRule (prp_path_glob r) ks [] [] :: rs)
            | Err e => Err e
            end
        end
  end.
Definition classify_set_policy_default (d : bytes) : option PolicyDefault :=
  if decide (d = bs "deny") then Some DenyAll else if decide (d = bs "allow") then Some AllowAll else None.
Definition host_set_policy room (d : bytes) (rules : list PolicyRulePayload) : HM Events :=
  _ ← require_room room;
  match classify_set_policy_default d with
  | None => mret [EvSetPolicyRejected room
              (bs "set-policy: unknown default '" ++ d ++ bs "', use 'allow' or 'deny'")]
  | Some fallback =>
      match parse_rules rules with
      | Err msg => mret [EvSetPolicyRejected room msg]
      | Ok rs =>
          let p := mkPolicy rs fallback in
          _ ← modify (λ s, set_room_policies s (<[room := p]> (room_policies s)));
          _ ← modify (λ s, set_room_sync_graphs s (alter (λ g, set_policy g p) room (room_sync_graphs s)));
          mret [EvPolicySet room]
      end
  end.

(** ** The graph plane *)

Definition graph_of room s : HostGraph := default empty_graph (room_sync_graphs s !! room).
Definition set_graph room (g : HostGraph) : HM unit :=
  modify (λ s, set_room_sync_graphs s (<[room := g]> (room_sync_graphs s))).
(** [entry(room).or_default()] of the graphs. *)
Definition touch_graph room : HM HostGraph := g ← read (graph_of room); _ ← set_graph room g; mret g.

(** One pass over [pending]: duplicates of an id collapse to the last node at the
    place of the first. *)
Definition first_ids (pending : list SyncNode) : list NodeId :=
  foldl (λ acc n, if decide (node_id n ∈ acc) then acc else acc ++ [node_id n]) [] pending.
Definition by_id (pending : list SyncNode) : gmap NodeId SyncNode :=
  foldl (λ m n, <[node_id n := n]> m) ∅ pending.
Definition import_batch (pending : list SyncNode) : list SyncNode :=
  omap (λ id, by_id pending !! id) (first_ids pending).

(** Sorting the rejections: a missing parent may arrive with a later pass. *)
Record ImportSplit := mkSplit {
  is_by_id : gmap NodeId SyncNode;
  is_pending : list SyncNode;
  is_missing : list (NodeId * SyncError);
  is_rejected : list (NodeId * SyncError);
}.
Definition split_rejection (t : ImportSplit) (r : NodeId * SyncError) : ImportSplit :=
  match r.2 with
  | MissingParent _ =>
      match is_by_id t !! r.1 with
      | Some n => mkSplit (delete r.1 (is_by_id t)) (is_pending t ++ [n]) (is_missing t ++ [r]) (is_rejected t)
      | None => t
      end
  | _ => mkSplit (is_by_id t) (is_pending t) (is_missing t) (is_rejected t ++ [r])
  end.

(** The multi-pass import; every pass but the last shortens [pending]. *)
Fixpoint import_loop (fuel : nat) (g : HostGraph) (pending : list SyncNode) (res : BatchResult) : HostGraph * BatchResult :=
  match fuel, pending with
  | S fuel, _ :: _ =>
      let '(g, pass) := apply_remote_batch g (import_batch pending) in
      let t := foldl split_rejection (mkSplit (by_id pending) [] [] []) (batch_rejected pass) in
      let res := mkBatch (batch_accepted res ++ batch_accepted pass) (batch_rejected res ++ is_rejected t) in
      if decide (length (is_pending t) = length pending) then (g, mkBatch (batch_accepted res) (batch_rejected res ++ is_missing t))
      else import_loop fuel g (is_pending t) res
  | _, _ => (g, res)
  end.
Definition import_nodes (g : HostGraph) (ns : list SyncNode) : HostGraph * BatchResult :=
  import_loop (S (length ns)) g ns (mkBatch [] []).

(** At most one report per pairing, and a bounded history. *)
Definition observe_conflict (now : Z) (t : list Fingerprint * list ConflictEntry * list ConflictEntry) (c : ConflictEvent)
    : list Fingerprint * list ConflictEntry * list ConflictEntry :=
  let '(seen, history, fresh) := t in
  if decide (fingerprint c ∈ seen) then t
  else (seen ++ [fingerprint c], history ++ [mkConflictEntry now c], fresh ++ [mkConflictEntry now c]).
Definition cap_history (h : list ConflictEntry) : list ConflictEntry := drop (length h - CONFLICT_HISTORY_LIMIT) h.

Definition decode_pack (nodes_b64 : bytes) : HM (list SyncNode) :=
  match base64_decode nodes_b64 with
  | None => fail InvalidCommand
  | Some b => match unpack_nodes b with Err _ => fail InvalidCommand | Ok ns => mret ns end
  end.
Definition import_pack room (nodes_b64 : bytes) : HM Events :=
  _ ← require_room room;
  ns ← decode_pack nodes_b64;
  g ← touch_graph room;
  let '(g, applied) := import_nodes (set_conflict_stream_enabled g true) ns in
  now ← read clock_ms;
  let '(g, detected) := drain_pending_conflicts g in
  _ ← set_graph room g;
  fps ← read room_conflict_fingerprints;
  hists ← read room_conflict_history;
  let '(seen, history, fresh) := foldl (observe_conflict now) (default [] (fps !! room), default [] (hists !! room), []) detected in
  _ ← modify (λ s, set_room_conflict_fingerprints s (<[room := seen]> (room_conflict_fingerprints s)));
  _ ← modify (λ s, set_room_conflict_history s (<[room := cap_history history]> (room_conflict_history s)));
  mret (EvPackImported room (Z.of_nat (length ns)) (Z.of_nat (length (batch_accepted applied))) (Z.of_nat (length (batch_rejected applied)))
    :: match fresh with [] => [] | _ => [EvConflictsObserved room fresh] end).

Definition all_node_ids (g : HostGraph) : list NodeId := ns_all_ids (g_nodes g).
Definition shape_catchup_pack_payload_b64 (ns : list SyncNode) : bytes := base64_encode (pack_nodes ns).
Definition request_server_pack room (known_ids : list bytes) : HM Events :=
  _ ← require_room room;
  let known : gset NodeId := list_to_set (omap parse_hex_32 known_ids) in
  g ← touch_graph room;
  mret [EvServerPackPrepared room (shape_catchup_pack_payload_b64 (get_nodes g (missing_hashes g known))) (to_hex (merkle_root g))].
(** [serde_json::to_value] of a node of the tree. *)
Definition mst_wire_value (w : MstNodeWire) : Value :=
  jobj [(bs "path", JString (mw_path w)); (bs "hash", JString (mw_hash w));
        (bs "children", jobj ((λ kv, (kv.1, JString kv.2)) <$> map_to_list (mw_children w)));
        (bs "keys", JArray (JString <$> mw_keys w))].
Definition mst_request room (paths : list bytes) : HM Events :=
  _ ← require_room room;
  g ← touch_graph room;
  let mst := mst_from_ids (all_node_ids g) in
  mret [EvMstResponsePrepared room (mst_wire_value <$> omap (get_node_wire mst) paths)].
Definition mst_done room (ids : list bytes) : HM Events :=
  _ ← require_room room;
  g ← touch_graph room;
  mret [EvServerPackPrepared room (shape_catchup_pack_payload_b64 (get_nodes g (omap parse_hex_32 ids))) (to_hex (merkle_root g))].
Definition get_recent_conflicts room (since : option Z) : HM Events :=
  _ ← require_room room;
  _ ← modify (λ s, set_room_conflict_history s (touch [] room (room_conflict_history s)));
  h ← read room_conflict_history;
  mret [EvRecentConflictsListed room (filter (λ e, default 0 since <= ce_at_unix_ms e) (default [] (h !! room)))].

(** The shared queries over one graph. *)
Definition graph_frontier_heads_hex (g : HostGraph) : list bytes := to_hex_vec (g_frontier g).
Definition graph_causal_parents_hex (g : HostGraph) (node_id_hex : bytes) : list bytes * bool :=
  match parse_hex_32 node_id_hex with
  | None => ([], false)
  | Some id =>
      match head (get_nodes g [id]) with
      | Some n => (to_hex <$> tx_parents (node_tx n), true)
      | None => ([], false)
      end
  end.
Definition graph_canonical_resolution_entries (g : HostGraph) : list CanonicalMapEntry :=
  (λ kv, mkCanonicalEntry kv.1 (base64_encode kv.2)) <$> btree (resolve_canonical g).
Definition replay_event (key_prefix : bytes) (from_lamport : Z) (n : SyncNode) : option (Z * (bytes * list bytes)) :=
  if tx_lamport (node_tx n) <? from_lamport then None
  else
    match filter (λ k, starts_with key_prefix k = true) (omap op_key (tx_ops (node_tx n))) with
    | [] => None
    | touched => Some (tx_lamport (node_tx n), (to_hex (node_id n), touched))
    end.
Definition replay_events (g : HostGraph) (key_prefix : bytes) (from_lamport : Z) : list (Z * (bytes * list bytes)) :=
  sort_by_key (λ e, (e.1, e.2.1)) (omap (replay_event key_prefix from_lamport) (all_nodes g)).
(** A page of [l] from [offset] on, and the cursor of the next one. *)
Definition page_of {A} (l : list A) (limit offset : Z) : list A * option bytes :=
  let len := Z.of_nat (length l) in
  let fin := Z.min (sat_add64 offset limit) len in
  (if offset <? len then take (Z.to_nat (fin - offset)) (drop (Z.to_nat offset) l) else [],
   if fin <? len then Some (bs "offset:" ++ decimal fin) else None).
Definition graph_replay_read_range (g : HostGraph) (key_prefix : bytes) (from_lamport limit offset : Z)
    : list (Z * (bytes * list bytes)) * option bytes :=
  page_of (replay_events g key_prefix from_lamport) (Z.max limit 1) offset.
Definition graph_sync_diff_hex (g : HostGraph) (peer_ids_hex : list bytes) : list bytes * list bytes :=
  let peer : gset NodeId := list_to_set (omap parse_hex_32 peer_ids_hex) in
  let server : gset NodeId := list_to_set (all_node_ids g) in
  (sort (to_hex <$> elements (server ∖ peer)), sort (to_hex <$> elements (peer ∖ server))).

Definition replay_read_range room (key_prefix : bytes) (from_lamport : Z) (limit : option Z) (cursor : option bytes) : HM Events :=
  _ ← require_room room;
  let key_prefix := trim key_prefix in
  if decide (key_prefix = []) then
    mret [EvReplayRangeRejected room (bs "reject.invalid_payload") (bs "replay.read-range requires non-empty key_prefix")]
  else
    g ← touch_graph room;
    let '(page, next) := graph_replay_read_range g key_prefix from_lamport (Z.max (default 100 limit) 1) (parse_offset cursor) in
    mret [EvReplayRangeRead room key_prefix from_lamport
      ((λ e, jobj [(bs "lamport", JNumber e.1); (bs "node_id", JString e.2.1); (bs "touched_keys", JArray (JString <$> e.2.2))]) <$> page)
      next].
Definition get_frontier room : HM Events :=
  _ ← require_room room; g ← touch_graph room; mret [EvFrontierQueried room (graph_frontier_heads_hex g)].
Definition get_causal_parents room (node_id_hex : bytes) : HM Events :=
  _ ← require_room room;
  g ← touch_graph room;
  let '(ps, found) := graph_causal_parents_hex g node_id_hex in
  mret [EvCausalParentsQueried room node_id_hex ps found].
Definition get_canonical_resolution room : HM Events :=
  _ ← require_room room;
  g ← touch_graph room;
  let entries := graph_canonical_resolution_entries g in
  mret [EvCanonicalResolutionQueried room entries (Z.of_nat (length entries))].
Definition compute_sync_diff room (peer_ids_hex : list bytes) : HM Events :=
  _ ← require_room room;
  g ← touch_graph room;
  let '(a, b) := graph_sync_diff_hex g peer_ids_hex in
  mret [EvSyncDiffComputed room a b].

(** [PromoteCheckpointToGraph]: the rows of a checkpoint become one unsigned node. *)
Definition promotion_id room (seq : Z) (snap : CanonicalSnapshotState) : bytes :=
  to_hex (hash_of (room ++ bs ":" ++ decimal seq ++ bs ":" ++ sn_canonical_hash snap)).
(** A marker holds the ASCII hex of the id, so the lossy comparison is equality. *)
Definition has_promotion_marker (id : bytes) (n : SyncNode) : bool :=
  existsb (λ o, match o with
                | OpMap (MapSet k v) => bool_decide (k = bs "_promotion/id") && bool_decide (v = id)
                | _ => false
                end) (tx_ops (node_tx n)).
Definition promotion_ops (seq : Z) (snap : CanonicalSnapshotState) (id : bytes) : list Op :=
  ((λ kv, OpMap (MapSet kv.1 (value_bytes kv.2))) <$> btree (sn_rows snap)) ++
  [OpMap (MapSet (bs "_promotion/source_snapshot_seq") (le_bytes 8 seq)); OpMap (MapSet (bs "_promotion/id") id)].
Definition promotion_node (g : HostGraph) (now seq : Z) (snap : CanonicalSnapshotState) (id : bytes) : SyncNode :=
  node_new (mkTx (zeros 32) (wrap_add64 (Z.of_nat (length (all_node_ids g))) 1) now (promotion_ops seq snap id) (heads (g_frontier g))).
Definition set_snapshot_frontier (f : list bytes) (x : CanonicalSnapshotState) : CanonicalSnapshotState :=
  mkCanonicalSnapshot (sn_sequence x) (sn_rows x) (sn_canonical_hash x) f.
Definition promote_checkpoint_to_graph room (selector : option Value) : HM Events :=
  _ ← require_room room;
  res ← read (resolve_canonical_checkpoint room selector);
  match res with
  | CrResolved seq snap =>
      let id := promotion_id room seq snap in
      g ← touch_graph room;
      now ← read clock_ms;
      node_hex ← (match head (filter (λ n, has_promotion_marker id n = true) (get_nodes g (all_node_ids g))) with
                  | Some n => mret (to_hex (node_id n))
                  | None =>
                      let n := promotion_node g now seq snap id in
                      _ ← set_graph room (apply_remote_batch g [n]).1;
                      mret (to_hex (node_id n))
                  end);
      g ← read (graph_of room);
      let f := to_hex_vec (g_frontier g) in
      _ ← modify (λ s, set_room_canonical_snapshots s (alter (alter (set_snapshot_frontier f) seq) room (room_canonical_snapshots s)));
      mret [EvCheckpointPromoted room seq node_hex f]
  | _ => fail InvalidCommand
  end.
Definition inspect_pack (nodes_b64 : bytes) : HM Events :=
  ns ← decode_pack nodes_b64;
  let ids : gset NodeId := list_to_set (node_id <$> ns) in
  let parents : gset NodeId := list_to_set (ns ≫= λ n, tx_parents (node_tx n)) in
  mret [EvPackInspected (Z.of_nat (length ns)) (sort (to_hex <$> elements (parents ∖ ids))) (sort (to_hex <$> elements (ids ∖ parents)))].

(** ** Topology *)

Definition LINEAGE_KEY : bytes := bs "_topology/lineage".
Definition create_topology_child (parent child purpose created_by policy_id : bytes) (checkpoint : Value) : HM Events :=
  _ ← require (nonempty child && nonempty purpose && nonempty policy_id) InvalidCommand;
  _ ← require_room parent;
  let lineage := jobj [(bs "parent_room_id", JString parent); (bs "parent_checkpoint", checkpoint);
    (bs "child_purpose", JString purpose); (bs "created_by", JString created_by);
    (bs "created_at_hlc", JNumber 1); (bs "promotion_policy_id", JString policy_id)] in
  _ ← modify (λ s, let s := init_room child s in set_room_maps s (entry ∅ child <[LINEAGE_KEY := lineage]> (room_maps s)));
  mret [EvChildRoomCreated child lineage].
Definition describe_room_lineage room : HM Events :=
  _ ← require_room room;
  _ ← modify (λ s, set_room_maps s (touch ∅ room (room_maps s)));
  maps ← read room_maps;
  mret [EvRoomLineageDescribed room (default ∅ (maps !! room) !! LINEAGE_KEY) []].
Definition child_entry (parent : bytes) (rm : bytes * gmap bytes Value) : option (bytes * Value) :=
  lineage ← rm.2 !! LINEAGE_KEY;
  if decide (get_str (bs "parent_room_id") lineage = Some parent) then
    Some (rm.1, jobj [(bs "child_room_id", JString rm.1);
      (bs "child_purpose", JString (default [] (get_str (bs "child_purpose") lineage)));
      (bs "promotion_policy_id", JString (default [] (get_str (bs "promotion_policy_id") lineage)));
      (bs "created_by", JString (default [] (get_str (bs "created_by") lineage)))])
  else None.
Definition list_topology_children (parent : bytes) : HM Events :=
  _ ← require_room parent;
  maps ← read room_maps;
  mret [EvChildrenListed parent (snd <$> sort_by_key fst (omap (child_entry parent) (map_to_list maps)))].

Definition propose_topology_promotion (parent child checkpoint_hash payload_ref : bytes) (idempotency_key : option bytes) : HM Events :=
  known ← read rooms;
  _ ← require (bool_decide (parent ∈ known) && bool_decide (child ∈ known) && nonempty checkpoint_hash && nonempty payload_ref) InvalidCommand;
  let digest := deterministic_hex64 (parent ++ bs ":" ++ child ++ bs ":" ++ checkpoint_hash ++ bs ":" ++ payload_ref) in
  let proposal_id := default digest idempotency_key in
  _ ← modify (λ s, set_topology_promotions s
        (<[proposal_id := mkPromotion parent child checkpoint_hash payload_ref digest false false]> (topology_promotions s)));
  mret [EvPromotionProposed proposal_id parent child checkpoint_hash payload_ref digest].
Definition set_promotion (p : PromotionState) (validated applied : bool) : PromotionState :=
  mkPromotion (pr_parent_room_id p) (pr_child_room_id p) (pr_child_checkpoint_hash p) (pr_payload_ref p) (pr_proposal_digest p)
    validated applied.
Definition validate_topology_promotion (proposal_id : bytes) : HM Events :=
  ps ← read topology_promotions;
  match ps !! proposal_id with
  | None => fail InvalidCommand
  | Some p =>
      index ← read room_canonical_hash_index;
      let h := pr_child_checkpoint_hash p in
      if decide (is_Some (index !! pr_child_room_id p ≫= λ m, m !! h)) then
        _ ← modify (λ s, set_topology_promotions s (<[proposal_id := set_promotion p true (pr_applied p)]> (topology_promotions s)));
        mret [EvPromotionValidated proposal_id
          (deterministic_hex64 (bs "validate:" ++ proposal_id ++ bs ":" ++ pr_proposal_digest p ++ bs ":" ++ h))]
      else mret [EvPromotionValidationRejected proposal_id (bs "reject.promotion_checkpoint_not_found")
        (bs "child_checkpoint_hash does not identify a known canonical snapshot of the child room")]
  end.
(** The rows behind a checkpoint hash of a room. *)
Definition checkpoint_rows room (h : bytes) s : gmap bytes Value :=
  default ∅ (seq ← (room_canonical_hash_index s !! room ≫= λ m, m !! h);
             snap ← (room_canonical_snapshots s !! room ≫= λ m, m !! seq); Some (sn_rows snap)).
Definition apply_topology_promotion (proposal_id : bytes) : HM Events :=
  ps ← read topology_promotions;
  match ps !! proposal_id with
  | None => fail InvalidCommand
  | Some p =>
      _ ← require (pr_validated p) InvalidCommand;
      _ ← modify (λ s, set_topology_promotions s (<[proposal_id := set_promotion p true true]> (topology_promotions s)));
      let parent := pr_parent_room_id p in
      child_rows ← read (checkpoint_rows (pr_child_room_id p) (pr_child_checkpoint_hash p));
      rows ← read (canonical_rows_of parent);
      h ← commit_rows parent (child_rows ∪ rows);
      let audit_key := bs "_topology/promotion/" ++ proposal_id in
      let audit := jobj [(bs "proposal_id", JString proposal_id); (bs "parent_room_id", JString parent);
        (bs "child_room_id", JString (pr_child_room_id p));
        (bs "child_checkpoint_hash", JString (pr_child_checkpoint_hash p));
        (bs "payload_ref", JString (pr_payload_ref p)); (bs "proposal_digest", JString (pr_proposal_digest p));
        (bs "validation_applied", JBool true)] in
      _ ← modify (λ s, set_room_maps s (entry ∅ parent <[audit_key := audit]> (room_maps s)));
      mret [EvPromotionApplied proposal_id parent h audit_key]
  end.

(** ** Projections *)

Definition compute_projection_digest (projection_id query_spec_id version : bytes) (rows : list Value) : bytes :=
  let payloads := (λ r, default [] (get_str (bs "k") r) ++ bs "=" ++ default [] (get_str (bs "v") r)) <$> rows in
  deterministic_hex64 (bs "projection=" ++ projection_id ++ bs "|spec=" ++ query_spec_id ++ bs "|version=" ++ version ++
    bs "|rows=" ++ join (bs ";") (sort payloads)).
Definition register_query_spec room (query_spec_id version : bytes) (descriptor : Value) : HM Events :=
  known ← read rooms;
  _ ← require (bool_decide (room ∈ known) && nonempty query_spec_id && nonempty version) InvalidCommand;
  _ ← modify (λ s, set_room_query_specs s (entry ∅ room <[query_spec_id := mkQuerySpec version descriptor]> (room_query_specs s)));
  mret [EvQuerySpecRegistered room query_spec_id version
    (JString (deterministic_hex64 (bs "query-spec:" ++ room ++ bs ":" ++ query_spec_id ++ bs ":" ++ version))) true].
Definition projection_row (projection_id query_spec_id version : bytes) (prefix : option bytes) (kv : bytes * Value) : option Value :=
  if match prefix with Some p => starts_with p kv.1 | None => true end then
    Some (jobj [(bs "k", JString kv.1); (bs "v", JString (value_bytes kv.2)); (bs "projection_id", JString projection_id);
      (bs "query_spec_id", JString query_spec_id); (bs "version", JString version); (bs "prefix", jopt prefix)])
  else None.
Definition build_projection room (projection_id query_spec_id : bytes) (target : option Value) : HM Events :=
  known ← read rooms;
  _ ← require (bool_decide (room ∈ known) && nonempty projection_id && nonempty query_spec_id) InvalidCommand;
  _ ← modify (λ s, set_room_query_specs s (touch ∅ room (room_query_specs s)));
  specs ← read room_query_specs;
  match default ∅ (specs !! room) !! query_spec_id with
  | None => mret [EvProjectionBuildRejected room projection_id (bs "reject.query_spec_not_found")
              (bs "projection.build.query_spec_id is not registered")]
  | Some spec =>
      res ← read (resolve_canonical_checkpoint room target);
      match res with
      | CrSelectorInvalid => mret [EvProjectionBuildRejected room projection_id (bs "reject.checkpoint_selector_invalid")
          (bs "projection.build.target_checkpoint does not resolve to known canonical snapshot")]
      | CrNotFound => mret [EvProjectionBuildRejected room projection_id (bs "reject.checkpoint_not_found")
          (bs "projection.build.target_checkpoint does not resolve to known canonical snapshot")]
      | CrResolved _ snap =>
          let prefix := get_str (bs "prefix") (qs_descriptor spec) in
          let rows := omap (projection_row projection_id query_spec_id (qs_version spec) prefix) (btree (sn_rows snap)) in
          let digest := compute_projection_digest projection_id query_spec_id (qs_version spec) rows in
          let checkpoint := jobj [(bs "selector", JString (default (bs "latest") (target ≫= get_str (bs "selector"))));
            (bs "canonical_seq", JNumber (sn_sequence snap)); (bs "canonical_hash", JString (sn_canonical_hash snap));
            (bs "frontier", JArray (JString <$> sn_frontier snap))] in
          _ ← modify (λ s, set_room_projections s (entry ∅ room
                <[projection_id := mkProjection query_spec_id checkpoint rows digest false None]> (room_projections s)));
          mret [EvProjectionBuildCompleted room projection_id checkpoint (JString digest)]
      end
  end.
(** The slice [rows[start..end]] panics when [start] lies behind [end]. *)
Definition read_page (rows : list Value) (start limit : Z) : option (list Value * option Value) :=
  let page_limit := if limit =? 0 then 1 else limit in
  let len := Z.of_nat (length rows) in
  let fin := Z.min (wrap_add64 start page_limit) len in
  if fin <? start then None
  else Some (take (Z.to_nat (fin - start)) (drop (Z.to_nat start) rows),
             if fin <? len then Some (JString (bs "offset:" ++ decimal fin)) else None).
Definition read_projection room (projection_id : bytes) (limit : Z) (page_token : option bytes) : HM Events :=
  known ← read rooms;
  _ ← require (bool_decide (room ∈ known) && nonempty projection_id) InvalidCommand;
  _ ← modify (λ s, set_room_projections s (touch ∅ room (room_projections s)));
  ps ← read room_projections;
  match default ∅ (ps !! room) !! projection_id with
  | None => mret [EvProjectionReadResult room projection_id (jobj [(bs "selector", JString (bs "latest"))]) [] None None]
  | Some p =>
      match read_page (pj_rows p) (parse_offset page_token) limit with
      | None => throw Panicked
      | Some (rows, next) =>
          mret [EvProjectionReadResult room projection_id (pj_checkpoint p) rows (Some (JString (pj_digest p))) next]
      end
  end.
Definition invalidate_projection room (projection_id reason : bytes) : HM Events :=
  known ← read rooms;
  _ ← require (bool_decide (room ∈ known) && nonempty projection_id) InvalidCommand;
  _ ← modify (λ s, set_room_projections s (entry ∅ room
        (alter (λ p, mkProjection (pj_query_spec_id p) (pj_checkpoint p) (pj_rows p) (pj_digest p) true (Some reason)) projection_id)
        (room_projections s)));
  mret [EvProjectionInvalidated room projection_id reason (JNumber 0)].
Definition projection_listed (query_spec_id state_filter : option bytes) (p : ProjectionState) : bool :=
  match query_spec_id with Some q => bool_decide (pj_query_spec_id p = q) | None => true end &&
  match state_filter with
  | Some f =>
      negb (eq_ignore_ascii_case f (bs "active") && pj_invalidated p) &&
      negb (eq_ignore_ascii_case f (bs "invalidated") && negb (pj_invalidated p))
  | None => true
  end.
Definition projection_item (ip : bytes * ProjectionState) : Value :=
  jobj [(bs "projection_id", JString ip.1); (bs "query_spec_id", JString (pj_query_spec_id ip.2));
    (bs "state", JString (if pj_invalidated ip.2 then bs "invalidated" else bs "active"));
    (bs "digest", JString (pj_digest ip.2)); (bs "checkpoint", pj_checkpoint ip.2);
    (bs "invalidation_reason", jopt (pj_invalidation_reason ip.2))].
Definition list_projections room (query_spec_id state_filter : option bytes) : HM Events :=
  _ ← require_room room;
  _ ← modify (λ s, set_room_projections s (touch ∅ room (room_projections s)));
  ps ← read room_projections;
  mret [EvProjectionListResult room query_spec_id
    (projection_item <$> filter (λ ip, projection_listed query_spec_id state_filter ip.2 = true) (btree (default ∅ (ps !! room)))) None].

(** ** Archives: the stubs of the host core *)

Definition compat_window : Value := jobj [(bs "min_supported", JString (bs "1")); (bs "max_supported", JString (bs "1"))].
Definition describe_archive room (archive_ref : bytes) : HM Events :=
  known ← read rooms;
  _ ← require (bool_decide (room ∈ known) && nonempty archive_ref) InvalidCommand;
  snap ← read (room_latest_snapshot room);
  let '(h, frontier, row_count, rows) := match snap with
    | Some x => (sn_canonical_hash x, sn_frontier x, Z.of_nat (size (sn_rows x)),
                 join (bs ";") ((λ kv, kv.1 ++ bs "=" ++ json_print kv.2) <$> btree (sn_rows x)))
    | None => (content_canonical_hash ∅, [seq_token 0], 0, [])
    end in
  mret [EvArchiveDescribed room archive_ref (bs "m." ++ room ++ bs "." ++ take 12 h) (bs "1") (bs "full_clone")
    (jobj [(bs "frontier", JArray (JString <$> frontier)); (bs "canonical_hash", JString h)])
    (jobj [(bs "nodes", JString (bs "sha256:" ++ deterministic_hex64 (bs "nodes:" ++ rows)));
           (bs "blobs", JString (bs "sha256:" ++ deterministic_hex64 (bs "blobs:" ++ room ++ bs ":" ++ decimal row_count)))])
    compat_window (jobj [(bs "source_room", JString room); (bs "tool", JString (bs "host-core"))])].
Definition validate_archive room (archive_ref mode : bytes) : HM Events :=
  known ← read rooms;
  _ ← require (bool_decide (room ∈ known) && nonempty archive_ref) InvalidCommand;
  mret [if contains (bs "invalid-manifest") archive_ref
        then EvArchiveValidationRejected room archive_ref (bs "reject.archive_manifest_invalid")
               (bs "manifest missing required field: checkpoint.canonical_hash")
        else EvArchiveValidated room archive_ref true mode [bs "manifest"; bs "compatibility"] compat_window].
Definition import_archive room (archive_ref import_mode : bytes) (expected : option Value) : HM Events :=
  known ← read rooms;
  _ ← require (bool_decide (room ∈ known) && nonempty archive_ref) InvalidCommand;
  if contains (bs "digest-mismatch") archive_ref then
    mret [EvArchiveImportRejected room archive_ref (bs "reject.archive_digest_mismatch") (bs "payload digest mismatch for nodes payload")]
  else
    _ ← modify (λ s, set_room_canonical_rows s (touch ∅ room (room_canonical_rows s)));
    rows ← read (canonical_rows_of room);
    let h := content_canonical_hash rows in
    if match expected ≫= get_str (bs "canonical_hash") with Some e => bool_decide (e = h) | None => true end then
      mret [EvArchiveImported room archive_ref h
        (jobj [(bs "frontier", JArray [JString (bs "seq:0")]); (bs "canonical_hash", JString h)]) (Z.of_nat (size rows)) 0]
    else mret [EvArchiveImportRejected room archive_ref (bs "reject.archive_digest_mismatch")
                 (bs "expected checkpoint canonical hash mismatch")].

(** ** [HostEngine::apply] *)

Definition apply_command room (c : HostCommand) : HM Events :=
  match c with
  | CmdEnsureRoom => ensure_room room
  | CmdOpenSession i p => open_session room i p
  | CmdCloseSession i => close_session i
  | CmdClientHello i h => client_hello room i h
  | CmdMapSet n k v => map_set room n k v
  | CmdMapDelete n k => map_delete room n k
  | CmdMapGet n k => map_get room n k
  | CmdMapAll n => map_all room n
  | CmdTextInsert n k a c => text_insert room n k a c
  | CmdTextDelete n k t => text_delete room n k t
  | CmdTextGet n k | CmdTextGetCanonical n k => text_get room n k
  | CmdListPush n k v => list_push room n k v
  | CmdListInsert n k i v => list_insert room n k i v
  | CmdListDelete n k i => list_delete room n k i
  | CmdListMove n k i j => list_move room n k i j
  | CmdListUpdate n k i v => list_update room n k i v
  | CmdListGet n k => list_get room n k
  | CmdBlobSet n h d => blob_set room n h d
  | CmdBlobGet n h => blob_get room n h
  | CmdBlobGetMany n hs => blob_get_many room n hs
  | CmdRequestUpload n h z t => request_upload room n h z t
  | CmdBlobRequest n hs => blob_request room n hs
  | CmdPresenceSet i d t n => presence_set room i d t n
  | CmdPresenceGetAll => presence_get_all room
  | CmdPresenceSweep n => presence_sweep room n
  | CmdSubscribe i ps => subscribe room i ps
  | CmdSetRoomKey p => set_room_key room p
  | CmdSetPolicy d rs => host_set_policy room d rs
  | CmdImportPack b => import_pack room b
  | CmdRequestServerPack ids => request_server_pack room ids
  | CmdMstRequest ps => mst_request room ps
  | CmdMstDone ids => mst_done room ids
  | CmdGetRecentConflicts t => get_recent_conflicts room t
  | CmdRelayPeerSignal i m t p => relay_peer_signal room i m t p
  | CmdCreateTopologyChild p c u b y k => create_topology_child p c u b y k
  | CmdDescribeRoomLineage r => describe_room_lineage r
  | CmdListTopologyChildren p => list_topology_children p
  | CmdProposeTopologyPromotion p c h r k => propose_topology_promotion p c h r k
  | CmdValidateTopologyPromotion i => validate_topology_promotion i
  | CmdApplyTopologyPromotion i => apply_topology_promotion i
  | CmdRegisterQuerySpec q v d => register_query_spec room q v d
  | CmdBuildProjection i q t => build_projection room i q t
  | CmdReadProjection i l t => read_projection room i l t
  | CmdInvalidateProjection i r => invalidate_projection room i r
  | CmdListProjections q f => list_projections room q f
  | CmdDescribeArchive a => describe_archive room a
  | CmdValidateArchive a m => validate_archive room a m
  | CmdImportArchive a m e => import_archive room a m e
  | CmdPromoteCheckpointToGraph t => promote_checkpoint_to_graph room t
  | CmdReplayReadRange p f l c => replay_read_range room p f l c
  | CmdGetFrontier => get_frontier room
  | CmdGetCausalParents i => get_causal_parents room i
  | CmdGetCanonicalResolution => get_canonical_resolution room
  | CmdComputeSyncDiff ids => compute_sync_diff room ids
  | CmdInspectPack b => inspect_pack b
  | CmdNoop => mret [EvNoopAck]
  end.
Definition host_apply (e : CommandEnvelope) : HM Events :=
  if decide (env_room e = []) then fail InvalidCommand else apply_command (env_room e) (env_command e).
End host.
