(* ===== verification/HostFacts.v ===== *)
(** Invariants of the host engine under every command. *)

From S2P Require Import Prelude Str StErr Hex Op Node Policy Frontier Storage Conflicts Fenwick.
From S2P Require Import TextState Text Graph Replay Token Mst HostTypes HostState Host.

(** ** Keeping an invariant

    A command keeps [I] whether it succeeds or not.  The fields a setter does not
    touch are the same by computation, so [modify] is closed by [exact] in the
    common case. *)
Definition keeps {A} (I : HostEngine → Prop) (m : SE HostEngine HostFault A) : Prop := triple I m (λ _, I) I.

Section keeps.
Context (I : HostEngine → Prop).
Implicit Types (A B : Type).

Lemma keeps_ret {A} (a : A) : keeps I (mret a).
Proof. by apply triple_ret. Qed.
Lemma keeps_throw {A} e : keeps I (throw e : SE HostEngine HostFault A).
Proof. by apply triple_throw. Qed.
Lemma keeps_read {A} (f : HostEngine → A) : keeps I (read f).
Proof. by apply triple_read. Qed.
Lemma keeps_modify f : (∀ s, I s → I (f s)) → keeps I (modify f).
Proof. intros Hf s Hs. by apply Hf. Qed.
Lemma keeps_bind {A B} (m : SE HostEngine HostFault A) (k : A → SE HostEngine HostFault B) :
  keeps I m → (∀ a, keeps I (k a)) → keeps I (m ≫= k).
Proof. intros Hm Hk. eapply triple_bind; [exact Hm|exact Hk]. Qed.
Lemma keeps_run {A} (m : SE HostEngine HostFault A) s : keeps I m → I s → I (m s).1.
Proof. intros Hm Hs. specialize (Hm s Hs). by destruct (m s) as [s' [a|e]]. Qed.
End keeps.

(** One step through the syntax of a command: known parts are closed by the lemmas
    of the database [keeps], other calls are unfolded. *)
Create HintDb keeps discriminated.
#[export] Hint Constants Opaque : keeps.
#[export] Hint Variables Opaque : keeps.
Ltac head_of t := lazymatch t with ?f _ => head_of f | _ => t end.
Ltac keep_step :=
  lazymatch goal with
  | |- keeps _ (mbind _ _) => apply keeps_bind; [|intros ?]
  | |- keeps _ (mret _) => apply keeps_ret
  | |- keeps _ (throw _) => apply keeps_throw
  | |- keeps _ (fail _) => apply keeps_throw
  | |- keeps _ (read _) => apply keeps_read
  | |- keeps _ (require ?b _) => unfold require; destruct b
  | |- keeps _ (modify _) => apply keeps_modify; intros ? Hkeep; exact Hkeep
  | |- keeps _ (match ?x with _ => _ end) => destruct x
  | |- keeps _ ?c => first [solve [auto 1 with keeps nocore]|let h := head_of c in unfold h]
  end.
Ltac keep := repeat keep_step.


Section facts.
Context `{Blake3, Postcard Transaction, Postcard (list WireNode), Ed25519, Json, BlobUrls}.
Implicit Types (s : HostEngine) (room namespace key : bytes).

(** ** Sessions *)

Record sessions_wf (rs : gset bytes) (ss : gmap Z SessionState) (pres : gmap bytes (gmap Z PresenceState))
    (subs : gmap bytes (gmap Z (list bytes))) : Prop := {
  so_room : ∀ i st, ss !! i = Some st → ss_room_id st ∈ rs;
  so_presence : ∀ room m i p, pres !! room = Some m → m !! i = Some p →
    ss !! i = Some (mkSession room (ps_from_peer_pubkey p));
  so_subs : ∀ room m i ps, subs !! room = Some m → m !! i = Some ps → ∃ peer, ss !! i = Some (mkSession room peer);
}.
Definition sessions_ok s : Prop := sessions_wf (rooms s) (sessions s) (room_presence s) (room_subscriptions s).

Lemma entry_lookup {V} (d : V) (k : bytes) (f : V → V) (m : gmap bytes V) (k' : bytes) (v : V) :
  entry d k f m !! k' = Some v ↔ (k = k' ∧ f (default d (m !! k)) = v ∨ k ≠ k' ∧ m !! k' = Some v).
Proof. apply lookup_insert_Some. Qed.

(** Touching a map of maps adds no entry. *)
Lemma touched_lookup {K V} `{Countable K} (k : bytes) (m : gmap bytes (gmap K V)) room (m' : gmap K V) (i : K) (v : V) :
  touch ∅ k m !! room = Some m' → m' !! i = Some v → m !! room = Some m'.
Proof.
  unfold touch. rewrite lookup_insert_Some. intros [[<- <-]|[_ ?]] Hi; [|done].
  destruct (m !! k); [done|]. simpl in Hi. by rewrite lookup_empty in Hi.
Qed.
(** Setting one entry of a map of maps. *)
Lemma entry_insert_lookup {K V} `{Countable K} (k : bytes) (i : K) (v : V) (m : gmap bytes (gmap K V)) room (m' : gmap K V) (j : K) (w : V) :
  entry ∅ k <[i := v]> m !! room = Some m' → m' !! j = Some w →
  (room = k ∧ j = i ∧ w = v) ∨ (∃ m0, m !! room = Some m0 ∧ m0 !! j = Some w).
Proof.
  rewrite entry_lookup. intros [[<- <-]|[Hne Hm]] Hj; [|eauto].
  apply lookup_insert_Some in Hj as [[<- <-]|[Hne Hj]]; [by left|right].
  destruct (m !! k) as [m0|] eqn:E; simpl in Hj; [eauto|]. by rewrite lookup_empty in Hj.
Qed.
(** Dropping entries of one inner map. *)
Lemma alter_drop_lookup {K V} `{Countable K} (k : bytes) (f : gmap K V → gmap K V) (m : gmap bytes (gmap K V)) room (m' : gmap K V) (j : K) (w : V) :
  (∀ x, f x ⊆ x) → alter f k m !! room = Some m' → m' !! j = Some w →
  ∃ m0, m !! room = Some m0 ∧ m0 !! j = Some w ∧ (room = k → m' = f m0).
Proof.
  intros Hf. rewrite lookup_alter_Some. intros [(<-&m0&Hm&->)|[Hne Hm]] Hj.
  - exists m0. split; [done|]. split; [|done]. by eapply lookup_weaken.
  - exists m'. split; [done|]. split; [done|]. intros ->. done.
Qed.

Lemma init_room_sessions room s : sessions_ok s → sessions_ok (init_room room s).
Proof.
  intros [Hr Hp Hs]. split; simpl.
  - intros i st Hi. apply elem_of_union_r. by eapply Hr.
  - intros r m i p Hm Hi. eapply Hp; [|exact Hi]. by eapply touched_lookup.
  - intros r m i ps Hm Hi. eapply Hs; [|exact Hi]. by eapply touched_lookup.
Qed.
Lemma init_canonical_sessions room s : sessions_ok s → sessions_ok (init_canonical room s).
Proof. by intros [? ? ?]. Qed.

Lemma commit_rows_sessions room rows : keeps sessions_ok (commit_rows room rows).
Proof. unfold commit_rows. keep. Qed.

Lemma open_session_sessions room i peer : keeps sessions_ok (open_session room i peer).
Proof.
  unfold open_session, require_room. intros s Hok. pose proof Hok as [Hr Hp Hs]. cbn. unfold mbind, se_bind, read, require, modify. cbn.
  case_bool_decide as Hroom; [|done]. cbn. case_bool_decide as Hi; [|done]. cbn. split; simpl.
  - intros j st. rewrite lookup_insert_Some. intros [[<- <-]|[_ Hj]]; [done|by eapply Hr].
  - intros r m j p Hm Hj. specialize (Hp r m j p Hm Hj). rewrite lookup_insert_ne; [done|]. congruence.
  - intros r m j ps Hm Hj. destruct (Hs r m j ps Hm Hj) as [q Hq]. exists q. rewrite lookup_insert_ne; [done|]. congruence.
Qed.
Lemma close_session_sessions i : keeps sessions_ok (close_session i).
Proof.
  unfold close_session. intros s Hok. pose proof Hok as [Hr Hp Hs]. unfold mbind, se_bind, read, modify. cbn.
  destruct (sessions s !! i) as [st|] eqn:Ei; [|done]. cbn. split; cbn.
  - intros j st' [_ Hj]%lookup_delete_Some. by eapply Hr.
  - intros r m j p Hm Hj.
    destruct (alter_drop_lookup _ _ _ _ _ _ _ (λ x, delete_subseteq x i) Hm Hj) as (m0&Hm0&Hj0&Hd).
    specialize (Hp _ _ _ _ Hm0 Hj0). rewrite lookup_delete_ne; [done|]. intros <-. rewrite Ei in Hp. injection Hp as ->.
    rewrite Hd in Hj by done. by rewrite lookup_delete_eq in Hj.
  - intros r m j ps Hm Hj.
    destruct (alter_drop_lookup _ _ _ _ _ _ _ (λ x, delete_subseteq x i) Hm Hj) as (m0&Hm0&Hj0&Hd).
    destruct (Hs _ _ _ _ Hm0 Hj0) as [q Hq]. exists q. rewrite lookup_delete_ne; [done|]. intros <-.
    rewrite Ei in Hq. injection Hq as ->. rewrite Hd in Hj by done. by rewrite lookup_delete_eq in Hj.
Qed.

(** The session a command found. *)
Lemma session_of_run room i s s' r :
  session_of room i s = (s', r) → s' = s ∧ match r with Ok st => sessions s !! i = Some st ∧ ss_room_id st = room | Err _ => True end.
Proof.
  unfold session_of, mbind, se_bind, read. cbn. destruct (sessions s !! i) as [st|]; [|by intros [= <- <-]].
  unfold require. case_bool_decide as Hr; cbn; by intros [= <- <-].
Qed.

Lemma presence_set_sessions room i d t n : keeps sessions_ok (presence_set room i d t n).
Proof.
  intros s Hok. pose proof Hok as [Hr Hp Hs]. unfold presence_set, mbind, se_bind.
  destruct (session_of room i s) as [s' r] eqn:E. apply session_of_run in E as [-> Hst]. destruct r as [st|e]; [|done].
  destruct Hst as [Hi Hroom]. cbn. split; cbn; [done| |done].
  intros r' m j p Hm Hj. destruct (entry_insert_lookup _ _ _ _ _ _ _ _ Hm Hj) as [(->&->&->)|(m0&Hm0&Hj0)]; [|by eapply Hp].
  simpl. rewrite Hi. destruct st. simpl in Hroom. by subst.
Qed.
Lemma subscribe_sessions room i ps : keeps sessions_ok (subscribe room i ps).
Proof.
  intros s Hok. pose proof Hok as [Hr Hp Hs]. unfold subscribe, mbind, se_bind.
  destruct (session_of room i s) as [s' r] eqn:E. apply session_of_run in E as [-> Hst]. destruct r as [st|e]; [|done].
  destruct Hst as [Hi Hroom]. cbn. split; cbn; [done|done|].
  intros r' m j q Hm Hj. destruct (entry_insert_lookup _ _ _ _ _ _ _ _ Hm Hj) as [(->&->&->)|(m0&Hm0&Hj0)]; [|by eapply Hs].
  exists (ss_peer_pubkey_hex st). rewrite Hi. destruct st. simpl in Hroom. by subst.
Qed.
Lemma presence_sweep_sessions room n : keeps sessions_ok (presence_sweep room n).
Proof.
  unfold presence_sweep. apply keeps_bind; [apply keeps_read|intros pres]. apply keeps_bind; [|intros _; apply keeps_ret].
  apply keeps_modify. intros s Hok. pose proof Hok as [Hr Hp Hs]. split; cbn; [done| |done]. intros r m j p Hm Hj.
  assert (∀ (l : list (Z * PresenceState)) (x : gmap Z PresenceState), foldl (λ m ip, delete ip.1 m) x l ⊆ x) as Hd.
  { intros l. induction l as [|[k v] l IH]; intros x; [done|]. cbn. etrans; [apply IH|apply delete_subseteq]. }
  destruct (alter_drop_lookup _ _ _ _ _ _ _ (Hd _) Hm Hj) as (m0&Hm0&Hj0&_). by eapply Hp.
Qed.
Lemma presence_get_all_sessions room : keeps sessions_ok (presence_get_all room).
Proof.
  unfold presence_get_all. keep. apply keeps_modify. intros s Hok. pose proof Hok as [Hr Hp Hs]. split; cbn; [done| |done].
  intros r m j p Hm Hj. eapply Hp; [|exact Hj]. by eapply touched_lookup.
Qed.

(** ** Checkpoints *)

Record canonical_wf (rows : gmap bytes (gmap bytes Value)) (seqs : gmap bytes Z)
    (snaps : gmap bytes (gmap Z CanonicalSnapshotState)) (index : gmap bytes (gmap bytes Z)) : Prop := {
  co_seq : ∀ room n, seqs !! room = Some n → 0 <= n;
  co_snap : ∀ room m n x, snaps !! room = Some m → m !! n = Some x →
    sn_sequence x = n ∧ 0 <= n <= default 0 (seqs !! room) ∧ sn_canonical_hash x = content_canonical_hash (sn_rows x);
  co_zero : ∀ room m x, snaps !! room = Some m → m !! 0 = Some x → sn_rows x = ∅;
  co_index : ∀ room m h n, index !! room = Some m → m !! h = Some n →
    ∃ ms x, snaps !! room = Some ms ∧ ms !! n = Some x ∧ sn_canonical_hash x = h;
  co_rows : ∀ room, default ∅ (rows !! room) =
    default ∅ (sn_rows <$> (default ∅ (snaps !! room) !! default 0 (seqs !! room)));
}.
Definition canonical_ok s : Prop :=
  canonical_wf (room_canonical_rows s) (room_canonical_seq s) (room_canonical_snapshots s) (room_canonical_hash_index s).

(** A proposal is validated only when its checkpoint is known. *)
Definition promotions_ok s : Prop :=
  ∀ id p, topology_promotions s !! id = Some p → pr_validated p = true →
    is_Some (room_canonical_hash_index s !! pr_child_room_id p ≫= λ m, m !! pr_child_checkpoint_hash p).
Definition checkpoints_ok s : Prop := canonical_ok s ∧ promotions_ok s.

(** The state after [commit_rows]. *)
Definition committed room (rows : gmap bytes Value) s : HostEngine :=
  let n := default 0 (room_canonical_seq s !! room) + 1 in
  let h := content_canonical_hash rows in
  let s := set_room_canonical_rows s (<[room := rows]> (room_canonical_rows s)) in
  let s := set_room_canonical_seq s (<[room := n]> (room_canonical_seq s)) in
  let s := set_room_canonical_snapshots s
    (entry ∅ room <[n := mkCanonicalSnapshot n rows h [seq_token n]]> (room_canonical_snapshots s)) in
  set_room_canonical_hash_index s (entry ∅ room <[h := n]> (room_canonical_hash_index s)).
Lemma commit_rows_run room rows s : commit_rows room rows s = (committed room rows s, Ok (content_canonical_hash rows)).
Proof.
  unfold commit_rows, committed, mbind, se_bind, modify, read, entry. cbn. by rewrite lookup_insert_eq.
Qed.

Lemma committed_index room rows s r h :
  is_Some (room_canonical_hash_index s !! r ≫= λ m, m !! h) →
  is_Some (room_canonical_hash_index (committed room rows s) !! r ≫= λ m, m !! h).
Proof.
  intros [n Hn]. cbn. unfold entry. destruct (decide (room = r)) as [->|Hne].
  - rewrite lookup_insert_eq. cbn. destruct (room_canonical_hash_index s !! r) as [m|]; [|done]. cbn in *.
    rewrite lookup_insert. case_decide; eauto.
  - rewrite lookup_insert_ne by done. eauto.
Qed.
Lemma committed_ok room rows s : checkpoints_ok s → checkpoints_ok (committed room rows s).
Proof.
  intros [[Hseq Hsnap Hzero Hidx Hrows] Hpr]. set (n := default 0 (room_canonical_seq s !! room) + 1).
  assert (0 <= default 0 (room_canonical_seq s !! room)) as Hn0.
  { destruct (room_canonical_seq s !! room) as [k|] eqn:E; [by eapply Hseq|done]. }
  split.
  - split; cbn; fold n.
    + intros r k. rewrite lookup_insert_Some. intros [[<- <-]|[_ Hk]]; [lia|by eapply Hseq].
    + intros r m k x Hm Hx. destruct (entry_insert_lookup _ _ _ _ _ _ _ _ Hm Hx) as [(->&->&->)|(m0&Hm0&Hx0)].
      * cbn. rewrite lookup_insert_eq. cbn. split; [done|]. split; [lia|done].
      * destruct (Hsnap _ _ _ _ Hm0 Hx0) as (?&Hb&?). split; [done|]. split; [|done].
        rewrite lookup_insert. case_decide as Hd; [subst r|done]. cbn. lia.
    + intros r m x Hm Hx. destruct (entry_insert_lookup _ _ _ _ _ _ _ _ Hm Hx) as [(_&?&_)|(m0&Hm0&Hx0)]; [lia|by eapply Hzero].
    + assert (∀ r ms k x, room_canonical_snapshots s !! r = Some ms → ms !! k = Some x →
        ∃ ms', entry ∅ room <[n := mkCanonicalSnapshot n rows (content_canonical_hash rows) [seq_token n]]>
          (room_canonical_snapshots s) !! r = Some ms' ∧ ms' !! k = Some x) as Hkeep.
      { intros r ms k x Hms Hx. unfold entry. rewrite lookup_insert. case_decide as Hd; [subst r|eauto].
        rewrite Hms. cbn. eexists. split; [done|]. rewrite lookup_insert_ne; [done|]. destruct (Hsnap _ _ _ _ Hms Hx). lia. }
      intros r m h k Hm Hk. destruct (entry_insert_lookup _ _ _ _ _ _ _ _ Hm Hk) as [(->&->&->)|(m0&Hm0&Hk0)].
      * unfold entry. rewrite lookup_insert_eq. eexists _, _. split; [done|]. rewrite lookup_insert_eq. done.
      * destruct (Hidx _ _ _ _ Hm0 Hk0) as (ms&x&Hms&Hx&?). destruct (Hkeep _ _ _ _ Hms Hx) as (ms'&?&?). eauto.
    + intros r. unfold entry. destruct (decide (room = r)) as [->|Hne].
      * rewrite !lookup_insert_eq. cbn. by rewrite lookup_insert_eq.
      * rewrite !lookup_insert_ne by done. apply Hrows.
  - intros id p Hp Hv. apply committed_index. by eapply Hpr.
Qed.
Lemma commit_rows_ok room rows : keeps checkpoints_ok (commit_rows room rows).
Proof. intros s Hs. rewrite commit_rows_run. by apply committed_ok. Qed.

(** The snapshots and the index [EnsureRoom] leaves behind. *)
Definition snapshot_zero : CanonicalSnapshotState := mkCanonicalSnapshot 0 ∅ (content_canonical_hash ∅) [seq_token 0].
Definition with_zero (m : gmap Z CanonicalSnapshotState) : gmap Z CanonicalSnapshotState :=
  <[0 := default snapshot_zero (m !! 0)]> m.
Lemma with_zero_spec m n x : with_zero m !! n = Some x ↔ m !! n = Some x ∨ n = 0 ∧ m !! 0 = None ∧ x = snapshot_zero.
Proof.
  unfold with_zero. rewrite lookup_insert_Some. destruct (m !! 0) as [y|] eqn:E; cbn; destruct (decide (n = 0)) as [->|]; naive_solver.
Qed.
Lemma touch_default {V} (d : V) (k : bytes) (m : gmap bytes V) (r : bytes) : default d (touch d k m !! r) = default d (m !! r).
Proof. unfold touch. rewrite lookup_insert. case_decide; by subst. Qed.

Lemma init_canonical_wf room s : checkpoints_ok s → canonical_ok (init_canonical room s).
Proof.
  intros [[Hseq Hsnap Hzero Hidx Hrows] _].
  set (snaps := entry ∅ room with_zero (room_canonical_snapshots s)).
  assert (∀ r m n x, snaps !! r = Some m → m !! n = Some x →
    (∃ m0, room_canonical_snapshots s !! r = Some m0 ∧ m0 !! n = Some x) ∨ n = 0 ∧ x = snapshot_zero) as Hold.
  { intros r m n x Hm Hx. apply entry_lookup in Hm as [[<- <-]|[Hne Hm]]; [|eauto].
    apply with_zero_spec in Hx as [Hx|(->&_&->)]; [left|by right].
    destruct (room_canonical_snapshots s !! room) as [m0|]; cbn in Hx; [eauto|by rewrite lookup_empty in Hx]. }
  assert (∀ r m0 n x, room_canonical_snapshots s !! r = Some m0 → m0 !! n = Some x →
    ∃ m, snaps !! r = Some m ∧ m !! n = Some x) as Hnew.
  { intros r m0 n x Hm Hx. unfold snaps, entry. rewrite lookup_insert. case_decide as Hd; [subst r|eauto].
    rewrite Hm. cbn. eexists. split; [done|]. apply with_zero_spec. by left. }
  assert (0 <= default 0 (room_canonical_seq s !! room)) as Hn0.
  { destruct (room_canonical_seq s !! room) as [k|] eqn:E; [by eapply Hseq|done]. }
  split; cbn; fold snapshot_zero; change (entry ∅ room _ (room_canonical_snapshots s)) with snaps.
  - intros r n. unfold touch. rewrite lookup_insert_Some. intros [[<- <-]|[_ ?]]; [done|by eapply Hseq].
  - intros r m n x Hm Hx. rewrite touch_default. destruct (Hold _ _ _ _ Hm Hx) as [(m0&Hm0&Hx0)|[-> ->]]; [by eapply Hsnap|].
    split; [done|]. split; [|done]. destruct (room_canonical_seq s !! r) as [k|] eqn:E; cbn; [apply Hseq in E; lia|lia].
  - intros r m x Hm Hx. destruct (Hold _ _ _ _ Hm Hx) as [(m0&Hm0&Hx0)|[_ ->]]; [by eapply Hzero|done].
  - assert (∃ m x, snaps !! room = Some m ∧ m !! 0 = Some x ∧ sn_canonical_hash x = content_canonical_hash ∅) as Hz.
    { unfold snaps, entry. rewrite lookup_insert_eq. eexists _, _. split; [done|]. unfold with_zero. rewrite lookup_insert_eq.
      split; [done|]. destruct (room_canonical_snapshots s !! room) as [m|] eqn:E; cbn; [|by rewrite lookup_empty].
      destruct (m !! 0) as [x|] eqn:E0; cbn; [|done]. destruct (Hsnap _ _ _ _ E E0) as (_&_&->). by rewrite (Hzero _ _ _ E E0). }
    assert (∀ mi h n, room_canonical_hash_index s !! room = Some mi → mi !! h = Some n →
      ∃ m x, snaps !! room = Some m ∧ m !! n = Some x ∧ sn_canonical_hash x = h) as Hi.
    { intros mi h n Hm Hh. destruct (Hidx _ _ _ _ Hm Hh) as (ms&x&Hms&Hx&?). destruct (Hnew _ _ _ _ Hms Hx) as (m&?&?). eauto. }
    intros r m h n Hm Hn. apply entry_lookup in Hm as [[<- <-]|[Hne Hm]].
    + unfold touch in Hn. destruct (room_canonical_hash_index s !! room) as [mi|] eqn:Ei; cbn in Hn.
      * apply lookup_insert_Some in Hn as [[<- Hn]|[_ Hn]]; [|by eapply Hi].
        destruct (mi !! content_canonical_hash ∅) as [k|] eqn:Ek; cbn in Hn; subst n; [by eapply Hi|done].
      * rewrite lookup_empty in Hn. cbn in Hn. apply lookup_insert_Some in Hn as [[<- <-]|[_ Hn]]; [done|by rewrite lookup_empty in Hn].
    + destruct (Hidx _ _ _ _ Hm Hn) as (ms&x&Hms&Hx&?). destruct (Hnew _ _ _ _ Hms Hx) as (m'&?&?). eauto.
  - intros r. rewrite !touch_default, Hrows. unfold snaps, entry. rewrite lookup_insert. case_decide as Hd; [subst r|done].
    cbn. set (q := default 0 (room_canonical_seq s !! room)). set (m := default ∅ (room_canonical_snapshots s !! room)).
    destruct (m !! q) as [x|] eqn:E; cbn.
    + assert (with_zero m !! q = Some x) as -> by (apply with_zero_spec; by left). done.
    + destruct (with_zero m !! q) as [x|] eqn:E'; [|done]. apply with_zero_spec in E' as [?|(_&_&->)]; [congruence|done].
Qed.
Lemma init_canonical_index room s r h :
  is_Some (room_canonical_hash_index s !! r ≫= λ m, m !! h) →
  is_Some (room_canonical_hash_index (init_canonical room s) !! r ≫= λ m, m !! h).
Proof.
  intros [n Hn]. cbn. unfold entry. rewrite lookup_insert. case_decide as Hd; [subst r|eauto]. cbn.
  destruct (room_canonical_hash_index s !! room) as [m|]; [|done]. cbn in Hn |- *.
  unfold touch. rewrite lookup_insert. case_decide as Hh; [|eauto]. subst h. rewrite Hn. by eexists.
Qed.
Lemma init_canonical_ok room s : checkpoints_ok s → checkpoints_ok (init_canonical room s).
Proof.
  intros Hs. split; [by apply init_canonical_wf|]. intros id p Hp Hv. apply init_canonical_index. by eapply (proj2 Hs).
Qed.

Lemma alter_frontier_ok (f : list bytes) room n s :
  checkpoints_ok s →
  checkpoints_ok (set_room_canonical_snapshots s (alter (alter (set_snapshot_frontier f) n) room (room_canonical_snapshots s))).
Proof.
  intros [[Hseq Hsnap Hzero Hidx Hrows] Hpr].
  set (snaps := alter (alter (set_snapshot_frontier f) n) room (room_canonical_snapshots s)).
  assert (∀ r m k x, snaps !! r = Some m → m !! k = Some x → ∃ m0 x0, room_canonical_snapshots s !! r = Some m0 ∧ m0 !! k = Some x0 ∧
    sn_sequence x = sn_sequence x0 ∧ sn_rows x = sn_rows x0 ∧ sn_canonical_hash x = sn_canonical_hash x0) as Hold.
  { intros r m k x Hm Hx. apply lookup_alter_Some in Hm as [(<-&m0&Hm0&->)|[_ Hm]]; [|eauto 10].
    apply lookup_alter_Some in Hx as [(<-&x0&Hx0&->)|[_ Hx]]; eauto 10. }
  assert (∀ r, (λ m, sn_rows <$> m) <$> snaps !! r = (λ m, sn_rows <$> m) <$> room_canonical_snapshots s !! r) as Hr.
  { intros r. unfold snaps. destruct (decide (room = r)) as [->|]; [|by rewrite lookup_alter_ne].
    rewrite lookup_alter_eq. destruct (room_canonical_snapshots s !! r) as [m|]; [|done].
    cbn. f_equal. apply map_eq. intros k. rewrite !lookup_fmap. destruct (decide (n = k)) as [->|Hk].
    - rewrite lookup_alter_eq. by destruct (m !! k).
    - by rewrite lookup_alter_ne. }
  split; [split; cbn; fold snaps|exact Hpr].
  - exact Hseq.
  - intros r m k x Hm Hx. destruct (Hold _ _ _ _ Hm Hx) as (m0&x0&Hm0&Hx0&->&->&->). by eapply Hsnap.
  - intros r m x Hm Hx. destruct (Hold _ _ _ _ Hm Hx) as (m0&x0&Hm0&Hx0&_&->&_). by eapply Hzero.
  - intros r m h k Hm Hk. destruct (Hidx _ _ _ _ Hm Hk) as (ms&x&Hms&Hx&Hh). unfold snaps.
    destruct (decide (room = r)) as [->|Hd]; [|rewrite lookup_alter_ne by done; eauto]. rewrite lookup_alter_eq, Hms. cbn.
    destruct (decide (n = k)) as [->|Hn].
    + eexists _, _. rewrite lookup_alter_eq, Hx. cbn. eauto.
    + eexists _, x. rewrite lookup_alter_ne by done. eauto.
  - intros r. rewrite Hrows. set (q := default 0 (room_canonical_seq s !! r)). specialize (Hr r).
    destruct (snaps !! r) as [m|], (room_canonical_snapshots s !! r) as [m0|]; try done. cbn in Hr |- *.
    injection Hr as E. assert ((sn_rows <$> m) !! q = (sn_rows <$> m0) !! q) as Eq by (by rewrite E).
    rewrite !lookup_fmap in Eq. by rewrite Eq.
Qed.
Lemma touch_rows_ok room s : checkpoints_ok s → checkpoints_ok (set_room_canonical_rows s (touch ∅ room (room_canonical_rows s))).
Proof.
  intros [[Hseq Hsnap Hzero Hidx Hrows] Hpr]. split; [|exact Hpr]. split; cbn; try done. intros r. by rewrite touch_default.
Qed.

Lemma checkpoints_maps s m : checkpoints_ok s → checkpoints_ok (set_room_maps s m).
Proof. intros Hs. exact Hs. Qed.

Lemma propose_ok p c h r k : keeps checkpoints_ok (propose_topology_promotion p c h r k).
Proof.
  unfold propose_topology_promotion. keep. apply keeps_modify. intros s [Hc Hp]. split; [exact Hc|].
  intros id q. cbn. rewrite lookup_insert_Some. intros [[_ <-]|[_ Hq]]; [done|by eapply Hp].
Qed.
Lemma validate_ok id : keeps checkpoints_ok (validate_topology_promotion id).
Proof.
  intros s Hs. unfold validate_topology_promotion, mbind, se_bind, read, modify. cbn.
  destruct (topology_promotions s !! id) as [p|]; [|done]. destruct (decide _) as [Hi|]; [|done].
  destruct Hs as [Hc Hp]. split; [exact Hc|]. intros id' q. cbn. rewrite lookup_insert_Some.
  intros [[_ <-]|[_ Hq]]; [done|by eapply Hp].
Qed.
(** What a validated proposal does to the state. *)
Definition promoted (id : bytes) (p : PromotionState) s : HostEngine :=
  let s1 := set_topology_promotions s (<[id := set_promotion p true true]> (topology_promotions s)) in
  committed (pr_parent_room_id p)
    (checkpoint_rows (pr_child_room_id p) (pr_child_checkpoint_hash p) s ∪ canonical_rows_of (pr_parent_room_id p) s) s1.
Lemma apply_promotion_run id p s :
  topology_promotions s !! id = Some p → pr_validated p = true →
  ∃ audit, apply_topology_promotion id s =
    (set_room_maps (promoted id p s) (entry ∅ (pr_parent_room_id p) <[bs "_topology/promotion/" ++ id := audit]> (room_maps s)),
     Ok [EvPromotionApplied id (pr_parent_room_id p)
           (content_canonical_hash (checkpoint_rows (pr_child_room_id p) (pr_child_checkpoint_hash p) s
              ∪ canonical_rows_of (pr_parent_room_id p) s)) (bs "_topology/promotion/" ++ id)]).
Proof.
  intros Ep Ev. unfold apply_topology_promotion. eexists.
  etrans; [apply (se_bind_ok (read topology_promotions)); reflexivity|]. cbv beta. rewrite Ep. cbv iota beta.
  etrans; [apply se_bind_ok; rewrite Ev; reflexivity|]. cbv beta.
  etrans; [apply (se_bind_ok (modify _)); reflexivity|]. cbv beta zeta.
  etrans; [apply (se_bind_ok (read _)); reflexivity|]. cbv beta.
  etrans; [apply (se_bind_ok (read _)); reflexivity|]. cbv beta.
  etrans; [apply se_bind_ok, commit_rows_run|]. cbv beta zeta.
  etrans; [apply (se_bind_ok (modify _)); reflexivity|]. cbv beta.
  reflexivity.
Qed.
Lemma committed_rows room rows s : canonical_rows_of room (committed room rows s) = rows.
Proof. unfold canonical_rows_of. cbn. by rewrite lookup_insert_eq. Qed.
Lemma committed_latest room rows s :
  let n := default 0 (room_canonical_seq s !! room) + 1 in
  room_latest_snapshot room (committed room rows s) = Some (mkCanonicalSnapshot n rows (content_canonical_hash rows) [seq_token n]).
Proof.
  unfold room_latest_snapshot, latest_of. cbn. unfold entry. rewrite !lookup_insert_eq. cbn. by rewrite !lookup_insert_eq.
Qed.
Lemma committed_other room rows s r : r ≠ room → canonical_rows_of r (committed room rows s) = canonical_rows_of r s.
Proof. intros Hr. unfold canonical_rows_of. cbn. by rewrite lookup_insert_ne. Qed.
Lemma promoted_ok id p s :
  topology_promotions s !! id = Some p → pr_validated p = true → checkpoints_ok s → checkpoints_ok (promoted id p s).
Proof.
  intros Ep Ev [Hc Hp]. apply committed_ok. split; [exact Hc|]. intros id' q. cbn. rewrite lookup_insert_Some.
  intros [[_ <-]|[_ Hq]]; [intros _; exact (Hp id p Ep Ev)|by eapply Hp].
Qed.
Lemma apply_promotion_ok id : keeps checkpoints_ok (apply_topology_promotion id).
Proof.
  intros s Hs. destruct (topology_promotions s !! id) as [p|] eqn:Ep.
  - destruct (pr_validated p) eqn:Ev.
    + destruct (apply_promotion_run id p s Ep Ev) as [audit ->]. by apply checkpoints_maps, promoted_ok.
    + unfold apply_topology_promotion, mbind, se_bind, read. rewrite Ep, Ev. done.
  - unfold apply_topology_promotion, mbind, se_bind, read. by rewrite Ep.
Qed.


Lemma ensure_room_ok room : keeps checkpoints_ok (ensure_room room).
Proof.
  unfold ensure_room. apply keeps_bind; [|intros _; apply keeps_ret]. apply keeps_modify. intros s Hs.
  apply init_canonical_ok. exact Hs.
Qed.
Lemma ensure_room_sessions room : keeps sessions_ok (ensure_room room).
Proof.
  unfold ensure_room. apply keeps_bind; [|intros _; apply keeps_ret]. apply keeps_modify. intros s Hs.
  by apply init_canonical_sessions, init_room_sessions.
Qed.
Lemma sessions_maps s m : sessions_ok s → sessions_ok (set_room_maps s m).
Proof. intros Hs. exact Hs. Qed.
Lemma create_child_sessions p c u b y k : keeps sessions_ok (create_topology_child p c u b y k).
Proof.
  unfold create_topology_child. keep. apply keeps_modify. intros s Hs. by apply sessions_maps, init_room_sessions.
Qed.
Lemma promote_ok room t : keeps checkpoints_ok (promote_checkpoint_to_graph room t).
Proof.
  keep; apply keeps_modify; intros s Hs; by apply alter_frontier_ok.
Qed.
Lemma import_archive_ok room a m e : keeps checkpoints_ok (import_archive room a m e).
Proof. keep; apply keeps_modify; intros s Hs; by apply touch_rows_ok. Qed.

#[local] Hint Resolve commit_rows_ok ensure_room_ok propose_ok validate_ok apply_promotion_ok promote_ok import_archive_ok : keeps.
Lemma apply_checkpoints room c : keeps checkpoints_ok (apply_command room c).
Proof. destruct c; cbn [apply_command]; keep. Qed.

#[local] Hint Resolve ensure_room_sessions create_child_sessions open_session_sessions close_session_sessions
  presence_set_sessions presence_sweep_sessions presence_get_all_sessions subscribe_sessions : keeps.
Lemma apply_sessions room c : keeps sessions_ok (apply_command room c).
Proof. destruct c; cbn [apply_command]; keep. Qed.
End facts.
