(* ===== verification/HostText.v ===== *)
(** The text documents of the host engine: every live character is read exactly
    once, whatever was typed, and where the order of the ids leads. *)

From S2P Require Import Prelude Str StErr Hex Op Node Policy Frontier Storage Conflicts Fenwick.
From S2P Require Import TextState Text Graph Replay Token Mst HostTypes HostState Host HostFacts.

(** ** Documents *)

(** Ids are unique, and every anchor stands before its character. *)
Inductive doc_ok : list TextCharState → Prop :=
| doc_nil : doc_ok []
| doc_snoc doc st : doc_ok doc → tc_id st ∉ tc_id <$> doc →
    (∀ a, tc_after_id st = Some a → a ∈ tc_id <$> doc) → doc_ok (doc ++ [st]).

Lemma doc_ids doc : doc_ok doc → NoDup (tc_id <$> doc).
Proof.
  induction 1 as [|doc st _ IH Hid _]; [constructor|]. rewrite fmap_app. apply NoDup_app. split; [done|].
  split; [|apply NoDup_singleton]. intros x Hx Hy%list_elem_of_singleton. by subst.
Qed.

(** The anchor of a character stands before it. *)
Lemma doc_anchor_before d k st a : doc_ok (d ++ st :: k) → tc_after_id st = Some a → a ∈ tc_id <$> d.
Proof.
  intros Hok Ea. remember (d ++ st :: k) as doc eqn:E. revert k E. induction Hok as [|d0 z _ IH _ Ha]; intros k E.
  - by destruct d.
  - destruct k as [|z' k _] using rev_ind.
    + apply app_inj_2 in E as [-> [= ->]]; [|done]. by apply Ha.
    + rewrite app_comm_cons, app_assoc in E. apply app_inj_2 in E as [E _]; [|done]. by eapply IH.
Qed.
Lemma doc_anchor doc st a : doc_ok doc → st ∈ doc → tc_after_id st = Some a → a ∈ tc_id <$> doc.
Proof.
  intros Hok (d&k&->)%list_elem_of_split Ea. rewrite fmap_app. apply elem_of_app. left. by eapply doc_anchor_before.
Qed.

(** An id names one character. *)
Lemma text_state_unique doc st :
  NoDup (tc_id <$> doc) → st ∈ doc → text_state doc (tc_id st) = Some st.
Proof.
  intros Hnd Hin. unfold text_state. apply list_elem_of_split in Hin as (l1&l2&->).
  rewrite fmap_app, fmap_cons in Hnd. apply NoDup_app in Hnd as (_&Hd&[Hn _]%NoDup_cons).
  rewrite filter_app, filter_cons, decide_True by done.
  assert (filter (λ x, tc_id x = tc_id st) l2 = []) as ->.
  { apply elem_of_nil_inv. intros x [Hx Hin]%list_elem_of_filter. apply Hn. rewrite <-Hx. by apply list_elem_of_fmap_2. }
  by rewrite last_snoc.
Qed.

Lemma text_children_spec doc anchor id :
  id ∈ text_children doc anchor ↔ ∃ st, st ∈ doc ∧ tc_id st = id ∧ tc_after_id st = anchor.
Proof.
  unfold text_children. rewrite elem_of_reverse, elem_of_sort, list_elem_of_fmap.
  setoid_rewrite list_elem_of_filter. naive_solver.
Qed.
Lemma text_children_nodup doc anchor : NoDup (tc_id <$> doc) → NoDup (text_children doc anchor).
Proof.
  intros Hnd. unfold text_children. rewrite reverse_Permutation, sort_perm.
  eapply sublist_NoDup; [exact Hnd|]. apply fmap_sublist, sublist_filter.
Qed.

(** ** The walk *)

Definition visible_entry (st : TextCharState) : option TextEntry :=
  if tc_tombstoned st then None else Some (mkTextEntry (tc_id st) [tc_ch st]).

(** [rest] is what the walk has not visited yet: a character waits behind its
    anchor exactly as long as the anchor is unvisited. *)
Record walking (doc : list TextCharState) (stack : list bytes) (rest : list TextCharState) : Prop := {
  wk_rest : rest ⊆ doc;
  wk_nodup : NoDup (tc_id <$> rest);
  wk_stack : NoDup stack;
  wk_in : ∀ id, id ∈ stack → id ∈ tc_id <$> rest;
  wk_wait : ∀ st, st ∈ doc → ((st ∈ rest ∧ tc_id st ∉ stack) ↔ ∃ a, tc_after_id st = Some a ∧ a ∈ tc_id <$> rest);
}.

Section walk.
Context (doc : list TextCharState) (Hdoc : doc_ok doc).

Lemma walking_start : walking doc (text_children doc None) doc.
Proof.
  split; [done|by apply doc_ids|by apply text_children_nodup, doc_ids|..].
  - intros id (st&Hst&<-&_)%text_children_spec. by apply list_elem_of_fmap_2.
  - intros st Hst. rewrite text_children_spec. split.
    + intros [_ Hn]. destruct (tc_after_id st) as [a|] eqn:Ea; [|destruct Hn; by exists st].
      exists a. split; [done|]. by eapply doc_anchor.
    + intros (a&Ea&_). split; [done|]. intros (st'&Hst'&Eid&En). pose proof (doc_ids doc Hdoc) as Hnd.
      pose proof (text_state_unique doc st Hnd Hst) as E1. rewrite <-Eid, (text_state_unique doc st' Hnd Hst') in E1. congruence.
Qed.

(** A walk with an empty stack is over. *)
Lemma walking_end rest : walking doc [] rest → rest = [].
Proof.
  intros [Hsub Hnd _ _ Hw]. destruct rest as [|x rest']; [done|exfalso]. set (rest := x :: rest') in *.
  assert (∀ st, st ∈ doc → st ∉ rest) as Hno.
  { assert (∀ d, d `prefix_of` doc → ∀ st, st ∈ d → st ∉ rest) as Hpre; [|apply Hpre; done].
    intros d. induction d as [|y d IH] using rev_ind; intros Hp st Hst Hin; [by apply not_elem_of_nil in Hst|].
    assert (d `prefix_of` doc) as Hd by (etrans; [by exists [y]|done]).
    apply elem_of_app in Hst as [Hst|Hst%list_elem_of_singleton]; [by eapply IH|]. subst y.
    destruct (proj1 (Hw st (Hsub _ Hin))) as (a&Ea&Har); [split; [done|apply not_elem_of_nil]|].
    assert (a ∈ tc_id <$> d) as Had.
    { destruct Hp as [k E]. rewrite <-app_assoc in E. rewrite E in Hdoc. by eapply doc_anchor_before. }
    apply list_elem_of_fmap in Had as (z&->&Hz). apply list_elem_of_fmap in Har as (z'&Ez&Hz').
    pose proof (doc_ids doc Hdoc) as Hids.
    assert (z ∈ doc) as Hzd by (destruct Hd as [k ->]; apply elem_of_app; by left).
    pose proof (text_state_unique doc z Hids Hzd) as E1. rewrite Ez, (text_state_unique doc z' Hids (Hsub _ Hz')) in E1.
    injection E1 as ->. exact (IH Hd z Hz Hz'). }
  apply (Hno x); [apply Hsub|]; by left.
Qed.

Lemma doc_unique st st' : st ∈ doc → st' ∈ doc → tc_id st = tc_id st' → st = st'.
Proof.
  intros Hst Hst' E. pose proof (doc_ids doc Hdoc) as Hnd. pose proof (text_state_unique doc st Hnd Hst) as E1.
  rewrite E, (text_state_unique doc st' Hnd Hst') in E1. congruence.
Qed.

(** One step: the id on top of the stack is visited, and its children wait in its
    place. *)
Lemma walking_step id stack rest :
  walking doc (id :: stack) rest →
  ∃ st rest', rest ≡ₚ st :: rest' ∧ text_state doc id = Some st ∧ walking doc (text_children doc (Some id) ++ stack) rest'.
Proof.
  intros [Hsub Hnd Hstack Hin Hw]. pose proof Hstack as [Hid Hstack']%NoDup_cons.
  assert (id ∈ tc_id <$> rest) as Hir by (apply Hin; by left).
  apply list_elem_of_fmap in Hir as (st&->&Hst). apply list_elem_of_split in Hst as (r1&r2&->).
  assert (r1 ++ st :: r2 ≡ₚ st :: (r1 ++ r2)) as Hp by (by rewrite Permutation_middle).
  set (rest := r1 ++ st :: r2) in *. set (rest' := r1 ++ r2) in *.
  assert (Hnd' := Hnd). rewrite Hp, fmap_cons, NoDup_cons in Hnd'. destruct Hnd' as [Hnr Hnd'].
  assert (∀ x, x ∈ rest ↔ x = st ∨ x ∈ rest') as Hr by (intros x; by rewrite Hp, elem_of_cons).
  assert (∀ a, a ∈ tc_id <$> rest ↔ a = tc_id st ∨ a ∈ tc_id <$> rest') as Ha by (intros a; by rewrite Hp, fmap_cons, elem_of_cons).
  assert (st ∈ doc) as Hsd by (apply Hsub, Hr; by left).
  assert (∀ c, c ∈ doc → tc_after_id c = Some (tc_id st) → c ∈ rest' ∧ tc_id c ∉ tc_id st :: stack) as Hch.
  { intros c Hc Ec. destruct (proj2 (Hw c Hc)) as [Hcr Hcs]; [exists (tc_id st); split; [done|apply Ha; by left]|].
    split; [|done]. apply Hr in Hcr as [->|Hcr]; [|done]. destruct Hcs. by left. }
  exists st, rest'. split; [done|]. split; [by apply text_state_unique; [apply doc_ids|]|]. split.
  - intros x Hx. apply Hsub, Hr. by right.
  - done.
  - apply NoDup_app. split; [by apply text_children_nodup, doc_ids|]. split; [|done].
    intros x (c&Hc&<-&Ec)%text_children_spec Hx. destruct (Hch c Hc Ec) as [_ Hn]. apply Hn. by right.
  - intros x. rewrite elem_of_app. intros [(c&Hc&<-&Ec)%text_children_spec|Hx].
    + by apply list_elem_of_fmap_2, (Hch c Hc Ec).
    + destruct (proj1 (Ha x)) as [->|Hx']; [apply Hin; by right|done|done].
  - intros c Hc. rewrite not_elem_of_app, text_children_spec. split.
    + intros (Hcr&Hn&Hs). destruct (proj1 (Hw c Hc)) as (a&Ea&Har).
      { split; [apply Hr; by right|]. apply not_elem_of_cons. split; [|done]. intros E. apply Hnr. rewrite <-E. by apply list_elem_of_fmap_2. }
      exists a. split; [done|]. apply Ha in Har as [->|Har]; [|done]. destruct Hn. by exists c.
    + intros (a&Ea&Har). destruct (proj2 (Hw c Hc)) as [Hcr [Hne Hns]%not_elem_of_cons]; [exists a; split; [done|apply Ha; by right]|].
      apply Hr in Hcr as [->|Hcr]; [done|]. split; [done|]. split; [|done].
      intros (c'&Hc'&E&Ec'). rewrite (doc_unique c' c Hc' Hc E) in Ec'. rewrite Ea in Ec'. injection Ec' as ->. done.
Qed.

(** A walk with enough fuel reads every unvisited character that is live. *)
Lemma rga_walk_complete fuel stack rest :
  (length rest <= fuel)%nat → walking doc stack rest → rga_walk fuel doc stack ≡ₚ omap visible_entry rest.
Proof.
  revert stack rest. induction fuel as [|fuel IH]; intros stack rest Hf Hw.
  - destruct rest; [done|cbn in Hf; lia].
  - destruct stack as [|id stack]; [by rewrite (walking_end rest Hw)|].
    destruct (walking_step id stack rest Hw) as (st&rest'&Hp&Est&Hw'). cbn [rga_walk]. rewrite Est, Hp, (IH _ rest').
    + cbn [omap list_omap]. unfold visible_entry. by destruct (tc_tombstoned st).
    + apply Permutation_length in Hp. cbn in Hp. lia.
    + done.
Qed.
Lemma text_entries_complete : text_entries_in_rga_order doc ≡ₚ omap visible_entry doc.
Proof. by apply rga_walk_complete, walking_start. Qed.
End walk.

(** ** The documents of a reachable engine *)

(** Only ids and anchors matter. *)
Definition placing (st : TextCharState) : bytes * option bytes := (tc_id st, tc_after_id st).
Lemma placing_ids (doc doc' : list TextCharState) : placing <$> doc = placing <$> doc' → tc_id <$> doc = tc_id <$> doc'.
Proof.
  intros E. assert (∀ d, tc_id <$> d = fst <$> (placing <$> d)) as Ei by (intros d; by rewrite <-list_fmap_compose). by rewrite !Ei, E.
Qed.
Lemma doc_ok_placing (doc doc' : list TextCharState) : placing <$> doc = placing <$> doc' → doc_ok doc → doc_ok doc'.
Proof.
  intros E Hok. revert doc' E. induction Hok as [|d st Hd IH Hid Ha]; intros doc' E.
  - destruct doc'; [constructor|done].
  - destruct doc' as [|st' d' _] using rev_ind; [by rewrite fmap_app in E; destruct (placing <$> d)|].
    rewrite !fmap_app in E. apply app_inj_2 in E as [E Est]; [|done]. cbn in Est. injection Est as Ei Ea.
    pose proof (placing_ids _ _ E) as Eids. constructor; [by apply IH|by rewrite <-Ei, <-Eids|].
    intros a. rewrite <-Ea, <-Eids. apply Ha.
Qed.
Lemma tombstone_placing id doc : placing <$> (tombstone_first id doc).1 = placing <$> doc.
Proof.
  induction doc as [|st doc IH]; [done|]. cbn [tombstone_first]. destruct (decide _); [done|].
  destruct (tombstone_first id doc) as [d f]. cbn in *. by rewrite IH.
Qed.

(** Every id of a document was handed out by the counter of its room. *)
Definition text_id (n : Z) : bytes := bs "text-" ++ decimal n.
Definition issued (bound : Z) (doc : list TextCharState) : Prop :=
  ∀ st, st ∈ doc → ∃ k, tc_id st = text_id k ∧ 1 <= k <= bound.
Record texts_wf (texts : gmap bytes (gmap bytes (list TextCharState))) (ids : gmap bytes Z) : Prop := {
  tw_next : ∀ room n, ids !! room = Some n → 0 <= n;
  tw_doc : ∀ room m key doc, texts !! room = Some m → m !! key = Some doc →
    doc_ok doc ∧ issued (default 0 (ids !! room)) doc;
}.
Definition texts_ok (s : HostEngine) : Prop := texts_wf (room_texts s) (room_text_next_id s).

Lemma text_id_inj n m : 0 <= n → 0 <= m → text_id n = text_id m → n = m.
Proof. intros Hn Hm E%app_inv_head. by apply decimal_inj. Qed.
Lemma text_doc_ok room key s : texts_ok s → doc_ok (text_doc room key s) ∧ issued (default 0 (room_text_next_id s !! room)) (text_doc room key s).
Proof.
  intros [Hn Hd]. unfold text_doc. destruct (room_texts s !! room) as [m|] eqn:Em; cbn.
  - destruct (m !! key) as [doc|] eqn:Ek; cbn; [by eapply Hd|]. split; [constructor|]. by intros st ?%not_elem_of_nil.
  - rewrite lookup_empty. cbn. split; [constructor|]. by intros st ?%not_elem_of_nil.
Qed.
Lemma set_text_ok room key doc s :
  texts_ok s → doc_ok doc → issued (default 0 (room_text_next_id s !! room)) doc →
  texts_ok (set_room_texts s (entry ∅ room <[key := doc]> (room_texts s))).
Proof.
  intros [Hn Hd] Hdoc Hi. split; cbn; [exact Hn|]. intros r m k d Hm Hk.
  destruct (entry_insert_lookup _ _ _ _ _ _ _ _ Hm Hk) as [(->&->&->)|(m0&Hm0&Hk0)]; [done|by eapply Hd].
Qed.
Lemma bump_text_ok room s n :
  texts_ok s → default 0 (room_text_next_id s !! room) <= n → texts_ok (set_room_text_next_id s (<[room := n]> (room_text_next_id s))).
Proof.
  intros [Hn Hd] Hle. assert (0 <= default 0 (room_text_next_id s !! room)) as H0.
  { destruct (room_text_next_id s !! room) as [k|] eqn:E; [by eapply Hn|done]. }
  split; cbn.
  - intros r k. rewrite lookup_insert_Some. intros [[<- <-]|[_ ?]]; [lia|by eapply Hn].
  - intros r m k d Hm Hk. destruct (Hd r m k d Hm Hk) as [Hok Hi]. split; [done|]. intros st Hst.
    destruct (Hi st Hst) as (j&Ej&Hj). exists j. split; [done|]. rewrite lookup_insert. case_decide as Hr; [subst r|done]. cbn. lia.
Qed.
Lemma touch_text_ok room s : texts_ok s → texts_ok (set_room_texts s (touch ∅ room (room_texts s))).
Proof. intros [Hn Hd]. split; cbn; [exact Hn|]. intros r m k d Hm Hk. eapply Hd; [|exact Hk]. by eapply touched_lookup. Qed.

Section texts.
Context `{Blake3, Postcard Transaction, Postcard (list WireNode), Ed25519, Json, BlobUrls}.

Lemma init_room_texts room s : texts_ok s → texts_ok (init_room room s).
Proof. intros Hs. exact (touch_text_ok room s Hs). Qed.
Lemma texts_maps s m : texts_ok s → texts_ok (set_room_maps s m).
Proof. intros Hs. exact Hs. Qed.
Lemma init_canonical_texts room s : texts_ok s → texts_ok (init_canonical room s).
Proof. intros Hs. exact Hs. Qed.
Lemma ensure_room_texts room : keeps texts_ok (ensure_room room).
Proof.
  unfold ensure_room. apply keeps_bind; [|intros _; apply keeps_ret]. apply keeps_modify. intros s Hs.
  by apply init_canonical_texts, init_room_texts.
Qed.
Lemma create_child_texts p c u b y k : keeps texts_ok (create_topology_child p c u b y k).
Proof. unfold create_topology_child. keep. apply keeps_modify. intros s Hs. by apply texts_maps, init_room_texts. Qed.
(** A document that is read is created when it is missing. *)
Lemma reread_ok room key s : texts_ok s → texts_ok (set_room_texts s (entry ∅ room <[key := text_doc room key s]> (room_texts s))).
Proof. intros Hs. destruct (text_doc_ok room key s Hs). by apply set_text_ok. Qed.
Lemma text_get_texts room n k : keeps texts_ok (text_get room n k).
Proof.
  unfold text_get. apply keeps_bind; [keep|intros _]. apply keeps_bind; [keep|intros _]. intros s Hs. by apply reread_ok.
Qed.
Lemma text_delete_texts room n k t : keeps texts_ok (text_delete room n k t).
Proof.
  unfold text_delete. apply keeps_bind; [keep|intros _]. apply keeps_bind; [keep|intros _].
  intros s Hs. unfold mbind, se_bind, read. cbn. set (key := scoped_map_key n k).
  pose proof (tombstone_placing t (text_doc room key s)) as Hp. destruct (tombstone_first t _) as [doc found]. cbn in Hp |- *.
  destruct (text_doc_ok room key s Hs) as [Hok Hi]. apply set_text_ok; [done|by eapply doc_ok_placing|].
  intros st Hst. assert (tc_id st ∈ tc_id <$> text_doc room key s) as Hin.
  { rewrite <-(placing_ids _ _ Hp). by apply list_elem_of_fmap_2. }
  apply list_elem_of_fmap in Hin as (st'&->&Hst'). by apply Hi.
Qed.
(** The character [TextInsert] appends. *)
Lemma insert_ok room key a c s :
  let doc := text_doc room key s in
  let next := default 0 (room_text_next_id s !! room) + 1 in
  texts_ok s → (∀ x, a = Some x → x ∈ tc_id <$> doc) →
  texts_ok (set_room_texts (set_room_text_next_id s (<[room := next]> (room_text_next_id s)))
    (entry ∅ room <[key := doc ++ [mkTextChar (text_id next) a c false]]> (room_texts s))).
Proof.
  intros doc next Hs Ha. destruct (text_doc_ok room key s Hs) as [Hok Hi]. fold doc in Hok, Hi.
  assert (0 <= default 0 (room_text_next_id s !! room)) as Hz.
  { destruct (room_text_next_id s !! room) as [k|] eqn:E; [by eapply Hs|done]. }
  pose proof (bump_text_ok room s next Hs ltac:(lia)) as Hb.
  apply (set_text_ok room key _ (set_room_text_next_id s (<[room := next]> (room_text_next_id s)))); [done|..].
  - constructor; [done| |done]. cbn. intros (st&E&Hst)%list_elem_of_fmap. destruct (Hi st Hst) as (k&Ek&Hk).
    rewrite Ek in E. apply text_id_inj in E; lia.
  - cbn. rewrite lookup_insert_eq. cbn. intros st [Hst|Hst%list_elem_of_singleton]%elem_of_app.
    + destruct (Hi st Hst) as (k&?&?). exists k. split; [done|lia].
    + exists next. subst st. cbn. split; [done|lia].
Qed.
Lemma entry_twice (k : bytes) (i : bytes) {V} (x y : V) (m : gmap bytes (gmap bytes V)) :
  entry ∅ k <[i := y]> (entry ∅ k <[i := x]> m) = entry ∅ k <[i := y]> m.
Proof. unfold entry. rewrite lookup_insert_eq. cbn. by rewrite insert_insert_eq, insert_insert_eq. Qed.
Definition anchored (a : option bytes) (doc : list TextCharState) : bool :=
  match a with None => true | Some x => bool_decide (x ∈ tc_id <$> doc) end.
(** [TextInsert] in a known room. *)
Lemma text_insert_run room n k a c s :
  let key := scoped_map_key n k in
  let doc := text_doc room key s in
  let next := default 0 (room_text_next_id s !! room) + 1 in
  room ∈ rooms s → k ≠ [] →
  text_insert room n k a [c] s =
    if anchored a doc then
      (set_room_texts (set_room_text_next_id s (<[room := next]> (room_text_next_id s)))
         (entry ∅ room <[key := doc ++ [mkTextChar (text_id next) a c false]]> (room_texts s)),
       Ok [EvTextValueInserted room n k (text_id next) [c]])
    else (set_room_texts s (entry ∅ room <[key := doc]> (room_texts s)), Err (Failed InvalidCommand)).
Proof.
  intros key doc next Hr Hk. unfold text_insert, require_room, require, nonempty.
  etrans; [apply (se_bind_ok _ _ s s tt); unfold mbind, se_bind, read; by rewrite bool_decide_true|]. cbv beta.
  rewrite bool_decide_false by done. fold key. unfold mbind, se_bind, read, mret, modify, set_text_doc. cbn -[entry].
  fold (text_doc room key s). fold doc. change (match a with Some _ => _ | None => _ end) with (anchored a doc).
  destruct (anchored a doc); [|done]. cbn -[entry]. fold next. by rewrite entry_twice.
Qed.
Lemma text_insert_texts room n k a c : keeps texts_ok (text_insert room n k a c).
Proof.
  intros s Hs. destruct (decide (room ∈ rooms s)) as [Hr|Hr]; cycle 1.
  { unfold text_insert, require_room, mbind, se_bind, read, require. by rewrite bool_decide_false. }
  destruct (decide (k = [])) as [->|Hk].
  { unfold text_insert, require_room, mbind, se_bind, read, require. by rewrite bool_decide_true. }
  destruct c as [|c [|]].
  - unfold text_insert, require_room, mbind, se_bind, read, require, nonempty. by rewrite bool_decide_true, bool_decide_false.
  - rewrite text_insert_run by done. destruct (anchored a _) eqn:Ea; [|by apply reread_ok].
    apply insert_ok; [done|]. intros x ->. by apply bool_decide_eq_true_1 in Ea.
  - unfold text_insert, require_room, mbind, se_bind, read, require, nonempty. by rewrite bool_decide_true, bool_decide_false.
Qed.
#[local] Hint Resolve ensure_room_texts create_child_texts text_insert_texts text_delete_texts text_get_texts : keeps.
Lemma apply_texts room c : keeps texts_ok (apply_command room c).
Proof. destruct c; cbn [apply_command]; keep. Qed.
End texts.
