(* ===== verification/HostImport.v ===== *)
(** Importing a pack: the passes of [ImportPack] end, lose no node, and do not
    depend on the order of the pack. *)

From S2P Require Import Prelude Str StErr Hex Op Node Policy Frontier Storage Lww FracIdx ListCrdt Conflicts Caches CacheFacts Fenwick.
From S2P Require Import TextState Text Graph GraphFacts GraphOps GraphBatch Replica Replay Token Mst HostTypes HostState Host.

(** ** One pass *)

Section pass.
Implicit Types (pending : list SyncNode).

Lemma by_id_spec pending i : 
  match by_id pending !! i with Some n => n ∈ pending ∧ node_id n = i | None => i ∉ node_id <$> pending end.
Proof.
  induction pending as [|n pending IH] using rev_ind; [by apply not_elem_of_nil|].
  unfold by_id. rewrite foldl_app. cbn [foldl]. fold (by_id pending). destruct (decide (node_id n = i)) as [<-|Hne].
  - rewrite lookup_insert_eq. split; [set_solver|done].
  - rewrite lookup_insert_ne by done. destruct (by_id pending !! i) as [m|]; [destruct IH; split; [set_solver|done]|].
    rewrite fmap_app, not_elem_of_app. split; [done|]. by intros ->%list_elem_of_singleton.
Qed.
Lemma first_ids_spec pending : NoDup (first_ids pending) ∧ (∀ i, i ∈ first_ids pending ↔ i ∈ node_id <$> pending) ∧
  (length (first_ids pending) <= length pending)%nat.
Proof.
  induction pending as [|n pending (Hnd&Hin&Hlen)] using rev_ind; [split; [constructor|done]|].
  unfold first_ids in *. rewrite foldl_app. cbn [foldl]. set (ids := foldl _ _ pending) in *. rewrite length_app. cbn [length].
  setoid_rewrite fmap_app. setoid_rewrite elem_of_app. setoid_rewrite <-Hin. case_decide as Hd.
  - split; [done|]. split; [|lia]. intros i. split; [by left|]. intros [?|E%list_elem_of_singleton]; [done|by subst i].
  - rewrite length_app. cbn [length]. split; [|split; [|lia]].
    + apply NoDup_app. split; [done|]. split; [|apply NoDup_singleton]. by intros x Hx ->%list_elem_of_singleton.
    + intros i. by rewrite elem_of_app.
Qed.

(** The batch of a pass: one node per id. *)
Lemma import_batch_ids pending : node_id <$> import_batch pending = first_ids pending.
Proof.
  unfold import_batch. assert (∀ i, i ∈ first_ids pending → i ∈ node_id <$> pending) as Hin by apply first_ids_spec.
  induction (first_ids pending) as [|i ids IH]; [done|]. cbn. pose proof (by_id_spec pending i) as Hs.
  destruct (by_id pending !! i) as [n|]; [|destruct Hs; apply Hin; by left]. destruct Hs as [_ Hid]. cbn. rewrite Hid.
  f_equal. apply IH. intros j Hj. apply Hin. by right.
Qed.
Lemma import_batch_sub pending n : n ∈ import_batch pending → n ∈ pending ∧ by_id pending !! node_id n = Some n.
Proof.
  unfold import_batch. rewrite list_elem_of_omap. intros (i&_&E). pose proof (by_id_spec pending i) as Hs.
  rewrite E in Hs. destruct Hs as [? <-]. done.
Qed.

(** The rejections of a pass, sorted. *)
Definition is_miss (r : NodeId * SyncError) : bool := match r.2 with MissingParent _ => true | _ => false end.
Lemma split_spec rej m p0 mi0 rj0 :
  NoDup rej.*1 → (∀ r, r ∈ rej → is_Some (m !! r.1)) →
  let t := foldl split_rejection (mkSplit m p0 mi0 rj0) rej in
  is_missing t = mi0 ++ filter (λ r, is_miss r = true) rej ∧
  is_rejected t = rj0 ++ filter (λ r, is_miss r = false) rej ∧
  is_pending t = p0 ++ omap (λ r, m !! r.1) (filter (λ r, is_miss r = true) rej).
Proof.
  revert m p0 mi0 rj0. induction rej as [|[i e] rej IH]; intros m p0 mi0 rj0 Hnd Hm; cbn zeta; [by rewrite !app_nil_r|].
  cbn in Hnd. apply NoDup_cons in Hnd as [Hi Hnd]. destruct (Hm (i, e)) as [n Hn]; [by left|]. cbn in Hn.
  assert (∀ r, r ∈ rej → r.1 ≠ i) as Hne by (intros r Hr <-; apply Hi; by apply list_elem_of_fmap_2).
  cbn [foldl]. rewrite !filter_cons. destruct (is_miss (i, e)) eqn:Em; cycle 1.
  { assert (split_rejection (mkSplit m p0 mi0 rj0) (i, e) = mkSplit m p0 mi0 (rj0 ++ [(i, e)])) as -> by (by destruct e).
    destruct (IH m p0 mi0 (rj0 ++ [(i, e)]) Hnd) as (->&->&->); [intros r Hr; apply Hm; by right|].
    rewrite decide_False, decide_True, <-app_assoc by done. done. }
  assert (split_rejection (mkSplit m p0 mi0 rj0) (i, e) = mkSplit (delete i m) (p0 ++ [n]) (mi0 ++ [(i, e)]) rj0) as ->.
  { destruct e; try done. unfold split_rejection. cbn. by rewrite Hn. }
  destruct (IH (delete i m) (p0 ++ [n]) (mi0 ++ [(i, e)]) rj0 Hnd) as (->&->&->).
  { intros r Hr. rewrite lookup_delete_ne by (apply not_eq_sym; auto). apply Hm. by right. }
  rewrite decide_True, decide_False, <-!app_assoc by done. split; [done|]. split; [done|]. f_equal. cbn. rewrite Hn. f_equal.
  assert (∀ r, r ∈ filter (λ r, is_miss r = true) rej → r.1 ≠ i) as Hne'.
  { intros r [_ Hr]%list_elem_of_filter. by apply Hne. }
  revert Hne'. generalize (filter (λ r, is_miss r = true) rej). intros l. induction l as [|r l IHl]; intros Hl; [done|].
  cbn. rewrite lookup_delete_ne by (apply not_eq_sym, Hl; by left). rewrite IHl; [done|]. intros r' Hr'. apply Hl. by right.
Qed.
End pass.

Section import.
Context `{Blake3, Postcard Transaction, Ed25519} `{!Ed25519BatchLaws}.
Implicit Types (g : HostGraph) (pending : list SyncNode).

Abbreviation get g := (ns_get (g_nodes g)).

(** What one pass leaves behind. *)
Record passed (now : option Z) g pending g1 (t : ImportSplit) : Prop := {
  pa_grown : grown g g1;
  pa_all : ∀ i, i ∈ node_id <$> pending → is_Some (get g1 i) ∨ i ∈ (is_rejected t ++ is_missing t).*1;
  pa_new : ∀ i, is_Some (get g1 i) → is_Some (get g i) ∨ i ∈ node_id <$> pending;
  pa_ids : node_id <$> is_pending t = (is_missing t).*1;
  pa_sub : is_pending t ⊆ pending;
  pa_len : (length (is_pending t) <= length pending)%nat;
  pa_rejected : ∀ r, r ∈ is_rejected t → is_miss r = false ∧ due_in now g pending r;
  pa_missing : ∀ r, r ∈ is_missing t → is_miss r = true ∧ due_in now g pending r;
  pa_stuck : length (is_pending t) = length pending → ∀ i, is_Some (get g1 i) → is_Some (get g i);
}.
Lemma import_pass_spec now g pending :
  let '(g1, pass) := apply_remote_batch_checked g (import_batch pending) now in
  passed now g pending g1 (foldl split_rejection (mkSplit (by_id pending) [] [] []) (batch_rejected pass)).
Proof.
  pose proof (batch_sorts g (import_batch pending) now) as Hs.
  pose proof (batch_due now g (import_batch pending)) as Hd. pose proof (batch_grown g (import_batch pending) now) as Hg.
  destruct (apply_remote_batch_checked g (import_batch pending) now) as [g1 [acc rej]]. cbn in Hs, Hd, Hg |- *.
  destruct Hs as (Hnd&Hin&Hst). rewrite import_batch_ids in Hin. destruct (first_ids_spec pending) as (Hfn&Hf&Hfl).
  assert (∀ r, r ∈ rej → is_Some (by_id pending !! r.1)) as Hby.
  { intros r Hr. assert (r.1 ∈ node_id <$> pending) as Hp.
    { apply Hf, Hin, elem_of_app. right. by apply list_elem_of_fmap_2. }
    pose proof (by_id_spec pending r.1) as Hb. destruct (by_id pending !! r.1); [eauto|done]. }
  pose proof Hnd as (_&_&Hndr)%NoDup_app.
  destruct (split_spec rej (by_id pending) [] [] [] Hndr Hby) as (Em&Er&Ep). cbn in Em, Er, Ep.
  set (t := foldl split_rejection _ rej) in *.
  set (miss := filter (λ r, is_miss r = true) rej). set (other := filter (λ r, is_miss r = false) rej).
  assert (∀ l, (∀ r, r ∈ l → is_Some (by_id pending !! r.1)) →
    node_id <$> omap (λ r : NodeId * SyncError, by_id pending !! r.1) l = l.*1) as Hom.
  { intros l. induction l as [|r l IH]; intros Hl; [done|]. cbn. destruct (Hl r) as [n En]; [by left|]. rewrite En. cbn.
    pose proof (by_id_spec pending r.1) as Hb. rewrite En in Hb. destruct Hb as [_ ->]. f_equal. apply IH. intros. apply Hl. by right. }
  assert (∀ r, r ∈ miss → r ∈ rej) as Hmr by (by intros r [_ ?]%list_elem_of_filter).
  assert (∀ i, i ∈ acc ++ rej.*1 → i ∈ first_ids pending) as Hsub by (by intros i [? _]%Hin).
  assert (length acc + length rej <= length pending)%nat as Hlen.
  { pose proof (submseteq_length _ _ (NoDup_submseteq _ _ Hnd Hsub)) as Hl. rewrite length_app, length_fmap in Hl. lia. }
  assert (length (omap (λ r : NodeId * SyncError, by_id pending !! r.1) miss) = length miss) as Hml.
  { rewrite <-(length_fmap node_id), Hom, length_fmap; [done|]. intros r Hr. by apply Hby, Hmr. }
  assert (length miss <= length rej)%nat as Hle by apply length_filter.
  assert (∀ r, r ∈ rej → due_in now g pending r) as Hdue.
  { intros r Hr. eapply due_weaken; [|by apply Hd]. intros n Hn. by apply import_batch_sub. }
  split; rewrite ?Ep, ?Em, ?Er; fold miss; fold other; rewrite ?Hml; [done|..].
  - intros i Hi%Hf. destruct (get g i) as [n|] eqn:E; [left; apply Hst; left; by eexists|].
    pose proof (proj2 (Hin i) (conj Hi E)) as Hx. apply elem_of_app in Hx as [Ha|Hr]; [left; apply Hst; by right|right].
    apply list_elem_of_fmap in Hr as (r&->&Hr). apply list_elem_of_fmap_2, elem_of_app.
    destruct (is_miss r) eqn:E'; [right|left]; by apply list_elem_of_filter.
  - intros i [?|Ha]%Hst; [by left|right]. apply Hf, Hsub, elem_of_app. by left.
  - apply Hom. intros r Hr. by apply Hby, Hmr.
  - intros n (r&_&Hn)%list_elem_of_omap. pose proof (by_id_spec pending r.1) as Hb. rewrite Hn in Hb. apply Hb.
  - lia.
  - intros r [? ?]%list_elem_of_filter. auto.
  - intros r [? ?]%list_elem_of_filter. auto.
  - intros Heq i [?|Ha]%Hst; [done|]. destruct acc; [by apply not_elem_of_nil in Ha|]. cbn in Hlen. lia.
Qed.

(** What all passes together leave behind: a rejection names a check the node
    fails, or a parent that is in neither the room nor the rest of the pack. *)
Record imported g pending g' (rs : list (NodeId * SyncError)) : Prop := {
  im_grown : grown g g';
  im_all : ∀ i, i ∈ node_id <$> pending → is_Some (get g' i) ∨ i ∈ rs.*1;
  im_new : ∀ i, is_Some (get g' i) → is_Some (get g i) ∨ i ∈ node_id <$> pending;
  im_due : ∀ r, r ∈ rs → ∃ n, n ∈ pending ∧ node_id n = r.1 ∧
    match r.2 with MissingParent p => p ∈ node_parents n ∧ get g' p = None | _ => unclean None g n end;
}.
Lemma grown_unclean now g g1 n : grown g g1 → unclean now g1 n → unclean now g n.
Proof. intros [Ep _ El _] Hu Hc. apply Hu. rewrite Ep. by eapply clean_later. Qed.
Lemma not_miss (r : NodeId * SyncError) {A} (f : NodeId → A) (x : A) :
  is_miss r = false → match r.2 with MissingParent p => f p | _ => x end = x.
Proof. unfold is_miss. by destruct r.2. Qed.

Lemma import_loop_spec fuel g pending res :
  (length pending < fuel)%nat →
  let '(g', res') := import_loop fuel g pending res in
  ∃ rs, batch_rejected res' = batch_rejected res ++ rs ∧ imported g pending g' rs.
Proof.
  revert g pending res. induction fuel as [|fuel IH]; intros g pending res Hf; [lia|]. cbn [import_loop].
  destruct pending as [|n0 pend] eqn:Epend.
  { exists []. rewrite app_nil_r. split; [done|]. split; [done|set_solver|by left|set_solver]. }
  rewrite <-Epend in *. clear n0 pend Epend. pose proof (import_pass_spec None g pending) as Hp.
  unfold apply_remote_batch. destruct (apply_remote_batch_checked g (import_batch pending) None) as [g1 pass]. set (t := foldl split_rejection _ _) in *.
  destruct Hp as [Hg Hall Hnew Hids Hsub Hlen Hrej Hmis Hst].
  assert (∀ r n, r ∈ is_rejected t → due None g n r.2 → unclean None g n) as Hun.
  { intros r n Hr Hd. destruct (Hrej r Hr) as [Hm _]. unfold due in Hd. by rewrite not_miss in Hd. }
  case_decide as Hd.
  - eexists. cbn [batch_rejected]. split; [by rewrite <-app_assoc|]. split; [done..|].
    intros r [Hr|Hr]%elem_of_app.
    + destruct (Hrej r Hr) as [Hm (n&Hn&Hid&He)]. exists n. split; [done|]. split; [done|]. rewrite not_miss by done. by eapply Hun.
    + destruct (Hmis r Hr) as [Hm (n&Hn&Hid&He)]. exists n. split; [done|]. split; [done|]. unfold is_miss in Hm.
      destruct (r.2); try done. destruct He as [? He]. split; [done|]. apply eq_None_not_Some. intros Hs%(Hst Hd).
      rewrite He in Hs. by destruct Hs.
  - assert (length (is_pending t) < fuel)%nat as Hf' by lia. specialize (IH g1 (is_pending t) (mkBatch (batch_accepted res ++ batch_accepted pass) (batch_rejected res ++ is_rejected t)) Hf').
    destruct (import_loop fuel g1 _ _) as [g' res']. destruct IH as (rs&Ers&[Hg' Hall' Hnew' Hdue']). cbn [batch_rejected] in Ers.
    exists (is_rejected t ++ rs). split; [by rewrite Ers, app_assoc|]. split.
    + by etrans.
    + intros i Hi. destruct (Hall i Hi) as [Hs|Hr]; [left; by apply Hg'|]. rewrite fmap_app, elem_of_app in Hr |- *.
      destruct Hr as [Hr|Hr]; [by right; left|]. rewrite <-Hids in Hr. destruct (Hall' i Hr); auto.
    + intros i [Hi|Hi]%Hnew'; [by apply Hnew|right]. apply list_elem_of_fmap in Hi as (n&->&Hn). by apply list_elem_of_fmap_2, Hsub.
    + intros r [Hr|Hr]%elem_of_app.
      * destruct (Hrej r Hr) as [Hm (n&Hn&Hid&He)]. exists n. split; [done|]. split; [done|]. rewrite not_miss by done. by eapply Hun.
      * destruct (Hdue' r Hr) as (n&Hn&Hid&He). exists n. split; [by apply Hsub|]. split; [done|].
        destruct (r.2); try done; by eapply grown_unclean.
Qed.
Lemma import_nodes_spec g ns :
  let '(g', res) := import_nodes g ns in imported g ns g' (batch_rejected res).
Proof.
  unfold import_nodes. pose proof (import_loop_spec (S (length ns)) g ns (mkBatch [] [])) as Hs.
  destruct (import_loop _ g ns _) as [g' res]. destruct Hs as (rs&->&Hi); [lia|done].
Qed.

(** ** The graph stays well formed *)

(** Nothing in a host graph was written locally, so every node is canonical. *)
Definition host_graph_ok g : Prop := ok g ∧ g_local_ids g = ∅.

Lemma host_graph_batch g ns : host_graph_ok g → Forall prio_typed ns → host_graph_ok (apply_remote_batch g ns).1.
Proof.
  intros [Hok Hl] Ht. split; [by apply ok_batch|]. rewrite <-Hl. unfold apply_remote_batch. apply (gr_local _ _ (batch_grown g ns None)).
Qed.
Lemma import_loop_ok fuel g pending res :
  host_graph_ok g → Forall prio_typed pending → host_graph_ok (import_loop fuel g pending res).1.
Proof.
  revert g pending res. induction fuel as [|fuel IH]; intros g pending res Hok Ht; [done|]. cbn [import_loop].
  destruct pending as [|n0 pend] eqn:Epend; [done|]. rewrite <-Epend in *. clear n0 pend Epend.
  assert (Forall prio_typed (import_batch pending)) as Hb.
  { apply Forall_forall. intros n [Hn _]%import_batch_sub. rewrite Forall_forall in Ht. by apply Ht. }
  pose proof (host_graph_batch g _ Hok Hb) as Hok1. pose proof (import_pass_spec None g pending) as Hp.
  unfold apply_remote_batch in *. destruct (apply_remote_batch_checked g (import_batch pending) None) as [g1 pass]. cbn in Hok1. case_decide; [done|]. apply IH; [done|].
  apply Forall_forall. intros n Hn. rewrite Forall_forall in Ht. by apply Ht, (pa_sub _ _ _ _ _ Hp).
Qed.
Lemma import_nodes_ok g ns : host_graph_ok g → Forall prio_typed ns → host_graph_ok (import_nodes g ns).1.
Proof. apply import_loop_ok. Qed.

(** ** Catching up *)

(** A pack that holds what [gB] lacks of [gA] brings [gB] up to [gA], in whatever
    order its nodes come. *)
Lemma import_catches_up (gA gB : HostGraph) (ns : list SyncNode) :
  ok gA →
  (∀ n, n ∈ ns → n ∈ all_nodes gA) →
  (∀ n, n ∈ all_nodes gA → is_Some (get gB (node_id n)) ∨ n ∈ ns) →
  (∀ n, n ∈ ns → clean None (g_lamport gB) (g_policy gB) n) →
  ∀ i, is_Some (get (import_nodes gB ns).1 i) ↔ is_Some (get gA i) ∨ is_Some (get gB i).
Proof.
  intros [arr Hok] Hsub Hcov Hclean i. pose proof (import_nodes_spec gB ns) as Hi.
  destruct (import_nodes gB ns) as [g' res]. destruct Hi as [Hg Hall Hnew Hdue]. cbn.
  assert (∀ n, n ∈ all_nodes gA → get gA (node_id n) = Some n) as Hget.
  { intros n [j Hj]%elem_of_all_nodes. by rewrite (ok_keyed _ _ Hok _ _ Hj). }
  assert (∀ n, n ∈ arr.*1 → is_Some (get g' (node_id n))) as Harr.
  { assert (∀ n, n ∈ arr.*1 → n ∈ all_nodes gA) as Hin by (intros n; by rewrite (ok_arrival _ _ Hok)).
    pose proof (ok_causal _ _ Hok) as Hc. revert Hin. induction Hc as [|l n _ IH Hpar]; intros Hin; [by intros n ?%not_elem_of_nil|].
    assert (∀ m, m ∈ l → is_Some (get g' (node_id m))) as Hl by (apply IH; intros m Hm; apply Hin, elem_of_app; by left).
    intros m [Hm|Hm%list_elem_of_singleton]%elem_of_app; [by apply Hl|]. subst m.
    assert (n ∈ all_nodes gA) as Hn by (apply Hin, elem_of_app; right; by left).
    destruct (Hcov n Hn) as [?|Hns]; [by apply Hg|].
    destruct (Hall (node_id n)) as [?|Hr]; [by apply list_elem_of_fmap_2|done|exfalso].
    apply list_elem_of_fmap in Hr as (r&Er&Hr). destruct (Hdue r Hr) as (m&Hm&Hid&Hwhy).
    assert (m = n) as ->.
    { apply Hsub, Hget in Hm. rewrite Hid, <-Er, Hget in Hm by done. congruence. }
    destruct (r.2); try by destruct Hwhy; apply Hclean.
    destruct Hwhy as [Hp Hnone]. apply Hpar in Hp. apply list_elem_of_fmap in Hp as (q&->&Hq). destruct (Hl q Hq). congruence. }
  split.
  - intros [?|Hi]%Hnew; [by right|left]. apply list_elem_of_fmap in Hi as (n&->&Hn). rewrite Hget by (by apply Hsub). by eexists.
  - intros [[n Hn]|Hb]; [|by apply Hg]. rewrite <-(ok_keyed _ _ Hok _ _ Hn). apply Harr. rewrite (ok_arrival _ _ Hok).
    apply elem_of_all_nodes. eauto.
Qed.
End import.
