(* ===== verification/HostThms.v ===== *)
(** What the host engine promises: its invariant, the exchange of packs between
    two engines, promotion of checkpoints, text, and paged reads. *)

From S2P Require Import Prelude StErr Hex Str Op Node Policy Frontier Storage Lww FracIdx ListCrdt Conflicts.
From S2P Require Import Caches CacheFacts TextState Graph GraphFacts GraphOps GraphBatch Replica Fenwick Text Replay Token Mst HostTypes.
From S2P Require Import HostState Host HostFacts HostText HostImport.


(** What the wire format of packs promises: it holds bytes, a pack of well-typed
    nodes is read back, and what is read has clocks of 64 bits and authors of 32
    bytes. *)
Class PackLaws `{Postcard (list WireNode)} : Prop := {
  pack_bytes : ∀ ns, Forall is_u8 (pack_nodes ns);
  pack_roundtrip : ∀ ns, Forall prio_typed ns → unpack_nodes (pack_nodes ns) = Ok ns;
  unpack_typed : ∀ b ns, unpack_nodes b = Ok ns → Forall prio_typed ns;
}.

Section rooms.
Context `{Blake3, Postcard Transaction, Postcard (list WireNode), Ed25519, Json, BlobUrls}.
Context `{!Ed25519BatchLaws, !PackLaws}.
Implicit Types (s : HostEngine) (g : HostGraph) (room : bytes).

Definition graphs_wf (m : gmap bytes HostGraph) : Prop := ∀ room g, m !! room = Some g → host_graph_ok g.
Definition graphs_ok s : Prop := graphs_wf (room_sync_graphs s).

Lemma empty_graph_ok : host_graph_ok empty_graph.
Proof. split; [|done]. exists []. apply graph_ok_empty. intros i. apply lookup_empty. Qed.
Lemma graph_of_ok room s : graphs_ok s → host_graph_ok (graph_of room s).
Proof.
  intros Hs. unfold graph_of. destruct (room_sync_graphs s !! room) as [g|] eqn:E; [by eapply Hs|apply empty_graph_ok].
Qed.
Lemma insert_graph_ok room g m : graphs_wf m → host_graph_ok g → graphs_wf (<[room := g]> m).
Proof. intros Hm Hg r g'. rewrite lookup_insert_Some. intros [[_ <-]|[_ ?]]; [done|by eapply Hm]. Qed.
Lemma stream_ok g b : host_graph_ok g → host_graph_ok (set_conflict_stream_enabled g b).
Proof. intros [Hg Hl]. split; [by apply ok_stream|done]. Qed.
Lemma drain_ok g : host_graph_ok g → host_graph_ok (drain_pending_conflicts g).1.
Proof. intros [Hg Hl]. split; [by apply ok_drain|done]. Qed.
Lemma set_policy_ok g p : host_graph_ok g → host_graph_ok (set_policy g p).
Proof. intros [Hg Hl]. split; [by apply ok_policy|done]. Qed.

Lemma set_graph_graphs room g : host_graph_ok g → keeps graphs_ok (set_graph room g).
Proof. intros Hg. apply keeps_modify. intros s Hs. by apply insert_graph_ok. Qed.
(** The graph a command reads is well formed. *)
Lemma touch_graph_bind (room : bytes) {A : Type} (k : HostGraph → SE HostEngine HostFault A) :
  (∀ g, host_graph_ok g → keeps graphs_ok (k g)) → keeps graphs_ok (touch_graph room ≫= k).
Proof.
  intros Hk s Hs. pose proof (graph_of_ok room s Hs) as Hg. unfold touch_graph, mbind, se_bind, read, set_graph, modify, mret. cbn.
  apply Hk; [done|]. by apply insert_graph_ok.
Qed.
Lemma touch_graph_graphs (room : bytes) : keeps graphs_ok (touch_graph room).
Proof.
  intros s Hs. unfold touch_graph, mbind, se_bind, read, set_graph, modify. cbn. apply insert_graph_ok; [done|by apply graph_of_ok].
Qed.

Lemma init_room_graphs room s : graphs_ok s → graphs_ok (init_room room s).
Proof. intros Hs. apply insert_graph_ok; [done|]. by apply stream_ok, graph_of_ok. Qed.
Lemma graphs_maps s m : graphs_ok s → graphs_ok (set_room_maps s m).
Proof. intros Hs. exact Hs. Qed.
Lemma init_canonical_graphs room s : graphs_ok s → graphs_ok (init_canonical room s).
Proof. intros Hs. exact Hs. Qed.
Lemma ensure_room_graphs room : keeps graphs_ok (ensure_room room).
Proof.
  unfold ensure_room. apply keeps_bind; [|intros _; apply keeps_ret]. apply keeps_modify. intros s Hs.
  by apply init_canonical_graphs, init_room_graphs.
Qed.
Lemma create_child_graphs p c u b y k : keeps graphs_ok (create_topology_child p c u b y k).
Proof. unfold create_topology_child. keep. apply keeps_modify. intros s Hs. by apply graphs_maps, init_room_graphs. Qed.
Lemma host_set_policy_graphs room d rs : keeps graphs_ok (host_set_policy room d rs).
Proof.
  unfold host_set_policy. keep. apply keeps_modify. intros s Hs r g. cbn. rewrite lookup_alter_Some.
  intros [(<-&g0&Hg&->)|[_ Hg]]; [apply set_policy_ok|]; by eapply Hs.
Qed.
Lemma decode_pack_typed b s :
  (decode_pack b s).1 = s ∧ match (decode_pack b s).2 with Ok ns => Forall prio_typed ns | Err _ => True end.
Proof.
  unfold decode_pack. destruct (base64_decode b) as [x|]; [|done]. destruct (unpack_nodes x) as [ns|] eqn:E; [|done].
  split; [done|]. by eapply unpack_typed.
Qed.
Lemma import_pack_graphs room b : keeps graphs_ok (import_pack room b).
Proof.
  unfold import_pack. apply keeps_bind; [keep|intros _]. intros s Hs. unfold mbind at 1, se_bind at 1.
  pose proof (decode_pack_typed b s) as [E1 Ht]. destruct (decode_pack b s) as [s1 [ns|e]]; cbn in E1, Ht; subst s1; [|done].
  revert s Hs. apply touch_graph_bind. intros g Hg. pose proof (import_nodes_ok _ ns (stream_ok g true Hg) Ht) as Hi.
  destruct (import_nodes _ ns) as [g1 applied]. apply keeps_bind; [keep|intros now]. pose proof (drain_ok g1 Hi) as Hd.
  destruct (drain_pending_conflicts g1) as [g2 detected]. apply keeps_bind; [by apply set_graph_graphs|intros _]. keep.
Qed.
Lemma promotion_node_typed g now seq snap id : prio_typed (promotion_node g now seq snap id).
Proof.
  split; [|by split; [|vm_compute; repeat constructor]]. unfold node_lamport. cbn [promotion_node node_new node_tx tx_lamport].
  pose proof (Z.mod_pos_bound (Z.of_nat (length (all_node_ids g)) + 1) (2 ^ 64) eq_refl). unfold is_u64, wrap_add64, u64_max. lia.
Qed.
Lemma promote_graphs room t : keeps graphs_ok (promote_checkpoint_to_graph room t).
Proof.
  unfold promote_checkpoint_to_graph. apply keeps_bind; [keep|intros _]. apply keeps_bind; [keep|intros res].
  destruct res as [seq snap| |]; [|keep..]. apply touch_graph_bind. intros g Hg. apply keeps_bind; [keep|intros now].
  apply keeps_bind; [|intros; keep]. case_match; [keep|]. apply keeps_bind; [|intros; keep]. apply set_graph_graphs.
  apply host_graph_batch; [done|]. apply Forall_singleton, promotion_node_typed.
Qed.

#[local] Hint Resolve touch_graph_graphs ensure_room_graphs create_child_graphs host_set_policy_graphs import_pack_graphs promote_graphs : keeps.
Lemma apply_graphs room c : keeps graphs_ok (apply_command room c).
Proof. destruct c; cbn [apply_command]; keep. Qed.

(** ** Every sequence of commands *)

(** An engine that started empty and took any commands at any times. *)
Inductive host_reachable : HostEngine → Prop :=
| host_start : host_reachable host_default
| host_step s e : host_reachable s → host_reachable (host_apply e s).1
| host_tick s t : host_reachable s → host_reachable (set_clock_ms s t).

Definition host_ok s : Prop := sessions_ok s ∧ checkpoints_ok s ∧ texts_ok s ∧ graphs_ok s.

Lemma host_default_ok : host_ok host_default.
Proof.
  split; [|split; [|split]].
  - split; cbn; intros *; by rewrite lookup_empty.
  - split; [split; cbn; intros *; rewrite ?lookup_empty; done|]. intros id p. cbn. by rewrite lookup_empty.
  - split; cbn; intros *; by rewrite lookup_empty.
  - intros r g. cbn. by rewrite lookup_empty.
Qed.
Lemma host_apply_ok e s : host_ok s → host_ok (host_apply e s).1.
Proof.
  intros (Hs&Hc&Ht&Hg). unfold host_apply. case_decide; [done|].
  split; [|split; [|split]]; (eapply keeps_run; [|eassumption]);
    [apply apply_sessions|apply apply_checkpoints|apply apply_texts|apply apply_graphs].
Qed.
Lemma host_reachable_ok s : host_reachable s → host_ok s.
Proof.
  induction 1 as [|s e _ IH|s t _ IH]; [apply host_default_ok|by apply host_apply_ok|]. destruct IH as (Hs&Hc&Ht&Hg).
  split; [exact Hs|split; [exact Hc|split; [exact Ht|exact Hg]]].
Qed.

(** ** Runs of the commands that move nodes *)

Lemma require_room_run room s : room ∈ rooms s → require_room room s = (s, Ok tt).
Proof. intros Hr. unfold require_room, mbind, se_bind, read, require. by rewrite bool_decide_true. Qed.
Lemma host_apply_command room c s : room ≠ [] → host_apply (mkEnvelope room c) s = apply_command room c s.
Proof. intros Hne. unfold host_apply. by rewrite decide_False. Qed.
Lemma server_pack_run room ids s :
  room ∈ rooms s →
  request_server_pack room ids s =
    (set_room_sync_graphs s (<[room := graph_of room s]> (room_sync_graphs s)),
     Ok [EvServerPackPrepared room
           (base64_encode (pack_nodes (get_nodes (graph_of room s) (missing_hashes (graph_of room s) (list_to_set (omap parse_hex_32 ids))))))
           (to_hex (merkle_root (graph_of room s)))]).
Proof.
  intros Hr. unfold request_server_pack. etrans; [apply se_bind_ok, require_room_run, Hr|]. cbv beta zeta.
  etrans; [apply se_bind_ok; reflexivity|]. reflexivity.
Qed.
Lemma import_pack_run room ns s :
  room ∈ rooms s → Forall prio_typed ns →
  ∃ s' evs, import_pack room (base64_encode (pack_nodes ns)) s = (s', Ok evs) ∧ rooms s' = rooms s ∧
    graph_of room s' = (drain_pending_conflicts (import_nodes (set_conflict_stream_enabled (graph_of room s) true) ns).1).1.
Proof.
  intros Hr Ht. assert (decode_pack (base64_encode (pack_nodes ns)) s = (s, Ok ns)) as Hd.
  { unfold decode_pack. by rewrite base64_decode_encode, pack_roundtrip by (done || apply pack_bytes). }
  destruct (import_nodes (set_conflict_stream_enabled (graph_of room s) true) ns) as [g1 applied] eqn:Ei.
  destruct (drain_pending_conflicts g1) as [g2 detected] eqn:Ed.
  destruct (foldl (observe_conflict (clock_ms s)) (default [] (room_conflict_fingerprints s !! room),
    default [] (room_conflict_history s !! room), []) detected) as [[seen history] fresh] eqn:Ef.
  set (s1 := set_room_sync_graphs s (<[room := graph_of room s]> (room_sync_graphs s))).
  set (s2 := set_room_sync_graphs s1 (<[room := g2]> (room_sync_graphs s1))).
  set (s3 := set_room_conflict_fingerprints s2 (<[room := seen]> (room_conflict_fingerprints s2))).
  set (s4 := set_room_conflict_history s3 (<[room := cap_history history]> (room_conflict_history s3))). exists s4. eexists.
  cbn [fst]. rewrite Ed. split; [|split; [done|unfold graph_of; cbn; by rewrite lookup_insert_eq]].
  unfold import_pack. etrans; [apply se_bind_ok, require_room_run, Hr|]. cbv beta. etrans; [apply se_bind_ok, Hd|]. cbv beta.
  etrans; [apply (se_bind_ok _ _ s s1 (graph_of room s)); reflexivity|]. cbv beta. rewrite Ei. cbv iota beta.
  etrans; [apply (se_bind_ok _ _ s1 s1 (clock_ms s)); reflexivity|]. cbv beta. rewrite Ed. cbv iota beta.
  etrans; [apply (se_bind_ok _ _ s1 s2 tt); reflexivity|]. cbv beta.
  etrans; [apply (se_bind_ok _ _ s2 s2 (room_conflict_fingerprints s)); reflexivity|]. cbv beta.
  etrans; [apply (se_bind_ok _ _ s2 s2 (room_conflict_history s)); reflexivity|]. cbv beta. rewrite Ef. cbv iota beta.
  etrans; [apply (se_bind_ok _ _ s2 s3 tt); reflexivity|]. cbv beta.
  etrans; [apply (se_bind_ok _ _ s3 s4 tt); reflexivity|]. reflexivity.
Qed.
End rooms.


Section thms.
Context `{Blake3, Postcard Transaction, Postcard (list WireNode), Ed25519, Json, BlobUrls}.
Context `{!Ed25519BatchLaws, !PackLaws}.
Implicit Types (s : HostEngine) (g : HostGraph) (room : bytes).

Abbreviation get g := (ns_get (g_nodes g)).

(** C15: whatever commands an engine took since it started, presence and
    subscriptions belong to open sessions of their room; every entry of the
    checkpoint index leads to a stored snapshot with that content hash, and the
    rows of a room are those of its latest snapshot; text characters have ids of
    their own and anchors in their document; and every room's graph is well
    formed. *)
Theorem host_invariant s : host_reachable s → host_ok s.
Proof.
  induction 1 as [|s e _ IH|s t _ (Hs&Hc&Ht&Hg)]; [apply host_default_ok|by apply host_apply_ok|].
  split; [exact Hs|split; [exact Hc|split; [exact Ht|exact Hg]]].
Qed.

(** ** Exchange of packs *)

Lemma get_stream g b i : get (set_conflict_stream_enabled g b) i = get g i.
Proof. done. Qed.

(** Pulling from one engine into another. *)
Lemma pull_run gA sB room ids :
  host_graph_ok gA → room ∈ rooms sB → graphs_ok sB →
  let gB := graph_of room sB in
  (∀ h i, h ∈ ids → parse_hex_32 h = Some i → is_Some (get gB i)) →
  (∀ n, n ∈ all_nodes gA → clean None (g_lamport gB) (g_policy gB) n) →
  ∃ sB' evs, import_pack room (base64_encode (pack_nodes (get_nodes gA (missing_hashes gA (list_to_set (omap parse_hex_32 ids)))))) sB
      = (sB', Ok evs) ∧ graphs_ok sB' ∧
    ∀ i, is_Some (get (graph_of room sB') i) ↔ is_Some (get gA i) ∨ is_Some (get gB i).
Proof.
  intros [Hok _] Hr Hgs gB Hids Hclean. set (ns := get_nodes gA _).
  assert (∀ n, n ∈ ns ↔ n ∈ all_nodes gA ∧ node_id n ∉ omap parse_hex_32 ids) as Hns.
  { intros n. unfold ns, get_nodes, missing_hashes. destruct Hok as [arr Hok]. rewrite list_elem_of_omap, elem_of_all_nodes.
    setoid_rewrite list_elem_of_filter. setoid_rewrite not_elem_of_list_to_set. setoid_rewrite ns_all_ids_get. split.
    - intros (i&[Hn _]&Hi). rewrite (ok_keyed _ _ Hok _ _ Hi). eauto.
    - intros [[i Hi] Hn]. rewrite (ok_keyed _ _ Hok _ _ Hi) in Hn. eauto 10. }
  assert (Forall prio_typed ns) as Ht.
  { apply Forall_forall. intros n [Hn _]%Hns. pose proof (ok_typed_nodes gA Hok) as Ht. rewrite Forall_forall in Ht. by apply Ht. }
  destruct (import_pack_run room ns sB Hr Ht) as (sB'&evs&Hrun&_&Hg'). exists sB', evs. split; [done|]. split.
  - pose proof (import_pack_graphs room (base64_encode (pack_nodes ns)) sB Hgs) as Hk. by rewrite Hrun in Hk.
  - intros i. rewrite Hg'. fold gB. etrans; [|apply (import_catches_up gA (set_conflict_stream_enabled gB true) ns Hok)]; [done|..].
    + by intros n [? _]%Hns.
    + intros n Hn. destruct (decide (node_id n ∈ omap parse_hex_32 ids)) as [Hi|Hi]; [left|right; by apply Hns].
      apply list_elem_of_omap in Hi as (h&Hh&Ei). by eapply Hids.
    + intros n [Hn _]%Hns. by apply Hclean.
Qed.

(** The canonical view of a host graph counts every node. *)
Lemma host_resolve_canonical g :
  host_graph_ok g → no_equivocation (all_nodes g) → resolve_canonical g = resolve g.
Proof.
  intros [Hok Hl] Hne. rewrite ok_resolve_canonical, ok_resolve_replay by done. unfold graph_resolve_replay. rewrite Hl.
  f_equal. clear. induction (all_nodes g) as [|n ns IH]; [done|]. by rewrite filter_cons_True, IH by set_solver.
Qed.
Lemma same_frontier_hex g1 g2 : g_frontier g1 = g_frontier g2 → graph_frontier_heads_hex g1 = graph_frontier_heads_hex g2.
Proof. unfold graph_frontier_heads_hex. congruence. Qed.

(** C4: two engines that send each other the nodes the other one does not name, and
    import what they get, hold the same nodes of the room, in whatever order the
    packs list them; and then the canonical resolution, the frontier and the
    Merkle root they report are the same, if no two transactions collide and no
    author used a clock value twice.  Each must accept the other's nodes: their
    hashes, signatures, clocks and the policy are checked on import. *)
Theorem host_exchange_converges sA sB room idsA idsB :
  host_reachable sA → host_reachable sB → room ≠ [] → room ∈ rooms sA → room ∈ rooms sB →
  let gA := graph_of room sA in let gB := graph_of room sB in
  (∀ h i, h ∈ idsA → parse_hex_32 h = Some i → is_Some (get gA i)) →
  (∀ h i, h ∈ idsB → parse_hex_32 h = Some i → is_Some (get gB i)) →
  (∀ n, n ∈ all_nodes gA → clean None (g_lamport gB) (g_policy gB) n) →
  (∀ n, n ∈ all_nodes gB → clean None (g_lamport gA) (g_policy gA) n) →
  ∃ packA packB rootA rootB sA1 sB1 sA2 sB2 eA eB,
    host_apply (mkEnvelope room (CmdRequestServerPack idsB)) sA = (sA1, Ok [EvServerPackPrepared room packA rootA]) ∧
    host_apply (mkEnvelope room (CmdRequestServerPack idsA)) sB = (sB1, Ok [EvServerPackPrepared room packB rootB]) ∧
    host_apply (mkEnvelope room (CmdImportPack packB)) sA1 = (sA2, Ok eA) ∧
    host_apply (mkEnvelope room (CmdImportPack packA)) sB1 = (sB2, Ok eB) ∧
    let hA := graph_of room sA2 in let hB := graph_of room sB2 in
    same_ids hA hB ∧
    (collision_free hA hB → no_equivocation (all_nodes hA) → no_equivocation (all_nodes hB) →
     graph_canonical_resolution_entries hA = graph_canonical_resolution_entries hB ∧
     graph_frontier_heads_hex hA = graph_frontier_heads_hex hB ∧ merkle_root hA = merkle_root hB).
Proof.
  intros HsA%host_reachable_ok HsB%host_reachable_ok Hne HrA HrB gA gB HidA HidB HcA HcB.
  destruct HsA as (_&_&_&HgA), HsB as (_&_&_&HgB).
  pose proof (graph_of_ok room sA HgA) as HokA. pose proof (graph_of_ok room sB HgB) as HokB. fold gA in HokA. fold gB in HokB.
  set (sA1 := set_room_sync_graphs sA (<[room := gA]> (room_sync_graphs sA))).
  set (sB1 := set_room_sync_graphs sB (<[room := gB]> (room_sync_graphs sB))).
  assert (graph_of room sA1 = gA) as EA by (unfold graph_of; cbn; by rewrite lookup_insert_eq).
  assert (graph_of room sB1 = gB) as EB by (unfold graph_of; cbn; by rewrite lookup_insert_eq).
  destruct (pull_run gB sA1 room idsA HokB HrA) as (sA2&eA&HiA&HgA2&HallA); [by apply insert_graph_ok|by rewrite EA..|].
  destruct (pull_run gA sB1 room idsB HokA HrB) as (sB2&eB&HiB&HgB2&HallB); [by apply insert_graph_ok|by rewrite EB..|].
  rewrite EA in HallA. rewrite EB in HallB.
  eexists _, _, _, _, sA1, sB1, sA2, sB2, eA, eB. rewrite !host_apply_command by done. cbn [apply_command].
  split; [by apply server_pack_run|]. split; [by apply server_pack_run|]. split; [exact HiA|]. split; [exact HiB|].
  set (hA := graph_of room sA2). set (hB := graph_of room sB2). assert (same_ids hA hB) as Hsame by (intros i; unfold hA, hB; rewrite HallA, HallB; tauto).
  split; [done|]. intros Hcf HneA HneB.
  pose proof (graph_of_ok room sA2 HgA2) as [HoA HlA]. pose proof (graph_of_ok room sB2 HgB2) as [HoB HlB]. fold hA in HoA, HlA. fold hB in HoB, HlB.
  pose proof (same_nodes_perm hA hB HoA HoB Hcf Hsame) as Hp. pose proof (same_leaves hA hB HoA HoB Hcf Hsame) as Hl. split_and!.
  - unfold graph_canonical_resolution_entries. do 2 f_equal. rewrite !host_resolve_canonical by (done || by split).
    rewrite !resolve_eq, !ok_winners by done. f_equal. apply winners_of_perm; [done|]. by apply no_equivocation_strip.
  - by apply same_frontier_hex, same_frontier.
  - unfold merkle_root. by rewrite Hl.
Qed.

(** C24: the import of a pack ends after finitely many passes and loses no node: an
    id of the pack is in the graph afterwards or among the reported rejections; the
    graph gains nothing else; and a rejection is due, the node failing one of the
    checks, or naming a parent that is not even in the final graph. *)
Theorem import_settles g (ns : list SyncNode) :
  let '(g', res) := import_nodes g ns in
  (∀ i, i ∈ node_id <$> ns → is_Some (get g' i) ∨ i ∈ (batch_rejected res).*1) ∧
  (∀ i, is_Some (get g i) → is_Some (get g' i)) ∧
  (∀ i, is_Some (get g' i) → is_Some (get g i) ∨ i ∈ node_id <$> ns) ∧
  (∀ i e, (i, e) ∈ batch_rejected res → ∃ n, n ∈ ns ∧ node_id n = i ∧
     ((∃ p, e = MissingParent p ∧ p ∈ node_parents n ∧ get g' p = None) ∨
      ¬ clean None (g_lamport g) (g_policy g) n)).
Proof.
  pose proof (import_nodes_spec g ns) as Hi. destruct (import_nodes g ns) as [g' res]. destruct Hi as [Hg Hall Hnew Hdue].
  split; [done|]. split; [apply Hg|]. split; [done|]. intros i e Hr. destruct (Hdue _ Hr) as (n&Hn&Hid&Hw). exists n.
  split; [done|]. split; [done|]. cbn in Hw. destruct e; eauto.
Qed.

(** ** Checkpoints *)

(** C18: applying a validated promotion merges into the parent exactly the rows of a
    stored snapshot of the child whose content hash is the one proposed, whatever
    was written to the child since; the child's rows win; the merge becomes the
    parent's latest checkpoint, under its own content hash; no other room's rows
    change. *)
Theorem promotion_merges_proposed_checkpoint s s' room id evs :
  host_reachable s → host_apply (mkEnvelope room (CmdApplyTopologyPromotion id)) s = (s', Ok evs) →
  ∃ p ms n snap,
    topology_promotions s !! id = Some p ∧
    room_canonical_snapshots s !! pr_child_room_id p = Some ms ∧ ms !! n = Some snap ∧
    content_canonical_hash (sn_rows snap) = pr_child_checkpoint_hash p ∧
    let parent := pr_parent_room_id p in
    let merged := sn_rows snap ∪ canonical_rows_of parent s in
    canonical_rows_of parent s' = merged ∧
    (∃ x, room_latest_snapshot parent s' = Some x ∧ sn_rows x = merged ∧ sn_canonical_hash x = content_canonical_hash merged) ∧
    ∀ r, r ≠ parent → canonical_rows_of r s' = canonical_rows_of r s.
Proof.
  intros (_&[Hc Hp]&_)%host_reachable_ok Hrun. unfold host_apply in Hrun. case_decide; [done|]. cbn [env_command apply_command] in Hrun.
  destruct (topology_promotions s !! id) as [p|] eqn:Ep; cycle 1.
  { unfold apply_topology_promotion, mbind, se_bind, read in Hrun. by rewrite Ep in Hrun. }
  destruct (pr_validated p) eqn:Ev; cycle 1.
  { unfold apply_topology_promotion, mbind, se_bind, read in Hrun. by rewrite Ep, Ev in Hrun. }
  destruct (Hp id p Ep Ev) as [n Hn]. destruct (room_canonical_hash_index s !! pr_child_room_id p) as [mi|] eqn:Ei; [|done]. cbn in Hn.
  destruct (co_index _ _ _ _ Hc _ _ _ _ Ei Hn) as (ms&snap&Hms&Hsnap&Hh).
  destruct (co_snap _ _ _ _ Hc _ _ _ _ Hms Hsnap) as (_&_&Hcontent).
  assert (checkpoint_rows (pr_child_room_id p) (pr_child_checkpoint_hash p) s = sn_rows snap) as Erows.
  { unfold checkpoint_rows. rewrite Ei. cbn. rewrite Hn. cbn. rewrite Hms. cbn. by rewrite Hsnap. }
  destruct (apply_promotion_run id p s Ep Ev) as [audit Erun]. rewrite Erun in Hrun. injection Hrun as <- _.
  exists p, ms, n, snap. split; [done|]. split; [done|]. split; [done|]. split; [congruence|]. intros parent merged.
  unfold promoted. rewrite Erows. fold parent merged. set (s1 := set_topology_promotions s _).
  split; [exact (committed_rows parent merged s1)|]. split.
  - eexists. split; [exact (committed_latest parent merged s1)|]. by cbn.
  - intros r Hr. exact (committed_other parent merged s1 r Hr).
Qed.

(** [MapSet] and [MapGet] in a known room. *)
Lemma map_set_run s room n key v :
  room ∈ rooms s → key ≠ [] → is_internal key = false →
  map_set room n key v s =
    (committed room (<[key := v]> (canonical_rows_of room s))
       (set_room_maps s (entry ∅ room <[scoped_map_key n key := v]> (room_maps s))),
     Ok [EvMapValueUpserted room n key v]).
Proof.
  intros Hr Hk Hi. unfold map_set. etrans; [apply se_bind_ok, require_room_run, Hr|]. cbv beta.
  unfold nonempty. rewrite bool_decide_false by done. rewrite Hi.
  etrans; [apply se_bind_ok; reflexivity|]. cbv beta. etrans; [apply (se_bind_ok (modify _)); reflexivity|]. cbv beta.
  etrans; [apply se_bind_ok|].
  { etrans; [apply (se_bind_ok (read _)); reflexivity|]. cbv beta. etrans; [apply se_bind_ok, commit_rows_run|]. reflexivity. }
  reflexivity.
Qed.
Lemma map_get_run s room n key :
  room ∈ rooms s → key ≠ [] →
  (map_get room n key s).2 = Ok [EvMapValueRead room n key (default ∅ (room_maps s !! room) !! scoped_map_key n key)].
Proof.
  intros Hr Hk. unfold map_get. rewrite (se_bind_ok _ _ s s tt) by (by apply require_room_run).
  unfold require, nonempty. rewrite bool_decide_false by done. unfold mbind, se_bind, modify, read, mret, se_ret, touch. cbn -[insert lookup].
  do 3 f_equal. by rewrite lookup_insert_eq.
Qed.

(** The rows behind checkpoints forget namespaces: after writes to one key in two
    namespaces, both values are still read, but the room's checkpoint has one row
    for the key, holding the later write. *)
Theorem checkpoint_rows_conflate_namespaces s room n1 n2 key v1 v2 :
  room ≠ [] → room ∈ rooms s → key ≠ [] → is_internal key = false → scoped_map_key n1 key ≠ scoped_map_key n2 key →
  let s1 := (host_apply (mkEnvelope room (CmdMapSet n1 key v1)) s).1 in
  let s2 := (host_apply (mkEnvelope room (CmdMapSet n2 key v2)) s1).1 in
  (host_apply (mkEnvelope room (CmdMapGet n1 key)) s2).2 = Ok [EvMapValueRead room n1 key (Some v1)] ∧
  (host_apply (mkEnvelope room (CmdMapGet n2 key)) s2).2 = Ok [EvMapValueRead room n2 key (Some v2)] ∧
  canonical_rows_of room s2 = <[key := v2]> (canonical_rows_of room s).
Proof.
  intros Hne Hr Hk Hi Hd. cbv zeta. rewrite !host_apply_command by done. cbn [apply_command]. rewrite (map_set_run s room n1 key v1 Hr Hk Hi). cbn [fst].
  set (s1 := committed room _ _). assert (room ∈ rooms s1) as Hr1 by exact Hr. rewrite (map_set_run s1 room n2 key v2 Hr1 Hk Hi). cbn [fst].
  set (s2 := committed room _ (set_room_maps s1 _)).
  assert (room_maps s2 = entry ∅ room <[scoped_map_key n2 key := v2]> (entry ∅ room <[scoped_map_key n1 key := v1]> (room_maps s))) as Em by reflexivity.
  assert (room ∈ rooms s2) as Hr2 by exact Hr. rewrite !map_get_run by done. rewrite Em.
  assert (∀ m : gmap bytes (gmap bytes Value), ∀ f, default ∅ (entry ∅ room f m !! room) = f (default ∅ (m !! room))) as Ee.
  { intros m f. unfold entry. by rewrite lookup_insert_eq. }
  rewrite !Ee, lookup_insert_eq, lookup_insert_ne, lookup_insert_eq by done. split; [done|]. split; [done|].
  unfold s2. rewrite committed_rows. unfold s1 at 1. rewrite committed_rows. apply insert_insert_eq.
Qed.

(** ** Text *)

Lemma text_get_run s room n key :
  room ∈ rooms s → key ≠ [] →
  let entries := text_entries_in_rga_order (text_doc room (scoped_map_key n key) s) in
  (text_get room n key s).2 = Ok [EvTextValueRead room n key (text_string_from_entries entries) entries].
Proof.
  intros Hr Hk. unfold text_get. rewrite (se_bind_ok _ _ s s tt) by (by apply require_room_run).
  unfold require, nonempty. by rewrite bool_decide_false by done.
Qed.
Lemma visible_cons st (doc : list TextCharState) :
  omap visible_entry (st :: doc) = (if tc_tombstoned st then [] else [mkTextEntry (tc_id st) [tc_ch st]]) ++ omap visible_entry doc.
Proof. cbn. unfold visible_entry at 1. by destruct (tc_tombstoned st). Qed.
Lemma visible_without id (doc : list TextCharState) :
  id ∉ tc_id <$> doc → filter (λ e, te_id e ≠ id) (omap visible_entry doc) = omap visible_entry doc.
Proof.
  induction doc as [|x doc IH]; intros Hn; [done|]. rewrite fmap_cons in Hn. apply not_elem_of_cons in Hn as [Hx Hn].
  rewrite visible_cons, filter_app, IH by done. f_equal. destruct (tc_tombstoned x); [done|]. by rewrite filter_cons_True by (cbn; congruence).
Qed.
Lemma tombstone_visible id (doc : list TextCharState) :
  NoDup (tc_id <$> doc) →
  omap visible_entry (tombstone_first id doc).1 = filter (λ e, te_id e ≠ id) (omap visible_entry doc).
Proof.
  induction doc as [|st doc IH]; intros Hnd; [done|]. rewrite fmap_cons in Hnd. apply NoDup_cons in Hnd as [Hn Hnd]. cbn [tombstone_first].
  rewrite (visible_cons st), filter_app. destruct (decide (tc_id st = id)) as [<-|Hne].
  - cbn [fst]. rewrite visible_cons, visible_without by done. cbn [tc_tombstoned]. destruct (tc_tombstoned st); [done|].
    by rewrite filter_cons_False by (cbn; tauto).
  - destruct (tombstone_first id doc) as [d f]. cbn [fst] in *. rewrite visible_cons, IH by done. f_equal.
    destruct (tc_tombstoned st); [done|]. by rewrite filter_cons_True.
Qed.

(** [TextGet] terminates with every live character of the document exactly once;
    an insertion behind a present anchor adds exactly the new character to what is
    read, and a deletion removes exactly the character it names. *)
Theorem host_text_reads s room n key :
  host_reachable s → room ≠ [] → room ∈ rooms s → key ≠ [] →
  let scoped := scoped_map_key n key in
  let read := λ s, text_entries_in_rga_order (text_doc room scoped s) in
  (host_apply (mkEnvelope room (CmdTextGet n key)) s).2 =
    Ok [EvTextValueRead room n key (text_string_from_entries (read s)) (read s)] ∧
  read s ≡ₚ omap visible_entry (text_doc room scoped s) ∧
  (∀ a c, anchored a (text_doc room scoped s) = true →
     ∃ s' id, host_apply (mkEnvelope room (CmdTextInsert n key a [c])) s = (s', Ok [EvTextValueInserted room n key id [c]]) ∧
       (id ∉ tc_id <$> text_doc room scoped s) ∧ read s' ≡ₚ (mkTextEntry id [c] :: read s)) ∧
  (∀ id, id ≠ [] →
     read (host_apply (mkEnvelope room (CmdTextDelete n key id)) s).1 ≡ₚ filter (λ e, te_id e ≠ id) (read s)).
Proof.
  intros Hs Hne Hr Hk scoped rd. pose proof (host_reachable_ok s Hs) as (_&_&Ht&_).
  destruct (text_doc_ok room scoped s Ht) as [Hdoc _].
  assert (∀ s' doc, text_doc room scoped s' = doc → doc_ok doc → rd s' ≡ₚ omap visible_entry doc) as Hread.
  { intros s' doc E Hd. unfold rd. rewrite E. by apply text_entries_complete. }
  assert (∀ s' doc, room_texts s' = entry ∅ room <[scoped := doc]> (room_texts s) → text_doc room scoped s' = doc) as Hset.
  { intros s' doc E. unfold text_doc. rewrite E. unfold entry. rewrite lookup_insert_eq. cbn. by rewrite lookup_insert_eq. }
  rewrite !host_apply_command by done. cbn [apply_command]. split; [by apply text_get_run|].
  split; [by apply Hread|]. split.
  - intros a c Ha. rewrite host_apply_command by done. cbn [apply_command]. rewrite text_insert_run by done. fold scoped. rewrite Ha.
    set (next := default 0 (room_text_next_id s !! room) + 1). eexists _, _. split; [reflexivity|].
    pose proof (insert_ok room scoped a c s Ht) as Hi. fold next in Hi. cbv zeta in Hi.
    set (s' := set_room_texts _ _) in *. assert (text_doc room scoped s' = text_doc room scoped s ++ [mkTextChar (text_id next) a c false]) as Ed by by apply Hset.
    assert (texts_ok s') as Ht' by (apply Hi; intros x ->; by apply bool_decide_eq_true_1 in Ha).
    destruct (text_doc_ok room scoped s' Ht') as [Hdoc' _]. rewrite Ed in Hdoc'. split.
    + pose proof (doc_ids _ Hdoc') as Hids. rewrite fmap_app in Hids. apply NoDup_app in Hids as (_&Hd&_). intros Hin. apply (Hd _ Hin). by left.
    + rewrite (Hread s' _ Ed Hdoc'), (Hread s _ eq_refl Hdoc), omap_app. cbn. by rewrite Permutation_app_comm.
  - intros id Hid. rewrite host_apply_command by done. cbn [apply_command]. set (doc := text_doc room scoped s) in *.
    assert (text_doc room scoped (text_delete room n key id s).1 = (tombstone_first id doc).1) as Ed.
    { apply Hset. unfold text_delete. rewrite (se_bind_ok _ _ s s tt) by (by apply require_room_run).
      unfold require, nonempty. rewrite !bool_decide_false by done. unfold mbind, se_bind, read, mret, se_ret. cbn -[tombstone_first].
      fold scoped doc. by destruct (tombstone_first id doc). }
    assert (doc_ok (tombstone_first id doc).1) as Hd' by (eapply doc_ok_placing; [symmetry; apply tombstone_placing|done]).
    rewrite (Hread _ _ Ed Hd'), (Hread s doc eq_refl Hdoc), tombstone_visible by (by apply doc_ids). done.
Qed.

(** ** Pages *)

Lemma parse_digits_bound acc (t : bytes) n : 0 <= acc <= u64_max → parse_digits acc t = Some n → 0 <= n <= u64_max.
Proof.
  revert acc. induction t as [|b t IH]; intros acc Ha; cbn; [intros [= <-]; done|].
  destruct ((48 <=? b) && (b <=? 57)) eqn:Eb; [|done]. destruct (Z.leb_spec (acc * 10 + (b - 48)) u64_max); [|done]. apply IH. lia.
Qed.
Lemma parse_offset_bound token : 0 <= parse_offset token <= u64_max.
Proof.
  unfold parse_offset. destruct token as [t|]; cbn; [|done]. destruct (strip_prefix _ t) as [x|]; cbn; [|done].
  destruct (parse_u64 x) as [n|] eqn:E; cbn; [|done]. unfold parse_u64 in E. destruct x as [|b x]; [done|].
  destruct (b =? 43); [destruct x; [done|]|]; by eapply parse_digits_bound in E.
Qed.
Lemma parse_offset_decimal n : 0 <= n <= u64_max → parse_offset (Some (bs "offset:" ++ decimal n)) = n.
Proof. intros Hn. unfold parse_offset, mbind, option_bind. by rewrite strip_prefix_app, parse_decimal. Qed.

(** [ReadProjection] of a stored projection panics exactly when its page token
    points behind the last row, or so close to [2^64] that adding the page size
    overflows; otherwise it answers. *)
Theorem read_projection_panics_iff s room id limit token p :
  room ≠ [] → room ∈ rooms s → id ≠ [] → default ∅ (room_projections s !! room) !! id = Some p →
  0 <= limit <= u64_max →
  let start := parse_offset token in
  (host_apply (mkEnvelope room (CmdReadProjection id limit token)) s).2 = Err Panicked ↔
  Z.of_nat (length (pj_rows p)) < start ∨ u64_max < start + Z.max limit 1.
Proof.
  intros Hne Hr Hid Hp Hl start. pose proof (parse_offset_bound token) as Hb. fold start in Hb. rewrite host_apply_command by done.
  cbn [apply_command]. assert ((read_projection room id limit token s).2 = Err Panicked ↔ read_page (pj_rows p) start limit = None) as ->.
  { unfold read_projection. unfold mbind, se_bind, read, modify, require, nonempty, mret, se_ret, throw, touch.
    rewrite bool_decide_true, bool_decide_false by done. cbn -[read_page insert lookup]. rewrite lookup_insert_eq. cbn -[read_page lookup].
    rewrite Hp. fold start. destruct (read_page _ _ _) as [[? ?]|]; done. }
  unfold read_page. set (len := Z.of_nat (length (pj_rows p))). assert (0 <= len) as Hlen by (unfold len; lia).
  assert ((if limit =? 0 then 1 else limit) = Z.max limit 1) as -> by (destruct (Z.eqb_spec limit 0); lia).
  unfold wrap_add64, u64_max in *. destruct (Z.ltb_spec (Z.min ((start + Z.max limit 1) `mod` 2 ^ 64) len) start) as [Hlt|Hge]; split; try done.
  - intros _. destruct (Z.le_gt_cases (start + Z.max limit 1) (2 ^ 64 - 1)) as [Hs|Hs]; [left|right; lia].
    rewrite Z.mod_small in Hlt by lia. lia.
  - intros Hor. exfalso. destruct (Z.le_gt_cases (start + Z.max limit 1) (2 ^ 64 - 1)) as [Hs|Hs].
    + rewrite Z.mod_small in Hge by lia. lia.
    + assert ((start + Z.max limit 1) `mod` 2 ^ 64 = start + Z.max limit 1 - 2 ^ 64) as E.
      { symmetry. apply (Z.mod_unique_pos _ _ 1); lia. } rewrite E in Hge. lia.
Qed.

(** The pages of a list, each asked for with the cursor of the one before. *)
Fixpoint pages {A} (fuel : nat) (page : Z → list A * option bytes) (cursor : option bytes) : list A :=
  match fuel with
  | O => []
  | S fuel =>
      let '(l, next) := page (parse_offset cursor) in
      l ++ match next with Some c => pages fuel page (Some c) | None => [] end
  end.
Lemma pages_from {A} fuel (l : list A) limit cursor :
  1 <= limit → Z.of_nat (length l) <= u64_max → parse_offset cursor <= Z.of_nat (length l) →
  (length l < fuel + Z.to_nat (parse_offset cursor))%nat →
  pages fuel (page_of l limit) cursor = drop (Z.to_nat (parse_offset cursor)) l.
Proof.
  intros Hl Hlen. revert cursor. induction fuel as [|fuel IH]; intros cursor Ho Hf.
  { pose proof (parse_offset_bound cursor). lia. }
  pose proof (parse_offset_bound cursor) as Hb. set (o := parse_offset cursor) in *. cbn [pages]. fold o.
  unfold page_of. set (len := Z.of_nat (length l)) in *. set (fin := Z.min (sat_add64 o limit) len).
  assert (o <= fin <= len ∧ (fin < len → o < fin)) as [Hfin Hprog] by (unfold fin, sat_add64, u64_max in *; lia).
  assert ((if o <? len then take (Z.to_nat (fin - o)) (drop (Z.to_nat o) l) else []) = take (Z.to_nat (fin - o)) (drop (Z.to_nat o) l)) as ->.
  { destruct (Z.ltb_spec o len); [done|]. rewrite drop_ge by lia. by destruct (Z.to_nat (fin - o)). }
  destruct (Z.ltb_spec fin len) as [Hlt|Hge].
  - fold (page_of l limit). rewrite IH; rewrite parse_offset_decimal by lia; [|lia|lia].
    replace (Z.to_nat fin) with (Z.to_nat o + Z.to_nat (fin - o))%nat by lia. rewrite <-drop_drop. apply take_drop.
  - rewrite app_nil_r. apply take_ge. rewrite length_drop. lia.
Qed.
Lemma pages_complete {A} fuel (l : list A) limit :
  1 <= limit → Z.of_nat (length l) <= u64_max → (length l < fuel)%nat → pages fuel (page_of l limit) None = l.
Proof. intros Hl Hlen Hf. rewrite pages_from; change (parse_offset None) with 0; [done|done|done|lia|lia]. Qed.

(** The pages of [ReplayReadRange]. *)
Definition replay_pages (fuel : nat) g (key_prefix : bytes) (from_lamport limit : Z) : list (Z * (bytes * list bytes)) :=
  pages fuel (graph_replay_read_range g key_prefix from_lamport limit) None.

(** Following the cursors of [ReplayReadRange] from the start ends, and the pages
    together are the matching events, in order, each once, whatever the page
    size. *)
Theorem replay_pages_complete g pre from limit fuel :
  0 <= limit <= u64_max → Z.of_nat (length (replay_events g pre from)) <= u64_max → (length (replay_events g pre from) < fuel)%nat →
  replay_pages fuel g pre from limit = replay_events g pre from.
Proof. intros Hl Hlen Hf. apply pages_complete; [lia|done|done]. Qed.
End thms.
