(* ===== verification/Room.v ===== *)
(** A room of the server (server/room.rs, [Room]): membership, policy, the tick, the
    import of packs with write-through, and the snapshot sweeper.

    The persistence backend [P] is any that implements its interface.  A method is
    one step, except where the source releases its locks on the way: the halves of
    joining and leaving are definitions of their own.  Broadcast messages and
    metrics are left out. *)

From S2P Require Import Prelude Str StErr Hex Op Node Policy Frontier Storage Caches CacheFacts Fenwick.
From S2P Require Import TextState Text Graph Replay Compaction Gc GcStore DirStore Persist TopoStore HostTypes HostState Host.

Abbreviation Instant := Z.
Abbreviation RoomGraph := HostGraph.

(** ** Membership plans (host-core engine.rs) *)

Inductive PeerCountGaugeUpdate := GaugeIncrement | GaugeDecrement | GaugeNoChange.
Record RegisterPeerMembershipPlan := mkRegisterPlan { clear_idle_since : bool; reg_gauge_update : PeerCountGaugeUpdate }.
Definition plan_register_peer_membership (inserted : bool) : RegisterPeerMembershipPlan :=
  mkRegisterPlan true (if inserted then GaugeIncrement else GaugeNoChange).
Record DeregisterPeerMembershipPlan := mkDeregisterPlan { set_idle_since_now : bool; dereg_gauge_update : PeerCountGaugeUpdate }.
Definition plan_deregister_peer_membership (removed peers_empty_after : bool) : DeregisterPeerMembershipPlan :=
  mkDeregisterPlan peers_empty_after (if removed then GaugeDecrement else GaugeNoChange).

(** ** A room *)

Record IntentEntry := mkIntent { in_key : bytes; in_value : bytes }.
Record CanonicalWrite := mkWrite { cw_key : bytes; cw_value : bytes }.
Record RoomQuerySpec := mkRoomQuerySpec { rq_query_spec_id : bytes; rq_version : bytes; rq_descriptor : Value }.
Record RoomProjection := mkRoomProjection {
  rp_projection_id : bytes;
  rp_query_spec_id : bytes;
  rp_checkpoint : Value;
  rp_rows : list Value;
  rp_digest : bytes;
  rp_invalidated : bool;
  rp_invalidation_reason : option bytes;
}.

Record Room := mkRoom {
  rm_graph : RoomGraph;
  rm_policy_timeline : list PolicyTimelineEntry;
  rm_blobs : MemoryBlobStore;
  rm_auth_key : option PublicKey;
  rm_ticking : bool;
  rm_connected_peers : gset bytes;
  rm_peer_sessions : gmap bytes Z;
  rm_idle_since : option Instant;
  rm_lineage : option RoomLineage;
  rm_query_specs : gmap bytes RoomQuerySpec;
  rm_projections : gmap bytes RoomProjection;
  rm_hydrated : bool;
}.

Definition room_new (now : Instant) : Room :=
  mkRoom empty_graph [mkEntry 0 policy_default] ∅ None false ∅ ∅ (Some now) None ∅ ∅ false.

Definition with_graph (r : Room) (g : RoomGraph) : Room :=
  mkRoom g (rm_policy_timeline r) (rm_blobs r) (rm_auth_key r) (rm_ticking r) (rm_connected_peers r) (rm_peer_sessions r)
    (rm_idle_since r) (rm_lineage r) (rm_query_specs r) (rm_projections r) (rm_hydrated r).
Definition with_timeline (r : Room) (tl : list PolicyTimelineEntry) : Room :=
  mkRoom (rm_graph r) tl (rm_blobs r) (rm_auth_key r) (rm_ticking r) (rm_connected_peers r) (rm_peer_sessions r)
    (rm_idle_since r) (rm_lineage r) (rm_query_specs r) (rm_projections r) (rm_hydrated r).
Definition with_room_blobs (r : Room) (b : MemoryBlobStore) : Room :=
  mkRoom (rm_graph r) (rm_policy_timeline r) b (rm_auth_key r) (rm_ticking r) (rm_connected_peers r) (rm_peer_sessions r)
    (rm_idle_since r) (rm_lineage r) (rm_query_specs r) (rm_projections r) (rm_hydrated r).
Definition with_ticking (r : Room) (b : bool) : Room :=
  mkRoom (rm_graph r) (rm_policy_timeline r) (rm_blobs r) (rm_auth_key r) b (rm_connected_peers r) (rm_peer_sessions r)
    (rm_idle_since r) (rm_lineage r) (rm_query_specs r) (rm_projections r) (rm_hydrated r).
Definition with_members (r : Room) (peers : gset bytes) (sessions : gmap bytes Z) (idle : option Instant) : Room :=
  mkRoom (rm_graph r) (rm_policy_timeline r) (rm_blobs r) (rm_auth_key r) (rm_ticking r) peers sessions
    idle (rm_lineage r) (rm_query_specs r) (rm_projections r) (rm_hydrated r).
Definition with_lineage (r : Room) (l : option RoomLineage) : Room :=
  mkRoom (rm_graph r) (rm_policy_timeline r) (rm_blobs r) (rm_auth_key r) (rm_ticking r) (rm_connected_peers r) (rm_peer_sessions r)
    (rm_idle_since r) l (rm_query_specs r) (rm_projections r) (rm_hydrated r).
Definition with_hydrated (r : Room) (b : bool) : Room :=
  mkRoom (rm_graph r) (rm_policy_timeline r) (rm_blobs r) (rm_auth_key r) (rm_ticking r) (rm_connected_peers r) (rm_peer_sessions r)
    (rm_idle_since r) (rm_lineage r) (rm_query_specs r) (rm_projections r) b.

(** *** Joining and leaving

    [register_peer] holds the session counts, the peer set and the idle clock one
    after the other; [deregister_peer] the counts, then the set and the clock. *)

Definition sat_add_usize (a b : Z) : Z := Z.min (a + b) usize_max.
Definition register_sessions (r : Room) (pk : bytes) : Room * Z :=
  let prior := default 0 (rm_peer_sessions r !! pk) in
  (with_members r (rm_connected_peers r) (<[pk := sat_add_usize prior 1]> (rm_peer_sessions r)) (rm_idle_since r), prior).
Definition register_peers (r : Room) (pk : bytes) (prior : Z) : Room * bool :=
  if prior =? 0
  then (with_members r ({[pk]} ∪ rm_connected_peers r) (rm_peer_sessions r) (rm_idle_since r), bool_decide (pk ∉ rm_connected_peers r))
  else (r, false).
Definition register_idle (r : Room) (inserted : bool) : Room * PeerCountGaugeUpdate :=
  let plan := plan_register_peer_membership inserted in
  (if clear_idle_since plan then with_members r (rm_connected_peers r) (rm_peer_sessions r) None else r, reg_gauge_update plan).
Definition register_peer (r : Room) (pk : bytes) : Room * PeerCountGaugeUpdate :=
  let '(r, prior) := register_sessions r pk in
  let '(r, inserted) := register_peers r pk prior in
  register_idle r inserted.

Definition deregister_sessions (r : Room) (pk : bytes) : Room * bool :=
  match rm_peer_sessions r !! pk with
  | Some n =>
      if n =? 1 then (with_members r (rm_connected_peers r) (delete pk (rm_peer_sessions r)) (rm_idle_since r), true)
      else if 1 <? n then (with_members r (rm_connected_peers r) (<[pk := n - 1]> (rm_peer_sessions r)) (rm_idle_since r), false)
      else (r, false)
  | None => (r, false)
  end.
Definition deregister_peers (r : Room) (pk : bytes) (removed : bool) (now : Instant) : Room * PeerCountGaugeUpdate :=
  let peers := if removed then rm_connected_peers r ∖ {[pk]} else rm_connected_peers r in
  let plan := plan_deregister_peer_membership removed (bool_decide (peers = ∅)) in
  (with_members r peers (rm_peer_sessions r) (if set_idle_since_now plan then Some now else rm_idle_since r), dereg_gauge_update plan).
Definition deregister_peer (r : Room) (pk : bytes) (now : Instant) : Room * PeerCountGaugeUpdate :=
  let '(r, removed) := deregister_sessions r pk in
  deregister_peers r pk removed now.

(** *** Policy *)

Definition room_set_policy (r : Room) (p : Policy) : Room :=
  let next_cutover := match last (rm_policy_timeline r) with Some e => sat_add64 (effective_lamport e) 1 | None => 0 end in
  with_graph (with_timeline r (rm_policy_timeline r ++ [mkEntry next_cutover p])) (set_policy (rm_graph r) p).
Definition current_policy_timeline (r : Room) : list PolicyTimelineEntry := rm_policy_timeline r.

(** [start_tick] and [stop_tick]. *)
Definition start_tick (r : Room) : Room * bool :=
  if rm_ticking r then (r, false) else (with_ticking r true, true).
Definition stop_tick (r : Room) : Room := with_ticking r false.

(** The passes of [import_nodes]: what a rejection does to the nodes still
    pending, and what it reports.  A duplicate is silent. *)
Inductive ImportError := ImportRejected (e : SyncError) | ImportUnresolved (n : Z).
Definition room_split (t : gmap NodeId SyncNode * list SyncNode * list ImportError) (rj : NodeId * SyncError)
    : gmap NodeId SyncNode * list SyncNode * list ImportError :=
  let '(m, still, errors) := t in
  match rj.2 with
  | MissingParent _ => match m !! rj.1 with Some n => (delete rj.1 m, still ++ [n], errors) | None => t end
  | DuplicateNode _ => t
  | e => (m, still, errors ++ [ImportRejected e])
  end.

(** [blob_hashes_referenced_by]. *)
Definition blob_hashes_referenced_by (ns : list SyncNode) : gset Hash := list_to_set (ns ≫= λ n, omap op_blob (node_ops n)).

(** [default_tick_fn]. *)
Definition default_tick_fn (intents : list IntentEntry) : list CanonicalWrite :=
  omap (λ e, (λ rest, mkWrite (bs "world/" ++ rest) (in_value e)) <$> strip_prefix (bs "intent/") (in_key e)) intents.
Definition tick_op (w : CanonicalWrite) : Op := OpMap (MapSet (cw_key w) (cw_value w)).

Section room.
Context `{Blake3, Postcard Transaction, Ed25519, Postcard (list WireNode), Postcard (list PolicyTimelineEntry), Postcard (list Hash)}.
Context {P : Type} `{NodePersistence P, BlobPersistence P}.
Implicit Types (r : Room) (room : bytes) (p : P).

(** *** Importing a pack *)

Fixpoint room_import_loop (fuel : nat) (g : RoomGraph) (pending : list SyncNode) (now_ms : Z)
    (acc : list NodeId) (errors : list ImportError) : RoomGraph * list SyncNode * list NodeId * list ImportError :=
  match fuel, pending with
  | S fuel, _ :: _ =>
      let '(g, result) := apply_remote_batch_checked g (import_batch pending) (Some now_ms) in
      let '(_, still, errors) := foldl room_split (by_id pending, [], errors) (batch_rejected result) in
      let acc := acc ++ batch_accepted result in
      if decide (length still = length pending) then (g, still, acc, errors)
      else room_import_loop fuel g still now_ms acc errors
  | _, _ => (g, pending, acc, errors)
  end.

(** [import_nodes]: the accepted nodes are written through at the end. *)
Definition room_import_nodes r room p (ns : list SyncNode) (now_ms : Z)
    : Room * P * (list NodeId * list ImportError) :=
  let '(g, pending, accepted, errors) := room_import_loop (S (length ns)) (rm_graph r) ns now_ms [] [] in
  let errors := match pending with [] => errors | _ => errors ++ [ImportUnresolved (Z.of_nat (length pending))] end in
  let refs := omap (λ id, head (get_nodes g [id])) accepted in
  let p := match accepted, refs with _ :: _, _ :: _ => np_persist_nodes P room refs p | _, _ => p end in
  (with_graph r g, p, (accepted, errors)).

(** *** The tick *)

Definition tick_intents (g : RoomGraph) (prefix : bytes) : list IntentEntry :=
  (λ kv, mkIntent kv.1 kv.2) <$> filter (λ kv, starts_with prefix kv.1 = true) (map_to_list (resolve g)).
(** The writes become one node signed by the server, written through and packed. *)
Definition tick_commit r room p (sk : SigningKey) (writes : list CanonicalWrite) : Room * P * option bytes :=
  match writes with
  | [] => (r, p, None)
  | _ =>
      let '(g, res) := apply_local (rm_graph r) sk 0 (tick_op <$> writes) in
      match res with
      | Err _ => (with_graph r g, p, None)
      | Ok id =>
          let nodes := get_nodes g [id] in
          (with_graph r g, match nodes with n :: _ => np_persist_node P room n p | [] => p end,
           Some (base64_encode (pack_nodes nodes)))
      end
  end.
Definition process_tick r room p (sk : SigningKey) (prefix : bytes) (tick_fn : list IntentEntry → list CanonicalWrite)
    : Room * P * option bytes :=
  tick_commit r room p sk (tick_fn (tick_intents (rm_graph r) prefix)).

(** *** The snapshot sweeper

    Its memory of a room: node count at the last snapshot, chain depth, and the
    last snapshot. *)
Definition SnapState : Type := Z * Z * option NodeId.
Definition snapshot_tick r room p (sk : SigningKey) (node_interval max_chain_depth : Z) (memory : option SnapState)
    : Room * P * SnapState :=
  let current_count := ns_len (g_nodes (rm_graph r)) in
  let '(last_count, chain_depth, last_snap_id) := default (current_count, 0, None) memory in
  let kept := (last_count, chain_depth, last_snap_id) in
  let delta := Z.max 0 (current_count - last_count) in
  if delta <? node_interval then (r, p, kept)
  else
    let is_full := match last_snap_id with None => true | Some _ => max_chain_depth <=? chain_depth end in
    let snap := match last_snap_id with
                | Some base => if is_full then compact (rm_graph r) sk else compact_incremental (rm_graph r) sk base
                | None => compact (rm_graph r) sk
                end in
    match snap with
    | Err _ => (r, p, kept)
    | Ok n =>
        let '(g, res) := apply_remote (rm_graph r) n in
        match res with
        | Err _ => (with_graph r g, p, kept)
        | Ok _ => (with_graph r g, np_persist_node P room n p, (current_count, if is_full then 0 else chain_depth + 1, Some (node_id n)))
        end
    end.
End room.
