(* ===== verification/Membership.v ===== *)
(** Joining and leaving a room concurrently.  Each method takes its locks one after
    the other, so other tasks run in between: the critical sections are the steps of
    a transition system whose tasks remember what they have read. *)

From S2P Require Import Prelude Op Node Policy Storage Graph Replay HostTypes HostState Host Room.

(** What a task has still to do. *)
Inductive PeerTask :=
| RegPeers (pk : bytes) (prior : Z)
| RegIdle (pk : bytes) (inserted : bool)
| DeregPeers (pk : bytes) (removed : bool).
Definition task_peer (t : PeerTask) : bytes := match t with RegPeers pk _ | RegIdle pk _ | DeregPeers pk _ => pk end.

(** A critical section; [fresh] says which peers a new task may be for. *)
Inductive member_step (fresh : bytes → list PeerTask → Prop) : Room * list PeerTask → Room * list PeerTask → Prop :=
| mb_register r ts pk : fresh pk ts →
    member_step fresh (r, ts) ((register_sessions r pk).1, RegPeers pk (register_sessions r pk).2 :: ts)
| mb_register_peers r l k pk prior :
    member_step fresh (r, l ++ RegPeers pk prior :: k) ((register_peers r pk prior).1, l ++ RegIdle pk (register_peers r pk prior).2 :: k)
| mb_register_idle r l k pk inserted :
    member_step fresh (r, l ++ RegIdle pk inserted :: k) ((register_idle r inserted).1, l ++ k)
| mb_deregister r ts pk : fresh pk ts →
    member_step fresh (r, ts) ((deregister_sessions r pk).1, DeregPeers pk (deregister_sessions r pk).2 :: ts)
| mb_deregister_peers r l k pk removed now :
    member_step fresh (r, l ++ DeregPeers pk removed :: k) ((deregister_peers r pk removed now).1, l ++ k).

(** One task per peer at a time, or any tasks at all. *)
Definition one_per_peer (pk : bytes) (ts : list PeerTask) : Prop := pk ∉ task_peer <$> ts.
Definition unrestricted (_ : bytes) (_ : list PeerTask) : Prop := True.

(** ** The invariant of serial tasks *)

(** Peer [pk] with the task in flight for it. *)
Definition peer_ok (r : Room) (pk : bytes) (t : option PeerTask) : Prop :=
  match t with
  | None | Some (DeregPeers _ false) => pk ∈ rm_connected_peers r ↔ is_Some (rm_peer_sessions r !! pk)
  | Some (RegPeers _ prior) => is_Some (rm_peer_sessions r !! pk) ∧ (prior = 0 ∨ pk ∈ rm_connected_peers r)
  | Some (RegIdle _ _) => pk ∈ rm_connected_peers r ∧ is_Some (rm_peer_sessions r !! pk)
  | Some (DeregPeers _ true) => rm_peer_sessions r !! pk = None
  end.
Definition find_task (pk : bytes) (ts : list PeerTask) : option PeerTask := head (filter (λ t, task_peer t = pk) ts).
Definition to_clear (t : PeerTask) : Prop := match t with RegIdle _ _ => True | _ => False end.

Record members_ok (c : Room * list PeerTask) : Prop := {
  mo_serial : NoDup (task_peer <$> c.2);
  mo_counts : ∀ pk n, rm_peer_sessions c.1 !! pk = Some n → 0 < n;
  mo_peers : ∀ pk, peer_ok c.1 pk (find_task pk c.2);
  mo_idle : rm_connected_peers c.1 = ∅ → is_Some (rm_idle_since c.1);
  mo_busy : rm_connected_peers c.1 = ∅ ∨ rm_idle_since c.1 = None ∨ Exists to_clear c.2;
}.

Lemma find_task_middle l k t pk :
  NoDup (task_peer <$> l ++ t :: k) → find_task pk (l ++ t :: k) = if decide (task_peer t = pk) then Some t else find_task pk (l ++ k).
Proof.
  unfold find_task. rewrite fmap_app. cbn [fmap list_fmap]. intros (_&Hd&_)%NoDup_app. rewrite !filter_app, filter_cons.
  case_decide as He; [|done]. assert (filter (λ t0, task_peer t0 = pk) l = []) as ->; [|done].
  apply elem_of_nil_inv. intros x [Hx Hin]%list_elem_of_filter. apply (Hd (task_peer x)); [by apply list_elem_of_fmap_2|].
  rewrite Hx, <-He. by left.
Qed.
Lemma find_task_none pk ts : pk ∉ task_peer <$> ts → find_task pk ts = None.
Proof.
  intros Hn. unfold find_task. assert (filter (λ t, task_peer t = pk) ts = []) as ->; [|done].
  apply elem_of_nil_inv. intros x [<- Hin]%list_elem_of_filter. apply Hn. by apply list_elem_of_fmap_2.
Qed.
Lemma peer_ok_other r r' pk t :
  rm_peer_sessions r' !! pk = rm_peer_sessions r !! pk → (pk ∈ rm_connected_peers r' ↔ pk ∈ rm_connected_peers r) →
  peer_ok r pk t → peer_ok r' pk t.
Proof. intros E1 E2. destruct t as [[|? []|? []]|]; cbn; rewrite ?E1, ?E2; tauto. Qed.

(** What a step may change of the peers other than [q]. *)
Definition others_kept (q : bytes) (r r' : Room) : Prop :=
  ∀ pk, pk ≠ q → rm_peer_sessions r' !! pk = rm_peer_sessions r !! pk ∧ (pk ∈ rm_connected_peers r' ↔ pk ∈ rm_connected_peers r).

(** Replacing the tasks [old] of a peer by [new] leaves the other peers as they were. *)
Lemma members_next r r' q l k (old new : option PeerTask) :
  NoDup (task_peer <$> l ++ option_list old ++ k) → (∀ x, old = Some x → task_peer x = q) → (∀ x, new = Some x → task_peer x = q) →
  q ∉ task_peer <$> l ++ k → others_kept q r r' → peer_ok r' q new →
  (∀ pk, peer_ok r pk (find_task pk (l ++ option_list old ++ k))) →
  NoDup (task_peer <$> l ++ option_list new ++ k) ∧ ∀ pk, peer_ok r' pk (find_task pk (l ++ option_list new ++ k)).
Proof.
  intros Hs Ho Hn Hq Hk Hok Hp.
  assert (NoDup (task_peer <$> l ++ k)) as Hlk.
  { destruct old as [x|]; cbn in Hs; [|done]. rewrite <-Permutation_middle in Hs. by apply NoDup_cons in Hs as [_ ?]. }
  assert (NoDup (task_peer <$> l ++ option_list new ++ k)) as Hs'.
  { destruct new as [x|]; cbn; [|done]. rewrite <-Permutation_middle. cbn [fmap list_fmap]. apply NoDup_cons.
    by rewrite (Hn x). }
  assert (∀ (o : option PeerTask) pk, NoDup (task_peer <$> l ++ option_list o ++ k) → (∀ x, o = Some x → task_peer x = q) →
    find_task pk (l ++ option_list o ++ k) = if decide (pk = q) then o else find_task pk (l ++ k)) as Hf.
  { intros [x|] pk Hx Hxq; cbn in Hx |- *.
    - rewrite find_task_middle by done. rewrite (Hxq x) by done. by repeat case_decide; subst.
    - case_decide; [subst pk; by apply find_task_none|done]. }
  split; [done|]. intros pk. specialize (Hp pk). rewrite Hf in Hp by done. rewrite Hf by done. case_decide as Hd; [by subst|].
  destruct (Hk pk) as [E1 E2]; [done|]. by eapply peer_ok_other.
Qed.

(** The task in flight is the only one of its peer. *)
Lemma only_task r l t k : members_ok (r, l ++ t :: k) → (task_peer t ∉ task_peer <$> l ++ k) ∧ peer_ok r (task_peer t) (Some t).
Proof.
  intros [Hs _ Hp _ _]. cbn in Hs, Hp. split.
  - rewrite <-Permutation_middle in Hs. cbn [fmap list_fmap] in Hs. by apply NoDup_cons in Hs as [? _].
  - specialize (Hp (task_peer t)). rewrite find_task_middle in Hp by done. by rewrite decide_True in Hp.
Qed.
Lemma members_task r r' l t k (new : option PeerTask) :
  members_ok (r, l ++ t :: k) → (∀ x, new = Some x → task_peer x = task_peer t) → others_kept (task_peer t) r r' →
  peer_ok r' (task_peer t) new →
  NoDup (task_peer <$> l ++ option_list new ++ k) ∧ ∀ pk, peer_ok r' pk (find_task pk (l ++ option_list new ++ k)).
Proof.
  intros Hm Hn Hk Hok. destruct (only_task _ _ _ _ Hm) as [Hq _]. destruct Hm as [Hs _ Hp _ _].
  apply (members_next r r' (task_peer t) l k (Some t) new); try done. by intros ? [= ->].
Qed.
Lemma members_start r r' pk ts (new : PeerTask) :
  members_ok (r, ts) → one_per_peer pk ts → task_peer new = pk → others_kept pk r r' → peer_ok r' pk (Some new) →
  NoDup (task_peer <$> new :: ts) ∧ ∀ pk, peer_ok r' pk (find_task pk (new :: ts)).
Proof.
  intros [Hs _ Hp _ _] Hq Hn Hk Hok. apply (members_next r r' pk [] ts None (Some new)); try done. by intros ? [= ->].
Qed.
Lemma Exists_middle {A} (Q : A → Prop) l x k : Exists Q (l ++ x :: k) ↔ Q x ∨ Exists Q (l ++ k).
Proof. rewrite !Exists_app, Exists_cons. tauto. Qed.

Ltac others := intros ??; cbn; split; [by simplify_map_eq|done].

Lemma register_ok r ts pk :
  members_ok (r, ts) → one_per_peer pk ts → members_ok ((register_sessions r pk).1, RegPeers pk (register_sessions r pk).2 :: ts).
Proof.
  intros Hm Hf. destruct (members_start r (register_sessions r pk).1 pk ts (RegPeers pk (register_sessions r pk).2)) as [Hs Hp]; try done.
  { others. }
  { destruct Hm as [_ Hc Hp _ _]. specialize (Hp pk). cbn in Hp |- *. rewrite find_task_none in Hp by done. cbn in Hp. split.
    - rewrite lookup_insert_eq. by eexists.
    - destruct (rm_peer_sessions r !! pk); [right; by apply Hp|by left]. }
  destruct Hm as [_ Hc _ Hi Hb]. split; try done; cbn in *.
  - intros q n Hq. apply lookup_insert_Some in Hq as [[-> <-] | [_ ?]]; [|by eapply Hc]. unfold sat_add_usize, usize_max, u64_max.
    destruct (rm_peer_sessions r !! q) as [m|] eqn:E; cbn; [apply Hc in E; lia|lia].
  - destruct Hb as [?|[?|?]]; [by left|by right; left|right; right; by right].
Qed.
Lemma register_peers_ok r l k pk prior :
  members_ok (r, l ++ RegPeers pk prior :: k) →
  members_ok ((register_peers r pk prior).1, l ++ RegIdle pk (register_peers r pk prior).2 :: k).
Proof.
  intros Hm. destruct (only_task _ _ _ _ Hm) as [_ [Hx Hy]]. cbn [task_peer] in Hx, Hy.
  destruct (members_task r (register_peers r pk prior).1 l (RegPeers pk prior) k (Some (RegIdle pk (register_peers r pk prior).2)) Hm)
    as [Hs Hp].
  { by intros ? [= <-]. }
  { intros q Hq. cbn in Hq. unfold register_peers. case_match; cbn; [split; [done|set_solver]|done]. }
  { unfold register_peers. cbn. destruct (Z.eqb_spec prior 0); cbn; [split; [set_solver|done]|split; [by destruct Hy|done]]. }
  destruct Hm as [_ Hc _ Hi Hb]. split; try done; cbn in *.
  - intros q n. unfold register_peers. case_match; apply Hc.
  - unfold register_peers. case_match; cbn; [set_solver|done].
  - right; right. apply Exists_middle. by left.
Qed.
Lemma register_idle_ok r l k pk inserted :
  members_ok (r, l ++ RegIdle pk inserted :: k) → members_ok ((register_idle r inserted).1, l ++ k).
Proof.
  intros Hm. destruct (only_task _ _ _ _ Hm) as [_ [Hx Hy]]. cbn [task_peer] in Hx, Hy.
  destruct (members_task r (register_idle r inserted).1 l (RegIdle pk inserted) k None Hm) as [Hs Hp]; try done.
  destruct Hm as [_ Hc _ Hi Hb]. split; try done; cbn in *; [set_solver|by right; left].
Qed.
Lemma deregister_ok r ts pk :
  members_ok (r, ts) → one_per_peer pk ts → members_ok ((deregister_sessions r pk).1, DeregPeers pk (deregister_sessions r pk).2 :: ts).
Proof.
  intros Hm Hf. destruct (members_start r (deregister_sessions r pk).1 pk ts (DeregPeers pk (deregister_sessions r pk).2)) as [Hs Hp]; try done.
  { unfold deregister_sessions. repeat case_match; try done; others. }
  { destruct Hm as [_ Hc Hp _ _]. specialize (Hp pk). cbn in Hp |- *. rewrite find_task_none in Hp by done. cbn in Hp.
    unfold deregister_sessions. destruct (rm_peer_sessions r !! pk) as [n|] eqn:E; cbn; [|by rewrite E].
    destruct (n =? 1); cbn; [apply lookup_delete_eq|]. destruct (1 <? n); cbn; [rewrite lookup_insert_eq|rewrite E]; naive_solver. }
  destruct Hm as [_ Hc _ Hi Hb]. split; try done; cbn in *.
  - intros q n. unfold deregister_sessions. destruct (rm_peer_sessions r !! pk) as [m|] eqn:E; [|apply Hc].
    destruct (m =? 1); cbn; [rewrite lookup_delete_Some; naive_solver|]. destruct (Z.ltb_spec 1 m); cbn; [|apply Hc].
    rewrite lookup_insert_Some. intros [[-> <-] | [_ ?]]; [lia|by eapply Hc].
  - unfold deregister_sessions. repeat case_match; done.
  - destruct Hb as [Hb|[Hb|Hb]]; [left|right; left|right; right; by right]; unfold deregister_sessions; by repeat case_match.
Qed.
Lemma deregister_peers_ok r l k pk removed now :
  members_ok (r, l ++ DeregPeers pk removed :: k) → members_ok ((deregister_peers r pk removed now).1, l ++ k).
Proof.
  intros Hm. destruct (only_task _ _ _ _ Hm) as [_ Hx].
  destruct (members_task r (deregister_peers r pk removed now).1 l (DeregPeers pk removed) k None Hm) as [Hs Hp]; try done.
  { intros q Hq. cbn in Hq |- *. destruct removed; split; [done|set_solver|done|done]. }
  { cbn in Hx |- *. destruct removed; [|done]. rewrite Hx. split; [set_solver|by intros [? ?]]. }
  destruct Hm as [_ Hc _ Hi Hb]. split; try done; cbn in *.
  - intros He. rewrite bool_decide_true by done. by eexists.
  - case_bool_decide as He; [by left|]. destruct Hb as [Hb|[Hb|Hb]]; [|by right; left|].
    + destruct He. destruct removed; [set_solver|done].
    + right; right. by apply Exists_middle in Hb as [[]|?].
Qed.
Lemma member_step_ok c c' : member_step one_per_peer c c' → members_ok c → members_ok c'.
Proof.
  intros [] Hm; [by apply register_ok|by apply register_peers_ok|by eapply register_idle_ok|by apply deregister_ok|by apply deregister_peers_ok].
Qed.
Lemma member_steps_ok c c' : rtc (member_step one_per_peer) c c' → members_ok c → members_ok c'.
Proof. induction 1; eauto using member_step_ok. Qed.
Lemma members_ok_new now : members_ok (room_new now, []).
Proof. split; cbn; [apply NoDup_nil_2|done|intros pk; cbn; by rewrite lookup_empty, elem_of_empty; split; [|intros []]|by eexists|by left]. Qed.

(** ** Theorems *)

(** C27: the accounting of a room's peers, with joins and leaves interleaved at every
    lock and at most one of them in flight for each peer: whenever no task is in
    flight, the connected peers are exactly those with a session count, the counts are
    positive, and the idle clock runs exactly when nobody is connected. *)
Theorem membership_settles now (r : Room) :
  rtc (member_step one_per_peer) (room_new now, []) (r, []) →
  (∀ pk, pk ∈ rm_connected_peers r ↔ ∃ n, rm_peer_sessions r !! pk = Some n ∧ 0 < n) ∧
  (rm_idle_since r = None ↔ rm_connected_peers r ≠ ∅).
Proof.
  intros Hr. apply member_steps_ok in Hr; [|apply members_ok_new].
  destruct Hr as [_ Hc Hp Hi Hb]. cbn in *. split.
  - intros pk. specialize (Hp pk). cbn in Hp. rewrite Hp. split; [intros [n Hn]; eauto|intros (n&->&_); eauto].
  - split; [intros He Hn; apply Hi in Hn; rewrite He in Hn; by destruct Hn|]. intros Hn.
    destruct Hb as [?|[?|Hb]]; [done|done|by apply Exists_nil in Hb].
Qed.

(** A whole join as steps. *)
Lemma register_run r ts pk : rtc (member_step unrestricted) (r, ts) ((register_peer r pk).1, ts).
Proof.
  unfold register_peer. destruct (register_sessions r pk) as [r1 prior] eqn:E1. destruct (register_peers r1 pk prior) as [r2 ins] eqn:E2.
  eapply rtc_l; [by apply (mb_register _ r ts pk)|]. eapply rtc_l; [apply (mb_register_peers _ _ [] ts)|].
  apply rtc_once. rewrite E1. cbn [fst snd app]. rewrite E2. apply (mb_register_idle _ r2 [] ts).
Qed.
Definition rejoin_final (now now' : Instant) (pk : bytes) : Room :=
  let r := (register_peer (room_new now) pk).1 in
  let r' := (register_peer (deregister_sessions r pk).1 pk).1 in
  (deregister_peers r' pk (deregister_sessions r pk).2 now').1.
Lemma rejoin_run now now' pk : rtc (member_step unrestricted) (room_new now, []) (rejoin_final now now' pk, []).
Proof.
  unfold rejoin_final. etrans; [apply (register_run _ [] pk)|]. eapply rtc_l; [by apply (mb_deregister _ _ [] pk)|].
  etrans; [apply (register_run _ _ pk)|]. apply rtc_once. apply (mb_deregister_peers _ _ [] []).
Qed.

(** Without that restriction the accounting breaks.  A peer that reconnects while
    its previous connection is being torn down (between the two locks of
    [deregister_peer]) ends with a live session and no task in flight, yet it is not
    among the connected peers and the idle clock runs: the room can be evicted under it. *)
Theorem rejoin_drops_live_peer now now' (pk : bytes) :
  ∃ r, rtc (member_step unrestricted) (room_new now, []) (r, []) ∧
    rm_peer_sessions r !! pk = Some 1 ∧ rm_connected_peers r = ∅ ∧ rm_idle_since r = Some now'.
Proof.
  exists (rejoin_final now now' pk). split; [apply rejoin_run|].
  assert (deregister_sessions (register_peer (room_new now) pk).1 pk =
    (with_members (room_new now) {[pk]} ∅ None, true)) as E.
  { unfold deregister_sessions, register_peer. cbn. rewrite lookup_empty. cbn. rewrite lookup_insert_eq. change (sat_add_usize 0 1 =? 1) with true. cbn. by rewrite delete_insert_eq, delete_empty, (right_id_L ∅ (∪)). }
  unfold rejoin_final. rewrite E. cbn. rewrite lookup_empty. cbn.
  assert ((({[pk]} : gset bytes) ∪ {[pk]}) ∖ {[pk]} = ∅) as -> by set_solver.
  rewrite bool_decide_true by done. by rewrite lookup_insert_eq.
Qed.

Definition alice : bytes := bs "alice".
Lemma alice_joins : rtc (member_step one_per_peer) (room_new 0, []) ((register_peer (room_new 0) alice).1, []).
Proof.
  eapply rtc_l; [apply (mb_register _ (room_new 0) [] alice); by intros ?%elem_of_nil|].
  eapply rtc_l; [apply (mb_register_peers _ _ [] [])|]. apply rtc_once. apply (mb_register_idle _ _ [] []).
Qed.
Lemma membership_settles_witness :
  rtc (member_step one_per_peer) (room_new 0, []) ((register_peer (room_new 0) alice).1, []) ∧
  rm_idle_since (register_peer (room_new 0) alice).1 = None.
Proof.
  split; [exact alice_joins|]. destruct (membership_settles 0 _ alice_joins) as [_ [_ Hi]]. apply Hi. cbn. set_solver.
Defined.
