(* ===== verification/Admission.v ===== *)
(** Admission of work (server/query_control.rs, [acquire_projection_build_slot], and
    server/promotion.rs, [acquire_promotion_queue_slot]): a semaphore with a bounded
    number of waiters.  Both functions are the same algorithm over their own
    semaphore and counter; they differ in what a refusal says.

    The semaphore is tokio's: fair, first come first served, and a permit that is
    given back goes to the first waiter if there is one.  Every access to the
    semaphore or to the counter of waiters is a step of its own. *)

From S2P Require Import Prelude.

(** [QueryBuildLimits], and the promotion limits of [Rooms]. *)
Record AdmissionLimits := mkLimits { max_inflight : Z; max_queue : Z }.

(** Where a task is between two accesses.  A task that waits is in the queue of the
    semaphore instead. *)
Inductive Phase :=
| Trying
| Counting
| BackingOut
| Enqueueing
| Woken
| Running.

Record Admission := mkAdmission {
  ad_taken : Z;
  ad_waiting : Z;
  ad_queue : list nat;
  ad_tasks : list (nat * Phase);
}.
Definition admission_new : Admission := mkAdmission 0 0 [] [].

Section limits.
Context (limits : AdmissionLimits).

(** [try_acquire_owned]. *)
Definition try_acquire (taken : Z) : option Z := if taken <? max_inflight limits then Some (taken + 1) else None.
(** The task tries for a permit; without one it gives up or goes on to count itself.
    A limit of zero admits it without a permit, out of this accounting. *)
Definition run_try (s : Admission) (t : nat) (rest : list (nat * Phase)) : Admission :=
  if max_inflight limits =? 0 then mkAdmission (ad_taken s) (ad_waiting s) (ad_queue s) rest
  else
    match try_acquire (ad_taken s) with
    | Some taken => mkAdmission taken (ad_waiting s) (ad_queue s) ((t, Running) :: rest)
    | None =>
        if max_queue limits =? 0 then mkAdmission (ad_taken s) (ad_waiting s) (ad_queue s) rest
        else mkAdmission (ad_taken s) (ad_waiting s) (ad_queue s) ((t, Counting) :: rest)
    end.
(** [fetch_add], and the comparison of the count before it. *)
Definition run_count (s : Admission) (t : nat) (rest : list (nat * Phase)) : Admission :=
  mkAdmission (ad_taken s) (ad_waiting s + 1) (ad_queue s)
    ((t, if max_queue limits <=? ad_waiting s then BackingOut else Enqueueing) :: rest).
(** [fetch_sub] of a task that was refused. *)
Definition run_back_out (s : Admission) (rest : list (nat * Phase)) : Admission :=
  mkAdmission (ad_taken s) (ad_waiting s - 1) (ad_queue s) rest.
(** [acquire_owned]: at once, or at the end of the queue. *)
Definition run_enqueue (s : Admission) (t : nat) (rest : list (nat * Phase)) : Admission :=
  match try_acquire (ad_taken s) with
  | Some taken => mkAdmission taken (ad_waiting s) (ad_queue s) ((t, Woken) :: rest)
  | None => mkAdmission (ad_taken s) (ad_waiting s) (ad_queue s ++ [t]) rest
  end.
(** [fetch_sub] of a task that has its permit. *)
Definition run_woken (s : Admission) (t : nat) (rest : list (nat * Phase)) : Admission :=
  mkAdmission (ad_taken s) (ad_waiting s - 1) (ad_queue s) ((t, Running) :: rest).
(** The drop of the permit. *)
Definition run_release (s : Admission) (rest : list (nat * Phase)) : Admission :=
  match ad_queue s with
  | t :: queue => mkAdmission (ad_taken s) (ad_waiting s) queue ((t, Woken) :: rest)
  | [] => mkAdmission (ad_taken s - 1) (ad_waiting s) [] rest
  end.

Inductive admission_step : Admission → Admission → Prop :=
| as_start s t : admission_step s (mkAdmission (ad_taken s) (ad_waiting s) (ad_queue s) ((t, Trying) :: ad_tasks s))
| as_run s t ph l k : ad_tasks s = l ++ (t, ph) :: k →
    admission_step s
      match ph with
      | Trying => run_try s t (l ++ k)
      | Counting => run_count s t (l ++ k)
      | BackingOut => run_back_out s (l ++ k)
      | Enqueueing => run_enqueue s t (l ++ k)
      | Woken => run_woken s t (l ++ k)
      | Running => run_release s (l ++ k)
      end.

(** ** The accounting *)

Definition tally (f : Phase → bool) (ts : list (nat * Phase)) : Z := Z.of_nat (length (filter (λ t, f t.2 = true) ts)).
Definition holds (ph : Phase) : bool := match ph with Woken | Running => true | _ => false end.
Definition counted (ph : Phase) : bool := match ph with BackingOut | Enqueueing | Woken => true | _ => false end.
Definition accepted (ph : Phase) : bool := match ph with Enqueueing | Woken => true | _ => false end.
Definition queued (s : Admission) : Z := Z.of_nat (length (ad_queue s)).

Lemma tally_cons f t ph ts : tally f ((t, ph) :: ts) = Z.b2z (f ph) + tally f ts.
Proof. unfold tally. rewrite filter_cons. cbn [snd]. case_decide as E; [rewrite E|destruct (f ph)]; cbn; lia || done. Qed.
Lemma tally_middle f l t ph k : tally f (l ++ (t, ph) :: k) = Z.b2z (f ph) + tally f (l ++ k).
Proof.
  unfold tally. rewrite !filter_app, !length_app, !Nat2Z.inj_add. pose proof (tally_cons f t ph k) as E. unfold tally in E. rewrite E. lia.
Qed.

Lemma tally_pos f ts : 0 <= tally f ts.
Proof. unfold tally. lia. Qed.
Lemma tally_le f g ts : (∀ ph, f ph = true → g ph = true) → tally f ts <= tally g ts.
Proof.
  intros Hfg. induction ts as [|[t ph] ts IH]; [done|]. rewrite !tally_cons. specialize (Hfg ph). destruct (f ph); [rewrite Hfg by done|destruct (g ph)]; cbn; lia.
Qed.

Record admission_ok (s : Admission) : Prop := {
  ao_taken : ad_taken s = tally holds (ad_tasks s);
  ao_bound : ad_taken s <= max_inflight limits;
  ao_waiting : ad_waiting s = tally counted (ad_tasks s) + queued s;
  ao_queue : tally accepted (ad_tasks s) + queued s <= max_queue limits;
  ao_busy : ad_queue s ≠ [] → ad_taken s = max_inflight limits;
}.

Lemma try_acquire_spec taken :
  match try_acquire taken with Some n => taken < max_inflight limits ∧ n = taken + 1 | None => max_inflight limits <= taken end.
Proof. unfold try_acquire. destruct (Z.ltb_spec taken (max_inflight limits)); [done|lia]. Qed.

Context (Hi : 0 <= max_inflight limits) (Hq : 0 <= max_queue limits).

Lemma admission_new_ok : admission_ok admission_new.
Proof. split; cbn; unfold queued; cbn; done || lia. Qed.

Ltac phase :=
  unfold queued in *; cbn [ad_taken ad_waiting ad_queue ad_tasks] in *; rewrite ?tally_cons; cbn [ad_taken ad_waiting ad_queue ad_tasks holds counted accepted Z.b2z] in *;
  rewrite ?length_app in *; cbn [length] in *;
  first [lia | done | by intros | intros Hne; match goal with Hbu : _ → _ = _ |- _ => specialize (Hbu Hne); lia end | idtac].

Lemma admission_step_ok s s' : admission_step s s' → admission_ok s → admission_ok s'.
Proof.
  destruct 1 as [s t|s t ph l k E]; intros [Ht Hb Hw Hqu Hbu].
  { split; phase. }
  rewrite E in Ht, Hw, Hqu. rewrite tally_middle in Ht, Hw, Hqu. clear E.
  assert (tally accepted (l ++ k) <= tally counted (l ++ k)) as Hac by (apply tally_le; by intros []).
  destruct ph; cbn [holds counted accepted Z.b2z] in Ht, Hw, Hqu.
  - unfold run_try. destruct (max_inflight limits =? 0); [split; phase|]. pose proof (try_acquire_spec (ad_taken s)) as Hs.
    destruct (try_acquire (ad_taken s)) as [n|]; [destruct Hs as [? ->]; split; phase|].
    destruct (max_queue limits =? 0); split; phase.
  - unfold run_count. destruct (Z.leb_spec (max_queue limits) (ad_waiting s)); split; phase.
  - unfold run_back_out. split; phase.
  - unfold run_enqueue. pose proof (try_acquire_spec (ad_taken s)) as Hs.
    destruct (try_acquire (ad_taken s)) as [n|]; [destruct Hs as [? ->]|]; split; phase.
  - unfold run_woken. split; phase.
  - unfold run_release, queued in *. destruct (ad_queue s) as [|t' q] eqn:Eq; split; phase. intros _. by apply Hbu.
Qed.
End limits.

(** C36: the admission of work keeps its bounds at every interleaving of its atomic
    accesses: no more permits are out than the limit allows and each belongs to a
    task that runs or is about to, no more tasks are let into the queue than it
    holds, no permit lies idle while a task is queued, and the counter of waiters is
    exactly the number of tasks that wait or are about to take themselves off it, so
    it never drifts. *)
Theorem admission_bounds limits s :
  0 <= max_inflight limits → 0 <= max_queue limits → rtc (admission_step limits) admission_new s →
  tally holds (ad_tasks s) = ad_taken s ∧ ad_taken s <= max_inflight limits ∧
  tally accepted (ad_tasks s) + queued s <= max_queue limits ∧
  (ad_queue s ≠ [] → ad_taken s = max_inflight limits) ∧
  ad_waiting s = tally counted (ad_tasks s) + queued s.
Proof.
  intros Hi Hq Hr. assert (admission_ok limits s) as [] by (revert Hr; generalize (admission_new_ok limits Hi Hq); induction 2; eauto using admission_step_ok).
  done.
Qed.

(** Three tasks for one permit and one place in the queue: the first runs, the
    second waits, the third is about to be refused. *)
Definition one_slot : AdmissionLimits := mkLimits 1 1.
Definition crowded : Admission := mkAdmission 1 2 [1%nat] [(2%nat, BackingOut); (0%nat, Running)].
Lemma crowded_reached : rtc (admission_step one_slot) admission_new crowded.
Proof.
  eapply rtc_l; [apply (as_start _ _ 0)|]. eapply rtc_l; [by apply (as_run _ _ 0 Trying [] [])|].
  eapply rtc_l; [apply (as_start _ _ 1)|]. eapply rtc_l; [by apply (as_run _ _ 1 Trying [] [(0%nat, Running)])|].
  eapply rtc_l; [by apply (as_run _ _ 1 Counting [] [(0%nat, Running)])|].
  eapply rtc_l; [by apply (as_run _ _ 1 Enqueueing [] [(0%nat, Running)])|].
  eapply rtc_l; [apply (as_start _ _ 2)|]. eapply rtc_l; [by apply (as_run _ _ 2 Trying [] [(0%nat, Running)])|].
  eapply rtc_l; [by apply (as_run _ _ 2 Counting [] [(0%nat, Running)])|]. apply rtc_refl.
Qed.
Lemma admission_bounds_witness : rtc (admission_step one_slot) admission_new crowded ∧ ad_waiting crowded = tally counted (ad_tasks crowded) + queued crowded.
Proof. split; [exact crowded_reached|]. apply (admission_bounds one_slot crowded); [done|done|exact crowded_reached]. Defined.
