(* ===== verification/Query.v ===== *)
(** The query plane of a room on the server (server/query_control.rs): query specs,
    projections built from the resolved map, their pages, and replay ranges.  The
    admission of builds is modelled on its own; here a build has its slot. *)

From S2P Require Import Prelude Str StErr Hex Op Node Policy Frontier Storage Caches CacheFacts Fenwick Utf8.
From S2P Require Import TextState Text Graph Replay TopoStore HostTypes HostState Host HostThms Room.

(** [QueryBuildLimits], the part a build itself reads. *)
Record BuildLimits := mkBuildLimits { max_rows : Z }.

Definition is_object (v : Value) : bool := match v with JObject _ => true | _ => false end.
Definition trimmed (k : bytes) (msg : Value) : bytes := trim (default [] (get_str k msg)).
Definition with_specs (r : Room) (m : gmap bytes RoomQuerySpec) : Room :=
  mkRoom (rm_graph r) (rm_policy_timeline r) (rm_blobs r) (rm_auth_key r) (rm_ticking r) (rm_connected_peers r) (rm_peer_sessions r)
    (rm_idle_since r) (rm_lineage r) m (rm_projections r) (rm_hydrated r).
Definition with_projections (r : Room) (m : gmap bytes RoomProjection) : Room :=
  mkRoom (rm_graph r) (rm_policy_timeline r) (rm_blobs r) (rm_auth_key r) (rm_ticking r) (rm_connected_peers r) (rm_peer_sessions r)
    (rm_idle_since r) (rm_lineage r) (rm_query_specs r) m (rm_hydrated r).

(** A refusal: its type, the fields that name what was asked for, the class and the message. *)
Definition refusal (ty : bytes) (fields : list (bytes * Value)) (class message : bytes) : Value :=
  jobj ((bs "type", JString ty) :: fields ++ [(bs "reason_class", JString class); (bs "reason_message", JString message)]).

Section query.
Context `{Blake3, Postcard Transaction, Ed25519}.
Implicit Types (r : Room) (msg : Value).

(** [process_query_register]. *)
Definition process_query_register r msg : Room * Value :=
  let query_spec_id := trimmed (bs "query_spec_id") msg in
  let version := trimmed (bs "version") msg in
  let descriptor := default (jobj []) (jget (bs "descriptor") msg) in
  let named := [(bs "query_spec_id", JString query_spec_id); (bs "version", JString version)] in
  if negb (nonempty query_spec_id && nonempty version && is_object descriptor)
  then (r, refusal (bs "query.register.rejected") named (bs "reject.invalid_payload")
             (bs "query.register requires query_spec_id, version, and object descriptor"))
  else (with_specs r (<[query_spec_id := mkRoomQuerySpec query_spec_id version descriptor]> (rm_query_specs r)),
        jobj ((bs "type", JString (bs "query.registered")) :: named ++ [(bs "accepted", JBool true)])).

(** The rows of a spec: the keys of the map under its prefix, in order. *)
Definition selected (m : gmap bytes bytes) (prefix : option bytes) : list (bytes * bytes) :=
  sort_by_key fst (filter (λ kv, match prefix with Some p => starts_with p kv.1 | None => true end = true) (map_to_list m)).
Definition row_of (kv : bytes * bytes) : Value := jobj [(bs "k", JString kv.1); (bs "v", JString (from_utf8_lossy kv.2))].
Definition digest_seed (rows : list (bytes * bytes)) : bytes :=
  rows ≫= λ kv, kv.1 ++ bs "=" ++ from_utf8_lossy kv.2 ++ bs ";".
Definition build_refused (projection_id class message : bytes) : Value :=
  refusal (bs "projection.build.rejected") [(bs "projection_id", JString projection_id)] class message.
(** The checkpoint a request names: the latest, or the current sequence number. *)
Definition checkpoint_error msg (canonical_seq : Z) : option (bytes * bytes) :=
  let target := jget (bs "target_checkpoint") msg in
  let selector := default (bs "latest") (target ≫= get_str (bs "selector")) in
  if negb (bool_decide (selector = bs "latest") || bool_decide (selector = bs "seq"))
  then Some (bs "reject.checkpoint_selector_invalid", bs "selector must be latest or seq")
  else if bool_decide (selector = bs "seq") && negb (bool_decide ((target ≫= λ v, jget (bs "canonical_seq") v ≫= as_u64) = Some canonical_seq))
  then Some (bs "reject.checkpoint_not_found", bs "target checkpoint does not resolve to current canonical sequence")
  else None.
(** [process_projection_build_with_limits], after its slot is granted. *)
Definition process_projection_build r msg (limits : BuildLimits) : Room * Value :=
  let projection_id := trimmed (bs "projection_id") msg in
  let query_spec_id := trimmed (bs "query_spec_id") msg in
  let refuse c m := (r, build_refused projection_id c m) in
  if negb (nonempty projection_id && nonempty query_spec_id)
  then refuse (bs "reject.invalid_payload") (bs "projection.build requires projection_id and query_spec_id")
  else
    match rm_query_specs r !! query_spec_id with
    | None => refuse (bs "reject.query_spec_not_found") (bs "projection.build.query_spec_id is not registered")
    | Some spec =>
        let canonical_seq := ns_len (g_nodes (rm_graph r)) in
        match checkpoint_error msg canonical_seq with
        | Some (class, message) => refuse class message
        | None =>
            let rows := selected (resolve (rm_graph r)) (get_str (bs "prefix") (rq_descriptor spec)) in
            let n := Z.of_nat (length rows) in
            if (0 <? max_rows limits) && (max_rows limits <? n)
            then refuse (bs "reject.query_backpressure")
                   (bs "projection.build row count " ++ decimal n ++ bs " exceeds configured limit " ++ decimal (max_rows limits))
            else
              let digest := to_hex (hash_of (digest_seed rows)) in
              let checkpoint := jobj [(bs "selector", JString (bs "seq")); (bs "canonical_seq", JNumber canonical_seq);
                (bs "canonical_hash", JString digest); (bs "frontier", JArray [JString (bs "seq:" ++ decimal canonical_seq)])] in
              (with_projections r (<[projection_id := mkRoomProjection projection_id query_spec_id checkpoint (row_of <$> rows) digest false None]>
                 (rm_projections r)),
               jobj [(bs "type", JString (bs "projection.build.completed")); (bs "projection_id", JString projection_id);
                 (bs "checkpoint", checkpoint); (bs "digest", JString digest)])
        end
    end.

(** [process_projection_read]. *)
Definition read_limit msg : Z := Z.max (default 100 (jget (bs "limit") msg ≫= as_u64)) 1.
Definition process_projection_read r msg : Value :=
  let projection_id := trimmed (bs "projection_id") msg in
  let named := [(bs "projection_id", JString projection_id)] in
  if negb (nonempty projection_id)
  then refusal (bs "projection.read.rejected") named (bs "reject.invalid_payload") (bs "projection.read requires projection_id")
  else
    match rm_projections r !! projection_id with
    | None => refusal (bs "projection.read.rejected") named (bs "reject.projection_not_found") (bs "projection is not registered")
    | Some proj =>
        let '(rows, next) := page_of (rp_rows proj) (read_limit msg) (parse_offset (get_str (bs "page_token") msg)) in
        jobj [(bs "type", JString (bs "projection.read.result")); (bs "projection_id", JString (rp_projection_id proj));
          (bs "checkpoint", rp_checkpoint proj); (bs "rows", JArray rows); (bs "digest", JString (rp_digest proj));
          (bs "next_page_token", jopt next)]
    end.

(** [process_projection_invalidate]. *)
Definition process_projection_invalidate r msg : Room * Value :=
  let projection_id := trimmed (bs "projection_id") msg in
  let reason := default (bs "manual") (get_str (bs "reason") msg) in
  let named := [(bs "projection_id", JString projection_id)] in
  if negb (nonempty projection_id)
  then (r, refusal (bs "projection.invalidate.rejected") named (bs "reject.invalid_payload") (bs "projection.invalidate requires projection_id"))
  else
    match rm_projections r !! projection_id with
    | None => (r, refusal (bs "projection.invalidate.rejected") named (bs "reject.projection_not_found") (bs "projection is not registered"))
    | Some x =>
        (with_projections r (<[projection_id := mkRoomProjection (rp_projection_id x) (rp_query_spec_id x) (rp_checkpoint x) (rp_rows x)
           (rp_digest x) true (Some reason)]> (rm_projections r)),
         jobj ((bs "type", JString (bs "projection.invalidated")) :: named ++ [(bs "reason", JString reason); (bs "invalidated_at_hlc", JNumber 0)]))
    end.

(** [process_projection_list]. *)
Definition projection_listed (spec_id state_filter : option bytes) (x : RoomProjection) : bool :=
  match spec_id with Some q => bool_decide (rp_query_spec_id x = q) | None => true end &&
  match state_filter with
  | Some f => negb (eq_ignore_ascii_case f (bs "active") && rp_invalidated x) && negb (eq_ignore_ascii_case f (bs "invalidated") && negb (rp_invalidated x))
  | None => true
  end.
Definition projection_item (x : RoomProjection) : Value :=
  jobj [(bs "projection_id", JString (rp_projection_id x)); (bs "query_spec_id", JString (rp_query_spec_id x));
    (bs "state", JString (if rp_invalidated x then bs "invalidated" else bs "active")); (bs "digest", JString (rp_digest x));
    (bs "checkpoint", rp_checkpoint x); (bs "invalidation_reason", jopt (rp_invalidation_reason x))].
Definition process_projection_list r msg : Value :=
  let spec_id := get_str (bs "query_spec_id") msg in
  let state_filter := get_str (bs "state_filter") msg in
  let unknown := match spec_id with Some q => bool_decide (rm_query_specs r !! q = None) | None => false end in
  if unknown
  then refusal (bs "projection.list.rejected") [(bs "query_spec_id", jopt spec_id)] (bs "reject.query_spec_not_found") (bs "query spec is not registered")
  else
    let found := filter (λ kx, projection_listed spec_id state_filter kx.2 = true) (sort_by_key fst (map_to_list (rm_projections r))) in
    jobj [(bs "type", JString (bs "projection.list.result")); (bs "query_spec_id", jopt spec_id);
      (bs "items", JArray ((λ kx, projection_item kx.2) <$> found)); (bs "cursor", JNull)].

(** [process_replay_read_range]. *)
Definition process_replay_read_range r msg : Value :=
  let key_prefix := trimmed (bs "key_prefix") msg in
  if negb (nonempty key_prefix)
  then refusal (bs "replay.read-range.rejected") [] (bs "reject.invalid_payload") (bs "replay.read-range requires non-empty key_prefix")
  else
    let from_lamport := default 0 (jget (bs "from_lamport") msg ≫= as_u64) in
    let '(page, next) := graph_replay_read_range (rm_graph r) key_prefix from_lamport (read_limit msg) (parse_offset (get_str (bs "cursor") msg)) in
    let items := (λ e, jobj [(bs "lamport", JNumber e.1); (bs "node_id", JString e.2.1); (bs "touched_keys", JArray (JString <$> e.2.2))]) <$> page in
    jobj [(bs "type", JString (bs "replay.read-range.result")); (bs "key_prefix", JString key_prefix);
      (bs "from_lamport", JNumber from_lamport); (bs "items", JArray items); (bs "next_cursor", jopt next)].
End query.

(** ** What the projections serve *)

Section facts.
Context `{Blake3, Postcard Transaction, Ed25519}.
Implicit Types (r : Room) (msg : Value).

Definition key_le (x y : bytes * bytes) : Prop := ord_le x.1 y.1.
Lemma by_key_perm l : sort_by_key fst l ≡ₚ (l : list (bytes * bytes)).
Proof. apply merge_sort_Permutation. Qed.
Lemma by_key_sorted l : StronglySorted key_le (sort_by_key fst (l : list (bytes * bytes))).
Proof.
  apply StronglySorted_merge_sort.
  - intros x y z. unfold key_le. apply transitivity.
  - intros x y. apply total. apply _.
Qed.

Definition under (prefix : option bytes) (k : bytes) : Prop := match prefix with Some p => starts_with p k = true | None => True end.
Lemma elem_of_selected m prefix k v : (k, v) ∈ selected m prefix ↔ m !! k = Some v ∧ under prefix k.
Proof. unfold selected. rewrite by_key_perm, list_elem_of_filter, elem_of_map_to_list. unfold under. cbn. destruct prefix; tauto. Qed.
Lemma selected_keys m prefix : NoDup (selected m prefix).*1.
Proof.
  unfold selected. rewrite by_key_perm. apply (sublist_NoDup _ (map_to_list m).*1); [apply NoDup_fst_map_to_list|]. apply fmap_sublist, sublist_filter.
Qed.

Lemma build_refused_type pid c m : get_str (bs "type") (build_refused pid c m) = Some (bs "projection.build.rejected").
Proof. reflexivity. Qed.

(** What a build asks for: names, a registered spec, the current checkpoint, and rows within the limit. *)
Definition buildable r msg limits (spec : RoomQuerySpec) : Prop :=
  trimmed (bs "projection_id") msg ≠ [] ∧ trimmed (bs "query_spec_id") msg ≠ [] ∧
  rm_query_specs r !! trimmed (bs "query_spec_id") msg = Some spec ∧
  checkpoint_error msg (ns_len (g_nodes (rm_graph r))) = None ∧
  (0 < max_rows limits → Z.of_nat (length (selected (resolve (rm_graph r)) (get_str (bs "prefix") (rq_descriptor spec)))) <= max_rows limits).

(** What building a projection does, on every branch.  It is refused exactly when the
    names are empty, the spec is not registered, another checkpoint than the current one
    is asked for, or there are too many rows, and then leaves the room as it was;
    otherwise the projection holds the resolved map's entries under the prefix of its
    spec, sorted by key and each once, is not invalidated, and whoever reads it page by
    page, with any limit, gets exactly these rows; nothing else of the room changes. *)
Theorem projection_build_outcome r msg limits :
  let '(r', response) := process_projection_build r msg limits in
  (get_str (bs "type") response = Some (bs "projection.build.rejected") ∧ r' = r ∧ ∀ spec, ¬ buildable r msg limits spec) ∨
  (get_str (bs "type") response = Some (bs "projection.build.completed") ∧
   ∃ spec rows proj,
     buildable r msg limits spec ∧
     rm_projections r' = <[trimmed (bs "projection_id") msg := proj]> (rm_projections r) ∧
     r' = with_projections r (rm_projections r') ∧
     rp_rows proj = row_of <$> rows ∧ rp_invalidated proj = false ∧
     (∀ k v, (k, v) ∈ rows ↔ resolve (rm_graph r) !! k = Some v ∧ under (get_str (bs "prefix") (rq_descriptor spec)) k) ∧
     StronglySorted key_le rows ∧ NoDup rows.*1 ∧
     ∀ limit fuel, 1 <= limit → Z.of_nat (length rows) <= u64_max → (length rows < fuel)%nat →
       pages fuel (page_of (rp_rows proj) limit) None = rp_rows proj).
Proof.
  unfold process_projection_build, buildable.
  destruct (trimmed (bs "projection_id") msg) as [|b1 pid] eqn:Ep; cbn [nonempty andb negb]; [left; naive_solver|].
  destruct (trimmed (bs "query_spec_id") msg) as [|b2 qid] eqn:Eq; cbn [nonempty andb negb]; [left; naive_solver|].
  destruct (rm_query_specs r !! _) as [spec|] eqn:Hs; [|left; naive_solver].
  destruct (checkpoint_error msg _) as [[c m]|] eqn:Ec; [left; naive_solver|]. set (rows := selected _ _).
  destruct ((0 <? max_rows limits) && (max_rows limits <? Z.of_nat (length rows))) eqn:Hm.
  - left. split; [done|]. split; [done|]. apply andb_true_iff in Hm as [Hp%Z.ltb_lt Hn%Z.ltb_lt].
    intros spec' (_&_&[= <-]&_&Hl). specialize (Hl Hp). subst rows. lia.
  - right. split; [reflexivity|]. exists spec, rows. eexists. cbn [rm_projections with_projections]. split; [|split; [done|]].
    { do 4 (split; [done|]). intros Hp. apply andb_false_iff in Hm as [Hm|Hm]; [apply Z.ltb_ge in Hm; lia|by apply Z.ltb_ge in Hm]. }
    split; [by destruct r|]. split; [done|]. split; [done|]. split; [intros k v; apply elem_of_selected|]. split; [apply by_key_sorted|].
    split; [apply selected_keys|]. intros limit fuel Hl Hu Hf. cbn [rp_rows]. apply pages_complete; [done|by rewrite length_fmap..].
Qed.

(** The digest of a projection, which is also the canonical hash of its checkpoint, does
    not determine its rows: keys and values are joined without escaping, so two different
    maps have the same digest under every hash function. *)
Theorem projection_digest_conflates :
  let m1 := {[bs "a" := bs "1;b=2"]} : gmap bytes bytes in
  let m2 := {[bs "a" := bs "1"; bs "b" := bs "2"]} : gmap bytes bytes in
  m1 ≠ m2 ∧ row_of <$> selected m1 None ≠ row_of <$> selected m2 None ∧
  hash_of (digest_seed (selected m1 None)) = hash_of (digest_seed (selected m2 None)).
Proof. cbv zeta. split; [by vm_compute|]. split; [by vm_compute|]. f_equal. Qed.
End facts.
