(* ===== verification/Registry.v ===== *)
(** The registry of rooms (server/room.rs, [Rooms]): rooms are created on first
    use and hydrated in the background, evicted when idle, and swept for blobs
    with a cache of the scans of cold rooms. *)

From S2P Require Import Prelude Str StErr Hex Op Node Policy Frontier Storage Caches Fenwick.
From S2P Require Import TextState Text Graph Replay Compaction Gc GcStore DirStore Persist TopoStore HostTypes HostState Host Room.

(** ** State *)

(** [GcScanCaches] with its counters. *)
Record GcScanCaches := mkScanCaches {
  cold_live : gmap bytes (Z * gset Hash);
  studio_maps : gmap bytes (Z * gmap bytes (bytes * bool));
  cold_scans : Z;
  cold_hits : Z;
  studio_scans : Z;
  studio_hits : Z;
}.
Definition scan_caches_default : GcScanCaches := mkScanCaches ∅ ∅ 0 0 0 0.

Definition cold_live_get (c : GcScanCaches) (room : bytes) (version : Z) : option (gset Hash) :=
  match cold_live c !! room with
  | Some (v, hashes) => if v =? version then Some hashes else None
  | None => None
  end.
Definition cold_live_put (c : GcScanCaches) (room : bytes) (version : Z) (hashes : gset Hash) : GcScanCaches :=
  mkScanCaches (<[room := (version, hashes)]> (cold_live c)) (studio_maps c) (cold_scans c) (cold_hits c) (studio_scans c) (studio_hits c).
Definition retain_rooms (c : GcScanCaches) (known : gset bytes) : GcScanCaches :=
  mkScanCaches (filter (λ kv, kv.1 ∈ known) (cold_live c)) (filter (λ kv, kv.1 ∈ known) (studio_maps c))
    (cold_scans c) (cold_hits c) (studio_scans c) (studio_hits c).
Definition studio_map_get (c : GcScanCaches) (room : bytes) (version : Z) : option (gmap bytes (bytes * bool)) :=
  match studio_maps c !! room with
  | Some (v, resolved) => if v =? version then Some resolved else None
  | None => None
  end.
Definition studio_map_put (c : GcScanCaches) (room : bytes) (version : Z) (resolved : gmap bytes (bytes * bool)) : GcScanCaches :=
  mkScanCaches (cold_live c) (<[room := (version, resolved)]> (studio_maps c)) (cold_scans c) (cold_hits c) (studio_scans c) (studio_hits c).
Definition retain_studio_rooms (c : GcScanCaches) (known : gset bytes) : GcScanCaches :=
  mkScanCaches (cold_live c) (filter (λ kv, kv.1 ∈ known) (studio_maps c))
    (cold_scans c) (cold_hits c) (studio_scans c) (studio_hits c).
(** The counters are atomics that wrap around. *)
Definition count_cold_scan (c : GcScanCaches) : GcScanCaches :=
  mkScanCaches (cold_live c) (studio_maps c) (wrap_add64 (cold_scans c) 1) (cold_hits c) (studio_scans c) (studio_hits c).
Definition count_cold_hit (c : GcScanCaches) : GcScanCaches :=
  mkScanCaches (cold_live c) (studio_maps c) (cold_scans c) (wrap_add64 (cold_hits c) 1) (studio_scans c) (studio_hits c).
Definition count_studio_scan (c : GcScanCaches) : GcScanCaches :=
  mkScanCaches (cold_live c) (studio_maps c) (cold_scans c) (cold_hits c) (wrap_add64 (studio_scans c) 1) (studio_hits c).
Definition count_studio_hit (c : GcScanCaches) : GcScanCaches :=
  mkScanCaches (cold_live c) (studio_maps c) (cold_scans c) (cold_hits c) (studio_scans c) (wrap_add64 (studio_hits c) 1).

(** A hydration in flight: what it has read and what it still has to do. *)
Inductive Hydration :=
| HydrateLoad
| HydrateApply (nodes : list SyncNode) (referenced : gset Hash)
| HydrateBlobs (referenced : gset Hash)
| HydrateLineage
| HydrateFlag.

Definition MIN_PHYSICAL_GRACE : Duration := 10 ^ 6.
Definition DEFAULT_BLOB_UPLOAD_GRACE : Duration := 60 * 60 * 10 ^ 9.
Definition UPLOAD_WINDOW_SCAN_SENTINEL : bytes := bs "_blob-upload-window-scan".

(** [Rooms].  [rs_hydrations] are the tasks spawned by [get_or_create]; they, a
    running tick loop and the handlers in [rs_handles] share the room. *)
Record Rooms (P W : Type) := mkRooms {
  rs_rooms : gmap bytes Room;
  rs_hydrations : gmap bytes Hydration;
  rs_handles : gset bytes;
  rs_children_index : gmap bytes (list bytes);
  rs_children_cap : option nat;
  rs_lineage_store : LineageStoreInner;
  rs_promotion_store : PromotionStoreInner;
  rs_persistence : P;
  rs_inventory : option W;
  rs_upload_grace : Duration;
  rs_caches : GcScanCaches;
}.
Arguments mkRooms {P W}. Arguments rs_rooms {P W}. Arguments rs_hydrations {P W}. Arguments rs_handles {P W}.
Arguments rs_children_index {P W}. Arguments rs_children_cap {P W}. Arguments rs_lineage_store {P W}.
Arguments rs_promotion_store {P W}. Arguments rs_persistence {P W}. Arguments rs_inventory {P W}.
Arguments rs_upload_grace {P W}. Arguments rs_caches {P W}.

Section setters.
Context {P W : Type}.
Implicit Types s : Rooms P W.
Definition set_rooms s (m : gmap bytes Room) : Rooms P W :=
  mkRooms m (rs_hydrations s) (rs_handles s) (rs_children_index s) (rs_children_cap s) (rs_lineage_store s) (rs_promotion_store s)
    (rs_persistence s) (rs_inventory s) (rs_upload_grace s) (rs_caches s).
Definition set_hydrations s (m : gmap bytes Hydration) : Rooms P W :=
  mkRooms (rs_rooms s) m (rs_handles s) (rs_children_index s) (rs_children_cap s) (rs_lineage_store s) (rs_promotion_store s)
    (rs_persistence s) (rs_inventory s) (rs_upload_grace s) (rs_caches s).
Definition set_handles s (m : gset bytes) : Rooms P W :=
  mkRooms (rs_rooms s) (rs_hydrations s) m (rs_children_index s) (rs_children_cap s) (rs_lineage_store s) (rs_promotion_store s)
    (rs_persistence s) (rs_inventory s) (rs_upload_grace s) (rs_caches s).
Definition set_children_index s (m : gmap bytes (list bytes)) : Rooms P W :=
  mkRooms (rs_rooms s) (rs_hydrations s) (rs_handles s) m (rs_children_cap s) (rs_lineage_store s) (rs_promotion_store s)
    (rs_persistence s) (rs_inventory s) (rs_upload_grace s) (rs_caches s).
Definition set_lineage_store s (l : LineageStoreInner) : Rooms P W :=
  mkRooms (rs_rooms s) (rs_hydrations s) (rs_handles s) (rs_children_index s) (rs_children_cap s) l (rs_promotion_store s)
    (rs_persistence s) (rs_inventory s) (rs_upload_grace s) (rs_caches s).
Definition set_promotion_store s (l : PromotionStoreInner) : Rooms P W :=
  mkRooms (rs_rooms s) (rs_hydrations s) (rs_handles s) (rs_children_index s) (rs_children_cap s) (rs_lineage_store s) l
    (rs_persistence s) (rs_inventory s) (rs_upload_grace s) (rs_caches s).
Definition set_persistence s (p : P) : Rooms P W :=
  mkRooms (rs_rooms s) (rs_hydrations s) (rs_handles s) (rs_children_index s) (rs_children_cap s) (rs_lineage_store s) (rs_promotion_store s)
    p (rs_inventory s) (rs_upload_grace s) (rs_caches s).
Definition set_inventory s (w : option W) : Rooms P W :=
  mkRooms (rs_rooms s) (rs_hydrations s) (rs_handles s) (rs_children_index s) (rs_children_cap s) (rs_lineage_store s) (rs_promotion_store s)
    (rs_persistence s) w (rs_upload_grace s) (rs_caches s).
Definition set_caches s (c : GcScanCaches) : Rooms P W :=
  mkRooms (rs_rooms s) (rs_hydrations s) (rs_handles s) (rs_children_index s) (rs_children_cap s) (rs_lineage_store s) (rs_promotion_store s)
    (rs_persistence s) (rs_inventory s) (rs_upload_grace s) c.
(** [Rooms::new_with_topology_limits] and the builders. *)
Definition rooms_new (p : P) (lineage : LineageStoreInner) (promotions : PromotionStoreInner) (cap : option nat) : Rooms P W :=
  mkRooms ∅ ∅ ∅ ∅ cap lineage promotions p None DEFAULT_BLOB_UPLOAD_GRACE scan_caches_default.
Definition with_gc_inventory s (w : W) : Rooms P W := set_inventory s (Some w).
Definition with_blob_upload_grace s (g : Duration) : Rooms P W :=
  mkRooms (rs_rooms s) (rs_hydrations s) (rs_handles s) (rs_children_index s) (rs_children_cap s) (rs_lineage_store s) (rs_promotion_store s)
    (rs_persistence s) (rs_inventory s) g (rs_caches s).
End setters.

(** ** Operations *)

Section registry.
Context `{Blake3, Postcard Transaction, Ed25519, Postcard (list WireNode), Postcard (list PolicyTimelineEntry), Postcard (list Hash)}.
Context `{Serde RoomLineage, Serde PromotionRecord}.
Context {P : Type} `{NodePersistence P, BlobPersistence P} {W : Type} `{AssetInventoryStore W}.
Implicit Types (s : Rooms P W) (room : bytes) (r : Room).

(** [get_or_create]: a room that was not there starts empty, with a hydration to
    run; the caller holds a handle on it. *)
Definition get_or_create s room (now : Instant) : Rooms P W :=
  let s := set_handles s ({[room]} ∪ rs_handles s) in
  match rs_rooms s !! room with
  | Some _ => s
  | None => set_hydrations (set_rooms s (<[room := room_new now]> (rs_rooms s))) (<[room := HydrateLoad]> (rs_hydrations s))
  end.
Definition release s room : Rooms P W := set_handles s (rs_handles s ∖ {[room]}).

(** The state of a resident room, and its replacement. *)
Definition room_of s room : Room := default (room_new 0) (rs_rooms s !! room).
Definition set_room s room r : Rooms P W := set_rooms s (<[room := r]> (rs_rooms s)).

(** *** Hydration *)

(** [children.push] unless the child is there; no cap is applied here. *)
Definition index_child (index : gmap bytes (list bytes)) (parent child : bytes) : gmap bytes (list bytes) :=
  let children := default [] (index !! parent) in
  <[parent := if decide (child ∈ children) then children else children ++ [child]]> index.

(** Reading the referenced blobs of the pool, one after the other. *)
Definition load_blobs (hashes : list Hash) (p : P) : list bytes * P :=
  foldl (λ acc h, let '(b, p) := bp_get_blob P h acc.2 in (acc.1 ++ option_list b, p)) ([], p) hashes.

(** One stage of the task [get_or_create] spawned. *)
Definition hydrate_step s room : Rooms P W :=
  match rs_hydrations s !! room, rs_rooms s !! room with
  | Some stage, Some r =>
      let goto s stage := set_hydrations s (<[room := stage]> (rs_hydrations s)) in
      match stage with
      | HydrateLoad =>
          if is_durable (rs_persistence s) then
            let '(nodes, p) := np_load_room_nodes P room (rs_persistence s) in
            goto (set_persistence s p) (HydrateApply nodes (blob_hashes_referenced_by nodes))
          else goto s HydrateFlag
      | HydrateApply nodes referenced =>
          let g := match nodes with [] => rm_graph r | _ => (apply_remote_batch (rm_graph r) nodes).1 end in
          goto (set_room s room (with_graph r g)) (HydrateBlobs referenced)
      | HydrateBlobs referenced =>
          if bp_get_blob_hydrates P (rs_persistence s) then
            let '(blobs, p) := load_blobs (elements referenced) (rs_persistence s) in
            let store := foldl (λ m b, (blob_put m b).1) (rm_blobs r) blobs in
            goto (set_persistence (set_room s room (with_room_blobs r store)) p) HydrateLineage
          else goto s HydrateLineage
      | HydrateLineage =>
          let '(l, ls) := get_lineage (rs_lineage_store s) room in
          let s := set_lineage_store s ls in
          match l with
          | Some lin =>
              goto (set_children_index (set_room s room (with_lineage r (Some lin)))
                (index_child (rs_children_index s) (ln_parent_room_id lin) room)) HydrateFlag
          | None => goto s HydrateFlag
          end
      | HydrateFlag =>
          set_hydrations (set_room s room (with_hydrated r true)) (delete room (rs_hydrations s))
      end
  | _, _ => s
  end.
(** All the stages of a hydration, with nothing in between. *)
Definition hydrate s room : Rooms P W := Nat.iter 5 (λ s, hydrate_step s room) s.

(** *** Idle eviction *)

(** [Arc::strong_count]: the map, the hydration, the tick loop, the handlers. *)
Definition strong_count s room r : Z :=
  1 + Z.b2z (bool_decide (is_Some (rs_hydrations s !! room))) + Z.b2z (rm_ticking r) + Z.b2z (bool_decide (room ∈ rs_handles s)).
Definition idle_candidate s (timeout : Duration) (now : Instant) room r : bool :=
  (strong_count s room r =? 1) &&
  match rm_idle_since r with
  | Some since => (timeout <=? Z.max 0 (now - since)) && bool_decide (rm_connected_peers r = ∅)
  | None => false
  end.
Definition sweep_idle s (timeout : Duration) (now : Instant) : Rooms P W * list bytes :=
  if negb (is_durable (rs_persistence s)) then (s, [])
  else
    let candidates := filter (λ kr, idle_candidate s timeout now kr.1 kr.2 = true) (map_to_list (rs_rooms s)) in
    (set_rooms s (foldl (λ m id, delete id m) (rs_rooms s) candidates.*1), candidates.*1).

(** *** The blob sweep *)

(** [collect_recent_upload_hashes]: a failed query protects nothing. *)
Definition collect_recent_upload_hashes s (now : SystemTime) : gset Hash * Rooms P W :=
  match rs_inventory s with
  | None => (∅, s)
  | Some w =>
      let '(w, rows) := iter_unmarked_candidates UPLOAD_WINDOW_SCAN_SENTINEL w in
      let s := set_inventory s (Some w) in
      match rows with
      | Err _ => (∅, s)
      | Ok rows =>
          let cutoff := default 0 (checked_sub now (rs_upload_grace s)) in
          let recent row := bool_decide (ar_state row = Active) && negb (ar_last_seen_at row <? cutoff) in
          (list_to_set (omap (λ row, hash_from_hex (ar_hash row)) (filter (λ row, recent row = true) rows)), s)
      end
  end.

(** One cold room: a cached set of exactly this version, or a scan. *)
Definition cold_room (acc : gset Hash * GcScanCaches * P) room : gset Hash * GcScanCaches * P :=
  let '(out, c, p) := acc in
  let '(version, p) := np_room_nodes_version P room p in
  match version ≫= cold_live_get c room with
  | Some cached => (out ∪ cached, count_cold_hit c, p)
  | None =>
      let c := count_cold_scan c in
      let '(nodes, p) := np_load_room_nodes P room p in
      let hashes := blob_hashes_referenced_by nodes in
      (out ∪ hashes, match version with Some v => cold_live_put c room v hashes | None => c end, p)
  end.

Definition hydrated_ids s : gset bytes := dom (filter (λ kr, rm_hydrated kr.2 = true) (rs_rooms s)).
Definition resident_live s : gset Hash := ⋃ ((λ kr, referenced_blob_hashes (rm_graph kr.2)) <$> map_to_list (rs_rooms s)).

(** [collect_global_live_blob_hashes]; [None] when the rooms cannot be
    enumerated. *)
Definition collect_global_live_blob_hashes s (now : SystemTime) : option (gset Hash) * Rooms P W :=
  let live := resident_live s in
  if negb (np_can_enumerate_rooms P (rs_persistence s)) then (None, s)
  else
    let '(known, p) := np_known_room_ids P (rs_persistence s) in
    let cold_ids := filter (λ id, id ∉ hydrated_ids s) known in
    let retained := list_to_set cold_ids ∪ hydrated_ids s in
    let '(cold, c, p) := foldl cold_room (∅, rs_caches s, p) cold_ids in
    let s := set_persistence (set_caches s (retain_rooms c retained)) p in
    let '(uploads, s) := collect_recent_upload_hashes s now in
    (Some (live ∪ cold ∪ uploads), s).

(** [sweep_blobs]; the preflight of the coordinator only feeds metrics.  The
    physical sweep runs at its own time, over the listing [names]. *)
Definition physical_sweep s (live : gset Hash) (now : SystemTime) (grace : Duration) (names : list bytes) : Rooms P W * Z :=
  let '(p, deleted) := bp_blob_gc_sweep P live now (Z.max grace MIN_PHYSICAL_GRACE) names (rs_persistence s) in
  (set_persistence s p, deleted).
Definition sweep_blobs s (grace : Duration) (now now' : SystemTime) (names : list bytes) : Rooms P W * Z :=
  if negb (is_durable (rs_persistence s)) then (s, 0)
  else
    match collect_global_live_blob_hashes s now with
    | (None, s) => (s, 0)
    | (Some live, s) => physical_sweep s live now' grace names
    end.

(** [RoomDagLiveHashCollector]: the same set for the coordinator, in hex, and an
    error where the sweep would not run. *)
Definition room_dag_live_hashes (now : SystemTime) : GcM (Rooms P W) (gset bytes) := λ s,
  match collect_global_live_blob_hashes s now with
  | (Some live, s) => (s, Ok (set_map to_hex live))
  | (None, s) => (s, Err (Backend (bs "room-DAG live set could not be proven complete (backend cannot enumerate rooms, or the cold-room scan task was lost "
      ++ [226; 128; 148] ++ bs " see the preceding blob GC warning); failing the run rather than treating the gap as an empty live set")))
  end.

(** *** The handlers of a resident room *)

Definition import_into s room (ns : list SyncNode) (now_ms : Z) : Rooms P W :=
  match rs_rooms s !! room with
  | None => s
  | Some r => let '(r, p, _) := room_import_nodes r room (rs_persistence s) ns now_ms in set_persistence (set_room s room r) p
  end.
Definition tick_room s room (sk : SigningKey) (prefix : bytes) : Rooms P W :=
  match rs_rooms s !! room with
  | None => s
  | Some r => let '(r, p, _) := process_tick r room (rs_persistence s) sk prefix default_tick_fn in set_persistence (set_room s room r) p
  end.
Definition snapshot_room s room (sk : SigningKey) (node_interval max_chain_depth : Z) (memory : option SnapState) : Rooms P W * SnapState :=
  match rs_rooms s !! room with
  | None => (s, default (0, 0, None) memory)
  | Some r =>
      let '(r, p, m) := snapshot_tick r room (rs_persistence s) sk node_interval max_chain_depth memory in
      (set_persistence (set_room s room r) p, m)
  end.
Definition set_policy_of s room (pol : Policy) : Rooms P W := set_rooms s (alter (λ r, room_set_policy r pol) room (rs_rooms s)).
End registry.
