(* ===== verification/Studio.v ===== *)
(** The studio's live set (server/studio_live_hashes.rs): studio records of every room
    are parsed, snapshots classified by the retention rules, and the trees of the
    retained ones walked; any record or tree that cannot be read aborts the whole
    collection.

    A [HashMap] is walked in an order of its own; functions that walk one take the
    entries as a list.  Errors carry the data their texts are made of.
    Hashes are ASCII, so their lower case is the ASCII one. *)

From S2P Require Import Prelude Dates Str StErr Hex Utf8 Op Node Policy Frontier Storage Caches CacheFacts Fenwick.
From S2P Require Import TextState Text Graph Replay Gc GcStore DirStore Persist TopoStore HostTypes TreeWalk HostState Host Room Registry.

Definition STUDIO_KEY_PREFIX : bytes := bs "studio/".
Definition KIND_REPOSITORY_SNAPSHOT : bytes := bs "studio/repository-snapshot/v1".
Definition KIND_WORK_UNIT : bytes := bs "studio/work-unit/v1".
Definition KIND_REPOSITORY_OP : bytes := bs "studio/repository-op/v1".

(** Only [Completed] and [Merged] are terminal. *)
Definition is_terminal_status (status : Z) : bool := bool_decide (status ∈ [3; 10]).
Definition DEFAULT_RETAIN_INTERMEDIATE_DAYS : Z := 30.

Inductive StudioKind := RepositorySnapshot | WorkUnit | RepositoryOp.
Definition kind_str (k : StudioKind) : bytes :=
  match k with RepositorySnapshot => KIND_REPOSITORY_SNAPSHOT | WorkUnit => KIND_WORK_UNIT | RepositoryOp => KIND_REPOSITORY_OP end.
(** [known_kinds_longest_first] and [parse_studio_key]. *)
Definition known_kinds_longest_first : list StudioKind := [RepositorySnapshot; RepositoryOp; WorkUnit].
Fixpoint first_kind (kinds : list StudioKind) (key : bytes) : option (StudioKind * bytes) :=
  match kinds with
  | [] => None
  | k :: kinds =>
      match strip_prefix (kind_str k ++ bs "/") key with Some id => Some (k, id) | None => first_kind kinds key end
  end.
Definition parse_studio_key (key : bytes) : option (StudioKind * bytes) := first_kind known_kinds_longest_first key.

Inductive StudioError :=
| BadBlobValue (key : bytes) (len : Z)
| BadEnvelope (key : bytes)
| NoPayload (key : bytes)
| BadPayload (kind : StudioKind) (entity : bytes)
| BadTimestamp (kind : StudioKind) (entity text : bytes)
| BadTreeHash (snapshot hash : bytes)
| WalkFailed (snapshot : bytes) (e : TreeWalkError)
| ReplayRejected (n : Z).

(** ** Payloads

    A struct comes from an object by field names, or from an array by position. *)

Definition field (i : nat) (k : bytes) (v : Value) : option Value :=
  match v with JObject _ => jget k v | JArray l => l !! i | _ => None end.
Definition struct_shape (n : nat) (v : Value) : bool :=
  match v with JObject _ => true | JArray l => bool_decide (length l <= n)%nat | _ => false end.
Definition need_str (i : nat) (k : bytes) (v : Value) : option bytes := field i k v ≫= as_str.
Definition as_i64 (v : Value) : option Z :=
  match v with JNumber n => if (- 2 ^ 63 <=? n) && (n <? 2 ^ 63) then Some n else None | _ => None end.
(** [#[serde(default)] Option<..>]: absent and null are [None]. *)
Definition may {A} (read : Value → option A) (i : nat) (k : bytes) (v : Value) : option (option A) :=
  match field i k v with None | Some JNull => Some None | Some x => Some <$> read x end.

Record SnapshotPayloadRaw := mkSnapshotRaw {
  sr_snapshot_id : bytes; sr_repository_id : bytes; sr_tree_hash : bytes; sr_generation : Z; sr_created_at : bytes;
  sr_work_unit_id : option bytes; sr_source : option bytes; sr_tree_entries : option (list (bytes * bytes));
}.
Definition snapshot_raw (v : Value) : option SnapshotPayloadRaw :=
  if struct_shape 8 v then
    id ← need_str 0 (bs "SnapshotId") v; repo ← need_str 1 (bs "RepositoryId") v; tree ← need_str 2 (bs "TreeHash") v;
    gen ← (field 3 (bs "Generation") v ≫= as_i64); at_ ← need_str 4 (bs "CreatedAt") v; wu ← may as_str 5 (bs "WorkUnitId") v;
    src ← may as_str 6 (bs "Source") v; es ← may string_map 7 (bs "TreeEntries") v;
    Some (mkSnapshotRaw id repo tree gen at_ wu src es)
  else None.
Record WorkUnitPayloadRaw := mkWorkUnitRaw {
  wr_work_unit_id : bytes; wr_status : Z; wr_created_at : bytes; wr_updated_at : bytes;
  wr_repository_id : option bytes; wr_metadata : option (list (bytes * bytes));
}.
Definition work_unit_raw (v : Value) : option WorkUnitPayloadRaw :=
  if struct_shape 6 v then
    id ← need_str 0 (bs "WorkUnitId") v; st ← (field 1 (bs "Status") v ≫= as_i64); c ← need_str 2 (bs "CreatedAt") v;
    u ← need_str 3 (bs "UpdatedAt") v; repo ← may as_str 4 (bs "RepositoryId") v; meta ← may string_map 5 (bs "Metadata") v;
    Some (mkWorkUnitRaw id st c u repo meta)
  else None.
Record RepositoryOpPayloadRaw := mkOpRaw { or_old_blob_id : option bytes; or_new_blob_id : option bytes }.
Definition op_raw (v : Value) : option RepositoryOpPayloadRaw :=
  if struct_shape 2 v then
    o ← may as_str 0 (bs "OldBlobId") v; n ← may as_str 1 (bs "NewBlobId") v; Some (mkOpRaw o n)
  else None.

Record ParsedSnapshot := mkSnapshot {
  ss_snapshot_id : bytes; ss_repository_id : bytes; ss_tree_hash : bytes; ss_generation : Z; ss_created_at_nanos : Z;
  ss_work_unit_id : option bytes; ss_source : option bytes; ss_tree_entries : option (list (bytes * bytes));
}.
Record ParsedWorkUnit := mkWorkUnit {
  wu_work_unit_id : bytes; wu_status : Z; wu_created_at_nanos : Z; wu_updated_at_nanos : Z;
  wu_repository_id : option bytes; wu_metadata : option (list (bytes * bytes));
}.

(** ** Timestamps *)

Definition boundary (s : bytes) (i : nat) : bool := match s !! i with Some b => negb (is_cont b) | None => bool_decide (i = length s) end.
(** [s.get(a..b)]. *)
Definition str_get (s : bytes) (a b : nat) : option bytes := if boundary s a && boundary s b then Some (take (b - a) (drop a s)) else None.
(** [parse::<i64>] and [parse::<u32>] on a few bytes. *)
Definition parse_i64 (s : bytes) : option Z :=
  match s with
  | 45 :: [] => None
  | 45 :: ds => Z.opp <$> parse_digits 0 ds
  | _ => parse_u64 s
  end.
Fixpoint span_digits (s : bytes) : bytes * bytes :=
  match s with
  | b :: s' => if (48 <=? b) && (b <=? 57) then let '(ds, rest) := span_digits s' in (b :: ds, rest) else ([], s)
  | [] => ([], [])
  end.
Definition byte_is (s : bytes) (i : nat) (b : Z) : bool := bool_decide (s !! i = Some b).
(** The fraction, cut or filled up to nine digits, and what follows. *)
Definition fraction (s : bytes) : option (Z * bytes) :=
  match s with
  | 46 :: s' =>
      let '(ds, rest) := span_digits s' in
      match ds with
      | [] => Some (0, rest)
      | _ => n ← parse_i64 (take 9 ds ++ repeat 48 (9 - length ds)); Some (n, rest)
      end
  | _ => Some (0, s)
  end.
Definition offset_seconds (s : bytes) : option Z :=
  match s with
  | b :: rest =>
      if (b =? 90) || (b =? 122) then Some 0
      else if (b =? 43) || (b =? 45) then
        if decide (length rest < 5)%nat then None
        else
          oh ← (str_get rest 0 2 ≫= parse_i64); om ← (str_get rest 3 5 ≫= parse_i64);
          Some ((if b =? 45 then -1 else 1) * (oh * 3600 + om * 60))
      else None
  | [] => None
  end.
Definition parse_timestamp_nanos (s : bytes) : option Z :=
  if decide (length s < 20)%nat then None
  else
    year ← (str_get s 0 4 ≫= parse_i64);
    if negb (byte_is s 4 45) then None else
    month ← (str_get s 5 7 ≫= parse_u64);
    if negb (byte_is s 7 45) then None else
    day ← (str_get s 8 10 ≫= parse_u64);
    if negb (byte_is s 10 84 || byte_is s 10 116) then None else
    hour ← (str_get s 11 13 ≫= parse_i64);
    if negb (byte_is s 13 58) then None else
    minute ← (str_get s 14 16 ≫= parse_i64);
    if negb (byte_is s 16 58) then None else
    second ← (str_get s 17 19 ≫= parse_i64);
    fr ← fraction (drop 19 s);
    off ← offset_seconds fr.2;
    Some ((days_from_civil year month day * 86400 + hour * 3600 + minute * 60 + second - off) * 10 ^ 9 + fr.1).
(** A leap day with a fraction and an offset, the epoch, and a date without a time. *)
Lemma timestamps :
  parse_timestamp_nanos <$> [bs "1970-01-01T00:00:00Z"; bs "2000-02-29T12:00:00.5+01:00"; bs "2000-13-01"] =
  [Some 0; Some (951822000500000000); None].
Proof. vm_compute. reflexivity. Qed.

(** ** The records of a room *)

Record RoomStudioData := mkStudioData {
  sd_snapshots : list ParsedSnapshot;
  sd_work_units : list ParsedWorkUnit;
  sd_op_referenced_hashes : list bytes;
  sd_direct_blob_hashes : list Hash;
}.
Definition StudioMap : Type := gmap bytes (bytes * bool).

Section records.
Context `{JsonRead}.
Definition timestamp (kind : StudioKind) (entity text : bytes) : result StudioError Z :=
  match parse_timestamp_nanos text with Some t => Ok t | None => Err (BadTimestamp kind entity text) end.
Definition add_payload (entity : bytes) (d : RoomStudioData) (kind : StudioKind) (payload : Value) : result StudioError RoomStudioData :=
  match kind with
  | RepositorySnapshot =>
      match snapshot_raw payload with
      | None => Err (BadPayload kind entity)
      | Some x =>
          let? t := timestamp kind entity (sr_created_at x) in
          Ok (mkStudioData (sd_snapshots d ++ [mkSnapshot (sr_snapshot_id x) (sr_repository_id x) (sr_tree_hash x) (sr_generation x) t
                (sr_work_unit_id x) (sr_source x) (sr_tree_entries x)]) (sd_work_units d) (sd_op_referenced_hashes d) (sd_direct_blob_hashes d))
      end
  | WorkUnit =>
      match work_unit_raw payload with
      | None => Err (BadPayload kind entity)
      | Some x =>
          let? c := timestamp kind entity (wr_created_at x) in
          let? u := timestamp kind entity (wr_updated_at x) in
          Ok (mkStudioData (sd_snapshots d) (sd_work_units d ++ [mkWorkUnit (wr_work_unit_id x) (wr_status x) c u (wr_repository_id x)
                (wr_metadata x)]) (sd_op_referenced_hashes d) (sd_direct_blob_hashes d))
      end
  | RepositoryOp =>
      match op_raw payload with
      | None => Err (BadPayload kind entity)
      | Some x =>
          Ok (mkStudioData (sd_snapshots d) (sd_work_units d)
                (sd_op_referenced_hashes d ++ (to_lowercase <$> option_list (or_old_blob_id x) ++ option_list (or_new_blob_id x)))
                (sd_direct_blob_hashes d))
      end
  end.
Definition add_record (d : RoomStudioData) (e : bytes * (bytes * bool)) : result StudioError RoomStudioData :=
  let '(key, (b, is_blob)) := e in
  match parse_studio_key key with
  | None => Ok d
  | Some (kind, entity) =>
      if is_blob : bool then
        if decide (length b = 32%nat)
        then Ok (mkStudioData (sd_snapshots d) (sd_work_units d) (sd_op_referenced_hashes d) (sd_direct_blob_hashes d ++ [b]))
        else Err (BadBlobValue key (Z.of_nat (length b)))
      else
        match json_parse b with
        | None => Err (BadEnvelope key)
        | Some envelope =>
            match jget (bs "payload") envelope with
            | None => Err (NoPayload key)
            | Some payload => add_payload entity d kind payload
            end
        end
  end.
Definition parse_room_studio_data (entries : list (bytes * (bytes * bool))) : result StudioError RoomStudioData :=
  foldl_res add_record (mkStudioData [] [] [] []) entries.
End records.

(** ** Classification *)

Definition str_gt (a b : bytes) : bool := bool_decide (ord_lt b a).
(** The order of heads: generation, then time, then id. *)
Definition newer (s t : ParsedSnapshot) : bool :=
  (ss_generation t <? ss_generation s) ||
  ((ss_generation s =? ss_generation t) && (ss_created_at_nanos t <? ss_created_at_nanos s)) ||
  ((ss_generation s =? ss_generation t) && (ss_created_at_nanos s =? ss_created_at_nanos t) && str_gt (ss_snapshot_id s) (ss_snapshot_id t)).
Definition head_step (heads : gmap bytes ParsedSnapshot) (s : ParsedSnapshot) : gmap bytes ParsedSnapshot :=
  match heads !! ss_repository_id s with
  | None => <[ss_repository_id s := s]> heads
  | Some existing => if newer s existing then <[ss_repository_id s := s]> heads else heads
  end.
Definition heads (snapshots : list ParsedSnapshot) : gmap bytes ParsedSnapshot := foldl head_step ∅ snapshots.

Fixpoint assoc {A} (k : bytes) (l : list (bytes * A)) : option A :=
  match l with [] => None | (k', v) :: l => if decide (k = k') then Some v else assoc k l end.
Definition pinned (snapshots : list ParsedSnapshot) (work_units : list ParsedWorkUnit) : gset bytes :=
  list_to_set (ss_snapshot_id <$> filter (λ s, ss_source s = Some (bs "Bootstrap")) snapshots) ∪
  list_to_set (omap (λ w, match wu_metadata w ≫= assoc (bs "appliedSnapshotId") with Some [] => None | x => x end) work_units).

(** The branch seed of a work unit: the latest snapshot not after it; the first one
    met wins a tie. *)
Definition eligible (w : ParsedWorkUnit) (s : ParsedSnapshot) : bool :=
  match wu_repository_id w with Some r => bool_decide (ss_repository_id s = r) | None => true end &&
  (ss_created_at_nanos s <=? wu_created_at_nanos w).
Definition better_seed (s t : ParsedSnapshot) : bool :=
  (ss_created_at_nanos t <? ss_created_at_nanos s) ||
  ((ss_created_at_nanos s =? ss_created_at_nanos t) && (ss_generation t <? ss_generation s)).
Definition seed_step (w : ParsedWorkUnit) (seed : option ParsedSnapshot) (s : ParsedSnapshot) : option ParsedSnapshot :=
  if eligible w s then
    match seed with Some t => if better_seed s t then Some s else seed | None => Some s end
  else seed.
Definition branch_seed (w : ParsedWorkUnit) (snapshots : list ParsedSnapshot) : option ParsedSnapshot := foldl (seed_step w) None snapshots.
Definition active (snapshots : list ParsedSnapshot) (work_units : list ParsedWorkUnit) : gset bytes :=
  list_to_set (ss_snapshot_id <$> (map_to_list (heads snapshots)).*2) ∪
  list_to_set (ss_snapshot_id <$> omap (λ w, if is_terminal_status (wu_status w) then None else branch_seed w snapshots) work_units).

(** The last work unit of an id counts. *)
Definition work_unit_of (work_units : list ParsedWorkUnit) (id : bytes) : option ParsedWorkUnit :=
  last (filter (λ w, wu_work_unit_id w = id) work_units).
Definition base_nanos (work_units : list ParsedWorkUnit) (s : ParsedSnapshot) : Z :=
  match ss_work_unit_id s ≫= work_unit_of work_units with
  | Some w => if is_terminal_status (wu_status w) then wu_updated_at_nanos w else ss_created_at_nanos s
  | None => ss_created_at_nanos s
  end.
Definition unexpired (work_units : list ParsedWorkUnit) (days now : Z) (s : ParsedSnapshot) : bool :=
  now <? base_nanos work_units s + days * 86400 * 10 ^ 9.
Definition keeps (snapshots : list ParsedSnapshot) (work_units : list ParsedWorkUnit) (days now : Z) (s : ParsedSnapshot) : bool :=
  bool_decide (ss_snapshot_id s ∈ pinned snapshots work_units) || bool_decide (ss_snapshot_id s ∈ active snapshots work_units) ||
  unexpired work_units days now s.
Definition classify_repo_room (snapshots : list ParsedSnapshot) (work_units : list ParsedWorkUnit) (days now : Z) : gset bytes :=
  list_to_set (ss_snapshot_id <$> filter (λ s, keeps snapshots work_units days now s = true) snapshots).

(** ** Collection *)

Section collect.
Context `{JsonRead}.

(** The sets of a run: live hashes in hex, and the two of the shared walk. *)
Definition Run : Type := gset bytes * gset Hash * gset Hash.
(** [resolve_snapshot_into]. *)
Definition resolve_snapshot_into (fetch : Hash → result HydrateError bytes) (fuel : nat) (acc : Run) (s : ParsedSnapshot)
    : option (result StudioError Run) :=
  let '(live, walk_live, expanded) := acc in
  match ss_tree_entries s with
  | Some entries => Some (Ok (list_to_set (to_lowercase <$> entries.*2) ∪ live, walk_live, expanded))
  | None =>
      match hash_from_hex (ss_tree_hash s) with
      | None => Some (Err (BadTreeHash (ss_snapshot_id s) (ss_tree_hash s)))
      | Some root =>
          match walk_tree_into fetch fuel root walk_live expanded with
          | Some (Ok (walk_live, expanded)) => Some (Ok (live, walk_live, expanded))
          | Some (Err e) => Some (Err (WalkFailed (ss_snapshot_id s) e))
          | None => None
          end
      end
  end.
Fixpoint resolve_all (fetch : Hash → result HydrateError bytes) (fuel : nat) (acc : Run) (l : list ParsedSnapshot) : option (result StudioError Run) :=
  match l with
  | [] => Some (Ok acc)
  | s :: l =>
      match resolve_snapshot_into fetch fuel acc s with
      | Some (Ok acc) => resolve_all fetch fuel acc l
      | r => r
      end
  end.
Definition retained_snapshots (d : RoomStudioData) (is_repo_room : bool) (days now : Z) : list ParsedSnapshot :=
  let ids := if is_repo_room then classify_repo_room (sd_snapshots d) (sd_work_units d) days now
             else list_to_set (ss_snapshot_id <$> sd_snapshots d) in
  filter (λ s, ss_snapshot_id s ∈ ids) (sd_snapshots d).
(** [collect_room_live_hashes]. *)
Definition collect_room_live_hashes (fetch : Hash → result HydrateError bytes) (fuel : nat) (entries : list (bytes * (bytes * bool)))
    (is_repo_room : bool) (days now : Z) (acc : Run) : option (result StudioError Run) :=
  match parse_room_studio_data entries with
  | Err e => Some (Err e)
  | Ok d =>
      let '(live, walk_live, expanded) := acc in
      let live := list_to_set (sd_op_referenced_hashes d) ∪ list_to_set (to_hex <$> sd_direct_blob_hashes d) ∪ live in
      resolve_all fetch fuel (live, walk_live, expanded) (retained_snapshots d is_repo_room days now)
  end.
End collect.

(** ** Over all rooms *)

Section rooms.
Context `{Blake3, Postcard Transaction, Ed25519, Postcard (list WireNode), Postcard (list PolicyTimelineEntry), Postcard (list Hash)}.
Context `{JsonRead} {P : Type} `{NodePersistence P, BlobPersistence P} {W : Type}.
Implicit Types (s : Rooms P W) (room : bytes).

Definition filter_studio_entries (m : gmap bytes (Z * PublicKey * bytes * bool)) : StudioMap :=
  (λ x, (x.1.2, x.2)) <$> filter (λ kv, starts_with STUDIO_KEY_PREFIX kv.1 = true) m.
Definition graph_studio_map (g : RoomGraph) : StudioMap := filter_studio_entries (caches_resolve_with_meta (g_caches g)).

(** [resolve_room_studio_map]: a hydrated room's graph, a cached replay of exactly
    this version, or a replay of the stored nodes. *)
Definition resolve_room_studio_map room s : Rooms P W * result StudioError StudioMap :=
  match rs_rooms s !! room with
  | Some (mkRoom g _ _ _ _ _ _ _ _ _ _ true) => (s, Ok (graph_studio_map g))
  | _ =>
      let '(version, p) := np_room_nodes_version P room (rs_persistence s) in
      let s := set_persistence s p in
      match version ≫= studio_map_get (rs_caches s) room with
      | Some cached => (set_caches s (count_studio_hit (rs_caches s)), Ok cached)
      | None =>
          let s := set_caches s (count_studio_scan (rs_caches s)) in
          let '(nodes, p) := np_load_room_nodes P room (rs_persistence s) in
          let s := set_persistence s p in
          let '(g, res) := apply_remote_batch (empty_graph : RoomGraph) nodes in
          match batch_rejected res with
          | [] =>
              let m := graph_studio_map g in
              (match version with Some v => set_caches s (studio_map_put (rs_caches s) room v m) | None => s end, Ok m)
          | rejected => (s, Err (ReplayRejected (Z.of_nat (length rejected))))
          end
      end
  end.
Definition enumerate_all_room_ids s : list bytes * Rooms P W :=
  let '(known, p) := np_known_room_ids P (rs_persistence s) in
  (sort (elements (list_to_set known ∪ dom (rs_rooms s) : gset bytes)), set_persistence s p).

(** The rooms in turn, with one pair of walk sets for the run. *)
Fixpoint collect_rooms (name : bytes) (fuel : nat) (days now : Z) (acc : Run) (rooms : list bytes) s
    : Rooms P W * option (result (bytes * StudioError) Run) :=
  match rooms with
  | [] => (s, Some (Ok acc))
  | room :: rooms =>
      let '(s, resolved) := resolve_room_studio_map room s in
      match resolved with
      | Err e => (s, Some (Err (room, e)))
      | Ok m =>
          let fetch h := (hydrate_blob name h (rs_persistence s)).1 in
          match collect_room_live_hashes fetch fuel (map_to_list m) (starts_with (bs "repo/") room) days now acc with
          | Some (Ok acc) => collect_rooms name fuel days now acc rooms s
          | Some (Err e) => (s, Some (Err (room, e)))
          | None => (s, None)
          end
      end
  end.
Definition collect_studio_live_hashes (name : bytes) (fuel : nat) (days now : Z) s
    : Rooms P W * option (result (bytes * StudioError) (gset bytes)) :=
  let '(ids, s) := enumerate_all_room_ids s in
  let s := set_caches s (retain_studio_rooms (rs_caches s) (list_to_set ids)) in
  let '(s, r) := collect_rooms name fuel days now (∅, ∅, ∅) ids s in
  (s, match r with
      | Some (Ok (live, walk_live, _)) => Some (Ok (live ∪ set_map to_hex walk_live))
      | Some (Err e) => Some (Err e)
      | None => None
      end).
End rooms.
