(* ===== verification/StudioThms.v ===== *)
(** What the studio's live set promises: it is complete for what is retained, the head
    of every repository is retained whatever the order of the records; and where it is
    not determined: ties between branch seeds. *)

From S2P Require Import Prelude Dates Str StErr Hex Utf8 Op Node Policy Frontier Storage Caches CacheFacts Fenwick.
From S2P Require Import TextState Text Graph Replay Gc GcStore DirStore Persist TopoStore HostTypes TreeWalk HostState Host Room Registry Studio.

(** ** Walks *)

Section walks.
Context `{JsonRead}.
Variable fetch : Hash → result HydrateError bytes.

(** C23: the walk over tree objects is exact and total.  From sets that are closed, as the
    empty ones are and as every walk leaves them, a walk with fuel for the readable
    objects ends; when it succeeds it has added exactly the tree objects and file blobs
    reachable from the root, so sharing the sets between walks yields the union of the
    separate walks; and when it fails, a reachable directory could not be read or lies
    too deep: nothing else makes it fail. *)
Theorem tree_walk_exact (F : gset Hash) (B fuel : nat) root live expanded :
  (∀ h files dirs, read_tree fetch h = Ok (files, dirs) → h ∈ F ∧ (length dirs <= B)%nat) → (S (size F * S B) <= fuel)%nat →
  closed fetch live expanded →
  match walk_tree_into fetch fuel root live expanded with
  | None => False
  | Some (Ok (live', expanded')) => closed fetch live' expanded' ∧ ∀ h, h ∈ live' ↔ h ∈ live ∨ reachable fetch root h
  | Some (Err e) => ∃ h, rtc (dir_in fetch) root h ∧ ((∃ depth, e = TooDeep h depth ∧ MAX_TREE_DEPTH < depth) ∨ read_tree fetch h = Err e)
  end.
Proof.
  intros HF Hfuel Hc. assert (is_Some (walk_tree_into fetch fuel root live expanded)) as [r Er].
  { apply (walk_loop_total fetch F B); [done|]. cbn [length]. assert (size (F ∖ expanded) <= size F)%nat by (apply subseteq_size; set_solver). nia. }
  rewrite Er. destruct r as [[live' expanded']|e]; [by eapply walk_into_exact|].
  eapply walk_loop_err; [by apply walk_started|exact Er].
Qed.
End walks.

(** ** Heads *)

Definition head_key (s : ParsedSnapshot) : Z * (Z * bytes) := (ss_generation s, (ss_created_at_nanos s, ss_snapshot_id s)).
Lemma newer_key s t : newer s t = true ↔ ord_lt (head_key t) (head_key s).
Proof.
  unfold newer, str_gt, ord_lt. rewrite !orb_true_iff, !andb_true_iff, bool_decide_eq_true, !Z.ltb_lt, !Z.eqb_eq.
  change (cmp (head_key t) (head_key s)) with
    (match Z.compare (ss_generation t) (ss_generation s) with
     | Eq => match Z.compare (ss_created_at_nanos t) (ss_created_at_nanos s) with Eq => cmp (ss_snapshot_id t) (ss_snapshot_id s) | c => c end
     | c => c
     end).
  destruct (Z.compare_spec (ss_generation t) (ss_generation s)), (Z.compare_spec (ss_created_at_nanos t) (ss_created_at_nanos s)); naive_solver lia.
Qed.
Definition is_head (l : list ParsedSnapshot) (repo : bytes) (h : ParsedSnapshot) : Prop :=
  h ∈ l ∧ ss_repository_id h = repo ∧ ∀ t, t ∈ l → ss_repository_id t = repo → ord_le (head_key t) (head_key h).
Lemma heads_spec l repo :
  match heads l !! repo with
  | Some h => is_head l repo h
  | None => ∀ t, t ∈ l → ss_repository_id t ≠ repo
  end.
Proof.
  unfold heads. induction l as [|s l IH] using rev_ind; [cbn [foldl]; rewrite lookup_empty; by intros t ?%not_elem_of_nil|]. rewrite foldl_app. cbn [foldl].
  set (m := foldl head_step ∅ l) in *. clearbody m. unfold head_step. destruct (decide (ss_repository_id s = repo)) as [<-|Hne].
  - destruct (m !! ss_repository_id s) as [h|] eqn:E; [destruct (newer s h) eqn:En|]; rewrite ?E, ?lookup_insert_eq; try rewrite E in IH.
    + apply newer_key in En. destruct IH as (Hin&Hr&Hmax). split; [set_solver|]. split; [done|]. intros t [Ht|Ht%list_elem_of_singleton]%elem_of_app Htr; [|subst t]; [|done].
      etrans; [by apply Hmax|]. by apply ord_le_lt_or_eq; left.
    + destruct IH as (Hin&Hr&Hmax). split; [set_solver|]. split; [done|]. intros t [Ht|Ht%list_elem_of_singleton]%elem_of_app Htr; [|subst t]; [by apply Hmax|].
      destruct (ord_trichotomy (head_key s) (head_key h)) as [Hlt|[->|Hgt]]; [by apply ord_le_lt_or_eq; left|done|].
      apply newer_key in Hgt. by rewrite Hgt in En.
    + split; [set_solver|]. split; [done|]. intros t [Ht|Ht%list_elem_of_singleton]%elem_of_app Htr; [|subst t]; [|done]. by destruct (IH t Ht).
  - assert (match m !! ss_repository_id s with
            | Some existing => if newer s existing then <[ss_repository_id s := s]> m else m
            | None => <[ss_repository_id s := s]> m
            end !! repo = m !! repo) as ->.
    { destruct (m !! ss_repository_id s); [destruct (newer s _)|]; by rewrite ?lookup_insert_ne by done. }
    destruct (m !! repo) as [h|].
    + destruct IH as (Hin&Hr&Hmax). split; [set_solver|]. split; [done|]. intros t [Ht|Ht%list_elem_of_singleton]%elem_of_app Htr; [|subst t]; [by apply Hmax|done].
    + intros t [Ht|Ht%list_elem_of_singleton]%elem_of_app; [|subst t]; [by apply IH|done].
Qed.

(** The head of every repository is retained, and does not depend on the order in
    which the records are met: whatever the age limit and the time, among the snapshots of
    a repository the one of the highest generation, the latest of those, and of these the
    one with the greatest id is kept. *)
Theorem repository_head_retained snapshots work_units days now s :
  s ∈ snapshots →
  ∃ h, is_head snapshots (ss_repository_id s) h ∧
    ss_snapshot_id h ∈ classify_repo_room snapshots work_units days now ∧
    ∀ snapshots', snapshots' ≡ₚ snapshots →
      head_key <$> heads snapshots' !! ss_repository_id s = Some (head_key h) ∧
      ss_snapshot_id h ∈ classify_repo_room snapshots' work_units days now.
Proof.
  intros Hs. assert (∀ l, l ≡ₚ snapshots → ∃ h, heads l !! ss_repository_id s = Some h ∧ is_head l (ss_repository_id s) h) as Hh.
  { intros l Hl. pose proof (heads_spec l (ss_repository_id s)) as Hx. destruct (heads l !! _) as [h|]; [by eexists|].
    destruct (Hx s); [by rewrite Hl|done]. }
  assert (∀ l h, heads l !! ss_repository_id s = Some h → h ∈ l → ss_snapshot_id h ∈ classify_repo_room l work_units days now) as Hkeep.
  { intros l h Hl Hin. unfold classify_repo_room. apply elem_of_list_to_set, list_elem_of_fmap_2, list_elem_of_filter. split; [|done].
    unfold keeps. rewrite !orb_true_iff, !bool_decide_eq_true. left. right. unfold active. apply elem_of_union_l, elem_of_list_to_set, list_elem_of_fmap_2.
    apply list_elem_of_fmap. exists (ss_repository_id s, h). by rewrite elem_of_map_to_list. }
  destruct (Hh snapshots) as (h&Eh&Hhd); [done|]. exists h. pose proof Hhd as (Hin&Hr&Hmax). split; [done|]. split; [by apply Hkeep|].
  intros l Hl. destruct (Hh l Hl) as (h'&Eh'&(Hin'&Hr'&Hmax')). rewrite Eh'. cbn.
  assert (head_key h' = head_key h) as Ek.
  { apply (anti_symm ord_le); [apply Hmax; [by rewrite <-Hl|done]|apply Hmax'; [by rewrite Hl|done]]. }
  split; [by f_equal|]. replace (ss_snapshot_id h) with (ss_snapshot_id h'); [by apply Hkeep|]. unfold head_key in Ek. by injection Ek.
Qed.

(** ** Seeds *)

Definition seed_a : ParsedSnapshot := mkSnapshot (bs "a") (bs "r") [] 1 0 None None None.
Definition seed_b : ParsedSnapshot := mkSnapshot (bs "b") (bs "r") [] 1 0 None None None.
Definition later_head : ParsedSnapshot := mkSnapshot (bs "h") (bs "r") [] 2 5 None None None.
Definition running_unit : ParsedWorkUnit := mkWorkUnit (bs "w") 1 0 0 (Some (bs "r")) None.

(** The branch seed of a running work unit is not determined.  Of two snapshots of
    the same time and generation the first one met is taken for the seed, and records are
    met in the order of a hash map: with the same records, one collection retains the one
    and the next collection the other, and the trees of either may be swept while the work
    unit that branched from it is still running. *)
Theorem seed_depends_on_order :
  ∃ l l' : list ParsedSnapshot, l ≡ₚ l' ∧
    classify_repo_room l [running_unit] 30 (10 ^ 18) = {[bs "a"; bs "h"]} ∧
    classify_repo_room l' [running_unit] 30 (10 ^ 18) = {[bs "b"; bs "h"]}.
Proof.
  exists [seed_a; seed_b; later_head], [seed_b; seed_a; later_head]. split; [apply perm_swap|]. split; vm_compute; reflexivity.
Qed.

(** ** Completeness *)

Section collect.
Context `{JsonRead}.
Variable fetch : Hash → result HydrateError bytes.

(** The hashes a snapshot refers to are all there. *)
Definition covered (live : gset bytes) (walk_live : gset Hash) (s : ParsedSnapshot) : Prop :=
  match ss_tree_entries s with
  | Some entries => ∀ x, x ∈ entries.*2 → to_lowercase x ∈ live
  | None => ∃ root, hash_from_hex (ss_tree_hash s) = Some root ∧ ∀ h, reachable fetch root h → h ∈ walk_live
  end.
Lemma covered_mono live live' walk walk' s : live ⊆ live' → walk ⊆ walk' → covered live walk s → covered live' walk' s.
Proof. intros Hl Hw. unfold covered. destruct (ss_tree_entries s); [set_solver|]. intros (root&?&?). exists root. set_solver. Qed.
Definition grew (a b : Run) : Prop := a.1.1 ⊆ b.1.1 ∧ a.1.2 ⊆ b.1.2 ∧ closed fetch b.1.2 b.2.
Lemma resolve_snapshot_covers fuel acc acc' s :
  closed fetch acc.1.2 acc.2 → resolve_snapshot_into fetch fuel acc s = Some (Ok acc') → grew acc acc' ∧ covered acc'.1.1 acc'.1.2 s.
Proof.
  destruct acc as [[live walk] ex]. cbn. intros Hc. unfold covered, grew. destruct (ss_tree_entries s) as [es|].
  - intros [= <-]. cbn. split; [set_solver|]. intros x Hx. apply elem_of_union_l, elem_of_list_to_set. by apply list_elem_of_fmap_2.
  - destruct (hash_from_hex (ss_tree_hash s)) as [root|]; [|done]. destruct (walk_tree_into fetch fuel root walk ex) as [[[walk' ex']|e]|] eqn:E; [|done..].
    intros [= <-]. destruct (walk_into_exact fetch _ _ _ _ _ _ Hc E) as [Hc' Hl]. cbn. split; [|exists root; set_solver]. set_solver.
Qed.
Lemma grew_trans a b c : grew a b → grew b c → grew a c.
Proof. unfold grew. set_solver. Qed.
Lemma resolve_all_covers fuel l acc acc' :
  closed fetch acc.1.2 acc.2 → resolve_all fetch fuel acc l = Some (Ok acc') →
  grew acc acc' ∧ ∀ s, s ∈ l → covered acc'.1.1 acc'.1.2 s.
Proof.
  revert acc. induction l as [|s l IH]; intros acc Hc; cbn [resolve_all].
  { intros [= <-]. split; [done|]. by intros s ?%not_elem_of_nil. }
  destruct (resolve_snapshot_into fetch fuel acc s) as [[a|e]|] eqn:E; [|done..]. intros Hr.
  destruct (resolve_snapshot_covers _ _ _ _ Hc E) as [Hg Hs]. destruct (IH a (proj2 (proj2 Hg)) Hr) as [Hg' Hl].
  split; [by eapply grew_trans|]. intros t [->|Ht]%elem_of_cons; [|by apply Hl]. by eapply covered_mono; [apply Hg'..|].
Qed.
(** What one room adds. *)
Definition room_covered (acc : Run) (d : RoomStudioData) (retained : list ParsedSnapshot) : Prop :=
  (∀ s, s ∈ retained → covered acc.1.1 acc.1.2 s) ∧ (∀ h, h ∈ sd_op_referenced_hashes d → h ∈ acc.1.1) ∧
  (∀ h, h ∈ sd_direct_blob_hashes d → to_hex h ∈ acc.1.1).
Lemma room_covered_mono a b d l : grew a b → room_covered a d l → room_covered b d l.
Proof. intros (Hl&Hw&_) (Hs&Ho&Hd). split; [intros s Hin; eapply covered_mono; eauto|]. set_solver. Qed.
Lemma collect_room_covers fuel entries repo days now acc acc' :
  closed fetch acc.1.2 acc.2 → collect_room_live_hashes fetch fuel entries repo days now acc = Some (Ok acc') →
  grew acc acc' ∧ ∃ d, parse_room_studio_data entries = Ok d ∧ room_covered acc' d (retained_snapshots d repo days now).
Proof.
  unfold collect_room_live_hashes. intros Hc. destruct (parse_room_studio_data entries) as [d|e]; [|done]. destruct acc as [[live walk] ex]. intros Hr. cbn [fst snd] in Hc.
  match type of Hr with resolve_all _ _ ?a _ = _ => pose proof (resolve_all_covers fuel _ a acc' Hc Hr) as [(Hl&Hw&Hc') Hs] end.
  cbn in Hl, Hw. split; [split; [set_solver|done]|]. exists d. split; [done|]. split; [done|]. split; intros h Hh; apply Hl.
  - apply elem_of_union_l, elem_of_union_l. by apply elem_of_list_to_set.
  - apply elem_of_union_l, elem_of_union_r. by apply elem_of_list_to_set, list_elem_of_fmap_2.
Qed.
End collect.

Section rooms.
Context `{Blake3, Postcard Transaction, Ed25519, Postcard (list WireNode), Postcard (list PolicyTimelineEntry), Postcard (list Hash)}.
Context `{JsonRead} {P : Type} `{PersistContract P} {W : Type}.
Implicit Types (s : Rooms P W) (room : bytes).

Definition same_view s s' : Prop := rs_rooms s' = rs_rooms s ∧ rs_persistence s' = rs_persistence s.
Definition fetch_from (name : bytes) s (h : Hash) : result HydrateError bytes := (hydrate_blob name h (rs_persistence s)).1.

Lemma resolve_map_view room s : pc_quiet (rs_persistence s) → same_view s (resolve_room_studio_map room s).1.
Proof.
  intros Hq. unfold resolve_room_studio_map. pose proof (pc_version_quiet room _ Hq) as Ev.
  assert (same_view s (let '(version, p) := np_room_nodes_version P room (rs_persistence s) in
    let s := set_persistence s p in
    match version ≫= studio_map_get (rs_caches s) room with
    | Some cached => (set_caches s (count_studio_hit (rs_caches s)), Ok cached)
    | None =>
        let s := set_caches s (count_studio_scan (rs_caches s)) in
        let '(nodes, p) := np_load_room_nodes P room (rs_persistence s) in
        let s := set_persistence s p in
        let '(g, res) := apply_remote_batch (empty_graph : RoomGraph) nodes in
        match batch_rejected res with
        | [] => (match version with Some v => set_caches s (studio_map_put (rs_caches s) room v (graph_studio_map g)) | None => s end, Ok (graph_studio_map g))
        | rejected => (s, Err (ReplayRejected (Z.of_nat (length rejected))))
        end
    end).1) as Hcold.
  { destruct (np_room_nodes_version P room (rs_persistence s)) as [version p]. cbn in Ev. subst p. cbv zeta.
    destruct (version ≫= _); [done|]. cbn [rs_persistence set_persistence set_caches]. rewrite pc_load by done.
    destruct (apply_remote_batch _ _) as [g res]. destruct (batch_rejected res); [|done]. by destruct version. }
  destruct (rs_rooms s !! room) as [[g a b c d e f g0 h i j []]|]; [done|exact Hcold|exact Hcold].
Qed.

(** A room as the collection saw it: a state with the same rooms and store. *)
Definition scanned name s (days now : Z) (acc : Run) room : Prop :=
  ∃ s1 m d, same_view s s1 ∧ (resolve_room_studio_map room s1).2 = Ok m ∧ parse_room_studio_data (map_to_list m) = Ok d ∧
    room_covered (fetch_from name s) acc d (retained_snapshots d (starts_with (bs "repo/") room) days now).
Lemma scanned_mono name s days now a b room : grew (fetch_from name s) a b → scanned name s days now a room → scanned name s days now b room.
Proof. intros Hg (s1&m&d&?&?&?&?). exists s1, m, d. do 3 (split; [done|]). by eapply room_covered_mono. Qed.
Lemma collect_rooms_scans name fuel days now s0 rooms acc acc' s s' :
  pc_quiet (rs_persistence s0) → same_view s0 s → closed (fetch_from name s0) acc.1.2 acc.2 →
  collect_rooms name fuel days now acc rooms s = (s', Some (Ok acc')) →
  grew (fetch_from name s0) acc acc' ∧ ∀ room, room ∈ rooms → scanned name s0 days now acc' room.
Proof.
  intros Hq. revert acc s. induction rooms as [|room rooms IH]; intros acc s Hv Hc; cbn [collect_rooms].
  { intros [= <- <-]. split; [done|]. by intros room ?%not_elem_of_nil. }
  pose proof (resolve_map_view room s) as Hv2. rewrite (proj2 Hv) in Hv2. specialize (Hv2 Hq).
  destruct (resolve_room_studio_map room s) as [s2 [m|e]] eqn:Em; [|done]. cbn in Hv2.
  assert (rs_persistence s2 = rs_persistence s0 ∧ rs_rooms s2 = rs_rooms s0) as [Ep Er].
  { destruct Hv2 as [-> ->], Hv as [-> ->]. done. }
  rewrite Ep. change (λ h, (hydrate_blob name h (rs_persistence s0)).1) with (fetch_from name s0).
  destruct (collect_room_live_hashes _ _ _ _ _ _ _) as [[a|e]|] eqn:E; [|done..]. intros Hr.
  destruct (collect_room_covers _ _ _ _ _ _ _ _ Hc E) as (Hg&d&Ed&Hd). destruct (IH a s2) as [Hg' Hl]; [done|apply Hg|done|].
  split; [by eapply grew_trans|]. intros x [->|Hx]%elem_of_cons; [|by apply Hl]. eapply scanned_mono; [exact Hg'|].
  exists s, m, d. split; [done|]. split; [by rewrite Em|]. done.
Qed.

(** The hashes of a snapshot in the set the collection returns. *)
Definition protected (fetch : Hash → result HydrateError bytes) (live : gset bytes) (x : ParsedSnapshot) : Prop :=
  match ss_tree_entries x with
  | Some entries => ∀ h, h ∈ entries.*2 → to_lowercase h ∈ live
  | None => ∃ root, hash_from_hex (ss_tree_hash x) = Some root ∧ ∀ h, reachable fetch root h → to_hex h ∈ live
  end.

End rooms.
