(* ===== verification/Wire.v ===== *)
(** The wire of the server (host-core protocol.rs, the planners and extractors of
    host-core engine.rs, server adapter_context.rs): envelopes, the reading of client
    messages, the branches they select, and the difference the handshake sends. *)

From S2P Require Import Prelude Str Hex Op Node Policy Frontier Storage Caches CacheFacts Fenwick.
From S2P Require Import TextState Text Graph Ibf Mst Replay Compaction Gc DirStore Persist TopoStore HostTypes TreeWalk HostState Host Token.

(** ** Envelopes

    An envelope is the fields of its struct in the order of declaration.  The
    serialiser is a parameter, like the parser; what it prints reads back as the
    object of the fields. *)

Abbreviation Envelope := (list (bytes * Value)).
Class EnvelopeJson := envelope_json : Envelope → bytes.
Class EnvelopeJsonLaws `{EnvelopeJson, JsonRead} :=
  json_parse_envelope : ∀ e : Envelope, NoDup e.*1 → json_parse (envelope_json e) = Some (jobj e).

Definition jstr (s : string) : Value := JString (bs s).
Definition jstrs (l : list bytes) : Value := JArray (JString <$> l).
Definition kind_field (k : string) : bytes * Value := (bs "type", jstr k).

(** Structures inside envelopes. *)
Definition caps_value (c : SyncCapabilities) : Value :=
  jobj [(bs "supports_ibf", JBool (Token.supports_ibf c)); (bs "supports_mst", JBool (Token.supports_mst c));
        (bs "supports_postcard", JBool (supports_postcard c)); (bs "supports_encryption", JBool (supports_encryption c));
        (bs "supports_webrtc", JBool (supports_webrtc c));
        (bs "max_tick_interval_ms", match max_tick_interval_ms c with Some n => JNumber n | None => JNull end);
        (bs "supports_list_crdt", JBool (supports_list_crdt c)); (bs "supports_direct_blob_io", JBool (supports_direct_blob_io c))].
Definition mst_wire_value (w : MstNodeWire) : Value :=
  jobj [(bs "path", JString (mw_path w)); (bs "hash", JString (mw_hash w));
        (bs "children", jobj (prod_map id JString <$> map_to_list (mw_children w))); (bs "keys", jstrs (mw_keys w))].
Record BlobRedirectEntry := mkRedirect { br_hash : bytes; br_url : bytes; br_expires_at_unix : Z }.
Record BlobPackEntry := mkBlobEntry { be_hash : bytes; be_data : bytes }.

Definition assemble_welcome_envelope (root_hex : bytes) (frontier_hex missing_hex : list bytes) (caps : SyncCapabilities)
    (server_pubkey_hex : bytes) (peers : list bytes) (mst_root_hex : option bytes) : Envelope :=
  [kind_field "welcome"; (bs "root", JString root_hex); (bs "frontier", jstrs frontier_hex); (bs "missing", jstrs missing_hex);
   (bs "caps", caps_value caps); (bs "server_pubkey", JString server_pubkey_hex); (bs "peers", jstrs peers)] ++
  match mst_root_hex with Some h => [(bs "mst_root", JString h)] | None => [] end.
Definition assemble_catchup_pack_envelope (nodes_b64 : bytes) : Envelope :=
  [kind_field "pack"; (bs "from", jstr "server"); (bs "nodes", JString nodes_b64)].
Definition assemble_server_pack_reply_envelope (nodes_b64 merkle_root_hex : bytes) : Envelope :=
  [kind_field "pack"; (bs "from", jstr "server"); (bs "nodes", JString nodes_b64); (bs "root", JString merkle_root_hex)].
Definition assemble_peer_pack_relay_envelope (from_peer_hex nodes_b64 merkle_root_hex : bytes) : Envelope :=
  [kind_field "pack"; (bs "from", JString from_peer_hex); (bs "nodes", JString nodes_b64); (bs "root", JString merkle_root_hex)].
Definition assemble_mst_response_envelope (nodes : list MstNodeWire) : Envelope :=
  [kind_field "mst-response"; (bs "nodes", JArray (mst_wire_value <$> nodes))].
Definition assemble_peer_stamped_relay_envelope (kind from_peer_hex : bytes) (payload : list (bytes * Value)) : Envelope :=
  (bs "type", JString kind) :: (bs "from", JString from_peer_hex) :: payload.

Definition assoc_remove (k : bytes) (m : list (bytes * Value)) : list (bytes * Value) := filter (λ kv, kv.1 ≠ k) m.
Definition normalize_peer_stamped_relay_parts (fields : list (bytes * Value)) : bytes * list (bytes * Value) :=
  let kind := default [] (assoc_get (bs "type") fields ≫= as_str) in
  (kind, assoc_remove (bs "from") (assoc_remove (bs "type") fields)).
Definition assemble_normalized_peer_stamped_relay_envelope (from_peer_hex : bytes) (fields : list (bytes * Value)) : Envelope :=
  let '(kind, payload) := normalize_peer_stamped_relay_parts fields in
  assemble_peer_stamped_relay_envelope kind from_peer_hex payload.

Definition assemble_subscribe_ack_envelope : Envelope := [kind_field "subscribe-ack"].
Definition assemble_blob_redirect_envelope (redirects : list BlobRedirectEntry) : Envelope :=
  [kind_field "blob-redirect";
   (bs "redirects", JArray ((λ r, jobj [(bs "hash", JString (br_hash r)); (bs "url", JString (br_url r));
                                        (bs "expires_at_unix", JNumber (br_expires_at_unix r))]) <$> redirects))].
Definition assemble_blob_pack_envelope (blobs : list BlobPackEntry) (requested : list bytes) : Envelope :=
  [kind_field "blob-pack";
   (bs "blobs", JArray ((λ b, jobj [(bs "hash", JString (be_hash b)); (bs "data", JString (be_data b))]) <$> blobs));
   (bs "requested", jstrs requested)].
Definition assemble_upload_granted_envelope (hash_hex url : bytes) (expires_at_unix : Z) : Envelope :=
  [kind_field "upload-granted"; (bs "hash", JString hash_hex); (bs "url", JString url); (bs "expires_at_unix", JNumber expires_at_unix)].
Definition assemble_upload_denied_envelope (hash_hex reason : bytes) : Envelope :=
  [kind_field "upload-denied"; (bs "hash", JString hash_hex); (bs "reason", JString reason)].
Definition assemble_upload_rejected_envelope (hash_hex reason : bytes) : Envelope :=
  [kind_field "upload-rejected"; (bs "hash", JString hash_hex); (bs "reason", JString reason)].
Definition assemble_blob_available_envelope (hashes : list bytes) : Envelope :=
  [kind_field "blob-available"; (bs "hashes", jstrs hashes)].
Definition assemble_presence_envelope (from : bytes) (data : Value) : Envelope :=
  [kind_field "presence"; (bs "from", JString from); (bs "data", data)].
Definition assemble_room_locked_envelope (pubkey_hex : bytes) : Envelope :=
  [kind_field "room-locked"; (bs "pubkey", JString pubkey_hex)].
Definition assemble_set_room_key_rejected_envelope (msg : bytes) : Envelope := [kind_field "error"; (bs "msg", JString msg)].
Definition assemble_error_envelope (msg : bytes) : Envelope := [kind_field "error"; (bs "msg", JString msg)].
Definition assemble_policy_set_envelope : Envelope := [kind_field "policy-set"].
Definition assemble_server_info_envelope (pubkey_hex : bytes) : Envelope := [kind_field "server-info"; (bs "pubkey", JString pubkey_hex)].
Definition assemble_tick_start_envelope (started : bool) (interval_ms : Z) : Envelope :=
  [kind_field (if started then "tick-started" else "tick-already-running"); (bs "interval_ms", JNumber interval_ms)].
Definition assemble_tick_stopped_envelope : Envelope := [kind_field "tick-stopped"].
Definition assemble_snapshot_pack_envelope (pack_b64 snapshot_hash : bytes) : Envelope :=
  [kind_field "snapshot-pack"; (bs "pack_b64", JString pack_b64); (bs "snapshot_hash", JString snapshot_hash)].
Definition assemble_compact_ack_envelope (snapshot_hash : bytes) : Envelope :=
  [kind_field "compact-ack"; (bs "snapshot_hash", JString snapshot_hash)].
Definition assemble_peer_joined_envelope (peer_pubkey_hex : bytes) : Envelope :=
  [kind_field "peer-joined"; (bs "from", JString peer_pubkey_hex); (bs "pubkey", JString peer_pubkey_hex)].
Definition assemble_peer_left_envelope (peer_pubkey_hex : bytes) : Envelope :=
  [kind_field "peer-left"; (bs "from", JString peer_pubkey_hex)].

Record CloseFrameSpec := mkCloseFrame { close_code : Z; close_reason : bytes }.
Definition assemble_token_expired_close_frame : CloseFrameSpec := mkCloseFrame 4002 (bs "token expired").
Definition assemble_resync_required_close_frame : CloseFrameSpec := mkCloseFrame 4001 (bs "resync required").
Definition assemble_server_overload_close_frame : CloseFrameSpec := mkCloseFrame 1011 (bs "server overload").
Definition assemble_rate_limit_exceeded_close_frame : CloseFrameSpec := mkCloseFrame 4008 (bs "rate limit exceeded").

(** ** The difference of the handshake *)

Definition negotiate_capabilities (client_caps : SyncCapabilities) : SyncCapabilities := intersect Token.caps_default client_caps.

Inductive ClientIbfInput := IbfPresent (ibf : Ibf) | InvalidOrUndecodable | IbfMissing.

Record SyncDiffInput := mkSyncDiff {
  negotiated_supports_ibf : bool;
  client_known : list NodeId;
  client_ibf : ClientIbfInput;
  server_ids : list NodeId;
  legacy_missing_from_us : list NodeId;
}.

Section sync.
Context `{Blake3, Blake3Keyed}.

Definition welcome_mst_root_hex (negotiated_caps : SyncCapabilities) (all_ids : list NodeId) : option bytes :=
  if Token.supports_mst negotiated_caps then Some (root_hash_hex (mst_from_ids all_ids)) else None.

(** Sets of ids become lists in the order of a hash set; nothing depends on it. *)
Definition decide_sync_diff (input : SyncDiffInput) : list NodeId * list NodeId :=
  let all : gset NodeId := list_to_set (server_ids input) in
  let known : gset NodeId := list_to_set (client_known input) in
  if negotiated_supports_ibf input then
    match client_ibf input with
    | IbfPresent ibf =>
        match ibf_decode (ibf_subtract (ibf_from_ids (server_ids input)) ibf) with
        | Some (in_server, in_client) => (in_client, in_server)
        | None => ([], elements all)
        end
    | InvalidOrUndecodable => ([], server_ids input)
    | IbfMissing => ([], elements (all ∖ known))
    end
  else (legacy_missing_from_us input, elements (all ∖ known)).
End sync.

(** ** Planning a session *)

Record PeerRateLimiterPlan := mkLimiterPlan { enable_node_limiter : bool; enable_byte_limiter : bool }.
Definition plan_peer_rate_limiters (is_server_peer : bool) (peer_rate_nodes peer_rate_bytes : Z) : PeerRateLimiterPlan :=
  if is_server_peer then mkLimiterPlan false false
  else mkLimiterPlan (0 <? peer_rate_nodes) (0 <? peer_rate_bytes).

(** [v[key]], with [null] for an absent one, and the string inside. *)
Definition jindex (k : string) (v : Value) : Value := default JNull (jget (bs k) v).
Definition str_at (k : string) (v : Value) : option bytes := as_str (jindex k v).
Definition text_at (k : string) (v : Value) : bytes := default [] (str_at k v).
Definition array_at (k : string) (v : Value) : list Value := default [] (as_array (jindex k v)).

Inductive HelloPayloadClassification := ValidHello (v : Value) | ProtocolErrorExpectedHello.

(** [serde_json::from_value] for the capability flags. *)
Class CapsFromValue := caps_from_value : Value → option SyncCapabilities.

Record WelcomeCatchupPackage := mkWelcomePackage { welcome_json : bytes; catchup_b64 : bytes; has_catchup : bool }.

Section hello.
Context `{JsonRead, EnvelopeJson, CapsFromValue, Postcard Ibf}.

Definition classify_hello_payload (text : bytes) : HelloPayloadClassification :=
  match json_parse text with
  | Some v => if bool_decide (str_at "type" v = Some (bs "hello")) then ValidHello v else ProtocolErrorExpectedHello
  | None => ProtocolErrorExpectedHello
  end.
Definition plan_token_deadline_remaining_secs (verified_expiry_secs : option Z) (now_unix_secs : Z) : option Z :=
  (λ expiry, sat_sub expiry now_unix_secs) <$> verified_expiry_secs.
Definition parse_client_frontier_node_ids (hello : Value) : list NodeId :=
  omap (λ v, as_str v ≫= parse_hex_32) (array_at "frontier" hello).
Definition parse_client_capabilities (hello : Value) : SyncCapabilities :=
  default Token.caps_default (jget (bs "caps") hello ≫= caps_from_value).
Definition parse_client_ibf_input (hello : Value) : ClientIbfInput :=
  match str_at "ibf" hello with
  | None => IbfMissing
  | Some ibf_b64 =>
      match base64_decode ibf_b64 with
      | None => InvalidOrUndecodable
      | Some b => match pc_from b with Ok ibf => IbfPresent ibf | Err _ => InvalidOrUndecodable end
      end
  end.
Definition shape_welcome_peer_list (connected_peers : list bytes) (self_peer_pubkey_hex : bytes) : list bytes :=
  filter (λ peer, peer ≠ self_peer_pubkey_hex) connected_peers.
Definition plan_has_catchup (catchup_node_count : Z) : bool := 0 <? catchup_node_count.
Definition shape_welcome_missing_hex (only_in_client : list NodeId) : list bytes := to_hex <$> only_in_client.
Definition shape_welcome_server_frontier_hex (frontier : Frontier) : list bytes := to_hex_vec frontier.
Definition shape_welcome_root_hex (root : Hash) : bytes := to_hex root.
Definition assemble_welcome_catchup_package (root_hex : bytes) (frontier_hex missing_hex : list bytes)
    (negotiated_caps : SyncCapabilities) (server_pubkey_hex : bytes) (current_peers : list bytes)
    (mst_root_hex : option bytes) (catchup_b64 : bytes) (has_catchup : bool) : WelcomeCatchupPackage :=
  mkWelcomePackage
    (envelope_json (assemble_welcome_envelope root_hex frontier_hex missing_hex negotiated_caps server_pubkey_hex
                      current_peers mst_root_hex))
    catchup_b64 has_catchup.
Definition serialize_catchup_pack_envelope_json (catchup_b64 : bytes) : bytes :=
  envelope_json (assemble_catchup_pack_envelope catchup_b64).

(** *** Reading client messages *)

Record ClientJsonErrorHandlingPlan := mkJsonErrorPlan { error_message : bytes; keep_connection_open : bool }.
Inductive ClientMessageParseClassification := Parsed (v : Value) | MalformedJson (plan : ClientJsonErrorHandlingPlan).
Definition classify_client_message_json (text : bytes) : ClientMessageParseClassification :=
  match json_parse text with
  | Some v => Parsed v
  | None => MalformedJson (mkJsonErrorPlan (bs "invalid JSON") true)
  end.
Definition should_skip_self_echo_broadcast_envelope (envelope self_peer_pubkey_hex : bytes) : bool :=
  match json_parse envelope ≫= str_at "from" with
  | Some from => bool_decide (from = self_peer_pubkey_hex)
  | None => false
  end.
End hello.

Definition plan_filtered_catchup_send_payload (filtered_env : option bytes) : option bytes := filtered_env.
(** Every [should_terminate_after_*] and [should_break_main_loop_after_push_send]: a
    failed send ends the session. *)
Definition should_terminate_after_send (send_ok : bool) : bool := negb send_ok.
Definition should_ignore_unknown_client_message_type (message_type : bytes) : bool := true.

Inductive PackImportMutationAction := BroadcastAcceptedLeafPack | NoPackBroadcast.
Definition plan_pack_import_mutation (accepted_nodes : Z) : PackImportMutationAction :=
  if 0 <? accepted_nodes then BroadcastAcceptedLeafPack else NoPackBroadcast.
Inductive BlobStoreMutationAction := BroadcastBlobAvailable | NoBlobBroadcast.
Definition plan_blob_store_mutation (stored_blobs : Z) : BlobStoreMutationAction :=
  if 0 <? stored_blobs then BroadcastBlobAvailable else NoBlobBroadcast.
Inductive WebRtcRelayBranchClassification := IsRelay | NotRelay.
Definition classify_webrtc_relay_branch (message_type : bytes) : WebRtcRelayBranchClassification :=
  if bool_decide (message_type ∈ [bs "webrtc-offer"; bs "webrtc-answer"; bs "webrtc-ice"]) then IsRelay else NotRelay.

Record DirectBlobIoGatePlan := mkGatePlan { gate_error_message : bytes; gate_keep_open : bool }.
Definition plan_direct_blob_io_negotiation_gate (supports : bool) (message_type : bytes) : option DirectBlobIoGatePlan :=
  if supports then None
  else Some (mkGatePlan
    (if bool_decide (message_type = bs "request-upload") then bs "request-upload not negotiated"
     else if bool_decide (message_type = bs "blob-uploaded") then bs "blob-uploaded not negotiated"
     else bs "direct-blob-io not negotiated") true).
Definition plan_direct_blob_io_bad_hash_gate (hash_is_valid : bool) (message_type : bytes) : option DirectBlobIoGatePlan :=
  if hash_is_valid then None
  else Some (mkGatePlan
    (if bool_decide (message_type = bs "request-upload") then bs "request-upload: bad hash"
     else if bool_decide (message_type = bs "blob-uploaded") then bs "blob-uploaded: bad hash"
     else bs "direct-blob-io: bad hash") true).
Inductive DirectBlobIoVerifyOutcome := BroadcastAvailable | SendUploadRejected.
Definition classify_direct_blob_io_verify_outcome (verify_succeeded : bool) : DirectBlobIoVerifyOutcome :=
  if verify_succeeded then BroadcastAvailable else SendUploadRejected.
Inductive RequestUploadResolvePutUrlOutcome := GrantUpload | DenyUseWs.
Definition classify_request_upload_resolve_put_url_outcome (put_url_available : bool) : RequestUploadResolvePutUrlOutcome :=
  if put_url_available then GrantUpload else DenyUseWs.
Definition shape_blob_uploaded_available_hashes (hash_hex : bytes) : list bytes := [hash_hex].

Definition extract_blob_uploaded_hash_text (message : Value) : bytes := text_at "hash" message.
Definition extract_request_upload_hash_text (message : Value) : bytes := text_at "hash" message.
Definition extract_request_upload_size (message : Value) : Z := default 0 (as_u64 (jindex "size" message)).
Definition extract_request_upload_content_type (message : Value) : option bytes := str_at "content_type" message.
Definition extract_hello_pubkey_text (hello : Value) : bytes := text_at "pubkey" hello.
Definition extract_client_message_type_text (message : Value) : bytes := text_at "type" message.
Definition extract_presence_data_payload (message : Value) : Value := jindex "data" message.

Inductive PresenceLeaseParseResult :=
| PresenceValid (ttl_ms now_unix_ms : option Z)
| PresenceInvalid (reason : bytes).
(** An absent field, a number it accepts, or anything else. *)
Definition lease_field (v : option Value) (accept : Z → bool) : option (option Z) :=
  match v with
  | None => Some None
  | Some v => match as_u64 v with Some n => if accept n then Some (Some n) else None | None => None end
  end.
Definition parse_presence_lease_fields (message : Value) : PresenceLeaseParseResult :=
  match lease_field (jget (bs "ttl_ms") message) (λ n, negb (n =? 0)) with
  | None => PresenceInvalid (bs "reject.presence_lease_invalid:ttl_ms_must_be_positive_u64")
  | Some ttl_ms =>
      match lease_field (jget (bs "now_unix_ms") message) (λ _, true) with
      | None => PresenceInvalid (bs "reject.presence_lease_invalid:now_unix_ms_must_be_u64")
      | Some now_unix_ms =>
          match ttl_ms, now_unix_ms with
          | Some _, None => PresenceInvalid (bs "reject.presence_lease_invalid:ttl_ms_requires_now_unix_ms")
          | None, Some _ => PresenceInvalid (bs "reject.presence_lease_invalid:now_unix_ms_requires_ttl_ms")
          | _, _ => PresenceValid ttl_ms now_unix_ms
          end
      end
  end.

Definition extract_pack_nodes_payload_b64 (message : Value) : bytes := text_at "nodes" message.
Definition extract_blob_upload_entry_hash_text (entry : Value) : bytes := text_at "hash" entry.
Definition extract_blob_upload_entry_data_b64 (entry : Value) : bytes := text_at "data" entry.
Definition extract_set_policy_default_text (message : Value) : bytes := default (bs "allow") (str_at "default" message).
Definition extract_set_policy_rule_values (message : Value) : list Value := array_at "rules" message.
Definition extract_set_policy_can_write_values (rule : Value) : list Value := array_at "can_write" rule.
Definition extract_set_policy_can_write_hex_text (value : Value) : bytes := default [] (as_str value).
Definition extract_blob_request_hashes (message : Value) : list bytes := omap as_str (array_at "hashes" message).
Definition extract_webrtc_relay_fields (message : Value) : list (bytes * Value) := match message with JObject m => m | _ => [] end.
Definition extract_mst_request_paths (message : Value) : list bytes := omap as_str (array_at "paths" message).
Definition extract_mst_done_ids (message : Value) : list NodeId := omap (λ v, as_str v ≫= parse_hex_32) (array_at "ids" message).
Definition shape_request_known_id_set (message : Value) : gset NodeId :=
  list_to_set (omap (λ v, as_str v ≫= parse_hex_32) (array_at "known" message)).
Definition shape_client_known_id_set (client_known : list NodeId) : gset NodeId := list_to_set client_known.

Inductive SetRoomKeyParseResult := KeyParsed | InvalidPubkeyHex.
Definition classify_set_room_key_parse_result (parse_succeeded : bool) : SetRoomKeyParseResult :=
  if parse_succeeded then KeyParsed else InvalidPubkeyHex.
Inductive SetRoomKeyLockStateResult := LockRoom | RejectAlreadyLocked.
Definition classify_set_room_key_lock_state (can_lock_room : bool) : SetRoomKeyLockStateResult :=
  if can_lock_room then LockRoom else RejectAlreadyLocked.
Definition shape_set_room_key_invalid_pubkey_rejection_reason : bytes := bs "set-room-key: invalid pubkey hex".
Definition shape_set_room_key_already_locked_rejection_reason : bytes := bs "room already locked".
Definition shape_set_policy_unknown_default_error (default_value : bytes) : bytes :=
  bs "set-policy: unknown default '" ++ default_value ++ bs "', use 'allow' or 'deny'".
Definition shape_compact_room_compaction_failed_error (reason : bytes) : bytes := bs "compact failed: " ++ reason.
Definition shape_compact_room_verify_failed_error (reason : bytes) : bytes := bs "snapshot verify failed: " ++ reason.
Definition shape_compact_room_rebuild_failed_error (reason : bytes) : bytes := bs "rebuild failed: " ++ reason.
Definition extract_set_room_key_pubkey_text (message : Value) : bytes := text_at "pubkey" message.
Definition extract_start_tick_interval_ms (message : Value) : Z := Z.max (default 16 (as_u64 (jindex "interval_ms" message))) 1.
Definition extract_start_tick_intent_prefix (message : Value) : bytes := default (bs "intent/") (str_at "intent_prefix" message).

(** ** Dispatch (adapter_context.rs) *)

Inductive ClientDispatchCommand :=
| Subscribe | Pack | MstRequest | MstDone | Request | BlobUpload | BlobRequest | RequestUpload | BlobUploaded
| Presence | SetRoomKey | SetPolicy | ServerInfo | StartTick | StopTick | CompactRoom
| ArchiveDescribe | ArchiveValidate | ArchiveImport | ArchiveExport
| QueryRegister | ProjectionBuild | ProjectionRead | ProjectionInvalidate | ProjectionList | ReplayReadRange
| TopologyCreateChild | TopologyDescribeLineage | TopologyListChildren
| TopologyProposePromotion | TopologyValidatePromotion | TopologyApplyPromotion
| GraphGetFrontier | GraphGetCausalParents | GraphGetCanonicalResolution | GraphComputeSyncDiff
| Relay | Unknown.
#[global] Instance ClientDispatchCommand_eq_dec : EqDecision ClientDispatchCommand.
Proof. solve_decision. Defined.

Definition command_names : list (string * ClientDispatchCommand) :=
  [("subscribe", Subscribe); ("pack", Pack); ("mst-request", MstRequest); ("mst-done", MstDone); ("request", Request);
   ("blob-upload", BlobUpload); ("blob-request", BlobRequest); ("request-upload", RequestUpload);
   ("blob-uploaded", BlobUploaded); ("presence", Presence); ("set-room-key", SetRoomKey); ("set-policy", SetPolicy);
   ("server-info", ServerInfo); ("start-tick", StartTick); ("stop-tick", StopTick); ("compact-room", CompactRoom);
   ("archive.describe", ArchiveDescribe); ("archive.validate", ArchiveValidate); ("archive.import", ArchiveImport);
   ("archive.export", ArchiveExport); ("query.register", QueryRegister); ("projection.build", ProjectionBuild);
   ("projection.read", ProjectionRead); ("projection.invalidate", ProjectionInvalidate); ("projection.list", ProjectionList);
   ("replay.read-range", ReplayReadRange); ("topology.create-child", TopologyCreateChild);
   ("topology.describe-lineage", TopologyDescribeLineage); ("topology.list-children", TopologyListChildren);
   ("topology.propose-promotion", TopologyProposePromotion); ("topology.validate-promotion", TopologyValidatePromotion);
   ("topology.apply-promotion", TopologyApplyPromotion); ("graph.get-frontier", GraphGetFrontier);
   ("graph.get-causal-parents", GraphGetCausalParents); ("graph.get-canonical-resolution", GraphGetCanonicalResolution);
   ("graph.compute-sync-diff", GraphComputeSyncDiff)]%string.
Definition route_client_dispatch_command (message_type : bytes) : ClientDispatchCommand :=
  match list_find (λ nc, bs nc.1 = message_type) command_names with
  | Some (_, (_, c)) => c
  | None => match classify_webrtc_relay_branch message_type with IsRelay => Relay | NotRelay => Unknown end
  end.

Record ClientDispatchContext := mkDispatch { dc_message : Value; dc_message_type : bytes; dc_command : ClientDispatchCommand }.
Inductive ClientDispatchBuild := DispatchReady (ctx : ClientDispatchContext) | DispatchMalformed (plan : ClientJsonErrorHandlingPlan).
Definition build_client_dispatch_context `{JsonRead} (text : bytes) : ClientDispatchBuild :=
  match classify_client_message_json text with
  | Parsed message =>
      let message_type := extract_client_message_type_text message in
      DispatchReady (mkDispatch message message_type (route_client_dispatch_command message_type))
  | MalformedJson plan => DispatchMalformed plan
  end.
