(* ===== verification/Topology.v ===== *)
(** Room families on the server (server/lineage.rs): child rooms are created from a
    checkpoint of their parent and listed, and a room describes its ancestors.

    A handler runs as one step.  The rooms it enters are created as by any other
    caller, and the handle it has on them is dropped when it ends. *)

From S2P Require Import Prelude Str StErr Hex Op Node Policy Frontier Storage Caches Fenwick.
From S2P Require Import TextState Text Graph Replay Gc GcStore Persist TopoStore HostTypes HostState Host Room Registry.

(** ** Texts *)

(** The [Display] of [SyncError] (error.rs); an author is printed as a byte array. *)
Definition sync_error_str (e : SyncError) : bytes :=
  match e with
  | HashMismatch expected actual => bs "hash mismatch: expected " ++ to_hex expected ++ bs ", got " ++ to_hex actual
  | MissingParent h => bs "missing parent node: " ++ to_hex h
  | DuplicateNode h => bs "duplicate node: " ++ to_hex h
  | Serialization m => bs "serialization error: " ++ m
  | BlobNotFound h => bs "blob not found: " ++ to_hex h
  | InvalidSignature h => bs "invalid ed25519 signature on node " ++ to_hex h
  | Node.PolicyViolation author key =>
      bs "policy violation: author [" ++ join (bs ", ") (decimal <$> author) ++ bs "] not permitted to write key '" ++ key ++ bs "'"
  | EncryptionFailed => bs "encryption failed"
  | DecryptionFailed => bs "decryption failed " ++ [226; 128; 148] ++ bs " wrong key or corrupt ciphertext"
  | LamportCeiling id lamport ceiling =>
      bs "lamport ceiling exceeded on node " ++ to_hex id ++ bs ": lamport=" ++ decimal lamport ++ bs ", ceiling=" ++ decimal ceiling
  | WallClockSkew id wall_ms now_ms =>
      bs "wall clock skew on node " ++ to_hex id ++ bs ": wall_ms=" ++ decimal wall_ms ++ bs " exceeds now=" ++ decimal now_ms ++ bs " by more than 24h"
  end.

Definition is_hex_digit (b : Z) : bool := ((48 <=? b) && (b <=? 57)) || ((65 <=? b) && (b <=? 70)) || ((97 <=? b) && (b <=? 102)).
Definition is_hash_hex (s : bytes) : bool := bool_decide (length s = 64%nat) && forallb is_hex_digit s.
(** [filter(|s| !s.is_empty())]. *)
Definition non_empty (o : option bytes) : option bytes := match o with Some [] => None | _ => o end.

Definition KNOWN_PROMOTION_POLICIES : list bytes := [bs "reference-only"; bs "promotion-based"].

(** [parse_parent_checkpoint]. *)
Definition parse_parent_checkpoint (msg : Value) : result LineageRejected ParentCheckpoint :=
  match jget (bs "parent_checkpoint") msg with
  | None => Err (mkLineageRejected InvalidCheckpoint (bs "parent_checkpoint is required"))
  | Some cp =>
      match (λ l : list Value, omap as_str l) <$> (jget (bs "frontier") cp ≫= as_array) with
      | None | Some [] => Err (mkLineageRejected InvalidCheckpoint (bs "parent_checkpoint.frontier must be a non-empty array"))
      | Some frontier =>
          match to_lowercase <$> get_str (bs "canonical_hash") cp with
          | Some h =>
              if is_hash_hex h then Ok (mkCheckpoint frontier h (get_str (bs "policy_timeline_hash") cp))
              else Err (mkLineageRejected InvalidCheckpoint (bs "parent_checkpoint.canonical_hash must be 64-char hex"))
          | None => Err (mkLineageRejected InvalidCheckpoint (bs "parent_checkpoint.canonical_hash must be 64-char hex"))
          end
      end
  end.

(** ** Checkpoints of a room *)

Section checkpoints.
Context `{Blake3, Postcard Transaction, Ed25519, Postcard (list PolicyTimelineEntry)}.
Implicit Types r : Room.

Definition replayed (r : Room) (context : bytes) (empty_message : bytes) : result LineageRejected (gmap bytes bytes) :=
  match get_nodes (rm_graph r) (all_node_ids (rm_graph r)) with
  | [] => Err (mkLineageRejected InvalidCheckpoint empty_message)
  | nodes =>
      match replay (T:=TextProjection) nodes None with
      | Ok st => Ok (rs_map st)
      | Err e => Err (mkLineageRejected InvalidCheckpoint (context ++ sync_error_str e))
      end
  end.
Definition dash : bytes := bs " " ++ [226; 128; 148] ++ bs " ".
Definition snapshot_room_canonical_hash r : result LineageRejected bytes :=
  match replayed r (bs "replay failed: ") (bs "room has no nodes" ++ dash ++ bs "cannot snapshot canonical hash") with
  | Ok m => Ok (to_hex (canonical_hash m))
  | Err e => Err e
  end.
Definition snapshot_parent_checkpoint r : result LineageRejected ParentCheckpoint :=
  match replayed r (bs "parent replay failed: ") (bs "parent room has no nodes" ++ dash ++ bs "cannot snapshot checkpoint") with
  | Ok m => Ok (mkCheckpoint (to_hex_vec (g_frontier (rm_graph r))) (to_hex (canonical_hash m))
                 (Some (to_hex (policy_timeline_hash (rm_policy_timeline r)))))
  | Err e => Err e
  end.
End checkpoints.

(** ** The handlers *)

Section handlers.
Context `{Blake3, Postcard Transaction, Ed25519, Postcard (list WireNode), Postcard (list PolicyTimelineEntry), Postcard (list Hash)}.
Context `{Serde RoomLineage, Serde PromotionRecord}.
Context {P : Type} `{NodePersistence P, BlobPersistence P} {W : Type}.
Implicit Types (s : Rooms P W) (room parent child : bytes).
Abbreviation TM := (SE (Rooms P W)).
Abbreviation LM := (SE (Rooms P W) LineageRejected).

Definition reject {A} (c : LineageReasonClass) (m : bytes) : LM A := throw (mkLineageRejected c m).
Definition lift {E A} (r : result E A) : TM E A := λ s, (s, r).
Definition get_required (k : bytes) (c : LineageReasonClass) (msg : Value) : LM bytes :=
  match non_empty (get_str k msg) with Some v => mret v | None => reject c (k ++ bs " is required") end.

(** [get_or_create] by a handler. *)
Definition enter room (now : Instant) s : Rooms P W := set_handles (get_or_create s room now) (rs_handles s).
Definition enter_room {E} room (now : Instant) : TM E Room := _ ← modify (enter room now); read (λ s, room_of s room).

(** The push of a new child, and the oldest children dropped beyond the cap. *)
Definition bounded (cap : option nat) (children : list bytes) : list bytes :=
  match cap with Some cap => drop (length children - cap) children | None => children end.
Definition push_child s parent child : Rooms P W :=
  let children := default [] (rs_children_index s !! parent) in
  let children := if decide (child ∈ children) then children else children ++ [child] in
  set_children_index s (<[parent := bounded (rs_children_cap s) children]> (rs_children_index s)).

Definition timelines_differ (expected actual : ParentCheckpoint) : bool :=
  match pcp_policy_timeline_hash expected, pcp_policy_timeline_hash actual with
  | Some e, Some a => negb (bool_decide (e = a))
  | _, _ => false
  end.
Definition create_child_room parent child (expected : ParentCheckpoint) (child_purpose created_by promotion_policy_id : bytes)
    (now : Instant) : LM ChildRoomCreated :=
  rooms ← read rs_rooms;
  match rooms !! parent, rooms !! child with
  | None, _ => reject ParentNotFound (bs "parent room not found: " ++ parent)
  | Some _, Some _ => reject ChildAlreadyExists (bs "child room already exists: " ++ child)
  | Some _, None =>
      p ← enter_room parent now;
      actual ← lift (snapshot_parent_checkpoint p);
      if decide (pcp_canonical_hash actual ≠ pcp_canonical_hash expected)
      then reject ParentCheckpointMismatch (bs "parent canonical_hash does not match declared parent_checkpoint")
      else if timelines_differ expected actual
      then reject ParentCheckpointMismatch (bs "parent policy_timeline_hash does not match current parent timeline")
      else
        let lineage := mkLineage parent expected child_purpose created_by (g_lamport (rm_graph p)) promotion_policy_id in
        c ← enter_room child now;
        match rm_lineage c with
        | Some _ => reject ChildAlreadyExists (bs "child room already has lineage metadata")
        | None =>
            _ ← modify (λ s, set_room s child (with_lineage c (Some lineage)));
            _ ← modify (λ s, set_lineage_store s (upsert_lineage (rs_lineage_store s) child lineage));
            _ ← modify (λ s, push_child s parent child);
            mret (mkChildCreated child lineage)
        end
  end.

(** [process_topology_create_child]. *)
Definition process_topology_create_child parent (msg : Value) (now : Instant) : LM ChildRoomCreated :=
  child ← get_required (bs "child_room_id") InvalidCheckpoint msg;
  purpose ← get_required (bs "child_purpose") InvalidCheckpoint msg;
  let created_by := default (bs "unknown") (non_empty (get_str (bs "created_by") msg)) in
  policy ← get_required (bs "promotion_policy_id") PolicyUnknown msg;
  if decide (policy ∉ KNOWN_PROMOTION_POLICIES) then reject PolicyUnknown (bs "unknown promotion_policy_id: " ++ policy)
  else cp ← lift (parse_parent_checkpoint msg); create_child_room parent child cp purpose created_by policy now.

(** The walk to the ancestors: a parent seen before ends it.  Every parent but the
    last is resident, so the rooms bound it. *)
Fixpoint ancestors_from (fuel : nat) (rooms : gmap bytes Room) (seen : gset bytes) (cursor : option RoomLineage) : list RoomLineage :=
  match fuel, cursor with
  | S fuel, Some lin =>
      let parent := ln_parent_room_id lin in
      if decide (parent ∈ seen) then []
      else lin :: ancestors_from fuel rooms ({[parent]} ∪ seen) (rooms !! parent ≫= rm_lineage)
  | _, _ => []
  end.
Definition describe_lineage room : LM RoomLineageDescribed :=
  rooms ← read rs_rooms;
  match rooms !! room with
  | None => reject LineageRoomNotFound (bs "room not found")
  | Some r => mret (mkDescribed room (rm_lineage r) (ancestors_from (S (S (size rooms))) rooms ∅ (rm_lineage r)))
  end.

Definition first_only (l : list bytes) : list bytes := foldl (λ acc id, if decide (id ∈ acc) then acc else acc ++ [id]) [] l.
(** The children of the index; an empty index is filled from the store. *)
Definition child_ids parent s : list bytes * Rooms P W :=
  match default [] (rs_children_index s !! parent) with
  | [] =>
      let '(from_store, ls) := lineage_list_children (rs_lineage_store s) parent in
      let s := set_lineage_store s ls in
      let deduped := first_only from_store in
      (deduped, match deduped with [] => s | _ => set_children_index s (<[parent := bounded (rs_children_cap s) deduped]> (rs_children_index s)) end)
  | ids => (ids, s)
  end.
(** The lineage of a room: its own, or that of the store, which it then keeps. *)
Definition lineage_of room (now : Instant) s : option RoomLineage * Rooms P W :=
  let s := enter room now s in
  let r := room_of s room in
  match rm_lineage r with
  | Some l => (Some l, s)
  | None =>
      let '(l, ls) := get_lineage (rs_lineage_store s) room in
      let s := set_lineage_store s ls in
      (l, match l with Some _ => set_room s room (with_lineage r l) | None => s end)
  end.
Definition summarise (now : Instant) (acc : list ChildRoomSummary * Rooms P W) child : list ChildRoomSummary * Rooms P W :=
  let '(l, s) := lineage_of child now acc.2 in
  (acc.1 ++ option_list ((λ l, mkChildSummary child (ln_child_purpose l) (ln_promotion_policy_id l) (ln_created_by l)) <$> l), s).
Definition list_children parent (now : Instant) : LM ChildrenListed := λ s,
  match rs_rooms s !! parent with
  | None => reject ParentNotFound (bs "parent room not found: " ++ parent) s
  | Some _ =>
      let '(ids, s) := child_ids parent s in
      let '(children, s) := foldl (summarise now) ([], s) ids in
      (s, Ok (mkListed parent children))
  end.
End handlers.
