(* ===== verification/Promotion.v ===== *)
(** Promotions on the server (server/promotion.rs): a child's checkpoint is proposed
    to its parent, validated, and applied as an audit node of the parent.

    The handlers appear twice.  [process_topology_propose_promotion] and its kin run
    without interruption, as the sessions of Session.v call them.  The tasks below
    ([propose_task], [validate_task], [apply_task]) are the same handlers cut at every
    await, so that other tasks can run in between; TopoThms.v shows that a task that
    is not interrupted is the handler. *)

From S2P Require Import Prelude Str StErr Hex Op Node Policy Frontier Storage Caches Fenwick.
From S2P Require Import TextState Text Graph Replay Gc GcStore Persist TopoStore HostTypes HostState Host Room Registry Topology.

Definition AUDIT_KEY_PREFIX : bytes := bs "_topology/promotion/".
Definition promotion_rejected (c : PromotionReasonClass) (m : bytes) : PromotionRejected := mkPromotionRejected c m.
Definition lineage_to_promotion (e : LineageRejected) : PromotionRejected :=
  promotion_rejected InvalidLineage (lineage_reason_str (lr_class e) ++ bs ": " ++ lr_message e).
(** [queue_rejection], with the messages of [acquire_promotion_queue_slot]. *)
Definition queue_rejection (m : bytes) : PromotionRejected := promotion_rejected ApplyConflict m.

(** [require_str] and [parse_checkpoint_hash]. *)
Definition require_str (msg : Value) (field : bytes) : result PromotionRejected bytes :=
  match non_empty (get_str field msg) with
  | Some v => Ok v
  | None => Err (promotion_rejected InvalidLineage (field ++ bs " is required"))
  end.
Definition parse_checkpoint_hash (msg : Value) (field : bytes) : result PromotionRejected bytes :=
  match require_str msg field with
  | Err e => Err e
  | Ok h => if is_hash_hex h then Ok (to_lowercase h) else Err (promotion_rejected InvalidLineage (field ++ bs " must be 64-char hex"))
  end.

Section handlers.
Context `{Blake3, Postcard Transaction, Ed25519, Postcard (list WireNode), Postcard (list PolicyTimelineEntry), Postcard (list Hash)}.
Context `{Serde RoomLineage, Serde PromotionRecord, Json}.
Context {P : Type} `{NodePersistence P, BlobPersistence P} {W : Type}.
Implicit Types (s : Rooms P W) (room parent child id : bytes).
Abbreviation PM := (SE (Rooms P W) PromotionRejected).

Definition deny {A} (c : PromotionReasonClass) (m : bytes) : PM A := throw (promotion_rejected c m).
Definition stored id : PM (option PromotionRecord) := λ s,
  let '(r, ps) := promotion_get (rs_promotion_store s) id in (set_promotion_store s ps, Ok r).
Definition store_insert id (x : PromotionRecord) : PM unit := modify (λ s, set_promotion_store s (promotion_insert (rs_promotion_store s) id x)).
Definition store_update id (x : PromotionRecord) : PM unit := modify (λ s, set_promotion_store s (promotion_update (rs_promotion_store s) id x)).
Definition hash_of_room (r : Room) : PM bytes :=
  lift (match snapshot_room_canonical_hash r with Ok h => Ok h | Err e => Err (lineage_to_promotion e) end).

Definition load_child_lineage child parent (now : Instant) : PM RoomLineage :=
  l ← (λ s, let '(l, s) := lineage_of child now s in (s, Ok l));
  match l with
  | None => deny InvalidLineage (bs "child room has no lineage metadata")
  | Some l =>
      if decide (ln_parent_room_id l = parent) then mret l
      else deny InvalidLineage (bs "child lineage parent_room_id does not match parent_room_id")
  end.

(** [commit_audit_node]: the node goes into the graph of the room and nowhere else. *)
Definition commit_audit_node room (sk : SigningKey) (audit_key value : bytes) : PM unit := λ s,
  let r := room_of s room in
  let '(g, res) := apply_local (rm_graph r) sk 0 [OpMap (MapSet audit_key value)] in
  let s := set_room s room (with_graph r g) in
  match res with
  | Ok _ => (s, Ok tt)
  | Err e => (s, Err (promotion_rejected ApplyConflict (bs "failed to commit promotion audit node: " ++ sync_error_str e)))
  end.

(** *** Proposing *)

Definition bar : bytes := bs "|".
Definition same_proposal (x : PromotionRecord) parent child (payload_ref : bytes) : bool :=
  bool_decide (prd_parent_room_id x = parent) && bool_decide (prd_child_room_id x = child) && bool_decide (prd_payload_ref x = payload_ref).
Definition reported (id : bytes) (x : PromotionRecord) : PromotionProposed :=
  mkProposed id (prd_parent_room_id x) (prd_child_room_id x) (prd_child_checkpoint_hash x) (prd_payload_ref x) (prd_proposal_digest x).
Definition proposal_digest parent child (child_hash payload_ref : bytes) (key : option bytes) : bytes :=
  to_hex (hash_of (parent ++ bar ++ child ++ bar ++ child_hash ++ bar ++ payload_ref ++ bar ++ default [] key)).
Definition propose_new parent child (child_hash payload_ref : bytes) (key : option bytes) (now : Instant) : PM PromotionProposed :=
  lineage ← load_child_lineage child parent now;
  if decide (ln_promotion_policy_id lineage ≠ bs "promotion-based") then deny PolicyDenied (bs "promotion_policy_id is not promotion-based")
  else
    c ← enter_room child now;
    actual ← hash_of_room c;
    if decide (actual ≠ child_hash) then deny ChildCheckpointMismatch (bs "child canonical_hash does not match child_checkpoint_hash")
    else
      p ← enter_room parent now;
      parent_hash ← hash_of_room p;
      let digest := proposal_digest parent child child_hash payload_ref key in
      let id := default digest key in
      existing ← stored id;
      match existing with
      | Some x =>
          if bool_decide (prd_lifecycle x ≠ Proposed) || bool_decide (prd_parent_room_id x ≠ parent)
          then deny ApplyConflict (bs "proposal_id already used with different inputs")
          else mret (mkProposed id parent child child_hash payload_ref (prd_proposal_digest x))
      | None =>
          _ ← store_insert id (mkPromotionRecord parent child child_hash payload_ref parent_hash None Proposed digest None None None);
          mret (mkProposed id parent child child_hash payload_ref digest)
      end.
Definition process_topology_propose_promotion (msg : Value) (now : Instant) : PM PromotionProposed :=
  parent ← lift (require_str msg (bs "parent_room_id"));
  child ← lift (require_str msg (bs "child_room_id"));
  child_hash ← lift (parse_checkpoint_hash msg (bs "child_checkpoint_hash"));
  payload_ref ← lift (require_str msg (bs "payload_ref"));
  match non_empty (get_str (bs "idempotency_key") msg) with
  | None => propose_new parent child child_hash payload_ref None now
  | Some key =>
      known ← stored key;
      match known with
      | Some x =>
          if same_proposal x parent child payload_ref then mret (reported key x)
          else deny ApplyConflict (bs "idempotency_key already used with different inputs")
      | None => propose_new parent child child_hash payload_ref (Some key) now
      end
  end.

(** *** Validating *)

Definition validated_record (x : PromotionRecord) (parent_hash digest : bytes) : PromotionRecord :=
  mkPromotionRecord (prd_parent_room_id x) (prd_child_room_id x) (prd_child_checkpoint_hash x) (prd_payload_ref x)
    (prd_parent_canonical_hash_at_propose x) (Some parent_hash) Validated (prd_proposal_digest x) (Some digest)
    (prd_parent_new_canonical_hash x) (prd_audit_key x).
Definition validation_digest id (digest parent_hash : bytes) : bytes :=
  to_hex (hash_of (bs "validate|" ++ id ++ bar ++ digest ++ bar ++ parent_hash)).
(** Everything before the write: the answer, and the record to write. *)
Definition validate_check id (now : Instant) : PM (PromotionValidated * option PromotionRecord) :=
  record ← stored id;
  match record with
  | None => deny PromotionNotFound (bs "proposal not found")
  | Some x =>
      if decide (prd_lifecycle x = Applied) then mret (mkValidated id (default (prd_proposal_digest x) (prd_validation_digest x)), None)
      else
        _ ← load_child_lineage (prd_child_room_id x) (prd_parent_room_id x) now;
        c ← enter_room (prd_child_room_id x) now;
        child_hash ← hash_of_room c;
        if decide (child_hash ≠ prd_child_checkpoint_hash x) then deny ChildCheckpointMismatch (bs "child checkpoint changed since proposal")
        else
          p ← enter_room (prd_parent_room_id x) now;
          parent_hash ← hash_of_room p;
          if decide (parent_hash ≠ prd_parent_canonical_hash_at_propose x) then deny StaleParent (bs "parent canonical hash moved since proposal")
          else
            let digest := validation_digest id (prd_proposal_digest x) parent_hash in
            mret (mkValidated id digest, Some (validated_record x parent_hash digest))
  end.
Definition validate_write id (w : option PromotionRecord) : PM unit := match w with Some x => store_update id x | None => mret tt end.
Definition process_topology_validate_promotion (msg : Value) (now : Instant) : PM PromotionValidated :=
  id ← lift (require_str msg (bs "proposal_id"));
  r ← validate_check id now;
  _ ← validate_write id r.2;
  mret r.1.

(** *** Applying *)

Definition applied_record (x : PromotionRecord) (new_hash audit_key : bytes) : PromotionRecord :=
  mkPromotionRecord (prd_parent_room_id x) (prd_child_room_id x) (prd_child_checkpoint_hash x) (prd_payload_ref x)
    (prd_parent_canonical_hash_at_propose x) (prd_parent_canonical_hash_at_validate x) Applied (prd_proposal_digest x)
    (prd_validation_digest x) (Some new_hash) (Some audit_key).
Definition audit_payload id (x : PromotionRecord) : bytes :=
  json_print (jobj [(bs "proposal_id", JString id); (bs "child_room_id", JString (prd_child_room_id x));
    (bs "child_checkpoint_hash", JString (prd_child_checkpoint_hash x)); (bs "payload_ref", JString (prd_payload_ref x));
    (bs "proposal_digest", JString (prd_proposal_digest x)); (bs "validation_digest", jopt (prd_validation_digest x))]).
(** The answer of a promotion applied before, or the record to apply. *)
Definition apply_check id (now : Instant) : PM (PromotionApplied + PromotionRecord) :=
  record ← stored id;
  match record with
  | None => deny PromotionNotFound (bs "proposal not found")
  | Some x =>
      if decide (prd_lifecycle x = Applied)
      then mret (inl (mkApplied id (prd_parent_room_id x) (default (prd_parent_canonical_hash_at_propose x) (prd_parent_new_canonical_hash x))
                   (default (AUDIT_KEY_PREFIX ++ id) (prd_audit_key x))))
      else if decide (prd_lifecycle x ≠ Validated) then deny NotValidated (bs "proposal must be validated before apply")
      else
        p ← enter_room (prd_parent_room_id x) now;
        parent_hash ← hash_of_room p;
        if decide (parent_hash ≠ default (prd_parent_canonical_hash_at_propose x) (prd_parent_canonical_hash_at_validate x))
        then deny StaleParent (bs "parent canonical hash moved since validation")
        else mret (inr x)
  end.
Definition apply_commit id (sk : SigningKey) (x : PromotionRecord) : PM PromotionApplied :=
  let parent := prd_parent_room_id x in
  let audit_key := AUDIT_KEY_PREFIX ++ id in
  _ ← commit_audit_node parent sk audit_key (audit_payload id x);
  p ← read (λ s, room_of s parent);
  new_hash ← hash_of_room p;
  _ ← store_update id (applied_record x new_hash audit_key);
  mret (mkApplied id parent new_hash audit_key).
Definition process_topology_apply_promotion (sk : SigningKey) (msg : Value) (now : Instant) : PM PromotionApplied :=
  id ← lift (require_str msg (bs "proposal_id"));
  c ← apply_check id now;
  match c with inl answer => mret answer | inr x => apply_commit id sk x end.

(** ** The handlers as tasks

    A task is what is left of a handler: the next action, which runs without
    interruption (one access to a lock or to the store), and how to go on with its
    result.  An error ends the task, as the question mark operator does.  An action
    says what the task saw or did. *)
Inductive Event :=
| SawRecord (id : bytes) (x : PromotionRecord)
| SawHash (room : bytes) (canonical_hash : bytes)
| Committed (id : bytes) (x : PromotionRecord).

Inductive Task (A : Type) : Type :=
| Done (answer : result PromotionRejected A)
| Act (X : Type) (m : PM X) (seen : X → option Event) (k : X → Task A).
Arguments Done {A} answer.
Arguments Act {A X} m seen k.

(** Running a task on its own. *)
Fixpoint run {A} (task : Task A) : PM A :=
  match task with
  | Done r => lift r
  | Act m _ k => m ≫= λ x, run (k x)
  end.

Definition fail {A} (c : PromotionReasonClass) (m : bytes) : Task A := Done (Err (promotion_rejected c m)).
Definition parsed {X A} (r : result PromotionRejected X) (k : X → Task A) : Task A := match r with Ok x => k x | Err e => Done (Err e) end.
Definition await {X A} (m : PM X) (k : X → Task A) : Task A := Act m (λ _, None) k.
Definition lookup_record {A} id (k : option PromotionRecord → Task A) : Task A :=
  Act (stored id) (fmap (SawRecord id)) k.
(** [snapshot_room_canonical_hash] of a room the task holds. *)
Definition hash_at room : PM bytes := r ← read (λ s, room_of s room); hash_of_room r.
Definition look {A} room (k : bytes → Task A) : Task A := Act (hash_at room) (λ h, Some (SawHash room h)) k.
Definition entering {A} room (now : Instant) (k : Task A) : Task A := await (modify (enter room now)) (λ _, k).

Definition lineage_task {A} child parent (now : Instant) (k : RoomLineage → Task A) : Task A :=
  let checked l :=
    if decide (ln_parent_room_id l = parent) then k l
    else fail InvalidLineage (bs "child lineage parent_room_id does not match parent_room_id") in
  entering child now
    (await (read (λ s, rm_lineage (room_of s child))) (λ l,
      match l with
      | Some l => checked l
      | None =>
          await (λ s, let '(l, ls) := get_lineage (rs_lineage_store s) child in (set_lineage_store s ls, Ok l)) (λ l,
            match l with
            | None => fail InvalidLineage (bs "child room has no lineage metadata")
            | Some l => await (modify (λ s, set_room s child (with_lineage (room_of s child) (Some l)))) (λ _, checked l)
            end)
      end)).

Definition propose_new_task parent child (child_hash payload_ref : bytes) (key : option bytes) (now : Instant) : Task PromotionProposed :=
  lineage_task child parent now (λ lineage,
  if decide (ln_promotion_policy_id lineage ≠ bs "promotion-based") then fail PolicyDenied (bs "promotion_policy_id is not promotion-based")
  else
    entering child now (look child (λ actual,
    if decide (actual ≠ child_hash) then fail ChildCheckpointMismatch (bs "child canonical_hash does not match child_checkpoint_hash")
    else
      entering parent now (look parent (λ parent_hash,
      let digest := proposal_digest parent child child_hash payload_ref key in
      let id := default digest key in
      lookup_record id (λ existing,
      match existing with
      | Some x =>
          if bool_decide (prd_lifecycle x ≠ Proposed) || bool_decide (prd_parent_room_id x ≠ parent)
          then fail ApplyConflict (bs "proposal_id already used with different inputs")
          else Done (Ok (mkProposed id parent child child_hash payload_ref (prd_proposal_digest x)))
      | None =>
          await (store_insert id (mkPromotionRecord parent child child_hash payload_ref parent_hash None Proposed digest None None None)) (λ _,
          Done (Ok (mkProposed id parent child child_hash payload_ref digest)))
      end)))))).
Definition propose_task (msg : Value) (now : Instant) : Task PromotionProposed :=
  parsed (require_str msg (bs "parent_room_id")) (λ parent,
  parsed (require_str msg (bs "child_room_id")) (λ child,
  parsed (parse_checkpoint_hash msg (bs "child_checkpoint_hash")) (λ child_hash,
  parsed (require_str msg (bs "payload_ref")) (λ payload_ref,
  match non_empty (get_str (bs "idempotency_key") msg) with
  | None => propose_new_task parent child child_hash payload_ref None now
  | Some key =>
      lookup_record key (λ known,
      match known with
      | Some x =>
          if same_proposal x parent child payload_ref then Done (Ok (reported key x))
          else fail ApplyConflict (bs "idempotency_key already used with different inputs")
      | None => propose_new_task parent child child_hash payload_ref (Some key) now
      end)
  end)))).

Definition validate_task (msg : Value) (now : Instant) : Task PromotionValidated :=
  parsed (require_str msg (bs "proposal_id")) (λ id,
  lookup_record id (λ record,
  match record with
  | None => fail PromotionNotFound (bs "proposal not found")
  | Some x =>
      if decide (prd_lifecycle x = Applied) then Done (Ok (mkValidated id (default (prd_proposal_digest x) (prd_validation_digest x))))
      else
        lineage_task (prd_child_room_id x) (prd_parent_room_id x) now (λ _,
        entering (prd_child_room_id x) now (look (prd_child_room_id x) (λ child_hash,
        if decide (child_hash ≠ prd_child_checkpoint_hash x) then fail ChildCheckpointMismatch (bs "child checkpoint changed since proposal")
        else
          entering (prd_parent_room_id x) now (look (prd_parent_room_id x) (λ parent_hash,
          if decide (parent_hash ≠ prd_parent_canonical_hash_at_propose x) then fail StaleParent (bs "parent canonical hash moved since proposal")
          else
            let digest := validation_digest id (prd_proposal_digest x) parent_hash in
            await (store_update id (validated_record x parent_hash digest)) (λ _, Done (Ok (mkValidated id digest))))))))
  end)).

Definition apply_task (sk : SigningKey) (msg : Value) (now : Instant) : Task PromotionApplied :=
  parsed (require_str msg (bs "proposal_id")) (λ id,
  lookup_record id (λ record,
  match record with
  | None => fail PromotionNotFound (bs "proposal not found")
  | Some x =>
      let parent := prd_parent_room_id x in
      if decide (prd_lifecycle x = Applied)
      then Done (Ok (mkApplied id parent (default (prd_parent_canonical_hash_at_propose x) (prd_parent_new_canonical_hash x))
                      (default (AUDIT_KEY_PREFIX ++ id) (prd_audit_key x))))
      else if decide (prd_lifecycle x ≠ Validated) then fail NotValidated (bs "proposal must be validated before apply")
      else
        entering parent now (look parent (λ parent_hash,
        if decide (parent_hash ≠ default (prd_parent_canonical_hash_at_propose x) (prd_parent_canonical_hash_at_validate x))
        then fail StaleParent (bs "parent canonical hash moved since validation")
        else
          let audit_key := AUDIT_KEY_PREFIX ++ id in
          Act (commit_audit_node parent sk audit_key (audit_payload id x)) (λ _, Some (Committed id x)) (λ _,
          look parent (λ new_hash,
          await (store_update id (applied_record x new_hash audit_key)) (λ _,
          Done (Ok (mkApplied id parent new_hash audit_key)))))))
  end)).
End handlers.
Arguments Done {P W A} answer.
Arguments Act {P W A X} m seen k.
