(* ===== verification/Archive.v ===== *)
(** Archives of rooms (core archive_contracts.rs, server archive_adapter.rs and
    archive_export.rs): a signed manifest names a source room; describing, validating,
    importing and exporting go through the persistence of the room.

    Manifest files and the cache of parsed manifests are part of the state.  A file
    that is not a readable text has no contents.  The JSON codec of manifests and of
    checkpoints is a parameter.  Timings and metrics are left out. *)

From S2P Require Import Prelude Str StErr Hex Op Node Policy Frontier Storage Caches CacheFacts Fenwick.
From S2P Require Import TextState Text Graph Replay Compaction Gc GcStore DirStore Persist TopoStore HostTypes HostState Host Room.
From S2P Require Import Replica Profile Registry Wire Topology.

(** ** Contracts (archive_contracts.rs) *)

Inductive ArchiveReasonClass :=
| UnsupportedFormat | ManifestInvalid | DigestMismatch | SignatureInvalid | CheckpointNotFound | PolicyTimelineMismatch.
#[global] Instance ArchiveReasonClass_eq_dec : EqDecision ArchiveReasonClass.
Proof. solve_decision. Defined.
Definition archive_reason_str (c : ArchiveReasonClass) : bytes :=
  match c with
  | UnsupportedFormat => bs "reject.archive_unsupported_format"
  | ManifestInvalid => bs "reject.archive_manifest_invalid"
  | DigestMismatch => bs "reject.archive_digest_mismatch"
  | SignatureInvalid => bs "reject.archive_signature_invalid"
  | CheckpointNotFound => bs "reject.archive_checkpoint_not_found"
  | PolicyTimelineMismatch => bs "reject.archive_policy_timeline_mismatch"
  end.

Record ArchiveCheckpoint := mkArchiveCheckpoint { ac_frontier : list bytes; ac_canonical_hash : bytes }.
Record ArchivePayloadDigestSet := mkDigestSet { ds_nodes : bytes; ds_blobs : bytes }.
Record ArchiveCompatibilityWindow := mkWindow { min_supported : bytes; max_supported : bytes }.
Record ArchiveProvenance := mkProvenance { pr_source_room : bytes; pr_tool : bytes }.
Record ArchiveDescribed := mkDescribed {
  ad_room : bytes; ad_archive_ref : bytes; ad_manifest_id : bytes; ad_format_version : bytes; ad_archive_kind : bytes;
  ad_checkpoint : ArchiveCheckpoint; ad_payload_digest_set : ArchivePayloadDigestSet;
  ad_compatibility_window : option ArchiveCompatibilityWindow; ad_provenance : option ArchiveProvenance;
}.
Record ArchiveValidated := mkArchiveValidated {
  av_room : bytes; av_archive_ref : bytes; av_accepted : bool; av_mode : bytes; av_checks : list bytes;
  av_compatibility_window : option ArchiveCompatibilityWindow;
}.
Record ArchiveRejected := mkArchiveRejected {
  ar_room : bytes; ar_archive_ref : bytes; ar_reason_class : ArchiveReasonClass; ar_reason_message : bytes;
}.
Record ArchiveImported := mkImported {
  ai_room : bytes; ai_archive_ref : bytes; ai_canonical_hash : bytes; ai_checkpoint : ArchiveCheckpoint;
  ai_imported_nodes : Z; ai_imported_blobs : Z;
}.
Record ArchiveExported := mkExported {
  ax_room : bytes; ax_source_room : bytes; ax_archive_ref : bytes; ax_manifest_id : bytes;
  ax_checkpoint : ArchiveCheckpoint; ax_payload_digest_set : ArchivePayloadDigestSet;
  ax_compatibility_window : ArchiveCompatibilityWindow; ax_payload_digest_policy : bytes;
  ax_policy_timeline_hash : bytes; ax_policy_timeline_cutover_lamport : Z; ax_policy_timeline_transition_cutovers : list Z;
}.
Inductive ArchiveWsRequest :=
| ReqDescribe (room archive_ref : bytes)
| ReqValidate (room archive_ref mode : bytes)
| ReqImport (room archive_ref import_mode : bytes) (expected_checkpoint : option ArchiveCheckpoint)
| ReqExport (room source_room archive_ref : bytes).
Inductive ArchiveWsResponse :=
| DescribeResult (r : ArchiveDescribed)
| ValidateResult (r : ArchiveValidated)
| ValidateRejected (r : ArchiveRejected)
| ImportCompleted (r : ArchiveImported)
| ArchiveImportRejected (r : ArchiveRejected)
| ExportResult (r : ArchiveExported)
| ExportRejected (r : ArchiveRejected).

(** ** Manifests *)

Record ExportManifestSignature := mkManifestSignature { ms_public_key : bytes; ms_signature : bytes }.
Record ExportManifestDocument := mkManifestDocument {
  md_format_version : bytes;
  md_source_room : bytes;
  md_checkpoint : ArchiveCheckpoint;
  md_payload_digest_set : ArchivePayloadDigestSet;
  md_compatibility_window : ArchiveCompatibilityWindow;
  md_payload_digest_policy : bytes;
  md_policy_timeline_hash : bytes;
  md_policy_timeline_cutover_lamport : Z;
  md_policy_timeline_transition_cutovers : list Z;
  md_signature : ExportManifestSignature;
}.
(** What the importer reads of it: neither the checkpoint nor the digests. *)
Record ExternalArchiveManifest := mkManifest {
  em_format_version : bytes;
  em_source_room : bytes;
  em_compatibility_window : ArchiveCompatibilityWindow;
  em_payload_digest_policy : bytes;
  em_policy_timeline_hash : bytes;
  em_policy_timeline_cutover_lamport : Z;
  em_policy_timeline_transition_cutovers : list Z;
  em_signature : option ExportManifestSignature;
}.
Definition read_of (d : ExportManifestDocument) : ExternalArchiveManifest :=
  mkManifest (md_format_version d) (md_source_room d) (md_compatibility_window d) (md_payload_digest_policy d)
    (md_policy_timeline_hash d) (md_policy_timeline_cutover_lamport d) (md_policy_timeline_transition_cutovers d)
    (Some (md_signature d)).

Class ManifestJson := {
  manifest_print : ExportManifestDocument → bytes;
  manifest_parse : bytes → option ExternalArchiveManifest;
  checkpoint_from_value : Value → option ArchiveCheckpoint;
}.
Class ManifestJsonLaws `{ManifestJson} :=
  manifest_parse_print : ∀ d, manifest_parse (manifest_print d) = Some (read_of d).

Definition EXPORT_FORMAT_VERSION : bytes := bs "1".
Definition EXPORT_COMPAT_MIN_SUPPORTED : bytes := bs "1".
Definition EXPORT_COMPAT_MAX_SUPPORTED : bytes := bs "2".
Definition EXPORT_DIGEST_POLICY_STRICT_SHA256_V1 : bytes := bs "strict_sha256_v1".

Record PolicyTimelineParityMetadata := mkParity { hash_hex : bytes; cutover_lamport : Z; transition_cutovers : list Z }.

(** The text that is signed: the checkpoint and the digests are not part of it. *)
Definition signature_payload (format_version source_room : bytes) (window : ArchiveCompatibilityWindow)
    (payload_digest_policy policy_timeline_hash_hex : bytes) (cutover : Z) (cutovers : list Z) : bytes :=
  bs "format_version=" ++ format_version ++ bs "|source_room=" ++ source_room ++
  bs "|min_supported=" ++ min_supported window ++ bs "|max_supported=" ++ max_supported window ++
  bs "|payload_digest_policy=" ++ payload_digest_policy ++ bs "|policy_timeline_hash=" ++ policy_timeline_hash_hex ++
  bs "|policy_timeline_cutover_lamport=" ++ decimal cutover ++
  bs "|policy_timeline_transition_cutovers=" ++ join (bs ",") (decimal <$> cutovers).
Definition external_manifest_signature_payload (m : ExternalArchiveManifest) : bytes :=
  let cutovers := join (bs ",") (decimal <$> em_policy_timeline_transition_cutovers m) in
  bs "format_version=" ++ em_format_version m ++ bs "|source_room=" ++ em_source_room m ++
  bs "|min_supported=" ++ min_supported (em_compatibility_window m) ++
  bs "|max_supported=" ++ max_supported (em_compatibility_window m) ++
  bs "|payload_digest_policy=" ++ em_payload_digest_policy m ++ bs "|policy_timeline_hash=" ++ em_policy_timeline_hash m ++
  bs "|policy_timeline_cutover_lamport=" ++ decimal (em_policy_timeline_cutover_lamport m) ++
  (if bool_decide (cutovers = []) then [] else bs "|policy_timeline_transition_cutovers=" ++ cutovers).

(** ** Versions and references *)

Definition parse_format_version (version : bytes) : option Z :=
  n ← parse_u64 (utrim version); if n <=? u32_max then Some n else None.
Definition parse_compatibility_window_range (lo hi : bytes) : option (Z * Z) :=
  min ← parse_format_version lo; max ← parse_format_version hi; if max <? min then None else Some (min, max).
Definition ranges_overlap (a b : Z * Z) : bool := (a.1 <=? b.2) && (b.1 <=? a.2).
Definition range_contains (a : Z * Z) (n : Z) : bool := (a.1 <=? n) && (n <=? a.2).

(** The window of this version, and the version itself. *)
Definition runtime_window : Z * Z := (1, 2).
Definition runtime_version : Z := 1.

Definition decode_hex_exact (input : bytes) (expected_len : nat) : option bytes := hex_to_array expected_len (utrim input).

Inductive ArchiveSourceRef :=
| SourceRoom (source_room : bytes)
| FileManifest (path : bytes)
| ObjectManifest (bucket key : bytes).

(** [splitn(2, '/')]: the text before the first slash, and what follows it. *)
Fixpoint split_first (sep : Z) (s : bytes) : bytes * option bytes :=
  match s with
  | [] => ([], None)
  | c :: s' => if c =? sep then ([], Some s') else let '(a, b) := split_first sep s' in (c :: a, b)
  end.
Definition parse_archive_ref (archive_ref : bytes) : result ArchiveReasonClass ArchiveSourceRef :=
  match strip_prefix (bs "room://") archive_ref with
  | Some room => let source_room := utrim room in if bool_decide (source_room = []) then Err ManifestInvalid else Ok (SourceRoom source_room)
  | None =>
      match strip_prefix (bs "file://") archive_ref with
      | Some path_text =>
          let path_text := utrim path_text in
          if bool_decide (path_text = []) then Err ManifestInvalid
          else
            Ok (FileManifest match path_text with
                             | c :: ((_ :: d :: _) as rest) => if (c =? 47) && (d =? 58) then rest else path_text
                             | _ => path_text
                             end)
      | None =>
          match strip_prefix (bs "object://") archive_ref with
          | Some ref_text =>
              let '(bucket, key) := split_first 47 (utrim ref_text) in
              let bucket := utrim bucket in let key := utrim (default [] key) in
              if bool_decide (bucket = []) || bool_decide (key = []) then Err ManifestInvalid else Ok (ObjectManifest bucket key)
          | None => Err UnsupportedFormat
          end
      end
  end.

(** [Path::join] on a Unix system: an absolute second path replaces the first. *)
Definition path_join (base rest : bytes) : bytes :=
  match rest with
  | 47 :: _ => rest
  | _ => if bool_decide (base = []) || bool_decide (last base = Some 47) then base ++ rest else base ++ bs "/" ++ rest
  end.
Definition object_path (root bucket key : bytes) : bytes := path_join (path_join root bucket) key.

(** ** Manifest files and their cache *)

Record ManifestCacheRevision := mkRevision { len_bytes : Z; modified_unix_nanos : Z }.
#[global] Instance ManifestCacheRevision_eq_dec : EqDecision ManifestCacheRevision.
Proof. solve_decision. Defined.
Record ExternalManifestMetadata := mkManifestMeta {
  mm_source_room : bytes;
  mm_policy_timeline_hash : option bytes;
  mm_policy_timeline_cutover_lamport : option Z;
  mm_policy_timeline_transition_cutovers : option (list Z);
}.
Record CachedExternalManifestMetadata := mkCachedManifest { cm_revision : ManifestCacheRevision; cm_metadata : ExternalManifestMetadata }.

(** A file: its text, and its length and time stamp where the system tells them. *)
Record ManifestFile := mkManifestFile { mf_text : option bytes; mf_revision : option ManifestCacheRevision }.
Record ArchiveIo := mkArchiveIo {
  io_object_root : option bytes;
  io_files : gmap bytes ManifestFile;
  io_cache : gmap bytes CachedExternalManifestMetadata;
}.
Definition with_cache (io : ArchiveIo) (c : gmap bytes CachedExternalManifestMetadata) : ArchiveIo :=
  mkArchiveIo (io_object_root io) (io_files io) c.
Definition with_files (io : ArchiveIo) (f : gmap bytes ManifestFile) : ArchiveIo :=
  mkArchiveIo (io_object_root io) f (io_cache io).

Definition manifest_file_revision (io : ArchiveIo) (path : bytes) : option ManifestCacheRevision := io_files io !! path ≫= mf_revision.
Definition load_cached_external_manifest_metadata (io : ArchiveIo) (path : bytes) (revision : option ManifestCacheRevision) :
    option ExternalManifestMetadata :=
  revision ← revision; cached ← io_cache io !! path;
  if bool_decide (cm_revision cached = revision) then Some (cm_metadata cached) else None.
Definition cache_external_manifest_metadata (io : ArchiveIo) (path : bytes) (revision : option ManifestCacheRevision)
    (metadata : ExternalManifestMetadata) : ArchiveIo :=
  match revision with None => io | Some revision => with_cache io (<[path := mkCachedManifest revision metadata]> (io_cache io)) end.
Definition resolve_object_manifest_path (io : ArchiveIo) (bucket key : bytes) : option bytes :=
  (λ root, object_path root bucket key) <$> io_object_root io.

(** The outcome of creating directories and writing a file is an argument: the error,
    or the time stamp of the new file. *)
Definition write_file_manifest `{ManifestJson} (io : ArchiveIo) (path : bytes) (d : ExportManifestDocument)
    (outcome : result bytes Z) : ArchiveIo * result bytes unit :=
  match outcome with
  | Err e => (io, Err e)
  | Ok now =>
      let body := manifest_print d in
      (with_files io (<[path := mkManifestFile (Some body) (Some (mkRevision (Z.of_nat (length body)) now))]> (io_files io)), Ok tt)
  end.
Definition write_object_manifest `{ManifestJson} (io : ArchiveIo) (root bucket key : bytes) (d : ExportManifestDocument)
    (outcome : result bytes Z) : ArchiveIo * result bytes unit :=
  write_file_manifest io (object_path root bucket key) d outcome.

Definition rejected (room archive_ref : bytes) (c : ArchiveReasonClass) (m : bytes) : ArchiveRejected := mkArchiveRejected room archive_ref c m.

Fixpoint strictly_increasing (l : list Z) : bool :=
  match l with
  | x :: ((y :: _) as l') => (x <? y) && strictly_increasing l'
  | _ => true
  end.

Section manifest.
Context `{Ed25519, ManifestJson}.

Definition verify_external_manifest_signature (m : ExternalArchiveManifest) : result bytes unit :=
  match em_signature m with
  | None => Err (bs "external archive manifest signature is required")
  | Some sig =>
      match decode_hex_exact (ms_public_key sig) 32, decode_hex_exact (ms_signature sig) 64 with
      | None, _ => Err (bs "external manifest public key hex is invalid")
      | _, None => Err (bs "external manifest signature hex is invalid")
      | Some vk, Some s =>
          if negb (ed_vk_ok vk) then Err (bs "external manifest public key decode failed")
          else if ed_verify vk (external_manifest_signature_payload m) s then Ok tt
          else Err (bs "external manifest signature verification failed")
      end
  end.

(** The checks on a parsed manifest, in order. *)
Definition check_manifest (m : ExternalArchiveManifest) : result (ArchiveReasonClass * bytes) ExternalManifestMetadata :=
  if negb (bool_decide (utrim (em_format_version m) = EXPORT_FORMAT_VERSION)) then
    Err (UnsupportedFormat, bs "external archive manifest format_version is unsupported")
  else
    match parse_compatibility_window_range (utrim (min_supported (em_compatibility_window m)))
            (utrim (max_supported (em_compatibility_window m))) with
    | None => Err (ManifestInvalid, bs "external archive manifest compatibility_window is invalid")
    | Some window =>
        if negb (ranges_overlap window runtime_window) || negb (range_contains window runtime_version) then
          Err (UnsupportedFormat, bs "external archive manifest compatibility_window is unsupported by runtime")
        else if bool_decide (utrim (em_policy_timeline_hash m) = []) then
          Err (ManifestInvalid, bs "external archive manifest policy_timeline_hash is required")
        else if negb (bool_decide (utrim (em_payload_digest_policy m) = EXPORT_DIGEST_POLICY_STRICT_SHA256_V1)) then
          Err (PolicyTimelineMismatch, bs "external archive manifest payload_digest_policy is unsupported")
        else
          match verify_external_manifest_signature m with
          | Err e => Err (SignatureInvalid, e)
          | Ok _ =>
              let source_room := utrim (em_source_room m) in
              if bool_decide (source_room = []) then Err (ManifestInvalid, bs "external archive manifest source_room is required")
              else if bool_decide (em_policy_timeline_transition_cutovers m = []) then
                Err (ManifestInvalid, bs "external archive manifest policy_timeline_transition_cutovers is required")
              else if negb (strictly_increasing (em_policy_timeline_transition_cutovers m)) then
                Err (ManifestInvalid, bs "external archive manifest policy_timeline_transition_cutovers must be strictly increasing")
              else if negb (bool_decide (last (em_policy_timeline_transition_cutovers m) = Some (em_policy_timeline_cutover_lamport m))) then
                Err (ManifestInvalid, bs "external archive manifest policy_timeline_transition_cutovers must end at policy_timeline_cutover_lamport")
              else
                Ok (mkManifestMeta source_room (Some (utrim (em_policy_timeline_hash m)))
                      (Some (em_policy_timeline_cutover_lamport m)) (Some (em_policy_timeline_transition_cutovers m)))
          end
    end.

Definition load_external_manifest_source_room (io : ArchiveIo) (path current_room_id archive_ref : bytes) :
    ArchiveIo * result ArchiveRejected ExternalManifestMetadata :=
  let revision := manifest_file_revision io path in
  match load_cached_external_manifest_metadata io path revision with
  | Some cached => (io, Ok cached)
  | None =>
      match io_files io !! path ≫= mf_text with
      | None => (io, Err (rejected current_room_id archive_ref CheckpointNotFound (bs "external archive manifest was not found")))
      | Some raw =>
          match manifest_parse raw with
          | None => (io, Err (rejected current_room_id archive_ref ManifestInvalid (bs "external archive manifest is invalid")))
          | Some m =>
              match check_manifest m with
              | Err (c, e) => (io, Err (rejected current_room_id archive_ref c e))
              | Ok metadata => (cache_external_manifest_metadata io path revision metadata, Ok metadata)
              end
          end
      end
  end.
End manifest.

(** ** Requests *)

Definition archive_ref_of (message : Value) : bytes := utrim (text_at "archive_ref" message).
Definition request_room (current_room_id : bytes) (message : Value) : bytes := default current_room_id (str_at "room" message).
Definition missing_field (current_room_id m : bytes) : ArchiveRejected := rejected current_room_id [] ManifestInvalid m.

Definition parse_archive_describe_request (current_room_id : bytes) (message : Value) : result ArchiveRejected ArchiveWsRequest :=
  let archive_ref := archive_ref_of message in
  if bool_decide (archive_ref = []) then Err (missing_field current_room_id (bs "missing archive_ref"))
  else Ok (ReqDescribe (request_room current_room_id message) archive_ref).
Definition parse_archive_validate_request (current_room_id : bytes) (message : Value) : result ArchiveRejected ArchiveWsRequest :=
  let archive_ref := archive_ref_of message in
  if bool_decide (archive_ref = []) then Err (missing_field current_room_id (bs "missing archive_ref"))
  else Ok (ReqValidate (request_room current_room_id message) archive_ref (default (bs "metadata_only") (str_at "mode" message))).
Definition parse_archive_import_request `{ManifestJson} (current_room_id : bytes) (message : Value) : result ArchiveRejected ArchiveWsRequest :=
  let archive_ref := archive_ref_of message in
  if bool_decide (archive_ref = []) then Err (missing_field current_room_id (bs "missing archive_ref"))
  else Ok (ReqImport (request_room current_room_id message) archive_ref (default (bs "full_apply") (str_at "import_mode" message))
             (jget (bs "expected_checkpoint") message ≫= checkpoint_from_value)).
Definition parse_archive_export_request (current_room_id : bytes) (message : Value) : result ArchiveRejected ArchiveWsRequest :=
  let source_room := utrim (default current_room_id (str_at "source_room" message)) in
  if bool_decide (source_room = []) then Err (missing_field current_room_id (bs "missing source_room"))
  else
    let archive_ref := archive_ref_of message in
    if bool_decide (archive_ref = []) then Err (missing_field current_room_id (bs "missing archive_ref"))
    else Ok (ReqExport (request_room current_room_id message) source_room archive_ref).

(** The text of an error of [import_nodes] and of a failed blob write. *)
Definition import_error_str (e : ImportError) : bytes :=
  match e with
  | ImportRejected e => sync_error_str e
  | ImportUnresolved n => bs "missing_parent: " ++ decimal n ++ bs " node(s) unresolved"
  end.
Definition persist_error_str (e : PersistBlobError) : bytes :=
  match e with
  | PersistBackend m => bs "blob write failed: " ++ m
  | PersistUnavailable m => bs "blob backend unavailable (write not confirmed): " ++ m
  end.

(** ** Operations *)

Inductive BlobBytesNeed := BytesRequired | BytesNotNeeded.
#[global] Instance BlobBytesNeed_eq_dec : EqDecision BlobBytesNeed.
Proof. solve_decision. Defined.

Record LoadedArchive := mkLoaded {
  la_source_room : bytes;
  la_timeline_hash : option bytes;
  la_timeline_cutover : option Z;
  la_timeline_transitions : option (list Z);
  la_nodes : list SyncNode;
  la_blobs : list (Hash * bytes);
  la_checkpoint_hash : option bytes;
  la_frontier : list bytes;
  la_nodes_digest : option bytes;
  la_blobs_digest : option bytes;
}.

Definition policy_timeline_metadata_for_timeline `{Blake3, Postcard (list PolicyTimelineEntry)} (timeline : list PolicyTimelineEntry) :
    PolicyTimelineParityMetadata :=
  let sorted := sort_timeline (match timeline with [] => [mkEntry 0 policy_default] | _ => timeline end) in
  let cutover := default 0 (policy_timeline_cutover_lamport sorted) in
  let cutovers := dedup (effective_lamport <$> sorted) in
  let cutovers := match cutovers with [] => [0] | _ => cutovers end in
  mkParity (to_hex (policy_timeline_hash sorted)) cutover (if cutover =? 0 then [0] else cutovers).
Definition policy_timeline_metadata_for_policy `{Blake3, Postcard (list PolicyTimelineEntry)} (p : Policy) : PolicyTimelineParityMetadata :=
  policy_timeline_metadata_for_timeline [mkEntry 0 p].
Definition policy_timeline_hash_hex_for_policy `{Blake3, Postcard (list PolicyTimelineEntry)} (p : Policy) : bytes :=
  hash_hex (policy_timeline_metadata_for_policy p).

Section operations.
Context `{Blake3, Postcard Transaction, Ed25519, Postcard (list WireNode), Postcard (list PolicyTimelineEntry), Postcard (list Hash)}.
Context `{ManifestJson} {P : Type} `{NodePersistence P, BlobPersistence P}.
(** The [Debug] name of the backend, for its error texts. *)
Context (backend : bytes).

(** What an operation of a room reaches. *)
Abbreviation World := (Room * P * ArchiveIo)%type.
Abbreviation AM := (SE World ArchiveRejected).
Definition world_p (w : World) : P := w.1.2.
Definition set_p (w : World) (p : P) : World := (w.1.1, p, w.2).
Definition set_io (w : World) (io : ArchiveIo) : World := (w.1, io).

(** *** Blobs and digests (archive_export.rs)

    The order of a hash set decides only which of several errors is reported. *)

Fixpoint resolve_loop (hashes : list Hash) (p : P) : result bytes (list (Hash * bytes)) * P :=
  match hashes with
  | [] => (Ok [], p)
  | h :: hashes =>
      let '(r, p) := hydrate_blob backend h p in
      match r with
      | Ok b =>
          let '(r, p) := resolve_loop hashes p in
          (match r with Ok l => Ok ((h, b) :: l) | Err e => Err e end, p)
      | Err HydrateMissing => resolve_loop hashes p
      | Err (Unhydratable backend detail) =>
          (Err (bs "DEPLOYMENT CONFIGURATION: archive export cannot hydrate referenced blob " ++ to_hex h ++
                bs ": this server's blob backend (" ++ backend ++
                bs ") can never read blob bytes into the server process, so the export's blobs digest would be computed over an incomplete set and would not match a Dir-backed peer's digest for the same room. This is a configuration fact, not data loss " ++
                [226; 128; 148] ++ bs " the object is very likely intact in the bucket. Backend detail: " ++ detail), p)
      | Err (HydrateBackend detail) =>
          (Err (bs "referenced blob " ++ to_hex h ++ bs " could not be read from the blob backend: " ++ detail ++
                bs ". The export was aborted rather than sign a digest over an incomplete blob set; this is retryable"), p)
      end
  end.
Definition resolve_referenced_blobs (nodes : list SyncNode) (p : P) : result bytes (list (Hash * bytes)) * P :=
  resolve_loop (elements (blob_hashes_referenced_by nodes)) p.

Definition blobs_digest (blobs : list (Hash * bytes)) : bytes :=
  bs "sha256:" ++ to_hex (canonical_hash (list_to_map (prod_map to_hex id <$> reverse blobs))).
Definition blobs_digest_for_referenced (nodes : list SyncNode) (p : P) : result bytes bytes * P :=
  let '(r, p) := resolve_referenced_blobs nodes p in
  (match r with Ok blobs => Ok (blobs_digest blobs) | Err e => Err e end, p).
Definition nodes_digest_for_nodes (nodes : list SyncNode) : bytes := bs "sha256:" ++ to_hex (hash_of (pack_nodes nodes)).
Definition checkpoint_hash_for_nodes (nodes : list SyncNode) : result bytes bytes :=
  match replay (T := TextProjection) nodes None with
  | Ok st => Ok (to_hex (canonical_hash (rs_map st)))
  | Err _ => Err (bs "persisted nodes could not be replayed")
  end.
Definition sort_by_id (nodes : list SyncNode) : list SyncNode := sort_by_key node_id nodes.
Definition seq_frontier (nodes : list SyncNode) : list bytes := [bs "seq:" ++ decimal (Z.of_nat (length nodes))].

Definition build_external_manifest_document (source_room : bytes) (sk : SigningKey) (parity : PolicyTimelineParityMetadata) (p : P) :
    result bytes ExportManifestDocument * P :=
  let '(nodes, p) := np_load_room_nodes P source_room p in
  match nodes with
  | [] => (Err (bs "archive source room has no persisted nodes"), p)
  | _ =>
      let nodes := sort_by_id nodes in
      match checkpoint_hash_for_nodes nodes with
      | Err e => (Err e, p)
      | Ok checkpoint_hash =>
          let '(digest, p) := blobs_digest_for_referenced nodes p in
          match digest with
          | Err e => (Err e, p)
          | Ok blobs_digest =>
              let window := mkWindow EXPORT_COMPAT_MIN_SUPPORTED EXPORT_COMPAT_MAX_SUPPORTED in
              let payload := signature_payload EXPORT_FORMAT_VERSION source_room window EXPORT_DIGEST_POLICY_STRICT_SHA256_V1
                               (hash_hex parity) (cutover_lamport parity) (transition_cutovers parity) in
              (Ok (mkManifestDocument EXPORT_FORMAT_VERSION source_room
                     (mkArchiveCheckpoint (seq_frontier nodes) checkpoint_hash)
                     (mkDigestSet (nodes_digest_for_nodes nodes) blobs_digest) window EXPORT_DIGEST_POLICY_STRICT_SHA256_V1
                     (hash_hex parity) (cutover_lamport parity) (transition_cutovers parity)
                     (mkManifestSignature (to_hex (ed_verifying_key sk)) (to_hex (ed_sign sk payload)))), p)
          end
      end
  end.
Definition current_room_policy_timeline_metadata (r : Room) : PolicyTimelineParityMetadata :=
  policy_timeline_metadata_for_timeline (current_policy_timeline r).

(** *** Loading *)

Definition refuse {A} (room archive_ref : bytes) (c : ArchiveReasonClass) (m : bytes) : AM A := throw (rejected room archive_ref c m).

Definition load_manifest (path room archive_ref : bytes) : AM ExternalManifestMetadata := λ w,
  let '(io, r) := load_external_manifest_source_room w.2 path room archive_ref in (set_io w io, r).
Definition source_of (room archive_ref : bytes) : AM ExternalManifestMetadata :=
  match parse_archive_ref archive_ref with
  | Err c => refuse room archive_ref c (bs "unsupported archive reference format")
  | Ok (SourceRoom source_room) => mret (mkManifestMeta source_room None None None)
  | Ok (FileManifest path) => load_manifest path room archive_ref
  | Ok (ObjectManifest bucket key) =>
      path ← read (λ w : World, resolve_object_manifest_path w.2 bucket key);
      match path with
      | None => refuse room archive_ref CheckpointNotFound (bs "object archive root is not configured")
      | Some path => load_manifest path room archive_ref
      end
  end.
Definition load_nodes (source_room : bytes) : AM (list SyncNode) := λ w,
  let '(nodes, p) := np_load_room_nodes P source_room (world_p w) in (set_p w p, Ok nodes).
Definition load_blobs_of (room archive_ref : bytes) (nodes : list SyncNode) : AM (list (Hash * bytes)) := λ w,
  let '(r, p) := resolve_referenced_blobs nodes (world_p w) in
  (set_p w p, match r with Ok l => Ok l | Err m => Err (rejected room archive_ref CheckpointNotFound m) end).

Definition load_archive_from_ref (room archive_ref : bytes) (include_summary_digests : bool) (need : BlobBytesNeed) : AM LoadedArchive :=
  meta ← source_of room archive_ref;
  nodes ← load_nodes (mm_source_room meta);
  match nodes with
  | [] => refuse room archive_ref CheckpointNotFound (bs "archive source room has no persisted nodes")
  | _ =>
      let nodes := sort_by_id nodes in
      let want_blob_bytes := include_summary_digests || bool_decide (need = BytesRequired) in
      blobs ← (if want_blob_bytes then load_blobs_of room archive_ref nodes else mret []);
      digests ← (if include_summary_digests then
                   match replay (T := TextProjection) nodes None with
                   | Err _ => refuse room archive_ref ManifestInvalid (bs "persisted archive nodes could not be replayed")
                   | Ok st => mret (Some (to_hex (canonical_hash (rs_map st))), Some (nodes_digest_for_nodes nodes), Some (blobs_digest blobs))
                   end
                 else mret (None, None, None));
      let '(checkpoint_hash, nodes_digest, blobs_digest) := digests in
      mret (mkLoaded (mm_source_room meta) (mm_policy_timeline_hash meta) (mm_policy_timeline_cutover_lamport meta)
              (mm_policy_timeline_transition_cutovers meta) nodes blobs checkpoint_hash (seq_frontier nodes) nodes_digest blobs_digest)
  end.

(** *** The handlers *)

Definition manifest_id (room checkpoint_hash : bytes) : bytes := bs "m." ++ room ++ bs "." ++ take 12 checkpoint_hash.
Definition described_window : ArchiveCompatibilityWindow := mkWindow (bs "1") (bs "1").

Definition process_archive_describe (room : bytes) (message : Value) : AM ArchiveWsResponse :=
  match parse_archive_describe_request room message with
  | Ok (ReqDescribe _ archive_ref) =>
      loaded ← load_archive_from_ref room archive_ref true BytesRequired;
      let checkpoint_hash := default [] (la_checkpoint_hash loaded) in
      mret (DescribeResult (mkDescribed room archive_ref (manifest_id (la_source_room loaded) checkpoint_hash) (bs "1") (bs "full_clone")
              (mkArchiveCheckpoint (la_frontier loaded) checkpoint_hash)
              (mkDigestSet (default [] (la_nodes_digest loaded)) (default [] (la_blobs_digest loaded)))
              (Some described_window) (Some (mkProvenance (la_source_room loaded) (bs "server-archive-adapter")))))
  | Ok _ => throw (missing_field room [])
  | Err e => throw e
  end.

(** The comparison of the manifest's policy timeline with the room's. *)
Definition timeline_check (room archive_ref : bytes) (loaded : LoadedArchive) : AM unit :=
  match la_timeline_hash loaded, la_timeline_cutover loaded with
  | Some h, Some c =>
      current ← read (λ w : World, current_room_policy_timeline_metadata w.1.1);
      if negb (bool_decide (h = hash_hex current)) || negb (c =? cutover_lamport current) then
        refuse room archive_ref PolicyTimelineMismatch
          (bs "external archive manifest policy timeline parity metadata mismatches target room policy")
      else
        match la_timeline_transitions loaded with
        | Some t =>
            if bool_decide (t = transition_cutovers current) then mret tt
            else refuse room archive_ref PolicyTimelineMismatch
                   (bs "external archive manifest policy timeline transition metadata mismatches target room policy")
        | None => mret tt
        end
  | _, _ => mret tt
  end.

Definition validate_loaded (room archive_ref mode : bytes) : AM ArchiveValidated :=
  if negb (bool_decide (mode = bs "metadata_only")) && negb (bool_decide (mode = bs "full_integrity")) then
    refuse room archive_ref ManifestInvalid (bs "unsupported validate mode")
  else
    loaded ← load_archive_from_ref room archive_ref false BytesNotNeeded;
    _ ← timeline_check room archive_ref loaded;
    if bool_decide (mode = bs "full_integrity") && existsb (λ hb, negb (bool_decide (hash_of hb.2 = hb.1))) (la_blobs loaded) then
      refuse room archive_ref DigestMismatch (bs "blob digest verification failed")
    else
      mret (mkArchiveValidated room archive_ref true mode
              (if bool_decide (mode = bs "full_integrity")
               then [bs "manifest"; bs "compatibility"; bs "digest_set"; bs "checkpoint"; bs "policy_timeline"]
               else [bs "manifest"; bs "compatibility"])
              (Some described_window)).
Definition process_archive_validate (room : bytes) (message : Value) (w : World) : World * ArchiveWsResponse :=
  match parse_archive_validate_request room message with
  | Err e => (w, ValidateRejected e)
  | Ok (ReqValidate _ archive_ref mode) =>
      let '(w, r) := validate_loaded room archive_ref mode w in
      (w, match r with Ok v => ValidateResult v | Err e => ValidateRejected e end)
  | Ok _ => (w, ValidateRejected (missing_field room []))
  end.

Definition import_into_room (room : bytes) (nodes : list SyncNode) (now_ms : Z) : AM (list NodeId * list ImportError) := λ w,
  let '(r, p, res) := room_import_nodes w.1.1 room (world_p w) nodes now_ms in ((r, p, w.2), Ok res).
Definition persist_archive_blob (room archive_ref : bytes) (_ : unit) (hb : Hash * bytes) : AM unit := λ w,
  let '(p, r) := bp_persist_blob P hb.1 hb.2 (world_p w) in
  match r with
  | Err e => (set_p w p, Err (rejected room archive_ref CheckpointNotFound
                               (bs "archive import could not persist blob " ++ to_hex hb.1 ++ bs ": " ++ persist_error_str e)))
  | Ok _ => ((with_room_blobs w.1.1 (blob_put (rm_blobs w.1.1) hb.2).1, p, w.2), Ok tt)
  end.
Definition import_loaded (room archive_ref import_mode : bytes) (expected : option ArchiveCheckpoint) (now_ms : Z) : AM ArchiveImported :=
  if negb (bool_decide (import_mode = bs "full_apply")) && negb (bool_decide (import_mode = bs "metadata_only")) then
    refuse room archive_ref ManifestInvalid (bs "unsupported import mode")
  else
    loaded ← load_archive_from_ref room archive_ref false
               (if bool_decide (import_mode = bs "full_apply") then BytesRequired else BytesNotNeeded);
    _ ← timeline_check room archive_ref loaded;
    res ← import_into_room room (la_nodes loaded) now_ms;
    match res.2 with
    | _ :: _ =>
        refuse room archive_ref ManifestInvalid
          (bs "import node verification failed: " ++ join (bs "; ") (import_error_str <$> res.2))
    | [] =>
        _ ← (if bool_decide (import_mode = bs "metadata_only") then mret tt
             else for_each (la_blobs loaded) (persist_archive_blob room archive_ref) tt);
        let imported_blobs := if bool_decide (import_mode = bs "metadata_only") then 0 else Z.of_nat (length (la_blobs loaded)) in
        h ← read (λ w : World, to_hex (canonical_hash (resolve (rm_graph w.1.1))));
        if from_option (λ e, negb (bool_decide (ac_canonical_hash e = h))) false expected then
          refuse room archive_ref DigestMismatch (bs "expected checkpoint canonical hash mismatch")
        else
          mret (mkImported room archive_ref h (mkArchiveCheckpoint (la_frontier loaded) h) (Z.of_nat (length res.1)) imported_blobs)
    end.
Definition process_archive_import (room : bytes) (message : Value) (now_ms : Z) (w : World) : World * ArchiveWsResponse :=
  match parse_archive_import_request room message with
  | Err e => (w, ArchiveImportRejected e)
  | Ok (ReqImport _ archive_ref import_mode expected) =>
      let '(w, r) := import_loaded room archive_ref import_mode expected now_ms w in
      (w, match r with Ok v => ImportCompleted v | Err e => ArchiveImportRejected e end)
  | Ok _ => (w, ArchiveImportRejected (missing_field room []))
  end.

Definition write_manifest (room archive_ref : bytes) (d : ExportManifestDocument) (outcome : result bytes Z) : AM (result bytes unit) := λ w,
  match parse_archive_ref archive_ref with
  | Ok (FileManifest path) => let '(io, r) := write_file_manifest w.2 path d outcome in (set_io w io, Ok r)
  | Ok (ObjectManifest bucket key) =>
      match io_object_root w.2 with
      | None => (w, Err (rejected room archive_ref CheckpointNotFound (bs "object archive root is not configured")))
      | Some root => let '(io, r) := write_object_manifest w.2 root bucket key d outcome in (set_io w io, Ok r)
      end
  | Ok (SourceRoom _) | Err _ =>
      (w, Err (rejected room archive_ref UnsupportedFormat (bs "archive.export destination must be file:// or object://")))
  end.
Definition export_room (room source_room archive_ref : bytes) (sk : SigningKey) (outcome : result bytes Z) : AM ArchiveExported :=
  parity ← read (λ w : World, current_room_policy_timeline_metadata w.1.1);
  manifest ← (λ w : World, let '(r, p) := build_external_manifest_document source_room sk parity (world_p w) in
                           (set_p w p, match r with
                                       | Ok d => Ok d
                                       | Err m => Err (rejected room archive_ref CheckpointNotFound m)
                                       end));
  written ← write_manifest room archive_ref manifest outcome;
  match written with
  | Err m => refuse room archive_ref ManifestInvalid (bs "failed to write archive manifest: " ++ m)
  | Ok _ =>
      mret (mkExported room source_room archive_ref (manifest_id source_room (ac_canonical_hash (md_checkpoint manifest)))
              (md_checkpoint manifest) (md_payload_digest_set manifest) (md_compatibility_window manifest)
              (md_payload_digest_policy manifest) (md_policy_timeline_hash manifest)
              (md_policy_timeline_cutover_lamport manifest) (md_policy_timeline_transition_cutovers manifest))
  end.
Definition process_archive_export (room : bytes) (message : Value) (sk : SigningKey) (outcome : result bytes Z) (w : World) :
    World * ArchiveWsResponse :=
  match parse_archive_export_request room message with
  | Err e => (w, ExportRejected e)
  | Ok (ReqExport _ source_room archive_ref) =>
      let '(w, r) := export_room room source_room archive_ref sk outcome w in
      (w, match r with Ok v => ExportResult v | Err e => ExportRejected e end)
  | Ok _ => (w, ExportRejected (missing_field room []))
  end.
End operations.

(** ** Exported archives *)

(** Trimming keeps a text of printable characters. *)
Definition printable (c : Z) : Prop := 33 <= c <= 126.
Lemma strip_any_printable codes s :
  Forall (λ c, match c with b :: _ => ¬ printable b | [] => False end) codes → Forall printable s → strip_any codes s = None.
Proof.
  intros Hc Hs. unfold strip_any. replace (omap _ codes) with (@nil bytes); [done|]. symmetry.
  induction Hc as [|c codes Hc _ IH]; [done|]. cbn [omap list_omap]. replace (strip_prefix c s) with (@None bytes); [done|].
  unfold strip_prefix. case_decide as Hp; [|done]. destruct Hp as [k ->]. destruct c as [|b c]; [done|]. by apply Forall_cons in Hs as [? _].
Qed.
Lemma strip_all_printable fuel codes s :
  Forall (λ c, match c with b :: _ => ¬ printable b | [] => False end) codes → Forall printable s → strip_all fuel codes s = s.
Proof. intros Hc Hs. destruct fuel; [done|]. cbn. by rewrite strip_any_printable. Qed.
Lemma utrim_printable s : Forall printable s → utrim s = s.
Proof.
  intros Hs. unfold utrim. cbv zeta. rewrite (strip_all_printable _ white_space) by
    (done || (repeat (apply Forall_cons; split; [unfold printable; lia|]); apply Forall_nil; done)).
  rewrite strip_all_printable; [apply reverse_involutive| |by apply Forall_reverse].
  cbn. repeat (apply Forall_cons; split; [unfold printable; lia|]). by apply Forall_nil.
Qed.
Lemma hex_printable b : Forall is_u8 b → Forall printable (to_hex b).
Proof.
  induction 1 as [|x b Hx _ IH]; [constructor|]. unfold is_u8 in Hx. change (to_hex (x :: b)) with (hex_byte x ++ to_hex b).
  assert (∀ n, 0 <= n < 16 → printable (hex_char n)) as Hc.
  { intros n Hn. unfold printable, hex_char. destruct (n <? 10) eqn:E; lia. }
  apply Forall_app. split; [|done]. repeat constructor; apply Hc; Z.to_euclidean_division_equations; lia.
Qed.

(** The transition cutovers of a timeline increase and end at its last cutover. *)
Lemma increasing_sorted l : StronglySorted ord_lt l → strictly_increasing l = true.
Proof.
  induction 1 as [|x l Hs IH Hx]; [done|]. destruct l as [|y l]; [done|]. cbn. apply andb_true_intro. split; [|exact IH].
  apply Forall_cons in Hx as [Hxy _]. apply Z.ltb_lt. unfold ord_lt, cmp, Ord_Z in Hxy. by apply Z.compare_lt_iff.
Qed.
Lemma foldl_max_app x l y : (∀ z, z ∈ x :: l → z <= y) → foldl Z.max x (l ++ [y]) = y.
Proof.
  revert x. induction l as [|z l IH]; intros x Hl; cbn.
  - apply Z.max_r, Hl. set_solver.
  - apply IH. intros w [->|Hw]%elem_of_cons; [|apply Hl; set_solver]. apply Z.max_lub; apply Hl; set_solver.
Qed.
Lemma last_dedup (l : list Z) : last (dedup l) = last l.
Proof.
  induction l as [|x l IH]; [done|]. destruct l as [|y l]; [done|]. rewrite dedup_cons2. case_decide; [by rewrite IH|].
  assert (dedup (y :: l) ≠ []) as Hne by (intros E; assert (y ∈ dedup (y :: l)) as Hin by (apply elem_of_dedup; by left); rewrite E in Hin; by apply elem_of_nil in Hin).
  destruct (dedup (y :: l)) as [|z d] eqn:E; [done|]. change (last (x :: z :: d)) with (last (z :: d)). by rewrite IH.
Qed.
Lemma sorted_cutovers (tl : list PolicyTimelineEntry) : StronglySorted ord_le (effective_lamport <$> sort_timeline tl).
Proof.
  unfold sort_timeline, sort_by_key. assert (StronglySorted (λ x y, ord_le (effective_lamport x) (effective_lamport y)) (merge_sort
    (λ x y, ord_le (effective_lamport x) (effective_lamport y)) tl)) as Hs.
  { apply StronglySorted_merge_sort; [intros x y z; apply (transitivity (R := ord_le))|intros x y; apply (total ord_le)]. }
  induction Hs as [|x l Hs IH Hx]; [constructor|]. constructor; [done|]. by apply Forall_fmap.
Qed.
Lemma sorted_last (l : list Z) y : StronglySorted ord_le (l ++ [y]) → ∀ z, z ∈ l → z <= y.
Proof.
  induction l as [|x l IH]; cbn; [set_solver|]. intros [Hs Hx]%StronglySorted_inv z [->|Hz]%elem_of_cons; [|by apply IH].
  apply Forall_app in Hx as [_ Hx]. apply Forall_cons in Hx as [Hx _]. apply Z.compare_le_iff. exact Hx.
Qed.
Lemma cutover_last (tl : list PolicyTimelineEntry) :
  StronglySorted ord_le (effective_lamport <$> tl) → policy_timeline_cutover_lamport tl = last (effective_lamport <$> tl).
Proof.
  intros Hs. destruct tl as [|e tl]; [done|]. destruct tl as [|e' tl _] using rev_ind; [done|].
  change (e :: tl ++ [e']) with ((e :: tl) ++ [e']) in *. rewrite fmap_app in *. cbn [fmap list_fmap] in *. rewrite last_snoc.
  cbn [app policy_timeline_cutover_lamport]. rewrite fmap_app. cbn [fmap list_fmap]. f_equal.
  apply foldl_max_app. by apply sorted_last.
Qed.

Section export_facts.
Context `{Blake3, Postcard Transaction, Ed25519, Postcard (list WireNode), Postcard (list PolicyTimelineEntry), Postcard (list Hash)}.
Context `{ManifestJson} {P : Type} `{NodePersistence P, BlobPersistence P} (backend : bytes).
Context `{!Ed25519Laws, !Blake3Laws, !ManifestJsonLaws}.

(** What a manifest says of a timeline passes the checks on a manifest. *)
Record parity_ok (m : PolicyTimelineParityMetadata) : Prop := {
  po_hash : Forall printable (hash_hex m) ∧ hash_hex m ≠ [];
  po_transitions : transition_cutovers m ≠ [];
  po_increasing : strictly_increasing (transition_cutovers m) = true;
  po_last : last (transition_cutovers m) = Some (cutover_lamport m);
  po_nonneg : Forall (λ n, 0 <= n) (transition_cutovers m);
}.
Lemma metadata_ok tl : Forall (λ e, 0 <= effective_lamport e) tl → parity_ok (policy_timeline_metadata_for_timeline tl).
Proof.
  intros Hn. unfold policy_timeline_metadata_for_timeline. set (tl' := match tl with [] => _ | _ => _ end).
  assert (tl' ≠ [] ∧ Forall (λ e, 0 <= effective_lamport e) tl') as [Hne Hn'] by (destruct tl; split; done || by repeat constructor).
  pose proof (sorted_cutovers tl') as Hs. set (sorted := sort_timeline tl') in *.
  assert (sorted ≡ₚ tl') as Hp by apply merge_sort_Permutation.
  assert (sorted ≠ []) as Hne' by (intros E; rewrite E in Hp; by apply Permutation_nil_l in Hp).
  assert (Forall (λ n, 0 <= n) (effective_lamport <$> sorted)) as Hn'' by (apply Forall_fmap; by rewrite Hp).
  rewrite (cutover_last sorted Hs). cbv zeta. set (cuts := effective_lamport <$> sorted) in *.
  assert (cuts ≠ []) as Hcne by (unfold cuts; by destruct sorted).
  destruct (last cuts) as [c|] eqn:Ec; [|by apply last_None in Ec]. change (default 0 (Some c)) with c.
  assert (dedup cuts ≠ []) as Hd by (intros E; rewrite <-last_dedup, E in Ec; done).
  assert (Forall printable (to_hex (policy_timeline_hash sorted)) ∧ to_hex (policy_timeline_hash sorted) ≠ []) as Hh.
  { destruct (blake3_length (pc_to (sort_timeline sorted))) as [Hl Hu]. split; [by apply hex_printable|].
    intros E. pose proof (length_to_hex (policy_timeline_hash sorted)) as Hlen. rewrite E in Hlen. change (policy_timeline_hash sorted) with (blake3_hash (pc_to (sort_timeline sorted))) in Hlen. rewrite Hl in Hlen. done. }
  destruct (c =? 0) eqn:E0.
  - apply Z.eqb_eq in E0 as ->. split; cbn; try done. by repeat constructor.
  - split; cbn; [done|..]; destruct (dedup cuts) as [|x d] eqn:E; try done; rewrite <-E.
    + apply increasing_sorted. by apply sorted_dedup.
    + by rewrite last_dedup.
    + apply Forall_forall. intros n Hin. rewrite elem_of_dedup in Hin. rewrite Forall_forall in Hn''. by apply Hn''.
Qed.

Lemma join_nonempty (l : list bytes) : l ≠ [] → Forall (λ s, s ≠ []) l → join (bs ",") l ≠ [].
Proof. intros Hl Hf. destruct Hf as [|s l Hs _]; [done|]. destruct s; [done|]. by destruct l. Qed.
Lemma manifest_payload source window policy m pk sig cp ds :
  parity_ok m →
  external_manifest_signature_payload
    (read_of (mkManifestDocument EXPORT_FORMAT_VERSION source cp ds window policy (hash_hex m) (cutover_lamport m) (transition_cutovers m)
       (mkManifestSignature pk sig))) =
  signature_payload EXPORT_FORMAT_VERSION source window policy (hash_hex m) (cutover_lamport m) (transition_cutovers m).
Proof.
  intros Hm. unfold external_manifest_signature_payload, signature_payload, read_of. cbn [em_policy_timeline_transition_cutovers em_format_version
    em_source_room em_compatibility_window em_payload_digest_policy em_policy_timeline_hash em_policy_timeline_cutover_lamport
    md_format_version md_source_room md_compatibility_window md_payload_digest_policy md_policy_timeline_hash
    md_policy_timeline_cutover_lamport md_policy_timeline_transition_cutovers].
  rewrite bool_decide_eq_false_2; [done|]. apply join_nonempty.
  - intros E%fmap_nil_inv. by apply (po_transitions m Hm).
  - apply Forall_fmap. eapply Forall_impl; [exact (po_nonneg m Hm)|]. intros n Hn. by apply decimal_spec.
Qed.

(** The manifest of an export is one that a load accepts. *)
Lemma exported_manifest_checks source sk parity p d p' :
  parity_ok parity → utrim source = source → source ≠ [] →
  build_external_manifest_document backend source sk parity p = (Ok d, p') →
  check_manifest (read_of d) =
    Ok (mkManifestMeta source (Some (hash_hex parity)) (Some (cutover_lamport parity)) (Some (transition_cutovers parity))).
Proof.
  intros Hm Htrim Hne Hb. unfold build_external_manifest_document in Hb.
  destruct (np_load_room_nodes P source p) as [[|n ns] p1]; [done|]. cbv zeta in Hb.
  destruct (checkpoint_hash_for_nodes _); [|done]. destruct (blobs_digest_for_referenced _ _ _) as [[dg|] p2]; [|done].
  injection Hb as <- _. unfold check_manifest. set (m := read_of _).
  assert (external_manifest_signature_payload m = signature_payload EXPORT_FORMAT_VERSION source
    (mkWindow EXPORT_COMPAT_MIN_SUPPORTED EXPORT_COMPAT_MAX_SUPPORTED) EXPORT_DIGEST_POLICY_STRICT_SHA256_V1
    (hash_hex parity) (cutover_lamport parity) (transition_cutovers parity)) as Hpay by (by apply manifest_payload).
  assert (verify_external_manifest_signature m = Ok tt) as Hsig.
  { unfold verify_external_manifest_signature. rewrite Hpay. subst m. cbn [em_signature read_of md_signature ms_public_key ms_signature].
    unfold decode_hex_exact. rewrite !utrim_printable by (apply hex_printable; apply ed_vk_length || apply ed_sign_length).
    rewrite (hex_to_array_to_hex 32), (hex_to_array_to_hex 64) by (apply ed_vk_length || apply ed_sign_length).
    rewrite ed_vk_ok_own. cbn [negb]. by rewrite ed_verify_own. }
  rewrite Hsig. subst m. unfold read_of. cbn [em_format_version em_compatibility_window em_policy_timeline_hash em_payload_digest_policy
    em_source_room em_policy_timeline_transition_cutovers em_policy_timeline_cutover_lamport md_format_version md_source_room
    md_compatibility_window md_payload_digest_policy md_policy_timeline_hash md_policy_timeline_cutover_lamport
    md_policy_timeline_transition_cutovers min_supported max_supported].
  destruct (po_hash _ Hm) as [Hh Hhne]. rewrite (utrim_printable (hash_hex parity)), Htrim by done.
  change (negb (bool_decide (utrim EXPORT_FORMAT_VERSION = EXPORT_FORMAT_VERSION))) with false.
  change (parse_compatibility_window_range (utrim EXPORT_COMPAT_MIN_SUPPORTED) (utrim EXPORT_COMPAT_MAX_SUPPORTED)) with (Some (1, 2)).
  change (negb (bool_decide (utrim EXPORT_DIGEST_POLICY_STRICT_SHA256_V1 = EXPORT_DIGEST_POLICY_STRICT_SHA256_V1))) with false.
  cbn [ranges_overlap range_contains runtime_window runtime_version fst snd Z.leb Z.compare Pos.compare Pos.compare_cont andb negb orb].
  rewrite !bool_decide_eq_false_2 by (done || apply (po_transitions _ Hm)).
  rewrite (po_increasing _ Hm), bool_decide_eq_true_2 by apply (po_last _ Hm). done.
Qed.

(** The file that an archive reference names. *)
Definition manifest_path (io : ArchiveIo) (archive_ref : bytes) : option bytes :=
  match parse_archive_ref archive_ref with
  | Ok (FileManifest path) => Some path
  | Ok (ObjectManifest bucket key) => resolve_object_manifest_path io bucket key
  | _ => None
  end.
Lemma source_of_path room archive_ref path (w : Room * P * ArchiveIo) :
  manifest_path w.2 archive_ref = Some path → source_of (P := P) room archive_ref w = load_manifest path room archive_ref w.
Proof.
  unfold manifest_path, source_of. destruct (parse_archive_ref archive_ref) as [[s|p|b k]|]; intros Hp; simplify_eq; [done|].
  rewrite (se_bind_ok (read _) _ w w (Some path)); [done|]. unfold read. by rewrite Hp.
Qed.
Lemma export_runs room source archive_ref sk now (w w' : Room * P * ArchiveIo) ex :
  export_room backend room source archive_ref sk (Ok now) w = (w', Ok ex) →
  ∃ path d, manifest_path w.2 archive_ref = Some path ∧
    (build_external_manifest_document backend source sk (current_room_policy_timeline_metadata w.1.1) w.1.2).1 = Ok d ∧
    w'.1.1 = w.1.1 ∧
    w'.2 = with_files w.2 (<[path := mkManifestFile (Some (manifest_print d))
                                      (Some (mkRevision (Z.of_nat (length (manifest_print d))) now))]> (io_files w.2)).
Proof.
  intros He. unfold export_room in He. rewrite (se_bind_ok (read _) _ w w (current_room_policy_timeline_metadata w.1.1)) in He by done.
  unfold mbind at 1, se_bind at 1 in He. cbv beta in He. change (world_p w) with (w.1.2) in He.
  destruct (build_external_manifest_document _ _ _ _ _) as [[d|m] p] eqn:Ed; [|done].
  unfold mbind, se_bind, write_manifest, manifest_path in *. cbn [snd set_p] in He.
  destruct (parse_archive_ref archive_ref) as [[s|path|b k]|] eqn:Er; [done| | |done].
  - cbn in He. injection He as <- _. exists path, d. split_and!; reflexivity.
  - unfold resolve_object_manifest_path. destruct (io_object_root w.2) as [root|]; [|done].
    cbn in He. injection He as <- _. exists (object_path root b k), d. split_and!; reflexivity.
Qed.

Lemma load_written io path room archive_ref d meta now :
  check_manifest (read_of d) = Ok meta →
  (∀ cached, io_cache io !! path = Some cached → modified_unix_nanos (cm_revision cached) ≠ now) →
  ∃ io', load_external_manifest_source_room
    (with_files io (<[path := mkManifestFile (Some (manifest_print d)) (Some (mkRevision (Z.of_nat (length (manifest_print d))) now))]> (io_files io)))
    path room archive_ref = (io', Ok meta).
Proof.
  intros Hc Hcache. unfold load_external_manifest_source_room, manifest_file_revision. cbn [io_files with_files]. rewrite lookup_insert_eq.
  cbn [mbind option_bind mf_revision mf_text]. unfold load_cached_external_manifest_metadata. cbn [mbind option_bind io_cache with_files].
  rewrite manifest_parse_print, Hc. destruct (io_cache io !! path) as [cached|] eqn:E; cbn [mbind option_bind]; [|by eexists].
  rewrite bool_decide_eq_false_2; [by eexists|]. intros Hr. by apply (Hcache cached eq_refl); rewrite Hr.
Qed.
(** A load without digests or blobs. *)
Lemma load_plain room archive_ref meta (w w1 : Room * P * ArchiveIo) :
  source_of room archive_ref w = (w1, Ok meta) → (np_load_room_nodes P (mm_source_room meta) (w1.1.2)).1 ≠ [] →
  ∃ p nodes, load_archive_from_ref backend room archive_ref false BytesNotNeeded w =
    (set_p w1 p, Ok (mkLoaded (mm_source_room meta) (mm_policy_timeline_hash meta) (mm_policy_timeline_cutover_lamport meta)
       (mm_policy_timeline_transition_cutovers meta) nodes [] None (seq_frontier nodes) None None)).
Proof.
  intros Hs Hl. unfold load_archive_from_ref. rewrite (se_bind_ok _ _ _ _ _ Hs). unfold mbind at 1, se_bind at 1, load_nodes at 1.
  change (world_p w1) with (w1.1.2). destruct (np_load_room_nodes P (mm_source_room meta) (w1.1.2)) as [[|n ns] p]; [done|]. by eexists _, _.
Qed.
Lemma parity_eq (a b : PolicyTimelineParityMetadata) :
  hash_hex a = hash_hex b → cutover_lamport a = cutover_lamport b → transition_cutovers a = transition_cutovers b → a = b.
Proof. destruct a, b. cbn. by intros -> -> ->. Qed.

(** C29: an exported archive can be validated.  After an export of a room to a file or
    an object, under a new time stamp and while the source room keeps its nodes, a
    validation of the same reference reads back the signed manifest, and in either mode
    it is accepted exactly by the rooms whose policy timeline has the hash, cutover and
    transitions of the exporting room; every other room refuses it for its timeline,
    and for no other reason. *)
Theorem exported_archive_validates room source archive_ref sk now w w' ex mode r2 :
  export_room backend room source archive_ref sk (Ok now) w = (w', Ok ex) →
  utrim source = source → source ≠ [] → Forall (λ e, 0 <= effective_lamport e) (rm_policy_timeline w.1.1) →
  (∀ path cached, manifest_path w.2 archive_ref = Some path → io_cache w.2 !! path = Some cached → modified_unix_nanos (cm_revision cached) ≠ now) →
  (np_load_room_nodes P source w'.1.2).1 ≠ [] →
  mode = bs "metadata_only" ∨ mode = bs "full_integrity" →
  match (validate_loaded backend room archive_ref mode (r2, w'.1.2, w'.2)).2 with
  | Ok v => av_accepted v = true ∧ current_room_policy_timeline_metadata r2 = current_room_policy_timeline_metadata w.1.1
  | Err e => ar_reason_class e = PolicyTimelineMismatch ∧ current_room_policy_timeline_metadata r2 ≠ current_room_policy_timeline_metadata w.1.1
  end.
Proof.
  intros He Htrim Hne Hn Hcache Hload Hmode. destruct (export_runs _ _ _ _ _ _ _ _ He) as (path & d & Hpath & Hd & _ & Hio).
  set (parity := current_room_policy_timeline_metadata w.1.1) in *. assert (parity_ok parity) as Hok by (by apply metadata_ok).
  destruct (build_external_manifest_document _ _ _ _ _) as [[d'|] p] eqn:Eb; simplify_eq/=.
  pose proof (exported_manifest_checks _ _ _ _ _ _ Hok Htrim Hne Eb) as Hcheck.
  destruct (load_written w.2 path room archive_ref d _ now Hcheck (λ cached, Hcache path cached Hpath)) as [io2 Hl]. rewrite <-Hio in Hl.
  assert (source_of (P := P) room archive_ref (r2, w'.1.2, w'.2) = ((r2, w'.1.2, io2), Ok (mkManifestMeta source (Some (hash_hex parity))
    (Some (cutover_lamport parity)) (Some (transition_cutovers parity))))) as Hs.
  { rewrite (source_of_path _ _ path) by (cbn [snd]; rewrite Hio; exact Hpath). unfold load_manifest. cbn [snd]. by rewrite Hl. }
  destruct (load_plain _ _ _ _ _ Hs Hload) as (p3 & nodes & Hloaded). unfold validate_loaded.
  replace (negb (bool_decide (mode = bs "metadata_only")) && negb (bool_decide (mode = bs "full_integrity"))) with false by (by destruct Hmode as [-> | ->]).
  rewrite (se_bind_ok _ _ _ _ _ Hloaded). unfold timeline_check. cbn [la_timeline_hash la_timeline_cutover la_timeline_transitions mm_policy_timeline_hash
    mm_policy_timeline_cutover_lamport mm_policy_timeline_transition_cutovers la_blobs existsb]. rewrite andb_false_r.
  unfold mbind, se_bind, read, set_p. cbn [fst snd]. set (current := current_room_policy_timeline_metadata r2).
  destruct (decide (hash_hex parity = hash_hex current)) as [Eh|Eh]; [rewrite bool_decide_eq_true_2 by done|rewrite bool_decide_eq_false_2 by done; cbn; split; [done|congruence]].
  destruct (Z.eqb_spec (cutover_lamport parity) (cutover_lamport current)) as [Ec|Ec]; [cbn [negb orb]|cbn; split; [done|congruence]].
  case_bool_decide as Et; cbn; [split; [done|by apply parity_eq]|split; [done|congruence]].
Qed.
End export_facts.

(** What the later checks of an archive add. *)
Section late_checks.
Context `{Blake3, Postcard Transaction, Ed25519, Postcard (list WireNode), Postcard (list PolicyTimelineEntry), Postcard (list Hash)}.
Context `{ManifestJson} {P : Type} `{NodePersistence P, BlobPersistence P} (backend : bytes).

(** A load that does not need bytes has no blobs. *)
Lemma loaded_without_blobs room archive_ref (w : Room * P * ArchiveIo) loaded :
  (load_archive_from_ref backend room archive_ref false BytesNotNeeded w).2 = Ok loaded → la_blobs loaded = [].
Proof.
  unfold load_archive_from_ref, mbind, se_bind. destruct (source_of room archive_ref w) as [w1 [meta|]]; [|done].
  destruct (load_nodes (mm_source_room meta) w1) as [w2 [[|n ns]|]]; [done| |done]. cbn. by intros [= <-].
Qed.

(** Two checks of an archive come too late to guard anything.  Validating in the
    full_integrity mode has the effects of the metadata_only mode and accepts exactly
    what it accepts: no blob is read.  An import with an expected checkpoint has
    the effects of the import without one, also when the checkpoint is then refused: the
    nodes are in the room and its store, and the blobs are persisted. *)
Theorem archive_checks_late room archive_ref import_mode expected now (w : Room * P * ArchiveIo) :
  (let '(w1, full) := validate_loaded backend room archive_ref (bs "full_integrity") w in
   let '(w2, meta) := validate_loaded backend room archive_ref (bs "metadata_only") w in
   w1 = w2 ∧ match full, meta with Ok _, Ok _ => True | Err e, Err e' => e = e' | _, _ => False end) ∧
  (import_loaded backend room archive_ref import_mode expected now w).1 = (import_loaded backend room archive_ref import_mode None now w).1.
Proof.
  split.
  - unfold validate_loaded. cbn [negb andb]. 
    rewrite (bool_decide_eq_false_2 (bs "full_integrity" = bs "metadata_only")) by done.
    rewrite (bool_decide_eq_false_2 (bs "metadata_only" = bs "full_integrity")) by done. rewrite !bool_decide_eq_true_2 by done. cbn [negb andb].
    pose proof (loaded_without_blobs room archive_ref w) as Hb. unfold mbind, se_bind in *.
    destruct (load_archive_from_ref _ _ _ _ _ w) as [w1 [loaded|e]]; [|done]. rewrite (Hb loaded eq_refl). cbn [existsb].
    by destruct (timeline_check room archive_ref loaded w1) as [w2 [[]|e]].
  - unfold import_loaded. destruct (_ && _); [done|]. unfold mbind, se_bind.
    destruct (load_archive_from_ref _ _ _ _ _ w) as [w1 [loaded|e]]; [|done].
    destruct (timeline_check room archive_ref loaded w1) as [w2 [[]|e]]; [|done].
    destruct (import_into_room room (la_nodes loaded) now w2) as [w3 [[ids [|e0 es]]|e]]; [|done..]. cbn [snd].
    match goal with |- context [(if ?b then ?x else ?y) w3] => destruct ((if b then x else y) w3) as [w4 [[]|e]]; [|done] end.
    unfold read, refuse, throw. cbn [from_option]. by destruct (from_option _ _ expected).
Qed.
End late_checks.
