(* ===== verification/Session.v ===== *)
(** A WebSocket session of the server (server ws_handler.rs, graph_query.rs,
    topology_adapter.rs): the handshake, the commands of a client, the relay of
    broadcasts through the subscription filter, and the ways a session ends.

    The task of a connection is cut where other tasks can run, at every lock of joining
    and leaving; a message of a client is handled in one step.  What the outside decides is an
    argument or a schedule of the state: clocks, the outcome of each send, of file
    writes, and of the admission queues.  A send that is not timed may only succeed or
    fail.  Metrics and logs are left out. *)

From S2P Require Import Prelude Str Utf8 StErr Hex Op Node Policy Frontier Storage Caches CacheFacts Fenwick.
From S2P Require Import TextState Text Graph Ibf Mst Replay Compaction Gc GcStore DirStore Persist TopoStore HostTypes TreeWalk HostState Host Room.
From S2P Require Import Query Token Profile Glob Registry Wire Topology Promotion Archive.

(** ** Data *)

(** What a peer receives. *)
Inductive Out := OutText (text : bytes) | OutClose (spec : CloseFrameSpec) | OutPong (payload : bytes).
Inductive SendOutcome := SendOk | SendFailed | SendTimedOut.

(** [RateLimiter::check_n] of the governor crate. *)
Inductive RateOutcome := RateAdmits | NotUntil | InsufficientCapacity.
Class RateLimiting (L : Type) := { limiter_new : Z → L; check_n : L → Z → L * RateOutcome }.

(** The URLs and the verification of direct uploads, part of [BlobPersistence]. *)
Class UrlPersistence (P : Type) := {
  up_get_url : bytes → Hash → P → option PresignedBlobUrl;
  up_put_url : bytes → Hash → Z → option bytes → P → option PresignedBlobUrl;
  up_verify_uploaded : bytes → Hash → P → result bytes unit;
}.
(** The defaults of the trait. *)
Definition no_urls (P : Type) : UrlPersistence P :=
  {| up_get_url := λ _ _ _, None; up_put_url := λ _ _ _ _ _, None; up_verify_uploaded := λ _ _ _, Ok tt |}.

(** The serialisers of the tagged responses. *)
Class ResponseJson := { archive_json : ArchiveWsResponse → option bytes; topology_json : TopologyWsResponse → option bytes }.

(** What is fixed for a session. *)
Record SessionInfo := mkSessionInfo {
  si_room_id : bytes;
  si_pubkey_hex : bytes;
  si_is_server_peer : bool;
  si_caps : gset bytes;
  si_negotiated : SyncCapabilities;
  si_deadline : option Z;
}.

(** What surrounds one message: clocks, the refusal of an admission queue, and the
    outcome of a file write. *)
Record Env := mkEnv { env_now : Instant; env_now_ms : Z; env_slot : option bytes; env_write : result bytes Z }.

(** What a handler reads and writes. *)
Record Conn (P W L : Type) := mkConn {
  cn_rooms : Rooms P W;
  cn_io : ArchiveIo;
  cn_sub : Subscription;
  cn_node_limiter : option L;
  cn_byte_limiter : option L;
  cn_out : list Out;
  cn_bcast : list bytes;
  cn_sends : list SendOutcome;
}.
Arguments mkConn {P W L}. Arguments cn_rooms {P W L}. Arguments cn_io {P W L}. Arguments cn_sub {P W L}.
Arguments cn_node_limiter {P W L}. Arguments cn_byte_limiter {P W L}. Arguments cn_out {P W L}.
Arguments cn_bcast {P W L}. Arguments cn_sends {P W L}.

Section setters.
Context {P W L : Type}.
Implicit Types c : Conn P W L.
Definition put_rooms c (s : Rooms P W) : Conn P W L :=
  mkConn s (cn_io c) (cn_sub c) (cn_node_limiter c) (cn_byte_limiter c) (cn_out c) (cn_bcast c) (cn_sends c).
Definition put_io c (io : ArchiveIo) : Conn P W L :=
  mkConn (cn_rooms c) io (cn_sub c) (cn_node_limiter c) (cn_byte_limiter c) (cn_out c) (cn_bcast c) (cn_sends c).
Definition put_sub c (sub : Subscription) : Conn P W L :=
  mkConn (cn_rooms c) (cn_io c) sub (cn_node_limiter c) (cn_byte_limiter c) (cn_out c) (cn_bcast c) (cn_sends c).
Definition put_limiters c (n b : option L) : Conn P W L :=
  mkConn (cn_rooms c) (cn_io c) (cn_sub c) n b (cn_out c) (cn_bcast c) (cn_sends c).
Definition put_bcast c (env : bytes) : Conn P W L :=
  mkConn (cn_rooms c) (cn_io c) (cn_sub c) (cn_node_limiter c) (cn_byte_limiter c) (cn_out c) (cn_bcast c ++ [env]) (cn_sends c).
(** The next send of the schedule; an exhausted schedule succeeds. *)
Definition put_out c (o : Out) : Conn P W L * SendOutcome :=
  let '(outcome, sends) := match cn_sends c with [] => (SendOk, []) | x :: rest => (x, rest) end in
  (mkConn (cn_rooms c) (cn_io c) (cn_sub c) (cn_node_limiter c) (cn_byte_limiter c)
     (match outcome with SendOk => cn_out c ++ [o] | _ => cn_out c end) (cn_bcast c) sends, outcome).
End setters.

(** ** Capabilities of the control plane *)

Definition is_control_plane_allowed (is_server_peer : bool) (session_caps : gset bytes) (required_capability : bytes) : bool :=
  is_server_peer || bool_decide (required_capability ∈ session_caps).

Definition capability_names : list (string * list string) :=
  [("policy.admin", ["set-policy"]); ("room.admin", ["set-room-key"]); ("tick.admin", ["start-tick"; "stop-tick"]);
   ("archive.read", ["archive.describe"]); ("archive.admin", ["archive.validate"; "archive.import"; "archive.export"]);
   ("query.admin", ["query.register"; "projection.build"; "projection.invalidate"; "graph.get-frontier";
                    "graph.get-causal-parents"; "graph.get-canonical-resolution"; "graph.compute-sync-diff"]);
   ("query.read", ["projection.read"; "projection.list"; "replay.read-range"]);
   ("topology.admin", ["topology.create-child"; "topology.describe-lineage"; "topology.list-children";
                       "topology.propose-promotion"; "topology.validate-promotion"; "topology.apply-promotion"])]%string.
Definition required_capability_for_control_plane_command (command : bytes) : option bytes :=
  (λ x, bs x.2.1) <$> list_find (λ cs, command ∈ bs <$> cs.2) capability_names.
Definition evaluate_control_plane_authorization (is_server_peer : bool) (session_caps : gset bytes) (command : bytes) : result bytes unit :=
  match required_capability_for_control_plane_command command with
  | None => Ok tt
  | Some required =>
      if is_control_plane_allowed is_server_peer session_caps required then Ok tt
      else Err (bs "reject.control_plane_forbidden: command=" ++ command ++ bs " requires=" ++ required)
  end.

(** ** The subscription filter *)

Definition from_hello_value (v : Value) : Subscription :=
  match as_array v with Some arr => from_patterns (omap as_str arr) | None => everything end.

Record ScopeFilterOutcome := mkFilterOutcome {
  filtered_env : option bytes; filter_applied : bool;
  accepted_count : Z; rejected_count : Z; incoming_bytes : Z; accepted_bytes : Z;
}.
Definition filtered_nodes (o : ScopeFilterOutcome) : Z := rejected_count o.
Definition filtered_bytes (o : ScopeFilterOutcome) : Z := sat_sub (incoming_bytes o) (accepted_bytes o).
Definition unfiltered (env : bytes) : ScopeFilterOutcome := mkFilterOutcome (Some env) false 0 0 0 0.

(** [out["nodes"] = s] on an object. *)
Definition set_field (k : string) (x v : Value) : Value :=
  match v with JObject m => JObject (assoc_insert (bs k) x m) | _ => v end.

Record ScopeCatchupBudget := mkBudget { max_filtered_node_count : Z; max_filtered_payload_bytes : Z }.
Definition scoped_catchup_budget (env_nodes env_bytes : option bytes) : ScopeCatchupBudget :=
  mkBudget (default 4096 (env_nodes ≫= parse_u64)) (default (1024 * 1024) (env_bytes ≫= parse_u64)).
Definition should_drop_filtered_catchup_for_budget (accepted_count accepted_bytes : Z) (budget : ScopeCatchupBudget) : bool :=
  (max_filtered_node_count budget <? accepted_count) || (max_filtered_payload_bytes budget <? accepted_bytes).

Section filter.
Context `{Postcard (list WireNode), Json, JsonRead}.

Definition filter_pack_for_subscriber_with_stats (env : bytes) (sub : Subscription) : ScopeFilterOutcome :=
  if matches_everything sub then unfiltered env
  else
    match json_parse env with
    | None => unfiltered env
    | Some v =>
        if negb (bool_decide (str_at "type" v = Some (bs "pack"))) then unfiltered env
        else
          match str_at "nodes" v with
          | None => unfiltered env
          | Some nodes_b64 =>
              match base64_decode nodes_b64 with
              | None => unfiltered env
              | Some b =>
                  match unpack_nodes b with
                  | Err _ => unfiltered env
                  | Ok nodes =>
                      let kept := filter (λ n, accepts_node sub n = true) nodes in
                      let accepted := Z.of_nat (length kept) in
                      let rejected := sat_sub (Z.of_nat (length nodes)) accepted in
                      match kept with
                      | [] => mkFilterOutcome None true accepted rejected (Z.of_nat (length b)) 0
                      | _ =>
                          let raw := pack_nodes kept in
                          mkFilterOutcome (Some (json_print (set_field "nodes" (JString (base64_encode raw)) v))) true
                            accepted rejected (Z.of_nat (length b)) (Z.of_nat (length raw))
                      end
                  end
              end
          end
    end.
End filter.

(** ** Tokens *)

Definition token_error_str (e : TokenError) : bytes :=
  match e with
  | Expired => bs "token has expired"
  | BadSignature => bs "signature verification failed"
  | PeerMismatch => bs "token peer_pubkey does not match connecting peer"
  | Token.Malformed f => bs "malformed token field: " ++ f
  end.

Record VerifiedToken := mkVerifiedToken { expiry_secs : Z; vt_capabilities : list bytes }.

Definition validate_identity_continuity_v1 (tok : Value) (current_peer : PublicKey) (now_secs : Z) : result bytes unit :=
  match jget (bs "continuity") tok with
  | None => Ok tt
  | Some continuity =>
      match get_str (bs "predecessor_peer_pubkey") continuity with
      | None => Err (bs "missing token.continuity.predecessor_peer_pubkey")
      | Some predecessor_hex =>
          match parse_hex_32 predecessor_hex with
          | None => Err (bs "invalid token.continuity.predecessor_peer_pubkey")
          | Some predecessor =>
              if bool_decide (predecessor = current_peer) then Err (bs "token continuity predecessor must differ from current peer")
              else
                match jget (bs "overlap_not_after") continuity ≫= as_u64 with
                | None => Err (bs "missing token.continuity.overlap_not_after")
                | Some overlap_not_after =>
                    if overlap_not_after <? now_secs then Err (bs "token continuity overlap window expired")
                    else
                      let revoked : gset bytes :=
                        list_to_set ((λ s, to_lowercase (utrim s)) <$>
                          omap as_str (default [] (jget (bs "revoked_predecessors") continuity ≫= as_array))) in
                      if bool_decide (to_lowercase (utrim predecessor_hex) ∈ revoked)
                      then Err (bs "token continuity predecessor is revoked") else Ok tt
                end
          end
      end
  end.

(** The profile is read once from a file the environment names: absent, loaded, or an
    error that every handshake reports. *)
Section tokens.
Context `{Ed25519}.
Context (entries : CapGraph → list (bytes * list bytes)) (configured_capability_profile : result bytes (option CapabilityProfile)).

Definition expand_profile_capabilities_with_profile (profile : CapabilityProfile) (caps : list bytes)
    (token_profile_version : option bytes) : result bytes (list bytes) :=
  match token_profile_version ≫= (λ v, let v := utrim v in if bool_decide (v = []) then None else Some v) with
  | None => Err (bs "missing token.capability_profile_version while capability composition is enabled")
  | Some presented =>
      if profile_supports_version profile presented then
        match flatten_capabilities entries profile caps with
        | Ok l => Ok l
        | Err e => Err (bs "capability profile expansion failed: " ++ error_text e)
        end
      else
        Err (bs "unknown token.capability_profile_version '" ++ presented ++ bs "' (expected '" ++ profile_version profile ++
             bs "' or configured compatibility versions)")
  end.
Definition maybe_expand_profile_capabilities (caps : list bytes) (token_profile_version : option bytes) : result bytes (list bytes) :=
  match configured_capability_profile with
  | Err e => Err e
  | Ok None => Ok caps
  | Ok (Some profile) => expand_profile_capabilities_with_profile profile caps token_profile_version
  end.

Definition lift_token {A} (r : result TokenError A) : result bytes A := match r with Ok a => Ok a | Err e => Err (token_error_str e) end.
Definition verify_hello_token (hello : Value) (room_vk : PublicKey) (peer_pubkey_hex room_id : bytes) (now : Z) : result bytes VerifiedToken :=
  let? tok := ok_or (jget (bs "token") hello) (bs "room is locked " ++ [226; 128; 148] ++ bs " include a capability token in hello") in
  let? peer_hex := ok_or (str_at "peer_pubkey" tok) (bs "missing token.peer_pubkey") in
  let? expiry := ok_or (as_u64 (jindex "expiry" tok)) (bs "missing token.expiry") in
  let? sig_hex := ok_or (str_at "sig" tok) (bs "missing token.sig") in
  let token_profile_version :=
    match str_at "capability_profile_version" tok with Some v => Some v | None => str_at "profile_version" tok end in
  let caps := omap as_str (array_at "caps" tok) in
  let? peer_bytes := ok_or (parse_hex_32 peer_pubkey_hex) (bs "invalid peer pubkey in hello") in
  let? token := lift_token (token_from_wire peer_hex expiry caps sig_hex) in
  let? _ := lift_token (token_verify token room_id room_vk peer_bytes now) in
  let? _ := validate_identity_continuity_v1 tok peer_bytes now in
  let? flattened_caps := maybe_expand_profile_capabilities (tok_caps token) token_profile_version in
  Ok (mkVerifiedToken expiry flattened_caps).

Definition parse_verifying_key (hex : bytes) : option PublicKey :=
  b ← parse_hex_32 hex; if ed_vk_ok b then Some b else None.
End tokens.

(** ** The commands of a client *)

Section commands.
Context `{Blake3, Blake3Keyed, Postcard Transaction, Ed25519, Postcard (list WireNode), Postcard (list PolicyTimelineEntry), Postcard (list Hash)}.
Context `{Serde RoomLineage, Serde PromotionRecord, Json, JsonRead, EnvelopeJson, ManifestJson, ResponseJson}.
Context {P : Type} `{NodePersistence P, BlobPersistence P, UrlPersistence P} {W L : Type} `{RateLimiting L}.
Context (backend : bytes) (build_limits : BuildLimits) (server_key : SigningKey) (si : SessionInfo).

(** A handler returns early with an error, whose value says whether the connection
    stays open. *)
Abbreviation CM := (SE (Conn P W L) bool).
Abbreviation room_id := (si_room_id si).

(** *** Sending *)

Definition emit_close_frame (spec : CloseFrameSpec) : CM unit := λ c, ((put_out c (OutClose spec)).1, Ok tt).
Definition ws_send (text : bytes) : CM bool := λ c,
  let '(c, outcome) := put_out c (OutText text) in
  match outcome with
  | SendOk => (c, Ok true)
  | SendFailed => (c, Ok false)
  | SendTimedOut => ((put_out c (OutClose assemble_server_overload_close_frame)).1, Ok false)
  end.
(** A send whose result is ignored. *)
Definition sink_send (text : bytes) : CM unit := λ c, ((put_out c (OutText text)).1, Ok tt).
Definition send_error (msg : bytes) : CM unit := sink_send (envelope_json (assemble_error_envelope msg)).
(** [emit_single_send] with [should_terminate_after_*]: a failed reply closes. *)
Definition reply_text (text : bytes) : CM unit :=
  ok ← ws_send text; if should_terminate_after_send ok then throw false else mret tt.
Definition reply (e : Envelope) : CM unit := reply_text (envelope_json e).
Definition emit_room_broadcast (text : bytes) : CM unit := modify (λ c, put_bcast c text).
Definition broadcast (e : Envelope) : CM unit := emit_room_broadcast (envelope_json e).
Definition emit_query_response (v : Value) : CM unit := reply_text (json_print v).
Definition emit_archive_response (r : ArchiveWsResponse) : CM unit :=
  match archive_json r with Some t => reply_text t | None => send_error (bs "archive adapter response serialization failed") end.
Definition emit_topology_response (r : TopologyWsResponse) : CM unit :=
  match topology_json r with Some t => reply_text t | None => send_error (bs "topology adapter response serialization failed") end.
(** [send_error] and [return true]. *)
Definition refuse_open {A} (msg : bytes) : CM A := _ ← send_error msg; throw true.

(** *** The room of the session *)

Definition the_room : CM Room := read (λ c, room_of (cn_rooms c) room_id).
Definition put_room (r : Room) : CM unit := modify (λ c, put_rooms c (set_room (cn_rooms c) room_id r)).
Definition the_store : CM P := read (λ c, rs_persistence (cn_rooms c)).
Definition put_store (p : P) : CM unit := modify (λ c, put_rooms c (set_persistence (cn_rooms c) p)).

Definition authorize (command : string) : CM unit :=
  match evaluate_control_plane_authorization (si_is_server_peer si) (si_caps si) (bs command) with
  | Ok _ => mret tt
  | Err rejection => refuse_open rejection
  end.
Definition require_capability (command capability : string) : CM unit :=
  if is_control_plane_allowed (si_is_server_peer si) (si_caps si) (bs capability) then mret tt
  else refuse_open (bs "reject.control_plane_forbidden: command=" ++ bs command ++ bs " requires=" ++ bs capability).

(** *** Nodes *)

Definition on_subscribe (msg : Value) : CM unit :=
  _ ← modify (λ c, put_sub c (from_hello_value (jindex "patterns" msg)));
  reply assemble_subscribe_ack_envelope.

(** A limiter is charged with a 32-bit amount; the amount zero is not charged. *)
Definition check_peer_rate (lim : L) (n : Z) : CM L :=
  let '(lim, outcome) := check_n lim n in
  match outcome with
  | RateAdmits => mret lim
  | NotUntil | InsufficientCapacity => _ ← emit_close_frame assemble_rate_limit_exceeded_close_frame; throw false
  end.
Definition charge_nodes (incoming : Z) : CM unit :=
  lim ← read cn_node_limiter;
  match lim with
  | Some lim =>
      let n := incoming mod 2 ^ 32 in
      if n =? 0 then mret tt
      else lim ← check_peer_rate lim n; modify (λ c, put_limiters c (Some lim) (cn_byte_limiter c))
  | None => mret tt
  end.
Definition charge_bytes (incoming_bytes : Z) : CM unit :=
  lim ← read cn_byte_limiter;
  match lim with
  | Some lim =>
      let n := Z.min incoming_bytes u32_max in
      if n =? 0 then mret tt
      else lim ← check_peer_rate lim n; modify (λ c, put_limiters c (cn_node_limiter c) (Some lim))
  | None => mret tt
  end.
Definition import_pack (nodes : list SyncNode) (now_ms : Z) : CM (list NodeId * list ImportError) :=
  r ← the_room; p ← the_store;
  let '(r, p, res) := room_import_nodes r room_id p nodes now_ms in
  _ ← put_room r; _ ← put_store p; mret res.
Definition on_pack (env : Env) (msg : Value) : CM unit :=
  match base64_decode (extract_pack_nodes_payload_b64 msg) with
  | None => refuse_open (bs "invalid pack: bad base64")
  | Some decoded =>
      match unpack_nodes decoded with
      | Err _ => refuse_open (bs "invalid pack: bad postcard")
      | Ok nodes =>
          _ ← charge_nodes (Z.of_nat (length nodes));
          _ ← charge_bytes (Z.of_nat (length decoded));
          res ← import_pack nodes (env_now_ms env);
          _ ← match res.2 with
              | [] => mret tt
              | errs => sink_send (envelope_json (assemble_error_envelope (join (bs "; ") (import_error_str <$> errs))))
              end;
          match plan_pack_import_mutation (Z.of_nat (length res.1)) with
          | NoPackBroadcast => mret tt
          | BroadcastAcceptedLeafPack =>
              r ← the_room;
              broadcast (assemble_peer_pack_relay_envelope (si_pubkey_hex si)
                (base64_encode (pack_nodes (get_nodes (rm_graph r) res.1))) (to_hex (merkle_root (rm_graph r))))
          end
      end
  end.

Definition on_mst_request (msg : Value) : CM unit :=
  r ← the_room;
  let mst := mst_from_ids (all_node_ids (rm_graph r)) in
  reply (assemble_mst_response_envelope (omap (get_node_wire mst) (extract_mst_request_paths msg))).
Definition server_pack (g : RoomGraph) (ids : list NodeId) : Envelope :=
  assemble_server_pack_reply_envelope (base64_encode (pack_nodes (get_nodes g ids))) (to_hex (merkle_root g)).
Definition on_mst_done (msg : Value) : CM unit :=
  match extract_mst_done_ids msg with
  | [] => mret tt
  | ids => r ← the_room; reply (server_pack (rm_graph r) ids)
  end.
Definition on_request (msg : Value) : CM unit :=
  r ← the_room; reply (server_pack (rm_graph r) (missing_hashes (rm_graph r) (shape_request_known_id_set msg))).

(** *** Blobs *)

(** One entry of an upload: verified, persisted, then kept in memory. *)
Definition store_entry (stored : list bytes) (entry : Value) : CM (list bytes) :=
  let hash_hex := extract_blob_upload_entry_hash_text entry in
  match parse_hex_32 hash_hex, base64_decode (extract_blob_upload_entry_data_b64 entry) with
  | Some expected, Some data =>
      let actual := hash_of data in
      if bool_decide (actual = expected) then
        p ← the_store;
        let '(p, res) := bp_persist_blob P actual data p in
        _ ← put_store p;
        match res with
        | Ok _ => r ← the_room; _ ← put_room (with_room_blobs r (blob_put (rm_blobs r) data).1); mret (stored ++ [hash_hex])
        | Err _ => mret stored
        end
      else mret stored
  | _, _ => mret stored
  end.
Definition on_blob_upload (msg : Value) : CM unit :=
  match as_array (jindex "blobs" msg) with
  | None => throw true
  | Some blobs =>
      stored ← for_each blobs store_entry [];
      match plan_blob_store_mutation (Z.of_nat (length stored)) with
      | BroadcastBlobAvailable => broadcast (assemble_blob_available_envelope stored)
      | NoBlobBroadcast => mret tt
      end
  end.

(** Which hashes are redirected, and which are served over the socket. *)
Definition split_redirects (hashes : list bytes) (p : P) : list BlobRedirectEntry * list bytes :=
  if supports_direct_blob_io (si_negotiated si) then
    (omap (λ h, hash ← parse_hex_32 h; u ← up_get_url room_id hash p; Some (mkRedirect h (pu_url u) (pu_expires_at_unix u))) hashes,
     filter (λ h, parse_hex_32 h ≫= (λ hash, up_get_url room_id hash p) = None) hashes)
  else ([], hashes).
Definition blob_entry (acc : list BlobPackEntry) (h : bytes) : CM (list BlobPackEntry) :=
  match parse_hex_32 h with
  | None => mret acc
  | Some hash =>
      r ← the_room;
      match Storage.blob_get (rm_blobs r) hash with
      | Some data => mret (acc ++ [mkBlobEntry h (base64_encode data)])
      | None =>
          p ← the_store;
          let '(data, p) := bp_get_blob P hash p in
          _ ← put_store p;
          mret (match data with Some data => acc ++ [mkBlobEntry h (base64_encode data)] | None => acc end)
      end
  end.
Definition on_blob_request (msg : Value) : CM unit :=
  p ← the_store;
  let '(redirects, fallthrough) := split_redirects (extract_blob_request_hashes msg) p in
  _ ← match redirects with [] => mret tt | _ => reply (assemble_blob_redirect_envelope redirects) end;
  blobs ← for_each fallthrough blob_entry [];
  reply (assemble_blob_pack_envelope blobs fallthrough).

(** The two gates of a direct upload: negotiated, and a well-formed hash. *)
Definition direct_hash (message_type : string) (hash_hex : bytes) : CM Hash :=
  match plan_direct_blob_io_negotiation_gate (supports_direct_blob_io (si_negotiated si)) (bs message_type) with
  | Some plan => _ ← send_error (gate_error_message plan); throw (gate_keep_open plan)
  | None =>
      match plan_direct_blob_io_bad_hash_gate (bool_decide (is_Some (parse_hex_32 hash_hex))) (bs message_type) with
      | Some plan => _ ← send_error (gate_error_message plan); throw (gate_keep_open plan)
      | None => mret (default [] (parse_hex_32 hash_hex))
      end
  end.
Definition on_request_upload (msg : Value) : CM unit :=
  let hash_hex := extract_request_upload_hash_text msg in
  hash ← direct_hash "request-upload" hash_hex;
  p ← the_store;
  let put_url := up_put_url room_id hash (extract_request_upload_size msg) (extract_request_upload_content_type msg) p in
  reply match classify_request_upload_resolve_put_url_outcome (bool_decide (is_Some put_url)), put_url with
        | GrantUpload, Some u => assemble_upload_granted_envelope hash_hex (pu_url u) (pu_expires_at_unix u)
        | _, _ => assemble_upload_denied_envelope hash_hex (bs "use-ws")
        end.
Definition on_blob_uploaded (msg : Value) : CM unit :=
  let hash_hex := extract_blob_uploaded_hash_text msg in
  hash ← direct_hash "blob-uploaded" hash_hex;
  p ← the_store;
  match up_verify_uploaded room_id hash p with
  | Ok _ => broadcast (assemble_blob_available_envelope (shape_blob_uploaded_available_hashes hash_hex))
  | Err e => reply (assemble_upload_rejected_envelope hash_hex e)
  end.

(** *** Relays *)

Definition on_presence (msg : Value) : CM unit :=
  match parse_presence_lease_fields msg with
  | PresenceInvalid reason => refuse_open reason
  | PresenceValid _ _ => broadcast (assemble_presence_envelope (si_pubkey_hex si) (extract_presence_data_payload msg))
  end.
Definition on_relay (msg : Value) : CM unit :=
  broadcast (assemble_normalized_peer_stamped_relay_envelope (si_pubkey_hex si) (extract_webrtc_relay_fields msg)).

(** *** Key, policy, tick *)

Definition with_auth_key (r : Room) (k : option PublicKey) : Room :=
  mkRoom (rm_graph r) (rm_policy_timeline r) (rm_blobs r) k (rm_ticking r) (rm_connected_peers r) (rm_peer_sessions r)
    (rm_idle_since r) (rm_lineage r) (rm_query_specs r) (rm_projections r) (rm_hydrated r).
Definition on_set_room_key (msg : Value) : CM unit :=
  _ ← require_capability "set-room-key" "room.admin";
  let vk_hex := extract_set_room_key_pubkey_text msg in
  let parsed := parse_verifying_key vk_hex in
  match classify_set_room_key_parse_result (bool_decide (is_Some parsed)), parsed with
  | KeyParsed, Some vk =>
      r ← the_room;
      match classify_set_room_key_lock_state (bool_decide (rm_auth_key r = None)) with
      | LockRoom => _ ← put_room (with_auth_key r (Some vk)); reply (assemble_room_locked_envelope vk_hex)
      | RejectAlreadyLocked => sink_send (envelope_json (assemble_set_room_key_rejected_envelope shape_set_room_key_already_locked_rejection_reason))
      end
  | _, _ => sink_send (envelope_json (assemble_set_room_key_rejected_envelope shape_set_room_key_invalid_pubkey_rejection_reason))
  end.

Fixpoint parse_policy_keys (l : list Value) : result bytes (list PublicKey) :=
  match l with
  | [] => Ok []
  | v :: l =>
      let hex := extract_set_policy_can_write_hex_text v in
      match parse_hex_32 hex with
      | None => Err (bs "set-policy: invalid pubkey hex '" ++ hex ++ bs "'")
      | Some b => let? ks := parse_policy_keys l in Ok (b :: ks)
      end
  end.
Fixpoint parse_policy_rules (l : list Value) : result bytes (list PolicyRule) :=
  match l with
  | [] => Ok []
  | v :: l =>
      match str_at "path_glob" v with
      | None => Err (bs "set-policy: each rule must have a 'path_glob' string")
      | Some path_glob =>
          let? keys := parse_policy_keys (extract_set_policy_can_write_values v) in
          let? rules := parse_policy_rules l in
          Ok (mkRule path_glob keys [] [] :: rules)
      end
  end.
Definition parse_policy (msg : Value) : result bytes Policy :=
  let default_raw := extract_set_policy_default_text msg in
  match classify_set_policy_default default_raw with
  | None => Err (shape_set_policy_unknown_default_error default_raw)
  | Some d => let? rules := parse_policy_rules (extract_set_policy_rule_values msg) in Ok (mkPolicy rules d)
  end.
Definition on_set_policy (msg : Value) : CM unit :=
  _ ← require_capability "set-policy" "policy.admin";
  match parse_policy msg with
  | Err e => send_error e
  | Ok p => r ← the_room; _ ← put_room (room_set_policy r p); reply assemble_policy_set_envelope
  end.
Definition on_server_info : CM unit := reply (assemble_server_info_envelope (to_hex (ed_verifying_key server_key))).
Definition on_start_tick (msg : Value) : CM unit :=
  _ ← require_capability "start-tick" "tick.admin";
  r ← the_room;
  let '(r, started) := start_tick r in
  _ ← put_room r; reply (assemble_tick_start_envelope started (extract_start_tick_interval_ms msg)).
Definition on_stop_tick : CM unit :=
  _ ← require_capability "stop-tick" "tick.admin";
  r ← the_room; _ ← put_room (stop_tick r); reply assemble_tick_stopped_envelope.

(** *** Compaction *)

Definition on_compact_room : CM unit :=
  r ← the_room;
  match compact (rm_graph r) server_key with
  | Err e => refuse_open (shape_compact_room_compaction_failed_error (sync_error_str e))
  | Ok snap =>
      match verify_snapshot snap with
      | Err e => refuse_open (shape_compact_room_verify_failed_error (sync_error_str e))
      | Ok meta =>
          match rebuild_from_snapshot snap [] with
          | Err e => refuse_open (shape_compact_room_rebuild_failed_error (sync_error_str e))
          | Ok rebuilt =>
              let hash_hex := to_hex (snapshot_hash meta) in
              _ ← put_room (with_graph r rebuilt);
              _ ← broadcast (assemble_snapshot_pack_envelope (base64_encode (pack_snapshot_pack snap [])) hash_hex);
              reply (assemble_compact_ack_envelope hash_hex)
          end
      end
  end.

(** *** Archives, queries, the graph plane and topology *)

Definition archive_world : CM (Room * P * ArchiveIo) :=
  r ← the_room; p ← the_store; io ← read cn_io; mret (r, p, io).
Definition put_archive_world (w : Room * P * ArchiveIo) : CM unit :=
  _ ← put_room w.1.1; _ ← put_store w.1.2; modify (λ c, put_io c w.2).
Definition on_archive_describe (msg : Value) : CM unit :=
  _ ← authorize "archive.describe";
  w ← archive_world;
  let '(w, res) := process_archive_describe backend room_id msg w in
  _ ← put_archive_world w;
  match res with
  | Ok response => emit_archive_response response
  | Err e => send_error (archive_reason_str (ar_reason_class e) ++ bs ": " ++ ar_reason_message e)
  end.
Definition on_archive (command : string) (process : Room * P * ArchiveIo → (Room * P * ArchiveIo) * ArchiveWsResponse) : CM unit :=
  _ ← authorize command;
  w ← archive_world;
  let '(w, response) := process w in
  _ ← put_archive_world w; emit_archive_response response.

Definition on_query (command : string) (process : Room → Room * Value) : CM unit :=
  _ ← authorize command;
  r ← the_room;
  let '(r, response) := process r in
  _ ← put_room r; emit_query_response response.
(** A query that only reads the room. *)
Definition on_read (command : string) (process : Room → Value) : CM unit :=
  _ ← authorize command; r ← the_room; emit_query_response (process r).
(** The build waits for a slot once its payload is checked. *)
Definition projection_build (env : Env) (msg : Value) (r : Room) : Room * Value :=
  match env_slot env with
  | Some m =>
      if bool_decide (trimmed (bs "projection_id") msg = []) || bool_decide (trimmed (bs "query_spec_id") msg = [])
      then process_projection_build r msg build_limits
      else (r, build_refused (trimmed (bs "projection_id") msg) (bs "reject.query_backpressure") m)
  | None => process_projection_build r msg build_limits
  end.

Definition process_graph_get_frontier (r : Room) : Value :=
  jobj [(bs "type", jstr "frontier-queried"); (bs "room", JString room_id); (bs "frontier", jstrs (graph_frontier_heads_hex (rm_graph r)))].
Definition process_graph_get_causal_parents (msg : Value) (r : Room) : Value :=
  let node_id_hex := default [] (get_str (bs "node_id_hex") msg) in
  let '(parent_ids, node_found) := graph_causal_parents_hex (rm_graph r) node_id_hex in
  jobj [(bs "type", jstr "causal-parents-queried"); (bs "room", JString room_id); (bs "node_id_hex", JString node_id_hex);
        (bs "parent_ids", jstrs parent_ids); (bs "node_found", JBool node_found)].
Definition process_graph_get_canonical_resolution (r : Room) : Value :=
  let entries := graph_canonical_resolution_entries (rm_graph r) in
  jobj [(bs "type", jstr "canonical-resolution-queried"); (bs "room", JString room_id);
        (bs "entries", JArray ((λ e, jobj [(bs "key", JString (cm_key e)); (bs "value_bytes_b64", JString (cm_value_bytes_b64 e))]) <$> entries));
        (bs "entry_count", JNumber (Z.of_nat (length entries)))].
Definition process_graph_compute_sync_diff (msg : Value) (r : Room) : Value :=
  let peer_ids := omap as_str (default [] (jget (bs "peer_node_ids_hex") msg ≫= as_array)) in
  let '(only_in_server, only_in_peer) := graph_sync_diff_hex (rm_graph r) peer_ids in
  jobj [(bs "type", jstr "sync-diff-computed"); (bs "room", JString room_id);
        (bs "only_in_server", jstrs only_in_server); (bs "only_in_peer", jstrs only_in_peer)].

(** A topology operation on the registry; its refusal is reported as an error. *)
Definition on_topology {E A} (command : string) (op : SE (Rooms P W) E A) (completed : A → TopologyWsResponse) (refusal : E → bytes) : CM unit :=
  _ ← authorize command;
  res ← (λ c, let '(s, res) := op (cn_rooms c) in (put_rooms c s, Ok res));
  match res with Ok a => emit_topology_response (completed a) | Err e => send_error (refusal e) end.
Definition lineage_refusal (e : LineageRejected) : bytes := lineage_reason_str (lr_class e) ++ bs ": " ++ lr_message e.
Definition promotion_refusal (e : PromotionRejected) : bytes := promotion_reason_str (prj_class e) ++ bs ": " ++ prj_message e.
(** The promotion queue comes before the operation. *)
Definition queued_op {A} (env : Env) (op : SE (Rooms P W) PromotionRejected A) : SE (Rooms P W) PromotionRejected A :=
  match env_slot env with Some m => throw (queue_rejection m) | None => op end.

(** *** Dispatch *)

Definition handle_command (env : Env) (command : ClientDispatchCommand) (msg : Value) : CM unit :=
  let now := env_now env in
  match command with
  | Subscribe => on_subscribe msg
  | Pack => on_pack env msg
  | MstRequest => on_mst_request msg
  | MstDone => on_mst_done msg
  | Request => on_request msg
  | BlobUpload => on_blob_upload msg
  | BlobRequest => on_blob_request msg
  | RequestUpload => on_request_upload msg
  | BlobUploaded => on_blob_uploaded msg
  | Presence => on_presence msg
  | SetRoomKey => on_set_room_key msg
  | SetPolicy => on_set_policy msg
  | ServerInfo => on_server_info
  | StartTick => on_start_tick msg
  | StopTick => on_stop_tick
  | CompactRoom => on_compact_room
  | ArchiveDescribe => on_archive_describe msg
  | ArchiveValidate => on_archive "archive.validate" (process_archive_validate backend room_id msg)
  | ArchiveImport => on_archive "archive.import" (process_archive_import backend room_id msg (env_now_ms env))
  | ArchiveExport => on_archive "archive.export" (process_archive_export backend room_id msg server_key (env_write env))
  | QueryRegister => on_query "query.register" (λ r, process_query_register r msg)
  | ProjectionBuild => on_query "projection.build" (projection_build env msg)
  | ProjectionRead => on_read "projection.read" (λ r, process_projection_read r msg)
  | ProjectionInvalidate => on_query "projection.invalidate" (λ r, process_projection_invalidate r msg)
  | ProjectionList => on_read "projection.list" (λ r, process_projection_list r msg)
  | ReplayReadRange => on_read "replay.read-range" (λ r, process_replay_read_range r msg)
  | GraphGetFrontier => on_read "graph.get-frontier" process_graph_get_frontier
  | GraphGetCausalParents => on_read "graph.get-causal-parents" (process_graph_get_causal_parents msg)
  | GraphGetCanonicalResolution => on_read "graph.get-canonical-resolution" process_graph_get_canonical_resolution
  | GraphComputeSyncDiff => on_read "graph.compute-sync-diff" (process_graph_compute_sync_diff msg)
  | TopologyCreateChild =>
      on_topology "topology.create-child"
        (process_topology_create_child (default room_id (get_str (bs "parent_room_id") msg)) msg now) CreateChildCompleted lineage_refusal
  | TopologyDescribeLineage =>
      on_topology "topology.describe-lineage" (describe_lineage (default room_id (get_str (bs "room_id") msg)))
        DescribeLineageResult lineage_refusal
  | TopologyListChildren =>
      on_topology "topology.list-children" (list_children (default room_id (get_str (bs "parent_room_id") msg)) now)
        ListChildrenResult lineage_refusal
  | TopologyProposePromotion =>
      on_topology "topology.propose-promotion" (queued_op env (process_topology_propose_promotion msg now))
        ProposePromotionCompleted promotion_refusal
  | TopologyValidatePromotion =>
      on_topology "topology.validate-promotion" (queued_op env (process_topology_validate_promotion msg now))
        ValidatePromotionCompleted promotion_refusal
  | TopologyApplyPromotion =>
      on_topology "topology.apply-promotion" (queued_op env (process_topology_apply_promotion server_key msg now))
        ApplyPromotionCompleted promotion_refusal
  | Relay => on_relay msg
  | Unknown => if should_ignore_unknown_client_message_type (extract_client_message_type_text msg) then mret tt else throw false
  end.

(** The answer says whether the connection stays open. *)
Definition handle_client_message (env : Env) (text : bytes) (c : Conn P W L) : Conn P W L * bool :=
  let run (m : CM unit) := let '(c, res) := m c in (c, match res with Ok _ => true | Err keep_open => keep_open end) in
  match build_client_dispatch_context text with
  | DispatchMalformed plan => run (_ ← send_error (error_message plan); throw (keep_connection_open plan))
  | DispatchReady ctx => run (handle_command env (dc_command ctx) (dc_message ctx))
  end.
End commands.

(** ** A server with its sessions *)

(** An open session: the subscription and limiters it updates, and its end of the
    room's broadcast channel. *)
Record Live (L : Type) := mkLive {
  lv_info : SessionInfo;
  lv_sub : Subscription;
  lv_node_limiter : option L;
  lv_byte_limiter : option L;
  lv_inbox : list bytes;
  lv_lagged : bool;
}.
Arguments mkLive {L}. Arguments lv_info {L}. Arguments lv_sub {L}. Arguments lv_node_limiter {L}.
Arguments lv_byte_limiter {L}. Arguments lv_inbox {L}. Arguments lv_lagged {L}.

(** Where the task of a connection stands, at each place where other tasks can run
    before it goes on: the hello is awaited, the hello is settled, the welcome is
    packed, the session is counted, the peer is in the peer set, the idle clock is
    cleared, the loop runs, the loop has ended, the session is no longer counted. *)
Inductive ConnPhase (L : Type) :=
| Waiting (room_id : bytes) (inbox : list bytes) (lagged : bool)
| Settled (l : Live L) (hello : Value)
| Packed (l : Live L) (w : WelcomeCatchupPackage)
| Joining (l : Live L) (w : WelcomeCatchupPackage) (prior : Z)
| Clearing (l : Live L) (w : WelcomeCatchupPackage) (inserted : bool)
| Welcoming (l : Live L) (w : WelcomeCatchupPackage)
| Running (l : Live L)
| Ending (l : Live L) (announce : bool)
| Leaving (l : Live L) (announce removed : bool).
Arguments Waiting {L}. Arguments Settled {L}. Arguments Packed {L}. Arguments Joining {L}. Arguments Clearing {L}.
Arguments Welcoming {L}. Arguments Running {L}. Arguments Ending {L}. Arguments Leaving {L}.
Definition phase_live {L} (p : ConnPhase L) : option (Live L) :=
  match p with
  | Waiting _ _ _ => None
  | Settled l _ | Packed l _ | Joining l _ _ | Clearing l _ _ | Welcoming l _ | Running l | Ending l _ | Leaving l _ _ => Some l
  end.
(** The room the task holds. *)
Definition phase_room {L} (p : ConnPhase L) : bytes :=
  match p with Waiting room _ _ => room | _ => from_option (λ l, si_room_id (lv_info l)) [] (phase_live p) end.
(** The session that is counted in the room. *)
Definition phase_session {L} (p : ConnPhase L) : option (bytes * bytes) :=
  match p with
  | Waiting _ _ _ | Settled _ _ | Packed _ _ | Leaving _ _ _ => None
  | _ => (λ l, (si_room_id (lv_info l), si_pubkey_hex (lv_info l))) <$> phase_live p
  end.

Record Sys (P W L : Type) := mkSys {
  sy_rooms : Rooms P W;
  sy_io : ArchiveIo;
  sy_conns : gmap Z (ConnPhase L);
}.
Arguments mkSys {P W L}. Arguments sy_rooms {P W L}. Arguments sy_io {P W L}. Arguments sy_conns {P W L}.

(** The first frame of a socket: within 15 seconds, a text, another kind, an error or
    the end of the stream. *)
Inductive FirstFrame := FirstTimeout | FirstText (text : bytes) | FirstOther | FirstError | FirstEnd.
(** What the loop of a session waits for. *)
Inductive SocketEvent :=
| EvText (text : bytes) | EvCloseFrame | EvStreamEnd | EvStreamError
| EvPing (payload : bytes) | EvPong | EvBinary
| EvPush | EvDeadline.

(** Slicing a text at a byte that is inside a character panics. *)
Definition char_boundary (s : bytes) (n : nat) : bool := match s !! n with Some b => negb (is_cont b) | None => true end.

(** What a handshake ends in. *)
Inductive Handshake (L : Type) := HsClosed | HsPanicked | HsOpen (l : Live L).
Arguments HsClosed {L}. Arguments HsPanicked {L}. Arguments HsOpen {L}.

Section sessions.
Context `{Blake3, Blake3Keyed, Postcard Transaction, Ed25519, Postcard (list WireNode), Postcard (list PolicyTimelineEntry), Postcard (list Hash)}.
Context `{Serde RoomLineage, Serde PromotionRecord, Json, JsonRead, EnvelopeJson, ManifestJson, ResponseJson, CapsFromValue, Postcard Ibf}.
Context {P : Type} `{NodePersistence P, BlobPersistence P, UrlPersistence P} {W L : Type} `{RateLimiting L}.
Context (backend : bytes) (build_limits : BuildLimits) (server_key : SigningKey).
Context (entries : CapGraph → list (bytes * list bytes)) (profile : result bytes (option CapabilityProfile)).
(** The rates per peer, the budget of a catch-up, and the length of the channel. *)
Context (peer_rate_nodes peer_rate_bytes : Z) (budget : ScopeCatchupBudget) (capacity : nat).
Abbreviation CM := (SE (Conn P W L) bool).

Definition server_pubkey_hex : bytes := to_hex (ed_verifying_key server_key).

(** *** The handshake *)

Definition new_limiter (enabled : bool) (rate : Z) : option L :=
  if enabled then (if rate =? 0 then None else Some (limiter_new rate)) else None.

(** A locked room asks for a token; the session has the token's capabilities and ends
    with it. *)
Definition authenticate (hello : Value) (r : Room) (pubkey_hex room_id : bytes) (now_secs : Z) : result bytes (option Z * gset bytes) :=
  match rm_auth_key r with
  | None => Ok (plan_token_deadline_remaining_secs None now_secs, ∅)
  | Some room_vk =>
      let? t := verify_hello_token entries profile hello room_vk pubkey_hex room_id now_secs in
      Ok ((λ remaining, now_secs + remaining) <$> plan_token_deadline_remaining_secs (Some (expiry_secs t)) now_secs,
          list_to_set (vt_capabilities t))
  end.

(** The difference the hello asks for: what only the client and only the server has. *)
Definition hello_diff (hello : Value) (g : RoomGraph) : list NodeId * list NodeId :=
  let client_known := parse_client_frontier_node_ids hello in
  decide_sync_diff (mkSyncDiff (Token.supports_ibf (negotiate_capabilities (parse_client_capabilities hello))) client_known
    (parse_client_ibf_input hello) (all_node_ids g) (missing_hashes g (shape_client_known_id_set client_known))).

(** [peers] lists the connected peers in the order of their hash set. *)
Definition welcome_of (hello : Value) (r : Room) (pubkey_hex : bytes) (peers : list bytes) : WelcomeCatchupPackage :=
  let g := rm_graph r in
  let caps := negotiate_capabilities (parse_client_capabilities hello) in
  let '(only_in_client, only_in_server) := hello_diff hello g in
  let nodes := get_nodes g only_in_server in
  assemble_welcome_catchup_package (shape_welcome_root_hex (merkle_root g)) (shape_welcome_server_frontier_hex (g_frontier g))
    (shape_welcome_missing_hex only_in_client) caps server_pubkey_hex (shape_welcome_peer_list peers pubkey_hex)
    (welcome_mst_root_hex caps (all_node_ids g)) (shape_catchup_pack_payload_b64 nodes) (plan_has_catchup (Z.of_nat (length nodes))).

(** The catch-up pack, filtered; one that is over the budget is dropped. *)
Definition send_catchup (si : SessionInfo) (sub : Subscription) (w : WelcomeCatchupPackage) : CM bool :=
  if has_catchup w then
    let o := filter_pack_for_subscriber_with_stats (serialize_catchup_pack_envelope_json (catchup_b64 w)) sub in
    match plan_filtered_catchup_send_payload (filtered_env o) with
    | Some text =>
        if should_drop_filtered_catchup_for_budget (accepted_count o) (accepted_bytes o) budget then mret true
        else ws_send text
    | None => mret true
    end
  else mret true.

Definition in_room (room_id : bytes) (f : Room → Room) (c : Conn P W L) : Conn P W L :=
  put_rooms c (set_room (cn_rooms c) room_id (f (room_of (cn_rooms c) room_id))).
Definition join_room (room_id pubkey_hex : bytes) : CM unit := λ c,
  let '(r, gauge) := register_peer (room_of (cn_rooms c) room_id) pubkey_hex in
  let c := in_room room_id (λ _, r) c in
  (match gauge with GaugeIncrement => put_bcast c (envelope_json (assemble_peer_joined_envelope pubkey_hex)) | _ => c end, Ok tt).
(** A handshake that fails after joining leaves without a broadcast. *)
Definition abandon (room_id pubkey_hex : bytes) (now : Instant) : CM unit :=
  modify (in_room room_id (λ r, (deregister_peer r pubkey_hex now).1)).
(** What is settled before the peer joins. *)
Definition settle_hello (hello : Value) (r : Room) (room_id : bytes) (now_secs : Z) : result bytes (Live L) :=
  let pubkey_hex := extract_hello_pubkey_text hello in
  let is_server_peer := bool_decide (pubkey_hex = server_pubkey_hex) in
  let plan := plan_peer_rate_limiters is_server_peer peer_rate_nodes peer_rate_bytes in
  match authenticate hello r pubkey_hex room_id now_secs with
  | Err e => Err (bs "auth: " ++ e)
  | Ok (deadline, caps) =>
      Ok (mkLive (mkSessionInfo room_id pubkey_hex is_server_peer caps (negotiate_capabilities (parse_client_capabilities hello)) deadline)
            (from_hello_value (jindex "subscribe" hello)) (new_limiter (enable_node_limiter plan) peer_rate_nodes)
            (new_limiter (enable_byte_limiter plan) peer_rate_bytes) [] false)
  end.

(** The sends of a welcome, and whether they succeed. *)
Definition send_welcome (l : Live L) (w : WelcomeCatchupPackage) : CM bool :=
  ok ← ws_send (welcome_json w);
  if should_terminate_after_send ok then mret false
  else ok ← send_catchup (lv_info l) (lv_sub l) w; mret (negb (should_terminate_after_send ok)).

(** A handshake that nothing interrupts. *)
Definition run_handshake (room_id : bytes) (first : FirstFrame) (now : Instant) (now_secs : Z) (peers : list bytes) :
    SE (Conn P W L) bool (Handshake L) :=
  match first with
  | FirstTimeout | FirstOther | FirstError | FirstEnd => mret HsClosed
  | FirstText text =>
      match classify_hello_payload text with
      | ProtocolErrorExpectedHello => _ ← send_error (bs "expected hello"); mret HsClosed
      | ValidHello hello =>
          let pubkey_hex := extract_hello_pubkey_text hello in
          if negb (char_boundary pubkey_hex (Nat.min 8 (length pubkey_hex))) then mret HsPanicked
          else
            r ← read (λ c, room_of (cn_rooms c) room_id);
            match settle_hello hello r room_id now_secs with
            | Err e => _ ← send_error e; mret HsClosed
            | Ok live =>
                let w := welcome_of hello r pubkey_hex peers in
                _ ← join_room room_id pubkey_hex;
                opened ← send_welcome live w;
                if negb opened then _ ← abandon room_id pubkey_hex now; mret HsClosed else mret (HsOpen live)
            end
      end
  end.

(** *** The broadcast channel

    A receiver that falls behind by more than the capacity loses the oldest messages
    and is told at its next turn. *)
Definition queue (msgs inbox : list bytes) (lagged : bool) : list bytes * bool :=
  let inbox := inbox ++ msgs in
  let over := (length inbox - capacity)%nat in
  (drop over inbox, lagged || bool_decide (0 < over)%nat).
Definition with_inbox (l : Live L) (inbox : list bytes) (lagged : bool) : Live L :=
  mkLive (lv_info l) (lv_sub l) (lv_node_limiter l) (lv_byte_limiter l) inbox lagged.
Definition receive (msgs : list bytes) (l : Live L) : Live L :=
  let '(inbox, lagged) := queue msgs (lv_inbox l) (lv_lagged l) in with_inbox l inbox lagged.
Definition hear (msgs : list bytes) (p : ConnPhase L) : ConnPhase L :=
  match p with
  | Waiting room inbox lagged => let '(inbox, lagged) := queue msgs inbox lagged in Waiting room inbox lagged
  | Settled l hello => Settled (receive msgs l) hello
  | Packed l w => Packed (receive msgs l) w
  | Joining l w prior => Joining (receive msgs l) w prior
  | Clearing l w inserted => Clearing (receive msgs l) w inserted
  | Welcoming l w => Welcoming (receive msgs l) w
  | Running l => Running (receive msgs l)
  | Ending l announce => Ending (receive msgs l) announce
  | Leaving l announce removed => Leaving (receive msgs l) announce removed
  end.
Definition publish (room_id : bytes) (msgs : list bytes) (conns : gmap Z (ConnPhase L)) : gmap Z (ConnPhase L) :=
  (λ p, if bool_decide (phase_room p = room_id) then hear msgs p else p) <$> conns.

(** The state a handler of session [l] starts from. *)
Definition conn_of (sy : Sys P W L) (l : Live L) (sends : list SendOutcome) : Conn P W L :=
  mkConn (sy_rooms sy) (sy_io sy) (lv_sub l) (lv_node_limiter l) (lv_byte_limiter l) [] [] sends.

(** *** The loop *)

(** One broadcast: not to its sender, and through the filter. *)
Definition push_one (l : Live L) (env : bytes) : CM bool :=
  if should_skip_self_echo_broadcast_envelope env (si_pubkey_hex (lv_info l)) then mret true
  else
    match filtered_env (filter_pack_for_subscriber_with_stats env (lv_sub l)) with
    | None => mret true
    | Some out => ok ← ws_send out; mret (negb (should_terminate_after_send ok))
    end.
(** An event, and whether the session goes on; [None] when the event cannot occur. *)
Definition on_event (env : Env) (l : Live L) (ev : SocketEvent) (c : Conn P W L) : option (Conn P W L * bool) :=
  let run (m : CM bool) := let '(c, res) := m c in Some (c, match res with Ok b => b | Err b => b end) in
  match ev with
  | EvText text => Some (handle_client_message backend build_limits server_key (lv_info l) env text c)
  | EvCloseFrame | EvStreamEnd | EvStreamError => Some (c, false)
  | EvPing payload => Some ((put_out c (OutPong payload)).1, true)
  | EvPong | EvBinary => Some (c, true)
  | EvDeadline =>
      match si_deadline (lv_info l) with
      | Some d => if d * 1000 <=? env_now_ms env then run (_ ← emit_close_frame assemble_token_expired_close_frame; mret false) else None
      | None => None
      end
  | EvPush =>
      if lv_lagged l then run (_ ← emit_close_frame assemble_resync_required_close_frame; mret false)
      else match lv_inbox l with [] => None | msg :: _ => run (push_one l msg) end
  end.

(** The session after an event that it survives. *)
Definition live_after (ev : SocketEvent) (l : Live L) (c : Conn P W L) : Live L :=
  mkLive (lv_info l) (cn_sub c) (cn_node_limiter c) (cn_byte_limiter c)
    (match ev with EvPush => tail (lv_inbox l) | _ => lv_inbox l end) (lv_lagged l).

(** *** The task of a connection

    [handle_socket] cut where other tasks can run: the locks of [register_peer] and
    [deregister_peer] are taken one after the other.  A message of a client is handled
    in one step. *)

(** The task goes on, or ends and drops its handle of the room. *)
Definition go_on (sy : Sys P W L) (id : Z) (p : ConnPhase L) (c : Conn P W L) : option (Sys P W L * list Out) :=
  Some (mkSys (cn_rooms c) (cn_io c) (publish (phase_room p) (cn_bcast c) (<[id := p]> (sy_conns sy))), cn_out c).
Definition let_go (room_id : bytes) (conns : gmap Z (ConnPhase L)) (s : Rooms P W) : Rooms P W :=
  if decide (map_Exists (λ _ p, phase_room p = room_id) conns) then s else release s room_id.
Definition finish (sy : Sys P W L) (id : Z) (room_id : bytes) (c : Conn P W L) : option (Sys P W L * list Out) :=
  let others := delete id (sy_conns sy) in
  Some (mkSys (let_go room_id others (cn_rooms c)) (cn_io c) (publish room_id (cn_bcast c) others), cn_out c).

(** The room is entered, and its channel subscribed to, before the hello. *)
Definition connect (sy : Sys P W L) (id : Z) (room_id : bytes) (now : Instant) : Sys P W L :=
  mkSys (get_or_create (sy_rooms sy) room_id now) (sy_io sy) (<[id := Waiting room_id [] false]> (sy_conns sy)).
Definition on_hello (sy : Sys P W L) (id : Z) (first : FirstFrame) (now_secs : Z) (sends : list SendOutcome) : option (Sys P W L * list Out) :=
  match sy_conns sy !! id with
  | Some (Waiting room_id inbox lagged) =>
      let c := mkConn (sy_rooms sy) (sy_io sy) everything None None [] [] sends in
      match first with
      | FirstTimeout | FirstOther | FirstError | FirstEnd => finish sy id room_id c
      | FirstText text =>
          match classify_hello_payload text with
          | ProtocolErrorExpectedHello => finish sy id room_id (send_error (bs "expected hello") c).1
          | ValidHello hello =>
              let pubkey_hex := extract_hello_pubkey_text hello in
              if negb (char_boundary pubkey_hex (Nat.min 8 (length pubkey_hex))) then finish sy id room_id c
              else
                match settle_hello hello (room_of (sy_rooms sy) room_id) room_id now_secs with
                | Err e => finish sy id room_id (send_error e c).1
                | Ok l => go_on sy id (Settled (with_inbox l inbox lagged) hello) c
                end
          end
      end
  | _ => None
  end.
(** The steps of a task between its hello and its loop, and after its loop. *)
Definition handshake_step (sy : Sys P W L) (id : Z) (now : Instant) (peers : list bytes) (sends : list SendOutcome) : option (Sys P W L * list Out) :=
  p ← sy_conns sy !! id;
  l ← phase_live p;
  let room_id := si_room_id (lv_info l) in
  let pubkey_hex := si_pubkey_hex (lv_info l) in
  let c := conn_of sy l sends in
  let r := room_of (sy_rooms sy) room_id in
  match p with
  | Settled l hello => go_on sy id (Packed l (welcome_of hello r pubkey_hex peers)) c
  | Packed l w =>
      let '(r, prior) := register_sessions r pubkey_hex in
      go_on sy id (Joining l w prior) (in_room room_id (λ _, r) c)
  | Joining l w prior =>
      let '(r, inserted) := register_peers r pubkey_hex prior in
      go_on sy id (Clearing l w inserted) (in_room room_id (λ _, r) c)
  | Clearing l w inserted =>
      let '(r, gauge) := register_idle r inserted in
      let c := in_room room_id (λ _, r) c in
      go_on sy id (Welcoming l w)
        (match gauge with GaugeIncrement => put_bcast c (envelope_json (assemble_peer_joined_envelope pubkey_hex)) | _ => c end)
  | Welcoming l w =>
      let '(c, res) := send_welcome l w c in
      go_on sy id (match res with Ok true => Running l | _ => Ending l false end) c
  | Ending l announce =>
      let '(r, removed) := deregister_sessions r pubkey_hex in
      go_on sy id (Leaving l announce removed) (in_room room_id (λ _, r) c)
  | Leaving l announce removed =>
      let '(r, gauge) := deregister_peers r pubkey_hex removed now in
      let c := in_room room_id (λ _, r) c in
      finish sy id room_id
        (match gauge, announce with
         | GaugeDecrement, true => put_bcast c (envelope_json (assemble_peer_left_envelope pubkey_hex))
         | _, _ => c
         end)
  | Waiting _ _ _ | Running _ => None
  end.
(** An event of the loop; a session that ends leaves afterwards. *)
Definition session_event (sy : Sys P W L) (id : Z) (env : Env) (ev : SocketEvent) (sends : list SendOutcome) : option (Sys P W L * list Out) :=
  match sy_conns sy !! id with
  | Some (Running l) =>
      match on_event env l ev (conn_of sy l sends) with
      | None => None
      | Some (c, true) => go_on sy id (Running (live_after ev l c)) c
      | Some (c, false) => go_on sy id (Ending l true) c
      end
  | _ => None
  end.
End sessions.
