(* ===== verification/BlobHttp.v ===== *)
(** The HTTP origin of blobs (server blob_http.rs): reading, probing and storing blobs
    by their hash, and the resolution of direct URLs.

    A handler is a function of the request, the store and the inventory of the garbage
    collector.  What the framework decides is an argument: whether the blocking task ran
    ([worker]), and the clock.  Header values are those the framework found; a value
    that is not visible ASCII has no text. *)

From S2P Require Import Prelude StErr Hex Str Dates Op Node Utf8 Gc DirStore DirFacts Persist HostTypes Host Studio Session.

(** ** Requests and responses *)

Record Headers := mkHeaders { authorization : option bytes; accept_encoding : option bytes; content_encoding : option bytes }.
Inductive Body := NoBody | RawBody (b : bytes) | JsonBody (v : Value).
Record Response := mkResponse { rp_status : Z; rp_headers : list (bytes * bytes); rp_body : Body }.

(** [HeaderValue::to_str]. *)
Definition visible (b : Z) : bool := ((32 <=? b) && (b <=? 126)) || (b =? 9).
Definition to_str (v : bytes) : option bytes := if forallb visible v then Some v else None.

Definition status_only (status : Z) : Response := mkResponse status [] NoBody.
Definition json_response (status : Z) (v : Value) : Response :=
  mkResponse status [(bs "content-type", bs "application/json")] (JsonBody v).
Definition error_response (status : Z) (message : string) : Response := json_response status (jobj [(bs "error", JString (bs message))]).
Definition non_canonical_response : Response := error_response 400 "non-canonical hash".
Definition unauthorized_response : Response := error_response 401 "unauthorized".
Definition not_found_response : Response := error_response 404 "not found".
Definition unsupported_media_type_response : Response := error_response 415 "Content-Encoding not supported on PUT".
Definition bad_request_response (message : string) : Response := error_response 400 message.
Definition internal_response : Response := error_response 500 "internal error".
Definition persist_failure_response (e : PersistBlobError) : Response :=
  error_response (match e with PersistUnavailable _ => 503 | PersistBackend _ => 500 end) "blob write failed".

(** ** The text of a time *)

(** The formats [{:02}] and [{:04}]. *)
Definition pad (width : nat) (n : Z) : bytes := let d := decimal n in replicate (width - length d) 48 ++ d.
Definition MAX_UNIX_SECS : Z := 253402300799.
Definition format_iso8601_utc (unix_secs : Z) : bytes :=
  let unix_secs := Z.min unix_secs MAX_UNIX_SECS in
  let secs_of_day := unix_secs mod 86400 in
  let '(year, month, day) := civil_from_days (unix_secs / 86400) in
  pad 4 year ++ bs "-" ++ pad 2 month ++ bs "-" ++ pad 2 day ++ bs "T" ++ pad 2 (secs_of_day / 3600) ++ bs ":" ++
  pad 2 (secs_of_day mod 3600 / 60) ++ bs ":" ++ pad 2 (secs_of_day mod 60) ++ bs "Z".

(** ** Content coding *)

Definition is_qvalue_zero (raw : bytes) : bool :=
  bool_decide (raw = bs "0") ||
  match strip_prefix (bs "0.") raw with
  | Some rest => (length rest <=? 3)%nat && forallb (λ b, b =? 48) rest
  | None => false
  end.
(** [splitn(2, sep)]: what stands before the first separator and what follows it. *)
Fixpoint split_once (sep : Z) (s : bytes) : bytes * option bytes :=
  match s with
  | [] => ([], None)
  | b :: s' => if b =? sep then ([], Some s') else let '(p, r) := split_once sep s' in (b :: p, r)
  end.
Definition refuses (param : bytes) : bool :=
  let '(key, value) := split_once 61 (trim param) in
  eq_ignore_ascii_case (trim key) (bs "q") && is_qvalue_zero (trim (default [] value)).
Definition coding_accepts_zstd (token : bytes) : bool :=
  match split_on 59 token with
  | name :: params => eq_ignore_ascii_case (trim name) (bs "zstd") && negb (existsb refuses params)
  | [] => false
  end.
Definition accepts_zstd (headers : Headers) : bool :=
  match accept_encoding headers ≫= to_str with Some v => existsb coding_accepts_zstd (split_on 44 v) | None => false end.

(** ** Authorization *)

(** The difference of the lengths is cast to a byte; a byte past the end is zero. *)
Definition byte_at (s : bytes) (i : nat) : Z := default 0 (s !! i).
Definition constant_time_eq (a b : bytes) : bool :=
  foldl (λ diff i, Z.lor diff (Z.lxor (byte_at a i) (byte_at b i)))
    (Z.lxor (Z.of_nat (length a)) (Z.of_nat (length b)) mod 256) (seq 0 (Nat.max (length a) (length b))) =? 0.

Record BlobHttpConfig := mkHttpConfig { auth_token : option bytes; max_blob_bytes : Z }.
Definition http_config_default : BlobHttpConfig := mkHttpConfig None (64 * 1024 * 1024).
Definition check_auth (headers : Headers) (cfg : BlobHttpConfig) : option Response :=
  match auth_token cfg with
  | None => None
  | Some expected =>
      match (authorization headers ≫= to_str) ≫= strip_prefix (bs "Bearer ") with
      | Some token => if constant_time_eq token expected then None else Some unauthorized_response
      | None => Some unauthorized_response
      end
  end.

(** ** Handlers *)

(** The part of [BlobPersistence] that only this surface uses. *)
Class OriginPersistence (P : Type) := {
  op_get_blob_encoded : Hash → P → option (bytes * bytes) * P;
  op_supports_presigned_urls : P → bool;
}.
#[export] Instance dir_origin : OriginPersistence DirState := {|
  op_get_blob_encoded := λ h s, get_blob_encoded s h;
  op_supports_presigned_urls := λ _, false;
|}.
#[export] Instance composite_origin {N B} `{OriginPersistence B} : OriginPersistence (Composite N B) := {|
  op_get_blob_encoded := λ h c, let '(r, b) := op_get_blob_encoded h (co_blobs c) in (r, mkComposite (co_nodes c) b);
  op_supports_presigned_urls := λ c, op_supports_presigned_urls (co_blobs c);
|}.

Definition GLOBAL_ROOM_PLACEHOLDER : bytes := bs "_global".
Definition UPLOAD_MARK_SENTINEL : bytes := bs "upload".
Definition octets (etag : bytes) : list (bytes * bytes) :=
  [(bs "content-type", bs "application/octet-stream"); (bs "etag", [34] ++ etag ++ [34])].
Definition blob_headers (etag encoding : bytes) : list (bytes * bytes) :=
  [(bs "content-type", bs "application/octet-stream"); (bs "content-encoding", encoding); (bs "etag", [34] ++ etag ++ [34])].

Record BlobUrlQuery := mkUrlQuery { uq_op : option bytes; uq_size : option bytes; uq_content_type : option bytes }.

Section handlers.
Context `{Blake3} {P : Type} `{BlobPersistence P, OriginPersistence P, UrlPersistence P} {W : Type} `{AssetInventoryStore W}.
Variable cfg : BlobHttpConfig.
Implicit Types (p : P) (inv : option W).

(** What every handler checks first, and the hash it goes on with. *)
Definition gate (hash_hex : bytes) (headers : Headers) : result Response Hash :=
  if negb (is_canonical_blob_name hash_hex) then Err non_canonical_response
  else
    match check_auth headers cfg with
    | Some resp => Err resp
    | None => match hash_from_hex hash_hex with Some h => Ok h | None => Err non_canonical_response end
    end.

Definition http_get_blob (hash_hex : bytes) (headers : Headers) (worker : bool) p : Response * P :=
  match gate hash_hex headers with
  | Err resp => (resp, p)
  | Ok hash =>
      if negb worker then (internal_response, p)
      else
        let '(encoded, p) := if accepts_zstd headers then op_get_blob_encoded hash p else (None, p) in
        match encoded with
        | Some (b, encoding) => (mkResponse 200 (blob_headers hash_hex encoding) (RawBody b), p)
        | None =>
            let '(r, p) := bp_get_blob P hash p in
            (match r with Some b => mkResponse 200 (octets hash_hex) (RawBody b) | None => not_found_response end, p)
        end
  end.

Definition http_head_blob (hash_hex : bytes) (headers : Headers) (worker : bool) p : Response :=
  let resp :=
    match gate hash_hex headers with
    | Err resp => resp
    | Ok hash =>
        if negb worker then internal_response
        else if bp_has_blob P hash p then mkResponse 200 (octets hash_hex) NoBody else not_found_response
    end in
  mkResponse (rp_status resp) (rp_headers resp) NoBody.

Definition mark_upload_active (now : SystemTime) inv (hash_hex : bytes) : option W :=
  (λ w, (upsert_active_seen UPLOAD_MARK_SENTINEL hash_hex now w).1) <$> inv.

Definition http_put_blob (hash_hex : bytes) (headers : Headers) (body : bytes) (worker : bool) (now : SystemTime) p inv :
    Response * (P * option W) :=
  if negb (is_canonical_blob_name hash_hex) then (non_canonical_response, (p, inv))
  else
    match check_auth headers cfg with
    | Some resp => (resp, (p, inv))
    | None =>
        if bool_decide (is_Some (content_encoding headers)) then (unsupported_media_type_response, (p, inv))
        else
          match hash_from_hex hash_hex with
          | None => (non_canonical_response, (p, inv))
          | Some path_hash =>
              if negb worker then (internal_response, (p, inv))
              else if bool_decide (blake3_hash body ≠ path_hash) then (error_response 422 "hash mismatch", (p, inv))
              else if bp_has_blob P path_hash p then (status_only 200, (p, mark_upload_active now inv hash_hex))
              else
                let '(p, r) := bp_persist_blob P path_hash body p in
                match r with
                | Err e => (persist_failure_response e, (p, inv))
                | Ok _ => (status_only 201, (p, mark_upload_active now inv hash_hex))
                end
          end
    end.

(** The route: the extractor of the body refuses more than the limit before the
    handler runs. *)
Definition put_route (too_large : Response) (hash_hex : bytes) (headers : Headers) (body : bytes) (worker : bool)
    (now : SystemTime) p inv : Response * (P * option W) :=
  if max_blob_bytes cfg <? Z.of_nat (length body) then (too_large, (p, inv))
  else http_put_blob hash_hex headers body worker now p inv.

Definition url_response (presigned : option PresignedBlobUrl) : Response :=
  match presigned with
  | Some u => json_response 200 (jobj [(bs "url", JString (pu_url u)); (bs "expiresAtUtc", JString (format_iso8601_utc (pu_expires_at_unix u)))])
  | None => status_only 501
  end.
(** The size is a hint of the get operation that no store uses. *)
Definition resolve_blob_url (hash_hex : bytes) (headers : Headers) (query : BlobUrlQuery) (worker : bool) p : Response :=
  match gate hash_hex headers with
  | Err resp => resp
  | Ok hash =>
      if bool_decide (uq_op query = Some (bs "get")) then
        if worker then url_response (up_get_url GLOBAL_ROOM_PLACEHOLDER hash p) else internal_response
      else if bool_decide (uq_op query = Some (bs "put")) then
        match uq_size query ≫= parse_u64 with
        | Some n =>
            if 0 <? n then
              if worker then url_response (up_put_url GLOBAL_ROOM_PLACEHOLDER hash n (uq_content_type query) p) else internal_response
            else bad_request_response "size is required and must be a positive integer for op=put"
        | None => bad_request_response "size is required and must be a positive integer for op=put"
        end
      else bad_request_response "op must be 'get' or 'put'"
  end.

Definition confirm_blob_uploaded (hash_hex : bytes) (headers : Headers) (worker : bool) (now : SystemTime) p inv : Response * option W :=
  match gate hash_hex headers with
  | Err resp => (resp, inv)
  | Ok hash =>
      if negb worker then (internal_response, inv)
      else if negb (op_supports_presigned_urls p) then (status_only 501, inv)
      else
        match up_verify_uploaded GLOBAL_ROOM_PLACEHOLDER hash p with
        | Ok _ => (status_only 200, mark_upload_active now inv hash_hex)
        | Err msg => (json_response 409 (jobj [(bs "error", JString msg)]), inv)
        end
  end.
End handlers.

(** ** A stored blob is served *)

Section origin.
Context `{Blake3, !Blake3Laws, Zstd, !ZstdLaws} {W : Type} `{AssetInventoryStore W}.
Variables (cfg : BlobHttpConfig) (ccfg : BlobCompressionConfig).
Implicit Types (s : DirState) (h : Hash).
#[local] Instance this_dir : BlobPersistence DirState := dir_blob_persistence ccfg.

(** A response that carries bytes with [Q], as they are or compressed. *)
Definition delivers (resp : Response) (hash_hex : bytes) (Q : bytes → Prop) : Prop :=
  (∃ b, resp = mkResponse 200 (octets hash_hex) (RawBody b) ∧ Q b) ∨
  (∃ c b, resp = mkResponse 200 (blob_headers hash_hex (bs "zstd")) (RawBody c) ∧ zstd_decode c = Some b ∧ Q b).

Lemma gate_ok hash_hex hd h : gate cfg hash_hex hd = Ok h ↔ check_auth hd cfg = None ∧ hash_hex = to_hex h ∧ byte_array 32 h.
Proof.
  unfold gate. split.
  - destruct (is_canonical_blob_name hash_hex); [|done]. cbn. destruct (check_auth hd cfg); [done|].
    destruct (hash_from_hex hash_hex) as [h'|] eqn:E; [|done]. intros [= ->]. by apply hash_from_hex_inv in E as [-> ?].
  - intros (-> & -> & Hh). rewrite to_hex_canonical by done. cbn. by rewrite hash_from_hex_to_hex.
Qed.

(** A quiet read of a blob, encoded or not. *)
Lemma get_quiet s hd h :
  dir_io s = [] → check_auth hd cfg = None → byte_array 32 h →
  (http_get_blob cfg (to_hex h) hd true s).1 =
  match (if accepts_zstd hd then dir_blobs s !! blob_encoded_name h else None) with
  | Some c => mkResponse 200 (blob_headers (to_hex h) (bs "zstd")) (RawBody c)
  | None => match (get_blob s h).1 with Some b => mkResponse 200 (octets (to_hex h)) (RawBody b) | None => not_found_response end
  end.
Proof.
  intros Eio Ha Hh. unfold http_get_blob. rewrite (proj2 (gate_ok (to_hex h) hd h) (conj Ha (conj eq_refl Hh))). cbn [negb].
  change (op_get_blob_encoded h s) with (get_blob_encoded s h). change (bp_get_blob DirState h) with (λ s, get_blob s h).
  destruct (accepts_zstd hd).
  - unfold get_blob_encoded, fs_read. rewrite io_quiet by done. destruct (dir_blobs s !! blob_encoded_name h); [done|]. cbn.
    by destruct (get_blob s h).
  - by destruct (get_blob s h).
Qed.
Lemma get_serves s hd h :
  dir_io s = [] → check_auth hd cfg = None → byte_array 32 h → valid s → has_blob s h = true →
  delivers (http_get_blob cfg (to_hex h) hd true s).1 (to_hex h) (λ b, blake3_hash b = h).
Proof.
  intros Eio Ha Hh Hv Hhas. rewrite get_quiet by done. destruct (get_blob_has s h Eio Hv Hh Hhas) as (b & -> & Hb).
  destruct (accepts_zstd hd); [|by left; exists b]. destruct (dir_blobs s !! blob_encoded_name h) as [c|] eqn:Ec; [|by left; exists b].
  right. specialize (Hv _ _ Ec). unfold valid_file in Hv. rewrite parse_encoded in Hv by done. destruct Hv as (d & Hd & Hh'). by exists c, d.
Qed.
(** The two files of a hash, and the bytes they hold. *)
Definition files_of h s : option bytes * option bytes := (dir_blobs s !! blob_name h, dir_blobs s !! blob_encoded_name h).
Definition holds (files : option bytes * option bytes) (b : bytes) : Prop :=
  files = (Some b, None) ∨ ∃ c, zstd_decode c = Some b ∧ files = (None, Some c).
Lemma has_files h s s' : files_of h s' = files_of h s → has_blob s' h = has_blob s h.
Proof. intros [= E1 E2]. unfold has_blob. by rewrite E1, E2. Qed.
Lemma names_differ h : blob_encoded_name h ≠ blob_name h.
Proof. intros E. apply (f_equal length) in E. unfold blob_encoded_name, blob_name in E. rewrite length_app in E. cbn in E. lia. Qed.
Lemma stored_holds s0 s h b : byte_array 32 h → has_blob s0 h = false → stored s0 s h b → holds (files_of h s) b.
Proof.
  intros Hh Hno Hst. unfold has_blob in Hno. apply orb_false_iff in Hno as [Hn1 Hn2]. apply bool_decide_eq_false, eq_None_not_Some in Hn1, Hn2.
  unfold holds, files_of. destruct Hst as [[E1 E2]|(c & Hc & E1 & E2)]; [left|right; exists c; split; [done|]]; rewrite E1.
  - rewrite (E2 (blob_encoded_name h)), Hn2; [done|rewrite parse_encoded by done; eauto|apply names_differ].
  - rewrite (E2 (blob_name h)), Hn1; [done|rewrite parse_identity by done; eauto|]. intros E. by apply (names_differ h).
Qed.
Lemma get_held s hd h b :
  dir_io s = [] → check_auth hd cfg = None → byte_array 32 h → blake3_hash b = h → holds (files_of h s) b →
  delivers (http_get_blob cfg (to_hex h) hd true s).1 (to_hex h) (λ b', b' = b).
Proof.
  intros Eio Ha Hh Hb Hst. rewrite get_quiet, get_blob_quiet by done. destruct Hst as [[= -> ->]|(c & Hc & [= -> ->])].
  - rewrite decide_True by done. left. exists b. by destruct (accepts_zstd hd).
  - destruct (accepts_zstd hd); [by right; exists c, b|]. left. exists b. cbn. rewrite Hc. cbn. by rewrite decide_True.
Qed.

(** What else happens at the origin: uploads and reads, with any failures of the file
    system to come. *)
Inductive origin_step : DirState → DirState → Prop :=
| os_put hash_hex hd body worker now s (inv : option W) : origin_step s (http_put_blob cfg hash_hex hd body worker now s inv).2.1
| os_get hash_hex hd worker s : origin_step s (http_get_blob cfg hash_hex hd worker s).2
| os_faults s faults : origin_step s (mkDir (dir_nodes s) (dir_last_seq s) (dir_blobs s) (dir_tombs s) faults).
Lemma put_state hash_hex hd body worker now s (inv : option W) :
  let s' := (http_put_blob cfg hash_hex hd body worker now s inv).2.1 in let h := blake3_hash body in
  same_visible s s' ∨ byte_array 32 h ∧ has_blob s h = false ∧ stored s s' h body.
Proof.
  unfold http_put_blob. destruct (is_canonical_blob_name hash_hex); [cbn [negb]|by left]. destruct (check_auth hd cfg); [by left|].
  destruct (bool_decide (is_Some (content_encoding hd))); [by left|]. destruct (hash_from_hex hash_hex) as [h|] eqn:Eh; [|by left].
  apply hash_from_hex_inv in Eh as [-> Hh]. destruct worker; [cbn [negb]|by left]. case_bool_decide as Eb; [by left|]. subst h.
  change (bp_has_blob DirState (blake3_hash body) s) with (has_blob s (blake3_hash body)). destruct (has_blob s (blake3_hash body)) eqn:Ehas; [by left|].
  change (bp_persist_blob DirState (blake3_hash body) body s) with (persist_blob ccfg s (blake3_hash body) body).
  pose proof (persist_blob_ok ccfg s (blake3_hash body) body Hh) as Hp. rewrite Ehas in Hp. destruct (persist_blob ccfg s _ body) as [s' [[]|e]]; [by right|by left].
Qed.
Lemma put_valid hash_hex hd body worker now s (inv : option W) : valid s → valid (http_put_blob cfg hash_hex hd body worker now s inv).2.1.
Proof.
  intros Hv. destruct (put_state hash_hex hd body worker now s inv) as [Hs|(Hh&_&Hs)]; [by eapply valid_same|by eapply stored_valid].
Qed.
Lemma same_files h s s' : byte_array 32 h → same_visible s s' → files_of h s' = files_of h s.
Proof.
  intros Hh Hs. unfold files_of. rewrite !Hs; [done|rewrite parse_encoded by done; eauto|rewrite parse_identity by done; eauto].
Qed.
Lemma fs_read_blobs name s : dir_blobs (fs_read name s).2 = dir_blobs s.
Proof. unfold fs_read. destruct (io s) as [[n|] s'] eqn:E; apply io_blobs in E as [E _]; exact E. Qed.
Lemma get_blob_blobs s h : dir_blobs (get_blob s h).2 = dir_blobs s.
Proof.
  unfold get_blob. pose proof (fs_read_blobs (blob_name h) s) as E. destruct (fs_read _ s) as [[b|] s']; [done|]. rewrite <-E.
  pose proof (fs_read_blobs (blob_encoded_name h) s') as E'. by destruct (fs_read _ s') as [[c|] s''].
Qed.
Lemma get_state hash_hex hd worker s : dir_blobs (http_get_blob cfg hash_hex hd worker s).2 = dir_blobs s.
Proof.
  unfold http_get_blob. destruct (gate cfg hash_hex hd) as [h|resp]; [|done]. destruct worker; [cbn [negb]|done].
  change (op_get_blob_encoded h s) with (get_blob_encoded s h). change (bp_get_blob DirState h) with (λ s, get_blob s h).
  assert (∀ s', dir_blobs s' = dir_blobs s → dir_blobs (let '(r, p) := get_blob s' h in
    (match r with Some b => mkResponse 200 (octets hash_hex) (RawBody b) | None => not_found_response end, p)).2 = dir_blobs s) as Hg.
  { intros s' <-. rewrite <-(get_blob_blobs s' h). by destruct (get_blob s' h). }
  destruct (accepts_zstd hd); [|by apply Hg]. unfold get_blob_encoded. pose proof (fs_read_blobs (blob_encoded_name h) s) as E.
  destruct (fs_read _ s) as [[b|] s']; [done|]. by apply Hg.
Qed.
Lemma origin_step_files s s' h :
  origin_step s s' → byte_array 32 h → has_blob s h = true → files_of h s' = files_of h s ∧ (valid s → valid s').
Proof.
  intros Hst Hh Hhas. destruct Hst as [hash_hex hd body worker now s inv|hash_hex hd worker s|s faults].
  - split; [|apply put_valid]. destruct (put_state hash_hex hd body worker now s inv) as [Hs|(Hh'&Hno&Hs)]; [by apply same_files|].
    assert (blake3_hash body ≠ h) as Hne by (intros <-; congruence). assert (blob_name h ≠ blob_name (blake3_hash body)) as N1.
    { intros E. apply Hne. apply (f_equal parse_blob_entry_name) in E. rewrite !parse_identity in E by done. by injection E. }
    assert (blob_encoded_name h ≠ blob_encoded_name (blake3_hash body)) as N2.
    { intros E. apply Hne. apply (f_equal parse_blob_entry_name) in E. rewrite !parse_encoded in E by done. by injection E. }
    assert (blob_name h ≠ blob_encoded_name (blake3_hash body)) as N3.
    { intros E. apply (f_equal parse_blob_entry_name) in E. rewrite parse_identity, parse_encoded in E by done. done. }
    assert (blob_encoded_name h ≠ blob_name (blake3_hash body)) as N4.
    { intros E. apply (f_equal parse_blob_entry_name) in E. rewrite parse_identity, parse_encoded in E by done. done. }
    unfold files_of. destruct Hs as [[_ E]|(c&_&_&E)]; rewrite !E; try done; rewrite ?parse_identity, ?parse_encoded by done; eauto.
  - unfold files_of, valid. by rewrite get_state.
  - done.
Qed.
Lemma origin_steps_files s s' h :
  rtc origin_step s s' → byte_array 32 h → has_blob s h = true → valid s →
  files_of h s' = files_of h s ∧ has_blob s' h = true ∧ valid s'.
Proof.
  intros Hr Hh. induction Hr as [s|s1 s2 s3 Hst _ IH]; intros Hhas Hv; [done|].
  destruct (origin_step_files _ _ h Hst Hh Hhas) as [E Hv2]. rewrite <-E. apply IH; [|by apply Hv2]. by rewrite (has_files _ s1).
Qed.

(** C30: what the origin acknowledges it serves, until a sweep. Over a directory whose
    blob files hash to their names, and under any failures of the file system, an
    upload keeps every stored blob valid. If it is answered with 200 or 201, the
    request was authorized, the name is the hash of the body, the inventory is marked,
    and after any further uploads and reads at the origin, with any failures, an
    authorized read during which no file operation fails gets bytes of that hash, plain
    or compressed: the very body if the upload was answered with 201. If it is answered
    with anything else, neither the inventory nor a blob has changed. *)
Theorem put_then_get hash_hex hd body worker now s (inv : option W) :
  valid s →
  let '(resp, (s', inv')) := http_put_blob cfg hash_hex hd body worker now s inv in
  let h := blake3_hash body in
  valid s' ∧
  if bool_decide (rp_status resp = 200 ∨ rp_status resp = 201) then
    check_auth hd cfg = None ∧ hash_hex = to_hex h ∧ inv' = mark_upload_active now inv hash_hex ∧
    ∀ s2 hd', rtc origin_step s' s2 → check_auth hd' cfg = None → dir_io s2 = [] →
      delivers (http_get_blob cfg hash_hex hd' true s2).1 hash_hex (λ b, blake3_hash b = h ∧ (rp_status resp = 201 → b = body))
  else inv' = inv ∧ same_visible s s'.
Proof.
  intros Hv. pose proof (put_valid hash_hex hd body worker now s inv Hv) as Hv'. revert Hv'.
  unfold http_put_blob. destruct (is_canonical_blob_name hash_hex) eqn:Ecan; [cbn [negb]|by split; [done|]].
  destruct (check_auth hd cfg) as [resp|] eqn:Ea.
  { assert (rp_status resp = 401) as Est.
    { unfold check_auth in Ea. repeat case_match; by simplify_eq. }
    split; [done|]. rewrite bool_decide_eq_false_2 by (rewrite Est; lia). done. }
  destruct (bool_decide (is_Some (content_encoding hd))); [by split; [done|]|].
  destruct (hash_from_hex hash_hex) as [h|] eqn:Eh; [|by split; [done|]]. apply hash_from_hex_inv in Eh as [-> Hh].
  destruct worker; [cbn [negb]|by split; [done|]]. case_bool_decide as Eb; [by split; [done|]|]. subst h.
  change (bp_has_blob DirState (blake3_hash body) s) with (has_blob s (blake3_hash body)).
  destruct (has_blob s (blake3_hash body)) eqn:Ehas.
  { split; [done|]. rewrite bool_decide_eq_true_2 by (by left). split; [done|]. split; [done|]. split; [done|]. intros s2 hd' Hr Ha' Eio.
    destruct (origin_steps_files s s2 _ Hr Hh Ehas Hv) as (_&Hhas2&Hv2).
    destruct (get_serves s2 hd' _ Eio Ha' Hh Hv2 Hhas2) as [(b & E & Hb)|(c & b & E & Hc & Hb)]; [left; by exists b|right; by exists c, b]. }
  change (bp_persist_blob DirState (blake3_hash body) body s) with (persist_blob ccfg s (blake3_hash body) body).
  pose proof (persist_blob_ok ccfg s (blake3_hash body) body Hh) as Hp. destruct (persist_blob ccfg s _ body) as [s' [[]|e]]; cbn [fst snd]; intros Hv'.
  - rewrite Ehas in Hp. split; [done|]. rewrite bool_decide_eq_true_2 by (by right). split; [done|]. split; [done|]. split; [done|].
    intros s2 hd' Hr Ha' Eio. pose proof (stored_holds s s' _ body Hh Ehas Hp) as Hho.
    assert (has_blob s' (blake3_hash body) = true) as Hhas' by (unfold has_blob; destruct Hho as [[= -> ->]|(c & _ & [= -> ->])]; done).
    destruct (origin_steps_files s' s2 _ Hr Hh Hhas' Hv') as (E2&_&_). rewrite <-E2 in Hho.
    destruct (get_held s2 hd' _ body Eio Ha' Hh eq_refl Hho) as [(b & E & ->)|(c & b & E & Hc & ->)]; [left; by exists body|right; by exists c, body].
  - split; [done|]. rewrite bool_decide_eq_false_2 by (destruct e; cbn; lia). done.
Qed.
End origin.

(** ** The token *)

Lemma lor_fold (f : nat → Z) (l : list nat) acc :
  foldl (λ d i, Z.lor d (f i)) acc l = 0 ↔ acc = 0 ∧ Forall (λ i, f i = 0) l.
Proof.
  revert acc. induction l as [|i l IH]; intros acc; cbn.
  - split; [by intros ->|by intros [-> _]].
  - rewrite IH, Z.lor_eq_0_iff, Forall_cons. tauto.
Qed.
Lemma constant_time_eq_spec (a b : bytes) : (0 ∉ a) → (0 ∉ b) → constant_time_eq a b = true ↔ a = b.
Proof.
  intros Ha Hb. unfold constant_time_eq. rewrite Z.eqb_eq, lor_fold. split.
  - intros [_ Hf]. rewrite Forall_seq in Hf. apply list_eq. intros i.
    destruct (decide (i < Nat.max (length a) (length b))%nat) as [Hi|Hi].
    + assert (byte_at a i = byte_at b i) as E by (apply Z.lxor_eq_0_iff, Hf; lia). unfold byte_at in E.
      destruct (a !! i) as [x|] eqn:Ex, (b !! i) as [y|] eqn:Ey; cbn in E; subst; try done.
      * by apply list_elem_of_lookup_2 in Ex.
      * by apply list_elem_of_lookup_2 in Ey.
    + rewrite !lookup_ge_None_2 by lia. done.
  - intros ->. rewrite Z.lxor_nilpotent. split; [done|]. apply Forall_forall. intros i _. apply Z.lxor_nilpotent.
Qed.
Lemma visible_nonzero v : forallb visible v = true → 0 ∉ v.
Proof. intros Hv Hin. apply list_elem_of_In in Hin. eapply forallb_forall in Hv; [|done]. done. Qed.

(** An origin with a token is open exactly to its bearers: when a token without
    zero bytes is configured, a request passes iff its header is the word Bearer, a
    space and the token, all of it visible.  The comparison looks at every byte of both
    texts, pads the shorter one with zeros and reduces the lengths modulo 256, and is
    still exact. *)
Theorem bearer_exact headers cfg token :
  auth_token cfg = Some token → (0 ∉ token) →
  check_auth headers cfg = None ↔ authorization headers = Some (bs "Bearer " ++ token) ∧ forallb visible token = true.
Proof.
  intros Et H0. unfold check_auth. rewrite Et. split.
  - destruct (authorization headers) as [v|]; [|done]. cbn [mbind option_bind]. unfold to_str. destruct (forallb visible v) eqn:Ev; [|done]. cbn [mbind option_bind].
    destruct (strip_prefix (bs "Bearer ") v) as [t|] eqn:Es; [|done]. apply strip_prefix_inv in Es as ->.
    rewrite forallb_app in Ev. apply andb_prop in Ev as [_ Ev].
    destruct (constant_time_eq t token) eqn:Ec; [|done]. intros _. by apply (constant_time_eq_spec t token (visible_nonzero t Ev) H0) in Ec as ->.
  - intros [-> Ev]. cbn [mbind option_bind]. unfold to_str. rewrite forallb_app, Ev, andb_true_r.
    change (forallb visible (bs "Bearer ")) with true. cbn [mbind option_bind]. rewrite strip_prefix_app.
    by rewrite (proj2 (constant_time_eq_spec token token H0 H0) eq_refl).
Qed.
Lemma bearer_exact_witness :
  check_auth (mkHeaders (Some (bs "Bearer secret")) None None) (mkHttpConfig (Some (bs "secret")) 10) = None.
Proof.
  apply (bearer_exact (mkHeaders (Some (bs "Bearer secret")) None None) (mkHttpConfig (Some (bs "secret")) 10) (bs "secret"));
    [reflexivity|apply (bool_decide_unpack _); by vm_compute|by vm_compute].
Defined.

(** ** Times can be read back *)

Lemma digits_length fuel w n : 0 <= n < 10 ^ Z.of_nat w → (0 < w)%nat → (length (digits fuel 10 n) <= w)%nat.
Proof.
  revert w n. induction fuel as [|fuel IH]; intros w n Hn Hw; [cbn; lia|]. cbn [digits]. rewrite length_app. cbn.
  destruct (Z.ltb_spec n 10) as [Hlt|Hge]; [cbn; lia|]. destruct w as [|[|w]]; [lia|change (10 ^ Z.of_nat 1) with 10 in Hn; lia|].
  assert (length (digits fuel 10 (n / 10)) <= S w)%nat; [|lia]. apply IH; [|lia].
  rewrite (Nat2Z.inj_succ (S w)), Z.pow_succ_r in Hn by lia. split; [apply Z.div_pos; lia|apply Z.div_lt_upper_bound; lia].
Qed.
Lemma pad_spec w n : 0 <= n < 10 ^ Z.of_nat w → (0 < w)%nat →
  length (pad w n) = w ∧ Forall is_digit (pad w n) ∧ of_digits 0 (pad w n) = n.
Proof.
  intros Hn Hw. destruct (decimal_spec n) as (E & Hd & _); [lia|]. unfold pad.
  assert (length (decimal n) <= w)%nat as Hl by (by apply digits_length). split; [rewrite length_app, length_replicate; lia|]. split.
  - apply Forall_app. split; [|done]. apply Forall_replicate. unfold is_digit. lia.
  - unfold of_digits in *. rewrite foldl_app. assert (∀ k, foldl (λ a c, a * 10 + (c - 48)) 0 (replicate k 48) = 0) as ->; [|done].
    intros k. induction k as [|k IH]; [done|]. cbn. exact IH.
Qed.
Lemma parse_pad w n : 0 <= n < 10 ^ Z.of_nat w → (0 < w)%nat → n <= u64_max → parse_u64 (pad w n) = Some n ∧ parse_i64 (pad w n) = Some n.
Proof.
  intros Hn Hw Hu. destruct (pad_spec w n Hn Hw) as (Hl & Hd & E). destruct (pad w n) as [|c ds] eqn:Ep; [cbn in Hl; lia|].
  assert (is_digit c) as Hc by (by apply Forall_cons in Hd as [? _]). unfold is_digit in Hc.
  assert (parse_u64 (c :: ds) = Some n) as Hp.
  { unfold parse_u64. rewrite (proj2 (Z.eqb_neq c 43)) by lia. rewrite parse_digits_spec; [by rewrite E|done|lia|by rewrite E]. }
  split; [exact Hp|]. unfold parse_i64. repeat case_match; try done; lia.
Qed.

(** A list of a known length in the open. *)
Lemma pad2 n : 0 <= n < 100 → ∃ a b, pad 2 n = [a; b] ∧ is_digit a ∧ is_digit b.
Proof.
  intros Hn. destruct (pad_spec 2 n) as (Hl & Hd & _); [done|lia|]. destruct (pad 2 n) as [|a [|b [|]]]; try done.
  apply Forall_cons in Hd as [Ha Hd]. apply Forall_cons in Hd as [Hb _]. by exists a, b.
Qed.
Lemma digit_boundary c : is_digit c → is_cont c = false.
Proof. unfold is_digit, is_cont, between. intros Hc. rewrite (proj2 (Z.leb_gt 128 c)) by lia. done. Qed.

Ltac read_field E := rewrite E; cbn -[parse_i64 parse_u64 Z.mul Z.pow days_from_civil Z.add Z.sub].
(** The fields of a text of the right shape. *)
Lemma parse_shape (y m d hh mm ss : bytes) ny nm nd nh nmm ns :
  length y = 4%nat → Forall is_digit y → parse_i64 y = Some ny →
  (∃ a b, m = [a; b] ∧ is_digit a ∧ is_digit b) → parse_u64 m = Some nm →
  (∃ a b, d = [a; b] ∧ is_digit a ∧ is_digit b) → parse_u64 d = Some nd →
  (∃ a b, hh = [a; b] ∧ is_digit a ∧ is_digit b) → parse_i64 hh = Some nh →
  (∃ a b, mm = [a; b] ∧ is_digit a ∧ is_digit b) → parse_i64 mm = Some nmm →
  (∃ a b, ss = [a; b] ∧ is_digit a ∧ is_digit b) → parse_i64 ss = Some ns →
  parse_timestamp_nanos (y ++ bs "-" ++ m ++ bs "-" ++ d ++ bs "T" ++ hh ++ bs ":" ++ mm ++ bs ":" ++ ss ++ bs "Z") =
  Some ((days_from_civil ny nm nd * 86400 + nh * 3600 + nmm * 60 + ns) * 10 ^ 9).
Proof.
  intros Hl Hy Ey (m1 & m2 & -> & ? & ?) Em (d1 & d2 & -> & ? & ?) Ed (h1 & h2 & -> & ? & ?) Eh (i1 & i2 & -> & ? & ?) Ei (s1 & s2 & -> & ? & ?) Es.
  destruct y as [|y1 [|y2 [|y3 [|y4 [|]]]]]; try done. do 4 (apply Forall_cons in Hy as [? Hy]).
  change (bs "-") with [45]. change (bs "T") with [84]. change (bs ":") with [58]. change (bs "Z") with [90].
  unfold parse_timestamp_nanos, str_get, boundary. rewrite decide_False by (cbn; lia). cbn -[parse_i64 parse_u64 Z.mul Z.pow is_cont days_from_civil].
  rewrite (digit_boundary y1), (digit_boundary m1), (digit_boundary d1), (digit_boundary h1), (digit_boundary i1), (digit_boundary s1) by done.
  change (is_cont 45) with false. change (is_cont 84) with false. change (is_cont 58) with false. change (is_cont 90) with false.
  cbn [negb andb mbind option_bind]. read_field Ey. read_field Em. read_field Ed. read_field Eh. read_field Ei. read_field Es.
  f_equal. lia.
Qed.

(** The years of four digits. *)
Lemma civil_year z : 0 <= z <= 2932896 →
  let '(y, m, d) := civil_from_days z in 0 <= y < 10000 ∧ 1 <= m <= 12 ∧ 1 <= d <= 31 ∧ days_from_civil y m d = z.
Proof.
  intros Hz. destruct (civil_calendar z) as (_ & _ & Hv & Hd). destruct (civil_from_days z) as [[y m] d].
  unfold valid_date in Hv. rewrite !andb_true_iff, !Z.leb_le in Hv. destruct Hv as [[[Hm1 Hm2] Hd1] Hd2].
  assert (days_in_month y m <= 31) as Hdm by (unfold days_in_month; repeat case_match; lia).
  split; [|split; [lia|split; [lia|done]]]. unfold days_from_civil in Hd.
  destruct (Z.leb_spec m 2), (Z.ltb_spec 2 m); try lia;
    [destruct (Z.leb_spec 0 (y - 1))|destruct (Z.leb_spec 0 y)]; Z.to_euclidean_division_equations; lia.
Qed.

(** The expiry of a URL can be read back: the text the origin writes for a Unix
    time, which may lie beyond year 9999 and is then cut to its last second, is read
    by the parser of the studio's timestamps as that very time in nanoseconds. *)
Theorem expiry_text_roundtrip unix_secs :
  0 <= unix_secs → parse_timestamp_nanos (format_iso8601_utc unix_secs) = Some (Z.min unix_secs MAX_UNIX_SECS * 10 ^ 9).
Proof.
  intros Hu. unfold format_iso8601_utc. set (t := Z.min unix_secs MAX_UNIX_SECS).
  assert (0 <= t <= 253402300799) as Ht by (unfold t, MAX_UNIX_SECS; lia). clearbody t.
  pose proof (civil_year (t / 86400)) as Hc. destruct (civil_from_days (t / 86400)) as [[y m] d].
  destruct Hc as (Hy & Hm & Hd & Edays); [Z.to_euclidean_division_equations; lia|].
  assert (0 <= t mod 86400 / 3600 < 24 ∧ 0 <= t mod 86400 mod 3600 / 60 < 60 ∧ 0 <= t mod 86400 mod 60 < 60) as (H1 & H2 & H3)
    by (Z.to_euclidean_division_equations; lia).
  destruct (pad_spec 4 y) as (Hl & Hdig & _); [change (10 ^ Z.of_nat 4) with 10000; lia|lia|].
  pose proof (parse_pad 4 y ltac:(change (10 ^ Z.of_nat 4) with 10000; lia) ltac:(lia) ltac:(unfold u64_max; lia)) as [_ Py].
  assert (∀ n, 0 <= n < 100 → parse_u64 (pad 2 n) = Some n ∧ parse_i64 (pad 2 n) = Some n) as P2
    by (intros n Hn; apply parse_pad; [done|lia|unfold u64_max; lia]).
  rewrite (parse_shape _ _ _ _ _ _ y m d (t mod 86400 / 3600) (t mod 86400 mod 3600 / 60) (t mod 86400 mod 60));
    [|done|done|done|apply pad2; lia|apply P2; lia|apply pad2; lia|apply P2; lia|apply pad2; lia|apply P2; lia|apply pad2; lia|apply P2; lia|apply pad2; lia|apply P2; lia].
  rewrite Edays. f_equal. f_equal. Z.to_euclidean_division_equations; lia.
Qed.
Lemma expiry_text_roundtrip_witness :
  format_iso8601_utc 951782400 = bs "2000-02-29T00:00:00Z" ∧ parse_timestamp_nanos (format_iso8601_utc 951782400) = Some (951782400 * 10 ^ 9).
Proof. split; [by vm_compute|]. apply (expiry_text_roundtrip 951782400). by vm_compute. Defined.
