(* ===== verification/RegistryFacts.v ===== *)
(** The invariant of the registry: what a resident room holds is in the store, what
    the store holds is in every hydrated room, and the cached scans of cold rooms
    are exact. *)

From S2P Require Import Prelude StErr Hex Str Op Node Policy Frontier Storage Lww FracIdx ListCrdt Conflicts.
From S2P Require Import Caches CacheFacts TextState Graph GraphFacts GraphOps GraphBatch Replica Fenwick Text Replay Compaction Gc DirStore.
From S2P Require Import GcStore Persist TopoStore HostTypes HostState Host HostImport Room Registry.


(** A sequence of nodes whose parents are known or stand before them. *)
Inductive after (known : NodeId → Prop) : list SyncNode → Prop :=
| after_nil : after known []
| after_snoc ns n : after known ns → (∀ p, p ∈ node_parents n → known p ∨ p ∈ node_id <$> ns) → after known (ns ++ [n]).

Lemma after_app known ns ms : after known ns → after (λ i, known i ∨ i ∈ node_id <$> ns) ms → after known (ns ++ ms).
Proof.
  intros Hn. induction 1 as [|ms m _ IH Hp]; [by rewrite app_nil_r|]. rewrite app_assoc. constructor; [done|].
  intros p Hp'. rewrite fmap_app, elem_of_app. destruct (Hp p Hp') as [[?|?]|?]; auto.
Qed.
Lemma after_mono (known known' : NodeId → Prop) ns : (∀ i, known i → known' i) → after known ns → after known' ns.
Proof. intros Hm. induction 1 as [|ns n _ IH Hp]; constructor; [done|]. intros p [?|?]%Hp; auto. Qed.
Lemma after_causal ns : after (λ _, False) ns → causal ns.
Proof. induction 1 as [|ns n _ IH Hp]; constructor; [done|]. by intros p [[]|?]%Hp. Qed.
Lemma causal_after ns : causal ns → after (λ _, False) ns.
Proof. induction 1 as [|ns n _ IH Hp]; constructor; [done|]. intros p ?%Hp. by right. Qed.

Section arrivals.
Context `{Blake3, Postcard Transaction, Ed25519}.
Implicit Types (g : RoomGraph) (n : SyncNode).

Abbreviation get g := (ns_get (g_nodes g)).

(** The nodes [ns] arrived in [g], one after the other. *)
Record arrived g (ns : list SyncNode) g' : Prop := {
  av_ids : NoDup (node_id <$> ns);
  av_new : ∀ n, n ∈ ns → get g (node_id n) = None;
  av_get : ∀ i n, get g' i = Some n ↔ get g i = Some n ∨ (n ∈ ns ∧ node_id n = i);
  av_order : after (λ i, is_Some (get g i)) ns;
}.

Lemma arrived_none g g' : g_nodes g' = g_nodes g → arrived g [] g'.
Proof.
  intros E. split; [constructor|by intros n ?%not_elem_of_nil|rewrite E; set_solver|constructor].
Qed.
Lemma arrived_one g n b g' : (∀ p, p ∈ node_parents n → is_Some (get g p)) → admitted g n b g' → arrived g [n] g'.
Proof.
  intros Hp (_&Hnew&Hget). split.
  - apply NoDup_singleton.
  - intros m Hm%list_elem_of_singleton. by subst.
  - intros i m. rewrite Hget. case_decide as Hd; [|set_solver]. subst i. rewrite Hnew. split.
    + intros [= <-]. right. split; [by left|done].
    + intros [?|[->%list_elem_of_singleton _]]; [done|done].
  - apply (after_snoc _ []); [constructor|]. auto.
Qed.
Lemma arrived_stored g ns g' i : arrived g ns g' → is_Some (get g' i) ↔ is_Some (get g i) ∨ i ∈ node_id <$> ns.
Proof.
  intros [_ _ Hget _]. split.
  - intros [n [Hn|[Hn <-]]%Hget]; [left; eauto|right]. by apply list_elem_of_fmap_2.
  - intros [[n Hn]|(n&->&Hn)%list_elem_of_fmap]; exists n; apply Hget; auto.
Qed.
Lemma arrived_app g ns g1 ms g2 : arrived g ns g1 → arrived g1 ms g2 → arrived g (ns ++ ms) g2.
Proof.
  intros Ha Hb. pose proof (λ i, arrived_stored _ _ _ i Ha) as Hst.
  pose proof Ha as [Hd1 Hn1 Hg1 Ho1]. pose proof Hb as [Hd2 Hn2 Hg2 Ho2].
  assert (∀ m, m ∈ ms → get g (node_id m) = None ∧ node_id m ∉ node_id <$> ns) as Hfresh.
  { intros m Hm. apply Hn2, eq_None_not_Some in Hm. rewrite Hst in Hm. split; [apply eq_None_not_Some|]; auto. }
  split.
  - rewrite fmap_app. apply NoDup_app. split; [done|]. split; [|done]. intros i Hi (m&->&Hm)%list_elem_of_fmap.
    by apply (Hfresh m).
  - intros n [?|?]%elem_of_app; [by apply Hn1|by apply Hfresh].
  - intros i n. rewrite Hg2, Hg1, elem_of_app. naive_solver.
  - apply after_app; [done|]. eapply after_mono; [|exact Ho2]. intros i. by rewrite Hst.
Qed.
Lemma arrived_text g ns g' t : arrived g ns g' → arrived g ns (with_text g' t).
Proof. by intros []; split. Qed.

(** The nodes a batch accepts, in order. *)
Lemma batch_apply_arrived g (s : RoomGraph * BatchResult * list SyncNode) n b :
  arrived g s.2 s.1.1 → node_id <$> s.2 = batch_accepted s.1.2 →
  let s' := batch_apply s (n, b) in
  arrived g s'.2 s'.1.1 ∧ node_id <$> s'.2 = batch_accepted s'.1.2 ∧ (s'.2 = s.2 ∨ s'.2 = s.2 ++ [n]).
Proof.
  destruct s as [[g1 [acc rej]] an]. cbn. intros Ha He. unfold batch_apply. destruct b; cbn; [|auto].
  pose proof (verified_no_projection_spec (mark_verified g1 (node_id n)) n) as Hs.
  destruct (apply_remote_verified_no_projection _ n) as [g2 [[]|e]]; cbn.
  - destruct Hs as ((Hp&_)&Hadm&_). split; [|split; [by rewrite fmap_app, He|by right]].
    eapply arrived_app; [done|]. eapply arrived_one; [exact Hp|]. by eapply admitted_marked.
  - destruct Hs as [_ ->]. split; [|auto]. rewrite <-(app_nil_r an). eapply arrived_app; [done|]. by apply arrived_none.
Qed.
Lemma batch_arrived g ns now :
  let '(g', res) := apply_remote_batch_checked g ns now in
  ∃ ms, arrived g ms g' ∧ node_id <$> ms = batch_accepted res ∧ ms ⊆ ns ∧
        ∀ m, m ∈ ms → tx_hash (node_tx m) = node_id m ∧ lamport_ok (g_lamport g) m.
Proof.
  unfold apply_remote_batch_checked. pose proof (admit_inv_all g now ns) as [_ _ _ Hc].
  destruct (foldl (batch_admit g now) _ ns) as [[tv rej] seen]. cbn in Hc.
  assert (∀ vs, let s := foldl batch_apply (g, mkBatch [] rej, []) vs in
    arrived g s.2 s.1.1 ∧ node_id <$> s.2 = batch_accepted s.1.2 ∧ s.2 ⊆ vs.*1) as Hf.
  { intros vs. induction vs as [|[n b] vs (Ha&He&Hsub)] using rev_ind; cbn zeta.
    - split; [by apply arrived_none|]. split; [done|]. set_solver.
    - rewrite foldl_app. cbn [foldl]. destruct (batch_apply_arrived g _ n b Ha He) as (?&?&Hor). split; [done|]. split; [done|].
      rewrite fmap_app. cbn. destruct Hor as [-> | ->]; set_solver. }
  specialize (Hf (zip tv (verify_nodes_batched g tv))). destruct (foldl batch_apply _ _) as [[g' res] an]. cbn in Hf.
  rewrite fst_zip in Hf by (rewrite verify_nodes_batched_length; lia). destruct Hf as (Ha&He&Hsub).
  exists an. split; [by apply arrived_text|]. split; [done|]. split; intros m Hm; destruct (Hc m (Hsub m Hm)) as (?&?&?&?); auto.
Qed.

Lemma apply_local_policy g sk wall os : g_policy (apply_local g sk wall os).1 = g_policy g.
Proof.
  unfold apply_local, insert_node. cbn. by destruct (mem_contains _ _).
Qed.

(** ** A batch in causal order is taken whole *)

Lemma admit_all g ns now :
  NoDup (node_id <$> ns) →
  (∀ n, n ∈ ns → tx_hash (node_tx n) = node_id n ∧ lamport_ok (g_lamport g) n ∧ wall_ok now n) →
  foldl (batch_admit g now) ([], [], ∅) ns =
    (filter (λ n, get g (node_id n) = None) ns, [], list_to_set (node_id <$> ns)).
Proof.
  induction ns as [|n ns IH] using rev_ind; intros Hnd Hc; [done|]. rewrite foldl_app. rewrite fmap_app in Hnd.
  apply NoDup_app in Hnd as (Hnd&Hdis&_). rewrite IH; [|done|intros m Hm; apply Hc; set_solver]. cbn [foldl].
  destruct (Hc n) as (Hh&Hl&Hw); [set_solver|]. unfold batch_admit. rewrite decide_False; cycle 1.
  { rewrite elem_of_list_to_set. intros Hin. apply (Hdis _ Hin). by left. }
  rewrite filter_app, filter_cons, fmap_app, list_to_set_app_L. cbn [fmap list_fmap list_to_set foldr].
  assert (∀ X : gset NodeId, {[node_id n]} ∪ X = X ∪ ({[node_id n]} ∪ ∅)) as Ex by set_solver.
  destruct (ns_contains (g_nodes g) (node_id n)) eqn:Ec.
  - apply ns_contains_true in Ec as [m Hm]. rewrite decide_False by congruence. cbn. rewrite app_nil_r. by rewrite Ex.
  - apply ns_contains_false in Ec. rewrite (decide_True (P := get g (node_id n) = None)) by done.
    rewrite decide_False by (by rewrite Hh; intros ?). rewrite (proj2 (check_lamport_ceiling_ok _ _) Hl).
    rewrite (proj2 (check_wall_ok _ _) Hw). cbn. by rewrite Ex.
Qed.

Lemma apply_all g0 (rs : list (NodeId * SyncError)) (tv : list SyncNode) :
  NoDup (node_id <$> tv) → (∀ n, n ∈ tv → get g0 (node_id n) = None ∧ policy_permits (g_policy g0) n) →
  after (λ i, is_Some (get g0 i)) tv →
  let s := foldl batch_apply (g0, mkBatch [] rs, []) ((λ n, (n, true)) <$> tv) in
  arrived g0 tv s.1.1 ∧ g_policy s.1.1 = g_policy g0 ∧ node_id <$> tv = batch_accepted s.1.2 ∧ batch_rejected s.1.2 = rs.
Proof.
  intros Hnd Hc Ho. induction Ho as [|tv n Ho IH Hp]; cbn zeta; [split; [by apply arrived_none|done]|].
  rewrite fmap_app, foldl_app. cbn [fmap list_fmap foldl]. rewrite fmap_app in Hnd. apply NoDup_app in Hnd as (Hnd&Hdis&_).
  destruct IH as (Ha&Epol&Eacc&Erej); [done|intros m Hm; apply Hc; set_solver|].
  set (s := foldl batch_apply _ _) in *. destruct s as [[g [acc rej]] an]. cbn in Ha, Epol, Eacc, Erej. subst rej.
  unfold batch_apply. cbn [negb]. set (gm := mark_verified g (node_id n)).
  assert (admissible gm n) as Hadm.
  { destruct (Hc n) as [Hnew Hpol]; [set_solver|]. split; [|split; [by rewrite <-Epol in Hpol|]].
    - intros p Hin. apply (arrived_stored _ _ _ p Ha). by apply Hp.
    - apply eq_None_not_Some. intros Hs. apply (arrived_stored _ _ _ (node_id n) Ha) in Hs as [[m Hm]|Hin]; [congruence|].
      apply (Hdis _ Hin). by left. }
  pose proof (verified_no_projection_spec gm n) as Hs.
  destruct (apply_remote_verified_no_projection gm n) as [g2 [[]|e]]; [|by destruct Hs].
  destruct Hs as ((Hpar&_)&Had&Epol2). cbn. split; [|split; [by rewrite Epol2|split; [|done]]].
  - eapply arrived_app; [exact Ha|]. eapply arrived_one; [exact Hpar|]. by eapply admitted_marked.
  - rewrite fmap_app. cbn. by rewrite Eacc.
Qed.


Lemma filter_after g ns : causal ns → after (λ i, is_Some (get g i)) (filter (λ n, get g (node_id n) = None) ns).
Proof.
  induction 1 as [|ns n _ IH Hp]; [constructor|]. rewrite filter_app, filter_cons. case_decide; [|by rewrite app_nil_r].
  constructor; [done|]. intros p (m&->&Hm)%Hp%list_elem_of_fmap. destruct (get g (node_id m)) as [x|] eqn:E; [by left|right].
  apply list_elem_of_fmap_2. by apply list_elem_of_filter.
Qed.
Lemma verify_all `{!Ed25519BatchLaws} g tv :
  (∀ n, n ∈ tv → verify_signature n = Ok tt) → zip tv (verify_nodes_batched g tv) = (λ n, (n, true)) <$> tv.
Proof.
  intros Hv. apply list_eq. intros i. rewrite list_lookup_fmap. destruct (tv !! i) as [n|] eqn:E; cbn.
  - apply lookup_zip_with_Some. exists n, true. split; [done|]. split; [done|].
    rewrite (verify_nodes_batched_lookup _ _ _ _ E), Hv; [by rewrite orb_true_r|]. by eapply list_elem_of_lookup_2.
  - apply lookup_zip_with_None. by left.
Qed.

Lemma batch_takes_all `{!Ed25519BatchLaws} g ns :
  NoDup (node_id <$> ns) → causal ns → (∀ n, n ∈ ns → clean None (g_lamport g) (g_policy g) n) →
  let '(g', res) := apply_remote_batch g ns in
  arrived g (filter (λ n, get g (node_id n) = None) ns) g' ∧ batch_rejected res = [] ∧ g_policy g' = g_policy g.
Proof.
  intros Hnd Hca Hcl. unfold apply_remote_batch, apply_remote_batch_checked.
  rewrite admit_all; [|done|by intros n []%Hcl]. cbn [fst snd]. set (tv := filter _ ns).
  assert (∀ n, n ∈ tv → get g (node_id n) = None ∧ n ∈ ns) as Htv by (by intros n ?%list_elem_of_filter).
  rewrite verify_all by (intros n [_ Hn]%Htv; by apply Hcl).
  destruct (apply_all g [] tv) as (Ha&Epol&_&Er).
  - unfold tv. eapply sublist_NoDup; [exact Hnd|]. apply fmap_sublist, sublist_filter.
  - intros n [? Hn]%Htv. split; [done|]. by apply Hcl.
  - by apply filter_after.
  - destruct (foldl batch_apply _ _) as [[g' res] an]. cbn in *. split; [by apply arrived_text|done].
Qed.
End arrivals.

Section import.
Context `{Blake3, Postcard Transaction, Ed25519, Postcard (list WireNode)} `{!Ed25519BatchLaws}.
Context {P : Type} `{NodePersistence P, BlobPersistence P}.
Implicit Types (g : RoomGraph) (r : Room) (pending : list SyncNode).

Abbreviation get g := (ns_get (g_nodes g)).

(** The rejections a pass reports. *)
Definition reported (rs : list (NodeId * SyncError)) : list ImportError :=
  omap (λ ie : NodeId * SyncError, match ie.2 with MissingParent _ | DuplicateNode _ => None | e => Some (ImportRejected e) end) rs.
Lemma room_split_spec rej m p0 mi rj es :
  let t := foldl split_rejection (mkSplit m p0 mi rj) rej in
  (foldl room_split (m, p0, es) rej).1.2 = is_pending t ∧
  (foldl room_split (m, p0, es) rej).2 = es ++ reported rej.
Proof.
  revert m p0 mi rj es. induction rej as [|[i e] rej IH]; intros m p0 mi rj es; cbn zeta; [by rewrite app_nil_r|].
  cbn [foldl]. unfold reported. cbn [omap list_omap snd]. fold (reported rej).
  destruct e; unfold room_split at 2 4, split_rejection at 2; cbn [fst snd is_by_id is_pending is_missing is_rejected];
    try destruct (m !! i); match goal with |- context [foldl room_split (?m', ?p', ?e') _] =>
      match goal with |- context [foldl split_rejection (mkSplit _ _ ?mi' ?rj') _] => destruct (IH m' p' mi' rj' e') as [-> ->] end end;
    split; rewrite <-?app_assoc; done.
Qed.

(** What the import leaves behind: every node of the pack is stored, fails a
    check, or waits for a parent that is neither stored nor in the pack. *)
Record room_imported (now : Z) g pending g' (still : list SyncNode) (ms : list SyncNode) : Prop := {
  ri_arrived : arrived g ms g';
  ri_grown : grown g g';
  ri_sub : ms ⊆ pending;
  ri_hash : ∀ m, m ∈ ms → tx_hash (node_tx m) = node_id m;
  ri_all : ∀ i, i ∈ node_id <$> pending → is_Some (get g' i) ∨ i ∈ node_id <$> still ∨
    ∃ n, n ∈ pending ∧ node_id n = i ∧ unclean (Some now) g n;
  ri_still : ∀ i, i ∈ node_id <$> still → ∃ n p, n ∈ pending ∧ node_id n = i ∧ p ∈ node_parents n ∧ get g' p = None;
}.

Lemma room_import_loop_spec fuel g pending now acc es :
  (length pending < fuel)%nat →
  let '(g', still, acc', es') := room_import_loop fuel g pending now acc es in
  ∃ ms, acc' = acc ++ (node_id <$> ms) ∧ room_imported now g pending g' still ms.
Proof.
  revert g pending acc es. induction fuel as [|fuel IH]; intros g pending acc es Hf; [lia|]. cbn [room_import_loop].
  destruct pending as [|n0 pend] eqn:Epend.
  { exists []. rewrite app_nil_r. split; [done|]. split; [by apply arrived_none|done|set_solver|set_solver|set_solver|set_solver]. }
  rewrite <-Epend in *. clear n0 pend Epend. pose proof (import_pass_spec (Some now) g pending) as Hp.
  pose proof (batch_arrived g (import_batch pending) (Some now)) as Hb.
  destruct (apply_remote_batch_checked g (import_batch pending) (Some now)) as [g1 pass].
  destruct (room_split_spec (batch_rejected pass) (by_id pending) [] [] [] es) as [Hrs _].
  destruct (foldl room_split _ _) as [[m' st] es']. cbn in Hrs. subst st.
  set (t := foldl split_rejection _ _) in *. destruct Hp as [Hg Hall Hnew Hids Hsub Hlen Hrej Hmis Hst].
  destruct Hb as (ms&Hav&Hms&Hsubm&Hcl).
  assert (ms ⊆ pending) as Hmp by (intros m Hm; by apply import_batch_sub, Hsubm).
  assert (∀ i, i ∈ (is_rejected t).*1 → ∃ n, n ∈ pending ∧ node_id n = i ∧ unclean (Some now) g n) as Hun.
  { intros i (r&->&Hr)%list_elem_of_fmap. destruct (Hrej r Hr) as [Hm (n&Hn&Hid&Hd)]. exists n. split; [done|]. split; [done|].
    unfold due in Hd. by rewrite not_miss in Hd. }
  case_decide as Hd.
  - exists ms. rewrite Hms. split; [done|]. split; [done|done|done|intros m Hm; by apply (Hcl m)| |].
    + intros i Hi. destruct (Hall i Hi) as [?|Hr]; [by left|right]. rewrite fmap_app in Hr. apply elem_of_app in Hr as [Hr|Hr].
      * right. by apply Hun.
      * left. by rewrite Hids.
    + intros i Hi. rewrite Hids in Hi. apply list_elem_of_fmap in Hi as (r&->&Hr). destruct (Hmis r Hr) as [Hm (n&Hn&Hid&He)].
      unfold is_miss in Hm. destruct (r.2); try done. destruct He as [Hp He]. exists n, h. split; [done|]. split; [done|]. split; [done|].
      apply eq_None_not_Some. intros Hs%(Hst Hd). rewrite He in Hs. by destruct Hs.
  - specialize (IH g1 (is_pending t) (acc ++ batch_accepted pass) es').
    destruct (room_import_loop fuel g1 _ now _ _) as [[[g' still] acc'] es'']. destruct IH as (ms'&->&[Hav' Hg' Hsub' Hh' Hall' Hst']); [lia|].
    exists (ms ++ ms'). split; [by rewrite fmap_app, Hms, app_assoc|].
    assert (is_pending t ⊆ pending) as Hpp by done. split.
    + by eapply arrived_app.
    + by etrans.
    + set_solver.
    + intros m [Hm|Hm]%elem_of_app; [by apply (Hcl m)|by apply Hh'].
    + intros i Hi. destruct (Hall i Hi) as [Hs|Hr]; [left; by apply Hg'|]. rewrite fmap_app in Hr. apply elem_of_app in Hr as [Hr|Hr].
      * right. right. by apply Hun.
      * rewrite <-Hids in Hr. destruct (Hall' i Hr) as [?|[?|(n&Hn&Hid&Hu)]]; [by left|right; by left|right; right].
        exists n. split; [by apply Hpp|]. split; [done|]. by eapply grown_unclean.
    + intros i Hi. destruct (Hst' i Hi) as (n&p&Hn&?). exists n, p. split; [by apply Hpp|done].
Qed.

Lemma room_import_loop_ok fuel g pending now acc es :
  ok g → Forall prio_typed pending → ok (room_import_loop fuel g pending now acc es).1.1.1.
Proof.
  revert g pending acc es. induction fuel as [|fuel IH]; intros g pending acc es Hok Ht; [done|]. cbn [room_import_loop].
  destruct pending as [|n0 pend] eqn:Epend; [done|]. rewrite <-Epend in *. clear n0 pend Epend.
  assert (Forall prio_typed (import_batch pending)) as Hb.
  { apply Forall_forall. intros n [Hn _]%import_batch_sub. rewrite Forall_forall in Ht. by apply Ht. }
  pose proof (ok_batch g _ (Some now) Hok Hb) as Hok1. pose proof (import_pass_spec (Some now) g pending) as Hp.
  destruct (apply_remote_batch_checked g (import_batch pending) (Some now)) as [g1 pass]. cbn in Hok1.
  destruct (room_split_spec (batch_rejected pass) (by_id pending) [] [] [] es) as [Hrs _].
  destruct (foldl room_split _ _) as [[m' st] es']. cbn in Hrs. subst st. case_decide; [done|]. apply IH; [done|].
  apply Forall_forall. intros n Hn. rewrite Forall_forall in Ht. by apply Ht, (pa_sub _ _ _ _ _ Hp).
Qed.

(** The whole import: the graph, and what is written through. *)
Lemma room_import_spec r room (p : P) ns now :
  let '(r', p', (acc, es)) := room_import_nodes r room p ns now in
  ∃ g' still ms, r' = with_graph r g' ∧ acc = node_id <$> ms ∧
    p' = match ms with [] => p | _ => np_persist_nodes P room ms p end ∧
    room_imported now (rm_graph r) ns g' still ms ∧
    (ok (rm_graph r) → Forall prio_typed ns → ok g').
Proof.
  unfold room_import_nodes. pose proof (room_import_loop_ok (S (length ns)) (rm_graph r) ns now [] []) as Hok.
  pose proof (room_import_loop_spec (S (length ns)) (rm_graph r) ns now [] []) as Hl.
  destruct (room_import_loop _ _ ns now [] []) as [[[g' still] acc] es]. destruct Hl as (ms&->&Hi); [lia|].
  cbn [app].
  exists g', still, ms. split; [done|]. split; [done|]. split; [|split; [done|exact Hok]].
  assert (omap (λ id, head (get_nodes g' [id])) (node_id <$> ms) = ms) as Ho.
  { destruct Hi as [[_ _ Hget _] _ _ _ _ _].
    assert (∀ m, m ∈ ms → get g' (node_id m) = Some m) as Hg by (intros m Hm; apply Hget; auto). clear -Hg.
    induction ms as [|m ms IH]; [done|]. cbn [fmap list_fmap omap list_omap]. unfold get_nodes at 1. cbn [omap list_omap].
    rewrite (Hg m) by (by left). cbn [head]. f_equal.
    apply IH. intros x Hx. apply Hg. by right. }
  destruct ms as [|m ms]; [done|]. cbn [fmap list_fmap] in Ho |- *. rewrite Ho. done.
Qed.
End import.


(** ** Appending what is new *)

Definition agree (ns ms : list SyncNode) : Prop := ∀ n m, n ∈ ns → m ∈ ms → node_id n = node_id m → n = m.
Lemma agree_nil ms : agree [] ms.
Proof. by intros n m ?%not_elem_of_nil. Qed.

Lemma append_new_ids l n : node_id <$> append_new l n = (node_id <$> l) ++ (if decide (node_id n ∈ node_id <$> l) then [] else [node_id n]).
Proof. unfold append_new. case_decide; [by rewrite app_nil_r|]. by rewrite fmap_app. Qed.
Lemma append_new_elem l ns i : i ∈ node_id <$> foldl append_new l ns ↔ i ∈ node_id <$> l ∨ i ∈ node_id <$> ns.
Proof.
  revert l. induction ns as [|n ns IH]; intros l; cbn [foldl]; [set_solver|]. rewrite IH, append_new_ids, elem_of_app, fmap_cons, elem_of_cons.
  case_decide as Hd; [|rewrite list_elem_of_singleton]; [|tauto]. rewrite elem_of_nil. naive_solver.
Qed.
Lemma append_new_sub l ns x : x ∈ foldl append_new l ns → x ∈ l ∨ x ∈ ns.
Proof.
  revert l. induction ns as [|n ns IH]; intros l; cbn [foldl]; [by left|]. intros [Hx|Hx]%IH; [|right; by right].
  unfold append_new in Hx. case_decide; [by left|]. apply elem_of_app in Hx as [?|Hx%list_elem_of_singleton]; [by left|subst x; right; by left].
Qed.
Lemma append_new_prefix l ns : l `prefix_of` foldl append_new l ns.
Proof.
  revert l. induction ns as [|n ns IH]; intros l; cbn [foldl]; [done|]. etrans; [|apply IH]. unfold append_new.
  case_decide; [done|]. by eexists.
Qed.
Lemma append_new_NoDup l ns : NoDup (node_id <$> l) → NoDup (node_id <$> foldl append_new l ns).
Proof.
  revert l. induction ns as [|n ns IH]; intros l Hl; cbn [foldl]; [done|]. apply IH. rewrite append_new_ids. apply NoDup_app.
  split; [done|]. case_decide; [split; [set_solver|constructor]|]. split; [set_solver|apply NoDup_singleton].
Qed.
Lemma append_new_causal l ns : causal l → after (λ i, i ∈ node_id <$> l) ns → causal (foldl append_new l ns).
Proof.
  intros Hl. induction 1 as [|ns n _ IH Hp]; [done|]. rewrite foldl_app. cbn [foldl]. unfold append_new at 1.
  case_decide; [done|]. constructor; [done|]. intros p Hp'. rewrite append_new_elem. by apply Hp.
Qed.
Lemma causal_prefix l k : l `prefix_of` k → causal k → causal l.
Proof.
  intros [x ->]. induction x as [|n x IH] using rev_ind; [by rewrite app_nil_r|]. rewrite app_assoc. intros Hc. apply IH.
  inversion Hc as [E|ns m Hns _ E]; [by destruct l, x|]. apply app_inj_tail in E as [<- _]. done.
Qed.
Lemma same_id_same l n m : NoDup (node_id <$> l) → n ∈ l → m ∈ l → node_id n = node_id m → n = m.
Proof.
  intros Hnd. induction l as [|x l IH]; [by intros ?%not_elem_of_nil|]. cbn in Hnd. apply NoDup_cons in Hnd as [Hx Hnd].
  intros [->|Hn]%elem_of_cons [->|Hm]%elem_of_cons E; [done|..].
  - destruct Hx. rewrite E. by apply list_elem_of_fmap_2.
  - destruct Hx. rewrite <-E. by apply list_elem_of_fmap_2.
  - by apply IH.
Qed.

(** ** The invariant *)

Section registry.
Context `{Blake3, Postcard Transaction, Ed25519, Postcard (list WireNode), Postcard (list PolicyTimelineEntry), Postcard (list Hash)}.
Context `{!Ed25519Laws, !Ed25519BatchLaws, Serde RoomLineage, Serde PromotionRecord}.
Context {P : Type} `{PersistContract P} {W : Type} `{AssetInventoryStore W}.
Implicit Types (s : Rooms P W) (room : bytes) (r : Room) (p : P) (g : RoomGraph).

Abbreviation get g := (ns_get (g_nodes g)).

(** A node every check of a fresh graph passes. *)
Record sound (n : SyncNode) : Prop := {
  sn_hash : tx_hash (node_tx n) = node_id n;
  sn_sig : verify_signature n = Ok tt;
  sn_typed : prio_typed n;
  sn_live : node_prio n ≠ prio_zero;
  sn_low : node_lamport n <= LAMPORT_SLACK;
}.

Record store_ok room p : Prop := {
  st_ids : NoDup (node_id <$> pc_nodes room p);
  st_causal : causal (pc_nodes room p);
  st_sound : Forall sound (pc_nodes room p);
}.
Definition complete room p g : Prop := ∀ n, n ∈ pc_nodes room p → is_Some (get g (node_id n)).
Definition stage_ok room p g (h : option Hydration) : Prop :=
  match h with
  | Some HydrateLoad => True
  | Some (HydrateApply nodes _) =>
      nodes `prefix_of` pc_nodes room p ∧ ∀ n, n ∈ pc_nodes room p → n ∈ nodes ∨ is_Some (get g (node_id n))
  | _ => complete room p g
  end.
Record room_ok room p r (h : option Hydration) : Prop := {
  ro_graph : ok (rm_graph r);
  ro_stored : ∀ i n, get (rm_graph r) i = Some n → n ∈ pc_nodes room p;
  ro_hydrated : rm_hydrated r = bool_decide (h = None);
  ro_policy : rm_hydrated r = false → g_policy (rm_graph r) = policy_default;
  ro_stage : stage_ok room p (rm_graph r) h;
}.
(** A cached scan was exact when it was taken. *)
Definition caches_ok p (c : GcScanCaches) : Prop := ∀ room v hs, cold_live c !! room = Some (v, hs) →
  ∃ p0, pc_ok p0 ∧ pc_later p0 p ∧ (np_room_nodes_version P room p0).1 = Some v ∧ hs = blob_hashes_referenced_by (pc_nodes room p0).

Record registry_ok s : Prop := {
  rg_persist : pc_ok (rs_persistence s);
  rg_quiet : pc_quiet (rs_persistence s);
  rg_store : ∀ room, store_ok room (rs_persistence s);
  rg_rooms : ∀ room r, rs_rooms s !! room = Some r → room_ok room (rs_persistence s) r (rs_hydrations s !! room);
  rg_tasks : ∀ room, is_Some (rs_hydrations s !! room) → is_Some (rs_rooms s !! room);
  rg_caches : caches_ok (rs_persistence s) (rs_caches s);
}.

Lemma room_ok_same room p p' r h : pc_nodes room p' = pc_nodes room p → room_ok room p r h → room_ok room p' r h.
Proof. intros E [Hg Hs Hh Hp Hst]. split; unfold stage_ok, complete in *; rewrite ?E; done. Qed.
Lemma store_ok_same room p p' : pc_nodes room p' = pc_nodes room p → store_ok room p → store_ok room p'.
Proof. intros E [Ha Hb Hc]. by split; rewrite E. Qed.
Lemma caches_ok_later p p' c : pc_later p p' → caches_ok p c → caches_ok p' c.
Proof. intros Hl Hc room v hs (p0&?&?&?&?)%Hc. exists p0. split; [done|]. split; [by etrans|done]. Qed.

(** Nodes arrive in a room and are written through. *)
Lemma room_writes room p p' r h ms g' :
  store_ok room p → room_ok room p r h → ok g' → g_policy g' = g_policy (rm_graph r) →
  arrived (rm_graph r) ms g' → Forall sound ms → agree ms (pc_nodes room p) →
  pc_nodes room p' = foldl append_new (pc_nodes room p) ms →
  store_ok room p' ∧ room_ok room p' (with_graph r g') h.
Proof.
  intros [Hids Hca Hso] [[arr Hg] Hst Hhy Hpo Hsg] Hg' Epol Hav Hsm Hag Ep.
  pose proof (λ i, arrived_stored _ _ _ i Hav) as Hstored. destruct Hav as [Hnd Hnew Hget Hord].
  assert (∀ n, n ∈ pc_nodes room p → n ∈ pc_nodes room p') as Hold.
  { intros n Hn. rewrite Ep. destruct (append_new_prefix (pc_nodes room p) ms) as [k ->]. apply elem_of_app. by left. }
  assert (∀ n, n ∈ ms → n ∈ pc_nodes room p') as Hms.
  { intros n Hn. assert (node_id n ∈ node_id <$> pc_nodes room p') as (m&E&Hm)%list_elem_of_fmap.
    { rewrite Ep, append_new_elem. right. by apply list_elem_of_fmap_2. }
    assert (n = m) as ->; [|done]. rewrite Ep in Hm. apply append_new_sub in Hm as [Hm|Hm]; [by apply Hag|by eapply same_id_same]. }
  assert (∀ n, n ∈ pc_nodes room p' → n ∈ pc_nodes room p ∨ n ∈ ms) as Hsub by (intros n; rewrite Ep; apply append_new_sub).
  split.
  - split; rewrite Ep; [by apply append_new_NoDup| |].
    + apply append_new_causal; [done|]. eapply after_mono; [|exact Hord]. intros i [n Hn].
      rewrite <-(ok_keyed _ _ Hg i n Hn). apply list_elem_of_fmap_2. by eapply Hst.
    + apply Forall_forall. intros n [Hn|Hn]%append_new_sub; [rewrite Forall_forall in Hso; by apply Hso|rewrite Forall_forall in Hsm; by apply Hsm].
  - assert (complete room p (rm_graph r) → complete room p' g') as Hcomp.
    { intros Hc n [Hn|Hn]%Hsub; apply Hstored; [left; by apply Hc|right; by apply list_elem_of_fmap_2]. }
    split; cbn; [done| |done|by rewrite Epol|].
    + intros i n [Hi|[Hn _]]%Hget; [|by apply Hms]. by eapply Hold, Hst.
    + destruct h as [[| nodes refs | | |]|]; cbn in *; auto. destruct Hsg as [Hpre Hcov]. split.
      * etrans; [exact Hpre|]. rewrite Ep. apply append_new_prefix.
      * intros n [Hn|Hn]%Hsub; [|right; apply Hstored; right; by apply list_elem_of_fmap_2].
        destruct (Hcov n Hn); [by left|right; apply Hstored; by left].
Qed.

(** Replacing one room and the store. *)
Lemma registry_wrote s room r' p' :
  registry_ok s → is_Some (rs_rooms s !! room) → pc_ok p' → pc_quiet p' → pc_later (rs_persistence s) p' →
  (∀ room', room' ≠ room → pc_nodes room' p' = pc_nodes room' (rs_persistence s)) →
  store_ok room p' → room_ok room p' r' (rs_hydrations s !! room) →
  registry_ok (set_persistence (set_room s room r') p').
Proof.
  intros [Hp Hq Hst Hr Ht Hc] [r0 Hr0] Hp' Hq' Hl Ho Hs' Hr'. split; cbn; [done|done| | | |by eapply caches_ok_later].
  - intros room'. destruct (decide (room' = room)) as [->|Hne]; [done|]. eapply store_ok_same; [by apply Ho|done].
  - intros room' r. destruct (decide (room' = room)) as [->|Hne].
    + rewrite lookup_insert_eq. by intros [= <-].
    + rewrite lookup_insert_ne by done. intros Hr1. eapply room_ok_same; [by apply Ho|]. by apply Hr.
  - intros room' Hx. destruct (decide (room' = room)) as [->|Hne]; [by rewrite lookup_insert_eq|].
    rewrite lookup_insert_ne by done. by apply Ht.
Qed.
(** Changing what the invariant does not look at. *)
Lemma registry_room_same s room r r' :
  registry_ok s → rs_rooms s !! room = Some r → rm_graph r' = rm_graph r → rm_hydrated r' = rm_hydrated r →
  registry_ok (set_room s room r').
Proof.
  intros [Hp Hq Hst Hr Ht Hc] Hr0 Eg Eh. split; cbn; try done.
  - intros room' r1. destruct (decide (room' = room)) as [->|Hne].
    + rewrite lookup_insert_eq. intros [= <-]. destruct (Hr _ _ Hr0). split; by rewrite ?Eg, ?Eh.
    + rewrite lookup_insert_ne by done. by apply Hr.
  - intros room' Hx. destruct (decide (room' = room)) as [->|Hne]; [by rewrite lookup_insert_eq|].
    rewrite lookup_insert_ne by done. by apply Ht.
Qed.

(** ** Writing *)

(** [room_writes] on the registry. *)
Lemma registry_writes s room r r' ms g' p' :
  registry_ok s → rs_rooms s !! room = Some r → r' = with_graph r g' → ok g' → g_policy g' = g_policy (rm_graph r) →
  arrived (rm_graph r) ms g' → Forall sound ms → agree ms (pc_nodes room (rs_persistence s)) →
  pc_ok p' → pc_quiet p' → pc_later (rs_persistence s) p' →
  pc_nodes room p' = foldl append_new (pc_nodes room (rs_persistence s)) ms →
  (∀ room', room' ≠ room → pc_nodes room' p' = pc_nodes room' (rs_persistence s)) →
  registry_ok (set_persistence (set_room s room r') p').
Proof.
  intros Hok Hr -> Hg Epol Hav Hso Hag Hp' Hq' Hl Ep Ho.
  destruct (room_writes room (rs_persistence s) p' r (rs_hydrations s !! room) ms g') as [? ?];
    [apply Hok|by apply (rg_rooms _ Hok)|done..|]. by apply registry_wrote.
Qed.

Lemma import_into_ok s room ns now_ms :
  registry_ok s → Forall sound ns → agree ns (pc_nodes room (rs_persistence s)) → registry_ok (import_into s room ns now_ms).
Proof.
  intros Hok Hso Hag. unfold import_into. destruct (rs_rooms s !! room) as [r|] eqn:Hr; [|done].
  pose proof (room_import_spec r room (rs_persistence s) ns now_ms) as Hi.
  destruct (room_import_nodes r room (rs_persistence s) ns now_ms) as [[r' p'] [acc es]].
  destruct Hi as (g'&still&ms&->&_&Ep&[Hav Hgr Hsub _ _ _]&Hg).
  pose proof (rg_rooms _ Hok _ _ Hr) as Hro. destruct (pc_persist_nodes room ms (rs_persistence s) (rg_persist _ Hok)) as (Hp'&Hl&Hq).
  destruct (Hq (rg_quiet _ Hok)) as (Hq'&En&Eo).
  assert (pc_ok p' ∧ pc_quiet p' ∧ pc_later (rs_persistence s) p' ∧ pc_nodes room p' = foldl append_new (pc_nodes room (rs_persistence s)) ms ∧
    ∀ room', room' ≠ room → pc_nodes room' p' = pc_nodes room' (rs_persistence s)) as (?&?&?&?&?).
  { rewrite Ep. destruct ms; [|done]. split; [apply Hok|]. split; [apply Hok|]. done. }
  rewrite Forall_forall in Hso.
  eapply registry_writes; try done.
  - apply Hg; [apply Hro|]. apply Forall_forall. intros n Hn. by apply Hso.
  - apply (gr_policy _ _ Hgr).
  - apply Forall_forall. intros n Hn. by apply Hso, Hsub.
  - intros n m Hn. by apply Hag, Hsub.
Qed.

(** One node of the server's own. *)
Lemma registry_writes_one s room r n g' :
  registry_ok s → rs_rooms s !! room = Some r → ok g' → g_policy g' = g_policy (rm_graph r) →
  arrived (rm_graph r) [n] g' → sound n → agree [n] (pc_nodes room (rs_persistence s)) →
  registry_ok (set_persistence (set_room s room (with_graph r g')) (np_persist_node P room n (rs_persistence s))).
Proof.
  intros Hok Hr Hg Epol Hav Hso Hag.
  destruct (pc_persist_node room n (rs_persistence s) (rg_persist _ Hok)) as (Hp'&Hl&Hq). destruct (Hq (rg_quiet _ Hok)) as (Hq'&En&Eo).
  eapply (registry_writes s room r _ [n] g'); try done. by constructor.
Qed.

Lemma local_node_sound g sk (os : list Op) :
  ok g → g_lamport g < LAMPORT_SLACK → sound (local_node g sk 0 os).
Proof.
  intros Hok Hlt. assert (is_u64 (g_lamport g)) as Hu by (by destruct Hok as [? []]).
  assert (g_lamport g < u64_max) as Hm by (unfold LAMPORT_SLACK, u64_max in *; lia).
  assert (node_lamport (local_node g sk 0 os) = g_lamport g + 1) as El.
  { unfold node_lamport. rewrite local_node_tx. cbn. by rewrite wrap_succ. }
  split.
  - apply local_node_hash.
  - unfold local_node. destruct (g_local_signing g); [by apply verify_signature_own|done].
  - unfold prio_typed. rewrite El, local_node_tx. split; [unfold is_u64, u64_max, LAMPORT_SLACK in *; lia|apply ed_vk_length].
  - unfold node_prio, tx_prio. intros E. apply (f_equal fst) in E. cbn in E. unfold node_lamport in El. rewrite El in E.
    unfold is_u64 in Hu. lia.
  - rewrite El. lia.
Qed.
Lemma tick_room_ok s room sk prefix :
  registry_ok s →
  (∀ r, rs_rooms s !! room = Some r → g_lamport (rm_graph r) < LAMPORT_SLACK ∧
     agree [local_node (rm_graph r) sk 0 (tick_op <$> default_tick_fn (tick_intents (rm_graph r) prefix))] (pc_nodes room (rs_persistence s))) →
  registry_ok (tick_room s room sk prefix).
Proof.
  intros Hok Hpre. unfold tick_room. destruct (rs_rooms s !! room) as [r|] eqn:Hr; [|done].
  destruct (Hpre r eq_refl) as [Hlt Hag]. clear Hpre. pose proof (rg_rooms _ Hok _ _ Hr) as Hro.
  assert (∀ p, p = rs_persistence s → registry_ok (set_persistence (set_room s room r) p)) as Hsame.
  { intros p ->. destruct s as [rs hy ha ci cc ls ps pp iv ug cs]. cbn in *.
    pose proof (registry_room_same _ room r r Hok Hr eq_refl eq_refl) as Hx. exact Hx. }
  unfold process_tick, tick_commit. destruct (default_tick_fn _) as [|w ws]; [by apply Hsame|].
  set (os := tick_op <$> w :: ws) in *. clearbody os.
  assert (g_lamport (rm_graph r) < u64_max) as Hm by (unfold LAMPORT_SLACK, u64_max in *; lia).
  pose proof (apply_local_spec (rm_graph r) sk 0 os (ro_graph _ _ _ _ Hro) Hm) as Hs. cbv zeta in Hs.
  pose proof (ok_local (rm_graph r) sk 0 os (ro_graph _ _ _ _ Hro) Hm) as Hg.
  pose proof (apply_local_policy (rm_graph r) sk 0 os) as Epol.
  destruct (apply_local (rm_graph r) sk 0 os) as [g' [id|e]]; cbn [fst] in Hg, Epol.
  - destruct Hs as [-> Hadm]. set (n := local_node _ _ _ _) in *.
    assert (ns_get (g_nodes g') (node_id n) = Some n) as Hn by (destruct Hadm as (_&_&->); by rewrite decide_True).
    unfold get_nodes. cbn [omap list_omap]. rewrite Hn. apply registry_writes_one; try done.
    + eapply arrived_one; [|exact Hadm]. intros q. apply local_node_parents, Hro.
    + by apply local_node_sound; [apply Hro|].
  - destruct Hs as (_&_&l&El&_). apply (registry_writes s room r _ [] g' (rs_persistence s)); try done; [|apply agree_nil|apply Hok..].
    apply arrived_none. by rewrite El.
Qed.

Lemma snapshot_sound g sk base :
  ok g → g_lamport g < LAMPORT_SLACK → sound (snapshot_node g sk base []).
Proof.
  intros Hok Hlt. assert (is_u64 (g_lamport g)) as Hu by (by destruct Hok as [? []]).
  assert (g_lamport g < u64_max) as Hm by (unfold LAMPORT_SLACK, u64_max in *; lia).
  assert (node_lamport (snapshot_node g sk base []) = g_lamport g + 1) as El.
  { unfold node_lamport, snapshot_node. cbn. by rewrite wrap_succ. }
  split; [done|by apply verify_signature_own| | |lia].
  - unfold prio_typed. rewrite El. split; [unfold is_u64, u64_max, LAMPORT_SLACK in *; lia|apply ed_vk_length].
  - unfold node_prio, tx_prio. intros E. apply (f_equal fst) in E. cbn in E. unfold node_lamport in El. cbn in El. rewrite El in E.
    unfold is_u64 in Hu. lia.
Qed.
Lemma snapshot_room_ok s room sk k d m :
  registry_ok s →
  (∀ r base, rs_rooms s !! room = Some r → g_lamport (rm_graph r) < LAMPORT_SLACK ∧
     agree [snapshot_node (rm_graph r) sk base []] (pc_nodes room (rs_persistence s))) →
  registry_ok (snapshot_room s room sk k d m).1.
Proof.
  intros Hok Hpre. unfold snapshot_room. destruct (rs_rooms s !! room) as [r|] eqn:Hr; [|done].
  pose proof (λ b, Hpre r b eq_refl) as Hpre'. clear Hpre. pose proof (rg_rooms _ Hok _ _ Hr) as Hro.
  assert (registry_ok (set_persistence (set_room s room r) (rs_persistence s))) as Hsame.
  { destruct s as [rs hy ha ci cc ls ps pp iv ug cs]. exact (registry_room_same _ room r r Hok Hr eq_refl eq_refl). }
  unfold snapshot_tick. match goal with |- context [default ?y m] => destruct (default y m) as [[last depth] snap] end. destruct (_ <? k); [done|].
  set (x := match snap with Some b => _ | None => _ end).
  assert (∃ base, x = Ok (snapshot_node (rm_graph r) sk base [])) as [base ->].
  { unfold x. destruct snap as [b|]; [destruct (d <=? depth)|]; by eexists. }
  set (full := match snap with None => true | Some _ => _ end). clearbody full.
  destruct (Hpre' base) as [Hlt Hag]. set (n := snapshot_node _ _ _ _) in *.
  assert (sound n) as Hso by (by apply snapshot_sound; [apply Hro|]).
  pose proof (apply_remote_checked_spec (rm_graph r) n None) as Hs. pose proof (ok_remote (rm_graph r) n None (ro_graph _ _ _ _ Hro) (sn_typed _ Hso)) as Hg.
  unfold apply_remote. destruct (apply_remote_checked (rm_graph r) n None) as [g' [[]|e]]; cbn [fst] in Hg |- *.
  - destruct Hs as (Hrok&Hadm&Epol). apply registry_writes_one; try done. eapply arrived_one; [|exact Hadm]. by apply Hrok.
  - destruct Hs as [_ Hun]. apply (registry_writes s room r _ [] g' (rs_persistence s)); try done; [| |apply agree_nil|apply Hok..].
    + by destruct Hun as [->| ->].
    + apply arrived_none. by destruct Hun as [->| ->].
Qed.

(** ** Creating, hydrating, evicting *)

Lemma set_handles_ok s h : registry_ok s → registry_ok (set_handles s h).
Proof. intros []. by split. Qed.
Lemma get_or_create_ok s room now : registry_ok s → registry_ok (get_or_create s room now).
Proof.
  intros Hok. unfold get_or_create. set (s1 := set_handles s _). assert (registry_ok s1) as Hok1 by (by apply set_handles_ok).
  clearbody s1. clear s Hok. destruct (rs_rooms s1 !! room) as [r|] eqn:Hr; [done|].
  destruct Hok1 as [Hp Hq Hst Hrm Ht Hc]. split; cbn; try done.
  - intros room' r. destruct (decide (room' = room)) as [->|Hne].
    + rewrite !lookup_insert_eq. intros [= <-]. split; cbn; try done.
      exists []. apply graph_ok_empty. intros i. apply lookup_empty.
    + rewrite !lookup_insert_ne by done. apply Hrm.
  - intros room'. destruct (decide (room' = room)) as [->|Hne]; [by rewrite !lookup_insert_eq|].
    rewrite !lookup_insert_ne by done. apply Ht.
Qed.

Lemma load_blobs_quiet hashes p : pc_ok p → pc_quiet p → (load_blobs hashes p).2 = p.
Proof.
  intros Hp Hq. unfold load_blobs. generalize (@nil bytes). induction hashes as [|h hs IH]; intros acc; [done|]. cbn [foldl].
  pose proof (pc_get_blob h p Hp Hq) as E. cbn [fst snd]. destruct (bp_get_blob P h p) as [b p']. cbn in E. subst p'. apply IH.
Qed.

(** The next stage of a hydration, with a graph that holds what the stage needs. *)
Lemma hydrate_to s s' room r r' h' :
  registry_ok s → rs_rooms s !! room = Some r →
  rs_persistence s' = rs_persistence s → rs_caches s' = rs_caches s →
  rs_rooms s' = <[room := r']> (rs_rooms s) →
  (∀ room', rs_hydrations s' !! room' = if decide (room' = room) then h' else rs_hydrations s !! room') →
  room_ok room (rs_persistence s) r' h' → registry_ok s'.
Proof.
  intros [Hp Hq Hst Hrm Ht Hc] Hr Ep Ec Er Eh Hro. split; rewrite ?Ep, ?Ec; try done.
  - intros room' x. rewrite Er, Eh. case_decide as Hd.
    + subst room'. rewrite lookup_insert_eq. by intros [= <-].
    + rewrite lookup_insert_ne by done. apply Hrm.
  - intros room'. rewrite Er, Eh. case_decide as Hd; [subst; by rewrite lookup_insert_eq|].
    rewrite lookup_insert_ne by done. apply Ht.
Qed.
Lemma insert_lookup_at {A} (m : gmap bytes A) k x k' : <[k := x]> m !! k' = if decide (k' = k) then Some x else m !! k'.
Proof. case_decide; [subst; apply lookup_insert_eq|by apply lookup_insert_ne]. Qed.
Lemma delete_lookup_at {A} (m : gmap bytes A) k k' : delete k m !! k' = if decide (k' = k) then None else m !! k'.
Proof. case_decide; [subst; apply lookup_delete_eq|by apply lookup_delete_ne]. Qed.

Lemma hydrate_apply_ok room p r nodes refs h' :
  store_ok room p → room_ok room p r (Some (HydrateApply nodes refs)) →
  let g' := match nodes with [] => rm_graph r | _ => (apply_remote_batch (rm_graph r) nodes).1 end in
  ok g' ∧ g_policy g' = policy_default ∧ (∀ i n, get g' i = Some n → n ∈ pc_nodes room p) ∧ stage_ok room p g' (Some (HydrateBlobs h')).
Proof.
  intros [Hids Hca Hso] [Hg Hst Hhy Hpo [Hpre Hcov]]. cbn zeta.
  assert (g_policy (rm_graph r) = policy_default) as Epol by (apply Hpo; by rewrite Hhy).
  assert (∀ n, n ∈ nodes → n ∈ pc_nodes room p) as Hsub by (intros n Hn; by eapply elem_of_prefix).
  pose proof (batch_takes_all (rm_graph r) nodes) as Hb. pose proof (ok_batch (rm_graph r) nodes None Hg) as Hok.
  assert (match nodes with [] => rm_graph r | _ => (apply_remote_batch (rm_graph r) nodes).1 end =
    match nodes with [] => rm_graph r | _ => (apply_remote_batch_checked (rm_graph r) nodes None).1 end) as -> by done.
  destruct nodes as [|n0 nodes0] eqn:En; [|rewrite <-En in *; clear n0 nodes0 En].
  { split; [done|]. split; [done|]. split; [done|]. intros n Hn. destruct (Hcov n Hn) as [?%not_elem_of_nil|?]; done. }
  unfold apply_remote_batch in Hb. destruct (apply_remote_batch_checked (rm_graph r) nodes None) as [g' res]. cbn [fst] in *.
  rewrite Forall_forall in Hso. destruct Hb as (Hav&_&Epol').
  - destruct Hpre as [k Ek]. rewrite Ek, fmap_app in Hids. by apply NoDup_app in Hids as (?&_&_).
  - by eapply causal_prefix.
  - intros n Hn. destruct (Hso n (Hsub n Hn)) as [? ? _ _ Hlow]. split; [done| |done|done|].
    + destruct Hg as [arr Hg]. pose proof (ok_clock _ _ Hg) as Hck. unfold lamport_ok, is_u64, LAMPORT_SLACK, u64_max in *. lia.
    + rewrite Epol. by right.
  - pose proof (λ i, arrived_stored _ _ _ i Hav) as Hstored. split; [|split; [by rewrite Epol'|split]].
    + apply Hok, Forall_forall. intros n Hn. by apply Hso, Hsub.
    + intros i n [Hi|[Hn _]]%(av_get _ _ _ Hav); [by eapply Hst|]. apply Hsub. by apply list_elem_of_filter in Hn as [_ ?].
    + intros n Hn. apply Hstored. destruct (Hcov n Hn) as [Hin|?]; [|by left].
      destruct (get (rm_graph r) (node_id n)) as [m|] eqn:E; [left; eauto|right]. apply list_elem_of_fmap_2. by apply list_elem_of_filter.
Qed.

Ltac to_stage Hok Hr r' h' :=
  apply (hydrate_to _ _ _ _ r' h' Hok Hr); [done|done|first [reflexivity|cbn; by rewrite insert_id]|
    intros ?; first [apply insert_lookup_at|apply delete_lookup_at]|].

Lemma hydrate_step_ok s room : registry_ok s → registry_ok (hydrate_step s room).
Proof.
  intros Hok. unfold hydrate_step. destruct (rs_hydrations s !! room) as [stage|] eqn:Eh; [|done].
  destruct (rs_rooms s !! room) as [r|] eqn:Hr; [|done]. pose proof (rg_rooms _ Hok _ _ Hr) as Hro. rewrite Eh in Hro.
  pose proof Hro as [Hg Hst Hhy Hpo Hsg]. assert (rm_hydrated r = false) as Ehy by (by rewrite Hhy).
  destruct stage as [|nodes refs|refs| |].
  - rewrite pc_durable, (pc_load room _ (rg_quiet _ Hok)). to_stage Hok Hr r (Some (HydrateApply (pc_nodes room (rs_persistence s)) (blob_hashes_referenced_by (pc_nodes room (rs_persistence s))))).
    split; try done. split; [done|]. auto.
  - destruct (hydrate_apply_ok room (rs_persistence s) r nodes refs refs (rg_store _ Hok room) Hro) as (Hg'&Ep&Hst'&Hsg').
    to_stage Hok Hr (with_graph r match nodes with [] => rm_graph r | _ => (apply_remote_batch (rm_graph r) nodes).1 end) (Some (HydrateBlobs refs)).
    by split.
  - destruct (bp_get_blob_hydrates P (rs_persistence s)).
    + pose proof (load_blobs_quiet (elements refs) _ (rg_persist _ Hok) (rg_quiet _ Hok)) as El.
      destruct (load_blobs _ _) as [bl p']. cbn in El. subst p'.
      to_stage Hok Hr (with_room_blobs r (foldl (λ m b, (blob_put m b).1) (rm_blobs r) bl)) (Some HydrateLineage). by split.
    + to_stage Hok Hr r (Some HydrateLineage). by split.
  - destruct (get_lineage _ room) as [[lin|] ls].
    + to_stage Hok Hr (with_lineage r (Some lin)) (Some HydrateFlag). by split.
    + to_stage Hok Hr r (Some HydrateFlag). by split.
  - to_stage Hok Hr (with_hydrated r true) (@None Hydration). by split.
Qed.

(** Hydrating only reads the store. *)
Lemma hydrate_step_persist s room : registry_ok s → rs_persistence (hydrate_step s room) = rs_persistence s.
Proof.
  intros Hok. unfold hydrate_step. destruct (rs_hydrations s !! room) as [stage|]; [|done].
  destruct (rs_rooms s !! room) as [r|]; [|done]. destruct stage as [|nodes refs|refs| |]; [|done| | |done].
  - by rewrite pc_durable, (pc_load room _ (rg_quiet _ Hok)).
  - destruct (bp_get_blob_hydrates P _); [|done].
    pose proof (load_blobs_quiet (elements refs) _ (rg_persist _ Hok) (rg_quiet _ Hok)) as El. by destruct (load_blobs _ _).
  - by destruct (get_lineage _ room) as [[l|] ls].
Qed.
Lemma hydrate_ok s room : registry_ok s → registry_ok (hydrate s room) ∧ rs_persistence (hydrate s room) = rs_persistence s.
Proof.
  intros Hok. unfold hydrate. generalize 5%nat. intros n. induction n as [|n [IH Ep]]; [done|]. cbn [Nat.iter].
  split; [by apply hydrate_step_ok|]. etrans; [by apply hydrate_step_persist|done].
Qed.

(** ** The live set *)

Definition references (n : SyncNode) (h : Hash) : Prop := ∃ o, o ∈ node_ops n ∧ op_blob o = Some h.
Lemma elem_of_referenced ns h : h ∈ blob_hashes_referenced_by ns ↔ ∃ n, n ∈ ns ∧ references n h.
Proof.
  unfold blob_hashes_referenced_by, references. rewrite elem_of_list_to_set, list_elem_of_bind. setoid_rewrite list_elem_of_omap. naive_solver.
Qed.
Lemma graph_references room p r h hash :
  room_ok room p r h → Forall sound (pc_nodes room p) →
  hash ∈ referenced_blob_hashes (rm_graph r) ↔ ∃ i n, get (rm_graph r) i = Some n ∧ references n hash.
Proof.
  intros [[arr Hg] Hst _ _ _] Hso. rewrite Forall_forall in Hso. unfold referenced_blob_hashes. rewrite (ok_blobs _ _ Hg), elem_of_event_blobs.
  assert (∀ n, n ∈ arr.*1 ↔ ∃ i, get (rm_graph r) i = Some n) as Harr.
  { intros n. rewrite (ok_arrival _ _ Hg). apply elem_of_all_nodes. }
  rewrite live_events_live_nodes. split.
  - intros ([q o]&He&Ho). apply elem_of_events in He as (n&Hn&Hq). unfold live_nodes in Hn. apply list_elem_of_filter in Hn as [_ Hn].
    apply Harr in Hn as [i Hi]. exists i, n. split; [done|]. exists o. naive_solver.
  - intros (i&n&Hi&o&Ho&Hb). exists (node_prio n, o). split; [|done]. apply elem_of_events. exists n. split; [|done].
    apply list_elem_of_filter. split; [|apply Harr; eauto]. by eapply sn_live, Hso, Hst.
Qed.

Lemma cold_room_ok p c out room :
  pc_ok p → pc_quiet p → caches_ok p c →
  ∃ c', cold_room (out, c, p) room = (out ∪ blob_hashes_referenced_by (pc_nodes room p), c', p) ∧ caches_ok p c'.
Proof.
  intros Hp Hq Hc. unfold cold_room. pose proof (pc_version_quiet room p Hq) as Ev.
  destruct (np_room_nodes_version P room p) as [version p'] eqn:Ever. cbn in Ev. subst p'.
  destruct (version ≫= cold_live_get c room) as [cached|] eqn:Eg.
  - destruct version as [v|]; [|done]. cbn in Eg. unfold cold_live_get in Eg. destruct (cold_live c !! room) as [[v' hs]|] eqn:El; [|done].
    destruct (Z.eqb_spec v' v) as [->|]; [|done]. injection Eg as ->. destruct (Hc _ _ _ El) as (p0&Hp0&Hl&Ev0&->).
    exists (count_cold_hit c). split; [|done]. do 4 f_equal. symmetry. apply (pc_version_exact room p0 p v); [done..|]. by rewrite Ever.
  - rewrite (pc_load room p Hq). eexists. split; [done|]. destruct version as [v|]; [|done].
    intros room' v' hs. cbn. rewrite insert_lookup_at. case_decide as Hd; [|apply Hc]. subst room'. intros [= <- <-].
    exists p. split; [done|]. split; [done|]. by rewrite Ever.
Qed.
Lemma cold_rooms_ok p c out rooms :
  pc_ok p → pc_quiet p → caches_ok p c →
  ∃ out' c', foldl cold_room (out, c, p) rooms = (out', c', p) ∧ caches_ok p c' ∧
    ∀ h, h ∈ out' ↔ h ∈ out ∨ ∃ room, room ∈ rooms ∧ h ∈ blob_hashes_referenced_by (pc_nodes room p).
Proof.
  intros Hp Hq. revert out c. induction rooms as [|room rooms IH]; intros out c Hc; cbn [foldl].
  { exists out, c. split; [done|]. split; [done|]. set_solver. }
  destruct (cold_room_ok p c out room Hp Hq Hc) as (c1&->&Hc1). destruct (IH (out ∪ blob_hashes_referenced_by (pc_nodes room p)) c1 Hc1) as (out'&c'&->&Hc'&Ho).
  exists out', c'. split; [done|]. split; [done|]. intros h. rewrite Ho. set_solver.
Qed.

Lemma caches_ok_retain p c known : caches_ok p c → caches_ok p (retain_rooms c known).
Proof. intros Hc room v hs [Hl _]%map_lookup_filter_Some. by apply Hc. Qed.

Definition live_hash s (now : SystemTime) (h : Hash) : Prop :=
  (∃ room n, n ∈ pc_nodes room (rs_persistence s) ∧ references n h) ∨ h ∈ (collect_recent_upload_hashes s now).1.

Lemma uploads_reads s s' now :
  rs_inventory s' = rs_inventory s → rs_upload_grace s' = rs_upload_grace s →
  (collect_recent_upload_hashes s' now).1 = (collect_recent_upload_hashes s now).1.
Proof.
  intros Ei Eg. unfold collect_recent_upload_hashes. rewrite Ei. destruct (rs_inventory s) as [w|]; [|done].
  destruct (iter_unmarked_candidates _ w) as [w' [rows|e]]; [|done]. cbn. by rewrite Eg.
Qed.
Lemma uploads_ok s now : registry_ok s → registry_ok (collect_recent_upload_hashes s now).2 ∧ rs_persistence (collect_recent_upload_hashes s now).2 = rs_persistence s.
Proof.
  intros []. unfold collect_recent_upload_hashes. destruct (rs_inventory s) as [w|]; [|done].
  destruct (iter_unmarked_candidates _ w) as [w' [rows|e]]; split; done || by split.
Qed.

(** The live set is exactly what the stored nodes of all rooms refer to, with the
    recent uploads, whatever is cached and however far hydrations have come. *)
Lemma collect_ok s now :
  registry_ok s →
  ∃ live s', collect_global_live_blob_hashes s now = (Some live, s') ∧ registry_ok s' ∧ rs_persistence s' = rs_persistence s ∧
    ∀ h, h ∈ live ↔ live_hash s now h.
Proof.
  intros Hok. unfold collect_global_live_blob_hashes. rewrite pc_enumerates. cbn [negb].
  destruct (pc_known _ (rg_quiet _ Hok)) as (known&->&Hknown). set (cold := filter _ known).
  destruct (cold_rooms_ok (rs_persistence s) (rs_caches s) ∅ cold (rg_persist _ Hok) (rg_quiet _ Hok) (rg_caches _ Hok)) as (out&c&->&Hc&Hout).
  set (s1 := set_persistence _ _).
  assert (registry_ok s1) as Hok1 by (destruct Hok; split; try done; by apply caches_ok_retain).
  destruct (uploads_ok s1 now Hok1) as [Hok2 Ep]. pose proof (uploads_reads s s1 now eq_refl eq_refl) as Eu.
  destruct (collect_recent_upload_hashes s1 now) as [ups s2]. cbn in Hok2, Ep, Eu.
  eexists _, s2. split; [done|]. split; [done|]. split; [by rewrite Ep|]. intros h. unfold live_hash. rewrite !elem_of_union, <-Eu.
  assert (∀ room n, n ∈ pc_nodes room (rs_persistence s) → references n h → h ∈ resident_live s ∨ h ∈ out) as Hin.
  { intros room n Hn Href. destruct (decide (room ∈ hydrated_ids s)) as [Hh|Hh].
    - left. unfold hydrated_ids in Hh. apply elem_of_dom in Hh as [r Hr]. apply map_lookup_filter_Some in Hr as [Hr Ehy]. cbn in Ehy.
      apply elem_of_union_list. exists (referenced_blob_hashes (rm_graph r)). split.
      { apply list_elem_of_fmap. exists (room, r). by rewrite elem_of_map_to_list. }
      pose proof (rg_rooms _ Hok _ _ Hr) as Hro. rewrite (graph_references _ _ _ _ _ Hro (st_sound _ _ (rg_store _ Hok room))).
      pose proof Hro as [[arr Hg] Hst Hhy _ Hsg]. rewrite Ehy in Hhy. symmetry in Hhy. apply bool_decide_eq_true in Hhy. rewrite Hhy in Hsg.
      destruct (Hsg n Hn) as [m Hm]. exists (node_id n), m. split; [done|].
      assert (m = n) as ->; [|done]. apply (same_id_same (pc_nodes room (rs_persistence s))); [apply (rg_store _ Hok room)|by eapply Hst|done|].
      by apply (ok_keyed _ _ Hg).
    - right. apply Hout. right. exists room. rewrite elem_of_referenced. split; [|eauto]. apply list_elem_of_filter. split; [done|].
      apply Hknown. intros E. rewrite E in Hn. by apply not_elem_of_nil in Hn. }
  split.
  - intros [[Hr|Ho]|?]; [left|left|by right].
    + apply elem_of_union_list in Hr as (X&HX&Hh). apply list_elem_of_fmap in HX as ([room r]&->&Hr). apply elem_of_map_to_list in Hr.
      pose proof (rg_rooms _ Hok _ _ Hr) as Hro. apply (graph_references _ _ _ _ _ Hro (st_sound _ _ (rg_store _ Hok room))) in Hh as (i&n&Hi&Href).
      exists room, n. split; [|done]. by eapply (ro_stored _ _ _ _ Hro).
    + apply Hout in Ho as [?%elem_of_empty|(room&_&Hh)]; [done|]. apply elem_of_referenced in Hh as (n&?&?). eauto.
  - intros [(room&n&Hn&Href)|?]; [left|by right]. by eapply Hin.
Qed.

(** ** Sweeping *)

Lemma set_persistence_ok s p' :
  registry_ok s → pc_ok p' → pc_quiet p' → pc_later (rs_persistence s) p' →
  (∀ room, pc_nodes room p' = pc_nodes room (rs_persistence s)) → registry_ok (set_persistence s p').
Proof.
  intros [Hp Hq Hst Hr Ht Hc] Hp' Hq' Hl En. split; cbn; try done.
  - intros room. eapply store_ok_same; [apply En|done].
  - intros room r Hrm. eapply room_ok_same; [apply En|by apply Hr].
  - by eapply caches_ok_later.
Qed.
Lemma physical_sweep_ok s live now grace names :
  registry_ok s → registry_ok (physical_sweep s live now grace names).1 ∧
  ∀ h, h ∈ live → byte_array 32 h →
    bp_has_blob P h (rs_persistence (physical_sweep s live now grace names).1) = bp_has_blob P h (rs_persistence s).
Proof.
  intros Hok. unfold physical_sweep.
  destruct (pc_sweep live now (Z.max grace MIN_PHYSICAL_GRACE) names _ (rg_persist _ Hok)) as (Hp&Hl&Hq&En&Hb).
  destruct (bp_blob_gc_sweep P _ _ _ _ _) as [p' d]. cbn in *. split; [|done]. apply set_persistence_ok; try done. apply Hq, Hok.
Qed.
Lemma sweep_blobs_ok s grace now now' names :
  registry_ok s → registry_ok (sweep_blobs s grace now now' names).1 ∧
  ∀ h, live_hash s now h → byte_array 32 h →
    bp_has_blob P h (rs_persistence (sweep_blobs s grace now now' names).1) = bp_has_blob P h (rs_persistence s).
Proof.
  intros Hok. unfold sweep_blobs. rewrite pc_durable. cbn [negb]. destruct (collect_ok s now Hok) as (live&s'&->&Hok'&Ep&Hlive).
  destruct (physical_sweep_ok s' live now' grace names Hok') as [? Hb]. split; [done|]. intros h Hh Ha. rewrite Hb; [by rewrite Ep|by apply Hlive|done].
Qed.

Lemma foldl_delete_lookup {A} (ids : list bytes) (m : gmap bytes A) k :
  foldl (λ m id, delete id m) m ids !! k = if decide (k ∈ ids) then None else m !! k.
Proof.
  revert m. induction ids as [|id ids IH]; intros m; cbn [foldl]; [by rewrite decide_False by apply not_elem_of_nil|].
  rewrite IH. destruct (decide (k ∈ ids)); [rewrite decide_True by (by right); done|]. rewrite delete_lookup_at.
  case_decide; [subst; by rewrite decide_True by (by left)|]. rewrite decide_False by (by intros [?|?]%elem_of_cons). done.
Qed.
Lemma sweep_idle_spec s timeout now :
  rs_rooms (sweep_idle s timeout now).1 = filter (λ kr, idle_candidate s timeout now kr.1 kr.2 = false) (rs_rooms s) ∧
  ∀ room, room ∈ (sweep_idle s timeout now).2 ↔ ∃ r, rs_rooms s !! room = Some r ∧ idle_candidate s timeout now room r = true.
Proof.
  unfold sweep_idle. rewrite pc_durable. cbn [negb fst snd set_rooms rs_rooms].
  assert (∀ room, room ∈ (filter (λ kr, idle_candidate s timeout now kr.1 kr.2 = true) (map_to_list (rs_rooms s))).*1 ↔
    ∃ r, rs_rooms s !! room = Some r ∧ idle_candidate s timeout now room r = true) as Hin.
  { intros room. rewrite list_elem_of_fmap. split.
    - intros ([k r]&->&[Hc Hk%elem_of_map_to_list]%list_elem_of_filter). eauto.
    - intros (r&Hk&Hc). exists (room, r). by rewrite list_elem_of_filter, elem_of_map_to_list. }
  split; [|exact Hin]. apply map_eq. intros room. rewrite foldl_delete_lookup.
  destruct (rs_rooms s !! room) as [r|] eqn:Hr; cycle 1.
  { case_decide; symmetry; apply map_lookup_filter_None; by left. }
  case_decide as Hd.
  - apply Hin in Hd as (r'&Hr'&Hc). rewrite Hr in Hr'. injection Hr' as <-. symmetry. apply map_lookup_filter_None. right.
    intros x Hx. rewrite Hr in Hx. injection Hx as <-. cbn. by rewrite Hc.
  - symmetry. apply map_lookup_filter_Some. split; [done|]. cbn. destruct (idle_candidate s timeout now room r) eqn:Hc; [|done].
    destruct Hd. apply Hin. eauto.
Qed.
Lemma candidate_alone s timeout now room r : idle_candidate s timeout now room r = true →
  rs_hydrations s !! room = None ∧ rm_ticking r = false ∧ (room ∉ rs_handles s) ∧ rm_connected_peers r = ∅ ∧
  ∃ since, rm_idle_since r = Some since ∧ timeout <= Z.max 0 (now - since).
Proof.
  unfold idle_candidate, strong_count. intros [Hc Hi]%andb_true_iff. apply Z.eqb_eq in Hc.
  assert (∀ b, 0 <= Z.b2z b) as Hb by (by intros []).
  pose proof (Hb (rm_ticking r)). pose proof (Hb (bool_decide (room ∈ rs_handles s))).
  pose proof (Hb (bool_decide (is_Some (rs_hydrations s !! room)))).
  assert (bool_decide (is_Some (rs_hydrations s !! room)) = false) as Eh%bool_decide_eq_false by (destruct (bool_decide (is_Some _)); [cbn in *; lia|done]).
  assert (rm_ticking r = false) as Et by (destruct (rm_ticking r); [cbn in *; lia|done]).
  assert (bool_decide (room ∈ rs_handles s) = false) as En%bool_decide_eq_false by (destruct (bool_decide (room ∈ _)); [cbn in *; lia|done]).
  destruct (rm_idle_since r) as [since|]; [|done].
  apply andb_true_iff in Hi as [Ht%Z.leb_le Hp%bool_decide_eq_true]. apply eq_None_not_Some in Eh. eauto 10.
Qed.
Lemma sweep_idle_ok s timeout now : registry_ok s → registry_ok (sweep_idle s timeout now).1.
Proof.
  intros Hok. destruct (sweep_idle_spec s timeout now) as [Er _].
  assert (rs_persistence (sweep_idle s timeout now).1 = rs_persistence s ∧ rs_hydrations (sweep_idle s timeout now).1 = rs_hydrations s ∧
    rs_caches (sweep_idle s timeout now).1 = rs_caches s) as (Ep&Eh&Ec) by (unfold sweep_idle; by destruct (negb _)).
  destruct Hok as [Hp Hq Hst Hr Ht Hc]. split; rewrite ?Ep, ?Eh, ?Ec, ?Er; try done.
  - intros room r [Hrm _]%map_lookup_filter_Some. by apply Hr.
  - intros room Hx. destruct (Ht room Hx) as [r Hrm]. exists r. apply map_lookup_filter_Some. split; [done|]. cbn.
    destruct (idle_candidate s timeout now room r) eqn:E; [|done]. apply candidate_alone in E as [E _]. rewrite E in Hx. by destruct Hx.
Qed.

(** ** Every state the server can reach *)

Inductive server_step : Rooms P W → Rooms P W → Prop :=
| ss_create s room now : server_step s (get_or_create s room now)
| ss_release s room : server_step s (release s room)
| ss_hydrate s room : server_step s (hydrate_step s room)
| ss_import s room ns now_ms : Forall sound ns → agree ns (pc_nodes room (rs_persistence s)) →
    server_step s (import_into s room ns now_ms)
| ss_tick s room sk prefix :
    (∀ r, rs_rooms s !! room = Some r → g_lamport (rm_graph r) < LAMPORT_SLACK ∧
       agree [local_node (rm_graph r) sk 0 (tick_op <$> default_tick_fn (tick_intents (rm_graph r) prefix))] (pc_nodes room (rs_persistence s))) →
    server_step s (tick_room s room sk prefix)
| ss_snapshot s room sk k d m :
    (∀ r base, rs_rooms s !! room = Some r → g_lamport (rm_graph r) < LAMPORT_SLACK ∧
       agree [snapshot_node (rm_graph r) sk base []] (pc_nodes room (rs_persistence s))) →
    server_step s (snapshot_room s room sk k d m).1
| ss_policy s room r pol : rs_rooms s !! room = Some r → rm_hydrated r = true → server_step s (set_policy_of s room pol)
| ss_join s room r pk : rs_rooms s !! room = Some r → server_step s (set_room s room (register_peer r pk).1)
| ss_leave s room r pk now : rs_rooms s !! room = Some r → server_step s (set_room s room (deregister_peer r pk now).1)
| ss_start s room r : rs_rooms s !! room = Some r → server_step s (set_room s room (start_tick r).1)
| ss_stop s room r : rs_rooms s !! room = Some r → server_step s (set_room s room (stop_tick r))
| ss_evict s timeout now : server_step s (sweep_idle s timeout now).1
| ss_sweep s grace now now' names : server_step s (sweep_blobs s grace now now' names).1
| ss_upload s p' : pc_ok p' → pc_quiet p' → pc_later (rs_persistence s) p' →
    (∀ room, pc_nodes room p' = pc_nodes room (rs_persistence s)) → server_step s (set_persistence s p').

(** A server started over a store an earlier one left behind. *)
Record booted s : Prop := {
  bt_rooms : rs_rooms s = ∅;
  bt_hydrations : rs_hydrations s = ∅;
  bt_caches : rs_caches s = scan_caches_default;
  bt_ok : pc_ok (rs_persistence s);
  bt_quiet : pc_quiet (rs_persistence s);
  bt_store : ∀ room, store_ok room (rs_persistence s);
}.
Definition server_reachable s : Prop := ∃ s0, booted s0 ∧ rtc server_step s0 s.

Lemma booted_ok s : booted s → registry_ok s.
Proof.
  intros [Er Eh Ec Hp Hq Hs]. split; [done|done|done|..].
  - intros room r. by rewrite Er.
  - intros room [x Hx]. by rewrite Eh in Hx.
  - intros room v hs. by rewrite Ec.
Qed.
Lemma register_peer_graph r pk : rm_graph (register_peer r pk).1 = rm_graph r ∧ rm_hydrated (register_peer r pk).1 = rm_hydrated r.
Proof. unfold register_peer, register_sessions, register_peers, register_idle. cbn. by destruct (_ =? 0). Qed.
Lemma deregister_peer_graph r pk now : rm_graph (deregister_peer r pk now).1 = rm_graph r ∧ rm_hydrated (deregister_peer r pk now).1 = rm_hydrated r.
Proof.
  unfold deregister_peer, deregister_sessions, deregister_peers. destruct (rm_peer_sessions r !! pk) as [n|]; [|done].
  destruct (n =? 1); [done|]. by destruct (1 <? n).
Qed.
Lemma server_step_ok s s' : server_step s s' → registry_ok s → registry_ok s'.
Proof.
  destruct 1 as [s room now|s room|s room|s room ns now_ms Hso Hag|s room sk prefix Hpre|s room sk k d m Hpre|s room r pol Hr Hh
    |s room r pk Hr|s room r pk now Hr|s room r Hr|s room r Hr|s timeout now|s grace now now' names|s p' Hp Hq Hl En]; intros Hok.
  - by apply get_or_create_ok.
  - by apply set_handles_ok.
  - by apply hydrate_step_ok.
  - by apply import_into_ok.
  - by apply tick_room_ok.
  - by apply snapshot_room_ok.
  - unfold set_policy_of. assert (alter (λ r, room_set_policy r pol) room (rs_rooms s) = <[room := room_set_policy r pol]> (rs_rooms s)) as ->.
    { apply map_eq. intros k. rewrite insert_lookup_at. case_decide as Hd; [subst; by rewrite lookup_alter_eq, Hr|by apply lookup_alter_ne]. }
    assert (is_Some (rs_rooms s !! room)) as Hi by (by eexists). destruct (rg_rooms _ Hok _ _ Hr) as [Hg Hst Hhy Hpo Hsg].
    apply (registry_wrote s room (room_set_policy r pol) (rs_persistence s) Hok Hi); try done; [apply Hok..|].
    split; cbn; try done; [by apply ok_policy|by rewrite Hh].
  - destruct (register_peer_graph r pk). by eapply registry_room_same.
  - destruct (deregister_peer_graph r pk now). by eapply registry_room_same.
  - eapply registry_room_same; [done|exact Hr|..]; unfold start_tick; by destruct (rm_ticking r).
  - by eapply registry_room_same.
  - by apply sweep_idle_ok.
  - by apply sweep_blobs_ok.
  - by apply set_persistence_ok.
Qed.
Lemma server_steps_ok s s' : rtc server_step s s' → registry_ok s → registry_ok s'.
Proof. induction 1 as [|s1 s2 s3 Hstep _ IH]; [done|]. intros Hok. apply IH. by eapply server_step_ok. Qed.
Lemma server_reachable_ok s : server_reachable s → registry_ok s.
Proof. intros (s0&Hb&Hr). eapply server_steps_ok; [exact Hr|by apply booted_ok]. Qed.
End registry.
