(* ===== verification/SessionThms.v ===== *)
(** What a client may change through its session (Session.v): an abstract relation of
    the changes that the capabilities of a session allow, and the refinement of it by
    every message; what follows for the control plane, the count of sessions and the
    packs that are relayed. *)

From S2P Require Import Prelude Str Utf8 StErr Hex Op Node Policy Frontier Storage Caches CacheFacts Fenwick.
From S2P Require Import TextState Text Graph Ibf Mst Replay Compaction Gc GcStore DirStore Persist TopoStore HostTypes TreeWalk HostState Host Room.
From S2P Require Import Query Token Profile Glob Registry Wire Topology Promotion Archive Session RegistryFacts.
From S2P Require Import Lww ListCrdt Conflicts GraphFacts GraphOps GraphBatch Replica Toy HostThms.

(** A state is framed by a change of it. *)
Ltac frames :=
  repeat match goal with
    | |- framed _ (mret _) => apply framed_ret; apply _
    | |- framed _ (throw _) => apply framed_throw; apply _
    | |- framed _ (read _) => apply framed_read; apply _
    | |- framed _ (_ ≫= _) => apply framed_bind; [apply _ | | intros ?]
    | |- framed _ (for_each _ _ _) => apply framed_for; [apply _ | intros ? ?]
    | |- framed _ (let _ := _ in _) => cbv zeta
    end.

(** ** Families of rooms *)

(** What an operation of topology keeps of a resident room: all but its graph and its
    lineage. *)
Definition same_control (r r' : Room) : Prop := r' = with_lineage (with_graph r (rm_graph r')) (rm_lineage r').
#[global] Instance same_control_preorder : PreOrder same_control.
Proof.
  split; [by intros []|]. intros r1 r2 r3 E2 E3. unfold same_control in *. rewrite E3, E2. by destruct r1.
Qed.

Section topology.
Context `{Blake3, Blake3Keyed, Postcard Transaction, Ed25519, Postcard (list WireNode), Postcard (list PolicyTimelineEntry), Postcard (list Hash)}.
Context `{Serde RoomLineage, Serde PromotionRecord, Json, JsonRead}.
Context {P : Type} `{NodePersistence P, BlobPersistence P} {W : Type}.
Implicit Types (s : Rooms P W) (room : bytes).

(** Resident rooms stay, with their control state, and a room that comes in is empty of
    peers; the store of nodes and blobs, and who holds a room, do not change. *)
Definition no_members (r : Room) : Prop := rm_connected_peers r = ∅ ∧ rm_peer_sessions r = ∅.
Definition rooms_kept (s s' : Rooms P W) : Prop :=
  rs_persistence s' = rs_persistence s ∧ rs_handles s' = rs_handles s ∧
  (∀ room r, rs_rooms s !! room = Some r → ∃ r', rs_rooms s' !! room = Some r' ∧ same_control r r') ∧
  (∀ room r', rs_rooms s !! room = None → rs_rooms s' !! room = Some r' → no_members r').
Lemma same_control_no_members r r' : same_control r r' → no_members r → no_members r'.
Proof. unfold same_control, no_members. intros -> ?. done. Qed.
#[global] Instance rooms_kept_preorder : PreOrder rooms_kept.
Proof.
  split; [intros s; split_and!; try done; [intros room r Hr; by exists r|congruence]|].
  intros s1 s2 s3 (Hp & Hh & Hk & Hn) (Hp' & Hh' & Hk' & Hn'). split_and!; [congruence..| |].
  - intros room r Hr. destruct (Hk _ _ Hr) as (r' & Hr' & Hc). destruct (Hk' _ _ Hr') as (r'' & Hr'' & Hc'). exists r''. split; [done|by etrans].
  - intros room r Hr1 Hr3. destruct (rs_rooms s2 !! room) as [r2|] eqn:E; [|by eapply Hn'].
    destruct (Hk' _ _ E) as (r3 & Hr3' & Hc). simplify_eq. eapply same_control_no_members; [done|by eapply Hn].
Qed.

Lemma kept_same_rooms s s' : rs_persistence s' = rs_persistence s → rs_handles s' = rs_handles s → rs_rooms s' = rs_rooms s → rooms_kept s s'.
Proof. intros Hp Hh Hr. split_and!; try done; rewrite Hr; [intros room r ?; by exists r|congruence]. Qed.
(** Writing a room over itself, or over one that is not there. *)
Lemma kept_set_room s room r' :
  same_control (room_of s room) r' ∨ rs_rooms s !! room = None ∧ no_members r' → rooms_kept s (set_room s room r').
Proof.
  intros Hc. split_and!; try done; cbn; intros room' r.
  - intros Hr. destruct (decide (room = room')) as [->|Hn]; [|exists r; by rewrite lookup_insert_ne].
    exists r'. rewrite lookup_insert_eq. split; [done|]. destruct Hc as [Hc|[? _]]; [|congruence]. unfold room_of in Hc. by rewrite Hr in Hc.
  - intros Hr. destruct (decide (room = room')) as [->|Hn]; [|rewrite lookup_insert_ne by done; congruence].
    rewrite lookup_insert_eq. intros [= <-]. destruct Hc as [Hc|[_ ?]]; [|done]. unfold room_of in Hc. rewrite Hr in Hc.
    eapply same_control_no_members; [exact Hc|done].
Qed.
Lemma kept_enter room now s : rooms_kept s (enter room now s).
Proof.
  unfold enter, get_or_create. cbn [rs_rooms set_handles]. destruct (rs_rooms s !! room) as [r|] eqn:E.
  - by apply kept_same_rooms.
  - etrans; [apply (kept_set_room s room (room_new now)); by right|]. by apply kept_same_rooms.
Qed.
Lemma kept_room_of s room r' : same_control (room_of s room) r' → rooms_kept s (set_room s room r').
Proof. intros Hc. apply kept_set_room. by left. Qed.
Lemma kept_lineage_store s l : rooms_kept s (set_lineage_store s l).
Proof. by apply kept_same_rooms. Qed.
Lemma kept_promotion_store s l : rooms_kept s (set_promotion_store s l).
Proof. by apply kept_same_rooms. Qed.
Lemma kept_children s m : rooms_kept s (set_children_index s m).
Proof. by apply kept_same_rooms. Qed.

(** The coarser view: who is connected. *)
Definition same_members (r r' : Room) : Prop := rm_connected_peers r' = rm_connected_peers r ∧ rm_peer_sessions r' = rm_peer_sessions r.
Definition members_kept (s s' : Rooms P W) : Prop :=
  rs_handles s' = rs_handles s ∧
  (∀ room r, rs_rooms s !! room = Some r → ∃ r', rs_rooms s' !! room = Some r' ∧ same_members r r') ∧
  (∀ room r', rs_rooms s !! room = None → rs_rooms s' !! room = Some r' → no_members r').
#[global] Instance members_kept_preorder : PreOrder members_kept.
Proof.
  split; [intros s; split_and!; try done; [intros room r Hr; by exists r|congruence]|].
  intros s1 s2 s3 (Hh & Hk & Hn) (Hh' & Hk' & Hn'). split_and!; [congruence| |].
  - intros room r Hr. destruct (Hk _ _ Hr) as (r' & Hr' & []). destruct (Hk' _ _ Hr') as (r'' & Hr'' & []).
    exists r''. split; [done|split; congruence].
  - intros room r Hr1 Hr3. destruct (rs_rooms s2 !! room) as [r2|] eqn:E; [|by eapply Hn'].
    destruct (Hk' _ _ E) as (r3 & Hr3' & []). simplify_eq. destruct (Hn _ _ Hr1 E). split; congruence.
Qed.
Lemma rooms_members s s' : rooms_kept s s' → members_kept s s'.
Proof.
  intros (_ & Hh & Hk & Hn). split_and!; [done| |done]. intros room r Hr. destruct (Hk _ _ Hr) as (r' & Hr' & Hc).
  exists r'. split; [done|]. unfold same_control in Hc. rewrite Hc. done.
Qed.
Lemma members_same_rooms s s' : rs_handles s' = rs_handles s → rs_rooms s' = rs_rooms s → members_kept s s'.
Proof. intros Hh Hr. split_and!; [done|rewrite Hr..]; [intros room r ?; by exists r|congruence]. Qed.
Lemma members_set_room s room r r' : rs_rooms s !! room = Some r → same_members r r' → members_kept s (set_room s room r').
Proof.
  intros Hr Hm. split_and!; [done|cbn..]; intros room' r0; destruct (decide (room = room')) as [->|Hn];
    rewrite ?lookup_insert_eq, ?lookup_insert_ne by done; intros H0'; try congruence.
  - simplify_eq. by exists r'.
  - by exists r0.
Qed.

Lemma kept_lineage_of room now s : rooms_kept s (lineage_of room now s).2.
Proof.
  unfold lineage_of. destruct (rm_lineage _); [apply kept_enter|]. destruct (get_lineage _ _) as [l ls].
  etrans; [apply (kept_enter room now)|]. etrans; [apply (kept_lineage_store _ ls)|].
  destruct l as [l|]; [|done]. apply kept_room_of. by destruct (room_of _ _).
Qed.
Lemma kept_child_ids parent s : rooms_kept s (child_ids parent s).2.
Proof.
  unfold child_ids. destruct (default [] _); [|done]. destruct (lineage_list_children _ _) as [from_store ls].
  etrans; [apply (kept_lineage_store _ ls)|]. destruct (first_only from_store); [done|apply kept_children].
Qed.
Lemma kept_summaries now ids acc : rooms_kept acc.2 (foldl (summarise now) acc ids).2.
Proof.
  revert acc. induction ids as [|id ids IH]; intros acc; [done|]. cbn [foldl]. etrans; [|apply IH].
  unfold summarise. pose proof (kept_lineage_of id now acc.2) as Hk. by destruct (lineage_of _ _ _).
Qed.

Lemma kept_enter_room {E} room now : framed rooms_kept (enter_room (E := E) room now).
Proof. intros s. apply kept_enter. Qed.
Lemma kept_lift {E A} (r : result E A) : framed rooms_kept (lift (P := P) (W := W) r).
Proof. intros s. unfold framed_at. reflexivity. Qed.
Lemma kept_stored id : framed rooms_kept (stored (P := P) (W := W) id).
Proof. intros s. unfold framed_at, stored. destruct (promotion_get _ _). apply kept_promotion_store. Qed.
Lemma kept_insert id x : framed rooms_kept (store_insert (P := P) (W := W) id x).
Proof. intros s. apply kept_promotion_store. Qed.
Lemma kept_update id x : framed rooms_kept (store_update (P := P) (W := W) id x).
Proof. intros s. apply kept_promotion_store. Qed.
Lemma kept_audit room sk k v : framed rooms_kept (commit_audit_node (P := P) (W := W) room sk k v).
Proof.
  intros s. unfold framed_at, commit_audit_node. destruct (apply_local _ _ _ _) as [g res].
  assert (rooms_kept s (set_room s room (with_graph (room_of s room) g))); [|by destruct res].
  apply kept_room_of. by destruct (room_of _ _).
Qed.

Ltac kept := frames; auto using kept_enter_room, kept_lift, kept_stored, kept_insert, kept_update, kept_audit.
Lemma kept_load_child child parent now : framed rooms_kept (load_child_lineage (P := P) (W := W) child parent now).
Proof.
  unfold load_child_lineage, deny. kept.
  - intros s. unfold framed_at. pose proof (kept_lineage_of child now s) as Hk. by destruct (lineage_of _ _ _).
  - repeat case_match; kept.
Qed.
Lemma kept_propose_new parent child h payload key now : framed rooms_kept (propose_new (P := P) (W := W) parent child h payload key now).
Proof. unfold propose_new, hash_of_room, deny. kept; [apply kept_load_child|]. repeat (case_match; kept). Qed.

(** A room that was entered is the room that is written. *)
Lemma kept_entered {E A} room now (k : Room → SE (Rooms P W) E A) :
  (∀ s, framed_at rooms_kept (k (room_of s room)) s) → framed rooms_kept (enter_room room now ≫= k).
Proof. intros Hk s. unfold framed_at. etrans; [apply (kept_enter room now)|]. apply Hk. Qed.
Lemma kept_create_child parent child cp purpose by' policy now :
  framed rooms_kept (create_child_room (P := P) (W := W) parent child cp purpose by' policy now).
Proof.
  unfold create_child_room, reject. kept. do 2 (case_match; kept). case_decide; [kept|].
  destruct (timelines_differ _ _); [kept|]. cbv zeta. apply kept_entered. intros s. destruct (rm_lineage _); [apply framed_throw; apply _|].
  apply framed_bind_at; [apply _|apply kept_room_of; by destruct (room_of _ _)|]. intros _. kept; intros s'.
  - apply kept_lineage_store.
  - apply kept_children.
Qed.

Lemma create_child_kept parent msg now : framed rooms_kept (process_topology_create_child (P := P) (W := W) parent msg now).
Proof. unfold process_topology_create_child, get_required, reject. kept; repeat (case_match; kept). apply kept_create_child. Qed.
Lemma describe_lineage_kept room : framed rooms_kept (describe_lineage (P := P) (W := W) room).
Proof. unfold describe_lineage, reject. kept. case_match; kept. Qed.
Lemma list_children_kept parent now : framed rooms_kept (list_children (P := P) (W := W) parent now).
Proof.
  intros s. unfold framed_at, list_children. destruct (rs_rooms s !! parent); [|reflexivity].
  pose proof (kept_child_ids parent s) as Hk. destruct (child_ids parent s) as [ids s1].
  pose proof (kept_summaries now ids ([], s1)) as Hk'. destruct (foldl _ _ ids) as [children s2]. by etrans.
Qed.
Lemma propose_kept msg now : framed rooms_kept (process_topology_propose_promotion (P := P) (W := W) msg now).
Proof. unfold process_topology_propose_promotion, deny. kept. repeat (case_match; kept); apply kept_propose_new. Qed.
Lemma validate_kept msg now : framed rooms_kept (process_topology_validate_promotion (P := P) (W := W) msg now).
Proof.
  unfold process_topology_validate_promotion, validate_check, validate_write, hash_of_room, deny. kept.
  - repeat (case_match; kept). apply kept_load_child.
  - case_match; kept.
Qed.
Lemma apply_kept sk msg now : framed rooms_kept (process_topology_apply_promotion (P := P) (W := W) sk msg now).
Proof.
  unfold process_topology_apply_promotion, apply_check, apply_commit, hash_of_room, deny. kept.
  - repeat (case_match; kept).
  - case_match; kept.
Qed.
End topology.

(** ** Archives *)

Section archives.
Context `{Blake3, Postcard Transaction, Ed25519, Postcard (list WireNode), Postcard (list PolicyTimelineEntry), Postcard (list Hash)}.
Context `{ManifestJson} {P : Type} `{NodePersistence P, BlobPersistence P} (backend : bytes).
Abbreviation World := (Room * P * ArchiveIo)%type.

(** Reading an archive leaves the room and the files; any operation leaves all of the
    room but its graph and its blobs. *)
Definition world_read (w w' : World) : Prop := w'.1.1 = w.1.1 ∧ io_files w'.2 = io_files w.2.
Definition world_written (w w' : World) : Prop :=
  w'.1.1 = with_room_blobs (with_graph w.1.1 (rm_graph w'.1.1)) (rm_blobs w'.1.1).
#[global] Instance world_read_preorder : PreOrder world_read.
Proof. split; [done|]. intros w1 w2 w3 [? ?] [? ?]. split; congruence. Qed.
#[global] Instance world_written_preorder : PreOrder world_written.
Proof.
  unfold world_written. split; [intros w; by destruct (w.1.1)|]. intros w1 w2 w3 E2 E3. rewrite E3, E2. cbn. reflexivity.
Qed.
Lemma world_read_written w w' : world_read w w' → world_written w w'.
Proof. unfold world_read, world_written. intros [-> _]. by destruct (w.1.1). Qed.

Lemma load_manifest_read path room archive_ref : framed world_read (load_manifest (P := P) path room archive_ref).
Proof.
  intros w. unfold framed_at, load_manifest, load_external_manifest_source_room, cache_external_manifest_metadata. cbv zeta.
  destruct (load_cached_external_manifest_metadata _ _ _); [done|]. destruct (io_files w.2 !! path ≫= mf_text); [|done].
  destruct (manifest_parse _) as [m|]; [|done]. destruct (check_manifest m) as [|[]]; [|done].
  by destruct (manifest_file_revision _ _).
Qed.
Lemma load_nodes_read room : framed world_read (load_nodes (P := P) room).
Proof. intros w. unfold framed_at, load_nodes. by destruct (np_load_room_nodes _ _ _). Qed.
Lemma load_blobs_read room archive_ref nodes : framed world_read (load_blobs_of (P := P) backend room archive_ref nodes).
Proof. intros w. unfold framed_at, load_blobs_of. by destruct (resolve_referenced_blobs _ _ _). Qed.
Lemma load_archive_read room archive_ref digests need :
  framed world_read (load_archive_from_ref (P := P) backend room archive_ref digests need).
Proof.
  unfold load_archive_from_ref, source_of, refuse. frames.
  - repeat (case_match; frames); auto using load_manifest_read.
  - apply load_nodes_read.
  - repeat (case_match; frames); auto using load_blobs_read.
Qed.
Lemma timeline_check_read room archive_ref loaded : framed world_read (timeline_check (P := P) room archive_ref loaded).
Proof. unfold timeline_check, refuse. repeat (case_match; frames). Qed.
Lemma describe_read room msg : framed world_read (process_archive_describe (P := P) backend room msg).
Proof. unfold process_archive_describe. repeat (case_match; frames). apply load_archive_read. Qed.
Lemma validate_read room archive_ref mode : framed world_read (validate_loaded (P := P) backend room archive_ref mode).
Proof.
  unfold validate_loaded, refuse. case_match; frames; [apply load_archive_read|apply timeline_check_read|].
  case_match; frames.
Qed.

Lemma import_written room archive_ref mode expected now :
  framed world_written (import_loaded (P := P) backend room archive_ref mode expected now).
Proof.
  unfold import_loaded, refuse. case_match; frames.
  - eapply framed_mono; [apply world_read_written|apply load_archive_read].
  - eapply framed_mono; [apply world_read_written|apply timeline_check_read].
  - intros w. unfold framed_at, import_into_room, room_import_nodes.
    destruct (room_import_loop _ _ _ _ _ _) as [[[g pending] accepted] errors]. unfold world_written. cbn. by destruct (w.1.1).
  - repeat (case_match; frames); intros w; unfold framed_at, persist_archive_blob;
      destruct (bp_persist_blob _ _ _ _) as [p [ ]]; unfold world_written; cbn; by destruct (w.1.1).
Qed.
Lemma export_written room source archive_ref sk outcome :
  framed world_written (export_room (P := P) backend room source archive_ref sk outcome).
Proof.
  unfold export_room, refuse. frames.
  - intros w. unfold framed_at. destruct (build_external_manifest_document _ _ _ _ _) as [[] p]; unfold world_written; cbn; by destruct (w.1.1).
  - intros w. unfold framed_at, write_manifest, write_object_manifest, write_file_manifest.
    repeat case_match; simplify_eq; unfold world_written; cbn; by destruct (w.1.1).
  - case_match; frames.
Qed.
End archives.

(** ** What a session may change *)

Section authority.
Context `{Blake3, Blake3Keyed, Postcard Transaction, Ed25519, Postcard (list WireNode), Postcard (list PolicyTimelineEntry), Postcard (list Hash)}.
Context `{Serde RoomLineage, Serde PromotionRecord, Json, JsonRead, EnvelopeJson, ManifestJson, ResponseJson}.
Context {P : Type} `{NodePersistence P, BlobPersistence P, UrlPersistence P} {W L : Type} `{RateLimiting L}.
Context (backend : bytes) (build_limits : BuildLimits) (server_key : SigningKey) (si : SessionInfo).
Implicit Types (c : Conn P W L).
Abbreviation room_id := (si_room_id si).

Definition allowed (capability : string) : Prop := is_control_plane_allowed (si_is_server_peer si) (si_caps si) (bs capability) = true.
(** The room of the session, and its replacement together with the store. *)
Definition its_room c : Room := room_of (cn_rooms c) room_id.
Definition its_store c : P := rs_persistence (cn_rooms c).
Definition room_to c (r : Room) : Conn P W L := put_rooms c (set_room (cn_rooms c) room_id r).
Definition store_to c (p : P) : Conn P W L := put_rooms c (set_persistence (cn_rooms c) p).
Definition world_of c : Room * P * ArchiveIo := (its_room c, its_store c, cn_io c).
Definition world_to c (w : Room * P * ArchiveIo) : Conn P W L := put_io (store_to (room_to c w.1.1) w.1.2) w.2.

(** One change.  Anyone may send, subscribe, import nodes through the checks of the
    graph, store blobs under their hash, read blobs, and compact the room; the rest
    takes a capability. *)
Inductive change : Conn P W L → Conn P W L → Prop :=
| change_out c o : change c (put_out c o).1
| change_bcast c text : change c (put_bcast c text)
| change_sub c sub : change c (put_sub c sub)
| change_limiters c n b : change c (put_limiters c n b)
| change_import c ns now_ms r p res :
    room_import_nodes (its_room c) room_id (its_store c) ns now_ms = (r, p, res) → change c (store_to (room_to c r) p)
| change_blob_refused c data p e : bp_persist_blob P (hash_of data) data (its_store c) = (p, Err e) → change c (store_to c p)
| change_blob c data p :
    bp_persist_blob P (hash_of data) data (its_store c) = (p, Ok tt) →
    change c (room_to (store_to c p) (with_room_blobs (its_room c) (blob_put (rm_blobs (its_room c)) data).1))
| change_read_blob c h : change c (store_to c (bp_get_blob P h (its_store c)).2)
| change_compact c snap g :
    compact (rm_graph (its_room c)) server_key = Ok snap → rebuild_from_snapshot snap [] = Ok g →
    change c (room_to c (with_graph (its_room c) g))
| change_key c vk :
    allowed "room.admin" → rm_auth_key (its_room c) = None → change c (room_to c (with_auth_key (its_room c) (Some vk)))
| change_policy c pol : allowed "policy.admin" → change c (room_to c (room_set_policy (its_room c) pol))
| change_tick c b : allowed "tick.admin" → change c (room_to c (with_ticking (its_room c) b))
| change_queries c specs projections :
    allowed "query.admin" → change c (room_to c (with_projections (with_specs (its_room c) specs) projections))
| change_archive_read c w : allowed "archive.read" ∨ allowed "archive.admin" → world_read (world_of c) w → change c (world_to c w)
| change_archive c w : allowed "archive.admin" → world_written (world_of c) w → change c (world_to c w)
| change_topology c s : allowed "topology.admin" → rooms_kept (cn_rooms c) s → change c (put_rooms c s).

Abbreviation changes := (rtc change).
Abbreviation CM := (SE (Conn P W L) bool).

(** *** Sends *)

Lemma changes_one c c' : change c c' → changes c c'.
Proof. apply rtc_once. Qed.
Lemma sends_close spec : framed changes (emit_close_frame spec : CM unit).
Proof. intros c. apply changes_one, change_out. Qed.
Lemma sends_ws text : framed changes (ws_send text : CM bool).
Proof.
  intros c. unfold framed_at, ws_send. pose proof (change_out c (OutText text)) as Hc.
  destruct (put_out c (OutText text)) as [c' []]; cbn in *; try by apply changes_one.
  eapply rtc_l; [exact Hc|]. apply changes_one, change_out.
Qed.
Lemma sends_sink text : framed changes (sink_send text : CM unit).
Proof. intros c. apply changes_one, change_out. Qed.
Lemma sends_error msg : framed changes (send_error msg : CM unit).
Proof. apply sends_sink. Qed.
Lemma sends_reply_text text : framed changes (reply_text text : CM unit).
Proof. unfold reply_text. frames; [apply sends_ws|]. case_match; frames. Qed.
Lemma sends_reply e : framed changes (reply e : CM unit).
Proof. apply sends_reply_text. Qed.
Lemma sends_broadcast e : framed changes (broadcast e : CM unit).
Proof. intros c. apply changes_one, change_bcast. Qed.
Lemma sends_refusal {A} msg : framed changes (refuse_open msg : CM A).
Proof. unfold refuse_open. frames. apply sends_error. Qed.
Lemma sends_archive r : framed changes (emit_archive_response r : CM unit).
Proof. unfold emit_archive_response. case_match; [apply sends_reply_text|apply sends_error]. Qed.
Lemma sends_topology r : framed changes (emit_topology_response r : CM unit).
Proof. unfold emit_topology_response. case_match; [apply sends_reply_text|apply sends_error]. Qed.
Create HintDb sends.
#[local] Hint Resolve sends_close sends_ws sends_sink sends_error sends_reply_text sends_reply sends_broadcast sends_refusal
  sends_archive sends_topology : sends.
Ltac sends := frames; auto with sends.

(** *** Guards *)

(** What follows a guard has the capability that it asks for. *)
Lemma required_then {A} command capability (k : unit → CM A) :
  (allowed capability → framed changes (k tt)) → framed changes (require_capability si command capability ≫= k).
Proof.
  intros Hk. unfold require_capability. destruct (is_control_plane_allowed _ _ _) eqn:E; [intros c; by apply Hk|].
  intros c. apply (sends_refusal (A := unit)).
Qed.
Lemma authorized_then {A} command capability (k : unit → CM A) :
  required_capability_for_control_plane_command (bs command) = Some (bs capability) →
  (allowed capability → framed changes (k tt)) → framed changes (authorize si command ≫= k).
Proof.
  intros Hreq Hk. unfold authorize, evaluate_control_plane_authorization. rewrite Hreq.
  destruct (is_control_plane_allowed _ _ _) eqn:E; [intros c; by apply Hk|]. intros c. apply (sends_refusal (A := unit)).
Qed.

(** What follows a read of the room. *)
Lemma the_room_then {A} (k : Room → CM A) : (∀ c, framed_at changes (k (its_room c)) c) → framed changes (the_room si ≫= k).
Proof. done. Qed.
Lemma the_store_then {A} (k : P → CM A) : (∀ c, framed_at changes (k (its_store c)) c) → framed changes (the_store ≫= k).
Proof. done. Qed.
Lemma the_room_read : framed changes (the_room si : CM Room).
Proof. apply framed_read; apply _. Qed.
Lemma the_store_read : framed changes (the_store : CM P).
Proof. apply framed_read; apply _. Qed.
#[local] Hint Resolve the_room_read the_store_read : sends.
(** What follows a write of the room. *)
Lemma put_room_then {A} (r : Room) (k : unit → CM A) c :
  changes c (room_to c r) → framed changes (k tt) → framed_at changes (put_room si r ≫= k) c.
Proof. intros Hr Hk. apply framed_bind_at; [apply _|exact Hr|by intros []]. Qed.

(** *** Commands *)

Lemma subscribe_changes msg : framed changes (on_subscribe msg : CM unit).
Proof. unfold on_subscribe. sends. intros c. apply changes_one, change_sub. Qed.
Lemma rate_changes lim n : framed changes (check_peer_rate lim n : CM L).
Proof. unfold check_peer_rate. destruct (check_n lim n) as [l []]; sends. Qed.
Lemma charge_nodes_changes n : framed changes (charge_nodes n : CM unit).
Proof.
  unfold charge_nodes. sends. case_match; sends. case_match; sends; [apply rate_changes|].
  intros c. apply changes_one, change_limiters.
Qed.
Lemma charge_bytes_changes n : framed changes (charge_bytes n : CM unit).
Proof.
  unfold charge_bytes. sends. case_match; sends. case_match; sends; [apply rate_changes|].
  intros c. apply changes_one, change_limiters.
Qed.
Lemma import_changes nodes now_ms : framed changes (Session.import_pack si nodes now_ms : CM _).
Proof.
  unfold Session.import_pack. apply the_room_then. intros c. apply framed_read_at.
  change (rs_persistence (cn_rooms c)) with (its_store c).
  destruct (room_import_nodes _ _ _ _ _) as [[r p] res] eqn:E. apply changes_one. by eapply change_import.
Qed.
Lemma pack_changes env msg : framed changes (on_pack si env msg : CM unit).
Proof.
  unfold on_pack. do 2 (case_match; sends); auto using charge_nodes_changes, charge_bytes_changes, import_changes.
  - case_match; sends.
  - case_match; sends.
Qed.
Lemma mst_request_changes msg : framed changes (on_mst_request si msg : CM unit).
Proof. unfold on_mst_request. sends. Qed.
Lemma mst_done_changes msg : framed changes (on_mst_done si msg : CM unit).
Proof. unfold on_mst_done. case_match; sends. Qed.
Lemma request_changes msg : framed changes (on_request si msg : CM unit).
Proof. unfold on_request. sends. Qed.

Lemma store_entry_changes stored entry : framed changes (store_entry si stored entry : CM _).
Proof.
  unfold store_entry. cbv zeta. case_match; sends. case_match; sends. case_bool_decide as Eh; [|sends].
  apply the_store_then. intros c. destruct (bp_persist_blob _ _ _ _) as [p [[]|e]] eqn:E.
  - apply changes_one. exact (change_blob c _ p E).
  - apply changes_one. exact (change_blob_refused c _ p e E).
Qed.
Lemma blob_upload_changes msg : framed changes (on_blob_upload si msg : CM unit).
Proof. unfold on_blob_upload. case_match; sends; [apply store_entry_changes|]. case_match; sends. Qed.
Lemma blob_entry_changes acc h : framed changes (blob_entry si acc h : CM _).
Proof.
  unfold blob_entry. case_match; [|sends]. sends. case_match; [sends|]. apply the_store_then. intros c.
  pose proof (change_read_blob c l) as Hc. destruct (bp_get_blob P l (its_store c)) as [data p]. by apply changes_one.
Qed.
Lemma blob_request_changes msg : framed changes (on_blob_request si msg : CM unit).
Proof.
  unfold on_blob_request. sends. case_match; sends; [|apply blob_entry_changes]. case_match; sends.
Qed.
Lemma direct_hash_changes ty h : framed changes (direct_hash si ty h : CM Hash).
Proof. unfold direct_hash. repeat (case_match; sends). Qed.
Lemma request_upload_changes msg : framed changes (on_request_upload si msg : CM unit).
Proof. unfold on_request_upload. sends. apply direct_hash_changes. Qed.
Lemma blob_uploaded_changes msg : framed changes (on_blob_uploaded si msg : CM unit).
Proof. unfold on_blob_uploaded. sends; [apply direct_hash_changes|]. case_match; sends. Qed.
Lemma presence_changes msg : framed changes (on_presence si msg : CM unit).
Proof. unfold on_presence. case_match; sends. Qed.

Lemma set_room_key_changes msg : framed changes (on_set_room_key si msg : CM unit).
Proof.
  unfold on_set_room_key. apply required_then. intros Ha. cbv zeta. case_match; [|sends]. case_match; [|sends].
  apply the_room_then. intros c. unfold classify_set_room_key_lock_state.
  destruct (bool_decide (rm_auth_key _ = None)) eqn:Ek; [apply bool_decide_eq_true in Ek|apply sends_sink].
  apply put_room_then; [|sends]. apply changes_one. by apply change_key.
Qed.
Lemma set_policy_changes msg : framed changes (on_set_policy si msg : CM unit).
Proof.
  unfold on_set_policy. apply required_then. intros Ha. case_match; [|sends]. apply the_room_then. intros c.
  apply put_room_then; [|sends]. apply changes_one. by apply change_policy.
Qed.
Lemma start_tick_changes msg : framed changes (on_start_tick si msg : CM unit).
Proof.
  unfold on_start_tick. apply required_then. intros Ha. apply the_room_then. intros c. unfold start_tick.
  assert (∀ r started, r = with_ticking (its_room c) true →
    framed_at changes (_ ← put_room si r; reply (assemble_tick_start_envelope started (extract_start_tick_interval_ms msg))) c) as Hk.
  { intros r started ->. apply put_room_then; [|sends]. apply changes_one. by apply change_tick. }
  destruct (rm_ticking _) eqn:E; apply Hk; [|done]. destruct (its_room c). cbn in *. by rewrite E.
Qed.
Lemma stop_tick_changes : framed changes (on_stop_tick si : CM unit).
Proof.
  unfold on_stop_tick. apply required_then. intros Ha. apply the_room_then. intros c.
  apply put_room_then; [|sends]. apply changes_one. by apply change_tick.
Qed.
Lemma compact_changes : framed changes (on_compact_room server_key si : CM unit).
Proof.
  unfold on_compact_room. apply the_room_then. intros c. destruct (compact _ _) as [snap|] eqn:E; [|apply sends_refusal].
  destruct (verify_snapshot snap); [|apply sends_refusal].
  destruct (rebuild_from_snapshot snap []) as [g|] eqn:E'; [|apply sends_refusal].
  apply put_room_then; [|sends]. apply changes_one. by eapply change_compact.
Qed.

(** A guarded operation of the archives. *)
Lemma put_world_then {A} (w : Room * P * ArchiveIo) (k : unit → CM A) c :
  changes c (world_to c w) → framed changes (k tt) → framed_at changes (put_archive_world si w ≫= k) c.
Proof. intros Hw Hk. apply framed_bind_at; [apply _|exact Hw|by intros []]. Qed.
Lemma archive_world_then {A} (k : Room * P * ArchiveIo → CM A) :
  (∀ c, framed_at changes (k (world_of c)) c) → framed changes (archive_world si ≫= k).
Proof. done. Qed.
Lemma archive_changes command process :
  required_capability_for_control_plane_command (bs command) = Some (bs "archive.admin") →
  (∀ w, world_written w (process w).1) → framed changes (on_archive si command process : CM unit).
Proof.
  intros Hreq Hw. unfold on_archive. eapply authorized_then; [exact Hreq|]. intros Ha. apply archive_world_then. intros c.
  specialize (Hw (world_of c)). destruct (process (world_of c)) as [w response].
  apply put_world_then; [|sends]. apply changes_one. by apply change_archive.
Qed.
Lemma archive_describe_changes msg : framed changes (on_archive_describe backend si msg : CM unit).
Proof.
  unfold on_archive_describe. eapply (authorized_then _ "archive.read"); [reflexivity|]. intros Ha. apply archive_world_then. intros c.
  pose proof (describe_read (P := P) backend room_id msg (world_of c)) as Hr. unfold framed_at in Hr.
  destruct (process_archive_describe backend room_id msg (world_of c)) as [w res].
  apply put_world_then; [|case_match; sends]. apply changes_one. apply change_archive_read; [by left|done].
Qed.

(** A guarded operation of the query plane. *)
Lemma query_changes command process :
  required_capability_for_control_plane_command (bs command) = Some (bs "query.admin") →
  (∀ r, ∃ specs projections, (process r).1 = with_projections (with_specs r specs) projections) →
  framed changes (on_query si command process : CM unit).
Proof.
  intros Hreq Hp. unfold on_query. eapply authorized_then; [exact Hreq|]. intros Ha. apply the_room_then. intros c.
  destruct (Hp (its_room c)) as (specs & projections & Hr). destruct (process (its_room c)) as [r response]. cbn in Hr. subst r.
  apply put_room_then; [|apply sends_reply_text]. apply changes_one. by apply change_queries.
Qed.
Lemma read_changes command process : framed changes (on_read si command process : CM unit).
Proof.
  unfold on_read, authorize. sends; [case_match; sends|]. apply sends_reply_text.
Qed.
Lemma topology_changes {E A} command (op : SE (Rooms P W) E A) completed refusal :
  required_capability_for_control_plane_command (bs command) = Some (bs "topology.admin") →
  framed rooms_kept op → framed changes (on_topology si command op completed refusal : CM unit).
Proof.
  intros Hreq Hop. unfold on_topology. eapply authorized_then; [exact Hreq|]. intros Ha. sends; [|case_match; sends].
  intros c. specialize (Hop (cn_rooms c)). unfold framed_at in *. destruct (op (cn_rooms c)) as [s res].
  apply changes_one. by apply change_topology.
Qed.
Lemma queued_kept {A} env (op : SE (Rooms P W) PromotionRejected A) : framed rooms_kept op → framed rooms_kept (queued_op env op).
Proof. intros Hop. unfold queued_op. case_match; [frames|done]. Qed.

Lemma process_validate_written room msg w : world_written w (process_archive_validate (P := P) backend room msg w).1.
Proof.
  unfold process_archive_validate. destruct (parse_archive_validate_request room msg) as [[| | |]|]; try reflexivity.
  pose proof (validate_read (P := P) backend room archive_ref mode w) as Hr. unfold framed_at in Hr.
  destruct (validate_loaded _ _ _ _ w). by apply world_read_written.
Qed.
Lemma process_import_written room msg now w : world_written w (process_archive_import (P := P) backend room msg now w).1.
Proof.
  unfold process_archive_import. destruct (parse_archive_import_request room msg) as [[| | |]|]; try reflexivity.
  pose proof (import_written (P := P) backend room archive_ref import_mode expected_checkpoint now w) as Hr. unfold framed_at in Hr.
  by destruct (import_loaded _ _ _ _ _ _ w).
Qed.
Lemma process_export_written room msg sk outcome w : world_written w (process_archive_export (P := P) backend room msg sk outcome w).1.
Proof.
  unfold process_archive_export. destruct (parse_archive_export_request room msg) as [[| | |]|]; try reflexivity.
  pose proof (export_written (P := P) backend room source_room archive_ref sk outcome w) as Hr. unfold framed_at in Hr.
  by destruct (export_room _ _ _ _ _ _ w).
Qed.

(** The rooms that the operations of the query plane leave. *)
Definition requeried (r r' : Room) : Prop := ∃ specs projections, r' = with_projections (with_specs r specs) projections.
Lemma requeried_same r : requeried r r.
Proof. exists (rm_query_specs r), (rm_projections r). by destruct r. Qed.
Lemma requeried_spec r specs : requeried r (with_specs r specs).
Proof. exists specs, (rm_projections r). by destruct r. Qed.
Lemma requeried_projection r projections : requeried r (with_projections r projections).
Proof. exists (rm_query_specs r), projections. by destruct r. Qed.
Lemma register_requeried r msg : requeried r (process_query_register r msg).1.
Proof. unfold process_query_register. case_match; [apply requeried_same|apply requeried_spec]. Qed.
Lemma build_requeried r msg : requeried r (process_projection_build r msg build_limits).1.
Proof. unfold process_projection_build. repeat case_match; apply requeried_same || apply requeried_projection. Qed.
Lemma projection_build_requeried env msg r : requeried r (projection_build build_limits env msg r).1.
Proof. unfold projection_build. repeat case_match; apply requeried_same || apply build_requeried. Qed.
Lemma invalidate_requeried r msg : requeried r (process_projection_invalidate r msg).1.
Proof. unfold process_projection_invalidate. repeat case_match; apply requeried_same || apply requeried_projection. Qed.

Lemma handle_command_changes env command msg : framed changes (handle_command backend build_limits server_key si env command msg : CM unit).
Proof.
  destruct command; cbn [handle_command].
  all: auto using subscribe_changes, pack_changes, mst_request_changes, mst_done_changes, request_changes, blob_upload_changes,
         blob_request_changes, request_upload_changes, blob_uploaded_changes, presence_changes, set_room_key_changes,
         set_policy_changes, start_tick_changes, stop_tick_changes, compact_changes, archive_describe_changes, read_changes.
  all: try solve [unfold on_server_info, on_relay; sends].
  all: try solve [apply archive_changes; [reflexivity|intros w]; auto using process_validate_written, process_import_written, process_export_written].
  all: try solve [apply query_changes; [reflexivity|intros r]; apply register_requeried || apply projection_build_requeried || apply invalidate_requeried].
  all: try solve [apply topology_changes; [reflexivity|];
    auto using queued_kept, create_child_kept, describe_lineage_kept, list_children_kept, propose_kept, validate_kept, apply_kept].
Qed.
(** A message runs a framed handler. *)
Lemma message_run env text c : ∃ m : CM unit,
  framed changes m ∧
  handle_client_message backend build_limits server_key si env text c = ((m c).1, match (m c).2 with Ok _ => true | Err b => b end).
Proof.
  unfold handle_client_message. destruct (build_client_dispatch_context text) as [ctx|plan].
  - exists (handle_command backend build_limits server_key si env (dc_command ctx) (dc_message ctx)).
    split; [apply handle_command_changes|]. by destruct (handle_command _ _ _ _ _ _ _ c).
  - exists (_ ← send_error (error_message plan); throw (keep_connection_open plan)). split; [sends|]. by destruct ((send_error _ ≫= _) c).
Qed.

(** C9: every message of a client, whatever its text and whichever sends fail, changes
    the server by a sequence of the changes that its session has the authority for
    ([change]): without a capability it can send and broadcast, set its own subscription
    and limiters, import nodes through the checks of the graph, store blobs under
    their own hash and compact the room; the room key (once), the write policy, the
    tick, the query plane, archives and room families each change only for a session
    that has the capability of that plane or names the key of the server. *)
Theorem messages_within_authority env text c : changes c (handle_client_message backend build_limits server_key si env text c).1.
Proof. destruct (message_run env text c) as (m & Hm & ->). apply Hm. Qed.

(** A message that names a guarded command is refused, and nothing else. *)
Definition refusal_of (command required : bytes) : bytes :=
  envelope_json (assemble_error_envelope (bs "reject.control_plane_forbidden: command=" ++ command ++ bs " requires=" ++ required)).
Lemma require_refuses {A} command capability (k : unit → CM A) c :
  ¬ allowed capability →
  (require_capability si command capability ≫= k) c = ((put_out c (OutText (refusal_of (bs command) (bs capability)))).1, Err true).
Proof. unfold allowed, require_capability. by destruct (is_control_plane_allowed _ _ _). Qed.
Lemma authorize_refuses {A} command capability (k : unit → CM A) c :
  required_capability_for_control_plane_command (bs command) = Some (bs capability) → ¬ allowed capability →
  (authorize si command ≫= k) c = ((put_out c (OutText (refusal_of (bs command) (bs capability)))).1, Err true).
Proof.
  intros Hreq Ha. unfold authorize, evaluate_control_plane_authorization. rewrite Hreq. unfold allowed in Ha.
  by destruct (is_control_plane_allowed _ _ _).
Qed.
Definition guarded_names : list (string * string) := capability_names ≫= λ cs, (λ name, (name, cs.1)) <$> cs.2.
Lemma guarded_name command required :
  required_capability_for_control_plane_command command = Some required →
  ∃ nc, nc ∈ guarded_names ∧ command = bs nc.1 ∧ required = bs nc.2 ∧
    required_capability_for_control_plane_command (bs nc.1) = Some (bs nc.2).
Proof.
  intros Hreq. pose proof Hreq as Hf. unfold required_capability_for_control_plane_command in Hf.
  apply fmap_Some in Hf as ([i cs] & Hf & ->). apply list_find_Some in Hf as (Hi & Hin & _).
  apply list_elem_of_fmap in Hin as (name & -> & Hname). exists (name, cs.1). split_and!; try done.
  apply list_elem_of_bind. exists cs. split; [|by eapply list_elem_of_lookup_2]. apply list_elem_of_fmap. by exists name.
Qed.
Lemma command_refused env nc msg c :
  nc ∈ guarded_names → required_capability_for_control_plane_command (bs nc.1) = Some (bs nc.2) → ¬ allowed nc.2 →
  (handle_command backend build_limits server_key si env (route_client_dispatch_command (bs nc.1)) msg c : _ * result bool unit) =
  ((put_out c (OutText (refusal_of (bs nc.1) (bs nc.2)))).1, Err true).
Proof.
  intros Hin Hreq Ha. revert Hin. unfold guarded_names. cbn.
  repeat (rewrite elem_of_cons; intros [->|Hin]; [|revert Hin]); [..|by rewrite elem_of_nil].
  all: first [exact (require_refuses _ _ _ c Ha) | exact (authorize_refuses _ _ _ c Hreq Ha)].
Qed.
(** *** What a missing capability protects *)

Definition room_guarded (r r' : Room) : Prop :=
  (¬ allowed "policy.admin" → rm_policy_timeline r' = rm_policy_timeline r) ∧
  (¬ allowed "room.admin" → rm_auth_key r' = rm_auth_key r) ∧
  (∀ vk, rm_auth_key r = Some vk → rm_auth_key r' = Some vk) ∧
  (¬ allowed "tick.admin" → rm_ticking r' = rm_ticking r) ∧
  (¬ allowed "query.admin" → rm_query_specs r' = rm_query_specs r ∧ rm_projections r' = rm_projections r) ∧
  (¬ allowed "topology.admin" → rm_lineage r' = rm_lineage r) ∧
  rm_connected_peers r' = rm_connected_peers r ∧ rm_peer_sessions r' = rm_peer_sessions r ∧
  rm_idle_since r' = rm_idle_since r ∧ rm_hydrated r' = rm_hydrated r.
#[local] Instance room_guarded_preorder : PreOrder room_guarded.
Proof.
  split; [intros r; unfold room_guarded; naive_solver|]. intros r1 r2 r3 G12 G23. unfold room_guarded in *.
  destruct_and!. split_and!; intros; try congruence; try naive_solver congruence.
Qed.

Definition guarded c c' : Prop :=
  ∀ r, rs_rooms (cn_rooms c) !! room_id = Some r →
    (∃ r', rs_rooms (cn_rooms c') !! room_id = Some r' ∧ room_guarded r r') ∧
    (¬ allowed "topology.admin" →
       (∀ room, room ≠ room_id → rs_rooms (cn_rooms c') !! room = rs_rooms (cn_rooms c) !! room) ∧
       rs_lineage_store (cn_rooms c') = rs_lineage_store (cn_rooms c) ∧
       rs_promotion_store (cn_rooms c') = rs_promotion_store (cn_rooms c) ∧
       rs_children_index (cn_rooms c') = rs_children_index (cn_rooms c)) ∧
    (¬ allowed "archive.admin" → io_files (cn_io c') = io_files (cn_io c)) ∧
    rs_handles (cn_rooms c') = rs_handles (cn_rooms c).
#[local] Instance guarded_preorder : PreOrder guarded.
Proof.
  split; [intros c r Hr; split_and!; try done; exists r; by split|]. intros c1 c2 c3 G12 G23 r1 Hr1.
  destruct (G12 r1 Hr1) as ((r2 & Hr2 & R12) & T12 & A12 & H12'). destruct (G23 r2 Hr2) as ((r3 & Hr3 & R23) & T23 & A23 & H23').
  split_and!.
  - exists r3. split; [done|by etrans].
  - intros Ha. destruct (T12 Ha) as (O12 & ? & ? & ?), (T23 Ha) as (O23 & ? & ? & ?). split_and!; try congruence.
    intros room Hn. by rewrite O23, O12.
  - intros Ha. by rewrite A23, A12.
  - congruence.
Qed.

Lemma its_room_resident c r : rs_rooms (cn_rooms c) !! room_id = Some r → its_room c = r.
Proof. intros Hr. unfold its_room, room_of. by rewrite Hr. Qed.
(** The shape of most changes: the room is replaced, and the store. *)
Lemma guarded_room c c' :
  room_guarded (its_room c) (its_room c') →
  (∃ r' p, cn_rooms c' = set_persistence (set_room (cn_rooms c) room_id r') p) → io_files (cn_io c') = io_files (cn_io c) → guarded c c'.
Proof.
  intros Hg (r' & p & Hs) Hio r Hr. rewrite (its_room_resident _ _ Hr) in Hg. rewrite Hs in *. cbn.
  unfold its_room, room_of in Hg. rewrite Hs in Hg. cbn in Hg. rewrite lookup_insert_eq in Hg. split_and!; [|intros _|done..].
  - exists r'. by rewrite lookup_insert_eq.
  - split_and!; try done. intros room Hn. by rewrite lookup_insert_ne.
Qed.
Lemma guarded_room_to c r' : room_guarded (its_room c) r' → guarded c (room_to c r').
Proof.
  intros Hg. apply guarded_room; [|exists r', (its_store c); by destruct c as [[] ? ? ? ? ? ? ?]|done].
  unfold its_room at 2, room_of. cbn. by rewrite lookup_insert_eq.
Qed.
Lemma guarded_same_rooms c c' : cn_rooms c' = cn_rooms c → cn_io c' = cn_io c → guarded c c'.
Proof. intros Hs Hio r Hr. rewrite Hs, Hio. split_and!; try done. by exists r. Qed.
Lemma guarded_store c p : guarded c (store_to c p).
Proof. intros r Hr. split_and!; try done. by exists r. Qed.
Ltac keep_room := destruct (its_room _); unfold room_guarded; cbn; split_and!; intros; first [done | congruence | naive_solver].

Lemma change_guarded c c' : change c c' → guarded c c'.
Proof.
  intros Hc. destruct Hc as [c o|c|c|c|c ns now r p res E|c data p e E|c data p E|c h|c snap g E E'|c vk Ha Hk|c pol Ha|c b Ha|c specs pr Ha
    |c w Ha Hw|c w Ha Hw|c s Ha Hs].
  - apply guarded_same_rooms; unfold put_out; by destruct (cn_sends c) as [|[]].
  - by apply guarded_same_rooms.
  - by apply guarded_same_rooms.
  - by apply guarded_same_rooms.
  - etrans; [apply (guarded_room_to c r)|apply guarded_store]. unfold room_import_nodes in E.
    destruct (room_import_loop _ _ _ _ _ _) as [[[? ?] ?] ?]. simplify_eq. keep_room.
  - apply guarded_store.
  - etrans; [apply (guarded_store c p)|]. apply guarded_room_to. change (its_room (store_to c p)) with (its_room c). keep_room.
  - apply guarded_store.
  - apply guarded_room_to. keep_room.
  - apply guarded_room_to. keep_room.
  - apply guarded_room_to. keep_room.
  - apply guarded_room_to. keep_room.
  - apply guarded_room_to. keep_room.
  - etrans; [apply (guarded_room_to c w.1.1)|]; [destruct Hw as [-> _]; reflexivity|].
    etrans; [apply (guarded_store _ w.1.2)|]. intros r Hr. split_and!; try done; [by exists r|]. intros _. apply Hw.
  - etrans; [apply (guarded_room_to c w.1.1)|]; [unfold world_written in Hw; rewrite Hw; cbn; keep_room|].
    etrans; [apply (guarded_store _ w.1.2)|]. intros r Hr. split_and!; try done. by exists r.
  - intros r Hr. destruct Hs as (Hp & Hh & Hk & _). destruct (Hk _ _ Hr) as (r' & Hr' & Hc). split_and!; try done. exists r'. split; [done|].
    unfold same_control in Hc. rewrite Hc. destruct r. unfold room_guarded. cbn. split_and!; intros; done.
Qed.

Lemma changes_guarded c c' : changes c c' → guarded c c'.
Proof. induction 1 as [c|c1 c2 c3 Hc _ IH]; [reflexivity|]. etrans; [by apply change_guarded|done]. Qed.

(** C10: a message of a session keeps what its capabilities do not cover ([guarded]):
    without policy.admin the policy timeline, without room.admin the room key (which
    nobody replaces once it is set), without tick.admin the tick, without query.admin
    the specs and projections, without topology.admin the lineage, every other room and
    the stores of lineages and promotions, without archive.admin the archive files; and
    nobody changes who is connected.  A message that names a command whose capability
    is missing has one effect, the error that names it, and the connection stays open. *)
Theorem control_plane_guarded env text c :
  let run := handle_client_message backend build_limits server_key si env text c in
  guarded c run.1 ∧
  ∀ msg required, json_parse text = Some msg →
    required_capability_for_control_plane_command (extract_client_message_type_text msg) = Some required →
    is_control_plane_allowed (si_is_server_peer si) (si_caps si) required = false →
    run = ((put_out c (OutText (refusal_of (extract_client_message_type_text msg) required))).1, true).
Proof.
  intros run. split.
  - destruct (message_run env text c) as (m & Hm & Hrun). unfold run. rewrite Hrun. apply changes_guarded, Hm.
  - intros msg required Hparse Hreq Ha. unfold run, handle_client_message, build_client_dispatch_context, classify_client_message_json.
    rewrite Hparse. cbv zeta. cbn [dc_command dc_message].
    destruct (guarded_name _ _ Hreq) as (nc & Hin & -> & -> & Hreq'). rewrite command_refused; [done..|]. unfold allowed. by rewrite Ha.
Qed.

(** *** What only sends *)

Definition same_rooms c c' : Prop := cn_rooms c' = cn_rooms c.
#[global] Instance same_rooms_preorder : PreOrder same_rooms.
Proof. split; [done|]. unfold same_rooms. intros c1 c2 c3. congruence. Qed.
Lemma out_rooms c o : same_rooms c (put_out c o).1.
Proof. unfold same_rooms, put_out. by destruct (cn_sends c) as [|[]]. Qed.
Lemma ws_send_rooms text : framed same_rooms (ws_send text : CM bool).
Proof.
  intros c. unfold framed_at, ws_send. pose proof (out_rooms c (OutText text)) as Hc. destruct (put_out c (OutText text)) as [c' []]; try done.
  etrans; [exact Hc|apply out_rooms].
Qed.
Lemma send_error_rooms msg : framed same_rooms (send_error msg : CM unit).
Proof. intros c. apply out_rooms. Qed.
Lemma reply_rooms e : framed same_rooms (reply e : CM unit).
Proof. unfold reply, reply_text. frames; [apply ws_send_rooms|]. case_match; frames. Qed.
Lemma broadcast_rooms e : framed same_rooms (broadcast e : CM unit).
Proof. by intros c. Qed.

(** *** Who is connected *)

Definition conn_members c c' : Prop := is_Some (rs_rooms (cn_rooms c) !! room_id) → members_kept (cn_rooms c) (cn_rooms c').
Lemma conn_members_room c r' : same_members (its_room c) r' → conn_members c (room_to c r').
Proof. intros Hm [r Hr]. rewrite (its_room_resident _ _ Hr) in Hm. by eapply members_set_room. Qed.
Lemma conn_members_trans c1 c2 c3 : conn_members c1 c2 → conn_members c2 c3 → conn_members c1 c3.
Proof.
  intros H12' H23' [r Hr]. destruct (H12' (mk_is_Some _ _ Hr)) as (Hh & Hk & Hn). destruct (Hk _ _ Hr) as (r' & Hr' & _).
  etrans; [by apply H12'|]. apply H23'. by exists r'.
Qed.
Lemma conn_members_same c c' : rs_handles (cn_rooms c') = rs_handles (cn_rooms c) → rs_rooms (cn_rooms c') = rs_rooms (cn_rooms c) → conn_members c c'.
Proof. intros ? ? _. by apply members_same_rooms. Qed.
Lemma change_members c c' : change c c' → conn_members c c'.
Proof.
  intros Hc. destruct Hc as [c o|c|c|c|c ns now r p res E|c data p e E|c data p E|c h|c snap g E E'|c vk Ha Hk|c pol Ha|c b Ha|c specs pr Ha
    |c w Ha Hw|c w Ha Hw|c s Ha Hs]; try by apply conn_members_same.
  - apply conn_members_same; unfold put_out; by destruct (cn_sends c) as [|[]].
  - eapply conn_members_trans; [apply (conn_members_room c r)|by apply conn_members_same]. unfold room_import_nodes in E.
    destruct (room_import_loop _ _ _ _ _ _) as [[[? ?] ?] ?]. by simplify_eq.
  - eapply conn_members_trans; [by apply (conn_members_same c (store_to c p))|by apply conn_members_room].
  - by apply conn_members_room.
  - by apply conn_members_room.
  - by apply conn_members_room.
  - by apply conn_members_room.
  - by apply conn_members_room.
  - eapply conn_members_trans; [apply (conn_members_room c w.1.1); by destruct Hw as [-> _]|by apply conn_members_same].
  - eapply conn_members_trans; [apply (conn_members_room c w.1.1); unfold world_written in Hw; by rewrite Hw|by apply conn_members_same].
  - intros _. by apply rooms_members.
Qed.
Lemma changes_members c c' : changes c c' → conn_members c c'.
Proof.
  induction 1 as [c|c1 c2 c3 Hc _ IH]; [by apply conn_members_same|]. eapply conn_members_trans; [by apply change_members|done].
Qed.
Lemma message_members env text c :
  is_Some (rs_rooms (cn_rooms c) !! room_id) →
  members_kept (cn_rooms c) (cn_rooms (handle_client_message backend build_limits server_key si env text c).1).
Proof. intros Hr. destruct (message_run env text c) as (m & Hm & ->). exact (changes_members _ _ (Hm c) Hr). Qed.

(** *** Compaction *)

Lemma rebuild_policy (snap : SyncNode) (g : RoomGraph) : rebuild_from_snapshot snap [] = Ok g → g_policy g = policy_default.
Proof.
  unfold rebuild_from_snapshot. destruct (verify_snapshot snap); [|done]. unfold apply_remote.
  pose proof (apply_remote_checked_spec (graph_with_store ∅ : RoomGraph) snap None) as Hs.
  destruct (apply_remote_checked _ snap None) as [g1 [[]|e]]; [|done]. intros [= <-]. by destruct Hs as (_ & _ & ->).
Qed.
Lemma compact_runs snap g c :
  compact (rm_graph (its_room c)) server_key = Ok snap → rebuild_from_snapshot snap [] = Ok g →
  its_room ((on_compact_room server_key si : CM unit) c).1 = with_graph (its_room c) g.
Proof.
  intros Ec Eg. unfold on_compact_room. unfold the_room. rewrite (se_bind_ok (read _) _ c c (its_room c)) by done. rewrite Ec.
  destruct (verify_snapshot snap) as [meta|] eqn:Ev; [|unfold rebuild_from_snapshot in Eg; by rewrite Ev in Eg]. rewrite Eg. cbv zeta.
  rewrite (se_bind_ok (put_room si _) _ c (room_to c (with_graph (its_room c) g)) tt) by done.
  assert (∀ c', same_rooms (room_to c (with_graph (its_room c) g)) c' → its_room c' = with_graph (its_room c) g) as Hroom.
  { intros c' Hc. unfold its_room at 1, room_of. rewrite Hc. cbn. by rewrite lookup_insert_eq. }
  apply Hroom. apply framed_bind; [apply _|apply broadcast_rooms|intros _; apply reply_rooms].
Qed.
(** C38: any session, without any capability, can compact its room, and what is left is
    neither the state nor the policy: a room whose clock is within the slack of a
    fresh one answers a compact-room message with a graph that resolves no user key and
    enforces the default write policy, while the policy timeline of the room still
    names the policy that was set. *)
Theorem compact_room_resets `{!Ed25519Laws, !Blake3Laws, !PostcardLaws (list Hash)} env text msg c :
  json_parse text = Some msg → extract_client_message_type_text msg = bs "compact-room" →
  reachable (rm_graph (its_room c)) → g_lamport (rm_graph (its_room c)) + 1 <= LAMPORT_SLACK →
  let r' := its_room (handle_client_message backend build_limits server_key si env text c).1 in
  compact_map (rm_graph r') = ∅ ∧ g_policy (rm_graph r') = policy_default ∧
  rm_policy_timeline r' = rm_policy_timeline (its_room c).
Proof.
  intros Hparse Hty Hr Hl. unfold handle_client_message, build_client_dispatch_context, classify_client_message_json.
  rewrite Hparse. cbv zeta. rewrite Hty. cbn [dc_command dc_message].
  change (route_client_dispatch_command (bs "compact-room")) with CompactRoom. cbn [handle_command].
  set (g := rm_graph (its_room c)) in *. set (snap := snapshot_node g server_key None []).
  assert (g_lamport g < u64_max) as Hlt by (unfold LAMPORT_SLACK, u64_max in *; lia).
  destruct (rebuild_from_snapshot (T := TextProjection) snap []) as [g'|e] eqn:Eg.
  2: { pose proof (proj2 (rebuild_needs_small_clock g server_key None [] Hr Hlt (Forall_nil_2 _) I) Hl) as Hok. unfold snap in Eg. by rewrite Eg in Hok. }
  pose proof (rebuild_drops_state g server_key None [] g' Hr Hlt Eg) as Hdrop.
  pose proof (compact_runs snap g' c eq_refl Eg) as Hroom. destruct (on_compact_room server_key si c) as [c' res]. cbn [fst] in *.
  rewrite Hroom. cbn. split_and!; [done|by eapply rebuild_policy|done].
Qed.
End authority.

(** ** Counting sessions *)

(** The open sessions as pairs of a room and a peer. *)
Abbreviation Keys := (gmap Z (bytes * bytes)).
Definition count (ks : Keys) (k : bytes * bytes) : nat := size (filter (λ kv, kv.2 = k) ks).
Lemma count_insert ks id k0 k : ks !! id = None → count (<[id := k0]> ks) k = if decide (k0 = k) then S (count ks k) else count ks k.
Proof.
  intros Hid. unfold count. rewrite map_filter_insert. cbn. case_decide.
  - rewrite map_size_insert_None; [done|]. apply map_lookup_filter_None. by left.
  - by rewrite delete_id.
Qed.
Lemma count_delete ks id k0 k : ks !! id = Some k0 → count ks k = if decide (k0 = k) then S (count (delete id ks) k) else count (delete id ks) k.
Proof.
  intros Hid. rewrite <-(count_insert (delete id ks) id k0 k) by apply lookup_delete_eq. by rewrite insert_delete_id.
Qed.
Lemma count_none ks room pk : (∀ id pk', ks !! id ≠ Some (room, pk')) → count ks (room, pk) = 0%nat.
Proof.
  intros Hn. unfold count. apply map_size_empty_iff, map_empty. intros id. apply map_lookup_filter_None. right.
  intros k Hk. cbn. intros ->. by eapply Hn.
Qed.
Lemma count_bound ks k : (count ks k ≤ size ks)%nat.
Proof. apply map_size_filter. Qed.

(** The session counts of a room are given by [n]. *)
Definition counted (r : Room) (n : bytes → nat) : Prop :=
  ∀ pk, rm_peer_sessions r !! pk = if decide (n pk = 0%nat) then None else Some (Z.of_nat (n pk)).
Lemma register_counted r n pk :
  counted r n → Z.of_nat (n pk) < usize_max → counted (register_sessions r pk).1 (λ k, if decide (pk = k) then S (n k) else n k).
Proof.
  intros Hm Hb k. cbn. rewrite (Hm pk). destruct (decide (pk = k)) as [<-|Hn]; [|by rewrite lookup_insert_ne; [apply Hm|]].
  rewrite lookup_insert_eq, (decide_False (P := S (n pk) = 0%nat)) by lia. f_equal. unfold sat_add_usize. case_decide; cbn; lia.
Qed.
Lemma deregister_counted r n pk :
  counted r n → n pk ≠ 0%nat → counted (deregister_sessions r pk).1 (λ k, if decide (pk = k) then pred (n k) else n k).
Proof.
  intros Hm E k. unfold deregister_sessions. rewrite (Hm pk), decide_False by done. destruct (Z.of_nat (n pk) =? 1) eqn:E1; cbn.
  - destruct (decide (pk = k)) as [<-|Hn]; [rewrite lookup_delete_eq, decide_True by lia; done|]. rewrite lookup_delete_ne by done. apply Hm.
  - replace (1 <? Z.of_nat (n pk)) with true by lia. cbn. destruct (decide (pk = k)) as [<-|Hn]; [|by rewrite lookup_insert_ne; [apply Hm|]].
    rewrite lookup_insert_eq, decide_False by lia. f_equal. lia.
Qed.

(** The counts of all rooms agree with the sessions. *)
Definition counts_ok (rooms : gmap bytes Room) (ks : Keys) : Prop :=
  ∀ room r, rooms !! room = Some r → counted r (λ pk, count ks (room, pk)).
Lemma counts_join rooms ks id room r pk :
  counts_ok rooms ks → ks !! id = None → rooms !! room = Some r → Z.of_nat (size ks) < usize_max →
  counts_ok (<[room := (register_sessions r pk).1]> rooms) (<[id := (room, pk)]> ks).
Proof.
  intros Hmatch Hid Hr Hb room' r'. rewrite lookup_insert_Some. intros [[<- <-]|[Hn Hr']] pk'; cbv beta; rewrite count_insert by done.
  - pose proof (count_bound ks (room, pk)). pose proof (register_counted r _ pk (Hmatch _ _ Hr) ltac:(cbn; lia) pk') as Hm. cbv beta in Hm.
    rewrite Hm. by repeat case_decide; simplify_eq.
  - destruct (decide ((room, pk) = (room', pk'))) as [[= ->]|_]; [done|]. by apply Hmatch.
Qed.
Lemma counts_leave rooms ks id room r pk :
  counts_ok rooms ks → ks !! id = Some (room, pk) → rooms !! room = Some r →
  counts_ok (<[room := (deregister_sessions r pk).1]> rooms) (delete id ks).
Proof.
  intros Hmatch Hid Hr room' r'. rewrite lookup_insert_Some. intros [[<- <-]|[Hn Hr']] pk'.
  - pose proof (deregister_counted r _ pk (Hmatch _ _ Hr) ltac:(cbn; rewrite (count_delete _ _ _ _ Hid), decide_True by done; lia) pk') as Hm.
    cbv beta in Hm |- *. rewrite Hm, (count_delete _ _ _ (room, pk') Hid). by repeat case_decide; simplify_eq.
  - specialize (Hmatch _ _ Hr' pk'). cbv beta in Hmatch |- *. rewrite (count_delete _ _ _ _ Hid) in Hmatch.
    by destruct (decide ((room, pk) = (room', pk'))) as [[= ->]|_].
Qed.

(** The rooms stay, with their counts; new ones have none. *)
Definition sessions_kept {P W} (s s' : Rooms P W) : Prop :=
  rs_handles s' = rs_handles s ∧
  (∀ room r, rs_rooms s !! room = Some r → ∃ r', rs_rooms s' !! room = Some r' ∧ rm_peer_sessions r' = rm_peer_sessions r) ∧
  (∀ room r', rs_rooms s !! room = None → rs_rooms s' !! room = Some r' → rm_peer_sessions r' = ∅).
Lemma members_sessions {P W} (s s' : Rooms P W) : members_kept s s' → sessions_kept s s'.
Proof.
  intros (Hh & Hk & Hn). split_and!; [done| |].
  - intros room r Hr. destruct (Hk _ _ Hr) as (r' & Hr' & _ & ?). by exists r'.
  - intros room r' Hr Hr'. by destruct (Hn _ _ Hr Hr').
Qed.
Lemma sessions_set_room {P W} (s : Rooms P W) room r r' :
  rs_rooms s !! room = Some r → rm_peer_sessions r' = rm_peer_sessions r → sessions_kept s (set_room s room r').
Proof.
  intros Hr E. split_and!; [done| |]; cbn.
  - intros room' r0 Hr0. destruct (decide (room = room')) as [<-|Hn]; [rewrite lookup_insert_eq; simplify_eq; by exists r'|].
    rewrite lookup_insert_ne by done. by exists r0.
  - intros room' r0 Hn. rewrite lookup_insert_ne by congruence. congruence.
Qed.
Lemma counts_kept {P W} (s s' : Rooms P W) ks :
  sessions_kept s s' → (∀ id room pk, ks !! id = Some (room, pk) → is_Some (rs_rooms s !! room)) →
  counts_ok (rs_rooms s) ks → counts_ok (rs_rooms s') ks.
Proof.
  intros (_ & Hk & Hn) Hres Hmatch room r' Hr' pk. destruct (rs_rooms s !! room) as [r|] eqn:E.
  - destruct (Hk _ _ E) as (r'' & Hr'' & Hm). simplify_eq. rewrite Hm. by apply Hmatch.
  - rewrite (Hn _ _ E Hr'), lookup_empty, count_none; [done|]. intros id pk' Hid. destruct (Hres _ _ _ Hid). congruence.
Qed.

Section sessions.
Context `{Blake3, Blake3Keyed, Postcard Transaction, Ed25519, Postcard (list WireNode), Postcard (list PolicyTimelineEntry), Postcard (list Hash)}.
Context `{Serde RoomLineage, Serde PromotionRecord, Json, JsonRead, EnvelopeJson, ManifestJson, ResponseJson, CapsFromValue, Postcard Ibf}.
Context {P : Type} `{NodePersistence P, BlobPersistence P, UrlPersistence P} {W L : Type} `{RateLimiting L}.
Context (backend : bytes) (build_limits : BuildLimits) (server_key : SigningKey).
Context (entries : CapGraph → list (bytes * list bytes)) (profile : result bytes (option CapabilityProfile)).
Context (peer_rate_nodes peer_rate_bytes : Z) (budget : ScopeCatchupBudget) (capacity : nat).
Implicit Types (sy : Sys P W L) (c : Conn P W L) (l : Live L).
Abbreviation CM := (SE (Conn P W L) bool).

(** The rooms the tasks hold, and the sessions that are counted. *)
Abbreviation Conns := (gmap Z (ConnPhase L)).
Definition holds (conns : Conns) : gmap Z bytes := phase_room <$> conns.
Definition sessions (conns : Conns) : Keys := omap phase_session conns.
Record sys_ok sy : Prop := {
  so_resident : ∀ id room, holds (sy_conns sy) !! id = Some room → is_Some (rs_rooms (sy_rooms sy) !! room);
  so_handles : ∀ room, room ∈ rs_handles (sy_rooms sy) ↔ ∃ id, holds (sy_conns sy) !! id = Some room;
  so_counts : counts_ok (rs_rooms (sy_rooms sy)) (sessions (sy_conns sy));
}.

Lemma session_room (p : ConnPhase L) room pk : phase_session p = Some (room, pk) → phase_room p = room.
Proof. destruct p; cbn; by intros [= <- _]. Qed.
Lemma session_held conns id room pk : sessions conns !! id = Some (room, pk) → holds conns !! id = Some room.
Proof.
  unfold sessions, holds. rewrite lookup_omap, lookup_fmap. destruct (conns !! id) as [p|]; [|done]. cbn. intros Hp. by rewrite (session_room p room pk).
Qed.
Lemma hear_same msgs (p : ConnPhase L) : phase_room (hear capacity msgs p) = phase_room p ∧ phase_session (hear capacity msgs p) = phase_session p.
Proof. destruct p; cbn [hear]; unfold receive; repeat case_match; done. Qed.
Lemma holds_publish room msgs conns : holds (publish capacity room msgs conns) = holds conns.
Proof.
  unfold holds, publish. rewrite <-map_fmap_compose. apply map_fmap_ext. intros id p _. cbn. case_bool_decide; [apply hear_same|done].
Qed.
Lemma sessions_publish room msgs conns : sessions (publish capacity room msgs conns) = sessions conns.
Proof.
  apply map_eq. intros id. unfold sessions, publish. rewrite !lookup_omap, lookup_fmap. destruct (conns !! id) as [p|]; [|done]. cbn.
  case_bool_decide; [apply hear_same|done].
Qed.
Lemma holds_update conns id p p' : conns !! id = Some p → phase_room p' = phase_room p → holds (<[id := p']> conns) = holds conns.
Proof. intros Hp E. unfold holds. rewrite fmap_insert, E. apply insert_id. by rewrite lookup_fmap, Hp. Qed.
Lemma sessions_update conns id p p' : conns !! id = Some p → phase_session p' = phase_session p → sessions (<[id := p']> conns) = sessions conns.
Proof.
  intros Hp E. apply map_eq. intros id'. unfold sessions. rewrite !lookup_omap. destruct (decide (id = id')) as [<-|Hn].
  - by rewrite lookup_insert_eq, Hp.
  - by rewrite lookup_insert_ne.
Qed.
Lemma sessions_delete conns id : sessions (delete id conns) = delete id (sessions conns).
Proof. apply omap_delete. Qed.
Lemma sessions_size conns : (size (sessions conns) ≤ size conns)%nat.
Proof. rewrite <-!size_dom. apply subseteq_size. intros id. rewrite !elem_of_dom. unfold sessions. rewrite lookup_omap. destruct (conns !! id); [by eexists|by intros []]. Qed.

(** *** A task goes on *)

Lemma go_on_ok sy id p p' c sy' out :
  sys_ok sy → sy_conns sy !! id = Some p → phase_room p' = phase_room p →
  rs_handles (cn_rooms c) = rs_handles (sy_rooms sy) → (∀ room, is_Some (rs_rooms (sy_rooms sy) !! room) → is_Some (rs_rooms (cn_rooms c) !! room)) →
  counts_ok (rs_rooms (cn_rooms c)) (sessions (<[id := p']> (sy_conns sy))) →
  go_on capacity sy id p' c = Some (sy', out) → sys_ok sy'.
Proof.
  intros [Hr Hh _] Hp E Hc Hres Hco [= <- _]. split; cbn [sy_rooms sy_conns]; rewrite ?holds_publish, ?sessions_publish, ?(holds_update _ _ _ _ Hp E); [|by rewrite Hc|done].
  intros id' room Hi. by eapply Hres, Hr.
Qed.
Lemma go_on_kept sy id p p' c sy' out :
  sys_ok sy → sy_conns sy !! id = Some p → phase_room p' = phase_room p → phase_session p' = phase_session p →
  sessions_kept (sy_rooms sy) (cn_rooms c) → go_on capacity sy id p' c = Some (sy', out) → sys_ok sy'.
Proof.
  intros Hok Hp E Es Hk. eapply go_on_ok; [done|done|done|apply Hk| |].
  - intros room [r Hr]. destruct Hk as (_ & Hk & _). destruct (Hk _ _ Hr) as (r' & Hr' & _). by exists r'.
  - rewrite (sessions_update _ _ _ _ Hp Es). eapply counts_kept; [done| |apply Hok]. intros id' room pk Hs%session_held. by eapply so_resident.
Qed.
(** A task that holds no session ends. *)
Lemma finish_ok sy id p c sy' out :
  sys_ok sy → sy_conns sy !! id = Some p → phase_session p = None → sessions_kept (sy_rooms sy) (cn_rooms c) →
  finish capacity sy id (phase_room p) c = Some (sy', out) → sys_ok sy'.
Proof.
  intros [Hr Hh Hco] Hp Es Hk [= <- _]. set (others := delete id (sy_conns sy)).
  assert (rs_rooms (let_go (phase_room p) others (cn_rooms c)) = rs_rooms (cn_rooms c)) as Erooms by (unfold let_go; by case_decide).
  assert (∀ id' room, holds others !! id' = Some room → holds (sy_conns sy) !! id' = Some room) as Hsub.
  { unfold holds, others. intros id' room. rewrite fmap_delete, lookup_delete_Some. by intros [_ ?]. }
  split; cbn [sy_rooms sy_conns]; rewrite ?holds_publish, ?sessions_publish, ?Erooms.
  - intros id' room Hi%Hsub. destruct (Hr _ _ Hi) as [r Hrm]. destruct Hk as (_ & Hk & _). destruct (Hk _ _ Hrm) as (r' & Hr' & _). by exists r'.
  - intros room. assert (holds (sy_conns sy) !! id = Some (phase_room p)) as Hid by (unfold holds; by rewrite lookup_fmap, Hp).
    assert (room ≠ phase_room p → room ∈ rs_handles (cn_rooms c) ↔ ∃ id', holds others !! id' = Some room) as Hoth.
    { intros Hn. rewrite (proj1 Hk), Hh. split; intros [id' Hi]; [|by eauto]. exists id'. unfold holds, others. rewrite fmap_delete, lookup_delete_ne; [done|].
      intros <-. rewrite Hid in Hi. congruence. }
    unfold let_go. case_decide as Hex.
    + destruct (decide (room = phase_room p)) as [->|Hn]; [|by apply Hoth]. split; intros _; [|rewrite (proj1 Hk); by apply Hh; exists id].
      destruct Hex as (id' & p' & Hp' & Er). exists id'. unfold holds. by rewrite lookup_fmap, Hp', <-Er.
    + cbn. destruct (decide (room = phase_room p)) as [->|Hn]; [|rewrite <-Hoth by done; set_solver]. split; [set_solver|].
      intros [id' Hi]. destruct Hex. unfold holds in Hi. rewrite lookup_fmap in Hi. destruct (others !! id') as [p'|] eqn:E; [|done]. exists id', p'. split; [done|]. by injection Hi.
  - unfold others. rewrite sessions_delete, delete_id; [|unfold sessions; by rewrite lookup_omap, Hp].
    eapply counts_kept; [done| |done]. intros id' room pk Hs%session_held. by eapply Hr.
Qed.

Lemma sessions_filter conns k : size (filter (λ it, phase_session it.2 = Some k) conns) = count (sessions conns) k.
Proof.
  unfold count. rewrite <-!size_dom. f_equal. apply set_eq. intros id. rewrite !elem_of_dom. unfold is_Some, sessions.
  setoid_rewrite map_lookup_filter_Some. setoid_rewrite lookup_omap. cbn. split.
  - intros (p & Hp & Hs). exists k. by rewrite Hp.
  - intros (k' & Hs & ->). destruct (conns !! id) as [p|]; [|done]. by exists p.
Qed.

Lemma ws_send_runs text c : ∃ c' ok, (ws_send text : CM bool) c = (c', Ok ok) ∧ cn_rooms c' = cn_rooms c.
Proof.
  pose proof (ws_send_rooms text c) as Hc. unfold framed_at, same_rooms in Hc. revert Hc. unfold ws_send.
  destruct (put_out c (OutText text)) as [c' []]; cbn; eauto.
Qed.
Lemma catchup_runs si sub w c : ∃ c' ok, (send_catchup budget si sub w : CM bool) c = (c', Ok ok) ∧ cn_rooms c' = cn_rooms c.
Proof. unfold send_catchup. cbv zeta. repeat case_match; try apply ws_send_runs; by exists c, true. Qed.
(** *** The steps of a task *)

Lemma entered_rooms (s : Rooms P W) room now : rs_rooms (get_or_create s room now) = rs_rooms (enter room now s).
Proof. done. Qed.
Lemma entered_handles (s : Rooms P W) room now : rs_handles (get_or_create s room now) = {[room]} ∪ rs_handles s.
Proof. unfold get_or_create. cbn. by case_match. Qed.
Lemma entered_resident (s : Rooms P W) room now : is_Some (rs_rooms (get_or_create s room now) !! room).
Proof. unfold get_or_create. cbn. case_match; [by eexists|]. cbn. rewrite lookup_insert_eq. by eexists. Qed.

Lemma connect_ok sy id room now : sys_ok sy → sy_conns sy !! id = None → sys_ok (connect sy id room now).
Proof.
  intros [Hr Hh Hco] Hid. set (s := get_or_create (sy_rooms sy) room now).
  assert (sessions_kept (sy_rooms sy) (enter room now (sy_rooms sy))) as Hk by (apply members_sessions, rooms_members, kept_enter).
  assert (holds (sy_conns sy) !! id = None) as Hid' by (unfold holds; by rewrite lookup_fmap, Hid).
  assert (holds (<[id := Waiting room [] false]> (sy_conns sy)) = <[id := room]> (holds (sy_conns sy))) as Eh by apply fmap_insert.
  assert (∀ room', is_Some (rs_rooms (sy_rooms sy) !! room') → is_Some (rs_rooms s !! room')) as Hres.
  { intros room' [r Hrm]. destruct Hk as (_ & Hk & _). destruct (Hk _ _ Hrm) as (r' & Hr' & _). by exists r'. }
  split; cbn [sy_rooms sy_conns connect]; rewrite ?Eh; fold s.
  - intros id' room' [[_ <-]|[_ Hi]]%lookup_insert_Some; [apply entered_resident|by eapply Hres, Hr].
  - intros room'. unfold s. rewrite entered_handles, elem_of_union, elem_of_singleton, Hh. split.
    + intros [->|[id' Hi]]; [exists id; by rewrite lookup_insert_eq|]. exists id'. rewrite lookup_insert_ne; [done|congruence].
    + intros [id' [[_ <-]|[_ Hi]]%lookup_insert_Some]; [by left|right; by exists id'].
  - replace (sessions (<[id := Waiting room [] false]> (sy_conns sy))) with (sessions (sy_conns sy)).
    + unfold s. rewrite entered_rooms. eapply counts_kept; [exact Hk| |done]. intros id' room' pk Hs%session_held. by eapply Hr.
    + apply map_eq. intros id'. unfold sessions. rewrite !lookup_omap. destruct (decide (id = id')) as [<-|Hn]; [by rewrite lookup_insert_eq, Hid|by rewrite lookup_insert_ne].
Qed.
Lemma error_rooms msg c : cn_rooms ((send_error msg : CM unit) c).1 = cn_rooms c.
Proof. apply (out_rooms c). Qed.
Lemma settled_room hello r room now_secs l :
  settle_hello server_key entries profile peer_rate_nodes peer_rate_bytes hello r room now_secs = Ok l → si_room_id (lv_info l) = room.
Proof. unfold settle_hello. cbv zeta. intros E. repeat case_match; by simplify_eq. Qed.
Lemma on_hello_ok sy id first now_secs sends sy' out :
  sys_ok sy → on_hello server_key entries profile peer_rate_nodes peer_rate_bytes capacity sy id first now_secs sends = Some (sy', out) → sys_ok sy'.
Proof.
  intros Hok. unfold on_hello. destruct (sy_conns sy !! id) as [[room inbox lagged| | | | | | | |]|] eqn:Ep; try done. cbv zeta.
  assert (∀ c, cn_rooms c = sy_rooms sy → finish capacity sy id room c = Some (sy', out) → sys_ok sy') as Hclosed.
  { intros c Ec. apply (finish_ok sy id (Waiting room inbox lagged)); [done..|]. rewrite Ec. by apply members_sessions. }
  destruct first as [|text| | |]; try by apply Hclosed. destruct (classify_hello_payload text) as [hello|]; [|apply Hclosed, error_rooms].
  destruct (negb _); [by apply Hclosed|]. destruct (settle_hello _ _ _ _ _ _ _ _ _) as [l|e] eqn:El; [|apply Hclosed, error_rooms].
  apply (go_on_kept sy id (Waiting room inbox lagged)); [done|done| |done|by apply members_sessions]. cbn. by apply settled_room in El.
Qed.
Lemma welcome_rooms l w c : cn_rooms ((send_welcome budget l w : CM bool) c).1 = cn_rooms c.
Proof.
  unfold send_welcome. destruct (ws_send_runs (welcome_json w) c) as (c2 & ok & E2 & R2). rewrite (se_bind_ok _ _ _ _ _ E2).
  destruct (should_terminate_after_send ok); [done|]. destruct (catchup_runs (lv_info l) (lv_sub l) w c2) as (c3 & ok' & E3 & R3).
  rewrite (se_bind_ok _ _ _ _ _ E3). cbn. congruence.
Qed.
Lemma in_room_kept sy l sends r :
  rs_rooms (sy_rooms sy) !! si_room_id (lv_info l) = Some r → ∀ r', rm_peer_sessions r' = rm_peer_sessions r →
  sessions_kept (sy_rooms sy) (cn_rooms (in_room (si_room_id (lv_info l)) (λ _, r') (conn_of sy l sends))).
Proof. intros Hr r' E. by eapply sessions_set_room. Qed.
Lemma handshake_step_ok sy id now peers sends sy' out :
  sys_ok sy → Z.of_nat (size (sy_conns sy)) <= usize_max →
  handshake_step server_key budget capacity sy id now peers sends = Some (sy', out) → sys_ok sy'.
Proof.
  intros Hok Hb. unfold handshake_step. destruct (sy_conns sy !! id) as [p|] eqn:Ep; [|done]. cbn [mbind option_bind].
  destruct (phase_live p) as [l|] eqn:El; [|done]. cbn [mbind option_bind]. cbv zeta. set (room := si_room_id (lv_info l)). set (pk := si_pubkey_hex (lv_info l)).
  assert (phase_room p = room) as Eroom by (destruct p; by simplify_eq/=).
  assert (holds (sy_conns sy) !! id = Some room) as Hid by (unfold holds; by rewrite lookup_fmap, Ep, <-Eroom).
  destruct (so_resident _ Hok _ _ Hid) as [r Hr]. assert (room_of (sy_rooms sy) room = r) as -> by (unfold room_of; by rewrite Hr).
  pose proof (in_room_kept sy l sends r Hr) as Hkept. fold room in Hkept.
  destruct p as [? ? ?|l' hello|l' w|l' w prior|l' w inserted|l' w|l'|l' announce|l' announce removed]; try done; cbn in El; injection El as ->.
  - apply (go_on_kept sy id (Settled l hello)); [done..|by apply members_sessions].
  - destruct (register_sessions r pk) as [r1 prior] eqn:E.
    assert (sessions (<[id := Joining l w prior]> (sy_conns sy)) = <[id := (room, pk)]> (sessions (sy_conns sy))) as Es.
    { unfold sessions. by rewrite (omap_insert_Some _ _ _ _ (room, pk)). }
    assert (sessions (sy_conns sy) !! id = None) as Hns by (unfold sessions; by rewrite lookup_omap, Ep).
    apply (go_on_ok sy id (Packed l w)); try done; cbn.
    + intros room' Hi. apply lookup_insert_is_Some. destruct (decide (room = room')); [by left|by right].
    + rewrite Es. replace r1 with (register_sessions r pk).1 by (by rewrite E). apply counts_join; [apply Hok|done|done|].
      assert (S (size (sessions (sy_conns sy))) ≤ size (sy_conns sy))%nat; [|lia]. pose proof (sessions_size (delete id (sy_conns sy))) as Hs.
      rewrite sessions_delete, delete_id in Hs by done. rewrite map_size_delete, Ep in Hs. assert (size (sy_conns sy) ≠ 0%nat); [|lia].
      intros E0%map_size_empty_inv. rewrite E0 in Ep. by rewrite lookup_empty in Ep.
  - destruct (register_peers r pk prior) as [r1 inserted] eqn:E. apply (go_on_kept sy id (Joining l w prior)); [done..|]. apply Hkept.
    unfold register_peers in E. case_match; by simplify_eq/=.
  - destruct (register_idle r inserted) as [r1 gauge] eqn:E. apply (go_on_kept sy id (Clearing l w inserted)); [done..|].
    assert (rm_peer_sessions r1 = rm_peer_sessions r) as Er by (unfold register_idle in E; by destruct inserted; simplify_eq/=). pose proof (Hkept r1 Er). by destruct gauge.
  - pose proof (welcome_rooms l w (conn_of sy l sends)) as Hw. destruct (send_welcome _ _ _ _) as [c res]. cbn in Hw.
    assert (sessions_kept (sy_rooms sy) (cn_rooms c)) as Hk by (rewrite Hw; by apply members_sessions).
    destruct res as [[]|]; by apply (go_on_kept sy id (Welcoming l w)).
  - destruct (deregister_sessions r pk) as [r1 removed] eqn:E.
    assert (sessions (sy_conns sy) !! id = Some (room, pk)) as Hs by (unfold sessions; by rewrite lookup_omap, Ep).
    apply (go_on_ok sy id (Ending l announce)); try done; cbn.
    + intros room' Hi. apply lookup_insert_is_Some. destruct (decide (room = room')); [by left|by right].
    + replace (sessions (<[id := Leaving l announce removed]> (sy_conns sy))) with (delete id (sessions (sy_conns sy))) by (unfold sessions; by rewrite omap_insert_None).
      replace r1 with (deregister_sessions r pk).1 by (by rewrite E). eapply counts_leave; [apply Hok|exact Hs|exact Hr].
  - destruct (deregister_peers r pk removed now) as [r1 gauge] eqn:E. change room with (phase_room (Leaving l announce removed)).
    assert (rm_peer_sessions r1 = rm_peer_sessions r) as Er by (unfold deregister_peers in E; by simplify_eq/=). pose proof (Hkept r1 Er) as Hk.
    apply (finish_ok sy id (Leaving l announce removed)); [done..|]. by destruct gauge, announce.
Qed.
(** An event that the session survives keeps the members; so does the part of an event
    before the session ends. *)
Lemma push_rooms l env : framed same_rooms (push_one l env : CM bool).
Proof. unfold push_one. repeat (case_match; frames). apply ws_send_rooms. Qed.
Lemma close_rooms spec : framed same_rooms (emit_close_frame spec : CM unit).
Proof. intros c. apply out_rooms. Qed.
Lemma event_members env l ev c c' b :
  is_Some (rs_rooms (cn_rooms c) !! si_room_id (lv_info l)) → on_event backend build_limits server_key env l ev c = Some (c', b) →
  members_kept (cn_rooms c) (cn_rooms c').
Proof.
  intros Hr. assert (∀ m : CM bool, framed same_rooms m →
    (let '(c, res) := m c in Some (c, match res with Ok b => b | Err b => b end)) = Some (c', b) → members_kept (cn_rooms c) (cn_rooms c')) as Hrun.
  { intros m Hm. specialize (Hm c). unfold framed_at, same_rooms in Hm. destruct (m c) as [c1 res]. intros [= -> _]. cbn in Hm. by rewrite Hm. }
  assert (∀ spec, framed same_rooms (_ ← emit_close_frame spec; mret false : CM bool)) as Hclose.
  { intros spec. frames. apply close_rooms. }
  unfold on_event. destruct ev; try by intros [= <- _].
  - intros [= Hm]. pose proof (message_members backend build_limits server_key (lv_info l) env text c Hr) as Hk. by rewrite Hm in Hk.
  - intros [= <- _]. by rewrite (out_rooms c (OutPong payload)).
  - destruct (lv_lagged l); [exact (Hrun _ (Hclose _))|]. destruct (lv_inbox l); [done|]. exact (Hrun _ (push_rooms l _)).
  - destruct (si_deadline _); [|done]. case_match; [|done]. exact (Hrun _ (Hclose _)).
Qed.

Lemma session_event_ok sy id env ev sends sy' out :
  sys_ok sy → session_event backend build_limits server_key capacity sy id env ev sends = Some (sy', out) → sys_ok sy'.
Proof.
  intros Hok. unfold session_event. destruct (sy_conns sy !! id) as [[| | | | | |l| |]|] eqn:Ep; try done.
  assert (holds (sy_conns sy) !! id = Some (si_room_id (lv_info l))) as Hid by (unfold holds; by rewrite lookup_fmap, Ep).
  destruct (on_event _ _ _ _ _ _ _) as [[c b]|] eqn:E; [|done].
  pose proof (members_sessions _ _ (event_members env l ev (conn_of sy l sends) _ _ (so_resident _ Hok _ _ Hid) E)) as Hk.
  destruct b; by apply (go_on_kept sy id (Running l)).
Qed.

(** *** Hydration, eviction and the tick *)

Lemma hydrate_members (s : Rooms P W) room : members_kept s (hydrate_step s room).
Proof.
  unfold hydrate_step. destruct (rs_hydrations s !! room) as [stage|]; [|done]. destruct (rs_rooms s !! room) as [r|] eqn:Hr; [|done]. cbv zeta.
  assert (∀ r' s', rs_rooms s' = <[room := r']> (rs_rooms s) → rs_handles s' = rs_handles s → same_members r r' → members_kept s s') as Hset.
  { intros r' s' Hrs Hh Hm. etrans; [by eapply (members_set_room s room)|]. by apply members_same_rooms. }
  destruct stage.
  - repeat case_match; by apply members_same_rooms.
  - by eapply Hset.
  - case_match; [|by apply members_same_rooms]. destruct (load_blobs _ _). by eapply Hset.
  - destruct (get_lineage _ _) as [[lin|] ls]; [by eapply Hset|by apply members_same_rooms].
  - by eapply Hset.
Qed.
Lemma tick_members (s : Rooms P W) room prefix : members_kept s (tick_room s room server_key prefix).
Proof.
  unfold tick_room. destruct (rs_rooms s !! room) as [r|] eqn:Hr; [|done].
  assert (same_members r (process_tick r room (rs_persistence s) server_key prefix default_tick_fn).1.1) as Hm.
  { unfold process_tick, tick_commit. repeat case_match; simplify_eq/=; done. }
  destruct (process_tick _ _ _ _ _ _) as [[r' p] out]. cbn in Hm.
  etrans; [by eapply (members_set_room s room)|]. by apply members_same_rooms.
Qed.
(** A room that a task holds is not evicted. *)
Lemma evict_ok sy timeout now : sys_ok sy → sys_ok (mkSys (sweep_idle (sy_rooms sy) timeout now).1 (sy_io sy) (sy_conns sy)).
Proof.
  intros [Hres Hh Hmatch]. set (s := sy_rooms sy) in *. unfold sweep_idle. destruct (negb _); [done|].
  split; cbn [fst sy_rooms sy_conns set_rooms rs_rooms rs_handles]; [|done|]; set (ids := _.*1).
  - intros id room Hk. destruct (Hres _ _ Hk) as [r Hr]. rewrite foldl_delete_lookup. destruct (decide (room ∈ ids)) as [Hin|]; [|by exists r].
    apply list_elem_of_fmap in Hin as ([room' r'] & -> & Hin). apply list_elem_of_filter in Hin as [Hcand Hin]. cbn in *.
    apply elem_of_map_to_list in Hin. unfold idle_candidate, strong_count in Hcand.
    rewrite (bool_decide_eq_true_2 (room' ∈ rs_handles s)) in Hcand by (apply Hh; by exists id).
    apply andb_prop in Hcand as [Hcand _]. destruct (bool_decide _), (rm_ticking r'); cbn in Hcand; lia.
  - intros room r. rewrite foldl_delete_lookup. case_decide; [done|]. apply Hmatch.
Qed.

(** *** The server *)

Inductive sys_step : Sys P W L → Sys P W L → Prop :=
| sys_connect sy id room now : sy_conns sy !! id = None → sys_step sy (connect sy id room now)
| sys_hello sy id first now_secs sends sy' out :
    on_hello server_key entries profile peer_rate_nodes peer_rate_bytes capacity sy id first now_secs sends = Some (sy', out) → sys_step sy sy'
| sys_handshake sy id now peers sends sy' out : Z.of_nat (size (sy_conns sy)) <= usize_max →
    handshake_step server_key budget capacity sy id now peers sends = Some (sy', out) → sys_step sy sy'
| sys_event sy id env ev sends sy' out :
    session_event backend build_limits server_key capacity sy id env ev sends = Some (sy', out) → sys_step sy sy'
| sys_hydrate sy room : sys_step sy (mkSys (hydrate_step (sy_rooms sy) room) (sy_io sy) (sy_conns sy))
| sys_tick sy room prefix : sys_step sy (mkSys (tick_room (sy_rooms sy) room server_key prefix) (sy_io sy) (sy_conns sy))
| sys_evict sy timeout now : sys_step sy (mkSys (sweep_idle (sy_rooms sy) timeout now).1 (sy_io sy) (sy_conns sy)).
Definition sys_new (p : P) (lineage : LineageStoreInner) (promotions : PromotionStoreInner) (cap : option nat) (io : ArchiveIo) : Sys P W L :=
  mkSys (rooms_new p lineage promotions cap) io ∅.

Lemma sys_new_ok p lineage promotions cap io : sys_ok (sys_new p lineage promotions cap io).
Proof.
  assert (∀ id, holds (∅ : Conns) !! id = None) as E by (intros id; unfold holds; by rewrite lookup_fmap, lookup_empty). split; cbn.
  - intros id room. by rewrite E.
  - intros room. split; [set_solver|]. intros [id Hi]. by rewrite E in Hi.
  - intros room r. by rewrite lookup_empty.
Qed.
Lemma sys_kept_ok sy s' : members_kept (sy_rooms sy) s' → sys_ok sy → sys_ok (mkSys s' (sy_io sy) (sy_conns sy)).
Proof.
  intros Hk%members_sessions [Hr Hh Hc]. split; cbn.
  - intros id room [r Hrm]%Hr. destruct Hk as (_ & Hk & _). destruct (Hk _ _ Hrm) as (r' & Hr' & _). by exists r'.
  - by rewrite (proj1 Hk).
  - eapply counts_kept; [done| |done]. intros id room pk Hs%session_held. by eapply Hr.
Qed.
Lemma sys_step_ok sy sy' : sys_step sy sy' → sys_ok sy → sys_ok sy'.
Proof.
  intros Hs Hok. destruct Hs; [by apply connect_ok|by eapply on_hello_ok|by eapply handshake_step_ok|by eapply session_event_ok|..|by apply evict_ok].
  - by apply sys_kept_ok; [apply hydrate_members|].
  - by apply sys_kept_ok; [apply tick_members|].
Qed.

(** *** A handshake that nothing interrupts *)

Lemma go_on_reads sy id p p' c :
  sy_conns sy !! id = Some p' →
  ∃ sy', go_on capacity sy id p c = Some (sy', cn_out c) ∧ sy_rooms sy' = cn_rooms c ∧ size (sy_conns sy') = size (sy_conns sy) ∧
    sy_conns sy' !! id = Some (hear capacity (cn_bcast c) p).
Proof.
  intros Hp. eexists. split; [done|]. cbn. split; [done|]. unfold publish. rewrite map_size_fmap, map_size_insert, Hp. split; [done|].
  rewrite lookup_fmap, lookup_insert_eq. cbn. by rewrite bool_decide_true.
Qed.
Lemma receive_info msgs l : lv_info (receive capacity msgs l) = lv_info l ∧ lv_sub (receive capacity msgs l) = lv_sub l.
Proof. unfold receive. by case_match. Qed.
Lemma ws_send_same text c c2 : cn_sends c2 = cn_sends c →
  ∃ c' c2' ok, (ws_send text : CM bool) c = (c', Ok ok) ∧ (ws_send text : CM bool) c2 = (c2', Ok ok) ∧ cn_sends c2' = cn_sends c'.
Proof.
  intros E. unfold ws_send, put_out. rewrite E. destruct (cn_sends c) as [|[] [|x sends]]; cbn; eauto 10.
Qed.
Lemma welcome_same l l2 w c c2 : cn_sends c2 = cn_sends c → lv_info l2 = lv_info l → lv_sub l2 = lv_sub l →
  ((send_welcome budget l2 w : CM bool) c2).2 = ((send_welcome budget l w : CM bool) c).2.
Proof.
  intros Es Ei Eu. unfold send_welcome. destruct (ws_send_same (welcome_json w) c c2 Es) as (c' & c2' & ok & E1 & E2 & Es').
  rewrite (se_bind_ok _ _ _ _ _ E1), (se_bind_ok _ _ _ _ _ E2). destruct (should_terminate_after_send ok); [done|].
  assert (∃ d d2 ok, (send_catchup budget (lv_info l) (lv_sub l) w : CM bool) c' = (d, Ok ok) ∧
    (send_catchup budget (lv_info l2) (lv_sub l2) w : CM bool) c2' = (d2, Ok ok)) as (d & d2 & ok' & E3 & E4).
  { rewrite Ei, Eu. unfold send_catchup. cbv zeta. repeat case_match; try (by exists c', c2', true).
    match goal with |- context [ws_send ?t] => destruct (ws_send_same t c' c2' Es') as (? & ? & ? & ? & ? & _) end. eauto 10. }
  by rewrite (se_bind_ok _ _ _ _ _ E3), (se_bind_ok _ _ _ _ _ E4).
Qed.
Lemma join_rooms room pk c :
  ∃ c', (join_room room pk : CM unit) c = (c', Ok tt) ∧ cn_rooms c' = set_room (cn_rooms c) room (register_peer (room_of (cn_rooms c) room) pk).1.
Proof. unfold join_room. destruct (register_peer _ _) as [r g]. eexists. split; [done|]. by destruct g. Qed.
Lemma task_reads sy id p now peers sends p' c :
  Z.of_nat (size (sy_conns sy)) <= usize_max → sy_conns sy !! id = Some p →
  handshake_step server_key budget capacity sy id now peers sends = go_on capacity sy id p' c →
  ∃ sy', sys_step sy sy' ∧ sy_rooms sy' = cn_rooms c ∧ Z.of_nat (size (sy_conns sy')) <= usize_max ∧
    sy_conns sy' !! id = Some (hear capacity (cn_bcast c) p').
Proof.
  intros Hb Hp E. destruct (go_on_reads sy id p' p c Hp) as (sy' & G & R & Z & Hp'). exists sy'. rewrite <-E in G.
  split; [by eapply sys_handshake|]. split; [done|]. by rewrite Z.
Qed.
Lemma set_room_twice (s : Rooms P W) room a b : set_room (set_room s room a) room b = set_room s room b.
Proof. unfold set_room, set_rooms. cbn. by rewrite insert_insert_eq. Qed.
Lemma room_of_set (s : Rooms P W) room r : room_of (set_room s room r) room = r.
Proof. unfold room_of. cbn. by rewrite lookup_insert_eq. Qed.
(** The five steps from a settled hello to a session that runs. *)
Lemma settled_run sy id hello l room pk (now : Instant) peers sends :
  Z.of_nat (size (sy_conns sy)) <= usize_max → sy_conns sy !! id = Some (Settled l hello) →
  si_room_id (lv_info l) = room → si_pubkey_hex (lv_info l) = pk →
  let r := room_of (sy_rooms sy) room in let w := welcome_of server_key hello r pk peers in
  (∀ l' c, lv_info l' = lv_info l → lv_sub l' = lv_sub l → cn_sends c = sends → ((send_welcome budget l' w : CM bool) c).2 = Ok true) →
  ∃ sy' l', rtc sys_step sy sy' ∧ sy_rooms sy' = set_room (sy_rooms sy) room (register_peer r pk).1 ∧
    sy_conns sy' !! id = Some (Running l') ∧ lv_info l' = lv_info l.
Proof.
  intros Hb Hp Hroom Hpk r w Hsend. set (s := sy_rooms sy) in *.
  destruct (task_reads sy id _ now peers [] (Packed l w) (conn_of sy l []) Hb Hp) as (sy1 & S1 & R1 & B1 & P1).
  { unfold handshake_step. rewrite Hp. cbn. by rewrite Hroom, Hpk. }
  cbn [hear] in P1. set (l1 := receive capacity _ l) in P1. destruct (receive_info [] l) as [I1 U1]. change (receive capacity [] l) with l1 in I1, U1.
  unfold register_peer. destruct (register_sessions r pk) as [r1 prior] eqn:E1.
  destruct (task_reads sy1 id _ now peers [] (Joining l1 w prior) (in_room room (λ _, r1) (conn_of sy1 l1 [])) B1 P1) as (sy2 & S2 & R2 & B2 & P2).
  { unfold handshake_step. rewrite P1. cbn [mbind option_bind phase_live]. cbv zeta. rewrite I1, Hroom, Hpk, R1. change (room_of _ room) with r. by rewrite E1. }
  cbn in R2. rewrite R1 in R2. cbn in R2. cbn [hear] in P2. set (l2 := receive capacity _ l1) in P2. destruct (receive_info [] l1) as [I2 U2]. change (receive capacity [] l1) with l2 in I2, U2.
  destruct (register_peers r1 pk prior) as [r2 inserted] eqn:E2.
  destruct (task_reads sy2 id _ now peers [] (Clearing l2 w inserted) (in_room room (λ _, r2) (conn_of sy2 l2 [])) B2 P2) as (sy3 & S3 & R3 & B3 & P3).
  { unfold handshake_step. rewrite P2. cbn [mbind option_bind phase_live]. cbv zeta. rewrite I2, I1, Hroom, Hpk, R2, room_of_set, E2. done. }
  cbn in R3. rewrite R2, set_room_twice in R3. cbn [hear] in P3. set (l3 := receive capacity _ l2) in P3. destruct (receive_info [] l2) as [I3 U3]. change (receive capacity [] l2) with l3 in I3, U3.
  destruct (register_idle r2 inserted) as [r3 gauge] eqn:E3.
  set (c4 := match gauge with GaugeIncrement => put_bcast (in_room room (λ _, r3) (conn_of sy3 l3 [])) (envelope_json (assemble_peer_joined_envelope pk))
    | _ => in_room room (λ _, r3) (conn_of sy3 l3 []) end).
  destruct (task_reads sy3 id _ now peers [] (Welcoming l3 w) c4 B3 P3) as (sy4 & S4 & R4 & B4 & P4).
  { unfold handshake_step. rewrite P3. cbn [mbind option_bind phase_live]. cbv zeta. rewrite I3, I2, I1, Hroom, Hpk, R3, room_of_set, E3. done. }
  assert (sy_rooms sy4 = set_room s room r3) as R4'.
  { rewrite R4. unfold c4. destruct gauge; cbn; by rewrite R3, set_room_twice. }
  cbn [hear] in P4. set (l4 := receive capacity _ l3) in P4. destruct (receive_info (cn_bcast c4) l3) as [I4 U4]. fold l4 in I4, U4.
  pose proof (Hsend l4 (conn_of sy4 l4 sends) ltac:(congruence) ltac:(congruence) eq_refl) as Hw.
  pose proof (welcome_rooms l4 w (conn_of sy4 l4 sends)) as Rw. destruct (send_welcome budget l4 w (conn_of sy4 l4 sends)) as [c5 res] eqn:E5. cbn in Hw, Rw. subst res.
  destruct (task_reads sy4 id _ now peers sends (Running l4) c5 B4 P4) as (sy5 & S5 & R5 & _ & P5).
  { unfold handshake_step. rewrite P4. cbn [mbind option_bind phase_live]. cbv zeta. by rewrite E5. }
  exists sy5, (receive capacity (cn_bcast c5) l4). split; [|split; [by rewrite R5, Rw|split; [done|]]].
  - eapply rtc_l; [exact S1|]. eapply rtc_l; [exact S2|]. eapply rtc_l; [exact S3|]. eapply rtc_l; [exact S4|]. by apply rtc_once.
  - destruct (receive_info (cn_bcast c5) l4) as [I5 _]. congruence.
Qed.
(** What [run_handshake] does to the rooms is a run of the task's steps. *)
Lemma handshake_run sy id room text now now_secs peers sends c l :
  Z.of_nat (size (sy_conns sy)) <= usize_max → sy_conns sy !! id = Some (Waiting room [] false) →
  run_handshake server_key entries profile peer_rate_nodes peer_rate_bytes budget room (FirstText text) now now_secs peers
    (mkConn (sy_rooms sy) (sy_io sy) everything None None [] [] sends) = (c, Ok (HsOpen l)) →
  ∃ sy' l', rtc sys_step sy sy' ∧ sy_rooms sy' = cn_rooms c ∧ sy_conns sy' !! id = Some (Running l') ∧ lv_info l' = lv_info l.
Proof.
  intros Hb Hp. set (c0 := mkConn _ _ _ _ _ _ _ _). unfold run_handshake.
  destruct (classify_hello_payload text) as [hello|] eqn:Eh; [|done]. destruct (negb (char_boundary _ _)) eqn:Ecb; [done|]. cbv zeta.
  rewrite (se_bind_ok (read _) _ c0 c0 (room_of (sy_rooms sy) room)) by done. set (r0 := room_of (sy_rooms sy) room).
  destruct (settle_hello _ _ _ _ _ hello _ room now_secs) as [l0|e] eqn:El; [|done]. set (pk := extract_hello_pubkey_text hello). set (w := welcome_of _ _ _ _ _).
  assert (si_room_id (lv_info l0) = room ∧ si_pubkey_hex (lv_info l0) = pk) as [Hroom Hpk].
  { unfold settle_hello in El. cbv zeta in El. repeat case_match; by simplify_eq. }
  destruct (go_on_reads sy id (Settled (with_inbox l0 [] false) hello) _ c0 Hp) as (sy1 & G1 & R1 & Z1 & P1).
  change (cn_rooms c0) with (sy_rooms sy) in R1. assert (sys_step sy sy1) as S1.
  { eapply (sys_hello sy id (FirstText text) now_secs sends). unfold on_hello. rewrite Hp. cbv zeta. rewrite Eh, Ecb. fold r0. rewrite El. exact G1. }
  cbn [hear] in P1. set (l1 := receive _ _ _) in P1. destruct (receive_info [] (with_inbox l0 [] false)) as [I1 U1]. change (receive capacity [] _) with l1 in I1, U1.
  destruct (join_rooms room pk c0) as (c1 & E1 & R2). rewrite (se_bind_ok _ _ _ _ _ E1). assert (cn_sends c1 = sends) as Es.
  { unfold join_room in E1. destruct (register_peer _ _) as [x []]; by injection E1 as <-. }
  pose proof (welcome_rooms l0 w c1) as Rw. destruct (send_welcome budget l0 w c1) as [c2 [[]|b]] eqn:E2; cycle 1.
  { rewrite (se_bind_ok _ _ _ _ _ E2). cbn [negb]. unfold mbind, se_bind. by destruct (abandon _ _ _ _) as [? [[]|]]. }
  { by rewrite (se_bind_err _ _ _ _ _ E2). }
  rewrite (se_bind_ok _ _ _ _ _ E2). intros [= <- <-]. cbn in Rw.
  destruct (settled_run sy1 id hello l1 room pk now peers sends) as (sy' & l' & Hr & Rr & Hrun & Hi); [by rewrite Z1|done|by rewrite I1|by rewrite I1| |].
  - intros l' c Hi Hu Hs. rewrite (welcome_same l0 l' _ c1 c); [|congruence|by rewrite Hi, I1|by rewrite Hu, U1]. rewrite R1. fold r0 w. by rewrite E2.
  - exists sy', l'. split; [by eapply rtc_l|]. split; [|split; [done|by rewrite Hi, I1]]. rewrite Rr, Rw, R2, R1. done.
Qed.

(** C11: sessions are counted through every interleaving. Connections, fewer than 2^64
    at a time, arrive, wait for their hello, join, are welcomed, run and leave as tasks
    that other tasks interrupt between any two of their locks (a message of a client is
    handled in one step), with handshakes and sends that fail half way, disconnections,
    lag and token expiry, and with hydrations, ticks and evictions in between. Always,
    the session count of a peer in a resident room is the number of its tasks that have
    joined and not yet left the count, the room of every connection is resident, and
    the rooms that connections keep from eviction are exactly those with a connection
    (a tick loop may keep others). The set of connected peers is not part of this: it
    can lose a peer that reconnects. *)
Theorem sessions_counted p lineage promotions cap io sy :
  rtc sys_step (sys_new p lineage promotions cap io) sy →
  (∀ id t, sy_conns sy !! id = Some t → is_Some (rs_rooms (sy_rooms sy) !! phase_room t)) ∧
  (∀ room, room ∈ rs_handles (sy_rooms sy) ↔ ∃ id t, sy_conns sy !! id = Some t ∧ phase_room t = room) ∧
  ∀ room r, rs_rooms (sy_rooms sy) !! room = Some r → ∀ pk,
    let n := size (filter (λ it, phase_session it.2 = Some (room, pk)) (sy_conns sy)) in
    rm_peer_sessions r !! pk = if decide (n = 0%nat) then None else Some (Z.of_nat n).
Proof.
  intros Hrun. assert (sys_ok sy) as [Hres Hh Hmatch].
  { eapply (rtc_ind_r (λ sy, sys_ok sy)); [apply sys_new_ok| |exact Hrun]. intros; by eapply sys_step_ok. }
  assert (∀ id room, holds (sy_conns sy) !! id = Some room ↔ ∃ t, sy_conns sy !! id = Some t ∧ phase_room t = room) as Hk.
  { intros id room. unfold holds. rewrite lookup_fmap, fmap_Some. naive_solver. }
  split_and!.
  - intros id t Ht. eapply Hres, Hk. by exists t.
  - intros room. rewrite (Hh room). setoid_rewrite Hk. done.
  - intros room r Hr pk. cbv zeta. rewrite (Hmatch _ _ Hr pk). replace (count _ _) with (size (filter (λ it, phase_session it.2 = Some (room, pk)) (sy_conns sy))); [done|].
    apply sessions_filter.
Qed.
End sessions.

(** ** Relayed packs *)

Lemma filter_keeps {A} (Q : A → Prop) `{∀ x, Decision (Q x)} (l : list A) : (∀ x, Q x) → filter Q l = l.
Proof. intros HQ. induction l as [|x l IH]; [done|]. rewrite filter_cons_True by done. by rewrite IH. Qed.

(** What the filter relies on: an object of texts that is printed is read back. *)
Definition text_object (fields : list (bytes * bytes)) : Value := jobj ((λ kv, (kv.1, JString kv.2)) <$> fields).
Class TextJsonLaws `{Json, JsonRead} : Prop := parse_text_object : ∀ fields, json_parse (json_print (text_object fields)) = Some (text_object fields).

Section relays.
Context `{Blake3, Blake3Keyed, Postcard Transaction, Ed25519, Postcard (list WireNode), Postcard (list PolicyTimelineEntry), Postcard (list Hash)}.
Context `{Serde RoomLineage, Serde PromotionRecord, Json, JsonRead, EnvelopeJson, ManifestJson, ResponseJson}.
Context `{!EnvelopeJsonLaws, !TextJsonLaws, !PackLaws}.
Context {P : Type} `{NodePersistence P, BlobPersistence P, UrlPersistence P} {W L : Type} `{RateLimiting L}.
Context `{CapsFromValue, Postcard Ibf, !Ed25519Laws, !Blake3Laws}.
Context (backend : bytes) (build_limits : BuildLimits) (server_key : SigningKey).
Context (entries : CapGraph → list (bytes * list bytes)) (profile : result bytes (option CapabilityProfile)).
Context (peer_rate_nodes peer_rate_bytes : Z) (budget : ScopeCatchupBudget).
Implicit Types (c : Conn P W L) (l : Live L) (nodes : list SyncNode) (g : RoomGraph).

(** A pack message: its sender, its nodes, and the root of the graph where it has one;
    and the pack that a client reads from a message. *)
Definition pack_object (from : bytes) nodes (root : option bytes) : Value :=
  text_object ([(bs "type", bs "pack"); (bs "from", from); (bs "nodes", base64_encode (pack_nodes nodes))] ++
    match root with Some root => [(bs "root", root)] | None => [] end).
Definition relay_text (from : bytes) nodes (root : bytes) : bytes :=
  envelope_json (assemble_peer_pack_relay_envelope from (base64_encode (pack_nodes nodes)) root).
Definition reads_pack (text from : bytes) (root : option bytes) nodes : Prop :=
  ∃ v, json_parse text = Some v ∧ str_at "type" v = Some (bs "pack") ∧ str_at "from" v = Some from ∧ str_at "root" v = root ∧
    (b64 ← str_at "nodes" v; b ← base64_decode b64; match unpack_nodes b with Ok ns => Some ns | Err _ => None end) = Some nodes.

Lemma pack_b64 nodes : base64_decode (base64_encode (pack_nodes nodes)) = Some (pack_nodes nodes).
Proof. apply base64_decode_encode, pack_bytes. Qed.
Lemma relay_parses from nodes root : json_parse (relay_text from nodes root) = Some (pack_object from nodes (Some root)).
Proof. unfold relay_text. rewrite json_parse_envelope; [done|]. apply (bool_decide_unpack _). reflexivity. Qed.
Lemma catchup_parses nodes :
  json_parse (serialize_catchup_pack_envelope_json (base64_encode (pack_nodes nodes))) = Some (pack_object (bs "server") nodes None).
Proof. unfold serialize_catchup_pack_envelope_json. rewrite json_parse_envelope; [done|]. apply (bool_decide_unpack _). reflexivity. Qed.
Lemma packed_reads text from root nodes :
  Forall prio_typed nodes → json_parse text = Some (pack_object from nodes root) → reads_pack text from root nodes.
Proof.
  intros Ht Hp. eexists. split; [exact Hp|]. destruct root; (split_and!; [reflexivity..|]);
    change (str_at "nodes" _) with (Some (base64_encode (pack_nodes nodes))); cbn [mbind option_bind]; rewrite pack_b64; cbn [mbind option_bind];
    by rewrite pack_roundtrip.
Qed.

(** The pack of the nodes that the subscription accepts, or nothing. *)
Lemma filter_pack text from nodes root sub :
  Forall prio_typed nodes → json_parse text = Some (pack_object from nodes root) →
  let kept := filter (λ n, accepts_node sub n = true) nodes in
  let o := filter_pack_for_subscriber_with_stats text sub in
  match filtered_env o with
  | None => kept = [] ∧ matches_everything sub = false
  | Some text' =>
      (kept = [] → nodes = []) ∧ reads_pack text' from root kept ∧
      (if matches_everything sub then accepted_count o = 0 ∧ accepted_bytes o = 0
       else accepted_count o = Z.of_nat (length kept) ∧ accepted_bytes o = Z.of_nat (length (pack_nodes kept)))
  end.
Proof.
  intros Ht Hp. cbv zeta. unfold filter_pack_for_subscriber_with_stats. destruct (matches_everything sub) eqn:Es; cbn [filtered_env unfiltered].
  - rewrite filter_keeps by (intros n; unfold accepts_node; by rewrite Es). split_and!; try done. by apply packed_reads.
  - rewrite Hp. set (v := pack_object _ _ _).
    assert (str_at "type" v = Some (bs "pack") ∧ str_at "nodes" v = Some (base64_encode (pack_nodes nodes))) as [-> ->] by (by destruct root).
    rewrite bool_decide_eq_true_2 by done. cbn [negb]. cbv iota. rewrite pack_b64, pack_roundtrip by done.
    set (kept := filter _ nodes). destruct kept as [|n kept'] eqn:Ek; [done|]. rewrite <-Ek. cbn [filtered_env accepted_count accepted_bytes].
    split_and!; [by rewrite Ek| |done..]. apply packed_reads.
    { apply Forall_forall. intros x [_ Hx]%list_elem_of_filter. by eapply Forall_forall in Ht. }
    assert (set_field "nodes" (JString (base64_encode (pack_nodes kept))) v = pack_object from kept root) as -> by (by destruct root).
    apply parse_text_object.
Qed.

Lemma echo_skipped from nodes root pk : should_skip_self_echo_broadcast_envelope (relay_text from nodes root) pk = bool_decide (from = pk).
Proof. unfold should_skip_self_echo_broadcast_envelope. rewrite relay_parses. reflexivity. Qed.
Lemma ws_send_ok text c : cn_sends c = [] → (ws_send text : SE (Conn P W L) bool bool) c =
  (mkConn (cn_rooms c) (cn_io c) (cn_sub c) (cn_node_limiter c) (cn_byte_limiter c) (cn_out c ++ [OutText text]) (cn_bcast c) [], Ok true).
Proof. intros Hs. unfold ws_send, put_out. by rewrite Hs. Qed.

(** C12: a relayed pack reaches a subscriber as exactly its nodes that the subscription
    accepts, in their order and with the sender and root unchanged.  When a session
    that has not fallen behind takes the broadcast of a pack of another peer and its
    sends succeed, it is sent one message, from which a client reads those nodes; if the
    subscription accepts none of them, or the pack is its own, it is sent nothing; the
    session stays open and the server is unchanged. *)
Theorem push_delivers_subscription env l c from nodes root rest :
  lv_lagged l = false → lv_inbox l = relay_text from nodes root :: rest → Forall prio_typed nodes → cn_sends c = [] →
  let kept := filter (λ n, accepts_node (lv_sub l) n = true) nodes in
  ∃ c', on_event backend build_limits server_key env l EvPush c = Some (c', true) ∧ cn_rooms c' = cn_rooms c ∧ cn_io c' = cn_io c ∧
    ((∃ text, cn_out c' = cn_out c ++ [OutText text] ∧ reads_pack text from (Some root) kept ∧ from ≠ si_pubkey_hex (lv_info l) ∧
       (kept = [] → nodes = [])) ∨
     cn_out c' = cn_out c ∧ (from = si_pubkey_hex (lv_info l) ∨ kept = [])).
Proof.
  intros Hlag Hin Ht Hs kept. cbn [on_event]. rewrite Hlag, Hin. unfold push_one. rewrite echo_skipped. case_bool_decide as Ef.
  { exists c. split_and!; try done. right. split; [done|by left]. }
  pose proof (filter_pack _ from nodes (Some root) (lv_sub l) Ht (relay_parses from nodes root)) as Hf. cbv zeta in Hf. fold kept in Hf.
  destruct (filtered_env _) as [text|].
  - erewrite se_bind_ok by by apply ws_send_ok. cbn. eexists. split_and!; [reflexivity|done..|]. left. exists text. destruct Hf as (He & Hr & _).
    by split_and!.
  - exists c. split_and!; try done. right. split; [done|]. right. apply Hf.
Qed.

(** *** The catch-up of a handshake *)

Lemma get_nodes_spec g (ids : gset NodeId) n :
  ok g → n ∈ get_nodes g (elements (list_to_set (all_node_ids g) ∖ ids)) ↔ n ∈ all_nodes g ∧ node_id n ∉ ids.
Proof.
  intros Hok. pose proof (ok_store_keyed g Hok) as Hk. unfold get_nodes. rewrite list_elem_of_omap, elem_of_all_nodes.
  setoid_rewrite elem_of_elements. setoid_rewrite elem_of_difference. setoid_rewrite elem_of_list_to_set. split.
  - intros (i & [Hi Hn] & Hg). rewrite (Hk _ _ Hg). eauto.
  - intros [[i Hg] Hn]. exists i. rewrite (Hk _ _ Hg) in Hn. split_and!; try done. apply ns_all_ids_get. by exists n.
Qed.
(** Without a filter of ids, the server sends what it has and the hello does not name. *)
Lemma hello_diff_plain hello g :
  Token.supports_ibf (negotiate_capabilities (parse_client_capabilities hello)) = false ∨ parse_client_ibf_input hello = IbfMissing →
  (hello_diff hello g).2 = elements ((list_to_set (all_node_ids g) : gset NodeId) ∖ list_to_set (parse_client_frontier_node_ids hello)).
Proof.
  intros Hc. unfold hello_diff, decide_sync_diff. cbv zeta. cbn [negotiated_supports_ibf client_ibf client_known server_ids].
  destruct (Token.supports_ibf _); [|done]. by destruct Hc as [Hc | ->].
Qed.
Lemma welcome_catchup hello r pk peers :
  let nodes := get_nodes (rm_graph r) (hello_diff hello (rm_graph r)).2 in
  let w := welcome_of server_key hello r pk peers in
  catchup_b64 w = base64_encode (pack_nodes nodes) ∧ has_catchup w = (0 <? Z.of_nat (length nodes)).
Proof. unfold welcome_of. by destruct (hello_diff hello (rm_graph r)). Qed.

(** The catch-up is exactly the accepted nodes of a pack, unless it is empty or over the
    budget of a filtered catch-up. *)
Definition over_budget (sub : Subscription) nodes : bool :=
  negb (matches_everything sub) &&
  should_drop_filtered_catchup_for_budget (Z.of_nat (length nodes)) (Z.of_nat (length (pack_nodes nodes))) budget.
Lemma catchup_sends si sub w nodes c :
  catchup_b64 w = base64_encode (pack_nodes nodes) → has_catchup w = (0 <? Z.of_nat (length nodes)) → Forall prio_typed nodes →
  0 <= max_filtered_node_count budget → 0 <= max_filtered_payload_bytes budget → cn_sends c = [] →
  let sent := filter (λ n, accepts_node sub n = true) nodes in
  ∃ c', (send_catchup budget si sub w : SE (Conn P W L) bool bool) c = (c', Ok true) ∧
    if bool_decide (sent = []) || over_budget sub sent then cn_out c' = cn_out c
    else ∃ text, cn_out c' = cn_out c ++ [OutText text] ∧ reads_pack text (bs "server") None sent.
Proof.
  intros Hb Hh Ht Hn Hm Hs sent. unfold send_catchup. rewrite Hh. destruct (decide (nodes = [])) as [->|Hne]; [by exists c|].
  replace (0 <? Z.of_nat (length nodes)) with true by (by destruct nodes). cbv zeta. rewrite Hb.
  pose proof (filter_pack _ (bs "server") nodes None sub Ht (catchup_parses nodes)) as Hf. cbv zeta in Hf. fold sent in Hf.
  set (o := filter_pack_for_subscriber_with_stats _ _) in *. unfold plan_filtered_catchup_send_payload.
  destruct (filtered_env o) as [text|]; [|destruct Hf as [-> _]; by exists c].
  destruct Hf as (He & Hr & Hc). rewrite bool_decide_eq_false_2 by (intros E; by apply Hne, He). cbn [orb].
  assert (should_drop_filtered_catchup_for_budget (accepted_count o) (accepted_bytes o) budget = over_budget sub sent) as ->.
  { unfold over_budget. destruct (matches_everything sub); destruct Hc as [-> ->]; [|done].
    unfold should_drop_filtered_catchup_for_budget. cbn [negb andb]. lia. }
  destruct (over_budget sub sent); [by exists c|]. rewrite ws_send_ok by done. eexists. split; [done|]. by exists text.
Qed.
Lemma get_nodes_NoDup g ids : ok g → NoDup ids → NoDup (get_nodes g ids).
Proof.
  intros Hok. pose proof (ok_store_keyed g Hok) as Hk. unfold get_nodes. induction 1 as [|i ids Hi Hnd IH]; [constructor|]. cbn [omap list_omap].
  destruct (ns_get (g_nodes g) i) as [n|] eqn:E; [|done]. constructor; [|done]. intros (j & Hj & Hg)%list_elem_of_omap.
  apply Hk in E. apply Hk in Hg. congruence.
Qed.
Lemma join_quiet room pk c :
  ∃ c', (join_room room pk : SE (Conn P W L) bool unit) c = (c', Ok tt) ∧ cn_out c' = cn_out c ∧ cn_sends c' = cn_sends c.
Proof. unfold join_room. destruct (register_peer _ _) as [r []]; by eexists. Qed.

(** C13: a handshake catches the client up.  When a hello is accepted, reaches an honest
    graph and reconciles without a filter of ids, and the sends succeed, the session
    opens, and after the welcome the client is sent exactly the nodes of the room that
    its hello does not name and its subscription accepts, each once, in one pack; the
    pack is left out exactly when there is no such node, or when a filtered catch-up is
    over its budget. *)
Theorem handshake_catches_up room text hello now now_secs peers c r l :
  classify_hello_payload text = ValidHello hello →
  char_boundary (extract_hello_pubkey_text hello) (Nat.min 8 (length (extract_hello_pubkey_text hello))) = true →
  rs_rooms (cn_rooms c) !! room = Some r → reachable (rm_graph r) →
  settle_hello server_key entries profile peer_rate_nodes peer_rate_bytes hello r room now_secs = Ok l →
  Token.supports_ibf (si_negotiated (lv_info l)) = false ∨ parse_client_ibf_input hello = IbfMissing →
  0 <= max_filtered_node_count budget → 0 <= max_filtered_payload_bytes budget → cn_sends c = [] → cn_out c = [] →
  ∃ c' sent welcome,
    run_handshake server_key entries profile peer_rate_nodes peer_rate_bytes budget room (FirstText text) now now_secs peers c = (c', Ok (HsOpen l)) ∧
    NoDup sent ∧
    (∀ n, n ∈ sent ↔ n ∈ all_nodes (rm_graph r) ∧ (node_id n ∉ parse_client_frontier_node_ids hello) ∧ accepts_node (lv_sub l) n = true) ∧
    if bool_decide (sent = []) || over_budget (lv_sub l) sent then cn_out c' = [OutText welcome]
    else ∃ pack, cn_out c' = [OutText welcome; OutText pack] ∧ reads_pack pack (bs "server") None sent.
Proof.
  intros Hhello Hcb Hr Hreach Hl Hibf Hn Hm Hs Ho. pose proof (reachable_ok _ Hreach) as Hok. unfold run_handshake. rewrite Hhello. cbv zeta. rewrite Hcb. cbn [negb].
  assert (room_of (cn_rooms c) room = r) as Hro by (unfold room_of; by rewrite Hr).
  rewrite (se_bind_ok (read _) _ c c r) by (unfold read; by rewrite Hro). rewrite Hl.
  set (pk := extract_hello_pubkey_text hello). set (w := welcome_of server_key hello r pk peers).
  assert (si_negotiated (lv_info l) = negotiate_capabilities (parse_client_capabilities hello)) as Hneg.
  { unfold settle_hello in Hl. cbv zeta in Hl. repeat case_match; by simplify_eq. }
  rewrite Hneg in Hibf. pose proof (hello_diff_plain hello (rm_graph r) Hibf) as Hd.
  destruct (welcome_catchup hello r pk peers) as [Hb Hh]. fold w in Hb, Hh. set (nodes := get_nodes (rm_graph r) _) in Hb, Hh.
  assert (∀ n, n ∈ nodes ↔ n ∈ all_nodes (rm_graph r) ∧ node_id n ∉ parse_client_frontier_node_ids hello) as Hin.
  { intros n. unfold nodes. rewrite Hd, get_nodes_spec by done. by rewrite elem_of_list_to_set. }
  destruct (join_quiet room pk c) as (c1 & E1 & O1 & S1). rewrite (se_bind_ok _ _ _ _ _ E1).
  set (c2 := (ws_send (welcome_json w) c1).1).
  assert ((ws_send (welcome_json w) : SE (Conn P W L) bool bool) c1 = (c2, Ok true)) as E2 by (unfold c2; by rewrite ws_send_ok by congruence).
  assert (cn_sends c2 = [] ∧ cn_out c2 = cn_out c1 ++ [OutText (welcome_json w)]) as [S2 O2] by (unfold c2; rewrite ws_send_ok by congruence; split; [done|done]).
  destruct (catchup_sends (lv_info l) (lv_sub l) w nodes c2) as (c3 & E3 & Hout); try done.
  { apply Forall_forall. intros n [Hn' _]%Hin. pose proof (ok_typed_nodes _ Hok) as Ht. by eapply Forall_forall in Ht. }
  assert ((send_welcome budget l w : SE (Conn P W L) bool bool) c1 = (c3, Ok true)) as E4.
  { unfold send_welcome. rewrite (se_bind_ok _ _ _ _ _ E2). cbn [should_terminate_after_send negb]. by rewrite (se_bind_ok _ _ _ _ _ E3). }
  rewrite (se_bind_ok _ _ _ _ _ E4). cbn [negb]. rewrite O2, O1, Ho in Hout.
  exists c3, (filter (λ n, accepts_node (lv_sub l) n = true) nodes), (welcome_json w). split_and!; [done| | |exact Hout].
  - apply NoDup_filter, get_nodes_NoDup; [done|]. rewrite Hd. apply NoDup_elements.
  - intros n. rewrite list_elem_of_filter, Hin. tauto.
Qed.
End relays.
