(* ===== verification/RegistryThms.v ===== *)
(** What the rooms of the server promise: a pack is settled, the live set of the
    blob sweep is exact and the sweep spares it, an evicted room comes back as it
    was; and where they do not keep it: a failed scan is cached, and a room whose
    clock ran far ahead does not survive a restart. *)

From S2P Require Import Prelude Str StErr Hex Op Node Policy Frontier Storage Lww FracIdx ListCrdt Conflicts Caches CacheFacts Fenwick.
From S2P Require Import TextState Text Graph GraphFacts GraphOps GraphBatch Replica Replay Compaction Gc GcStore DirStore DirFacts Persist PersistFacts.
From S2P Require Import TopoStore HostTypes HostState Host HostImport Room Registry RegistryFacts.

Section thms.
Context `{Blake3, Postcard Transaction, Ed25519, Postcard (list WireNode), Postcard (list PolicyTimelineEntry), Postcard (list Hash)}.
Context `{!Ed25519Laws, !Ed25519BatchLaws, Serde RoomLineage, Serde PromotionRecord}.
Context {P : Type} `{PersistContract P} {W : Type} `{AssetInventoryStore W}.
Implicit Types (s : Rooms P W) (room : bytes) (r : Room) (p : P).

Abbreviation get g := (ns_get (g_nodes g)).



(** A room that is not resident is created and hydrated in five stages. *)
Definition batch_graph (g : RoomGraph) (nodes : list SyncNode) : RoomGraph :=
  match nodes with [] => g | _ => (apply_remote_batch g nodes).1 end.
Definition next_stage s room (stage : Hydration) : Hydration :=
  let nodes := (np_load_room_nodes P room (rs_persistence s)).1 in
  match stage with
  | HydrateLoad => HydrateApply nodes (blob_hashes_referenced_by nodes)
  | HydrateApply _ refs => HydrateBlobs refs
  | HydrateBlobs _ => HydrateLineage
  | _ => HydrateFlag
  end.
Lemma hydrate_step_next s room r stage :
  rs_rooms s !! room = Some r → rs_hydrations s !! room = Some stage → stage ≠ HydrateFlag →
  ∃ r', rs_rooms (hydrate_step s room) !! room = Some r' ∧ rs_hydrations (hydrate_step s room) !! room = Some (next_stage s room stage) ∧
    rm_graph r' = match stage with HydrateApply nodes _ => batch_graph (rm_graph r) nodes | _ => rm_graph r end.
Proof.
  intros Hrs Hhs Hne. unfold hydrate_step, next_stage. rewrite Hhs, Hrs. destruct stage as [|nodes refs|refs| |]; [..|done].
  - rewrite pc_durable. destruct (np_load_room_nodes P room (rs_persistence s)) as [nodes p]. exists r. split; [done|]. split; [apply lookup_insert_eq|done].
  - eexists. split; [apply lookup_insert_eq|]. split; [apply lookup_insert_eq|done].
  - destruct (bp_get_blob_hydrates P _); [|exists r; split; [done|]; split; [apply lookup_insert_eq|done]].
    destruct (load_blobs _ _) as [bl p]. eexists. split; [apply lookup_insert_eq|]. split; [apply lookup_insert_eq|done].
  - destruct (get_lineage _ room) as [[l|] ls]; [eexists; split; [apply lookup_insert_eq|]; split; [apply lookup_insert_eq|done]|].
    exists r. split; [done|]. split; [apply lookup_insert_eq|done].
Qed.
Lemma hydrate_completes s room now :
  rs_rooms s !! room = None →
  ∃ r, rs_rooms (hydrate (get_or_create s room now) room) !! room = Some r ∧ rm_hydrated r = true ∧
    rm_graph r = batch_graph empty_graph (np_load_room_nodes P room (rs_persistence s)).1.
Proof.
  intros Hr. unfold get_or_create. cbn [rs_rooms set_handles]. rewrite Hr. set (s1 := set_hydrations _ _).
  assert (rs_rooms s1 !! room = Some (room_new now)) as Hr1 by apply lookup_insert_eq.
  assert (rs_hydrations s1 !! room = Some HydrateLoad) as Hh1 by apply lookup_insert_eq.
  change (rs_persistence s) with (rs_persistence s1). clearbody s1. clear s Hr. unfold hydrate. cbn [Nat.iter].
  destruct (hydrate_step_next _ _ _ _ Hr1 Hh1) as (r2&Hr2&Hh2&E2); [done|]. destruct (hydrate_step_next _ _ _ _ Hr2 Hh2) as (r3&Hr3&Hh3&E3); [done|].
  destruct (hydrate_step_next _ _ _ _ Hr3 Hh3) as (r4&Hr4&Hh4&E4); [done|]. destruct (hydrate_step_next _ _ _ _ Hr4 Hh4) as (r5&Hr5&Hh5&E5); [done|].
  exists (with_hydrated r5 true). assert (∀ s, rs_rooms s !! room = Some r5 → rs_hydrations s !! room = Some HydrateFlag →
    rs_rooms (hydrate_step s room) !! room = Some (with_hydrated r5 true)) as Hlast.
  { intros s Hrs Hhs. unfold hydrate_step. rewrite Hhs, Hrs. apply lookup_insert_eq. }
  split; [by apply Hlast|]. split; [done|]. cbn in E2, E3, E4, E5 |- *. by rewrite E5, E4, E3, E2.
Qed.

(** What a hydrated room holds is what is stored. *)
Lemma hydrated_nodes s room r :
  registry_ok s → rs_rooms s !! room = Some r → rm_hydrated r = true →
  ok (rm_graph r) ∧ (∀ i, is_Some (get (rm_graph r) i) ↔ i ∈ node_id <$> pc_nodes room (rs_persistence s)) ∧
  ∀ i n, get (rm_graph r) i = Some n → n ∈ pc_nodes room (rs_persistence s).
Proof.
  intros Hok Hr Hh. destruct (rg_rooms _ Hok _ _ Hr) as [[arr Hg] Hst Hhy _ Hsg]. rewrite Hh in Hhy. symmetry in Hhy.
  apply bool_decide_eq_true in Hhy. rewrite Hhy in Hsg. split; [by eexists|]. split; [|done]. intros i. split.
  - intros [n Hn]. rewrite <-(ok_keyed _ _ Hg _ _ Hn). by eapply list_elem_of_fmap_2, Hst.
  - intros (n&->&Hn)%list_elem_of_fmap. by apply Hsg.
Qed.


(** What an accepted pack leaves in the graph of a hydrated room is stored. *)
Lemma import_stores s room r ns now_ms r1 n :
  registry_ok s → rs_rooms s !! room = Some r → rm_hydrated r = true →
  rs_rooms (import_into s room ns now_ms) !! room = Some r1 → get (rm_graph r1) (node_id n) = Some n →
  pc_quiet (rs_persistence (import_into s room ns now_ms)) ∧
  NoDup (node_id <$> pc_nodes room (rs_persistence (import_into s room ns now_ms))) ∧
  n ∈ pc_nodes room (rs_persistence (import_into s room ns now_ms)).
Proof.
  intros Hok Hr Hh. unfold import_into. rewrite Hr. pose proof (room_import_spec r room (rs_persistence s) ns now_ms) as Hi.
  destruct (room_import_nodes r room (rs_persistence s) ns now_ms) as [[r' p'] [acc es]].
  destruct Hi as (g'&still&ms&->&_&Ep&[Hav _ _ _ _ _]&_). destruct (hydrated_nodes s room r Hok Hr Hh) as (_&Hids&Hst).
  destruct (pc_persist_nodes room ms (rs_persistence s) (rg_persist _ Hok)) as (_&_&Hq). destruct (Hq (rg_quiet _ Hok)) as (Hq'&En&_).
  assert (pc_quiet p' ∧ pc_nodes room p' = foldl append_new (pc_nodes room (rs_persistence s)) ms) as [Hp' En'].
  { rewrite Ep. destruct ms; [|done]. split; [apply Hok|done]. }
  cbn. rewrite lookup_insert_eq. intros [= <-] Hn. cbn in Hn. rewrite En'. split; [done|].
  split; [apply append_new_NoDup, (rg_store _ Hok room)|]. apply (av_get _ _ _ Hav) in Hn as [Hn|[Hn _]].
  - eapply elem_of_prefix; [by apply (Hst (node_id n))|apply append_new_prefix].
  - assert (node_id n ∈ node_id <$> foldl append_new (pc_nodes room (rs_persistence s)) ms) as Hin.
    { apply append_new_elem. right. by apply list_elem_of_fmap_2. }
    apply list_elem_of_fmap in Hin as (m&E&Hm). pose proof Hm as Hm'. apply append_new_sub in Hm' as [Hm'|Hm'].
    + apply (list_elem_of_fmap_2 node_id) in Hm'. rewrite <-E in Hm'. apply Hids in Hm' as [x Hx]. by rewrite (av_new _ _ _ Hav _ Hn) in Hx.
    + by rewrite (same_id_same ms n m (av_ids _ _ _ Hav) Hn Hm' E).
Qed.
(** The hydrating batch refuses what lies beyond the slack of an empty graph. *)
Lemma far_not_hydrated s room now n :
  rs_rooms s !! room = None → pc_quiet (rs_persistence s) → NoDup (node_id <$> pc_nodes room (rs_persistence s)) →
  n ∈ pc_nodes room (rs_persistence s) → LAMPORT_SLACK < node_lamport n →
  ∃ r, rs_rooms (hydrate (get_or_create s room now) room) !! room = Some r ∧ rm_hydrated r = true ∧ get (rm_graph r) (node_id n) = None.
Proof.
  intros Hr Hq Hnd Hn Hfar. destruct (hydrate_completes s room now Hr) as (r&Hr'&Hh&Eg). exists r. split; [done|]. split; [done|].
  rewrite pc_load in Eg by done. cbn [fst] in Eg. set (ns := pc_nodes room (rs_persistence s)) in *.
  pose proof (batch_arrived empty_graph ns None) as Hb.
  assert (rm_graph r = (apply_remote_batch_checked empty_graph ns None).1) as E.
  { rewrite Eg. unfold batch_graph, apply_remote_batch. destruct ns; [by apply not_elem_of_nil in Hn|done]. }
  destruct (apply_remote_batch_checked empty_graph ns None) as [g' res]. cbn in E. rewrite <-E in Hb. destruct Hb as (ms&Hav&_&Hsub&Hcl).
  destruct (get (rm_graph r) (node_id n)) as [m|] eqn:Em; [|done]. apply (av_get _ _ _ Hav) in Em as [Em|[Hm Eid]].
  { assert (get (empty_graph : RoomGraph) (node_id n) = None) as E0 by apply lookup_empty. by rewrite E0 in Em. }
  assert (m = n) as -> by (eapply (same_id_same ns); [done|by apply Hsub|done|done]). destruct (Hcl n Hm) as [_ Hl].
  unfold lamport_ok in Hl. cbn in Hl. lia.
Qed.

(** C37: a node beyond the lamport slack does not survive a restart. Take a server that
    no fault has touched and whose clocks have been small so far ([server_reachable]),
    and a hydrated room of it that accepts, in a pack, a node whose lamport lies above
    2^20, as it does once its own clock has advanced. The node is in the graph and
    stored; but when the room is loaded again, by a server over that store or after an
    eviction, the ceiling of the hydrating batch is measured against the clock of an
    empty graph: the node is refused, and the room counts as hydrated without it. *)
Theorem far_clock_lost_on_restart s room r ns now_ms r1 n s2 now :
  server_reachable s → rs_rooms s !! room = Some r → rm_hydrated r = true →
  rs_rooms (import_into s room ns now_ms) !! room = Some r1 → get (rm_graph r1) (node_id n) = Some n → LAMPORT_SLACK < node_lamport n →
  rs_persistence s2 = rs_persistence (import_into s room ns now_ms) → rs_rooms s2 !! room = None →
  n ∈ pc_nodes room (rs_persistence s2) ∧
  ∃ r2, rs_rooms (hydrate (get_or_create s2 room now) room) !! room = Some r2 ∧ rm_hydrated r2 = true ∧ get (rm_graph r2) (node_id n) = None.
Proof.
  intros Hok%server_reachable_ok Hr Hh Hr1 Hn Hfar Ep Hr2.
  destruct (import_stores s room r ns now_ms r1 n Hok Hr Hh Hr1 Hn) as (Hq&Hnd&Hin). rewrite <-Ep in Hq, Hnd, Hin.
  split; [done|]. by apply far_not_hydrated.
Qed.

(** The idle sweep evicts exactly the rooms that nobody holds.  On a durable
    backend a room goes when its hydration is done, no tick loop runs, no handler
    has it, no peer is connected, and it has been idle for the timeout; all other
    rooms stay as they are. *)
Theorem idle_eviction_exact s timeout now :
  let '(s', evicted) := sweep_idle s timeout now in
  (∀ room, room ∈ evicted ↔ ∃ r since, rs_rooms s !! room = Some r ∧ rs_hydrations s !! room = None ∧ rm_ticking r = false ∧
     (room ∉ rs_handles s) ∧ rm_connected_peers r = ∅ ∧ rm_idle_since r = Some since ∧ timeout <= Z.max 0 (now - since)) ∧
  (∀ room, rs_rooms s' !! room = if decide (room ∈ evicted) then None else rs_rooms s !! room) ∧
  rs_persistence s' = rs_persistence s.
Proof.
  destruct (sweep_idle_spec s timeout now) as [Er Hin]. destruct (sweep_idle s timeout now) as [s' evicted] eqn:E. cbn in Er, Hin.
  assert (rs_persistence s' = rs_persistence s) as Ep by (unfold sweep_idle in E; destruct (negb _); by injection E as <- <-).
  split; [|split; [|done]].
  - intros room. rewrite Hin. split.
    + intros (r&Hr&Hc). apply candidate_alone in Hc as (?&?&?&?&since&?&?). exists r, since. done.
    + intros (r&since&Hr&Hh&Ht&Hn&Hp&Hi&Hle). exists r. split; [done|]. unfold idle_candidate, strong_count. rewrite Hh, Ht, Hi.
      rewrite (bool_decide_eq_false_2 (room ∈ _)) by done. rewrite (bool_decide_eq_false_2 (is_Some None)) by (by intros []).
      rewrite bool_decide_eq_true_2 by done. cbn. rewrite andb_true_r. by apply Z.leb_le.
  - intros room. rewrite Er. destruct (rs_rooms s !! room) as [r|] eqn:Hr; cycle 1.
    { case_decide; apply map_lookup_filter_None; by left. }
    case_decide as Hd.
    + apply map_lookup_filter_None. right. intros x Hx. apply Hin in Hd as (y&Hy&Hc). rewrite Hx in Hy. injection Hy as <-. cbn. by rewrite Hc.
    + apply map_lookup_filter_Some. split; [done|]. cbn. destruct (idle_candidate s timeout now room r) eqn:Hc; [|done].
      destruct Hd. apply Hin. eauto.
Qed.

(** The import of a pack into a room settles every node of it.  After it a node
    is stored, or fails a check of its own, or waits for a parent that is neither
    stored nor came with the pack; and what was accepted is written through in an
    order in which parents come first. *)
Theorem room_import_settles r room p ns now :
  ok (rm_graph r) → Forall prio_typed ns →
  let '(r', p', (accepted, errors)) := room_import_nodes r room p ns now in
  ok (rm_graph r') ∧
  (∀ n, n ∈ ns → is_Some (get (rm_graph r') (node_id n)) ∨
     (∃ m, m ∈ ns ∧ node_id m = node_id n ∧ unclean (Some now) (rm_graph r) m) ∨
     (∃ m q, m ∈ ns ∧ node_id m = node_id n ∧ q ∈ node_parents m ∧ get (rm_graph r') q = None)) ∧
  (∃ ms, accepted = node_id <$> ms ∧ after (λ i, is_Some (get (rm_graph r) i)) ms ∧
     (∀ i, is_Some (get (rm_graph r') i) ↔ is_Some (get (rm_graph r) i) ∨ i ∈ accepted) ∧
     p' = match ms with [] => p | _ => np_persist_nodes P room ms p end).
Proof.
  intros Hok Hty. pose proof (room_import_spec r room p ns now) as Hi.
  destruct (room_import_nodes r room p ns now) as [[r' p'] [acc es]]. destruct Hi as (g'&still&ms&->&->&->&[Hav Hgr Hsub Hh Hall Hst]&Hg).
  split; [by apply Hg|]. split.
  - intros n Hn. destruct (Hall (node_id n)) as [?|[Hs|(m&?&?&?)]]; [by apply list_elem_of_fmap_2|by left| |right; left; eauto].
    right. right. destruct (Hst _ Hs) as (m&q&?&?&?&?). eauto 10.
  - exists ms. split; [done|]. split; [apply Hav|]. split; [|done]. intros i. by apply arrived_stored.
Qed.
End thms.

(** ** On the directory backend *)

Section dir.
Context `{Blake3, Zstd, Postcard (list WireNode), !PostcardLaws (list WireNode)}.
Implicit Types (s : DirState) (room : bytes).

Definition quietly s : DirState := mkDir (dir_nodes s) (dir_last_seq s) (dir_blobs s) (dir_tombs s) [].

(** A failed scan is cached as if the room had no blobs.  The version query and
    the load are two calls, and a load that fails returns no nodes: the empty set
    is stored under the current version, and every later sweep takes it for the
    hashes of the room, although no later call fails and the rows are there, until
    the room is written to again. *)
Theorem failed_scan_is_cached s room v e c out out' :
  dir_io s = [None; Some e] → (room_nodes_version (quietly s) room).1 = Some v → cold_live_get c room v = None →
  let '(out1, c1, s1) := cold_room (P := DirState) (out, c, s) room in
  out1 = out ∧ dir_io s1 = [] ∧ load_rows s1 room = load_rows s room ∧
  cold_room (P := DirState) (out', c1, s1) room = (out', count_cold_hit c1, s1).
Proof.
  intros Eio Hv Hc. destruct s as [nodes q blobs tombs io]. cbn in Eio. subst io.
  unfold cold_room at 1. cbn [np_room_nodes_version dir_node_persistence].
  assert (room_nodes_version (mkDir nodes q blobs tombs [None; Some e]) room = (Some v, mkDir nodes q blobs tombs [Some e])) as ->.
  { unfold room_nodes_version in *. cbn in *. by rewrite <-Hv. }
  cbn [mbind option_bind]. rewrite Hc. cbn [np_load_room_nodes load_room_nodes dir_node_persistence io dir_io].
  assert (blob_hashes_referenced_by [] = ∅) as -> by done. rewrite (right_id_L ∅ (∪)). split; [done|]. split; [done|]. split; [done|].
  assert (room_nodes_version (mkDir nodes q blobs tombs []) room = (Some v, mkDir nodes q blobs tombs [])) as Ev.
  { unfold room_nodes_version in *. cbn in *. by rewrite <-Hv. }
  unfold cold_room. cbn [dir_nodes dir_last_seq dir_blobs dir_tombs np_room_nodes_version dir_node_persistence]. rewrite Ev.
  cbn [mbind option_bind]. unfold cold_live_get, cold_live_put. cbn. rewrite lookup_insert_eq, Z.eqb_refl. by rewrite (right_id_L ∅ (∪)).
Qed.

(** Whatever grace is configured, also none, a blob that no sweep has marked yet
    is not deleted by the sweep that first finds it unreferenced: the floor under
    the grace keeps the marking and the deletion in two separate sweeps, under any
    schedule of I/O errors. *)
Theorem first_sight_only_marks {W} (cfg : BlobCompressionConfig) (s : Rooms DirState W) live now grace names h :
  byte_array 32 h → dir_tombs (rs_persistence s) !! tombstone_name h = None →
  has_blob (rs_persistence (@physical_sweep _ (dir_blob_persistence cfg) _ s live now grace names).1) h = has_blob (rs_persistence s) h.
Proof.
  intros Hh Ht. unfold physical_sweep. cbn [bp_blob_gc_sweep dir_blob_persistence].
  pose proof (sweep_first_sight live now (Z.max grace MIN_PHYSICAL_GRACE) names (rs_persistence s) h Hh Ht) as Hf.
  destruct (blob_gc_sweep _ _ _ _ _) as [p d]. cbn in *. apply files_has; [done|]. apply Hf. unfold MIN_PHYSICAL_GRACE. lia.
Qed.
End dir.
