(* ===== verification/TopoThms.v ===== *)
(** What the room families and promotions of the server promise: the walk to the
    ancestors ends, creating a child is all or nothing, the records and commits of
    promotions are justified under every interleaving; and where they fall short: an evicted child can be given another parent,
    and what is written after a promotion is lost on a restart. *)

From S2P Require Import Prelude Str StErr Hex Op Node Policy Frontier Storage Lww FracIdx ListCrdt Conflicts Caches CacheFacts Fenwick.
From S2P Require Import TextState Text Graph GraphFacts GraphOps GraphBatch Replica Replay Compaction Gc GcStore DirStore Persist.
From S2P Require Import TopoStore HostTypes HostState Host HostImport Room Registry RegistryFacts RegistryThms Topology Promotion.

(** ** The walk to the ancestors *)

Section walk.
Implicit Types (rooms : gmap bytes Room) (seen : gset bytes).

Lemma size_insert_seen rooms seen (x : bytes) :
  seen ⊆ dom rooms → x ∉ seen → x ∈ dom rooms → (size ({[x]} ∪ seen) = S (size seen) ∧ S (size seen) <= size rooms)%nat.
Proof.
  intros Hs Hn Hx. assert (size ({[x]} ∪ seen) = S (size seen)) as E by (rewrite size_union by set_solver; by rewrite size_singleton).
  split; [done|]. rewrite <-E, <-size_dom. apply subseteq_size. set_solver.
Qed.
(** Fuel beyond the rooms not yet seen changes nothing. *)
Lemma ancestors_fuel rooms seen fuel fuel' cursor :
  seen ⊆ dom rooms → (size rooms - size seen < fuel)%nat → (size rooms - size seen < fuel')%nat →
  ancestors_from fuel rooms seen cursor = ancestors_from fuel' rooms seen cursor.
Proof.
  revert seen fuel' cursor. induction fuel as [|fuel IH]; intros seen [|fuel'] cursor Hs Hf Hf'; try lia. cbn [ancestors_from].
  destruct cursor as [lin|]; [|done]. case_decide as Hd; [done|]. f_equal.
  destruct (rooms !! ln_parent_room_id lin) as [r|] eqn:E; [|by destruct fuel, fuel'].
  destruct (size_insert_seen rooms seen (ln_parent_room_id lin)) as [Esz Hle]; [done|done|by apply elem_of_dom_2 in E|].
  apply IH; [apply elem_of_dom_2 in E; set_solver|lia|lia].
Qed.

(** A chain of lineages from [cursor] on, each the lineage of the resident parent of the one before. *)
Fixpoint lineage_chain rooms (cursor : option RoomLineage) (l : list RoomLineage) : Prop :=
  match l with
  | [] => True
  | lin :: l => cursor = Some lin ∧ lineage_chain rooms (rooms !! ln_parent_room_id lin ≫= rm_lineage) l
  end.
Fixpoint chain_end rooms (cursor : option RoomLineage) (l : list RoomLineage) : option RoomLineage :=
  match l with [] => cursor | lin :: l => chain_end rooms (rooms !! ln_parent_room_id lin ≫= rm_lineage) l end.
Lemma ancestors_chain rooms seen fuel cursor : lineage_chain rooms cursor (ancestors_from fuel rooms seen cursor).
Proof.
  revert seen cursor. induction fuel as [|fuel IH]; intros seen cursor; [done|]. cbn. destruct cursor as [lin|]; [|done].
  case_decide; [done|]. split; [done|apply IH].
Qed.
Lemma ancestors_fresh rooms seen fuel cursor :
  NoDup (ln_parent_room_id <$> ancestors_from fuel rooms seen cursor) ∧
  ∀ x, x ∈ ln_parent_room_id <$> ancestors_from fuel rooms seen cursor → x ∉ seen.
Proof.
  revert seen cursor. induction fuel as [|fuel IH]; intros seen cursor; cbn [ancestors_from].
  { split; [apply NoDup_nil_2|by intros x ?%not_elem_of_nil]. }
  destruct cursor as [lin|]; [|split; [apply NoDup_nil_2|by intros x ?%not_elem_of_nil]].
  case_decide as Hd; [split; [apply NoDup_nil_2|by intros x ?%not_elem_of_nil]|].
  destruct (IH ({[ln_parent_room_id lin]} ∪ seen) (rooms !! ln_parent_room_id lin ≫= rm_lineage)) as [Hnd Hf]. rewrite fmap_cons. split.
  - apply NoDup_cons. split; [|done]. intros Hx%Hf. set_solver.
  - intros x [->|Hx]%elem_of_cons; [done|]. apply Hf in Hx. set_solver.
Qed.
(** Where it ends there is no lineage, or a parent met before. *)
Lemma ancestors_end rooms seen fuel cursor :
  seen ⊆ dom rooms → (size rooms - size seen < fuel)%nat →
  match chain_end rooms cursor (ancestors_from fuel rooms seen cursor) with
  | None => True
  | Some lin => ln_parent_room_id lin ∈ seen ∨ ln_parent_room_id lin ∈ ln_parent_room_id <$> ancestors_from fuel rooms seen cursor
  end.
Proof.
  revert seen cursor. induction fuel as [|fuel IH]; intros seen cursor Hs Hf; [lia|]. cbn [ancestors_from].
  destruct cursor as [lin|]; [|done]. case_decide as Hd; [by left|]. cbn [chain_end fmap list_fmap].
  destruct (rooms !! ln_parent_room_id lin) as [r|] eqn:E; cycle 1.
  { cbn. by destruct fuel. }
  destruct (size_insert_seen rooms seen (ln_parent_room_id lin)) as [Esz Hle]; [done|done|by apply elem_of_dom_2 in E|].
  specialize (IH ({[ln_parent_room_id lin]} ∪ seen) (Some r ≫= rm_lineage)). destruct (chain_end _ _ _) as [l|]; [|done].
  destruct IH as [IH|IH]; [apply elem_of_dom_2 in E; set_solver|lia| |right; by right].
  apply elem_of_union in IH as [->%elem_of_singleton|?]; [right; by left|by left].
Qed.
End walk.

Section thms.
Context `{Blake3, Postcard Transaction, Ed25519, Postcard (list WireNode), Postcard (list PolicyTimelineEntry), Postcard (list Hash)}.
Context `{!Ed25519Laws, !Ed25519BatchLaws, Serde RoomLineage, Serde PromotionRecord, !SerdeLaws RoomLineage, !SerdeLaws PromotionRecord, Json}.
Context {P : Type} `{PersistContract P} {W : Type} `{AssetInventoryStore W}.
Implicit Types (s : Rooms P W) (room parent child id : bytes) (r : Room) (p : P).
Abbreviation get g := (ns_get (g_nodes g)).

(** C39: the description of a resident room's lineage ends, cycles of parents included,
    and, as long as no room changes while it walks, it is complete: the ancestors form
    a chain from the room's own lineage through resident parents, no parent comes
    twice, the chain stops only where the parent is not resident, has no lineage, or
    was met before, and more iterations than there are rooms would add nothing. *)
Theorem lineage_walk_complete s room r :
  rs_rooms s !! room = Some r →
  ∃ d, describe_lineage room s = (s, Ok d) ∧ ld_lineage d = rm_lineage r ∧
    lineage_chain (rs_rooms s) (rm_lineage r) (ld_ancestors d) ∧
    NoDup (ln_parent_room_id <$> ld_ancestors d) ∧
    match chain_end (rs_rooms s) (rm_lineage r) (ld_ancestors d) with
    | None => True
    | Some lin => ln_parent_room_id lin ∈ ln_parent_room_id <$> ld_ancestors d
    end ∧
    ∀ fuel, (size (rs_rooms s) < fuel)%nat → ancestors_from fuel (rs_rooms s) ∅ (rm_lineage r) = ld_ancestors d.
Proof.
  intros Hr. unfold describe_lineage, read, mbind, se_bind. rewrite Hr. eexists. split; [done|]. cbn [ld_lineage ld_ancestors].
  split; [done|]. split; [apply ancestors_chain|]. split; [apply ancestors_fresh|]. split.
  - pose proof (ancestors_end (rs_rooms s) ∅ (S (S (size (rs_rooms s)))) (rm_lineage r)) as He. destruct (chain_end _ _ _); [|done].
    destruct He as [?%elem_of_empty|?]; [set_solver|lia|done|done].
  - intros fuel Hf. apply ancestors_fuel; [set_solver|lia|lia].
Qed.

(** ** Creating a child *)

Lemma enter_resident s room r now : rs_rooms s !! room = Some r → enter room now s = s.
Proof. intros Hr. unfold enter, get_or_create. cbn [rs_rooms set_handles]. rewrite Hr. by destruct s. Qed.
Lemma enter_fresh s room now : rs_rooms s !! room = None →
  enter room now s = set_hydrations (set_room s room (room_new now)) (<[room := HydrateLoad]> (rs_hydrations s)).
Proof. intros Hr. unfold enter, get_or_create. cbn [rs_rooms set_handles]. rewrite Hr. by destruct s. Qed.
Lemma room_of_resident s room r : rs_rooms s !! room = Some r → room_of s room = r.
Proof. unfold room_of. by intros ->. Qed.

(** The state a new child leaves behind. *)
Definition child_created s parent child (l : RoomLineage) (now : Instant) : Rooms P W :=
  let s := enter child now s in
  let s := set_room s child (with_lineage (room_new now) (Some l)) in
  push_child (set_lineage_store s (upsert_lineage (rs_lineage_store s) child l)) parent child.
Lemma create_child_spec s parent child expected purpose by_ policy now :
  create_child_room parent child expected purpose by_ policy now s =
  match rs_rooms s !! parent, rs_rooms s !! child with
  | None, _ => (s, Err (mkLineageRejected ParentNotFound (bs "parent room not found: " ++ parent)))
  | Some _, Some _ => (s, Err (mkLineageRejected ChildAlreadyExists (bs "child room already exists: " ++ child)))
  | Some r, None =>
      match snapshot_parent_checkpoint r with
      | Err e => (s, Err e)
      | Ok actual =>
          if decide (pcp_canonical_hash actual ≠ pcp_canonical_hash expected)
          then (s, Err (mkLineageRejected ParentCheckpointMismatch (bs "parent canonical_hash does not match declared parent_checkpoint")))
          else if timelines_differ expected actual
          then (s, Err (mkLineageRejected ParentCheckpointMismatch (bs "parent policy_timeline_hash does not match current parent timeline")))
          else
            let l := mkLineage parent expected purpose by_ (g_lamport (rm_graph r)) policy in
            (child_created s parent child l now, Ok (mkChildCreated child l))
      end
  end.
Proof.
  unfold create_child_room. cbn [mbind se_bind read]. unfold mbind, se_bind at 1, read at 1.
  destruct (rs_rooms s !! parent) as [r|] eqn:Hp; [|done]. destruct (rs_rooms s !! child) as [c|] eqn:Hc; [done|].
  unfold enter_room, modify, read, lift. cbn [se_bind]. unfold mbind, se_bind.
  rewrite (enter_resident s parent r now Hp), (room_of_resident s parent r Hp).
  destruct (snapshot_parent_checkpoint r) as [actual|e]; [|done]. case_decide; [done|]. destruct (timelines_differ expected actual); [done|].
  assert (room_of (enter child now s) child = room_new now) as ->; [|done].
  unfold room_of. rewrite enter_fresh by done. cbn. by rewrite lookup_insert_eq.
Qed.

(** What a declared checkpoint has to agree with. *)
Definition creatable s parent child (expected : ParentCheckpoint) (r : Room) : Prop :=
  rs_rooms s !! parent = Some r ∧ rs_rooms s !! child = None ∧
  ∃ actual, snapshot_parent_checkpoint r = Ok actual ∧ pcp_canonical_hash actual = pcp_canonical_hash expected ∧
    timelines_differ expected actual = false.

(** C28: creating a child room is all or nothing, as long as the lineage store does not
    fail and no other handler runs in between. It succeeds exactly when the parent is
    resident, the child is not, and the declared checkpoint is the parent's canonical
    hash and, where given, its policy timeline; then a fresh child room with that
    lineage is added, the lineage is stored, and the child is appended to the parent's
    indexed children unless it is among them already, of which only the latest, as many
    as the cap says, are kept. A refusal changes nothing at all. *)
Theorem create_child_outcome s parent child expected purpose by_ policy now :
  lineage_store_ok (rs_lineage_store s) →
  let '(s', res) := create_child_room parent child expected purpose by_ policy now s in
  match res with
  | Err _ => s' = s ∧ ∀ r, ¬ creatable s parent child expected r
  | Ok c =>
      ∃ r, creatable s parent child expected r ∧
        cc_child_room_id c = child ∧ cc_lineage c = mkLineage parent expected purpose by_ (g_lamport (rm_graph r)) policy ∧
        rs_rooms s' = <[child := with_lineage (room_new now) (Some (cc_lineage c))]> (rs_rooms s) ∧
        lineages (rs_lineage_store s') = <[child := cc_lineage c]> (lineages (rs_lineage_store s)) ∧
        (let before := default [] (rs_children_index s !! parent) in
         rs_children_index s' = <[parent := bounded (rs_children_cap s) (if decide (child ∈ before) then before else before ++ [child])]> (rs_children_index s)) ∧
        rs_persistence s' = rs_persistence s
  end.
Proof.
  intros Hls. rewrite create_child_spec. unfold creatable.
  destruct (rs_rooms s !! parent) as [r|] eqn:Hp; [|split; naive_solver].
  destruct (rs_rooms s !! child) as [c|] eqn:Hc; [split; naive_solver|]. destruct (snapshot_parent_checkpoint r) as [actual|e] eqn:Ea; [|split; [done|]; intros r'; naive_solver congruence].
  case_decide as Hd; [split; [done|]; intros r'; naive_solver congruence|]. destruct (timelines_differ expected actual) eqn:Et; [split; [done|]; intros r'; naive_solver congruence|]. cbv zeta. set (l := mkLineage _ _ _ _ _ _).
  exists r. unfold child_created. rewrite enter_fresh by done. cbn. rewrite insert_insert_eq.
  split; [split; [done|]; split; [done|]; by exists actual|]. do 3 (split; [done|]).
  by split; [apply upsert_lineage_ok|].
Qed.

(** The lineage of a child is not set once.  Only resident rooms are asked whether
    the child exists, so a child that has been evicted (or not yet been loaded since a
    restart) can be created again under another parent: its stored lineage is replaced,
    and the former parent no longer lists it. *)
Theorem evicted_child_reparented s parent child r actual old purpose by_ policy now :
  lineage_store_ok (rs_lineage_store s) → rs_rooms s !! parent = Some r → rs_rooms s !! child = None →
  snapshot_parent_checkpoint r = Ok actual →
  lineages (rs_lineage_store s) !! child = Some old → ln_parent_room_id old ≠ parent →
  let '(s', res) := create_child_room parent child actual purpose by_ policy now s in
  (∃ c, res = Ok c) ∧
  (∃ l, lineages (rs_lineage_store s') !! child = Some l ∧ ln_parent_room_id l = parent) ∧
  child ∉ (lineage_list_children (rs_lineage_store s') (ln_parent_room_id old)).1.
Proof.
  intros Hls Hp Hc Ea Hold Hne. rewrite create_child_spec, Hp, Hc, Ea. rewrite decide_False by (by intros ?).
  assert (timelines_differ actual actual = false) as ->.
  { unfold timelines_differ. destruct (pcp_policy_timeline_hash actual); [|done]. by rewrite bool_decide_true. }
  split; [by eexists|]. unfold child_created. rewrite enter_fresh by done. cbn. set (l := mkLineage _ _ _ _ _ _).
  destruct (upsert_lineage_ok (rs_lineage_store s) child l Hls) as [Hls' El]. split.
  - exists l. rewrite El. by rewrite lookup_insert_eq.
  - intros Hin. apply list_children_ok in Hin as (l'&Hl'&Hpl); [|done]. rewrite El, lookup_insert_eq in Hl'. by injection Hl' as <-.
Qed.

(** ** Promotions under interleaving *)

Abbreviation Task := (Task (P := P) (W := W)).
Abbreviation PM := (SE (Rooms P W) PromotionRejected).

(** A task that nothing interrupts is the handler. *)
Lemma run_act {A X} (m : PM X) seen (k : X → Task A) s : run (Act m seen k) s = (m ≫= λ x, run (k x)) s.
Proof. done. Qed.
Lemma run_entering {A} room now (k : Task A) s : run (entering room now k) s = run k (enter room now s).
Proof. done. Qed.
Lemma bind_after {A B} (m : PM A) (f g : A → PM B) s : (∀ x s', f x s' = g x s') → (m ≫= f) s = (m ≫= g) s.
Proof. intros Hfg. unfold mbind, se_bind. destruct (m s) as [s' [x|e]]; [apply Hfg|done]. Qed.
Lemma se_bind_assoc {A B C} (m : PM A) (f : A → PM B) (g : B → PM C) s : ((m ≫= f) ≫= g) s = (m ≫= λ x, f x ≫= g) s.
Proof. unfold mbind, se_bind. by destruct (m s) as [s' [x|e]]. Qed.
Lemma enter_then_hash {A} room now (k : bytes → Task A) (f : bytes → PM A) s :
  (∀ h s', run (k h) s' = f h s') →
  run (entering room now (look room k)) s = (enter_room room now ≫= λ r, hash_of_room r ≫= f) s.
Proof.
  intros Hk. rewrite run_entering. unfold look. rewrite run_act. unfold hash_at, enter_room, modify, read, mbind, se_bind.
  destruct (hash_of_room _ _) as [s' [h|e]]; [apply Hk|done].
Qed.
Lemma run_lineage {A} child parent now (k : RoomLineage → Task A) (f : RoomLineage → PM A) s :
  (∀ l s', run (k l) s' = f l s') → run (lineage_task child parent now k) s = (load_child_lineage child parent now ≫= f) s.
Proof.
  intros Hk. unfold lineage_task, load_child_lineage. rewrite run_entering. unfold await. rewrite run_act. unfold lineage_of, read, mbind, se_bind.
  destruct (rm_lineage (room_of (enter child now s) child)) as [l|] eqn:El.
  - case_decide; [apply Hk|done].
  - rewrite run_act. unfold mbind, se_bind. destruct (get_lineage _ child) as [[l|] ls]; [|done]. rewrite run_act. unfold modify, mbind, se_bind.
    case_decide; [|done]. apply Hk.
Qed.
Ltac alone := first [ apply run_lineage; intros ? ? | apply enter_then_hash; intros ? ? | apply bind_after; intros ? ? | case_decide; [done|] ].
Lemma propose_new_alone parent child h payload key now s :
  run (propose_new_task parent child h payload key now) s = propose_new parent child h payload key now s.
Proof.
  unfold propose_new_task, propose_new. do 5 alone. unfold lookup_record. rewrite run_act. alone. case_match; [by destruct (_ || _)|done].
Qed.
Lemma propose_alone msg now s : run (propose_task msg now) s = process_topology_propose_promotion msg now s.
Proof.
  unfold propose_task, process_topology_propose_promotion. unfold mbind, se_bind, lift, parsed.
  repeat (case_match; [|done]). case_match; [|apply propose_new_alone]. unfold lookup_record. rewrite run_act. unfold mbind, se_bind.
  destruct (stored _ _) as [s' [[x|]|e]]; [by destruct (same_proposal _ _ _ _)|apply propose_new_alone|done].
Qed.

Lemma validate_alone msg now s : run (validate_task msg now) s = process_topology_validate_promotion msg now s.
Proof.
  unfold validate_task, process_topology_validate_promotion, parsed. unfold lift at 1. unfold mbind at 1, se_bind at 1.
  destruct (require_str _ _) as [id|e]; [|done]. unfold lookup_record. rewrite run_act. unfold validate_check. rewrite se_bind_assoc.
  alone. case_match; [|done]. case_decide; [done|]. rewrite se_bind_assoc. alone. rewrite se_bind_assoc.
  erewrite (bind_after (enter_room _ _)) by (intros; apply se_bind_assoc). alone. case_decide; [done|]. rewrite se_bind_assoc.
  erewrite (bind_after (enter_room _ _)) by (intros; apply se_bind_assoc). alone. by case_decide.
Qed.
Lemma apply_alone sk msg now s : run (apply_task sk msg now) s = process_topology_apply_promotion sk msg now s.
Proof.
  unfold apply_task, process_topology_apply_promotion, parsed. unfold lift at 1. unfold mbind at 1, se_bind at 1.
  destruct (require_str _ _) as [id|e]; [|done]. unfold lookup_record. rewrite run_act. unfold apply_check. rewrite se_bind_assoc.
  alone. case_match; [|done]. case_decide; [done|]. case_decide; [done|]. rewrite se_bind_assoc.
  erewrite (bind_after (enter_room _ _)) by (intros; apply se_bind_assoc). alone. case_decide; [done|]. rewrite run_act.
  unfold apply_commit. change (mret (inr ?x) ≫= ?f) with (f (inr x)). cbv beta iota. alone. unfold look. rewrite run_act. unfold hash_at. rewrite se_bind_assoc. done.
Qed.

(** *** The pool

    Any number of handlers, each at some await, and the log of what they saw and did,
    latest first, each entry with the number of its task. *)
Definition AnyTask : Type := {A : Type & Task A}.
Record Pool := mkPool { po_rooms : Rooms P W; po_tasks : gmap nat AnyTask; po_log : list (nat * Event) }.
Definition note (t : nat) (e : option Event) (log : list (nat * Event)) : list (nat * Event) :=
  match e with Some e => (t, e) :: log | None => log end.
(** One action of a task: what it leaves of the rooms and of itself, and what it notes. *)
Definition task_act (task : AnyTask) s : Rooms P W * AnyTask * option Event :=
  match task with
  | existT A (Done r) => (s, existT A (Done r), None)
  | existT A (Act m seen k) =>
      match m s with
      | (s, Ok x) => (s, existT A (k x), seen x)
      | (s, Err e) => (s, existT A (Done (Err e)), None)
      end
  end.
Inductive handler : AnyTask → Prop :=
| h_propose msg now : handler (existT _ (propose_task msg now))
| h_validate msg now : handler (existT _ (validate_task msg now))
| h_apply sk msg now : handler (existT _ (apply_task sk msg now)).
(** A message arrives, a task acts, a task ends or is dropped, and anything else
    happens to the server that writes no record: it may lose some, as a restart
    without a durable store does. *)
Inductive pool_step : Pool → Pool → Prop :=
| po_call s tasks log t task : handler task → tasks !! t = None → t ∉ log.*1 →
    pool_step (mkPool s tasks log) (mkPool s (<[t := task]> tasks) log)
| po_act s tasks log t task s' task' e : tasks !! t = Some task → task_act task s = (s', task', e) →
    pool_step (mkPool s tasks log) (mkPool s' (<[t := task']> tasks) (note t e log))
| po_drop s tasks log t : pool_step (mkPool s tasks log) (mkPool s (delete t tasks) log)
| po_other s tasks log s' : promotions (rs_promotion_store s') ⊆ promotions (rs_promotion_store s) →
    pool_step (mkPool s tasks log) (mkPool s' tasks log).

(** What one task noted, latest first. *)
Definition own (t : nat) (log : list (nat * Event)) : list Event := (filter (λ e, e.1 = t) log).*2.
Definition same_inputs (x y : PromotionRecord) : Prop :=
  prd_parent_room_id x = prd_parent_room_id y ∧ prd_child_room_id x = prd_child_room_id y ∧
  prd_child_checkpoint_hash x = prd_child_checkpoint_hash y ∧ prd_payload_ref x = prd_payload_ref y ∧
  prd_parent_canonical_hash_at_propose x = prd_parent_canonical_hash_at_propose y ∧ prd_proposal_digest x = prd_proposal_digest y.
Definition saw_parent (x : PromotionRecord) : Event := SawHash (prd_parent_room_id x) (prd_parent_canonical_hash_at_propose x).
Definition saw_child (x : PromotionRecord) : Event := SawHash (prd_child_room_id x) (prd_child_checkpoint_hash x).

(** A record was proposed: its digest and id are those of its inputs, and one task saw
    the child at the checkpoint, and then the parent at the hash of the proposal. *)
Definition proposed log id (x : PromotionRecord) : Prop :=
  (∃ key, prd_proposal_digest x = proposal_digest (prd_parent_room_id x) (prd_child_room_id x) (prd_child_checkpoint_hash x) (prd_payload_ref x) key ∧
     id = default (prd_proposal_digest x) key) ∧
  ∃ t, [saw_parent x; saw_child x] `suffix_of` own t log.
(** It was validated: one task read a record of these inputs, saw the child at the
    checkpoint again, and then the parent at the hash of the proposal again. *)
Definition validated log id (x : PromotionRecord) : Prop :=
  prd_parent_canonical_hash_at_validate x = Some (prd_parent_canonical_hash_at_propose x) ∧
  prd_validation_digest x = Some (validation_digest id (prd_proposal_digest x) (prd_parent_canonical_hash_at_propose x)) ∧
  ∃ t y, same_inputs x y ∧ [saw_parent x; saw_child x; SawRecord id y] `suffix_of` own t log.
(** It was applied: one task read the validated record, saw the parent at the hash of
    the proposal, committed the audit node, and then saw the parent at the new hash. *)
Definition applied log id (x : PromotionRecord) : Prop :=
  ∃ t y new_hash, x = applied_record y new_hash (AUDIT_KEY_PREFIX ++ id) ∧ prd_lifecycle y = Validated ∧
    [SawHash (prd_parent_room_id x) new_hash; Committed id y; saw_parent x; SawRecord id y] `suffix_of` own t log.
Definition justified log id (x : PromotionRecord) : Prop :=
  proposed log id x ∧
  match prd_lifecycle x with
  | Proposed => prd_parent_canonical_hash_at_validate x = None ∧ prd_validation_digest x = None
  | Validated => validated log id x
  | Applied => validated log id x ∧ applied log id x
  end ∧
  (prd_lifecycle x ≠ Applied → prd_parent_new_canonical_hash x = None ∧ prd_audit_key x = None).
Definition store_justified log s : Prop := ∀ id x, promotions (rs_promotion_store s) !! id = Some x → justified log id x.
(** A commit is of a validated record, by a task that has read it and seen its parent
    at the hash of the proposal, and done nothing else. *)
Definition commit_justified (t : nat) log id (x : PromotionRecord) : Prop :=
  justified log id x ∧ prd_lifecycle x = Validated ∧ own t log = [saw_parent x; SawRecord id x].

Lemma own_note t e log : own t (note t e log) = option_list e ++ own t log.
Proof. destruct e as [e|]; [|done]. unfold own. cbn [note]. by rewrite filter_cons_True. Qed.
Lemma own_note_ne t t' e log : t' ≠ t → own t (note t' e log) = own t log.
Proof. intros Hne. destruct e as [e|]; [|done]. unfold own. cbn [note]. by rewrite filter_cons_False. Qed.
Lemma own_suffix t log log' : log `suffix_of` log' → own t log `suffix_of` own t log'.
Proof. intros [l ->]. unfold own. rewrite filter_app, fmap_app. by eexists. Qed.
Lemma own_new t log : t ∉ log.*1 → own t log = [].
Proof.
  intros Ht. unfold own. induction log as [|[t' e] log IH]; [done|]. rewrite fmap_cons in Ht. cbn in Ht.
  rewrite filter_cons_False by set_solver. apply IH. set_solver.
Qed.
Lemma note_suffix t e log : log `suffix_of` note t e log.
Proof. destruct e as [e|]; [by exists [(t, e)]|done]. Qed.
Lemma justified_later log log' id x : log `suffix_of` log' → justified log id x → justified log' id x.
Proof.
  intros Hs ((Hk&t&Ht)&Hl&Hn). assert (∀ t l, l `suffix_of` own t log → l `suffix_of` own t log') as Hm.
  { intros t' l Hl'. etrans; [exact Hl'|by apply own_suffix]. }
  assert (validated log id x → validated log' id x) as Hv by (intros (?&?&t'&y&?&?); unfold validated; eauto 10).
  assert (applied log id x → applied log' id x) as Ha by (intros (t'&y&h&?&?&?); unfold applied; eauto 10).
  split; [split; [done|]; eauto|]. split; [|done]. destruct (prd_lifecycle x); tauto.
Qed.

(** *** What a task may do *)

(** The log went on, and the task did not act. *)
Definition extends (t : nat) (log log' : list (nat * Event)) : Prop := log `suffix_of` log' ∧ own t log' = own t log.
(** Whatever happens in between, every action of the task leaves the records justified,
    and its commits are. *)
Fixpoint task_ok {A} (t : nat) (log : list (nat * Event)) (task : Task A) : Prop :=
  match task with
  | Done _ => True
  | Act m seen k => ∀ log' s, extends t log log' → store_justified log' s →
      match m s with
      | (s', Ok x) =>
          store_justified (note t (seen x) log') s' ∧ (∀ id y, seen x = Some (Committed id y) → commit_justified t log' id y) ∧
          task_ok t (note t (seen x) log') (k x)
      | (s', Err _) => store_justified log' s'
      end
  end.
Lemma extends_trans t l1 l2 l3 : extends t l1 l2 → extends t l2 l3 → extends t l1 l3.
Proof. intros [Hs1 E1] [Hs2 E2]. split; [by etrans|congruence]. Qed.
Lemma task_ok_later {A} t log log' (task : Task A) : extends t log log' → task_ok t log task → task_ok t log' task.
Proof. destruct task as [r|X m seen k]; [done|]. cbn. intros He Hok log'' s He'. apply Hok. by eapply extends_trans. Qed.
Lemma store_later log log' s s' :
  log `suffix_of` log' → promotions (rs_promotion_store s') ⊆ promotions (rs_promotion_store s) → store_justified log s → store_justified log' s'.
Proof. intros Hs Hp Hj id x Hx. eapply justified_later; [done|]. apply Hj. by eapply lookup_weaken. Qed.

(** An action that writes no record. *)
Definition writes_none {X} (m : PM X) : Prop := ∀ s, promotions (rs_promotion_store (m s).1) = promotions (rs_promotion_store s).
Lemma act_ok {A X} t log (m : PM X) seen (k : X → Task A) :
  writes_none m → (∀ x id y, seen x ≠ Some (Committed id y)) →
  (∀ x log', extends t log log' → task_ok t (note t (seen x) log') (k x)) → task_ok t log (Act m seen k).
Proof.
  intros Hm Hc Hk log' s He Hs. specialize (Hm s). destruct (m s) as [s' [x|e]]; cbn in Hm.
  - split; [|split; [|by apply Hk]]; [|intros id y Hin; by destruct (Hc x id y)]. eapply store_later; [apply note_suffix| |exact Hs]. by rewrite Hm.
  - eapply store_later; [done| |exact Hs]. by rewrite Hm.
Qed.
Lemma await_ok {A X} t log (m : PM X) (k : X → Task A) :
  writes_none m → (∀ x log', extends t log log' → task_ok t log' (k x)) → task_ok t log (await m k).
Proof. intros Hm Hk. apply act_ok; [done|done|]. intros x log' He. by apply Hk. Qed.
Lemma entering_ok {A} t log room now (k : Task A) : task_ok t log k → task_ok t log (entering room now k).
Proof.
  intros Hk. apply await_ok; [|intros _ log' He; by eapply task_ok_later]. intros s. cbn. unfold enter, get_or_create. cbn. by destruct (rs_rooms s !! room).
Qed.
Lemma look_ok {A} t log room (k : bytes → Task A) :
  (∀ h log', extends t log log' → task_ok t (note t (Some (SawHash room h)) log') (k h)) → task_ok t log (look room k).
Proof.
  intros Hk. apply act_ok; [|done|exact Hk]. intros s. unfold hash_at, read, hash_of_room, lift, mbind, se_bind.
  by destruct (match snapshot_room_canonical_hash _ with Ok h => _ | Err e => _ end).
Qed.
Lemma lineage_ok {A} t log child parent now (k : RoomLineage → Task A) :
  (∀ l log', extends t log log' → task_ok t log' (k l)) → task_ok t log (lineage_task child parent now k).
Proof.
  intros Hk. apply entering_ok. apply await_ok; [done|]. intros [l|] log1 He1; [case_decide; [by apply Hk|done]|].
  apply await_ok; [intros s; by destruct (get_lineage _ _)|]. intros [l|] log2 He2; [|done]. apply await_ok; [done|]. intros _ log3 He3.
  case_decide; [|done]. apply Hk. eapply extends_trans; [|done]. by eapply extends_trans.
Qed.
(** The store may fail: then nothing is read, and nothing written. *)
Lemma get_sound ps id : promotions (promotion_get ps id).2 = promotions ps ∧ ∀ x, (promotion_get ps id).1 = Some x → promotions ps !! id = Some x.
Proof.
  destruct ps as [m|rows io]; [done|]. cbn. destruct (sql_next io) as [[] io']; cbn; (split; [done|]); [|done]. intros x Hx. by rewrite lookup_omap.
Qed.
Lemma insert_sound ps id x : promotions (promotion_insert ps id x) = promotions ps ∨ promotions (promotion_insert ps id x) = <[id := x]> (promotions ps).
Proof.
  destruct ps as [m|rows io]; [by right|]. cbn. destruct (sql_next io) as [[] io']; [right|by left]. cbn. by rewrite (omap_insert_Some _ _ _ _ x) by apply from_to_json.
Qed.
Lemma record_ok {A} t log id (k : option PromotionRecord → Task A) :
  (∀ log', extends t log log' → task_ok t log' (k None)) →
  (∀ x log', extends t log log' → justified log' id x → task_ok t (note t (Some (SawRecord id x)) log') (k (Some x))) →
  task_ok t log (lookup_record id k).
Proof.
  intros Hn Hx log' s He Hs. unfold stored. destruct (get_sound (rs_promotion_store s) id) as [Ep Ex]. destruct (promotion_get _ id) as [r ps]. cbn in Ep, Ex.
  split; [|split].
  - eapply store_later; [apply note_suffix| |exact Hs]. cbn. by rewrite Ep.
  - by destruct r.
  - destruct r as [x|]; [|by apply Hn]. apply Hx; [done|]. apply Hs. by apply Ex.
Qed.
Lemma write_ok {A} t log id x (a : result PromotionRejected A) :
  (∀ log', extends t log log' → justified log' id x) → task_ok t log (await (store_update id x) (λ _, Done a)).
Proof.
  intros Hj log' s He Hs. cbn. split; [|done].
  intros id' y. cbn. unfold promotion_update. destruct (insert_sound (rs_promotion_store s) id x) as [E|E]; rewrite E; [apply Hs|].
  destruct (decide (id = id')) as [->|Hne]; [rewrite lookup_insert_eq; intros [= <-]; by apply Hj|]. rewrite lookup_insert_ne by done. apply Hs.
Qed.

(** *** The handlers *)

Lemma extends_own t log log' l : extends t log log' → own t log = l → own t log' = l.
Proof. intros [_ E]. congruence. Qed.
Lemma own_noted t e l log : own t log = l → own t (note t (Some e) log) = e :: l.
Proof. intros E. by rewrite own_note, E. Qed.
Lemma extends_justified t log log' id x : extends t log log' → justified log id x → justified log' id x.
Proof. intros [Hs _]. by apply justified_later. Qed.
Lemma noted_justified t e log id x : justified log id x → justified (note t e log) id x.
Proof. apply justified_later, note_suffix. Qed.

Lemma propose_new_ok t log parent child h payload key now :
  own t log = [] → task_ok t log (propose_new_task parent child h payload key now).
Proof.
  intros Ho. apply lineage_ok. intros lin log1 E1'. pose proof (extends_own _ _ _ _ E1' Ho) as E1. case_decide; [done|]. apply entering_ok, look_ok. intros h1 log2 E2.
  pose proof (own_noted t (SawHash child h1) _ _ (extends_own _ _ _ _ E2 E1)) as O2. case_decide as Hh; [done|]. subst h1.
  apply entering_ok, look_ok. intros h2 log3 E3. pose proof (own_noted t (SawHash parent h2) _ _ (extends_own _ _ _ _ E3 O2)) as O3.
  cbv zeta. apply record_ok; [|intros x log4 _ _; by destruct (_ || _)]. intros log4 E4. apply write_ok. intros log5 E5.
  pose proof (extends_own _ _ _ _ E5 (extends_own _ _ _ _ E4 O3)) as O5. split; [|done]. split; [by exists key|]. exists t. by rewrite O5.
Qed.
Lemma propose_task_ok t log msg now : own t log = [] → task_ok t log (propose_task msg now).
Proof.
  intros Ho. unfold propose_task, parsed. do 4 (case_match; [|done]). case_match; [|by apply propose_new_ok]. apply record_ok.
  - intros log' E. apply propose_new_ok. by eapply extends_own.
  - intros x log' _ _. by destruct (same_proposal _ _ _ _).
Qed.
Lemma validate_task_ok t log msg now : own t log = [] → task_ok t log (validate_task msg now).
Proof.
  intros Ho. unfold validate_task, parsed. destruct (require_str _ _) as [id|e]; [|done]. apply record_ok; [done|]. intros x log0 E0 J0.
  case_decide as Hl; [done|]. pose proof (own_noted t (SawRecord id x) _ _ (extends_own _ _ _ _ E0 Ho)) as O0.
  apply lineage_ok. intros lin log1 E1. pose proof (extends_own _ _ _ _ E1 O0) as O1.
  pose proof (extends_justified _ _ _ _ _ E1 (noted_justified t (Some (SawRecord id x)) _ _ _ J0)) as J1. apply entering_ok, look_ok. intros h1 log2 E2.
  pose proof (own_noted t (SawHash (prd_child_room_id x) h1) _ _ (extends_own _ _ _ _ E2 O1)) as O2.
  pose proof (noted_justified t (Some (SawHash (prd_child_room_id x) h1)) _ _ _ (extends_justified _ _ _ _ _ E2 J1)) as J2. case_decide as Hc; [done|]. subst h1.
  apply entering_ok, look_ok. intros h2 log3 E3. pose proof (own_noted t (SawHash (prd_parent_room_id x) h2) _ _ (extends_own _ _ _ _ E3 O2)) as O3.
  pose proof (noted_justified t (Some (SawHash (prd_parent_room_id x) h2)) _ _ _ (extends_justified _ _ _ _ _ E3 J2)) as J3. case_decide as Hp; [done|]. subst h2.
  apply write_ok. intros log4 E4. pose proof (extends_own _ _ _ _ E4 O3) as O4. destruct (extends_justified _ _ _ _ _ E4 J3) as ((Hk&Ht)&_&Hn).
  split; [done|]. split; [|intros _; by apply Hn]. split; [done|]. split; [done|]. exists t, x. rewrite O4. done.
Qed.
Lemma apply_task_ok t log sk msg now : own t log = [] → task_ok t log (apply_task sk msg now).
Proof.
  intros Ho. unfold apply_task, parsed. destruct (require_str _ _) as [id|e]; [|done]. apply record_ok; [done|]. intros x log0 E0 J0.
  cbv zeta. case_decide as Hl; [done|]. case_decide as Hv; [done|]. pose proof (own_noted t (SawRecord id x) _ _ (extends_own _ _ _ _ E0 Ho)) as O0.
  apply entering_ok, look_ok. intros h1 log1 E1. pose proof (own_noted t (SawHash (prd_parent_room_id x) h1) _ _ (extends_own _ _ _ _ E1 O0)) as O1.
  pose proof (noted_justified t (Some (SawHash (prd_parent_room_id x) h1)) _ _ _ (extends_justified _ _ _ _ _ E1 (noted_justified t (Some (SawRecord id x)) _ _ _ J0))) as J1.
  assert (prd_parent_canonical_hash_at_validate x = Some (prd_parent_canonical_hash_at_propose x)) as Hat.
  { destruct J0 as (_&J&_). rewrite Hv in J. apply J. }
  case_decide as Hp; [done|]. rewrite Hat in Hp. cbn in Hp. subst h1.
  intros log2 s E2 Hs. pose proof (extends_own _ _ _ _ E2 O1) as O2. pose proof (extends_justified _ _ _ _ _ E2 J1) as J2.
  unfold commit_audit_node. destruct (apply_local _ _ _ _) as [g [i|er]]; [|exact Hs].
  split; [eapply store_later; [apply note_suffix| |exact Hs]; done|]. split.
  { by intros id' y [= <- <-]. }
  apply look_ok. intros h2 log3 E3. pose proof (own_noted t (SawHash (prd_parent_room_id x) h2) _ _ (extends_own _ _ _ _ E3 (own_noted t (Committed id x) _ _ O2))) as O3.
  pose proof (noted_justified t (Some (SawHash (prd_parent_room_id x) h2)) _ _ _ (extends_justified _ _ _ _ _ E3 (noted_justified t (Some (Committed id x)) _ _ _ J2))) as J3.
  apply write_ok. intros log4 E4. pose proof (extends_own _ _ _ _ E4 O3) as O4. destruct (extends_justified _ _ _ _ _ E4 J3) as (Hpr&J&_). rewrite Hv in J.
  split; [exact Hpr|]. split; [|done]. split; [exact J|]. exists t, x, h2. split; [done|]. split; [done|]. rewrite O4. done.
Qed.
Lemma handler_ok t log task : handler task → t ∉ log.*1 → task_ok t log (projT2 task).
Proof. intros [msg now|msg now|sk msg now] Ht%own_new; [by apply propose_task_ok|by apply validate_task_ok|by apply apply_task_ok]. Qed.

Record pool_ok (c : Pool) : Prop := {
  pk_store : store_justified (po_log c) (po_rooms c);
  pk_tasks : ∀ t task, po_tasks c !! t = Some task → task_ok t (po_log c) (projT2 task);
  pk_commits : ∀ later t id x before, po_log c = later ++ (t, Committed id x) :: before → commit_justified t before id x;
}.
Lemma task_act_ok t log (task : AnyTask) s s' task' e :
  task_ok t log (projT2 task) → store_justified log s → task_act task s = (s', task', e) →
  store_justified (note t e log) s' ∧ (∀ id y, e = Some (Committed id y) → commit_justified t log id y) ∧ task_ok t (note t e log) (projT2 task').
Proof.
  destruct task as [A [r|X m seen k]]; cbn.
  - by intros _ Hs [= <- <- <-].
  - intros Hok Hs. specialize (Hok log s). destruct (m s) as [s1 [x|er]]; intros [= <- <- <-]; [by apply Hok|]. split; [by apply Hok|done].
Qed.
Lemma note_commit t e log later t' id x before :
  note t e log = later ++ (t', Committed id x) :: before →
  (t' = t ∧ e = Some (Committed id x) ∧ before = log) ∨ ∃ later', log = later' ++ (t', Committed id x) :: before.
Proof.
  destruct e as [e|]; [|by right; eexists]. destruct later as [|y later]; cbn; [intros [= -> -> ->]; by left|intros [= _ ->]; right; by eexists].
Qed.
Lemma pool_step_ok c c' : pool_step c c' → pool_ok c → pool_ok c'.
Proof.
  intros Hst [Hs Ht Hc]. destruct Hst as [s tasks log t task Hh Hn Hf|s tasks log t task s' task' e Hin Ha|s tasks log t|s tasks log s' Hsub]; cbn in *.
  - split; cbn; [done| |done]. intros t' task' [[<- <-]|[_ ?]]%lookup_insert_Some; [by apply handler_ok|by apply Ht].
  - destruct (task_act_ok t log task s s' task' e (Ht _ _ Hin) Hs Ha) as (Hs'&Hco&Hok). split; cbn; [done|..].
    + intros t' task'' [[<- <-]|[Hne Hin']]%lookup_insert_Some; [done|]. eapply task_ok_later; [|by apply Ht]. split; [apply note_suffix|by apply own_note_ne].
    + intros later t' id x before [(->&He&->)|[later' E]]%note_commit; [by apply Hco|by eapply Hc].
  - split; cbn; [done| |done]. intros t' task' [_ ?]%lookup_delete_Some. by apply Ht.
  - split; cbn; [|done|done]. by eapply store_later.
Qed.

(** C17: promotions hold up under every interleaving of their handlers. From a server
    without stored promotions, any number of proposals, validations and applications
    run at once, each cut at every await, the rooms change in between in any way, and
    the record store may fail at any read or write, or lose records. Then every stored
    record is justified by what some task saw: its digest and id are those of its
    inputs, its proposer saw the child at the checkpoint and then the parent at the
    recorded hash; a validated one carries that hash and the digest of it, and its
    validator read a record of the same inputs and saw the child and the parent at the
    same hashes again; an applied one carries the audit key, and its task committed the
    audit node before it saw the recorded new hash. And every audit node committed is
    that of a validated, justified record, by a task that read it and then saw the
    parent at the very hash of the proposal. *)
Theorem promotions_justified s c :
  promotions (rs_promotion_store s) = ∅ → rtc pool_step (mkPool s ∅ []) c →
  (∀ id x, promotions (rs_promotion_store (po_rooms c)) !! id = Some x → justified (po_log c) id x) ∧
  (∀ later t id x before, po_log c = later ++ (t, Committed id x) :: before → commit_justified t before id x).
Proof.
  intros He Hr. assert (pool_ok (mkPool s ∅ [])) as Hok.
  { split; cbn; [|done|by intros []]. intros id x Hx. cbn in Hx. by rewrite He in Hx. }
  remember (mkPool s ∅ []) as c0 eqn:E. clear E He. induction Hr as [c|c1 c2 c3 Hst _ IH]; [by destruct Hok|]. by apply IH, (pool_step_ok c1).
Qed.

(** ** What is written after a promotion *)

(** A stored node one of whose parents is not stored does not come back. *)
Lemma orphan_not_hydrated s room now n q :
  rs_rooms s !! room = None → pc_quiet (rs_persistence s) → Forall prio_typed (pc_nodes room (rs_persistence s)) →
  NoDup (node_id <$> pc_nodes room (rs_persistence s)) → n ∈ pc_nodes room (rs_persistence s) →
  q ∈ node_parents n → q ∉ node_id <$> pc_nodes room (rs_persistence s) →
  ∃ r, rs_rooms (hydrate (get_or_create s room now) room) !! room = Some r ∧ rm_hydrated r = true ∧
    get (rm_graph r) q = None ∧ get (rm_graph r) (node_id n) = None.
Proof.
  intros Hr Hq Hty Hnd Hn Hpar Hout. destruct (hydrate_completes s room now Hr) as (r&Hr'&Hh&Eg). exists r. split; [done|]. split; [done|].
  rewrite pc_load in Eg by done. cbn [fst] in Eg. set (ns := pc_nodes room (rs_persistence s)) in *.
  assert (ok (empty_graph : RoomGraph)) as Hok0 by (exists []; apply graph_ok_empty; intros i; apply lookup_empty).
  pose proof (ok_batch empty_graph ns None Hok0 Hty) as Hok. pose proof (batch_arrived empty_graph ns None) as Hb.
  assert (rm_graph r = (apply_remote_batch_checked empty_graph ns None).1) as E.
  { rewrite Eg. unfold batch_graph, apply_remote_batch. destruct ns; [by apply not_elem_of_nil in Hn|done]. }
  rewrite <-E in Hok. destruct (apply_remote_batch_checked empty_graph ns None) as [g' res]. cbn in E. rewrite <-E in Hb.
  destruct Hb as (ms&Hav&_&Hsub&_). assert (∀ i m, get (rm_graph r) i = Some m → m ∈ ns ∧ node_id m = i) as Hin.
  { intros i m [Hi|[Hm <-]]%(av_get _ _ _ Hav); [|split; [by apply Hsub|done]].
    assert (get (empty_graph : RoomGraph) i = None) as E0 by apply lookup_empty. rewrite E0 in Hi. done. }
  assert (get (rm_graph r) q = None) as Hgq.
  { destruct (get (rm_graph r) q) as [m|] eqn:Em; [|done]. apply Hin in Em as [Hm <-]. destruct Hout. by apply list_elem_of_fmap_2. }
  split; [done|]. destruct (get (rm_graph r) (node_id n)) as [m|] eqn:Em; [|done]. pose proof (Hin _ _ Em) as [Hm Eid].
  assert (m = n) as -> by (by eapply same_id_same). destruct Hok as [arr Hg]. pose proof (ok_parents _ _ Hg _ _ _ Em Hpar) as Hx.
  rewrite Hgq in Hx. by destruct Hx.
Qed.

Definition audit_node (g : RoomGraph) (sk : SigningKey) id (x : PromotionRecord) : SyncNode :=
  local_node g sk 0 [OpMap (MapSet (AUDIT_KEY_PREFIX ++ id) (audit_payload id x))].

Lemma apply_commit_state s room r id sk x a s1 :
  rs_rooms s !! room = Some r → prd_parent_room_id x = room → ok (rm_graph r) → g_lamport (rm_graph r) < u64_max →
  apply_commit id sk x s = (s1, Ok a) →
  ∃ g1, room_of s1 room = with_graph r g1 ∧ rs_persistence s1 = rs_persistence s ∧
    admitted (rm_graph r) (audit_node (rm_graph r) sk id x) false g1 ∧ ok g1.
Proof.
  intros Hr Hx Hok Hlt. unfold apply_commit, mbind, se_bind, commit_audit_node. rewrite Hx, (room_of_resident s room r Hr).
  pose proof (apply_local_spec (rm_graph r) sk 0 [OpMap (MapSet (AUDIT_KEY_PREFIX ++ id) (audit_payload id x))] Hok Hlt) as Hs. cbv zeta in Hs.
  pose proof (ok_local (rm_graph r) sk 0 [OpMap (MapSet (AUDIT_KEY_PREFIX ++ id) (audit_payload id x))] Hok Hlt) as Hg.
  destruct (apply_local _ _ _ _) as [g1 [i|e]]; [|done]. destruct Hs as [_ Hadm]. unfold read, hash_of_room, lift, store_update, modify, mret, se_ret.
  destruct (match snapshot_room_canonical_hash _ with Ok h => _ | Err e => _ end) as [h|e]; [|done]. intros [= <- _].
  exists g1. split; [unfold room_of; cbn; by rewrite lookup_insert_eq|]. done.
Qed.
Lemma tick_commit_state r room p sk w ws r2 p2 pack :
  ok (rm_graph r) → g_lamport (rm_graph r) < u64_max → tick_commit r room p sk (w :: ws) = (r2, p2, Some pack) →
  let n := local_node (rm_graph r) sk 0 (tick_op <$> w :: ws) in
  admitted (rm_graph r) n false (rm_graph r2) ∧ p2 = np_persist_node P room n p.
Proof.
  intros Hok Hlt. unfold tick_commit. set (os := tick_op <$> w :: ws). pose proof (apply_local_spec (rm_graph r) sk 0 os Hok Hlt) as Hs. cbv zeta in Hs |- *.
  destruct (apply_local _ _ _ _) as [g2 [i|e]]; [|done]. destruct Hs as [-> Hadm]. pose proof Hadm as (_&_&Hget).
  unfold get_nodes. cbn [omap list_omap]. rewrite Hget, decide_True by done. by intros [= <- <- _].
Qed.

(** C26: what a room writes after a promotion is lost, also on a server that no fault
    has touched and whose clocks are small ([server_reachable], lamports below 2^20).
    Applying a promotion puts the audit node into the resident graph only; it is never
    persisted. The room's next tick builds on it and is persisted, and when the room is
    loaded again, after an eviction or a restart, neither the audit node nor the tick's
    node comes back: its parent is missing, and the hydration drops it silently. *)
Theorem writes_after_promotion_lost s room r id sk x a s1 sk' w ws r2 p2 pack s3 now :
  server_reachable s → rs_rooms s !! room = Some r → rm_hydrated r = true → prd_parent_room_id x = room →
  g_lamport (rm_graph r) < LAMPORT_SLACK → apply_commit id sk x s = (s1, Ok a) →
  g_lamport (rm_graph (room_of s1 room)) < LAMPORT_SLACK →
  tick_commit (room_of s1 room) room (rs_persistence s1) sk' (w :: ws) = (r2, p2, Some pack) →
  rs_persistence s3 = p2 → rs_rooms s3 !! room = None →
  let audit := audit_node (rm_graph r) sk id x in
  let n := local_node (rm_graph (room_of s1 room)) sk' 0 (tick_op <$> w :: ws) in
  (get (rm_graph r2) (node_id audit) = Some audit ∧ get (rm_graph r2) (node_id n) = Some n ∧ n ∈ pc_nodes room p2) ∧
  ∃ r3, rs_rooms (hydrate (get_or_create s3 room now) room) !! room = Some r3 ∧ rm_hydrated r3 = true ∧
    get (rm_graph r3) (node_id audit) = None ∧ get (rm_graph r3) (node_id n) = None.
Proof.
  intros Hreach%server_reachable_ok Hr Hh Hx Hlt Hc Hlt1 Ht Hp3 Hr3 audit n.
  assert (∀ z, z < LAMPORT_SLACK → z < u64_max) as Hbig by (unfold LAMPORT_SLACK, u64_max; lia).
  destruct (hydrated_nodes s room r Hreach Hr Hh) as (Hok&Hids&_).
  destruct (apply_commit_state s room r id sk x a s1 Hr Hx Hok (Hbig _ Hlt) Hc) as (g1&Er1&Ep1&Hadm1&Hok1). rewrite Er1, Ep1 in *. cbn [rm_graph with_graph] in *.
  assert (n = local_node g1 sk' 0 (tick_op <$> w :: ws)) as En0 by (unfold n; by rewrite Er1). clearbody n.
  destruct (tick_commit_state (with_graph r g1) _ _ _ _ _ _ _ _ Hok1 (Hbig _ Hlt1) Ht) as [Hadm2 Ep2]. cbn [rm_graph with_graph] in Hadm2, Ep2.
  rewrite <-En0 in Hadm2, Ep2. fold audit in Hadm1. pose proof Hadm1 as (Hcore1&Hnew1&Hget1). pose proof Hadm2 as (_&Hnew2&Hget2).
  destruct (pc_persist_node room n (rs_persistence s) (rg_persist _ Hreach)) as (_&_&Hq). destruct (Hq (rg_quiet _ Hreach)) as (Hq2&En&_).
  destruct (rg_store _ Hreach room) as [Hnd _ Hso].
  assert (node_id n ∉ node_id <$> pc_nodes room (rs_persistence s)) as Hfresh.
  { intros [m Hm]%Hids. rewrite Hget1 in Hnew2. case_decide; [done|]. by rewrite Hm in Hnew2. }
  assert (node_id audit ∉ node_id <$> pc_nodes room (rs_persistence s)) as Haud.
  { intros [m Hm]%Hids. by rewrite Hnew1 in Hm. }
  assert (node_id audit ≠ node_id n) as Hne by (intros E; rewrite Hget1, <-E, decide_True in Hnew2; done).
  unfold append_new in En. rewrite decide_False in En by done. rewrite <-Ep2 in En, Hq2. split.
  - rewrite !Hget2, (decide_True (P:=node_id n = node_id n)) by done. rewrite decide_False by done. rewrite Hget1, decide_True by done.
    rewrite En. split; [done|]. split; [done|]. apply elem_of_app. right. by left.
  - rewrite <-Hp3 in En, Hq2. apply orphan_not_hydrated; rewrite ?En; try done.
    + apply Forall_app. split; [|constructor; [rewrite En0; by apply local_node_sound|done]]. eapply Forall_impl; [exact Hso|]. by intros m [].
    + rewrite fmap_app. apply NoDup_app. split; [done|]. split; [|apply NoDup_singleton]. intros i Hi ->%list_elem_of_singleton. done.
    + apply elem_of_app. right. by left.
    + rewrite En0. unfold node_parents. rewrite local_node_tx. cbn. apply elem_of_elements. rewrite (sc_leaves _ _ Hcore1). cbn. set_solver.
    + rewrite fmap_app. intros [?|E%list_elem_of_singleton]%elem_of_app; done.
Qed.
End thms.
