(* ===== verification/HostExamples.v ===== *)
(** The host engine on concrete commands: where its theorems apply, and the order
    in which text is read. *)

From S2P Require Import Prelude Str StErr Hex Op Node Policy Frontier Storage Lww FracIdx ListCrdt Conflicts Caches CacheFacts Fenwick.
From S2P Require Import TextState Text Graph GraphFacts GraphOps GraphBatch Replica Replay Token Mst Toy.
From S2P Require Import HostTypes HostState Host HostFacts HostText HostImport HostThms.

(** ** A codec for packs *)

Fixpoint to_bits (p : positive) : bytes :=
  match p with xH => [2] | xO p => 0 :: to_bits p | xI p => 1 :: to_bits p end.
Fixpoint of_bits (b : bytes) : option positive :=
  match b with
  | [2] => Some xH
  | 0 :: b => xO <$> of_bits b
  | 1 :: b => xI <$> of_bits b
  | _ => None
  end.
Lemma of_to_bits p : of_bits (to_bits p) = Some p.
Proof. induction p as [p IH|p IH|]; cbn; [by rewrite IH..|done]. Qed.
Lemma to_bits_u8 p : Forall is_u8 (to_bits p).
Proof. induction p; cbn; repeat constructor; done. Qed.

Definition typed_node (n : SyncNode) : bool :=
  (0 <=? node_lamport n) && (node_lamport n <=? u64_max) && bool_decide (byte_array 32 (tx_author (node_tx n))).
Lemma typed_node_spec n : typed_node n = true ↔ prio_typed n.
Proof.
  unfold typed_node, prio_typed, is_u64. rewrite !andb_true_iff, !Z.leb_le, bool_decide_eq_true. unfold u64_max. split; intros [[] ?] || intros []; split; try done; lia.
Qed.
#[local] Instance Bits_Postcard : Postcard (list WireNode) := {|
  pc_to := λ ws, to_bits (encode ws);
  pc_from := λ b,
    match of_bits b ≫= decode with
    | Some ws => if forallb (λ w, typed_node (node_of_wire w)) ws then Ok ws else Err b
    | None => Err b
    end;
|}.
#[local] Instance Bits_PackLaws : PackLaws.
Proof.
  split.
  - intros ns. apply to_bits_u8.
  - intros ns Ht. unfold unpack_nodes, pack_nodes. cbn. rewrite of_to_bits. cbn. rewrite decode_encode.
    assert (node_of_wire <$> (wire_of_node <$> ns) = ns) as E.
    { rewrite <-list_fmap_compose. rewrite (list_fmap_ext _ id) by (intros; apply node_of_wire_of_node). apply list_fmap_id. }
    assert (forallb (λ w, typed_node (node_of_wire w)) (wire_of_node <$> ns) = true) as ->; [|by rewrite E].
    apply Is_true_true, forallb_True, Forall_fmap, (Forall_impl _ _ _ Ht). intros n Hn. cbn. rewrite node_of_wire_of_node.
    by apply Is_true_true, typed_node_spec.
  - intros b ns. unfold unpack_nodes. cbn. destruct (of_bits b ≫= decode) as [ws|]; [|done].
    destruct (forallb _ ws) eqn:E; [|done]. intros [= <-]. apply Forall_fmap. apply Is_true_true, forallb_True in E.
    eapply Forall_impl; [exact E|]. intros w Hw. cbn in Hw. by apply typed_node_spec, Is_true_true.
Qed.
#[local] Instance Toy_Json : Json := λ v, bs "value".
#[local] Instance no_urls : BlobUrls := None.

(** ** Engines *)

Definition rm : bytes := bs "room".
Definition run (room : bytes) (cs : list HostCommand) (s : HostEngine) : HostEngine :=
  foldl (λ s c, (host_apply (mkEnvelope room c) s).1) s cs.
Lemma run_reachable room cs s : host_reachable s → host_reachable (run room cs s).
Proof. revert s. induction cs as [|c cs IH]; intros s Hs; [done|]. cbn. apply IH. by apply host_step. Qed.

Lemma known_room (room : bytes) s : bool_decide (room ∈ rooms s) = true → room ∈ rooms s.
Proof. apply bool_decide_eq_true_1. Qed.

(** Two engines with a node of the room each. *)
Definition engine_with (n : SyncNode) : HostEngine :=
  run rm [CmdEnsureRoom; CmdImportPack (base64_encode (pack_nodes [n]))] host_default.
Lemma engine_nodes_1 : all_nodes (graph_of rm (engine_with toy_n1)) = [toy_n1].
Proof. vm_refl. Qed.
Lemma engine_nodes_2 : all_nodes (graph_of rm (engine_with toy_n2)) = [toy_n2].
Proof. vm_refl. Qed.

Lemma toy_clean (n : SyncNode) (s : HostEngine) :
  n ∈ [toy_n1; toy_n2] → g_lamport (graph_of rm s) = 1 → g_policy (graph_of rm s) = policy_default →
  clean None (g_lamport (graph_of rm s)) (g_policy (graph_of rm s)) n.
Proof.
  intros Hn -> ->. apply elem_of_cons in Hn as [-> | ->%list_elem_of_singleton];
    (split; [vm_refl|by vm_compute|done|vm_refl|apply check_policy_ok; vm_refl]).
Qed.

Lemma host_invariant_witness :
  host_ok (run rm [CmdEnsureRoom; CmdOpenSession 1 (bs "peer"); CmdPresenceSet 1 (JBool true) None None; CmdMapSet [] (bs "k") (JBool true);
                   CmdTextInsert [] (bs "t") None [104]] host_default).
Proof. apply host_invariant, run_reachable, host_start. Defined.

Lemma host_exchange_converges_witness :
  ∃ packA packB rootA rootB sA1 sB1 sA2 sB2 eA eB,
    host_apply (mkEnvelope rm (CmdRequestServerPack [to_hex (node_id toy_n2)])) (engine_with toy_n1) =
      (sA1, Ok [EvServerPackPrepared rm packA rootA]) ∧
    host_apply (mkEnvelope rm (CmdRequestServerPack [])) (engine_with toy_n2) = (sB1, Ok [EvServerPackPrepared rm packB rootB]) ∧
    host_apply (mkEnvelope rm (CmdImportPack packB)) sA1 = (sA2, Ok eA) ∧
    host_apply (mkEnvelope rm (CmdImportPack packA)) sB1 = (sB2, Ok eB) ∧
    same_ids (graph_of rm sA2) (graph_of rm sB2).
Proof.
  assert (∀ n, host_reachable (engine_with n)) as Hreach by (intros n; apply run_reachable, host_start).
  destruct (host_exchange_converges (engine_with toy_n1) (engine_with toy_n2) rm [] [to_hex (node_id toy_n2)])
    as (pA&pB&rA&rB&sA1&sB1&sA2&sB2&eA&eB&H1&H2&H3&H4&H5&_).
  - apply Hreach.
  - apply Hreach.
  - done.
  - apply known_room. vm_refl.
  - apply known_room. vm_refl.
  - intros h i Hh. destruct (not_elem_of_nil _ Hh).
  - intros h i ->%list_elem_of_singleton Hi. assert (parse_hex_32 (to_hex (node_id toy_n2)) = Some (node_id toy_n2)) as E by vm_refl.
    rewrite E in Hi. injection Hi as <-. exists toy_n2. vm_refl.
  - rewrite engine_nodes_1. intros n ->%list_elem_of_singleton. apply toy_clean; [by left|vm_refl|vm_refl].
  - rewrite engine_nodes_2. intros n ->%list_elem_of_singleton. apply toy_clean; [by right; left|vm_refl|vm_refl].
  - exists pA, pB, rA, rB, sA1, sB1, sA2, sB2, eA, eB. exact (conj H1 (conj H2 (conj H3 (conj H4 H5)))).
Defined.

(** ** A promotion *)

Definition child : bytes := bs "child".
Definition promo : bytes := bs "p1".
Definition promo_hash : bytes := content_canonical_hash {[bs "k" := JBool true]}.
(** The child is written to after the checkpoint that is proposed. *)
Definition promo_engine : HostEngine :=
  run rm [CmdProposeTopologyPromotion rm child promo_hash (bs "ref") (Some promo); CmdValidateTopologyPromotion promo]
    (run child [CmdEnsureRoom; CmdMapSet [] (bs "k") (JBool true); CmdMapSet [] (bs "late") (JBool false)]
      (run rm [CmdEnsureRoom; CmdMapSet [] (bs "own") (JBool false)] host_default)).
Lemma promo_proposal : pr_child_checkpoint_hash <$> topology_promotions promo_engine !! promo = Some promo_hash.
Proof. vm_refl. Qed.
Lemma fmap_found {A B : Type} (f : A → B) (o : option A) x y : f <$> o = Some y → o = Some x → f x = y.
Proof. intros E ->. by injection E. Qed.
Definition applied_ok (r : HostEngine * result HostFault (list HostEvent)) : bool := match r.2 with Ok _ => true | Err _ => false end.
Lemma promo_applies : applied_ok (host_apply (mkEnvelope rm (CmdApplyTopologyPromotion promo)) promo_engine) = true.
Proof. vm_refl. Qed.
Lemma applied_run r : applied_ok r = true → ∃ s' evs, r = (s', Ok evs).
Proof. destruct r as [s' [evs|e]]; [eauto|done]. Qed.
Lemma promotion_merges_proposed_checkpoint_witness :
  ∃ s' evs p, host_apply (mkEnvelope rm (CmdApplyTopologyPromotion promo)) promo_engine = (s', Ok evs) ∧
    topology_promotions promo_engine !! promo = Some p ∧ pr_child_checkpoint_hash p = promo_hash ∧
    ∃ ms n snap, room_canonical_snapshots promo_engine !! pr_child_room_id p = Some ms ∧ ms !! n = Some snap ∧
      canonical_rows_of (pr_parent_room_id p) s' = sn_rows snap ∪ canonical_rows_of (pr_parent_room_id p) promo_engine.
Proof.
  destruct (applied_run _ promo_applies) as (s'&evs&E).
  destruct (promotion_merges_proposed_checkpoint promo_engine s' rm promo evs) as (p&ms&n&snap&Hp&Hms&Hn&Hh&Hm&_); [|exact E|].
  - apply run_reachable, run_reachable, run_reachable, host_start.
  - exists s', evs, p. split; [exact E|]. split; [exact Hp|]. split; [exact (fmap_found _ _ _ _ promo_proposal Hp)|].
    exists ms, n, snap. exact (conj Hms (conj Hn Hm)).
Defined.

(** ** Maps, text and projections *)

Definition small : HostEngine := run rm [CmdEnsureRoom] host_default.
Lemma small_room : rm ∈ rooms small.
Proof. apply known_room. vm_refl. Qed.

Lemma checkpoint_rows_conflate_namespaces_witness :
  canonical_rows_of rm (run rm [CmdMapSet (bs "a") (bs "k") (JBool true); CmdMapSet (bs "b") (bs "k") (JBool false)] small) =
  <[bs "k" := JBool false]> (canonical_rows_of rm small).
Proof.
  refine (proj2 (proj2 (checkpoint_rows_conflate_namespaces small rm (bs "a") (bs "b") (bs "k") (JBool true) (JBool false) _ small_room _ _ _)));
    done.
Defined.

Definition typed_text : HostEngine := run rm [CmdTextInsert [] (bs "t") None [104]; CmdTextInsert [] (bs "t") (Some (bs "text-1")) [105]] small.
Lemma host_text_reads_witness :
  text_entries_in_rga_order (text_doc rm (bs "t") (host_apply (mkEnvelope rm (CmdTextDelete [] (bs "t") (bs "text-1"))) typed_text).1)
    ≡ₚ filter (λ e, te_id e ≠ bs "text-1") (text_entries_in_rga_order (text_doc rm (bs "t") typed_text)).
Proof.
  refine (proj2 (proj2 (proj2 (host_text_reads typed_text rm [] (bs "t") _ _ _ _))) (bs "text-1") _); [|done| |done|done].
  - apply run_reachable, run_reachable, host_start.
  - apply known_room. vm_refl.
Defined.

Definition one_row : HostEngine :=
  run rm [CmdMapSet [] (bs "k") (JBool true); CmdRegisterQuerySpec (bs "q") (bs "1") JNull; CmdBuildProjection (bs "p") (bs "q") None] small.
Definition one_row_projection : option ProjectionState := default ∅ (room_projections one_row !! rm) !! bs "p".
Lemma one_row_length : (λ p, length (pj_rows p)) <$> one_row_projection = Some 1%nat.
Proof. vm_refl. Qed.
Lemma fmap_some {A B : Type} (f : A → B) (o : option A) y : f <$> o = Some y → ∃ x, o = Some x ∧ f x = y.
Proof. destruct o as [x|]; [|done]. intros [= <-]. eauto. Qed.
Lemma read_projection_panics_iff_witness :
  (host_apply (mkEnvelope rm (CmdReadProjection (bs "p") 10 (Some (bs "offset:2")))) one_row).2 = Err Panicked.
Proof.
  destruct (fmap_some _ _ _ one_row_length) as (p&E&El).
  apply (read_projection_panics_iff one_row rm (bs "p") 10 (Some (bs "offset:2")) p); [done| |done|exact E|done|].
  - apply known_room. vm_refl.
  - left. rewrite El. by vm_compute.
Defined.

Lemma one_event : length (replay_events (graph_of rm (engine_with toy_n1)) (bs "t") 0) = 1%nat.
Proof. vm_refl. Qed.
Lemma replay_pages_complete_witness :
  replay_pages 5 (graph_of rm (engine_with toy_n1)) (bs "t") 0 1 = replay_events (graph_of rm (engine_with toy_n1)) (bs "t") 0.
Proof.
  pose proof one_event as E. revert E. generalize (graph_of rm (engine_with toy_n1)). intros g E.
  apply (replay_pages_complete g (bs "t") 0 1 5); rewrite ?E; [done|done|lia].
Defined.

(** ** The order of text *)

(** Ten characters, each typed at the front. *)
Definition typed_at_front : HostEngine := run rm ((λ c, CmdTextInsert [] (bs "t") None [c]) <$> bs "abcdefghij") small.

(** Text typed at the front of a document comes out in the wrong place from the
    tenth character on: siblings are ordered by their ids as strings, and
    [text-10] sorts between [text-1] and [text-2].  Nine characters are read back
    newest first, the tenth second to last. *)
Theorem tenth_front_insert_misplaced :
  text_string_from_entries (text_entries_in_rga_order (text_doc rm (bs "t") (run rm ((λ c, CmdTextInsert [] (bs "t") None [c]) <$> bs "abcdefghi") small)))
    = bs "ihgfedcba" ∧
  text_string_from_entries (text_entries_in_rga_order (text_doc rm (bs "t") typed_at_front)) = bs "ihgfedcbja".
Proof. split; vm_refl. Qed.

(** A child ahead of its parent in the pack. *)
Definition toy_child : SyncNode := toy_node 7 2 [OpMap (MapSet (bs "title") (bs "c"))] [node_id toy_n1].
Lemma import_settles_witness :
  node_id <$> [toy_child; toy_n1] = [node_id toy_child; node_id toy_n1] ∧
  ∀ i, i ∈ node_id <$> [toy_child; toy_n1] →
    is_Some (ns_get (g_nodes (import_nodes (empty_graph) [toy_child; toy_n1]).1) i) ∨
    i ∈ (batch_rejected (import_nodes (empty_graph) [toy_child; toy_n1]).2).*1.
Proof.
  split; [done|]. pose proof (import_settles empty_graph [toy_child; toy_n1]) as Hs.
  destruct (import_nodes empty_graph [toy_child; toy_n1]) as [g' res]. apply Hs.
Defined.
