(* ===== verification/TextLive.v ===== *)
(** The text runtime of a live graph: where it follows the replay of the log and
    where it does not. *)

From S2P Require Import Prelude Hex Op Node Policy Storage CacheFacts Fenwick TextState Text Rga.
From S2P Require Import TextChunks TextDoc TextThms Graph GraphFacts GraphOps GraphBatch Replica Toy.

(** ** Range deletes and concurrent inserts *)

Definition tl_key : bytes := bs "doc".
Definition tl_id (n : SyncNode) : OpId := mkOpId (node_lamport n) (tx_author (node_tx n)).
Definition tl_a : SyncNode := toy_node 7 1 [OpText (TextInsert tl_key None 97)] [].
Definition tl_b : SyncNode := toy_node 7 2 [OpText (TextInsert tl_key (Some (tl_id tl_a)) 98)] [node_id tl_a].
Definition tl_del : SyncNode := toy_node 7 3 [OpText (TextDeleteRange tl_key AnchorStart 2)] [node_id tl_b].
Definition tl_ins : SyncNode := toy_node 9 3 [OpText (TextInsert tl_key (Some (tl_id tl_a)) 120)] [node_id tl_b].

Definition tl_run (ns : list SyncNode) : ToyGraph := foldl (λ g n, (apply_remote g n).1) toy_graph ns.
Definition tl_g1 : ToyGraph := tl_run [tl_a; tl_b; tl_del; tl_ins].
Definition tl_g2 : ToyGraph := tl_run [tl_a; tl_b; tl_ins; tl_del].

Lemma tl_reachable ns : Forall prio_typed ns → reachable (tl_run ns).
Proof.
  intros Hty. exists ∅. split; [done|]. unfold tl_run. revert Hty.
  induction ns as [|n ns IH] using rev_ind; intros Hty; [constructor|]. rewrite foldl_app. cbn [foldl].
  apply Forall_app in Hty as [Hty Hn]. rewrite Forall_singleton in Hn.
  eapply rtc_r; [by apply IH|]. by apply (step_remote _ n None).
Qed.

Definition tl_all : list SyncNode := [tl_a; tl_b; tl_ins; tl_del].

Lemma tl_typed : Forall prio_typed tl_all.
Proof. repeat constructor; try (by vm_compute); apply (bool_decide_unpack _); by vm_compute. Qed.

(** Distinct nodes of the example differ in identity and in priority. *)
Lemma tl_distinct n m :
  n ∈ tl_all → m ∈ tl_all → node_prio n = node_prio m ∨ tx_hash (node_tx n) = tx_hash (node_tx m) → n = m.
Proof.
  intros Hn Hm.
  assert (Forall (λ n, Forall (λ m, n = m ∨ node_prio n ≠ node_prio m ∧
    tx_hash (node_tx n) ≠ tx_hash (node_tx m)) tl_all) tl_all) as Hd
    by (apply (bool_decide_unpack _); by vm_compute).
  rewrite Forall_forall in Hd. specialize (Hd n Hn). rewrite Forall_forall in Hd. specialize (Hd m Hm). tauto.
Qed.

(** A range delete keeps its window open.  Two replicas of a document "ab"
    receive the same two concurrent nodes, a delete of the first two characters
    and an insert between them, in opposite orders: the live projection deletes
    whatever stands in the window when the node arrives, so one replica shows
    the inserted character and the other the last one, although both hold the
    same honest nodes. *)
Theorem range_delete_diverges :
  reachable tl_g1 ∧ reachable tl_g2 ∧ same_ids tl_g1 tl_g2 ∧ collision_free tl_g1 tl_g2 ∧
  no_equivocation (all_nodes tl_g1) ∧ all_nodes tl_g1 = all_nodes tl_g2 ∧
  (resolve_text_seq tl_g1 tl_key).2 = [(tl_id tl_ins, 120)] ∧
  (resolve_text_seq tl_g2 tl_key).2 = [(tl_id tl_b, 98)].
Proof.
  assert (all_nodes tl_g1 ⊆ tl_all) as H1 by (apply (bool_decide_unpack _); by vm_compute).
  assert (all_nodes tl_g2 ⊆ tl_all) as H2 by (apply (bool_decide_unpack _); by vm_compute).
  split_and!.
  - apply tl_reachable. pose proof tl_typed as Ht. unfold tl_all in Ht. rewrite !Forall_cons in *. tauto.
  - apply tl_reachable, tl_typed.
  - intros i. assert (g_nodes tl_g1 = g_nodes tl_g2) as ->; [|done]. apply (bool_decide_unpack _). by vm_compute.
  - intros n m Hn%H1 Hm%H2 Hh. by rewrite (tl_distinct n m Hn Hm (or_intror Hh)).
  - intros n m Hn%H1 Hm%H1 Hp. by rewrite (tl_distinct n m Hn Hm (or_introl Hp)).
  - vm_compute. reflexivity.
  - vm_compute. reflexivity.
  - vm_compute. reflexivity.
Qed.

(** ** Two range operations in one node *)

Definition tl_five : SyncNode :=
  toy_node 7 1 [OpText (TextInsertRange tl_key AnchorStart [97; 98; 99; 100; 101])] [].
Definition tl_twice : SyncNode :=
  toy_node 7 9 [OpText (TextDeleteRange tl_key AnchorStart 1); OpText (TextDeleteRange tl_key AnchorStart 1)]
    [node_id tl_five].

(** Range operations of one node on one key are applied once per operation
    of the node when the node arrives alone, and once when it arrives in a
    batch: two deletes of one character remove four of five characters in the
    first case and two in the second, so the visible text depends on how the
    nodes were grouped on the wire. *)
Theorem range_op_applied_twice :
  let g := tl_run [tl_five] in
  (resolve_text_seq (apply_remote g tl_twice).1 tl_key).2.*2 = [101] ∧
  (resolve_text_seq (apply_remote_batch g [tl_twice]).1 tl_key).2.*2 = [99; 100; 101].
Proof. split; vm_compute; reflexivity. Qed.

(** ** Inserts and deletes of single characters *)

(** The updates of a node to one text. *)
Definition op_update (n : SyncNode) (key : bytes) (o : Op) : option ProjectionUpdateOp :=
  match o with
  | OpText (TextInsert k after ch) =>
      if decide (k = key) then Some (UpdInsert (mkOpId (node_lamport n) (tx_author (node_tx n))) after ch) else None
  | OpText (TextDelete k target) => if decide (k = key) then Some (UpdDelete target) else None
  | _ => None
  end.
Definition node_updates (key : bytes) (n : SyncNode) : list ProjectionUpdateOp := omap (op_update n key) (node_ops n).

(** No range operation on [key]. *)
Definition plain (key : bytes) (n : SyncNode) : Prop :=
  ∀ o, o ∈ node_ops n → match o with
    | OpText (TextInsertRange k _ _) | OpText (TextDeleteRange k _ _) => k ≠ key
    | _ => True
    end.

Lemma apply_node_updates key n p :
  plain key n → proj_apply_node p n key = proj_apply_updates p (node_updates key n).
Proof.
  unfold plain, proj_apply_node, node_updates. revert p. induction (node_ops n) as [|o os IH]; intros p Hp; [done|].
  csimpl. rewrite IH by (intros o' Ho'; apply Hp; by right). specialize (Hp o (list_elem_of_here _ _)).
  destruct o as [o|o|[k a ch|k x|k a t|k a l]]; try done; simpl in *; destruct (decide (k = key)); done.
Qed.

Lemma apply_nodes_updates key ns p :
  Forall (plain key) ns →
  foldl (λ p n, proj_apply_node p n key) p ns = proj_apply_updates p (ns ≫= node_updates key).
Proof.
  intros Hp. revert p. induction Hp as [|n ns Hn _ IH]; intros p; [done|]. csimpl.
  rewrite IH, apply_node_updates by done. unfold proj_apply_updates. by rewrite foldl_app.
Qed.

(** The updates a batch collects for one text. *)
Definition batch_updates (ns : list SyncNode) (key : bytes) : list ProjectionUpdateOp :=
  default [] ((batch_scan ns).1.1 !! key).

Lemma batch_op_updates n key s o :
  default [] ((batch_op n s o).1.1 !! key) = default [] (s.1.1 !! key) ++ option_list (op_update n key o).
Proof.
  destruct s as [[upd r] t]. destruct o as [o|o|[k a ch|k x|k a l|k a l]]; simpl; rewrite ?app_nil_r; try done;
    destruct (decide (k = key)) as [->|Hne]; simpl;
    rewrite ?lookup_insert_eq, ?lookup_insert_ne, ?app_nil_r by done; done.
Qed.

Lemma batch_scan_updates ns key : batch_updates ns key = ns ≫= node_updates key.
Proof.
  unfold batch_updates, batch_scan.
  assert (∀ os n s, default [] ((foldl (batch_op n) s os).1.1 !! key) =
    default [] (s.1.1 !! key) ++ omap (op_update n key) os) as Hn.
  { induction os as [|o os IH]; intros n s; csimpl; [by rewrite app_nil_r|].
    rewrite IH, batch_op_updates, <-app_assoc. by destruct (op_update n key o). }
  assert (∀ s, default [] ((foldl (λ s n, foldl (batch_op n) s (node_ops n)) s ns).1.1 !! key) =
    default [] (s.1.1 !! key) ++ (ns ≫= node_updates key)) as Hs; [|apply Hs].
  induction ns as [|n ns IH]; intros s; csimpl; [by rewrite app_nil_r|]. by rewrite IH, Hn, <-app_assoc.
Qed.

(** C22: without range operations the live text is the replayed text. Take a log of
    nodes none of which has a range operation on the key, whose updates of the key
    insert every identity with one character and one anchor that is a smaller identity,
    and are fewer than 2^30, also in the order of arrival with its repetitions. Whether
    the nodes are applied one by one in that order, or their coalesced updates are
    applied as a batch, the visible characters are those a replay of the log in the
    order of lamport, author and id produces. *)
Theorem live_text_matches_replay (ns arrivals : list SyncNode) (key : bytes) :
  Forall (plain key) ns → (∀ n, n ∈ arrivals ↔ n ∈ ns) → log_ok (batch_updates ns key) →
  4 * Z.of_nat (length (batch_updates ns key)) <= u32_max →
  4 * Z.of_nat (length (batch_updates arrivals key)) <= u32_max →
  (proj_resolve_seq (foldl (λ p n, proj_apply_node p n key) proj_default arrivals)).2 =
    resolve_text_seq_replay (T := TextProjection) ns key ∧
  (proj_resolve_seq (proj_apply_updates proj_default (batch_updates arrivals key))).2 =
    resolve_text_seq_replay (T := TextProjection) ns key.
Proof.
  intros Hp Hel Hok Hs Ha.
  assert (nodes_for_text ns ≡ₚ ns) as Hperm by apply merge_sort_Permutation.
  assert (Forall (plain key) arrivals) as Hpa.
  { rewrite Forall_forall in Hp |- *. intros n Hn. by apply Hp, Hel. }
  change (resolve_text_seq_replay ns key) with
    (build_visible_seq_pairs (foldl (λ p n, proj_apply_node p n key) proj_default (nodes_for_text ns))).
  cbn [proj_resolve_seq snd]. rewrite !apply_nodes_updates by (done || by rewrite Hperm).
  rewrite batch_scan_updates in *.
  assert (build_visible_seq_pairs (projection (nodes_for_text ns ≫= node_updates key)) =
          build_visible_seq_pairs (projection (arrivals ≫= node_updates key))) as E; [|by split].
  trans (build_visible_seq_pairs (projection (ns ≫= node_updates key))); [symmetry|];
    apply pairs_converge; try done.
  - intros u. by rewrite Hperm.
  - by rewrite Hperm.
  - intros u. rewrite !list_elem_of_bind. naive_solver.
Qed.

(** The insert of "x" arrives before the nodes it depends on. *)
Definition tl_log : list SyncNode := [tl_a; tl_b; tl_ins].
Definition tl_arrivals : list SyncNode := [tl_ins; tl_b; tl_ins; tl_a].

Lemma tl_log_ok : log_ok (batch_updates tl_log tl_key).
Proof.
  change (batch_updates tl_log tl_key) with
    [UpdInsert (tl_id tl_a) None 97; UpdInsert (tl_id tl_b) (Some (tl_id tl_a)) 98;
     UpdInsert (tl_id tl_ins) (Some (tl_id tl_a)) 120]. split.
  - intros x a ch a' ch'. rewrite !elem_of_cons, !elem_of_nil.
    intros H1 H2. repeat destruct H1 as [H1|H1]; try done; repeat destruct H2 as [H2|H2]; try done;
      simplify_eq; done.
  - intros x q ch. rewrite !elem_of_cons, !elem_of_nil.
    intros H1. repeat destruct H1 as [H1|H1]; try done; simplify_eq; vm_compute; reflexivity.
Qed.

Lemma live_text_matches_replay_witness :
  (resolve_text_seq_replay (T := TextProjection) tl_log tl_key).*2 = [97; 120; 98] ∧
  (proj_resolve_seq (foldl (λ p n, proj_apply_node p n tl_key) proj_default tl_arrivals)).2 =
    resolve_text_seq_replay (T := TextProjection) tl_log tl_key.
Proof.
  split; [vm_compute; reflexivity|].
  refine (proj1 (live_text_matches_replay tl_log tl_arrivals tl_key _ _ tl_log_ok _ _)); [| |vm_compute; discriminate..].
  - apply Forall_forall. intros n Hn o Ho. unfold tl_log in Hn. rewrite !elem_of_cons, elem_of_nil in Hn.
    destruct Hn as [->|[->|[->|[]]]]; apply list_elem_of_singleton in Ho; by subst o.
  - intros n. unfold tl_log, tl_arrivals. rewrite !elem_of_cons, !elem_of_nil. tauto.
Defined.
