(* ===== verification/DirExamples.v ===== *)
(** The durable store at concrete inputs: an upload, a failed upload, a sweep and
    two writes of nodes; the garbage collector at concrete inputs. *)

From S2P Require Import Prelude StErr Hex Op Node Toy Gc GcFacts DirStore GcStore GcStoreFacts DirFacts Persist BlobHttp.


(** ** Examples

    A store with one uploaded blob: a soft sweep that does not see it, then a hard
    sweep after the grace window. *)
#[local] Instance id_order : SqlOrder := id.
#[local] Instance id_order_laws : SqlOrderLaws.
Proof. by intros l. Qed.

Definition ex_hash : Hash := replicate 32 171.
Definition ex_name : bytes := blob_name ex_hash.
Definition ex_cfg : GcCoordinatorConfig := mkGcConfig (10 ^ 9) 100 true.
Definition ex_world (live : list bytes) : GcWorld :=
  mkGcWorld ∅ ∅ 0 (5 * 10 ^ 9) ∅ (Some (Ok live)) (mkDir [] 0 {[ex_name := [1]]} ∅ []).
Definition ex_uploaded : GcWorld := Eval vm_compute in (upsert_active_seen (bs "upload") ex_name (10 ^ 9) (ex_world [])).1.
Definition ex_soft : GcWorld := Eval vm_compute in (run_once ex_cfg SweepSoft (2 * 10 ^ 9) ex_uploaded).1.
Definition ex_ready (live : list bytes) : GcWorld := set_live ex_soft (Some (Ok live)).
Definition ex_row : AssetRecord := Eval vm_compute in row_to_record ex_name (default (mkAssetRow [] [] [] 0 0 [] None None None 0 None None 0 None 0)
  (gw_assets ex_soft !! ex_name)).

Lemma set_live_view (w : GcWorld) l : v_inv (view (set_live w l)) = v_inv (view w).
Proof. done. Qed.

Lemma view_inv_lookup (w : GcWorld) h : v_inv (view w) !! h = row_to_record h <$> gw_assets w !! h.
Proof. apply world_inv_lookup. Qed.

Lemma ex_upload : (upsert_active_seen (bs "upload") ex_name (10 ^ 9) (ex_world [])).1 = ex_uploaded.
Proof. vm_cast_no_check (eq_refl ex_uploaded). Qed.
Lemma ex_uploaded_trace : gc_trace [] ex_uploaded.
Proof.
  rewrite <-ex_upload. apply trace_upload, trace_init. vm_compute. reflexivity.
Qed.
Lemma ex_soft_run : run_once ex_cfg SweepSoft (2 * 10 ^ 9) ex_uploaded = (ex_soft, Ok (mkDelta 0 1 0 0 0)).
Proof. vm_cast_no_check (eq_refl (ex_soft, Ok (E := GcError) (mkDelta 0 1 0 0 0))). Qed.
Lemma ex_soft_trace : gc_trace [(2 * 10 ^ 9, [])] ex_soft.
Proof.
  eapply (trace_run [] ex_uploaded ex_cfg SweepSoft _ [] ex_soft); [apply ex_uploaded_trace| | | | |apply ex_soft_run].
  - unfold time_ok. lia.
  - intros ? ? []%not_elem_of_nil.
  - done.
  - vm_compute. reflexivity.
Qed.
Lemma ex_trace live : gc_trace [(2 * 10 ^ 9, [])] (ex_ready live).
Proof. exact (trace_env _ ex_soft _ ex_soft_trace (set_live_view _ _)). Qed.

Definition ex_started : GcWorld := Eval vm_compute in (start_run (mkRunStart SweepHard (4 * 10 ^ 9)) (ex_ready [])).1.
Lemma ex_start : start_run (mkRunStart SweepHard (4 * 10 ^ 9)) (ex_ready []) = (ex_started, Ok (bs "gc-5000-1")).
Proof. vm_cast_no_check (eq_refl (ex_started, Ok (E := GcError) (bs "gc-5000-1"))). Qed.
Lemma ex_rows h x : gw_assets ex_soft !! h = Some x → h = ex_name.
Proof.
  intros Hx. apply elem_of_map_to_list in Hx.
  assert (map_to_list (gw_assets ex_soft) = [(ex_name, default x (gw_assets ex_soft !! ex_name))]) as E by (by vm_compute).
  rewrite E in Hx. apply list_elem_of_singleton in Hx. exact (f_equal fst Hx).
Qed.

Lemma ex_key_obj live : local_key_scheme ex_name ∈ v_objs (world_view (ex_ready live)).
Proof. apply (local_key_has_blob _ _ ex_hash); by vm_compute. Qed.

(** A reference that came back after the soft sweep keeps the blob. *)
Lemma gc_keeps_live_witness :
  key_scheme ex_name ∈ v_objs (view (run_once ex_cfg SweepHard (4 * 10 ^ 9) (ex_ready [ex_name])).1).
Proof.
  refine (gc_keeps_live ex_cfg SweepHard (4 * 10 ^ 9) _ (ex_ready [ex_name]) ex_name (ex_trace _) _ _ _ _ (ex_key_obj _)).
  - unfold time_ok. lia.
  - intros t l [= -> _]%list_elem_of_singleton. lia.
  - done.
  - right. left. exists [ex_name]. split; [done|by left].
Defined.

Lemma gc_run_bounded_witness :
  let w' := (run_once ex_cfg SweepHard (4 * 10 ^ 9) (ex_ready [])).1 in
  v_objs (view w') ⊆ v_objs (view (ex_ready [])) ∧
  Z.of_nat (size (v_objs (view (ex_ready [])) ∖ v_objs (view w'))) <= 100.
Proof.
  assert (∀ t l, (t, l) ∈ [(2 * 10 ^ 9, [] : list bytes)] → t <= 4 * 10 ^ 9) as Hp
    by (intros t l [= -> _]%list_elem_of_singleton; lia).
  pose proof (gc_run_bounded ex_cfg SweepHard (4 * 10 ^ 9) _ (ex_ready []) (ex_trace _) ltac:(unfold time_ok; lia) Hp ltac:(done)) as Hr.
  exact (conj (proj1 Hr) (proj1 (proj2 Hr))).
Defined.

Lemma gc_collects_witness :
  ∃ w' d, run_once ex_cfg SweepHard (4 * 10 ^ 9) (ex_ready []) = (w', Ok d) ∧ asset_key ex_row ∉ v_objs (view w').
Proof.
  assert (v_inv (view (ex_ready [])) !! ar_hash ex_row = Some ex_row) as E2 by (rewrite view_inv_lookup; vm_compute; reflexivity).
  assert (static_is_pinned (gw_pins (ex_ready [])) (ar_hash ex_row) = false) as E3 by (vm_compute; reflexivity).
  assert (checked_sub (4 * 10 ^ 9) (grace_window ex_cfg) = Some (3 * 10 ^ 9)) as E4 by (vm_compute; reflexivity).
  assert (2 * 10 ^ 9 <= millis (3 * 10 ^ 9)) as E5 by (vm_compute; discriminate).
  assert (Z.of_nat (size (v_inv (view (ex_ready []))) + 0) <= Z.min 100 u64_max) as E6 by (vm_compute; discriminate).
  refine (gc_collects ex_cfg (4 * 10 ^ 9) _ (ex_ready []) ex_started (bs "gc-5000-1") [] ex_row (3 * 10 ^ 9) (2 * 10 ^ 9)
    (ex_trace []) eq_refl (not_elem_of_nil _) ex_start eq_refl _ E2 eq_refl eq_refl eq_refl E3 E4 E5 E6).
  intros h [[]%not_elem_of_nil|[r Hr]]. rewrite view_inv_lookup in Hr.
  change (gw_assets (ex_ready [])) with (gw_assets ex_soft) in Hr.
  destruct (gw_assets ex_soft !! h) as [x|] eqn:E; [|done]. apply ex_rows in E as ->. vm_compute. by eexists.
Defined.

Lemma gc_service_safe_witness :
  has_blob (gw_dir (run_new_coordinator_once (union_collect (fixed_source <$> [Ok {[ex_name]}; Ok ∅])) SweepHard
    (mkGcService (GcNew SweepHard) 0 100 true) (ex_ready [])).1) ex_hash = true.
Proof.
  assert (time_ok (5 * 10 ^ 9)) as ex_clock by (unfold time_ok; lia).
  assert (∀ t l, (t, l) ∈ [(2 * 10 ^ 9, [] : list bytes)] → t <= 5 * 10 ^ 9) as Hp
    by (intros t l [= -> _]%list_elem_of_singleton; lia).
  pose proof (gc_service_safe _ (ex_ready []) [Ok {[ex_name]}; Ok ∅] SweepHard (mkGcService (GcNew SweepHard) 0 100 true)
    (ex_trace _) ex_clock Hp ltac:(done)) as Hr.
  destruct (run_new_coordinator_once _ _ _ _) as [w' r]. refine (proj2 Hr {[ex_name]} ex_name ex_hash _ _ _ _).
  - by left.
  - by apply elem_of_singleton.
  - by vm_compute.
  - by vm_compute.
Defined.


#[local] Instance Toy_Zstd : Zstd := {|
  zstd_encode := λ _ b, Some (0 :: b);
  zstd_decode := λ c, match c with 0 :: b => Some b | _ => None end;
|}.
#[local] Instance Toy_ZstdLaws : ZstdLaws.
Proof. by intros l b c [= <-]. Qed.

Definition ex_blob : bytes := [1; 2; 3].
Definition ex_id : Hash := Eval vm_compute in blake3_hash ex_blob.
Lemma ex_id_hash : blake3_hash ex_blob = ex_id.
Proof. vm_refl. Qed.
Lemma ex_id_array : byte_array 32 ex_id.
Proof. apply (bool_decide_eq_true_1 _). vm_refl. Qed.

Definition ex_stored : DirState := Eval vm_compute in (persist_blob compression_default dir_empty ex_id ex_blob).1.
Lemma ex_stored_run : persist_blob compression_default dir_empty ex_id ex_blob = (ex_stored, Ok tt).
Proof. vm_refl. Qed.

Lemma blob_store_content_addressed_witness :
  (get_blob (persist_blob compression_default dir_empty ex_id ex_blob).1 ex_id).1 = Some ex_blob.
Proof.
  pose proof (blob_store_content_addressed compression_default dir_empty ex_blob
    (eq_ind_r (byte_array 32) ex_id_array ex_id_hash) (map_Forall_empty _)) as Hp.
  rewrite ex_id_hash in Hp. cbv zeta in Hp.
  destruct (persist_blob compression_default dir_empty ex_id ex_blob) as [s' r] eqn:E.
  rewrite ex_stored_run in E. injection E as <- <-.
  destruct (proj2 (proj2 Hp) eq_refl) as (b'&Hg&_&Hb). rewrite (Hb ltac:(vm_refl)) in Hg. exact Hg.
Defined.

(** The same upload over HTTP, and a client that reads it. *)
Definition anyone : Headers := mkHeaders None None None.
#[local] Instance ex_dir_blobs : BlobPersistence DirState := dir_blob_persistence compression_default.
Definition ex_put : Response * (DirState * option GcWorld) :=
  http_put_blob http_config_default (to_hex ex_id) anyone ex_blob true (10 ^ 9) dir_empty None.
Lemma ex_put_run : ex_put = (status_only 201, (ex_stored, None)).
Proof. vm_refl. Qed.
(** Another upload, whose first file operation fails, comes in between. *)
Definition ex_faulty : DirState := mkDir (dir_nodes ex_stored) (dir_last_seq ex_stored) (dir_blobs ex_stored) (dir_tombs ex_stored) [Some 0%nat].
Definition ex_after : DirState := (http_put_blob http_config_default (to_hex (blake3_hash [1])) anyone [1] true (10 ^ 9) ex_faulty (None : option GcWorld)).2.1.
Lemma ex_after_steps : rtc (origin_step (W := GcWorld) http_config_default compression_default) ex_stored ex_after.
Proof. eapply rtc_l; [apply (os_faults _ _ ex_stored [Some 0%nat])|]. apply rtc_once, os_put. Qed.
Lemma ex_after_quiet : dir_io ex_after = [].
Proof. vm_refl. Qed.
Lemma put_then_get_witness :
  delivers (http_get_blob http_config_default (to_hex ex_id) anyone true ex_after).1 (to_hex ex_id) (λ b, blake3_hash b = ex_id ∧ b = ex_blob).
Proof.
  pose proof (put_then_get (W := GcWorld) http_config_default compression_default (to_hex ex_id) anyone ex_blob true (10 ^ 9) dir_empty None
    (map_Forall_empty _)) as Hp.
  change (http_put_blob http_config_default (to_hex ex_id) anyone ex_blob true (10 ^ 9) dir_empty None) with ex_put in Hp.
  rewrite ex_put_run in Hp. destruct Hp as (_ & _ & _ & _ & Hg). specialize (Hg ex_after anyone ex_after_steps eq_refl ex_after_quiet). rewrite ex_id_hash in Hg.
  destruct Hg as [(b & E & Hb & Hx)|(c & b & E & Hc & Hb & Hx)]; [left; exists b|right; exists c, b]; rewrite (Hx eq_refl) in *; repeat split; assumption.
Defined.

(** One upload, told live at second 1, swept at second 2 with a grace of 3 seconds. *)
Lemma ex_stored_trace : dir_trace [] ex_stored.
Proof.
  replace ex_stored with (persist_blob compression_default dir_empty ex_id ex_blob).1 by (by rewrite ex_stored_run).
  apply dt_persist; [apply dt_init|apply ex_id_array].
Qed.
Lemma ex_listing n : n ∈ [blob_name ex_id] ↔ is_Some (dir_blobs ex_stored !! n).
Proof.
  assert (dir_blobs ex_stored = {[blob_name ex_id := ex_blob]}) as -> by vm_refl.
  rewrite list_elem_of_singleton, lookup_singleton_is_Some. naive_solver.
Qed.
Lemma sweep_keeps_live_witness :
  dir_blobs (blob_gc_sweep ∅ 2 3 [blob_name ex_id] (blob_gc_sweep {[ex_id]} 1 3 [blob_name ex_id] ex_stored).1).1 !! blob_name ex_id
  = dir_blobs (blob_gc_sweep {[ex_id]} 1 3 [blob_name ex_id] ex_stored).1 !! blob_name ex_id.
Proof.
  set (s1 := (blob_gc_sweep {[ex_id]} 1 3 [blob_name ex_id] ex_stored).1).
  assert (s1 = ex_stored) as E by vm_refl.
  assert (dir_trace ([] ++ [(1, {[ex_id]})]) s1) as Ht.
  { apply dt_sweep; [apply ex_stored_trace|set_solver|done|apply NoDup_singleton|apply ex_listing]. }
  apply (sweep_keeps_live ([] ++ [(1, {[ex_id]})]) s1 ∅ 2 3 [blob_name ex_id] ex_id (blob_name ex_id) Identity Ht).
  - intros t l [= -> _]%list_elem_of_singleton. lia.
  - done.
  - apply NoDup_singleton.
  - rewrite E. apply ex_listing.
  - apply parse_identity, ex_id_array.
  - right. exists 1, {[ex_id]}. split; [by apply list_elem_of_singleton|]. split; [by apply elem_of_singleton|done].
Defined.

(** A write to another room leaves the version of this one. *)
Definition ex_s1 : DirState := persist_node dir_empty (bs "a") toy_n1.
Definition ex_s2 : DirState := persist_node ex_s1 (bs "b") toy_n2.
Lemma room_version_detects_change_witness :
  (room_nodes_version ex_s1 (bs "a")).1 = Some 1 ∧ load_rows ex_s2 (bs "a") = load_rows ex_s1 (bs "a").
Proof.
  split; [vm_refl|].
  apply (room_version_detects_change ex_s1 ex_s2 (bs "a") 1).
  - apply rtc_once, ns_node.
  - apply rtc_once, ns_node.
  - vm_refl.
  - vm_refl.
Defined.
