(* ===== verification/RoomExamples.v ===== *)
(** The server at concrete inputs: a room over the directory store, evicted and
    loaded again, a family of rooms and a promotion, and a tree of blobs. *)

From S2P Require Import Prelude Dates Str StErr Hex Op Node Policy Frontier Storage Lww FracIdx ListCrdt Conflicts Caches CacheFacts Fenwick Utf8.
From S2P Require Import TextState Text Graph GraphFacts GraphOps GraphBatch Replica Toy Replay Compaction Gc GcStore DirStore DirFacts Persist PersistFacts.
From S2P Require Import TopoStore HostTypes TreeWalk HostState Host HostImport Room Registry Studio StudioThms Topology Promotion RegistryFacts RegistryThms TopoThms HostExamples.

(** ** Codecs *)

Definition bits_codec (A : Type) `{Countable A} : Postcard A :=
  {| pc_to := λ a, to_bits (encode a); pc_from := λ b, match of_bits b ≫= decode with Some a => Ok a | None => Err b end |}.
#[local] Instance ex_wire : Postcard (list WireNode) := bits_codec (list WireNode).
#[local] Instance ex_wire_laws : PostcardLaws (list WireNode).
Proof. intros a. cbn. by rewrite of_to_bits; cbn; rewrite decode_encode. Qed.
#[local] Instance ex_timeline : Postcard (list PolicyTimelineEntry) := {| pc_to := λ l, effective_lamport <$> l; pc_from := λ b, Err b |}.
#[local] Instance ex_hashes : Postcard (list Hash) := bits_codec (list Hash).
#[local] Instance ex_zstd : Zstd := {| zstd_encode := λ _ b, Some (0 :: b); zstd_decode := λ c, match c with 0 :: b => Some b | _ => None end |}.
#[local] Instance ex_json : Json := λ _, bs "{}".

#[local] Instance checkpoint_eq : EqDecision ParentCheckpoint.
Proof. solve_decision. Defined.
#[local] Instance checkpoint_countable : Countable ParentCheckpoint.
Proof.
  refine (inj_countable' (λ c, (pcp_frontier c, pcp_canonical_hash c, pcp_policy_timeline_hash c)) (λ '(a, b, c), mkCheckpoint a b c) _). by intros [].
Defined.
#[local] Instance lineage_eq : EqDecision RoomLineage.
Proof. solve_decision. Defined.
#[local] Instance lineage_countable : Countable RoomLineage.
Proof.
  refine (inj_countable' (λ l, (ln_parent_room_id l, ln_parent_checkpoint l, ln_child_purpose l, ln_created_by l, ln_created_at_hlc l, ln_promotion_policy_id l))
    (λ '(a, b, c, d, e, f), mkLineage a b c d e f) _). by intros [].
Defined.
#[local] Instance lifecycle_countable : Countable PromotionLifecycle.
Proof.
  refine (inj_countable' (λ l, match l with Proposed => 0 | Validated => 1 | Applied => 2 end) (λ z, if z =? 0 then Proposed else if z =? 1 then Validated else Applied) _).
  by intros [].
Defined.
#[local] Instance record_eq : EqDecision PromotionRecord.
Proof. solve_decision. Defined.
#[local] Instance record_countable : Countable PromotionRecord.
Proof.
  refine (inj_countable' (λ x, (prd_parent_room_id x, prd_child_room_id x, prd_child_checkpoint_hash x, prd_payload_ref x, prd_parent_canonical_hash_at_propose x,
      (prd_parent_canonical_hash_at_validate x, prd_lifecycle x, prd_proposal_digest x, prd_validation_digest x, prd_parent_new_canonical_hash x, prd_audit_key x)))
    (λ '(a, b, c, d, e, (f, g, h, i, j, k)), mkPromotionRecord a b c d e f g h i j k) _). by intros [].
Defined.
Definition bits_serde (A : Type) `{Countable A} : Serde A := {| to_json := λ a, to_bits (encode a); from_json := λ b, of_bits b ≫= decode |}.
#[local] Instance ex_lineage : Serde RoomLineage := bits_serde RoomLineage.
#[local] Instance ex_lineage_laws : SerdeLaws RoomLineage.
Proof. intros a. cbn. by rewrite of_to_bits; cbn; rewrite decode_encode. Qed.
#[local] Instance ex_records : Serde PromotionRecord := bits_serde PromotionRecord.
#[local] Instance ex_records_laws : SerdeLaws PromotionRecord.
Proof. intros a. cbn. by rewrite of_to_bits; cbn; rewrite decode_encode. Qed.

(** ** A server over an empty directory *)

Abbreviation Server := (Rooms DirState NoopWorld).
#[local] Instance ex_blobs : BlobPersistence DirState := dir_blob_persistence compression_default.
#[local] Instance ex_contract : PersistContract DirState := dir_contract compression_default.
Definition sv0 : Server := rooms_new dir_empty (lineage_open None) (promotion_open None) (Some 2%nat).
Lemma sv0_booted : booted sv0.
Proof.
  split; try done.
  - split; [apply (bool_decide_unpack _); vm_refl || by split|done|constructor].
  - intros room. split; constructor.
Qed.

(** A node that refers to a blob. *)
Definition ex_room : bytes := bs "room".
Definition ex_blob_hash : Hash := zeros 32.
Definition ex_node : SyncNode := toy_node 7 1 [OpMap (MapSet (bs "title") (bs "a")); OpMap (MapSetBlob (bs "pic") ex_blob_hash)] [].
Lemma ex_node_sound : sound ex_node.
Proof.
  split; [vm_refl|vm_refl|split; [by vm_compute|apply (bool_decide_unpack _); by vm_compute]| |by vm_compute].
  apply (bool_decide_unpack _). by vm_compute.
Qed.
Abbreviation sv1 := (get_or_create sv0 ex_room 0).
Abbreviation sv2 := (import_into sv1 ex_room [ex_node] 0).
Abbreviation sv3 := (hydrate sv2 ex_room).
Abbreviation sv4 := (release sv3 ex_room).
Lemma sv1_empty : pc_nodes ex_room (rs_persistence sv1) = [].
Proof. vm_refl. Qed.
Lemma ex_agree : agree [ex_node] (pc_nodes ex_room (rs_persistence sv1)).
Proof. rewrite sv1_empty. intros n m _ Hm. by apply not_elem_of_nil in Hm. Qed.
Lemma reach_step (s s' : Server) : server_reachable s → server_step s s' → server_reachable s'.
Proof. intros (s0&Hb&Hr) Hs. exists s0. split; [done|]. by eapply rtc_r. Qed.
Lemma reach_hydrate (s : Server) room : server_reachable s → server_reachable (hydrate s room).
Proof.
  intros Hs. unfold hydrate. generalize 5%nat. intros n. induction n as [|n IH]; [done|]. eapply reach_step; [exact IH|]. apply ss_hydrate.
Qed.
Lemma sv2_reachable : server_reachable sv2.
Proof.
  apply (reach_step sv1). { apply (reach_step sv0); [|exact (ss_create sv0 ex_room 0)]. exists sv0. split; [apply sv0_booted|apply rtc_refl]. }
  exact (ss_import sv1 ex_room [ex_node] 0 (Forall_cons_2 _ _ _ ex_node_sound (Forall_nil_2 _)) ex_agree).
Qed.
Lemma sv4_reachable : server_reachable sv4.
Proof. exact (reach_step sv3 sv4 (reach_hydrate sv2 ex_room sv2_reachable) (ss_release sv3 ex_room)). Qed.
Lemma sv4_nodes : pc_nodes ex_room (rs_persistence sv4) = [ex_node].
Proof. vm_refl. Qed.
Lemma ex_references : references ex_node ex_blob_hash.
Proof. exists (OpMap (MapSetBlob (bs "pic") ex_blob_hash)). split; [right; by left|done]. Qed.


Lemma collected (s : Server) now live s' :
  (collect_global_live_blob_hashes s now).1 = Some live → (collect_global_live_blob_hashes s now).2 = s' → collect_global_live_blob_hashes s now = (Some live, s').
Proof. destruct (collect_global_live_blob_hashes s now). cbn. by intros -> ->. Qed.
Lemma ex_hash_array : byte_array 32 ex_blob_hash.
Proof. apply (bool_decide_unpack _). by vm_compute. Qed.

Lemma found {A} (o : option A) (f : A → bool) : f <$> o = Some true → ∃ x, o = Some x ∧ f x = true.
Proof. destruct o as [x|]; [|done]. intros [= E]. by exists x. Qed.
Lemma sv4_hydrated : rm_hydrated <$> rs_rooms sv4 !! ex_room = Some true.
Proof. vm_refl. Qed.
Lemma sv4_idle : bool_decide (ex_room ∈ (sweep_idle sv4 5 10).2) = true.
Proof. vm_refl. Qed.

(** A node beyond the slack, on top of the first one, and a restart. *)
Definition far_node : SyncNode := toy_node 7 (2 ^ 20 + 1) [OpMap (MapSet (bs "title") (bs "z"))] [node_id ex_node].
Abbreviation sv_far := (import_into sv4 ex_room [far_node] 12).
Abbreviation sv_rebooted := (rooms_new (rs_persistence sv_far) (lineage_open None) (promotion_open None) None : Server).
Lemma far_accepted : (λ r, bool_decide (ns_get (g_nodes (rm_graph r)) (node_id far_node) = Some far_node)) <$> rs_rooms sv_far !! ex_room = Some true.
Proof. vm_refl. Qed.
Lemma rebooted (p : DirState) room :
  let s : Server := rooms_new p (lineage_open None) (promotion_open None) None in rs_persistence s = p ∧ rs_rooms s !! room = None.
Proof. split; [done|apply lookup_empty]. Qed.
Lemma far_lamport : LAMPORT_SLACK < node_lamport far_node.
Proof. by vm_compute. Qed.
Lemma far_clock_lost_on_restart_witness :
  far_node ∈ pc_nodes ex_room (rs_persistence sv_rebooted) ∧
  ∃ r2, rs_rooms (hydrate (get_or_create sv_rebooted ex_room 20) ex_room) !! ex_room = Some r2 ∧ ns_get (g_nodes (rm_graph r2)) (node_id far_node) = None.
Proof.
  destruct (found _ _ sv4_hydrated) as (r&Hr&Hh). destruct (found _ _ far_accepted) as (r1&Hr1&Hn).
  destruct (far_clock_lost_on_restart sv4 ex_room r [far_node] 12 r1 far_node sv_rebooted 20 sv4_reachable Hr Hh Hr1
    (bool_decide_eq_true_1 _ Hn) far_lamport (proj1 (rebooted (rs_persistence sv_far) ex_room)) (proj2 (rebooted (rs_persistence sv_far) ex_room))) as (Hin&r2&Hr2&_&Hno).
  split; [exact Hin|]. exists r2. split; [exact Hr2|exact Hno].
Defined.

(** ** A family of rooms *)

Lemma lineage_walk_complete_witness :
  ∃ d, describe_lineage ex_room sv4 = (sv4, Ok d) ∧ NoDup (ln_parent_room_id <$> ld_ancestors d).
Proof.
  destruct (found _ _ sv4_hydrated) as (r&Hr&_). destruct (lineage_walk_complete sv4 ex_room r Hr) as (d&E&_&_&Hn&_).
  exists d. split; [exact E|exact Hn].
Defined.

Definition ex_child : bytes := bs "child".
Abbreviation ex_cp := (match snapshot_parent_checkpoint (room_of sv4 ex_room) with Ok c => c | Err _ => mkCheckpoint [] [] None end).
Lemma sv4_lineages : rs_lineage_store sv4 = lineage_open None.
Proof. vm_refl. Qed.
Lemma ex_store_ok : lineage_store_ok (rs_lineage_store sv4).
Proof. rewrite sv4_lineages. exact I. Qed.
Lemma succeeded {S E A} (x : S * result E A) : is_ok x.2 = true → ∃ a, x = (x.1, Ok a).
Proof. destruct x as [s [a|e]]; [|done]. intros _. by exists a. Qed.
Lemma child_creates : is_ok (create_child_room ex_room ex_child ex_cp (bs "work") (bs "me") (bs "promotion-based") 3 sv4).2 = true.
Proof. vm_refl. Qed.
Lemma create_child_outcome_witness :
  ∃ s' c, create_child_room ex_room ex_child ex_cp (bs "work") (bs "me") (bs "promotion-based") 3 sv4 = (s', Ok c) ∧ is_Some (rs_rooms s' !! ex_child).
Proof.
  pose proof (create_child_outcome sv4 ex_room ex_child ex_cp (bs "work") (bs "me") (bs "promotion-based") 3 ex_store_ok) as Hx.
  destruct (succeeded _ child_creates) as [c E]. rewrite E in Hx. destruct Hx as (r&_&_&_&Er&_).
  eexists _, c. split; [exact E|]. rewrite Er, lookup_insert_eq. by eexists.
Defined.

(** A child that is stored under another parent, and not resident. *)
Definition ex_old : RoomLineage := mkLineage (bs "other") (mkCheckpoint [] [] None) (bs "work") (bs "me") 0 (bs "reference-only").
Abbreviation sv_orphan := (set_lineage_store sv4 (upsert_lineage (rs_lineage_store sv4) ex_child ex_old)).
Lemma orphan_store_ok : lineage_store_ok (rs_lineage_store sv_orphan).
Proof. apply (upsert_lineage_ok _ ex_child ex_old ex_store_ok). Qed.
Lemma orphan_parent : (λ r, match snapshot_parent_checkpoint r with Ok _ => true | Err _ => false end) <$> rs_rooms sv_orphan !! ex_room = Some true.
Proof. vm_refl. Qed.
Lemma orphan_child : rs_rooms sv_orphan !! ex_child = None.
Proof. vm_refl. Qed.
Lemma orphan_lineage : lineages (rs_lineage_store sv_orphan) !! ex_child = Some ex_old.
Proof. vm_refl. Qed.
Lemma other_parent : ln_parent_room_id ex_old ≠ ex_room.
Proof. by vm_compute. Qed.
Lemma evicted_child_reparented_witness :
  ∃ s' c, (∃ cp, create_child_room ex_room ex_child cp (bs "work") (bs "me") (bs "promotion-based") 3 sv_orphan = (s', Ok c)) ∧
    ex_child ∉ (lineage_list_children (rs_lineage_store s') (bs "other")).1.
Proof.
  destruct (found _ _ orphan_parent) as (r&Hr&Ea). destruct (snapshot_parent_checkpoint r) as [actual|e] eqn:Es; [|discriminate Ea].
  pose proof (evicted_child_reparented sv_orphan ex_room ex_child r actual ex_old (bs "work") (bs "me") (bs "promotion-based") 3
    orphan_store_ok Hr orphan_child Es orphan_lineage other_parent) as Hx.
  destruct (create_child_room _ _ _ _ _ _ _ _) as [s' res] eqn:E. destruct Hx as ((c&->)&_&Hn). exists s', c. split; [exists actual; exact E|exact Hn].
Defined.

(** ** A promotion *)

Definition child_node : SyncNode := toy_node 7 1 [OpMap (MapSet (bs "title") (bs "b"))] [].
Abbreviation sv5 := (create_child_room ex_room ex_child ex_cp (bs "work") (bs "me") (bs "promotion-based") 3 sv4).1.
Definition sv6 : Server := import_into (hydrate sv5 ex_child) ex_child [child_node] 4.
Definition ex_hash : bytes := match snapshot_room_canonical_hash (room_of sv6 ex_child) with Ok h => h | Err _ => [] end.
Definition propose_msg (h : bytes) : Value :=
  jobj [(bs "parent_room_id", JString ex_room); (bs "child_room_id", JString ex_child); (bs "child_checkpoint_hash", JString h);
        (bs "payload_ref", JString (bs "ref")); (bs "idempotency_key", JString (bs "p1"))].
Definition proposal_msg : Value := jobj [(bs "proposal_id", JString (bs "p1"))].
(** Two validations that take turns between a proposal and an application. *)
Abbreviation ExPool := (Pool (P := DirState) (W := NoopWorld)).
Abbreviation ExTask := (AnyTask (P := DirState) (W := NoopWorld)).
Definition act (t : nat) (c : ExPool) : ExPool :=
  match po_tasks c !! t with
  | Some task => let '(s, task', e) := task_act task (po_rooms c) in mkPool s (<[t := task']> (po_tasks c)) (note t e (po_log c))
  | None => c
  end.
Definition call (t : nat) (task : ExTask) (c : ExPool) : ExPool :=
  match po_tasks c !! t with
  | None => if decide (t ∈ (po_log c).*1) then c else mkPool (po_rooms c) (<[t := task]> (po_tasks c)) (po_log c)
  | Some _ => c
  end.
Fixpoint acts (ts : list nat) (c : ExPool) : ExPool := match ts with [] => c | t :: ts => acts ts (act t c) end.
Lemma act_steps t c : rtc pool_step c (act t c).
Proof.
  unfold act. destruct c as [s tasks log]. cbn. destruct (tasks !! t) as [task|] eqn:Et; [|done]. destruct (task_act task s) as [[s' task'] e] eqn:Ea.
  by eapply rtc_once, po_act.
Qed.
Lemma call_steps t task c : handler task → rtc pool_step c (call t task c).
Proof. intros Hh. unfold call. destruct c as [s tasks log]. cbn. destruct (tasks !! t) eqn:Et; [done|]. case_decide; [done|]. by apply rtc_once, po_call. Qed.
Lemma acts_steps ts c c' : rtc pool_step c c' → rtc pool_step c (acts ts c').
Proof. revert c'. induction ts as [|t ts IH]; intros c' Hc; [done|]. cbn. apply IH. etrans; [exact Hc|apply act_steps]. Qed.
Definition turns (ts : list nat) : list nat := concat (repeat ts 12).
Definition pool_of (m1 m2 : Value) (s : Server) : ExPool :=
  let c := acts (turns [0%nat]) (call 0 (existT _ (propose_task m1 5)) (mkPool s ∅ [])) in
  let c := acts (turns [1; 2]%nat) (call 2 (existT _ (validate_task m2 6)) (call 1 (existT _ (validate_task m2 6)) c)) in
  acts (turns [3%nat]) (call 3 (existT _ (apply_task toy_sk m2 7)) c).
Lemma pool_runs (m1 m2 : Value) (s : Server) : rtc pool_step (mkPool s ∅ []) (pool_of m1 m2 s).
Proof.
  apply acts_steps. etrans; [|apply call_steps; constructor]. apply acts_steps. etrans; [|apply call_steps; constructor].
  etrans; [|apply call_steps; constructor]. apply acts_steps, call_steps. constructor.
Qed.
Definition ex_pool : ExPool := pool_of (propose_msg ex_hash) proposal_msg sv6.
Lemma sv6_store : rs_promotion_store sv6 = promotion_open None.
Proof. vm_refl. Qed.
Lemma sv6_no_promotions : promotions (rs_promotion_store sv6) = ∅.
Proof. rewrite sv6_store. reflexivity. Qed.
Lemma promotion_applied : (λ x, bool_decide (prd_lifecycle x = Applied)) <$> promotions (rs_promotion_store (po_rooms ex_pool)) !! bs "p1" = Some true.
Proof. vm_refl. Qed.
Lemma promotions_justified_witness :
  rtc pool_step (mkPool sv6 ∅ []) ex_pool ∧
  ∃ x, promotions (rs_promotion_store (po_rooms ex_pool)) !! bs "p1" = Some x ∧ prd_lifecycle x = Applied ∧ justified (po_log ex_pool) (bs "p1") x.
Proof.
  split; [exact (pool_runs _ _ _)|]. destruct (found _ _ promotion_applied) as (x&Hx&Hl). exists x. split; [exact Hx|].
  split; [exact (bool_decide_eq_true_1 _ Hl)|].
  exact (proj1 (promotions_justified sv6 ex_pool sv6_no_promotions (pool_runs _ _ _)) (bs "p1") x Hx).
Defined.

(** The audit node, the next tick, and a restart. *)
Definition ex_record : PromotionRecord := mkPromotionRecord ex_room ex_child [] (bs "ref") [] None Validated [] None None None.
Definition ex_applied : Server * result PromotionRejected PromotionApplied := apply_commit (bs "p1") toy_sk ex_record sv4.
Definition ex_write : CanonicalWrite := mkWrite (bs "title") (bs "c").
Definition ex_ticked : Room * DirState * option bytes :=
  tick_commit (room_of ex_applied.1 ex_room) ex_room (rs_persistence ex_applied.1) toy_sk [ex_write].
Definition sv_restarted : Server := rooms_new ex_ticked.1.2 (lineage_open None) (promotion_open None) None.
Lemma ex_applied_ok : is_ok ex_applied.2 = true.
Proof. vm_refl. Qed.
Lemma ex_ticked_ok : (λ _, true) <$> ex_ticked.2 = Some true.
Proof. vm_refl. Qed.
Lemma ex_clock : (λ r, g_lamport (rm_graph r) <? LAMPORT_SLACK) <$> rs_rooms sv4 !! ex_room = Some true.
Proof. vm_refl. Qed.
Lemma ex_clock_after : (g_lamport (rm_graph (room_of ex_applied.1 ex_room)) <? LAMPORT_SLACK) = true.
Proof. vm_refl. Qed.
Lemma applied_eq (x y : Server * result PromotionRejected PromotionApplied) a : x = y → x = (x.1, Ok a) → y = (x.1, Ok a).
Proof. by intros <-. Qed.
Lemma ticked_eq (x y : Room * DirState * option bytes) pack : x = y → x.2 = Some pack → y = (x.1.1, x.1.2, Some pack).
Proof. intros <-. destruct x as [[? ?] ?]. cbn. by intros ->. Qed.
Lemma ex_applied_def : ex_applied = apply_commit (bs "p1") toy_sk ex_record sv4.
Proof. unfold ex_applied. reflexivity. Qed.
Lemma ex_ticked_def : ex_ticked = tick_commit (room_of ex_applied.1 ex_room) ex_room (rs_persistence ex_applied.1) toy_sk [ex_write].
Proof. unfold ex_ticked. reflexivity. Qed.
Lemma new_store (p : DirState) : rs_persistence (rooms_new p (lineage_open None) (promotion_open None) None : Server) = p.
Proof. done. Qed.
Lemma new_rooms (p : DirState) room : rs_rooms (rooms_new p (lineage_open None) (promotion_open None) None : Server) !! room = None.
Proof. done. Qed.
Lemma restarted_store : rs_persistence sv_restarted = ex_ticked.1.2.
Proof. unfold sv_restarted. apply new_store. Qed.
Lemma restarted_rooms : rs_rooms sv_restarted !! ex_room = None.
Proof. unfold sv_restarted. apply new_rooms. Qed.
Lemma writes_after_promotion_lost_witness :
  ∃ r3, rs_rooms (hydrate (get_or_create sv_restarted ex_room 9) ex_room) !! ex_room = Some r3 ∧ rm_hydrated r3 = true ∧
    ns_get (g_nodes (rm_graph r3)) (node_id (local_node (rm_graph (room_of ex_applied.1 ex_room)) toy_sk 0 (tick_op <$> [ex_write]))) = None.
Proof.
  destruct (found _ _ sv4_hydrated) as (r&Hr&Hh). destruct (succeeded _ ex_applied_ok) as [a Ea]. destruct (found _ _ ex_ticked_ok) as (pack&Et&_).
  pose proof ex_clock as Hl. rewrite Hr in Hl. injection Hl as Hl%Z.ltb_lt.
  destruct (writes_after_promotion_lost sv4 ex_room r (bs "p1") toy_sk ex_record a ex_applied.1 toy_sk ex_write [] ex_ticked.1.1 ex_ticked.1.2 pack sv_restarted 9
    sv4_reachable Hr Hh eq_refl Hl (applied_eq _ _ _ ex_applied_def Ea) (proj1 (Z.ltb_lt _ _) ex_clock_after)
    (ticked_eq _ _ _ ex_ticked_def Et) restarted_store restarted_rooms) as [_ (r3&Hr3&Hh3&_&Hn)].
  exists r3. split; [exact Hr3|]. split; [exact Hh3|exact Hn].
Defined.

(** ** Trees of blobs *)

(** Three texts: a directory with a file and a directory, the directory below, and a
    snapshot of it. *)
Definition leaf_file : Hash := repeat 9 32.
Definition low_tree : Hash := hash_of [2].
Definition top_tree : Hash := hash_of [1].
#[local] Instance ex_read : JsonRead := λ b,
  match b with
  | [1] => Some (jobj [(bs "version", JNumber 2);
             (bs "entries", JArray [jobj [(bs "n", JString (bs "sub")); (bs "k", JString (bs "d")); (bs "h", JString (to_hex low_tree))]])])
  | [2] => Some (jobj [(bs "version", JNumber 1); (bs "entries", jobj [(bs "file", JString (to_hex leaf_file))])])
  | [3] => Some (jobj [(bs "payload", jobj [(bs "SnapshotId", JString (bs "s1")); (bs "RepositoryId", JString (bs "r")); (bs "TreeHash", JString (to_hex top_tree));
             (bs "Generation", JNumber 1); (bs "CreatedAt", JString (bs "2024-01-01T00:00:00Z"))])])
  | _ => None
  end.
Definition ex_fetch (h : Hash) : result HydrateError bytes :=
  if decide (h = top_tree) then Ok [1] else if decide (h = low_tree) then Ok [2] else Err HydrateMissing.
Lemma top_read : read_tree ex_fetch top_tree = Ok ([], [low_tree]).
Proof. vm_refl. Qed.
Lemma low_read : read_tree ex_fetch low_tree = Ok ([leaf_file], []).
Proof. vm_refl. Qed.
Lemma ex_readable h files dirs : read_tree ex_fetch h = Ok (files, dirs) → h ∈ ({[top_tree; low_tree]} : gset Hash) ∧ (length dirs <= 1)%nat.
Proof.
  destruct (decide (h = top_tree)) as [->|Ht]. { rewrite top_read. intros [= <- <-]. split; [set_solver|done]. }
  destruct (decide (h = low_tree)) as [->|Hl]. { rewrite low_read. intros [= <- <-]. split; [set_solver|cbn; lia]. }
  unfold read_tree, ex_fetch. rewrite decide_False, decide_False by done. done.
Qed.
Lemma ex_walks : match walk_tree_into ex_fetch 5 top_tree ∅ ∅ with Some (Ok _) => true | _ => false end = true.
Proof. vm_refl. Qed.
Lemma trees_size : (size ({[top_tree; low_tree]} : gset Hash) <= 2)%nat.
Proof. apply (bool_decide_unpack _). by vm_compute. Qed.
Lemma tree_walk_exact_witness :
  ∃ live expanded, walk_tree_into ex_fetch 5 top_tree ∅ ∅ = Some (Ok (live, expanded)) ∧ leaf_file ∈ live.
Proof.
  assert (S (size ({[top_tree; low_tree]} : gset Hash) * 2) <= 5)%nat as Hf by (pose proof trees_size; lia).
  pose proof (tree_walk_exact ex_fetch {[top_tree; low_tree]} 1 5 top_tree ∅ ∅ ex_readable Hf (closed_empty _)) as Hx.
  pose proof ex_walks as Hw. destruct (walk_tree_into ex_fetch 5 top_tree ∅ ∅) as [[[live expanded]|e]|]; [|discriminate Hw..].
  destruct Hx as [_ Hl]. exists live, expanded. split; [reflexivity|]. apply Hl. right. right. exists low_tree. split.
  - apply rtc_once. exists [], [low_tree]. split; [exact top_read|by left].
  - exists [leaf_file], []. split; [exact low_read|by left].
Defined.

Definition ex_snapshot : ParsedSnapshot := mkSnapshot (bs "s1") (bs "r") (to_hex top_tree) 1 0 None None None.
Lemma repository_head_retained_witness : ∃ h, is_head [ex_snapshot] (bs "r") h ∧ ss_snapshot_id h ∈ classify_repo_room [ex_snapshot] [] 30 (10 ^ 18).
Proof.
  destruct (repository_head_retained [ex_snapshot] [] 30 (10 ^ 18) ex_snapshot) as (h&Hh&Hk&_); [by left|]. exists h. split; [exact Hh|exact Hk].
Defined.

(** A room with a snapshot record over a store with the blobs of its tree. *)
Definition studio_node : SyncNode := toy_node 7 1 [OpMap (MapSet (bs "studio/repository-snapshot/v1/s1") [3])] [].
Definition studio_store : DirState :=
  persist_node (persist_blob compression_default (persist_blob compression_default dir_empty top_tree [1]).1 low_tree [2]).1 (bs "repo/r") studio_node.
Definition sv_studio : Server := rooms_new studio_store (lineage_open None) (promotion_open None) None.
Definition studio_run : Server * option (result (bytes * StudioError) (gset bytes)) := collect_studio_live_hashes (bs "dir") 9 30 (10 ^ 18) sv_studio.
Definition keeps_leaf (r : option (result (bytes * StudioError) (gset bytes))) : bool :=
  match r with Some (Ok live) => bool_decide (to_hex leaf_file ∈ live) | _ => false end.
Lemma studio_ok : keeps_leaf studio_run.2 = true.
Proof. vm_refl. Qed.
Lemma studio_quiet : pc_quiet (rs_persistence sv_studio).
Proof. unfold pc_quiet, ex_contract, dir_contract. vm_refl. Qed.
Lemma studio_nodes : pc_nodes (bs "repo/r") (rs_persistence sv_studio) = [studio_node].
Proof. vm_refl. Qed.
Lemma ran (x : Server * option (result (bytes * StudioError) (gset bytes))) :
  keeps_leaf x.2 = true → ∃ live, x = (x.1, Some (Ok live)) ∧ to_hex leaf_file ∈ live.
Proof. destruct x as [s [[live|e]|]]; [|done..]. cbn [keeps_leaf snd]. intros Hl%bool_decide_eq_true. by exists live. Qed.
Lemma studio_run_def : studio_run = collect_studio_live_hashes (bs "dir") 9 30 (10 ^ 18) sv_studio.
Proof. unfold studio_run. reflexivity. Qed.
