(* ===== verification/SessionExamples.v ===== *)
(** The server at concrete sessions: codecs that have the laws the theorems on sessions
    and archives ask for, and the inputs where those theorems apply. *)

From S2P Require Import Prelude Str StErr Hex Op Node Policy Frontier Storage Lww FracIdx ListCrdt Conflicts Caches CacheFacts Fenwick Utf8.
From S2P Require Import TextState Text Graph GraphFacts GraphOps GraphBatch Replica Toy Replay Compaction Ibf Mst Gc GcStore DirStore Persist.
From S2P Require Import TopoStore HostTypes TreeWalk HostState Host HostThms Room Query Token Profile Glob Registry Wire Topology Promotion Archive Session.
From S2P Require Import SessionThms HostExamples.

(** ** JSON *)

Fixpoint value_tree (v : Value) : gen_tree (bytes + Z) :=
  match v with
  | JNull => GenNode 0 []
  | JBool b => GenNode 1 [GenLeaf (inr (Z.b2z b))]
  | JNumber n => GenNode 2 [GenLeaf (inr n)]
  | JFloat t => GenNode 3 [GenLeaf (inl t)]
  | JString s => GenNode 4 [GenLeaf (inl s)]
  | JArray l => GenNode 5 (map value_tree l)
  | JObject m => GenNode 6 (map (λ kv, GenNode 7 [GenLeaf (inl kv.1); value_tree kv.2]) m)
  end.
Fixpoint tree_value (t : gen_tree (bytes + Z)) : Value :=
  match t with
  | GenNode 1 [GenLeaf (inr z)] => JBool (z =? 1)
  | GenNode 2 [GenLeaf (inr n)] => JNumber n
  | GenNode 3 [GenLeaf (inl t)] => JFloat t
  | GenNode 4 [GenLeaf (inl s)] => JString s
  | GenNode 5 l => JArray (map tree_value l)
  | GenNode 6 l => JObject (map (λ t, match t with GenNode _ [GenLeaf (inl k); v] => (k, tree_value v) | _ => ([], JNull) end) l)
  | _ => JNull
  end.
Fixpoint tree_of_value (v : Value) : tree_value (value_tree v) = v.
Proof.
  destruct v as [|b|n|t|s|l|m]; cbn.
  - done.
  - by destruct b.
  - done.
  - done.
  - done.
  - f_equal. induction l as [|v l IH]; [done|]. cbn. by rewrite tree_of_value, IH.
  - f_equal. induction m as [|[k v] m IH]; [done|]. cbn. by rewrite tree_of_value, IH.
Qed.

#[local] Instance tree_json : Json := λ v, [Zpos (encode (value_tree v))].
#[local] Instance tree_read : JsonRead := λ b, match b with [Zpos p] => tree_value <$> decode p | _ => None end.
#[local] Instance tree_envelopes : EnvelopeJson := λ e, json_print (jobj e).
Lemma parse_print v : json_parse (json_print v) = Some v.
Proof. unfold json_parse, json_print, tree_read, tree_json. rewrite decode_encode. cbn. by rewrite tree_of_value. Qed.
#[local] Instance tree_envelope_laws : EnvelopeJsonLaws.
Proof. intros e _. apply parse_print. Qed.
#[local] Instance tree_text_laws : TextJsonLaws.
Proof. intros fields. apply parse_print. Qed.

(** ** The other codecs *)

#[local] Existing Instance Bits_Postcard.
#[local] Existing Instance Bits_PackLaws.
#[local] Instance lamport_timeline : Postcard (list PolicyTimelineEntry) := {| pc_to := λ l, effective_lamport <$> l; pc_from := λ b, Err b |}.
#[local] Instance no_ibf : Postcard Ibf := {| pc_to := λ _, []; pc_from := λ b, Err b |}.
#[local] Instance no_serde {A} : Serde A := {| to_json := λ _, []; from_json := λ _, None |}.
#[local] Instance no_caps : CapsFromValue := λ _, None.
#[local] Instance silent_responses : ResponseJson := {| archive_json := λ _, None; topology_json := λ _, None |}.
#[local] Instance unlimited : RateLimiting unit := {| limiter_new := λ _, tt; check_n := λ l _, (l, RateAdmits) |}.
#[local] Instance shelf_urls {P} : UrlPersistence P := Session.no_urls P.
Definition manifest_fields (m : ExternalArchiveManifest) :=
  (em_format_version m, em_source_room m, min_supported (em_compatibility_window m), max_supported (em_compatibility_window m),
   em_payload_digest_policy m, em_policy_timeline_hash m, em_policy_timeline_cutover_lamport m, em_policy_timeline_transition_cutovers m,
   (λ s, (ms_public_key s, ms_signature s)) <$> em_signature m).
#[local] Instance tuple_manifests : ManifestJson := {|
  manifest_print := λ d, [Zpos (encode (manifest_fields (read_of d)))];
  manifest_parse := λ b,
    match b with
    | [Zpos p] => (λ '(fv, sr, lo, hi, dp, th, tc, cuts, sig), mkManifest fv sr (mkWindow lo hi) dp th tc cuts
                     ((λ ps, mkManifestSignature ps.1 ps.2) <$> (sig : option (bytes * bytes)))) <$> decode p
    | _ => None
    end;
  checkpoint_from_value := λ _, None;
|}.
#[local] Instance tuple_manifest_laws : ManifestJsonLaws.
Proof. intros d. cbn. rewrite decode_encode. by destruct d as [? ? ? ? [] ? ? ? ? []]. Qed.

#[local] Instance count_hashes : Postcard (list Hash) := count_postcard (list Hash).
#[local] Instance count_hash_laws : PostcardLaws (list Hash).
Proof. exact (count_postcard_laws (list Hash)). Qed.

(** A store that has two nodes for every room. *)
Inductive Shelf := shelf.
#[local] Instance shelf_nodes : NodePersistence Shelf := {|
  np_load_room_nodes := λ _ p, ([toy_n1; toy_n2], p);
  np_persist_node := λ _ _ p, p;
  np_persist_nodes := λ _ _ p, p;
  np_durable := λ _, true;
  np_known_room_ids := λ p, ([], p);
  np_can_enumerate_rooms := λ _, false;
  np_room_nodes_version := λ _ p, (None, p);
|}.
#[local] Instance shelf_blobs : BlobPersistence Shelf := {|
  bp_get_blob := λ _ p, (None, p);
  bp_persist_blob := λ _ _ p, (p, Ok tt);
  bp_has_blob := λ _ _, false;
  bp_get_blob_hydrates := λ _, false;
  bp_blob_gc_sweep := λ _ _ _ _ p, (p, 0);
  bp_durable := λ _, false;
|}.

(** ** A server *)

Definition at_room : bytes := bs "r".
Definition shelf_io : ArchiveIo := mkArchiveIo None ∅ ∅.
Definition shelf_rooms : Rooms Shelf unit := rooms_new shelf (lineage_open None) (promotion_open None) None.
Definition the_budget : ScopeCatchupBudget := mkBudget 100 100000.
Definition no_entries (g : CapGraph) : list (bytes * list bytes) := [].
Definition no_profile : result bytes (option CapabilityProfile) := Ok None.
Definition toy_room : Room := with_graph (room_new 0) toy_g1.
Definition room_conn (r : Room) : Conn Shelf unit unit :=
  mkConn (set_room shelf_rooms at_room r) shelf_io (from_hello_value JNull) None None [] [] [].
Definition guest : SessionInfo := mkSessionInfo at_room (bs "guest") false ∅ Token.caps_default None.
Definition calm : Env := mkEnv 1 1000 None (Ok 1).

(** *** A guest compacts a room *)

Definition compact_msg : Value := JObject [(bs "type", JString (bs "compact-room"))].
Lemma compact_room_resets_witness :
  let r' := its_room guest (handle_client_message (P := Shelf) (W := unit) (L := unit) (bs "dir") (mkBuildLimits 10) toy_sk guest calm
    (json_print compact_msg) (room_conn toy_room)).1 in
  compact_map (rm_graph r') = ∅ ∧ g_policy (rm_graph r') = policy_default ∧ rm_policy_timeline r' = [mkEntry 0 policy_default].
Proof.
  pose proof (compact_room_resets (P := Shelf) (W := unit) (L := unit) (bs "dir") (mkBuildLimits 10) toy_sk guest calm
    (json_print compact_msg) compact_msg (room_conn toy_room)) as Ht.
  apply Ht; [apply parse_print|reflexivity|exact toy_reachable_1|apply Z.leb_le; by vm_compute].
Defined.

(** *** A client joins and counts *)

Definition hello_msg (fields : list (bytes * Value)) : Value :=
  JObject ((bs "type", JString (bs "hello")) :: (bs "pubkey", JString (bs "guest")) :: fields).
Abbreviation ShelfSys := (Sys Shelf unit unit).
Abbreviation shelf_step := (sys_step (P := Shelf) (W := unit) (L := unit) (bs "dir") (mkBuildLimits 10) toy_sk no_entries no_profile 0 0 the_budget 8).
Definition next (o : option (ShelfSys * list Out)) (sy : ShelfSys) : ShelfSys := match o with Some (sy', _) => sy' | None => sy end.
Definition greet (id : Z) (sy : ShelfSys) : ShelfSys :=
  next (on_hello toy_sk no_entries no_profile 0 0 8 sy id (FirstText (json_print (hello_msg []))) 1000 []) sy.
Definition proceed (id : Z) (sy : ShelfSys) : ShelfSys :=
  if decide (Z.of_nat (size (sy_conns sy)) <= usize_max) then next (handshake_step toy_sk the_budget 8 sy id 6 [] []) sy else sy.
Lemma greet_steps id sy : rtc shelf_step sy (greet id sy).
Proof. unfold greet, next. destruct (on_hello _ _ _ _ _ _ _ _ _ _ _) as [[sy' out]|] eqn:E; [|done]. by eapply rtc_once, sys_hello. Qed.
Lemma proceed_steps id sy : rtc shelf_step sy (proceed id sy).
Proof.
  unfold proceed, next. case_decide; [|done]. destruct (handshake_step _ _ _ _ _ _ _ _) as [[sy' out]|] eqn:E; [|done]. by eapply rtc_once, sys_handshake.
Qed.
(** Two connections of one peer take turns until one runs and the other is counted. *)
Definition empty_sys : ShelfSys := sys_new shelf (lineage_open None) (promotion_open None) None shelf_io.
Definition waiting : ShelfSys := connect (connect empty_sys 1 at_room 5) 2 at_room 5.
Definition joined : ShelfSys :=
  proceed 1 (proceed 1 (proceed 2 (proceed 1 (proceed 2 (proceed 1 (proceed 1 (greet 2 (greet 1 waiting)))))))).
Lemma waiting_steps : rtc shelf_step empty_sys waiting.
Proof. eapply rtc_l; [by apply (sys_connect _ _ _ _ _ _ _ _ _ _ 1)|]. by apply rtc_once, sys_connect. Qed.
Lemma joined_steps : rtc shelf_step empty_sys joined.
Proof.
  etrans; [exact waiting_steps|]. do 2 (etrans; [apply greet_steps|]). unfold joined.
  repeat (etrans; [|apply proceed_steps]). done.
Qed.
Definition two_sessions (sy : ShelfSys) : bool :=
  bool_decide (rm_peer_sessions (room_of (sy_rooms sy) at_room) = {[bs "guest" := 2]}) &&
  match sy_conns sy !! 1, sy_conns sy !! 2 with Some (Running _), Some (Joining _ _ _) => true | _, _ => false end.
Lemma sessions_counted_witness :
  two_sessions joined = true ∧
  ∀ room, room ∈ rs_handles (sy_rooms joined) ↔ ∃ id t, sy_conns joined !! id = Some t ∧ phase_room t = room.
Proof.
  split; [by vm_compute|].
  exact (proj1 (proj2 (sessions_counted (W := unit) (bs "dir") (mkBuildLimits 10) toy_sk no_entries no_profile 0 0 the_budget 8
    shelf (lineage_open None) (promotion_open None) None shelf_io joined joined_steps))).
Defined.

(** *** A pack is relayed *)

Definition only_lists : Subscription := from_hello_value (JArray [JString (bs "l*")]).
Definition reader (sub : Subscription) (inbox : list bytes) : Live unit := mkLive guest sub None None inbox false.
Lemma push_delivers_subscription_witness :
  ∃ c' text, on_event (P := Shelf) (W := unit) (bs "dir") (mkBuildLimits 10) toy_sk calm
      (reader only_lists [relay_text (bs "peer") [toy_n1; toy_n2] (bs "root")]) EvPush (room_conn toy_room) = Some (c', true) ∧
    cn_out c' = [OutText text] ∧ reads_pack text (bs "peer") (Some (bs "root")) [toy_n1].
Proof.
  assert (filter (λ n, accepts_node only_lists n = true) [toy_n1; toy_n2] = [toy_n1]) as Ek by (by vm_compute).
  destruct (push_delivers_subscription (P := Shelf) (W := unit) (bs "dir") (mkBuildLimits 10) toy_sk calm
      (reader only_lists [relay_text (bs "peer") [toy_n1; toy_n2] (bs "root")]) (room_conn toy_room) (bs "peer") [toy_n1; toy_n2] (bs "root") [])
    as (c' & Hc & _ & _ & [(text & Ho & Hr & _)|[_ [Hf|Hk]]]).
  - reflexivity.
  - reflexivity.
  - constructor; [exact toy_typed_1|constructor; [exact toy_typed_2|constructor]].
  - reflexivity.
  - exists c', text. split; [exact Hc|]. split; [exact Ho|].
    cbn [lv_sub reader] in Hr. rewrite Ek in Hr. exact Hr.
  - discriminate Hf.
  - cbn [lv_sub reader] in Hk. rewrite Ek in Hk. discriminate Hk.
Defined.

(** *** A handshake *)

Definition knows_first : Value := hello_msg [(bs "frontier", JArray [JString (to_hex (node_id toy_n1))])].
Lemma handshake_catches_up_witness :
  ∃ (c' : Conn Shelf unit unit) (sent : list SyncNode), run_handshake (P := Shelf) (W := unit) toy_sk no_entries no_profile 0 0 the_budget at_room (FirstText (json_print knows_first)) 5 1000 []
      (room_conn toy_room) = (c', Ok (HsOpen (mkLive (mkSessionInfo at_room (bs "guest") false ∅ (negotiate_capabilities Token.caps_default) None)
        (from_hello_value JNull) None None [] false))) ∧
    ∀ n, n ∈ sent ↔ n ∈ all_nodes toy_g1 ∧ (node_id n ∉ [node_id toy_n1]) ∧ accepts_node (from_hello_value JNull) n = true.
Proof.
  destruct (handshake_catches_up (P := Shelf) (W := unit) toy_sk no_entries no_profile 0 0 the_budget at_room (json_print knows_first) knows_first 5 1000 []
      (room_conn toy_room) toy_room (mkLive (mkSessionInfo at_room (bs "guest") false ∅ (negotiate_capabilities Token.caps_default) None)
        (from_hello_value JNull) None None [] false)) as (c' & sent & _ & Hc & _ & Hs & _).
  - unfold classify_hello_payload. by rewrite parse_print.
  - reflexivity.
  - apply lookup_insert_eq.
  - exact toy_reachable_1.
  - reflexivity.
  - right. reflexivity.
  - by vm_compute.
  - by vm_compute.
  - reflexivity.
  - reflexivity.
  - exists c', sent. split; [exact Hc|]. intros n. rewrite (Hs n).
    assert (parse_client_frontier_node_ids knows_first = [node_id toy_n1]) as -> by (by vm_compute). done.
Defined.

(** *** An archive *)

Definition exported : (Room * Shelf * ArchiveIo) * result ArchiveRejected ArchiveExported :=
  export_room (bs "dir") at_room at_room (bs "file:///a.json") toy_sk (Ok 7) (toy_room, shelf, shelf_io).
Lemma exported_archive_validates_witness :
  match (validate_loaded (bs "dir") at_room (bs "file:///a.json") (bs "metadata_only") (toy_room, exported.1.1.2, exported.1.2)).2 with
  | Ok v => av_accepted v = true
  | Err e => False
  end.
Proof.
  destruct exported.2 as [ex|] eqn:E; [|vm_compute in E; discriminate E].
  assert (export_room (bs "dir") at_room at_room (bs "file:///a.json") toy_sk (Ok 7) (toy_room, shelf, shelf_io) = (exported.1, Ok ex)) as He
    by (rewrite <-E; exact (surjective_pairing exported)).
  assert (Forall (λ e, 0 <= effective_lamport e) (rm_policy_timeline toy_room)) as Hl by (constructor; [apply Z.le_refl|constructor]).
  assert (∀ path cached, manifest_path shelf_io (bs "file:///a.json") = Some path → io_cache shelf_io !! path = Some cached →
    modified_unix_nanos (cm_revision cached) ≠ 7) as Hc by (intros path cached _ Hx; cbn [io_cache shelf_io] in Hx; rewrite lookup_empty in Hx; discriminate Hx).
  pose proof (exported_archive_validates (bs "dir") at_room at_room (bs "file:///a.json") toy_sk 7 (toy_room, shelf, shelf_io) exported.1 ex
    (bs "metadata_only") toy_room He) as Ht.
  assert (utrim at_room = at_room) as Hu by (by vm_compute).
  specialize (Ht Hu ltac:(discriminate) Hl Hc ltac:(discriminate) (or_introl eq_refl)).
  destruct (validate_loaded _ _ _ _ _).2 as [v|e]; [exact (proj1 Ht)|exact (proj2 Ht eq_refl)].
Defined.
